(* ===== verification/_CoqProject ===== *)
-Q . S2P
Prelude.v
Links.v
Buffer.v
SocketUtil.v
TcpSocket.v
ThreadPool.v
TaskPool.v
NetWork.v
DbMysql.v
Coding.v
Crc32c.v
Interfaces.v
Bloom.v
Comparator.v
Dbformat.v
Status.v
WriteBatch.v
Log.v
Random.v
Cache.v
Env.v
FileName.v
Arena.v
FilterBlock.v
Cursor.v
Block.v
Format.v
TableBuilder.v
SkipList.v
MemTable.v
Iterators.v
Merger.v
TwoLevel.v
Table.v
DbIter.v
VersionEdit.v
Updates.v
Version.v
TableCache.v
VersionBuilder.v
VersionSet.v
Compaction.v
Picker.v
Snapshot.v
DbRead.v
DbScan.v
DbFiles.v
DbFlush.v
DbWrite.v
