(* ===== verification/Prelude.v ===== *)
(** * libnet: a TCP server framework, a MySQL client and an embedded LevelDB

    The repository has three parts that share no code.  [base/] and [net/] are an epoll
    server: an event loop hands sockets to a pool of worker threads, and an application
    thread pulls messages and pushes answers.  [db/mysql/] renders query results as JSON.
    [db/leveldb/] is a log-structured key-value store.  This development translates their
    operations into executable functions and proves what makes them correct.  The shared
    notations, integers, memory accesses, loops and list lemmas are in this file.

    ** How the code is represented

    A byte is [Byte.byte]; a machine integer is a [Z] whose wrap-around is written out
    ([u8] to [u64], [s32]).  A fallible operation is an [outcome]: [Ok], undefined
    behaviour with its reason ([Ub]), [Exited] for [exit], or [Blocked] for a thread that
    has not returned.  An [assert] is a check whose failure is [Ub]; the default build of
    LevelDB defines NDEBUG and leaves the assertions out, so a theorem that the result is
    [Ok] holds for both builds, and where an assertion can fail (the overlap check of
    [SaveTo]) the two builds are modelled apart.  Memory is a list of bytes with checked accesses ([mem_read],
    [mem_write]); where the code shares objects, a pointer is an index into a list of
    objects.  System calls, files, allocation and the choices of the scheduler are
    arguments: a script of results, an operation with a named contract, or a schedule.
    Threads are step functions, one step per access to shared state; theorems about them
    hold for every sequence of steps.  A loop that is not structural takes fuel, and the
    theorem about its function shows that the fuel the definition passes is enough (the
    length of the input, the number of files, one more than the number of entries); where
    a fuelled loop could stop early its result is [Blocked], which the theorems exclude.

    ** The server

    - Buffer, SocketUtil, TcpSocket ([base/buffer.cpp], [base/socket_util.cpp],
      [net/tcp_socket.cpp]): the byte buffer, the blocking helpers and one connection.
    - ThreadPool ([base/thread_pool.h], [base/locker.h]): the work queue, every
      interleaving of [append] and [run], with waits that are interrupted; first-in
      first-out, exactly once, no lost wake-up, the bound of the queue.
    - TaskPool, NetWork ([net/tcp_task_pool.cpp], [net/net_work.cpp], [net/main.cpp]): the
      table of connections and the event loop; no two connections share a task.  The
      theorems of kind "error" state defects of this part (see the findings).
    - DbMysql ([db/mysql/db_mysql.cpp]): the JSON of a result set, and its buffer overflow.

    ** LevelDB: bytes and blocks

    - Coding, Crc32c, Status, Random ([util/]): integers in bytes and their round trips,
      the checksum against the bitwise CRC, statuses and numbers as text.
    - Interfaces: the contracts of [Comparator] and [FilterPolicy] as type classes, so
      that clients are verified for every comparator and policy.  Comparator, Dbformat and
      Bloom discharge them.
    - Log ([db/log_writer.cc], [db/log_reader.cc]): after a crash at any byte the reader
      returns exactly the records that lie completely in the log.
    - WriteBatch ([db/write_batch.cc]): a batch is a list of updates.
    - FilterBlock, Block ([table/filter_block.cc], [table/block.cc],
      [table/block_builder.cc]): the parts of a table file.
    - Format, TableBuilder, Table ([table/format.cc], [table/table_builder.cc],
      [table/table.cc]): what is written to a table file is read back, by iterators and
      by lookups, whatever the compression, the filter and the block cache.

    - Env, FileName ([include/leveldb/env.h], [util/env.cc], [db/filename.cc]): the file
      system as a record of operations with its contract, discharged by a concrete one,
      and the names of the files of a database.

    ** LevelDB: memory

    - Arena, SkipList, MemTable ([util/arena.cc], [db/skiplist.h], [db/memtable.cc]): the
      allocator, the ordered set under one writer and many readers, and lookups.
    - Cache ([util/cache.cc]): the sharded LRU cache refines an abstract cache, and every
      deleter runs exactly once.

    ** LevelDB: iterators

    Cursor states the contract of [Iterator]: a cursor on a sorted list.  Block and
    MemTable implement it; Iterators (the wrapper), Merger, TwoLevel and DbIter keep it
    over any children that do ([table/merger.cc], [table/two_level_iterator.cc],
    [db/db_iter.cc]).

    ** LevelDB: the database

    - Updates relates lookups ([visible], the newest update in a snapshot) to sorted runs.
    - VersionEdit ([db/version_edit.cc]): the record of the descriptor log.
    - Version ([db/version_set.cc]): searches in the levels; [Get] answers with the newest
      visible update.
    - TableCache ([db/table_cache.cc], [db/builder.cc]): a table that BuildTable reports OK
      is what lookups through the table cache read back, whatever writes fail.
    - VersionBuilder, VersionSet ([db/version_set.cc]): edits applied to versions, and the
      MANIFEST; recovery from any prefix that a crash leaves brings back a committed state
      that is not older than the last call of [LogAndApply] in the prefix.  The other
      threads may change the counters and references of the set while the MANIFEST is
      written; what they do to other files is not interleaved with its writes.
    - Compaction ([db/version_set.cc], [db/db_impl.cc]): a compaction that reports OK
      changes no lookup in a snapshot that may still be read.
    - Picker ([db/version_set.cc]): the choice of a compaction and of its inputs.  With
      the merge of Compaction and the builder of VersionBuilder: the edit of a compaction
      is accepted, keeps the invariant of the version and changes no lookup, provided no
      user key is split over two files of a merged level; without snapshots older than the
      merged updates no key becomes split.  Memtables that are compacted meanwhile are
      files that the current version has and the input version has not.
    - Snapshot ([db/snapshot.h]): the list of snapshots and the bound it gives compactions.
    - DbRead, DbScan ([db/db_impl.cc]): [Get] while other threads write and compact, and
      iterators; both show the newest updates at a snapshot over memtables and files.
    - DbFiles, DbFlush ([db/db_impl.cc]): [DeleteObsoleteFiles] removes no file that is
      needed, and [CompactMemTable] turns a memtable into a table without changing a
      lookup, whatever file operations fail.
    - DbWrite ([db/db_impl.cc]): concurrent [Write] calls with the background thread that
      makes room for them and both condition variables; group commit, write-ahead logging,
      atomic visibility, no lost wake-up, and no deadlock.

    ** Not modelled

    The wrappers of System V semaphores and shared memory ([base/ipc_*]), [base/timex.cpp]
    and the test programs compute nothing of their own or print.  Of LevelDB: the POSIX
    environment (system calls: files are the bytes they hold, and the results of their
    operations are arguments), [repair.cc] and [dumpfile.cc] (tools that rename and print
    files), the C binding (every function forwards to a method), the histogram (floating
    point, for the benchmarks), tests and benchmarks.  Of [db/db_impl.cc]: opening,
    recovery and destruction of a database, the file moves of [BackgroundCompaction],
    manual compactions beyond [CompactRange] of the version set, and [GetProperty].  The
    reader of a log is verified from its initial offset on; the table cache does not
    evict.  Threads see a sequentially
    consistent memory.  Text that only goes to the information log is left out. *)
From Stdlib Require Export ZArith Lia.
From Stdlib Require Strings.Byte.
From Stdlib Require Strings.String.
Export (notations) Strings.String.
From stdpp Require Export base tactics list list_numbers numbers relations.

(** ** Bytes *)

Abbreviation byte := Byte.byte.

#[export] Instance byte_eq_dec : EqDecision byte := Byte.byte_eq_dec.

(** The value of an [unsigned char]. *)
Definition b2z (b : byte) : Z := Z.of_N (Byte.to_N b).

(** Conversion of an integer to [unsigned char]: reduction modulo 256. *)
Definition z2b (z : Z) : byte :=
  match Byte.of_N (Z.to_N (z mod 256)) with
  | Some b => b
  | None => Byte.x00
  end.

(** The bytes of a string literal. *)
Definition str (s : String.string) : list byte := String.list_byte_of_string s.
Arguments str s%_string_scope.

(** ** Machine integers *)

Definition u16 (z : Z) : Z := z mod 2 ^ 16.
Definition u32 (z : Z) : Z := z mod 2 ^ 32.
Definition u64 (z : Z) : Z := z mod 2 ^ 64.

(** Conversion to a signed [w]-bit two's complement integer. *)
Definition sint (w z : Z) : Z := (z + 2 ^ (w - 1)) mod 2 ^ w - 2 ^ (w - 1).
Abbreviation s32 := (sint 32).
Abbreviation s64 := (sint 64).

(** A byte read through a plain [char], which is signed on the target. *)
Definition b2c (b : byte) : Z := sint 8 (b2z b).

Definition is_u32 (z : Z) : Prop := (0 ≤ z < 2 ^ 32)%Z.
Definition is_u64 (z : Z) : Prop := (0 ≤ z < 2 ^ 64)%Z.

(** The length of an array as the integer the code compares with. *)
Definition blen {A} (l : list A) : Z := Z.of_nat (length l).

(** ** Outcomes of C++ code

    [Ok a] is a normal result; [Ub u] records the first undefined behaviour;
    [Exited] is [exit(EXIT_FAILURE)]; [Blocked] is a thread inside a system call
    whose result has not arrived. *)
Inductive ub_kind :=
| OutOfBounds
| UseAfterFree
| NullDeref
| KernelContract
| BadConversion
| AssertionFailed
| BadShift
| Uninitialized
| SignedOverflow.

Inductive outcome (A : Type) :=
| Ok (a : A)
| Ub (u : ub_kind)
| Exited
| Blocked.
Arguments Ok {A} a.
Arguments Ub {A} u.
Arguments Exited {A}.
Arguments Blocked {A}.

#[export] Instance ub_kind_eq_dec : EqDecision ub_kind.
Proof. solve_decision. Defined.
#[export] Instance outcome_eq_dec `{EqDecision A} : EqDecision (outcome A).
Proof. solve_decision. Defined.

#[export] Instance outcome_ret : MRet outcome := λ _ a, Ok a.
#[export] Instance outcome_bind : MBind outcome := λ _ _ f m,
  match m with Ok a => f a | Ub u => Ub u | Exited => Exited | Blocked => Blocked end.

(** ** Arrays

    An array is a list of bytes whose length is its capacity; every access is
    checked against it. *)

(** The bytes [src[off .. off+n)], as [memcpy] and [write] read them. *)
Definition mem_read (src : list byte) (off n : Z) : outcome (list byte) :=
  if bool_decide (0 ≤ off ∧ 0 ≤ n ∧ off + n ≤ blen src)%Z
  then Ok (take (Z.to_nat n) (drop (Z.to_nat off) src))
  else Ub OutOfBounds.

(** [dst] with [bs] stored from [off] on. *)
Definition mem_write (dst : list byte) (off : Z) (bs : list byte) : outcome (list byte) :=
  if bool_decide (0 ≤ off ∧ off + blen bs ≤ blen dst)%Z
  then Ok (take (Z.to_nat off) dst ++ bs ++ drop (Z.to_nat off + length bs) dst)
  else Ub OutOfBounds.

(** [memcpy(dst, src, n)]. *)
Definition memcpy (dst src : list byte) (n : Z) : outcome (list byte) :=
  bs ← mem_read src 0 n; mem_write dst 0 bs.

(** [memset(dst, c, n)]: the range is checked before anything is stored. *)
Definition memset (dst : list byte) (c : byte) (n : Z) : outcome (list byte) :=
  if bool_decide (0 ≤ n ≤ blen dst)%Z
  then mem_write dst 0 (replicate (Z.to_nat n) c)
  else Ub OutOfBounds.

(** ** Loops *)

(** [for (i : l) a = f(i, a)]. *)
Fixpoint for_loop {I A} (f : I → A → outcome A) (l : list I) (a : A) : outcome A :=
  match l with [] => Ok a | i :: l => a ← f i a; for_loop f l a end.

(** ** Little-endian byte strings *)

Fixpoint le_bytes (n : nat) (z : Z) : list byte :=
  match n with
  | O => []
  | S n => z2b z :: le_bytes n (z / 256)
  end.

Fixpoint le_val (bs : list byte) : Z :=
  match bs with
  | [] => 0
  | b :: bs => b2z b + 256 * le_val bs
  end.

(** ** Lemmas *)

Open Scope Z_scope.

Lemma b2z_range (b : byte) : 0 ≤ b2z b < 256.
Proof. unfold b2z. pose proof (Byte.to_N_bounded b). lia. Qed.

Lemma b2z_z2b (z : Z) : b2z (z2b z) = z mod 256.
Proof.
  unfold z2b, b2z. pose proof (Z.mod_pos_bound z 256 eq_refl).
  destruct (Byte.of_N _) as [b|] eqn:E.
  - apply Byte.to_of_N in E. rewrite E. lia.
  - apply Byte.of_N_None_iff in E. lia.
Qed.

Lemma z2b_b2z (b : byte) : z2b (b2z b) = b.
Proof.
  unfold z2b. rewrite Z.mod_small by apply b2z_range.
  unfold b2z. by rewrite N2Z.id, Byte.of_to_N.
Qed.

#[export] Instance b2z_inj : Inj (=) (=) b2z.
Proof. intros a b E. by rewrite <- (z2b_b2z a), E, z2b_b2z. Qed.

Lemma z2b_mod (z : Z) : z2b (z mod 256) = z2b z.
Proof. apply (inj b2z). by rewrite !b2z_z2b, Zmod_mod. Qed.

Lemma z2b_inj_range (a b : Z) :
  0 ≤ a < 256 → 0 ≤ b < 256 → z2b a = z2b b → a = b.
Proof. intros ?? E%(f_equal b2z). rewrite !b2z_z2b, !Z.mod_small in E; lia. Qed.

Lemma blen_nonneg {A} (l : list A) : 0 ≤ blen l.
Proof. unfold blen. lia. Qed.

Lemma blen_app {A} (l k : list A) : blen (l ++ k) = blen l + blen k.
Proof. unfold blen. rewrite length_app. lia. Qed.

Lemma blen_cons {A} (x : A) (l : list A) : blen (x :: l) = 1 + blen l.
Proof. unfold blen. simpl. lia. Qed.

Lemma blen_replicate {A} n (x : A) : blen (replicate n x) = Z.of_nat n.
Proof. unfold blen. by rewrite length_replicate. Qed.

Lemma blen_nil_inv {A} (l : list A) : blen l = 0 → l = [].
Proof. destruct l; unfold blen; simpl; [done | lia]. Qed.

Lemma s32_small z : -2 ^ 31 ≤ z < 2 ^ 31 → s32 z = z.
Proof. intros. unfold sint. rewrite Z.mod_small; lia. Qed.

Lemma s64_small z : -2 ^ 63 ≤ z < 2 ^ 63 → s64 z = z.
Proof. intros. unfold sint. rewrite Z.mod_small; lia. Qed.

Lemma u32_small z : is_u32 z → u32 z = z.
Proof. apply Z.mod_small. Qed.

Lemma u64_small z : is_u64 z → u64 z = z.
Proof. apply Z.mod_small. Qed.

Lemma u32_range z : is_u32 (u32 z).
Proof. by apply Z.mod_pos_bound. Qed.

Lemma u64_range z : is_u64 (u64 z).
Proof. by apply Z.mod_pos_bound. Qed.

Create HintDb bytes.
#[export] Hint Resolve u32_range u64_range : bytes.
#[export] Hint Rewrite u32_small u64_small s32_small s64_small using (unfold is_u32, is_u64 in *; lia) : ints.
#[export] Hint Resolve b2z_range blen_nonneg : bytes.
#[export] Hint Rewrite @blen_app @blen_cons @blen_replicate b2z_z2b z2b_b2z : bytes.

(** Brings the ranges of all bytes and lengths of the goal into the context. *)
Ltac byte_facts :=
  repeat match goal with
  | |- context [b2z ?b] =>
      lazymatch goal with H : 0 ≤ b2z b < 256 |- _ => fail | _ => pose proof (b2z_range b) end
  | _ : context [b2z ?b] |- _ =>
      lazymatch goal with H : 0 ≤ b2z b < 256 |- _ => fail | _ => pose proof (b2z_range b) end
  end.
Ltac blia := autorewrite with bytes in *; byte_facts; unfold blen in *; simpl length in *; lia.

(** Linear arithmetic with quotients and remainders by constants. *)
Ltac dlia := Z.to_euclidean_division_equations; lia.

(** Case analysis on the range tests of the memory operations. *)
Ltac bool_cases :=
  repeat match goal with
  | |- context [bool_decide ?P] => destruct (bool_decide_reflect P); try lia
  | |- context [if ?a <? ?b then _ else _] => destruct (Z.ltb_spec a b); try lia
  | |- context [if ?a <=? ?b then _ else _] => destruct (Z.leb_spec a b); try lia
  | |- context [if ?a =? ?b then _ else _] => destruct (Z.eqb_spec a b); try lia
  end.

(** *** Memory *)

Lemma mem_read_ok (src : list byte) off n :
  0 ≤ off → 0 ≤ n → off + n ≤ blen src →
  mem_read src off n = Ok (take (Z.to_nat n) (drop (Z.to_nat off) src)).
Proof. intros. unfold mem_read. by rewrite bool_decide_true. Qed.

Lemma mem_read_prefix (pre suf : list byte) :
  mem_read (pre ++ suf) 0 (blen pre) = Ok pre.
Proof.
  pose proof (blen_nonneg suf). rewrite mem_read_ok by blia. f_equal.
  unfold blen. by rewrite Nat2Z.id, drop_0, take_app_length.
Qed.

Lemma mem_read_all (src : list byte) : mem_read src 0 (blen src) = Ok src.
Proof. pose proof (mem_read_prefix src []) as H. by rewrite app_nil_r in H. Qed.

Lemma mem_read_length src off n bs :
  mem_read src off n = Ok bs → blen bs = n.
Proof.
  unfold mem_read. case_bool_decide as Hr; [intros [= <-] | done].
  unfold blen in *. rewrite length_take, length_drop. lia.
Qed.

Lemma mem_read_out src off n : blen src < off + n → mem_read src off n = Ub OutOfBounds.
Proof. intros. unfold mem_read. rewrite bool_decide_false; [done | lia]. Qed.

Lemma mem_write_0 (dst bs : list byte) :
  blen bs ≤ blen dst → mem_write dst 0 bs = Ok (bs ++ drop (length bs) dst).
Proof. intros. unfold mem_write. by rewrite bool_decide_true by lia. Qed.

Lemma mem_write_length dst off bs dst' :
  mem_write dst off bs = Ok dst' → length dst' = length dst.
Proof.
  unfold mem_write. case_bool_decide as Hr; [intros [= <-] | done].
  rewrite !length_app, length_take, length_drop. unfold blen in *. lia.
Qed.

Lemma memcpy_ok (dst src : list byte) n :
  0 ≤ n → n ≤ blen src → n ≤ blen dst →
  memcpy dst src n = Ok (take (Z.to_nat n) src ++ drop (Z.to_nat n) dst).
Proof.
  intros. unfold memcpy. rewrite mem_read_ok by lia. simpl.
  rewrite drop_0, mem_write_0; unfold blen in *; rewrite length_take; [|lia].
  by rewrite Nat.min_l by lia.
Qed.

Lemma memcpy_length dst src n dst' :
  memcpy dst src n = Ok dst' → length dst' = length dst.
Proof.
  unfold memcpy. destruct (mem_read _ _ _); try done. apply mem_write_length.
Qed.

Lemma memcpy_dst_overflow dst src n : blen dst < n → memcpy dst src n = Ub OutOfBounds.
Proof.
  intros. unfold memcpy. destruct (mem_read src 0 n) as [bs|u| |] eqn:E; simpl.
  - apply mem_read_length in E. unfold mem_write. rewrite bool_decide_false; [done | lia].
  - unfold mem_read in E. by case_bool_decide; simplify_eq.
  - unfold mem_read in E. by case_bool_decide; simplify_eq.
  - unfold mem_read in E. by case_bool_decide; simplify_eq.
Qed.

(** *** Little-endian byte strings *)

Lemma length_le_bytes n z : length (le_bytes n z) = n.
Proof. revert z. induction n; intros; simpl; auto. Qed.

Lemma le_val_bound bs : 0 ≤ le_val bs < 256 ^ blen bs.
Proof.
  induction bs as [|b bs IH]; [done|]. rewrite blen_cons. simpl le_val.
  rewrite Z.pow_add_r by (pose proof (blen_nonneg bs); lia). byte_facts. lia.
Qed.

Lemma le_val_le_bytes n z : le_val (le_bytes n z) = z mod 256 ^ Z.of_nat n.
Proof.
  revert z. induction n as [|n IH]; intros z; [by rewrite Z.mod_1_r|].
  simpl le_bytes. simpl le_val. rewrite IH, b2z_z2b, Nat2Z.inj_succ, Z.pow_succ_r by lia.
  rewrite Z.rem_mul_r by lia. done.
Qed.

Lemma le_bytes_le_val bs : le_bytes (length bs) (le_val bs) = bs.
Proof.
  induction bs as [|b bs IH]; [done|]. simpl. pose proof (b2z_range b).
  f_equal.
  - apply (inj b2z). rewrite b2z_z2b, (Z.mul_comm 256), Z_mod_plus_full.
    by apply Z.mod_small.
  - rewrite (Z.mul_comm 256), Z.div_add by lia.
    by rewrite (Z.div_small (b2z b)), Z.add_0_l by lia.
Qed.

Lemma le_bytes_mod n z : le_bytes n (z mod 256 ^ Z.of_nat n) = le_bytes n z.
Proof.
  rewrite <- le_val_le_bytes. rewrite <- (length_le_bytes n z) at 1. apply le_bytes_le_val.
Qed.

(** *** Bit operations *)

Lemma lor_shiftl_add a b n :
  0 ≤ n → 0 ≤ a < 2 ^ n → Z.lor a (Z.shiftl b n) = a + b * 2 ^ n.
Proof.
  intros Hn Ha. rewrite <- Z.add_nocarry_lor; [by rewrite Z.shiftl_mul_pow2|].
  apply Z.bits_inj'. intros i Hi. rewrite Z.land_spec, Z.bits_0, Z.shiftl_spec by lia.
  destruct (Z.lt_ge_cases i n).
  - rewrite (Z.testbit_neg_r b) by lia. apply andb_false_r.
  - replace (Z.testbit a i) with false; [done|]. symmetry.
    rewrite <- (Z.mod_small a (2 ^ n)) by done. apply Z.mod_pow2_bits_high. lia.
Qed.

Lemma land_ones_mod a n : 0 ≤ n → Z.land a (2 ^ n - 1) = a mod 2 ^ n.
Proof. intros. rewrite <- Z.land_ones by done. by rewrite Z.ones_equiv, Z.sub_1_r. Qed.

Lemma testbit_small a n i : 0 ≤ a < 2 ^ n → n ≤ i → Z.testbit a i = false.
Proof.
  intros Ha Hi. destruct (Z.lt_ge_cases n 0).
  - rewrite Z.pow_neg_r in Ha by lia. lia.
  - rewrite <- (Z.mod_small a (2 ^ n)) by done. apply Z.mod_pow2_bits_high. lia.
Qed.

Lemma bits_lt_pow2 a n : 0 ≤ n → (∀ i, n ≤ i → Z.testbit a i = false) → a mod 2 ^ n = a.
Proof.
  intros Hn Hb. apply Z.bits_inj'. intros i Hi. destruct (Z.lt_ge_cases i n).
  - by rewrite Z.mod_pow2_bits_low.
  - rewrite Z.mod_pow2_bits_high by lia. by rewrite Hb.
Qed.

(** Writing a buffer from front to back: [a] has been written, [b] is still there. *)
Lemma mem_write_next (a b x : list byte) p :
  p = blen a → blen x ≤ blen b → mem_write (a ++ b) p x = Ok ((a ++ x) ++ drop (length x) b).
Proof.
  intros -> Hx. unfold mem_write. rewrite bool_decide_true.
  - unfold blen. rewrite Nat2Z.id, take_app_length, drop_app_ge by lia.
    replace (length a + length x - length a)%nat with (length x) by lia. by rewrite app_assoc.
  - rewrite !blen_app. pose proof (blen_nonneg a). pose proof (blen_nonneg x). lia.
Qed.

(** Overwriting the middle of an array. *)
Lemma mem_write_middle (a b c x : list byte) p :
  p = blen a → length b = length x → mem_write (a ++ b ++ c) p x = Ok (a ++ x ++ c).
Proof.
  intros -> Hb. unfold mem_write. rewrite bool_decide_true.
  - unfold blen. rewrite Nat2Z.id, take_app_length, drop_app_ge by lia.
    replace (length a + length x - length a)%nat with (length b) by lia.
    by rewrite drop_app_length.
  - rewrite !blen_app. pose proof (blen_nonneg a). pose proof (blen_nonneg c). unfold blen in *. lia.
Qed.

(** *** Loops *)

Lemma for_loop_app {A B} (f : A → B → outcome B) l k : ∀ b, for_loop f (l ++ k) b = (b ← for_loop f l b; for_loop f k b).
Proof. induction l as [|x l IH]; intros b; [done|]. cbn [for_loop app]. destruct (f x b); [apply IH | done..]. Qed.

(** [P i] holds before the step for [i]. *)
Lemma for_loop_range {A} (f : nat → A → outcome A) (P : nat → A → Prop) n : ∀ lo a,
  P lo a → (∀ i a, (lo ≤ i < lo + n)%nat → P i a → ∃ a', f i a = Ok a' ∧ P (S i) a') →
  ∃ a', for_loop f (seq lo n) a = Ok a' ∧ P (lo + n)%nat a'.
Proof.
  induction n as [|n IH]; intros lo a Ha Hstep; cbn [seq for_loop].
  { exists a. by rewrite Nat.add_0_r. }
  destruct (Hstep lo a ltac:(lia) Ha) as (a1 & -> & H1). cbn [mbind outcome_bind].
  destruct (IH (S lo) a1 H1) as (a' & E & H'); [intros; apply Hstep; [lia | done]|].
  exists a'. split; [done|]. by replace (lo + S n)%nat with (S lo + n)%nat by lia.
Qed.

(** *** Options and lists *)

Lemma take_drop_app {A} (l k : list A) : take (length l) (l ++ k) = l ∧ drop (length l) (l ++ k) = k.
Proof. split; [apply take_app_length | apply drop_app_length]. Qed.

Lemma list_snoc_inv {A} (l : list A) : l ≠ [] → ∃ k x, l = k ++ [x].
Proof. intros Hl. destruct (exists_last Hl) as (k & x & ->). eauto. Qed.

(** *** Counting

    [count P l r] is the number of elements among the first [r] that satisfy [P]: the
    position in the filtered list. *)
Section count.
Context {A : Type} (P : A → Prop) `{∀ x, Decision (P x)} (l : list A).

Definition count (r : nat) : nat := length (filter P (take r l)).

Lemma count_split r : filter P l = filter P (take r l) ++ filter P (drop r l).
Proof. by rewrite <- filter_app, take_drop. Qed.

Lemma count_all r : (length l ≤ r)%nat → count r = length (filter P l).
Proof. intros Hr. unfold count. by rewrite take_ge. Qed.

Lemma count_S r x : l !! r = Some x → count (S r) = (count r + if decide (P x) then 1 else 0)%nat.
Proof.
  intros Hr. unfold count. rewrite (take_S_r _ _ _ Hr), filter_app, length_app. f_equal. rewrite filter_cons.
  by destruct (decide (P x)).
Qed.

Lemma count_at r x : l !! r = Some x → P x → filter P l !! count r = Some x.
Proof. intros Hr Hx. rewrite (count_split r), (drop_S _ _ _ Hr), filter_cons_True by done. by apply list_lookup_middle. Qed.

Lemma count_le r : (count r ≤ length (filter P l))%nat.
Proof. rewrite (count_split r), length_app. unfold count. lia. Qed.

(** The elements before and after a position. *)
Lemma count_before r j x : filter P l !! j = Some x → (j < count r)%nat → ∃ m, (m < r)%nat ∧ l !! m = Some x.
Proof.
  intros Hj Hlt. rewrite (count_split r), lookup_app_l in Hj by done.
  apply list_elem_of_lookup_2, list_elem_of_filter in Hj as [_ [m Hm]%list_elem_of_lookup].
  apply lookup_take_Some in Hm as [Hm ?]. by exists m.
Qed.

Lemma count_after r j x : filter P l !! j = Some x → (count r ≤ j)%nat → ∃ m, (r ≤ m)%nat ∧ l !! m = Some x.
Proof.
  intros Hj Hle. rewrite (count_split r), lookup_app_r in Hj by done.
  apply list_elem_of_lookup_2, list_elem_of_filter in Hj as [_ [m Hm]%list_elem_of_lookup].
  rewrite lookup_drop in Hm. exists (r + m)%nat. split; [lia | done].
Qed.

(** Nothing is counted between two positions. *)
Lemma count_none r r' : (r ≤ r')%nat → (∀ k x, (r ≤ k < r')%nat → l !! k = Some x → ¬ P x) → count r = count r'.
Proof.
  intros Hr Hno. unfold count. rewrite <- (take_drop r (take r' l)), filter_app, length_app, take_take.
  replace (min r r') with r by lia.
  assert (filter P (drop r (take r' l)) = []) as ->; [|cbn; lia].
  rewrite <- (filter_nil P) at 1. remember (drop r (take r' l)) as k eqn:E.
  assert (∀ x, x ∈ k → ¬ P x) as Hk.
  { intros x [m Hm]%list_elem_of_lookup. rewrite E, lookup_drop in Hm. apply lookup_take_Some in Hm as [Hm Hlt].
    apply (Hno (r + m)%nat); [lia | done]. }
  clear E. induction k as [|x k IH]; [done|]. rewrite filter_cons_False by (apply Hk; by left). apply IH. intros y Hy. apply Hk. by right.
Qed.
End count.
