(* ===== verification/Links.v ===== *)
(** * Doubly linked lists

    The links of the circular lists with a dummy head that the cache ([util/cache.cc]) and
    the list of snapshots ([db/snapshot.h]) keep, as functions of a pointer: [None] is the
    dummy, [Some i] an object. *)
From S2P Require Import Prelude.

(** ** Lemmas *)

(** [nx] and [pv] are the links, with the result [None] where there is no such object. *)

Section segment.
Implicit Types (nx pv : option nat → option (option nat)) (a b q : option nat) (l : list nat).

Fixpoint dseg nx pv a l b : Prop :=
  match l with
  | [] => nx a = Some b ∧ pv b = Some a
  | x :: l => nx a = Some (Some x) ∧ pv (Some x) = Some a ∧ dseg nx pv (Some x) l b
  end.
Definition lastp a l : option nat := match last l with Some x => Some x | None => a end.
Definition headp l b : option nat := match l with x :: _ => Some x | [] => b end.

Lemma dseg_app nx pv a l x k b : dseg nx pv a (l ++ x :: k) b ↔ dseg nx pv a l (Some x) ∧ dseg nx pv (Some x) k b.
Proof. revert a. induction l as [|y l IH]; intros a; cbn; [tauto|]. rewrite IH. tauto. Qed.

Lemma dseg_frame nx pv nx' pv' a l b : dseg nx pv a l b → (∀ q, q = a ∨ q ∈ map Some l → nx' q = nx q) → (∀ q, q = b ∨ q ∈ map Some l → pv' q = pv q) → dseg nx' pv' a l b.
Proof.
  revert a. induction l as [|x l IH]; intros a; cbn; intros H Hn Hp.
  - destruct H. rewrite Hn, Hp by (by left). done.
  - destruct H as (H1 & H2 & H3). rewrite Hn by (by left). rewrite Hp by (right; by left). split_and!; try done. apply IH; try done.
    + intros q [->|Hq]; apply Hn; right; [by left | by right].
    + intros q [->|Hq]; apply Hp; [by left | right; by right].
Qed.

Lemma lastp_cons a x l : lastp a (x :: l) = lastp (Some x) l.
Proof. unfold lastp. destruct l as [|y l]; [done|]. change (last (x :: y :: l)) with (last (y :: l)). destruct (last (y :: l)) eqn:E; [done|]. by apply last_None in E. Qed.

Lemma dseg_lastp nx pv a l b : dseg nx pv a l b → pv b = Some (lastp a l) ∧ nx (lastp a l) = Some b.
Proof.
  revert a. induction l as [|x l IH]; intros a; [by intros [? ?]|]. intros (_ & _ & H). rewrite lastp_cons. by apply IH.
Qed.

Lemma dseg_headp nx pv a l b : dseg nx pv a l b → nx a = Some (headp l b) ∧ pv (headp l b) = Some a.
Proof. destruct l; cbn; [done|]. by intros (? & ? & _). Qed.

Lemma lastp_in a l : lastp a l = a ∨ lastp a l ∈ map Some l.
Proof.
  unfold lastp. destruct (last l) as [x|] eqn:E; [|by left]. right. apply list_elem_of_fmap. exists x. split; [done|].
  rewrite last_lookup in E. by eapply list_elem_of_lookup_2.
Qed.

(** The end of a segment is linked to another object. *)
Lemma dseg_retarget nx pv nx' pv' a l b b' : dseg nx pv a l b → NoDup (a :: map Some l) →
  (∀ q, q ≠ lastp a l → q = a ∨ q ∈ map Some l → nx' q = nx q) → (∀ q, q ∈ map Some l → pv' q = pv q) →
  nx' (lastp a l) = Some b' → pv' b' = Some (lastp a l) → dseg nx' pv' a l b'.
Proof.
  revert a. induction l as [|x l IH]; intros a H Hnd Hn Hp H1 H2; [by split|]. destruct H as (Ha & Hx & H). cbn [map] in *.
  apply NoDup_cons in Hnd as [Hax Hnd]. rewrite lastp_cons in *.
  assert (a ≠ lastp (Some x) l) as Hne.
  { intros ->. apply Hax. destruct (lastp_in (Some x) l) as [->|?]; [by left | by right]. }
  cbn. rewrite (Hn a Hne), (Hp (Some x)) by (by left). split_and!; try done. apply IH; try done.
  - intros q Hq Hin. apply Hn; [done|]. right. destruct Hin as [->|?]; [by left | by right].
  - intros q Hin. apply Hp. by right.
Qed.

(** An object is taken out of the list. *)
Lemma dseg_remove nx pv nx' pv' l x k : dseg nx pv None (l ++ x :: k) None → NoDup (l ++ x :: k) →
  let p := lastp None l in let n := headp k None in
  (∀ q, nx' q = if decide (q = p) then Some n else nx q) → (∀ q, pv' q = if decide (q = n) then Some p else pv q) →
  dseg nx' pv' None (l ++ k) None.
Proof.
  intros H Hnd p n Hn Hp. apply dseg_app in H as [Hl Hk]. apply NoDup_app in Hnd as (Hndl & Hlk & Hndk). apply NoDup_cons in Hndk as [Hxk Hndk].
  assert (NoDup (None :: map Some l)) as HndS.
  { apply NoDup_cons. split; [by intros (? & ? & _)%list_elem_of_fmap|]. by apply (NoDup_fmap_2 Some). }
  assert (∀ q, q ∈ map Some l → pv' q = pv q ∨ q = n) as Hpl.
  { intros q _. rewrite Hp. case_decide; [by right | by left]. }
  assert (∀ y, y ∈ l → Some y ≠ n) as Hln.
  { intros y Hy. unfold n. destruct k as [|z k]; [done|]. cbn. intros [= ->]. apply (Hlk z Hy). right. by left. }
  assert (dseg nx' pv' None l n) as Hl'.
  { apply (dseg_retarget nx pv _ _ None l (Some x) n Hl HndS).
    - intros q Hq _. rewrite Hn. by rewrite decide_False.
    - intros q Hq. destruct (Hpl q Hq) as [|Eq]; [done|]. apply list_elem_of_fmap in Hq as (y & -> & Hy). by destruct (Hln y Hy).
    - rewrite Hn. by rewrite decide_True.
    - rewrite Hp. by rewrite decide_True. }
  destruct k as [|z k]; [by rewrite app_nil_r|]. apply dseg_app. split; [exact Hl'|]. cbn in Hk. destruct Hk as (_ & _ & Hk). apply NoDup_cons in Hndk as [Hzk Hndk].
  apply (dseg_frame nx pv); [done|..].
  - intros q Hq. rewrite Hn. rewrite decide_False; [done|]. intros ->. assert (p = None ∨ p ∈ map Some l) as [E|Hin] by apply lastp_in.
    + rewrite E in Hq. destruct Hq as [?|(? & ? & _)%list_elem_of_fmap]; done.
    + apply list_elem_of_fmap in Hin as (y & Ey & Hy). apply (Hlk y Hy). right. rewrite Ey in Hq. destruct Hq as [[= ->]|(w & [= ->] & Hw)%list_elem_of_fmap]; [by left | by right].
  - intros q Hq. rewrite Hp. rewrite decide_False; [done|]. unfold n. cbn. intros ->. destruct Hq as [?|(w & [= ->] & Hw)%list_elem_of_fmap]; done.
Qed.

(** An object is appended. *)
Lemma dseg_append nx pv nx' pv' l x : dseg nx pv None l None → NoDup (l ++ [x]) →
  let p := lastp None l in
  (∀ q, nx' q = if decide (q = p) then Some (Some x) else if decide (q = Some x) then Some None else nx q) →
  (∀ q, pv' q = if decide (q = None) then Some (Some x) else if decide (q = Some x) then Some p else pv q) →
  dseg nx' pv' None (l ++ [x]) None.
Proof.
  intros H Hnd p Hn Hp. apply NoDup_app in Hnd as (Hndl & Hlx & _). assert (x ∉ l) as Hx by (intros Hx; apply (Hlx x Hx); by left).
  assert (Some x ∉ map Some l) as HxS by (intros (y & [= ->] & Hy)%list_elem_of_fmap; done).
  assert (Some x ≠ p) as Hxp. { intros Ep. assert (p = None ∨ p ∈ map Some l) as [E|Hin] by apply lastp_in; [congruence|]. rewrite <- Ep in Hin. done. }
  apply dseg_app. split.
  - apply (dseg_retarget nx pv _ _ None l None (Some x) H).
    + apply NoDup_cons. split; [by intros (? & ? & _)%list_elem_of_fmap|]. by apply (NoDup_fmap_2 Some).
    + intros q Hq Hin. rewrite Hn. fold p in Hq. rewrite decide_False by done. rewrite decide_False; [done|]. intros ->. by destruct Hin.
    + intros q Hin. rewrite Hp. rewrite decide_False by (intros ->; by apply list_elem_of_fmap in Hin as (? & ? & _)). rewrite decide_False; [done|]. by intros ->.
    + rewrite Hn. by rewrite decide_True.
    + rewrite Hp. rewrite decide_False by done. by rewrite decide_True.
  - split; [rewrite Hn; rewrite decide_False by done; by rewrite decide_True | rewrite Hp; by rewrite decide_True].
Qed.
End segment.
