(* ===== verification/Buffer.v ===== *)
(** * base/buffer.h and base/buffer.cpp: the byte buffer of a connection

    [Buffer] owns a [malloc]ed array of [BUFFER_SIZE] bytes and the number of
    bytes in use.  The array is the list [m_buf], whose length is the capacity;
    every [memcpy] is checked against it, so an overflow is the outcome [Ub
    OutOfBounds].  What [malloc] returns (the indeterminate contents of the block,
    or nothing) is an argument of the constructor. *)
From S2P Require Import Prelude.

(** [#define BUFFER_SIZE 1024*10].  The macro is not parenthesised; its only
    other use, [BUFFER_SIZE-1], still reads as [(1024*10)-1]. *)
Definition BUFFER_SIZE : Z := 1024 * 10.

Record buffer := mk_buffer {
  m_buf : list byte;
  m_length : Z;
}.

(** The constructor: one byte, the character ['1'], is already in use. *)
Definition new_buffer (malloc : option (list byte)) : outcome buffer :=
  match malloc with
  | None => Ub NullDeref
  | Some block =>
      b ← memcpy block [Byte.x31] 1;
      mret (mk_buffer b 1)
  end.

(** The [uint32_t] length returned as an [int]. *)
Definition get_size (b : buffer) : Z := s32 (m_length b).

(** [get_buf(buf_out)]: the caller's array and the returned count. *)
Definition get_buf (b : buffer) (buf_out : list byte) : outcome (list byte * Z) :=
  if bool_decide (m_length b ≠ 0) then
    out ← memcpy buf_out (m_buf b) (m_length b);
    mret (out, m_length b)
  else mret (buf_out, 0).

(** [put_buf(buf_in, buf_length)]; [None] is the null pointer.  The error value
    [-1] is returned as a [uint32_t]. *)
Definition put_buf (b : buffer) (buf_in : option (list byte)) (buf_length : Z)
    : outcome (buffer * Z) :=
  match buf_in with
  | Some src =>
      if bool_decide (buf_length = 0) then mret (b, u32 (-1))
      else
        d ← memcpy (m_buf b) src buf_length;
        mret (mk_buffer d buf_length, 0)
  | None => mret (b, u32 (-1))
  end.

Definition clean (b : buffer) : outcome buffer :=
  d ← memset (m_buf b) Byte.x00 BUFFER_SIZE;
  mret (mk_buffer d 0).

Definition is_full (b : buffer) : bool := bool_decide (m_length b = BUFFER_SIZE).
Definition is_empty (b : buffer) : bool := bool_decide (m_length b = 0).

(** A zeroed, empty buffer: what [clean] leaves. *)
Definition zero_buffer : buffer := mk_buffer (replicate (Z.to_nat BUFFER_SIZE) Byte.x00) 0.

(** The bytes in use. *)
Definition contents (b : buffer) : list byte := take (Z.to_nat (m_length b)) (m_buf b).

(** The invariant the class relies on: the block has its full size and the
    length stays inside it. *)
Definition buffer_wf (b : buffer) : Prop :=
  blen (m_buf b) = BUFFER_SIZE ∧ 0 ≤ m_length b ≤ BUFFER_SIZE.

(** ** Lemmas *)

Lemma buffer_contents_length b : buffer_wf b → blen (contents b) = m_length b.
Proof.
  intros [Hb Hl]. unfold contents, blen in *. rewrite length_take. lia.
Qed.

Lemma new_buffer_ok block :
  blen block = BUFFER_SIZE →
  ∃ b, new_buffer (Some block) = Ok b ∧ buffer_wf b ∧ contents b = [Byte.x31].
Proof.
  intros Hb. unfold BUFFER_SIZE in Hb. unfold new_buffer.
  rewrite memcpy_ok by (rewrite ?Hb; unfold blen; simpl; lia).
  eexists. split; [done|]. split; [|done].
  split; [|unfold BUFFER_SIZE; simpl; lia].
  change (m_buf (mk_buffer _ 1)) with (take (Z.to_nat 1) [Byte.x31] ++ drop (Z.to_nat 1) block).
  unfold BUFFER_SIZE, blen in *. rewrite length_app, length_drop. simpl. lia.
Qed.

Lemma get_buf_ok b out :
  buffer_wf b → m_length b ≤ blen out →
  get_buf b out = Ok (contents b ++ drop (length (contents b)) out, m_length b).
Proof.
  intros Hwf Hout. pose proof (buffer_contents_length b Hwf) as Hc. destruct Hwf as [Hb Hl].
  unfold get_buf. case_bool_decide as H0.
  - rewrite memcpy_ok by lia. simpl. fold (contents b). repeat f_equal.
    unfold blen in Hc. lia.
  - rewrite H0 in Hc. apply blen_nil_inv in Hc. rewrite Hc.
    by rewrite H0.
Qed.

Lemma put_buf_ok b src n :
  buffer_wf b → 0 < n ≤ BUFFER_SIZE → n ≤ blen src →
  ∃ b', put_buf b (Some src) n = Ok (b', 0) ∧ buffer_wf b' ∧
    contents b' = take (Z.to_nat n) src ∧ m_length b' = n.
Proof.
  intros [Hb Hl] Hn Hs. unfold put_buf. rewrite bool_decide_false by lia.
  rewrite memcpy_ok by lia. eexists. split; [done|].
  unfold buffer_wf, contents. simpl m_buf. simpl m_length. unfold blen in *.
  rewrite length_app, length_take, length_drop. split_and!; try lia; try done.
  rewrite take_app_le by (rewrite length_take; lia). rewrite take_take. f_equal. lia.
Qed.

Lemma zero_buffer_wf : buffer_wf zero_buffer.
Proof.
  split; [|unfold BUFFER_SIZE; simpl; lia].
  unfold zero_buffer, m_buf. rewrite blen_replicate. done.
Qed.

Lemma clean_ok b : buffer_wf b → clean b = Ok zero_buffer.
Proof.
  intros [Hb Hl]. unfold clean, memset. rewrite bool_decide_true by (unfold BUFFER_SIZE in *; lia).
  rewrite mem_write_0 by (rewrite blen_replicate; unfold BUFFER_SIZE in *; lia).
  rewrite length_replicate, drop_ge, app_nil_r by (unfold blen, BUFFER_SIZE in *; lia). done.
Qed.

(** [put_buf] of a non-null, non-empty input succeeds exactly up to the
    capacity, and a following [get_buf] into an array that is large enough returns
    the same bytes and their count, leaving the rest of the array alone; one byte
    more than the capacity is a heap overflow in [memcpy]. *)
Lemma put_get_roundtrip (b : buffer) (src out : list byte) (n : Z) :
  buffer_wf b → 0 < n → n ≤ blen src → n ≤ blen out →
  if bool_decide (n ≤ BUFFER_SIZE) then
    ∃ b', put_buf b (Some src) n = Ok (b', 0) ∧ buffer_wf b' ∧
      get_buf b' out = Ok (take (Z.to_nat n) src ++ drop (Z.to_nat n) out, n)
  else put_buf b (Some src) n = Ub OutOfBounds.
Proof.
  intros Hwf Hn Hs Ho. case_bool_decide as Hc.
  - destruct (put_buf_ok b src n) as (b' & Hput & Hwf' & Hcont & Hlen); [done..|].
    exists b'. split_and!; [done..|].
    rewrite get_buf_ok by (rewrite ?Hlen; done). rewrite Hcont, Hlen, length_take.
    do 4 f_equal. unfold blen in *. lia.
  - unfold put_buf. rewrite bool_decide_false by lia.
    rewrite memcpy_dst_overflow; [done|]. destruct Hwf as [Hb Hl]. lia.
Qed.

