(* ===== verification/SocketUtil.v ===== *)
(** * base/socket_util.cpp: blocking helpers over the socket system calls

    The kernel is not modelled: the results of the system calls a function makes
    are an argument, the list of their results in the order of the calls.  A call
    made when the list is exhausted has not returned, and the outcome is [Blocked].
    [errno] is the number the failing call left; a count larger than the one
    requested breaks the kernel's contract ([Ub KernelContract]).  Diagnostics
    printed by [ERR_EXIT] are not modelled. *)
From S2P Require Import Prelude.

(** ** System calls *)

Definition EINTR : Z := 4.
Definition EAGAIN : Z := 11.
Definition ETIMEDOUT : Z := 110.
Definition EINPROGRESS : Z := 115.
Definition O_NONBLOCK : Z := 2048.
Definition FD_SETSIZE : Z := 1024.

(** [select]: an error or the number of ready descriptors. *)
Inductive sel_res := SelErr (e : Z) | SelN (n : Z).
(** [read] and [recv]: an error or the bytes stored (none at end of file). *)
Inductive rd_res := RdErr (e : Z) | RdData (bs : list byte).
(** [write]: an error or the number of bytes accepted. *)
Inductive wr_res := WrErr (e : Z) | WrN (n : Z).
(** [accept], [connect], [getsockopt]: an error or the value returned. *)
Inductive call_res := CallErr (e : Z) | CallOk (v : Z).

(** [FD_ZERO] and [FD_SET]: an [fd_set] has [FD_SETSIZE] bits. *)
Definition FD_SET (fd : Z) : outcome unit :=
  if bool_decide (0 ≤ fd < FD_SETSIZE) then Ok () else Ub OutOfBounds.

(** [do ret = select(...); while (ret < 0 && errno == EINTR)]. *)
Fixpoint select_loop (sel : list sel_res) : outcome (sel_res * list sel_res) :=
  match sel with
  | [] => Blocked
  | SelErr e :: sel' => if bool_decide (e = EINTR) then select_loop sel' else Ok (SelErr e, sel')
  | r :: sel' => Ok (r, sel')
  end.

(** ** Timeouts

    [read_timeout] and [write_timeout] differ only in which set of [select]
    holds the descriptor; the result is the return value and [errno]. *)
Definition wait_ready (fd wait_seconds errno : Z) (sel : list sel_res)
    : outcome (Z * Z * list sel_res) :=
  if bool_decide (0 < wait_seconds) then
    FD_SET fd ≫= λ _,
    '(r, sel') ← select_loop sel;
    mret match r with
    | SelErr e => (-1, e, sel')
    | SelN n =>
        if bool_decide (n = 0) then (-1, ETIMEDOUT, sel')
        else if bool_decide (n = 1) then (0, errno, sel')
        else (n, errno, sel')
    end
  else mret (0, errno, sel).

Definition read_timeout := wait_ready.
Definition write_timeout := wait_ready.

(** [accept_timeout]: [acc] is the result of [accept]. *)
Definition accept_timeout (fd wait_seconds errno : Z) (sel : list sel_res) (acc : call_res)
    : outcome (Z * Z * list sel_res) :=
  let do_accept errno sel :=
    match acc with CallErr e => (-1, e, sel) | CallOk v => (v, errno, sel) end in
  if bool_decide (0 < wait_seconds) then
    FD_SET fd ≫= λ _,
    '(r, sel') ← select_loop sel;
    mret match r with
    | SelErr e => (-1, e, sel')
    | SelN n =>
        if bool_decide (n = 0) then (-1, ETIMEDOUT, sel')
        else do_accept errno sel'
    end
  else mret (do_accept errno sel).

(** [set_nonblocking] and [set_blocking]: from the flags [F_GETFL] returned to
    the flags passed to [F_SETFL]; the functions return the old flags. *)
Definition set_nonblocking (old_option : Z) : Z * Z :=
  (Z.lor old_option O_NONBLOCK, old_option).
Definition set_blocking (old_option : Z) : Z * Z :=
  (Z.land old_option (Z.lnot O_NONBLOCK), old_option).

(** [connect_timeout]: the state is the descriptor's flags; [conn] is the result
    of [connect] and [so] that of [getsockopt(SO_ERROR)].  Two paths return before
    the flags are restored. *)
Definition connect_timeout (fd wait_seconds errno flags : Z) (conn : call_res)
    (sel : list sel_res) (so : call_res) : outcome (Z * Z * Z) :=
  let flags1 := if bool_decide (0 < wait_seconds) then fst (set_nonblocking flags) else flags in
  let restore fl := if bool_decide (0 < wait_seconds) then fst (set_blocking fl) else fl in
  match conn with
  | CallErr e =>
      if bool_decide (e = EINPROGRESS) then
        FD_SET fd ≫= λ _,
        '(r, _) ← select_loop sel;
        mret match r with
        | SelErr e' => (-1, e', flags1)
        | SelN n =>
            if bool_decide (n = 0) then (-1, ETIMEDOUT, restore flags1)
            else if bool_decide (n = 1) then
              match so with
              | CallErr e' => (-1, e', flags1)
              | CallOk err =>
                  if bool_decide (err = 0) then (0, e, restore flags1)
                  else (-1, err, restore flags1)
              end
            else (n, e, restore flags1)
        end
      else mret (-1, e, restore flags1)
  | CallOk v => mret (v, errno, restore flags1)
  end.

(** ** Reading and writing a fixed number of bytes *)

(** The loop of [readn]: [pos] is [buf_ptr - buf]. *)
Fixpoint readn_loop (script : list rd_res) (buf : list byte) (pos nleft count : Z)
    {struct script} : outcome (Z * list byte * list rd_res) :=
  if bool_decide (0 < nleft) then
    match script with
    | [] => Blocked
    | RdErr e :: script' =>
        if bool_decide (e = EINTR) then readn_loop script' buf pos nleft count
        else Ok (-1, buf, script')
    | RdData bs :: script' =>
        if bool_decide (nleft < blen bs) then Ub KernelContract
        else if bool_decide (blen bs = 0) then Ok (s64 (count - nleft), buf, script')
        else
          buf' ← mem_write buf pos bs;
          readn_loop script' buf' (pos + blen bs) (nleft - blen bs) count
    end
  else Ok (s64 count, buf, script).

(** [readn(fd, buf + off, count)]. *)
Definition readn (script : list rd_res) (buf : list byte) (off count : Z) :=
  readn_loop script buf off count count.

Arguments readn : simpl never.

(** The loop of [writen]; [sent] are the bytes the kernel has accepted. *)
Fixpoint writen_loop (script : list wr_res) (buf : list byte) (pos nleft count : Z)
    (sent : list byte) {struct script} : outcome (Z * list byte * list wr_res) :=
  if bool_decide (0 < nleft) then
    match script with
    | [] => Blocked
    | WrErr e :: script' =>
        if bool_decide (e = EINTR) then writen_loop script' buf pos nleft count sent
        else Ok (-1, sent, script')
    | WrN n :: script' =>
        if bool_decide (n < 0 ∨ nleft < n) then Ub KernelContract
        else if bool_decide (n = 0) then writen_loop script' buf pos nleft count sent
        else
          bs ← mem_read buf pos n;
          writen_loop script' buf (pos + n) (nleft - n) count (sent ++ bs)
    end
  else Ok (s64 count, sent, script).

Definition writen (script : list wr_res) (buf : list byte) (count : Z) :=
  writen_loop script buf 0 count count [].

(** ** Peeking and reading a line *)

(** [recv_peek(sockfd, buf + off, len)]: the peeked bytes are stored, and the
    [ssize_t] of [recv] goes through an [int]. *)
Fixpoint recv_peek (script : list rd_res) (buf : list byte) (off len errno : Z)
    : outcome (Z * list byte * Z * list rd_res) :=
  match script with
  | [] => Blocked
  | RdErr e :: script' =>
      if bool_decide (e = EINTR) then recv_peek script' buf off len e
      else Ok (-1, buf, e, script')
  | RdData bs :: script' =>
      if bool_decide (len < blen bs) then Ub KernelContract
      else
        buf' ← mem_write buf off bs;
        Ok (s32 (blen bs), buf', errno, script')
  end.

(** The scan of the peeked bytes [buf_ptr[i .. nread)], [n] of them left.  A
    newline makes [readn] consume the line; the scan then goes on.  [inl] is a
    return from [readline], [inr] the end of the scan. *)
Fixpoint scan_line (n : nat) (i off : Z) (script : list rd_res) (buf : list byte)
    : outcome (Z + list byte * list rd_res) :=
  match n with
  | O => Ok (inr (buf, script))
  | S n =>
      if bool_decide (buf !! Z.to_nat (off + i) = Some Byte.x0a) then
        '(ret, buf', script') ← readn script buf off (i + 1);
        if bool_decide (ret ≠ i + 1) then Ok (inl ret)
        else scan_line n (i + 1) off script' buf'
      else scan_line n (i + 1) off script buf
  end.

(** [errno] after the calls that consumed the results between [script] and [script']. *)
Definition errno_after (script script' : list rd_res) (errno : Z) : Z :=
  foldl (λ e r, match r with RdErr e' => e' | RdData _ => e end) errno (take (length script - length script') script).

(** The body of [while (1)].  Every round consumes a result, so [fuel] larger
    than the length of [script] is never exhausted. *)
Fixpoint readline_loop (fuel : nat) (script : list rd_res) (buf : list byte)
    (off nleft errno : Z) : outcome Z :=
  match fuel with
  | O => Blocked
  | S fuel =>
      '(ret, buf1, errno1, script1) ← recv_peek script buf off nleft errno;
      if bool_decide (ret ≤ 0) then Ok ret
      else
        let nread := ret in
        scanned ← scan_line (Z.to_nat nread) 0 off script1 buf1;
        match scanned with
        | inl ret' => Ok ret'
        | inr (buf2, script2) =>
            if bool_decide (nleft < nread) then Ok (errno_after script1 script2 errno1)
            else
              '(ret', buf3, script3) ← readn script2 buf2 off nread;
              let errno3 := errno_after script1 script3 errno1 in
              if bool_decide (ret' ≠ nread) then Ok errno3
              else readline_loop fuel script3 buf3 (off + nread) (nleft - nread) errno3
        end
  end.

Definition readline (script : list rd_res) (buf : list byte) (maxline errno : Z) : outcome Z :=
  readline_loop (S (length script)) script buf 0 (s32 maxline) errno.

(** ** Specification of the transfers *)

(** [delivers script bs]: the results are interruptions and non-empty chunks, and
    the chunks make up [bs]. *)
Inductive delivers : list rd_res → list byte → Prop :=
| delivers_nil : delivers [] []
| delivers_intr script bs : delivers script bs → delivers (RdErr EINTR :: script) bs
| delivers_data chunk script bs :
    chunk ≠ [] → delivers script bs → delivers (RdData chunk :: script) (chunk ++ bs).

(** [accepts script n]: interruptions and partial writes that add up to [n]. *)
Inductive accepts : list wr_res → Z → Prop :=
| accepts_nil : accepts [] 0
| accepts_intr script n : accepts script n → accepts (WrErr EINTR :: script) n
| accepts_some k script n : 0 ≤ k → accepts script n → accepts (WrN k :: script) (k + n).

(** The array [buf] with [bs] stored at [pos]. *)
Definition overwrite (buf : list byte) (pos : Z) (bs : list byte) : list byte :=
  take (Z.to_nat pos) buf ++ bs ++ drop (Z.to_nat pos + length bs) buf.

(** ** Lemmas *)

Lemma delivers_length script bs : delivers script bs → 0 ≤ blen bs.
Proof. intros _. apply blen_nonneg. Qed.

Lemma accepts_nonneg script n : accepts script n → 0 ≤ n.
Proof. induction 1; lia. Qed.

Lemma mem_write_overwrite buf pos bs :
  0 ≤ pos → pos + blen bs ≤ blen buf → mem_write buf pos bs = Ok (overwrite buf pos bs).
Proof. intros. unfold mem_write. by rewrite bool_decide_true. Qed.

Lemma blen_overwrite buf pos bs :
  0 ≤ pos → pos + blen bs ≤ blen buf → blen (overwrite buf pos bs) = blen buf.
Proof.
  intros. unfold overwrite, blen in *. rewrite !length_app, length_take, length_drop. lia.
Qed.

Lemma overwrite_nil buf pos : overwrite buf pos [] = buf.
Proof. unfold overwrite. simpl. by rewrite Nat.add_0_r, take_drop. Qed.

Lemma overwrite_overwrite buf pos bs1 bs2 :
  0 ≤ pos → pos + blen bs1 + blen bs2 ≤ blen buf →
  overwrite (overwrite buf pos bs1) (pos + blen bs1) bs2 = overwrite buf pos (bs1 ++ bs2).
Proof.
  intros Hp Hl. unfold overwrite at 1. unfold overwrite, blen in *.
  rewrite (Z2Nat.inj_add pos) by lia. rewrite Nat2Z.id.
  set (p := Z.to_nat pos) in *. set (n := length bs1) in *.
  assert (Hp' : length (take p buf) = p) by (rewrite length_take; lia).
  rewrite (app_assoc (take p buf) bs1).
  rewrite take_app_le by (rewrite length_app, Hp'; lia).
  rewrite take_ge by (rewrite length_app, Hp'; lia).
  rewrite drop_app_ge by (rewrite length_app, Hp'; lia).
  rewrite drop_drop, !length_app, Hp', <- !app_assoc. do 4 f_equal. lia.
Qed.

(** A prefix of interruptions and chunks that stays short of the count. *)
Lemma readn_loop_delivers script bs rest buf pos nleft count :
  delivers script bs → blen bs < nleft → 0 ≤ pos → pos + nleft ≤ blen buf →
  readn_loop (script ++ rest) buf pos nleft count
  = readn_loop rest (overwrite buf pos bs) (pos + blen bs) (nleft - blen bs) count.
Proof.
  intros Hd. revert buf pos nleft.
  induction Hd as [|script bs Hd IH|chunk script bs Hne Hd IH]; intros buf pos nleft Hlt Hp Hb.
  - rewrite overwrite_nil. change (blen []) with 0. by rewrite Z.add_0_r, Z.sub_0_r.
  - simpl. pose proof (blen_nonneg bs). rewrite bool_decide_true by lia. by apply IH.
  - simpl. rewrite blen_app in *. pose proof (blen_nonneg bs). pose proof (blen_nonneg chunk).
    assert (blen chunk ≠ 0) by (by intros ?%blen_nil_inv).
    rewrite bool_decide_true, bool_decide_false, bool_decide_false by lia.
    rewrite mem_write_overwrite by lia. simpl.
    rewrite IH by (rewrite ?blen_overwrite; lia).
    rewrite overwrite_overwrite by lia. f_equal; lia.
Qed.

Lemma writen_loop_accepts script n rest buf pos nleft count sent :
  accepts script n → n < nleft → 0 ≤ pos → pos + nleft ≤ blen buf →
  writen_loop (script ++ rest) buf pos nleft count sent
  = writen_loop rest buf (pos + n) (nleft - n) count
      (sent ++ take (Z.to_nat n) (drop (Z.to_nat pos) buf)).
Proof.
  intros Ha. revert pos nleft sent.
  induction Ha as [|script n Ha IH|k script n Hk Ha IH]; intros pos nleft sent Hlt Hp Hb.
  - simpl. by rewrite Z.add_0_r, Z.sub_0_r, app_nil_r.
  - simpl. pose proof (accepts_nonneg _ _ Ha). rewrite bool_decide_true by lia. by apply IH.
  - simpl. pose proof (accepts_nonneg _ _ Ha).
    rewrite bool_decide_true, bool_decide_false by lia.
    destruct (decide (k = 0)) as [->|Hk0].
    + rewrite bool_decide_true by done. by rewrite IH.
    + rewrite bool_decide_false by done. rewrite mem_read_ok by lia. simpl.
      rewrite IH by lia. f_equal; [lia..|].
      rewrite <- app_assoc. f_equal. rewrite (Z2Nat.inj_add k n), (Z2Nat.inj_add pos k) by lia.
      rewrite <- drop_drop. by rewrite take_take_drop.
Qed.

(** C32: [readn] loops over interruptions and short reads until it has the
    requested count.  After chunks that make up [bs], still short of the count: a
    final chunk that completes it gives [count] and stores exactly the bytes
    received; end of file gives the number of bytes received so far; another error
    gives -1; and with no further result the call is still blocked.  The array
    around the received bytes is untouched. *)
Theorem readn_spec (script : list rd_res) (bs : list byte) (buf : list byte) (off count : Z) :
  delivers script bs → blen bs < count < 2 ^ 63 → 0 ≤ off → off + count ≤ blen buf →
  (∀ chunk rest, blen (bs ++ chunk) = count →
     readn (script ++ RdData chunk :: rest) buf off count
     = Ok (count, overwrite buf off (bs ++ chunk), rest)) ∧
  (∀ rest, readn (script ++ RdData [] :: rest) buf off count
     = Ok (blen bs, overwrite buf off bs, rest)) ∧
  (∀ e rest, e ≠ EINTR →
     readn (script ++ RdErr e :: rest) buf off count = Ok (-1, overwrite buf off bs, rest)) ∧
  readn script buf off count = Blocked.
Proof.
  intros Hd Hlt Hoff Hb. unfold readn. pose proof (blen_nonneg bs).
  split_and!; intros; [..|rewrite <- (app_nil_r script)]; rewrite (readn_loop_delivers _ _ _ _ _ _ _ Hd) by lia; simpl;
    rewrite bool_decide_true by lia.
  - rewrite blen_app in *. rewrite !bool_decide_false by lia.
    rewrite mem_write_overwrite by (rewrite ?blen_overwrite; lia). simpl.
    rewrite overwrite_overwrite by lia.
    replace (count - blen bs - blen chunk) with 0 by lia.
    destruct rest; simpl; by rewrite s64_small by lia.
  - change (blen []) with 0. rewrite bool_decide_false by lia. simpl.
    do 3 f_equal. rewrite s64_small; lia.
  - by rewrite bool_decide_false.
  - done.
Qed.

Lemma readn_spec_witness :
  readn [RdData [Byte.x61]; RdErr EINTR; RdData [Byte.x62; Byte.x63]]
    (replicate 4 Byte.x00) 0 3
  = Ok (3, [Byte.x61; Byte.x62; Byte.x63; Byte.x00], []).
Proof.
  apply (proj1 (readn_spec [RdData [Byte.x61]; RdErr EINTR] [Byte.x61] (replicate 4 Byte.x00) 0 3
    ltac:(apply (delivers_data [Byte.x61] [RdErr EINTR] []); [done | repeat constructor])
    ltac:(done) ltac:(done) ltac:(done)) [Byte.x62; Byte.x63] []).
  reflexivity.
Defined.

(** [writen] sends exactly the first [count] bytes of the array, in order
    and without repetition, whatever the partial writes and interruptions, once the
    kernel has accepted [count] bytes; another error gives -1 with a prefix sent;
    and as long as bytes remain the call has not returned. *)
Lemma writen_spec (script : list wr_res) (n : Z) (buf : list byte) (count : Z) :
  accepts script n → n < count < 2 ^ 63 → count ≤ blen buf →
  (∀ k rest, n + k = count →
     writen (script ++ WrN k :: rest) buf count = Ok (count, take (Z.to_nat count) buf, rest)) ∧
  (∀ e rest, e ≠ EINTR →
     writen (script ++ WrErr e :: rest) buf count = Ok (-1, take (Z.to_nat n) buf, rest)) ∧
  writen script buf count = Blocked.
Proof.
  intros Ha Hlt Hb. unfold writen. pose proof (accepts_nonneg _ _ Ha).
  split_and!; intros; [..|rewrite <- (app_nil_r script)]; rewrite (writen_loop_accepts _ _ _ _ _ _ _ _ Ha) by lia; simpl;
    rewrite bool_decide_true by lia.
  - rewrite !bool_decide_false by lia. rewrite mem_read_ok by lia. simpl.
    rewrite drop_0, Z.add_0_l, take_take_drop, <- Z2Nat.inj_add by lia.
    replace (count - n - k) with 0 by lia. replace (n + k) with count by lia.
    destruct rest; simpl; by rewrite s64_small by lia.
  - rewrite bool_decide_false by done. by rewrite drop_0.
  - done.
Qed.

(** ** Reading a line *)

Lemma scan_line_skip k n i off script buf :
  (∀ j, (j < k)%nat → buf !! Z.to_nat (off + i + Z.of_nat j) ≠ Some Byte.x0a) →
  scan_line (k + n) i off script buf = scan_line n (i + Z.of_nat k) off script buf.
Proof.
  revert i. induction k as [|k IH]; intros i Hk; [simpl; f_equal; lia|].
  simpl. rewrite bool_decide_false.
  - rewrite IH; [f_equal; lia|]. intros j Hj. specialize (Hk (S j) ltac:(lia)).
    by replace (off + (i + 1) + Z.of_nat j) with (off + i + Z.of_nat (S j)) by lia.
  - specialize (Hk 0%nat ltac:(lia)). by rewrite Z.add_0_r in Hk.
Qed.

Lemma lookup_overwrite_0 buf bs j :
  (j < length bs)%nat → overwrite buf 0 bs !! j = bs !! j.
Proof. intros. unfold overwrite. rewrite take_0. simpl. by apply lookup_app_l. Qed.

Lemma overwrite_same buf bs :
  blen bs ≤ blen buf → overwrite (overwrite buf 0 bs) 0 bs = overwrite buf 0 bs.
Proof.
  intros. unfold overwrite. rewrite !take_0. simpl. by rewrite drop_app_length.
Qed.

Lemma readn_exact chunk next buf :
  chunk ≠ [] → blen chunk ≤ blen buf → blen chunk < 2 ^ 63 →
  readn (RdData chunk :: next) buf 0 (blen chunk) = Ok (blen chunk, overwrite buf 0 chunk, next).
Proof.
  intros Hne Hb Hs. pose proof (blen_nonneg chunk).
  assert (blen chunk ≠ 0) by (by intros ?%blen_nil_inv).
  unfold readn. simpl. rewrite bool_decide_true, !bool_decide_false by lia.
  rewrite mem_write_overwrite by lia. rewrite Z.sub_diag. simpl.
  destruct next; simpl; by rewrite s64_small by lia.
Qed.

(** a [readline] whose peek and read both see a complete line [line ++
    "\n"] does not return it: having consumed the line it goes on and reads the
    same number of bytes again, so it stays blocked while the peer is silent, and
    when the peer closes or the read fails it returns [errno] (in the first case a stale
    one) instead of the length of the line. *)
Lemma readline_never_returns_line (line buf : list byte) (maxline errno : Z) :
  Byte.x0a ∉ line → blen line < maxline < 2 ^ 31 → maxline ≤ blen buf →
  let l := line ++ [Byte.x0a] in
  readline [RdData l; RdData l] buf maxline errno = Blocked ∧
  readline [RdData l; RdData l; RdData []] buf maxline errno = Ok errno ∧
  (∀ e, e ≠ EINTR → readline [RdData l; RdData l; RdErr e] buf maxline errno = Ok e).
Proof.
  intros Hnl Hmax Hbuf l.
  assert (Hl : blen l = blen line + 1) by (unfold l; rewrite blen_app; done).
  pose proof (blen_nonneg line).
  assert (Hscan : ∀ next, scan_line (Z.to_nat (blen l)) 0 0 (RdData l :: next) (overwrite buf 0 l)
                  = Ok (inr (overwrite buf 0 l, next))).
  { intros next.
    replace (Z.to_nat (blen l)) with (length line + 1)%nat by (unfold blen in *; lia).
    rewrite scan_line_skip.
    - simpl. rewrite bool_decide_true.
      + replace (0 + Z.of_nat (length line) + 1) with (blen l) by (rewrite Hl; done).
        rewrite readn_exact; rewrite ?blen_overwrite; [|by destruct line|lia..]. simpl.
        rewrite bool_decide_false by (intros []; reflexivity).
        by rewrite overwrite_same by lia.
      + rewrite !Z.add_0_l, Nat2Z.id, lookup_overwrite_0 by (unfold l; rewrite length_app; simpl; lia).
        unfold l. by rewrite lookup_app_r, Nat.sub_diag by lia.
    - intros j Hj. rewrite !Z.add_0_l, Nat2Z.id, lookup_overwrite_0 by (unfold l; rewrite length_app; lia).
      unfold l. rewrite lookup_app_l by lia. intros Hx. apply Hnl. by apply list_elem_of_lookup_2 in Hx. }
  assert (Hround : ∀ next, readline (RdData l :: RdData l :: next) buf maxline errno =
    ('(ret', buf3, script3) ← readn next (overwrite buf 0 l) 0 (blen l);
     let errno3 := errno_after (RdData l :: next) script3 errno in
     if bool_decide (ret' ≠ blen l) then Ok errno3
     else readline_loop (S (S (length next))) script3 buf3 (0 + blen l) (maxline - blen l) errno3)).
  { intros next. unfold readline. rewrite s32_small by lia. simpl length.
    remember (S (S (length next))) as fuel. simpl.
    rewrite bool_decide_false by lia. rewrite mem_write_overwrite by lia. simpl.
    rewrite s32_small by lia. rewrite bool_decide_false by lia. rewrite Hscan. simpl.
    by rewrite bool_decide_false by lia. }
  rewrite !Hround. split_and!.
  - unfold readn. simpl. by rewrite bool_decide_true by lia.
  - unfold readn. simpl. rewrite bool_decide_true, bool_decide_false by (change (blen []) with 0; lia).
    simpl. rewrite bool_decide_true; [done|]. rewrite s64_small; lia.
  - intros e He. rewrite Hround. unfold readn. simpl.
    rewrite bool_decide_true, bool_decide_false by (done || lia). simpl.
    rewrite bool_decide_true by lia. done.
Qed.

(** ** Timeouts and flags *)

Lemma select_loop_intr k sel :
  select_loop (replicate k (SelErr EINTR) ++ sel) = select_loop sel.
Proof. by induction k. Qed.

Lemma set_blocking_nonblocking flags :
  Z.testbit flags 11 = false → fst (set_blocking (fst (set_nonblocking flags))) = flags.
Proof.
  intros Hf. unfold set_blocking, set_nonblocking, O_NONBLOCK. simpl fst.
  change 2048 with (2 ^ 11). apply Z.bits_inj'. intros i Hi.
  rewrite Z.land_spec, Z.lor_spec, Z.lnot_spec, Z.pow2_bits_eqb by lia.
  destruct (Z.eqb_spec 11 i) as [<-|]; [by rewrite Hf|].
  by rewrite orb_false_r, andb_true_r.
Qed.

(** The two early returns of [connect_timeout]. *)
Definition returns_early (conn : call_res) (sel : list sel_res) (so : call_res) : bool :=
  match conn, select_loop sel, so with
  | CallErr e, Ok (SelErr _, _), _ => bool_decide (e = EINPROGRESS)
  | CallErr e, Ok (SelN n, _), CallErr _ => bool_decide (e = EINPROGRESS ∧ n = 1)
  | _, _, _ => false
  end.

Lemma wait_ready_spec fd wait errno k r sel :
  0 < wait → 0 ≤ fd < FD_SETSIZE → r ≠ SelErr EINTR →
  wait_ready fd wait errno (replicate k (SelErr EINTR) ++ r :: sel) =
    Ok match r with
       | SelN 0 => (-1, ETIMEDOUT, sel)
       | SelN 1 => (0, errno, sel)
       | SelN n => (n, errno, sel)
       | SelErr e => (-1, e, sel)
       end.
Proof.
  intros Hw Hfd Hr. unfold wait_ready, FD_SET. rewrite !bool_decide_true by done. simpl.
  rewrite select_loop_intr. simpl. destruct r as [e|n].
  - by rewrite bool_decide_false by congruence.
  - simpl. destruct n as [|[]|]; done.
Qed.

(** on a descriptor that starts in blocking mode, [connect_timeout] with a
    timeout gives the flags back as they were on every path but two: when [select]
    fails, or when [getsockopt] fails, it returns -1 and leaves the descriptor
    non-blocking. *)
Lemma connect_timeout_flags (fd wait errno flags : Z) (conn : call_res)
    (sel : list sel_res) (so : call_res) (ret err fl : Z) :
  0 < wait → Z.testbit flags 11 = false →
  connect_timeout fd wait errno flags conn sel so = Ok (ret, err, fl) →
  fl = (if returns_early conn sel so then Z.lor flags O_NONBLOCK else flags) ∧
  (returns_early conn sel so = true → ret = -1).
Proof.
  intros Hw Hf Hrun. pose proof (set_blocking_nonblocking flags Hf) as Hrest.
  unfold connect_timeout, returns_early, FD_SET in *.
  rewrite !(bool_decide_true (0 < wait)) in Hrun by done. rewrite Hrest in Hrun.
  destruct conn as [e|v]; [|by injection Hrun as <- <- <-].
  case_bool_decide as He; [|injection Hrun as <- <- <-].
  - case_bool_decide; [|done]. simpl in Hrun. unfold mret, outcome_ret in Hrun.
    destruct (select_loop sel) as [[[e'|n] sel']| | |]; simpl in Hrun; try done.
    + by injection Hrun as <- <- <-.
    + destruct so; repeat case_bool_decide; simplify_eq/=; naive_solver.
  - by destruct (select_loop sel) as [[[]]| | |], so; rewrite ?(bool_decide_false (_ ∧ _)) by tauto.
Qed.

