(* ===== verification/TcpSocket.v ===== *)
(** * net/tcp_socket.h and net/tcp_socket.cpp: one connection of the pool

    A [TcpSocket] holds a descriptor, a send and a receive [Buffer], a flag that
    tells the worker thread what to do, and the two counters of the send path.
    [send_buf] and [recv_buf] are translated with the results of their [write] and
    [read] calls as arguments (as in SocketUtil).  [m_lock] protects the buffers
    inside one operation; the operations are sequential here and the lock is not a
    part of the state.  The C strings printed to [std::cout] matter when they are
    not terminated, so [c_string] keeps that check. *)
From S2P Require Import Prelude.
From S2P Require Import Buffer.
From S2P Require Import SocketUtil.

Definition READ_OP : bool := false.
Definition WRITE_OP : bool := true.

Record tcp_socket := mk_socket {
  m_socket : Z;
  m_task_id : Z;
  m_send_pos : Z;
  m_reference_count : Z;
  m_flag : bool;
  m_send_buf : buffer;
  m_recv_buf : buffer;
}.

(** The constructor, given the two blocks [malloc] returns. *)
Definition new_socket (malloc1 malloc2 : option (list byte)) : outcome tcp_socket :=
  sb ← new_buffer malloc1;
  rb ← new_buffer malloc2;
  mret (mk_socket 0 (-1) 6 1 READ_OP sb rb).

Definition get_task_id (s : tcp_socket) : Z := m_task_id s.
Definition set_task_id (s : tcp_socket) (task_id : Z) : tcp_socket :=
  mk_socket (m_socket s) task_id (m_send_pos s) (m_reference_count s) (m_flag s)
    (m_send_buf s) (m_recv_buf s).
Definition get_wr_flag (s : tcp_socket) : bool := m_flag s.
Definition set_wr_flag (s : tcp_socket) (bFlag : bool) : tcp_socket :=
  mk_socket (m_socket s) (m_task_id s) (m_send_pos s) (m_reference_count s) bFlag
    (m_send_buf s) (m_recv_buf s).
Definition set_fd (s : tcp_socket) (conn_fd : Z) : tcp_socket :=
  mk_socket conn_fd (m_task_id s) (m_send_pos s) (m_reference_count s) (m_flag s)
    (m_send_buf s) (m_recv_buf s).

(** Field updates of the send path. *)
Definition with_send_pos (s : tcp_socket) (p : Z) : tcp_socket :=
  mk_socket (m_socket s) (m_task_id s) p (m_reference_count s) (m_flag s)
    (m_send_buf s) (m_recv_buf s).
Definition with_refs (s : tcp_socket) (r : Z) : tcp_socket :=
  mk_socket (m_socket s) (m_task_id s) (m_send_pos s) r (m_flag s)
    (m_send_buf s) (m_recv_buf s).
Definition with_recv_buf (s : tcp_socket) (b : buffer) : tcp_socket :=
  mk_socket (m_socket s) (m_task_id s) (m_send_pos s) (m_reference_count s) (m_flag s)
    (m_send_buf s) b.
Definition with_send_buf (s : tcp_socket) (b : buffer) : tcp_socket :=
  mk_socket (m_socket s) (m_task_id s) (m_send_pos s) (m_reference_count s) (m_flag s)
    b (m_recv_buf s).

(** [get_send_buf_len_addr] hands out the address of the length and counts it. *)
Definition get_send_buf_len_addr (s : tcp_socket) : tcp_socket :=
  with_refs s (m_reference_count s + 1).

Definition get_msg (s : tcp_socket) (buf_out : list byte) : outcome (list byte * Z) :=
  '(out, n) ← get_buf (m_recv_buf s) buf_out;
  mret (out, s32 n).

Definition put_msg (s : tcp_socket) (buf_in : option (list byte)) (buf_length_in : Z)
    : outcome (tcp_socket * bool) :=
  '(b, r) ← put_buf (m_send_buf s) buf_in (u32 buf_length_in);
  mret (with_send_buf s b, bool_decide (0 = r)).

Definition reset (s : tcp_socket) : outcome (tcp_socket * bool) :=
  sb ← clean (m_send_buf s);
  rb ← clean (m_recv_buf s);
  mret (mk_socket 0 (m_task_id s) (m_send_pos s) (m_reference_count s) (m_flag s) sb rb, true).

(** Reading an array as a C string runs past it when no byte is zero. *)
Definition c_string (buf : list byte) : outcome unit :=
  if bool_decide (Byte.x00 ∈ buf) then Ok () else Ub OutOfBounds.

(** A block of [BUFFER_SIZE] zero bytes: the local arrays after [memset]. *)
Definition zero_block : list byte := replicate (Z.to_nat BUFFER_SIZE) Byte.x00.

(** [while ((ret = write(m_socket, buf + send_pos, left)) > 0)]: the last [ret],
    its [errno], the [left] of the loop, and what was sent. *)
Fixpoint write_loop (script : list wr_res) (buf : list byte) (send_pos left : Z)
    (sent : list byte) : outcome (Z * Z * Z * list byte * list wr_res) :=
  mem_read buf send_pos left ≫= λ bs,
  match script with
  | [] => Blocked
  | WrErr e :: script' => Ok (-1, e, left, sent, script')
  | WrN n :: script' =>
      if bool_decide (n < 0 ∨ left < n) then Ub KernelContract
      else if bool_decide (n = 0) then Ok (0, 0, left, sent, script')
      else write_loop script' buf (send_pos + n) (left - n) (sent ++ take (Z.to_nat n) bs)
  end.

(** [send_buf()]: the new state, the return value and the bytes sent. *)
Definition send_buf (s : tcp_socket) (script : list wr_res)
    : outcome (tcp_socket * Z * list byte * list wr_res) :=
  let s1 :=
    if bool_decide (0 < m_reference_count s)
    then with_refs (with_send_pos s (m_send_pos s + get_size (m_send_buf s)))
           (m_reference_count s - 1)
    else s in
  let left := m_send_pos s1 in
  '(buf, n) ← get_buf (m_send_buf s1) zero_block;
  if bool_decide (s32 n = 0) then mret (s1, 0, [], script)
  else if bool_decide (left = 0) then mret (s1, 0, [], script)
  else
    c_string buf ≫= λ _,
    '(ret, err, left', sent, script') ← write_loop script buf 0 left [];
    if bool_decide (left' = 0) then mret (s1, 0, sent, script')
    else if bool_decide (ret < 0 ∧ err = EAGAIN)
    then mret (with_send_pos s1 (m_send_pos s1 - ret), -1, sent, script')
    else mret (s1, -1, sent, script').

(** [while ((ret = read(m_socket, recv_buf, BUFFER_SIZE-1)) != 0)]: an error is
    added to the length like a count, and only [EAGAIN] leaves the loop. *)
Fixpoint recv_loop (script : list rd_res) (rbuf : list byte) (recv_buf_length : Z)
    : outcome (Z * list byte * Z * list rd_res) :=
  match script with
  | [] => Blocked
  | RdErr e :: script' =>
      if bool_decide (e = EAGAIN) then Ok (-1, rbuf, recv_buf_length - 1, script')
      else recv_loop script' rbuf (recv_buf_length - 1)
  | RdData bs :: script' =>
      if bool_decide (BUFFER_SIZE - 1 < blen bs) then Ub KernelContract
      else if bool_decide (blen bs = 0) then Ok (0, rbuf, recv_buf_length, script')
      else
        rbuf' ← mem_write rbuf 0 bs;
        Ok (blen bs, rbuf', recv_buf_length + blen bs, script')
  end.

(** [recv_buf()]: the length, negative or not, is passed as a [uint32_t]. *)
Definition recv_buf (s : tcp_socket) (script : list rd_res)
    : outcome (tcp_socket * Z * list rd_res) :=
  let s1 := with_send_pos s 0 in
  '(ret, rbuf, len, script') ← recv_loop script zero_block 0;
  if bool_decide (ret = 0) then mret (s1, -1, script')
  else
    '(b, _) ← put_buf (m_recv_buf s1) (Some rbuf) (u32 len);
    '(out, _) ← get_buf b rbuf;
    c_string out ≫= λ _,
    mret (with_recv_buf s1 b, 0, script').

(** [process(bFlag)] on a worker thread; the return values are dropped. *)
Definition process (s : tcp_socket) (bFlag : bool) (reads : list rd_res) (writes : list wr_res)
    : outcome (tcp_socket * list byte) :=
  if bool_decide (READ_OP = bFlag) then
    '(s', _, _) ← recv_buf s reads; mret (s', [])
  else
    '(s', _, sent, _) ← send_buf s writes; mret (s', sent).

Definition socket_wf (s : tcp_socket) : Prop :=
  buffer_wf (m_send_buf s) ∧ buffer_wf (m_recv_buf s) ∧
  m_length (m_recv_buf s) < BUFFER_SIZE ∧ 0 ≤ m_send_pos s ∧ 0 ≤ m_reference_count s.

Definition sum_Z (ks : list Z) : Z := foldr Z.add 0 ks.

(** ** Lemmas *)

Lemma blen_zero_block : blen zero_block = BUFFER_SIZE.
Proof. unfold zero_block. rewrite blen_replicate. done. Qed.

Lemma zero_block_drop n : (n < Z.to_nat BUFFER_SIZE)%nat →
  ∃ m, drop n zero_block = Byte.x00 :: replicate m Byte.x00.
Proof.
  intros Hn. unfold zero_block. rewrite drop_replicate.
  destruct (Z.to_nat BUFFER_SIZE - n)%nat as [|m] eqn:E; [lia|]. by exists m.
Qed.

(** The local array after [get_buf]: the contents, then zeros. *)
Definition padded (cs : list byte) : list byte := cs ++ drop (length cs) zero_block.

Lemma blen_padded cs : blen cs ≤ BUFFER_SIZE → blen (padded cs) = BUFFER_SIZE.
Proof.
  intros. rewrite <- blen_zero_block. unfold padded, blen.
  pose proof blen_zero_block. unfold blen in *. rewrite length_app, length_drop. lia.
Qed.

Lemma padded_take cs n : (n ≤ length cs)%nat → take n (padded cs) = take n cs.
Proof. intros. unfold padded. by rewrite take_app_le. Qed.

Lemma c_string_padded cs : blen cs < BUFFER_SIZE → c_string (padded cs) = Ok ().
Proof.
  intros Hc. unfold c_string, padded. rewrite bool_decide_true; [done|].
  destruct (zero_block_drop (length cs)) as [m ->]; [unfold blen, BUFFER_SIZE in *; lia|].
  apply elem_of_app. right. apply list_elem_of_here.
Qed.

Lemma sum_Z_nonneg ks : Forall (λ k, 0 < k) ks → 0 ≤ sum_Z ks.
Proof. induction 1; simpl; lia. Qed.

(** Partial writes that stay within [left] advance the loop. *)
Lemma write_loop_partial ks rest buf pos left sent :
  Forall (λ k, 0 < k) ks → sum_Z ks ≤ left → 0 ≤ pos → pos + left ≤ blen buf →
  write_loop (map WrN ks ++ rest) buf pos left sent
  = write_loop rest buf (pos + sum_Z ks) (left - sum_Z ks)
      (sent ++ take (Z.to_nat (sum_Z ks)) (drop (Z.to_nat pos) buf)).
Proof.
  intros Hks. revert pos left sent. induction Hks as [|k ks Hk Hks IH]; intros pos left sent Hs Hp Hb.
  - simpl. by rewrite Z.add_0_r, Z.sub_0_r, app_nil_r.
  - simpl in *. pose proof (sum_Z_nonneg _ Hks).
    rewrite mem_read_ok by lia. simpl. rewrite !bool_decide_false by lia.
    rewrite IH by lia. f_equal; [lia..|]. rewrite <- app_assoc. f_equal.
    rewrite (Z2Nat.inj_add k), (Z2Nat.inj_add pos) by lia.
    rewrite <- drop_drop, take_take. rewrite <- take_take_drop. f_equal.
    f_equal. unfold blen in *. lia.
Qed.

(** The send path up to the write loop. *)
Lemma send_buf_unfold s script :
  socket_wf s → 0 < m_length (m_send_buf s) < BUFFER_SIZE →
  let s1 :=
    if bool_decide (0 < m_reference_count s)
    then with_refs (with_send_pos s (m_send_pos s + m_length (m_send_buf s)))
           (m_reference_count s - 1)
    else s in
  0 < m_send_pos s1 →
  send_buf s script =
    ('(ret, err, left', sent, script') ← write_loop script (padded (contents (m_send_buf s))) 0 (m_send_pos s1) [];
     if bool_decide (left' = 0) then mret (s1, 0, sent, script')
     else if bool_decide (ret < 0 ∧ err = EAGAIN)
     then mret (with_send_pos s1 (m_send_pos s1 - ret), -1, sent, script')
     else mret (s1, -1, sent, script')).
Proof.
  intros (Hsb & Hrb & _ & Hp & Hr) Hlen s1 Hpos.
  assert (Hsz : get_size (m_send_buf s) = m_length (m_send_buf s)).
  { unfold get_size. rewrite s32_small; [done|]. unfold BUFFER_SIZE in *. lia. }
  unfold send_buf. rewrite Hsz. fold s1.
  assert (Hs1 : m_send_buf s1 = m_send_buf s) by (unfold s1; by case_bool_decide).
  rewrite Hs1, get_buf_ok by (rewrite ?blen_zero_block; lia || done). simpl.
  rewrite s32_small by (unfold BUFFER_SIZE in *; lia).
  rewrite !(bool_decide_false (_ = 0)) by lia.
  fold (padded (contents (m_send_buf s))).
  rewrite c_string_padded by (rewrite buffer_contents_length by done; lia). done.
Qed.

Lemma recv_loop_errs errs script rbuf len :
  Forall (λ e, e ≠ EAGAIN) errs →
  recv_loop (map RdErr errs ++ script) rbuf len
  = recv_loop script rbuf (len - Z.of_nat (length errs)).
Proof.
  intros He. revert len. induction He as [|e errs He Hes IH]; intros len.
  - simpl. f_equal. lia.
  - simpl. rewrite bool_decide_false by done. rewrite IH. f_equal. lia.
Qed.

(** Any array whose last byte is that of a padded local array is a C string. *)
Lemma c_string_over_padded cs bs :
  blen cs < BUFFER_SIZE → blen bs < BUFFER_SIZE →
  c_string (cs ++ drop (length cs) (padded bs)) = Ok ().
Proof.
  intros Hc Hb. unfold c_string. rewrite bool_decide_true; [done|].
  apply list_elem_of_lookup. exists (Z.to_nat BUFFER_SIZE - 1)%nat.
  unfold BUFFER_SIZE, blen in *.
  rewrite lookup_app_r, lookup_drop by lia. unfold padded.
  rewrite lookup_app_r, lookup_drop by lia. unfold zero_block. apply lookup_replicate_2.
  unfold BUFFER_SIZE. lia.
Qed.

Lemma recv_buf_data s errs bs rest :
  Forall (λ e, e ≠ EAGAIN) errs → 0 < blen bs < BUFFER_SIZE →
  recv_buf s (map RdErr errs ++ RdData bs :: rest) =
    ('(b, _) ← put_buf (m_recv_buf s) (Some (padded bs)) (u32 (blen bs - Z.of_nat (length errs)));
     '(out, _) ← get_buf b (padded bs);
     c_string out ≫= λ _, mret (with_recv_buf (with_send_pos s 0) b, 0, rest)).
Proof.
  intros He Hb. unfold recv_buf. rewrite recv_loop_errs by done. simpl recv_loop.
  rewrite bool_decide_false, bool_decide_false by lia.
  rewrite mem_write_0 by (rewrite blen_zero_block; lia). simpl.
  fold (padded bs). rewrite bool_decide_false by lia.
  by replace (0 - Z.of_nat (length errs) + blen bs) with (blen bs - Z.of_nat (length errs)) by lia.
Qed.

(** Printing the buffer back is defined while the buffer is not full. *)
Lemma recv_buf_print b bs :
  buffer_wf b → m_length b < BUFFER_SIZE → blen bs < BUFFER_SIZE →
  ∃ out, get_buf b (padded bs) = Ok (out, m_length b) ∧ c_string out = Ok ().
Proof.
  intros Hwf Hb Hbs. eexists. split.
  - apply get_buf_ok; [done|]. rewrite blen_padded; lia.
  - apply c_string_over_padded; [rewrite buffer_contents_length by done|]; lia.
Qed.

(** The common case: the first read succeeds. *)
Lemma recv_buf_reads s bs rest :
  socket_wf s → 0 < blen bs < BUFFER_SIZE →
  ∃ s', recv_buf s (RdData bs :: rest) = Ok (s', 0, rest) ∧ contents (m_recv_buf s') = bs.
Proof.
  intros (Hsb & Hrb & Hrl & _) Hbs.
  pose proof (recv_buf_data s [] bs rest ltac:(constructor) Hbs) as Hrun.
  cbn [map app length] in Hrun. change (Z.of_nat 0) with 0 in Hrun.
  rewrite Z.sub_0_r, u32_small in Hrun by (unfold is_u32, BUFFER_SIZE in *; lia).
  destruct (put_buf_ok (m_recv_buf s) (padded bs) (blen bs)) as (b & Hput & Hb & Hcont & Hlen);
    [done|lia|rewrite blen_padded; lia|].
  rewrite Hput in Hrun. simpl in Hrun.
  destruct (recv_buf_print b bs) as (out & Hget & Hout); [done|lia..|].
  rewrite Hget in Hrun. simpl in Hrun. rewrite Hout in Hrun. simpl in Hrun.
  eexists. split; [exact Hrun|]. simpl. rewrite Hcont. unfold blen.
  by rewrite Nat2Z.id, padded_take, take_ge.
Qed.

(** [recv_buf] after [k] reads that failed with an error other than
    [EAGAIN], then a read of [bs].  The return is 0 and the receive buffer holds
    exactly [bs] when no read failed; each failed read makes the stored prefix one
    byte shorter, down to leaving the old contents in place, and with more failures
    than bytes the length wraps around and [memcpy] overflows the buffer. *)
Lemma recv_buf_stores (s : tcp_socket) (errs : list Z) (bs : list byte) (rest : list rd_res) :
  socket_wf s → Forall (λ e, e ≠ EAGAIN) errs →
  0 < blen bs < BUFFER_SIZE → blen errs < 2 ^ 31 →
  let script := map RdErr errs ++ RdData bs :: rest in
  let stored (cs : list byte) := ∃ s', recv_buf s script = Ok (s', 0, rest) ∧
    socket_wf s' ∧ m_send_pos s' = 0 ∧ m_send_buf s' = m_send_buf s ∧
    contents (m_recv_buf s') = cs in
  match Z.compare (blen errs) (blen bs) with
  | Lt => stored (take (length bs - length errs) bs)
  | Eq => stored (contents (m_recv_buf s))
  | Gt => recv_buf s script = Ub OutOfBounds
  end.
Proof.
  intros (Hsb & Hrb & Hrl & Hp & Hr) He Hbs Hk script stored. unfold stored, script.
  rewrite recv_buf_data by done. fold (blen errs). unfold BUFFER_SIZE in Hbs.
  pose proof (blen_nonneg errs) as Hk0.
  destruct (Z.compare_spec (blen errs) (blen bs)) as [Heq|Hlt|Hgt].
  - rewrite Heq, Z.sub_diag. unfold put_buf. rewrite bool_decide_true by done. simpl.
    destruct (recv_buf_print (m_recv_buf s) bs) as (out & -> & Hout); [done..|unfold BUFFER_SIZE; lia|].
    simpl. rewrite Hout. simpl. eexists. split_and!; [done| |done..].
    split_and!; simpl; done || lia.
  - rewrite u32_small by (unfold is_u32; lia).
    destruct (put_buf_ok (m_recv_buf s) (padded bs) (blen bs - blen errs))
      as (b & -> & Hb & Hcont & Hlen); [done|unfold BUFFER_SIZE; lia|
      rewrite blen_padded; unfold BUFFER_SIZE; lia|].
    simpl. destruct (recv_buf_print b bs) as (out & -> & Hout); [done|unfold BUFFER_SIZE; lia..|].
    simpl. rewrite Hout. simpl. eexists. split_and!; [done| |done..|].
    + split_and!; simpl; try done; unfold BUFFER_SIZE; lia.
    + simpl. rewrite Hcont. unfold padded, blen in *. rewrite take_app_le by lia. f_equal. lia.
  - unfold put_buf. unfold u32. rewrite <- (Z_mod_plus_full _ 1), Z.mod_small by lia.
    rewrite bool_decide_false by lia.
    rewrite memcpy_dst_overflow by (destruct Hrb as [-> _]; unfold BUFFER_SIZE; lia). done.
Qed.

(** A buffer holding [cs], for the witnesses. *)
Definition filled (cs : list byte) : buffer := mk_buffer (padded cs) (blen cs).

Lemma filled_wf cs : blen cs ≤ BUFFER_SIZE → buffer_wf (filled cs) ∧ contents (filled cs) = cs.
Proof.
  intros Hc. unfold buffer_wf, contents, filled. simpl. rewrite blen_padded by done.
  pose proof (blen_nonneg cs). split_and!; try lia; try done.
  unfold padded, blen. by rewrite Nat2Z.id, take_app_length.
Qed.

Definition sample_socket (send : list byte) (send_pos refs : Z) : tcp_socket :=
  mk_socket 7 0 send_pos refs READ_OP (filled send) (filled []).

Lemma sample_socket_wf send send_pos refs :
  blen send ≤ BUFFER_SIZE → 0 ≤ send_pos → 0 ≤ refs → socket_wf (sample_socket send send_pos refs).
Proof.
  intros. unfold socket_wf. simpl. split_and!; try done; try apply filled_wf; done.
Qed.

(** A connection that has received [recv] and has nothing to send. *)
Definition sample_received (recv : list byte) : tcp_socket :=
  mk_socket 7 0 0 1 READ_OP (filled []) (filled recv).

Lemma sample_received_wf recv : blen recv < BUFFER_SIZE → socket_wf (sample_received recv).
Proof.
  intros. unfold socket_wf. simpl. split_and!; try done; apply filled_wf; done || lia.
Qed.

(** a [read] that reports [EAGAIN], which is how a drained edge-triggered
    descriptor ends, makes [recv_buf] copy a block of length [(uint32_t)-1] (one
    less for every failed read before it) into the receive buffer: the [memcpy] is
    out of bounds whatever the buffer holds. *)
Lemma recv_buf_eagain_overflows (s : tcp_socket) (errs : list Z) (rest : list rd_res) :
  socket_wf s → Forall (λ e, e ≠ EAGAIN) errs → blen errs < 2 ^ 31 →
  recv_buf s (map RdErr errs ++ RdErr EAGAIN :: rest) = Ub OutOfBounds.
Proof.
  intros (Hsb & [Hrb _] & _) He Hk. unfold recv_buf. rewrite recv_loop_errs by done.
  simpl recv_loop. simpl.
  pose proof (blen_nonneg errs). unfold blen in *.
  unfold put_buf, u32. rewrite <- (Z_mod_plus_full _ 1), Z.mod_small by lia.
  rewrite bool_decide_false by lia.
  rewrite memcpy_dst_overflow; [done|]. unfold BUFFER_SIZE, blen in *. simpl. lia.
Qed.

(** ** Sending *)

(** One complete transmission of the first [m_send_pos] bytes. *)
Lemma send_buf_complete s ks rest :
  socket_wf s → 0 < m_length (m_send_buf s) < BUFFER_SIZE → Forall (λ k, 0 < k) ks →
  let total := m_send_pos s + (if bool_decide (0 < m_reference_count s) then m_length (m_send_buf s) else 0) in
  0 < total ≤ BUFFER_SIZE → sum_Z ks = total →
  ∃ s', send_buf s (map WrN ks ++ WrN 0 :: rest)
        = Ok (s', 0, take (Z.to_nat total) (padded (contents (m_send_buf s))), rest) ∧
    m_send_pos s' = total ∧ m_send_buf s' = m_send_buf s ∧
    m_reference_count s' = Z.max 0 (m_reference_count s - 1).
Proof.
  intros Hwf Hlen Hks total Htot Hsum.
  pose proof Hwf as (Hsb & _ & _ & _ & Hr).
  assert (Hcl : blen (padded (contents (m_send_buf s))) = BUFFER_SIZE).
  { apply blen_padded. rewrite buffer_contents_length by done. lia. }
  subst total. destruct (decide (0 < m_reference_count s)) as [Hd|Hd];
    [rewrite !(bool_decide_true _ Hd) in * | rewrite !(bool_decide_false _ Hd) in *];
    rewrite send_buf_unfold by (done || (rewrite ?bool_decide_true, ?bool_decide_false by done; simpl; lia));
    [rewrite !(bool_decide_true _ Hd) | rewrite !(bool_decide_false _ Hd)]; simpl m_send_pos;
    rewrite ?Z.add_0_r in *;
    rewrite write_loop_partial by (done || lia); rewrite Hsum, Z.sub_diag; simpl;
    rewrite mem_read_ok by lia; simpl; rewrite ?drop_0;
    eexists; (split; [done|]); simpl; split_and!; done || lia.
Qed.

(** after a request has been received ([m_send_pos] is 0) and the answer's
    length has been asked for once or more, [send_buf] transmits exactly the answer,
    byte for byte and once, however the kernel splits the writes, and returns 0; one
    reference is used up and [m_send_pos] is left at the answer's length. *)
Lemma send_buf_sends_answer (s : tcp_socket) (ks : list Z) (rest : list wr_res) :
  socket_wf s → m_send_pos s = 0 → 0 < m_reference_count s →
  0 < m_length (m_send_buf s) < BUFFER_SIZE →
  Forall (λ k, 0 < k) ks → sum_Z ks = m_length (m_send_buf s) →
  ∃ s', send_buf s (map WrN ks ++ WrN 0 :: rest) = Ok (s', 0, contents (m_send_buf s), rest) ∧
    m_send_pos s' = m_length (m_send_buf s) ∧ m_send_buf s' = m_send_buf s ∧
    m_reference_count s' = m_reference_count s - 1.
Proof.
  intros Hwf Hp Hr Hlen Hks Hsum.
  destruct (send_buf_complete s ks rest Hwf Hlen Hks) as (s' & Hrun & Hp' & Hb' & Hr');
    rewrite ?Hp, ?bool_decide_true by done; [lia..|].
  exists s'. rewrite Hp, bool_decide_true in Hrun, Hp' by done. rewrite Hrun, Hr'.
  split_and!; [|done || lia..].
  do 3 f_equal. pose proof (buffer_contents_length _ (proj1 Hwf)) as Hc. unfold blen in Hc.
  rewrite padded_take by lia. apply take_ge. lia.
Qed.

(** when the kernel accepts only [k] bytes of the answer and then reports
    [EAGAIN], [send_buf] returns -1 without recording how far it got, and adds 1 to
    [m_send_pos]; the retry transmits the whole answer again followed by one stray
    zero byte.  The peer receives the first [k] bytes twice. *)
Lemma send_buf_retry_duplicates (s : tcp_socket) (ks ks' : list Z) (rest rest' : list wr_res) :
  socket_wf s → m_send_pos s = 0 → m_reference_count s = 1 →
  0 < m_length (m_send_buf s) < BUFFER_SIZE →
  Forall (λ k, 0 < k) ks → sum_Z ks < m_length (m_send_buf s) →
  Forall (λ k, 0 < k) ks' → sum_Z ks' = m_length (m_send_buf s) + 1 →
  ∃ s' s'',
    send_buf s (map WrN ks ++ WrErr EAGAIN :: rest)
      = Ok (s', -1, take (Z.to_nat (sum_Z ks)) (contents (m_send_buf s)), rest) ∧
    send_buf s' (map WrN ks' ++ WrN 0 :: rest')
      = Ok (s'', 0, contents (m_send_buf s) ++ [Byte.x00], rest').
Proof.
  intros Hwf Hp Hr Hlen Hks Hsum Hks' Hsum'.
  pose proof Hwf as (Hsb & Hrb & Hrl & _ & _).
  pose proof (buffer_contents_length _ Hsb) as Hc.
  assert (Hcl : blen (padded (contents (m_send_buf s))) = BUFFER_SIZE) by (apply blen_padded; lia).
  pose proof (sum_Z_nonneg _ Hks). unfold blen in Hc.
  set (s1 := with_refs (with_send_pos s (m_length (m_send_buf s) + 1)) 0).
  assert (Hwf1 : socket_wf s1) by (split_and!; simpl; done || lia).
  destruct (send_buf_complete s1 ks' rest' Hwf1 Hlen Hks') as (s'' & Hrun & _ & _ & _);
    [simpl; unfold BUFFER_SIZE in *; lia|simpl; lia|].
  exists s1, s''. split.
  - rewrite send_buf_unfold by (done || (rewrite bool_decide_true by lia; simpl; lia)).
    rewrite bool_decide_true by lia. simpl m_send_pos. rewrite Hp, Z.add_0_l.
    rewrite write_loop_partial by (done || lia). simpl.
    rewrite mem_read_ok by lia. simpl. rewrite bool_decide_false by lia.
    rewrite drop_0, padded_take by lia. unfold s1. rewrite Hr. done.
  - rewrite Hrun. simpl. do 3 f_equal. rewrite Z.add_0_r.
    replace (Z.to_nat (m_length (m_send_buf s) + 1))
      with (length (contents (m_send_buf s)) + 1)%nat by lia.
    unfold padded. rewrite take_app_add. f_equal.
    destruct (zero_block_drop (length (contents (m_send_buf s)))) as [m ->]; [|done].
    unfold BUFFER_SIZE in *. lia.
Qed.

