(* ===== verification/ThreadPool.v ===== *)
(** * base/locker.h and base/thread_pool.h: the work queue and its workers

    A [ThreadPool<T>] is a list of request pointers protected by [m_queuelocker],
    a semaphore [m_queuestat] that counts the requests, and worker threads that
    loop over wait, lock, pop, unlock, process.  The threads run concurrently: the
    state holds the shared fields and the program counter of every thread, and a
    step runs one thread up to its next operation on shared state, so that every
    interleaving of the statements of [append] and [run] is a sequence of steps.
    [pthread_mutex] and [sem_t] have their POSIX meaning: [lock] waits until no
    thread holds the mutex, [wait] until the counter is positive or until a signal
    handler interrupts it.  [run] ignores what [wait] returns, so a worker whose wait
    failed goes on as if it had been woken.  A request is an element of [R]; [None] is
    the null pointer.  The lists [appended], [taken] and [processed] and the counters
    [failed_waits] and [empty_passes] are ghost history.  The destructor is not
    modelled. *)
From S2P Require Import Prelude.

Section ThreadPool.
Context {R : Type}.

(** [append(request)], statement by statement. *)
Inductive client_pc :=
| CIdle
| CLock (request : option R)       (* m_queuelocker.lock() *)
| CSize (request : option R)       (* if (m_workqueue.size() > m_max_requests) *)
| CPost                            (* m_queuestat.post() *)
| CUnlock (result : bool).         (* m_queuelocker.unlock(); return result *)

(** [run()], statement by statement. *)
Inductive worker_pc :=
| WLoop                            (* while (!m_stop) *)
| WWait                            (* m_queuestat.wait() *)
| WLock                            (* m_queuelocker.lock() *)
| WEmpty                           (* if (m_workqueue.empty()) *)
| WUnlockEmpty                     (* m_queuelocker.unlock(); continue *)
| WUnlock (request : option R)     (* m_queuelocker.unlock(), request in hand *)
| WProcess (request : R)           (* request->process(...) *)
| WDone.

Inductive tid := Client (i : nat) | Worker (i : nat).

Record pool := mk_pool {
  max_requests : Z;
  workqueue : list (option R);
  queuestat : nat;
  queuelocker : option tid;
  stop : bool;
  clients : list client_pc;
  workers : list worker_pc;
  appended : list (option R);
  taken : list (option R);
  processed : list R;
  failed_waits : nat;
  empty_passes : nat;
}.

(** The constructor: [None] is the thrown exception.  [creates] holds the results
    of [pthread_create] and [pthread_detach] for each thread; the number of threads
    that may call [append] is a parameter of the model. *)
Definition new_pool (thread_number max_req : Z) (creates : list (Z * Z)) (n_clients : nat)
    : option pool :=
  if bool_decide (thread_number ≤ 0 ∨ max_req ≤ 0) then None
  else if bool_decide (Forall (λ c, c.1 = 0 ∧ c.2 = 0) (take (Z.to_nat thread_number) creates))
  then Some (mk_pool max_req [] 0 None false (replicate n_clients CIdle)
               (replicate (Z.to_nat thread_number) WLoop) [] [] [] 0 0)
  else None.

Definition set_client (p : pool) (i : nat) (c : client_pc) : pool :=
  mk_pool (max_requests p) (workqueue p) (queuestat p) (queuelocker p) (stop p)
    (<[i:=c]> (clients p)) (workers p) (appended p) (taken p) (processed p) (failed_waits p) (empty_passes p).
Definition set_worker (p : pool) (i : nat) (w : worker_pc) : pool :=
  mk_pool (max_requests p) (workqueue p) (queuestat p) (queuelocker p) (stop p)
    (clients p) (<[i:=w]> (workers p)) (appended p) (taken p) (processed p) (failed_waits p) (empty_passes p).
Definition set_lock (p : pool) (l : option tid) : pool :=
  mk_pool (max_requests p) (workqueue p) (queuestat p) l (stop p)
    (clients p) (workers p) (appended p) (taken p) (processed p) (failed_waits p) (empty_passes p).
Definition set_sem (p : pool) (n : nat) : pool :=
  mk_pool (max_requests p) (workqueue p) n (queuelocker p) (stop p)
    (clients p) (workers p) (appended p) (taken p) (processed p) (failed_waits p) (empty_passes p).
Definition push_request (p : pool) (r : option R) : pool :=
  mk_pool (max_requests p) (workqueue p ++ [r]) (queuestat p) (queuelocker p) (stop p)
    (clients p) (workers p) (appended p ++ [r]) (taken p) (processed p) (failed_waits p) (empty_passes p).
Definition pop_request (p : pool) (r : option R) (q : list (option R)) : pool :=
  mk_pool (max_requests p) q (queuestat p) (queuelocker p) (stop p)
    (clients p) (workers p) (appended p) (taken p ++ [r]) (processed p) (failed_waits p) (empty_passes p).
Definition log_processed (p : pool) (r : R) : pool :=
  mk_pool (max_requests p) (workqueue p) (queuestat p) (queuelocker p) (stop p)
    (clients p) (workers p) (appended p) (taken p) (processed p ++ [r]) (failed_waits p) (empty_passes p).
Definition log_failed (p : pool) : pool :=
  mk_pool (max_requests p) (workqueue p) (queuestat p) (queuelocker p) (stop p)
    (clients p) (workers p) (appended p) (taken p) (processed p) (S (failed_waits p)) (empty_passes p).
Definition log_empty (p : pool) : pool :=
  mk_pool (max_requests p) (workqueue p) (queuestat p) (queuelocker p) (stop p)
    (clients p) (workers p) (appended p) (taken p) (processed p) (failed_waits p) (S (empty_passes p)).

(** One statement of [append] on thread [i]; [None] when the thread is blocked
    or idle. *)
Definition append_step (p : pool) (i : nat) : option pool :=
  match clients p !! i with
  | Some (CLock r) =>
      match queuelocker p with
      | None => Some (set_client (set_lock p (Some (Client i))) i (CSize r))
      | Some _ => None
      end
  | Some (CSize r) =>
      if bool_decide (u64 (max_requests p) < blen (workqueue p))
      then Some (set_client p i (CUnlock false))
      else Some (set_client (push_request p r) i CPost)
  | Some CPost => Some (set_client (set_sem p (S (queuestat p))) i (CUnlock true))
  | Some (CUnlock _) => Some (set_client (set_lock p None) i CIdle)
  | Some CIdle | None => None
  end.

(** One statement of [run] on worker [i]; [interrupted] tells whether [sem_wait]
    fails if it is the statement. *)
Definition run_step (interrupted : bool) (p : pool) (i : nat) : option pool :=
  match workers p !! i with
  | Some WLoop => Some (set_worker p i (if stop p then WDone else WWait))
  | Some WWait =>
      if interrupted then Some (set_worker (log_failed p) i WLock)
      else
        match queuestat p with
        | O => None
        | S n => Some (set_worker (set_sem p n) i WLock)
        end
  | Some WLock =>
      match queuelocker p with
      | None => Some (set_worker (set_lock p (Some (Worker i))) i WEmpty)
      | Some _ => None
      end
  | Some WEmpty =>
      match workqueue p with
      | [] => Some (set_worker (log_empty p) i WUnlockEmpty)
      | r :: q => Some (set_worker (pop_request p r q) i (WUnlock r))
      end
  | Some WUnlockEmpty => Some (set_worker (set_lock p None) i WLoop)
  | Some (WUnlock r) =>
      Some (set_worker (set_lock p None) i
              match r with None => WLoop | Some r => WProcess r end)
  | Some (WProcess r) => Some (set_worker (log_processed p r) i WLoop)
  | Some WDone | None => None
  end.

(** Any thread may move; an idle client may call [append] with any pointer. *)
Inductive pool_step : pool → pool → Prop :=
| step_call p i r : clients p !! i = Some CIdle → pool_step p (set_client p i (CLock r))
| step_append p i p' : append_step p i = Some p' → pool_step p p'
| step_run b p i p' : run_step b p i = Some p' → pool_step p p'.

(** ** The invariant *)

Definition client_holds (c : client_pc) : bool :=
  match c with CSize _ | CPost | CUnlock _ => true | _ => false end.
Definition worker_holds (w : worker_pc) : bool :=
  match w with WEmpty | WUnlockEmpty | WUnlock _ => true | _ => false end.

(** Requests pushed whose [post] is still to come, and [wait]s whose pop is. *)
Definition unposted (c : client_pc) : nat := match c with CPost => 1 | _ => 0 end.
Definition entitled (w : worker_pc) : nat := match w with WLock | WEmpty => 1 | _ => 0 end.

(** Requests a worker has taken and not yet processed. *)
Definition in_hand (w : worker_pc) : list R :=
  match w with WUnlock (Some r) | WProcess r => [r] | _ => [] end.
Definition in_flight (p : pool) : list R := concat (in_hand <$> workers p).

Record pool_inv (p : pool) : Prop := mk_pool_inv {
  inv_max : 0 < max_requests p < 2 ^ 31;
  inv_clients : ∀ i c, clients p !! i = Some c →
    (client_holds c = true ↔ queuelocker p = Some (Client i));
  inv_workers : ∀ i w, workers p !! i = Some w →
    (worker_holds w = true ↔ queuelocker p = Some (Worker i));
  inv_sem : (length (workqueue p) ≤ queuestat p + sum_list_with entitled (workers p)
             + sum_list_with unposted (clients p))%nat;
  inv_passes : (queuestat p + sum_list_with entitled (workers p) + sum_list_with unposted (clients p)
             + empty_passes p)%nat = (length (workqueue p) + failed_waits p)%nat;
  inv_bound : blen (workqueue p) ≤ max_requests p + 1;
  inv_fifo : taken p ++ workqueue p = appended p;
  inv_once : processed p ++ in_flight p ≡ₚ omap id (taken p);
}.

End ThreadPool.
Arguments client_pc : clear implicits.
Arguments worker_pc : clear implicits.
Arguments pool : clear implicits.

#[export] Instance client_pc_eq_dec `{EqDecision R} : EqDecision (client_pc R).
Proof. solve_decision. Defined.
#[export] Instance worker_pc_eq_dec `{EqDecision R} : EqDecision (worker_pc R).
Proof. solve_decision. Defined.
#[export] Instance tid_eq_dec : EqDecision tid.
Proof. solve_decision. Defined.

(** ** Lemmas *)

Lemma sum_list_with_insert {A} (f : A → nat) (l : list A) i x y :
  l !! i = Some x →
  (sum_list_with f (<[i:=y]> l) + f x = sum_list_with f l + f y)%nat.
Proof.
  revert i. induction l as [|z l IH]; intros [|i] Hi; simplify_eq/=; [lia|].
  specialize (IH _ Hi). lia.
Qed.

Lemma concat_fmap_insert {A B} (f : A → list B) (l : list A) i x y :
  l !! i = Some x →
  f y ++ concat (f <$> l) ≡ₚ f x ++ concat (f <$> <[i:=y]> l).
Proof.
  revert i. induction l as [|z l IH]; intros [|i] Hi; simplify_eq/=;
    [apply Permutation_app_swap_app|].
  rewrite (Permutation_app_swap_app (f y)), (IH _ Hi). apply Permutation_app_swap_app.
Qed.

Section lemmas.
Context {R : Type}.
Implicit Types p : pool R.

Lemma idle_entitled k : sum_list_with (@entitled R) (replicate k WLoop) = 0%nat.
Proof. by induction k. Qed.
Lemma idle_unposted k : sum_list_with (@unposted R) (replicate k CIdle) = 0%nat.
Proof. by induction k. Qed.

Lemma new_pool_inv tn mr creates n p :
  mr < 2 ^ 31 → new_pool tn mr creates n = Some p → pool_inv p.
Proof.
  unfold new_pool. intros Hmr. repeat case_bool_decide; [done| |done].
  intros [= <-]. split; simpl.
  - lia.
  - intros i c [-> _]%lookup_replicate_1. done.
  - intros i c [-> _]%lookup_replicate_1. done.
  - rewrite idle_entitled, idle_unposted. lia.
  - rewrite idle_entitled, idle_unposted. lia.
  - unfold blen. simpl. lia.
  - done.
  - unfold in_flight. simpl.
    by assert (∀ k, concat (@in_hand R <$> replicate k WLoop) = []) as -> by (by intros k; induction k).
Qed.

(** The lock clauses after thread [t] has moved. *)
Lemma inv_clients_insert (l : list (client_pc R)) i c (lk0 lk : option tid) :
  (∀ j c', l !! j = Some c' → (client_holds c' = true ↔ lk0 = Some (Client j))) →
  (client_holds c = true ↔ lk = Some (Client i)) →
  (∀ j, j ≠ i → (lk0 = Some (Client j) ↔ lk = Some (Client j))) →
  ∀ j c', <[i:=c]> l !! j = Some c' → (client_holds c' = true ↔ lk = Some (Client j)).
Proof.
  intros Hl Hc Hlk j c' [(<- & <- & _)|[Hne Hj]]%list_lookup_insert_Some; [done|].
  rewrite (Hl _ _ Hj). auto.
Qed.

Lemma inv_workers_insert (l : list (worker_pc R)) i w (lk0 lk : option tid) :
  (∀ j w', l !! j = Some w' → (worker_holds w' = true ↔ lk0 = Some (Worker j))) →
  (worker_holds w = true ↔ lk = Some (Worker i)) →
  (∀ j, j ≠ i → (lk0 = Some (Worker j) ↔ lk = Some (Worker j))) →
  ∀ j w', <[i:=w]> l !! j = Some w' → (worker_holds w' = true ↔ lk = Some (Worker j)).
Proof.
  intros Hl Hc Hlk j c' [(<- & <- & _)|[Hne Hj]]%list_lookup_insert_Some; [done|].
  rewrite (Hl _ _ Hj). auto.
Qed.

(** Closes the goals about who holds the lock. *)
Ltac lock_solve := simpl in *; intros; intuition congruence.

Lemma step_call_inv p i r :
  pool_inv p → clients p !! i = Some CIdle → pool_inv (set_client p i (CLock r)).
Proof.
  intros [Hm Hc Hw Hs Hp Hb Hf Ho] Hi. pose proof (Hc _ _ Hi) as Hli.
  pose proof (sum_list_with_insert unposted _ _ _ (CLock r) Hi) as Hn.
  split; try done; simpl in *; [|lia..].
  apply (inv_clients_insert _ _ _ _ _ Hc); lock_solve.
Qed.

Lemma append_step_inv p i p' : pool_inv p → append_step p i = Some p' → pool_inv p'.
Proof.
  intros [Hm Hc Hw Hs Hp Hb Hf Ho] Hstep. unfold append_step in Hstep.
  destruct (clients p !! i) as [c|] eqn:Hi; [|done]. pose proof (Hc _ _ Hi) as Hli.
  pose proof (λ y, sum_list_with_insert unposted _ _ _ y Hi) as Hn.
  destruct c as [|r|r| |b]; simplify_eq/=.
  - destruct (queuelocker p) eqn:Hq; simplify_eq. specialize (Hn (CSize r)).
    split; try done; simpl in *; [|intros j w Hj; rewrite (Hw _ _ Hj); lock_solve|lia..].
    apply (inv_clients_insert _ _ _ _ _ Hc); lock_solve.
  - case_bool_decide as Hsz; simplify_eq.
    + specialize (Hn (CUnlock false)). split; try done; simpl in *; [|lia..].
      apply (inv_clients_insert _ _ _ _ _ Hc); lock_solve.
    + specialize (Hn CPost). split; try done; simpl in *.
      * apply (inv_clients_insert _ _ _ _ _ Hc); lock_solve.
      * rewrite length_app. simpl. lia.
      * rewrite length_app. simpl. lia.
      * rewrite blen_app. change (blen [r]) with 1. rewrite u64_small in Hsz by (unfold is_u64; lia). lia.
      * by rewrite app_assoc, Hf.
  - specialize (Hn (CUnlock true)). split; try done; simpl in *; [|lia..].
    apply (inv_clients_insert _ _ _ _ _ Hc); lock_solve.
  - specialize (Hn CIdle). assert (queuelocker p = Some (Client i)) as Hq by (by apply Hli).
    split; try done; simpl in *; [|intros j w Hj; rewrite (Hw _ _ Hj), Hq; lock_solve|lia..].
    apply (inv_clients_insert _ _ _ _ _ Hc); lock_solve.
Qed.

(** A worker about to test the queue finds a request in it, unless a wait failed. *)
Lemma inv_workqueue_nonempty p i : pool_inv p → failed_waits p = empty_passes p → workers p !! i = Some WEmpty → workqueue p ≠ [].
Proof.
  intros [] Hfail Hi Hq. pose proof (sum_list_with_insert entitled _ _ _ WLoop Hi) as Hn.
  rewrite Hq in inv_passes0. simpl in *. lia.
Qed.

(** Worker [i] moves from [w] to [w'] in a state that differs from [p] in its lock,
    semaphore and counters at most, and holds the same requests. *)
Lemma worker_moves_inv p i w w' sem lk failed empty :
  pool_inv p → workers p !! i = Some w → in_hand w' = in_hand w →
  (worker_holds w' = true ↔ lk = Some (Worker i)) →
  (∀ j, j ≠ i → (queuelocker p = Some (Worker j) ↔ lk = Some (Worker j))) →
  (∀ j, queuelocker p = Some (Client j) ↔ lk = Some (Client j)) →
  (length (workqueue p) + entitled w ≤ sem + sum_list_with entitled (workers p) + entitled w' + sum_list_with unposted (clients p))%nat →
  (sem + entitled w' + empty + failed_waits p = queuestat p + entitled w + empty_passes p + failed)%nat →
  pool_inv (mk_pool (max_requests p) (workqueue p) sem lk (stop p) (clients p) (<[i:=w']> (workers p)) (appended p) (taken p) (processed p) failed empty).
Proof.
  intros [Hm Hc Hw Hs Hp Hb Hf Ho] Hi Hhand Hlk Hother Hclient Hle Heq.
  pose proof (sum_list_with_insert entitled _ _ _ w' Hi) as Hn. pose proof (concat_fmap_insert in_hand _ _ _ w' Hi) as Hfl.
  split; try done; simpl in *.
  - intros j c Hj. by rewrite (Hc _ _ Hj).
  - by apply (inv_workers_insert _ _ _ _ _ Hw).
  - lia.
  - lia.
  - unfold in_flight in *. simpl. rewrite Hhand in Hfl. by apply (inj (app _)) in Hfl as <-.
Qed.

Lemma run_step_inv b p i p' : pool_inv p → run_step b p i = Some p' → pool_inv p'.
Proof.
  intros Hinv Hstep. pose proof Hinv as [Hm Hc Hw Hs Hp Hb Hf Ho]. unfold run_step in Hstep.
  destruct (workers p !! i) as [w|] eqn:Hi; [|done]. pose proof (Hw _ _ Hi) as Hli.
  pose proof (λ y, sum_list_with_insert entitled _ _ _ y Hi) as Hn.
  destruct w as [| | | | |r|r|]; simplify_eq/=.
  - apply (worker_moves_inv p i WLoop); destruct (stop p); first [lock_solve | simpl in *; lia].
  - destruct b; [|destruct (queuestat p) as [|n] eqn:Hq]; simplify_eq; apply (worker_moves_inv p i WWait); first [lock_solve | simpl in *; lia].
  - destruct (queuelocker p) eqn:Hq; simplify_eq. apply (worker_moves_inv p i WLock); first [lock_solve | simpl in *; lia].
  - specialize (Hn WLoop). destruct (workqueue p) as [|r q] eqn:Hq; simplify_eq; simpl in *.
    { apply (worker_moves_inv p i WEmpty); rewrite ?Hq; first [lock_solve | simpl in *; lia]. }
    pose proof (sum_list_with_insert entitled _ _ _ (WUnlock r) Hi). pose proof (concat_fmap_insert in_hand _ _ _ (WUnlock r) Hi) as Hfl.
    unfold in_flight in *. split; try done; simpl in *.
    + apply (inv_workers_insert _ _ _ _ _ Hw); lock_solve.
    + lia.
    + lia.
    + rewrite blen_cons in Hb. lia.
    + by rewrite <- app_assoc.
    + unfold in_flight. simpl. rewrite <- Hfl, omap_app. simpl. rewrite <- Ho.
      destruct r; simpl; [|by rewrite app_nil_r].
      rewrite <- app_assoc. f_equiv. by rewrite (Permutation_app_comm _ [_]).
  - assert (queuelocker p = Some (Worker i)) as Hq by (by apply Hli). apply (worker_moves_inv p i WUnlockEmpty); first [lock_solve | simpl in *; lia].
  - assert (queuelocker p = Some (Worker i)) as Hq by (by apply Hli). apply (worker_moves_inv p i (WUnlock r)); destruct r; first [lock_solve | simpl in *; lia].
  - specialize (Hn WLoop). pose proof (concat_fmap_insert in_hand _ _ _ WLoop Hi) as Hfl. unfold in_flight in *. split; try done; simpl in *.
    + apply (inv_workers_insert _ _ _ _ _ Hw); lock_solve.
    + lia.
    + lia.
    + unfold in_flight. simpl. by rewrite <- app_assoc, <- Hfl.
Qed.

Lemma pool_step_inv p p' : pool_inv p → pool_step p p' → pool_inv p'.
Proof. intros Hi Hs. destruct Hs; eauto using step_call_inv, append_step_inv, run_step_inv. Qed.

Lemma pool_steps_inv p p' : pool_inv p → rtc pool_step p p' → pool_inv p'.
Proof. intros Hi. induction 1; eauto using pool_step_inv. Qed.

Lemma pool_step_max p p' : pool_step p p' → max_requests p' = max_requests p.
Proof.
  intros Hs. destruct Hs as [p i r Hi|p i p' Hs|b p i p' Hs]; [done|..].
  - unfold append_step in Hs. repeat (case_match; simplify_eq/=; try done).
  - unfold run_step in Hs. repeat (case_match; simplify_eq/=; try done).
Qed.

(** ** Properties *)

(** C2: whatever the interleaving, requests leave the queue in the order in
    which [append] pushed them, and every non-null request taken off it is either
    processed exactly once or in the hands of exactly one worker: nothing is lost or
    duplicated. *)
Theorem pool_fifo_exactly_once (tn mr : Z) (creates : list (Z * Z)) (n : nat) (p0 p : pool R) :
  mr < 2 ^ 31 → new_pool tn mr creates n = Some p0 → rtc pool_step p0 p →
  taken p ++ workqueue p = appended p ∧
  processed p ++ in_flight p ≡ₚ omap id (taken p).
Proof.
  intros Hmr Hnew Hsteps. by destruct (pool_steps_inv _ _ (new_pool_inv _ _ _ _ _ Hmr Hnew) Hsteps).
Qed.

(** C30: whatever the interleaving, and however often [sem_wait] fails, at most one
    thread is between [lock] and [unlock]; the empty-queue branch of [run] is taken at
    most once per failed wait, and a worker that tests the queue when as many waits have
    failed as that branch was taken finds a request; and while requests are queued and
    every [append] and [pop] under way has finished, the semaphore is positive, so a
    waiting worker can go on: no wake-up is lost. *)
Theorem pool_lock_and_wakeups (tn mr : Z) (creates : list (Z * Z)) (n : nat) (p0 p : pool R) :
  mr < 2 ^ 31 → new_pool tn mr creates n = Some p0 → rtc pool_step p0 p →
  (∀ i j c w, clients p !! i = Some c → workers p !! j = Some w →
     ¬ (client_holds c = true ∧ worker_holds w = true)) ∧
  (∀ i j w w', workers p !! i = Some w → workers p !! j = Some w' →
     worker_holds w = true → worker_holds w' = true → i = j) ∧
  (∀ i j c c', clients p !! i = Some c → clients p !! j = Some c' →
     client_holds c = true → client_holds c' = true → i = j) ∧
  (empty_passes p ≤ failed_waits p)%nat ∧
  (∀ i, workers p !! i = Some WEmpty → failed_waits p = empty_passes p → workqueue p ≠ []) ∧
  (∀ i, workers p !! i = Some WWait → workqueue p ≠ [] →
     sum_list_with entitled (workers p) = 0%nat → sum_list_with unposted (clients p) = 0%nat →
     is_Some (run_step false p i)).
Proof.
  intros Hmr Hnew Hsteps.
  pose proof (pool_steps_inv _ _ (new_pool_inv _ _ _ _ _ Hmr Hnew) Hsteps) as Hinv.
  pose proof Hinv as [Hm Hc Hw Hs Hp Hb Hf Ho]. split_and!.
  - intros i j c w Hi Hj [H1 H2]. apply (Hc _ _ Hi) in H1. apply (Hw _ _ Hj) in H2. congruence.
  - intros i j w w' Hi Hj H1 H2. apply (Hw _ _ Hi) in H1. apply (Hw _ _ Hj) in H2. congruence.
  - intros i j c c' Hi Hj H1 H2. apply (Hc _ _ Hi) in H1. apply (Hc _ _ Hj) in H2. congruence.
  - lia.
  - intros i Hi Hfail. by apply (inv_workqueue_nonempty p i).
  - intros i Hi Hq H1 H2. unfold run_step. rewrite Hi, H1, H2 in *.
    destruct (queuestat p); [|done]. destruct (workqueue p); [done | simpl in Hs; lia].
Qed.

(** C31: [append] tests [size() > m_max_requests] before pushing, so the queue
    holds at most [m_max_requests + 1] requests, and a request is refused only when
    that many are waiting. *)
Theorem pool_queue_bound (tn mr : Z) (creates : list (Z * Z)) (n : nat) (p0 p : pool R) :
  mr < 2 ^ 31 → new_pool tn mr creates n = Some p0 → rtc pool_step p0 p →
  blen (workqueue p) ≤ mr + 1 ∧
  (∀ i r p', clients p !! i = Some (CSize r) → append_step p i = Some p' →
     clients p' !! i = Some (CUnlock false) ↔ blen (workqueue p) = mr + 1).
Proof.
  intros Hmr Hnew Hsteps.
  assert (Hmax : max_requests p = mr).
  { transitivity (max_requests p0).
    - clear Hnew. induction Hsteps as [|p1 p2 p3 Hs _ IH]; [done|]. rewrite IH.
      by apply pool_step_max in Hs.
    - unfold new_pool in Hnew. repeat case_bool_decide; by simplify_eq. }
  pose proof (pool_steps_inv _ _ (new_pool_inv _ _ _ _ _ Hmr Hnew) Hsteps) as [Hm Hc Hw Hs Hp Hb Hf Ho].
  rewrite Hmax in *. split; [done|]. intros i r p' Hi Hstep.
  unfold append_step in Hstep. rewrite Hi, Hmax, u64_small in Hstep by (unfold is_u64; lia).
  assert (i < length (clients p))%nat by by eapply lookup_lt_Some.
  case_bool_decide; simplify_eq/=; rewrite list_lookup_insert_eq by done.
  - split; [lia|done].
  - split; [done|lia].
Qed.
End lemmas.

(** ** Witnesses: one worker, two clients, a queue bound of one *)

Definition demo_pool0 : pool nat :=
  mk_pool 1 [] 0 None false [CIdle; CIdle] [WLoop] [] [] [] 0 0.

(** A schedule: which thread moves next, or which client calls [append]. *)
Inductive move := MCall (i : nat) (r : option nat) | MAppend (i : nat) | MRun (i : nat) | MInterrupt (i : nat).

Definition run_move (p : pool nat) (m : move) : option (pool nat) :=
  match m with
  | MCall i r => if bool_decide (clients p !! i = Some CIdle) then Some (set_client p i (CLock r)) else None
  | MAppend i => append_step p i
  | MRun i => run_step false p i
  | MInterrupt i => run_step true p i
  end.

Fixpoint run_moves (p : pool nat) (ms : list move) : option (pool nat) :=
  match ms with
  | [] => Some p
  | m :: ms => p' ← run_move p m; run_moves p' ms
  end.

Lemma run_move_step p m p' : run_move p m = Some p' → pool_step p p'.
Proof.
  destruct m as [i r|i|i|i]; simpl; intros H; [|by eapply step_append|by eapply step_run..].
  case_bool_decide; simplify_eq. by apply step_call.
Qed.

Lemma run_moves_steps p ms p' : run_moves p ms = Some p' → rtc pool_step p p'.
Proof.
  revert p. induction ms as [|m ms IH]; intros p H; simplify_eq/=; [done|].
  destruct (run_move p m) as [q|] eqn:E; [|done].
  eapply rtc_l; [by eapply run_move_step|by apply IH].
Qed.

(** Two requests queued behind a bound of one, a third refused, the first taken. *)
Definition demo_moves : list move :=
  [MCall 0 (Some 10%nat); MAppend 0; MAppend 0; MAppend 0; MAppend 0;
   MCall 1 (Some 11%nat); MAppend 1; MAppend 1; MAppend 1; MAppend 1;
   MCall 0 (Some 12%nat); MAppend 0; MAppend 0; MAppend 0;
   MRun 0; MRun 0; MRun 0; MRun 0].

Definition demo_end : pool nat :=
  mk_pool 1 [Some 11%nat] 1 (Some (Worker 0)) false [CIdle; CIdle] [WUnlock (Some 10%nat)]
    [Some 10%nat; Some 11%nat] [Some 10%nat] [] 0 0.

Lemma demo_reaches_end : rtc pool_step demo_pool0 demo_end.
Proof. by apply (run_moves_steps _ demo_moves). Qed.

Lemma pool_fifo_exactly_once_witness :
  taken demo_end ++ workqueue demo_end = appended demo_end ∧
  processed demo_end ++ in_flight demo_end ≡ₚ [10%nat].
Proof.
  exact (pool_fifo_exactly_once 1 1 [(0, 0)] 2 demo_pool0 demo_end
    ltac:(done) eq_refl demo_reaches_end).
Defined.

(** A wait fails and the worker takes the first request without a token; after the second
    one it finds the queue empty once, and then waits in vain. *)
Definition demo_interrupted : pool nat :=
  mk_pool 1 [] 0 None false [CIdle; CIdle] [WWait]
    [Some 10%nat; Some 11%nat] [Some 10%nat; Some 11%nat] [10%nat; 11%nat] 1 1.
Definition demo_interrupts : list move :=
  take 10 demo_moves ++ [MRun 0; MInterrupt 0] ++ replicate 16 (MRun 0).

Lemma demo_reaches_interrupted : rtc pool_step demo_pool0 demo_interrupted.
Proof. by apply (run_moves_steps _ demo_interrupts). Qed.

Lemma pool_lock_and_wakeups_witness :
  workqueue demo_interrupted = [] ∧ (empty_passes demo_interrupted ≤ failed_waits demo_interrupted)%nat.
Proof.
  split; [done|].
  destruct (pool_lock_and_wakeups 1 1 [(0, 0)] 2 demo_pool0 demo_interrupted
    ltac:(done) eq_refl demo_reaches_interrupted) as (_ & _ & _ & Hle & _).
  exact Hle.
Defined.

(** The bound is reached: two requests wait in a queue of nominal size one. *)
Definition demo_full : pool nat :=
  mk_pool 1 [Some 10%nat; Some 11%nat] 2 None false [CIdle; CIdle] [WLoop]
    [Some 10%nat; Some 11%nat] [] [] 0 0.

Lemma demo_reaches_full : rtc pool_step demo_pool0 demo_full.
Proof. by apply (run_moves_steps _ (take 10 demo_moves)). Qed.

Lemma pool_queue_bound_witness : blen (workqueue demo_full) = 2 ∧ blen (workqueue demo_full) ≤ 1 + 1.
Proof.
  split; [done|].
  exact (proj1 (pool_queue_bound 1 1 [(0, 0)] 2 demo_pool0 demo_full
    ltac:(done) eq_refl demo_reaches_full)).
Defined.
