(* ===== verification/TaskPool.v ===== *)
(** * net/tcp_task_pool.h and net/tcp_task_pool.cpp: connections and tasks

    [TcpTaskPool] owns [MAX_TASK] sockets ("tasks"), the table [m_ready_list] from
    a descriptor to its task, the stack of free tasks, the list of messages for the
    application ([m_undo_tasks]) and the list of tasks with a readable descriptor
    ([m_recv_tasks]).  An array access is checked against the array's length; the
    task indices are the [int]s of the code, so [-1] is out of range.  A [Message]
    carries the address of a send buffer: [TaskRef i] that of task [i], [TempRef]
    that of the temporary socket of [close_connect], which is deleted before the
    message can be used.  [append] on the thread pool is the queue [m_queue] of task
    indices with the pool's bound; [worker_run] is one worker's turn. *)
From S2P Require Import Prelude.
From S2P Require Import Buffer.
From S2P Require Import SocketUtil.
From S2P Require Import TcpSocket.

Definition MAX_TASK : Z := 100.
Definition MAX_EVENTS : Z := 100.
(** The default bound of [ThreadPool]. *)
Definition MAX_REQUESTS : Z := 10000.

Inductive send_ref := TaskRef (i : Z) | TempRef.

Record message := mk_message {
  task_id : Z;
  recv_msg : list byte;
  recv_msg_length : Z;
  send_msg : send_ref;
}.

(** [new Message()]: zeroed, with [task_id] -1. *)
Definition new_message : list byte := replicate 128 Byte.x00.

Record task_pool := mk_task_pool {
  m_tcp_tasks : list tcp_socket;
  m_ready_list : list Z;
  m_free_tasks : list Z;
  m_undo_tasks : list message;
  m_recv_tasks : list Z;
  m_listen_fd : Z;
  m_epoll_fd : Z;
  m_queue : list Z;
}.

Definition set_tasks (p : task_pool) (t : list tcp_socket) : task_pool :=
  mk_task_pool t (m_ready_list p) (m_free_tasks p) (m_undo_tasks p) (m_recv_tasks p)
    (m_listen_fd p) (m_epoll_fd p) (m_queue p).
Definition set_ready (p : task_pool) (r : list Z) : task_pool :=
  mk_task_pool (m_tcp_tasks p) r (m_free_tasks p) (m_undo_tasks p) (m_recv_tasks p)
    (m_listen_fd p) (m_epoll_fd p) (m_queue p).
Definition set_free (p : task_pool) (f : list Z) : task_pool :=
  mk_task_pool (m_tcp_tasks p) (m_ready_list p) f (m_undo_tasks p) (m_recv_tasks p)
    (m_listen_fd p) (m_epoll_fd p) (m_queue p).
Definition set_undo (p : task_pool) (u : list message) : task_pool :=
  mk_task_pool (m_tcp_tasks p) (m_ready_list p) (m_free_tasks p) u (m_recv_tasks p)
    (m_listen_fd p) (m_epoll_fd p) (m_queue p).
Definition set_recv (p : task_pool) (r : list Z) : task_pool :=
  mk_task_pool (m_tcp_tasks p) (m_ready_list p) (m_free_tasks p) (m_undo_tasks p) r
    (m_listen_fd p) (m_epoll_fd p) (m_queue p).
Definition set_queue (p : task_pool) (q : list Z) : task_pool :=
  mk_task_pool (m_tcp_tasks p) (m_ready_list p) (m_free_tasks p) (m_undo_tasks p) (m_recv_tasks p)
    (m_listen_fd p) (m_epoll_fd p) q.

(** Array reads and writes at an [int] index. *)
Definition index {A} (l : list A) (i : Z) : outcome A :=
  if bool_decide (0 ≤ i) then
    match l !! Z.to_nat i with Some x => Ok x | None => Ub OutOfBounds end
  else Ub OutOfBounds.
Definition store {A} (l : list A) (i : Z) (x : A) : outcome (list A) :=
  if bool_decide (0 ≤ i < blen l) then Ok (<[Z.to_nat i:=x]> l) else Ub OutOfBounds.

(** The answers of the system calls [init] makes, and of [malloc] for the two
    buffers of every task. *)
Record init_env := mk_init_env {
  env_socket : Z; env_setsockopt : Z; env_bind : Z; env_listen : Z;
  env_epoll_create : Z; env_epoll_ctl : Z;
  env_malloc : list (option (list byte) * option (list byte));
}.

Definition new_task_pool : task_pool := mk_task_pool [] [] [] [] [] (-1) (-1) [].

(** [new TcpSocket [MAX_TASK]]. *)
Fixpoint new_sockets (mallocs : list (option (list byte) * option (list byte)))
    : outcome (list tcp_socket) :=
  match mallocs with
  | [] => Ok []
  | (m1, m2) :: ms => s ← new_socket m1 m2; ss ← new_sockets ms; mret (s :: ss)
  end.

Definition init (p : task_pool) (env : init_env) : outcome (task_pool * bool) :=
  let with_fds lfd efd :=
    mk_task_pool (m_tcp_tasks p) (m_ready_list p) (m_free_tasks p) (m_undo_tasks p)
      (m_recv_tasks p) lfd efd (m_queue p) in
  let p1 := with_fds (env_socket env) (m_epoll_fd p) in
  if bool_decide (env_socket env < 0) then mret (p1, false)
  else if bool_decide (env_setsockopt env < 0) then mret (p1, false)
  else if bool_decide (env_bind env < 0) then mret (p1, false)
  else if bool_decide (env_listen env < 0) then mret (p1, false)
  else if bool_decide (env_epoll_create env = -1) then Exited
  else if bool_decide (env_epoll_ctl env = -1) then Exited
  else
    tasks ← new_sockets (take (Z.to_nat MAX_TASK) (env_malloc env));
    mret (mk_task_pool tasks (replicate (Z.to_nat MAX_TASK) (-1))
            (reverse (seqZ 0 MAX_TASK) ++ m_free_tasks p)
            (m_undo_tasks p) (m_recv_tasks p) (env_socket env) (env_epoll_create env) (m_queue p),
          true).

Definition get_epoll (p : task_pool) : Z := m_epoll_fd p.
Definition get_listen (p : task_pool) : Z := m_listen_fd p.

(** The stack of free tasks; its top is the head of the list. *)
Definition push_free_task (p : task_pool) (id : Z) : task_pool := set_free p (id :: m_free_tasks p).
Definition get_free_task (p : task_pool) : task_pool * Z :=
  match m_free_tasks p with
  | [] => (p, -1)
  | id :: f => (set_free p f, id)
  end.
Definition is_free_tasks_empty (p : task_pool) : bool := bool_decide (m_free_tasks p = []).

(** [get_recv_task] returns the address of a task, here its index. *)
Definition get_recv_task (p : task_pool) : task_pool * option Z :=
  match m_recv_tasks p with
  | [] => (p, None)
  | id :: r => (set_recv p r, Some id)
  end.
Definition is_recv_tasks_empty (p : task_pool) : bool := bool_decide (m_recv_tasks p = []).

(** [add_undo_task(task_id, undo_task)] on a socket: the socket with its reference
    counted, and the message. *)
Definition make_message (id : Z) (s : tcp_socket) (ref : send_ref) : outcome (tcp_socket * message) :=
  '(bytes, n) ← get_msg s new_message;
  mret (get_send_buf_len_addr s, mk_message id bytes (u32 n) ref).

Definition add_undo_task (p : task_pool) (id : Z) (undo_task : option Z) : outcome task_pool :=
  match undo_task with
  | None => Ub NullDeref
  | Some i =>
      s ← index (m_tcp_tasks p) i;
      '(s', msg) ← make_message id s (TaskRef i);
      tasks ← store (m_tcp_tasks p) i s';
      mret (set_undo (set_tasks p tasks) (m_undo_tasks p ++ [msg]))
  end.

Definition add_recv_task (p : task_pool) (id : Z) : outcome task_pool :=
  let p1 := set_recv p (m_recv_tasks p ++ [id]) in
  let '(p2, undo_task) := get_recv_task p1 in
  add_undo_task p2 id undo_task.

(** [m_thread_pool->append(&m_tcp_tasks[i])]; its result is dropped. *)
Definition pool_append (p : task_pool) (i : Z) : task_pool :=
  if bool_decide (MAX_REQUESTS < blen (m_queue p)) then p else set_queue p (m_queue p ++ [i]).

(** [add_connect()], given the results of [accept] and [epoll_ctl]. *)
Definition add_connect (p : task_pool) (acc : call_res) (ctl : Z) : outcome (task_pool * bool) :=
  match acc with
  | CallErr _ => mret (p, false)
  | CallOk conn_fd =>
      if bool_decide (ctl = -1) then Exited
      else if is_free_tasks_empty p then mret (p, false)
      else
        let '(p1, free_subscript) := get_free_task p in
        ready ← store (m_ready_list p1) conn_fd free_subscript;
        let p2 := set_ready p1 ready in
        if bool_decide (free_subscript = -1) then mret (p2, false)
        else
          s ← index (m_tcp_tasks p2) free_subscript;
          tasks ← store (m_tcp_tasks p2) free_subscript (set_fd s conn_fd);
          mret (set_tasks p2 tasks, true)
  end.

(** [close_connect(conn_fd)], given the result of [epoll_ctl] and the blocks of
    the temporary socket.  [reset] always returns true, so the first branch of the
    code is dead; it is kept. *)
Definition close_connect (p : task_pool) (conn_fd ctl : Z)
    (m1 m2 : option (list byte)) : outcome (task_pool * bool) :=
  del_subscript ← index (m_ready_list p) conn_fd;
  s ← index (m_tcp_tasks p) del_subscript;
  '(s', ok) ← reset s;
  tasks ← store (m_tcp_tasks p) del_subscript s';
  let p1 := set_tasks p tasks in
  if bool_decide (ctl = -1) then Exited
  else if negb ok then mret (p1, false)
  else
    tmp ← new_socket m1 m2;
    '(_, msg) ← make_message del_subscript tmp TempRef;
    mret (push_free_task (set_undo p1 (m_undo_tasks p1 ++ [msg])) del_subscript, true).

(** [recv_msg(fd)]: the message is built before the worker that reads is queued. *)
Definition pool_recv_msg (p : task_pool) (fd : Z) : outcome (task_pool * Z) :=
  ready_subscript ← index (m_ready_list p) fd;
  s ← index (m_tcp_tasks p) ready_subscript;
  tasks ← store (m_tcp_tasks p) ready_subscript (set_wr_flag s READ_OP);
  p1 ← add_recv_task (set_tasks p tasks) ready_subscript;
  mret (pool_append p1 ready_subscript, 0).

(** [send_msg(fd)] and [send_now(task_id)], with the results of [write]. *)
Definition pool_send_msg (p : task_pool) (fd : Z) (ws : list wr_res)
    : outcome (task_pool * bool * list byte) :=
  ready_subscript ← index (m_ready_list p) fd;
  s ← index (m_tcp_tasks p) ready_subscript;
  '(s', ret, sent, _) ← send_buf s ws;
  tasks ← store (m_tcp_tasks p) ready_subscript s';
  mret (set_tasks p tasks, bool_decide (ret = 0), sent).

Definition send_now (p : task_pool) (id : Z) (ws : list wr_res) : outcome (task_pool * list byte) :=
  s ← index (m_tcp_tasks p) id;
  '(s', _, sent, _) ← send_buf s ws;
  tasks ← store (m_tcp_tasks p) id s';
  mret (set_tasks p tasks, sent).

Definition is_undo_tasks_empty (p : task_pool) : bool :=
  match m_undo_tasks p with [] => true | _ => false end.

Definition get_undo_task (p : task_pool) : task_pool * option message :=
  match m_undo_tasks p with
  | [] => (p, None)
  | m :: ms => (set_undo p ms, Some m)
  end.

(** A worker of the pool takes the oldest request and processes it. *)
Definition worker_run (p : task_pool) (rs : list rd_res) (ws : list wr_res)
    : outcome (task_pool * list byte) :=
  match m_queue p with
  | [] => mret (p, [])
  | i :: q =>
      s ← index (m_tcp_tasks p) i;
      '(s', sent) ← process s (get_wr_flag s) rs ws;
      tasks ← store (m_tcp_tasks p) i s';
      mret (set_queue (set_tasks p tasks) q, sent)
  end.
