(* ===== verification/NetWork.v ===== *)
(** * net/net_work.h and net/net_work.cpp: the event loop and the two calls of
      the application

    [NetWork::run] hands every event of [epoll_wait] to the pool: hang-ups and
    errors close the connection, input on the listening descriptor accepts one,
    other input queues a read.  The application thread calls [pull_msg] and
    [push_msg].  The system calls made while handling an event are its environment
    [ev_env]. *)
From S2P Require Import Prelude.
From S2P Require Import Buffer.
From S2P Require Import SocketUtil.
From S2P Require Import TcpSocket.
From S2P Require Import TaskPool.

Definition EPOLLIN : Z := 1.
Definition EPOLLOUT : Z := 4.
Definition EPOLLERR : Z := 8.
Definition EPOLLHUP : Z := 16.
Definition EPOLLRDHUP : Z := 8192.

Record epoll_event := mk_event { ev_events : Z; ev_fd : Z }.

(** The results of [accept], [epoll_ctl] and [malloc] during one event. *)
Record ev_env := mk_ev_env {
  env_accept : call_res;
  env_ctl : Z;
  env_tmp1 : option (list byte);
  env_tmp2 : option (list byte);
}.

(** One turn of the [for] loop over the events. *)
Definition handle_event (listen_fd : Z) (p : task_pool) (ev : epoll_event) (env : ev_env)
    : outcome task_pool :=
  if bool_decide (Z.land (ev_events ev) (Z.lor EPOLLRDHUP (Z.lor EPOLLERR EPOLLHUP)) ≠ 0) then
    '(p', _) ← close_connect p (ev_fd ev) (env_ctl env) (env_tmp1 env) (env_tmp2 env); mret p'
  else if bool_decide (Z.land (ev_events ev) EPOLLIN ≠ 0) then
    if bool_decide (ev_fd ev = listen_fd) then
      '(p', _) ← add_connect p (env_accept env) (env_ctl env); mret p'
    else
      '(p', ret) ← pool_recv_msg p (ev_fd ev);
      if bool_decide (ret = -1) then
        '(p'', _) ← close_connect p' (ev_fd ev) (env_ctl env) (env_tmp1 env) (env_tmp2 env); mret p''
      else mret p'
  else mret p.

Fixpoint handle_events (listen_fd : Z) (p : task_pool) (evs : list (epoll_event * ev_env))
    : outcome task_pool :=
  match evs with
  | [] => mret p
  | (ev, env) :: evs => p' ← handle_event listen_fd p ev env; handle_events listen_fd p' evs
  end.

(** The results of the successive [epoll_wait]s: an error, or the events. *)
Inductive wait_res := WaitErr (e : Z) | WaitEvents (evs : list (epoll_event * ev_env)).

(** [for (;;)]: when [epoll_wait] fails with [EINTR], [nfds] is -1 and the loop
    over the events does nothing. *)
Fixpoint run_loop (listen_fd : Z) (p : task_pool) (waits : list wait_res) : outcome task_pool :=
  match waits with
  | [] => Blocked
  | WaitErr e :: waits' =>
      if bool_decide (e = EINTR) then run_loop listen_fd p waits' else Exited
  | WaitEvents evs :: waits' => p' ← handle_events listen_fd p evs; run_loop listen_fd p' waits'
  end.

Definition run (p : task_pool) (waits : list wait_res) : outcome task_pool :=
  if bool_decide (get_epoll p = -1) then Exited
  else if bool_decide (get_listen p = -1) then Exited
  else run_loop (get_listen p) p waits.

(** [pull_msg(undo_msg, ...)]: the caller's array, the length, the address to
    answer to and the returned task. *)
Definition pull_msg (p : task_pool) (undo_msg : list byte)
    : outcome (task_pool * option (list byte * Z * send_ref) * Z) :=
  let '(p', undo_task_msg) := get_undo_task p in
  match undo_task_msg with
  | None => mret (p', None, -1)
  | Some m =>
      let undo_msg_length := s32 (recv_msg_length m) in
      out ← memcpy undo_msg (recv_msg m) undo_msg_length;
      mret (p', Some (out, undo_msg_length, send_msg m), task_id m)
  end.

(** [push_msg(task_id)] returns -1 whatever happens. *)
Definition push_msg (p : task_pool) (id : Z) (ws : list wr_res)
    : outcome (task_pool * Z * list byte) :=
  '(p', sent) ← send_now p id ws; mret (p', -1, sent).

(** The application writes its answer and the answer's length through the
    addresses [pull_msg] gave it. *)
Definition write_answer (p : task_pool) (ref : send_ref) (answer : list byte) : outcome task_pool :=
  match ref with
  | TempRef => Ub UseAfterFree
  | TaskRef i =>
      s ← index (m_tcp_tasks p) i;
      d ← memcpy (m_buf (m_send_buf s)) answer (blen answer);
      tasks ← store (m_tcp_tasks p) i (with_send_buf s (mk_buffer d (blen answer)));
      mret (set_tasks p tasks)
  end.

(** One round of net/main.cpp: pull a message, echo it, push it. *)
Definition echo_round (p : task_pool) (ws : list wr_res) : outcome (task_pool * option (list byte)) :=
  '(p1, pulled, id) ← pull_msg p (replicate 128 Byte.x00);
  match pulled with
  | None => mret (p1, None)
  | Some (undo_msg, undo_msg_length, done_msg) =>
      if bool_decide (id = -1) then mret (p1, None)
      else
        p2 ← write_answer p1 done_msg (take (Z.to_nat undo_msg_length) undo_msg);
        '(p3, _, sent) ← push_msg p2 id ws;
        mret (p3, Some sent)
  end.

(** ** Runs of the whole server

    The second component is the set of connections the kernel has open for the
    server.  An event concerns the listening descriptor or an open connection;
    [accept] gives a descriptor that is not in use. *)
Definition net_state : Type := task_pool * list Z.

Definition reserved (p : task_pool) : list Z := [0; 1; 2; m_listen_fd p].

Definition accept_fresh (p : task_pool) (open : list Z) (env : ev_env) : Prop :=
  match env_accept env with CallOk fd => 0 ≤ fd ∧ fd ∉ reserved p ++ open | CallErr _ => True end.

Definition is_hangup (ev : epoll_event) : bool :=
  bool_decide (Z.land (ev_events ev) (Z.lor EPOLLRDHUP (Z.lor EPOLLERR EPOLLHUP)) ≠ 0).
Definition is_input (ev : epoll_event) : bool :=
  bool_decide (Z.land (ev_events ev) EPOLLIN ≠ 0).

(** The kernel's connections after the event. *)
Definition open_after (p : task_pool) (open : list Z) (ev : epoll_event) (env : ev_env) : list Z :=
  if is_hangup ev then filter (λ fd, fd ≠ ev_fd ev) open
  else if is_input ev then
    if bool_decide (ev_fd ev = m_listen_fd p) then
      match env_accept env with CallOk fd => fd :: open | CallErr _ => open end
    else open
  else open.

(** The event thread, a worker and the application take turns. *)
Inductive net_step : net_state → net_state → Prop :=
| net_event p open ev env p' :
    ev_fd ev ∈ m_listen_fd p :: open → accept_fresh p open env →
    handle_event (m_listen_fd p) p ev env = Ok p' →
    net_step (p, open) (p', open_after p open ev env)
| net_worker p open rs ws p' sent :
    worker_run p rs ws = Ok (p', sent) → net_step (p, open) (p', open)
| net_pull p open undo_msg p' r id :
    pull_msg p undo_msg = Ok (p', r, id) → net_step (p, open) (p', open)
| net_answer p open ref answer p' :
    write_answer p ref answer = Ok p' → net_step (p, open) (p', open)
| net_push p open id ws p' ret sent :
    push_msg p id ws = Ok (p', ret, sent) → net_step (p, open) (p', open).

(** The task of a descriptor. *)
Definition task_of (p : task_pool) (fd : Z) : Z := default (-1) (m_ready_list p !! Z.to_nat fd).

(** The tables are consistent: every task is owned by one open connection or is
    free once. *)
Record net_inv (s : net_state) : Prop := mk_net_inv {
  net_tasks : length (m_tcp_tasks s.1) = 100%nat;
  net_ready : length (m_ready_list s.1) = 100%nat;
  net_open : NoDup (reserved s.1 ++ s.2);
  net_open_range : Forall (λ fd, 0 ≤ fd < 100) s.2;
  net_owned : (task_of s.1 <$> s.2) ++ m_free_tasks s.1 ≡ₚ seqZ 0 100;
  net_listen : task_of s.1 (m_listen_fd s.1) = -1;
  net_recv : m_recv_tasks s.1 = [];
}.

(** ** Lemmas *)

Lemma index_Ok {A} (l : list A) i x : index l i = Ok x → 0 ≤ i ∧ l !! Z.to_nat i = Some x.
Proof. unfold index. case_bool_decide; [|done]. by case_match; intros [= ->]. Qed.

Lemma store_Ok {A} (l : list A) i x l' :
  store l i x = Ok l' → 0 ≤ i < blen l ∧ l' = <[Z.to_nat i:=x]> l.
Proof. unfold store. case_bool_decide; [|done]. by intros [= <-]. Qed.

Lemma store_length {A} (l : list A) i x l' : store l i x = Ok l' → length l' = length l.
Proof. intros [_ ->]%store_Ok. apply length_insert. Qed.

Lemma bind_Ok {A B} (m : outcome A) (f : A → outcome B) b :
  m ≫= f = Ok b → ∃ a, m = Ok a ∧ f a = Ok b.
Proof. destruct m; simpl; intros; [eauto|done..]. Qed.

(** Inverts a run of bound operations that ended well. *)
Ltac bind_inv H :=
  repeat (simpl in H; unfold mret, outcome_ret in H;
  lazymatch type of H with
  | _ ≫= _ = Ok _ =>
      let E := fresh "E" in
      apply bind_Ok in H as (? & E & H); repeat case_match; simplify_eq
  | (if _ then _ else _) = Ok _ => case_match; simplify_eq
  | Ok _ = Ok _ => simplify_eq
  | _ = Ok _ => discriminate H
  end).

(** The tables an operation leaves alone. *)
Definition same_tables (p p' : task_pool) : Prop :=
  m_ready_list p' = m_ready_list p ∧ m_free_tasks p' = m_free_tasks p ∧
  m_recv_tasks p' = m_recv_tasks p ∧ m_listen_fd p' = m_listen_fd p ∧
  length (m_tcp_tasks p') = length (m_tcp_tasks p).

Lemma net_inv_same p p' open : same_tables p p' → net_inv (p, open) → net_inv (p', open).
Proof.
  intros (Hr & Hf & Hv & Hl & Ht) []. split; simpl in *;
    unfold reserved, task_of in *; rewrite ?Hr, ?Hf, ?Hv, ?Hl, ?Ht; done.
Qed.

Ltac store_lengths :=
  repeat match goal with H : store _ _ _ = Ok _ |- _ => apply store_length in H end.

Lemma worker_run_same p rs ws p' sent : worker_run p rs ws = Ok (p', sent) → same_tables p p'.
Proof.
  unfold worker_run. intros H. destruct (m_queue p); bind_inv H; [done|].
  unfold same_tables. simpl. split_and!; try done. by eapply store_length.
Qed.

Lemma push_msg_same p id ws p' ret sent : push_msg p id ws = Ok (p', ret, sent) → same_tables p p'.
Proof.
  unfold push_msg, send_now. intros H. bind_inv H. bind_inv E.
  unfold same_tables. simpl. split_and!; try done. by eapply store_length.
Qed.

Lemma write_answer_same p ref answer p' : write_answer p ref answer = Ok p' → same_tables p p'.
Proof.
  unfold write_answer. intros H. destruct ref; bind_inv H.
  unfold same_tables. simpl. split_and!; try done. by eapply store_length.
Qed.

Lemma pull_msg_same p undo_msg p' r id : pull_msg p undo_msg = Ok (p', r, id) → same_tables p p'.
Proof.
  unfold pull_msg, get_undo_task. intros H. destruct (m_undo_tasks p); bind_inv H; done.
Qed.

Lemma pool_recv_msg_same p fd p' ret :
  m_recv_tasks p = [] → pool_recv_msg p fd = Ok (p', ret) → same_tables p p' ∧ ret = 0.
Proof.
  unfold pool_recv_msg, add_recv_task. intros Hrecv H. bind_inv H. simpl in *.
  rewrite Hrecv in *. unfold get_recv_task in H0. simpl in H0. simplify_eq.
  unfold add_undo_task in E2. bind_inv E2. simpl in *.
  store_lengths. unfold same_tables, pool_append.
  split; [|done]. case_bool_decide; simpl; split_and!; try done; congruence.
Qed.

(** The open connections leave at least three tasks free: their descriptors are
    below 100 and are not the standard ones. *)
Lemma open_count p open : net_inv (p, open) → (length open + 3 ≤ 100)%nat.
Proof.
  intros [_ _ Hnd Hrg _ _ _]. cbn [fst snd] in *. unfold reserved in Hnd. simpl in Hnd.
  apply NoDup_cons in Hnd as [H0 Hnd]. apply NoDup_cons in Hnd as [H1 Hnd].
  apply NoDup_cons in Hnd as [H2 Hnd]. apply NoDup_cons in Hnd as [_ Hnd].
  assert (Hsub : 0 :: 1 :: 2 :: open ⊆+ seqZ 0 100).
  { apply NoDup_submseteq.
    - repeat constructor; set_solver.
    - intros x Hx. apply elem_of_seqZ. rewrite Forall_forall in Hrg. set_unfold in Hx.
      destruct Hx as [->|[->|[->|Hx]]]; try lia. specialize (Hrg _ Hx). lia. }
  apply submseteq_length in Hsub. rewrite length_seqZ in Hsub. simpl in Hsub. lia.
Qed.

Lemma owned_count p open :
  net_inv (p, open) → (length open + length (m_free_tasks p) = 100)%nat.
Proof.
  intros [_ _ _ _ Hown _ _]. apply Permutation_length in Hown.
  rewrite length_app, length_fmap, length_seqZ in Hown. cbn [fst snd] in Hown. lia.
Qed.

Lemma free_not_empty p open : net_inv (p, open) → m_free_tasks p ≠ [].
Proof.
  intros Hinv Hf. pose proof (open_count _ _ Hinv). pose proof (owned_count _ _ Hinv) as Ho.
  rewrite Hf in Ho. simpl in Ho. lia.
Qed.

(** Accepting a connection gives it the top of the free stack. *)
Lemma add_connect_effect p acc ctl p' b :
  add_connect p acc ctl = Ok (p', b) →
  match acc, m_free_tasks p with
  | CallOk fd, id :: f =>
      0 ≤ fd < blen (m_ready_list p) ∧
      m_ready_list p' = <[Z.to_nat fd:=id]> (m_ready_list p) ∧ m_free_tasks p' = f ∧
      m_recv_tasks p' = m_recv_tasks p ∧ m_listen_fd p' = m_listen_fd p ∧
      length (m_tcp_tasks p') = length (m_tcp_tasks p)
  | _, _ => p' = p
  end.
Proof.
  unfold add_connect, is_free_tasks_empty, get_free_task. intros H.
  destruct acc; [by bind_inv H|]. destruct (m_free_tasks p) as [|id f]; bind_inv H; try done.
  - apply store_Ok in E as [Hr ->]. done.
  - apply store_Ok in E as [Hr ->]. apply store_length in E1. done.
Qed.

(** Closing one pushes its task and leaves the table entry behind. *)
Lemma close_connect_effect p fd ctl m1 m2 p' b :
  close_connect p fd ctl m1 m2 = Ok (p', b) →
  m_free_tasks p' = task_of p fd :: m_free_tasks p ∧
  0 ≤ task_of p fd ∧
  m_ready_list p' = m_ready_list p ∧ m_recv_tasks p' = m_recv_tasks p ∧
  m_listen_fd p' = m_listen_fd p ∧ length (m_tcp_tasks p') = length (m_tcp_tasks p).
Proof.
  unfold close_connect, task_of. intros H. bind_inv H.
  - unfold reset in E1. by bind_inv E1.
  - apply index_Ok in E as [_ ->], E0 as [? _]. apply store_length in E2. simpl. done.
Qed.

Lemma reserved_same p p' : m_listen_fd p' = m_listen_fd p → reserved p' = reserved p.
Proof. unfold reserved. by intros ->. Qed.

Lemma filter_ne_split (fd : Z) open :
  NoDup open → fd ∈ open → open ≡ₚ fd :: filter (λ x, x ≠ fd) open.
Proof.
  intros Hnd Hin. apply NoDup_Permutation; [done| |].
  - constructor; [by rewrite list_elem_of_filter; intros [? _]|by apply NoDup_filter].
  - intros x. rewrite elem_of_cons, list_elem_of_filter. destruct (decide (x = fd)); naive_solver.
Qed.

Lemma accept_inv p open fd id f p' :
  net_inv (p, open) → fd ∉ reserved p ++ open → 0 ≤ fd < 100 → m_free_tasks p = id :: f →
  m_ready_list p' = <[Z.to_nat fd:=id]> (m_ready_list p) → m_free_tasks p' = f →
  m_recv_tasks p' = m_recv_tasks p → m_listen_fd p' = m_listen_fd p →
  length (m_tcp_tasks p') = length (m_tcp_tasks p) →
  net_inv (p', fd :: open).
Proof.
  intros [Ht Hr Hnd Hrg Hown Hl Hrv] Hfresh Hfd Hfree Er Ef Ev El Et. cbn [fst snd] in *.
  assert (Hother : ∀ x, 0 ≤ x → x ≠ fd → task_of p' x = task_of p x).
  { intros x ??. unfold task_of. rewrite Er, list_lookup_insert_ne by lia. done. }
  apply NoDup_app in Hnd as (Hn1 & Hn2 & Hn3). rewrite elem_of_app in Hfresh.
  split; cbn [fst snd].
  - congruence.
  - by rewrite Er, length_insert.
  - rewrite (reserved_same _ _ El). apply NoDup_app. split_and!; [done| |].
    + intros x Hx [->|?]%elem_of_cons; [tauto|]. by eapply Hn2.
    + constructor; tauto.
  - by constructor.
  - rewrite Ef, fmap_cons. rewrite Hfree in Hown.
    assert (task_of p' fd = id) as ->.
    { unfold task_of. by rewrite Er, list_lookup_insert_eq by lia. }
    assert (task_of p' <$> open = task_of p <$> open) as ->.
    { apply list_fmap_ext. intros i x Hx%list_elem_of_lookup_2.
      rewrite Forall_forall in Hrg. specialize (Hrg _ Hx). apply Hother; [lia|]. naive_solver. }
    rewrite <- Hown. apply (Permutation_middle _ f id).
  - rewrite El. unfold task_of. rewrite Er.
    destruct (decide (Z.to_nat fd = Z.to_nat (m_listen_fd p))) as [He|]; [|by rewrite list_lookup_insert_ne].
    destruct (decide (0 ≤ m_listen_fd p)).
    + assert (fd = m_listen_fd p) by lia. subst. exfalso. apply Hfresh. left. unfold reserved. set_solver.
    + replace (Z.to_nat (m_listen_fd p)) with 0%nat in He by lia.
      assert (fd = 0) by lia. subst. exfalso. apply Hfresh. left. unfold reserved. set_solver.
  - congruence.
Qed.

Lemma close_inv p open fd p' :
  net_inv (p, open) → fd ∈ m_listen_fd p :: open →
  m_free_tasks p' = task_of p fd :: m_free_tasks p → 0 ≤ task_of p fd →
  m_ready_list p' = m_ready_list p →
  m_recv_tasks p' = m_recv_tasks p → m_listen_fd p' = m_listen_fd p →
  length (m_tcp_tasks p') = length (m_tcp_tasks p) →
  net_inv (p', filter (λ x, x ≠ fd) open).
Proof.
  intros [Ht Hr Hnd Hrg Hown Hl Hrv] Hin Ef Hfd Er Ev El Et. cbn [fst snd] in *.
  apply NoDup_app in Hnd as (Hn1 & Hn2 & Hn3).
  assert (Hopen : fd ∈ open).
  { apply elem_of_cons in Hin as [->|]; [|done]. rewrite Hl in Hfd. lia. }
  assert (Htask : ∀ x, task_of p' x = task_of p x) by (intros x; unfold task_of; by rewrite Er).
  split; cbn [fst snd]; try congruence.
  - rewrite (reserved_same _ _ El). apply NoDup_app. split_and!; [done| |by apply NoDup_filter].
    intros x Hx [_ ?]%list_elem_of_filter. by eapply Hn2.
  - rewrite Forall_forall in *. intros x [_ ?]%list_elem_of_filter. auto.
  - rewrite Ef, <- Hown.
    rewrite (filter_ne_split fd open) at 2 by done. simpl.
    rewrite (list_fmap_ext (task_of p') (task_of p)) by auto.
    symmetry. apply Permutation_middle.
Qed.

Lemma net_step_inv s s' : net_inv s → net_step s s' → net_inv s'.
Proof.
  intros Hinv Hstep. destruct Hstep as [p open ev env p' Hin Hfresh Hrun|p open rs ws p' sent H
    |p open u p' r id H|p open ref a p' H|p open id ws p' ret sent H].
  - pose proof Hinv as [Ht Hr Hnd Hrg Hown Hl Hrv]. cbn [fst snd] in *.
    unfold handle_event in Hrun. unfold open_after, is_hangup, is_input.
    case_bool_decide as Hhup; [|case_bool_decide as Hinp; [case_bool_decide as Hlis|]].
    + apply bind_Ok in Hrun as ([q b] & E & [= ->]).
      apply close_connect_effect in E as (? & ? & ? & ? & ? & ?). by eapply (close_inv p).
    + apply bind_Ok in Hrun as ([q b] & E & [= ->]). apply add_connect_effect in E. unfold accept_fresh in Hfresh.
      destruct (env_accept env) as [|fd] eqn:Ea; [by subst|].
      pose proof (free_not_empty _ _ Hinv) as Hne.
      destruct (m_free_tasks p) as [|id f] eqn:Ef; [done|].
      destruct E as ([? ?] & ? & ? & ? & ? & ?). unfold blen in *.
      eapply (accept_inv p); eauto; [tauto|lia].
    + apply bind_Ok in Hrun as ([q r] & E & Hrun).
      apply pool_recv_msg_same in E as [Hs ->]; [|done]. injection Hrun as ->. by eapply net_inv_same.
    + by injection Hrun as ->.
  - eapply net_inv_same; [by eapply worker_run_same|done].
  - eapply net_inv_same; [by eapply pull_msg_same|done].
  - eapply net_inv_same; [by eapply write_answer_same|done].
  - eapply net_inv_same; [by eapply push_msg_same|done].
Qed.

Lemma new_sockets_length ms ss : new_sockets ms = Ok ss → length ss = length ms.
Proof.
  revert ss. induction ms as [|[m1 m2] ms IH]; intros ss H; simpl in H; [by injection H as <-|].
  apply bind_Ok in H as (s & _ & H). apply bind_Ok in H as (ss' & E & H).
  injection H as <-. simpl. by rewrite (IH _ E).
Qed.

Lemma init_inv env p :
  init new_task_pool env = Ok (p, true) → (100 ≤ length (env_malloc env))%nat →
  3 ≤ env_socket env → net_inv (p, []).
Proof.
  unfold init. intros H Hm Hs. repeat (case_bool_decide; try done).
  apply bind_Ok in H as (tasks & E & [= <-]). apply new_sockets_length in E.
  rewrite length_take in E. unfold MAX_TASK in *.
  split; cbn [fst snd m_tcp_tasks m_ready_list m_free_tasks m_listen_fd m_recv_tasks].
  - lia.
  - done.
  - unfold reserved. simpl. repeat constructor; set_solver by lia.
  - done.
  - change (reverse (seqZ 0 100) ≡ₚ seqZ 0 100). apply reverse_Permutation.
  - unfold task_of. cbn [m_ready_list m_listen_fd].
    change (default (-1) (replicate 100 (-1) !! Z.to_nat (env_socket env)) = -1).
    destruct (_ !! _) eqn:Hl; [|done]. by apply lookup_replicate in Hl as [-> _].
  - done.
Qed.

Lemma net_steps_inv s s' : net_inv s → rtc net_step s s' → net_inv s'.
Proof. intros Hi. induction 1; eauto using net_step_inv. Qed.

(** ** Properties *)

(** C1: in every run of the server (any order of events, worker turns and
    application calls that meets no undefined behaviour), two open connections never
    share a task, an open connection's task is never on the free stack, and the open
    connections and the free tasks add up to [MAX_TASK].  The stack of free tasks is
    therefore never empty (the refusal branch of [add_connect] is dead): a
    connection too many is caught by nothing, it is stored past the end of
    [m_ready_list]. *)
Theorem connections_isolated (env : init_env) (p0 p : task_pool) (open : list Z) :
  init new_task_pool env = Ok (p0, true) → (100 ≤ length (env_malloc env))%nat →
  3 ≤ env_socket env → rtc net_step (p0, []) (p, open) →
  (∀ fd1 fd2, fd1 ∈ open → fd2 ∈ open → task_of p fd1 = task_of p fd2 → fd1 = fd2) ∧
  (∀ fd, fd ∈ open → 0 ≤ task_of p fd < MAX_TASK ∧ task_of p fd ∉ m_free_tasks p) ∧
  blen open + blen (m_free_tasks p) = MAX_TASK ∧
  is_free_tasks_empty p = false ∧
  (∀ fd ctl, 100 ≤ fd → ctl ≠ -1 → add_connect p (CallOk fd) ctl = Ub OutOfBounds).
Proof.
  intros Hinit Hm Hs Hrun.
  pose proof (net_steps_inv _ _ (init_inv _ _ Hinit Hm Hs) Hrun) as Hinv.
  pose proof Hinv as [Ht Hr Hnd Hrg Hown Hl Hrv]. cbn [fst snd] in *.
  assert (Hnd' : NoDup ((task_of p <$> open) ++ m_free_tasks p))
    by (rewrite Hown; apply NoDup_seqZ).
  apply NoDup_app in Hnd' as (Hn1 & Hn2 & Hn3).
  pose proof (free_not_empty _ _ Hinv) as Hne. split_and!.
  - intros fd1 fd2 [i Hi]%list_elem_of_lookup [j Hj]%list_elem_of_lookup Heq.
    assert (i = j) as ->; [|congruence].
    eapply (NoDup_lookup (task_of p <$> open)); [done| |]; rewrite list_lookup_fmap.
    + by rewrite Hi.
    + by rewrite Hj, Heq.
  - intros fd Hfd. assert (task_of p fd ∈ task_of p <$> open) as Hin
      by (apply list_elem_of_fmap; eauto). split; [|by apply Hn2].
    assert (task_of p fd ∈ seqZ 0 100) as ?%elem_of_seqZ by (rewrite <- Hown; set_solver).
    unfold MAX_TASK. lia.
  - pose proof (owned_count _ _ Hinv). unfold blen, MAX_TASK. lia.
  - unfold is_free_tasks_empty. by rewrite bool_decide_false.
  - intros fd ctl Hfd Hctl. unfold add_connect, is_free_tasks_empty, get_free_task.
    rewrite !bool_decide_false by done. destruct (m_free_tasks p); [done|].
    unfold store. simpl. by rewrite (bool_decide_false (0 ≤ fd < _)) by (unfold blen; lia).
Qed.

(** What [get_msg] copies into a fresh message. *)
Lemma make_message_ok id s ref :
  socket_wf s → m_length (m_recv_buf s) ≤ 128 →
  make_message id s ref = Ok (get_send_buf_len_addr s,
    mk_message id (contents (m_recv_buf s) ++ drop (length (contents (m_recv_buf s))) new_message)
      (m_length (m_recv_buf s)) ref).
Proof.
  intros (_ & Hrb & _) Hlen. pose proof Hrb as [_ Hl]. unfold BUFFER_SIZE in Hl.
  unfold make_message, get_msg.
  rewrite get_buf_ok by (done || (unfold new_message; rewrite blen_replicate; lia)). simpl.
  rewrite s32_small, u32_small by (unfold is_u32; lia). done.
Qed.

Lemma make_message_overflow id s ref :
  socket_wf s → 128 < m_length (m_recv_buf s) → make_message id s ref = Ub OutOfBounds.
Proof.
  intros (_ & Hrb & _) Hlen. unfold make_message, get_msg, get_buf.
  rewrite bool_decide_true by lia. by rewrite memcpy_dst_overflow.
Qed.

Lemma index_lookup {A} (l : list A) i x : 0 ≤ i → l !! Z.to_nat i = Some x → index l i = Ok x.
Proof. intros. unfold index. by rewrite bool_decide_true, H0. Qed.

Lemma store_ok {A} (l : list A) i x y :
  index l i = Ok y → store l i x = Ok (<[Z.to_nat i:=x]> l).
Proof.
  intros [? Hl]%index_Ok. unfold store. apply lookup_lt_Some in Hl.
  rewrite bool_decide_true; [done|]. unfold blen. lia.
Qed.

Lemma index_insert {A} (l : list A) i x y :
  index l i = Ok y → index (<[Z.to_nat i:=x]> l) i = Ok x.
Proof.
  intros [? Hl]%index_Ok. apply index_lookup; [done|].
  apply list_lookup_insert_eq. by eapply lookup_lt_Some.
Qed.

(** Handling an input event on a connection whose buffer fits in a message. *)
Lemma pool_recv_msg_ok p fd i s :
  m_recv_tasks p = [] → index (m_ready_list p) fd = Ok i → index (m_tcp_tasks p) i = Ok s →
  socket_wf s → m_length (m_recv_buf s) ≤ 128 → blen (m_queue p) ≤ MAX_REQUESTS →
  let msg := mk_message i
    (contents (m_recv_buf s) ++ drop (length (contents (m_recv_buf s))) new_message)
    (m_length (m_recv_buf s)) (TaskRef i) in
  pool_recv_msg p fd = Ok (
    mk_task_pool
      (<[Z.to_nat i:=get_send_buf_len_addr (set_wr_flag s READ_OP)]>
         (<[Z.to_nat i:=set_wr_flag s READ_OP]> (m_tcp_tasks p)))
      (m_ready_list p) (m_free_tasks p) (m_undo_tasks p ++ [msg]) []
      (m_listen_fd p) (m_epoll_fd p) (m_queue p ++ [i]), 0).
Proof.
  intros Hrecv Hfd Hi Hwf Hlen Hq msg. unfold pool_recv_msg. rewrite Hfd. simpl. rewrite Hi. simpl.
  rewrite (store_ok _ _ _ _ Hi). simpl. unfold add_recv_task. simpl. rewrite Hrecv. simpl.
  rewrite (index_insert _ _ _ _ Hi). simpl.
  rewrite make_message_ok by done. simpl.
  rewrite (store_ok _ _ _ _ (index_insert _ _ _ _ Hi)). simpl.
  unfold pool_append. simpl. by rewrite bool_decide_false by lia.
Qed.

(** an input event on a connection hands the application what its receive
    buffer held {e before} the data that caused the event was read: the message is
    queued first, the worker's [read] happens later.  Pulling after the worker has
    run still gives the old bytes; the new ones [bs] are in the buffer and go out
    with the next event. *)
Lemma pull_returns_previous_bytes (p : task_pool) (fd i : Z) (s : tcp_socket) (bs : list byte)
    (ws : list wr_res) :
  m_recv_tasks p = [] → m_undo_tasks p = [] → m_queue p = [] →
  index (m_ready_list p) fd = Ok i → index (m_tcp_tasks p) i = Ok s → socket_wf s →
  m_length (m_recv_buf s) ≤ 128 → 0 < blen bs < BUFFER_SIZE →
  ∃ p1 p2 p3 s' out,
    pool_recv_msg p fd = Ok (p1, 0) ∧
    worker_run p1 [RdData bs] ws = Ok (p2, []) ∧
    pull_msg p2 new_message = Ok (p3, Some (out, m_length (m_recv_buf s), TaskRef i), i) ∧
    take (Z.to_nat (m_length (m_recv_buf s))) out = contents (m_recv_buf s) ∧
    index (m_tcp_tasks p3) i = Ok s' ∧ contents (m_recv_buf s') = bs.
Proof.
  intros Hrecv Hundo Hq Hfd Hi Hwf Hlen Hbs.
  pose proof Hwf as (Hsb & Hrb & Hrl & Hp & Hr). pose proof Hrb as [_ Hl].
  pose proof (buffer_contents_length _ Hrb) as Hc. unfold blen in Hc.
  set (s1 := get_send_buf_len_addr (set_wr_flag s READ_OP)).
  assert (Hwf1 : socket_wf s1) by (split_and!; simpl; done || lia).
  destruct (recv_buf_reads s1 bs []) as (s' & Hrun & Hcont); [done..|].
  eexists _, _, _, s', _. split_and!.
  - apply (pool_recv_msg_ok p fd i s); try done. rewrite Hq. done.
  - unfold worker_run. rewrite Hq. simpl.
    rewrite (index_insert _ _ _ (set_wr_flag s READ_OP)) by (by eapply index_insert). simpl.
    fold s1. unfold process. rewrite bool_decide_true by done. rewrite Hrun. simpl.
    erewrite store_ok by (eapply index_insert; by eapply index_insert). done.
  - unfold pull_msg, get_undo_task. simpl. rewrite Hundo. simpl.
    rewrite s32_small by lia.
    rewrite memcpy_ok; [done|lia| |unfold new_message; rewrite blen_replicate; lia].
    rewrite blen_app. unfold blen. lia.
  - rewrite take_app_le by (rewrite length_take, length_app; lia).
    rewrite take_take, Nat.min_id, take_app_le by lia. apply take_ge. lia.
  - simpl. eapply index_insert. eapply index_insert. by eapply index_insert.
  - done.
Qed.

Lemma reset_ok s :
  socket_wf s → ∃ s', reset s = Ok (s', true) ∧ socket_wf s'.
Proof.
  intros (Hsb & Hrb & _ & Hp & Hr). unfold reset. rewrite !clean_ok by done.
  eexists. split; [done|]. pose proof zero_buffer_wf as Hz. split_and!; done.
Qed.

(** The temporary socket of [close_connect] and its message. *)
Lemma new_socket_message b1 b2 id ref :
  blen b1 = BUFFER_SIZE → blen b2 = BUFFER_SIZE →
  ∃ s s' bytes, new_socket (Some b1) (Some b2) = Ok s ∧
    make_message id s ref = Ok (s', mk_message id bytes 1 ref) ∧ blen bytes = 128.
Proof.
  intros H1 H2. destruct (new_buffer_ok b1 H1) as (sb & Hsb & Hwsb & _).
  destruct (new_buffer_ok b2 H2) as (rb & Hrb & Hwrb & Hcont).
  pose proof (buffer_contents_length _ Hwrb) as Hl. rewrite Hcont in Hl. change (blen [Byte.x31]) with 1 in Hl.
  unfold new_socket. rewrite Hsb, Hrb. simpl.
  assert (socket_wf (mk_socket 0 (-1) 6 1 READ_OP sb rb)) by (split_and!; simpl; rewrite <- ?Hl; done).
  eexists _, _, _. split; [done|]. rewrite make_message_ok by (simpl; rewrite <- ?Hl; done).
  cbn [m_recv_buf]. rewrite <- Hl, Hcont. done.
Qed.

Lemma close_connect_ok p fd ctl b1 b2 i s :
  index (m_ready_list p) fd = Ok i → index (m_tcp_tasks p) i = Ok s → socket_wf s →
  blen b1 = BUFFER_SIZE → blen b2 = BUFFER_SIZE → ctl ≠ -1 →
  ∃ p', close_connect p fd ctl (Some b1) (Some b2) = Ok (p', true).
Proof.
  intros Hfd Hi Hwf H1 H2 Hctl. unfold close_connect. rewrite Hfd. simpl. rewrite Hi. simpl.
  destruct (reset_ok s Hwf) as (s' & -> & _). simpl. rewrite (store_ok _ _ _ _ Hi). simpl.
  rewrite bool_decide_false by done.
  destruct (new_socket_message b1 b2 i TempRef H1 H2) as (t & t' & bytes & -> & Hm & _).
  simpl. rewrite Hm. by eexists.
Qed.

(** a connection whose receive buffer holds more than the 128 bytes of
    [Message::recv_msg] makes the next input event write past the end of the
    message. *)
Lemma recv_msg_overflows_message (p : task_pool) (fd i : Z) (s : tcp_socket) :
  m_recv_tasks p = [] → index (m_ready_list p) fd = Ok i → index (m_tcp_tasks p) i = Ok s →
  socket_wf s → 128 < m_length (m_recv_buf s) →
  pool_recv_msg p fd = Ub OutOfBounds.
Proof.
  intros Hrecv Hfd Hi Hwf Hlen. unfold pool_recv_msg. rewrite Hfd. simpl. rewrite Hi. simpl.
  rewrite (store_ok _ _ _ _ Hi). simpl. unfold add_recv_task. simpl. rewrite Hrecv. simpl.
  rewrite (index_insert _ _ _ _ Hi). simpl. by rewrite make_message_overflow.
Qed.

(** when a connection closes, its message carries the address of the send
    buffer of a temporary socket that [close_connect] deletes before returning: an
    application that answers the message, as net/main.cpp does, writes to freed
    memory. *)
Lemma close_message_dangles (p p' : task_pool) (fd ctl : Z) (b1 b2 : list byte) (ws : list wr_res) :
  m_undo_tasks p = [] → blen b1 = BUFFER_SIZE → blen b2 = BUFFER_SIZE →
  close_connect p fd ctl (Some b1) (Some b2) = Ok (p', true) →
  echo_round p' ws = Ub UseAfterFree.
Proof.
  intros Hundo H1 H2 Hclose. unfold close_connect in Hclose.
  apply bind_Ok in Hclose as (del & _ & Hclose). apply bind_Ok in Hclose as (s & Hs & Hclose).
  apply bind_Ok in Hclose as ([s' ok] & _ & Hclose). apply bind_Ok in Hclose as (tasks & _ & Hclose).
  case_bool_decide; [done|]. destruct ok; simpl in Hclose; [|done].
  destruct (new_socket_message b1 b2 del TempRef H1 H2) as (t & t' & bytes & Ht & Hm & Hb).
  rewrite Ht in Hclose. simpl in Hclose. rewrite Hm, Hundo in Hclose. injection Hclose as <-.
  apply index_Ok in Hs as [Hdel _].
  unfold echo_round, pull_msg, get_undo_task. simpl.
  rewrite s32_small, memcpy_ok by (done || (rewrite ?Hb; done)). simpl.
  by rewrite bool_decide_false by lia.
Qed.

(** ** Witnesses *)

Section demo.
Context (s : tcp_socket) (Hs : new_socket (Some zero_block) (Some zero_block) = Ok s).

Definition demo_env : init_env :=
  mk_init_env 3 0 0 0 4 0 (replicate 100 (Some zero_block, Some zero_block)).

(** The pool after [init], and after accepting descriptor 5. *)
Definition demo_p0 : task_pool :=
  mk_task_pool (replicate 100 s) (replicate 100 (-1)) (reverse (seqZ 0 100)) [] [] 3 4 [].

Lemma demo_init : init new_task_pool demo_env = Ok (demo_p0, true).
Proof using Hs.
  assert (Hss : ∀ n, new_sockets (replicate n (Some zero_block, Some zero_block)) = Ok (replicate n s)).
  { induction n as [|n IH]; [done|]. cbn [replicate new_sockets]. rewrite Hs, IH. done. }
  unfold init. cbn [demo_env env_socket env_setsockopt env_bind env_listen env_epoll_create
    env_epoll_ctl env_malloc].
  rewrite !bool_decide_false by lia.
  change (take (Z.to_nat MAX_TASK) (replicate 100 (Some zero_block, Some zero_block)))
    with (replicate 100 (Some zero_block, Some zero_block)).
  rewrite Hss. done.
Qed.

Definition demo_p1 : task_pool :=
  mk_task_pool (<[99%nat:=set_fd s 5]> (replicate 100 s)) (<[5%nat:=99]> (replicate 100 (-1)))
    (reverse (seqZ 0 99)) [] [] 3 4 [].

Lemma demo_accept : rtc net_step (demo_p0, []) (demo_p1, [5]).
Proof.
  apply rtc_once.
  apply (net_event demo_p0 [] (mk_event EPOLLIN 3) (mk_ev_env (CallOk 5) 0 None None) demo_p1).
  - apply elem_of_cons. by left.
  - split; [done|]. by apply (bool_decide_unpack _).
  - done.
Qed.
End demo.

Lemma connections_isolated_witness :
  ∃ p0 p1, init new_task_pool demo_env = Ok (p0, true) ∧
    rtc net_step (p0, []) (p1, [5]) ∧ task_of p1 5 = 99 ∧
    blen [5] + blen (m_free_tasks p1) = MAX_TASK ∧ is_free_tasks_empty p1 = false ∧
    add_connect p1 (CallOk 100) 0 = Ub OutOfBounds.
Proof.
  destruct (new_buffer_ok zero_block blen_zero_block) as (b & Hb & _).
  assert (∃ s, new_socket (Some zero_block) (Some zero_block) = Ok s) as [s Hs]
    by (unfold new_socket; rewrite Hb; eexists; reflexivity).
  exists (demo_p0 s), (demo_p1 s).
  pose proof (connections_isolated demo_env (demo_p0 s) (demo_p1 s) [5] (demo_init s Hs)
    (le_n 100) ltac:(done) (demo_accept s)) as (_ & _ & H1 & H2 & H3).
  split_and!; [by apply demo_init|by apply (demo_accept s)|done|exact H1|exact H2|by apply H3].
Defined.

