(* ===== verification/DbMysql.v ===== *)
(** * db/mysql/db_mysql.h and db/mysql/db_mysql.cpp: queries rendered as JSON

    [sql_db] dispatches on the text of the query; [open_db] copies the result set of
    a query to fresh arrays and renders it in [m_pResult] by [strcat] into a block
    whose size it computed beforehand.  The client library of MySQL is not part of the
    repository: the results of its calls are arguments.  [malloc] is taken to succeed. *)
From S2P Require Import Prelude.

(** ** Definitions *)

(** *** Strings of C *)

Abbreviation nul := Byte.x00.

(** [strlen]: the bytes before the first zero byte, which has to be in the array. *)
Fixpoint strlen (s : list byte) : outcome nat :=
  match s with
  | [] => Ub OutOfBounds
  | b :: s => if decide (b = nul) then Ok O else n ← strlen s; Ok (S n)
  end.

(** [strcat(dst, src)] for a terminated [src] given by its characters. *)
Definition strcat (dst src : list byte) : outcome (list byte) :=
  n ← strlen dst; mem_write dst (Z.of_nat n) (src ++ [nul]).

Fixpoint strcats (dst : list byte) (srcs : list (list byte)) : outcome (list byte) :=
  match srcs with
  | [] => Ok dst
  | s :: srcs => dst ← strcat dst s; strcats dst srcs
  end.

(** [strncmp(src, word, strlen(word)) == 0] for a [word] without zero bytes. *)
Definition strncmp_eq (src word : list byte) : bool := bool_decide (take (length word) src = word).

(** [tolower] in the C locale. *)
Definition tolower (b : byte) : byte :=
  if (65 <=? b2z b) && (b2z b <=? 90) then z2b (b2z b + 32) else b.
Definition strcasecmp_eq (a b : list byte) : bool := bool_decide (map tolower a = map tolower b).

(** [strtok(s, " ")] on the rest of the array: the token, if there is one, and what is
    left.  It reads up to the end of the token, which a blank or a zero byte marks. *)
Fixpoint skip_blanks (s : list byte) : list byte :=
  match s with
  | b :: s' => if decide (b = Byte.x20) then skip_blanks s' else s
  | [] => []
  end.
Fixpoint cut_token (s : list byte) : outcome (list byte * list byte) :=
  match s with
  | [] => Ub OutOfBounds
  | b :: s' =>
      if decide (b = Byte.x20) then Ok ([], s')
      else if decide (b = nul) then Ok ([], s)
      else r ← cut_token s'; Ok (b :: r.1, r.2)
  end.
Definition strtok (s : list byte) : outcome (option (list byte * list byte)) :=
  match skip_blanks s with
  | [] => Ub OutOfBounds
  | b :: s' => if decide (b = nul) then Ok None else r ← cut_token (b :: s'); Ok (Some r)
  end.

(** *** The object *)

Inductive connection := ConnUninit | ConnNull | ConnOpen.

(** [m_pResult] is [None] while the pointer is not initialised. *)
Record MyDB := mkMyDB { m_connection : connection; m_pResult : option (list byte) }.

(** The constructor initialises nothing. *)
Definition new_MyDB : MyDB := mkMyDB ConnUninit None.
Definition with_connection (db : MyDB) (c : connection) : MyDB := mkMyDB c (m_pResult db).

(** [exec_db]: [state] is the result of [mysql_query]. *)
Definition exec_db (state : Z) : Z := if negb (state =? 0) then -1 else 0.

(** [conn_db]: [connected] says whether [mysql_real_connect] returns a connection;
    [state] is the result of the query that sets the character set. *)
Definition conn_db (db : MyDB) (connected : bool) (state : Z) : outcome (MyDB * Z) :=
  match m_connection db with
  | ConnUninit => Ub Uninitialized
  | ConnNull | ConnOpen =>
      if negb connected then Ok (with_connection db ConnNull, -1)
      else let _ := exec_db state in Ok (with_connection db ConnOpen, 0)
  end.

Definition disconn_db (db : MyDB) : outcome MyDB :=
  match m_connection db with
  | ConnUninit => Ub Uninitialized
  | ConnNull => Ok db
  | ConnOpen => Ok (with_connection db ConnNull)
  end.

(** *** The table name of a query *)

(** The loop over the tokens: the token after [from], if there is one. *)
Fixpoint find_from (fuel : nat) (s : list byte) : outcome (option (list byte)) :=
  match fuel with
  | O => Blocked
  | S fuel =>
      r ← strtok s;
      match (r : option (list byte * list byte)) with
      | None => Ok None
      | Some (t, s) =>
          if strcasecmp_eq t (str "from") || strcasecmp_eq t (str "*from")
          then r ← strtok s; Ok (option_map fst (r : option (list byte * list byte)))
          else find_from fuel s
      end
  end.

(** The semicolon at its end is overwritten. *)
Definition drop_semicolon (t : list byte) : list byte :=
  if decide (last t = Some Byte.x3b) then removelast t else t.

(** The query is copied to 200 zeroed bytes without its terminator. *)
Definition table_name (SQL : list byte) : outcome (option (list byte)) :=
  temp_sql ← mem_write (replicate 200 nul) 0 SQL;
  t ← find_from (S (length temp_sql)) temp_sql;
  Ok (option_map drop_semicolon t).

(** *** The result set *)

(** [mysql_store_result]: the two counts, the names of the fields that
    [mysql_fetch_field] returns and the rows that [mysql_fetch_row] returns. *)
Record mysql_res := mkRes {
  num_fields : Z;
  num_rows : Z;
  fields : list (list byte);
  rows : list (list (option (list byte)))
}.

(** The array [result_out]: a cell is [None] until it is assigned. *)
Abbreviation table := (list (list (option (list byte)))).

Definition set_cell (t : table) (i j : nat) (s : list byte) : outcome table :=
  match t !! i with
  | Some r => if decide (j < length r)%nat then Ok (<[i := <[j := Some s]> r]> t) else Ub OutOfBounds
  | None => Ub OutOfBounds
  end.
Definition get_cell (t : table) (i j : nat) : outcome (list byte) :=
  match t !! i with
  | Some r =>
      match r !! j with
      | Some (Some s) => Ok s
      | Some None => Ub Uninitialized
      | None => Ub OutOfBounds
      end
  | None => Ub OutOfBounds
  end.

(** The size of the result is an [int] that is computed with unsigned products. *)
Definition add_length (len n : Z) : Z := s32 (u64 (n + len)).
Definition add_int (len n : Z) : outcome Z := if len + n <? 2 ^ 31 then Ok (len + n) else Ub SignedOverflow.

(** The names of the fields: the array and the sum of their lengths over all rows. *)
Fixpoint copy_fields (row : Z) (i : nat) (names : list (list byte)) (t : table) (len : Z) : outcome (table * Z) :=
  match names with
  | [] => Ok (t, len)
  | s :: names =>
      t ← set_cell t 0 i s;
      copy_fields row (S i) names t (add_length len (blen s * row))
  end.

(** The text of a cell. *)
Definition cell_text (c : option (list byte)) : list byte :=
  match c with Some s => s | None => str "NULL" end.

(** One row: the first [column] cells of it. *)
Fixpoint copy_row (column : nat) (i j : nat) (r : list (option (list byte))) (t : table) (len : Z) : outcome (table * Z) :=
  match column with
  | O => Ok (t, len)
  | S column =>
      match r with
      | [] => Ub OutOfBounds
      | c :: r =>
          t ← set_cell t i j (cell_text c);
          len ← match c with Some s => Ok (add_length len (blen s)) | None => add_int len 4 end;
          copy_row column i (S j) r t len
      end
  end.

Fixpoint copy_rows (column : nat) (i : nat) (rs : list (list (option (list byte)))) (t : table) (len : Z) : outcome (table * Z) :=
  match rs with
  | [] => Ok (t, len)
  | r :: rs => p ← copy_row column i 0 r t len; copy_rows column (S i) rs p.1 p.2
  end.

(** The array of all texts and the sum of the lengths. *)
Definition copy_result (res : mysql_res) : outcome (table * Z) :=
  let column := Z.to_nat (num_fields res) in
  let t := replicate (1 + Z.to_nat (num_rows res)) (replicate column None) in
  f ← copy_fields (num_rows res) 0 (fields res) t 0;
  copy_rows column 1 (rows res) f.1 f.2.

(** The size of the block for the text. *)
Definition result_length (name : option (list byte)) (row column len : Z) : outcome Z :=
  let len := match name with Some t => add_length len (blen t) | None => len end in
  let all := len + 2 + 2 + 1 + 2 + 2 * row + row * (2 * column - 1 + 4 * column) + row in
  if all <? 2 ^ 31 then Ok (all - 1) else Ub SignedOverflow.

(** The strings [strcat] appends, in order. *)
Definition quote : list byte := [Byte.x22].

Fixpoint row_pieces (n i j : nat) (t : table) : outcome (list (list byte)) :=
  match n with
  | O => Ok []
  | S n =>
      name ← get_cell t 0 j;
      value ← get_cell t i j;
      ps ← row_pieces n i (S j) t;
      Ok ((if decide (j = O) then [] else [str ","]) ++ [quote; name; quote; str ":"; quote; value; quote] ++ ps)
  end.

Fixpoint rows_pieces (n i column : nat) (t : table) : outcome (list (list byte)) :=
  match n with
  | O => Ok []
  | S n =>
      r ← row_pieces column i 0 t;
      ps ← rows_pieces n (S i) column t;
      Ok ((if decide (i = 1%nat) then [] else [str ","]) ++ [str "{"] ++ r ++ [str "}"] ++ ps)
  end.

Definition json_pieces (name : option (list byte)) (row column : nat) (t : table) : outcome (list (list byte)) :=
  ps ← rows_pieces row 1 column t;
  Ok ([str "{"; quote] ++ match name with Some n => [n] | None => [] end ++
      [quote; str ":"; str "["] ++ ps ++ [str "]"; str "}"]).

(** What a query delivers to its caller. *)
Record query_result := mkQuery { ret : Z; result_out : option table; out_row : Z; out_column : Z }.

(** [open_db]: [state] is the result of [mysql_query], [result] of
    [mysql_store_result]; the caller's outputs keep their values on an error. *)
Definition open_db (db : MyDB) (SQL : list byte) (old : query_result) (state : Z) (result : option mysql_res)
    : outcome (MyDB * query_result) :=
  let failed := mkQuery (-1) (result_out old) (out_row old) (out_column old) in
  if negb (state =? 0) then Ok (db, failed)
  else
    name ← table_name SQL;
    match result with
    | None => Ok (db, failed)
    | Some res =>
        c ← copy_result res;
        n ← result_length name (num_rows res) (num_fields res) c.2;
        ps ← json_pieces name (Z.to_nat (num_rows res)) (Z.to_nat (num_fields res)) c.1;
        text ← strcats (replicate (Z.to_nat n) nul) ps;
        Ok (mkMyDB (m_connection db) (Some text), mkQuery 0 (Some c.1) (num_rows res) (num_fields res))
    end.

Definition sql_db (db : MyDB) (src : list byte) (old : query_result) (state : Z) (result : option mysql_res)
    : outcome (MyDB * query_result) :=
  if strncmp_eq src (str "select") || strncmp_eq src (str "SELECT") || strncmp_eq src (str "show") ||
     strncmp_eq src (str "SHOW") || strncmp_eq src (str "desc") || strncmp_eq src (str "DESC")
  then open_db db src old state result
  else Ok (db, mkQuery (exec_db state) (result_out old) (out_row old) (out_column old)).

(** [get_string]: the text and its length. *)
Definition get_string (db : MyDB) : outcome (list byte * Z) :=
  match m_pResult db with
  | None => Ub Uninitialized
  | Some text => n ← strlen text; Ok (text, Z.of_nat n)
  end.

(** ** The text of a result *)

Fixpoint intercalate (sep : list byte) (l : list (list byte)) : list byte :=
  match l with
  | [] => []
  | [x] => x
  | x :: l => x ++ sep ++ intercalate sep l
  end.
Definition quoted (s : list byte) : list byte := quote ++ s ++ quote.
Definition json_field (name : list byte) (c : option (list byte)) : list byte :=
  quoted name ++ str ":" ++ quoted (cell_text c).
Definition json_row (names : list (list byte)) (r : list (option (list byte))) : list byte :=
  str "{" ++ intercalate (str ",") (zip_with json_field names r) ++ str "}".
Definition json (name : option (list byte)) (res : mysql_res) : list byte :=
  str "{" ++ quoted (default [] name) ++ str ":[" ++
  intercalate (str ",") (map (json_row (fields res)) (rows res)) ++ str "]}".

Definition no_nul (s : list byte) : Prop := nul ∉ s.

(** What the client library promises of a stored result. *)
Record result_ok (res : mysql_res) : Prop := {
  ok_fields : num_fields res = blen (fields res);
  ok_rows : num_rows res = blen (rows res);
  ok_column : fields res ≠ [];
  ok_row : Forall (λ r, length r = length (fields res)) (rows res);
  ok_names : Forall no_nul (fields res);
  ok_cells : Forall (λ r, Forall (λ c, no_nul (cell_text c)) r) (rows res)
}.

Definition copied (res : mysql_res) : table :=
  map Some (fields res) :: map (map (λ c, Some (cell_text c))) (rows res).

(** ** Lemmas *)

(** *** Concatenation of strings *)

Lemma strlen_app s r : no_nul s → strlen (s ++ nul :: r) = Ok (length s).
Proof.
  unfold no_nul. induction s as [|b s IH]; intros Hs; cbn [app strlen length].
  - by rewrite decide_True.
  - apply not_elem_of_cons in Hs as [Hb Hs]. rewrite decide_False by done. by rewrite IH.
Qed.

Lemma strlen_none s : no_nul s → strlen s = Ub OutOfBounds.
Proof.
  unfold no_nul. induction s as [|b s IH]; intros Hs; [done|]. apply not_elem_of_cons in Hs as [Hb Hs].
  cbn [strlen]. rewrite decide_False by done. by rewrite IH.
Qed.

Lemma strcat_spec s src k :
  no_nul s → (1 ≤ k)%nat →
  strcat (s ++ replicate k nul) src =
  if decide (length src < k)%nat then Ok ((s ++ src) ++ replicate (k - length src) nul) else Ub OutOfBounds.
Proof.
  intros Hs Hk. unfold strcat. destruct k as [|k]; [lia|]. rewrite replicate_S, strlen_app by done.
  cbn [mbind outcome_bind]. rewrite <- replicate_S. unfold mem_write.
  rewrite !blen_app, blen_replicate. unfold blen. cbn [length].
  case_decide as Hd; [rewrite bool_decide_true by lia | by rewrite bool_decide_false by lia].
  f_equal. rewrite Nat2Z.id, take_app_length. rewrite <- !app_assoc. f_equal. f_equal.
  rewrite length_app. cbn [length]. rewrite drop_app_ge by lia.
  replace (length s + (length src + 1) - length s)%nat with (S (length src)) by lia.
  rewrite drop_replicate. replace (S k - length src)%nat with (S (S k - S (length src))) by lia. done.
Qed.

Lemma strcats_spec ps : Forall no_nul ps → ∀ s k, no_nul s → (1 ≤ k)%nat →
  strcats (s ++ replicate k nul) ps =
  if decide (length (concat ps) < k)%nat
  then Ok ((s ++ concat ps) ++ replicate (k - length (concat ps)) nul) else Ub OutOfBounds.
Proof.
  induction 1 as [|p ps Hp _ IH]; intros s k Hs Hk; cbn [strcats concat].
  - rewrite decide_True by (simpl; lia). by rewrite app_nil_r, Nat.sub_0_r.
  - rewrite strcat_spec, length_app by done. case_decide as Hd.
    + cbn [mbind outcome_bind]. rewrite IH; [|by apply not_elem_of_app | lia].
      repeat case_decide; try lia; [|done]. f_equal. rewrite <- !app_assoc. do 4 f_equal. lia.
    + by rewrite decide_False by lia.
Qed.

(** *** Copying *)

Lemma add_length_small len n : 0 ≤ len → 0 ≤ n → len + n < 2 ^ 31 → add_length len n = len + n.
Proof.
  intros. unfold add_length. rewrite u64_small by (unfold is_u64; lia). rewrite s32_small; lia.
Qed.

Lemma set_cell_app (pre suf : table) dn c more s :
  set_cell (pre ++ (dn ++ c :: more) :: suf) (length pre) (length dn) s =
  Ok (pre ++ (dn ++ Some s :: more) :: suf).
Proof.
  unfold set_cell. rewrite list_lookup_middle by done.
  rewrite decide_True by (rewrite length_app; simpl; lia).
  replace (length dn) with (length dn + 0)%nat by lia. rewrite insert_app_r. simpl.
  replace (length pre) with (length pre + 0)%nat by lia. by rewrite insert_app_r.
Qed.

Definition total (l : list (list byte)) : Z := blen (concat l).
Lemma total_cons s l : total (s :: l) = blen s + total l.
Proof. unfold total. cbn [concat]. by rewrite blen_app. Qed.
Lemma total_nonneg l : 0 ≤ total l.
Proof. apply blen_nonneg. Qed.

Lemma copy_fields_spec row names : 0 ≤ row → ∀ dn (suf : table) len,
  0 ≤ len → len + row * total names < 2 ^ 31 →
  copy_fields row (length dn) names ((dn ++ replicate (length names) None) :: suf) len =
  Ok ((dn ++ map Some names) :: suf, len + row * total names).
Proof.
  intros Hrow. induction names as [|s names IH]; intros dn suf len Hlen Hsum; cbn [copy_fields length map].
  - change (total []) with 0. do 2 f_equal. lia.
  - rewrite total_cons in *. pose proof (total_nonneg names). pose proof (blen_nonneg s).
    rewrite replicate_S.
    pose proof (set_cell_app [] suf dn None (replicate (length names) None) s) as E. cbn [app length] in E.
    rewrite E. clear E. cbn [mbind outcome_bind].
    rewrite add_length_small by nia.
    specialize (IH (dn ++ [Some s]) suf (len + blen s * row)).
    rewrite length_app, Nat.add_1_r, <- !app_assoc in IH. cbn [app] in IH.
    rewrite IH by nia. do 2 f_equal. nia.
Qed.

Lemma copy_row_spec (r : list (option (list byte))) : ∀ dn (pre suf : table) len,
  0 ≤ len → len + total (map cell_text r) < 2 ^ 31 →
  copy_row (length r) (length pre) (length dn) r (pre ++ (dn ++ replicate (length r) None) :: suf) len =
  Ok (pre ++ (dn ++ map (λ c, Some (cell_text c)) r) :: suf, len + total (map cell_text r)).
Proof.
  induction r as [|c r IH]; intros dn pre suf len Hlen Hsum; cbn [copy_row length map].
  - change (total []) with 0. do 2 f_equal. lia.
  - cbn [map] in Hsum. rewrite total_cons in *. pose proof (total_nonneg (map cell_text r)).
    pose proof (blen_nonneg (cell_text c)).
    rewrite replicate_S, set_cell_app. cbn [mbind outcome_bind].
    assert (match c with Some s => Ok (add_length len (blen s)) | None => add_int len 4 end =
            Ok (len + blen (cell_text c))) as ->.
    { destruct c as [s|]; cbn [cell_text] in *; [by rewrite add_length_small by lia|].
      unfold add_int. change (blen (str "NULL")) with 4 in *. bool_cases. done. }
    cbn [mbind outcome_bind]. specialize (IH (dn ++ [Some (cell_text c)]) pre suf (len + blen (cell_text c))).
    rewrite length_app, Nat.add_1_r, <- !app_assoc in IH. cbn [app] in IH.
    rewrite IH by lia. do 2 f_equal. lia.
Qed.

Definition row_total (rs : list (list (option (list byte)))) : Z := total (map cell_text (concat rs)).
Lemma row_total_cons r rs : row_total (r :: rs) = total (map cell_text r) + row_total rs.
Proof. unfold row_total, total. cbn [concat]. by rewrite map_app, concat_app, blen_app. Qed.

Lemma copy_rows_spec column rs : Forall (λ r, length r = column) rs → ∀ (pre : table) len,
  0 ≤ len → len + row_total rs < 2 ^ 31 →
  copy_rows column (length pre) rs (pre ++ replicate (length rs) (replicate column None)) len =
  Ok (pre ++ map (map (λ c, Some (cell_text c))) rs, len + row_total rs).
Proof.
  induction 1 as [|r rs Hr _ IH]; intros pre len Hlen Hsum; cbn [copy_rows length map].
  - change (row_total []) with 0. do 2 f_equal. lia.
  - rewrite row_total_cons in *. pose proof (total_nonneg (map cell_text r)).
    pose proof (total_nonneg (map cell_text (concat rs))). unfold row_total in Hsum.
    rewrite replicate_S. subst column.
    pose proof (copy_row_spec r [] pre (replicate (length rs) (replicate (length r) None)) len) as E.
    cbn [app length] in E. rewrite E by (unfold row_total in *; lia). clear E. cbn [mbind outcome_bind fst snd].
    specialize (IH (pre ++ [map (λ c, Some (cell_text c)) r]) (len + total (map cell_text r))).
    rewrite length_app, Nat.add_1_r, <- !app_assoc in IH. cbn [app] in IH.
    rewrite IH by (unfold row_total in *; lia). do 2 f_equal. unfold row_total. lia.
Qed.

Lemma copy_result_spec res :
  result_ok res → num_rows res * total (fields res) + row_total (rows res) < 2 ^ 31 →
  copy_result res = Ok (copied res, num_rows res * total (fields res) + row_total (rows res)).
Proof.
  intros [Hf Hr _ Hrow _ _] Hsum. unfold copy_result. rewrite Hf, Hr. unfold blen. rewrite !Nat2Z.id.
  pose proof (total_nonneg (fields res)). pose proof (total_nonneg (map cell_text (concat (rows res)))).
  unfold row_total in Hsum. rewrite Hr in Hsum. unfold blen in Hsum.
  cbn [Nat.add]. rewrite replicate_S.
  pose proof (copy_fields_spec (Z.of_nat (length (rows res))) (fields res) ltac:(lia) []
    (replicate (length (rows res)) (replicate (length (fields res)) None)) 0) as E.
  cbn [app length] in E. rewrite E by nia. clear E. cbn [mbind outcome_bind fst snd].
  pose proof (copy_rows_spec _ _ Hrow [map Some (fields res)]
    (0 + Z.of_nat (length (rows res)) * total (fields res))) as E. cbn [app length] in E.
  rewrite E by (unfold row_total; nia). done.
Qed.

(** *** The strings of the text *)

Lemma get_cell_app (pre suf : table) dn s more :
  get_cell (pre ++ (dn ++ Some s :: more) :: suf) (length pre) (length dn) = Ok s.
Proof. unfold get_cell. by rewrite !list_lookup_middle. Qed.

Definition separated (sep : list byte) (l : list (list byte)) : list byte := concat (map (app sep) l).

Lemma intercalate_cons sep x l : intercalate sep (x :: l) = x ++ separated sep l.
Proof.
  revert x. induction l as [|y l IH]; intros x; [by rewrite app_nil_r|].
  change (intercalate sep (x :: y :: l)) with (x ++ sep ++ intercalate sep (y :: l)).
  rewrite IH. unfold separated. cbn [map concat]. by rewrite <- !app_assoc.
Qed.

(** All strings of a list are terminated properly. *)
Definition clean (ps : list (list byte)) : Prop := Forall no_nul ps.

Lemma row_pieces_spec names cells : length names = length cells → clean names → Forall (λ c, no_nul (cell_text c)) cells →
  ∀ n1 c1 (pre suf : table), length n1 = length c1 →
  ∃ ps, row_pieces (length names) (S (length pre)) (length n1)
      ((n1 ++ map Some names) :: pre ++ (c1 ++ map (λ c, Some (cell_text c)) cells) :: suf) = Ok ps ∧
    clean ps ∧
    concat ps = match n1 with
                | [] => intercalate (str ",") (zip_with json_field names cells)
                | _ => separated (str ",") (zip_with json_field names cells)
                end.
Proof.
  revert cells. induction names as [|s names IH]; intros [|c cells] Hlen Hn Hc n1 c1 pre suf Hl; try done.
  { exists []. split; [done|]. split; [constructor|]. by destruct n1. }
  cbn [length map row_pieces].
  pose proof (get_cell_app [] (pre ++ (c1 ++ map (λ c, Some (cell_text c)) (c :: cells)) :: suf) n1 s
    (map Some names)) as E. cbn [app length map] in E. rewrite E. clear E. cbn [mbind outcome_bind].
  pose proof (get_cell_app ((n1 ++ Some s :: map Some names) :: pre) suf c1 (cell_text c)
    (map (λ c, Some (cell_text c)) cells)) as E. cbn [app length] in E. rewrite Hl. rewrite E. clear E.
  cbn [mbind outcome_bind].
  destruct (IH cells ltac:(by injection Hlen) ltac:(by inversion Hn) ltac:(by inversion Hc)
    (n1 ++ [Some s]) (c1 ++ [Some (cell_text c)]) pre suf) as (ps & E & Hps & Econ).
  { rewrite !length_app. simpl. lia. }
  rewrite <- Hl. rewrite length_app, Nat.add_1_r, <- !app_assoc in E. cbn [app] in E. rewrite E.
  cbn [mbind outcome_bind]. eexists. split; [reflexivity|].
  assert (no_nul s ∧ no_nul (cell_text c)) as [Hs Ht] by (split; [by inversion Hn | by inversion Hc]).
  split.
  - apply Forall_app. split; [case_decide; repeat constructor; by apply (bool_decide_unpack _)|].
    repeat constructor; try done; by apply (bool_decide_unpack _).
  - rewrite concat_app, concat_app, Econ. cbn [zip_with].
    replace (match n1 ++ [Some s] with [] => _ | _ :: _ => separated (str ",") (zip_with json_field names cells) end)
      with (separated (str ",") (zip_with json_field names cells)) by (by destruct n1).
    destruct n1 as [|x n1]; cbn [length].
    + rewrite intercalate_cons. rewrite decide_True by done. unfold json_field, quoted. cbn [concat app].
      by rewrite <- ?app_assoc.
    + rewrite decide_False by done. unfold separated at 2. cbn [map concat]. unfold json_field, quoted. cbn [concat app].
      by rewrite <- ?app_assoc.
Qed.

Lemma rows_pieces_spec names rs : clean names →
  Forall (λ r, length r = length names) rs → Forall (λ r, Forall (λ c, no_nul (cell_text c)) r) rs →
  ∀ (pre : table), ∃ ps, rows_pieces (length rs) (S (length pre)) (length names)
      (map Some names :: pre ++ map (map (λ c, Some (cell_text c))) rs) = Ok ps ∧
    clean ps ∧
    concat ps = match pre with
                | [] => intercalate (str ",") (map (json_row names) rs)
                | _ => separated (str ",") (map (json_row names) rs)
                end.
Proof.
  intros Hn. induction rs as [|r rs IH]; intros Hlen Hc pre.
  { exists []. split; [done|]. split; [constructor|]. by destruct pre. }
  apply Forall_cons in Hlen as [Hr Hlen]. apply Forall_cons in Hc as [Hcr Hc].
  cbn [length map rows_pieces].
  destruct (row_pieces_spec names r (eq_sym Hr) Hn Hcr [] [] pre
    (map (map (λ c, Some (cell_text c))) rs) eq_refl) as (q & E & Hq & Eq).
  cbn [length app] in E. rewrite E. cbn [mbind outcome_bind]. clear E.
  destruct (IH Hlen Hc (pre ++ [map (λ c, Some (cell_text c)) r])) as (ps & E & Hps & Econ).
  rewrite length_app, Nat.add_1_r, <- app_assoc in E. cbn [app] in E. rewrite E. cbn [mbind outcome_bind].
  eexists. split; [reflexivity|]. split.
  - apply Forall_app. split; [case_decide; repeat constructor; by apply (bool_decide_unpack _)|].
    apply Forall_app. split; [repeat constructor; by apply (bool_decide_unpack _)|].
    apply Forall_app. split; [done|]. apply Forall_app. split; [|done].
    repeat constructor; by apply (bool_decide_unpack _).
  - rewrite !concat_app, Econ, Eq.
    replace (match pre ++ [_] with [] => _ | _ :: _ => separated (str ",") (map (json_row names) rs) end)
      with (separated (str ",") (map (json_row names) rs)) by (by destruct pre).
    destruct pre as [|x pre]; cbn [length map].
    + rewrite intercalate_cons. rewrite decide_True by done. unfold json_row. cbn [concat app].
      by rewrite ?app_nil_r, <- ?app_assoc.
    + rewrite decide_False by done. unfold separated at 2. cbn [map concat]. unfold json_row. cbn [concat app].
      by rewrite ?app_nil_r, <- ?app_assoc.
Qed.

Lemma json_pieces_spec name res :
  result_ok res → (∀ t, name = Some t → no_nul t) →
  ∃ ps, json_pieces name (Z.to_nat (num_rows res)) (Z.to_nat (num_fields res)) (copied res) = Ok ps ∧
    clean ps ∧ concat ps = json name res.
Proof.
  intros [Hf Hr _ Hrow Hn Hc] Hname. rewrite Hf, Hr. unfold blen. rewrite !Nat2Z.id. unfold json_pieces, copied.
  destruct (rows_pieces_spec (fields res) (rows res) Hn Hrow Hc []) as (ps & E & Hps & Econ).
  cbn [app length] in E. rewrite E. cbn [mbind outcome_bind]. eexists. split; [reflexivity|]. split.
  - repeat (apply Forall_app; split); try done; try (repeat constructor; by apply (bool_decide_unpack _)).
    destruct name; repeat constructor. by apply Hname.
  - rewrite !concat_app, Econ. unfold json, quoted.
    destruct name; cbn [default concat app]; by rewrite ?app_nil_r, <- ?app_assoc.
Qed.

(** *** Sizes *)

Lemma blen_separated sep l : blen (separated sep l) = total l + blen sep * blen l.
Proof.
  unfold separated. induction l as [|x l IH]; [change (total []) with 0; rewrite Z.mul_0_r; done|].
  cbn [map concat]. rewrite !blen_app, IH, total_cons, blen_cons. lia.
Qed.

Lemma blen_intercalate sep l : l ≠ [] → blen (intercalate sep l) = total l + blen sep * (blen l - 1).
Proof.
  destruct l as [|x l]; [done|]. intros _. rewrite intercalate_cons, blen_app, blen_separated, total_cons, blen_cons. lia.
Qed.

Lemma total_fields names (r : list (option (list byte))) : length r = length names →
  total (zip_with json_field names r) = total names + total (map cell_text r) + 5 * blen names.
Proof.
  revert r. induction names as [|s names IH]; intros [|c r] Hl; try done.
  cbn [zip_with map]. rewrite !total_cons, IH by (by injection Hl). unfold json_field, quoted.
  rewrite !blen_app, blen_cons. change (blen quote) with 1. change (blen (str ":")) with 1. lia.
Qed.

Lemma blen_json_row names r : names ≠ [] → length r = length names →
  blen (json_row names r) = total names + total (map cell_text r) + 6 * blen names + 1.
Proof.
  intros Hne Hl. unfold json_row. rewrite !blen_app, blen_intercalate.
  - rewrite total_fields by done. change (blen (str "{")) with 1. change (blen (str "}")) with 1.
    change (blen (str ",")) with 1. unfold blen at 2. rewrite length_zip_with_l by lia. unfold blen. lia.
  - destruct names, r; done.
Qed.

Lemma total_rows names rs : names ≠ [] → Forall (λ r, length r = length names) rs →
  total (map (json_row names) rs) = blen rs * (total names + 6 * blen names + 1) + row_total rs.
Proof.
  intros Hne. induction 1 as [|r rs Hr _ IH]; [done|]. cbn [map].
  rewrite total_cons, row_total_cons, blen_cons, IH, blen_json_row by done. lia.
Qed.

Lemma blen_json name res : result_ok res →
  blen (json name res) = blen (default [] name) + 6 + num_rows res * (total (fields res) + 6 * num_fields res + 2) +
    row_total (rows res) + (if decide (rows res = []) then 1 else 0).
Proof.
  intros [Hf Hr Hne Hrow _ _]. unfold json, quoted. rewrite !blen_app, Hf, Hr.
  change (blen quote) with 1. change (blen (str "{")) with 1. change (blen (str ":[")) with 2.
  change (blen (str "]}")) with 2. case_decide as Hd.
  - rewrite Hd. change (blen (intercalate _ _)) with 0. change (row_total []) with 0.
    change (blen (@nil (list (option (list byte))))) with 0. lia.
  - rewrite blen_intercalate by (by destruct (rows res)). rewrite total_rows by done.
    change (blen (str ",")) with 1. unfold blen at 4. rewrite length_map. fold (blen (rows res)). lia.
Qed.

Lemma result_length_spec name res :
  result_ok res → blen (json name res) < 2 ^ 31 - 1 →
  result_length name (num_rows res) (num_fields res)
    (num_rows res * total (fields res) + row_total (rows res)) =
  Ok (blen (json name res) - (if decide (rows res = []) then 1 else 0)).
Proof.
  intros Hok Hlt. rewrite (blen_json name res Hok) in *. destruct Hok as [Hf Hr Hne _ _ _].
  pose proof (total_nonneg (fields res)). pose proof (total_nonneg (map cell_text (concat (rows res)))) as Hrt.
  fold (row_total (rows res)) in Hrt. pose proof (blen_nonneg (rows res)). pose proof (blen_nonneg (fields res)).
  assert (0 ≤ blen (default [] name)) by apply blen_nonneg.
  unfold result_length.
  assert (match name with Some t => add_length (num_rows res * total (fields res) + row_total (rows res)) (blen t)
          | None => num_rows res * total (fields res) + row_total (rows res) end =
          num_rows res * total (fields res) + row_total (rows res) + blen (default [] name)) as ->.
  { destruct name as [t|]; cbn [default from_option id] in *; [|change (blen []) with 0; lia].
    apply add_length_small; [nia | lia | case_decide; nia]. }
  cbv zeta. match goal with |- context [if ?a <? ?b then _ else _] => destruct (Z.ltb_spec a b) as [|Hge] end.
  - f_equal. case_decide; lia.
  - exfalso. case_decide; lia.
Qed.

(** *** The name of the table *)

(** A piece of the query. *)
Definition piece (n : nat) (s : list byte) : Prop := no_nul s ∧ (length s ≤ n)%nat.

Lemma piece_cons n b s : piece n (b :: s) → piece n s ∧ b ≠ nul ∧ (S (length s) ≤ n)%nat.
Proof. intros [[Hb Hs]%not_elem_of_cons Hl]. simpl in Hl. repeat split; [done | lia | done | done]. Qed.

(** What follows a text in an array: nothing, or its terminator. *)
Definition ends (tail : list byte) : Prop := tail = [] ∨ ∃ z, tail = nul :: z.

Lemma skip_blanks_app n s tail : piece n s → ends tail → ∃ s', skip_blanks (s ++ tail) = s' ++ tail ∧ piece (length s) s' ∧ head s' ≠ Some Byte.x20.
Proof.
  intros Hp Ht. revert n Hp. induction s as [|b s IH]; intros n Hp.
  - exists []. split; [by destruct Ht as [->|[z ->]]|]. split; [split; [apply Hp | done] | done].
  - destruct (piece_cons n b s Hp) as (Hs & Hb & Hl). cbn [app skip_blanks]. case_decide as Eb.
    + destruct (IH n Hs) as (s' & E & [H1 H2] & H3). exists s'. split; [done|]. split; [|done]. split; [done | cbn; lia].
    + exists (b :: s). split; [done|]. split; [split; [apply Hp | done]|]. cbn. congruence.
Qed.
Lemma cut_token_app s tail : no_nul s → ends tail →
  (tail = [] ∧ cut_token (s ++ tail) = Ub OutOfBounds) ∨
  ∃ t r, cut_token (s ++ tail) = Ok (t, r ++ tail) ∧ no_nul t ∧ no_nul r ∧ (length t ≤ length s)%nat ∧
    (length r ≤ length s)%nat ∧ (s ≠ [] → length r < length s)%nat.
Proof.
  unfold no_nul. intros Hs Ht. induction s as [|b s IH].
  - destruct Ht as [->|[z ->]]; [by left|]. right. exists [], []. cbn. by split_and!.
  - apply not_elem_of_cons in Hs as [Hb Hs]. cbn [app cut_token]. case_decide; [right; exists [], s; cbn; split_and!; try done; [apply not_elem_of_nil | lia..]|].
    rewrite decide_False by done. destruct (IH Hs) as [[-> ->]|(t & r & -> & H1 & H2 & H3 & H4 & _)]; [by left|]. right. exists (b :: t), r. cbn [mbind outcome_bind fst snd length].
    rewrite not_elem_of_cons. split_and!; try done; lia.
Qed.
Lemma strtok_app s tail : no_nul s → ends tail →
  (tail = [] ∧ strtok (s ++ tail) = Ub OutOfBounds) ∨ strtok (s ++ tail) = Ok None ∨
  ∃ t r, strtok (s ++ tail) = Ok (Some (t, r ++ tail)) ∧ piece (length s) t ∧ no_nul r ∧ (length r < length s)%nat.
Proof.
  intros Hs Ht. destruct (skip_blanks_app (length s) s tail) as (s' & E & [Hn Hl] & _); [by split | done|]. unfold strtok. rewrite E.
  destruct s' as [|b s']; [destruct Ht as [->|[z ->]]; [by left | right; by left]|].
  assert (b ≠ nul) as Hb by (unfold no_nul in Hn; rewrite not_elem_of_cons in Hn; naive_solver). change ((b :: s') ++ tail) with (b :: (s' ++ tail)). cbn match. rewrite decide_False by done.
  change (b :: (s' ++ tail)) with ((b :: s') ++ tail). destruct (cut_token_app (b :: s') tail Hn Ht) as [[-> ->]|(t & r & -> & H1 & H2 & H3 & _ & H5)]; [by left|].
  right. right. exists t, r. split; [done|]. specialize (H5 ltac:(done)). split; [split; [done | lia]|]. split; [done | lia].
Qed.
Lemma find_from_app fuel tail : ends tail → ∀ s, no_nul s → (length s < fuel)%nat →
  (tail = [] ∧ find_from fuel (s ++ tail) = Ub OutOfBounds) ∨ ∃ o, find_from fuel (s ++ tail) = Ok o ∧ ∀ t, o = Some t → piece (length s) t.
Proof.
  intros Ht. induction fuel as [|fuel IH]; intros s Hs Hf; [lia|]. cbn [find_from].
  destruct (strtok_app s tail Hs Ht) as [[-> ->]|[->|(t & r & -> & Hp & Hr & Hlt)]]; [by left | right; by exists None|]. cbn [mbind outcome_bind].
  destruct (_ || _).
  - destruct (strtok_app r tail Hr Ht) as [[-> ->]|[->|(t' & r' & -> & [Hp1 Hp2] & _)]]; [by left | right; by exists None|]. right. cbn [mbind outcome_bind option_map fst]. exists (Some t').
    split; [done|]. intros x [= <-]. split; [done | lia].
  - destruct (IH r Hr ltac:(lia)) as [H|(o & E & Ho)]; [by left|]. right. exists o. split; [done|]. intros x Hx. destruct (Ho x Hx). split; [done | lia].
Qed.

Lemma drop_semicolon_piece n t : piece n t → piece n (drop_semicolon t).
Proof.
  unfold drop_semicolon, piece, no_nul. case_decide as Hd; [|done].
  destruct t as [|b t] using rev_ind; [done|]. clear IHt. rewrite removelast_last.
  rewrite not_elem_of_app, length_app. simpl. intros [[? ?] ?]. split; [done | lia].
Qed.

(** Only a query that fills the array may be read past its end. *)
Lemma table_name_spec SQL : no_nul SQL → blen SQL ≤ 200 →
  (blen SQL = 200 ∧ table_name SQL = Ub OutOfBounds) ∨ ∃ name, table_name SQL = Ok name ∧ ∀ t, name = Some t → piece (length SQL) t.
Proof.
  intros Hs Hlen. unfold table_name. unfold blen in Hlen.
  replace (replicate 200 nul) with ([] ++ replicate (length SQL) nul ++ replicate (200 - length SQL) nul).
  2: { cbn [app]. rewrite <- replicate_add. f_equal. lia. }
  rewrite mem_write_middle by (try done; by rewrite length_replicate). cbn [mbind outcome_bind app].
  assert (ends (replicate (200 - length SQL) nul)) as He by (destruct (200 - length SQL)%nat as [|k]; [by left | right; by exists (replicate k nul)]).
  destruct (find_from_app (S (length (SQL ++ replicate (200 - length SQL) nul))) _ He SQL Hs) as [[E ->]|(o & -> & Ho)]; [rewrite length_app; lia | left | right].
  - split; [|done]. apply (f_equal length) in E. rewrite length_replicate in E. cbn in E. unfold blen. lia.
  - exists (option_map drop_semicolon o). split; [done|]. intros t. destruct o as [u|]; [|done]. intros [= <-]. by apply drop_semicolon_piece, Ho.
Qed.

Lemma table_name_long SQL : no_nul SQL → 200 < blen SQL → table_name SQL = Ub OutOfBounds.
Proof. intros Hs Hlen. unfold table_name, mem_write. rewrite bool_decide_false; [done|]. rewrite blen_replicate. lia. Qed.

(** Rendering the result of a query whose table name was found. *)
Lemma rendering_overflows (db : MyDB) (SQL : list byte) (old : query_result) (res : mysql_res) name :
  table_name SQL = Ok name → (∀ t, name = Some t → piece 200 t) → result_ok res → blen (json None res) < 2 ^ 31 - 201 →
  ∃ ps len, copy_result res = Ok (copied res, len) ∧
     json_pieces name (Z.to_nat (num_rows res)) (Z.to_nat (num_fields res)) (copied res) = Ok ps ∧
     (∀ k, (1 ≤ k)%nat → strcats (replicate (length (json name res) + k) nul) ps =
        Ok (json name res ++ replicate k nul)) ∧
     result_length name (num_rows res) (num_fields res) len =
       Ok (blen (json name res) - (if decide (rows res = []) then 1 else 0)) ∧
     open_db db SQL old 0 (Some res) = Ub OutOfBounds.
Proof.
  intros Hname Hpiece Hres Hsize.
  assert (blen (default [] name) ≤ 200) as Hnl.
  { unfold blen in *. destruct name as [t|]; [|simpl; lia]. destruct (Hpiece t eq_refl). simpl. lia. }
  assert (blen (json name res) < 2 ^ 31 - 1) as Hjson.
  { rewrite (blen_json name res Hres). rewrite (blen_json None res Hres) in Hsize.
    change (blen (default [] None)) with 0 in Hsize. lia. }
  pose proof (result_length_spec name res Hres Hjson) as Hrl.
  destruct (json_pieces_spec name res Hres) as (ps & Eps & Hps & Econ); [by intros t [? _]%Hpiece|].
  pose proof (copy_result_spec res Hres) as Hcopy.
  assert (num_rows res * total (fields res) + row_total (rows res) < 2 ^ 31) as Hsum.
  { pose proof (blen_json name res Hres) as Hj. destruct Hres as [Hf Hr _ _ _ _].
    pose proof (blen_nonneg (fields res)). pose proof (blen_nonneg (rows res)).
    pose proof (blen_nonneg (default [] name)). case_decide; nia. }
  specialize (Hcopy Hsum).
  exists ps, (num_rows res * total (fields res) + row_total (rows res)).
  split; [done|]. split; [done|]. split; [|split; [done|]].
  - intros k Hk. pose proof (strcats_spec ps Hps [] (length (json name res) + k)) as E. cbn [app] in E.
    rewrite E by (try lia; apply not_elem_of_nil). rewrite Econ, decide_True by lia. do 3 f_equal. lia.
  - unfold open_db. rewrite Hname, Hcopy. cbn [negb Z.eqb mbind outcome_bind fst snd]. rewrite Hrl.
    cbn [mbind outcome_bind]. rewrite Eps. cbn [mbind outcome_bind].
    pose proof (blen_json name res Hres) as Hj. destruct Hres as [Hf Hr _ _ _ _].
    pose proof (total_nonneg (fields res)). pose proof (total_nonneg (map cell_text (concat (rows res)))) as Hrt.
    fold (row_total (rows res)) in Hrt. pose proof (blen_nonneg (rows res)). pose proof (blen_nonneg (fields res)).
    pose proof (blen_nonneg (default [] name)).
    match goal with |- context [replicate ?n nul] => pose proof (strcats_spec ps Hps [] n) as E end.
    cbn [app] in E. rewrite E; [|apply not_elem_of_nil | case_decide; nia].
    rewrite Econ, decide_False; [done|]. unfold blen. case_decide; lia.
Qed.
(** ** Properties *)

(** C33: Every query that has a result overflows a buffer.  A query of more than 200 bytes
    overflows the copy on the stack; one of 200 bytes is not terminated there, and is
    either read past its end or fails like the shorter ones.  For a shorter one, when the client library keeps
    its promises about the result set and the text stays below two gigabytes, the copy
    of the result is complete, the strings that are appended are exactly the JSON text
    of it, and they would fit every block with room for the text and its terminator;
    but the computed size leaves no room for the terminator (and, for a result without
    rows, not for the last bracket either), so the last [strcat] writes past the
    block. *)
Theorem query_overflows (db : MyDB) (SQL : list byte) (old : query_result) (res : mysql_res)
    (Hsql : no_nul SQL) (Hres : result_ok res) (Hsize : blen (json None res) < 2 ^ 31 - 201) :
  (200 ≤ blen SQL → open_db db SQL old 0 (Some res) = Ub OutOfBounds) ∧
  (blen SQL < 200 → ∃ name ps len, table_name SQL = Ok name ∧ copy_result res = Ok (copied res, len) ∧
     json_pieces name (Z.to_nat (num_rows res)) (Z.to_nat (num_fields res)) (copied res) = Ok ps ∧
     (∀ k, (1 ≤ k)%nat → strcats (replicate (length (json name res) + k) nul) ps =
        Ok (json name res ++ replicate k nul)) ∧
     result_length name (num_rows res) (num_fields res) len =
       Ok (blen (json name res) - (if decide (rows res = []) then 1 else 0)) ∧
     open_db db SQL old 0 (Some res) = Ub OutOfBounds).
Proof.
  split; intros Hlen.
  - destruct (decide (blen SQL = 200)) as [E|E]; [|unfold open_db; by rewrite table_name_long by (done || lia)].
    destruct (table_name_spec SQL Hsql ltac:(lia)) as [[_ E']|(name & E' & Hp)]; [unfold open_db; by rewrite E'|].
    destruct (rendering_overflows db SQL old res name E') as (ps & len & _ & _ & _ & _ & H); [|done..]. intros t Ht. destruct (Hp t Ht). split; [done|]. unfold blen in E. lia.
  - destruct (table_name_spec SQL Hsql ltac:(lia)) as [[E _]|(name & E' & Hp)]; [lia|]. exists name.
    destruct (rendering_overflows db SQL old res name E') as (ps & len & H); [|done..|exists ps, len; by split]. intros t Ht. destruct (Hp t Ht). split; [done|]. unfold blen in Hlen. lia.
Qed.
Definition demo_result : mysql_res :=
  mkRes 2 2 [str "id"; str "name"] [[Some (str "1"); Some (str "ann")]; [Some (str "2"); None]].

Lemma query_overflows_witness :
  json (Some (str "user")) demo_result =
    str "{" ++ quoted (str "user") ++ str ":[{" ++ quoted (str "id") ++ str ":" ++ quoted (str "1") ++ str "," ++
      quoted (str "name") ++ str ":" ++ quoted (str "ann") ++ str "},{" ++ quoted (str "id") ++ str ":" ++
      quoted (str "2") ++ str "," ++ quoted (str "name") ++ str ":" ++ quoted (str "NULL") ++ str "}]}" ∧
  table_name (str "select * from user;") = Ok (Some (str "user")) ∧
  ∀ db old, open_db db (str "select * from user;") old 0 (Some demo_result) = Ub OutOfBounds.
Proof.
  split; [reflexivity|]. split; [vm_compute; reflexivity|]. intros db old.
  destruct (query_overflows db (str "select * from user;") old demo_result) as [_ H].
  - apply (bool_decide_unpack _). reflexivity.
  - split; try reflexivity; try discriminate; try (apply (bool_decide_unpack _); reflexivity).
    all: repeat constructor; apply (bool_decide_unpack _); reflexivity.
  - vm_compute. reflexivity.
  - destruct H as (name & ps & len & _ & _ & _ & _ & _ & H); [vm_compute; reflexivity | exact H].
Defined.
