(* ===== verification/Coding.v ===== *)
(** * util/coding.h and util/coding.cc: fixed and variable-length integers

    A [Slice] is the list of its bytes.  The [Put] and [Encode] routines return the
    bytes they append; the pointer-based [Get] routines take the bytes between [p]
    and [limit] and return the value with the bytes left, [None] standing for the
    null pointer; the [Slice*]-based ones return the new value of [*input] in every
    case. *)
From S2P Require Import Prelude.

(** [port::kLittleEndian] on the platforms of the build. *)
Definition kLittleEndian : bool := true.

(** The portable branches, byte by byte. *)
Definition EncodeFixed32_portable (value : Z) : list byte :=
  [z2b (Z.land value 255); z2b (Z.land (Z.shiftr value 8) 255);
   z2b (Z.land (Z.shiftr value 16) 255); z2b (Z.land (Z.shiftr value 24) 255)].
Definition EncodeFixed64_portable (value : Z) : list byte :=
  [z2b (Z.land value 255); z2b (Z.land (Z.shiftr value 8) 255);
   z2b (Z.land (Z.shiftr value 16) 255); z2b (Z.land (Z.shiftr value 24) 255);
   z2b (Z.land (Z.shiftr value 32) 255); z2b (Z.land (Z.shiftr value 40) 255);
   z2b (Z.land (Z.shiftr value 48) 255); z2b (Z.land (Z.shiftr value 56) 255)].

(** On a little-endian machine the object representation is copied. *)
Definition EncodeFixed32 (value : Z) : list byte :=
  if kLittleEndian then le_bytes 4 value else EncodeFixed32_portable value.
Definition EncodeFixed64 (value : Z) : list byte :=
  if kLittleEndian then le_bytes 8 value else EncodeFixed64_portable value.

(** [DecodeFixed32(ptr)] reads four bytes without a bounds check: fewer are out of
    bounds. *)
Definition DecodeFixed32_portable (b0 b1 b2 b3 : byte) : Z :=
  Z.lor (Z.lor (Z.lor (b2z b0) (Z.shiftl (b2z b1) 8)) (Z.shiftl (b2z b2) 16))
        (Z.shiftl (b2z b3) 24).
Definition DecodeFixed32 (ptr : list byte) : outcome Z :=
  bs ← mem_read ptr 0 4;
  mret (if kLittleEndian then le_val bs else
          match bs with
          | [b0; b1; b2; b3] => DecodeFixed32_portable b0 b1 b2 b3
          | _ => 0
          end).
Definition DecodeFixed64 (ptr : list byte) : outcome Z :=
  if kLittleEndian then bs ← mem_read ptr 0 8; mret (le_val bs)
  else
    lo ← DecodeFixed32 ptr;
    hi ← DecodeFixed32 (drop 4 ptr);
    mret (Z.lor (u64 (Z.shiftl hi 32)) lo).

Definition PutFixed32 (dst : list byte) (value : Z) : list byte := dst ++ EncodeFixed32 value.
Definition PutFixed64 (dst : list byte) (value : Z) : list byte := dst ++ EncodeFixed64 value.

(** [EncodeVarint32(dst, v)]: the five cases; storing to an [unsigned char] keeps
    the low eight bits. *)
Definition EncodeVarint32 (v : Z) : list byte :=
  let B := 128 in
  if v <? Z.shiftl 1 7 then [z2b v]
  else if v <? Z.shiftl 1 14 then [z2b (Z.lor v B); z2b (Z.shiftr v 7)]
  else if v <? Z.shiftl 1 21 then
    [z2b (Z.lor v B); z2b (Z.lor (Z.shiftr v 7) B); z2b (Z.shiftr v 14)]
  else if v <? Z.shiftl 1 28 then
    [z2b (Z.lor v B); z2b (Z.lor (Z.shiftr v 7) B); z2b (Z.lor (Z.shiftr v 14) B);
     z2b (Z.shiftr v 21)]
  else
    [z2b (Z.lor v B); z2b (Z.lor (Z.shiftr v 7) B); z2b (Z.lor (Z.shiftr v 14) B);
     z2b (Z.lor (Z.shiftr v 21) B); z2b (Z.shiftr v 28)].
Definition PutVarint32 (dst : list byte) (v : Z) : list byte := dst ++ EncodeVarint32 v.

(** [EncodeVarint64]'s loop; [fuel] bounds its rounds, and ten are enough for a
    [uint64_t] ([encode_loop_fuel]). *)
Fixpoint encode_loop (fuel : nat) (v : Z) : list byte :=
  match fuel with
  | O => [z2b v]
  | S fuel =>
      if 128 <=? v then z2b (Z.lor (Z.land v 127) 128) :: encode_loop fuel (Z.shiftr v 7)
      else [z2b v]
  end.
Definition EncodeVarint64 (v : Z) : list byte := encode_loop 10 v.
Definition PutVarint64 (dst : list byte) (v : Z) : list byte := dst ++ EncodeVarint64 v.

(** The length goes through a [uint32_t]. *)
Definition PutLengthPrefixedSlice (dst value : list byte) : list byte :=
  PutVarint32 dst (u32 (blen value)) ++ value.

Fixpoint length_loop (fuel : nat) (v len : Z) : Z :=
  match fuel with
  | O => len
  | S fuel => if 128 <=? v then length_loop fuel (Z.shiftr v 7) (len + 1) else len
  end.
Definition VarintLength (v : Z) : Z := length_loop 10 v 1.

(** The decoding loop, at width [w] with shifts up to [max_shift]. *)
Fixpoint decode_loop (w max_shift : Z) (p : list byte) (shift result : Z)
    : option (Z * list byte) :=
  if shift <=? max_shift then
    match p with
    | [] => None
    | c :: p' =>
        let byte := b2z c in
        if Z.land byte 128 =? 0
        then Some (Z.lor result (Z.shiftl byte shift mod 2 ^ w), p')
        else decode_loop w max_shift p' (shift + 7)
               (Z.lor result (Z.shiftl (Z.land byte 127) shift mod 2 ^ w))
    end
  else None.

Definition GetVarint32PtrFallback (p : list byte) : option (Z * list byte) := decode_loop 32 28 p 0 0.
Definition GetVarint32Ptr (p : list byte) : option (Z * list byte) :=
  match p with
  | c :: p' => if Z.land (b2z c) 128 =? 0 then Some (b2z c, p') else GetVarint32PtrFallback p
  | [] => GetVarint32PtrFallback p
  end.
Definition GetVarint64Ptr (p : list byte) : option (Z * list byte) := decode_loop 64 63 p 0 0.

(** The [Slice*] versions: the value if any, and the new [*input]. *)
Definition GetVarint32 (input : list byte) : option Z * list byte :=
  match GetVarint32Ptr input with
  | None => (None, input)
  | Some (v, q) => (Some v, q)
  end.
Definition GetVarint64 (input : list byte) : option Z * list byte :=
  match GetVarint64Ptr input with
  | None => (None, input)
  | Some (v, q) => (Some v, q)
  end.

(** [GetLengthPrefixedSlice(p, limit, result)]: the slice and the bytes after it. *)
Definition GetLengthPrefixedSlicePtr (p : list byte) : option (list byte * list byte) :=
  match GetVarint32Ptr p with
  | None => None
  | Some (len, p') =>
      if blen p' <? len then None
      else Some (take (Z.to_nat len) p', drop (Z.to_nat len) p')
  end.
(** [GetLengthPrefixedSlice(input, result)]: a length that is too large leaves the
    input after the length. *)
Definition GetLengthPrefixedSlice (input : list byte) : option (list byte) * list byte :=
  match GetVarint32 input with
  | (None, input') => (None, input')
  | (Some len, input') =>
      if len <=? blen input'
      then (Some (take (Z.to_nat len) input'), drop (Z.to_nat len) input')
      else (None, input')
  end.

(** ** Lemmas *)

(** What the code relies on about the largest shift of a decoding loop: the
    multiples of seven below the width are the ones it reaches. *)
Definition shift_covers (w max_shift : Z) : Prop := ∀ k, 7 * k < w → 7 * k ≤ max_shift.
Lemma shift_covers_32 : shift_covers 32 28.
Proof. intros k ?. lia. Qed.
Lemma shift_covers_64 : shift_covers 64 63.
Proof. intros k ?. lia. Qed.
#[local] Hint Resolve shift_covers_32 shift_covers_64 : bytes.

Lemma land_127 v : Z.land v 127 = v mod 128.
Proof. apply (land_ones_mod v 7). lia. Qed.

Lemma land_255 v : Z.land v 255 = v mod 256.
Proof. apply (land_ones_mod v 8). lia. Qed.

Lemma lor_128 v : 0 ≤ v < 128 → Z.lor v 128 = v + 128.
Proof. intros. apply (lor_shiftl_add v 1 7); lia. Qed.

Lemma z2b_small_lor v : z2b (Z.lor v 128) = z2b (Z.lor (Z.land v 127) 128).
Proof.
  rewrite <- (z2b_mod (Z.lor v 128)), <- (z2b_mod (Z.lor (Z.land v 127) 128)). f_equal.
  rewrite <- !land_255. apply Z.bits_inj'. intros i _.
  rewrite !Z.land_spec, !Z.lor_spec, Z.land_spec.
  change 255 with (Z.lor 127 128). rewrite Z.lor_spec.
  by destruct (Z.testbit v i), (Z.testbit 127 i), (Z.testbit 128 i).
Qed.

Lemma b2z_continued v : b2z (z2b (Z.lor (Z.land v 127) 128)) = v mod 128 + 128.
Proof.
  pose proof (Z.mod_pos_bound v 128 eq_refl).
  rewrite b2z_z2b, land_127, lor_128, Z.mod_small; lia.
Qed.

Lemma shiftr_7 v : Z.shiftr v 7 = v / 128.
Proof. by rewrite Z.shiftr_div_pow2. Qed.

(** Whether the continuation bit of a byte is set. *)
Lemma continuation_bit z : 0 ≤ z < 256 → Z.land z 128 = if z <? 128 then 0 else 128.
Proof.
  intros Hz. assert (Z.land z 128 = Z.land z 255 - Z.land z 127) as ->.
  { change 255 with (Z.lor 127 128). rewrite Z.land_lor_distr_r.
    rewrite <- Z.add_nocarry_lor; [lia|].
    apply Z.bits_inj'. intros i _. rewrite !Z.land_spec, Z.bits_0.
    destruct (Z.testbit 127 i) eqn:E1, (Z.testbit 128 i) eqn:E2;
      rewrite ?andb_false_r; try done.
    assert (Z.testbit (Z.land 127 128) i = true) as E by (by rewrite Z.land_spec, E1, E2).
    by rewrite Z.bits_0 in E. }
  rewrite land_255, land_127. destruct (Z.ltb_spec z 128); dlia.
Qed.

Lemma encode_loop_fuel (f g : nat) v :
  0 ≤ v < 2 ^ (7 * (Z.of_nat f + 1)) → (f ≤ g)%nat → encode_loop g v = encode_loop f v.
Proof.
  revert g v. induction f as [|f IH]; intros [|g] v Hv Hg; try lia; try done; simpl.
  - change (2 ^ _) with 128 in Hv. destruct (Z.leb_spec 128 v); [lia | done].
  - destruct (128 <=? v) eqn:E; [|done]. f_equal. rewrite shiftr_7. apply IH; [|lia].
    replace (7 * (Z.of_nat (S f) + 1)) with (7 * (Z.of_nat f + 1) + 7) in Hv by lia.
    rewrite Z.pow_add_r in Hv by lia. change (2 ^ 7) with 128 in Hv. dlia.
Qed.

Lemma encode_loop_length fuel v : (1 ≤ length (encode_loop fuel v) ≤ S fuel)%nat.
Proof.
  revert v. induction fuel as [|f IH]; intros v; simpl; [lia|].
  destruct (128 <=? v); simpl; [specialize (IH (Z.shiftr v 7)) |]; lia.
Qed.

Lemma length_loop_spec fuel v len :
  length_loop fuel v len = len + blen (encode_loop fuel v) - 1.
Proof.
  revert v len. induction fuel as [|f IH]; intros v len; simpl; [unfold blen; simpl; lia|].
  destruct (128 <=? v); [rewrite IH |]; unfold blen; simpl; lia.
Qed.

Lemma EncodeVarint32_loop v : is_u32 v → EncodeVarint32 v = encode_loop 4 v.
Proof.
  intros Hv. unfold is_u32 in Hv. unfold EncodeVarint32. cbn [encode_loop].
  rewrite !Z.shiftr_shiftr by lia. cbn [Z.add Pos.add Pos.succ].
  change (Z.shiftl 1 7) with (2 ^ 7). change (Z.shiftl 1 14) with (2 ^ 14).
  change (Z.shiftl 1 21) with (2 ^ 21). change (Z.shiftl 1 28) with (2 ^ 28).
  rewrite !Z.shiftr_div_pow2 by lia. change (7 + 7) with 14.
  change (14 + 7) with 21. change (21 + 7) with 28.
  bool_cases; try (exfalso; dlia); by rewrite <- ?z2b_small_lor.
Qed.

(** The decoding loop inverts the encoding loop from any accumulated prefix. *)
Lemma decode_encode_loop w max_shift fuel k v acc rest :
  shift_covers w max_shift → 0 ≤ k → 0 ≤ acc < 2 ^ (7 * k) →
  0 ≤ v < 2 ^ (7 * (Z.of_nat fuel + 1)) → v * 2 ^ (7 * k) < 2 ^ w → 7 * k < w →
  decode_loop w max_shift (encode_loop fuel v ++ rest) (7 * k) acc =
  Some (acc + v * 2 ^ (7 * k), rest).
Proof.
  intros Hcov. revert k v acc. induction fuel as [|f IH]; intros k v acc Hk Hacc Hv Hw Hkw.
  all: pose proof (Hcov k Hkw) as Hs; apply Z.leb_le in Hs.
  all: assert (0 < 2 ^ (7 * k)) as Hpos by (apply Z.pow_pos_nonneg; lia).
  all: assert (0 ≤ v < 128 →
    decode_loop w max_shift ([z2b v] ++ rest) (7 * k) acc = Some (acc + v * 2 ^ (7 * k), rest)) as Hlast.
  1, 3: intros Hv'; simpl; rewrite Hs, b2z_z2b, (Z.mod_small v) by lia;
    rewrite continuation_bit by lia; replace (v <? 128) with true by (symmetry; lia); simpl;
    rewrite Z.mod_small by (rewrite Z.shiftl_mul_pow2 by lia; nia);
    by rewrite lor_shiftl_add by lia.
  - apply Hlast. simpl in Hv. lia.
  - simpl encode_loop. destruct (Z.leb_spec 128 v) as [Hge|Hlt]; [|apply Hlast; lia].
    assert (0 ≤ v mod 128 < 128) by dlia. assert (1 ≤ v / 128) by dlia.
    cbn [decode_loop app]. rewrite Hs, b2z_continued, continuation_bit by lia.
    replace (_ <? 128) with false by (symmetry; lia). cbn [Z.eqb].
    replace (Z.land (v mod 128 + 128) 127) with (v mod 128).
    2: { rewrite land_127. rewrite <- (Z.mul_1_l 128) at 3. rewrite Z_mod_plus_full.
         by rewrite Zmod_mod. }
    replace (7 * k + 7) with (7 * (k + 1)) by lia. rewrite shiftr_7.
    assert (2 ^ (7 * (k + 1)) = 128 * 2 ^ (7 * k)) as Hp.
    { replace (7 * (k + 1)) with (7 + 7 * k) by lia. by rewrite Z.pow_add_r by lia. }
    assert (v = 128 * (v / 128) + v mod 128) as Hdm by dlia.
    rewrite Z.mod_small by (rewrite Z.shiftl_mul_pow2 by lia; nia).
    rewrite lor_shiftl_add by lia.
    rewrite IH; rewrite ?Hp; [f_equal; f_equal; nia | lia | nia | | nia |].
    + replace (7 * (Z.of_nat (S f) + 1)) with (7 * (Z.of_nat f + 1) + 7) in Hv by lia.
      rewrite Z.pow_add_r in Hv by lia. change (2 ^ 7) with 128 in Hv. dlia.
    + apply (Z.pow_lt_mono_r_iff 2); [lia| |rewrite Hp; nia].
      destruct (Z.le_gt_cases 0 w); [done|lia].
Qed.

(** The inline fast path computes what the loop computes. *)
Lemma GetVarint32Ptr_loop p : GetVarint32Ptr p = decode_loop 32 28 p 0 0.
Proof.
  destruct p as [|c p]; [done|]. unfold GetVarint32Ptr, GetVarint32PtrFallback. simpl.
  destruct (_ =? 0) eqn:E; [|done]. rewrite Z.shiftl_0_r, Z.mod_small; [done|].
  byte_facts. lia.
Qed.

Lemma varint32_decode v rest : is_u32 v → GetVarint32Ptr (EncodeVarint32 v ++ rest) = Some (v, rest).
Proof.
  intros Hv. rewrite GetVarint32Ptr_loop, EncodeVarint32_loop by done. unfold is_u32 in Hv.
  pose proof (decode_encode_loop 32 28 4 0 v 0 rest) as H. change (7 * 0) with 0 in H.
  rewrite H; eauto with bytes; try lia. f_equal. f_equal. lia.
Qed.

Lemma varint64_decode v rest : is_u64 v → GetVarint64Ptr (EncodeVarint64 v ++ rest) = Some (v, rest).
Proof.
  intros Hv. unfold is_u64 in Hv. unfold GetVarint64Ptr, EncodeVarint64.
  pose proof (decode_encode_loop 64 63 10 0 v 0 rest) as H. change (7 * 0) with 0 in H.
  rewrite H; eauto with bytes; try lia. f_equal. f_equal. lia.
Qed.

Lemma GetVarint32_Put v rest : is_u32 v → GetVarint32 (EncodeVarint32 v ++ rest) = (Some v, rest).
Proof. intros. unfold GetVarint32. by rewrite varint32_decode. Qed.

Lemma GetVarint64_Put v rest : is_u64 v → GetVarint64 (EncodeVarint64 v ++ rest) = (Some v, rest).
Proof. intros. unfold GetVarint64. by rewrite varint64_decode. Qed.

Lemma EncodeVarint32_length v : is_u32 v → (1 ≤ length (EncodeVarint32 v) ≤ 5)%nat.
Proof. intros. rewrite EncodeVarint32_loop by done. apply encode_loop_length. Qed.

Lemma EncodeVarint64_length v : is_u64 v → (1 ≤ length (EncodeVarint64 v) ≤ 10)%nat.
Proof.
  intros Hv. unfold is_u64 in Hv. unfold EncodeVarint64.
  rewrite (encode_loop_fuel 9 10) by lia. apply encode_loop_length.
Qed.

Lemma VarintLength_spec v : VarintLength v = blen (EncodeVarint64 v).
Proof. unfold VarintLength. rewrite length_loop_spec. unfold EncodeVarint64. lia. Qed.

(** A 32-bit value has the same encoding at both widths. *)
Lemma varint_widths_agree v : is_u32 v → EncodeVarint64 v = EncodeVarint32 v.
Proof.
  intros Hv. rewrite EncodeVarint32_loop by done. unfold is_u32 in Hv.
  apply encode_loop_fuel; lia.
Qed.

(** What a decoding loop accepts, whatever the input: it consumes a prefix with at
    least one byte and as many as its shifts allow, and the value fits the width. *)
Lemma decode_loop_bounds w max_shift p shift acc v rest :
  0 ≤ w → 0 ≤ shift → 0 ≤ acc < 2 ^ w → decode_loop w max_shift p shift acc = Some (v, rest) →
  0 ≤ v < 2 ^ w ∧ ∃ pre, p = pre ++ rest ∧ 1 ≤ blen pre ∧ shift + 7 * (blen pre - 1) ≤ max_shift.
Proof.
  intros Hw. revert shift acc. induction p as [|c p IH]; intros shift acc Hs Hacc; simpl;
    destruct (Z.leb_spec shift max_shift) as [Hm|]; try done.
  assert (∀ x, 0 ≤ Z.lor acc (x mod 2 ^ w) < 2 ^ w) as Hlor.
  { intros x. assert (0 < 2 ^ w) as Hp by (apply Z.pow_pos_nonneg; lia).
    pose proof (Z.mod_pos_bound x _ Hp) as Hx. split; [apply Z.lor_nonneg; lia|].
    rewrite <- (bits_lt_pow2 (Z.lor acc (x mod 2 ^ w)) w); [by apply Z.mod_pos_bound | done |].
    intros i Hi. rewrite Z.lor_spec, !(testbit_small _ w) by done. done. }
  destruct (_ =? 0).
  - intros [= <- <-]. split; [apply Hlor|]. exists [c]. repeat split; unfold blen; simpl; lia.
  - intros (Hv & pre & -> & ? & ?)%IH; [|lia|apply Hlor]. split; [done|].
    exists (c :: pre). rewrite blen_cons. repeat split; lia.
Qed.

Lemma GetVarint32_bounds p v rest :
  GetVarint32 p = (Some v, rest) →
  is_u32 v ∧ ∃ pre, p = pre ++ rest ∧ (1 ≤ length pre ≤ 5)%nat.
Proof.
  unfold GetVarint32. rewrite GetVarint32Ptr_loop.
  destruct (decode_loop _ _ _ _ _) as [[x q]|] eqn:E; [|done]. intros [= <- <-].
  apply decode_loop_bounds in E as (Hv & pre & -> & ? & ?); try lia.
  split; [done|]. exists pre. unfold blen in *. split; [done | lia].
Qed.

Lemma GetVarint64_bounds p v rest :
  GetVarint64 p = (Some v, rest) →
  is_u64 v ∧ ∃ pre, p = pre ++ rest ∧ (1 ≤ length pre ≤ 10)%nat.
Proof.
  unfold GetVarint64, GetVarint64Ptr.
  destruct (decode_loop _ _ _ _ _) as [[x q]|] eqn:E; [|done]. intros [= <- <-].
  apply decode_loop_bounds in E as (Hv & pre & -> & ? & ?); try lia.
  split; [done|]. exists pre. unfold blen in *. split; [done | lia].
Qed.

Lemma GetLengthPrefixedSlice_Put value rest :
  blen value < 2 ^ 32 →
  GetLengthPrefixedSlice (PutLengthPrefixedSlice [] value ++ rest) = (Some value, rest).
Proof.
  intros Hv. pose proof (blen_nonneg value). pose proof (blen_nonneg rest).
  unfold GetLengthPrefixedSlice, PutLengthPrefixedSlice, PutVarint32. rewrite app_nil_l, <- app_assoc.
  rewrite u32_small, GetVarint32_Put by (unfold is_u32; lia).
  rewrite blen_app. replace (_ <=? _) with true by (symmetry; lia).
  unfold blen. rewrite Nat2Z.id. destruct (take_drop_app value rest) as [-> ->]. done.
Qed.

Lemma PutLengthPrefixedSlice_app dst value :
  PutLengthPrefixedSlice dst value = dst ++ PutLengthPrefixedSlice [] value.
Proof. unfold PutLengthPrefixedSlice, PutVarint32. by rewrite app_nil_l, app_assoc. Qed.

(** The pointer version returns the same slice. *)
Lemma GetLengthPrefixedSlicePtr_spec p :
  GetLengthPrefixedSlicePtr p =
  match GetLengthPrefixedSlice p with
  | (Some s, rest) => Some (s, rest)
  | (None, _) => None
  end.
Proof.
  unfold GetLengthPrefixedSlicePtr, GetLengthPrefixedSlice, GetVarint32.
  destruct (GetVarint32Ptr p) as [[len q]|]; [|done].
  destruct (Z.ltb_spec (blen q) len), (Z.leb_spec len (blen q)); try lia; done.
Qed.

Lemma GetLengthPrefixedSlice_shrinks p s rest :
  GetLengthPrefixedSlice p = (Some s, rest) → ∃ pre, p = pre ++ s ++ rest ∧ (1 ≤ length pre ≤ 5)%nat.
Proof.
  unfold GetLengthPrefixedSlice. destruct (GetVarint32 p) as [[len|] q] eqn:E; [|done].
  destruct (len <=? blen q); [|done]. intros [= <- <-].
  apply GetVarint32_bounds in E as (_ & pre & -> & ?). exists pre. by rewrite take_drop.
Qed.

Lemma DecodeFixed32_Encode value rest :
  is_u32 value → DecodeFixed32 (EncodeFixed32 value ++ rest) = Ok value.
Proof.
  intros Hv. unfold DecodeFixed32, EncodeFixed32. cbv [kLittleEndian].
  pose proof (mem_read_prefix (le_bytes 4 value) rest) as E. unfold blen in E.
  rewrite length_le_bytes in E. change (Z.of_nat 4) with 4 in E. rewrite E. cbn [mbind outcome_bind mret outcome_ret].
  rewrite le_val_le_bytes. f_equal. unfold is_u32 in Hv. apply Z.mod_small. simpl. lia.
Qed.

Lemma DecodeFixed64_Encode value rest :
  is_u64 value → DecodeFixed64 (EncodeFixed64 value ++ rest) = Ok value.
Proof.
  intros Hv. unfold DecodeFixed64, EncodeFixed64. cbv [kLittleEndian].
  pose proof (mem_read_prefix (le_bytes 8 value) rest) as E. unfold blen in E.
  rewrite length_le_bytes in E. change (Z.of_nat 8) with 8 in E. rewrite E. cbn [mbind outcome_bind mret outcome_ret].
  rewrite le_val_le_bytes. f_equal. unfold is_u64 in Hv. apply Z.mod_small. simpl. lia.
Qed.

Lemma length_EncodeFixed32 v : length (EncodeFixed32 v) = 4%nat.
Proof. done. Qed.
Lemma length_EncodeFixed64 v : length (EncodeFixed64 v) = 8%nat.
Proof. done. Qed.

Lemma foldl_PutFixed32 dst l : foldl PutFixed32 dst l = dst ++ concat (map EncodeFixed32 l).
Proof.
  revert dst. induction l as [|x l IH]; intros dst; simpl; [by rewrite app_nil_r|].
  rewrite IH. unfold PutFixed32. by rewrite <- app_assoc.
Qed.

(** Reading an entry of an array of fixed-width integers. *)
Lemma DecodeFixed32_array pre l rest i x :
  l !! i = Some x → is_u32 x →
  DecodeFixed32 (drop (Z.to_nat (blen pre + Z.of_nat i * 4)) (pre ++ concat (map EncodeFixed32 l) ++ rest)) = Ok x.
Proof.
  intros Hi Hx. replace (Z.to_nat (blen pre + Z.of_nat i * 4)) with (length pre + 4 * i)%nat
    by (unfold blen; lia).
  rewrite <- drop_drop, drop_app_length. revert i Hi. induction l as [|y l IH]; intros i Hi; [done|].
  destruct i as [|i]; simpl in Hi.
  - injection Hi as ->. change (drop (4 * 0) ?l) with l. simpl map. cbn [concat].
    rewrite <- app_assoc. by apply DecodeFixed32_Encode.
  - rewrite <- (IH i Hi). cbn [map concat]. rewrite <- app_assoc.
    replace (4 * S i)%nat with (length (EncodeFixed32 y) + 4 * i)%nat by (rewrite length_EncodeFixed32; lia).
    by rewrite <- drop_drop, drop_app_length.
Qed.

#[export] Hint Rewrite length_EncodeFixed32 length_EncodeFixed64 : bytes.
#[export] Hint Resolve EncodeVarint32_length EncodeVarint64_length : bytes.

(** ** Properties *)

(** Variable-length integers.  The unrolled [EncodeVarint32] and the loop of
    [EncodeVarint64] write the same bytes for a 32-bit value; whatever bytes follow,
    [GetVarint32] and [GetVarint64] return the value that was written and leave
    exactly those bytes; an encoding has at most five, respectively ten bytes (the
    sizes of the buffers of [PutVarint32] and [PutVarint64]), and [VarintLength]
    is its length. *)
Lemma varint_roundtrip (dst rest : list byte) (v32 v64 : Z)
    (H32 : is_u32 v32) (H64 : is_u64 v64) :
  EncodeVarint64 v32 = EncodeVarint32 v32 ∧
  (∃ e, PutVarint32 dst v32 = dst ++ e ∧ (1 ≤ length e ≤ 5)%nat ∧ VarintLength v32 = blen e ∧
        GetVarint32 (e ++ rest) = (Some v32, rest)) ∧
  (∃ e, PutVarint64 dst v64 = dst ++ e ∧ (1 ≤ length e ≤ 10)%nat ∧ VarintLength v64 = blen e ∧
        GetVarint64 (e ++ rest) = (Some v64, rest)).
Proof.
  split; [by apply varint_widths_agree|]. split.
  - exists (EncodeVarint32 v32). rewrite VarintLength_spec, varint_widths_agree by done.
    split_and!; [done | by apply EncodeVarint32_length .. | done | by apply GetVarint32_Put].
  - exists (EncodeVarint64 v64). rewrite VarintLength_spec.
    split_and!; [done | by apply EncodeVarint64_length .. | done | by apply GetVarint64_Put].
Qed.

(** What the decoders accept from arbitrary bytes.  A successful [GetVarint32]
    or [GetVarint64] consumes at least one and at most five, respectively ten,
    bytes and the value fits its width; a successful [GetLengthPrefixedSlice]
    returns a slice of its input and leaves what follows it; a slice of less than
    4 GiB written by [PutLengthPrefixedSlice] is read back whatever follows. *)
Lemma decoders_stay_in_input (input rest s : list byte) (v : Z) :
  (GetVarint32 input = (Some v, rest) →
     is_u32 v ∧ ∃ pre, input = pre ++ rest ∧ (1 ≤ length pre ≤ 5)%nat) ∧
  (GetVarint64 input = (Some v, rest) →
     is_u64 v ∧ ∃ pre, input = pre ++ rest ∧ (1 ≤ length pre ≤ 10)%nat) ∧
  (GetLengthPrefixedSlice input = (Some s, rest) →
     ∃ pre, input = pre ++ s ++ rest ∧ (1 ≤ length pre ≤ 5)%nat) ∧
  (blen s < 2 ^ 32 →
     GetLengthPrefixedSlice (PutLengthPrefixedSlice [] s ++ rest) = (Some s, rest)).
Proof.
  split; [apply GetVarint32_bounds|]. split; [apply GetVarint64_bounds|].
  split; [apply GetLengthPrefixedSlice_shrinks | apply GetLengthPrefixedSlice_Put].
Qed.

(** Fixed-width integers.  The memory copy of a little-endian machine and the
    byte-by-byte code of the portable branches write the same bytes and read the same
    value, and reading back what [PutFixed32] or [PutFixed64] appended gives the
    value. *)
Lemma fixed_roundtrip (dst rest : list byte) (v32 v64 : Z)
    (H32 : is_u32 v32) (H64 : is_u64 v64) :
  EncodeFixed32 v32 = EncodeFixed32_portable v32 ∧
  EncodeFixed64 v64 = EncodeFixed64_portable v64 ∧
  DecodeFixed32 (drop (length dst) (PutFixed32 dst v32) ++ rest) = Ok v32 ∧
  DecodeFixed64 (drop (length dst) (PutFixed64 dst v64) ++ rest) = Ok v64.
Proof.
  split_and!.
  - unfold EncodeFixed32, EncodeFixed32_portable. cbn [le_bytes kLittleEndian].
    rewrite !land_255, !z2b_mod, !Z.shiftr_div_pow2 by lia.
    rewrite !Z.div_div by lia. done.
  - unfold EncodeFixed64, EncodeFixed64_portable. cbn [le_bytes kLittleEndian].
    rewrite !land_255, !z2b_mod, !Z.shiftr_div_pow2 by lia.
    rewrite !Z.div_div by lia. done.
  - unfold PutFixed32. rewrite drop_app_length. by apply DecodeFixed32_Encode.
  - unfold PutFixed64. rewrite drop_app_length. by apply DecodeFixed64_Encode.
Qed.

