(* ===== verification/Interfaces.v ===== *)
(** * include/leveldb: the abstract classes the database is parameterised by

    [Comparator] and [FilterPolicy] are records of operations; the type classes state
    the contracts of comparator.h and filter_policy.h.  Clients are verified against
    the contracts, implementations discharge them. *)
From S2P Require Import Prelude.

(** ** Comparators *)

Record Comparator := mkComparator {
  Compare : list byte → list byte → Z;
  FindShortestSeparator : list byte → list byte → list byte;
  FindShortSuccessor : list byte → list byte
}.

(** The contract on the keys that satisfy [valid].  comparator.h: Compare is three-way,
    FindShortestSeparator changes [*start] to a short string in [start,limit) if
    [*start < limit], FindShortSuccessor changes [*key] to a short string that is
    not below it. *)
Class ComparatorLaws (valid : list byte → Prop) (c : Comparator) : Prop := {
  compare_refl a : valid a → Compare c a a = 0;
  compare_sgn a b : valid a → valid b → Z.sgn (Compare c b a) = - Z.sgn (Compare c a b);
  compare_trans a b d : valid a → valid b → valid d →
    Compare c a b ≤ 0 → Compare c b d ≤ 0 → Compare c a d ≤ 0;
  separator_between start limit : valid start → valid limit → Compare c start limit < 0 →
    let sep := FindShortestSeparator c start limit in
    valid sep ∧ Compare c start sep ≤ 0 ∧ Compare c sep limit < 0;
  separator_keeps start limit : valid start → valid limit → 0 ≤ Compare c start limit →
    FindShortestSeparator c start limit = start;
  successor_above key : valid key →
    let succ := FindShortSuccessor c key in valid succ ∧ Compare c key succ ≤ 0
}.

(** Every byte string is a key. *)
Definition any_key (k : list byte) : Prop := True.

(** ** Orders

    The part of the contract that the ordered structures use: a three-way comparison of
    values of any type. *)
Class OrderLaws {K} (valid : K → Prop) (ord : K → K → Z) : Prop := {
  order_sgn a b : valid a → valid b → Z.sgn (ord b a) = - Z.sgn (ord a b);
  order_trans a b d : valid a → valid b → valid d → ord a b ≤ 0 → ord b d ≤ 0 → ord a d ≤ 0
}.

Section order.
Context {K} (valid : K → Prop) (ord : K → K → Z) `{!OrderLaws valid ord}.

Lemma order_neg a b : valid a → valid b → ord a b < 0 ↔ 0 < ord b a.
Proof. intros Ha Hb. pose proof (order_sgn a b Ha Hb). lia. Qed.

Lemma order_zero a b : valid a → valid b → ord a b = 0 ↔ ord b a = 0.
Proof. intros Ha Hb. pose proof (order_sgn a b Ha Hb). lia. Qed.

Lemma order_lt_le a b d : valid a → valid b → valid d → ord a b < 0 → ord b d ≤ 0 → ord a d < 0.
Proof.
  intros Ha Hb Hd H1 H2. destruct (Z.lt_ge_cases (ord a d) 0) as [|H3]; [done|].
  assert (ord d a ≤ 0) as H4 by (pose proof (order_sgn a d Ha Hd); lia).
  pose proof (order_trans b d a Hb Hd Ha H2 H4). pose proof (order_sgn a b Ha Hb). lia.
Qed.

Lemma order_le_lt a b d : valid a → valid b → valid d → ord a b ≤ 0 → ord b d < 0 → ord a d < 0.
Proof.
  intros Ha Hb Hd H1 H2. destruct (Z.lt_ge_cases (ord a d) 0) as [|H3]; [done|].
  assert (ord d a ≤ 0) as H4 by (pose proof (order_sgn a d Ha Hd); lia).
  pose proof (order_trans d a b Hd Ha Hb H4 H1). pose proof (order_sgn b d Hb Hd). lia.
Qed.

Lemma order_eq_trans a b d : valid a → valid b → valid d → ord a b = 0 → ord b d = 0 → ord a d = 0.
Proof.
  intros Ha Hb Hd H1 H2.
  pose proof (order_sgn a b Ha Hb). pose proof (order_sgn b d Hb Hd). pose proof (order_sgn a d Ha Hd).
  assert (ord a d ≤ 0) by (apply (order_trans a b d); done || lia).
  assert (ord d a ≤ 0) by (apply (order_trans d b a); done || lia). lia.
Qed.

End order.

#[export] Instance comparator_order valid c : ComparatorLaws valid c → OrderLaws valid (Compare c).
Proof. intros [_ Hs Ht _ _ _]. by split. Qed.

Section comparator.
Context (valid : list byte → Prop) (c : Comparator) `{!ComparatorLaws valid c}.

Lemma compare_neg a b : valid a → valid b → Compare c a b < 0 ↔ 0 < Compare c b a.
Proof. apply (order_neg valid (Compare c)). Qed.

Lemma compare_zero a b : valid a → valid b → Compare c a b = 0 ↔ Compare c b a = 0.
Proof. apply (order_zero valid (Compare c)). Qed.

Lemma compare_lt_le a b d :
  valid a → valid b → valid d → Compare c a b < 0 → Compare c b d ≤ 0 → Compare c a d < 0.
Proof. apply (order_lt_le valid (Compare c)). Qed.

Lemma compare_le_lt a b d :
  valid a → valid b → valid d → Compare c a b ≤ 0 → Compare c b d < 0 → Compare c a d < 0.
Proof. apply (order_le_lt valid (Compare c)). Qed.

Lemma compare_eq_trans a b d :
  valid a → valid b → valid d → Compare c a b = 0 → Compare c b d = 0 → Compare c a d = 0.
Proof. apply (order_eq_trans valid (Compare c)). Qed.

End comparator.

(** ** Filter policies *)

Record FilterPolicy := mkFilterPolicy {
  CreateFilter : list (list byte) → list byte → outcome (list byte);
  KeyMayMatch : list byte → list byte → outcome bool
}.

(** filter_policy.h: CreateFilter appends a filter that summarises the keys to [*dst]
    and does not change what [*dst] holds, and KeyMayMatch must return true for a key
    of the list the filter was created from; it answers on every filter.  [size_ok]
    bounds the lists of keys the implementation takes. *)
Class FilterLaws (size_ok : list (list byte) → Prop) (p : FilterPolicy) : Prop := {
  filter_matches keys dst : size_ok keys →
    ∃ f, CreateFilter p keys dst = Ok (dst ++ f) ∧
      ∀ key, key ∈ keys → KeyMayMatch p key f = Ok true;
  filter_answers key f : blen f < 2 ^ 32 → ∃ b, KeyMayMatch p key f = Ok b
}.
