(* ===== verification/Bloom.v ===== *)
(** * util/hash.cc and util/bloom.cc: the hash function and the Bloom filter policy

    [Hash] on a byte string, the constructor of [BloomFilterPolicy], [CreateFilter]
    with its array of probes and [KeyMayMatch].  Every access to the filter array is
    checked. *)
From S2P Require Import Prelude.
From S2P Require Import Coding.
From S2P Require Import Interfaces.

(** ** Definitions *)

Module Hash.

Definition m : Z := 0xc6a4a793.
Definition r : Z := 24.

(** A round of the word loop. *)
Definition mix_word (h w : Z) : Z :=
  let h := u32 (h + w) in
  let h := u32 (h * m) in
  Z.lxor h (Z.shiftr h 16).
(** The end of the [switch], common to its three cases. *)
Definition mix_tail (h : Z) : Z :=
  let h := u32 (h * m) in
  Z.lxor h (Z.shiftr h r).

(** The word loop ([DecodeFixed32] of four bytes) and the fall-through [switch] on
    the bytes left. *)
Fixpoint hash_loop (h : Z) (data : list byte) : Z :=
  match data with
  | b0 :: b1 :: b2 :: b3 :: data => hash_loop (mix_word h (le_val [b0; b1; b2; b3])) data
  | [b0; b1; b2] =>
      let h := u32 (h + Z.shiftl (b2z b2) 16) in
      let h := u32 (h + Z.shiftl (b2z b1) 8) in
      mix_tail (u32 (h + b2z b0))
  | [b0; b1] =>
      let h := u32 (h + Z.shiftl (b2z b1) 8) in
      mix_tail (u32 (h + b2z b0))
  | [b0] => mix_tail (u32 (h + b2z b0))
  | [] => h
  end.

Definition Hash (data : list byte) (seed : Z) : Z :=
  hash_loop (u32 (Z.lxor seed (u64 (blen data * m)))) data.

End Hash.

Module Bloom.

Definition BloomHash (key : list byte) : Z := Hash.Hash key 0xbc9f1d34.

Record BloomFilterPolicy := mkPolicy { bits_per_key_ : Z; k_ : Z }.

(** The constructor.  The product of [bits_per_key] and the double [0.69] is truncated
    towards zero; it is [69 * bits_per_key / 100] up to rounding, which can only
    matter at multiples of 100, above the clamp.  Converting a negative value to
    [size_t] is undefined. *)
Definition new_policy (bits_per_key : Z) : outcome BloomFilterPolicy :=
  let k := Z.quot (bits_per_key * 69) 100 in
  if k <? 0 then Ub BadConversion
  else
    let k := if k <? 1 then 1 else k in
    let k := if 30 <? k then 30 else k in
    Ok (mkPolicy (u64 bits_per_key) k).

(** [array[bitpos/8] |= (1 << (bitpos % 8))]. *)
Definition set_bit (array : list byte) (bitpos : Z) : outcome (list byte) :=
  let i := Z.to_nat (bitpos / 8) in
  match array !! i with
  | Some c => Ok (<[i := z2b (Z.lor (b2z c) (Z.shiftl 1 (bitpos mod 8)))]> array)
  | None => Ub OutOfBounds
  end.
(** [(array[bitpos/8] & (1 << (bitpos % 8))) == 0], on a signed [char]. *)
Definition bit_is_zero (array : list byte) (bitpos : Z) : outcome bool :=
  match array !! Z.to_nat (bitpos / 8) with
  | Some c => Ok (Z.land (b2c c) (Z.shiftl 1 (bitpos mod 8)) =? 0)
  | None => Ub OutOfBounds
  end.

(** Rotation right by 17 bits. *)
Definition delta (h : Z) : Z := Z.lor (Z.shiftr h 17) (u32 (Z.shiftl h 15)).

(** The inner loop of [CreateFilter]. *)
Fixpoint set_probes (k : nat) (h d bits : Z) (array : list byte) : outcome (list byte) :=
  match k with
  | O => Ok array
  | S k =>
      array ← set_bit array (h mod bits);
      set_probes k (u32 (h + d)) d bits array
  end.

(** The outer loop. *)
Fixpoint add_keys (k : nat) (keys : list (list byte)) (bits : Z) (array : list byte)
    : outcome (list byte) :=
  match keys with
  | [] => Ok array
  | key :: keys =>
      let h := BloomHash key in
      array ← set_probes k h (delta h) bits array;
      add_keys k keys bits array
  end.

(** The size of the filter in bytes, without the byte that remembers [k_]. *)
Definition filter_bytes (p : BloomFilterPolicy) (n : Z) : Z :=
  let bits := u64 (n * bits_per_key_ p) in
  let bits := if bits <? 64 then 64 else bits in
  u64 (bits + 7) / 8.

Definition CreateFilter (p : BloomFilterPolicy) (keys : list (list byte)) (dst : list byte)
    : outcome (list byte) :=
  let bytes := filter_bytes p (blen keys) in
  let bits := u64 (bytes * 8) in
  let array := replicate (Z.to_nat bytes) (z2b 0) ++ [z2b (k_ p)] in
  array ← add_keys (Z.to_nat (k_ p)) keys bits array;
  Ok (dst ++ array).

(** The loop of [KeyMayMatch]. *)
Fixpoint test_probes (k : nat) (h d bits : Z) (array : list byte) : outcome bool :=
  match k with
  | O => Ok true
  | S k =>
      zero ← bit_is_zero array (h mod bits);
      if (zero : bool) then Ok false else test_probes k (u32 (h + d)) d bits array
  end.

Definition KeyMayMatch (key bloom_filter : list byte) : outcome bool :=
  let len := blen bloom_filter in
  if len <? 2 then Ok false
  else
    let bits := u64 ((len - 1) * 8) in
    match bloom_filter !! Z.to_nat (len - 1) with
    | None => Ub OutOfBounds
    | Some c =>
        let k := u64 (b2c c) in
        if 30 <? k then Ok true
        else let h := BloomHash key in test_probes (Z.to_nat k) h (delta h) bits bloom_filter
    end.

(** The policy as the abstract class. *)
Definition policy (p : BloomFilterPolicy) : FilterPolicy := mkFilterPolicy (CreateFilter p) KeyMayMatch.

End Bloom.

(** ** Lemmas *)

Section bloom.
Import Hash.
Import Bloom.

(** The values of hash_test.cc. *)
Example hash_test_values :
  Hash [] 0xbc9f1d34 = 0xbc9f1d34 ∧ Hash (map z2b [0x62]) 0xbc9f1d34 = 0xef1345c4 ∧
  Hash (map z2b [0xc3; 0x97]) 0xbc9f1d34 = 0x5b663814 ∧
  Hash (map z2b [0xe2; 0x99; 0xa5]) 0xbc9f1d34 = 0x323c078f ∧
  Hash (map z2b [0xe1; 0x80; 0xb9; 0x32]) 0xbc9f1d34 = 0xed21633a ∧
  Hash (map z2b [1; 0xc0; 0; 0; 0; 0; 0; 0; 0; 0; 0; 0; 0; 0; 0; 0; 0x14; 0; 0; 0; 0; 0; 4; 0;
                 0; 0; 0; 0x14; 0; 0; 0; 0x18; 0x28; 0; 0; 0; 0; 0; 0; 0; 2; 0; 0; 0; 0; 0; 0; 0])
       0x12345678 = 0xf333dabb.
Proof. vm_compute. repeat split. Qed.

(** A bit position is set in an array. *)
Definition bit_at (array : list byte) (bitpos : Z) : bool :=
  match array !! Z.to_nat (bitpos / 8) with
  | Some c => Z.testbit (b2z c) (bitpos mod 8)
  | None => false
  end.

Lemma land_shiftl_1 a i : 0 ≤ i → (Z.land a (Z.shiftl 1 i) =? 0) = negb (Z.testbit a i).
Proof.
  intros Hi. destruct (Z.testbit a i) eqn:E; simpl.
  - apply Z.eqb_neq. intros H0. apply (f_equal (λ z, Z.testbit z i)) in H0.
    rewrite Z.land_spec, Z.bits_0, E, Z.shiftl_spec, Z.sub_diag in H0 by done. done.
  - apply Z.eqb_eq, Z.bits_inj'. intros j Hj. rewrite Z.land_spec, Z.bits_0.
    destruct (decide (j = i)) as [->|Hne]; [by rewrite E|].
    rewrite Z.shiftl_1_l, Z.pow2_bits_false by done. apply andb_false_r.
Qed.

(** The low bits of a signed [char] are those of the byte. *)
Lemma testbit_b2c c i : 0 ≤ i < 8 → Z.testbit (b2c c) i = Z.testbit (b2z c) i.
Proof.
  intros Hi. unfold b2c, sint. change (2 ^ (8 - 1)) with 128. pose proof (b2z_range c).
  rewrite <- (Z.mod_pow2_bits_low _ 8), <- (Z.mod_pow2_bits_low (b2z c) 8) by lia. f_equal.
  change (2 ^ 8) with 256. rewrite Zminus_mod_idemp_l. f_equal. lia.
Qed.

Lemma bit_is_zero_spec array bitpos :
  0 ≤ bitpos < 8 * blen array → bit_is_zero array bitpos = Ok (negb (bit_at array bitpos)).
Proof.
  intros Hb. unfold bit_is_zero, bit_at.
  destruct (lookup_lt_is_Some_2 array (Z.to_nat (bitpos / 8))) as [c ->];
    [unfold blen in *; dlia|].
  assert (0 ≤ bitpos mod 8 < 8) by dlia. by rewrite land_shiftl_1, testbit_b2c by lia.
Qed.

(** Setting a bit sets that bit, keeps the others and the length. *)
Lemma set_bit_spec array bitpos :
  0 ≤ bitpos < 8 * blen array →
  ∃ array', set_bit array bitpos = Ok array' ∧ length array' = length array ∧
    bit_at array' bitpos = true ∧
    (∀ p, bit_at array p = true → bit_at array' p = true) ∧
    (∀ i, Z.of_nat i ≠ bitpos / 8 → array' !! i = array !! i).
Proof.
  intros Hb. unfold set_bit.
  assert (Z.to_nat (bitpos / 8) < length array)%nat as Hlt by (unfold blen in *; dlia).
  destruct (lookup_lt_is_Some_2 array _ Hlt) as [c Hc]. rewrite Hc.
  assert (0 ≤ bitpos mod 8 < 8) as Hm by dlia. pose proof (b2z_range c).
  assert (∀ p, Z.testbit (b2z (z2b (Z.lor (b2z c) (Z.shiftl 1 (bitpos mod 8))))) (p mod 8) =
               Z.testbit (b2z c) (p mod 8) || (p mod 8 =? bitpos mod 8)) as Hbits.
  { intros p. assert (0 ≤ p mod 8 < 8) by dlia. rewrite b2z_z2b.
    change 256 with (2 ^ 8). rewrite Z.mod_pow2_bits_low, Z.lor_spec by lia. f_equal.
    rewrite Z.shiftl_1_l, Z.pow2_bits_eqb by lia. apply Z.eqb_sym. }
  eexists. split; [done|]. rewrite length_insert. split; [done|].
  split; [|split].
  - unfold bit_at. rewrite list_lookup_insert_eq, Hbits, Z.eqb_refl by done. apply orb_true_r.
  - intros p. unfold bit_at.
    destruct (decide (Z.to_nat (p / 8) = Z.to_nat (bitpos / 8))) as [E|E].
    + rewrite E, list_lookup_insert_eq, Hc, Hbits by done. by intros ->.
    + by rewrite list_lookup_insert_ne by done.
  - intros i Hi. apply list_lookup_insert_ne. dlia.
Qed.

(** The probes of a key. *)
Fixpoint probes (k : nat) (h d bits : Z) : list Z :=
  match k with O => [] | S k => h mod bits :: probes k (u32 (h + d)) d bits end.

Definition all_set (array : list byte) (ps : list Z) : Prop := Forall (λ p, bit_at array p = true) ps.

(** [array'] extends [array]: the same size and last byte, and no bit is cleared. *)
Definition extends (bits : Z) (array array' : list byte) : Prop :=
  length array' = length array ∧
  (∀ p, bit_at array p = true → bit_at array' p = true) ∧
  (∀ i, bits ≤ 8 * Z.of_nat i → array' !! i = array !! i).

Lemma extends_refl bits array : extends bits array array.
Proof. done. Qed.
Lemma extends_trans bits a b c : extends bits a b → extends bits b c → extends bits a c.
Proof.
  intros (?&?&E1) (?&?&E2). split_and!; [congruence | auto | intros; by rewrite E2, E1].
Qed.
Lemma all_set_extends bits a b ps : extends bits a b → all_set a ps → all_set b ps.
Proof. intros (_&He&_) Ha. eapply Forall_impl; [exact Ha|]. intros. by apply He. Qed.

Lemma set_probes_spec k h d bits array :
  0 < bits ≤ 8 * blen array →
  ∃ array', set_probes k h d bits array = Ok array' ∧ extends bits array array' ∧
    all_set array' (probes k h d bits).
Proof.
  intros Hb. revert h array Hb. induction k as [|k IH]; intros h array Hb; simpl.
  { exists array. split_and!; [done | apply extends_refl | constructor]. }
  pose proof (Z.mod_pos_bound h bits ltac:(lia)).
  destruct (set_bit_spec array (h mod bits)) as (a1 & -> & Hlen & Hset & Hkeep & Hrest); [lia|].
  cbn [mbind outcome_bind].
  destruct (IH (u32 (h + d)) a1) as (a2 & -> & Hext & Hall); [unfold blen in *; lia|].
  exists a2. split; [done|]. split.
  - eapply extends_trans; [|exact Hext]. split_and!; [done | done |].
    intros i Hi. apply Hrest. intros E. dlia.
  - constructor; [|done]. apply Hext, Hset.
Qed.

Lemma add_keys_spec k keys bits array :
  0 < bits ≤ 8 * blen array →
  ∃ array', add_keys k keys bits array = Ok array' ∧ extends bits array array' ∧
    ∀ key, key ∈ keys → all_set array' (probes k (BloomHash key) (delta (BloomHash key)) bits).
Proof.
  revert array. induction keys as [|key keys IH]; intros array Hb; simpl.
  { exists array. split_and!; [done | apply extends_refl | by intros key ?%not_elem_of_nil]. }
  destruct (set_probes_spec k (BloomHash key) (delta (BloomHash key)) bits array Hb)
    as (a1 & -> & He1 & Hall1). cbn [mbind outcome_bind].
  destruct (IH a1) as (a2 & -> & He2 & Hall2); [unfold blen in *; rewrite (proj1 He1); lia|].
  exists a2. split; [done|]. split; [by eapply extends_trans|].
  intros key' [->|Hin]%elem_of_cons; [by eapply all_set_extends | by apply Hall2].
Qed.

(** The test loop stays inside the array and answers whether all probes are set. *)
Lemma test_probes_spec k h d bits array :
  0 < bits ≤ 8 * blen array →
  ∃ b, test_probes k h d bits array = Ok b ∧ (all_set array (probes k h d bits) → b = true).
Proof.
  intros Hb. revert h. induction k as [|k IH]; intros h; simpl; [by exists true|].
  pose proof (Z.mod_pos_bound h bits ltac:(lia)). rewrite bit_is_zero_spec by lia.
  cbn [mbind outcome_bind]. destruct (bit_at array (h mod bits)) eqn:E; simpl.
  - destruct (IH (u32 (h + d))) as (b & -> & Hall). exists b. split; [done|].
    by intros [_ ?]%Forall_cons_1; apply Hall.
  - exists false. split; [done|]. intros [? _]%Forall_cons_1. congruence.
Qed.

Lemma b2c_small c : b2z c < 128 → b2c c = b2z c.
Proof. intros. pose proof (b2z_range c). unfold b2c, sint. simpl. rewrite Z.mod_small; lia. Qed.

Lemma KeyMayMatch_total key filter :
  blen filter < 2 ^ 60 → ∃ b, KeyMayMatch key filter = Ok b.
Proof.
  intros Hlen. unfold KeyMayMatch. pose proof (blen_nonneg filter).
  destruct (Z.ltb_spec (blen filter) 2); [by exists false|].
  rewrite u64_small by (unfold is_u64; lia).
  destruct (lookup_lt_is_Some_2 filter (Z.to_nat (blen filter - 1))) as [c ->]; [unfold blen in *; lia|].
  destruct (30 <? _); [by exists true|].
  destruct (test_probes_spec (Z.to_nat (u64 (b2c c))) (BloomHash key) (delta (BloomHash key))
    ((blen filter - 1) * 8) filter) as (b & -> & _); [lia | by exists b].
Qed.

Lemma new_policy_k bits_per_key p :
  new_policy bits_per_key = Ok p → 1 ≤ k_ p ≤ 30 ∧ bits_per_key_ p = u64 bits_per_key.
Proof.
  unfold new_policy. destruct (_ <? 0); [done|]. intros [= <-]. simpl. split; [|done].
  bool_cases.
Qed.

Lemma filter_bytes_range p n :
  0 ≤ n * bits_per_key_ p < 2 ^ 63 → 8 ≤ filter_bytes p n ∧ filter_bytes p n * 8 < 2 ^ 64.
Proof.
  intros Hn. unfold filter_bytes. rewrite (u64_small (n * _)) by (unfold is_u64; lia).
  destruct (Z.ltb_spec (n * bits_per_key_ p) 64);
    (rewrite u64_small by (unfold is_u64; lia)); dlia.
Qed.

Lemma CreateFilter_matches p keys dst :
  1 ≤ k_ p ≤ 30 → 0 ≤ blen keys * bits_per_key_ p < 2 ^ 63 →
  ∃ f, CreateFilter p keys dst = Ok (dst ++ f) ∧ blen f = filter_bytes p (blen keys) + 1 ∧
    ∀ key, key ∈ keys → KeyMayMatch key f = Ok true.
Proof.
  intros Hk Hsize.
  destruct (filter_bytes_range p (blen keys) Hsize) as [Hge Hlt]. unfold CreateFilter. cbv zeta.
  revert Hge Hlt. generalize (filter_bytes p (blen keys)) as bytes. intros bytes Hge Hlt.
  rewrite u64_small by (unfold is_u64; lia).
  set (array := replicate (Z.to_nat bytes) (z2b 0) ++ [z2b (k_ p)]).
  assert (blen array = bytes + 1) as Hblen.
  { unfold array. rewrite blen_app, blen_replicate. unfold blen. simpl. lia. }
  destruct (add_keys_spec (Z.to_nat (k_ p)) keys (bytes * 8) array) as (f & -> & (Hlen & _ & Hlast) & Hall);
    [lia|].
  exists f. split; [done|].
  assert (blen f = bytes + 1) as Hf by (unfold blen in *; congruence). split; [done|].
  intros key Hkey. unfold KeyMayMatch. rewrite Hf. replace (bytes + 1 <? 2) with false by (symmetry; lia).
  replace (bytes + 1 - 1) with bytes by lia. rewrite u64_small by (unfold is_u64; lia).
  rewrite Hlast by lia. unfold array.
  rewrite lookup_app_r, length_replicate, Nat.sub_diag by (rewrite length_replicate; lia). simpl.
  rewrite b2c_small, b2z_z2b, (Z.mod_small (k_ p)) by (rewrite ?b2z_z2b, ?Z.mod_small; lia).
  rewrite u64_small by (unfold is_u64; lia). replace (30 <? k_ p) with false by (symmetry; lia).
  destruct (test_probes_spec (Z.to_nat (k_ p)) (BloomHash key) (delta (BloomHash key)) (bytes * 8) f)
    as (b & -> & Hb); [lia|]. f_equal. by apply Hb, Hall.
Qed.

(** The policy keeps the contract of filter_policy.h. *)
#[export] Instance bloom_laws bits_per_key p :
  new_policy bits_per_key = Ok p →
  FilterLaws (λ keys, 0 ≤ blen keys * bits_per_key_ p < 2 ^ 63) (policy p).
Proof.
  intros [Hk _]%new_policy_k. split; [|intros key f Hf; apply KeyMayMatch_total; lia]. intros keys dst Hs.
  destruct (CreateFilter_matches p keys dst Hk Hs) as (f & E & _ & Hall). by exists f.
Qed.

(** ** Properties *)

(** C35: The Bloom filter has no false negatives.  For every policy the constructor
    accepts and every set of keys of reasonable size, [CreateFilter] writes within the
    array it allocated and appends a filter for which [KeyMayMatch] answers true on
    every key of the set; and on any filter at all, well formed or not,
    [KeyMayMatch] reads within the filter and returns. *)
Theorem bloom_no_false_negatives (bits_per_key : Z) (p : BloomFilterPolicy)
    (keys : list (list byte)) (dst key any : list byte)
    (Hp : new_policy bits_per_key = Ok p)
    (Hsize : 0 ≤ blen keys * bits_per_key_ p < 2 ^ 63)
    (Hkey : key ∈ keys) (Hany : blen any < 2 ^ 60) :
  (∃ f, CreateFilter p keys dst = Ok (dst ++ f) ∧
     blen f = filter_bytes p (blen keys) + 1 ∧ KeyMayMatch key f = Ok true) ∧
  (∃ b, KeyMayMatch key any = Ok b).
Proof.
  split; [|by apply KeyMayMatch_total]. apply new_policy_k in Hp as [Hk _].
  destruct (CreateFilter_matches p keys dst Hk Hsize) as (f & E & Hf & Hall).
  exists f. split_and!; [done | done | by apply Hall].
Qed.

Lemma bloom_no_false_negatives_witness :
  (∃ f, CreateFilter (mkPolicy 10 6) [[z2b 1]; [z2b 2; z2b 3]] [z2b 9] = Ok ([z2b 9] ++ f) ∧
     blen f = filter_bytes (mkPolicy 10 6) (blen [[z2b 1]; [z2b 2; z2b 3]]) + 1 ∧
     KeyMayMatch [z2b 1] f = Ok true) ∧
  (∃ b, KeyMayMatch [z2b 1] [z2b 255; z2b 255; z2b 30] = Ok b).
Proof.
  apply (bloom_no_false_negatives 10 (mkPolicy 10 6) [[z2b 1]; [z2b 2; z2b 3]] [z2b 9] [z2b 1]
    [z2b 255; z2b 255; z2b 30]); [reflexivity | vm_compute; split; done | by left | reflexivity].
Defined.

End bloom.
