(* ===== verification/Comparator.v ===== *)
(** * util/comparator.cc and Slice::compare: the byte-wise comparator

    The three-way comparison of slices and the two shortening operations used for the
    keys of index blocks; the comparator discharges the contract of
    [Interfaces.ComparatorLaws]. *)
From S2P Require Import Prelude.
From S2P Require Import Interfaces.

(** ** Definitions *)

(** The sign of [memcmp(a, b, n)], which compares unsigned bytes. *)
Fixpoint memcmp (a b : list byte) (n : nat) : Z :=
  match n, a, b with
  | S n, x :: a, y :: b =>
      if b2z x <? b2z y then -1 else if b2z y <? b2z x then 1 else memcmp a b n
  | _, _, _ => 0
  end.

(** [a.compare(b)]. *)
Definition slice_compare (a b : list byte) : Z :=
  let min_len := if blen a <? blen b then length a else length b in
  let r := memcmp a b min_len in
  if r =? 0 then
    if blen a <? blen b then -1 else if blen b <? blen a then 1 else r
  else r.

(** [a.starts_with(x)] and the equality of slices. *)
Definition starts_with (a x : list byte) : bool :=
  (blen x <=? blen a) && (memcmp a x (length x) =? 0).
Definition slice_eq (x y : list byte) : bool :=
  (blen x =? blen y) && (memcmp x y (length x) =? 0).

Module Bytewise.

(** The loop that measures the common prefix. *)
Fixpoint diff_index (start limit : list byte) : nat :=
  match start, limit with
  | x :: start, y :: limit => if decide (x = y) then S (diff_index start limit) else O
  | _, _ => O
  end.

Definition FindShortestSeparator (start limit : list byte) : list byte :=
  let min_length := Nat.min (length start) (length limit) in
  let d := diff_index start limit in
  if (min_length <=? d)%nat then start
  else
    match start !! d, limit !! d with
    | Some s, Some l =>
        let diff_byte := b2z s in
        if (diff_byte <? 0xff) && (diff_byte + 1 <? b2z l)
        then take (d + 1) (<[d := z2b (diff_byte + 1)]> start)
        else start
    | _, _ => start
    end.

(** The loop of [FindShortSuccessor] from position [i] on. *)
Fixpoint successor_loop (n i : nat) (key : list byte) : list byte :=
  match n with
  | O => key
  | S n =>
      match key !! i with
      | Some c =>
          if negb (b2z c =? 0xff) then take (i + 1) (<[i := z2b (b2z c + 1)]> key)
          else successor_loop n (S i) key
      | None => key
      end
  end.
Definition FindShortSuccessor (key : list byte) : list byte := successor_loop (length key) 0 key.

End Bytewise.

Definition BytewiseComparator : Comparator :=
  mkComparator slice_compare Bytewise.FindShortestSeparator Bytewise.FindShortSuccessor.

(** ** Lemmas *)

(** *** The comparison *)

Lemma slice_compare_nil_nil : slice_compare [] [] = 0.
Proof. done. Qed.

Lemma slice_compare_nil_cons y b : slice_compare [] (y :: b) = -1.
Proof. unfold slice_compare, blen. simpl. destruct (Z.ltb_spec 0 (Z.of_nat (S (length b)))); [done|lia]. Qed.

Lemma slice_compare_cons_nil x a : slice_compare (x :: a) [] = 1.
Proof. unfold slice_compare, blen. simpl length. bool_cases. done. Qed.

Lemma slice_compare_cons x a y b :
  slice_compare (x :: a) (y :: b) =
  if b2z x <? b2z y then -1 else if b2z y <? b2z x then 1 else slice_compare a b.
Proof.
  unfold slice_compare, blen. simpl length.
  destruct (Z.ltb_spec (Z.of_nat (S (length a))) (Z.of_nat (S (length b))));
  destruct (Z.ltb_spec (Z.of_nat (length a)) (Z.of_nat (length b))); try lia; simpl memcmp;
  destruct (b2z x <? b2z y), (b2z y <? b2z x); try done;
  destruct (Z.ltb_spec (Z.of_nat (S (length b))) (Z.of_nat (S (length a))));
  destruct (Z.ltb_spec (Z.of_nat (length b)) (Z.of_nat (length a))); try lia; done.
Qed.

#[export] Hint Rewrite slice_compare_nil_nil slice_compare_nil_cons slice_compare_cons_nil
  slice_compare_cons : slice.

Lemma slice_compare_refl a : slice_compare a a = 0.
Proof. induction a; [done|]. rewrite slice_compare_cons, Z.ltb_irrefl. done. Qed.

Lemma slice_compare_range a b : -1 ≤ slice_compare a b ≤ 1.
Proof.
  revert b. induction a as [|x a IH]; intros [|y b]; autorewrite with slice; try lia.
  specialize (IH b). destruct (b2z x <? b2z y), (b2z y <? b2z x); lia.
Qed.

Lemma slice_compare_opp a b : slice_compare b a = - slice_compare a b.
Proof.
  revert b. induction a as [|x a IH]; intros [|y b]; autorewrite with slice; try lia.
  rewrite IH. destruct (Z.ltb_spec (b2z x) (b2z y)), (Z.ltb_spec (b2z y) (b2z x)); lia.
Qed.

Lemma slice_compare_eq a b : slice_compare a b = 0 ↔ a = b.
Proof.
  split; [|intros ->; apply slice_compare_refl].
  revert b. induction a as [|x a IH]; intros [|y b]; autorewrite with slice; try done.
  destruct (Z.ltb_spec (b2z x) (b2z y)), (Z.ltb_spec (b2z y) (b2z x)); try done.
  intros ?%IH. f_equal; [apply (inj b2z); lia | done].
Qed.

Lemma slice_compare_trans a b d :
  slice_compare a b ≤ 0 → slice_compare b d ≤ 0 → slice_compare a d ≤ 0.
Proof.
  revert b d. induction a as [|x a IH]; intros [|y b] [|z d]; autorewrite with slice; try lia.
  specialize (IH b d).
  destruct (Z.ltb_spec (b2z x) (b2z y)), (Z.ltb_spec (b2z y) (b2z x)),
    (Z.ltb_spec (b2z y) (b2z z)), (Z.ltb_spec (b2z z) (b2z y)),
    (Z.ltb_spec (b2z x) (b2z z)), (Z.ltb_spec (b2z z) (b2z x)); lia.
Qed.

Lemma slice_compare_app p a b : slice_compare (p ++ a) (p ++ b) = slice_compare a b.
Proof. induction p as [|x p IH]; [done|]. simpl. by rewrite slice_compare_cons, Z.ltb_irrefl. Qed.

(** Two slices compare below exactly when one is a proper prefix of the other or the
    first difference is an increase. *)
Lemma slice_compare_lt p x a y b :
  b2z x < b2z y → slice_compare (p ++ x :: a) (p ++ y :: b) < 0.
Proof.
  intros. rewrite slice_compare_app, slice_compare_cons.
  destruct (Z.ltb_spec (b2z x) (b2z y)); lia.
Qed.

Lemma slice_eq_spec x y : slice_eq x y = true ↔ x = y.
Proof.
  unfold slice_eq. rewrite andb_true_iff, !Z.eqb_eq. rewrite <- slice_compare_eq.
  unfold slice_compare, blen. split.
  - intros [Hl Hm]. destruct (Z.ltb_spec (Z.of_nat (length x)) (Z.of_nat (length y))); [lia|].
    replace (length y) with (length x) by lia. rewrite Hm. simpl.
    destruct (Z.ltb_spec (Z.of_nat (length x)) (Z.of_nat (length x))); lia.
  - destruct (Z.ltb_spec (Z.of_nat (length x)) (Z.of_nat (length y))),
      (Z.ltb_spec (Z.of_nat (length y)) (Z.of_nat (length x))); try lia;
    destruct (Z.eqb_spec (memcmp x y (length x)) 0);
    destruct (Z.eqb_spec (memcmp x y (length y)) 0); try lia.
    all: replace (length y) with (length x) in * by lia; intros; lia.
Qed.

Lemma starts_with_app x rest : starts_with (x ++ rest) x = true.
Proof.
  unfold starts_with. rewrite blen_app. pose proof (blen_nonneg rest).
  destruct (Z.leb_spec (blen x) (blen x + blen rest)); [simpl|lia]. apply Z.eqb_eq.
  induction x as [|c x IH]; [by destruct rest|]. simpl. rewrite Z.ltb_irrefl. apply IH. lia.
Qed.

(** *** The shortening operations *)

Lemma diff_index_split start limit :
  ∃ p s l, start = p ++ s ∧ limit = p ++ l ∧ Bytewise.diff_index start limit = length p ∧
    match s, l with x :: _, y :: _ => x ≠ y | _, _ => True end.
Proof.
  revert limit. induction start as [|x start IH]; intros [|y limit];
    try (by eexists [], _, _).
  simpl. destruct (decide (x = y)) as [->|Hne].
  - destruct (IH limit) as (p & s & l & -> & -> & E & Hd). exists (y :: p), s, l.
    simpl. rewrite E. done.
  - by exists [], (x :: start), (y :: limit).
Qed.

Lemma take_insert_app {A} (p : list A) x y a :
  take (length p + 1) (<[length p := y]> (p ++ x :: a)) = p ++ [y].
Proof.
  rewrite insert_app_r_alt, Nat.sub_diag by lia. simpl.
  rewrite take_app_ge by lia. by replace (length p + 1 - length p)%nat with 1%nat by lia.
Qed.

(** What the separator is: the input, or the common prefix with an incremented byte
    that stays below the limit's. *)
Lemma separator_cases start limit :
  Bytewise.FindShortestSeparator start limit = start ∨
  ∃ p x a y b, start = p ++ x :: a ∧ limit = p ++ y :: b ∧ b2z x + 1 < b2z y ∧
    Bytewise.FindShortestSeparator start limit = p ++ [z2b (b2z x + 1)].
Proof.
  unfold Bytewise.FindShortestSeparator.
  destruct (diff_index_split start limit) as (p & s & l & -> & -> & -> & Hd).
  rewrite !length_app. destruct (Nat.leb_spec (Nat.min (length p + length s) (length p + length l)) (length p))
    as [|Hlt]; [by left|].
  destruct s as [|x s], l as [|y l]; simpl in Hlt; try lia.
  rewrite !list_lookup_middle by done.
  destruct (Z.ltb_spec (b2z x) 255); [|by left].
  destruct (Z.ltb_spec (b2z x + 1) (b2z y)); [simpl|by left].
  right. exists p, x, s, y, l. by rewrite take_insert_app.
Qed.

Lemma bytewise_separator start limit :
  slice_compare start limit < 0 →
  let sep := Bytewise.FindShortestSeparator start limit in
  slice_compare start sep ≤ 0 ∧ slice_compare sep limit < 0 ∧ blen sep ≤ blen start.
Proof.
  intros Hlt. cbv zeta.
  destruct (separator_cases start limit) as [->|(p & x & a & y & b & -> & -> & Hxy & ->)].
  - rewrite slice_compare_refl. lia.
  - byte_facts. assert (b2z (z2b (b2z x + 1)) = b2z x + 1) by (rewrite b2z_z2b, Z.mod_small; lia).
    split; [|split].
    + apply Z.lt_le_incl, slice_compare_lt. lia.
    + apply slice_compare_lt. lia.
    + rewrite !blen_app, !blen_cons. pose proof (blen_nonneg a). unfold blen. simpl. lia.
Qed.

Lemma bytewise_separator_keeps start limit :
  0 ≤ slice_compare start limit → Bytewise.FindShortestSeparator start limit = start.
Proof.
  intros Hge. destruct (separator_cases start limit) as [|(p & x & a & y & b & -> & -> & Hxy & _)]; [done|].
  pose proof (slice_compare_lt p x a y b). lia.
Qed.

(** The successor: unchanged for a run of 0xff bytes, else the prefix before the first
    other byte and that byte plus one. *)
Lemma successor_cases key :
  (Forall (λ c, b2z c = 255) key ∧ Bytewise.FindShortSuccessor key = key) ∨
  ∃ p x a, key = p ++ x :: a ∧ Forall (λ c, b2z c = 255) p ∧ b2z x < 255 ∧
    Bytewise.FindShortSuccessor key = p ++ [z2b (b2z x + 1)].
Proof.
  unfold Bytewise.FindShortSuccessor.
  assert (∀ s p, Forall (λ c, b2z c = 255) p → key = p ++ s →
    (Forall (λ c, b2z c = 255) key ∧ Bytewise.successor_loop (length s) (length p) key = key) ∨
    ∃ q x a, key = q ++ x :: a ∧ Forall (λ c, b2z c = 255) q ∧ b2z x < 255 ∧
      Bytewise.successor_loop (length s) (length p) key = q ++ [z2b (b2z x + 1)]) as H.
  { induction s as [|x s IH]; intros p Hp ->.
    - left. rewrite app_nil_r. done.
    - simpl. rewrite list_lookup_middle by done.
      destruct (Z.eqb_spec (b2z x) 255) as [E|E]; simpl.
      + replace (S (length p)) with (length (p ++ [x])) by (rewrite length_app; simpl; lia).
        apply IH; [apply Forall_app; auto | by rewrite <- app_assoc].
      + right. exists p, x, s. byte_facts. rewrite take_insert_app. split_and!; try done; lia. }
  by apply (H key []).
Qed.

Lemma bytewise_successor key :
  slice_compare key (Bytewise.FindShortSuccessor key) ≤ 0 ∧
  blen (Bytewise.FindShortSuccessor key) ≤ blen key.
Proof.
  destruct (successor_cases key) as [[_ ->]|(p & x & a & -> & _ & Hx & ->)].
  - rewrite slice_compare_refl. lia.
  - byte_facts. split.
    + apply Z.lt_le_incl, slice_compare_lt. rewrite b2z_z2b, Z.mod_small; lia.
    + rewrite !blen_app, !blen_cons. pose proof (blen_nonneg a). unfold blen. simpl. lia.
Qed.

(** The implementation keeps the contract of comparator.h. *)
#[export] Instance bytewise_laws : ComparatorLaws any_key BytewiseComparator.
Proof.
  split; simpl.
  - intros. apply slice_compare_refl.
  - intros a b _ _. rewrite slice_compare_opp. lia.
  - intros a b d _ _ _. apply slice_compare_trans.
  - intros start limit _ _ H. destruct (bytewise_separator start limit H) as (?&?&_). done.
  - intros start limit _ _. apply bytewise_separator_keeps.
  - intros key _. split; [done | apply bytewise_successor].
Qed.

(** ** Properties *)

(** The byte-wise comparator.  [Slice::compare] is a total order whose zero is
    equality of the bytes; [FindShortestSeparator] of a start below its limit gives a
    string that is not longer, not below the start and below the limit (the assertion
    of the code holds), and leaves any other start alone; [FindShortSuccessor] gives
    a string that is not longer and not below the key. *)
Lemma bytewise_comparator (a b d : list byte) :
  let c := Compare BytewiseComparator in
  (c a b = 0 ↔ a = b) ∧ c b a = - c a b ∧ (c a b ≤ 0 → c b d ≤ 0 → c a d ≤ 0) ∧
  (c a b < 0 → let sep := FindShortestSeparator BytewiseComparator a b in
     c a sep ≤ 0 ∧ c sep b < 0 ∧ blen sep ≤ blen a) ∧
  (0 ≤ c a b → FindShortestSeparator BytewiseComparator a b = a) ∧
  c a (FindShortSuccessor BytewiseComparator a) ≤ 0 ∧
  blen (FindShortSuccessor BytewiseComparator a) ≤ blen a.
Proof.
  simpl. split; [apply slice_compare_eq|]. split; [apply slice_compare_opp|].
  split; [apply slice_compare_trans|]. split; [apply bytewise_separator|].
  split; [apply bytewise_separator_keeps | apply bytewise_successor].
Qed.

