(* ===== verification/Dbformat.v ===== *)
(** * db/dbformat.h and db/dbformat.cc: internal keys

    An internal key is a user key followed by eight bytes that pack a sequence number
    and a value type.  The comparator of internal keys is verified against the contract
    of the user's comparator, and keeps that contract itself. *)
From S2P Require Import Prelude.
From S2P Require Import Coding.
From S2P Require Import Interfaces.
From S2P Require Import Comparator.

(** ** Definitions *)

Definition kNumLevels : Z := 7.
Definition kL0_CompactionTrigger : Z := 4.
Definition kL0_SlowdownWritesTrigger : Z := 8.
Definition kL0_StopWritesTrigger : Z := 12.
Definition kMaxMemCompactLevel : Z := 2.

Inductive ValueType := kTypeDeletion | kTypeValue.
#[export] Instance ValueType_eq_dec : EqDecision ValueType.
Proof. solve_decision. Defined.
Definition type_value (t : ValueType) : Z :=
  match t with kTypeDeletion => 0 | kTypeValue => 1 end.
Definition kValueTypeForSeek : ValueType := kTypeValue.

Definition kMaxSequenceNumber : Z := u64 (Z.shiftl 1 56) - 1.

Record ParsedInternalKey := mkParsed {
  user_key : list byte;
  sequence : Z;
  type : ValueType
}.

Definition PackSequenceAndType (seq : Z) (t : ValueType) : Z :=
  Z.lor (u64 (Z.shiftl seq 8)) (type_value t).

Definition InternalKeyEncodingLength (key : ParsedInternalKey) : Z := blen (user_key key) + 8.

Definition AppendInternalKey (result : list byte) (key : ParsedInternalKey) : list byte :=
  PutFixed64 (result ++ user_key key) (PackSequenceAndType (sequence key) (type key)).

(** The slice [Slice(data, size - 8)]; the code asserts [size >= 8]. *)
Definition ExtractUserKey (internal_key : list byte) : list byte :=
  take (length internal_key - 8) internal_key.

(** [DecodeFixed64(data + size - 8)], a read before the start of the data when the size is
    below eight. *)
Definition last_fixed64 (key : list byte) : outcome Z :=
  if blen key <? 8 then Ub OutOfBounds else DecodeFixed64 (drop (length key - 8) key).

(** The [ValueType] is the byte, in the range of the enumeration or not. *)
Definition ExtractValueType (internal_key : list byte) : outcome Z :=
  num ← last_fixed64 internal_key; mret (Z.land num 0xff).

(** [ParseInternalKey]: false leaves the result undefined. *)
Definition ParseInternalKey (internal_key : list byte) : outcome (option ParsedInternalKey) :=
  if blen internal_key <? 8 then mret None
  else
    num ← last_fixed64 internal_key;
    let c := Z.land num 0xff in
    mret (if c <=? type_value kTypeValue
          then Some (mkParsed (ExtractUserKey internal_key) (Z.shiftr num 8)
                      (if c =? 0 then kTypeDeletion else kTypeValue))
          else None).

(** [InternalKeyComparator] on top of a user comparator.  The sequence numbers of two
    keys are compared when both have one; the code requires that of its arguments. *)
Module InternalKeyComparator.

Definition Compare (user : Comparator) (akey bkey : list byte) : Z :=
  let r := Interfaces.Compare user (ExtractUserKey akey) (ExtractUserKey bkey) in
  if r =? 0 then
    match last_fixed64 akey, last_fixed64 bkey with
    | Ok anum, Ok bnum => if bnum <? anum then -1 else if anum <? bnum then 1 else r
    | _, _ => r
    end
  else r.

Definition FindShortestSeparator (user : Comparator) (start limit : list byte) : list byte :=
  let user_start := ExtractUserKey start in
  let user_limit := ExtractUserKey limit in
  let tmp := Interfaces.FindShortestSeparator user user_start user_limit in
  if (blen tmp <? blen user_start) && (Interfaces.Compare user user_start tmp <? 0)
  then PutFixed64 tmp (PackSequenceAndType kMaxSequenceNumber kValueTypeForSeek)
  else start.

Definition FindShortSuccessor (user : Comparator) (key : list byte) : list byte :=
  let user_key := ExtractUserKey key in
  let tmp := Interfaces.FindShortSuccessor user user_key in
  if (blen tmp <? blen user_key) && (Interfaces.Compare user user_key tmp <? 0)
  then PutFixed64 tmp (PackSequenceAndType kMaxSequenceNumber kValueTypeForSeek)
  else key.

End InternalKeyComparator.

Definition internal_comparator (user : Comparator) : Comparator :=
  mkComparator (InternalKeyComparator.Compare user)
    (InternalKeyComparator.FindShortestSeparator user)
    (InternalKeyComparator.FindShortSuccessor user).

(** [InternalFilterPolicy]: the user's policy on the user keys. *)
Definition internal_filter_policy (user_policy : FilterPolicy) : FilterPolicy :=
  mkFilterPolicy
    (λ keys dst, CreateFilter user_policy (map ExtractUserKey keys) dst)
    (λ key f, KeyMayMatch user_policy (ExtractUserKey key) f).

(** [LookupKey]: the buffer is the member [space_] of 200 bytes or a new block; [start_],
    [kstart_] and [end_] are offsets into it. *)
Module LookupKey.

Definition space_size : Z := 200.

Record t := mk { buffer : list byte; start_ : Z; kstart_ : Z; end_ : Z }.

Definition new (fresh : Z → list byte) (user_key : list byte) (s : Z) : outcome t :=
  let usize := blen user_key in
  let needed := usize + 13 in
  let dst := fresh (if needed <=? space_size then space_size else needed) in
  let len := EncodeVarint32 (u32 (usize + 8)) in
  dst ← mem_write dst 0 len;
  let kstart := blen len in
  dst ← mem_write dst kstart user_key;
  dst ← mem_write dst (kstart + usize) (EncodeFixed64 (PackSequenceAndType s kValueTypeForSeek));
  mret (mk dst 0 kstart (kstart + usize + 8)).

(** The bytes between two offsets of the buffer. *)
Definition range (k : t) (from to : Z) : list byte :=
  take (Z.to_nat (to - from)) (drop (Z.to_nat from) (buffer k)).
Definition memtable_key (k : t) : list byte := range k (start_ k) (end_ k).
Definition internal_key (k : t) : list byte := range k (kstart_ k) (end_ k).
Definition user_key (k : t) : list byte := range k (kstart_ k) (end_ k - 8).

End LookupKey.

(** ** Lemmas *)

(** Well-formed sequence numbers and internal keys. *)
Definition seq_ok (s : Z) : Prop := 0 ≤ s ≤ kMaxSequenceNumber.
Definition ikey_ok (k : list byte) : Prop := (8 ≤ length k)%nat.
Definition ikey (u : list byte) (s : Z) (t : ValueType) : list byte :=
  AppendInternalKey [] (mkParsed u s t).

Lemma type_value_range t : 0 ≤ type_value t ≤ 1.
Proof. destruct t; simpl; lia. Qed.

Lemma pack_add s t : seq_ok s → PackSequenceAndType s t = 256 * s + type_value t.
Proof.
  unfold seq_ok, kMaxSequenceNumber. intros Hs. change (u64 (Z.shiftl 1 56) - 1) with (2 ^ 56 - 1) in Hs.
  pose proof (type_value_range t). unfold PackSequenceAndType.
  rewrite u64_small by (unfold is_u64; rewrite Z.shiftl_mul_pow2 by lia; lia).
  rewrite Z.lor_comm, lor_shiftl_add by lia. lia.
Qed.

Lemma pack_u64 s t : seq_ok s → is_u64 (PackSequenceAndType s t).
Proof.
  intros Hs. rewrite pack_add by done. pose proof (type_value_range t).
  unfold seq_ok, kMaxSequenceNumber in Hs. change (u64 (Z.shiftl 1 56) - 1) with (2 ^ 56 - 1) in Hs.
  unfold is_u64. lia.
Qed.

Lemma ikey_app u s t : ikey u s t = u ++ EncodeFixed64 (PackSequenceAndType s t).
Proof. done. Qed.

Lemma extract_put u v : ExtractUserKey (PutFixed64 u v) = u.
Proof.
  unfold ExtractUserKey, PutFixed64. rewrite length_app, length_EncodeFixed64.
  replace (length u + 8 - 8)%nat with (length u) by lia. apply take_app_length.
Qed.

Lemma last_put u v : is_u64 v → last_fixed64 (PutFixed64 u v) = Ok v.
Proof.
  intros Hv. unfold last_fixed64, PutFixed64. rewrite blen_app. pose proof (blen_nonneg u).
  change (blen (EncodeFixed64 v)) with 8. destruct (Z.ltb_spec (blen u + 8) 8); [lia|].
  rewrite length_app, length_EncodeFixed64. replace (length u + 8 - 8)%nat with (length u) by lia.
  rewrite drop_app_length, <- (app_nil_r (EncodeFixed64 v)). by apply DecodeFixed64_Encode.
Qed.

Lemma extract_ikey u s t : ExtractUserKey (ikey u s t) = u.
Proof. apply extract_put. Qed.

Lemma last_ikey u s t : seq_ok s → last_fixed64 (ikey u s t) = Ok (256 * s + type_value t).
Proof.
  intros Hs. rewrite <- (pack_add s t) by done.
  change (ikey u s t) with (PutFixed64 u (PackSequenceAndType s t)).
  by apply last_put, pack_u64.
Qed.

Lemma ikey_ok_ikey u s t : ikey_ok (ikey u s t).
Proof. unfold ikey_ok. rewrite ikey_app, length_app, length_EncodeFixed64. lia. Qed.

Lemma ikey_ok_put u v : ikey_ok (PutFixed64 u v).
Proof. unfold ikey_ok, PutFixed64. rewrite length_app, length_EncodeFixed64. lia. Qed.

#[export] Hint Resolve ikey_ok_ikey ikey_ok_put pack_u64 : ikeys.
#[export] Hint Rewrite extract_ikey extract_put : ikeys.

(** The tag of a well-formed key is a 64-bit number. *)
Lemma last_fixed64_ok k : ikey_ok k → ∃ n, last_fixed64 k = Ok n ∧ is_u64 n.
Proof.
  unfold ikey_ok. intros Hk. unfold last_fixed64, blen.
  destruct (Z.ltb_spec (Z.of_nat (length k)) 8); [lia|]. unfold DecodeFixed64. simpl kLittleEndian. cbv iota.
  rewrite mem_read_ok by (unfold blen; rewrite ?length_drop; lia). cbn [mbind outcome_bind mret outcome_ret].
  eexists. split; [done|]. rewrite drop_0.
  pose proof (le_val_bound (take (Z.to_nat 8) (drop (length k - 8) k))) as Hb.
  assert (blen (take (Z.to_nat 8) (drop (length k - 8) k)) = 8) as E.
  { unfold blen. rewrite length_take, length_drop. lia. }
  rewrite E in Hb. exact Hb.
Qed.

(** *** The comparator of internal keys *)

Section internal.
Context (user : Comparator) `{Hlaws : !ComparatorLaws any_key user}.
#[local] Notation icmp := (InternalKeyComparator.Compare user).
#[local] Notation ucmp := (Interfaces.Compare user).

(** The comparison of internal keys through user keys and tags. *)
Lemma icmp_spec a b na nb :
  last_fixed64 a = Ok na → last_fixed64 b = Ok nb →
  Z.sgn (icmp a b) =
  let r := ucmp (ExtractUserKey a) (ExtractUserKey b) in
  if r =? 0 then Z.sgn (nb - na) else Z.sgn r.
Proof.
  intros Ha Hb. unfold InternalKeyComparator.Compare. rewrite Ha, Hb. cbv zeta.
  destruct (Z.eqb_spec (ucmp (ExtractUserKey a) (ExtractUserKey b)) 0) as [E|E]; [|done].
  destruct (Z.ltb_spec nb na); [lia|]. destruct (Z.ltb_spec na nb); lia.
Qed.

Lemma icmp_sgn a b : ikey_ok a → ikey_ok b → Z.sgn (icmp b a) = - Z.sgn (icmp a b).
Proof.
  intros (na & Ea & _)%last_fixed64_ok (nb & Eb & _)%last_fixed64_ok.
  rewrite (icmp_spec b a nb na), (icmp_spec a b na nb) by done. cbv zeta.
  pose proof (compare_sgn (ExtractUserKey a) (ExtractUserKey b) I I).
  destruct (Z.eqb_spec (ucmp (ExtractUserKey a) (ExtractUserKey b)) 0),
    (Z.eqb_spec (ucmp (ExtractUserKey b) (ExtractUserKey a)) 0); lia.
Qed.

Lemma icmp_trans a b d :
  ikey_ok a → ikey_ok b → ikey_ok d → icmp a b ≤ 0 → icmp b d ≤ 0 → icmp a d ≤ 0.
Proof.
  intros (na & Ea & _)%last_fixed64_ok (nb & Eb & _)%last_fixed64_ok (nd & Ed & _)%last_fixed64_ok.
  pose proof (icmp_spec a b na nb Ea Eb) as Hab. pose proof (icmp_spec b d nb nd Eb Ed) as Hbd.
  pose proof (icmp_spec a d na nd Ea Ed) as Had. revert Hab Hbd Had. cbv zeta.
  generalize (ExtractUserKey a) (ExtractUserKey b) (ExtractUserKey d). intros ua ub ud.
  pose proof (compare_trans ua ub ud I I I). pose proof (compare_lt_le any_key user ua ub ud I I I).
  pose proof (compare_le_lt any_key user ua ub ud I I I).
  pose proof (compare_eq_trans any_key user ua ub ud I I I).
  destruct (Z.eqb_spec (ucmp ua ub) 0), (Z.eqb_spec (ucmp ub ud) 0), (Z.eqb_spec (ucmp ua ud) 0); lia.
Qed.

(** A key with a smaller user key is smaller, whatever the tags. *)
Lemma icmp_user_lt a b :
  ucmp (ExtractUserKey a) (ExtractUserKey b) < 0 → icmp a b < 0.
Proof.
  intros Hlt. unfold InternalKeyComparator.Compare. cbv zeta.
  destruct (Z.eqb_spec (ucmp (ExtractUserKey a) (ExtractUserKey b)) 0); lia.
Qed.

Lemma icmp_user_le a b : icmp a b ≤ 0 → ucmp (ExtractUserKey a) (ExtractUserKey b) ≤ 0.
Proof.
  unfold InternalKeyComparator.Compare. cbv zeta.
  destruct (Z.eqb_spec (ucmp (ExtractUserKey a) (ExtractUserKey b)) 0); lia.
Qed.

(** The order of two entries of one user key is decreasing in the tag. *)
Lemma icmp_same_user u s t s' t' :
  seq_ok s → seq_ok s' →
  Z.sgn (icmp (ikey u s t) (ikey u s' t')) =
  Z.sgn ((256 * s' + type_value t') - (256 * s + type_value t)).
Proof.
  intros Hs Hs'. rewrite (icmp_spec _ _ (256 * s + type_value t) (256 * s' + type_value t'))
    by (by apply last_ikey).
  cbv zeta. by rewrite !extract_ikey, compare_refl by done.
Qed.

Lemma icmp_separator start limit :
  ikey_ok start → ikey_ok limit → icmp start limit < 0 →
  let sep := InternalKeyComparator.FindShortestSeparator user start limit in
  ikey_ok sep ∧ icmp start sep ≤ 0 ∧ icmp sep limit < 0.
Proof.
  intros Hs Hl Hlt. cbv zeta. unfold InternalKeyComparator.FindShortestSeparator. cbv zeta.
  set (tmp := FindShortestSeparator user (ExtractUserKey start) (ExtractUserKey limit)).
  destruct ((blen tmp <? blen (ExtractUserKey start)) && (ucmp (ExtractUserKey start) tmp <? 0)) eqn:E.
  - apply andb_true_iff in E as [E1 E2]. apply Z.ltb_lt in E1, E2.
    assert (ucmp (ExtractUserKey start) (ExtractUserKey limit) < 0) as Hult.
    { destruct (Z.lt_ge_cases (ucmp (ExtractUserKey start) (ExtractUserKey limit)) 0) as [|Hge]; [done|].
      apply separator_keeps in Hge; [|done ..]. subst tmp. rewrite Hge in E1. lia. }
    destruct (separator_between (ExtractUserKey start) (ExtractUserKey limit) I I Hult) as (_ & _ & Hsep).
    split; [auto with ikeys|]. split.
    + apply Z.lt_le_incl, icmp_user_lt. by rewrite extract_put.
    + apply icmp_user_lt. by rewrite extract_put.
  - split; [done|]. split; [|done]. pose proof (icmp_sgn start start Hs Hs). lia.
Qed.

Lemma icmp_separator_keeps start limit :
  ikey_ok start → ikey_ok limit → 0 ≤ icmp start limit →
  InternalKeyComparator.FindShortestSeparator user start limit = start.
Proof.
  intros Hs Hl Hge. unfold InternalKeyComparator.FindShortestSeparator. cbv zeta.
  rewrite (separator_keeps (ExtractUserKey start)); [|done ..|].
  - by rewrite Z.ltb_irrefl.
  - destruct (Z.lt_ge_cases (ucmp (ExtractUserKey start) (ExtractUserKey limit)) 0) as [Hlt|]; [|lia].
    apply icmp_user_lt in Hlt. lia.
Qed.

Lemma icmp_successor key :
  ikey_ok key →
  let succ := InternalKeyComparator.FindShortSuccessor user key in
  ikey_ok succ ∧ icmp key succ ≤ 0.
Proof.
  intros Hk. cbv zeta. unfold InternalKeyComparator.FindShortSuccessor. cbv zeta.
  set (tmp := FindShortSuccessor user (ExtractUserKey key)).
  destruct ((blen tmp <? blen (ExtractUserKey key)) && (ucmp (ExtractUserKey key) tmp <? 0)) eqn:E.
  - apply andb_true_iff in E as [E1 E2]. apply Z.ltb_lt in E1, E2. split; [auto with ikeys|].
    apply Z.lt_le_incl, icmp_user_lt. by rewrite extract_put.
  - split; [done|]. pose proof (icmp_sgn key key Hk Hk). lia.
Qed.

(** The comparator of internal keys keeps the contract it relies on. *)
#[export] Instance internal_laws : ComparatorLaws ikey_ok (internal_comparator user).
Proof.
  split; simpl.
  - intros a Ha. pose proof (icmp_sgn a a Ha Ha). lia.
  - apply icmp_sgn.
  - apply icmp_trans.
  - apply icmp_separator.
  - apply icmp_separator_keeps.
  - apply icmp_successor.
Qed.

End internal.

(** The filter policy of internal keys keeps the contract, on the user keys. *)
#[export] Instance internal_filter_laws size_ok user_policy :
  FilterLaws size_ok user_policy →
  FilterLaws (λ keys, size_ok (map ExtractUserKey keys)) (internal_filter_policy user_policy).
Proof.
  intros Hp. split; [|intros key f; apply (filter_answers (p := user_policy))]. intros keys dst Hs. simpl.
  destruct (filter_matches (map ExtractUserKey keys) dst Hs) as (f & E & Hall).
  exists f. split; [done|]. intros key Hkey. apply Hall. by apply list_elem_of_fmap_2.
Qed.

(** *** LookupKey *)

Lemma lookup_key_new fresh u s :
  (∀ n, 0 ≤ n → blen (fresh n) = n) → blen u + 13 < 2 ^ 32 →
  ∃ k, LookupKey.new fresh u s = Ok k ∧
    LookupKey.memtable_key k = EncodeVarint32 (blen u + 8) ++ ikey u s kTypeValue ∧
    LookupKey.internal_key k = ikey u s kTypeValue ∧ LookupKey.user_key k = u.
Proof.
  intros Hfresh Hu. pose proof (blen_nonneg u). unfold LookupKey.new. cbv zeta.
  set (n := if blen u + 13 <=? LookupKey.space_size then LookupKey.space_size else blen u + 13).
  assert (blen u + 13 ≤ n) as Hn.
  { subst n. destruct (Z.leb_spec (blen u + 13) LookupKey.space_size); lia. }
  specialize (Hfresh n ltac:(lia)). revert Hfresh. generalize (fresh n) as dst. intros dst Hdst.
  rewrite u32_small by (unfold is_u32; lia).
  pose proof (EncodeVarint32_length (blen u + 8) ltac:(unfold is_u32; lia)) as Hlen.
  revert Hlen. generalize (EncodeVarint32 (blen u + 8)) as len. intros len Hlen.
  assert (∃ d1 d2 d3 tail, dst = d1 ++ d2 ++ d3 ++ tail ∧ length d1 = length len ∧
    length d2 = length u ∧ length d3 = 8%nat) as (d1 & d2 & d3 & tail & -> & H1 & H2 & H3).
  { exists (take (length len) dst), (take (length u) (drop (length len) dst)),
      (take 8 (drop (length u) (drop (length len) dst))),
      (drop 8 (drop (length u) (drop (length len) dst))).
    rewrite !take_drop, !length_take, !length_drop. unfold blen in *. split_and!; [done | lia ..]. }
  pose proof (mem_write_middle [] d1 (d2 ++ d3 ++ tail) len 0 eq_refl H1) as E1. cbn [app] in E1.
  rewrite E1. cbn [mbind outcome_bind].
  rewrite (mem_write_middle len d2) by done. cbn [mbind outcome_bind].
  rewrite (app_assoc len u), (mem_write_middle (len ++ u) d3) by (rewrite ?blen_app; done). cbn [mbind outcome_bind].
  eexists. split; [done|].
  set (tag := EncodeFixed64 (PackSequenceAndType s kValueTypeForSeek)).
  assert (length tag = 8%nat) as Htag by done.
  change (ikey u s kTypeValue) with (u ++ tag). clearbody tag.
  unfold LookupKey.memtable_key, LookupKey.internal_key, LookupKey.user_key, LookupKey.range. simpl.
  assert (∀ (a b c : list byte) from to, from = blen a → to = blen a + blen b →
    take (Z.to_nat (to - from)) (drop (Z.to_nat from) (a ++ b ++ c)) = b) as Hr.
  { intros a b c from to -> ->. replace (blen a + blen b - blen a) with (blen b) by lia.
    unfold blen. by rewrite !Nat2Z.id, drop_app_length, take_app_length. }
  split_and!.
  - replace ((len ++ u) ++ tag ++ tail) with ([] ++ (len ++ u ++ tag) ++ tail)
      by (simpl; by rewrite <- !app_assoc).
    apply Hr; [done|]. rewrite !blen_app. unfold blen in *. simpl. lia.
  - rewrite <- !app_assoc. rewrite (app_assoc u tag tail).
    apply Hr; [done|]. rewrite !blen_app. unfold blen in *. lia.
  - rewrite <- !app_assoc. apply Hr; [done | lia].
Qed.

Lemma parse_ikey u s t :
  seq_ok s → ParseInternalKey (ikey u s t) = Ok (Some (mkParsed u s t)).
Proof.
  intros Hs. unfold ParseInternalKey.
  assert (blen (ikey u s t) <? 8 = false) as ->.
  { pose proof (ikey_ok_ikey u s t). unfold ikey_ok, blen in *. lia. }
  rewrite last_ikey by done. cbn [mbind outcome_bind mret outcome_ret].
  rewrite extract_ikey. pose proof (type_value_range t).
  rewrite land_255, Z.shiftr_div_pow2 by lia.
  replace ((256 * s + type_value t) mod 256) with (type_value t) by dlia.
  replace ((256 * s + type_value t) / 2 ^ 8) with s by dlia.
  by destruct t.
Qed.

(** ** Properties *)

(** Internal keys round trip.  Appending an internal key and parsing the result
    gives the user key, sequence number and type back for every sequence number of
    56 bits; its length is [InternalKeyEncodingLength]; [LookupKey] writes within the
    buffer it chose and its three slices are the length-prefixed memtable key, the
    internal key with the seek type and the user key. *)
Lemma internal_key_roundtrip (fresh : Z → list byte) (u : list byte) (s : Z) (t : ValueType)
    (Hs : seq_ok s) (Hfresh : ∀ n, 0 ≤ n → blen (fresh n) = n) (Hu : blen u + 13 < 2 ^ 32) :
  let key := AppendInternalKey [] (mkParsed u s t) in
  ParseInternalKey key = Ok (Some (mkParsed u s t)) ∧
  ExtractUserKey key = u ∧ ExtractValueType key = Ok (type_value t) ∧
  blen key = InternalKeyEncodingLength (mkParsed u s t) ∧
  ∃ k, LookupKey.new fresh u s = Ok k ∧
    LookupKey.memtable_key k = PutLengthPrefixedSlice [] (LookupKey.internal_key k) ∧
    ParseInternalKey (LookupKey.internal_key k) = Ok (Some (mkParsed u s kValueTypeForSeek)) ∧
    LookupKey.user_key k = u.
Proof.
  cbv zeta. change (AppendInternalKey [] (mkParsed u s t)) with (ikey u s t).
  split; [by apply parse_ikey|]. split; [apply extract_ikey|]. split.
  { unfold ExtractValueType. rewrite last_ikey by done. cbn [mbind outcome_bind mret outcome_ret].
    rewrite land_255. pose proof (type_value_range t). f_equal. dlia. }
  split.
  { unfold InternalKeyEncodingLength. simpl. rewrite ikey_app, blen_app. done. }
  destruct (lookup_key_new fresh u s Hfresh Hu) as (k & E & Hm & Hi & Huk).
  exists k. rewrite Hm, Hi. split_and!; [done | | by apply parse_ikey | done].
  unfold PutLengthPrefixedSlice, PutVarint32. simpl. do 2 f_equal.
  rewrite ikey_app, blen_app. change (blen (EncodeFixed64 _)) with 8.
  pose proof (blen_nonneg u). by rewrite u32_small by (unfold is_u32; lia).
Qed.

(** C36: The order of internal keys.  For every user comparator that keeps the contract
    of comparator.h, [InternalKeyComparator] keeps it too on internal keys (its
    separators and successors included, so the assertions of the code hold); keys are
    ordered by user key first; and among the entries of one user key a seek key for
    snapshot [s] sorts after exactly the entries that are newer than [s], so the first
    entry at or after it is the newest one visible at [s]. *)
Theorem internal_comparator_order (user : Comparator) (Huser : ComparatorLaws any_key user)
    (u v : list byte) (s s' : Z) (t t' : ValueType) (Hs : seq_ok s) (Hs' : seq_ok s') :
  let c := Compare (internal_comparator user) in
  ComparatorLaws ikey_ok (internal_comparator user) ∧
  (Compare user u v < 0 → c (ikey u s t) (ikey v s' t') < 0) ∧
  (c (ikey u s kValueTypeForSeek) (ikey u s' t') ≤ 0 ↔ s' ≤ s).
Proof.
  cbv zeta. split; [by apply internal_laws|]. split.
  - intros Hlt. apply icmp_user_lt. by rewrite !extract_ikey.
  - simpl. pose proof (icmp_same_user user u s kValueTypeForSeek s' t' Hs Hs') as E.
    pose proof (type_value_range t'). simpl type_value in E. lia.
Qed.

Lemma internal_comparator_order_witness :
  let c := Compare (internal_comparator BytewiseComparator) in
  ComparatorLaws ikey_ok (internal_comparator BytewiseComparator) ∧
  (Compare BytewiseComparator [z2b 1] [z2b 2] < 0 →
     c (ikey [z2b 1] 7 kTypeValue) (ikey [z2b 2] 9 kTypeDeletion) < 0) ∧
  (c (ikey [z2b 1] 7 kValueTypeForSeek) (ikey [z2b 1] 9 kTypeDeletion) ≤ 0 ↔ 9 ≤ 7).
Proof.
  apply (internal_comparator_order BytewiseComparator bytewise_laws [z2b 1] [z2b 2] 7 9
    kTypeValue kTypeDeletion); vm_compute; split; discriminate.
Defined.
