(* ===== verification/Status.v ===== *)
(** * util/status.cc and util/logging.cc: results of operations, numbers and text

    A [Status] is a null pointer or an array that holds the length of the message, the
    code and the message.  The other components use the abstract [status]; the
    constructor, the copy and [ToString] are shown to implement it. *)
From S2P Require Import Prelude.
From S2P Require Import Coding.

(** ** Definitions *)

Inductive Code := kNotFound | kCorruption | kNotSupported | kInvalidArgument | kIOError.
#[export] Instance Code_eq_dec : EqDecision Code.
Proof. solve_decision. Defined.
Definition code_value (c : Code) : Z :=
  match c with
  | kNotFound => 1 | kCorruption => 2 | kNotSupported => 3 | kInvalidArgument => 4 | kIOError => 5
  end.

(** The abstract status: success, or a code and a message. *)
Definition status : Type := option (Code * list byte).
Definition status_ok : status := None.
Definition ok (s : status) : bool := bool_decide (s = None).
Definition status_err (c : Code) (msg msg2 : list byte) : status :=
  Some (c, msg ++ match msg2 with [] => [] | _ => str ": " ++ msg2 end).
Definition Corruption (msg : list byte) : status := status_err kCorruption msg [].
Definition NotFound (msg : list byte) : status := status_err kNotFound msg [].
Definition IOError (msg msg2 : list byte) : status := status_err kIOError msg msg2.

Definition status_text (s : status) : list byte :=
  match s with
  | None => str "OK"
  | Some (c, msg) =>
      match c with
      | kNotFound => str "NotFound: "
      | kCorruption => str "Corruption: "
      | kNotSupported => str "Not implemented: "
      | kInvalidArgument => str "Invalid argument: "
      | kIOError => str "IO error: "
      end ++ msg
  end.

(** The representation: [state_], the null pointer or the array. *)
Module StatusRep.

(** [Status(code, msg, msg2)]; [fresh n] is what [new char[n]] returns. *)
Definition new (fresh : Z → list byte) (code : Code) (msg msg2 : list byte)
    : outcome (option (list byte)) :=
  let len1 := u32 (blen msg) in
  let len2 := u32 (blen msg2) in
  let size := u32 (len1 + (if len2 =? 0 then 0 else u32 (2 + len2))) in
  let result := fresh (u32 (size + 5)) in
  result ← mem_write result 0 (le_bytes 4 size);
  result ← mem_write result 4 [z2b (code_value code)];
  m ← mem_read msg 0 len1;
  result ← mem_write result 5 m;
  if len2 =? 0 then Ok (Some result)
  else
    result ← mem_write result (5 + len1) (str ":");
    result ← mem_write result (6 + len1) (str " ");
    m2 ← mem_read msg2 0 len2;
    result ← mem_write result (7 + len1) m2;
    Ok (Some result).

(** [CopyState]. *)
Definition CopyState (fresh : Z → list byte) (state : list byte) : outcome (list byte) :=
  b ← mem_read state 0 4;
  let size := le_val b in
  let result := fresh (u32 (size + 5)) in
  memcpy result state (u32 (size + 5)).

(** [code()]; the code of a null state is [kOk]. *)
Definition code (state : option (list byte)) : outcome Z :=
  match state with
  | None => Ok 0
  | Some a => c ← mem_read a 4 1; Ok (match c with [c] => b2c c | _ => 0 end)
  end.

(** [ToString()].  A code outside the enumeration prints its number, which the
    constructors cannot build; [unknown] stands for that text. *)
Definition ToString (unknown : Z → list byte) (state : option (list byte)) : outcome (list byte) :=
  match state with
  | None => Ok (str "OK")
  | Some a =>
      c ← code state;
      let type :=
        if c =? 0 then str "OK"
        else if c =? 1 then str "NotFound: "
        else if c =? 2 then str "Corruption: "
        else if c =? 3 then str "Not implemented: "
        else if c =? 4 then str "Invalid argument: "
        else if c =? 5 then str "IO error: "
        else unknown c in
      b ← mem_read a 0 4;
      m ← mem_read a 5 (le_val b);
      Ok (type ++ m)
  end.

End StatusRep.

(** *** Numbers and text *)

(** The decimal digits of an unsigned number, as [%llu] prints them. *)
Fixpoint digits_loop (fuel : nat) (n : Z) (acc : list byte) : list byte :=
  match fuel with
  | O => acc
  | S fuel =>
      let acc := z2b (48 + n mod 10) :: acc in
      if n <? 10 then acc else digits_loop fuel (n / 10) acc
  end.
Definition decimal (n : Z) : list byte := digits_loop 20 n [].

Definition AppendNumberTo (s : list byte) (num : Z) : list byte := s ++ decimal num.
Definition NumberToString (num : Z) : list byte := AppendNumberTo [] num.

(** A digit of [%x]. *)
Definition hex_digit (n : Z) : byte := z2b (if n <? 10 then 48 + n else 87 + n).

(** One character of [AppendEscapedStringTo]; the comparison is on a signed [char]. *)
Definition escape_char (c : byte) : list byte :=
  if (32 <=? b2c c) && (b2c c <=? 126) then [c]
  else
    let v := Z.land (b2c c) 0xff in
    [z2b 92; z2b 120; hex_digit (v / 16); hex_digit (v mod 16)].
Definition AppendEscapedStringTo (s value : list byte) : list byte :=
  s ++ concat (map escape_char value).
Definition EscapeString (value : list byte) : list byte := AppendEscapedStringTo [] value.

Definition kMaxUint64 : Z := 2 ^ 64 - 1.

(** [ConsumeDecimalNumber]: the value, if any, and the new [*in]. *)
Fixpoint consume_loop (inp : list byte) (v digits : Z) : option Z * list byte :=
  match inp with
  | [] => (if 0 <? digits then Some v else None, [])
  | c :: inp' =>
      if (48 <=? b2c c) && (b2c c <=? 57) then
        let delta := b2c c - 48 in
        if (kMaxUint64 / 10 <? v) || ((v =? kMaxUint64 / 10) && (kMaxUint64 mod 10 <? delta))
        then (None, inp)
        else consume_loop inp' (u64 (v * 10 + delta)) (digits + 1)
      else (if 0 <? digits then Some v else None, inp)
  end.
Definition ConsumeDecimalNumber (inp : list byte) : option Z * list byte := consume_loop inp 0 0.

(** ** Lemmas *)

(** [state] is the representation of [s]. *)
Definition represents (s : status) (state : option (list byte)) : Prop :=
  match s, state with
  | None, None => True
  | Some (c, msg), Some a => a = le_bytes 4 (blen msg) ++ [z2b (code_value c)] ++ msg ∧ blen msg + 5 < 2 ^ 32
  | _, _ => False
  end.

Lemma status_new fresh code msg msg2 :
  (∀ n, 0 ≤ n → blen (fresh n) = n) → blen msg + 2 + blen msg2 + 5 < 2 ^ 32 →
  ∃ st, StatusRep.new fresh code msg msg2 = Ok st ∧ represents (status_err code msg msg2) st.
Proof.
  intros Hfresh Hlen. pose proof (blen_nonneg msg). pose proof (blen_nonneg msg2).
  unfold StatusRep.new. cbv zeta.
  rewrite (u32_small (blen msg)), (u32_small (blen msg2)) by (unfold is_u32; lia).
  rewrite (u32_small (2 + _)) by (unfold is_u32; lia).
  set (ext := if blen msg2 =? 0 then 0 else 2 + blen msg2).
  assert (0 ≤ ext ≤ 2 + blen msg2) as Hext by (subst ext; destruct (blen msg2 =? 0); lia).
  rewrite (u32_small (_ + ext)) by (unfold is_u32; lia).
  rewrite u32_small by (unfold is_u32; lia).
  specialize (Hfresh (blen msg + ext + 5) ltac:(lia)). revert Hfresh.
  generalize (fresh (blen msg + ext + 5)). intros a Ha.
  assert (∃ a0 a1 a2 a3, a = a0 ++ a1 ++ a2 ++ a3 ∧ length a0 = 4%nat ∧ length a1 = 1%nat ∧
    length a2 = length msg ∧ blen a3 = ext) as (a0 & a1 & a2 & a3 & -> & Hl0 & Hl1 & Hl2 & Hl3).
  { exists (take 4 a), (take 1 (drop 4 a)), (take (length msg) (drop 1 (drop 4 a))),
      (drop (length msg) (drop 1 (drop 4 a))).
    rewrite !take_drop, !length_take. unfold blen in *. rewrite !length_drop. split_and!; [done | lia ..]. }
  set (hd := le_bytes 4 (blen msg + ext)). assert (length hd = 4%nat) as Hhd by done.
  pose proof (mem_write_middle [] a0 (a1 ++ a2 ++ a3) hd 0 eq_refl ltac:(lia)) as E. cbn [app] in E.
  rewrite E. cbn [mbind outcome_bind]. clear E.
  rewrite (mem_write_middle hd a1) by done. cbn [mbind outcome_bind].
  rewrite !mem_read_all. cbn [mbind outcome_bind].
  rewrite (app_assoc hd), (mem_write_middle (hd ++ _) a2) by (rewrite ?blen_app; done).
  cbn [mbind outcome_bind].
  destruct (Z.eqb_spec (blen msg2) 0) as [E0|E0]; subst ext.
  - eexists. split; [done|]. apply blen_nil_inv in E0. subst msg2.
    apply blen_nil_inv in Hl3. subst a3. unfold represents, status_err. rewrite !app_nil_r.
    subst hd. rewrite Z.add_0_r. split; [by rewrite <- app_assoc | lia].
  - assert (∃ x y z, a3 = [x] ++ [y] ++ z ∧ length z = length msg2) as (x & y & z & -> & Hz).
    { destruct a3 as [|x [|y z]]; unfold blen in *; simpl in Hl3; try lia.
      exists x, y, z. split; [done | lia]. }
    rewrite !(app_assoc (hd ++ _) msg).
    rewrite (mem_write_middle _ [x]) by (unfold blen; rewrite ?length_app, ?Hhd; simpl; lia || done).
    cbn [mbind outcome_bind]. rewrite (app_assoc _ (str ":")).
    rewrite (mem_write_middle _ [y]) by (unfold blen; rewrite ?length_app, ?Hhd; simpl; lia || done).
    cbn [mbind outcome_bind]. rewrite (app_assoc _ (str " ")).
    rewrite <- (app_nil_r z).
    rewrite (mem_write_middle _ z) by (unfold blen; rewrite ?length_app, ?Hhd; simpl; lia || done).
    cbn [mbind outcome_bind]. eexists. split; [done|].
    unfold represents, status_err. destruct msg2 as [|m msg2]; [done|].
    assert (blen (msg ++ str ": " ++ m :: msg2) = blen msg + (2 + blen (m :: msg2))) as E.
    { rewrite !blen_app. change (blen (str ": ")) with 2. lia. }
    rewrite E. subst hd. split; [|lia]. rewrite <- !app_assoc, app_nil_r. done.
Qed.

Lemma represents_len s a :
  represents (Some s) (Some a) →
  ∃ c msg, s = (c, msg) ∧ a = le_bytes 4 (blen msg) ++ [z2b (code_value c)] ++ msg ∧
    blen msg + 5 < 2 ^ 32 ∧ mem_read a 0 4 = Ok (le_bytes 4 (blen msg)) ∧
    le_val (le_bytes 4 (blen msg)) = blen msg ∧ blen a = blen msg + 5.
Proof.
  destruct s as [c msg]. intros [-> Hl]. exists c, msg. pose proof (blen_nonneg msg).
  split_and!; try done.
  - apply (mem_read_prefix (le_bytes 4 (blen msg))).
  - rewrite le_val_le_bytes. apply Z.mod_small. simpl. lia.
  - rewrite !blen_app. unfold blen at 1. rewrite length_le_bytes. unfold blen. simpl. lia.
Qed.

Lemma copy_represents fresh s a :
  (∀ n, 0 ≤ n → blen (fresh n) = n) → represents (Some s) (Some a) →
  StatusRep.CopyState fresh a = Ok a.
Proof.
  intros Hfresh (c & msg & -> & _ & Hl & Hr & Hv & Ha)%represents_len.
  unfold StatusRep.CopyState. rewrite Hr. cbn [mbind outcome_bind]. rewrite Hv. cbv zeta.
  pose proof (blen_nonneg msg). rewrite u32_small by (unfold is_u32; lia).
  specialize (Hfresh (blen msg + 5) ltac:(lia)).
  rewrite memcpy_ok by lia. f_equal. unfold blen in *.
  rewrite firstn_all2, skipn_all2 by lia. apply app_nil_r.
Qed.

Lemma code_char c : b2c (z2b (code_value c)) = code_value c.
Proof. by destruct c. Qed.

Lemma code_read n c msg :
  mem_read (le_bytes 4 n ++ [z2b (code_value c)] ++ msg) 4 1 = Ok [z2b (code_value c)].
Proof.
  rewrite mem_read_ok; [done | lia | lia |].
  rewrite !blen_app. pose proof (blen_nonneg msg). unfold blen at 1 2. rewrite length_le_bytes. simpl. lia.
Qed.

Lemma ToString_represents unknown s st :
  represents s st → StatusRep.ToString unknown st = Ok (status_text s).
Proof.
  destruct s as [[c' m']|], st as [a|]; try done. intros Hr.
  destruct (represents_len (c', m') a Hr) as (c & msg & [= -> ->] & -> & Hl & Hr4 & Hv & Ha).
  unfold StatusRep.ToString, StatusRep.code.
  rewrite code_read. cbn [mbind outcome_bind].
  rewrite code_char, Hr4. cbn [mbind outcome_bind]. rewrite Hv.
  rewrite mem_read_ok by (try rewrite Ha; pose proof (blen_nonneg msg); lia).
  cbn [mbind outcome_bind]. unfold blen. rewrite Nat2Z.id.
  replace (drop (Z.to_nat 5) _) with msg by done. rewrite firstn_all. by destruct c.
Qed.

(** *** Numbers *)

Lemma digit_char d : 0 ≤ d < 10 → b2c (z2b (48 + d)) = 48 + d.
Proof. intros. unfold b2c, sint. rewrite b2z_z2b, (Z.mod_small (48 + d)) by lia. simpl. rewrite Z.mod_small; lia. Qed.

(** The value of a string of digits after a prefix of value [v]. *)
Definition digits_value (ds : list Z) (v : Z) : Z := foldl (λ v d, v * 10 + d) v ds.

(** [decimal n] is a non-empty string of digits whose value is [n]. *)
Lemma digits_loop_spec fuel n acc :
  0 ≤ n < 10 ^ Z.of_nat fuel → (0 < fuel)%nat →
  ∃ ds, ds ≠ [] ∧ Forall (λ d, 0 ≤ d < 10) ds ∧ digits_value ds 0 = n ∧
    digits_loop fuel n acc = map (λ d, z2b (48 + d)) ds ++ acc.
Proof.
  revert n acc. induction fuel as [|f IH]; intros n acc Hn Hf; [lia|]. simpl.
  pose proof (Z.mod_pos_bound n 10 eq_refl).
  destruct (Z.ltb_spec n 10) as [Hlt|Hge].
  - exists [n]. split; [done|]. split; [repeat constructor; lia|]. split; [done|].
    rewrite (Z.mod_small n 10) by lia. done.
  - rewrite Nat2Z.inj_succ, Z.pow_succ_r in Hn by lia.
    assert (0 ≤ n / 10 < 10 ^ Z.of_nat f) as Hd by dlia.
    assert (0 < f)%nat as Hf' by (destruct f; [simpl in Hd; dlia | lia]).
    destruct (IH (n / 10) (z2b (48 + n mod 10) :: acc) Hd Hf') as (ds & Hne & Hall & Hv & ->).
    exists (ds ++ [n mod 10]). split; [by destruct ds|].
    split; [apply Forall_app; split; [done | by constructor]|].
    split; [unfold digits_value in *; rewrite foldl_app, Hv; simpl; dlia|].
    rewrite map_app, <- app_assoc. done.
Qed.

(** The parser on a run of digits: the accumulated value, or a failure as soon as it does
    not fit 64 bits. *)
Lemma digits_value_mono ds v : Forall (λ d, 0 ≤ d < 10) ds → 0 ≤ v → v ≤ digits_value ds v.
Proof.
  revert v. induction ds as [|d ds IH]; intros v Hd Hv; [simpl; lia|].
  apply Forall_cons_1 in Hd as [Hd Hds]. simpl. specialize (IH (v * 10 + d) Hds). lia.
Qed.

Definition no_digit (rest : list byte) : Prop :=
  match rest with c :: _ => ¬ (48 ≤ b2c c ≤ 57) | [] => True end.

Lemma consume_digits ds v n rest :
  Forall (λ d, 0 ≤ d < 10) ds → 0 ≤ v < 2 ^ 64 → 0 ≤ n → no_digit rest → (ds ≠ [] ∨ 0 < n) →
  (digits_value ds v < 2 ^ 64 →
     consume_loop (map (λ d, z2b (48 + d)) ds ++ rest) v n = (Some (digits_value ds v), rest)) ∧
  (2 ^ 64 ≤ digits_value ds v →
     (consume_loop (map (λ d, z2b (48 + d)) ds ++ rest) v n).1 = None).
Proof.
  intros Hds. revert v n. induction Hds as [|d ds Hd Hds IH]; intros v n Hv Hn Hrest Hne.
  - simpl. split; [|lia]. destruct Hne as [|Hpos]; [done|]. intros _.
    destruct rest as [|c rest]; simpl.
    + by destruct (Z.ltb_spec 0 n); [|lia].
    + simpl in Hrest. destruct (Z.leb_spec 48 (b2c c)), (Z.leb_spec (b2c c) 57); try lia; simpl;
        by destruct (Z.ltb_spec 0 n); [|lia].
  - simpl. rewrite digit_char by lia.
    destruct (Z.leb_spec 48 (48 + d)), (Z.leb_spec (48 + d) 57); try lia. cbn [andb].
    replace (48 + d - 48) with d by lia.
    assert (((kMaxUint64 / 10 <? v) || ((v =? kMaxUint64 / 10) && (kMaxUint64 mod 10 <? d))) =
            (2 ^ 64 <=? v * 10 + d)) as ->.
    { unfold kMaxUint64. change ((2 ^ 64 - 1) / 10) with 1844674407370955161.
      change ((2 ^ 64 - 1) mod 10) with 5.
      destruct (Z.ltb_spec 1844674407370955161 v), (Z.eqb_spec v 1844674407370955161),
        (Z.ltb_spec 5 d), (Z.leb_spec (2 ^ 64) (v * 10 + d)); try done; lia. }
    destruct (Z.leb_spec (2 ^ 64) (v * 10 + d)) as [Hov|Hok].
    + pose proof (digits_value_mono ds (v * 10 + d) Hds ltac:(lia)) as Hm.
      split; [|done]. intros. exfalso. unfold digits_value in *. lia.
    + rewrite u64_small by (unfold is_u64; lia). apply IH; try lia; done || (right; lia).
Qed.

(** ** Properties *)

(** The representation of a status.  For every code and messages of less than
    4 GiB together, the constructor writes within the array it allocates and the result
    represents the code and the message "msg: msg2" (or "msg"); copying a status gives
    an equal array; [ToString] reads within the array and prints the code and the
    message. *)
Lemma status_implements (fresh : Z → list byte) (unknown : Z → list byte) (code : Code)
    (msg msg2 : list byte) (Hfresh : ∀ n, 0 ≤ n → blen (fresh n) = n)
    (Hlen : blen msg + 2 + blen msg2 + 5 < 2 ^ 32) :
  ∃ a, StatusRep.new fresh code msg msg2 = Ok (Some a) ∧
    represents (status_err code msg msg2) (Some a) ∧
    StatusRep.CopyState fresh a = Ok a ∧
    StatusRep.code (Some a) = Ok (code_value code) ∧
    StatusRep.ToString unknown (Some a) = Ok (status_text (status_err code msg msg2)).
Proof.
  destruct (status_new fresh code msg msg2 Hfresh Hlen) as ([a|] & E & Hr); [|done].
  exists a. split; [done|]. split; [done|].
  split; [by apply (copy_represents fresh (code, msg ++ match msg2 with [] => [] | _ => str ": " ++ msg2 end))|].
  split; [|by apply ToString_represents].
  destruct (represents_len _ _ Hr) as (c & m & [= <- <-] & -> & _ & _ & _ & Ha).
  unfold StatusRep.code. rewrite code_read. cbn [mbind outcome_bind].
  by rewrite code_char.
Qed.

(** Numbers in file names and descriptors.  [ConsumeDecimalNumber] reads back what
    [NumberToString] printed for every 64-bit number and stops at the first other
    character; on any string of digits it returns the number they denote if it fits
    64 bits and fails otherwise, never a wrapped value. *)
Lemma decimal_roundtrip (n : Z) (ds : list Z) (rest : list byte)
    (Hn : is_u64 n) (Hds : Forall (λ d, 0 ≤ d < 10) ds) (Hne : ds ≠ []) (Hrest : no_digit rest) :
  ConsumeDecimalNumber (NumberToString n ++ rest) = (Some n, rest) ∧
  (digits_value ds 0 < 2 ^ 64 →
     ConsumeDecimalNumber (map (λ d, z2b (48 + d)) ds ++ rest) = (Some (digits_value ds 0), rest)) ∧
  (2 ^ 64 ≤ digits_value ds 0 →
     (ConsumeDecimalNumber (map (λ d, z2b (48 + d)) ds ++ rest)).1 = None).
Proof.
  split; [|apply consume_digits; try lia; auto].
  unfold NumberToString, AppendNumberTo, decimal. rewrite app_nil_l. unfold is_u64 in Hn.
  destruct (digits_loop_spec 20 n []) as (es & Hes & Hall & Hv & ->); [|lia|].
  { change (10 ^ Z.of_nat 20) with 100000000000000000000. lia. }
  rewrite app_nil_r, <- Hv. apply consume_digits; try lia; auto.
Qed.

