(* ===== verification/WriteBatch.v ===== *)
(** * db/write_batch.cc: batches of updates

    A batch is its byte string [rep_].  [batch_repr] says which updates and which
    sequence number a string stands for; the operations are shown to implement the
    abstract batch, and [Iterate] to be total on arbitrary bytes. *)
From S2P Require Import Prelude.
From S2P Require Import Coding.
From S2P Require Import Status.
From S2P Require Import Dbformat.

(** ** Definitions *)

Definition kHeader : nat := 12.

(** [Clear]: [resize] fills with zero bytes. *)
Definition Clear : list byte := replicate kHeader (z2b 0).

Definition Count (rep : list byte) : outcome Z :=
  n ← DecodeFixed32 (drop 8 rep); mret (s32 n).
Definition SetCount (rep : list byte) (n : Z) : outcome (list byte) :=
  mem_write rep 8 (EncodeFixed32 (u32 n)).
Definition Sequence (rep : list byte) : outcome Z := DecodeFixed64 rep.
Definition SetSequence (rep : list byte) (seq : Z) : outcome (list byte) :=
  mem_write rep 0 (EncodeFixed64 seq).
Definition Contents (rep : list byte) : list byte := rep.
Definition ByteSize (rep : list byte) : Z := blen rep.
Definition SetContents (contents : list byte) : list byte := contents.

Definition Put (rep key value : list byte) : outcome (list byte) :=
  n ← Count rep;
  rep ← SetCount rep (n + 1);
  let rep := rep ++ [z2b (type_value kTypeValue)] in
  let rep := PutLengthPrefixedSlice rep key in
  mret (PutLengthPrefixedSlice rep value).

Definition Delete (rep key : list byte) : outcome (list byte) :=
  n ← Count rep;
  rep ← SetCount rep (n + 1);
  let rep := rep ++ [z2b (type_value kTypeDeletion)] in
  mret (PutLengthPrefixedSlice rep key).

Definition Append (dst src : list byte) : outcome (list byte) :=
  n ← Count dst;
  m ← Count src;
  dst ← SetCount dst (n + m);
  mret (dst ++ drop kHeader src).

(** [WriteBatch::Handler]: an object with a state of its own. *)
Record Handler (S : Type) := mkHandler {
  h_Put : S → list byte → list byte → S;
  h_Delete : S → list byte → S
}.
Arguments mkHandler {S} _ _.
Arguments h_Put {S} _.
Arguments h_Delete {S} _.

(** The loop of [Iterate]: an early return with its status, or the number of records
    found.  Every round consumes the tag, so the length of the input is enough fuel
    ([iterate_loop_total]); without fuel there is no result. *)
Fixpoint iterate_loop {S} (h : Handler S) (fuel : nat) (input : list byte) (found : Z) (s : S)
    : option (S * (status + Z)) :=
  match fuel, input with
  | _, [] => Some (s, inr found)
  | O, _ => None
  | Datatypes.S fuel, tag :: input =>
      let found := found + 1 in
      if b2c tag =? type_value kTypeValue then
        match GetLengthPrefixedSlice input with
        | (Some key, input) =>
            match GetLengthPrefixedSlice input with
            | (Some value, input) => iterate_loop h fuel input found (h_Put h s key value)
            | (None, _) => Some (s, inl (Corruption (str "bad WriteBatch Put")))
            end
        | (None, _) => Some (s, inl (Corruption (str "bad WriteBatch Put")))
        end
      else if b2c tag =? type_value kTypeDeletion then
        match GetLengthPrefixedSlice input with
        | (Some key, input) => iterate_loop h fuel input found (h_Delete h s key)
        | (None, _) => Some (s, inl (Corruption (str "bad WriteBatch Delete")))
        end
      else Some (s, inl (Corruption (str "unknown WriteBatch tag")))
  end.

(** [Iterate]; [Blocked] is the result of a loop without fuel, which does not occur
    ([Iterate_total]). *)
Definition Iterate {S} (rep : list byte) (h : Handler S) (s : S) : outcome (S * status) :=
  if (length rep <? kHeader)%nat
  then mret (s, Corruption (str "malformed WriteBatch (too small)"))
  else
    match iterate_loop h (length rep) (drop kHeader rep) 0 s with
    | None => Blocked
    | Some (s, inl st) => mret (s, st)
    | Some (s, inr found) =>
        n ← Count rep;
        mret (s, if found =? n then status_ok
                 else Corruption (str "WriteBatch has wrong count"))
    end.

(** [MemTableInserter]: the sequence number and the table, whose [Add] is a parameter. *)
Definition MemTableInserter {M} (Add : M → Z → ValueType → list byte → list byte → M)
    : Handler (Z * M) :=
  mkHandler
    (λ '(seq, mem) key value, (u64 (seq + 1), Add mem seq kTypeValue key value))
    (λ '(seq, mem) key, (u64 (seq + 1), Add mem seq kTypeDeletion key [])).

Definition InsertInto {M} (Add : M → Z → ValueType → list byte → list byte → M)
    (rep : list byte) (memtable : M) : outcome (M * status) :=
  seq ← Sequence rep;
  r ← Iterate rep (MemTableInserter Add) (seq, memtable);
  mret (r.1.2, r.2).

(** ** The abstract batch *)

Inductive update := UPut (key value : list byte) | UDelete (key : list byte).
#[export] Instance update_eq_dec : EqDecision update.
Proof. solve_decision. Defined.

Definition update_ok (u : update) : Prop :=
  match u with
  | UPut k v => blen k < 2 ^ 32 ∧ blen v < 2 ^ 32
  | UDelete k => blen k < 2 ^ 32
  end.
Definition encode_update (u : update) : list byte :=
  match u with
  | UPut k v => [z2b 1] ++ PutLengthPrefixedSlice [] k ++ PutLengthPrefixedSlice [] v
  | UDelete k => [z2b 0] ++ PutLengthPrefixedSlice [] k
  end.
Definition encode_updates (us : list update) : list byte := concat (map encode_update us).

(** What the handler does with an update. *)
Definition apply_update {S} (h : Handler S) (s : S) (u : update) : S :=
  match u with UPut k v => h_Put h s k v | UDelete k => h_Delete h s k end.

(** The bytes of a batch: the sequence number, the count and the records. *)
Definition batch_repr (rep : list byte) (seq : Z) (us : list update) : Prop :=
  rep = EncodeFixed64 seq ++ EncodeFixed32 (Z.of_nat (length us)) ++ encode_updates us ∧
  is_u64 seq ∧ Z.of_nat (length us) < 2 ^ 31 ∧ Forall update_ok us.

(** The updates applied to a memtable with consecutive sequence numbers. *)
Fixpoint add_updates {M} (Add : M → Z → ValueType → list byte → list byte → M)
    (mem : M) (seq : Z) (us : list update) : M :=
  match us with
  | [] => mem
  | UPut k v :: us => add_updates Add (Add mem seq kTypeValue k v) (seq + 1) us
  | UDelete k :: us => add_updates Add (Add mem seq kTypeDeletion k []) (seq + 1) us
  end.

(** ** Lemmas *)

Lemma batch_header seq n rest :
  DecodeFixed32 (drop 8 (EncodeFixed64 seq ++ EncodeFixed32 n ++ rest)) =
  DecodeFixed32 (EncodeFixed32 n ++ rest).
Proof. done. Qed.

Lemma Clear_repr : batch_repr Clear 0 [].
Proof. repeat split; [done | constructor]. Qed.

Lemma Count_repr rep seq us : batch_repr rep seq us → Count rep = Ok (Z.of_nat (length us)).
Proof.
  intros (-> & _ & Hn & _). unfold Count. rewrite batch_header, DecodeFixed32_Encode by (unfold is_u32; lia).
  cbn [mbind outcome_bind mret outcome_ret]. by rewrite s32_small by lia.
Qed.

Lemma Sequence_repr rep seq us : batch_repr rep seq us → Sequence rep = Ok seq.
Proof. intros (-> & Hs & _). by apply DecodeFixed64_Encode. Qed.

Lemma SetCount_header seq n m rest :
  0 ≤ m < 2 ^ 31 →
  SetCount (EncodeFixed64 seq ++ EncodeFixed32 n ++ rest) m =
  Ok (EncodeFixed64 seq ++ EncodeFixed32 m ++ rest).
Proof.
  intros Hm. unfold SetCount. rewrite u32_small by (unfold is_u32; lia).
  by apply mem_write_middle.
Qed.

Lemma encode_updates_app us vs : encode_updates (us ++ vs) = encode_updates us ++ encode_updates vs.
Proof. unfold encode_updates. by rewrite map_app, concat_app. Qed.

(** Adding a record to a batch. *)
Lemma batch_snoc rep seq us u :
  batch_repr rep seq us → update_ok u → Z.of_nat (length us) + 1 < 2 ^ 31 →
  ∃ rep1, (n ← Count rep; SetCount rep (n + 1)) = Ok rep1 ∧
    batch_repr (rep1 ++ encode_update u) seq (us ++ [u]).
Proof.
  intros Hr Hu Hn. pose proof (Count_repr _ _ _ Hr) as Hc. destruct Hr as (-> & Hs & Hlen & Hall).
  rewrite Hc. cbn [mbind outcome_bind]. rewrite SetCount_header by lia. eexists. split; [done|].
  unfold batch_repr. rewrite length_app. cbn [length].
  replace (Z.of_nat (length us + 1)) with (Z.of_nat (length us) + 1) by lia.
  split_and!; [| apply Hs .. | lia | apply Forall_app; auto].
  rewrite encode_updates_app, <- !app_assoc. unfold encode_updates at 3. simpl concat.
  by rewrite app_nil_r.
Qed.

Lemma Put_repr rep seq us k v :
  batch_repr rep seq us → update_ok (UPut k v) → Z.of_nat (length us) + 1 < 2 ^ 31 →
  ∃ rep', Put rep k v = Ok rep' ∧ batch_repr rep' seq (us ++ [UPut k v]).
Proof.
  intros Hr Hu Hn. destruct (batch_snoc _ _ _ _ Hr Hu Hn) as (rep1 & E & Hrep).
  unfold Put. rewrite (Count_repr _ _ _ Hr) in *. cbn [mbind outcome_bind] in *. rewrite E.
  eexists. split; [done|]. cbv zeta.
  rewrite (PutLengthPrefixedSlice_app _ v), (PutLengthPrefixedSlice_app _ k), <- !app_assoc.
  exact Hrep.
Qed.

Lemma Delete_repr rep seq us k :
  batch_repr rep seq us → update_ok (UDelete k) → Z.of_nat (length us) + 1 < 2 ^ 31 →
  ∃ rep', Delete rep k = Ok rep' ∧ batch_repr rep' seq (us ++ [UDelete k]).
Proof.
  intros Hr Hu Hn. destruct (batch_snoc _ _ _ _ Hr Hu Hn) as (rep1 & E & Hrep).
  unfold Delete. rewrite (Count_repr _ _ _ Hr) in *. cbn [mbind outcome_bind] in *. rewrite E.
  eexists. split; [done|]. cbv zeta. rewrite (PutLengthPrefixedSlice_app _ k), <- !app_assoc.
  exact Hrep.
Qed.

Lemma Append_repr dst src seq seq' us vs :
  batch_repr dst seq us → batch_repr src seq' vs → Z.of_nat (length us + length vs) < 2 ^ 31 →
  ∃ dst', Append dst src = Ok dst' ∧ batch_repr dst' seq (us ++ vs).
Proof.
  intros Hd Hsrc Hn. unfold Append. rewrite (Count_repr _ _ _ Hd), (Count_repr _ _ _ Hsrc).
  cbn [mbind outcome_bind]. destruct Hd as (-> & Hs & _ & Hus), Hsrc as (-> & _ & _ & Hvs).
  rewrite SetCount_header by lia. eexists. split; [done|]. unfold batch_repr.
  rewrite length_app, encode_updates_app, Nat2Z.inj_add, <- !app_assoc.
  split_and!; [done | apply Hs .. | lia | by apply Forall_app].
Qed.

Lemma SetSequence_repr rep seq seq' us :
  batch_repr rep seq us → is_u64 seq' →
  ∃ rep', SetSequence rep seq' = Ok rep' ∧ batch_repr rep' seq' us.
Proof.
  intros (-> & _ & Hn & Hall) Hs. unfold SetSequence.
  pose proof (mem_write_middle [] (EncodeFixed64 seq) (EncodeFixed32 (Z.of_nat (length us)) ++ encode_updates us)
    (EncodeFixed64 seq') 0 eq_refl eq_refl) as E. cbn [app] in E. rewrite E.
  eexists. by split; [|split].
Qed.

(** *** Iteration *)

Lemma encode_update_length u : (1 ≤ length (encode_update u))%nat.
Proof. destruct u; simpl; lia. Qed.

Lemma iterate_loop_updates {S} (h : Handler S) us fuel found s :
  Forall update_ok us → (length (encode_updates us) ≤ fuel)%nat →
  iterate_loop h fuel (encode_updates us) found s =
  Some (foldl (apply_update h) s us, inr (found + Z.of_nat (length us))).
Proof.
  intros Hus. revert fuel found s. induction Hus as [|u us Hu Hus IH]; intros fuel found s Hf.
  { replace (found + Z.of_nat (length (@nil update))) with found by (simpl; lia). by destruct fuel. }
  change (encode_updates (u :: us)) with (encode_update u ++ encode_updates us) in *.
  rewrite length_app in Hf. pose proof (encode_update_length u).
  destruct fuel as [|fuel]; [lia|].
  replace (found + Z.of_nat (length (u :: us))) with (found + 1 + Z.of_nat (length us)) by (simpl; lia).
  destruct u as [k v|k]; cbn [encode_update app iterate_loop] in *.
  - change (b2c (z2b 1) =? type_value kTypeValue) with true. cbv iota.
    destruct Hu as [Hk Hv].
    rewrite <- app_assoc, GetLengthPrefixedSlice_Put, GetLengthPrefixedSlice_Put by done.
    rewrite IH; [done | simpl in *; lia].
  - change (b2c (z2b 0) =? type_value kTypeValue) with false.
    change (b2c (z2b 0) =? type_value kTypeDeletion) with true. cbv iota.
    rewrite GetLengthPrefixedSlice_Put by done. rewrite IH; [done | simpl in *; lia].
Qed.

Lemma drop_header seq n rest : drop kHeader (EncodeFixed64 seq ++ EncodeFixed32 n ++ rest) = rest.
Proof. done. Qed.

Lemma Iterate_repr {S} rep seq us (h : Handler S) s :
  batch_repr rep seq us → Iterate rep h s = Ok (foldl (apply_update h) s us, status_ok).
Proof.
  intros Hr. pose proof (Count_repr _ _ _ Hr) as Hc. destruct Hr as (-> & Hs & Hn & Hus).
  unfold Iterate. rewrite drop_header.
  assert (length (EncodeFixed64 seq ++ EncodeFixed32 (Z.of_nat (length us)) ++ encode_updates us) =
          12 + length (encode_updates us))%nat as Hlen by (rewrite !length_app; done).
  rewrite Hlen. destruct (Nat.ltb_spec (12 + length (encode_updates us)) kHeader);
    [unfold kHeader in *; lia|].
  rewrite iterate_loop_updates by (done || lia). rewrite Hc. cbn [mbind outcome_bind].
  by rewrite Z.add_0_l, Z.eqb_refl.
Qed.

(** On arbitrary bytes the loop ends and calls the handler for the records before the
    first malformed one. *)
Lemma iterate_loop_total {S} (h : Handler S) fuel input found s :
  (length input ≤ fuel)%nat →
  ∃ us r, iterate_loop h fuel input found s = Some (foldl (apply_update h) s us, r) ∧
    match r with inl st => ok st = false | inr n => n = found + Z.of_nat (length us) end.
Proof.
  revert input found s. induction fuel as [|fuel IH]; intros [|tag input] found s Hf; simpl in Hf;
    try lia; try (exists [], (inr found); simpl; split; [done | lia]).
  cbn [iterate_loop].
  assert (∀ st, ok st = false → ∃ us r, Some (s, inl st) = Some (foldl (apply_update h) s us, r) ∧
    match r with inl st => ok st = false | inr n => n = found + Z.of_nat (length us) end) as Herr.
  { intros st Hst. by exists [], (inl st). }
  assert (∀ u input', (length input' ≤ length input)%nat →
    ∃ us r, iterate_loop h fuel input' (found + 1) (apply_update h s u) =
      Some (foldl (apply_update h) s us, r) ∧
    match r with inl st => ok st = false | inr n => n = found + Z.of_nat (length us) end) as Hrec.
  { intros u input' Hl. destruct (IH input' (found + 1) (apply_update h s u)) as (us & r & -> & Hr); [lia|].
    exists (u :: us), r. split; [done|]. destruct r; [done | simpl; lia]. }
  assert (∀ p x rest, GetLengthPrefixedSlice p = (Some x, rest) → (length rest ≤ length p)%nat) as Hshrink.
  { intros p x rest (pre & -> & _)%GetLengthPrefixedSlice_shrinks. rewrite !length_app. lia. }
  destruct (b2c tag =? type_value kTypeValue).
  - destruct (GetLengthPrefixedSlice input) as [[k|] i1] eqn:E1; [|by apply Herr].
    destruct (GetLengthPrefixedSlice i1) as [[v|] i2] eqn:E2; [|by apply Herr].
    apply (Hrec (UPut k v)). apply Hshrink in E1, E2. lia.
  - destruct (b2c tag =? type_value kTypeDeletion); [|by apply Herr].
    destruct (GetLengthPrefixedSlice input) as [[k|] i1] eqn:E1; [|by apply Herr].
    apply (Hrec (UDelete k)). by apply Hshrink in E1.
Qed.

Lemma Iterate_total {S} rep (h : Handler S) s :
  ∃ us st, Iterate rep h s = Ok (foldl (apply_update h) s us, st) ∧
    (st = status_ok → Count rep = Ok (Z.of_nat (length us))).
Proof.
  unfold Iterate. destruct (Nat.ltb_spec (length rep) kHeader).
  { exists [], (Corruption (str "malformed WriteBatch (too small)")). split; [done | discriminate]. }
  destruct (iterate_loop_total h (length rep) (drop kHeader rep) 0 s) as (us & [st|n] & -> & Hr);
    [rewrite length_drop; lia | |].
  - exists us, st. split; [done|]. intros ->. discriminate.
  - assert (∃ c, Count rep = Ok c) as [c Hc].
    { unfold Count, DecodeFixed32. rewrite mem_read_ok; [by eexists | lia | lia |].
      unfold blen, kHeader in *. rewrite length_drop. lia. }
    rewrite Hc. cbn [mbind outcome_bind mret outcome_ret].
    exists us. eexists. split; [done|]. destruct (Z.eqb_spec n c); [|discriminate].
    intros _. f_equal. lia.
Qed.

Lemma foldl_inserter {M} (Add : M → Z → ValueType → list byte → list byte → M) us mem seq :
  0 ≤ seq → seq + Z.of_nat (length us) < 2 ^ 64 →
  (foldl (apply_update (MemTableInserter Add)) (seq, mem) us).2 = add_updates Add mem seq us.
Proof.
  revert mem seq. induction us as [|[k v|k] us IH]; intros mem seq Hs Hn; [done|..];
    cbn [length] in Hn; cbn [foldl apply_update MemTableInserter h_Put h_Delete add_updates];
    rewrite u64_small by (unfold is_u64; lia); apply IH; lia.
Qed.

(** ** Properties *)

(** C20: A batch is the list of its updates.  The empty batch holds none; [Put], [Delete]
    and [Append] extend the list and count in step and stay within the bytes;
    [SetSequence] changes only the sequence number; and [Iterate] of the resulting
    bytes calls the handler for exactly these updates in this order and succeeds.
    (Keys and values of less than 4 GiB, fewer than 2^31 updates.) *)
Theorem batch_refines {S} (h : Handler S) (s : S) (rep src : list byte) (seq seq' : Z)
    (us vs : list update) (k v : list byte)
    (Hr : batch_repr rep seq us) (Hsrc : batch_repr src seq' vs)
    (Hu : update_ok (UPut k v)) (Hn : Z.of_nat (length us) + 1 + Z.of_nat (length vs) < 2 ^ 31) :
  batch_repr Clear 0 [] ∧
  (∃ r, Put rep k v = Ok r ∧ batch_repr r seq (us ++ [UPut k v])) ∧
  (∃ r, Delete rep k = Ok r ∧ batch_repr r seq (us ++ [UDelete k])) ∧
  (∃ r, Append rep src = Ok r ∧ batch_repr r seq (us ++ vs)) ∧
  (∃ r, SetSequence rep seq' = Ok r ∧ batch_repr r seq' us) ∧
  Iterate rep h s = Ok (foldl (apply_update h) s us, status_ok).
Proof.
  split; [apply Clear_repr|].
  split; [apply Put_repr; [done.. | lia]|].
  split; [apply Delete_repr; [done | apply Hu | lia]|].
  split; [eapply Append_repr; [done.. | lia]|].
  split; [eapply SetSequence_repr; [done | apply Hsrc] | by eapply Iterate_repr].
Qed.

Lemma batch_refines_witness :
  batch_repr Clear 0 [] ∧
  (∃ r, Put Clear (str "k") (str "v") = Ok r ∧ batch_repr r 0 ([] ++ [UPut (str "k") (str "v")])) ∧
  (∃ r, Delete Clear (str "k") = Ok r ∧ batch_repr r 0 ([] ++ [UDelete (str "k")])) ∧
  (∃ r, Append Clear Clear = Ok r ∧ batch_repr r 0 ([] ++ [])) ∧
  (∃ r, SetSequence Clear 0 = Ok r ∧ batch_repr r 0 []) ∧
  Iterate Clear (mkHandler (λ (n : nat) _ _, Datatypes.S n) (λ n _, n)) 0%nat = Ok (0%nat, status_ok).
Proof.
  apply (batch_refines (mkHandler (λ (n : nat) _ _, Datatypes.S n) (λ n _, n)) 0%nat Clear Clear 0 0 [] []
    (str "k") (str "v") Clear_repr Clear_repr); [split; reflexivity | reflexivity].
Defined.

(** Recovery from a log applies whole batches.  [InsertInto] of a well-formed batch
    adds every update to the memtable with consecutive sequence numbers, the batch's
    first; on arbitrary bytes [Iterate] terminates within its bytes, calls the
    handler only for the records before the first malformed one, and reports success
    only if the number of calls is the stored count. *)
Lemma batch_insert {M S} (Add : M → Z → ValueType → list byte → list byte → M) (mem : M)
    (h : Handler S) (s : S) (rep any : list byte) (seq : Z) (us : list update)
    (Hr : batch_repr rep seq us) (Hseq : seq + Z.of_nat (length us) < 2 ^ 64) :
  InsertInto Add rep mem = Ok (add_updates Add mem seq us, status_ok) ∧
  ∃ vs st, Iterate any h s = Ok (foldl (apply_update h) s vs, st) ∧
    (st = status_ok → Count any = Ok (Z.of_nat (length vs))).
Proof.
  split; [|apply Iterate_total]. unfold InsertInto. rewrite (Sequence_repr _ _ _ Hr).
  cbn [mbind outcome_bind]. rewrite (Iterate_repr _ _ _ _ _ Hr). cbn [mbind outcome_bind fst snd].
  destruct Hr as (_ & [Hs _] & _). rewrite foldl_inserter by done. done.
Qed.

