(* ===== verification/Log.v ===== *)
(** * db/log_format.h, db/log_writer.cc, db/log_reader.cc: the write-ahead log

    The writer cuts records into fragments that fit blocks of 32 KiB; the reader puts
    them together again and reports damage.  The files are parameters: a
    [WritableFile] and a [SequentialFile] are types with their operations, and the
    sections that need it say what the operations do to the contents.  [addr] is the
    address of a buffer, on which the alignment of the checksum loop depends. *)
From S2P Require Import Prelude.
From S2P Require Import Coding.
From S2P Require Import Crc32c.
From S2P Require Import Status.

(** ** Definitions *)

Definition kZeroType : Z := 0.
Definition kFullType : Z := 1.
Definition kFirstType : Z := 2.
Definition kMiddleType : Z := 3.
Definition kLastType : Z := 4.
Definition kMaxRecordType : Z := kLastType.
Definition kBlockSize : Z := 32768.
Definition kHeaderSize : Z := 4 + 2 + 1.
Definition kEof : Z := kMaxRecordType + 1.
Definition kBadRecord : Z := kMaxRecordType + 2.

(** *** The writer *)

Module Writer.
Section writer.
Context {F : Type} (file_Append : F → list byte → F * status) (file_Flush : F → F * status).
Context (addr : list byte → Z).

Record writer := mkWriter { dest_ : F; block_offset_ : Z; type_crc_ : list Z }.

(** [InitTypeCrc]. *)
Fixpoint init_type_crc (n : nat) (i : Z) : outcome (list Z) :=
  match n with
  | O => Ok []
  | S n =>
      let t := [z2b i] in
      c ← Value (addr t) t;
      rest ← init_type_crc n (i + 1);
      Ok (c :: rest)
  end.
Definition InitTypeCrc : outcome (list Z) := init_type_crc (Z.to_nat (kMaxRecordType + 1)) 0.

(** The two constructors. *)
Definition new (dest : F) : outcome writer :=
  tc ← InitTypeCrc; Ok (mkWriter dest 0 tc).
Definition new_at (dest : F) (dest_length : Z) : outcome writer :=
  tc ← InitTypeCrc; Ok (mkWriter dest (s32 (dest_length mod kBlockSize)) tc).

Definition EmitPhysicalRecord (w : writer) (t : Z) (fragment : list byte)
    : outcome (writer * status) :=
  let n := blen fragment in
  if negb (n <=? 0xffff) then Ub AssertionFailed
  else if negb (block_offset_ w + kHeaderSize + n <=? kBlockSize) then Ub AssertionFailed
  else
    match type_crc_ w !! Z.to_nat t with
    | None => Ub OutOfBounds
    | Some tc =>
        crc ← Extend (addr fragment) tc fragment;
        let buf := EncodeFixed32 (Mask crc) ++
                   [z2b (Z.land n 0xff); z2b (Z.shiftr n 8); z2b t] in
        let '(f, s) := file_Append (dest_ w) buf in
        let '(f, s) :=
          if ok s then
            let '(f, s) := file_Append f fragment in
            if ok s then file_Flush f else (f, s)
          else (f, s) in
        Ok (mkWriter f (block_offset_ w + (kHeaderSize + n)) (type_crc_ w), s)
    end.

(** The loop of [AddRecord]: every second round at least consumes a byte of the record
    ([AddRecord_frames]), so two rounds more than its length are enough. *)
Fixpoint add_loop (fuel : nat) (w : writer) (begin : bool) (left : list byte)
    : outcome (writer * status) :=
  match fuel with
  | O => Blocked
  | S fuel =>
      let leftover := kBlockSize - block_offset_ w in
      if negb (0 <=? leftover) then Ub AssertionFailed
      else
        let w :=
          if leftover <? kHeaderSize then
            let f := if 0 <? leftover
                     then (file_Append (dest_ w) (replicate (Z.to_nat leftover) (z2b 0))).1
                     else dest_ w in
            mkWriter f 0 (type_crc_ w)
          else w in
        if negb (0 <=? kBlockSize - block_offset_ w - kHeaderSize) then Ub AssertionFailed
        else
          let avail := kBlockSize - block_offset_ w - kHeaderSize in
          let fragment_length := if blen left <? avail then blen left else avail in
          let end_ := blen left =? fragment_length in
          let type := if begin && end_ then kFullType
                      else if begin then kFirstType
                      else if end_ then kLastType
                      else kMiddleType in
          ws ← EmitPhysicalRecord w type (take (Z.to_nat fragment_length) left);
          let left := drop (Z.to_nat fragment_length) left in
          if ok ws.2 && (0 <? blen left) then add_loop fuel ws.1 false left
          else Ok ws
  end.
Definition AddRecord (w : writer) (slice : list byte) : outcome (writer * status) :=
  add_loop (S (S (length slice))) w true slice.

End writer.
Arguments mkWriter {F} _ _ _.
Arguments dest_ {F} _.
Arguments block_offset_ {F} _.
Arguments type_crc_ {F} _.
End Writer.

(** *** The reader *)

Module Reader.
Section reader.
Context {F : Type} (file_Read : F → Z → F * status * list byte) (file_Skip : F → Z → F * status).
Context (addr : list byte → Z).

(** The reader with the calls its reporter received; [reporter_] says whether there is
    one. *)
Record reader := mkReader {
  file_ : F;
  reporter_ : bool;
  checksum_ : bool;
  buffer_ : list byte;
  eof_ : bool;
  last_record_offset_ : Z;
  end_of_buffer_offset_ : Z;
  initial_offset_ : Z;
  resyncing_ : bool;
  reports : list (Z * status)
}.

Definition new (file : F) (reporter checksum : bool) (initial_offset : Z) : reader :=
  mkReader file reporter checksum [] false 0 0 initial_offset (0 <? initial_offset) [].

Definition set_buffer (r : reader) (b : list byte) : reader :=
  mkReader (file_ r) (reporter_ r) (checksum_ r) b (eof_ r) (last_record_offset_ r)
    (end_of_buffer_offset_ r) (initial_offset_ r) (resyncing_ r) (reports r).
Definition set_eof (r : reader) : reader :=
  mkReader (file_ r) (reporter_ r) (checksum_ r) (buffer_ r) true (last_record_offset_ r)
    (end_of_buffer_offset_ r) (initial_offset_ r) (resyncing_ r) (reports r).
Definition set_last (r : reader) (o : Z) : reader :=
  mkReader (file_ r) (reporter_ r) (checksum_ r) (buffer_ r) (eof_ r) o
    (end_of_buffer_offset_ r) (initial_offset_ r) (resyncing_ r) (reports r).
Definition set_file (r : reader) (f : F) (end_ : Z) : reader :=
  mkReader f (reporter_ r) (checksum_ r) (buffer_ r) (eof_ r) (last_record_offset_ r)
    end_ (initial_offset_ r) (resyncing_ r) (reports r).
Definition set_resyncing (r : reader) (b : bool) : reader :=
  mkReader (file_ r) (reporter_ r) (checksum_ r) (buffer_ r) (eof_ r) (last_record_offset_ r)
    (end_of_buffer_offset_ r) (initial_offset_ r) b (reports r).
Definition add_report (r : reader) (bytes : Z) (s : status) : reader :=
  mkReader (file_ r) (reporter_ r) (checksum_ r) (buffer_ r) (eof_ r) (last_record_offset_ r)
    (end_of_buffer_offset_ r) (initial_offset_ r) (resyncing_ r) (reports r ++ [(bytes, s)]).

Definition LastRecordOffset (r : reader) : Z := last_record_offset_ r.

Definition ReportDrop (r : reader) (bytes : Z) (reason : status) : reader :=
  if reporter_ r && (initial_offset_ r <=? u64 (end_of_buffer_offset_ r - blen (buffer_ r) - bytes))
  then add_report r bytes reason else r.
Definition ReportCorruption (r : reader) (bytes : Z) (reason : list byte) : reader :=
  ReportDrop r bytes (Corruption reason).

(** [SkipToInitialBlock]. *)
Definition SkipToInitialBlock (r : reader) : reader * bool :=
  let offset_in_block := initial_offset_ r mod kBlockSize in
  let block_start_location := initial_offset_ r - offset_in_block in
  let block_start_location :=
    if kBlockSize - 6 <? offset_in_block then u64 (block_start_location + kBlockSize)
    else block_start_location in
  let r := set_file r (file_ r) block_start_location in
  if 0 <? block_start_location then
    let '(f, s) := file_Skip (file_ r) block_start_location in
    let r := set_file r f block_start_location in
    if ok s then (r, true) else (ReportDrop r block_start_location s, false)
  else (r, true).

(** One round of [ReadPhysicalRecord] once the buffer holds a header: the type and the new
    fragment. *)
Definition parse_record (r : reader) (result : list byte) : outcome (reader * Z * list byte) :=
  match buffer_ r with
  | h0 :: h1 :: h2 :: h3 :: h4 :: h5 :: h6 :: payload =>
      let a := Z.land (u32 (b2c h4)) 0xff in
      let b := Z.land (u32 (b2c h5)) 0xff in
      let type := u32 (b2c h6) in
      let length := Z.lor a (u32 (Z.shiftl b 8)) in
      if blen (buffer_ r) <? kHeaderSize + length then
        let drop_size := blen (buffer_ r) in
        let r := set_buffer r [] in
        if negb (eof_ r) then Ok (ReportCorruption r drop_size (str "bad record length"), kBadRecord, result)
        else Ok (r, kEof, result)
      else if (type =? kZeroType) && (length =? 0) then Ok (set_buffer r [], kBadRecord, result)
      else
        good ← (if checksum_ r then
                  stored ← DecodeFixed32 (buffer_ r);
                  let data := take (Z.to_nat (1 + length)) (h6 :: payload) in
                  actual ← Value (addr data) data;
                  Ok (actual =? Unmask stored)
                else Ok true);
        if negb good then
          let drop_size := blen (buffer_ r) in
          Ok (ReportCorruption (set_buffer r []) drop_size (str "checksum mismatch"), kBadRecord, result)
        else
          let r := set_buffer r (drop (Z.to_nat length) payload) in
          if u64 (end_of_buffer_offset_ r - blen (buffer_ r) - kHeaderSize - length) <? initial_offset_ r
          then Ok (r, kBadRecord, [])
          else Ok (r, type, take (Z.to_nat length) payload)
  | _ => Ub OutOfBounds
  end.

(** The refill of the buffer; false if the read failed. *)
Definition fill_buffer (r : reader) : reader * bool :=
  let r := set_buffer r [] in
  let '(f, s, data) := file_Read (file_ r) kBlockSize in
  let r := set_file (set_buffer r data) f (u64 (end_of_buffer_offset_ r + blen data)) in
  if negb (ok s) then
    let r := set_buffer r [] in
    (set_eof (ReportDrop r kBlockSize s), false)
  else (if blen (buffer_ r) <? kBlockSize then set_eof r else r, true).

(** [ReadPhysicalRecord]: a refill is followed by at most one more round
    ([ReadPhysicalRecord_total]), so two rounds are enough. *)
Fixpoint read_loop (fuel : nat) (r : reader) (result : list byte) : outcome (reader * Z * list byte) :=
  match fuel with
  | O => Blocked
  | S fuel =>
      if blen (buffer_ r) <? kHeaderSize then
        if negb (eof_ r) then
          let '(r, good) := fill_buffer r in
          if negb good then Ok (r, kEof, result) else read_loop fuel r result
        else Ok (set_buffer r [], kEof, result)
      else parse_record r result
  end.
Definition ReadPhysicalRecord (r : reader) (result : list byte) : outcome (reader * Z * list byte) :=
  read_loop 2 r result.

(** What [ReadRecord] leaves: the reader, [*record] if the result is true, [*scratch]. *)
Definition read_result : Type := reader * option (list byte) * list byte.

(** One turn of the [switch]: a result or the new values of the local variables. *)
Definition on_record (r : reader) (record_type physical_record_offset : Z) (fragment : list byte)
    (in_fragmented_record : bool) (prospective_record_offset : Z) (scratch : list byte)
    : read_result + (reader * bool * Z * list byte) :=
  if record_type =? kFullType then
    let r := if in_fragmented_record && negb (blen scratch =? 0)
             then ReportCorruption r (blen scratch) (str "partial record without end(1)") else r in
    inl (set_last r physical_record_offset, Some fragment, [])
  else if record_type =? kFirstType then
    let r := if in_fragmented_record && negb (blen scratch =? 0)
             then ReportCorruption r (blen scratch) (str "partial record without end(2)") else r in
    inr (r, true, physical_record_offset, fragment)
  else if record_type =? kMiddleType then
    if negb in_fragmented_record then
      inr (ReportCorruption r (blen fragment) (str "missing start of fragmented record(1)"),
           in_fragmented_record, prospective_record_offset, scratch)
    else inr (r, in_fragmented_record, prospective_record_offset, scratch ++ fragment)
  else if record_type =? kLastType then
    if negb in_fragmented_record then
      inr (ReportCorruption r (blen fragment) (str "missing start of fragmented record(2)"),
           in_fragmented_record, prospective_record_offset, scratch)
    else
      let scratch := scratch ++ fragment in
      inl (set_last r prospective_record_offset, Some scratch, scratch)
  else if record_type =? kEof then
    inl (r, None, if in_fragmented_record then [] else scratch)
  else if record_type =? kBadRecord then
    if in_fragmented_record then
      inr (ReportCorruption r (blen scratch) (str "error in middle of record"), false,
           prospective_record_offset, [])
    else inr (r, in_fragmented_record, prospective_record_offset, scratch)
  else
    inr (ReportCorruption r (blen fragment + (if in_fragmented_record then blen scratch else 0))
           (str "unknown record type " ++ decimal record_type),
         false, prospective_record_offset, []).

(** The loop of [ReadRecord]. *)
Fixpoint record_loop (fuel : nat) (r : reader) (fragment : list byte) (in_fragmented_record : bool)
    (prospective_record_offset : Z) (scratch : list byte) : outcome read_result :=
  match fuel with
  | O => Blocked
  | S fuel =>
      '(r, record_type, fragment) ← ReadPhysicalRecord r fragment;
      let physical_record_offset :=
        u64 (end_of_buffer_offset_ r - blen (buffer_ r) - kHeaderSize - blen fragment) in
      if resyncing_ r && (record_type =? kMiddleType)
      then record_loop fuel r fragment in_fragmented_record prospective_record_offset scratch
      else if resyncing_ r && (record_type =? kLastType)
      then record_loop fuel (set_resyncing r false) fragment in_fragmented_record
             prospective_record_offset scratch
      else
        match on_record (set_resyncing r false) record_type physical_record_offset fragment
                in_fragmented_record prospective_record_offset scratch with
        | inl res => Ok res
        | inr (r, in_fragmented_record, prospective_record_offset, scratch) =>
            record_loop fuel r fragment in_fragmented_record prospective_record_offset scratch
        end
  end.

(** [ReadRecord] with at most [fuel] physical records. *)
Definition ReadRecord (fuel : nat) (r : reader) : outcome read_result :=
  let '(r, proceed) :=
    if last_record_offset_ r <? initial_offset_ r then SkipToInitialBlock r else (r, true) in
  if negb proceed then Ok (r, None, [])
  else record_loop fuel r [] false 0 [].

End reader.
Arguments mkReader {F} _ _ _ _ _ _ _ _ _ _.
Arguments file_ {F} _.
Arguments reporter_ {F} _.
Arguments checksum_ {F} _.
Arguments buffer_ {F} _.
Arguments eof_ {F} _.
Arguments last_record_offset_ {F} _.
Arguments end_of_buffer_offset_ {F} _.
Arguments initial_offset_ {F} _.
Arguments resyncing_ {F} _.
Arguments reports {F} _.
End Reader.

(** ** The contracts of the files and the format of the log *)

(** A file that appends and never fails. *)
Class AppendLaws {F} (file_Append : F → list byte → F * status) (file_Flush : F → F * status)
    (content : F → list byte) : Prop := {
  append_ok f d : ∃ f', file_Append f d = (f', status_ok) ∧ content f' = content f ++ d;
  flush_ok f : ∃ f', file_Flush f = (f', status_ok) ∧ content f' = content f
}.

(** A file whose reads return what is left, up to the length asked for. *)
Class ReadLaws {G} (file_Read : G → Z → G * status * list byte) (remaining : G → list byte) : Prop := {
  read_ok g n : 0 ≤ n → ∃ g', file_Read g n = (g', status_ok, take (Z.to_nat n) (remaining g)) ∧
    remaining g' = drop (Z.to_nat n) (remaining g)
}.

(** Buffers lie in the address space. *)
Definition addr_ok (addr : list byte → Z) : Prop :=
  ∀ b, blen b < 2 ^ 62 → 0 ≤ addr b ∧ addr b + blen b + 3 < 2 ^ 64.

(** The bytes of a physical record. *)
Definition phys (t : Z) (p : list byte) : list byte :=
  EncodeFixed32 (Mask (crc32c 0 (z2b t :: p))) ++
  [z2b (Z.land (blen p) 0xff); z2b (Z.shiftr (blen p) 8); z2b t] ++ p.

(** The trailer the writer skips at offset [b] of a block, and where it writes then. *)
Definition pad_len (b : Z) : Z := if kBlockSize - b <? kHeaderSize then kBlockSize - b else 0.
Definition start_of (b : Z) : Z := if kBlockSize - b <? kHeaderSize then 0 else b.
Definition pad (b : Z) : list byte := replicate (Z.to_nat (pad_len b)) (z2b 0).

(** [frames b begin data bs b']: from offset [b] the bytes [bs] are the fragments of
    [data], the first one only if [begin]; the writer stops at offset [b']. *)
Inductive frames : Z → bool → list byte → list byte → Z → Prop :=
| frames_end b begin data :
    start_of b + kHeaderSize + blen data ≤ kBlockSize →
    frames b begin data (pad b ++ phys (if begin then kFullType else kLastType) data)
      (start_of b + kHeaderSize + blen data)
| frames_more b begin p rest bs b' :
    start_of b + kHeaderSize + blen p = kBlockSize → 0 < blen rest →
    frames kBlockSize false rest bs b' →
    frames b begin (p ++ rest) (pad b ++ phys (if begin then kFirstType else kMiddleType) p ++ bs) b'.

(** The log of a list of records, from offset [b] of a block on. *)
Inductive log_of : Z → list (list byte) → list byte → Z → Prop :=
| log_nil b : log_of b [] [] b
| log_cons b r bs b1 rs cs b2 :
    frames b true r bs b1 → log_of b1 rs cs b2 → log_of b (r :: rs) (bs ++ cs) b2.

(** ** Lemmas *)

Lemma pad_blen b : 0 ≤ b ≤ kBlockSize → blen (pad b) = pad_len b.
Proof.
  intros. unfold pad, pad_len, kBlockSize, kHeaderSize in *. rewrite blen_replicate.
  destruct (Z.ltb_spec (32768 - b) (4 + 2 + 1)); lia.
Qed.

Lemma pad_len_range b : 0 ≤ b ≤ kBlockSize → 0 ≤ pad_len b < 7.
Proof.
  intros. unfold pad_len, kBlockSize, kHeaderSize in *.
  destruct (Z.ltb_spec (32768 - b) (4 + 2 + 1)); lia.
Qed.

Lemma phys_blen t p : blen (phys t p) = 7 + blen p.
Proof. unfold phys. rewrite !blen_app. change (blen (EncodeFixed32 _)) with 4. change (blen [_; _; _]) with 3. lia. Qed.

Lemma frames_range b begin data bs b' :
  frames b begin data bs b' → 0 ≤ b ≤ kBlockSize → 7 ≤ b' ≤ kBlockSize ∧ 7 ≤ blen bs.
Proof.
  induction 1 as [b begin data Hfit | b begin p rest bs b' Hfull Hrest Hf IH]; intros Hb;
    rewrite !blen_app, phys_blen; pose proof (blen_nonneg (pad b)).
  - pose proof (blen_nonneg data). unfold start_of, kBlockSize, kHeaderSize in *.
    destruct (Z.ltb_spec (32768 - b) (4 + 2 + 1)); lia.
  - pose proof (blen_nonneg p). destruct IH as [? ?]; [unfold kBlockSize; lia|]. lia.
Qed.

Lemma Value_spec addr b : addr_ok addr → blen b < 2 ^ 62 → Value (addr b) b = Ok (crc32c 0 b).
Proof. intros Haddr Hb. destruct (Haddr b Hb). apply Extend_spec; done. Qed.

Lemma b2c_small_z z : 0 ≤ z < 128 → b2c (z2b z) = z.
Proof.
  intros Hz. unfold b2c, sint. rewrite b2z_z2b, (Z.mod_small z) by lia.
  change (2 ^ (8 - 1)) with 128. change (2 ^ 8) with 256. rewrite Z.mod_small; lia.
Qed.

(** *** The writer *)

Section writer.
Context {F : Type} (file_Append : F → list byte → F * status) (file_Flush : F → F * status).
Context (content : F → list byte) `{!AppendLaws file_Append file_Flush content}.
Context (addr : list byte → Z) (Haddr : addr_ok addr).
Import Writer.

Definition type_crcs : list Z := map (λ i, crc32c 0 [z2b i]) [0; 1; 2; 3; 4].

Lemma InitTypeCrc_spec : InitTypeCrc addr = Ok type_crcs.
Proof.
  unfold InitTypeCrc. change (Z.to_nat (kMaxRecordType + 1)) with 5%nat. cbn [init_type_crc].
  rewrite !Value_spec by done. done.
Qed.

Lemma type_crc_lookup t : 0 ≤ t ≤ 4 → type_crcs !! Z.to_nat t = Some (crc32c 0 [z2b t]).
Proof.
  intros Ht. assert (t = 0 ∨ t = 1 ∨ t = 2 ∨ t = 3 ∨ t = 4) as Hc by lia.
  by destruct Hc as [->|[->|[->|[->| ->]]]].
Qed.

Definition writer_ok (w : @writer F) : Prop :=
  type_crc_ w = type_crcs ∧ 0 ≤ block_offset_ w ≤ kBlockSize.

Lemma EmitPhysicalRecord_spec w t p :
  type_crc_ w = type_crcs → 0 ≤ t ≤ 4 → 0 ≤ block_offset_ w →
  block_offset_ w + kHeaderSize + blen p ≤ kBlockSize →
  ∃ w', EmitPhysicalRecord file_Append file_Flush addr w t p = Ok (w', status_ok) ∧
    type_crc_ w' = type_crcs ∧ block_offset_ w' = block_offset_ w + kHeaderSize + blen p ∧
    content (dest_ w') = content (dest_ w) ++ phys t p.
Proof.
  intros Htc Ht Hb Hfit. unfold EmitPhysicalRecord. cbv zeta.
  pose proof (blen_nonneg p). assert (kHeaderSize = 7 ∧ kBlockSize = 32768) as [EH EB] by done.
  destruct (Z.leb_spec (blen p) 0xffff); [|lia].
  destruct (Z.leb_spec (block_offset_ w + kHeaderSize + blen p) kBlockSize); [|lia].
  cbn [negb]. rewrite Htc, type_crc_lookup by done.
  destruct (Haddr p) as [? ?]; [lia|].
  rewrite Extend_spec, crc32c_app by (try apply crc32c_u32; done).
  cbn [mbind outcome_bind app].
  match goal with |- context [file_Append (dest_ w) ?buf] =>
    destruct (append_ok (dest_ w) buf) as (f1 & E1 & C1); rewrite E1 end.
  cbn [ok]. change (ok status_ok) with true. cbv iota.
  destruct (append_ok f1 p) as (f2 & E2 & C2). rewrite E2. change (ok status_ok) with true. cbv iota.
  destruct (flush_ok f2) as (f3 & E3 & C3). rewrite E3.
  eexists. split; [done|]. cbn [type_crc_ block_offset_ dest_]. split_and!; [done | lia |].
  rewrite C3, C2, C1. unfold phys. by rewrite <- !app_assoc.
Qed.

(** A block with room for a header only takes a round that consumes nothing. *)
Definition slack (w : @writer F) : nat :=
  if block_offset_ w + kHeaderSize =? kBlockSize then 2%nat else 1%nat.

(** The loop emits the frames of what is left. *)
Lemma add_loop_frames fuel w begin data :
  writer_ok w →
  (length data + slack w ≤ fuel)%nat →
  ∃ w' bs, add_loop file_Append file_Flush addr fuel w begin data = Ok (w', status_ok) ∧
    writer_ok w' ∧ frames (block_offset_ w) begin data bs (block_offset_ w') ∧
    content (dest_ w') = content (dest_ w) ++ bs.
Proof.
  assert (kHeaderSize = 7 ∧ kBlockSize = 32768) as [EH EB] by done.
  revert w begin data. induction fuel as [|fuel IH]; intros w begin data [Htc Hb] Hfuel.
  { unfold slack in Hfuel. destruct (_ =? _); lia. }
  cbn [add_loop].
  destruct (Z.leb_spec 0 (kBlockSize - block_offset_ w)); [|lia]. cbn [negb].
  set (w1 := if kBlockSize - block_offset_ w <? kHeaderSize then _ else w).
  assert (type_crc_ w1 = type_crcs ∧ block_offset_ w1 = start_of (block_offset_ w) ∧
    content (dest_ w1) = content (dest_ w) ++ pad (block_offset_ w)) as (Htc1 & Hb1 & Hc1).
  { subst w1. unfold start_of, pad, pad_len.
    destruct (Z.ltb_spec (kBlockSize - block_offset_ w) kHeaderSize); cbn [type_crc_ block_offset_ dest_].
    - split_and!; [done | done |].
      destruct (Z.ltb_spec 0 (kBlockSize - block_offset_ w)).
      + match goal with |- context [file_Append ?f ?d] =>
          destruct (append_ok f d) as (f1 & E & C); rewrite E; exact C end.
      + replace (kBlockSize - block_offset_ w) with 0 by lia. by rewrite app_nil_r.
    - by rewrite app_nil_r. }
  clearbody w1.
  assert (0 ≤ start_of (block_offset_ w) ≤ kBlockSize - kHeaderSize) as Hst.
  { unfold start_of. destruct (Z.ltb_spec (kBlockSize - block_offset_ w) kHeaderSize); lia. }
  rewrite Hb1. destruct (Z.leb_spec 0 (kBlockSize - start_of (block_offset_ w) - kHeaderSize)); [|lia].
  cbn [negb]. cbv zeta. pose proof (blen_nonneg data).
  set (avail := kBlockSize - start_of (block_offset_ w) - kHeaderSize) in *.
  destruct (Z.le_gt_cases (blen data) avail) as [Hle|Hgt].
  - replace (if blen data <? avail then blen data else avail) with (blen data)
      by (destruct (Z.ltb_spec (blen data) avail); lia).
    rewrite Z.eqb_refl.
    assert (take (Z.to_nat (blen data)) data = data ∧ drop (Z.to_nat (blen data)) data = []) as [-> ->].
    { unfold blen. rewrite Nat2Z.id. split; [apply firstn_all | apply skipn_all]. }
    destruct (EmitPhysicalRecord_spec w1 (if begin then kFullType else kLastType) data)
      as (w2 & E & Htc2 & Hb2 & Hc2); [done | by destruct begin | lia | lia |].
    replace (if begin && true then kFullType else if begin then kFirstType else kLastType)
      with (if begin then kFullType else kLastType) by (by destruct begin).
    rewrite E. cbn [mbind outcome_bind fst snd]. change (ok status_ok && (0 <? blen (@nil byte))) with false.
    cbv iota. exists w2, (pad (block_offset_ w) ++ phys (if begin then kFullType else kLastType) data).
    split; [done|]. rewrite Hb2, Hb1. split; [split; [done | rewrite Hb2, Hb1; lia]|].
    split; [constructor; lia|]. by rewrite Hc2, Hc1, app_assoc.
  - destruct (Z.ltb_spec (blen data) avail); [lia|]. destruct (Z.eqb_spec (blen data) avail); [lia|].
    set (p := take (Z.to_nat avail) data). set (rest := drop (Z.to_nat avail) data).
    assert (blen p = avail ∧ blen rest = blen data - avail) as [Hp Hrest].
    { subst p rest. unfold blen in *. rewrite length_take, length_drop. lia. }
    destruct (EmitPhysicalRecord_spec w1 (if begin then kFirstType else kMiddleType) p)
      as (w2 & E & Htc2 & Hb2 & Hc2); [done | by destruct begin | lia | lia |].
    replace (if begin && false then kFullType else if begin then kFirstType else kMiddleType)
      with (if begin then kFirstType else kMiddleType) by (by destruct begin).
    rewrite E. cbn [mbind outcome_bind fst snd].
    destruct (Z.ltb_spec 0 (blen rest)); [|lia]. change (ok status_ok && true) with true. cbv iota.
    assert (block_offset_ w2 = kBlockSize) as Hb2' by lia.
    destruct (IH w2 false rest) as (w3 & bs & E3 & Hok3 & Hf & Hc3).
    + split; [done | lia].
    + unfold slack in *. rewrite Hb2'. destruct (Z.eqb_spec (kBlockSize + kHeaderSize) kBlockSize); [lia|].
      assert (0 ≤ avail) by (subst avail; lia).
      assert (avail = 0 → block_offset_ w + kHeaderSize = kBlockSize) as Hav.
      { subst avail. unfold start_of in *.
        destruct (Z.ltb_spec (kBlockSize - block_offset_ w) kHeaderSize); lia. }
      destruct (Z.eq_dec avail 0) as [E0|]; [apply Hav in E0|];
        destruct (Z.eqb_spec (block_offset_ w + kHeaderSize) kBlockSize); unfold blen in *; lia.
    + rewrite E3. exists w3, (pad (block_offset_ w) ++ phys (if begin then kFirstType else kMiddleType) p ++ bs).
      split; [done|]. split; [done|]. split.
      * rewrite <- (take_drop (Z.to_nat avail) data) at 1.
         apply (frames_more _ _ p rest); [lia | lia |]. by rewrite <- Hb2'.
      * rewrite Hc3, Hc2, Hc1. by rewrite <- !app_assoc.
Qed.

Lemma AddRecord_frames w data :
  writer_ok w →
  ∃ w' bs, AddRecord file_Append file_Flush addr w data = Ok (w', status_ok) ∧ writer_ok w' ∧
    frames (block_offset_ w) true data bs (block_offset_ w') ∧
    content (dest_ w') = content (dest_ w) ++ bs.
Proof. intros Hw. apply add_loop_frames; [done|]. unfold slack. destruct (_ =? _); lia. Qed.

End writer.

(** A record is added whatever the file answers: the guards of the code do not depend on
    it, and the writer stays at a position inside a block. *)
Section any.
Import Writer.
Context {F G : Type} (append : F → list byte → F * status) (flush : F → F * status) (append' : G → list byte → G * status) (flush' : G → G * status) (addr : list byte → Z).
#[local] Notation same w w' := (block_offset_ w = block_offset_ w' ∧ type_crc_ w = type_crc_ w').

Lemma EmitPhysicalRecord_any (w : @writer F) (w' : @writer G) t fragment r : same w w' → 0 ≤ block_offset_ w → EmitPhysicalRecord append flush addr w t fragment = Ok r →
  ∃ r', EmitPhysicalRecord append' flush' addr w' t fragment = Ok r' ∧ same r.1 r'.1 ∧ 0 ≤ block_offset_ r.1 ≤ kBlockSize ∧ type_crc_ r.1 = type_crc_ w.
Proof.
  intros [Eo Et] Hpos. unfold EmitPhysicalRecord. rewrite <- Eo, <- Et. destruct (negb (_ <=? 0xffff)); [done|].
  destruct (Z.leb_spec (block_offset_ w + kHeaderSize + blen fragment) kBlockSize); [|done]. cbn [negb]. destruct (type_crc_ w !! Z.to_nat t) as [tc|]; [|done].
  destruct (Extend _ _ _) as [crc| | |]; [|done..]. cbn [mbind outcome_bind]. destruct (append _ _) as [f s]. destruct (if ok s then _ else _) as [f1 s1]. intros [= <-].
  destruct (append' _ _) as [g s']. destruct (if ok s' then _ else _) as [g1 s1']. eexists. split; [reflexivity|]. cbn. split; [done|]. split; [|done]. pose proof (blen_nonneg fragment). unfold kHeaderSize in *. lia.
Qed.

(** The first run must not fail, so it has more rounds than the second. *)
Context (Happend : ∀ f d, (append f d).2 = status_ok) (Hflush : ∀ f, (flush f).2 = status_ok).
Lemma Emit_ok (w : @writer F) t fragment r : EmitPhysicalRecord append flush addr w t fragment = Ok r → r.2 = status_ok.
Proof.
  unfold EmitPhysicalRecord. destruct (negb (_ <=? 0xffff)); [done|]. destruct (negb _); [done|]. destruct (type_crc_ w !! Z.to_nat t) as [tc|]; [|done].
  destruct (Extend _ _ _) as [crc| | |]; [|done..]. cbn [mbind outcome_bind]. destruct (append _ _) as [f s] eqn:E1. pose proof (Happend (dest_ w)) as H1. apply (f_equal snd) in E1. rewrite H1 in E1. cbn in E1. subst s.
  change (ok status_ok) with true. cbv iota. destruct (append f fragment) as [f2 s2] eqn:E2. pose proof (Happend f fragment) as H2. rewrite E2 in H2. cbn in H2. subst s2. change (ok status_ok) with true. cbv iota.
  destruct (flush f2) as [f3 s3] eqn:E3. pose proof (Hflush f2) as H3. rewrite E3 in H3. cbn in H3. subst s3. by intros [= <-].
Qed.

Lemma add_loop_any fuel : ∀ (w : @writer F) (w' : @writer G) begin left r, same w w' → 0 ≤ block_offset_ w → add_loop append flush addr fuel w begin left = Ok r →
  ∃ r', add_loop append' flush' addr fuel w' begin left = Ok r' ∧ 0 ≤ block_offset_ r'.1 ≤ kBlockSize ∧ type_crc_ r'.1 = type_crc_ w'.
Proof.
  induction fuel as [|fuel IH]; intros w w' begin left r [Eo Et] Hpos; [done|]. cbn [add_loop]. cbv zeta. rewrite <- Eo. destruct (negb (0 <=? kBlockSize - block_offset_ w)); [done|].
  set (w1 := if kBlockSize - block_offset_ w <? kHeaderSize then _ else w). set (w1' := if _ <? _ then _ else w').
  assert (same w1 w1' ∧ 0 ≤ block_offset_ w1 ∧ type_crc_ w1' = type_crc_ w') as ([Eo1 Et1] & Hpos1 & Etc) by (subst w1 w1'; destruct (_ <? kHeaderSize); cbn; split_and!; done || lia).
  rewrite <- Eo1. destruct (negb (0 <=? kBlockSize - block_offset_ w1 - kHeaderSize)); [done|].
  set (n := if blen left <? _ then _ else _). set (t := if begin && _ then _ else _).
  destruct (EmitPhysicalRecord append flush addr w1 t (take (Z.to_nat n) left)) as [ws| | |] eqn:E; [|done..]. cbn [mbind outcome_bind].
  destruct (EmitPhysicalRecord_any w1 w1' t (take (Z.to_nat n) left) ws (conj Eo1 Et1) Hpos1 E) as (ws' & -> & [Eo2 Et2] & Hb & Hc). cbn [mbind outcome_bind]. rewrite (Emit_ok w1 t (take (Z.to_nat n) left) ws E). change (ok status_ok) with true. cbn [andb].
  assert (type_crc_ ws'.1 = type_crc_ w') as Ew by congruence.
  destruct (0 <? blen (drop (Z.to_nat n) left)).
  - intros Hr. destruct (ok ws'.2); cbn [andb]; [|exists ws'; split; [done|]; by rewrite <- Eo2].
    destruct (IH ws.1 ws'.1 false (drop (Z.to_nat n) left) r) as (r' & E' & Hb' & Hc'); [done | lia | done|]. exists r'. split; [done|]. split; [done | congruence].
  - intros _. rewrite andb_false_r. exists ws'. split; [done|]. by rewrite <- Eo2.
Qed.
End any.

Lemma AddRecord_total {F} (append : F → list byte → F * status) (flush : F → F * status) (addr : list byte → Z) (Haddr : addr_ok addr) (w : @Writer.writer F) data :
  writer_ok w → ∃ r, Writer.AddRecord append flush addr w data = Ok r ∧ writer_ok r.1.
Proof.
  intros [H1 H2]. set (append0 := λ (f d : list byte), (f ++ d, status_ok)). set (flush0 := λ f : list byte, (f, status_ok)). set (w0 := Writer.mkWriter ([] : list byte) (Writer.block_offset_ w) (Writer.type_crc_ w)).
  assert (AppendLaws append0 flush0 (λ f, f)) as HA by (split; intros; eexists; split; reflexivity).
  destruct (AddRecord_frames append0 flush0 (λ f, f) addr Haddr w0 data (conj H1 H2)) as (w1 & bs & E & _).
  destruct (add_loop_any append0 flush0 append flush addr (λ _ _, eq_refl) (λ _, eq_refl) _ w0 w true data _ (conj eq_refl eq_refl) (proj1 H2) E) as (r & E' & Hb & Hc).
  exists r. split; [exact E'|]. split; [by rewrite Hc | lia].
Qed.

(** What every write to the file preserves, holds after a record has been added. *)
Lemma AddRecord_inv {F} (file_Append : F → list byte → F * status) (file_Flush : F → F * status) (addr : list byte → Z) (P : F → Prop) :
  (∀ f d, P f → P (file_Append f d).1) → (∀ f, P f → P (file_Flush f).1) →
  ∀ w data w' s, Writer.AddRecord file_Append file_Flush addr w data = Ok (w', s) → P (Writer.dest_ w) → P (Writer.dest_ w').
Proof.
  intros HA HF. assert (∀ w t p w' s, Writer.EmitPhysicalRecord file_Append file_Flush addr w t p = Ok (w', s) → P (Writer.dest_ w) → P (Writer.dest_ w')) as He.
  { intros w t p w' s. unfold Writer.EmitPhysicalRecord. destruct (negb _); [done|]. destruct (negb _); [done|]. destruct (_ !! _) as [tc|]; [|done].
    destruct (Extend _ _ _) as [crc| | |]; try done. cbn [mbind outcome_bind]. intros H Hw.
    pose proof (HA (Writer.dest_ w) (EncodeFixed32 (Mask crc) ++ [z2b (Z.land (blen p) 255); z2b (Z.shiftr (blen p) 8); z2b t]) Hw) as H1. destruct (file_Append (Writer.dest_ w) _) as [f1 s1]. cbn in H1.
    destruct (ok s1); [|by injection H as <- <-]. pose proof (HA f1 p H1) as H2. destruct (file_Append f1 p) as [f2 s2]. cbn in H2. destruct (ok s2); [|by injection H as <- <-].
    pose proof (HF f2 H2) as H3. destruct (file_Flush f2) as [f3 s3]. by injection H as <- <-. }
  assert (∀ fuel w begin data w' s, Writer.add_loop file_Append file_Flush addr fuel w begin data = Ok (w', s) → P (Writer.dest_ w) → P (Writer.dest_ w')) as Hl.
  { induction fuel as [|fuel IH]; intros w begin data w' s; [done|]. cbn [Writer.add_loop]. destruct (negb _); [done|].
    set (w0 := if kBlockSize - Writer.block_offset_ w <? kHeaderSize then _ else w). intros H Hw. assert (P (Writer.dest_ w0)) as Hw0.
    { unfold w0. destruct (_ <? kHeaderSize); [|done]. cbn [Writer.dest_]. destruct (0 <? _); [by apply HA | done]. }
    clearbody w0. destruct (negb _); [done|]. destruct (Writer.EmitPhysicalRecord _ _ _ _ _ _) as [[w1 s1]| | |] eqn:E; try done. cbn [mbind outcome_bind fst snd] in H.
    pose proof (He _ _ _ _ _ E Hw0). destruct (ok s1 && _); [by apply (IH _ _ _ _ _ H) | by injection H as <- <-]. }
  intros w data w' s. apply Hl.
Qed.
Lemma log_of_app b rs bs b1 rs' cs b2 : log_of b rs bs b1 → log_of b1 rs' cs b2 → log_of b (rs ++ rs') (bs ++ cs) b2.
Proof. induction 1 as [|b r bs b0 rs ds b3 Hf _ IH]; [done|]. intros H. cbn. rewrite <- app_assoc. econstructor; [done|]. by apply IH. Qed.

Section add_records.
Context {F : Type} (file_Append : F → list byte → F * status) (file_Flush : F → F * status).
Context (content : F → list byte) `{!AppendLaws file_Append file_Flush content}.
Context (addr : list byte → Z) (Haddr : addr_ok addr).
Import Writer.

(** Adding records one after the other. *)
Fixpoint add_records (w : @writer F) (rs : list (list byte)) : outcome (@writer F * status) :=
  match rs with
  | [] => Ok (w, status_ok)
  | r :: rs => ws ← AddRecord file_Append file_Flush addr w r;
      if ok ws.2 then add_records ws.1 rs else Ok ws
  end.

Lemma add_records_log rs w :
  writer_ok w →
  ∃ w' bs, add_records w rs = Ok (w', status_ok) ∧ writer_ok w' ∧
    log_of (block_offset_ w) rs bs (block_offset_ w') ∧ content (dest_ w') = content (dest_ w) ++ bs.
Proof.
  revert w. induction rs as [|r rs IH]; intros w Hw.
  - exists w, []. split; [done|]. split; [done|]. split; [constructor | by rewrite app_nil_r].
  - destruct (AddRecord_frames file_Append file_Flush content addr Haddr w r Hw) as (w1 & bs & E & Hw1 & Hf & Hc). cbn [add_records]. rewrite E.
    cbn [mbind outcome_bind fst snd]. change (ok status_ok) with true. cbv iota.
    destruct (IH w1 Hw1) as (w2 & cs & -> & Hw2 & Hl & Hc2). exists w2, (bs ++ cs).
    split; [done|]. split; [done|]. split; [by econstructor|]. by rewrite Hc2, Hc, app_assoc.
Qed.

End add_records.

(** *** The reader *)

Lemma low_byte_char c : Z.land (u32 (b2c c)) 0xff = b2z c.
Proof.
  pose proof (b2z_range c). rewrite land_255. unfold u32, b2c, sint.
  change (2 ^ (8 - 1)) with 128. change (2 ^ 8) with 256. change (2 ^ 32) with 4294967296.
  dlia.
Qed.

Lemma header_length n :
  0 ≤ n < 2 ^ 16 →
  Z.lor (Z.land (u32 (b2c (z2b (Z.land n 0xff)))) 0xff)
        (u32 (Z.shiftl (Z.land (u32 (b2c (z2b (Z.shiftr n 8)))) 0xff) 8)) = n.
Proof.
  intros Hn. rewrite !low_byte_char, !b2z_z2b, land_255, Z.shiftr_div_pow2 by lia.
  change (2 ^ 8) with 256. rewrite (Z.mod_small (n / 256)) by dlia.
  rewrite u32_small by (unfold is_u32; rewrite Z.shiftl_mul_pow2 by lia; dlia).
  rewrite Zmod_mod. rewrite lor_shiftl_add by dlia. change (2 ^ 8) with 256. dlia.
Qed.

Lemma small_type t : 0 ≤ t ≤ 4 → u32 (b2c (z2b t)) = t.
Proof.
  intros Ht. rewrite b2c_small_z; [apply u32_small; unfold is_u32; lia | lia].
Qed.

Section reader.
Context {G : Type} (file_Read : G → Z → G * status * list byte).
Context (remaining : G → list byte) `{!ReadLaws file_Read remaining}.
Context (addr : list byte → Z) (Haddr : addr_ok addr).
Import Reader.
#[local] Notation reader := (@reader G).

(** The stored header of a record. *)
Lemma phys_cons t p :
  ∃ b0 b1 b2 b3, EncodeFixed32 (Mask (crc32c 0 (z2b t :: p))) = [b0; b1; b2; b3] ∧
    phys t p = b0 :: b1 :: b2 :: b3 :: z2b (Z.land (blen p) 0xff) :: z2b (Z.shiftr (blen p) 8) ::
               z2b t :: p.
Proof.
  unfold phys. destruct (EncodeFixed32 _) as [|b0 [|b1 [|b2 [|b3 [|]]]]] eqn:E;
    apply (f_equal length) in E as E'; try discriminate E'.
  by exists b0, b1, b2, b3.
Qed.

(** A complete record at the start of the buffer is returned. *)
Lemma parse_phys (r : reader) res t p rest :
  buffer_ r = phys t p ++ rest → 1 ≤ t ≤ 4 → blen p ≤ kBlockSize → initial_offset_ r = 0 →
  parse_record addr r res = Ok (set_buffer r rest, t, p).
Proof.
  intros Hbuf Ht Hp Hini. pose proof (blen_nonneg p). pose proof (blen_nonneg rest).
  unfold kBlockSize in Hp.
  pose proof (f_equal blen Hbuf) as Hlen. rewrite blen_app, phys_blen in Hlen.
  assert (DecodeFixed32 (buffer_ r) = Ok (Mask (crc32c 0 (z2b t :: p)))) as Hdec.
  { rewrite Hbuf. unfold phys. rewrite <- app_assoc. apply DecodeFixed32_Encode. apply u32_range. }
  destruct (phys_cons t p) as (b0 & b1 & b2 & b3 & _ & Hcons). rewrite Hcons in Hbuf.
  cbn [app] in Hbuf. unfold parse_record. rewrite Hdec, Hlen, Hbuf.
  rewrite header_length, small_type by lia. cbv zeta.
  destruct (Z.ltb_spec (7 + blen p + blen rest) (kHeaderSize + blen p)); [unfold kHeaderSize in *; lia|].
  destruct (Z.eqb_spec t kZeroType); [unfold kZeroType in *; lia|]. cbn [andb].
  assert (take (Z.to_nat (1 + blen p)) (z2b t :: p ++ rest) = z2b t :: p) as ->.
  { replace (Z.to_nat (1 + blen p)) with (S (length p)) by (unfold blen; lia).
    cbn [take]. by rewrite take_app_length. }
  replace (if checksum_ r then _ else Ok true) with (Ok true).
  2: { destruct (checksum_ r); [|done]. cbn [mbind outcome_bind].
       rewrite Value_spec by (try done; rewrite blen_cons; lia). cbn [mbind outcome_bind].
       rewrite Unmask_Mask by (by apply crc32c_u32). by rewrite Z.eqb_refl. }
  cbn [mbind outcome_bind negb].
  change (initial_offset_ (set_buffer r (drop (Z.to_nat (blen p)) (p ++ rest)))) with (initial_offset_ r).
  rewrite Hini. match goal with |- context [u64 ?x <? 0] =>
    destruct (Z.ltb_spec (u64 x) 0) as [Hneg|_]; [pose proof (u64_range x) as [? _]; lia|] end.
  unfold blen. rewrite Nat2Z.id, drop_app_length, take_app_length. done.
Qed.

(** A record cut off at the end of the file is the end of the log, without a report. *)
Lemma parse_truncated (r : reader) res t p k :
  buffer_ r = take k (phys t p) → (7 ≤ k < length (phys t p))%nat → 1 ≤ t ≤ 4 →
  blen p ≤ kBlockSize → eof_ r = true →
  parse_record addr r res = Ok (set_buffer r [], kEof, res).
Proof.
  intros Hbuf Hk Ht Hp Heof. pose proof (blen_nonneg p). unfold kBlockSize in Hp.
  pose proof (f_equal blen Hbuf) as Hlen. unfold blen in Hlen at 2. rewrite length_take, Nat.min_l in Hlen by lia.
  pose proof (phys_blen t p) as Hphys. unfold blen in Hphys at 1.
  destruct (phys_cons t p) as (b0 & b1 & b2 & b3 & _ & Hcons).
  destruct k as [|[|[|[|[|[|[|k]]]]]]]; try lia.
  rewrite Hcons in Hbuf. cbn [take] in Hbuf. unfold parse_record. rewrite Hlen, Hbuf.
  rewrite header_length by lia. cbv zeta.
  destruct (Z.ltb_spec (Z.of_nat (S (S (S (S (S (S (S k)))))))) (kHeaderSize + blen p));
    [|unfold kHeaderSize in *; lia].
  cbn [set_buffer eof_]. by rewrite Heof.
Qed.

(** The reader is at offset [pos] of the file, [U] being the bytes it has not consumed;
    its buffer ends at a block boundary, or is the last one. *)
Record at_pos (r : reader) (pos : Z) (U : list byte) : Prop := mkAt {
  at_bytes : U = buffer_ r ++ remaining (file_ r);
  at_range : 0 ≤ pos ∧ pos + blen U < 2 ^ 62;
  at_end : end_of_buffer_offset_ r = pos + blen (buffer_ r);
  at_start : initial_offset_ r = 0 ∧ resyncing_ r = false;
  at_block :
    (eof_ r = false ∧ ((blen (buffer_ r) = 0 ∧ pos mod kBlockSize = 0) ∨
                       blen (buffer_ r) = kBlockSize - pos mod kBlockSize)) ∨
    (eof_ r = true ∧ remaining (file_ r) = [] ∧ pos mod kBlockSize + blen (buffer_ r) < kBlockSize)
}.

(** What no step of the reader without damage changes. *)
Definition quiet (r r' : reader) : Prop :=
  reports r' = reports r ∧ last_record_offset_ r' = last_record_offset_ r.

Lemma quiet_trans r1 r2 r3 : quiet r1 r2 → quiet r2 r3 → quiet r1 r3.
Proof. intros [] []. split; congruence. Qed.

(** Consuming a complete record from the buffer. *)
Lemma at_pos_parse (r : reader) pos U res t p rest :
  at_pos r pos U → buffer_ r = phys t p ++ rest → 1 ≤ t ≤ 4 →
  pos mod kBlockSize + kHeaderSize + blen p ≤ kBlockSize →
  ∃ r', parse_record addr r res = Ok (r', t, p) ∧ quiet r r' ∧
    at_pos r' (pos + 7 + blen p) (rest ++ remaining (file_ r)) ∧
    u64 (end_of_buffer_offset_ r' - blen (buffer_ r') - kHeaderSize - blen p) = pos.
Proof.
  intros Hat Hbuf Ht Hfit. pose proof (blen_nonneg p). pose proof (blen_nonneg rest).
  pose proof (blen_nonneg (remaining (file_ r))) as Hrem.
  destruct Hat as [HU Hpos Hend [Hini Hres] Hblk].
  assert (0 ≤ pos mod kBlockSize < kBlockSize) as Hm by (by apply Z.mod_pos_bound).
  assert (kHeaderSize = 7 ∧ kBlockSize = 32768) as [EH EB] by done.
  pose proof (f_equal blen Hbuf) as Hlen. rewrite blen_app, phys_blen in Hlen.
  rewrite HU, blen_app, Hlen in Hpos.
  exists (set_buffer r rest). split; [apply parse_phys; done || lia|]. split; [done|].
  split; [|cbn [set_buffer end_of_buffer_offset_ buffer_]; rewrite Hend, Hlen, u64_small;
           [lia | unfold is_u64; lia]].
  split; cbn [set_buffer buffer_ file_ end_of_buffer_offset_ initial_offset_ resyncing_ eof_].
  - done.
  - rewrite blen_app. lia.
  - lia.
  - done.
  - rewrite EB in *. destruct Hblk as [[-> Hb]|(-> & -> & Hb)].
    + left. split; [done|]. destruct (Z.eq_dec (blen rest) 0) as [E|E]; [left | right]; dlia.
    + right. split; [done|]. split; [done|]. dlia.
Qed.

(** Reading the next block when less than a header is left in this one. *)
Lemma fill_spec (r : reader) pos U :
  at_pos r pos U → eof_ r = false → blen (buffer_ r) < kHeaderSize →
  ∃ r1, fill_buffer file_Read r = (r1, true) ∧ quiet r r1 ∧
    at_pos r1 (pos + blen (buffer_ r)) (remaining (file_ r)) ∧
    (pos + blen (buffer_ r)) mod kBlockSize = 0 ∧
    buffer_ r1 = take (Z.to_nat kBlockSize) (remaining (file_ r)) ∧
    (eof_ r1 = true ↔ blen (remaining (file_ r)) < kBlockSize).
Proof.
  intros [HU Hpos Hend [Hini Hres] Hblk] Heof Hsmall.
  assert (kHeaderSize = 7 ∧ kBlockSize = 32768) as [EH EB] by done.
  pose proof (blen_nonneg (buffer_ r)). pose proof (blen_nonneg (remaining (file_ r))).
  rewrite HU, blen_app in Hpos.
  destruct (read_ok (file_ r) kBlockSize ltac:(lia)) as (g & Eg & Hg).
  assert (blen (take (Z.to_nat kBlockSize) (remaining (file_ r))) =
    Z.min kBlockSize (blen (remaining (file_ r)))) as Hd.
  { unfold blen. rewrite length_take. lia. }
  pose proof (take_drop (Z.to_nat kBlockSize) (remaining (file_ r))) as Htd. rewrite <- Hg in Htd.
  assert (blen (remaining (file_ r)) < kBlockSize → remaining g = []) as Hlast.
  { intros. rewrite Hg. apply skipn_all2. unfold blen in *. lia. }
  assert ((pos + blen (buffer_ r)) mod kBlockSize = 0) as Hmod.
  { rewrite EB in *. destruct Hblk as [[_ Hb]|[Hb _]]; [dlia | congruence]. }
  unfold fill_buffer. cbv zeta. change (file_ (set_buffer r [])) with (file_ r). rewrite Eg.
  revert Hd Htd. generalize (take (Z.to_nat kBlockSize) (remaining (file_ r))) as data. intros data Hd Htd.
  change (ok status_ok) with true. cbn [negb set_file set_buffer buffer_ end_of_buffer_offset_].
  eexists. split; [reflexivity|].
  destruct (Z.ltb_spec (blen data) kBlockSize) as [Hshort|Hfull];
    cbn [set_eof set_file set_buffer quiet reports last_record_offset_ buffer_ eof_];
    (split; [done|]); (split; [|split; [done|]; split; [done|]; rewrite ?Heof; split; intros; done || lia || (exfalso; lia)]);
    (split; cbn [set_eof set_file set_buffer buffer_ file_ end_of_buffer_offset_ initial_offset_ resyncing_ eof_];
      [done | lia | rewrite u64_small by (unfold is_u64; lia); lia | done |]).
  - right. rewrite Hmod. split; [done|]. split; [apply Hlast; lia | lia].
  - left. split; [done|]. right. lia.
Qed.

Lemma read_loop_step fuel (r : reader) res :
  read_loop file_Read addr (S fuel) r res =
  if blen (buffer_ r) <? kHeaderSize then
    if negb (eof_ r) then
      let '(r, good) := fill_buffer file_Read r in
      if negb good then Ok (r, kEof, res) else read_loop file_Read addr fuel r res
    else Ok (set_buffer r [], kEof, res)
  else parse_record addr r res.
Proof. done. Qed.

Lemma read_fill (r : reader) pos U res :
  at_pos r pos U → eof_ r = false → blen (buffer_ r) < kHeaderSize →
  ∃ r1, read_loop file_Read addr 2 r res = read_loop file_Read addr 1 r1 res ∧ quiet r r1 ∧
    at_pos r1 (pos + blen (buffer_ r)) (remaining (file_ r)) ∧
    (pos + blen (buffer_ r)) mod kBlockSize = 0 ∧
    buffer_ r1 = take (Z.to_nat kBlockSize) (remaining (file_ r)) ∧
    (eof_ r1 = true ↔ blen (remaining (file_ r)) < kBlockSize).
Proof.
  intros Hat Heof Hsmall. destruct (fill_spec r pos U Hat Heof Hsmall) as (r1 & E & H).
  exists r1. split; [|done]. rewrite read_loop_step.
  destruct (Z.ltb_spec (blen (buffer_ r)) kHeaderSize); [|lia]. by rewrite Heof, E.
Qed.

(** The record at the start of the unread bytes, after the trailer of the block. *)
Lemma read_complete (r : reader) pos b res t p U :
  at_pos r pos (pad b ++ phys t p ++ U) → 0 ≤ b ≤ kBlockSize → b mod kBlockSize = pos mod kBlockSize →
  1 ≤ t ≤ 4 → start_of b + kHeaderSize + blen p ≤ kBlockSize →
  ∃ r', ReadPhysicalRecord file_Read addr r res = Ok (r', t, p) ∧ quiet r r' ∧
    at_pos r' (pos + pad_len b + 7 + blen p) U ∧
    u64 (end_of_buffer_offset_ r' - blen (buffer_ r') - kHeaderSize - blen p) = pos + pad_len b.
Proof.
  intros Hat Hb Hmod Ht Hfit. unfold ReadPhysicalRecord.
  assert (kHeaderSize = 7 ∧ kBlockSize = 32768) as [EH EB] by done.
  pose proof (blen_nonneg p). pose proof (blen_nonneg U). pose proof (pad_blen b Hb) as Hpad.
  pose proof (pad_len_range b Hb). pose proof (phys_blen t p) as Hph.
  pose proof (at_bytes _ _ _ Hat) as HU. pose proof (at_block _ _ _ Hat) as Hblk.
  pose proof (f_equal blen HU) as HUlen. rewrite !blen_app, Hph, Hpad in HUlen.
  pose proof (blen_nonneg (buffer_ r)). pose proof (blen_nonneg (remaining (file_ r))).
  assert (pad_len b = 0 ∧ start_of b = b ∨ 0 < pad_len b ∧ start_of b = 0 ∧ b + pad_len b = kBlockSize ∨
          pad_len b = 0 ∧ start_of b = 0 ∧ b = kBlockSize) as Hcase.
  { unfold pad_len, start_of in *. destruct (Z.ltb_spec (kBlockSize - b) kHeaderSize); lia. }
  destruct (Z.lt_ge_cases (blen (buffer_ r)) kHeaderSize) as [Hsmall|Hbig].
  - (* the next block is read *)
    assert (eof_ r = false ∧ blen (buffer_ r) = pad_len b) as [Heof Hbl].
    { rewrite EB in *. destruct Hblk as [[He Hx]|(He & Hrem & Hx)].
      - split; [done|]. destruct Hcase as [[? ?]|[(? & ? & ?)|(? & ? & ?)]]; dlia.
      - rewrite Hrem in HUlen. change (blen (@nil byte)) with 0 in HUlen.
        exfalso. destruct Hcase as [[? ?]|[(? & ? & ?)|(? & ? & ?)]]; dlia. }
    destruct (read_fill r pos _ res Hat Heof Hsmall) as (r1 & -> & Hq1 & Hat1 & Hm1 & Hbuf1 & Heof1).
    assert (remaining (file_ r) = phys t p ++ U) as Hrem.
    { symmetry in HU. apply app_inj_1 in HU as [_ HU]; [done | unfold blen in *; lia]. }
    rewrite Hrem in *. rewrite read_loop_step.
    assert (buffer_ r1 = phys t p ++ take (Z.to_nat kBlockSize - length (phys t p)) U) as Hb1.
    { rewrite Hbuf1, take_app_ge; [done|]. unfold blen in Hph at 1. unfold blen in *. lia. }
    assert (7 ≤ blen (buffer_ r1)) as Hge.
    { rewrite Hb1, blen_app, Hph. pose proof (blen_nonneg (take (Z.to_nat kBlockSize - length (phys t p)) U)). lia. }
    destruct (Z.ltb_spec (blen (buffer_ r1)) kHeaderSize); [lia|].
    destruct (at_pos_parse r1 _ _ res t p _ Hat1 Hb1 Ht) as (r2 & E2 & Hq2 & Hat2 & Ho); [lia|].
    exists r2. rewrite E2, <- Hbl. split; [done|]. split; [by eapply quiet_trans|]. split; [|done].
    replace U with (take (Z.to_nat kBlockSize - length (phys t p)) U ++ remaining (file_ r1)) at 1; [done|].
    pose proof (at_bytes _ _ _ Hat1) as HU1. rewrite Hb1, <- app_assoc in HU1.
    by apply app_inv_head in HU1.
  - (* the record is in the buffer *)
    assert (pad_len b = 0) as Hp0.
    { rewrite EB in *. destruct Hcase as [[? ?]|[(? & ? & ?)|(? & ? & ?)]]; [done | | done].
      destruct Hblk as [[He Hx]|(He & Hrem & Hx)]; [dlia|].
      rewrite Hrem in HUlen. change (blen (@nil byte)) with 0 in HUlen. dlia. }
    assert (pad b = []) as Hp by (apply blen_nil_inv; lia). rewrite Hp in *. cbn [app] in *.
    assert (7 + blen p ≤ blen (buffer_ r)) as Hin.
    { rewrite EB in *. destruct Hblk as [[He Hx]|(He & Hrem & Hx)].
      - destruct Hcase as [[? ?]|[(? & ? & ?)|(? & ? & ?)]]; dlia.
      - rewrite Hrem in HUlen. change (blen (@nil byte)) with 0 in HUlen. lia. }
    assert (buffer_ r = phys t p ++ drop (length (phys t p)) (buffer_ r)) as Hb1.
    { rewrite <- (take_drop (length (phys t p)) (buffer_ r)) at 1. f_equal.
      apply (f_equal (take (length (phys t p)))) in HU.
      rewrite take_app_length, take_app_le in HU; [done|]. unfold blen in *. lia. }
    rewrite read_loop_step. destruct (Z.ltb_spec (blen (buffer_ r)) kHeaderSize); [lia|].
    destruct (at_pos_parse r _ _ res t p _ Hat Hb1 Ht) as (r2 & E2 & Hq2 & Hat2 & Ho).
    { destruct Hcase as [[? ?]|[(? & ? & ?)|(? & ? & ?)]]; rewrite EB in *; dlia. }
    exists r2. rewrite Hp0, Z.add_0_r. split; [done|]. split; [done|]. split; [|done].
    replace U with (drop (length (phys t p)) (buffer_ r) ++ remaining (file_ r)) at 1; [done|].
    rewrite Hb1, <- app_assoc in HU. by apply app_inv_head in HU.
Qed.

(** A file that ends before the record does is the end of the log. *)
Lemma read_truncated (r : reader) pos b res t p V :
  at_pos r pos V → V `prefix_of` pad b ++ phys t p → V ≠ pad b ++ phys t p →
  0 ≤ b ≤ kBlockSize → b mod kBlockSize = pos mod kBlockSize →
  1 ≤ t ≤ 4 → start_of b + kHeaderSize + blen p ≤ kBlockSize →
  ∃ r', ReadPhysicalRecord file_Read addr r res = Ok (r', kEof, res) ∧ quiet r r' ∧
    resyncing_ r' = false.
Proof.
  intros Hat [Vs HV] Hne Hb Hmod Ht Hfit. unfold ReadPhysicalRecord.
  assert (kHeaderSize = 7 ∧ kBlockSize = 32768) as [EH EB] by done.
  pose proof (blen_nonneg p). pose proof (pad_blen b Hb) as Hpad.
  pose proof (pad_len_range b Hb). pose proof (phys_blen t p) as Hph.
  pose proof (at_bytes _ _ _ Hat) as HU. pose proof (at_block _ _ _ Hat) as Hblk.
  assert (0 < blen Vs) as HVs.
  { destruct Vs; [rewrite app_nil_r in HV; congruence|]. rewrite blen_cons. pose proof (blen_nonneg Vs). lia. }
  pose proof (f_equal blen HV) as HVlen. rewrite !blen_app, Hph, Hpad in HVlen.
  pose proof (f_equal blen HU) as HUlen. rewrite blen_app in HUlen.
  pose proof (blen_nonneg (buffer_ r)). pose proof (blen_nonneg (remaining (file_ r))).
  assert (pad_len b = 0 ∧ start_of b = b ∨ 0 < pad_len b ∧ start_of b = 0 ∧ b + pad_len b = kBlockSize ∨
          pad_len b = 0 ∧ start_of b = 0 ∧ b = kBlockSize) as Hcase.
  { unfold pad_len, start_of in *. destruct (Z.ltb_spec (kBlockSize - b) kHeaderSize); lia. }
  (* a last buffer that holds a proper prefix of the record *)
  assert (∀ (q : reader) W, eof_ q = true → buffer_ q = W → W `prefix_of` phys t p → blen W < 7 + blen p →
    resyncing_ q = false →
    ∃ q', read_loop file_Read addr 1 q res = Ok (q', kEof, res) ∧ quiet q q' ∧ resyncing_ q' = false) as Hlast.
  { intros q W Heof HW [Ws HWs] Hshort Hrs. rewrite read_loop_step, Heof. cbn [negb].
    destruct (Z.ltb_spec (blen (buffer_ q)) kHeaderSize) as [|Hge]; [by eexists|].
    exists (set_buffer q []). split; [|done].
    apply (parse_truncated q res t p (length W)); try done; [| |lia].
    - by rewrite HW, HWs, take_app_length.
    - unfold blen in *. rewrite HW in Hge. lia. }
  destruct (eof_ r) eqn:Heof.
  - (* the buffer is the end of the file *)
    destruct Hblk as [[? _]|(_ & Hrem & Hx)]; [congruence|].
    rewrite Hrem, app_nil_r in HU. rewrite Hrem in HUlen. change (blen (@nil byte)) with 0 in HUlen.
    assert (read_loop file_Read addr 2 r res = read_loop file_Read addr 1 r res) as ->.
    { rewrite !read_loop_step. by rewrite Heof. }
    destruct (Z.eq_dec (pad_len b) 0) as [E0|E0].
    + assert (pad b = []) as Hp by (apply blen_nil_inv; lia). rewrite Hp in HV.
      apply (Hlast r V); [done | done | by exists Vs | lia | apply Hat].
    + exists (set_buffer r []). split; [|split; [done | apply Hat]]. rewrite read_loop_step, Heof. cbn [negb]. destruct (Z.ltb_spec (blen (buffer_ r)) kHeaderSize); [done|].
      exfalso. rewrite EB in *. destruct Hcase as [[? ?]|[(? & ? & ?)|(? & ? & ?)]]; dlia.
  - destruct Hblk as [[_ Hx]|[? _]]; [|congruence].
    assert (blen (buffer_ r) = pad_len b) as Hbl.
    { rewrite EB in *. destruct Hcase as [[? ?]|[(? & ? & ?)|(? & ? & ?)]]; dlia. }
    destruct (read_fill r pos V res Hat Heof ltac:(lia)) as (r1 & -> & Hq1 & Hat1 & Hm1 & Hbuf1 & Heof1).
    assert (remaining (file_ r) ++ Vs = phys t p) as Hrem.
    { rewrite HU, <- app_assoc in HV. symmetry in HV. apply app_inj_1 in HV as [_ HV]; [done|].
      unfold blen in *. lia. }
    pose proof (f_equal blen Hrem) as Hreml. rewrite blen_app, Hph in Hreml.
    assert (buffer_ r1 = remaining (file_ r)) as Hb1.
    { rewrite Hbuf1. apply firstn_all2. unfold blen in *. lia. }
    destruct (Hlast r1 (remaining (file_ r))) as (r2 & E2 & Hq2 & Hrs2); [apply Heof1; lia | done | | lia | apply Hat1 |].
    { by exists Vs. }
    exists r2. split; [done|]. split; [by eapply quiet_trans | done].
Qed.

(** *** Whole records *)

(** One turn of the loop of [ReadRecord] on a reader that is not resynchronising. *)
Lemma record_loop_step fuel (r r' : reader) frag t p infrag pro scratch :
  ReadPhysicalRecord file_Read addr r frag = Ok (r', t, p) → resyncing_ r' = false →
  record_loop file_Read addr (S fuel) r frag infrag pro scratch =
  match on_record r' t (u64 (end_of_buffer_offset_ r' - blen (buffer_ r') - kHeaderSize - blen p)) p
          infrag pro scratch with
  | inl res => Ok res
  | inr (r, infrag, pro, scratch) => record_loop file_Read addr fuel r p infrag pro scratch
  end.
Proof.
  intros E Hres. cbn [record_loop]. rewrite E. cbn [mbind outcome_bind]. rewrite Hres. cbn [andb].
  assert (set_resyncing r' false = r') as ->; [|done].
  unfold set_resyncing. rewrite <- Hres. by destruct r'.
Qed.

Lemma at_pos_not_resyncing (r : reader) pos U : at_pos r pos U → resyncing_ r = false.
Proof. intros Hat. apply (at_start _ _ _ Hat). Qed.

Lemma at_pos_set_last (r : reader) pos U o : at_pos r pos U → at_pos (set_last r o) pos U.
Proof. by intros []. Qed.

(** The next fragment starts where the last one ended. *)
Lemma next_offset b pos n :
  0 ≤ b ≤ kBlockSize → b mod kBlockSize = pos mod kBlockSize →
  (start_of b + n) mod kBlockSize = (pos + pad_len b + n) mod kBlockSize.
Proof.
  intros Hb Hmod. rewrite (Zplus_mod (start_of b)), (Zplus_mod (pos + pad_len b)). f_equal. f_equal.
  assert (kHeaderSize = 7 ∧ kBlockSize = 32768) as [EH EB] by done.
  unfold start_of, pad_len. destruct (Z.ltb_spec (kBlockSize - b) kHeaderSize); rewrite EB in *; dlia.
Qed.

Lemma record_complete b begin data bs b' :
  frames b begin data bs b' → 0 ≤ b ≤ kBlockSize →
  ∀ fuel (r : reader) pos U frag pro scratch,
  at_pos r pos (bs ++ U) → b mod kBlockSize = pos mod kBlockSize → (length bs ≤ fuel)%nat →
  ∃ r' scr, record_loop file_Read addr fuel r frag (negb begin) pro scratch =
      Ok (r', Some (if begin then data else scratch ++ data), scr) ∧
    at_pos r' (pos + blen bs) U ∧ reports r' = reports r ∧
    last_record_offset_ r' = (if begin then pos + pad_len b else pro) ∧
    b' mod kBlockSize = (pos + blen bs) mod kBlockSize.
Proof.
  induction 1 as [b begin data Hfit | b begin p rest bs b' Hfull Hrest Hf IH]; intros Hb fuel r pos U frag pro scratch Hat Hmod Hfuel.
  - rewrite <- app_assoc in Hat. pose proof (pad_blen b Hb) as Hpad.
    pose proof (phys_blen (if begin then kFullType else kLastType) data) as Hph.
    pose proof (blen_nonneg data).
    destruct (read_complete r pos b frag _ data U Hat Hb Hmod) as (r1 & E & Hq & Hat1 & Ho);
      [by destruct begin | done |].
    rewrite length_app in Hfuel. destruct fuel as [|fuel]; [unfold blen in Hph; lia|].
    rewrite (record_loop_step _ _ _ _ _ _ _ _ _ E (at_pos_not_resyncing _ _ _ Hat1)), Ho.
    rewrite !blen_app, Hpad, Hph, !Z.add_assoc.
    assert ((start_of b + kHeaderSize + blen data) mod kBlockSize = (pos + pad_len b + 7 + blen data) mod kBlockSize) as Hnext.
    { pose proof (next_offset b pos (7 + blen data) Hb Hmod) as Hx. rewrite !Z.add_assoc in Hx. exact Hx. }
    destruct begin; cbn [negb]; unfold on_record; cbn [andb negb Z.eqb Pos.eqb kFullType kFirstType kMiddleType kLastType];
      (eexists _, _; split; [reflexivity|]; split; [by apply at_pos_set_last|]; split; [apply Hq|]; done).
  - rewrite <- !app_assoc in Hat. pose proof (pad_blen b Hb) as Hpad.
    pose proof (phys_blen (if begin then kFirstType else kMiddleType) p) as Hph.
    pose proof (blen_nonneg p).
    destruct (read_complete r pos b frag _ p (bs ++ U) Hat Hb Hmod) as (r1 & E & Hq & Hat1 & Ho);
      [by destruct begin | lia |].
    rewrite !length_app in Hfuel. destruct fuel as [|fuel]; [unfold blen in Hph; lia|].
    rewrite (record_loop_step _ _ _ _ _ _ _ _ _ E (at_pos_not_resyncing _ _ _ Hat1)), Ho.
    assert (kBlockSize mod kBlockSize = (pos + pad_len b + 7 + blen p) mod kBlockSize) as Hnext.
    { pose proof (next_offset b pos (7 + blen p) Hb Hmod) as Hx. rewrite !Z.add_assoc in Hx.
      change 7 with kHeaderSize in Hx at 1. by rewrite Hfull in Hx. }
    rewrite !blen_app, Hpad, Hph, !Z.add_assoc.
    destruct (IH ltac:(unfold kBlockSize; lia) fuel r1 (pos + pad_len b + 7 + blen p) U p
      (if begin then pos + pad_len b else pro) (if begin then p else scratch ++ p) Hat1 Hnext)
      as (r2 & scr & E2 & Hat2 & Hrep & Hlast & Hm2); [unfold blen in Hph; lia|].
    exists r2, scr. rewrite Hrep, Hlast. destruct Hq as [-> Hql].
    split; [|by rewrite ?Z.add_assoc in *].
    destruct begin; cbn [negb] in *; unfold on_record;
      cbn [andb negb Z.eqb Pos.eqb kFullType kFirstType kMiddleType kLastType]; rewrite E2;
      by rewrite ?app_assoc.
Qed.

(** A prefix of a concatenation ends in the first part or contains it. *)
Lemma prefix_app_cases {A} (V x y : list A) :
  V `prefix_of` x ++ y → (V `prefix_of` x ∧ V ≠ x) ∨ ∃ V', V = x ++ V' ∧ V' `prefix_of` y.
Proof.
  intros [W HW]. destruct (Nat.lt_ge_cases (length V) (length x)) as [Hlt|Hge].
  - left. split; [|intros ->; lia]. exists (drop (length V) x).
    apply (f_equal (take (length x))) in HW. rewrite take_app_length, take_app_ge in HW by lia.
    apply (f_equal (take (length V))) in HW as HW'. rewrite take_app_length in HW'.
    rewrite <- (take_drop (length V) x) at 1. by rewrite HW'.
  - right. exists (drop (length x) V).
    assert (V = x ++ drop (length x) V) as E.
    { rewrite <- (take_drop (length x) V) at 1. f_equal.
      apply (f_equal (take (length x))) in HW. rewrite take_app_length, take_app_le in HW by lia. done. }
    split; [done|]. exists W. rewrite E, <- app_assoc in HW. by apply app_inv_head in HW.
Qed.

Lemma record_truncated b begin data bs b' :
  frames b begin data bs b' → 0 ≤ b ≤ kBlockSize →
  ∀ fuel (r : reader) pos V frag pro scratch,
  at_pos r pos V → V `prefix_of` bs → V ≠ bs → b mod kBlockSize = pos mod kBlockSize →
  (length bs ≤ fuel)%nat →
  ∃ r' scr, record_loop file_Read addr fuel r frag (negb begin) pro scratch = Ok (r', None, scr) ∧
    reports r' = reports r.
Proof.
  assert (∀ b begin t p fuel (r : reader) pos V frag pro scratch,
    at_pos r pos V → V `prefix_of` pad b ++ phys t p → V ≠ pad b ++ phys t p → 0 ≤ b ≤ kBlockSize →
    b mod kBlockSize = pos mod kBlockSize → 1 ≤ t ≤ 4 → start_of b + kHeaderSize + blen p ≤ kBlockSize →
    (0 < fuel)%nat →
    ∃ r' scr, record_loop file_Read addr fuel r frag (negb begin) pro scratch = Ok (r', None, scr) ∧
      reports r' = reports r) as Hcut.
  { intros b0 begin0 t p [|fuel] r pos V frag pro scratch Hat HV Hne Hb Hmod Ht Hfit Hfuel; [lia|].
    destruct (read_truncated r pos b0 frag t p V) as (r1 & E & Hq & Hrs); try done.
    rewrite (record_loop_step _ _ _ _ _ _ _ _ _ E Hrs). unfold on_record.
    cbn [Z.eqb Pos.eqb kFullType kFirstType kMiddleType kLastType kEof kMaxRecordType Z.add Pos.add Pos.succ].
    eexists _, _. split; [reflexivity | apply Hq]. }
  induction 1 as [b begin data Hfit | b begin p rest bs b' Hfull Hrest Hf IH];
    intros Hb fuel r pos V frag pro scratch Hat HV Hne Hmod Hfuel.
  - eapply Hcut; try done; [by destruct begin|]. rewrite length_app in Hfuel.
    pose proof (phys_blen (if begin then kFullType else kLastType) data) as Hph.
    pose proof (blen_nonneg data). unfold blen in *. lia.
  - pose proof (phys_blen (if begin then kFirstType else kMiddleType) p) as Hph.
    pose proof (blen_nonneg p). rewrite !length_app in Hfuel.
    rewrite app_assoc in HV, Hne. apply prefix_app_cases in HV as [[HV Hne1]|(V1 & -> & HV1)].
    { eapply Hcut; try done; [by destruct begin | lia | unfold blen in *; lia]. }
    rewrite <- app_assoc in Hat.
    destruct (read_complete r pos b frag _ p V1 Hat Hb Hmod) as (r1 & E & Hq & Hat1 & Ho);
      [by destruct begin | lia |].
    destruct fuel as [|fuel]; [unfold blen in Hph; lia|].
    rewrite (record_loop_step _ _ _ _ _ _ _ _ _ E (at_pos_not_resyncing _ _ _ Hat1)), Ho.
    assert (kBlockSize mod kBlockSize = (pos + pad_len b + 7 + blen p) mod kBlockSize) as Hnext.
    { pose proof (next_offset b pos (7 + blen p) Hb Hmod) as Hx. rewrite !Z.add_assoc in Hx.
      change 7 with kHeaderSize in Hx at 1. by rewrite Hfull in Hx. }
    destruct (IH ltac:(unfold kBlockSize; lia) fuel r1 (pos + pad_len b + 7 + blen p) V1 p
      (if begin then pos + pad_len b else pro) (if begin then p else scratch ++ p) Hat1 HV1)
      as (r2 & scr & E2 & Hrep); [congruence | done | unfold blen in Hph; lia |].
    exists r2, scr. rewrite Hrep. destruct Hq as [-> _]. split; [|done].
    destruct begin; cbn [negb] in *; unfold on_record;
      cbn [andb negb Z.eqb Pos.eqb kFullType kFirstType kMiddleType kLastType]; by rewrite E2.
Qed.

(** *** The whole log *)

(** The loop of a recovery: [while (reader.ReadRecord(&record, &scratch)) ...]. *)
Fixpoint read_all (rounds fuel : nat) (file_Skip : G → Z → G * status) (r : reader)
    : outcome (list (list byte) * reader) :=
  match rounds with
  | O => Blocked
  | S rounds =>
      '(r, record, _) ← ReadRecord file_Read file_Skip addr fuel r;
      match record with
      | None => Ok ([], r)
      | Some x => lr ← read_all rounds fuel file_Skip r; Ok (x :: lr.1, lr.2)
      end
  end.

Lemma ReadRecord_loop fuel file_Skip (r : reader) pos U :
  at_pos r pos U → 0 ≤ last_record_offset_ r →
  ReadRecord file_Read file_Skip addr fuel r = record_loop file_Read addr fuel r [] false 0 [].
Proof.
  intros Hat Hl. unfold ReadRecord. destruct (at_start _ _ _ Hat) as [-> _].
  destruct (Z.ltb_spec (last_record_offset_ r) 0); [lia | done].
Qed.

Lemma read_eof (r : reader) pos res :
  at_pos r pos [] →
  ∃ r', ReadPhysicalRecord file_Read addr r res = Ok (r', kEof, res) ∧ quiet r r' ∧ resyncing_ r' = false.
Proof.
  intros Hat. assert (0 ≤ pos mod kBlockSize < kBlockSize) by (by apply Z.mod_pos_bound).
  apply (read_truncated r pos (pos mod kBlockSize) res 1 [] []); try done.
  - apply prefix_nil.
  - intros E. apply (f_equal blen) in E. rewrite blen_app, phys_blen in E.
    pose proof (blen_nonneg (pad (pos mod kBlockSize))). change (blen (@nil byte)) with 0 in E. lia.
  - lia.
  - by rewrite Zmod_mod.
  - change (blen (@nil byte)) with 0. unfold start_of.
    destruct (Z.ltb_spec (kBlockSize - pos mod kBlockSize) kHeaderSize); unfold kHeaderSize, kBlockSize in *; lia.
Qed.

(** Reading a prefix [V] of a log returns the records it contains completely, and does
    not report anything. *)
Inductive reads (fuel : nat) (file_Skip : G → Z → G * status) : reader → list (list byte) → Prop :=
| reads_end r r' scr : ReadRecord file_Read file_Skip addr fuel r = Ok (r', None, scr) → reports r' = reports r → reads fuel file_Skip r []
| reads_record r r' scr x xs : ReadRecord file_Read file_Skip addr fuel r = Ok (r', Some x, scr) → reports r' = reports r →
    reads fuel file_Skip r' xs → reads fuel file_Skip r (x :: xs).

Lemma reads_all fuel file_Skip r xs : reads fuel file_Skip r xs → ∀ rounds, (length xs < rounds)%nat →
  ∃ r', read_all rounds fuel file_Skip r = Ok (xs, r') ∧ reports r' = reports r.
Proof.
  induction 1 as [r r' scr E Hr|r r' scr x xs E Hr _ IH]; intros [|rounds] Hl; try (cbn in Hl; lia); cbn [read_all]; rewrite E; cbn [mbind outcome_bind]; [by exists r'|].
  destruct (IH rounds) as (r2 & -> & Hr2); [cbn in Hl; lia|]. cbn [mbind outcome_bind fst snd]. exists r2. split; [done | congruence].
Qed.

Lemma read_log b rs bs b' :
  log_of b rs bs b' → 0 ≤ b ≤ kBlockSize →
  ∀ fuel file_Skip (r : reader) pos V,
  at_pos r pos V → V `prefix_of` bs → b mod kBlockSize = pos mod kBlockSize →
  0 ≤ last_record_offset_ r → (length bs < fuel)%nat →
  ∃ k, reads fuel file_Skip r (take k rs) ∧ (k ≤ length rs)%nat ∧
    ∀ j, (j ≤ length rs)%nat → ∃ cs c, log_of b (take j rs) cs c ∧ (blen cs ≤ blen V ↔ (j ≤ k)%nat).
Proof.
  induction 1 as [b | b x bs b1 rs cs b2 Hf Hl IH];
    intros Hb fuel file_Skip r pos V Hat HV Hmod Hlast Hfuel.
  - apply prefix_nil_inv in HV. subst V. destruct fuel as [|fuel]; [simpl in Hfuel; lia|].
    destruct (read_eof r pos [] Hat) as (r1 & E & Hq & Hrs). exists 0%nat. split.
    { eapply reads_end; [|apply Hq]. rewrite (ReadRecord_loop _ _ _ _ _ Hat Hlast). by rewrite (record_loop_step _ _ _ _ _ _ _ _ _ E Hrs). }
    split; [done|].
    intros j Hj. simpl in Hj. replace j with 0%nat by lia. exists [], b. split; [constructor|]. done.
  - destruct (frames_range _ _ _ _ _ Hf Hb) as [Hb1 Hbs]. rewrite length_app in Hfuel.
    apply prefix_app_cases in HV as [[HV Hne]|(V1 & -> & HV1)].
    + destruct (record_truncated _ _ _ _ _ Hf Hb fuel r pos V [] 0 [] Hat HV Hne Hmod ltac:(lia))
        as (r1 & scr & E & Hrep). cbn [negb] in E.
      exists 0%nat. split; [by eapply reads_end; [rewrite (ReadRecord_loop _ _ _ _ _ Hat Hlast)|]|]. split; [lia|].
      assert (blen V < blen bs) as Hlt.
      { destruct HV as [[|y W] HW]; [rewrite app_nil_r in HW; congruence|].
        rewrite HW, blen_app, blen_cons. pose proof (blen_nonneg W). lia. }
      intros [|j] Hj.
      * exists [], b. split; [constructor|]. pose proof (blen_nonneg V). unfold blen at 1. simpl. lia.
      * assert (∃ cs' c', log_of b1 (take j rs) cs' c') as (cs' & c' & Hl').
        { clear -Hl. revert j. induction Hl as [|? ? ? ? ? ? ? ? ? IH]; intros [|j]; simpl; eauto using log_of.
          destruct (IH j) as (? & ? & ?). eauto using log_of. }
        exists (bs ++ cs'), c'. simpl. split; [by econstructor|].
        rewrite blen_app. pose proof (blen_nonneg cs'). lia.
    + destruct (record_complete _ _ _ _ _ Hf Hb fuel r pos V1 [] 0 [] Hat Hmod ltac:(lia))
        as (r1 & scr & E & Hat1 & Hrep & Hl1 & Hm1). cbn [negb] in E.
      destruct (IH ltac:(lia) fuel file_Skip r1 (pos + blen bs) V1 Hat1 HV1 Hm1) as (k & E2 & Hk & Hj2).
      { rewrite Hl1. pose proof (pad_len_range b Hb). destruct (at_range _ _ _ Hat). lia. }
      { lia. }
      exists (S k). split; [by eapply reads_record; [rewrite (ReadRecord_loop _ _ _ _ _ Hat Hlast)| |]|]. split; [simpl; lia|]. intros [|j] Hj.
      * exists [], b. split; [constructor|]. pose proof (blen_nonneg (bs ++ V1)). unfold blen at 1. simpl. lia.
      * destruct (Hj2 j) as (cs' & c' & Hl' & Hiff); [simpl in Hj; lia|].
        exists (bs ++ cs'), c'. simpl. split; [by econstructor|]. rewrite !blen_app.
        split; intros; [|assert (j ≤ k)%nat as Hjk by lia; apply Hiff in Hjk; lia].
        assert (j ≤ k)%nat; [apply Hiff; lia | lia].
Qed.

Lemma at_pos_new g reporter checksum :
  blen (remaining g) < 2 ^ 62 → at_pos (new g reporter checksum 0) 0 (remaining g).
Proof.
  intros Hg. split; cbn [new buffer_ file_ end_of_buffer_offset_ initial_offset_ resyncing_ eof_]; try done.
  left. split; [done|]. by left.
Qed.

End reader.

(** The format is a function of the records. *)
Lemma frames_fun b begin data bs b' :
  frames b begin data bs b' → ∀ cs c', frames b begin data cs c' → bs = cs ∧ b' = c'.
Proof.
  induction 1 as [b begin data Hfit | b begin p rest bs b' Hfull Hrest Hf IH]; intros cs c' Hc.
  - inversion Hc as [|? ? p' rest' ? ? Hfull' Hrest']; subst; [done|].
    rewrite blen_app in Hfit. lia.
  - inversion Hc as [? ? ? Hfit'|? ? p' rest' bs' ? Hfull' Hrest' Hf']; subst.
    + rewrite blen_app in Hfit'. lia.
    + assert (p' = p ∧ rest' = rest) as [-> ->].
      { match goal with H : _ ++ _ = _ ++ _ |- _ => apply app_inj_1 in H as [? ?]; [done|] end.
        unfold blen in *. lia. }
      destruct (IH _ _ Hf') as [-> ->]. done.
Qed.

Lemma log_of_fun b rs bs b' : log_of b rs bs b' → ∀ cs c', log_of b rs cs c' → bs = cs ∧ b' = c'.
Proof.
  induction 1 as [|b x bs b1 rs cs b2 Hf Hl IH]; intros ds c' Hc; inversion Hc; subst; [done|].
  match goal with H : frames b true x _ _ |- _ => destruct (frames_fun _ _ _ _ _ Hf _ _ H) as [-> ->] end.
  match goal with H : log_of _ rs _ _ |- _ => destruct (IH _ _ H) as [-> ->] end. done.
Qed.

(** *** Arbitrary files *)

Section any_file.
Context {G : Type} (file_Read : G → Z → G * status * list byte).
Context (remaining : G → list byte) `{!ReadLaws file_Read remaining}.
Context (addr : list byte → Z) (Haddr : addr_ok addr).
Import Reader.
#[local] Notation reader := (@reader G).

(** The bytes the reader has not consumed. *)
Definition unread (r : reader) : list byte := buffer_ r ++ remaining (file_ r).

(** A payload that lies in [s] behind a header whose checksum is its own. *)
Definition intact (s p : list byte) : Prop :=
  ∃ pre h t suf stored, s = pre ++ h ++ [t] ++ p ++ suf ∧ length h = 6%nat ∧
    DecodeFixed32 h = Ok stored ∧ Unmask stored = crc32c 0 (t :: p).

Lemma intact_app s s' p : intact s' p → intact (s ++ s') p.
Proof.
  intros (pre & h & t & suf & st & -> & H). exists (s ++ pre), h, t, suf, st.
  split; [by rewrite <- app_assoc | done].
Qed.

(** A step that consumes [d] bytes at least. *)
Definition consumes (d : nat) (r r' : reader) : Prop :=
  (∃ s, unread r = s ++ unread r' ∧ (d ≤ length s)%nat) ∧ checksum_ r' = checksum_ r.

Lemma ReportDrop_same (r : reader) n s :
  buffer_ (ReportDrop r n s) = buffer_ r ∧ file_ (ReportDrop r n s) = file_ r ∧
  checksum_ (ReportDrop r n s) = checksum_ r.
Proof. unfold ReportDrop. by destruct (_ && _). Qed.

Lemma consumes_drop (r : reader) n s :
  (7 ≤ length (buffer_ r))%nat → consumes 7 r (ReportDrop (set_buffer r []) n s).
Proof.
  intros Hl. destruct (ReportDrop_same (set_buffer r []) n s) as (Eb & Ef & Ec).
  split; [|by rewrite Ec]. exists (buffer_ r). unfold unread. rewrite Eb, Ef. done.
Qed.

Lemma DecodeFixed32_prefix h rest :
  (4 ≤ length h)%nat → DecodeFixed32 (h ++ rest) = DecodeFixed32 h.
Proof.
  intros Hh. unfold DecodeFixed32. rewrite !mem_read_ok by (rewrite ?blen_app; pose proof (blen_nonneg rest); unfold blen in *; lia).
  rewrite !drop_0. by rewrite take_app_le by lia.
Qed.

Lemma parse_total (r : reader) res :
  (7 ≤ length (buffer_ r))%nat →
  ∃ r' t p, parse_record addr r res = Ok (r', t, p) ∧ consumes 7 r r' ∧
    (t = kBadRecord ∨ t = kEof ∨ (checksum_ r = true → intact (unread r) p)).
Proof.
  intros Hlen. unfold parse_record.
  destruct (buffer_ r) as [|h0 [|h1 [|h2 [|h3 [|h4 [|h5 [|h6 payload]]]]]]] eqn:Hbuf;
    try (simpl in Hlen; lia). rewrite <- Hbuf in Hlen |- *.
  set (len := Z.lor _ _). cbv zeta.
  assert (0 ≤ len < 2 ^ 60) as Hl.
  { subst len. rewrite !low_byte_char. pose proof (b2z_range h4). pose proof (b2z_range h5).
    rewrite u32_small by (unfold is_u32; rewrite Z.shiftl_mul_pow2 by lia; lia).
    rewrite lor_shiftl_add by lia. lia. }
  clearbody len.
  destruct (Z.ltb_spec (blen (buffer_ r)) (kHeaderSize + len)) as [|Hfit].
  { destruct (eof_ (set_buffer r [])); cbn [negb].
    - eexists _, _, _. split; [reflexivity|]. split; [|by right; left].
      split; [|done]. exists (buffer_ r). by split.
    - eexists _, _, _. split; [reflexivity|]. split; [by apply consumes_drop | by left]. }
  destruct ((_ =? kZeroType) && _).
  { eexists _, _, _. split; [reflexivity|]. split; [|by left]. split; [|done]. exists (buffer_ r). by split. }
  pose proof (f_equal blen Hbuf) as Hbl. rewrite !blen_cons in Hbl. unfold kHeaderSize in Hfit.
  assert (payload = take (Z.to_nat len) payload ++ drop (Z.to_nat len) payload) as Hpay by (by rewrite take_drop).
  assert (take (Z.to_nat (1 + len)) (h6 :: payload) = h6 :: take (Z.to_nat len) payload) as Htake.
  { by replace (Z.to_nat (1 + len)) with (S (Z.to_nat len)) by lia. }
  rewrite Htake.
  assert (buffer_ r = [h0; h1; h2; h3; h4; h5] ++ [h6] ++ take (Z.to_nat len) payload ++ drop (Z.to_nat len) payload) as Hsplit.
  { rewrite Hbuf, Hpay at 1. done. }
  assert (∃ stored, DecodeFixed32 (buffer_ r) = Ok stored ∧ DecodeFixed32 [h0; h1; h2; h3; h4; h5] = Ok stored)
    as (stored & Hst & Hst6).
  { rewrite Hsplit, (DecodeFixed32_prefix [h0; h1; h2; h3; h4; h5]) by (simpl; lia). by eexists. }
  rewrite Hst.
  assert (∃ good, (if checksum_ r then
      stored ← Ok stored;
      let data := h6 :: take (Z.to_nat len) payload in
      actual ← Value (addr data) data; Ok (actual =? Unmask stored) else Ok true) = Ok good ∧
    (checksum_ r = true → good = true → Unmask stored = crc32c 0 (h6 :: take (Z.to_nat len) payload)))
    as (good & Egood & Hgood).
  { destruct (checksum_ r); [|by eexists]. cbn [mbind outcome_bind].
    rewrite Value_spec by (try done; rewrite blen_cons; unfold blen; rewrite length_take; lia).
    cbn [mbind outcome_bind]. eexists. split; [reflexivity|]. intros _ ->%Z.eqb_eq. done. }
  cbn [mbind outcome_bind] in *. rewrite Egood. cbn [mbind outcome_bind].
  destruct good; cbn [negb];
    [|eexists _, _, _; split; [reflexivity|]; split; [by apply consumes_drop | by left]].
  assert (consumes 7 r (set_buffer r (drop (Z.to_nat len) payload))) as Hcons.
  { split; [|done]. exists ([h0; h1; h2; h3; h4; h5] ++ [h6] ++ take (Z.to_nat len) payload).
    unfold unread. cbn [set_buffer buffer_ file_]. split; [|simpl; lia].
    rewrite Hsplit at 1. by rewrite <- !app_assoc. }
  destruct (u64 _ <? _).
  - eexists _, _, _. split; [reflexivity|]. split; [done | by left].
  - eexists _, _, _. split; [reflexivity|]. split; [done|]. right. right. intros Hck.
    exists [], [h0; h1; h2; h3; h4; h5], h6, (drop (Z.to_nat len) payload ++ remaining (file_ r)), stored.
    split; [|split; [done | split; [done | by apply Hgood]]].
    unfold unread. rewrite Hsplit at 1. by rewrite <- !app_assoc.
Qed.

Lemma ReadPhysicalRecord_total (r : reader) res :
  ∃ r' t p, ReadPhysicalRecord file_Read addr r res = Ok (r', t, p) ∧
    (t = kEof ∨ consumes 7 r r') ∧
    (t = kBadRecord ∨ t = kEof ∨ (checksum_ r = true → intact (unread r) p)).
Proof.
  unfold ReadPhysicalRecord. rewrite read_loop_step.
  destruct (Z.ltb_spec (blen (buffer_ r)) kHeaderSize) as [Hsmall|Hbig].
  2: { destruct (parse_total r res) as (r' & t & p & -> & Hc & Hi); [unfold blen, kHeaderSize in *; lia|].
       exists r', t, p. auto. }
  destruct (eof_ r); cbn [negb]; [by eexists _, _, _; split; [reflexivity|]; split; [left | right; left]|].
  unfold fill_buffer. cbv zeta. change (file_ (set_buffer r [])) with (file_ r).
  destruct (read_ok (file_ r) kBlockSize ltac:(unfold kBlockSize; lia)) as (g & E & Hg).
  pose proof (take_drop (Z.to_nat kBlockSize) (remaining (file_ r))) as Htd.
  rewrite <- Hg in Htd. rewrite E. clear E Hg. revert Htd.
  generalize (take (Z.to_nat kBlockSize) (remaining (file_ r))) as data. intros data Htd.
  change (ok status_ok) with true. cbn [negb].
  set (r1 := if _ <? kBlockSize then _ else _).
  assert (unread r = buffer_ r ++ unread r1 ∧ checksum_ r1 = checksum_ r ∧
    (blen (buffer_ r1) < kHeaderSize → eof_ r1 = true)) as (Hu & Hck & Heof).
  { subst r1. unfold unread. cbn [set_file set_buffer buffer_].
    destruct (Z.ltb_spec (blen data) kBlockSize);
      cbn [set_eof set_file set_buffer buffer_ file_ checksum_ eof_]; rewrite Htd;
      (split; [done|]); (split; [done|]); [done|]. unfold kBlockSize, kHeaderSize in *. lia. }
  clearbody r1. rewrite read_loop_step.
  destruct (Z.ltb_spec (blen (buffer_ r1)) kHeaderSize) as [Hs1|Hb1].
  - rewrite Heof by done. cbn [negb]. by eexists _, _, _; split; [reflexivity|]; split; [left | right; left].
  - destruct (parse_total r1 res) as (r' & t & p & -> & [(s & Hs & Hsl) Hc] & Hi); [unfold blen, kHeaderSize in *; lia|].
    exists r', t, p. split; [done|]. split.
    + right. split; [|congruence]. exists (buffer_ r ++ s). rewrite Hu, Hs, app_assoc.
      split; [done|]. rewrite length_app. lia.
    + rewrite Hck in Hi. destruct Hi as [?|[?|Hi]]; [by left | by right; left|]. right. right.
      intros Hk. rewrite Hu. by apply intact_app, Hi.
Qed.

(** Every record the loop returns is put together from intact fragments. *)
Definition made_of (s x : list byte) : Prop := ∃ ps, x = concat ps ∧ Forall (intact s) ps.

Lemma made_of_nil s : made_of s [].
Proof. by exists []. Qed.
Lemma made_of_one s p : intact s p → made_of s p.
Proof. intros. exists [p]. simpl. rewrite app_nil_r. auto. Qed.
Lemma made_of_snoc s x p : made_of s x → intact s p → made_of s (x ++ p).
Proof.
  intros (ps & -> & H) Hp. exists (ps ++ [p]). rewrite concat_app. simpl. rewrite app_nil_r.
  split; [done | by apply Forall_app; auto].
Qed.
#[local] Hint Resolve made_of_nil made_of_one made_of_snoc : made.

Lemma consumes_report (r : reader) n s : unread (ReportCorruption r n s) = unread r ∧ checksum_ (ReportCorruption r n s) = checksum_ r.
Proof. unfold ReportCorruption. destruct (ReportDrop_same r n (Corruption s)) as (Eb & Ef & Ec). unfold unread. by rewrite Eb, Ef. Qed.

(** The [switch] keeps the scratch made of intact fragments. *)
Lemma on_record_made (r : reader) t o p infrag pro scratch s :
  made_of s scratch → (t = kBadRecord ∨ t = kEof ∨ intact s p) →
  match on_record r t o p infrag pro scratch with
  | inl (_, Some x, _) => made_of s x
  | inl _ => True
  | inr (_, _, _, scratch') => made_of s scratch'
  end.
Proof.
  intros Hs Hp. assert (1 ≤ t ≤ 4 → intact s p) as Hp'.
  { unfold kBadRecord, kEof, kMaxRecordType, kLastType in *. intros. destruct Hp as [|[|]]; lia || done. }
  unfold on_record, kFullType, kFirstType, kMiddleType, kLastType in *.
  destruct (Z.eqb_spec t 1); [apply made_of_one, Hp'; lia|].
  destruct (Z.eqb_spec t 2); [apply made_of_one, Hp'; lia|].
  destruct (Z.eqb_spec t 3); [destruct infrag; simpl; auto with made; apply made_of_snoc, Hp'; done || lia|].
  destruct (Z.eqb_spec t 4); [destruct infrag; simpl; auto with made; apply made_of_snoc, Hp'; done || lia|].
  destruct (Z.eqb_spec t kEof); [done|].
  destruct (Z.eqb_spec t kBadRecord); [by destruct infrag; auto with made | auto with made].
Qed.

Lemma on_record_unread (r : reader) t o p infrag pro scratch :
  match on_record r t o p infrag pro scratch with
  | inl _ => True
  | inr (r', _, _, _) => unread r' = unread r ∧ checksum_ r' = checksum_ r ∧ t ≠ kEof
  end.
Proof.
  unfold on_record. destruct (Z.eqb_spec t kFullType); [done|].
  destruct (Z.eqb_spec t kFirstType) as [->|].
  { destruct (infrag && negb (blen scratch =? 0)); [|done].
    destruct (consumes_report r (blen scratch) (str "partial record without end(2)")). done. }
  destruct (Z.eqb_spec t kMiddleType) as [->|].
  { destruct infrag; simpl; [done|].
    destruct (consumes_report r (blen p) (str "missing start of fragmented record(1)")). done. }
  destruct (Z.eqb_spec t kLastType) as [->|].
  { destruct infrag; simpl; [done|].
    destruct (consumes_report r (blen p) (str "missing start of fragmented record(2)")). done. }
  destruct (Z.eqb_spec t kEof); [done|]. destruct (Z.eqb_spec t kBadRecord).
  { destruct infrag; [|done]. destruct (consumes_report r (blen scratch) (str "error in middle of record")). done. }
  match goal with |- context [ReportCorruption r ?n ?m] => destruct (consumes_report r n m) end. done.
Qed.

Lemma record_loop_total fuel (r : reader) frag infrag pro scratch s0 :
  (length (unread r) < fuel)%nat → (∃ pre, s0 = pre ++ unread r) →
  (checksum_ r = true → made_of s0 scratch) →
  ∃ r' x scr, record_loop file_Read addr fuel r frag infrag pro scratch = Ok (r', x, scr) ∧
    (checksum_ r = true → ∀ y, x = Some y → made_of s0 y).
Proof.
  revert r frag infrag pro scratch.
  induction fuel as [|fuel IH]; intros r frag infrag pro scratch Hf [pre Hpre] Hs; [lia|].
  cbn [record_loop].
  destruct (ReadPhysicalRecord_total r frag) as (r1 & t & p & -> & Hc & Hi). cbn [mbind outcome_bind].
  assert (t ≠ kEof → (length (unread r1) < fuel)%nat ∧ (∃ pre, s0 = pre ++ unread r1) ∧ checksum_ r1 = checksum_ r) as Hnext.
  { intros Hne. destruct Hc as [?|[(s & E & Hl) Hck]]; [done|]. rewrite E, length_app in Hf.
    split; [lia|]. split; [|done]. exists (pre ++ s). by rewrite Hpre, E, app_assoc. }
  assert (∀ b, unread (set_resyncing r1 b) = unread r1 ∧ checksum_ (set_resyncing r1 b) = checksum_ r1) as Hset by done.
  assert (kMiddleType ≠ kEof ∧ kLastType ≠ kEof) as [HM HL] by done.
  destruct (resyncing_ r1 && (t =? kMiddleType)) eqn:E1.
  { apply andb_true_iff in E1 as [_ ->%Z.eqb_eq]. destruct (Hnext HM) as (? & ? & Hck). rewrite <- Hck.
    apply IH; [done | done | by rewrite Hck]. }
  destruct (resyncing_ r1 && (t =? kLastType)) eqn:E2.
  { apply andb_true_iff in E2 as [_ ->%Z.eqb_eq]. destruct (Hnext HL) as (? & ? & Hck). rewrite <- Hck.
    apply (IH (set_resyncing r1 false)); [done | done | intros; apply Hs; by rewrite <- Hck]. }
  set (o := u64 _).
  assert (checksum_ r = true → t = kBadRecord ∨ t = kEof ∨ intact s0 p) as Hi0.
  { intros Hck. destruct Hi as [?|[?|Hi]]; [by left | by right; left|]. right. right.
    rewrite Hpre. by apply intact_app, Hi. }
  assert (checksum_ r = true → match on_record (set_resyncing r1 false) t o p infrag pro scratch with
    | inl (_, Some x, _) => made_of s0 x | inl _ => True | inr (_, _, _, sc) => made_of s0 sc end) as Hmade.
  { intros Hck. apply on_record_made; auto. }
  pose proof (on_record_unread (set_resyncing r1 false) t o p infrag pro scratch) as Hun.
  destruct (on_record _ _ _ _ _ _ _) as [[[r2 x] scr]|[[[r2 infrag2] pro2] scr2]].
  - exists r2, x, scr. split; [done|]. intros Hck y ->. by apply Hmade.
  - destruct Hun as (Eu & Eck & Hne). destruct (Hnext Hne) as (Hl & (pre2 & Hpre2) & Hck).
    change (unread (set_resyncing r1 false)) with (unread r1) in Eu.
    change (checksum_ (set_resyncing r1 false)) with (checksum_ r1) in Eck.
    rewrite <- Hck, <- Eck. apply IH; [by rewrite Eu | exists pre2; by rewrite Eu |].
    intros Hk. apply Hmade. congruence.
Qed.

End any_file.

(** Files as byte lists. *)
Definition mem_append (f d : list byte) : list byte * status := (f ++ d, status_ok).
Definition mem_flush (f : list byte) : list byte * status := (f, status_ok).
Definition mem_seq_read (g : list byte) (n : Z) : list byte * status * list byte :=
  (drop (Z.to_nat n) g, status_ok, take (Z.to_nat n) g).
Definition mem_skip (g : list byte) (n : Z) : list byte * status := (drop (Z.to_nat n) g, status_ok).
#[export] Instance mem_append_laws : AppendLaws mem_append mem_flush id.
Proof. split; intros; by eexists. Qed.
#[export] Instance mem_read_laws : ReadLaws mem_seq_read id.
Proof. split; intros; by eexists. Qed.


(** ** Properties *)

(** C17: The log survives a crash.  Records of any length added to an empty file are
    written without an assertion failing or an access out of bounds; whatever prefix
    of the file is left after a crash, with or without checksum verification, the
    reader returns in order exactly the records whose bytes are all in the prefix,
    ends, and reports no corruption.  The whole file is one of the prefixes, so
    reading is the inverse of writing. *)
Theorem log_crash_recovery {F G} (file_Append : F → list byte → F * status)
    (file_Flush : F → F * status) (content : F → list byte)
    (file_Read : G → Z → G * status * list byte) (file_Skip : G → Z → G * status)
    (remaining : G → list byte) (addr : list byte → Z)
    (HA : AppendLaws file_Append file_Flush content) (HR : ReadLaws file_Read remaining)
    (Haddr : addr_ok addr) (dest : F) (rs : list (list byte)) (Hempty : content dest = []) :
  ∃ w0 w, Writer.new addr dest = Ok w0 ∧
    add_records file_Append file_Flush addr w0 rs = Ok (w, status_ok) ∧
    ∀ (n : nat) (g : G) (reporter checksum : bool) (rounds fuel : nat),
      blen (content (Writer.dest_ w)) < 2 ^ 62 →
      remaining g = take n (content (Writer.dest_ w)) →
      (length rs < rounds)%nat → (length (content (Writer.dest_ w)) < fuel)%nat →
      ∃ k r, read_all file_Read addr rounds fuel file_Skip (Reader.new g reporter checksum 0) =
          Ok (take k rs, r) ∧ Reader.reports r = [] ∧
        ∀ j wj, (j ≤ length rs)%nat →
          add_records file_Append file_Flush addr w0 (take j rs) = Ok (wj, status_ok) →
          (blen (content (Writer.dest_ wj)) ≤ blen (remaining g) ↔ (j ≤ k)%nat).
Proof.
  unfold Writer.new. rewrite InitTypeCrc_spec by done. cbn [mbind outcome_bind].
  set (w0 := Writer.mkWriter dest 0 type_crcs).
  assert (writer_ok w0) as Hw0 by (split; [done | unfold kBlockSize; simpl; lia]).
  destruct (add_records_log _ _ content addr Haddr rs w0 Hw0) as (w & bs & E & Hw & Hl & Hc).
  exists w0, w. split; [done|]. split; [done|].
  intros n g reporter checksum rounds fuel Hbound Hg Hrounds Hfuel.
  simpl in Hl, Hc. rewrite Hempty in Hc. simpl in Hc. rewrite Hc in *.
  destruct (read_log file_Read remaining addr Haddr 0 rs bs _ Hl ltac:(unfold kBlockSize; lia) fuel
    file_Skip (Reader.new g reporter checksum 0) 0 (remaining g)) as (k & Hreads & Hk & Hj); try done.
  - apply at_pos_new. rewrite Hg. unfold blen in *. rewrite length_take. lia.
  - rewrite Hg. exists (drop n bs). by rewrite take_drop.
  - destruct (reads_all _ _ _ _ _ _ Hreads rounds) as (r & Er & Hrep); [rewrite length_take; lia|].
    exists k, r. split; [done|]. split; [done|]. intros j wj Hjl Ej.
    destruct (Hj j Hjl) as (cs & c & Hlj & <-).
    destruct (add_records_log _ _ content addr Haddr (take j rs) w0 Hw0) as (w' & bs' & E' & _ & Hl' & Hc').
    rewrite E' in Ej. injection Ej as ->. simpl in Hl', Hc'. rewrite Hempty in Hc'. simpl in Hc'.
    destruct (log_of_fun _ _ _ _ Hl' _ _ Hlj) as [-> _]. by rewrite Hc'.
Qed.

Lemma log_crash_recovery_witness :
  ∃ w0 w, Writer.new (λ _, 4096) [] = Ok w0 ∧
    add_records mem_append mem_flush (λ _, 4096) w0 [str "hello"; []; str "world"] = Ok (w, status_ok) ∧
    ∀ (n : nat) (g : list byte) (reporter checksum : bool) (rounds fuel : nat),
      blen (id (Writer.dest_ w)) < 2 ^ 62 → id g = take n (id (Writer.dest_ w)) →
      (3 < rounds)%nat → (length (id (Writer.dest_ w)) < fuel)%nat →
      ∃ k r, read_all mem_seq_read (λ _, 4096) rounds fuel mem_skip (Reader.new g reporter checksum 0) =
          Ok (take k [str "hello"; []; str "world"], r) ∧ Reader.reports r = [] ∧
        ∀ j wj, (j ≤ 3)%nat →
          add_records mem_append mem_flush (λ _, 4096) w0 (take j [str "hello"; []; str "world"]) =
            Ok (wj, status_ok) →
          (blen (id (Writer.dest_ wj)) ≤ blen (id g) ↔ (j ≤ k)%nat).
Proof.
  apply (log_crash_recovery mem_append mem_flush id mem_seq_read mem_skip id (λ _, 4096)
    mem_append_laws mem_read_laws); [|reflexivity].
  intros b Hb. split; [discriminate|]. lia.
Defined.

(** C37: The reader on damaged files.  Let the reader be past its initial offset (every
    caller but a test starts at 0), and let the reads of the file not fail.  Whatever
    bytes the file holds (torn or overwritten records, lengths and types of any value),
    [ReadRecord] terminates, stays within its buffer, and with checksum verification every
    record it returns is the concatenation of payloads that lie in the file behind a
    header that stores their checksum: no byte that fails verification is ever
    returned. *)
Theorem log_reader_checked {G} (file_Read : G → Z → G * status * list byte)
    (file_Skip : G → Z → G * status) (remaining : G → list byte) (addr : list byte → Z)
    (HR : ReadLaws file_Read remaining) (Haddr : addr_ok addr)
    (r : @Reader.reader G) (fuel : nat) (Hstart : Reader.initial_offset_ r ≤ Reader.last_record_offset_ r)
    (Hfuel : (length (unread remaining r) < fuel)%nat) :
  ∃ r' x scr, Reader.ReadRecord file_Read file_Skip addr fuel r = Ok (r', x, scr) ∧
    (Reader.checksum_ r = true → ∀ record, x = Some record →
       ∃ ps, record = concat ps ∧ Forall (intact (unread remaining r)) ps).
Proof.
  unfold Reader.ReadRecord.
  destruct (Z.ltb_spec (Reader.last_record_offset_ r) (Reader.initial_offset_ r)); [lia|].
  apply (record_loop_total file_Read remaining addr Haddr); [done | by exists [] | intros _; apply made_of_nil].
Qed.

Lemma log_reader_checked_witness :
  ∃ r' x scr, Reader.ReadRecord mem_seq_read mem_skip (λ _, 4096) 30
      (Reader.new (str "these bytes are not a log") true true 0) = Ok (r', x, scr) ∧
    (Reader.checksum_ (Reader.new (str "these bytes are not a log") true true 0) = true →
     ∀ record, x = Some record →
       ∃ ps, record = concat ps ∧
         Forall (intact (unread id (Reader.new (str "these bytes are not a log") true true 0))) ps).
Proof.
  apply (log_reader_checked mem_seq_read mem_skip id (λ _, 4096) mem_read_laws).
  - intros b Hb. split; [discriminate|]. lia.
  - apply Z.le_refl.
  - vm_compute. repeat constructor.
Defined.
