(* ===== verification/Random.v ===== *)
(** * util/random.h: the pseudo-random number generator

    A linear congruential generator modulo the prime [2^31 - 1] whose reduction avoids
    the division.  The results of the generator are numbers below [2^32]. *)
From S2P Require Import Prelude.

(** ** Definitions *)

Module Random.

Definition M : Z := 2147483647.
Definition A : Z := 16807.

(** The constructor gives the first [seed_]. *)
Definition new (s : Z) : Z :=
  let seed := Z.land s 0x7fffffff in
  if (seed =? 0) || (seed =? 2147483647) then 1 else seed.

(** [Next] returns the new [seed_]. *)
Definition Next (seed : Z) : Z :=
  let product := u64 (seed * A) in
  let seed := u32 (Z.shiftr product 31 + Z.land product M) in
  if M <? seed then seed - M else seed.

(** The following return a number and the new [seed_]. *)
Definition Uniform (seed n : Z) : Z * Z := let seed := Next seed in (seed mod n, seed).
Definition OneIn (seed n : Z) : bool * Z := let seed := Next seed in (seed mod n =? 0, seed).
Definition Skewed (seed max_log : Z) : Z * Z :=
  let '(base, seed) := Uniform seed (max_log + 1) in Uniform seed (Z.shiftl 1 base).

End Random.
Import Random.

(** The seeds the generator can hold. *)
Definition seed_ok (seed : Z) : Prop := 1 ≤ seed < M.

(** ** Lemmas *)

(** No seed is mapped to zero: [A] has an inverse modulo [M]. *)
Lemma product_mod_nonzero seed : seed_ok seed → (seed * A) mod M ≠ 0.
Proof.
  unfold seed_ok, A, M. intros Hs H0.
  assert ((seed * 16807 * 1407677000) mod 2147483647 = 0) as H1.
  { by rewrite Z.mul_mod, H0 by lia. }
  rewrite <- Z.mul_assoc, Z.mul_mod in H1 by lia.
  change ((16807 * 1407677000) mod 2147483647) with 1 in H1.
  rewrite Z.mul_1_r, !Z.mod_mod, Z.mod_small in H1 by lia. lia.
Qed.

(** The reduction with one shift and one mask. *)
Lemma Random_fold_31 p : 0 ≤ p → ∃ q, Z.shiftr p 31 + Z.land p M = p - q * M ∧
  Z.shiftr p 31 = q ∧ 0 ≤ Z.land p M ≤ M.
Proof.
  intros Hp. exists (Z.shiftr p 31). split; [|split; [done|]].
  - rewrite Z.shiftr_div_pow2 by lia. change M with (Z.ones 31). rewrite Z.land_ones by lia.
    change (Z.ones 31) with (2 ^ 31 - 1). pose proof (Z.div_mod p (2 ^ 31)). lia.
  - change M with (Z.ones 31). rewrite Z.land_ones by lia. change (Z.ones 31) with (2 ^ 31 - 1).
    pose proof (Z.mod_pos_bound p (2 ^ 31)). lia.
Qed.

Lemma Random_Next_spec seed : seed_ok seed → Next seed = (seed * A) mod M ∧ seed_ok (Next seed).
Proof.
  intros Hs. pose proof (product_mod_nonzero seed Hs) as H0.
  pose proof (Z.mod_pos_bound (seed * A) M eq_refl) as Hb.
  assert (Next seed = (seed * A) mod M) as E.
  2: { split; [done|]. rewrite E. unfold seed_ok. lia. }
  unfold Next. unfold seed_ok, A, M in Hs.
  rewrite u64_small by (unfold is_u64, A; lia).
  destruct (Random_fold_31 (seed * A)) as (q & Eq & Hq & Hm); [unfold A; lia|].
  assert (0 ≤ q < 2 ^ 15) as Hq15.
  { rewrite <- Hq, Z.shiftr_div_pow2 by lia. split; [apply Z.div_pos; unfold A; lia|].
    apply Z.div_lt_upper_bound; unfold A; lia. }
  rewrite u32_small by (unfold is_u32, M in *; lia).
  destruct (Z.ltb_spec M (Z.shiftr (seed * A) 31 + Z.land (seed * A) M)) as [Hlt|Hge].
  - rewrite Eq in *. apply (Z.mod_unique_pos _ _ (q + 1)); unfold M in *; lia.
  - rewrite Eq in *. assert (seed * A - q * M ≠ M) as Hne.
    { intros HM. apply H0. replace (seed * A) with ((q + 1) * M) by lia. apply Z.mod_mul. unfold M. lia. }
    apply (Z.mod_unique_pos _ _ q); unfold M in *; lia.
Qed.

Lemma Random_new_ok s : seed_ok (new s).
Proof.
  unfold new, seed_ok. change 2147483647 with (Z.ones 31). change 0x7fffffff with (Z.ones 31).
  rewrite Z.land_ones by lia. pose proof (Z.mod_pos_bound s (2 ^ 31)).
  destruct (Z.eqb_spec (s mod 2 ^ 31) 0); [unfold M; simpl; lia|].
  destruct (Z.eqb_spec (s mod 2 ^ 31) (Z.ones 31)) as [|Hne]; cbn [orb]; [unfold M; lia|].
  change (Z.ones 31) with (2 ^ 31 - 1) in Hne. unfold M. lia.
Qed.

Lemma Random_Uniform_spec seed n :
  seed_ok seed → 0 < n → 0 ≤ (Uniform seed n).1 < n ∧ seed_ok (Uniform seed n).2.
Proof. intros Hs Hn. split; [by apply Z.mod_pos_bound | by apply Random_Next_spec]. Qed.

(** ** Properties *)

(** [Next] multiplies by [A] modulo [M] without a division, for every seed; the
    constructor avoids the two bad seeds, and no sequence of calls ever reaches one;
    [Uniform] and [Skewed] stay in their ranges. *)
Lemma random_next (s seed n max_log : Z) (Hs : seed_ok seed) (Hn : 0 < n) (Hm : 0 ≤ max_log ≤ 30) :
  seed_ok (Random.new s) ∧ Random.Next seed = (seed * Random.A) mod Random.M ∧ seed_ok (Random.Next seed) ∧
  0 ≤ (Random.Uniform seed n).1 < n ∧ 0 ≤ (Random.Skewed seed max_log).1 < 2 ^ max_log.
Proof.
  destruct (Random_Next_spec seed Hs) as [E Hok]. destruct (Random_Uniform_spec seed n Hs Hn) as [Hu _].
  split; [apply Random_new_ok|]. split; [done|]. split; [done|]. split; [done|].
  unfold Skewed. destruct (Random_Uniform_spec seed (max_log + 1) Hs ltac:(lia)) as [Hb Hs'].
  destruct (Uniform seed (max_log + 1)) as [base seed']. cbn [fst snd] in *.
  rewrite Z.shiftl_mul_pow2, Z.mul_1_l by lia.
  destruct (Random_Uniform_spec seed' (2 ^ base) Hs' ltac:(lia)) as [Hlt _].
  pose proof (Z.pow_le_mono_r 2 base max_log ltac:(lia) ltac:(lia)). lia.
Qed.

