(* ===== verification/Cache.v ===== *)
(** * util/cache.cc: the LRU cache

    A cache is sixteen shards.  A shard owns its entries, a circular doubly linked list in
    the order of use and a hash table whose buckets are linked through the entries.  A
    pointer to an entry is an index into the list [handles] of everything the shard
    allocated, where a freed entry is [None]; in the list of entries the pointer [None]
    is the address of the dummy [lru_], in the hash table it is a null pointer.  Calls of
    a deleter are recorded in [deleted].  Every operation holds the mutex of its shard, so
    concurrent calls are a sequence of operations.  A loop over entries is given one round
    more than there are entries. *)
From S2P Require Import Prelude.
From S2P Require Import Links.
From S2P Require Import Crc32c.
From S2P Require Import Bloom.
From S2P Require Import Comparator.

(** ** Definitions *)

Module Cache.
Section Cache.
(** Values and deleters are pointers of the client. *)
Context {V D : Type}.

Record LRUHandle := mkHandle {
  value : V;
  deleter : D;
  next_hash : option nat;
  next : option nat;
  prev : option nat;
  charge : Z;
  refs : Z;
  hash : Z;
  key_data : list byte
}.
Definition set_next_hash (p : option nat) (h : LRUHandle) : LRUHandle :=
  mkHandle (value h) (deleter h) p (next h) (prev h) (charge h) (refs h) (hash h) (key_data h).
Definition set_next_of (p : option nat) (h : LRUHandle) : LRUHandle :=
  mkHandle (value h) (deleter h) (next_hash h) p (prev h) (charge h) (refs h) (hash h) (key_data h).
Definition set_prev_of (p : option nat) (h : LRUHandle) : LRUHandle :=
  mkHandle (value h) (deleter h) (next_hash h) (next h) p (charge h) (refs h) (hash h) (key_data h).
Definition set_refs (n : Z) (h : LRUHandle) : LRUHandle :=
  mkHandle (value h) (deleter h) (next_hash h) (next h) (prev h) (charge h) n (hash h) (key_data h).

(** [LRUCache] with its [HandleTable] ([length_], [elems_] and [list_]). *)
Record lru_cache := mkCache {
  capacity_ : Z;
  usage_ : Z;
  lru_next : option nat;
  lru_prev : option nat;
  length_ : Z;
  elems_ : Z;
  list_ : list (option nat);
  handles : list (option LRUHandle);
  deleted : list (D * list byte * V)
}.
Definition set_usage (z : Z) (c : lru_cache) : lru_cache :=
  mkCache (capacity_ c) z (lru_next c) (lru_prev c) (length_ c) (elems_ c) (list_ c) (handles c) (deleted c).
Definition set_lru (n p : option nat) (c : lru_cache) : lru_cache :=
  mkCache (capacity_ c) (usage_ c) n p (length_ c) (elems_ c) (list_ c) (handles c) (deleted c).
Definition set_table (len elems : Z) (l : list (option nat)) (c : lru_cache) : lru_cache :=
  mkCache (capacity_ c) (usage_ c) (lru_next c) (lru_prev c) len elems l (handles c) (deleted c).
Definition set_handles (hs : list (option LRUHandle)) (c : lru_cache) : lru_cache :=
  mkCache (capacity_ c) (usage_ c) (lru_next c) (lru_prev c) (length_ c) (elems_ c) (list_ c) hs (deleted c).
Definition set_deleted (l : list (D * list byte * V)) (c : lru_cache) : lru_cache :=
  mkCache (capacity_ c) (usage_ c) (lru_next c) (lru_prev c) (length_ c) (elems_ c) (list_ c) (handles c) l.

Definition handle_at (i : nat) (c : lru_cache) : outcome LRUHandle :=
  match handles c !! i with Some (Some h) => Ok h | _ => Ub UseAfterFree end.
Definition update (i : nat) (f : LRUHandle → LRUHandle) (c : lru_cache) : outcome lru_cache :=
  h ← handle_at i c; Ok (set_handles (<[i := Some (f h)]> (handles c)) c).

(** [LRUHandle::key]; only an entry that is its own successor keeps the key in [value]. *)
Definition key (i : nat) (h : LRUHandle) : outcome (list byte) :=
  if bool_decide (next h = Some i) then Ub BadConversion else Ok (key_data h).

(** *** HandleTable *)

(** [LRUHandle**]: a bucket, or the [next_hash] of an entry. *)
Inductive slot := Bucket (b : nat) | NextOf (i : nat).
Definition read_slot (s : slot) (c : lru_cache) : outcome (option nat) :=
  match s with
  | Bucket b => match list_ c !! b with Some p => Ok p | None => Ub OutOfBounds end
  | NextOf i => h ← handle_at i c; Ok (next_hash h)
  end.
Definition write_slot (s : slot) (p : option nat) (c : lru_cache) : outcome lru_cache :=
  match s with
  | Bucket b => if bool_decide (b < length (list_ c))%nat then Ok (set_table (length_ c) (elems_ c) (<[b := p]> (list_ c)) c) else Ub OutOfBounds
  | NextOf i => update i (set_next_hash p) c
  end.

Fixpoint find_loop (fuel : nat) (k : list byte) (hsh : Z) (s : slot) (c : lru_cache) : outcome slot :=
  match fuel with
  | O => Blocked
  | S fuel =>
      p ← read_slot s c;
      match (p : option nat) with
      | None => Ok s
      | Some i =>
          h ← handle_at i c;
          if negb (hash h =? hsh) then find_loop fuel k hsh (NextOf i) c
          else
            k' ← key i h;
            if negb (slice_eq k k') then find_loop fuel k hsh (NextOf i) c else Ok s
      end
  end.
Definition FindPointer (k : list byte) (hsh : Z) (c : lru_cache) : outcome slot :=
  find_loop (S (length (handles c))) k hsh (Bucket (Z.to_nat (Z.land hsh (u32 (length_ c - 1))))) c.

Definition table_Lookup (k : list byte) (hsh : Z) (c : lru_cache) : outcome (option nat) :=
  s ← FindPointer k hsh c; read_slot s c.

(** [while (new_length < elems_) new_length *= 2]: doubling passes any 32-bit number in
    30 rounds. *)
Fixpoint grow (fuel : nat) (new_length elems : Z) : outcome Z :=
  if new_length <? elems then
    match fuel with O => Blocked | S fuel => grow fuel (u32 (new_length * 2)) elems end
  else Ok new_length.
(** The entries of a bucket go to the front of their new buckets. *)
Fixpoint move_chain (fuel : nat) (p : option nat) (new_length : Z) (st : list (option nat) * Z * lru_cache) : outcome (list (option nat) * Z * lru_cache) :=
  match p with
  | None => Ok st
  | Some i =>
      match fuel with
      | O => Blocked
      | S fuel =>
          let '(new_list, count, c) := st in
          h ← handle_at i c;
          let b := Z.to_nat (Z.land (hash h) (u32 (new_length - 1))) in
          match new_list !! b with
          | None => Ub OutOfBounds
          | Some front =>
              c ← update i (set_next_hash front) c;
              move_chain fuel (next_hash h) new_length (<[b := Some i]> new_list, u32 (count + 1), c)
          end
      end
  end.
Definition Resize (c : lru_cache) : outcome lru_cache :=
  new_length ← grow 32 4 (elems_ c);
  st ← for_loop (λ b st, match list_ c !! b with
                         | Some p => move_chain (S (length (handles c))) p new_length st
                         | None => Ub OutOfBounds
                         end)
         (seq 0 (Z.to_nat (length_ c))) (replicate (Z.to_nat new_length) None, 0, c);
  let '(new_list, count, c) := st in
  if negb (elems_ c =? count) then Ub AssertionFailed else Ok (set_table new_length (elems_ c) new_list c).

Definition table_Insert (i : nat) (c : lru_cache) : outcome (option nat * lru_cache) :=
  h ← handle_at i c;
  k ← key i h;
  ptr ← FindPointer k (hash h) c;
  old ← read_slot ptr c;
  after ← (match (old : option nat) with None => Ok None | Some o => ho ← handle_at o c; Ok (next_hash ho) end);
  c ← update i (set_next_hash after) c;
  c ← write_slot ptr (Some i) c;
  c ← (match old with
       | Some _ => Ok c
       | None =>
           let c := set_table (length_ c) (u32 (elems_ c + 1)) (list_ c) c in
           if length_ c <? elems_ c then Resize c else Ok c
       end);
  Ok (old, c).

Definition table_Remove (k : list byte) (hsh : Z) (c : lru_cache) : outcome (option nat * lru_cache) :=
  ptr ← FindPointer k hsh c;
  result ← read_slot ptr c;
  match (result : option nat) with
  | None => Ok (None, c)
  | Some r =>
      h ← handle_at r c;
      c ← write_slot ptr (next_hash h) c;
      Ok (Some r, set_table (length_ c) (u32 (elems_ c - 1)) (list_ c) c)
  end.

(** *** LRUCache *)

(** The links of an entry, or of the dummy. *)
Definition set_next (p : option nat) (v : option nat) (c : lru_cache) : outcome lru_cache :=
  match p with None => Ok (set_lru v (lru_prev c) c) | Some i => update i (set_next_of v) c end.
Definition set_prev (p : option nat) (v : option nat) (c : lru_cache) : outcome lru_cache :=
  match p with None => Ok (set_lru (lru_next c) v c) | Some i => update i (set_prev_of v) c end.

Definition LRU_Remove (e : nat) (c : lru_cache) : outcome lru_cache :=
  h ← handle_at e c;
  c ← set_prev (next h) (prev h) c;
  h ← handle_at e c;
  set_next (prev h) (next h) c.
Definition LRU_Append (e : nat) (c : lru_cache) : outcome lru_cache :=
  c ← update e (set_next_of None) c;
  c ← update e (set_prev_of (lru_prev c)) c;
  h ← handle_at e c;
  c ← set_next (prev h) (Some e) c;
  h ← handle_at e c;
  set_prev (next h) (Some e) c.

Definition Unref (e : nat) (c : lru_cache) : outcome lru_cache :=
  h ← handle_at e c;
  if negb (0 <? refs h) then Ub AssertionFailed
  else
    c ← update e (set_refs (refs h - 1)) c;
    if refs h - 1 <=? 0 then
      k ← key e h;
      Ok (set_handles (<[e := None]> (handles c)) (set_deleted (deleted c ++ [(deleter h, k, value h)]) (set_usage (u64 (usage_ c - charge h)) c)))
    else Ok c.

Definition new (capacity : Z) : outcome lru_cache := Resize (mkCache capacity 0 None None 0 0 [] [] []).

Definition Lookup (k : list byte) (hsh : Z) (c : lru_cache) : outcome (option nat * lru_cache) :=
  e ← table_Lookup k hsh c;
  match (e : option nat) with
  | None => Ok (None, c)
  | Some i =>
      c ← update i (λ h, set_refs (u32 (refs h + 1)) h) c;
      c ← LRU_Remove i c;
      c ← LRU_Append i c;
      Ok (Some i, c)
  end.

Definition Release (i : nat) (c : lru_cache) : outcome lru_cache := Unref i c.

(** The oldest entries are dropped while the cache is too large. *)
Fixpoint evict_loop (fuel : nat) (c : lru_cache) : outcome lru_cache :=
  if capacity_ c <? usage_ c then
    match lru_next c with
    | None => Ok c
    | Some old =>
        match fuel with
        | O => Blocked
        | S fuel =>
            c ← LRU_Remove old c;
            h ← handle_at old c;
            k ← key old h;
            r ← table_Remove k (hash h) c;
            c ← Unref old r.2;
            evict_loop fuel c
        end
    end
  else Ok c.

Definition Insert (k : list byte) (hsh : Z) (v : V) (chg : Z) (del : D) (c : lru_cache) : outcome (nat * lru_cache) :=
  let e := length (handles c) in
  let c := set_handles (handles c ++ [Some (mkHandle v del None None None chg 2 hsh k)]) c in
  c ← LRU_Append e c;
  let c := set_usage (u64 (usage_ c + chg)) c in
  r ← table_Insert e c;
  c ← (match (r.1 : option nat) with None => Ok r.2 | Some old => c ← LRU_Remove old r.2; Unref old c end);
  c ← evict_loop (S (length (handles c))) c;
  Ok (e, c).

Definition Erase (k : list byte) (hsh : Z) (c : lru_cache) : outcome lru_cache :=
  r ← table_Remove k hsh c;
  match (r.1 : option nat) with None => Ok r.2 | Some e => c ← LRU_Remove e r.2; Unref e c end.

Fixpoint prune_loop (fuel : nat) (p : option nat) (c : lru_cache) : outcome lru_cache :=
  match p with
  | None => Ok c
  | Some e =>
      match fuel with
      | O => Blocked
      | S fuel =>
          h ← handle_at e c;
          c ← (if refs h =? 1 then
                 k ← key e h;
                 r ← table_Remove k (hash h) c;
                 c ← LRU_Remove e r.2;
                 Unref e c
               else Ok c);
          prune_loop fuel (next h) c
      end
  end.
Definition Prune (c : lru_cache) : outcome lru_cache := prune_loop (S (length (handles c))) (lru_next c) c.


(** *** ShardedLRUCache *)

Definition kNumShardBits : Z := 4.
Definition kNumShards : Z := Z.shiftl 1 kNumShardBits.
Definition HashSlice (s : list byte) : Z := Hash.Hash s 0.
Definition Shard (hsh : Z) : nat := Z.to_nat (Z.shiftr hsh (32 - kNumShardBits)).

Record sharded := mkSharded { shard_ : list lru_cache; last_id_ : Z }.

Definition new_sharded (capacity : Z) : outcome sharded :=
  let per_shard := u64 (capacity + (kNumShards - 1)) / kNumShards in
  c ← new per_shard;
  Ok (mkSharded (replicate (Z.to_nat kNumShards) c) 0).

(** An operation on one shard. *)
Definition on_shard {A} (s : nat) (f : lru_cache → outcome (A * lru_cache)) (t : sharded) : outcome (A * sharded) :=
  match shard_ t !! s with
  | Some c => r ← f c; Ok (r.1, mkSharded (<[s := r.2]> (shard_ t)) (last_id_ t))
  | None => Ub OutOfBounds
  end.

(** A handle is an entry of a shard. *)
Definition ShardedInsert (k : list byte) (v : V) (chg : Z) (del : D) (t : sharded) : outcome ((nat * nat) * sharded) :=
  let hsh := HashSlice k in
  r ← on_shard (Shard hsh) (Insert k hsh v chg del) t; Ok ((Shard hsh, r.1), r.2).
Definition ShardedLookup (k : list byte) (t : sharded) : outcome (option (nat * nat) * sharded) :=
  let hsh := HashSlice k in
  r ← on_shard (Shard hsh) (Lookup k hsh) t; Ok ((λ i, (Shard hsh, i)) <$> (r.1 : option nat), r.2).
(** The shard is found by the hash of the entry. *)
Definition sharded_handle (h : nat * nat) (t : sharded) : outcome LRUHandle :=
  match shard_ t !! h.1 with Some c => handle_at h.2 c | None => Ub OutOfBounds end.
Definition ShardedRelease (h : nat * nat) (t : sharded) : outcome sharded :=
  e ← sharded_handle h t;
  if bool_decide (Shard (hash e) = h.1)
  then r ← on_shard h.1 (λ c, c ← Release h.2 c; Ok (tt, c)) t; Ok r.2
  else Ub UseAfterFree.
Definition ShardedErase (k : list byte) (t : sharded) : outcome sharded :=
  let hsh := HashSlice k in
  r ← on_shard (Shard hsh) (λ c, c ← Erase k hsh c; Ok (tt, c)) t; Ok r.2.
Definition ShardedValue (h : nat * nat) (t : sharded) : outcome V := e ← sharded_handle h t; Ok (value e).
Definition NewId (t : sharded) : Z * sharded := let id := u64 (last_id_ t + 1) in (id, mkSharded (shard_ t) id).
Definition ShardedPrune (t : sharded) : outcome sharded :=
  for_loop (λ s t, r ← on_shard s (λ c, c ← Prune c; Ok (tt, c)) t; Ok r.2) (seq 0 (Z.to_nat kNumShards)) t.
Definition TotalCharge (t : sharded) : Z := foldl (λ total c, u64 (total + usage_ c)) 0 (shard_ t).

End Cache.
Arguments LRUHandle : clear implicits.
Arguments lru_cache : clear implicits.
Arguments sharded : clear implicits.
End Cache.

Import Cache.

(** ** The abstract cache

    Entries are numbered in the order of insertion.  [s_cached] are the entries that a
    lookup finds, the oldest one first, [s_pins] the handles the clients hold, as often
    as they hold them, and [s_deleted] the entries whose deleter was called. *)

Section spec.
Context {V D : Type}.

Record obj := mkObj { o_key : list byte; o_value : V; o_charge : Z; o_deleter : D }.
Record spec := mkSpec {
  s_capacity : Z;
  s_objs : list obj;
  s_cached : list nat;
  s_pins : list nat;
  s_deleted : list nat;
  s_usage : Z
}.
Definition s_with (cached pins : list nat) (s : spec) : spec := mkSpec (s_capacity s) (s_objs s) cached pins (s_deleted s) (s_usage s).
Definition without (i : nat) (l : list nat) : list nat := filter (λ j, j ≠ i) l.
Fixpoint remove_one (i : nat) (l : list nat) : list nat :=
  match l with [] => [] | j :: l => if decide (j = i) then l else j :: remove_one i l end.

Definition has_key (s : spec) (k : list byte) (i : nat) : Prop := o_key <$> s_objs s !! i = Some k.
#[export] Instance has_key_dec s k i : Decision (has_key s k i) := decide (_ = _).
Definition s_find (k : list byte) (s : spec) : option nat := head (filter (has_key s k) (s_cached s)).
Definition s_live (s : spec) (i : nat) : Prop := i ∈ s_cached s ∨ i ∈ s_pins s.
#[export] Instance s_live_dec s i : Decision (s_live s i) := decide (_ ∨ _).

(** The deleter is called when nobody refers to the entry any more. *)
Definition s_collect (i : nat) (s : spec) : spec :=
  if decide (s_live s i) then s
  else mkSpec (s_capacity s) (s_objs s) (s_cached s) (s_pins s) (s_deleted s ++ [i]) (s_usage s - default 0 (o_charge <$> s_objs s !! i)).
Definition s_forget (i : nat) (s : spec) : spec := s_collect i (s_with (without i (s_cached s)) (s_pins s) s).
Fixpoint s_evict (l : list nat) (s : spec) : spec :=
  match l with [] => s | i :: l => if s_capacity s <? s_usage s then s_evict l (s_forget i s) else s end.

Definition s_lookup (k : list byte) (s : spec) : option nat * spec :=
  match s_find k s with
  | None => (None, s)
  | Some i => (Some i, s_with (without i (s_cached s) ++ [i]) (i :: s_pins s) s)
  end.
Definition s_insert (k : list byte) (v : V) (chg : Z) (del : D) (s : spec) : nat * spec :=
  let n := length (s_objs s) in
  let s1 := mkSpec (s_capacity s) (s_objs s ++ [mkObj k v chg del]) (s_cached s ++ [n]) (n :: s_pins s) (s_deleted s) (s_usage s + chg) in
  let s2 := match s_find k s with Some old => s_forget old s1 | None => s1 end in
  (n, s_evict (s_cached s2) s2).
Definition s_release (i : nat) (s : spec) : spec := s_collect i (s_with (s_cached s) (remove_one i (s_pins s)) s).
Definition s_erase (k : list byte) (s : spec) : spec := match s_find k s with Some i => s_forget i s | None => s end.
(** [Prune] drops the entries that no client holds. *)
Definition s_prune (s : spec) : spec := foldl (λ s i, if decide (i ∈ s_pins s) then s else s_forget i s) s (s_cached s).
End spec.
Arguments obj : clear implicits.
Arguments spec : clear implicits.

(** ** Lemmas *)

(** *** Links in the heap *)

Section heap.
Context {V D : Type}.
Implicit Types (c : lru_cache V D) (h : LRUHandle V D) (p q : option nat).

Definition live_handle c (i : nat) h : Prop := handles c !! i = Some (Some h).
Definition nx c p : option (option nat) :=
  match p with None => Some (lru_next c) | Some i => match handles c !! i with Some (Some h) => Some (next h) | _ => None end end.
Definition pv c p : option (option nat) :=
  match p with None => Some (lru_prev c) | Some i => match handles c !! i with Some (Some h) => Some (prev h) | _ => None end end.

Lemma handle_at_live c i h : live_handle c i h → handle_at i c = Ok h.
Proof. unfold handle_at. by intros ->. Qed.
Lemma live_lt c i h : live_handle c i h → (i < length (handles c))%nat.
Proof. apply lookup_lt_Some. Qed.
Lemma update_live c i h f : live_handle c i h → update i f c = Ok (set_handles (<[i := Some (f h)]> (handles c)) c).
Proof. intros H. unfold update. by rewrite (handle_at_live c i h H). Qed.
Lemma live_set c i x j h : (i < length (handles c))%nat → live_handle (set_handles (<[i := Some x]> (handles c)) c) j h ↔ if decide (j = i) then h = x else live_handle c j h.
Proof.
  intros Hi. unfold live_handle. cbn [handles set_handles]. case_decide as E; [subst; rewrite list_lookup_insert_eq by done; naive_solver | by rewrite list_lookup_insert_ne].
Qed.

Definition strip_links h : LRUHandle V D := set_next_of None (set_prev_of None h).
Definition strip_hash h : LRUHandle V D := set_next_hash None h.

(** Only links of the list changed. *)
Record links_only c c' : Prop := mkLinksOnly {
  lo_capacity : capacity_ c' = capacity_ c;
  lo_usage : usage_ c' = usage_ c;
  lo_table : length_ c' = length_ c ∧ elems_ c' = elems_ c ∧ list_ c' = list_ c;
  lo_deleted : deleted c' = deleted c;
  lo_length : length (handles c') = length (handles c);
  lo_handles i h' : live_handle c' i h' → ∃ h, live_handle c i h ∧ strip_links h' = strip_links h;
  lo_back i h : live_handle c i h → ∃ h', live_handle c' i h' ∧ strip_links h' = strip_links h
}.

Lemma links_only_refl c : links_only c c.
Proof. split; eauto. Qed.
Lemma links_only_trans c1 c2 c3 : links_only c1 c2 → links_only c2 c3 → links_only c1 c3.
Proof.
  intros [A1 A2 (A3 & A3' & A3'') A4 A5 A6 A7] [B1 B2 (B3 & B3' & B3'') B4 B5 B6 B7]. split; try congruence.
  - split_and!; congruence.
  - intros i h H. destruct (B6 i h H) as (h2 & H2 & E2). destruct (A6 i h2 H2) as (h1 & H1 & E1). exists h1. split; [done | congruence].
  - intros i h H. destruct (A7 i h H) as (h2 & H2 & E2). destruct (B7 i h2 H2) as (h3 & H3 & E3). exists h3. split; [done | congruence].
Qed.

Lemma links_only_set c i h x : live_handle c i h → strip_links x = strip_links h → links_only c (set_handles (<[i := Some x]> (handles c)) c).
Proof.
  intros H E. pose proof (live_lt c i h H) as Hi. split; try done.
  - cbn. by rewrite length_insert.
  - intros j h' Hj. apply live_set in Hj; [|done]. case_decide as Ej; [subst; by exists h | by exists h'].
  - intros j h' Hj. exists (if decide (j = i) then x else h'). rewrite live_set by done. case_decide as Ej; [|done]. subst. split; [done|].
    unfold live_handle in *. rewrite H in Hj. by injection Hj as <-.
Qed.

Lemma set_next_spec c p n v : nx c p = Some n → ∃ c', set_next p v c = Ok c' ∧ links_only c c' ∧
  (∀ q, nx c' q = if decide (q = p) then Some v else nx c q) ∧ (∀ q, pv c' q = pv c q).
Proof.
  intros Hn. destruct p as [i|]; cbn [set_next].
  - cbn in Hn. destruct (handles c !! i) as [[h|]|] eqn:Hi; try done. pose proof (live_lt c i h Hi) as Hlt. rewrite (update_live c i h) by done. eexists. split; [reflexivity|].
    split; [by apply (links_only_set c i h)|]. split.
    + intros [j|]; cbn [nx set_handles handles lru_next]; [|by rewrite decide_False].
      case_decide as E; [injection E as ->; by rewrite list_lookup_insert_eq | rewrite list_lookup_insert_ne; congruence].
    + intros [j|]; cbn [pv set_handles handles lru_prev]; [|done]. destruct (decide (j = i)) as [->|]; [by rewrite list_lookup_insert_eq, Hi | by rewrite list_lookup_insert_ne].
  - eexists. split; [reflexivity|]. split; [split; eauto|]. split; [|by intros [j|]]. intros [j|]; cbn; [by rewrite decide_False | by rewrite decide_True].
Qed.

Lemma set_prev_spec c p n v : pv c p = Some n → ∃ c', set_prev p v c = Ok c' ∧ links_only c c' ∧
  (∀ q, pv c' q = if decide (q = p) then Some v else pv c q) ∧ (∀ q, nx c' q = nx c q).
Proof.
  intros Hn. destruct p as [i|]; cbn [set_prev].
  - cbn in Hn. destruct (handles c !! i) as [[h|]|] eqn:Hi; try done. pose proof (live_lt c i h Hi) as Hlt. rewrite (update_live c i h) by done. eexists. split; [reflexivity|].
    split; [by apply (links_only_set c i h)|]. split.
    + intros [j|]; cbn [pv set_handles handles lru_prev]; [|by rewrite decide_False].
      case_decide as E; [injection E as ->; by rewrite list_lookup_insert_eq | rewrite list_lookup_insert_ne; congruence].
    + intros [j|]; cbn [nx set_handles handles lru_next]; [|done]. destruct (decide (j = i)) as [->|]; [by rewrite list_lookup_insert_eq, Hi | by rewrite list_lookup_insert_ne].
  - eexists. split; [reflexivity|]. split; [split; eauto|]. split; [|by intros [j|]]. intros [j|]; cbn; [by rewrite decide_False | by rewrite decide_True].
Qed.

(** No entry is its own successor, so [key] is the key. *)
Definition no_self c : Prop := ∀ i, nx c (Some i) ≠ Some (Some i).
Definition lru_ok c (order : list nat) : Prop := dseg (nx c) (pv c) None order None ∧ NoDup order ∧ no_self c.

Lemma key_live c i h : no_self c → live_handle c i h → key i h = Ok (key_data h).
Proof.
  intros Hs Hi. unfold key. rewrite bool_decide_false; [done|]. intros E. apply (Hs i). unfold live_handle in Hi. cbn. by rewrite Hi, E.
Qed.
Lemma nx_live c i n : nx c (Some i) = Some n → ∃ h, live_handle c i h ∧ next h = n.
Proof. cbn. unfold live_handle. destruct (handles c !! i) as [[h|]|]; try done. intros [= <-]. by exists h. Qed.
Lemma live_nx c i h : live_handle c i h → nx c (Some i) = Some (next h) ∧ pv c (Some i) = Some (prev h).
Proof. unfold live_handle. cbn. by intros ->. Qed.

Lemma order_live c order i : lru_ok c order → i ∈ order → ∃ h, live_handle c i h.
Proof.
  intros (Hd & _) (l & k & ->)%list_elem_of_split. apply dseg_app in Hd as [_ Hk]. apply dseg_headp in Hk as [H _].
  destruct (nx_live c i _ H) as (h & Hh & _). by exists h.
Qed.

Lemma LRU_Remove_spec c l e k : lru_ok c (l ++ e :: k) → ∃ c', LRU_Remove e c = Ok c' ∧ links_only c c' ∧ lru_ok c' (l ++ k).
Proof.
  intros (Hd & Hnd & Hs). pose proof Hd as Hd'. apply dseg_app in Hd' as [Hl Hk]. apply dseg_lastp in Hl as [Hpe Hnp]. apply dseg_headp in Hk as [Hne Hpn].
  destruct (nx_live c e _ Hne) as (h & Hh & En). destruct (live_nx c e h Hh) as [_ Ep]. rewrite Hpe in Ep. injection Ep as Ep.
  unfold LRU_Remove. rewrite (handle_at_live c e h Hh). cbn [mbind outcome_bind]. rewrite En, <- Ep.
  set (p := lastp None l) in *. set (n := headp k None) in *.
  destruct (set_prev_spec c n _ p Hpn) as (c1 & -> & Hlo1 & Hp1 & Hn1). cbn [mbind outcome_bind].
  destruct (lo_back _ _ Hlo1 e h Hh) as (h1 & Hh1 & _). destruct (live_nx c1 e h1 Hh1) as [En1 Ep1]. rewrite (handle_at_live c1 e h1 Hh1). cbn [mbind outcome_bind].
  rewrite Hn1, Hne in En1. injection En1 as <-.
  assert (n ≠ Some e) as Hn_e by (intros E; apply (Hs e); by rewrite Hne, E).
  rewrite Hp1, decide_False, Hpe in Ep1 by done. injection Ep1 as <-.
  destruct (set_next_spec c1 p (Some e) n) as (c2 & -> & Hlo2 & Hn2 & Hp2); [by rewrite Hn1|].
  exists c2. split; [done|]. split; [by eapply links_only_trans|]. split; [|split].
  - apply (dseg_remove (nx c) (pv c) _ _ l e k Hd Hnd); intros q; [rewrite Hn2, Hn1 | rewrite Hp2, Hp1]; done.
  - apply NoDup_app in Hnd as (? & Hlk & Hek). apply NoDup_cons in Hek as [? ?]. apply NoDup_app. split_and!; try done. intros x Hx Hxk. apply (Hlk x Hx). by right.
  - intros i. rewrite Hn2, Hn1. case_decide as Ei; [|apply Hs]. intros [= E]. rewrite Ei in E.
    assert (p = None ∨ p ∈ map Some l) as [E'|Hin] by apply lastp_in; [congruence|]. apply list_elem_of_fmap in Hin as (y & Ey & Hy).
    unfold n in E. destruct k as [|z k]; cbn in E; [congruence|]. apply NoDup_app in Hnd as (_ & Hlk & _). apply (Hlk y Hy). right. rewrite Ey in E. injection E as ->. by left.
Qed.

Lemma LRU_Append_spec c l e h : lru_ok c l → live_handle c e h → e ∉ l → ∃ c', LRU_Append e c = Ok c' ∧ links_only c c' ∧ lru_ok c' (l ++ [e]).
Proof.
  intros (Hd & Hnd & Hs) Hh He. pose proof (dseg_lastp _ _ _ _ _ Hd) as [Hpe Hnp]. cbn in Hpe. injection Hpe as Epl. set (p := lastp None l) in *.
  destruct (live_nx c e h Hh) as [Hn0 Hp0]. unfold LRU_Append.
  destruct (set_next_spec c (Some e) _ None Hn0) as (c1 & E1 & Hlo1 & Hn1 & Hp1). cbn [set_next] in E1. rewrite E1. cbn [mbind outcome_bind].
  assert (lru_prev c1 = p) as El1 by (specialize (Hp1 None); cbn in Hp1; congruence). rewrite El1.
  destruct (set_prev_spec c1 (Some e) (prev h) p) as (c2 & E2 & Hlo2 & Hp2 & Hn2); [by rewrite Hp1|]. cbn [set_prev] in E2. rewrite E2. cbn [mbind outcome_bind].
  pose proof (links_only_trans _ _ _ Hlo1 Hlo2) as Hlo. destruct (lo_back _ _ Hlo e h Hh) as (h2 & Hh2 & _).
  destruct (live_nx c2 e h2 Hh2) as [En2 Ep2]. rewrite (handle_at_live c2 e h2 Hh2). cbn [mbind outcome_bind].
  rewrite Hp2, decide_True in Ep2 by done. injection Ep2 as <-.
  assert (p ≠ Some e) as Hpe. { assert (p = None ∨ p ∈ map Some l) as [E|(y & E & Hy)%list_elem_of_fmap] by apply lastp_in; [congruence|]. rewrite E. by intros [= ->]. }
  destruct (set_next_spec c2 p None (Some e)) as (c3 & -> & Hlo3 & Hn3 & Hp3); [rewrite Hn2, Hn1, decide_False by done; exact Hnp|]. cbn [mbind outcome_bind].
  destruct (lo_back _ _ Hlo3 e h2 Hh2) as (h3 & Hh3 & _). destruct (live_nx c3 e h3 Hh3) as [En3 _]. rewrite (handle_at_live c3 e h3 Hh3). cbn [mbind outcome_bind].
  rewrite Hn3, decide_False, Hn2, Hn1, decide_True in En3 by done. injection En3 as <-.
  destruct (set_prev_spec c3 None (lru_prev c3) (Some e) eq_refl) as (c4 & -> & Hlo4 & Hp4 & Hn4).
  exists c4. split; [done|]. split; [by eapply links_only_trans; [|eapply links_only_trans]|].
  assert (NoDup (l ++ [e])) as Hnd'.
  { apply NoDup_app. split; [done|]. split; [|apply NoDup_singleton]. by intros x Hx ->%list_elem_of_singleton. }
  assert (∀ q, nx c4 q = if decide (q = p) then Some (Some e) else if decide (q = Some e) then Some None else nx c q) as Hnx by (intros q; by rewrite Hn4, Hn3, Hn2, Hn1).
  split; [|split; [done|]].
  - apply (dseg_append (nx c) (pv c) _ _ l e Hd Hnd' Hnx). intros q. rewrite Hp4, Hp3, Hp2, Hp1. by repeat case_decide.
  - intros i. rewrite Hnx. case_decide as Ei; [congruence|]. case_decide; [done | apply Hs].
Qed.

(** *** Buckets *)

(** [l] is the chain from [p] to [q] along [next_hash]. *)
Fixpoint hseg c p (l : list nat) q : Prop :=
  match l with
  | [] => p = q
  | x :: l => p = Some x ∧ ∃ h, live_handle c x h ∧ hseg c (next_hash h) l q
  end.
Definition chains_in c (buckets : list (option nat)) (chains : list (list nat)) : Prop :=
  length buckets = length chains ∧ ∀ b l, chains !! b = Some l → ∃ p, buckets !! b = Some p ∧ hseg c p l None.
Definition buckets_ok c (chains : list (list nat)) : Prop := chains_in c (list_ c) chains.
Definition bucket_of c (hsh : Z) : nat := Z.to_nat (Z.land hsh (length_ c - 1)).

(** Only the links of the buckets changed. *)
Record hash_only c c' : Prop := mkHashOnly {
  ho_capacity : capacity_ c' = capacity_ c;
  ho_usage : usage_ c' = usage_ c;
  ho_lru : lru_next c' = lru_next c ∧ lru_prev c' = lru_prev c;
  ho_deleted : deleted c' = deleted c;
  ho_length : length (handles c') = length (handles c);
  ho_handles i h' : live_handle c' i h' → ∃ h, live_handle c i h ∧ strip_hash h' = strip_hash h;
  ho_back i h : live_handle c i h → ∃ h', live_handle c' i h' ∧ strip_hash h' = strip_hash h
}.

Lemma hash_only_refl c : hash_only c c.
Proof. split; eauto. Qed.
Lemma hash_only_trans c1 c2 c3 : hash_only c1 c2 → hash_only c2 c3 → hash_only c1 c3.
Proof.
  intros [A1 A2 [A3 A3'] A4 A5 A6 A7] [B1 B2 [B3 B3'] B4 B5 B6 B7]. split; try congruence.
  - split; congruence.
  - intros i h H. destruct (B6 i h H) as (h2 & H2 & E2). destruct (A6 i h2 H2) as (h1 & H1 & E1). exists h1. split; [done | congruence].
  - intros i h H. destruct (A7 i h H) as (h2 & H2 & E2). destruct (B7 i h2 H2) as (h3 & H3 & E3). exists h3. split; [done | congruence].
Qed.
Lemma hash_only_set c i h x : live_handle c i h → strip_hash x = strip_hash h → hash_only c (set_handles (<[i := Some x]> (handles c)) c).
Proof.
  intros H E. pose proof (live_lt c i h H) as Hi. split; try done.
  - cbn. by rewrite length_insert.
  - intros j h' Hj. apply live_set in Hj; [|done]. case_decide as Ej; [subst; by exists h | by exists h'].
  - intros j h' Hj. exists (if decide (j = i) then x else h'). rewrite live_set by done. case_decide as Ej; [|done]. subst. split; [done|].
    unfold live_handle in *. rewrite H in Hj. by injection Hj as <-.
Qed.
Lemma hash_only_table c len elems l : hash_only c (set_table len elems l c).
Proof. split; eauto. Qed.

Lemma strip_hash_fields h h' : strip_hash h' = strip_hash h →
  value h' = value h ∧ deleter h' = deleter h ∧ next h' = next h ∧ prev h' = prev h ∧ charge h' = charge h ∧ refs h' = refs h ∧ hash h' = hash h ∧ key_data h' = key_data h.
Proof. destruct h, h'. unfold strip_hash, set_next_hash. cbn. intros [= -> -> -> -> -> -> -> ->]. done. Qed.
Lemma strip_links_fields h h' : strip_links h' = strip_links h →
  value h' = value h ∧ deleter h' = deleter h ∧ next_hash h' = next_hash h ∧ charge h' = charge h ∧ refs h' = refs h ∧ hash h' = hash h ∧ key_data h' = key_data h.
Proof. destruct h, h'. unfold strip_links, set_next_of, set_prev_of. cbn. intros [= -> -> -> -> -> -> ->]. done. Qed.

Lemma hash_only_nx c c' q : hash_only c c' → nx c' q = nx c q ∧ pv c' q = pv c q.
Proof.
  intros Hh. destruct q as [i|]; [|cbn; destruct (ho_lru _ _ Hh) as [-> ->]; done].
  destruct (handles c !! i) as [[h|]|] eqn:Hi.
  - destruct (ho_back _ _ Hh i h Hi) as (h' & Hi' & E). unfold live_handle in Hi'. cbn. rewrite Hi, Hi'. destruct (strip_hash_fields _ _ E) as (_ & _ & -> & -> & _). done.
  - cbn. rewrite Hi. destruct (handles c' !! i) as [[h'|]|] eqn:Hi'; try done. destruct (ho_handles _ _ Hh i h' Hi') as (h & Hh' & _). unfold live_handle in Hh'. congruence.
  - cbn. rewrite Hi. destruct (handles c' !! i) as [[h'|]|] eqn:Hi'; try done. destruct (ho_handles _ _ Hh i h' Hi') as (h & Hh' & _). unfold live_handle in Hh'. congruence.
Qed.

Lemma hash_only_lru c c' order : hash_only c c' → lru_ok c order → lru_ok c' order.
Proof.
  intros Hh (Hd & Hnd & Hs). split; [|split; [done|]].
  - apply (dseg_frame (nx c) (pv c)); [done|..]; intros q _; apply (hash_only_nx c c' q Hh).
  - intros i. rewrite (proj1 (hash_only_nx c c' (Some i) Hh)). apply Hs.
Qed.

Lemma hseg_frame c c' l : ∀ p q, hseg c p l q → (∀ x h, x ∈ l → live_handle c x h → ∃ h', live_handle c' x h' ∧ next_hash h' = next_hash h) → hseg c' p l q.
Proof.
  induction l as [|x l IH]; intros p q; [done|]. cbn. intros (-> & h & Hh & Hl) Hf. split; [done|].
  destruct (Hf x h ltac:(by left) Hh) as (h' & Hh' & E). exists h'. split; [done|]. rewrite E. apply IH; [done|]. intros y hy Hy. apply Hf. by right.
Qed.

Lemma hseg_app c l : ∀ p k q, hseg c p (l ++ k) q ↔ ∃ r, hseg c p l r ∧ hseg c r k q.
Proof.
  induction l as [|x l IH]; intros p k q; cbn; [split; [by exists p | by intros (r & -> & ?)]|]. split.
  - intros (-> & h & Hh & Hl). apply IH in Hl as (r & H1 & H2). exists r. split; [|done]. split; [done|]. by exists h.
  - intros (r & (-> & h & Hh & H1) & H2). split; [done|]. exists h. split; [done|]. apply IH. by exists r.
Qed.
Lemma hseg_head c p l : hseg c p l None → p = head l.
Proof. destruct l; [done|]. by intros [-> _]. Qed.
Lemma hseg_live c l : ∀ p q i, hseg c p l q → i ∈ l → ∃ h, live_handle c i h.
Proof.
  induction l as [|x l IH]; intros p q i; [by intros _ ?%elem_of_nil|]. cbn. intros (-> & h & Hh & Hl) [->|Hi]%elem_of_cons; [by exists h | by eapply IH].
Qed.

Lemma links_only_buckets c c' chains : links_only c c' → buckets_ok c chains → buckets_ok c' chains.
Proof.
  intros Hlo [Hl Hc]. destruct (lo_table _ _ Hlo) as (_ & _ & El). split; [by rewrite El|]. intros b l Hb. destruct (Hc b l Hb) as (p & Hp & Hs). exists p. rewrite El. split; [done|].
  apply (hseg_frame c); [done|]. intros x h _ Hh. destruct (lo_back _ _ Hlo x h Hh) as (h' & Hh' & E). exists h'. split; [done|]. by destruct (strip_links_fields _ _ E) as (_ & _ & ? & _).
Qed.

(** The place behind the first entries [l] of a bucket. *)
Definition slot_at (b : nat) (l : list nat) : slot := match last l with None => Bucket b | Some x => NextOf x end.

Lemma read_slot_at c chains b l k : buckets_ok c chains → chains !! b = Some (l ++ k) → read_slot (slot_at b l) c = Ok (head k).
Proof.
  intros [_ Hc] Hb. destruct (Hc b _ Hb) as (p & Hp & Hs). unfold slot_at. destruct l as [|x l _] using rev_ind.
  - cbn in *. rewrite Hp. apply hseg_head in Hs as ->. done.
  - rewrite last_snoc. cbn [read_slot]. rewrite <- app_assoc in Hs. apply hseg_app in Hs as (r & _ & _ & h & Hh & Hk). rewrite (handle_at_live c x h Hh). cbn.
    by apply hseg_head in Hk as ->.
Qed.

(** Which entries [FindPointer] stops at. *)
Definition matches c (k : list byte) (hsh : Z) (i : nat) : Prop := ∃ h, live_handle c i h ∧ hash h = hsh ∧ key_data h = k.

Lemma slot_loop_spec c chains b k hsh : no_self c → buckets_ok c chains → ∀ l2 l1 fuel, chains !! b = Some (l1 ++ l2) → (length l2 < fuel)%nat →
  (∀ i, i ∈ l1 → ¬ matches c k hsh i) →
  ∃ m1 m2, l1 ++ l2 = m1 ++ m2 ∧ find_loop fuel k hsh (slot_at b l1) c = Ok (slot_at b m1) ∧
    (∀ i, i ∈ m1 → ¬ matches c k hsh i) ∧ match m2 with [] => True | i :: _ => matches c k hsh i end.
Proof.
  intros Hs Hb. induction l2 as [|i l2 IH]; intros l1 fuel Hl Hf Hno; (destruct fuel as [|fuel]; [cbn in Hf; lia|]); cbn [find_loop];
    rewrite (read_slot_at c chains b _ _ Hb Hl); cbn [mbind outcome_bind head].
  { by exists l1, []. }
  destruct (proj2 Hb b _ Hl) as (p & _ & Hseg). destruct (hseg_live _ _ _ _ i Hseg ltac:(apply elem_of_app; right; by left)) as [h Hh].
  rewrite (handle_at_live c i h Hh). cbn [mbind outcome_bind]. rewrite (key_live c i h Hs Hh). cbn [mbind outcome_bind].
  assert (¬ matches c k hsh i → ∃ m1 m2, l1 ++ i :: l2 = m1 ++ m2 ∧ find_loop fuel k hsh (NextOf i) c = Ok (slot_at b m1) ∧
    (∀ i, i ∈ m1 → ¬ matches c k hsh i) ∧ match m2 with [] => True | i :: _ => matches c k hsh i end) as Hnext.
  { intros Hi. destruct (IH (l1 ++ [i]) fuel) as (m1 & m2 & E & Ef & H); [by rewrite <- app_assoc | cbn in Hf; lia | |].
    { intros j [Hj| ->%list_elem_of_singleton]%elem_of_app; [by apply Hno | done]. }
    exists m1, m2. rewrite <- E, <- app_assoc. split; [done|]. split; [|done]. rewrite <- Ef. unfold slot_at. by rewrite last_snoc. }
  destruct (Z.eqb_spec (hash h) hsh) as [Eh|Hne]; cbn [negb].
  - destruct (slice_eq k (key_data h)) eqn:Ek; cbn [negb].
    + apply slice_eq_spec in Ek. exists l1, (i :: l2). split; [done|]. split; [done|]. split; [done|]. by exists h.
    + apply Hnext. intros (h' & Hh' & _ & Hk). unfold live_handle in *. rewrite Hh in Hh'. injection Hh' as <-. apply not_true_iff_false in Ek. apply Ek. by apply slice_eq_spec.
  - apply Hnext. intros (h' & Hh' & Hk & _). unfold live_handle in *. rewrite Hh in Hh'. by injection Hh' as <-.
Qed.

(** Something else is put at that place. *)
Lemma write_slot_at c chains b l k p m : buckets_ok c chains → chains !! b = Some (l ++ k) → NoDup (l ++ m) → hseg c p m None →
  (∀ i, i ∈ m → ∀ b' l', b' ≠ b → chains !! b' = Some l' → i ∉ l') → (∀ b' l' i, b' ≠ b → chains !! b' = Some l' → i ∈ l' → i ∉ l) →
  ∃ c', write_slot (slot_at b l) p c = Ok c' ∧ hash_only c c' ∧ length_ c' = length_ c ∧ elems_ c' = elems_ c ∧ buckets_ok c' (<[b := l ++ m]> chains).
Proof.
  intros [Hlen Hc] Hb Hndm Hm Hmo Hlo. pose proof (lookup_lt_Some _ _ _ Hb) as Hlt. destruct (Hc b _ Hb) as (p0 & Hp0 & Hs). unfold slot_at. destruct l as [|x l _] using rev_ind.
  - cbn [last write_slot]. rewrite bool_decide_true by lia. eexists. split; [reflexivity|]. split; [apply hash_only_table|]. split; [done|]. split; [done|].
    split; [cbn; by rewrite !length_insert|]. intros b' l' Hb'. cbn [list_ set_table]. destruct (decide (b' = b)) as [->|Hne].
    + rewrite list_lookup_insert_eq in Hb' by done. injection Hb' as <-. exists p. rewrite list_lookup_insert_eq by lia. split; [done|]. apply (hseg_frame c); [done|]. intros y hy _ Hy. by exists hy.
    + rewrite list_lookup_insert_ne in Hb' by done. destruct (Hc b' l' Hb') as (p' & Hp' & Hs'). exists p'. rewrite list_lookup_insert_ne by done. split; [done|].
      apply (hseg_frame c); [done|]. intros y hy _ Hy. by exists hy.
  - rewrite last_snoc. cbn [write_slot]. rewrite <- app_assoc in Hs. apply hseg_app in Hs as (r & Hr & Er & h & Hh & _). rewrite (update_live c x h _ Hh).
    eexists. split; [reflexivity|]. split; [by apply (hash_only_set c x h)|]. split; [done|]. split; [done|]. set (c' := set_handles _ c).
    assert (∀ y hy, y ≠ x → live_handle c y hy → ∃ h', live_handle c' y h' ∧ next_hash h' = next_hash hy) as Hother.
    { intros y hy Hy Hl. exists hy. split; [|done]. apply live_set; [by eapply live_lt|]. by rewrite decide_False. }
    split; [cbn; by rewrite !length_insert|]. intros b' l' Hb'. cbn [list_ set_handles c']. destruct (decide (b' = b)) as [->|Hne].
    + rewrite list_lookup_insert_eq in Hb' by done. injection Hb' as <-. exists p0. split; [done|]. rewrite <- app_assoc in *. apply NoDup_app in Hndm as (Hndl & Hlx & Hndx). apply NoDup_cons in Hndx as [Hxm _].
      apply hseg_app. exists r. split.
      * apply (hseg_frame c); [done|]. intros y hy Hy. apply Hother. intros ->. apply (Hlx x Hy). by left.
      * split; [done|]. exists (set_next_hash p h). split; [apply live_set; [by eapply live_lt | by rewrite decide_True]|]. cbn.
        apply (hseg_frame c); [done|]. intros y hy Hy. apply Hother. by intros ->.
    + rewrite list_lookup_insert_ne in Hb' by done. destruct (Hc b' l' Hb') as (p' & Hp' & Hs'). exists p'. split; [done|]. apply (hseg_frame c); [done|].
      intros y hy Hy. apply Hother. intros ->. apply (Hlo b' l' x Hne Hb' Hy). apply elem_of_app. right. by left.
Qed.

(** *** The table *)

Lemma elem_concat (ls : list (list nat)) i : i ∈ concat ls ↔ ∃ b l, ls !! b = Some l ∧ i ∈ l.
Proof.
  rewrite list_elem_of_In, in_concat. split.
  - intros (l & Hl & Hi). apply list_elem_of_In in Hl as Hl'. apply list_elem_of_lookup in Hl' as [b Hb]. exists b, l. split; [done|]. by apply list_elem_of_In.
  - intros (b & l & Hb & Hi). exists l. split; apply list_elem_of_In; [by eapply list_elem_of_lookup_2 | done].
Qed.

(** One bucket and the rest of the table. *)
Lemma concat_bucket (chains : list (list nat)) b l : chains !! b = Some l → ∃ rest, concat chains ≡ₚ l ++ rest ∧
  (∀ l', concat (<[b := l']> chains) ≡ₚ l' ++ rest) ∧ (∀ i, (∃ b' l', b' ≠ b ∧ chains !! b' = Some l' ∧ i ∈ l') → i ∈ rest).
Proof.
  intros Hb. exists (concat (take b chains) ++ concat (drop (S b) chains)). pose proof (lookup_lt_Some _ _ _ Hb) as Hlt. split; [|split].
  - rewrite <- (take_drop_middle chains b l Hb) at 1. rewrite concat_app. cbn. by rewrite !(Permutation_app_comm (concat (take b chains))), <- app_assoc, (Permutation_app_comm (concat (drop _ _))).
  - intros l'. rewrite insert_take_drop by done. rewrite concat_app. cbn. by rewrite !(Permutation_app_comm (concat (take b chains))), <- app_assoc, (Permutation_app_comm (concat (drop _ _))).
  - intros i (b' & l' & Hne & Hb' & Hi). apply elem_of_app. destruct (decide (b' < b)%nat).
    + left. apply elem_concat. exists b', l'. by rewrite lookup_take_lt.
    + right. apply elem_concat. exists (b' - S b)%nat, l'. rewrite lookup_drop. by replace (S b + (b' - S b))%nat with b' by lia.
Qed.

Definition placed c (len : Z) (chains : list (list nat)) : Prop :=
  ∀ b l i, chains !! b = Some l → i ∈ l → ∃ h, live_handle c i h ∧ Z.to_nat (Z.land (hash h) (len - 1)) = b.
Record table_ok c (chains : list (list nat)) : Prop := mkTableOk {
  to_buckets : buckets_ok c chains;
  to_length : length_ c = Z.of_nat (length chains) ∧ 4 ≤ length_ c ≤ 2 ^ 31;
  to_placed : placed c (length_ c) chains;
  to_nodup : NoDup (concat chains);
  to_elems : elems_ c = blen (concat chains) ∧ blen (concat chains) ≤ 2 ^ 31
}.

Lemma land_le_r a b : 0 ≤ b → Z.land a b ≤ b.
Proof.
  intros Hb. pose proof (proj2 (Z.ldiff_nonneg b a) (or_introl Hb)). assert (b = Z.land a b + Z.ldiff b a) as E; [|lia].
  rewrite Z.add_nocarry_lor; apply Z.bits_inj'; intros i _; rewrite ?Z.lor_spec, ?Z.land_spec, ?Z.ldiff_spec, ?Z.bits_0; by destruct (Z.testbit a i), (Z.testbit b i).
Qed.

Lemma bucket_lt c chains hsh : table_ok c chains → 0 ≤ hsh → (bucket_of c hsh < length chains)%nat.
Proof.
  intros Ht Hh. destruct (to_length _ _ Ht) as [El Hl]. unfold bucket_of. pose proof (Z.land_nonneg hsh (length_ c - 1)).
  pose proof (land_le_r hsh (length_ c - 1)). lia.
Qed.

Lemma chains_live c chains i : buckets_ok c chains → i ∈ concat chains → ∃ h, live_handle c i h.
Proof. intros [_ Hc] (b & l & Hb & Hi)%elem_concat. destruct (Hc b l Hb) as (p & _ & Hs). by eapply hseg_live. Qed.

Lemma nodup_length (l : list nat) n : NoDup l → (∀ i, i ∈ l → (i < n)%nat) → (length l ≤ n)%nat.
Proof.
  intros Hnd Hlt. rewrite <- (length_seq n 0). apply submseteq_length, NoDup_submseteq; [done|]. intros i Hi. apply elem_of_seq. specialize (Hlt i Hi). lia.
Qed.

Lemma FindPointer_spec c chains k hsh : no_self c → table_ok c chains → 0 ≤ hsh →
  ∃ m1 m2, chains !! bucket_of c hsh = Some (m1 ++ m2) ∧ FindPointer k hsh c = Ok (slot_at (bucket_of c hsh) m1) ∧
    (∀ i, i ∈ m1 → ¬ matches c k hsh i) ∧ match m2 with [] => ∀ i, i ∈ concat chains → ¬ matches c k hsh i | i :: _ => matches c k hsh i end.
Proof.
  intros Hs Ht Hh. pose proof (bucket_lt c chains hsh Ht Hh) as Hb. destruct (to_length _ _ Ht) as [El Hl].
  destruct (lookup_lt_is_Some_2 chains _ Hb) as [l Hlk]. unfold FindPointer. rewrite u32_small by (unfold is_u32; lia). fold (bucket_of c hsh).
  assert (length l < S (length (handles c)))%nat as Hfuel.
  { assert (length l ≤ length (handles c))%nat; [|lia]. destruct (concat_bucket chains _ l Hlk) as (rest & Hp & _). pose proof (to_nodup _ _ Ht) as Hnd. rewrite Hp in Hnd. apply NoDup_app in Hnd as [Hnd _].
    apply nodup_length; [done|]. intros i Hi. destruct (chains_live c chains i (to_buckets _ _ Ht)) as [h Hlive]; [apply elem_concat; eauto | by eapply live_lt]. }
  destruct (slot_loop_spec c chains (bucket_of c hsh) k hsh Hs (to_buckets _ _ Ht) l [] _ Hlk Hfuel) as (m1 & m2 & E & Ef & Hno & Hm); [intros i Hi; by apply elem_of_nil in Hi|].
  cbn [app] in E. subst l. exists m1, m2. split; [done|]. split; [exact Ef|]. split; [done|]. destruct m2 as [|i m2]; [|done].
  intros i Hi Hmatch. apply elem_concat in Hi as (b & l & Hbl & Hi). destruct (to_placed _ _ Ht b l i Hbl Hi) as (h & Hlive & Eb).
  destruct Hmatch as (h' & Hlive' & Ehash & Ek). unfold live_handle in *. rewrite Hlive in Hlive'. injection Hlive' as <-. rewrite Ehash in Eb. fold (bucket_of c hsh) in Eb. subst b.
  rewrite Hlk in Hbl. injection Hbl as <-. rewrite app_nil_r in Hi. apply (Hno i Hi). exists h. done.
Qed.

Lemma hash_only_matches c c' k hsh i : hash_only c c' → matches c' k hsh i ↔ matches c k hsh i.
Proof.
  intros Hh. split; intros (h & Hlive & E1 & E2).
  - destruct (ho_handles _ _ Hh i h Hlive) as (h0 & H0 & E). destruct (strip_hash_fields _ _ E) as (_ & _ & _ & _ & _ & _ & Eh & Ek). exists h0. split_and!; congruence.
  - destruct (ho_back _ _ Hh i h Hlive) as (h0 & H0 & E). destruct (strip_hash_fields _ _ E) as (_ & _ & _ & _ & _ & _ & Eh & Ek). exists h0. split_and!; congruence.
Qed.

Lemma hash_only_placed c c' len chains : hash_only c c' → placed c len chains → placed c' len chains.
Proof.
  intros Hh Hp b l i Hb Hi. destruct (Hp b l i Hb Hi) as (h & Hlive & E). destruct (ho_back _ _ Hh i h Hlive) as (h' & Hlive' & Es). exists h'. split; [done|].
  destruct (strip_hash_fields _ _ Es) as (_ & _ & _ & _ & _ & _ & -> & _). done.
Qed.

Lemma links_only_table c c' chains : links_only c c' → table_ok c chains → table_ok c' chains.
Proof.
  intros Hlo [Hb Hl Hp Hnd He]. destruct (lo_table _ _ Hlo) as (E1 & E2 & E3). split; rewrite ?E1, ?E2; try done; [by eapply links_only_buckets|].
  intros b l i Hbl Hi. destruct (Hp b l i Hbl Hi) as (h & Hlive & E). destruct (lo_back _ _ Hlo i h Hlive) as (h' & Hlive' & Es). exists h'. split; [done|].
  destruct (strip_links_fields _ _ Es) as (_ & _ & _ & _ & _ & -> & _). done.
Qed.

(** A bucket [l ++ k] becomes [l ++ m]. *)
Lemma write_bucket c chains b l k p m : table_ok c chains → chains !! b = Some (l ++ k) → NoDup (l ++ m) → hseg c p m None →
  (∀ i, i ∈ m → i ∈ k ∨ i ∉ concat chains) → (∀ i, i ∈ m → ∃ h, live_handle c i h ∧ bucket_of c (hash h) = b) →
  ∃ c', write_slot (slot_at b l) p c = Ok c' ∧ hash_only c c' ∧ length_ c' = length_ c ∧ elems_ c' = elems_ c ∧
    buckets_ok c' (<[b := l ++ m]> chains) ∧ placed c' (length_ c') (<[b := l ++ m]> chains) ∧ NoDup (concat (<[b := l ++ m]> chains)) ∧
    (∀ i, i ∈ concat (<[b := l ++ m]> chains) ↔ i ∈ m ∨ (i ∈ concat chains ∧ i ∉ k)) ∧
    (length (concat (<[b := l ++ m]> chains)) + length k = length (concat chains) + length m)%nat.
Proof.
  intros Ht Hb Hnd Hm Hnew Hpl. destruct (concat_bucket chains b _ Hb) as (rest & Hperm & Hperm' & Hrest). pose proof (to_nodup _ _ Ht) as Hnd0. pose proof Hnd0 as Hnd1.
  rewrite Hperm in Hnd1. apply NoDup_app in Hnd1 as (Hndlk & Hdis & Hndr).
  assert (∀ i, i ∈ m → i ∉ rest) as Hmr.
  { intros i Hi Hr. destruct (Hnew i Hi) as [Hk|Hc]; [apply (Hdis i); [apply elem_of_app; by right | done]|]. apply Hc. rewrite Hperm. apply elem_of_app. by right. }
  destruct (write_slot_at c chains b l k p m (to_buckets _ _ Ht) Hb Hnd Hm) as (c' & E & Hh & El & Ee & Hbk).
  { intros i Hi b' l' Hne Hb' Hi'. apply (Hmr i Hi), Hrest. by exists b', l'. }
  { intros b' l' i Hne Hb' Hi Hl. apply (Hdis i); [apply elem_of_app; by left | apply Hrest; by exists b', l']. }
  exists c'. do 4 (split; [done|]). split; [done|]. split; [|split; [|split]].
  - rewrite El. apply (hash_only_placed c); [done|]. intros b' l' i Hb' Hi. pose proof (lookup_lt_Some _ _ _ Hb) as Hlt. destruct (decide (b' = b)) as [->|Hne].
    + rewrite list_lookup_insert_eq in Hb' by done. injection Hb' as <-. apply elem_of_app in Hi as [Hi|Hi]; [|by apply Hpl]. apply (to_placed _ _ Ht b _ i Hb). apply elem_of_app. by left.
    + rewrite list_lookup_insert_ne in Hb' by done. by apply (to_placed _ _ Ht b' l').
  - rewrite Hperm'. apply NoDup_app. split; [done|]. split; [|done]. intros i [Hi|Hi]%elem_of_app; [apply Hdis; apply elem_of_app; by left | by apply Hmr].
  - intros i. rewrite Hperm', Hperm, !elem_of_app. split.
    + intros [[Hl|]|Hr]; [right; split; [by left; left|] | by left | right; split; [by right|]].
      * apply NoDup_app in Hndlk as (_ & Hlk & _). by apply Hlk.
      * intros Hk. apply (Hdis i); [apply elem_of_app; by right | done].
    + intros [|([[|]|] & ?)]; tauto.
  - rewrite Hperm', Hperm, !length_app. lia.
Qed.

(** *** Resize *)

(** Hashes are 32-bit numbers. *)
Definition hashes_ok c : Prop := ∀ i h, live_handle c i h → is_u32 (hash h).
Lemma hash_only_hashes c c' : hash_only c c' → hashes_ok c → hashes_ok c'.
Proof. intros Hh Hok i h' Hi. destruct (ho_handles _ _ Hh i h' Hi) as (h & Hl & E). destruct (strip_hash_fields _ _ E) as (_ & _ & _ & _ & _ & _ & -> & _). by apply (Hok i). Qed.

Lemma grow_spec elems : 0 ≤ elems ≤ 2 ^ 31 → ∃ n, grow 32 4 elems = Ok n ∧ 4 ≤ n ≤ 2 ^ 31.
Proof.
  intros He. assert (∀ j fuel k, 2 + k + j = 31 → 0 ≤ k → 0 ≤ j → j ≤ Z.of_nat fuel → ∃ n, grow fuel (2 ^ (2 + k)) elems = Ok n ∧ 4 ≤ n ≤ 2 ^ 31) as H.
  2: { destruct (H 29 32%nat 0) as (n & E & Hn); [lia..|]. by exists n. }
  intros j fuel. revert j. induction fuel as [|fuel IH]; intros j k Hk Hk0 Hj Hf.
  - assert (2 + k = 31) as -> by lia. cbn [grow]. destruct (Z.ltb_spec (2 ^ 31) elems); [lia|]. exists (2 ^ 31). split; [done | lia].
  - cbn [grow]. assert (4 ≤ 2 ^ (2 + k) ≤ 2 ^ 31) as Hp by (split; [apply (Z.pow_le_mono_r 2 2); lia | apply Z.pow_le_mono_r; lia]).
    destruct (Z.ltb_spec (2 ^ (2 + k)) elems) as [Hlt|]; [|by exists (2 ^ (2 + k))].
    destruct (decide (j = 0)) as [->|Hj0]; [assert (2 + k = 31) as Ek by lia; rewrite Ek in Hlt; lia|].
    assert (2 ^ (2 + k) * 2 = 2 ^ (2 + (k + 1))) as E by (replace (2 + (k + 1)) with (Z.succ (2 + k)) by lia; rewrite Z.pow_succ_r by lia; lia).
    assert (2 ^ (2 + (k + 1)) ≤ 2 ^ 31) by (apply Z.pow_le_mono_r; lia).
    rewrite u32_small by (unfold is_u32; lia). rewrite E. apply (IH (j - 1)); lia.
Qed.

Lemma chains_in_frame c c' nl nch : chains_in c nl nch → (∀ x h, x ∈ concat nch → live_handle c x h → ∃ h', live_handle c' x h' ∧ next_hash h' = next_hash h) → chains_in c' nl nch.
Proof.
  intros [Hl Hc] Hf. split; [done|]. intros b l Hb. destruct (Hc b l Hb) as (p & Hp & Hs). exists p. split; [done|]. apply (hseg_frame c); [done|].
  intros x h Hx. apply Hf. apply elem_concat. by exists b, l.
Qed.

Lemma move_chain_spec len : 4 ≤ len ≤ 2 ^ 31 → ∀ l fuel p nl count c nch, (length l ≤ fuel)%nat → hseg c p l None → chains_in c nl nch → Z.of_nat (length nch) = len →
  placed c len nch → NoDup (l ++ concat nch) → hashes_ok c → 0 ≤ count → count + blen l < 2 ^ 32 →
  ∃ nl' c' nch', move_chain fuel p len (nl, count, c) = Ok (nl', count + blen l, c') ∧ hash_only c c' ∧ chains_in c' nl' nch' ∧ Z.of_nat (length nch') = len ∧
    placed c' len nch' ∧ concat nch' ≡ₚ l ++ concat nch ∧ (∀ x h, x ∉ l → x ∉ concat nch → live_handle c x h → live_handle c' x h) ∧
    length_ c' = length_ c ∧ elems_ c' = elems_ c ∧ list_ c' = list_ c.
Proof.
  intros Hlen. induction l as [|x l IH]; intros fuel p nl count c nch Hf Hs Hch Hnlen Hpl Hnd Hok Hc0 Hc.
  { cbn in Hs. subst p. exists nl, c, nch. split; [unfold blen; destruct fuel; cbn; by rewrite Z.add_0_r|]. split; [apply hash_only_refl|]. done. }
  destruct Hs as (-> & h & Hh & Hs). destruct fuel as [|fuel]; [cbn in Hf; lia|]. cbn [move_chain]. rewrite (handle_at_live c x h Hh). cbn [mbind outcome_bind].
  rewrite u32_small by (unfold is_u32; lia). set (b := Z.to_nat (Z.land (hash h) (len - 1))). destruct (Hok x h Hh) as [Hh0 _].
  assert (b < length nch)%nat as Hb. { unfold b. pose proof (land_le_r (hash h) (len - 1)). pose proof (Z.land_nonneg (hash h) (len - 1)). lia. }
  destruct (lookup_lt_is_Some_2 nch b Hb) as [lb Hlb]. destruct (proj2 Hch b lb Hlb) as (front & Hfront & Hsb). rewrite Hfront, (update_live c x h _ Hh). cbn [mbind outcome_bind].
  set (c1 := set_handles _ c). cbn in Hnd. apply NoDup_cons in Hnd as [Hx Hnd]. apply not_elem_of_app in Hx as [Hxl Hxn].
  assert (hash_only c c1) as Hho by (by apply (hash_only_set c x h)).
  assert (∀ y hy, y ≠ x → live_handle c y hy → live_handle c1 y hy) as Hother.
  { intros y hy Hy Hl. apply live_set; [by eapply live_lt|]. by rewrite decide_False. }
  assert (live_handle c1 x (set_next_hash front h)) as Hx1 by (apply live_set; [by eapply live_lt | by rewrite decide_True]).
  destruct (concat_bucket nch b lb Hlb) as (rest & Hp1 & Hp2 & Hrest). pose proof (Hp2 (x :: lb)) as Hp3.
  assert (concat (<[b:=x :: lb]> nch) ≡ₚ x :: concat nch) as Hperm by (rewrite Hp3, Hp1; done).
  rewrite (u32_small (count + 1)) by (unfold is_u32; rewrite blen_cons in Hc; pose proof (blen_nonneg l); lia).
  destruct (IH fuel (next_hash h) (<[b:=Some x]> nl) (count + 1) c1 (<[b:=x :: lb]> nch)) as (nl' & c' & nch' & E & Hho' & Hch' & Hl' & Hpl' & Hperm' & Hfr & Et).
  - cbn in Hf. lia.
  - apply (hseg_frame c); [done|]. intros y hy Hy Hl. exists hy. split; [|done]. apply Hother; [by intros ->|done].
  - split; [rewrite !length_insert; apply Hch|]. intros b' l' Hb'. destruct (decide (b' = b)) as [->|Hne].
    + rewrite list_lookup_insert_eq in Hb' by done. injection Hb' as <-. exists (Some x). rewrite list_lookup_insert_eq by (rewrite (proj1 Hch); done). split; [done|]. split; [done|].
      exists (set_next_hash front h). split; [done|]. cbn. apply (hseg_frame c); [done|]. intros y hy Hy Hl. exists hy. split; [|done]. apply Hother; [|done]. intros ->. apply Hxn, elem_concat. by exists b, lb.
    + rewrite list_lookup_insert_ne in Hb' by done. destruct (proj2 Hch b' l' Hb') as (p' & Hp' & Hs'). exists p'. rewrite list_lookup_insert_ne by done. split; [done|].
      apply (hseg_frame c); [done|]. intros y hy Hy Hl. exists hy. split; [|done]. apply Hother; [|done]. intros ->. apply Hxn, elem_concat. by exists b', l'.
  - by rewrite length_insert.
  - apply (hash_only_placed c); [done|]. intros b' l' i Hb' Hi. destruct (decide (b' = b)) as [->|Hne].
    + rewrite list_lookup_insert_eq in Hb' by done. injection Hb' as <-. apply elem_of_cons in Hi as [->|Hi]; [by exists h | by apply (Hpl b lb)].
    + rewrite list_lookup_insert_ne in Hb' by done. by apply (Hpl b' l').
  - rewrite Hperm. rewrite Permutation_app_comm. cbn. apply NoDup_cons. rewrite Permutation_app_comm. split; [by apply not_elem_of_app|done].
  - by apply (hash_only_hashes c).
  - lia.
  - rewrite blen_cons in Hc. lia.
  - exists nl', c', nch'. rewrite blen_cons. replace (count + (1 + blen l)) with (count + 1 + blen l) by lia. split; [exact E|]. split; [by eapply hash_only_trans|]. split; [done|]. split; [done|]. split; [done|].
    split; [rewrite Hperm', Hperm; by rewrite <- Permutation_middle|]. split; [|done]. intros y hy Hy Hyn Hl. apply not_elem_of_cons in Hy as [Hyx Hyl]. apply Hfr; [done| |by apply Hother].
    rewrite Hperm. by apply not_elem_of_cons.
Qed.

Lemma resize_loop c chains len : 4 ≤ len ≤ 2 ^ 31 → NoDup (concat chains) → blen (concat chains) < 2 ^ 32 → (∀ i, i ∈ concat chains → (i < length (handles c))%nat) →
  ∀ n b nl count c1 nch, (b + n = length chains)%nat → chains_in c1 nl nch → Z.of_nat (length nch) = len → placed c1 len nch → hashes_ok c1 →
  concat nch ≡ₚ concat (take b chains) → count = blen (concat nch) →
  (∀ b' l, (b ≤ b')%nat → chains !! b' = Some l → ∃ p, list_ c !! b' = Some p ∧ hseg c1 p l None) →
  ∃ nl' c' nch', for_loop (λ b st, match list_ c !! b with
      | Some p => move_chain (S (length (handles c))) p len st
      | None => Ub OutOfBounds end) (seq b n) (nl, count, c1) = Ok (nl', blen (concat chains), c') ∧
    hash_only c1 c' ∧ chains_in c' nl' nch' ∧ Z.of_nat (length nch') = len ∧ placed c' len nch' ∧ concat nch' ≡ₚ concat chains ∧ length_ c' = length_ c1 ∧ elems_ c' = elems_ c1.
Proof.
  intros Hlen Hnd Hcount Hlt. induction n as [|n IH]; intros b nl count c1 nch Hbn Hch Hnl Hpl Hok Hperm -> Hold.
  { cbn. exists nl, c1, nch. rewrite take_ge in Hperm by lia. unfold blen. rewrite (Permutation_length Hperm). split; [done|]. split; [apply hash_only_refl | done]. }
  cbn [seq for_loop]. destruct (lookup_lt_is_Some_2 chains b ltac:(lia)) as [l Hl]. destruct (Hold b l ltac:(lia) Hl) as (p & Hp & Hs). rewrite Hp.
  assert (concat (take (S b) chains) = concat (take b chains) ++ l) as ES by (rewrite (take_S_r _ _ _ Hl), concat_app; cbn; by rewrite app_nil_r).
  assert (NoDup (concat (take (S b) chains)) ∧ blen (concat (take (S b) chains)) ≤ blen (concat chains)) as [HndS HcS].
  { rewrite <- (take_drop (S b) chains), concat_app in Hnd |- *. apply NoDup_app in Hnd as [Hnd' _]. rewrite take_app_length' by (rewrite length_take; lia).
    rewrite blen_app. pose proof (blen_nonneg (concat (drop (S b) chains))). split; [done | lia]. }
  assert (length l ≤ S (length (handles c)))%nat as Hfuel.
  { assert (length l ≤ length (handles c))%nat; [|lia]. rewrite ES in HndS. apply NoDup_app in HndS as (_ & _ & Hndl). apply nodup_length; [done|]. intros i Hi. apply Hlt, elem_concat. by exists b, l. }
  assert (NoDup (l ++ concat nch)) as Hndl by (rewrite Hperm, Permutation_app_comm, <- ES; done).
  rewrite ES, blen_app in HcS. assert (blen (concat nch) = blen (concat (take b chains))) as Elen by (unfold blen; by rewrite (Permutation_length Hperm)).
  destruct (move_chain_spec len Hlen l _ p nl (blen (concat nch)) c1 nch Hfuel Hs Hch Hnl Hpl Hndl Hok) as (nl1 & c2 & nch1 & -> & Hho & Hch1 & Hnl1 & Hpl1 & Hperm1 & Hfr & Et1 & Et2 & Et3);
    [apply blen_nonneg | lia|]. cbn [mbind outcome_bind].
  destruct (IH (S b) nl1 (blen (concat nch) + blen l) c2 nch1) as (nl' & c' & nch' & E & Hho' & Hch' & Hnl' & Hpl' & Hperm' & Et1' & Et2'); try done.
  - lia.
  - by apply (hash_only_hashes c1).
  - by rewrite Hperm1, Hperm, ES, Permutation_app_comm.
  - unfold blen. rewrite (Permutation_length Hperm1), length_app. lia.
  - intros b' l' Hb' Hl'. destruct (Hold b' l' ltac:(lia) Hl') as (p' & Hp' & Hs'). exists p'. split; [done|]. apply (hseg_frame c1); [done|]. intros x h Hx Hh. exists h. split; [|done].
    destruct (concat_bucket chains b' l' Hl') as (rest & Hq & _ & Hrest). rewrite Hq in Hnd. apply NoDup_app in Hnd as (_ & Hdis & _). apply Hfr; [| |done].
    + intros Hxl. apply (Hdis x Hx), Hrest. exists b, l. split; [lia | done].
    + rewrite Hperm. intros (b2 & l2 & H2 & Hx2)%elem_concat. apply lookup_take_Some in H2 as [H2 Hb2]. apply (Hdis x Hx), Hrest. exists b2, l2. split; [lia | done].
  - exists nl', c', nch'. split; [exact E|]. split; [by eapply hash_only_trans|]. split_and!; try done; congruence.
Qed.

Lemma Resize_spec c chains : buckets_ok c chains → length_ c = Z.of_nat (length chains) → NoDup (concat chains) → elems_ c = blen (concat chains) → elems_ c ≤ 2 ^ 31 → hashes_ok c →
  ∃ c' chains', Resize c = Ok c' ∧ hash_only c c' ∧ table_ok c' chains' ∧ concat chains' ≡ₚ concat chains.
Proof.
  intros Hb Hl Hnd He Hmax Hok. destruct (grow_spec (elems_ c)) as (len & Eg & Hlen); [pose proof (blen_nonneg (concat chains)); lia|]. unfold Resize. rewrite Eg. cbn [mbind outcome_bind].
  rewrite Hl, Nat2Z.id. assert (∀ n, concat (replicate n (@nil nat)) = []) as Hnil by (intros n; induction n; done).
  destruct (resize_loop c chains len Hlen Hnd ltac:(lia)) with (n := length chains) (b := 0%nat) (nl := replicate (Z.to_nat len) (@None nat)) (count := 0) (c1 := c)
    (nch := replicate (Z.to_nat len) (@nil nat)) as (nl' & c' & nch' & -> & Hho & Hch & Hnl & Hpl & Hperm & Et1 & Et2).
  - intros i Hi. destruct (chains_live c chains i Hb Hi) as [h Hh]. by eapply live_lt.
  - lia.
  - split; [by rewrite !length_replicate|]. intros b l Hbl. apply lookup_replicate in Hbl as [-> Hb2]. exists None. split; [by apply lookup_replicate | done].
  - rewrite length_replicate. lia.
  - intros b l i Hbl Hi. apply lookup_replicate in Hbl as [-> _]. by apply elem_of_nil in Hi.
  - done.
  - by rewrite Hnil.
  - by rewrite Hnil.
  - intros b' l' _ Hl'. by apply Hb.
  - cbn [mbind outcome_bind]. rewrite Et2, He, Z.eqb_refl. cbn [negb]. eexists _, nch'. split; [reflexivity|]. split; [eapply hash_only_trans; [done | apply hash_only_table]|]. split; [|done].
    split; cbn; try done; [apply (chains_in_frame c'); [done|]; intros x h _ Hx; by exists h | by rewrite Hperm | unfold blen in *; rewrite (Permutation_length Hperm); lia].
Qed.

(** *** Operations of the table *)

Definition found c (chains : list (list nat)) (k : list byte) (hsh : Z) (r : option nat) : Prop :=
  match r with Some i => i ∈ concat chains ∧ matches c k hsh i | None => ∀ i, i ∈ concat chains → ¬ matches c k hsh i end.

Lemma find_slot c chains k hsh : no_self c → table_ok c chains → 0 ≤ hsh →
  ∃ m1 m2, chains !! bucket_of c hsh = Some (m1 ++ m2) ∧ FindPointer k hsh c = Ok (slot_at (bucket_of c hsh) m1) ∧
    read_slot (slot_at (bucket_of c hsh) m1) c = Ok (head m2) ∧ found c chains k hsh (head m2).
Proof.
  intros Hs Ht Hh. destruct (FindPointer_spec c chains k hsh Hs Ht Hh) as (m1 & m2 & Hb & E & _ & Hm). exists m1, m2. split; [done|]. split; [done|].
  split; [apply (read_slot_at c chains _ _ _ (to_buckets _ _ Ht) Hb)|]. destruct m2 as [|i m2]; [done|]. split; [|done]. apply elem_concat. eexists _, _. split; [done|]. apply elem_of_app. right. by left.
Qed.

Lemma table_Lookup_spec c chains k hsh : no_self c → table_ok c chains → 0 ≤ hsh → ∃ r, table_Lookup k hsh c = Ok r ∧ found c chains k hsh r.
Proof.
  intros Hs Ht Hh. destruct (find_slot c chains k hsh Hs Ht Hh) as (m1 & m2 & _ & E & Er & Hf). unfold table_Lookup. rewrite E. cbn [mbind outcome_bind]. rewrite Er. by eexists.
Qed.

Lemma table_Remove_spec c chains k hsh : no_self c → table_ok c chains → 0 ≤ hsh →
  ∃ r c' chains', table_Remove k hsh c = Ok (r, c') ∧ hash_only c c' ∧ table_ok c' chains' ∧ found c chains k hsh r ∧
    ∀ i, i ∈ concat chains' ↔ i ∈ concat chains ∧ r ≠ Some i.
Proof.
  intros Hs Ht Hh. destruct (find_slot c chains k hsh Hs Ht Hh) as (m1 & m2 & Hb & E & Er & Hf). unfold table_Remove. rewrite E. cbn [mbind outcome_bind]. rewrite Er. cbn [mbind outcome_bind].
  destruct m2 as [|x m2]; cbn [head] in *.
  { exists None, c, chains. split; [done|]. split; [apply hash_only_refl|]. split; [done|]. split; [done|]. intros i. split; [done | by intros [? _]]. }
  destruct (proj2 (to_buckets _ _ Ht) _ _ Hb) as (p & _ & Hseg). apply hseg_app in Hseg as (q & _ & -> & h & Hlive & Hm2). rewrite (handle_at_live c x h Hlive). cbn [mbind outcome_bind].
  destruct (concat_bucket chains _ _ Hb) as (rest & Hperm & _ & _). pose proof (to_nodup _ _ Ht) as Hnd. rewrite Hperm in Hnd. apply NoDup_app in Hnd as (Hnd & _ & _).
  apply NoDup_app in Hnd as (Hnd1 & Hdis & Hnd2). apply NoDup_cons in Hnd2 as [Hx Hnd2].
  destruct (write_bucket c chains _ m1 (x :: m2) (next_hash h) m2 Ht Hb) as (c' & -> & Hho & El & Ee & Hbk & Hpl & Hnd' & Hset & Hcount).
  { apply NoDup_app. split; [done|]. split; [|done]. intros i Hi Hi2. apply (Hdis i Hi). by right. }
  { done. }
  { intros i Hi. left. by right. }
  { intros i Hi. apply (to_placed _ _ Ht _ _ i Hb). apply elem_of_app. right. by right. }
  cbn [mbind outcome_bind]. destruct (to_length _ _ Ht) as [Hl1 Hl2]. destruct (to_elems _ _ Ht) as [He Hmax]. cbn [length] in Hcount.
  eexists (Some x), _, _. split; [reflexivity|]. split; [eapply hash_only_trans; [done | apply hash_only_table]|]. split; [|split; [done|]].
  - assert (elems_ c' - 1 = blen (concat (<[bucket_of c hsh:=m1 ++ m2]> chains))) as E1 by (rewrite Ee, He; unfold blen; lia).
    split; cbn; try done; [|split; [by rewrite El, length_insert | by rewrite El] | ].
    + apply (chains_in_frame c'); [done|]. intros y hy _ Hy. by exists hy.
    + rewrite E1. rewrite u32_small; unfold is_u32; pose proof (blen_nonneg (concat (<[bucket_of c hsh:=m1 ++ m2]> chains))); unfold blen in *; lia.
  - intros i. rewrite Hset. split.
    + intros [Hi|[Hi Hn]]; [|split; [done|]; intros [= ->]; apply Hn; by left]. split; [|by intros [= ->]]. apply elem_concat. eexists _, _. split; [done|]. apply elem_of_app. right. by right.
    + intros [Hi Hn]. destruct (decide (i ∈ m2)); [by left | right]. split; [done|]. intros [->|]%elem_of_cons; done.
Qed.

Lemma table_Insert_spec c chains e h : no_self c → table_ok c chains → hashes_ok c → live_handle c e h → e ∉ concat chains → blen (concat chains) < 2 ^ 31 →
  ∃ r c' chains', table_Insert e c = Ok (r, c') ∧ hash_only c c' ∧ table_ok c' chains' ∧ found c chains (key_data h) (hash h) r ∧
    ∀ i, i ∈ concat chains' ↔ i = e ∨ (i ∈ concat chains ∧ r ≠ Some i).
Proof.
  intros Hs Ht Hok Hlive He Hmax. destruct (Hok e h Hlive) as [Hh0 _]. unfold table_Insert. rewrite (handle_at_live c e h Hlive). cbn [mbind outcome_bind].
  rewrite (key_live c e h Hs Hlive). cbn [mbind outcome_bind]. destruct (find_slot c chains (key_data h) (hash h) Hs Ht Hh0) as (m1 & m2 & Hb & E & Er & Hf).
  rewrite E. cbn [mbind outcome_bind]. rewrite Er. cbn [mbind outcome_bind]. set (b := bucket_of c (hash h)) in *.
  destruct (proj2 (to_buckets _ _ Ht) _ _ Hb) as (p & _ & Hseg). apply hseg_app in Hseg as (q & _ & Hm2).
  assert (∃ after, (match head m2 with Some o => ho ← handle_at o c; Ok (next_hash ho) | None => Ok None end) = Ok after ∧ hseg c after (tail m2) None) as (after & -> & Hafter).
  { destruct m2 as [|o m2]; cbn [head tail]; [by exists None|]. destruct Hm2 as (-> & ho & Hlo & Hm2). rewrite (handle_at_live c o ho Hlo). by exists (next_hash ho). }
  cbn [mbind outcome_bind]. rewrite (update_live c e h _ Hlive). cbn [mbind outcome_bind]. set (c1 := set_handles _ c).
  assert (hash_only c c1) as Hho1 by (by apply (hash_only_set c e h)).
  assert (∀ y hy, y ≠ e → live_handle c y hy → live_handle c1 y hy) as Hother by (intros y hy Hy Hl; apply live_set; [by eapply live_lt | by rewrite decide_False]).
  assert (live_handle c1 e (set_next_hash after h)) as He1 by (apply live_set; [by eapply live_lt | by rewrite decide_True]).
  assert (table_ok c1 chains) as Ht1.
  { destruct Ht as [H1 H2 H3 H4 H5]. split; try done; [|by eapply hash_only_placed]. apply (chains_in_frame c); [done|]. intros x hx Hx Hlx. exists hx. split; [|done]. apply Hother; [by intros ->|done]. }
  assert (∀ i, i ∈ m1 ++ m2 → i ∈ concat chains) as Hin by (intros i Hi; apply elem_concat; by exists b, (m1 ++ m2)).
  destruct (concat_bucket chains _ _ Hb) as (rest & Hperm & _ & _). pose proof (to_nodup _ _ Ht) as Hnd. rewrite Hperm in Hnd. apply NoDup_app in Hnd as (Hnd & _ & _).
  apply NoDup_app in Hnd as (Hnd1 & Hdis & Hnd2).
  assert (NoDup (tail m2) ∧ (∀ i, i ∈ tail m2 ↔ i ∈ m2 ∧ head m2 ≠ Some i)) as [Hnd3 Htail].
  { destruct m2 as [|o m2]; cbn; [split; [constructor|]; intros i; split; [by intros ?%elem_of_nil | by intros [?%elem_of_nil _]]|]. apply NoDup_cons in Hnd2 as [Ho Hnd2]. split; [done|]. intros i. rewrite elem_of_cons. naive_solver. }
  destruct (write_bucket c1 chains b m1 m2 (Some e) (e :: tail m2) Ht1 Hb) as (c2 & -> & Hho2 & El & Ee & Hbk & Hpl & Hnd' & Hset & Hcount).
  { apply NoDup_app. split; [done|]. split.
    - intros i Hi [->|Hi2]%elem_of_cons; [apply He, Hin, elem_of_app; by left|]. apply Htail in Hi2 as [Hi2 _]. by apply (Hdis i).
    - apply NoDup_cons. split; [|done]. intros Hi. apply Htail in Hi as [Hi _]. apply He, Hin, elem_of_app. by right. }
  { split; [done|]. exists (set_next_hash after h). split; [done|]. cbn. apply (hseg_frame c); [done|]. intros y hy Hy Hl. exists hy. split; [|done]. apply Hother; [|done].
    intros ->. apply Htail in Hy as [Hy _]. apply He, Hin, elem_of_app. by right. }
  { intros i [->|Hi]%elem_of_cons; [by right | left; by apply Htail]. }
  { intros i [->|Hi]%elem_of_cons; [by exists (set_next_hash after h)|]. apply Htail in Hi as [Hi _]. apply (to_placed _ _ Ht1 b _ i Hb). apply elem_of_app. by right. }
  cbn [mbind outcome_bind]. pose proof (hash_only_trans _ _ _ Hho1 Hho2) as Hho. destruct (to_length _ _ Ht) as [Hl1 Hl2]. destruct (to_elems _ _ Ht) as [Hel _].
  change (length_ c1) with (length_ c) in El. change (elems_ c1) with (elems_ c) in Ee. set (ch2 := <[b:=m1 ++ e :: tail m2]> chains) in *.
  assert (∀ i, i ∈ concat ch2 ↔ i = e ∨ (i ∈ concat chains ∧ head m2 ≠ Some i)) as Hset2.
  { intros i. rewrite Hset, elem_of_cons, Htail. split.
    - intros [[->|[Hi Hn]]|[Hi Hn]]; [by left | right; split; [apply Hin, elem_of_app; by right | done] | right; split; [done|]]. intros Eh. apply Hn. destruct m2; [done|]. injection Eh as ->. by left.
    - intros [->|[Hi Hn]]; [by left; left|]. destruct (decide (i ∈ m2)); [by left; right | by right]. }
  destruct m2 as [|o m2]; cbn [head tail length] in *.
  - set (c3 := set_table (length_ c2) (u32 (elems_ c2 + 1)) (list_ c2) c2).
    assert (elems_ c3 = blen (concat ch2)) as E3. { cbn. rewrite Ee, Hel, u32_small; unfold is_u32, blen in *; lia. }
    assert (buckets_ok c3 ch2) as Hb3 by (apply (chains_in_frame c2); [done|]; intros y hy _ Hy; by exists hy).
    assert (blen (concat ch2) ≤ 2 ^ 31) as Hmax2 by (unfold blen in *; lia).
    assert (length_ c3 = Z.of_nat (length ch2)) as El3 by (cbn; unfold ch2; by rewrite El, length_insert).
    assert (hash_only c c3) as Hho3 by (eapply hash_only_trans; [done | apply hash_only_table]).
    destruct (length_ c3 <? elems_ c3).
    + destruct (Resize_spec c3 ch2 Hb3 El3 Hnd' E3) as (c4 & ch4 & -> & Hho4 & Ht4 & Hperm4); [lia | by eapply hash_only_hashes|]. cbn [mbind outcome_bind].
      exists None, c4, ch4. split; [done|]. split; [by eapply hash_only_trans|]. split; [done|]. split; [done|]. intros i. by rewrite Hperm4.
    + cbn [mbind outcome_bind]. exists None, c3, ch2. split; [done|]. split; [done|]. split; [|done]. split; try done. split; [exact El3 | cbn; rewrite El; lia].
  - cbn [mbind outcome_bind]. exists (Some o), c2, ch2. split; [done|]. split; [done|]. split; [|done]. split; try done.
    + unfold ch2. by rewrite El, length_insert.
    + rewrite Ee, Hel. unfold blen in *. lia.
Qed.

(** *** References *)

Context (hf : list byte → Z) (Hhf : ∀ k, is_u32 (hf k)).
Implicit Types (s : spec V D) (rc : nat → Z).

Definition count (i : nat) (l : list nat) : Z := blen (filter (λ j, j = i) l).
Definition ref_count s (i : nat) : Z := (if decide (i ∈ s_cached s) then 1 else 0) + count i (s_pins s).

Lemma count_cons i j l : count i (j :: l) = (if decide (j = i) then 1 else 0) + count i l.
Proof. unfold count. rewrite filter_cons. case_decide; [by rewrite blen_cons | done]. Qed.
Lemma count_nonneg i l : 0 ≤ count i l ≤ blen l.
Proof. induction l as [|j l IH]; [done|]. rewrite count_cons, blen_cons. case_decide; lia. Qed.
Lemma count_pos i l : 0 < count i l ↔ i ∈ l.
Proof.
  induction l as [|j l IH]; [split; [done | by intros ?%elem_of_nil]|]. rewrite count_cons, elem_of_cons. pose proof (count_nonneg i l). case_decide as E; [split; [by left|]; lia|].
  rewrite Z.add_0_l, IH. naive_solver.
Qed.
Lemma count_remove i j l : j ∈ l → count i (remove_one j l) = count i l - (if decide (j = i) then 1 else 0).
Proof.
  induction l as [|x l IH]; [by intros ?%elem_of_nil|]. intros Hj. cbn [remove_one]. destruct (decide (x = j)) as [->|Hne]; [rewrite count_cons; lia|].
  rewrite !count_cons, IH by (apply elem_of_cons in Hj as [->|]; done). lia.
Qed.
Lemma ref_count_live s i : 0 < ref_count s i ↔ s_live s i.
Proof. unfold ref_count, s_live. rewrite <- (count_pos i (s_pins s)). pose proof (count_nonneg i (s_pins s)). case_decide; [split; [by left | lia] | naive_solver lia]. Qed.

(** The entries of the heap are those that are referred to, with their data and counts. *)
Record core_ok c s rc : Prop := mkCoreOk {
  co_capacity : capacity_ c = s_capacity s;
  co_usage : usage_ c = u64 (s_usage s);
  co_deleted : Forall2 (λ e i, ∃ o, s_objs s !! i = Some o ∧ e = (o_deleter o, o_key o, o_value o)) (deleted c) (s_deleted s);
  co_length : length (handles c) = length (s_objs s);
  co_live i : 0 < rc i → ∃ h o, live_handle c i h ∧ s_objs s !! i = Some o ∧ value h = o_value o ∧ deleter h = o_deleter o ∧ charge h = o_charge o ∧
    key_data h = o_key o ∧ hash h = hf (o_key o) ∧ refs h = rc i;
  co_dead i h : live_handle c i h → 0 < rc i
}.

Lemma core_links c c' s rc : links_only c c' → core_ok c s rc → core_ok c' s rc.
Proof.
  intros Hlo [H1 H2 H3 H4 H5 H6]. split; rewrite ?(lo_capacity _ _ Hlo), ?(lo_usage _ _ Hlo), ?(lo_deleted _ _ Hlo), ?(lo_length _ _ Hlo); try done.
  - intros i Hi. destruct (H5 i Hi) as (h & o & Hh & Ho & Hf). destruct (lo_back _ _ Hlo i h Hh) as (h' & Hh' & E). exists h', o. split; [done|]. split; [done|].
    destruct (strip_links_fields _ _ E) as (-> & -> & _ & -> & -> & -> & ->). tauto.
  - intros i h' Hh'. destruct (lo_handles _ _ Hlo i h' Hh') as (h & Hh & _). by eapply H6.
Qed.
Lemma core_hash c c' s rc : hash_only c c' → core_ok c s rc → core_ok c' s rc.
Proof.
  intros Hlo [H1 H2 H3 H4 H5 H6]. split; rewrite ?(ho_capacity _ _ Hlo), ?(ho_usage _ _ Hlo), ?(ho_deleted _ _ Hlo), ?(ho_length _ _ Hlo); try done.
  - intros i Hi. destruct (H5 i Hi) as (h & o & Hh & Ho & Hf). destruct (ho_back _ _ Hlo i h Hh) as (h' & Hh' & E). exists h', o. split; [done|]. split; [done|].
    destruct (strip_hash_fields _ _ E) as (-> & -> & _ & _ & -> & -> & -> & ->). tauto.
  - intros i h' Hh'. destruct (ho_handles _ _ Hlo i h' Hh') as (h & Hh & _). by eapply H6.
Qed.
Lemma core_hashes c s rc : core_ok c s rc → hashes_ok c.
Proof.
  intros Hc i h Hh. destruct (co_live _ _ _ Hc i (co_dead _ _ _ Hc i h Hh)) as (h' & o & Hh' & _ & _ & _ & _ & _ & E & _). unfold live_handle in *. rewrite Hh in Hh'. injection Hh' as <-. rewrite E. apply Hhf.
Qed.
Lemma core_rc c s rc rc' : (∀ i, rc' i = rc i) → core_ok c s rc → core_ok c s rc'.
Proof. intros E [H1 H2 H3 H4 H5 H6]. split; try done; [intros i; rewrite E; apply H5 | intros i h Hh; rewrite E; by eapply H6]. Qed.

Lemma core_with c s rc rc' cached pins : core_ok c s rc → (∀ i, rc' i = rc i) → core_ok c (s_with cached pins s) rc'.
Proof. intros Hc E. apply (core_rc c _ rc); [done|]. destruct Hc as [H1 H2 H3 H4 H5 H6]. by split. Qed.

(** The count of one entry changes, and nothing else. *)
Record refs_only c c' (e : nat) : Prop := mkRefsOnly {
  ro_same : capacity_ c' = capacity_ c ∧ lru_next c' = lru_next c ∧ lru_prev c' = lru_prev c ∧ length_ c' = length_ c ∧ elems_ c' = elems_ c ∧ list_ c' = list_ c;
  ro_length : length (handles c') = length (handles c);
  ro_other i h : i ≠ e → live_handle c' i h ↔ live_handle c i h;
  ro_entry h' : live_handle c' e h' → ∃ h, live_handle c e h ∧ h' = set_refs (refs h') h
}.

Lemma refs_only_lru c c' e order : refs_only c c' e → lru_ok c order → (e ∈ order → ∃ h, live_handle c' e h) → lru_ok c' order.
Proof.
  intros Hr (Hd & Hnd & Hs) He. destruct (ro_same _ _ _ Hr) as (_ & En & Ep & _).
  assert (∀ i h', live_handle c' i h' → nx c' (Some i) = nx c (Some i) ∧ pv c' (Some i) = pv c (Some i)) as Hsame.
  { intros i h' Hh'. destruct (decide (i = e)) as [->|Hne].
    - destruct (ro_entry _ _ _ Hr h' Hh') as (h & Hh & E). destruct (live_nx c' e h' Hh') as [-> ->]. destruct (live_nx c e h Hh) as [-> ->]. by rewrite E.
    - destruct (live_nx c' i h' Hh') as [-> ->]. apply (ro_other _ _ _ Hr) in Hh'; [|done]. by destruct (live_nx c i h' Hh') as [-> ->]. }
  assert (∀ i, i ∈ order → ∃ h, live_handle c' i h) as Hlive.
  { intros i Hi. destruct (decide (i = e)) as [->|Hne]; [by apply He|]. destruct (order_live c order i (conj Hd (conj Hnd Hs)) Hi) as [h Hh]. exists h. by apply (ro_other _ _ _ Hr). }
  split; [|split; [done|]].
  - apply (dseg_frame (nx c) (pv c)); [done|..]; intros q [->|(i & -> & Hi)%list_elem_of_fmap]; cbn [nx pv]; try congruence; destruct (Hlive i Hi) as [h Hh]; apply (Hsame i h Hh).
  - intros i E. destruct (nx_live c' i _ E) as (h & Hh & _). rewrite (proj1 (Hsame i h Hh)) in E. by apply (Hs i).
Qed.

Lemma refs_only_table c c' e chains : refs_only c c' e → table_ok c chains → (e ∈ concat chains → ∃ h, live_handle c' e h) → table_ok c' chains.
Proof.
  intros Hr [H1 H2 H3 H4 H5] He. destruct (ro_same _ _ _ Hr) as (_ & _ & _ & E1 & E2 & E3).
  assert (∀ i h, i ∈ concat chains → live_handle c i h → ∃ h', live_handle c' i h' ∧ next_hash h' = next_hash h ∧ hash h' = hash h) as Hsame.
  { intros i h Hi Hh. destruct (decide (i = e)) as [->|Hne]; [|exists h; by rewrite (ro_other _ _ _ Hr) by done].
    destruct (He Hi) as [h' Hh']. destruct (ro_entry _ _ _ Hr h' Hh') as (h0 & H0 & E). unfold live_handle in H0, Hh. rewrite Hh in H0. injection H0 as <-. exists h'. split; [done|]. by rewrite E. }
  split; rewrite ?E1, ?E2; try done.
  - unfold buckets_ok. rewrite E3. apply (chains_in_frame c); [done|]. intros x h Hx Hh. destruct (Hsame x h Hx Hh) as (h' & ? & ? & _). by exists h'.
  - intros b l i Hb Hi. destruct (H3 b l i Hb Hi) as (h & Hh & E). destruct (Hsame i h) as (h' & Hh' & _ & Eh); [apply elem_concat; by exists b, l | done|]. exists h'. by rewrite Eh.
Qed.

Definition minus_one rc (e i : nat) : Z := rc i - (if decide (i = e) then 1 else 0).

Lemma Unref_spec c s rc e : core_ok c s rc → no_self c → 0 < rc e → (∀ i, 0 ≤ rc i) →
  let s' := if rc e =? 1 then mkSpec (s_capacity s) (s_objs s) (s_cached s) (s_pins s) (s_deleted s ++ [e]) (s_usage s - default 0 (o_charge <$> s_objs s !! e)) else s in
  ∃ c', Unref e c = Ok c' ∧ core_ok c' s' (minus_one rc e) ∧ refs_only c c' e ∧ (rc e ≠ 1 → ∃ h, live_handle c' e h).
Proof.
  intros Hc Hs He Hpos s'. destruct (co_live _ _ _ Hc e He) as (h & o & Hh & Ho & Hv & Hd & Hcg & Hk & Hha & Hr). unfold Unref. rewrite (handle_at_live c e h Hh). cbn [mbind outcome_bind].
  rewrite Hr. rewrite (proj2 (Z.ltb_lt _ _) He). cbn [negb]. rewrite (update_live c e h _ Hh). cbn [mbind outcome_bind]. set (c1 := set_handles _ c).
  pose proof (live_lt c e h Hh) as Hlt. unfold s'. destruct (Z.eqb_spec (rc e) 1) as [E1|E1].
  - rewrite E1. change (1 - 1 <=? 0) with true. cbv iota. rewrite (key_live c e h Hs Hh). cbn [mbind outcome_bind]. eexists. split; [reflexivity|].
    set (c' := set_handles _ _). assert (∀ i h', live_handle c' i h' ↔ i ≠ e ∧ live_handle c i h') as Hl.
    { intros i h'. unfold live_handle, c'. cbn [handles set_handles c1]. rewrite list_insert_insert_eq. destruct (decide (i = e)) as [->|Hne].
      - rewrite list_lookup_insert_eq by done. naive_solver.
      - rewrite list_lookup_insert_ne by done. naive_solver. }
    split; [|split; [|done]].
    + split; cbn; try apply Hc.
      * rewrite (co_usage _ _ _ Hc), Ho. cbn. unfold u64. rewrite <- Hcg. by rewrite Zminus_mod_idemp_l.
      * apply Forall2_app; [apply Hc|]. constructor; [|constructor]. exists o. by rewrite Hd, Hk, Hv.
      * rewrite !length_insert. apply Hc.
      * intros i Hi. unfold minus_one in *. case_decide as Ei; [subst; lia|]. rewrite Z.sub_0_r in *. destruct (co_live _ _ _ Hc i Hi) as (hi & oi & Hhi & Hrest). exists hi, oi. split; [by apply Hl | done].
      * intros i h' [Hne Hh']%Hl. unfold minus_one. rewrite decide_False by done. rewrite Z.sub_0_r. by eapply (co_dead _ _ _ Hc).
    + split; try done; cbn; [by rewrite !length_insert | |].
      * intros i h' Hne. rewrite Hl. naive_solver.
      * intros h' [? _]%Hl. done.
  - destruct (Z.leb_spec (rc e - 1) 0); [lia|]. eexists. split; [reflexivity|]. split; [|split].
    + split; cbn; try apply Hc; [by rewrite length_insert; apply Hc | |].
      * intros i Hi. unfold minus_one in *. case_decide as Ei.
        -- subst i. exists (set_refs (rc e - 1) h), o. split; [apply live_set; [done | by rewrite decide_True]|]. done.
        -- rewrite Z.sub_0_r in *. destruct (co_live _ _ _ Hc i Hi) as (hi & oi & Hhi & Hrest). exists hi, oi. split; [|done]. apply live_set; [done | by rewrite decide_False].
      * intros i h' Hh'. apply live_set in Hh'; [|done]. unfold minus_one. case_decide as Ei; [subst; lia|]. rewrite Z.sub_0_r. by eapply (co_dead _ _ _ Hc).
    + split; try done; [cbn; by rewrite length_insert | |].
      * intros i h' Hne. unfold c1. rewrite live_set by done. by rewrite decide_False.
      * intros h' Hh'. apply live_set in Hh'; [|done]. rewrite decide_True in Hh' by done. subst h'. by exists h.
    + intros _. eexists. apply live_set; [done|]. by rewrite decide_True.
Qed.

(** *** The simulation *)

(** The charge of the entries that are referred to. *)
Definition charge_of s (i : nat) : Z := default 0 (o_charge <$> s_objs s !! i).
Definition total s rc : Z := foldr (λ i acc, (if decide (0 < rc i) then charge_of s i else 0) + acc) 0 (seq 0 (length (s_objs s))).

Lemma foldr_sum (f g : nat → Z) (e n : nat) (d : Z) : ∀ b, (∀ i, i ≠ e → f i = g i) → f e = g e + d →
  foldr (λ i acc, f i + acc) 0 (seq b n) = foldr (λ i acc, g i + acc) 0 (seq b n) + (if decide (b ≤ e < b + n)%nat then d else 0).
Proof.
  intros b Hfg He. revert b. induction n as [|n IH]; intros b; cbn; [rewrite decide_False by lia; lia|]. rewrite IH. destruct (decide (b = e)) as [->|Hne].
  - rewrite He. rewrite decide_False by lia. rewrite decide_True by lia. lia.
  - rewrite (Hfg b) by done. destruct (decide (S b ≤ e < S b + n)%nat); [rewrite decide_True by lia | rewrite decide_False by lia]; lia.
Qed.
Lemma foldr_ext (f g : nat → Z) l : (∀ i, i ∈ l → f i = g i) → foldr (λ i acc, f i + acc) 0 l = foldr (λ i acc, g i + acc) 0 l.
Proof. induction l as [|x l IH]; [done|]. cbn. intros H. rewrite (H x) by (by left). rewrite IH; [done|]. intros i Hi. apply H. by right. Qed.
Lemma foldr_start (f : nat → Z) z l : foldr (λ i acc, f i + acc) z l = foldr (λ i acc, f i + acc) 0 l + z.
Proof. induction l as [|x l IH]; cbn; [done|]. rewrite IH. lia. Qed.
Lemma foldr_nonneg (f : nat → Z) l : (∀ i, 0 ≤ f i) → 0 ≤ foldr (λ i acc, f i + acc) 0 l.
Proof. intros H. induction l as [|x l IH]; [done|]. cbn. specialize (H x). lia. Qed.

Lemma total_ext s s' rc rc' : s_objs s' = s_objs s → (∀ i, 0 < rc' i ↔ 0 < rc i) → total s' rc' = total s rc.
Proof. intros E H. unfold total, charge_of. rewrite E. apply foldr_ext. intros i _. specialize (H i). do 2 case_decide; tauto. Qed.
Lemma total_charge_nonneg s rc : (∀ o, o ∈ s_objs s → 0 ≤ o_charge o) → 0 ≤ total s rc.
Proof.
  intros H. unfold total. apply foldr_nonneg. intros i. case_decide; [|done]. unfold charge_of. destruct (s_objs s !! i) as [o|] eqn:E; [|done]. apply (H o). by eapply list_elem_of_lookup_2.
Qed.
Lemma total_minus s rc e : rc e = 1 → (e < length (s_objs s))%nat → total s (minus_one rc e) = total s rc - charge_of s e.
Proof.
  intros He Hlt. unfold total. rewrite (foldr_sum _ (λ i, if decide (0 < rc i) then charge_of s i else 0) e _ (- charge_of s e)).
  - rewrite decide_True by lia. lia.
  - intros i Hi. unfold minus_one. rewrite (decide_False (P := i = e)) by done. by rewrite Z.sub_0_r.
  - unfold minus_one. rewrite (decide_True (P := e = e)) by done. rewrite He. rewrite decide_False by lia. rewrite decide_True by lia. lia.
Qed.

Record sim_at c s rc : Prop := mkSim {
  sim_core : core_ok c s rc;
  sim_lru : lru_ok c (s_cached s);
  sim_table : ∃ chains, table_ok c chains ∧ ∀ i, i ∈ concat chains ↔ i ∈ s_cached s;
  sim_unique : ∀ i j k, i ∈ s_cached s → j ∈ s_cached s → has_key s k i → has_key s k j → i = j;
  sim_usage : s_usage s = total s rc;
  sim_charges : ∀ o, o ∈ s_objs s → 0 ≤ o_charge o
}.
Definition sim c s : Prop := sim_at c s (ref_count s).
Definition plus_one rc (e i : nat) : Z := rc i + (if decide (i = e) then 1 else 0).

Lemma sim_rc c s rc rc' : (∀ i, rc' i = rc i) → sim_at c s rc → sim_at c s rc'.
Proof.
  intros E [H1 H2 H3 H4 H5 H6]. split; try done; [by eapply core_rc|]. rewrite H5. apply total_ext; [done|]. intros i. by rewrite E.
Qed.

Lemma core_matches c s rc k i : core_ok c s rc → 0 < rc i → matches c k (hf k) i ↔ has_key s k i.
Proof.
  intros Hc Hi. destruct (co_live _ _ _ Hc i Hi) as (h & o & Hh & Ho & _ & _ & _ & Hk & Hha & _). unfold has_key. rewrite Ho. cbn. split.
  - intros (h' & Hh' & _ & E). unfold live_handle in *. rewrite Hh in Hh'. injection Hh' as <-. by rewrite <- E, Hk.
  - intros [= <-]. exists h. split; [done|]. by rewrite Hha, Hk.
Qed.

Lemma cached_pos s i : i ∈ s_cached s → 0 < ref_count s i.
Proof. intros Hi. apply ref_count_live. by left. Qed.

Lemma s_find_spec s k r : (∀ i j, i ∈ s_cached s → j ∈ s_cached s → has_key s k i → has_key s k j → i = j) →
  match r with Some i => i ∈ s_cached s ∧ has_key s k i | None => ∀ i, i ∈ s_cached s → ¬ has_key s k i end → s_find k s = r.
Proof.
  intros Hu Hr. unfold s_find. destruct (filter (has_key s k) (s_cached s)) as [|j l] eqn:E; cbn.
  - destruct r as [i|]; [|done]. destruct Hr as [Hi Hk]. assert (i ∈ filter (has_key s k) (s_cached s)) as H by (by apply list_elem_of_filter). rewrite E in H. by apply elem_of_nil in H.
  - assert (j ∈ filter (has_key s k) (s_cached s)) as H by (rewrite E; by left). apply list_elem_of_filter in H as [Hk Hj]. destruct r as [i|]; [|by destruct (Hr j)].
    destruct Hr as [Hi Hki]. f_equal. by apply Hu.
Qed.

Lemma found_find c s rc chains k r : core_ok c s rc → (∀ i, i ∈ concat chains ↔ i ∈ s_cached s) → (∀ i, i ∈ s_cached s → 0 < rc i) →
  (∀ i j, i ∈ s_cached s → j ∈ s_cached s → has_key s k i → has_key s k j → i = j) → found c chains k (hf k) r → s_find k s = r.
Proof.
  intros Hc Hset Hpos Hu Hf. apply s_find_spec; [done|]. destruct r as [i|]; cbn in Hf.
  - destruct Hf as [Hi Hm]. apply Hset in Hi. split; [done|]. apply (core_matches c s rc k i Hc) in Hm; [done | by apply Hpos].
  - intros i Hi Hk. apply (Hf i); [by apply Hset|]. apply (core_matches c s rc k i Hc); [by apply Hpos | done].
Qed.

Lemma s_find_cached s k i : s_find k s = Some i → i ∈ s_cached s ∧ has_key s k i.
Proof. unfold s_find. intros H. assert (i ∈ filter (has_key s k) (s_cached s)) as Hi by (destruct (filter _ _); [done|]; injection H as ->; by left). apply list_elem_of_filter in Hi. tauto. Qed.

(** One reference less. *)
Lemma drop_step c s e : sim_at c s (plus_one (ref_count s) e) → ∃ c', Unref e c = Ok c' ∧ sim c' (s_collect e s).
Proof.
  intros [Hc Hl (chains & Ht & Hset) Hu Hus Hch]. assert (∀ i, 0 ≤ ref_count s i) as Hnn by (intros i; unfold ref_count; pose proof (count_nonneg i (s_pins s)); case_decide; lia).
  assert (plus_one (ref_count s) e e = ref_count s e + 1) as Ee by (unfold plus_one; by rewrite decide_True). specialize (Hnn e) as Hnne.
  destruct (Unref_spec c s _ e Hc (proj2 (proj2 Hl))) as (c' & E & Hc' & Hr & Hlive); [lia | intros i; unfold plus_one; specialize (Hnn i); case_decide; lia|].
  exists c'. split; [done|]. rewrite Ee in *. assert (e ∈ s_cached s → ∃ h, live_handle c' e h) as Hel.
  { intros Hin. apply Hlive. pose proof (cached_pos s e Hin). lia. }
  assert (∀ i, ref_count s i = minus_one (plus_one (ref_count s) e) e i) as Erc by (intros i; unfold minus_one, plus_one; case_decide; lia).
  assert (lru_ok c' (s_cached s)) as Hl' by (by apply (refs_only_lru c c' e)).
  assert (table_ok c' chains) as Ht' by (apply (refs_only_table c c' e); [done | done |]; intros Hin; by apply Hel, Hset).
  unfold s_collect. destruct (decide (s_live s e)) as [Hlv|Hdead].
  - apply ref_count_live in Hlv as Hlv'. destruct (Z.eqb_spec (ref_count s e + 1) 1); [lia|]. split; try done; [by apply (core_rc _ _ (minus_one (plus_one (ref_count s) e) e)) | by exists chains |].
    rewrite Hus. apply total_ext; [done|]. intros i. unfold plus_one. specialize (Hnn i). case_decide; [subst|]; lia.
  - assert (ref_count s e = 0) as E0 by (rewrite <- (ref_count_live s e) in Hdead; lia). rewrite E0 in *. change (0 + 1 =? 1) with true in Hc'. cbv iota in Hc'.
    split; try done; [by apply (core_rc _ _ (minus_one (plus_one (ref_count s) e) e)) | by exists chains |]. cbn [s_usage].
    rewrite Hus. transitivity (total s (minus_one (plus_one (ref_count s) e) e)).
    + rewrite (total_minus s (plus_one (ref_count s) e) e Ee); [done|]. destruct (co_live _ _ _ Hc e ltac:(lia)) as (_ & o & _ & Ho & _). by eapply lookup_lt_Some.
    + apply total_ext; [done|]. intros i. by rewrite <- Erc.
Qed.

Lemma without_fresh e l : e ∉ l → without e l = l.
Proof.
  unfold without. induction l as [|x l IH]; [done|]. intros [Hx Hl]%not_elem_of_cons. rewrite filter_cons, decide_True by (by intros ->). by rewrite IH.
Qed.
Lemma without_split e l k : NoDup (l ++ e :: k) → without e (l ++ e :: k) = l ++ k.
Proof.
  intros Hnd. apply NoDup_app in Hnd as (_ & Hlk & Hnd). apply NoDup_cons in Hnd as [Hk _]. unfold without. rewrite filter_app, filter_cons, decide_False by (by intros H).
  fold (without e l) (without e k). rewrite !without_fresh; [done | done|]. intros He. apply (Hlk e He). by left.
Qed.
Lemma elem_of_without i e l : i ∈ without e l ↔ i ∈ l ∧ i ≠ e.
Proof. unfold without. rewrite list_elem_of_filter. tauto. Qed.
Lemma NoDup_split e (l : list nat) : NoDup l → e ∈ l → ∃ l1 l2, l = l1 ++ e :: l2 ∧ without e l = l1 ++ l2.
Proof. intros Hnd (l1 & l2 & ->)%list_elem_of_split. exists l1, l2. split; [done|]. by apply without_split. Qed.

(** An entry leaves the list of cached entries but is still counted. *)
Lemma ref_count_without s e pins i : e ∈ s_cached s → ref_count (s_with (without e (s_cached s)) pins s) i + (if decide (i = e) then 1 else 0) = (if decide (i ∈ s_cached s) then 1 else 0) + count i pins.
Proof.
  intros He. unfold ref_count. cbn [s_cached s_pins s_with]. destruct (decide (i = e)) as [->|Hne].
  - rewrite decide_False by (rewrite elem_of_without; tauto). rewrite decide_True by done. lia.
  - rewrite Z.add_0_r. f_equal. destruct (decide (i ∈ s_cached s)); [rewrite decide_True by (by apply elem_of_without) | rewrite decide_False by (rewrite elem_of_without; tauto)]; done.
Qed.

Lemma sim_without c' s e chains : core_ok c' s (ref_count s) → e ∈ s_cached s → lru_ok c' (without e (s_cached s)) → table_ok c' chains →
  (∀ i, i ∈ concat chains ↔ i ∈ s_cached s ∧ Some e ≠ Some i) →
  (∀ i j k, i ∈ without e (s_cached s) → j ∈ without e (s_cached s) → has_key s k i → has_key s k j → i = j) → s_usage s = total s (ref_count s) →
  (∀ o, o ∈ s_objs s → 0 ≤ o_charge o) → let s' := s_with (without e (s_cached s)) (s_pins s) s in sim_at c' s' (plus_one (ref_count s') e).
Proof.
  intros Hc He Hl Ht Hset Hu Hus Hch s'. assert (∀ i, plus_one (ref_count s') e i = ref_count s i) as E by (intros i; unfold plus_one, s'; by rewrite ref_count_without).
  split; try done.
  - by apply (core_with c' s (ref_count s)).
  - exists chains. split; [done|]. intros i. rewrite Hset. cbn. rewrite elem_of_without. naive_solver.
  - change (s_usage s') with (s_usage s). rewrite Hus. symmetry. apply total_ext; [done|]. intros i. by rewrite E.
Qed.
Lemma unique_without s e : (∀ i j k, i ∈ s_cached s → j ∈ s_cached s → has_key s k i → has_key s k j → i = j) →
  ∀ i j k, i ∈ without e (s_cached s) → j ∈ without e (s_cached s) → has_key s k i → has_key s k j → i = j.
Proof. intros Hu i j k [Hi _]%elem_of_without [Hj _]%elem_of_without. by apply Hu. Qed.

Lemma forget_list_first c s e o : sim c s → e ∈ s_cached s → s_objs s !! e = Some o → ∃ c1 h c2, LRU_Remove e c = Ok c1 ∧ handle_at e c1 = Ok h ∧ key e h = Ok (o_key o) ∧
  table_Remove (o_key o) (hash h) c1 = Ok (Some e, c2) ∧ ∃ c3, Unref e c2 = Ok c3 ∧ sim c3 (s_forget e s).
Proof.
  intros Hsim He Ho. pose proof Hsim as [Hc Hl (chains & Ht & Hset) Hu Hus Hch]. pose proof Hl as (_ & Hnd & _).
  destruct (NoDup_split e _ Hnd He) as (l1 & l2 & El & Ew). rewrite El in Hl. destruct (LRU_Remove_spec c l1 e l2 Hl) as (c1 & E1 & Hlo & Hl1).
  pose proof (core_links _ _ _ _ Hlo Hc) as Hc1. pose proof (links_only_table _ _ _ Hlo Ht) as Ht1.
  destruct (co_live _ _ _ Hc1 e (cached_pos s e He)) as (h & o' & Hh & Ho' & _ & _ & _ & Hk & Hha & _). rewrite Ho in Ho'. injection Ho' as <-.
  destruct (table_Remove_spec c1 chains (o_key o) (hf (o_key o)) (proj2 (proj2 Hl1)) Ht1) as (r & c2 & chains2 & E2 & Hho & Ht2 & Hf & Hset2); [apply Hhf|].
  assert (s_find (o_key o) s = r) as Er by (apply (found_find c1 s (ref_count s) chains); [done | done | apply cached_pos | intros; by eapply Hu | done]).
  assert (s_find (o_key o) s = Some e) as Er' by (apply s_find_spec; [intros; by eapply Hu|]; split; [done|]; unfold has_key; by rewrite Ho). rewrite Er' in Er. subst r.
  assert (sim_at c2 (s_with (without e (s_cached s)) (s_pins s) s) (plus_one (ref_count (s_with (without e (s_cached s)) (s_pins s) s)) e)) as Hs2.
  { apply (sim_without c2 s e chains2); try done; [by eapply core_hash | rewrite Ew; by eapply hash_only_lru | intros i; by rewrite Hset2, Hset | by apply unique_without]. }
  destruct (drop_step _ _ _ Hs2) as (c3 & E3 & Hs3). exists c1, h, c2. split; [done|]. rewrite (handle_at_live c1 e h Hh). split; [done|].
  rewrite (key_live c1 e h (proj2 (proj2 Hl1)) Hh), Hk, Hha. split; [done|]. split; [done|]. by exists c3.
Qed.

Lemma forget_table_first c s e k : sim c s → s_find k s = Some e → ∃ c1 c2, table_Remove k (hf k) c = Ok (Some e, c1) ∧ LRU_Remove e c1 = Ok c2 ∧ ∃ c3, Unref e c2 = Ok c3 ∧ sim c3 (s_forget e s).
Proof.
  intros Hsim Hfind. destruct (s_find_cached s k e Hfind) as [He _]. pose proof Hsim as [Hc Hl (chains & Ht & Hset) Hu Hus Hch]. pose proof Hl as (_ & Hnd & Hns).
  destruct (table_Remove_spec c chains k (hf k) Hns Ht) as (r & c1 & chains1 & E1 & Hho & Ht1 & Hf & Hset1); [apply Hhf|].
  assert (s_find k s = r) as Er by (apply (found_find c s (ref_count s) chains); [done | done | apply cached_pos | intros; by eapply Hu | done]). rewrite Hfind in Er. subst r.
  pose proof (hash_only_lru _ _ _ Hho Hl) as Hl1. destruct (NoDup_split e _ Hnd He) as (l1 & l2 & El & Ew). rewrite El in Hl1.
  destruct (LRU_Remove_spec c1 l1 e l2 Hl1) as (c2 & E2 & Hlo & Hl2).
  assert (sim_at c2 (s_with (without e (s_cached s)) (s_pins s) s) (plus_one (ref_count (s_with (without e (s_cached s)) (s_pins s) s)) e)) as Hs2.
  { apply (sim_without c2 s e chains1); try done; [eapply core_links; [done|]; by eapply core_hash | by rewrite Ew | by eapply links_only_table | intros i; by rewrite Hset1, Hset | by apply unique_without]. }
  destruct (drop_step _ _ _ Hs2) as (c3 & E3 & Hs3). exists c1, c2. split; [done|]. split; [done|]. by exists c3.
Qed.

Lemma not_found c s k : sim c s → s_find k s = None → ∃ c1, table_Remove k (hf k) c = Ok (None, c1) ∧ sim c1 s.
Proof.
  intros Hsim Hfind. pose proof Hsim as [Hc Hl (chains & Ht & Hset) Hu Hus Hch].
  destruct (table_Remove_spec c chains k (hf k) (proj2 (proj2 Hl)) Ht) as (r & c1 & chains1 & E1 & Hho & Ht1 & Hf & Hset1); [apply Hhf|].
  assert (s_find k s = r) as Er by (apply (found_find c s (ref_count s) chains); [done | done | apply cached_pos | intros; by eapply Hu | done]). rewrite Hfind in Er. subst r.
  exists c1. split; [done|]. split; try done; [by eapply core_hash | by eapply hash_only_lru|]. exists chains1. split; [done|]. intros i. rewrite Hset1, Hset. naive_solver.
Qed.

(** *** The operations *)

Lemma Erase_sim c s k : sim c s → ∃ c', Erase k (hf k) c = Ok c' ∧ sim c' (s_erase k s).
Proof.
  intros Hsim. unfold Erase, s_erase. destruct (s_find k s) as [e|] eqn:E.
  - destruct (forget_table_first c s e k Hsim E) as (c1 & c2 & -> & E2 & c3 & E3 & Hs). cbn [mbind outcome_bind fst snd]. rewrite E2. cbn [mbind outcome_bind]. by exists c3.
  - destruct (not_found c s k Hsim E) as (c1 & -> & Hs). by exists c1.
Qed.

Lemma Release_sim c s i : sim c s → i ∈ s_pins s → ∃ c', Release i c = Ok c' ∧ sim c' (s_release i s).
Proof.
  intros [Hc Hl Ht Hu Hus Hch] Hi. apply drop_step. set (s' := s_with (s_cached s) (remove_one i (s_pins s)) s).
  assert (∀ j, plus_one (ref_count s') i j = ref_count s j) as E.
  { intros j. unfold plus_one, ref_count. cbn [s_cached s_pins s' s_with]. rewrite (count_remove j i) by done. repeat case_decide; try congruence; lia. }
  split; try done.
  - by apply (core_with c s (ref_count s)).
  - change (s_usage s') with (s_usage s). rewrite Hus. symmetry. apply total_ext; [done|]. intros j. by rewrite E.
Qed.

Lemma Lookup_sim c s k : sim c s → blen (s_pins s) < 2 ^ 32 - 2 → ∃ c', Lookup k (hf k) c = Ok ((s_lookup k s).1, c') ∧ sim c' (s_lookup k s).2.
Proof.
  intros Hsim Hpins. pose proof Hsim as [Hc Hl (chains & Ht & Hset) Hu Hus Hch]. pose proof Hl as (_ & Hnd & Hns). unfold Lookup, s_lookup.
  destruct (table_Lookup_spec c chains k (hf k) Hns Ht) as (r & -> & Hf); [apply Hhf|]. cbn [mbind outcome_bind].
  rewrite (found_find c s (ref_count s) chains k r Hc Hset (cached_pos s) ltac:(intros; by eapply Hu) Hf). destruct r as [e|]; [|by exists c].
  cbn in Hf. destruct Hf as [He _]. apply Hset in He. destruct (co_live _ _ _ Hc e (cached_pos s e He)) as (h & o & Hh & Ho & Hfields & Hd & Hcg & Hk & Hha & Hr).
  rewrite (update_live c e h _ Hh). cbn [mbind outcome_bind]. set (c0 := set_handles _ c). pose proof (live_lt c e h Hh) as Hlt.
  set (rc := λ i, ref_count s i + (if decide (i = e) then 1 else 0)).
  assert (ref_count s e < 2 ^ 32 - 1) as Hbound by (unfold ref_count; pose proof (count_nonneg e (s_pins s)); case_decide; lia).
  assert (core_ok c0 s rc) as Hc0.
  { split; cbn; try apply Hc; [rewrite length_insert; apply Hc | |].
    - intros i Hi. destruct (decide (i = e)) as [->|Hne].
      + exists (set_refs (u32 (refs h + 1)) h), o. split; [apply live_set; [done | by rewrite decide_True]|]. split; [done|]. cbn. repeat (split; [done|]).
        rewrite Hr. unfold rc. rewrite decide_True by done. apply u32_small. unfold is_u32. pose proof (cached_pos s e He). lia.
      + unfold rc in Hi |- *. rewrite (decide_False (P := i = e)), Z.add_0_r in * by done. destruct (co_live _ _ _ Hc i Hi) as (hi & oi & Hhi & Hrest). exists hi, oi. split; [apply live_set; [done | by rewrite decide_False] | done].
    - intros i h' Hh'. unfold rc. apply live_set in Hh'; [|done]. case_decide as Ei; [subst; pose proof (cached_pos s e He); lia|]. rewrite Z.add_0_r. by eapply (co_dead _ _ _ Hc). }
  assert (refs_only c c0 e) as Hro.
  { split; try done; [cbn; by rewrite length_insert | |].
    - intros i h' Hne. unfold c0. rewrite live_set by done. by rewrite decide_False.
    - intros h' Hh'. apply live_set in Hh'; [|done]. rewrite decide_True in Hh' by done. subst h'. by exists h. }
  assert (∃ h', live_handle c0 e h') as [h0 Hh0] by (eexists; apply live_set; [done | by rewrite decide_True]).
  assert (lru_ok c0 (s_cached s)) as Hl0 by (apply (refs_only_lru c c0 e); [done..|by exists h0]).
  assert (table_ok c0 chains) as Ht0 by (apply (refs_only_table c c0 e); [done..|by exists h0]).
  destruct (NoDup_split e _ Hnd He) as (l1 & l2 & El & Ew). rewrite El in Hl0. destruct (LRU_Remove_spec c0 l1 e l2 Hl0) as (c1 & -> & Hlo1 & Hl1). cbn [mbind outcome_bind].
  rewrite <- Ew in Hl1. destruct (lo_back _ _ Hlo1 e h0 Hh0) as (h1 & Hh1 & _).
  destruct (LRU_Append_spec c1 _ e h1 Hl1 Hh1) as (c2 & -> & Hlo2 & Hl2); [rewrite elem_of_without; tauto|]. cbn [mbind outcome_bind].
  exists c2. split; [done|]. pose proof (links_only_trans _ _ _ Hlo1 Hlo2) as Hlo. cbn [snd]. set (s' := s_with _ _ s).
  assert (∀ i, i ∈ s_cached s' ↔ i ∈ s_cached s) as Hin.
  { intros i. cbn. rewrite elem_of_app, elem_of_without, list_elem_of_singleton. split; [by intros [[? _]| ->]|]. intros Hi. destruct (decide (i = e)); tauto. }
  assert (∀ i, ref_count s' i = rc i) as Erc.
  { intros i. unfold rc, ref_count. cbn [s_pins s' s_with]. rewrite count_cons. rewrite (decide_ext (i ∈ s_cached s') (i ∈ s_cached s)) by apply Hin.
    rewrite (decide_ext (e = i) (i = e)) by done. lia. }
  split; try done.
  - apply (core_with c2 s rc); [by eapply core_links | done].
  - exists chains. split; [by eapply links_only_table|]. intros i. by rewrite Hset, Hin.
  - intros i j k' Hi Hj. apply Hin in Hi, Hj. by apply Hu.
  - change (s_usage s') with (s_usage s). rewrite Hus. symmetry. apply total_ext; [done|]. intros i. rewrite Erc. unfold rc. case_decide as Ei; [subst; pose proof (cached_pos s e He); lia | by rewrite Z.add_0_r].
Qed.

Lemma s_collect_fields i s : s_capacity (s_collect i s) = s_capacity s ∧ s_objs (s_collect i s) = s_objs s ∧ s_cached (s_collect i s) = s_cached s ∧ s_pins (s_collect i s) = s_pins s.
Proof. unfold s_collect. by case_decide. Qed.
Lemma s_forget_usage i s : (∀ o, o ∈ s_objs s → 0 ≤ o_charge o) → s_usage (s_forget i s) ≤ s_usage s.
Proof.
  intros H. unfold s_forget, s_collect. case_decide; [done|]. cbn. destruct (s_objs s !! i) as [o|] eqn:E; cbn; [|lia]. specialize (H o (list_elem_of_lookup_2 _ _ _ E)). lia.
Qed.

Lemma sim_usage_value c s : sim c s → s_usage s < 2 ^ 64 → usage_ c = s_usage s.
Proof.
  intros [Hc _ _ _ Hus Hch] Hlt. rewrite (co_usage _ _ _ Hc). apply u64_small. unfold is_u64. rewrite Hus in *. pose proof (total_charge_nonneg s (ref_count s) Hch). lia.
Qed.
Lemma sim_length c s : sim c s → (length (s_cached s) ≤ length (handles c))%nat.
Proof. intros [Hc Hl _ _ _ _]. apply nodup_length; [apply Hl|]. intros i Hi. destruct (order_live c _ i Hl Hi) as [h Hh]. by eapply live_lt. Qed.
Lemma sim_pins c s i : sim c s → i ∈ s_pins s → (i < length (s_objs s))%nat.
Proof.
  intros [Hc _ _ _ _ _] Hi. assert (0 < ref_count s i) as Hp by (apply ref_count_live; by right). destruct (co_live _ _ _ Hc i Hp) as (_ & o & _ & Ho & _). by eapply lookup_lt_Some.
Qed.

Lemma evict_sim l : ∀ fuel c s, sim c s → s_cached s = l → s_usage s < 2 ^ 64 → (length l < fuel)%nat →
  ∃ c', evict_loop fuel c = Ok c' ∧ sim c' (s_evict l s).
Proof.
  induction l as [|e l IH]; intros fuel c s Hsim El Hus Hf; pose proof (sim_usage_value c s Hsim Hus) as Eu; pose proof (co_capacity _ _ _ (sim_core _ _ _ Hsim)) as Ec;
    pose proof (sim_lru _ _ _ Hsim) as (Hd & Hnd & _); rewrite El in Hd, Hnd; apply dseg_headp in Hd as [Hn _]; cbn in Hn; injection Hn as Hn;
    (destruct fuel as [|fuel]; [lia|]); cbn [evict_loop s_evict]; rewrite Eu, Ec; (destruct (_ <? _); [|by exists c]); rewrite Hn.
  { by exists c. }
  assert (e ∈ s_cached s) as He by (rewrite El; by left). destruct (co_live _ _ _ (sim_core _ _ _ Hsim) e (cached_pos s e He)) as (_ & o & _ & Ho & _).
  destruct (forget_list_first c s e o Hsim He Ho) as (c1 & h & c2 & -> & E2 & E3 & E4 & c3 & E5 & Hs3). cbn [mbind outcome_bind]. rewrite E2. cbn [mbind outcome_bind].
  rewrite E3. cbn [mbind outcome_bind]. rewrite E4. cbn [mbind outcome_bind snd]. rewrite E5. cbn [mbind outcome_bind]. apply IH; [done | | | cbn in Hf; lia].
  - unfold s_forget. destruct (s_collect_fields e (s_with (without e (s_cached s)) (s_pins s) s)) as (_ & _ & -> & _). cbn. rewrite El. exact (without_split e [] l Hnd).
  - pose proof (s_forget_usage e s (sim_charges _ _ _ Hsim)). lia.
Qed.

(** A new entry, before it is in the list and in the table. *)
Lemma alloc_spec c s chains k v chg del : sim c s → table_ok c chains → (∀ i, i ∈ concat chains ↔ i ∈ s_cached s) →
  let e := length (handles c) in let h := mkHandle v del None None None chg 2 (hf k) k in
  let c0 := set_handles (handles c ++ [Some h]) c in
  let s1 := mkSpec (s_capacity s) (s_objs s ++ [mkObj k v chg del]) (s_cached s ++ [e]) (e :: s_pins s) (s_deleted s) (s_usage s) in
  e = length (s_objs s) ∧ e ∉ s_cached s ∧ e ∉ s_pins s ∧ live_handle c0 e h ∧ core_ok c0 s1 (ref_count s1) ∧ lru_ok c0 (s_cached s) ∧ table_ok c0 chains ∧
    ∀ i, ref_count s1 i = ref_count s i + (if decide (i = e) then 2 else 0).
Proof.
  intros Hsim Ht Hset e h c0 s1. pose proof Hsim as [Hc Hl _ _ _ _]. pose proof (co_length _ _ _ Hc) as Hlen.
  assert (∀ i hi, live_handle c0 i hi ↔ live_handle c i hi ∨ (i = e ∧ hi = h)) as Hlive.
  { intros i hi. unfold live_handle. cbn [handles set_handles c0]. split.
    - intros H. apply lookup_app_Some in H as [H|[Hge H]]; [by left|]. right. apply list_lookup_singleton_Some in H as [Hi [= <-]]. unfold e. split; [lia | done].
    - intros [H|[-> ->]]; [by apply lookup_app_l_Some|]. by apply list_lookup_middle. }
  assert (e ∉ s_cached s) as Hec. { intros He. destruct (order_live c _ e Hl He) as [hh Hh]. apply live_lt in Hh. unfold e in Hh. lia. }
  assert (e ∉ s_pins s) as Hep. { intros He. apply (sim_pins c s e Hsim) in He. unfold e in He. lia. }
  assert (∀ i, ref_count s1 i = ref_count s i + (if decide (i = e) then 2 else 0)) as Erc.
  { intros i. unfold ref_count. cbn [s_cached s_pins s1]. rewrite count_cons. destruct (decide (i = e)) as [->|Hne].
    - rewrite decide_True by (apply elem_of_app; right; by left). rewrite decide_True by done. rewrite decide_False by done. lia.
    - rewrite (decide_False (P := e = i)) by done. rewrite (decide_ext (i ∈ s_cached s ++ [e]) (i ∈ s_cached s)) by (rewrite elem_of_app, list_elem_of_singleton; tauto). lia. }
  assert (ref_count s e = 0) as E0.
  { unfold ref_count. rewrite decide_False by done. pose proof (count_pos e (s_pins s)). pose proof (count_nonneg e (s_pins s)). destruct (decide (count e (s_pins s) = 0)); [lia|]. exfalso. apply Hep. apply count_pos. lia. }
  split; [exact Hlen|]. do 2 (split; [done|]). split; [apply Hlive; by right|]. split; [|split; [|split; [|done]]].
  - split; cbn; try apply Hc.
    + eapply Forall2_impl; [apply Hc|]. intros x i (o & Ho & Ex). exists o. split; [by apply lookup_app_l_Some | done].
    + rewrite !length_app, Hlen. done.
    + intros i Hi. rewrite Erc in Hi |- *. destruct (decide (i = e)) as [->|Hne].
      * exists h, (mkObj k v chg del). split; [apply Hlive; by right|]. split; [by apply list_lookup_middle|]. repeat (split; [done|]). cbn. rewrite E0. done.
      * rewrite Z.add_0_r in *. destruct (co_live _ _ _ Hc i Hi) as (hi & oi & Hhi & Hoi & Hrest). exists hi, oi. split; [apply Hlive; by left|]. split; [by apply lookup_app_l_Some | done].
    + intros i hi [Hhi|[-> ->]]%Hlive; rewrite Erc; [|rewrite decide_True by done; lia]. pose proof (co_dead _ _ _ Hc i hi Hhi). case_decide; lia.
  - destruct Hl as (Hd & Hnd & Hs). assert (∀ i, i ≠ e → nx c0 (Some i) = nx c (Some i) ∧ pv c0 (Some i) = pv c (Some i)) as Hsame.
    { intros i Hne. cbn. destruct (decide (i < e)%nat); [by rewrite lookup_app_l|]. rewrite !lookup_ge_None_2; [done | unfold e in *; lia | rewrite length_app; cbn; unfold e in *; lia]. }
    split; [|split; [done|]].
    + apply (dseg_frame (nx c) (pv c)); [done|..]; intros q [->|(i & -> & Hi)%list_elem_of_fmap]; try done; apply Hsame; by intros ->.
    + intros i E. destruct (decide (i = e)) as [->|Hne]; [|rewrite (proj1 (Hsame i Hne)) in E; by apply (Hs i)].
      destruct (live_nx c0 e h) as [En _]; [apply Hlive; by right|]. rewrite En in E. done.
  - destruct Ht as [H1 H2 H3 H4 H5]. split; try done.
    + apply (chains_in_frame c); [done|]. intros x hx _ Hx. exists hx. split; [apply Hlive; by left | done].
    + intros b l i Hb Hi. destruct (H3 b l i Hb Hi) as (hh & Hh & E). exists hh. split; [apply Hlive; by left | done].
Qed.

Lemma core_set_usage c s s1 rc chg : core_ok c s rc → s_capacity s1 = s_capacity s → s_objs s1 = s_objs s → s_deleted s1 = s_deleted s → s_usage s1 = s_usage s + chg →
  core_ok (set_usage (u64 (usage_ c + chg)) c) s1 rc.
Proof.
  intros [H1 H2 H3 H4 H5 H6] E1 E2 E3 E4. split; rewrite ?E1, ?E2, ?E3, ?E4; try done. cbn. rewrite H2. unfold u64. by rewrite Zplus_mod_idemp_l.
Qed.

Lemma Insert_sim c s k v chg del : sim c s → 0 ≤ chg → s_usage s + chg < 2 ^ 64 → blen (s_cached s) < 2 ^ 31 →
  ∃ c', Insert k (hf k) v chg del c = Ok ((s_insert k v chg del s).1, c') ∧ sim c' (s_insert k v chg del s).2.
Proof.
  intros Hsim Hchg Hus Hmax. pose proof Hsim as [Hc Hl (chains & Ht & Hset) Hu Hu0 Hch]. unfold Insert.
  destruct (alloc_spec c s chains k v chg del Hsim Ht Hset) as (Een & Hec & Hep & Hlive & Hc0 & Hl0 & Ht0 & Erc). set (e := length (handles c)) in *.
  set (h := mkHandle v del None None None chg 2 (hf k) k) in *. set (c0 := set_handles _ c) in *. set (s0 := mkSpec (s_capacity s) _ _ _ _ (s_usage s)) in *.
  destruct (LRU_Append_spec c0 _ e h Hl0 Hlive Hec) as (c1 & -> & Hlo1 & Hl1). cbn [mbind outcome_bind].
  set (c2 := set_usage _ c1). set (s1 := mkSpec (s_capacity s) (s_objs s ++ [mkObj k v chg del]) (s_cached s ++ [e]) (e :: s_pins s) (s_deleted s) (s_usage s + chg)).
  assert (core_ok c2 s1 (ref_count s1)) as Hc2 by (apply (core_set_usage c1 s0); [apply (core_links _ _ _ _ Hlo1 Hc0) | done..]).
  assert (lru_ok c2 (s_cached s ++ [e])) as Hl2 by exact Hl1. assert (table_ok c2 chains) as Ht2 by (destruct (links_only_table _ _ _ Hlo1 Ht0) as [K1 K2 K3 K4 K5]; split; try done; apply (chains_in_frame c1); [done|]; intros x hx _ Hx; by exists hx).
  destruct (lo_back _ _ Hlo1 e h Hlive) as (h2 & Hh2 & Es). destruct (strip_links_fields _ _ Es) as (_ & _ & _ & _ & _ & Eh & Ek). cbn in Eh, Ek.
  destruct (table_Insert_spec c2 chains e h2 (proj2 (proj2 Hl2)) Ht2 (core_hashes _ _ _ Hc2) Hh2) as (r & c3 & chains3 & -> & Hho & Ht3 & Hf & Hset3); [by rewrite Hset | |].
  { assert (concat chains ≡ₚ s_cached s) as Hp by (apply NoDup_Permutation; [apply Ht | apply Hl | apply Hset]). unfold blen in *. by rewrite (Permutation_length Hp). }
  rewrite Eh, Ek in Hf. cbn [mbind outcome_bind fst snd].
  pose proof (core_hash _ _ _ _ Hho Hc2) as Hc3. pose proof (hash_only_lru _ _ _ Hho Hl2) as Hl3.
  assert (∀ i, i ∈ s_cached s1 ↔ i = e ∨ i ∈ s_cached s) as Hin1 by (intros i; cbn; rewrite elem_of_app, list_elem_of_singleton; tauto).
  assert (∀ i k', i ∈ s_cached s → has_key s1 k' i ↔ has_key s k' i) as Hold.
  { intros i k' Hi. unfold has_key. cbn [s_objs s1]. rewrite lookup_app_l; [done|]. destruct (co_live _ _ _ Hc i (cached_pos s i Hi)) as (_ & o & _ & Ho & _). by eapply lookup_lt_Some. }
  assert (has_key s1 k e) as Hke by (unfold has_key; cbn [s_objs s1]; by rewrite list_lookup_middle by exact Een).
  assert (s_find k s = r) as Er.
  { apply s_find_spec; [intros; by eapply Hu|]. destruct r as [i|]; cbn in Hf.
    - destruct Hf as [Hi Hm]. apply Hset in Hi. split; [done|]. apply Hold; [done|]. apply (core_matches c2 s1 _ k i Hc2); [apply cached_pos, Hin1; by right | done].
    - intros i Hi Hk. apply (Hf i); [by apply Hset|]. apply (core_matches c2 s1 _ k i Hc2); [apply cached_pos, Hin1; by right | by apply Hold]. }
  assert (∀ o, o ∈ s_objs s1 → 0 ≤ o_charge o) as Hch1 by (intros o [Ho| ->%list_elem_of_singleton]%elem_of_app; [by apply Hch | done]).
  assert (s_usage s1 = total s1 (ref_count s1)) as Hus1.
  { cbn [s_usage s1]. rewrite Hu0. unfold total. cbn [s_objs s1]. rewrite length_app. cbn [length]. rewrite seq_app, foldr_app. cbn [seq foldr]. rewrite Nat.add_0_l, <- Een.
    rewrite decide_True by (apply cached_pos, Hin1; by left). assert (charge_of s1 e = chg) as -> by (unfold charge_of; cbn [s_objs s1]; by rewrite list_lookup_middle by exact Een). rewrite Z.add_0_r, (foldr_start _ chg). apply (f_equal (λ z, z + chg)).
    apply foldr_ext. intros i Hi. apply elem_of_seq in Hi. change (ref_count s1 i) with (ref_count s0 i). rewrite Erc. rewrite (decide_False (P := i = e)) by lia. rewrite Z.add_0_r.
    unfold charge_of. cbn [s_objs s1]. by rewrite lookup_app_l by lia. }
  unfold s_insert. rewrite <- Een, Er. cbn [fst snd]. fold s1.
  assert (∃ c4, match r with Some old => c ← LRU_Remove old c3; Unref old c | None => Ok c3 end = Ok c4 ∧ sim c4 (match r with Some old => s_forget old s1 | None => s1 end)) as (c4 & -> & Hs4).
  { destruct r as [old|].
    - destruct (s_find_cached s k old Er) as [Ho Hko]. assert (old ∈ s_cached s1) as Ho1 by (apply Hin1; by right). pose proof Hl3 as (_ & Hnd3 & _).
      destruct (NoDup_split old (s_cached s ++ [e]) Hnd3) as (l1 & l2 & El & Ew); [by apply elem_of_app; left|]. rewrite El in Hl3.
      destruct (LRU_Remove_spec c3 l1 old l2 Hl3) as (c4 & -> & Hlo4 & Hl4). cbn [mbind outcome_bind]. apply drop_step.
      apply (sim_without c4 s1 old chains3); try done; [by apply (core_links _ _ _ _ Hlo4) | cbn [s_cached s1]; by rewrite Ew | by eapply links_only_table | |].
      + intros i. rewrite Hset3, Hin1, Hset. split; [intros [->|[? ?]]; [split; [by left|] | by split; [right|]]; intros [= ->]; done | intros [[->|?] ?]; [by left | by right]].
      + intros i j k' [Hi Hio]%elem_of_without [Hj Hjo]%elem_of_without Hki Hkj. apply Hin1 in Hi, Hj.
        assert (∀ i, i ∈ s_cached s → i ≠ old → has_key s1 k' i → ¬ has_key s1 k' e) as Hnew.
        { intros x Hx Hxo Hkx Hke'. apply Hxo. unfold has_key in Hke, Hke'. rewrite Hke in Hke'. injection Hke' as <-. apply Hold in Hkx; [|done]. by apply (Hu x old k). }
        destruct Hi as [->|Hi], Hj as [->|Hj]; [done | by destruct (Hnew j) | by destruct (Hnew i)|]. apply (Hu i j k'); [done | done | by apply Hold | by apply Hold].
    - exists c3. split; [done|]. split; try done.
      + exists chains3. split; [done|]. intros i. rewrite Hset3, Hin1, Hset. naive_solver.
      + intros i j k' Hi Hj Hki Hkj. apply Hin1 in Hi, Hj.
        assert (∀ i, i ∈ s_cached s → has_key s1 k' i → ¬ has_key s1 k' e) as Hnew.
        { intros x Hx Hkx Hke'. unfold has_key in Hke, Hke'. rewrite Hke in Hke'. injection Hke' as <-. apply Hold in Hkx; [|done].
          assert (∀ i, i ∈ s_cached s → ¬ has_key s k i) as Hnone; [|by apply (Hnone x)]. intros y Hy Hky. unfold s_find in Er. assert (y ∈ filter (has_key s k) (s_cached s)) as Hy' by (by apply list_elem_of_filter).
          destruct (filter _ _); [by apply elem_of_nil in Hy' | done]. }
        destruct Hi as [->|Hi], Hj as [->|Hj]; [done | by destruct (Hnew j) | by destruct (Hnew i)|]. apply (Hu i j k'); [done | done | by apply Hold | by apply Hold]. }
  cbn [mbind outcome_bind]. set (s4 := match r with Some old => s_forget old s1 | None => s1 end) in *.
  assert (s_usage s4 < 2 ^ 64) as Hus4 by (unfold s4; destruct r as [old|]; [pose proof (s_forget_usage old s1 Hch1)|]; cbn [s_usage s1] in *; lia).
  destruct (evict_sim (s_cached s4) (S (length (handles c4))) c4 s4 Hs4 eq_refl Hus4) as (c5 & -> & Hs5); [pose proof (sim_length c4 s4 Hs4); lia|].
  cbn [mbind outcome_bind]. exists c5. by split; [destruct r|destruct r].
Qed.

(** *** Prune *)

Lemma Prune_loop_sim l : ∀ kept fuel c s p, sim c s → s_cached s = kept ++ l → p = headp l None → (length l < fuel)%nat →
  ∃ c', prune_loop fuel p c = Ok c' ∧ sim c' (foldl (λ s i, if decide (i ∈ s_pins s) then s else s_forget i s) s l).
Proof.
  induction l as [|e l IH]; intros kept fuel c s p Hsim El -> Hf; (destruct fuel as [|fuel]; [lia|]); cbn [prune_loop headp foldl]; [by exists c|].
  pose proof (sim_lru _ _ _ Hsim) as (Hd & Hnd & Hns). rewrite El in Hd, Hnd. apply dseg_app in Hd as [_ Hd]. apply dseg_headp in Hd as [Hn _].
  assert (e ∈ s_cached s) as He by (rewrite El; apply elem_of_app; right; by left).
  destruct (co_live _ _ _ (sim_core _ _ _ Hsim) e (cached_pos s e He)) as (h & o & Hh & Ho & _ & _ & _ & Hk & Hha & Hr).
  destruct (live_nx c e h Hh) as [En _]. rewrite Hn in En. injection En as En. rewrite (handle_at_live c e h Hh). cbn [mbind outcome_bind]. rewrite Hr, <- En.
  assert ((ref_count s e =? 1) = negb (bool_decide (e ∈ s_pins s))) as ->.
  { unfold ref_count. rewrite decide_True by done. pose proof (count_pos e (s_pins s)). pose proof (count_nonneg e (s_pins s)).
    destruct (Z.eqb_spec (1 + count e (s_pins s)) 1); [rewrite bool_decide_false; [done|]; rewrite <- H; lia | rewrite bool_decide_true; [done|]; rewrite <- H; lia]. }
  destruct (decide (e ∈ s_pins s)) as [Hp|Hp]; [rewrite bool_decide_true by done|rewrite bool_decide_false by done]; cbn [negb].
  - cbn [mbind outcome_bind]. apply (IH (kept ++ [e])); [done | by rewrite <- app_assoc | done | cbn in Hf; lia].
  - rewrite (key_live c e h Hns Hh). cbn [mbind outcome_bind]. rewrite Hha, Hk.
    assert (s_find (o_key o) s = Some e) as Hfind by (apply s_find_spec; [intros; by eapply (sim_unique _ _ _ Hsim)|]; split; [done|]; unfold has_key; by rewrite Ho).
    destruct (forget_table_first c s e _ Hsim Hfind) as (c1 & c2 & -> & E2 & c3 & E3 & Hs3). cbn [mbind outcome_bind snd]. rewrite E2. cbn [mbind outcome_bind]. rewrite E3. cbn [mbind outcome_bind].
    apply (IH kept); [done | | done | cbn in Hf; lia]. unfold s_forget. destruct (s_collect_fields e (s_with (without e (s_cached s)) (s_pins s) s)) as (_ & _ & -> & _). cbn. rewrite El. by apply without_split.
Qed.

Lemma Prune_sim c s : sim c s → ∃ c', Prune c = Ok c' ∧ sim c' (s_prune s).
Proof.
  intros Hsim. unfold Prune, s_prune. pose proof (sim_lru _ _ _ Hsim) as (Hd & _ & _). apply dseg_headp in Hd as [Hn _]. cbn in Hn. injection Hn as Hn.
  apply (Prune_loop_sim (s_cached s) []); [done | done | done|]. pose proof (sim_length c s Hsim). lia.
Qed.

(** *** A new cache *)

Lemma new_sim capacity : ∃ c, Cache.new capacity = Ok c ∧ sim c (mkSpec capacity [] [] [] [] 0).
Proof.
  eexists. split; [reflexivity|]. split; try done; try (intros ? ?%elem_of_nil; done).
  - split; [by split|]. split; [constructor|]. intros i. done.
  - exists [[]; []; []; []]. split; [|by intros i]. split; try done; [| |constructor].
    + split; [done|]. intros b l Hb. repeat (destruct b as [|b]; [injection Hb as <-; by exists None|]). done.
    + intros b l i Hb Hi. repeat (destruct b as [|b]; [injection Hb as <-; by apply elem_of_nil in Hi|]). done.
Qed.
End heap.

(** *** Shards *)

Lemma mix_u32 h : is_u32 h → is_u32 (Hash.mix_tail h).
Proof. intros Hh. apply lxor_u32; [apply u32_range | apply shiftr_u32; [done | apply u32_range]]. Qed.
Lemma hash_loop_u32 n : ∀ data h, (length data ≤ n)%nat → is_u32 h → is_u32 (Hash.hash_loop h data).
Proof.
  induction n as [|n IH]; intros data h Hl Hh; [by destruct data; [|cbn in Hl; lia]|].
  destruct data as [|b0 [|b1 [|b2 [|b3 data]]]]; cbn [Hash.hash_loop]; [done | apply mix_u32, u32_range..|].
  apply IH; [cbn in Hl; lia|]. apply lxor_u32; [apply u32_range | apply shiftr_u32; [done | apply u32_range]].
Qed.
Lemma HashSlice_u32 k : is_u32 (HashSlice k).
Proof. unfold HashSlice, Hash.Hash. apply (hash_loop_u32 (length k)); [done | apply u32_range]. Qed.
Lemma Shard_lt k : (Shard (HashSlice k) < 16)%nat.
Proof.
  unfold Shard. destruct (HashSlice_u32 k) as [H1 H2]. change (32 - kNumShardBits) with 28. rewrite Z.shiftr_div_pow2 by done.
  assert (HashSlice k / 2 ^ 28 < 16) by (apply Z.div_lt_upper_bound; lia). pose proof (Z.div_pos (HashSlice k) (2 ^ 28) H1 eq_refl). lia.
Qed.

Section sharded.
Context {V D : Type}.

(** The calls of clients; a handle is a shard and an entry. *)
Inductive cache_op :=
| OInsert (k : list byte) (v : V) (chg : Z) (del : D)
| OLookup (k : list byte)
| ORelease (h : nat * nat)
| OErase (k : list byte)
| OPrune.

Definition run_op (op : cache_op) (t : sharded V D) : outcome (option (nat * nat) * sharded V D) :=
  match op with
  | OInsert k v chg del => r ← ShardedInsert k v chg del t; Ok (Some r.1, r.2)
  | OLookup k => ShardedLookup k t
  | ORelease h => t ← ShardedRelease h t; Ok (None, t)
  | OErase k => t ← ShardedErase k t; Ok (None, t)
  | OPrune => t ← ShardedPrune t; Ok (None, t)
  end.
Fixpoint run_ops (ops : list cache_op) (t : sharded V D) : outcome (list (option (nat * nat)) * sharded V D) :=
  match ops with
  | [] => Ok ([], t)
  | op :: ops => r ← run_op op t; rs ← run_ops ops r.2; Ok (r.1 :: rs.1, rs.2)
  end.

(** What they do to sixteen abstract caches. *)
Definition spec_at (ss : list (spec V D)) (n : nat) : spec V D := default (mkSpec 0 [] [] [] [] 0) (ss !! n).
Definition spec_op (op : cache_op) (ss : list (spec V D)) : option (nat * nat) * list (spec V D) :=
  match op with
  | OInsert k v chg del => let n := Shard (HashSlice k) in let r := s_insert k v chg del (spec_at ss n) in (Some (n, r.1), <[n := r.2]> ss)
  | OLookup k => let n := Shard (HashSlice k) in let r := s_lookup k (spec_at ss n) in ((λ i, (n, i)) <$> r.1, <[n := r.2]> ss)
  | ORelease (n, i) => (None, <[n := s_release i (spec_at ss n)]> ss)
  | OErase k => let n := Shard (HashSlice k) in (None, <[n := s_erase k (spec_at ss n)]> ss)
  | OPrune => (None, map s_prune ss)
  end.
Fixpoint spec_ops (ops : list cache_op) (ss : list (spec V D)) : list (option (nat * nat)) * list (spec V D) :=
  match ops with [] => ([], ss) | op :: ops => let r := spec_op op ss in let rs := spec_ops ops r.2 in (r.1 :: rs.1, rs.2) end.

(** Clients release only handles they hold, and the sizes stay below the width of the
    counters. *)
Definition op_fits (op : cache_op) (ss : list (spec V D)) : Prop :=
  match op with
  | OInsert k v chg del => let s := spec_at ss (Shard (HashSlice k)) in 0 ≤ chg ∧ s_usage s + chg < 2 ^ 64 ∧ blen (s_cached s) < 2 ^ 31
  | OLookup k => blen (s_pins (spec_at ss (Shard (HashSlice k)))) < 2 ^ 32 - 2
  | ORelease (n, i) => i ∈ s_pins (spec_at ss n)
  | _ => True
  end.
Fixpoint ops_fit (ops : list cache_op) (ss : list (spec V D)) : Prop :=
  match ops with [] => True | op :: ops => op_fits op ss ∧ ops_fit ops (spec_op op ss).2 end.

(** Entries are in the shard of their key. *)
Definition homed (n : nat) (s : spec V D) : Prop := ∀ o, o ∈ s_objs s → Shard (HashSlice (o_key o)) = n.
Definition sharded_sim (t : sharded V D) (ss : list (spec V D)) : Prop :=
  length (shard_ t) = 16%nat ∧ length ss = 16%nat ∧ ∀ n c s, shard_ t !! n = Some c → ss !! n = Some s → sim HashSlice c s ∧ homed n s.

Lemma sharded_get t ss n : sharded_sim t ss → (n < 16)%nat → ∃ c, shard_ t !! n = Some c ∧ ss !! n = Some (spec_at ss n) ∧ sim HashSlice c (spec_at ss n) ∧ homed n (spec_at ss n).
Proof.
  intros (H1 & H2 & H) Hn. destruct (lookup_lt_is_Some_2 (shard_ t) n) as [c Hc]; [lia|]. destruct (lookup_lt_is_Some_2 ss n) as [s Hs]; [lia|].
  exists c. unfold spec_at. rewrite Hs. cbn. destruct (H n c s Hc Hs). done.
Qed.
Lemma sharded_set t ss n c s id : sharded_sim t ss → sim HashSlice c s → homed n s → sharded_sim (mkSharded (<[n := c]> (shard_ t)) id) (<[n := s]> ss).
Proof.
  intros (H1 & H2 & H) Hs Hh. split; [cbn; by rewrite length_insert|]. split; [by rewrite length_insert|]. intros m c' s' Hc' Hs'. cbn in Hc'.
  destruct (decide (m = n)) as [->|Hne].
  - pose proof (lookup_lt_Some _ _ _ Hc') as Hl. pose proof (lookup_lt_Some _ _ _ Hs') as Hl'. rewrite ?length_insert in Hl; rewrite ?length_insert in Hl'.
    rewrite list_lookup_insert_eq in Hc' by lia. rewrite list_lookup_insert_eq in Hs' by lia. injection Hc' as <-. injection Hs' as <-. done.
  - rewrite list_lookup_insert_ne in Hc' by done. rewrite list_lookup_insert_ne in Hs' by done. by apply (H m).
Qed.

Lemma homed_objs n s s' : s_objs s' = s_objs s → homed n s → homed n s'.
Proof. unfold homed. by intros ->. Qed.
Lemma collect_objs i (s : spec V D) : s_objs (s_collect i s) = s_objs s.
Proof. apply s_collect_fields. Qed.
Lemma evict_objs l : ∀ s : spec V D, s_objs (s_evict l s) = s_objs s.
Proof. induction l as [|i l IH]; intros s; [done|]. cbn. destruct (_ <? _); [|done]. rewrite IH. unfold s_forget. by rewrite collect_objs. Qed.
Lemma prune_objs l : ∀ s : spec V D, s_objs (foldl (λ s i, if decide (i ∈ s_pins s) then s else s_forget i s) s l) = s_objs s.
Proof. induction l as [|i l IH]; intros s; [done|]. cbn. rewrite IH. case_decide; [done|]. unfold s_forget. by rewrite collect_objs. Qed.

(** Pruning the shards one after the other. *)
Lemma prune_shards n : ∀ m t ss, sharded_sim t ss → (m + n = 16)%nat →
  ∃ t', for_loop (λ s t, r ← on_shard s (λ c, c ← Prune c; Ok (tt, c)) t; Ok r.2) (seq m n) t = Ok t' ∧ sharded_sim t' (take m ss ++ map s_prune (drop m ss)).
Proof.
  induction n as [|n IH]; intros m t ss Hs Hm; cbn [seq for_loop].
  { exists t. split; [done|]. destruct Hs as (? & H2 & ?). rewrite take_ge, drop_ge by lia. cbn. by rewrite app_nil_r. }
  destruct (sharded_get t ss m Hs ltac:(lia)) as (c & Hc & Hsm & Hsim & Hh). unfold on_shard. rewrite Hc.
  destruct (Prune_sim HashSlice HashSlice_u32 c _ Hsim) as (c' & -> & Hsim'). cbn [mbind outcome_bind fst snd].
  pose proof (sharded_set t ss m c' (s_prune (spec_at ss m)) (last_id_ t) Hs Hsim' ltac:(by eapply homed_objs; [apply prune_objs|])) as Hs'.
  destruct (IH (S m) _ _ Hs' ltac:(lia)) as (t' & E & Ht'). exists t'. split; [exact E|].
  assert (take (S m) (<[m:=s_prune (spec_at ss m)]> ss) = take m ss ++ [s_prune (spec_at ss m)]) as E1.
  { rewrite (take_S_r _ _ (s_prune (spec_at ss m))) by (apply list_lookup_insert_eq; by eapply lookup_lt_Some). by rewrite take_insert_ge. }
  rewrite E1, drop_insert_lt in Ht' by lia. rewrite <- app_assoc in Ht'. rewrite (drop_S ss (spec_at ss m) m Hsm). exact Ht'.
Qed.

Lemma run_op_sim op t ss : sharded_sim t ss → op_fits op ss → ∃ t', run_op op t = Ok ((spec_op op ss).1, t') ∧ sharded_sim t' (spec_op op ss).2.
Proof.
  intros Hs Hfit. destruct op as [k v chg del|k|[n i]|k|]; cbn [run_op spec_op op_fits] in *.
  - destruct (sharded_get t ss _ Hs (Shard_lt k)) as (c & Hc & _ & Hsim & Hh). destruct Hfit as (H1 & H2 & H3).
    destruct (Insert_sim HashSlice HashSlice_u32 c _ k v chg del Hsim H1 H2 H3) as (c' & E & Hsim'). unfold ShardedInsert, on_shard. rewrite Hc, E. cbn [mbind outcome_bind fst snd].
    eexists. split; [reflexivity|]. apply (sharded_set t ss); [done | done |]. intros o. unfold s_insert. cbn [snd]. rewrite evict_objs.
    destruct (s_find k _) as [old|]; [unfold s_forget; rewrite collect_objs|]; cbn [s_with s_objs]; (intros [Ho| ->%list_elem_of_singleton]%elem_of_app; [by apply Hh | done]).
  - destruct (sharded_get t ss _ Hs (Shard_lt k)) as (c & Hc & _ & Hsim & Hh).
    destruct (Lookup_sim HashSlice HashSlice_u32 c _ k Hsim Hfit) as (c' & E & Hsim'). unfold ShardedLookup, on_shard. rewrite Hc, E. cbn [mbind outcome_bind fst snd].
    eexists. split; [reflexivity|]. apply (sharded_set t ss); [done | done |]. eapply homed_objs; [|exact Hh]. unfold s_lookup. by destruct (s_find k _).
  - destruct (decide (n < 16)%nat) as [Hn|Hn].
    2: { exfalso. destruct Hs as (_ & Hl & _). unfold spec_at in Hfit. rewrite lookup_ge_None_2 in Hfit by lia. by apply elem_of_nil in Hfit. }
    destruct (sharded_get t ss n Hs Hn) as (c & Hc & _ & Hsim & Hh). unfold ShardedRelease, sharded_handle. cbn [fst snd]. rewrite Hc.
    assert (0 < ref_count (spec_at ss n) i) as Hpos by (apply ref_count_live; by right).
    destruct (co_live _ _ _ _ (sim_core _ _ _ _ Hsim) i Hpos) as (h & o & Hlive & Ho & _ & _ & _ & _ & Hha & _). rewrite (handle_at_live c i h Hlive). cbn [mbind outcome_bind].
    rewrite Hha. rewrite bool_decide_true by (apply Hh; by eapply list_elem_of_lookup_2). unfold on_shard. rewrite Hc.
    destruct (Release_sim HashSlice c _ i Hsim Hfit) as (c' & -> & Hsim'). cbn [mbind outcome_bind fst snd]. eexists. split; [reflexivity|].
    apply (sharded_set t ss); [done | done |]. eapply homed_objs; [|exact Hh]. unfold s_release. by rewrite collect_objs.
  - destruct (sharded_get t ss _ Hs (Shard_lt k)) as (c & Hc & _ & Hsim & Hh).
    destruct (Erase_sim HashSlice HashSlice_u32 c _ k Hsim) as (c' & E & Hsim'). unfold ShardedErase, on_shard. rewrite Hc, E. cbn [mbind outcome_bind fst snd].
    eexists. split; [reflexivity|]. apply (sharded_set t ss); [done | done |]. eapply homed_objs; [|exact Hh]. unfold s_erase. destruct (s_find k _); [|done]. unfold s_forget. by rewrite collect_objs.
  - unfold ShardedPrune. destruct (prune_shards 16 0 t ss Hs eq_refl) as (t' & E & Ht'). change (Z.to_nat kNumShards) with 16%nat. rewrite E. cbn [mbind outcome_bind]. by exists t'.
Qed.

Lemma run_ops_sim ops : ∀ t ss, sharded_sim t ss → ops_fit ops ss → ∃ t', run_ops ops t = Ok ((spec_ops ops ss).1, t') ∧ sharded_sim t' (spec_ops ops ss).2.
Proof.
  induction ops as [|op ops IH]; intros t ss Hs Hfit; [by exists t|]. destruct Hfit as [Hop Hfit]. destruct (run_op_sim op t ss Hs Hop) as (t1 & E1 & Hs1).
  destruct (IH t1 _ Hs1 Hfit) as (t2 & E2 & Hs2). exists t2. cbn [run_ops spec_ops fst snd]. rewrite E1. cbn [mbind outcome_bind fst snd]. rewrite E2. done.
Qed.

(** *** Lifetimes

    What every state of the abstract cache satisfies; [spec_base] lets the entry [e] be
    neither referred to nor deleted. *)












(** *** The destructor *)






(** *** Any sequence of calls *)

Definition empty_specs (capacity : Z) : list (spec V D) := replicate 16 (mkSpec (u64 (capacity + 15) / 16) [] [] [] [] 0).

Lemma new_sharded_sim capacity : ∃ t0, new_sharded capacity = Ok t0 ∧ sharded_sim t0 (empty_specs capacity).
Proof.
  unfold new_sharded. change (kNumShards - 1) with 15. change kNumShards with 16. destruct (new_sim (V := V) (D := D) HashSlice (u64 (capacity + 15) / 16)) as (c & -> & Hc). cbn [mbind outcome_bind].
  eexists. split; [reflexivity|]. split; [done|]. split; [done|]. intros n c' s Hc' Hs. cbn [shard_] in Hc'. apply lookup_replicate in Hc' as [-> _]. apply lookup_replicate in Hs as [-> _].
  split; [done|]. intros o Ho. by apply elem_of_nil in Ho.
Qed.
Lemma total_charge_sim t ss : sharded_sim t ss → TotalCharge t = u64 (foldr (λ s acc, s_usage s + acc) 0 ss).
Proof.
  intros (H1 & H2 & H). unfold TotalCharge. assert (Forall2 (λ c s, usage_ c = u64 (s_usage s)) (shard_ t) ss) as Hu.
  { apply Forall2_same_length_lookup. split; [lia|]. intros n c s Hc Hs. destruct (H n c s Hc Hs) as [Hsim _]. apply (co_usage _ _ _ _ (sim_core _ _ _ _ Hsim)). }
  clear H1 H2 H. rewrite <- (Z.add_0_l (foldr _ _ _)).
  assert (∀ a, foldl (λ total c, u64 (total + usage_ c)) (u64 a) (shard_ t) = u64 (a + foldr (λ s acc, s_usage s + acc) 0 ss)) as Hg; [|by apply (Hg 0)].
  induction Hu as [|c s cs ss Hcs _ IH]; intros a; cbn; [by rewrite Z.add_0_r|]. rewrite Hcs.
  assert (u64 (u64 a + u64 (s_usage s)) = u64 (a + s_usage s)) as -> by (unfold u64; by rewrite <- Zplus_mod). rewrite IH. f_equal. lia.
Qed.


#[export] Instance op_fits_dec op ss : Decision (op_fits op ss).
Proof. destruct op as [| |[n i]| |]; cbn; apply _. Defined.
#[export] Instance ops_fit_dec ops : ∀ ss, Decision (ops_fit ops ss).
Proof. induction ops as [|op ops IH]; intros ss; cbn; [apply _|]. apply and_dec; [apply _ | apply IH]. Defined.

(** C22: the sharded LRU cache, with its entries linked in two lists through a heap of
    counted objects, refines sixteen abstract caches: for every capacity and every
    sequence of insertions, lookups, releases, erasures and prunes (in which a client
    releases only handles it holds) each call terminates without touching a freed entry,
    hands out the entry the abstract cache hands out, the value of every handle that is
    held is the one inserted, and TotalCharge is the charge of the entries that are
    cached or held. *)
Theorem cache_refines (capacity : Z) (ops : list cache_op) :
  ops_fit ops (empty_specs capacity) →
  let results := (spec_ops ops (empty_specs capacity)).1 in
  let ss := (spec_ops ops (empty_specs capacity)).2 in
  ∃ t0 t, new_sharded capacity = Ok t0 ∧ run_ops ops t0 = Ok (results, t) ∧
    (∀ n i, i ∈ s_pins (spec_at ss n) → ∃ o, s_objs (spec_at ss n) !! i = Some o ∧ ShardedValue (n, i) t = Ok (o_value o)) ∧
    TotalCharge t = u64 (foldr (λ s acc, s_usage s + acc) 0 ss) ∧
    (∀ n, s_usage (spec_at ss n) = total (spec_at ss n) (ref_count (spec_at ss n))).
Proof.
  intros Hfit results ss. destruct (new_sharded_sim capacity) as (t0 & E0 & H0). destruct (run_ops_sim ops t0 _ H0 Hfit) as (t & E & Ht). fold ss in Ht.
  exists t0, t. split; [done|]. split; [done|]. assert (∀ n, (16 ≤ n)%nat → spec_at ss n = mkSpec 0 [] [] [] [] 0) as Hge.
  { intros n Hn. unfold spec_at. rewrite lookup_ge_None_2; [done|]. destruct Ht as (_ & -> & _). done. }
  split; [|split; [by apply total_charge_sim|]].
  - intros n i Hi. destruct (decide (n < 16)%nat) as [Hn|Hn]; [|rewrite Hge in Hi by lia; by apply elem_of_nil in Hi].
    destruct (sharded_get t ss n Ht Hn) as (c & Hc & _ & Hsim & _). unfold ShardedValue, sharded_handle. cbn [fst snd]. rewrite Hc.
    assert (0 < ref_count (spec_at ss n) i) as Hpos by (apply ref_count_live; by right).
    destruct (co_live _ _ _ _ (sim_core _ _ _ _ Hsim) i Hpos) as (h & o & Hlive & Ho & Hv & _). exists o. split; [done|]. rewrite (handle_at_live c i h Hlive). cbn [mbind outcome_bind]. by rewrite Hv.
  - intros n. destruct (decide (n < 16)%nat) as [Hn|Hn]; [|rewrite Hge by lia; done]. destruct (sharded_get t ss n Ht Hn) as (c & _ & _ & Hsim & _). apply (sim_usage _ _ _ _ Hsim).
Qed.

End sharded.

(** One key, inserted twice while the first handle is held, then evicted by a third
    entry of the same shard. *)
Definition demo_key : list byte := [Byte.x61].
Definition demo_shard : nat := 12.
Definition demo_ops : list (@cache_op Z Z) :=
  [OInsert demo_key 7 1 100; OLookup demo_key; ORelease (demo_shard, 0%nat); OInsert demo_key 8 1 100;
   ORelease (demo_shard, 0%nat); OPrune; ORelease (demo_shard, 1%nat); OInsert demo_key 9 2 101; OErase demo_key; OLookup demo_key].
Lemma cache_refines_witness :
  ops_fit demo_ops (empty_specs 32) ∧
  ∃ t0 t, new_sharded 32 = Ok t0 ∧ run_ops demo_ops t0 = Ok ((spec_ops demo_ops (empty_specs 32)).1, t).
Proof.
  assert (ops_fit demo_ops (empty_specs 32)) as Hfit by (apply (bool_decide_unpack _); vm_compute; exact I).
  split; [exact Hfit|]. destruct (cache_refines 32 demo_ops Hfit) as (t0 & t & E0 & E & _). exists t0, t. split; [exact E0 | exact E].
Defined.
Example demo_results : (spec_ops demo_ops (empty_specs 32)).1 =
  [Some (demo_shard, 0%nat); Some (demo_shard, 0%nat); None; Some (demo_shard, 1%nat); None; None; None; Some (demo_shard, 2%nat); None; None].
Proof. vm_compute. reflexivity. Qed.
