(* ===== verification/Env.v ===== *)
(** * include/leveldb/env.h and util/env.cc: files

    [EnvOps] are the file operations of [Env] and of its file objects, as functions of
    the state of the file system; [EnvLaws] is what they promise where nothing fails.
    The helpers that write and read whole files are verified against the promise.  A
    file object is a handle that stays valid when the file is renamed or deleted. *)
From stdpp Require Import gmap.
From S2P Require Import Prelude.
From S2P Require Import Status.

(** ** Definitions *)

#[export] Instance byte_countable : Countable byte.
Proof.
  apply (inj_countable (λ b, Byte.to_N b) (λ n, Byte.of_N n)). intros b. apply Byte.of_to_N.
Defined.

(** [E] is the file system, [W] a [WritableFile] and [R] a [SequentialFile] with its
    position. *)
Record EnvOps (E W R : Type) := mkEnv {
  NewSequentialFile : list byte → E → E * (status + R);
  NewWritableFile : list byte → E → E * (status + W);
  NewAppendableFile : list byte → E → E * (status + W);
  FileExists : list byte → E → bool;
  GetChildren : list byte → E → status + list (list byte);
  DeleteFile : list byte → E → E * status;
  GetFileSize : list byte → E → status + Z;
  RenameFile : list byte → list byte → E → E * status;
  file_Append : W → list byte → E → E * status;
  file_Close : W → E → E * status;
  file_Flush : W → E → E * status;
  file_Sync : W → E → E * status;
  file_Read : R → Z → E → R * status * list byte;
  file_Skip : R → Z → E → R * status
}.
Arguments NewSequentialFile {E W R} _ _ _.
Arguments NewWritableFile {E W R} _ _ _.
Arguments NewAppendableFile {E W R} _ _ _.
Arguments FileExists {E W R} _ _ _.
Arguments GetChildren {E W R} _ _ _.
Arguments DeleteFile {E W R} _ _ _.
Arguments GetFileSize {E W R} _ _ _.
Arguments RenameFile {E W R} _ _ _ _.
Arguments file_Append {E W R} _ _ _ _.
Arguments file_Close {E W R} _ _ _.
Arguments file_Flush {E W R} _ _ _.
Arguments file_Sync {E W R} _ _ _.
Arguments file_Read {E W R} _ _ _ _.
Arguments file_Skip {E W R} _ _ _ _.

(** The contract: [linked e name w] says that [w] is the file with this name, [data e w]
    are its bytes, [remaining e r] the bytes that [r] has not read. *)
Class EnvLaws {E W R} (env : EnvOps E W R) (linked : E → list byte → W → Prop) (data : E → W → list byte)
    (remaining : E → R → list byte) : Prop := {
  linked_inj e n w w' : linked e n w → linked e n w' → w = w';
  env_writable_ok n e : ∃ e' w, NewWritableFile env n e = (e', inr w) ∧ linked e' n w ∧ data e' w = [] ∧
    ∀ n' w', n' ≠ n → linked e n' w' → w' ≠ w ∧ linked e' n' w' ∧ data e' w' = data e w';
  env_appendable_ok n w e : linked e n w → NewAppendableFile env n e = (e, inr w);
  env_append_ok w d e : ∃ e', file_Append env w d e = (e', status_ok) ∧ data e' w = data e w ++ d ∧
    (∀ w', w' ≠ w → data e' w' = data e w') ∧ ∀ n' w', linked e' n' w' ↔ linked e n' w';
  env_flush_ok w e : file_Flush env w e = (e, status_ok);
  env_sync_ok w e : file_Sync env w e = (e, status_ok);
  env_close_ok w e : file_Close env w e = (e, status_ok);
  env_rename_ok src dst w e : linked e src w → src ≠ dst → ∃ e', RenameFile env src dst e = (e', status_ok) ∧ linked e' dst w ∧
    (∀ w', data e' w' = data e w') ∧ ∀ n' w', n' ≠ src → n' ≠ dst → linked e n' w' → linked e' n' w';
  env_size_ok n w e : linked e n w → GetFileSize env n e = inr (blen (data e w));
  env_sequential_ok n w e : linked e n w → ∃ e' r, NewSequentialFile env n e = (e', inr r) ∧ remaining e' r = data e w ∧
    (∀ w', data e' w' = data e w') ∧ ∀ n' w', linked e' n' w' ↔ linked e n' w';
  env_read_ok r n e : 0 ≤ n → ∃ r', file_Read env r n e = (r', status_ok, take (Z.to_nat n) (remaining e r)) ∧
    remaining e r' = drop (Z.to_nat n) (remaining e r)
}.

Section env.
Context {E W R : Type} (env : EnvOps E W R).

Definition DoWriteStringToFile (data fname : list byte) (should_sync : bool) (e : E) : E * status :=
  match NewWritableFile env fname e with
  | (e, inl s) => (e, s)
  | (e, inr file) =>
      let '(e, s) := file_Append env file data e in
      let '(e, s) := if ok s && should_sync then file_Sync env file e else (e, s) in
      let '(e, s) := if ok s then file_Close env file e else (e, s) in
      if ok s then (e, s) else ((DeleteFile env fname e).1, s)
  end.
Definition WriteStringToFile (data fname : list byte) (e : E) : E * status := DoWriteStringToFile data fname false e.
Definition WriteStringToFileSync (data fname : list byte) (e : E) : E * status := DoWriteStringToFile data fname true e.

Definition kBufferSize : Z := 8192.
(** A round for every buffer and one for the end of the file. *)
Fixpoint read_file_loop (fuel : nat) (file : R) (e : E) (data : list byte) : outcome (status * list byte) :=
  match fuel with
  | O => Blocked
  | S fuel =>
      let '(file, s, fragment) := file_Read env file kBufferSize e in
      if negb (ok s) then Ok (s, data)
      else
        let data := data ++ fragment in
        if blen fragment =? 0 then Ok (s, data) else read_file_loop fuel file e data
  end.
Definition ReadFileToString (fuel : nat) (fname : list byte) (e : E) : outcome (E * status * list byte) :=
  match NewSequentialFile env fname e with
  | (e, inl s) => Ok (e, s, [])
  | (e, inr file) => r ← read_file_loop fuel file e []; Ok (e, r.1, r.2)
  end.
End env.

(** A file system of names and numbered files. *)
Module Fs.
Record fs := mkFs { names : gmap (list byte) nat; nodes : gmap nat (list byte) }.
Definition empty : fs := mkFs ∅ ∅.
Definition node_data (w : nat) (e : fs) : list byte := default [] (nodes e !! w).
Definition not_found (n : list byte) : status := IOError n (str "File not found").
Definition used (e : fs) : gset nat := list_to_set (map snd (map_to_list (names e))).
Definition create (n : list byte) (e : fs) : fs * (status + nat) :=
  let w := fresh (used e) in (mkFs (<[n := w]> (names e)) (<[w := []]> (nodes e)), inr w).
Definition in_dir (dir n : list byte) : bool := bool_decide (take (length dir + 1) n = dir ++ str "/").
Definition with_name {A} (n : list byte) (e : fs) (f : nat → status + A) : status + A :=
  match names e !! n with Some w => f w | None => inl (not_found n) end.
Definition ops : EnvOps fs nat (nat * nat) := mkEnv fs nat (nat * nat)
  (λ n e, (e, with_name n e (λ w, inr (w, 0%nat))))
  create
  (λ n e, match names e !! n with Some w => (e, inr w) | None => create n e end)
  (λ n e, bool_decide (is_Some (names e !! n)))
  (λ dir e, inr (map (drop (length dir + 1)) (filter (λ n, in_dir dir n) (map fst (map_to_list (names e))))))
  (λ n e, match names e !! n with Some _ => (mkFs (delete n (names e)) (nodes e), status_ok) | None => (e, not_found n) end)
  (λ n e, with_name n e (λ w, inr (blen (node_data w e))))
  (λ src dst e, match names e !! src with
                | Some w => (mkFs (delete src (<[dst := w]> (names e))) (nodes e), status_ok)
                | None => (e, not_found src)
                end)
  (λ w d e, (mkFs (names e) (<[w := node_data w e ++ d]> (nodes e)), status_ok))
  (λ _ e, (e, status_ok)) (λ _ e, (e, status_ok)) (λ _ e, (e, status_ok))
  (λ r n e, let d := take (Z.to_nat n) (drop r.2 (node_data r.1 e)) in ((r.1, (r.2 + length d)%nat), status_ok, d))
  (λ r n e, ((r.1, Nat.min (r.2 + Z.to_nat n) (length (node_data r.1 e))), status_ok)).
Definition linked (e : fs) (n : list byte) (w : nat) : Prop := names e !! n = Some w.
Definition remaining (e : fs) (r : nat * nat) : list byte := drop r.2 (node_data r.1 e).
End Fs.

(** ** Lemmas *)

Lemma node_data_insert names w d w' (m : gmap nat (list byte)) :
  Fs.node_data w' (Fs.mkFs names (<[w := d]> m)) = if decide (w' = w) then d else default [] (m !! w').
Proof. unfold Fs.node_data. cbn. case_decide as E; [by rewrite E, lookup_insert_eq | by rewrite lookup_insert_ne]. Qed.

Lemma Fs_create_spec n e : ∃ e' w, Fs.create n e = (e', inr w) ∧ Fs.linked e' n w ∧ Fs.node_data w e' = [] ∧
  ∀ n' w', n' ≠ n → Fs.linked e n' w' → w' ≠ w ∧ Fs.linked e' n' w' ∧ Fs.node_data w' e' = Fs.node_data w' e.
Proof.
  unfold Fs.create. set (w := fresh (Fs.used e)). exists (Fs.mkFs (<[n := w]> (Fs.names e)) (<[w := []]> (Fs.nodes e))), w.
  split; [done|]. split; [apply lookup_insert_eq|]. rewrite node_data_insert, decide_True by done. split; [done|].
  intros n' w' Hn Hl. assert (w' ≠ w) as Hw.
  { intros ->. apply (is_fresh (Fs.used e)). fold w. unfold Fs.used. apply elem_of_list_to_set, list_elem_of_fmap. exists (n', w). split; [done|]. by apply elem_of_map_to_list. }
  split; [done|]. split; [unfold Fs.linked; cbn; by rewrite lookup_insert_ne by done|]. by rewrite node_data_insert, decide_False by done.
Qed.

#[export] Instance Fs_laws : EnvLaws Fs.ops Fs.linked (λ e w, Fs.node_data w e) Fs.remaining.
Proof.
  split; try done.
  - unfold Fs.linked. congruence.
  - intros n e. apply Fs_create_spec.
  - intros n w e Hl. cbn. by rewrite Hl.
  - intros w d e. eexists. split; [reflexivity|]. split; [by rewrite node_data_insert, decide_True|]. split; [|done].
    intros w' Hw. by rewrite node_data_insert, decide_False.
  - intros src dst w e Hl Hne. cbn. rewrite Hl. eexists. split; [reflexivity|]. unfold Fs.linked. cbn. split; [|split; [done|]].
    + rewrite lookup_delete_ne by done. apply lookup_insert_eq.
    + intros n' w' H1 H2 Hl'. by rewrite lookup_delete_ne, lookup_insert_ne.
  - intros n w e Hl. cbn. unfold Fs.with_name. by rewrite Hl.
  - intros n w e Hl. cbn. unfold Fs.with_name. rewrite Hl. by exists e, (w, 0%nat).
  - intros [w p] n e Hn. cbn. eexists. split; [reflexivity|]. unfold Fs.remaining. cbn. rewrite length_take, length_drop, drop_drop.
    destruct (decide (p + Z.to_nat n ≤ length (Fs.node_data w e))%nat); [f_equal; lia | rewrite !drop_ge by lia; done].
Qed.

Section laws.
Context {E W R : Type} (env : EnvOps E W R) (linked : E → list byte → W → Prop) (data : E → W → list byte)
  (remaining : E → R → list byte) `{!EnvLaws env linked data remaining}.

(** A file is written and can be found under its name; the other files stay. *)
Lemma DoWriteStringToFile_ok d n sync e : ∃ e' w, DoWriteStringToFile env d n sync e = (e', status_ok) ∧ linked e' n w ∧ data e' w = d ∧
  ∀ n' w', n' ≠ n → linked e n' w' → w' ≠ w ∧ linked e' n' w' ∧ data e' w' = data e w'.
Proof.
  unfold DoWriteStringToFile. destruct (env_writable_ok n e) as (e1 & w & -> & Hl & Hd & Hf).
  destruct (env_append_ok w d e1) as (e2 & -> & Hd2 & Ho & Hl2). cbn [ok bool_decide]. rewrite env_sync_ok.
  assert ((if ok status_ok && sync then (e2, status_ok) else (e2, status_ok)) = (e2, status_ok)) as -> by by destruct (ok _ && _).
  change (ok status_ok) with true. rewrite env_close_ok. exists e2, w. split; [done|]. split; [by apply Hl2|]. rewrite Hd2, Hd. split; [done|].
  intros n' w' Hn Hl'. destruct (Hf n' w' Hn Hl') as (Hw & H1 & H2). split; [done|]. split; [by apply Hl2|]. by rewrite Ho.
Qed.

Lemma read_file_loop_ok fuel : ∀ r e d, (length (remaining e r) < fuel)%nat → read_file_loop env fuel r e d = Ok (status_ok, d ++ remaining e r).
Proof.
  induction fuel as [|fuel IH]; intros r e d Hf; [lia|]. cbn [read_file_loop].
  destruct (env_read_ok r kBufferSize e ltac:(done)) as (r' & -> & Hr'). change (ok status_ok) with true. cbn [negb].
  destruct (remaining e r) as [|x l] eqn:Er.
  - rewrite take_nil. done.
  - destruct (Z.eqb_spec (blen (take (Z.to_nat kBufferSize) (x :: l))) 0) as [E0|_].
    { unfold blen in E0. rewrite length_take in E0. change (Z.to_nat kBufferSize) with (S 8191) in E0. cbn [length] in E0. lia. }
    rewrite IH, Hr', <- app_assoc, take_drop; [done|]. rewrite Hr', length_drop. change (Z.to_nat kBufferSize) with (S 8191). cbn [length] in *. lia.
Qed.

Lemma ReadFileToString_ok fuel n w e : linked e n w → (length (data e w) < fuel)%nat →
  ∃ e', ReadFileToString env fuel n e = Ok (e', status_ok, data e w) ∧ (∀ w', data e' w' = data e w') ∧ ∀ n' w', linked e' n' w' ↔ linked e n' w'.
Proof.
  intros Hl Hf. unfold ReadFileToString. destruct (env_sequential_ok n w e Hl) as (e' & r & -> & Hr & Hd & Hl'). rewrite read_file_loop_ok by (by rewrite Hr).
  cbn [mbind outcome_bind fst snd]. rewrite Hr. exists e'. done.
Qed.
End laws.
