(* ===== verification/FileName.v ===== *)
(** * db/filename.cc: the names of the files of a database

    Every file of a database has a name that encodes its type and, for most types, a
    number.  [ParseFileName] is shown to be the inverse of the functions that make the
    names, and to accept nothing else than digits before a known suffix.
    [SetCurrentFile] replaces the CURRENT file.  The buffers of [snprintf] hold 100
    bytes, the numbers and suffixes printed into them take less than 50. *)
From S2P Require Import Prelude.
From S2P Require Import Comparator.
From S2P Require Import Status.
From S2P Require Import Env.

(** ** Definitions *)

Module FileName.

Inductive FileType := kLogFile | kDBLockFile | kTableFile | kDescriptorFile | kCurrentFile | kTempFile | kInfoLogFile.

(** [%06llu]. *)
Definition print6 (n : Z) : list byte := let d := decimal n in replicate (6 - length d) (z2b 48) ++ d.

Definition MakeFileName (name : list byte) (number : Z) (suffix : list byte) : list byte :=
  name ++ str "/" ++ print6 number ++ str "." ++ suffix.
Definition LogFileName (name : list byte) (number : Z) : outcome (list byte) :=
  if 0 <? number then Ok (MakeFileName name number (str "log")) else Ub AssertionFailed.
Definition TableFileName (name : list byte) (number : Z) : outcome (list byte) :=
  if 0 <? number then Ok (MakeFileName name number (str "ldb")) else Ub AssertionFailed.
Definition SSTTableFileName (name : list byte) (number : Z) : outcome (list byte) :=
  if 0 <? number then Ok (MakeFileName name number (str "sst")) else Ub AssertionFailed.
Definition DescriptorFileName (dbname : list byte) (number : Z) : outcome (list byte) :=
  if 0 <? number then Ok (dbname ++ str "/MANIFEST-" ++ print6 number) else Ub AssertionFailed.
Definition CurrentFileName (dbname : list byte) : list byte := dbname ++ str "/CURRENT".
Definition LockFileName (dbname : list byte) : list byte := dbname ++ str "/LOCK".
Definition TempFileName (dbname : list byte) (number : Z) : outcome (list byte) :=
  if 0 <? number then Ok (MakeFileName dbname number (str "dbtmp")) else Ub AssertionFailed.
Definition InfoLogFileName (dbname : list byte) : list byte := dbname ++ str "/LOG".
Definition OldInfoLogFileName (dbname : list byte) : list byte := dbname ++ str "/LOG.old".

(** The number and the type, if the name is one of the database's. *)
Definition ParseFileName (fname : list byte) : option (Z * FileType) :=
  let rest := fname in
  if slice_eq rest (str "CURRENT") then Some (0, kCurrentFile)
  else if slice_eq rest (str "LOCK") then Some (0, kDBLockFile)
  else if slice_eq rest (str "LOG") || slice_eq rest (str "LOG.old") then Some (0, kInfoLogFile)
  else if starts_with rest (str "MANIFEST-") then
    match ConsumeDecimalNumber (drop (length (str "MANIFEST-")) rest) with
    | (Some num, []) => Some (num, kDescriptorFile)
    | _ => None
    end
  else
    match ConsumeDecimalNumber rest with
    | (Some num, suffix) =>
        if slice_eq suffix (str ".log") then Some (num, kLogFile)
        else if slice_eq suffix (str ".sst") || slice_eq suffix (str ".ldb") then Some (num, kTableFile)
        else if slice_eq suffix (str ".dbtmp") then Some (num, kTempFile)
        else None
    | (None, _) => None
    end.

Definition SetCurrentFile {E W R} (env : EnvOps E W R) (dbname : list byte) (descriptor_number : Z) (e : E) : outcome (E * status) :=
  manifest ← DescriptorFileName dbname descriptor_number;
  if negb (starts_with manifest (dbname ++ str "/")) then Ub AssertionFailed
  else
    let contents := drop (length dbname + 1) manifest in
    tmp ← TempFileName dbname descriptor_number;
    let '(e, s) := WriteStringToFileSync env (contents ++ [z2b 10]) tmp e in
    let '(e, s) := if ok s then RenameFile env tmp (CurrentFileName dbname) e else (e, s) in
    Ok (if ok s then (e, s) else ((DeleteFile env tmp e).1, s)).

End FileName.

Import FileName.

(** ** Lemmas *)

Lemma decimal_digits n : is_u64 n → ∃ ds, decimal n = map (λ d, z2b (48 + d)) ds ∧ ds ≠ [] ∧ Forall (λ d, 0 ≤ d < 10) ds ∧ digits_value ds 0 = n.
Proof.
  intros [H1 H2]. unfold decimal. destruct (digits_loop_spec 20 n []) as (es & Hes & Hall & Hv & ->); [|lia|].
  { change (10 ^ Z.of_nat 20) with 100000000000000000000. lia. }
  exists es. by rewrite app_nil_r.
Qed.

Definition digits (ds : list Z) : list byte := map (λ d, z2b (48 + d)) ds.

Lemma print6_digits n : is_u64 n → ∃ ds, print6 n = digits ds ∧ ds ≠ [] ∧ Forall (λ d, 0 ≤ d < 10) ds ∧ digits_value ds 0 = n.
Proof.
  intros Hn. destruct (decimal_digits n Hn) as (ds & Ed & Hne & Hall & Hv). exists (replicate (6 - length (decimal n)) 0 ++ ds). unfold print6, digits.
  rewrite map_app, Ed. split; [f_equal; by induction (6 - _)%nat as [|m IH]; [|cbn; rewrite IH]|]. split; [by destruct ds; [|destruct (replicate _ _)]|].
  split; [apply Forall_app; split; [by apply Forall_replicate | done]|]. unfold digits_value. rewrite foldl_app.
  assert (foldl (λ v d, v * 10 + d) 0 (replicate (6 - length (map (λ d, z2b (48 + d)) ds)) 0) = 0) as ->; [|exact Hv].
  by induction (6 - _)%nat as [|m IH].
Qed.

Lemma consume_print6 n rest : is_u64 n → no_digit rest → ConsumeDecimalNumber (print6 n ++ rest) = (Some n, rest).
Proof.
  intros Hn Hr. destruct (print6_digits n Hn) as (ds & -> & Hne & Hall & <-). unfold is_u64 in Hn. apply consume_digits; try done; try lia. by left.
Qed.

Lemma consume_inv inp : ∀ v d n rest, 0 ≤ v < 2 ^ 64 → consume_loop inp v d = (Some n, rest) →
  ∃ ds, inp = digits ds ++ rest ∧ Forall (λ d, 0 ≤ d < 10) ds ∧ digits_value ds v = n ∧ is_u64 n ∧ (0 < d ∨ ds ≠ []).
Proof.
  induction inp as [|c inp IH]; intros v d n rest Hv; cbn [consume_loop].
  - destruct (Z.ltb_spec 0 d); [|done]. intros [= <- <-]. exists []. split; [done|]. split; [constructor|]. split; [done|]. split; [done | by left].
  - destruct ((48 <=? b2c c) && (b2c c <=? 57)) eqn:Ec.
    + apply andb_true_iff in Ec as [E1%Z.leb_le E2%Z.leb_le]. destruct (_ || _) eqn:Eo; [done|]. apply orb_false_iff in Eo as [Eo1%Z.ltb_ge Eo2].
      set (x := b2c c - 48). fold x in Eo2. assert (0 ≤ v * 10 + x < 2 ^ 64) as Hx.
      { unfold kMaxUint64 in *. change ((2 ^ 64 - 1) / 10) with 1844674407370955161 in *. change ((2 ^ 64 - 1) mod 10) with 5 in *.
        apply andb_false_iff in Eo2 as [Eo2%Z.eqb_neq|Eo2%Z.ltb_ge]; lia. }
      rewrite u64_small by done. intros H. destruct (IH _ _ _ _ Hx H) as (ds & -> & Hall & Hd & Hn & _). exists (x :: ds).
      assert (c = z2b (48 + x)) as Ec. { unfold x. replace (48 + (b2c c - 48)) with (b2c c) by lia. apply (inj b2z). rewrite b2z_z2b. unfold b2c, sint in *. pose proof (b2z_range c). dlia. }
      split; [cbn; by rewrite <- Ec|]. split; [constructor; [lia | done]|]. split; [done|]. split; [done | by right].
    + destruct (Z.ltb_spec 0 d); [|done]. intros [= <- <-]. exists []. split; [done|]. split; [constructor|]. split; [done|]. split; [done | by left].
Qed.

Lemma memcmp_take x : ∀ a, (length x ≤ length a)%nat → memcmp a x (length x) = 0 → take (length x) a = x.
Proof.
  induction x as [|c x IH]; intros [|d a] Hl; cbn [memcmp length take] in *; try done; [lia|].
  destruct (Z.ltb_spec (b2z d) (b2z c)); [done|]. destruct (Z.ltb_spec (b2z c) (b2z d)); [done|]. intros Hm. f_equal; [apply (inj b2z); lia | apply IH; [lia | done]].
Qed.
Lemma starts_with_inv a x : starts_with a x = true → a = x ++ drop (length x) a.
Proof.
  unfold starts_with, blen. intros [Hl%Z.leb_le Hm%Z.eqb_eq]%andb_true_iff. rewrite <- (take_drop (length x) a) at 1. f_equal. apply memcmp_take; [lia | done].
Qed.
Lemma slice_neq x y : x ≠ y → slice_eq x y = false.
Proof. intros H. apply not_true_is_false. by intros ?%slice_eq_spec. Qed.

(** A name that starts with a digit is none of the fixed ones. *)
Lemma digits_head ds rest c l : ds ≠ [] → Forall (λ d, 0 ≤ d < 10) ds → 57 < b2z c → digits ds ++ rest ≠ c :: l.
Proof.
  intros Hne Hall Hc. destruct ds as [|d ds]; [done|]. apply Forall_cons in Hall as [Hd _]. cbn. intros [= E _]. apply (f_equal b2z) in E. rewrite b2z_z2b, Z.mod_small in E by lia. lia.
Qed.

Lemma parse_numbered n suffix : is_u64 n → no_digit suffix → ParseFileName (print6 n ++ suffix) =
  if slice_eq suffix (str ".log") then Some (n, kLogFile)
  else if slice_eq suffix (str ".sst") || slice_eq suffix (str ".ldb") then Some (n, kTableFile)
  else if slice_eq suffix (str ".dbtmp") then Some (n, kTempFile)
  else None.
Proof.
  intros Hn Hs. unfold ParseFileName. rewrite consume_print6 by done. destruct (print6_digits n Hn) as (ds & -> & Hne & Hall & _).
  rewrite !slice_neq by (apply (digits_head ds suffix); done). cbn [orb].
  destruct (starts_with _ (str "MANIFEST-")) eqn:E; [|done]. apply starts_with_inv in E. by apply digits_head in E.
Qed.
Lemma parse_manifest n : is_u64 n → ParseFileName (str "MANIFEST-" ++ print6 n) = Some (n, kDescriptorFile).
Proof.
  intros Hn. unfold ParseFileName. rewrite !slice_neq by (vm_compute (str _); done). rewrite starts_with_app. cbn [orb].
  rewrite drop_app_length. pose proof (consume_print6 n [] Hn I) as H. rewrite app_nil_r in H. by rewrite H.
Qed.

(** The names that [ParseFileName] accepts. *)
Definition named (n : Z) (t : FileType) (fname : list byte) : Prop :=
  let numbered prefix suffix := ∃ ds, fname = prefix ++ digits ds ++ suffix ∧ ds ≠ [] ∧ Forall (λ d, 0 ≤ d < 10) ds ∧ digits_value ds 0 = n in
  match t with
  | kCurrentFile => n = 0 ∧ fname = str "CURRENT"
  | kDBLockFile => n = 0 ∧ fname = str "LOCK"
  | kInfoLogFile => n = 0 ∧ (fname = str "LOG" ∨ fname = str "LOG.old")
  | kDescriptorFile => numbered (str "MANIFEST-") []
  | kLogFile => numbered [] (str ".log")
  | kTableFile => numbered [] (str ".sst") ∨ numbered [] (str ".ldb")
  | kTempFile => numbered [] (str ".dbtmp")
  end.

Lemma consume_number inp n rest : ConsumeDecimalNumber inp = (Some n, rest) → is_u64 n ∧
  ∃ ds, inp = digits ds ++ rest ∧ ds ≠ [] ∧ Forall (λ d, 0 ≤ d < 10) ds ∧ digits_value ds 0 = n.
Proof.
  intros H. destruct (consume_inv inp 0 0 n rest ltac:(lia) H) as (ds & E & Hall & Hv & Hn & [|Hne]); [lia|]. split; [done|]. by exists ds.
Qed.

Lemma ParseFileName_sound fname n t : ParseFileName fname = Some (n, t) → is_u64 n ∧ named n t fname.
Proof.
  assert (is_u64 0) as H0 by (unfold is_u64; lia). unfold ParseFileName.
  destruct (slice_eq fname (str "CURRENT")) eqn:E1; [apply slice_eq_spec in E1; by intros [= <- <-]|].
  destruct (slice_eq fname (str "LOCK")) eqn:E2; [apply slice_eq_spec in E2; by intros [= <- <-]|].
  destruct (slice_eq fname (str "LOG") || slice_eq fname (str "LOG.old")) eqn:E3; [apply orb_true_iff in E3 as [E3|E3]; apply slice_eq_spec in E3; intros [= <- <-]; split; try done; split; auto|].
  destruct (starts_with fname (str "MANIFEST-")) eqn:E4.
  - apply starts_with_inv in E4. destruct (ConsumeDecimalNumber _) as [[num|] [|c rest]] eqn:E; try done. intros [= <- <-].
    apply consume_number in E as (Hn & ds & Ed & Hds). split; [done|]. exists ds. split; [by rewrite <- Ed|]. done.
  - destruct (ConsumeDecimalNumber fname) as [[num|] rest] eqn:E; [|done]. apply consume_number in E as (Hn & ds & Ed & Hds).
    destruct (slice_eq rest (str ".log")) eqn:F1; [apply slice_eq_spec in F1; subst rest; intros [= <- <-]; split; [done | by exists ds]|].
    destruct (slice_eq rest (str ".sst")) eqn:F2; [apply slice_eq_spec in F2; subst rest; intros [= <- <-]; split; [done | left; by exists ds]|].
    destruct (slice_eq rest (str ".ldb")) eqn:F3; [apply slice_eq_spec in F3; subst rest; intros [= <- <-]; split; [done | right; by exists ds]|]. cbn [orb].
    destruct (slice_eq rest (str ".dbtmp")) eqn:F4; [apply slice_eq_spec in F4; subst rest; intros [= <- <-]; split; [done | by exists ds]|]. done.
Qed.

Lemma MakeFileName_base name n suffix : MakeFileName name n suffix = name ++ str "/" ++ print6 n ++ str "." ++ suffix.
Proof. done. Qed.

Lemma temp_not_current dbname n suffix : is_u64 n → MakeFileName dbname n suffix ≠ CurrentFileName dbname.
Proof.
  intros Hn. unfold MakeFileName, CurrentFileName. intros E%app_inv_head. destruct (print6_digits n Hn) as (ds & Ed & Hne & Hall & _). rewrite Ed in E.
  apply (f_equal (drop 1)) in E. cbn -[digits app] in E. change (drop 1 (str "/" ++ digits ds ++ str "." ++ suffix)) with (digits ds ++ str "." ++ suffix) in E. by apply digits_head in E.
Qed.

(** CURRENT is replaced as a whole, and no other file of the database is touched. *)
Lemma SetCurrentFile_ok {E W R} (env : EnvOps E W R) linked data remaining `{!EnvLaws env linked data remaining} dbname n e : 0 < n → is_u64 n →
  ∃ e' w, SetCurrentFile env dbname n e = Ok (e', status_ok) ∧ linked e' (CurrentFileName dbname) w ∧
    data e' w = str "MANIFEST-" ++ print6 n ++ [z2b 10] ∧
    ∀ n' w', n' ≠ CurrentFileName dbname → n' ≠ MakeFileName dbname n (str "dbtmp") → linked e n' w' → w' ≠ w ∧ linked e' n' w' ∧ data e' w' = data e w'.
Proof.
  intros Hpos Hn. unfold SetCurrentFile, DescriptorFileName, TempFileName. destruct (Z.ltb_spec 0 n); [|lia]. cbn [mbind outcome_bind].
  change (str "/MANIFEST-") with (str "/" ++ str "MANIFEST-"). rewrite <- (app_assoc (str "/")), (app_assoc dbname), starts_with_app. cbn [negb].
  replace (length dbname + 1)%nat with (length (dbname ++ str "/")) by (rewrite length_app; done). rewrite drop_app_length.
  destruct (DoWriteStringToFile_ok env linked data remaining ((str "MANIFEST-" ++ print6 n) ++ [z2b 10]) (MakeFileName dbname n (str "dbtmp")) true e) as (e1 & w & E1 & Hl & Hd & Hf).
  unfold WriteStringToFileSync. rewrite E1. change (ok status_ok) with true. cbv iota.
  destruct (env_rename_ok (MakeFileName dbname n (str "dbtmp")) (CurrentFileName dbname) w e1 Hl (temp_not_current dbname n _ Hn)) as (e2 & -> & Hl2 & Hd2 & Hf2).
  change (ok status_ok) with true. exists e2, w. split; [done|]. split; [done|]. split; [by rewrite Hd2, Hd, <- app_assoc|].
  intros n' w' H1 H2 Hl'. destruct (Hf n' w' H2 Hl') as (H5 & H3 & H4). split; [done|]. split; [by apply Hf2|]. by rewrite Hd2.
Qed.

(** ** Properties *)

(** C40: The names of the database files.  For every database and every 64-bit number
    other than 0, [ParseFileName] recognises what each of the naming functions puts behind the name of
    the directory, with its number and its type; and whatever [ParseFileName] accepts has
    one of these forms, with a number that fits 64 bits, so a foreign file is never
    taken for a file of the database. *)
Theorem file_names_roundtrip (dbname : list byte) (n : Z) (Hn : is_u64 n) (Hpos : 0 < n) :
  let names f t := ∃ base, f = Ok (dbname ++ str "/" ++ base) ∧ ParseFileName base = Some (n, t) in
  names (LogFileName dbname n) kLogFile ∧ names (TableFileName dbname n) kTableFile ∧ names (SSTTableFileName dbname n) kTableFile ∧
  names (TempFileName dbname n) kTempFile ∧ names (DescriptorFileName dbname n) kDescriptorFile ∧
  (∀ f t, (f, t) ∈ [(CurrentFileName, kCurrentFile); (LockFileName, kDBLockFile); (InfoLogFileName, kInfoLogFile); (OldInfoLogFileName, kInfoLogFile)] →
    ∃ base, f dbname = dbname ++ str "/" ++ base ∧ ParseFileName base = Some (0, t)) ∧
  (∀ fname m t, ParseFileName fname = Some (m, t) → is_u64 m ∧ named m t fname).
Proof.
  intros names. unfold names, LogFileName, TableFileName, SSTTableFileName, TempFileName, DescriptorFileName. destruct (Z.ltb_spec 0 n); [|lia].
  split_and!; try (eexists; split; [reflexivity|]; rewrite parse_numbered; [reflexivity | done | vm_compute; intros [? ?]; done]).
  - exists (str "MANIFEST-" ++ print6 n). split; [done|]. by apply parse_manifest.
  - intros f t Hin. repeat (apply elem_of_cons in Hin as [[= -> ->]|Hin]; [eexists; split; [reflexivity | vm_compute; reflexivity]|]). by apply elem_of_nil in Hin.
  - intros fname m t. apply ParseFileName_sound.
Qed.

Lemma file_names_roundtrip_witness :
  is_u64 17 ∧ 0 < 17 ∧ ∃ base, TableFileName (str "/db") 17 = Ok (str "/db" ++ str "/" ++ base) ∧ ParseFileName base = Some (17, kTableFile).
Proof.
  assert (is_u64 17) as Hn by (unfold is_u64; lia). assert (0 < 17) as Hp by lia. split; [exact Hn|]. split; [exact Hp|].
  exact (proj1 (proj2 (file_names_roundtrip (str "/db") 17 Hn Hp))).
Defined.
