(* ===== verification/Arena.v ===== *)
(** * util/arena.h and util/arena.cc: the allocator of the memtables

    Memory is a range of addresses; [new char[n]] is an operation of the allocator of
    the language, whose result is an argument of the operation that may call it.  The
    arena keeps the unused rest of its last standard block. *)
From S2P Require Import Prelude.

(** ** Definitions *)

Module Arena.

Definition kBlockSize : Z := 4096.

(** [blocks_] keeps the size of a block beside its address. *)
Record arena := mkArena {
  alloc_ptr_ : Z;
  alloc_bytes_remaining_ : Z;
  blocks_ : list (Z * Z);
  memory_usage_ : Z
}.

Definition new : arena := mkArena 0 0 [] 0.
Definition MemoryUsage (a : arena) : Z := memory_usage_ a.

Section allocate.
(** The address [new char[n]] returns if it is called. *)
Context (fresh : Z).

Definition AllocateNewBlock (a : arena) (block_bytes : Z) : arena * Z :=
  (mkArena (alloc_ptr_ a) (alloc_bytes_remaining_ a) (blocks_ a ++ [(fresh, block_bytes)])
     (u64 (MemoryUsage a + block_bytes + 8)), fresh).

Definition AllocateFallback (a : arena) (bytes : Z) : arena * Z :=
  if kBlockSize / 4 <? bytes then AllocateNewBlock a bytes
  else
    let '(a, p) := AllocateNewBlock a kBlockSize in
    (mkArena (p + bytes) (kBlockSize - bytes) (blocks_ a) (memory_usage_ a), p).

Definition Allocate (a : arena) (bytes : Z) : outcome (arena * Z) :=
  if negb (0 <? bytes) then Ub AssertionFailed
  else if bytes <=? alloc_bytes_remaining_ a
  then Ok (mkArena (alloc_ptr_ a + bytes) (alloc_bytes_remaining_ a - bytes) (blocks_ a) (memory_usage_ a),
           alloc_ptr_ a)
  else Ok (AllocateFallback a bytes).

Definition align : Z := 8.

Definition AllocateAligned (a : arena) (bytes : Z) : outcome (arena * Z) :=
  let current_mod := Z.land (alloc_ptr_ a) (align - 1) in
  let slop := if current_mod =? 0 then 0 else align - current_mod in
  let needed := u64 (bytes + slop) in
  let '(a, result) :=
    if needed <=? alloc_bytes_remaining_ a
    then (mkArena (alloc_ptr_ a + needed) (alloc_bytes_remaining_ a - needed) (blocks_ a) (memory_usage_ a),
          alloc_ptr_ a + slop)
    else AllocateFallback a bytes in
  if Z.land result (align - 1) =? 0 then Ok (a, result) else Ub AssertionFailed.

End allocate.

End Arena.
Import Arena.

(** A sequence of requests: whether the aligned operation is called, the size and the
    address that [new] would return.  The results are the ranges in order. *)
Record request := mkRequest { aligned : bool; bytes : Z; fresh : Z }.

Definition serve (a : arena) (r : request) : outcome (arena * Z) :=
  if aligned r then AllocateAligned (fresh r) a (bytes r) else Allocate (fresh r) a (bytes r).

Fixpoint serve_all (a : arena) (rs : list request) : outcome (arena * list (Z * Z)) :=
  match rs with
  | [] => Ok (a, [])
  | r :: rs => p ← serve a r; q ← serve_all p.1 rs; Ok (q.1, (p.2, bytes r) :: q.2)
  end.

(** ** Ranges *)

Definition disjoint_ranges (x y : Z * Z) : Prop := x.1 + x.2 ≤ y.1 ∨ y.1 + y.2 ≤ x.1.
Definition inside (x y : Z * Z) : Prop := y.1 ≤ x.1 ∧ x.1 + x.2 ≤ y.1 + y.2.
Definition pairwise_disjoint (l : list (Z * Z)) : Prop :=
  ∀ i j x y, l !! i = Some x → l !! j = Some y → i ≠ j → disjoint_ranges x y.

(** The size of the block that a request may need. *)
Definition block_size (n : Z) : Z := if kBlockSize / 4 <? n then n else kBlockSize.

(** What [new char[n]] promises: a block of the address space that is aligned for every
    type and that overlaps no other block.  The sizes are positive and far from the end
    of the address space. *)
Definition fresh_ok (blocks : list (Z * Z)) (r : request) : Prop :=
  0 < bytes r < 2 ^ 32 ∧ 0 < fresh r < 2 ^ 63 ∧ fresh r mod 8 = 0 ∧
  ∀ b, b ∈ blocks → disjoint_ranges (fresh r, block_size (bytes r)) b.

(** The promise holds at every call of a run. *)
Fixpoint run_ok (a : arena) (rs : list request) : Prop :=
  match rs with
  | [] => True
  | r :: rs => fresh_ok (blocks_ a) r ∧ ∀ p, serve a r = Ok p → run_ok p.1 rs
  end.

(** ** Lemmas *)

(** The invariant: the ranges handed out so far and the rest of the last block lie in
    blocks and overlap nowhere. *)
Record arena_inv (a : arena) (given : list (Z * Z)) : Prop := mkArenaInv {
  inv_blocks : pairwise_disjoint (blocks_ a);
  inv_given : pairwise_disjoint given;
  inv_inside : ∀ x, x ∈ given → ∃ b, b ∈ blocks_ a ∧ inside x b;
  inv_rest : 0 ≤ alloc_bytes_remaining_ a ∧ 0 ≤ alloc_ptr_ a ∧
    (alloc_bytes_remaining_ a = 0 ∨ ∃ b, b ∈ blocks_ a ∧ inside (alloc_ptr_ a, alloc_bytes_remaining_ a) b);
  inv_free : alloc_bytes_remaining_ a = 0 ∨
    ∀ x, x ∈ given → disjoint_ranges x (alloc_ptr_ a, alloc_bytes_remaining_ a);
  inv_bound : ∀ b, b ∈ blocks_ a → 0 < b.1 ∧ b.1 + b.2 < 2 ^ 63 + 2 ^ 32;
  inv_sizes : ∀ x, x ∈ given → 0 < x.2
}.

Definition total_usage (blocks : list (Z * Z)) : Z := foldr (λ b acc, b.2 + 8 + acc) 0 blocks.

Lemma total_usage_snoc l b : total_usage (l ++ [b]) = total_usage l + (b.2 + 8).
Proof. unfold total_usage. induction l as [|c l IH]; simpl; [lia|]. rewrite IH. lia. Qed.

Lemma disjoint_sym x y : disjoint_ranges x y → disjoint_ranges y x.
Proof. unfold disjoint_ranges. lia. Qed.

Lemma pairwise_snoc l x :
  pairwise_disjoint l → (∀ y, y ∈ l → disjoint_ranges y x) → pairwise_disjoint (l ++ [x]).
Proof.
  intros Hl Hx i j y z Hi Hj Hne.
  apply lookup_app_Some in Hi as [Hi|[Hi Hi']]; apply lookup_app_Some in Hj as [Hj|[Hj Hj']].
  - by apply (Hl i j).
  - apply list_lookup_singleton_Some in Hj' as [Hj' <-]. apply Hx. by eapply list_elem_of_lookup_2.
  - apply list_lookup_singleton_Some in Hi' as [Hi' <-]. apply disjoint_sym, Hx. by eapply list_elem_of_lookup_2.
  - apply list_lookup_singleton_Some in Hi' as [Hi' _], Hj' as [Hj' _]. lia.
Qed.

(** A range inside a block is disjoint from what is disjoint from the block. *)
Lemma inside_disjoint x b y : inside x b → 0 < x.2 → disjoint_ranges y b → disjoint_ranges x y.
Proof. unfold inside, disjoint_ranges. lia. Qed.

Ltac ranges := unfold disjoint_ranges, inside in *; cbn [fst snd] in *; lia.

(** Taking [n] bytes of the rest after [slop] wasted ones. *)
Lemma take_rest a given slop n :
  arena_inv a given → 0 ≤ slop → 0 < n → slop + n ≤ alloc_bytes_remaining_ a →
  arena_inv (mkArena (alloc_ptr_ a + (slop + n)) (alloc_bytes_remaining_ a - (slop + n)) (blocks_ a) (memory_usage_ a))
    (given ++ [(alloc_ptr_ a + slop, n)]).
Proof.
  intros [Hb Hg Hi (Hr0 & Hp0 & Hr) Hf Hbd Hsz] Hs Hn Hle.
  destruct Hr as [|(b & Hb' & Hin)]; [lia|]. destruct Hf as [|Hf]; [lia|].
  split; cbn [alloc_ptr_ alloc_bytes_remaining_ blocks_]; [done | | | | | done | ].
  - apply pairwise_snoc; [done|]. intros y Hy. specialize (Hf y Hy). specialize (Hsz y Hy). ranges.
  - intros x [Hx| ->%list_elem_of_singleton]%elem_of_app; [by apply Hi|]. exists b. split; [done | ranges].
  - split; [lia|]. split; [lia|]. right. exists b. split; [done | ranges].
  - right. intros x [Hx| ->%list_elem_of_singleton]%elem_of_app; [specialize (Hf x Hx)|]; ranges.
  - intros x [Hx| ->%list_elem_of_singleton]%elem_of_app; [by apply Hsz | done].
Qed.

(** A new block: everything handed out before is disjoint from it. *)
Lemma new_block_disjoint a given f n x :
  arena_inv a given → (∀ b, b ∈ blocks_ a → disjoint_ranges (f, n) b) → x ∈ given → disjoint_ranges x (f, n).
Proof.
  intros [_ _ Hi _ _ _ Hsz] Hf Hx. destruct (Hi x Hx) as (b & Hb & Hin).
  eapply inside_disjoint; [exact Hin | by apply Hsz | by apply Hf].
Qed.

Lemma add_block a given f size n mu :
  arena_inv a given → 0 < n ≤ size → 0 < f < 2 ^ 63 → size < 2 ^ 32 →
  (∀ b, b ∈ blocks_ a → disjoint_ranges (f, size) b) →
  arena_inv (mkArena (alloc_ptr_ a) (alloc_bytes_remaining_ a) (blocks_ a ++ [(f, size)]) mu)
    (given ++ [(f, n)]).
Proof.
  intros Hinv Hn Hf Hsize Hd.
  assert (∀ x, x ∈ given → disjoint_ranges x (f, size)) as Hgd by (intros; by eapply new_block_disjoint).
  destruct Hinv as [Hb Hg Hi (Hr0 & Hp0 & Hr) Hfr Hbd Hsz].
  split; cbn [alloc_ptr_ alloc_bytes_remaining_ blocks_].
  - apply pairwise_snoc; [done|]. intros y Hy. by apply disjoint_sym, Hd.
  - apply pairwise_snoc; [done|]. intros y Hy. specialize (Hgd y Hy). ranges.
  - intros x [Hx| ->%list_elem_of_singleton]%elem_of_app.
    + destruct (Hi x Hx) as (b & ? & ?). exists b. split; [apply elem_of_app; by left | done].
    + exists (f, size). split; [apply elem_of_app; right; by apply list_elem_of_singleton | ranges].
  - split; [done|]. split; [done|]. destruct Hr as [|(b & ? & ?)]; [by left|]. right. exists b.
    split; [apply elem_of_app; by left | done].
  - destruct (decide (alloc_bytes_remaining_ a = 0)) as [|Hne]; [by left|]. right.
    destruct Hr as [|(b & Hbb & Hin)]; [done|]. destruct Hfr as [|Hfr]; [done|].
    intros x [Hx| ->%list_elem_of_singleton]%elem_of_app; [by apply Hfr|]. specialize (Hd b Hbb). ranges.
  - intros b [Hx| ->%list_elem_of_singleton]%elem_of_app; [by apply Hbd | cbn [fst snd]; lia].
  - intros x [Hx| ->%list_elem_of_singleton]%elem_of_app; [by apply Hsz | cbn [fst snd]; lia].
Qed.

(** A new standard block becomes the rest. *)
Lemma replace_rest a given f n mu :
  arena_inv a given → 0 < n ≤ kBlockSize → 0 < f < 2 ^ 63 →
  (∀ b, b ∈ blocks_ a → disjoint_ranges (f, kBlockSize) b) →
  arena_inv (mkArena (f + n) (kBlockSize - n) (blocks_ a ++ [(f, kBlockSize)]) mu) (given ++ [(f, n)]).
Proof.
  intros Hinv Hn Hf Hd.
  assert (∀ x, x ∈ given → disjoint_ranges x (f, kBlockSize)) as Hgd by (intros; by eapply new_block_disjoint).
  destruct (add_block a given f kBlockSize n mu Hinv Hn Hf ltac:(done) Hd) as [Hb Hg Hi _ _ Hbd Hsz].
  split; try done; cbn [alloc_ptr_ alloc_bytes_remaining_ blocks_] in *.
  - split; [lia|]. split; [lia|]. right. exists (f, kBlockSize).
    split; [apply elem_of_app; right; by apply list_elem_of_singleton | ranges].
  - right. intros x [Hx| ->%list_elem_of_singleton]%elem_of_app; [|ranges]. specialize (Hgd x Hx). ranges.
Qed.

(** Memory usage: the sizes of the blocks and of the pointers to them. *)
Definition usage_ok (a : arena) : Prop := memory_usage_ a = u64 (total_usage (blocks_ a)).

Lemma usage_add a f n :
  usage_ok a → u64 (MemoryUsage a + n + 8) = u64 (total_usage (blocks_ a ++ [(f, n)])).
Proof.
  unfold usage_ok, MemoryUsage. intros ->. rewrite total_usage_snoc. unfold u64. cbn [snd].
  rewrite <- Z.add_assoc, Zplus_mod_idemp_l. done.
Qed.

Lemma AllocateFallback_spec a given r :
  arena_inv a given → usage_ok a → fresh_ok (blocks_ a) r →
  let '(a', p) := AllocateFallback (fresh r) a (bytes r) in
  p = fresh r ∧ arena_inv a' (given ++ [(p, bytes r)]) ∧ usage_ok a'.
Proof.
  intros Hinv Hu (Hn & Hf & _ & Hd). unfold block_size in Hd. unfold AllocateFallback, AllocateNewBlock.
  change (kBlockSize / 4) with 1024 in *.
  destruct (Z.ltb_spec 1024 (bytes r)); (split; [done|]); split.
  - apply add_block; try done; lia.
  - unfold usage_ok. cbn [memory_usage_ blocks_]. by apply usage_add.
  - cbn [blocks_ memory_usage_]. apply replace_rest; try done; unfold kBlockSize; lia.
  - unfold usage_ok. cbn [memory_usage_ blocks_]. by apply usage_add.
Qed.

Lemma land_7 z : Z.land z (align - 1) = z mod 8.
Proof. change (align - 1) with (Z.ones 3). by rewrite Z.land_ones by lia. Qed.

(** Every request is served, whatever has been allocated before. *)
Lemma Allocate_total f a n : 0 < n → ∃ r, Allocate f a n = Ok r.
Proof.
  intros Hn. unfold Allocate. destruct (Z.ltb_spec 0 n); [|lia]. cbn [negb].
  destruct (n <=? alloc_bytes_remaining_ a); by eexists.
Qed.

Lemma AllocateAligned_total f a n : f mod 8 = 0 → ∃ r, AllocateAligned f a n = Ok r.
Proof.
  intros Hf. unfold AllocateAligned. rewrite land_7.
  assert ((alloc_ptr_ a + (if alloc_ptr_ a mod 8 =? 0 then 0 else align - alloc_ptr_ a mod 8)) mod 8 = 0) as Hs.
  { unfold align. destruct (Z.eqb_spec (alloc_ptr_ a mod 8) 0); dlia. }
  cbv zeta. destruct (_ <=? alloc_bytes_remaining_ a).
  - rewrite land_7, Hs. by eexists.
  - assert (∃ a', AllocateFallback f a n = (a', f)) as [a' ->].
    { unfold AllocateFallback, AllocateNewBlock. destruct (_ <? n); by eexists. }
    rewrite land_7, Hf. by eexists.
Qed.

Lemma serve_spec a given r :
  arena_inv a given → usage_ok a → fresh_ok (blocks_ a) r →
  ∃ a' p, serve a r = Ok (a', p) ∧ arena_inv a' (given ++ [(p, bytes r)]) ∧ usage_ok a' ∧
    (aligned r = true → p mod 8 = 0).
Proof.
  intros Hinv Hu Hf. pose proof (AllocateFallback_spec a given r Hinv Hu Hf) as Hfb.
  pose proof Hf as (Hn & Hfr & Hal & _). pose proof (inv_rest _ _ Hinv) as (Hr0 & Hp0 & Hr).
  unfold serve. destruct (aligned r).
  - unfold AllocateAligned. rewrite land_7.
    assert (∃ slop, (if alloc_ptr_ a mod 8 =? 0 then 0 else align - alloc_ptr_ a mod 8) = slop ∧ 0 ≤ slop < 8 ∧
      (alloc_ptr_ a + slop) mod 8 = 0) as (slop & -> & Hs & Hsm).
    { eexists. split; [reflexivity|]. unfold align. destruct (Z.eqb_spec (alloc_ptr_ a mod 8) 0); split; dlia. }
    rewrite u64_small by (unfold is_u64; lia).
    destruct (Z.leb_spec (bytes r + slop) (alloc_bytes_remaining_ a)).
    + rewrite land_7, Hsm. cbn [Z.eqb]. eexists _, _. split; [reflexivity|]. split; [|by split].
      replace (bytes r + slop) with (slop + bytes r) by lia. apply take_rest; try done; lia.
    + destruct (AllocateFallback (fresh r) a (bytes r)) as [a' p]. destruct Hfb as (-> & Hi & Hu').
      rewrite land_7, Hal. cbn [Z.eqb]. exists a', (fresh r). auto.
  - unfold Allocate. destruct (Z.ltb_spec 0 (bytes r)); [|lia]. cbn [negb].
    destruct (Z.leb_spec (bytes r) (alloc_bytes_remaining_ a)).
    + eexists _, _. split; [reflexivity|]. split; [|by split].
      pose proof (take_rest a given 0 (bytes r) Hinv ltac:(lia) ltac:(lia) ltac:(lia)) as Ht.
      by rewrite Z.add_0_r in Ht.
    + destruct (AllocateFallback (fresh r) a (bytes r)) as [a' p]. destruct Hfb as (-> & Hi & Hu').
      exists a', (fresh r). auto.
Qed.

Lemma serve_all_spec rs : ∀ a given, arena_inv a given → usage_ok a → run_ok a rs →
  ∃ a' out, serve_all a rs = Ok (a', out) ∧ arena_inv a' (given ++ out) ∧ usage_ok a' ∧
    map snd out = map bytes rs ∧
    ∀ i r x, rs !! i = Some r → out !! i = Some x → aligned r = true → x.1 mod 8 = 0.
Proof.
  induction rs as [|r rs IH]; intros a given Hi Hu Hok.
  { exists a, []. rewrite app_nil_r. done. }
  destruct Hok as [Hf Hok]. destruct (serve_spec a given r Hi Hu Hf) as (a1 & p & E & Hi1 & Hu1 & Hal).
  destruct (IH a1 (given ++ [(p, bytes r)]) Hi1 Hu1 (Hok _ E)) as (a2 & out & E2 & Hi2 & Hu2 & Hb & Hal2).
  exists a2, ((p, bytes r) :: out). cbn [serve_all]. rewrite E. cbn [mbind outcome_bind fst snd]. rewrite E2.
  split; [done|]. rewrite <- app_assoc in Hi2. split; [done|]. split; [done|].
  split; [simpl; by rewrite Hb|]. intros [|i] r' x; simpl; [intros [= <-] [= <-]; by apply Hal | apply Hal2].
Qed.

Lemma arena_new_inv : arena_inv new [].
Proof.
  assert (pairwise_disjoint []) by (intros i j x y Hx; by rewrite lookup_nil in Hx).
  split; try done; cbn [new blocks_ alloc_ptr_ alloc_bytes_remaining_]; try (by left); try (by intros x ?%elem_of_nil).
  split; [done|]. split; [done|]. by left.
Qed.

(** ** Properties *)

(** The arena hands out memory that nobody else uses.  For every sequence of
    requests, as long as [new] returns fresh blocks, every request is served with its
    size, the assertion on the alignment holds, the ranges handed out lie inside
    allocated blocks and never overlap, aligned requests get multiples of eight, and
    the usage is the sum of the blocks and of the pointers that keep them. *)
Lemma arena_ranges_disjoint (rs : list request) (Hok : run_ok new rs) :
  ∃ a out, serve_all new rs = Ok (a, out) ∧ map snd out = map bytes rs ∧
    pairwise_disjoint out ∧ (∀ x, x ∈ out → ∃ b, b ∈ blocks_ a ∧ inside x b) ∧
    (∀ i r x, rs !! i = Some r → out !! i = Some x → aligned r = true → x.1 mod 8 = 0) ∧
    MemoryUsage a = u64 (total_usage (blocks_ a)).
Proof.
  destruct (serve_all_spec rs new [] arena_new_inv ltac:(done) Hok) as (a & out & E & [_ Hg Hi _ _ _ _] & Hu & Hb & Hal).
  by exists a, out.
Qed.

