(* ===== verification/FilterBlock.v ===== *)
(** * table/filter_block.cc: the filters of a table file

    [FilterBlockBuilder] makes one filter for every 2 KiB of file offsets,
    [FilterBlockReader] finds the filter of a data block.  The filter policy is the
    abstract class, used through its contract. *)
From S2P Require Import Prelude.
From S2P Require Import Coding.
From S2P Require Import Interfaces.
From S2P Require Import Bloom.

(** ** Definitions *)

Definition kFilterBaseLg : Z := 11.
Definition kFilterBase : Z := Z.shiftl 1 kFilterBaseLg.

Record FilterBlockBuilder := mkBuilder {
  keys_ : list byte;
  start_ : list Z;
  result_ : list byte;
  filter_offsets_ : list Z
}.

Definition new_builder : FilterBlockBuilder := mkBuilder [] [] [] [].

(** [tmp_keys_]: the slices between consecutive starting indices. *)
Fixpoint slices (keys : list byte) (start : list Z) : list (list byte) :=
  match start with
  | s :: ((e :: _) as start') =>
      take (Z.to_nat (e - s)) (drop (Z.to_nat s) keys) :: slices keys start'
  | _ => []
  end.

Definition GenerateFilter (policy : FilterPolicy) (b : FilterBlockBuilder) : outcome FilterBlockBuilder :=
  let num_keys := length (start_ b) in
  if (num_keys =? 0)%nat
  then Ok (mkBuilder (keys_ b) (start_ b) (result_ b) (filter_offsets_ b ++ [u32 (blen (result_ b))]))
  else
    let start := start_ b ++ [blen (keys_ b)] in
    let tmp_keys := slices (keys_ b) start in
    let offsets := filter_offsets_ b ++ [u32 (blen (result_ b))] in
    result ← CreateFilter policy tmp_keys (result_ b);
    Ok (mkBuilder [] [] result offsets).

(** The loop of [StartBlock]: one more filter in every round. *)
Fixpoint start_loop (fuel : nat) (policy : FilterPolicy) (filter_index : Z) (b : FilterBlockBuilder)
    : outcome FilterBlockBuilder :=
  match fuel with
  | O => Ok b
  | S fuel =>
      if blen (filter_offsets_ b) <? filter_index
      then b ← GenerateFilter policy b; start_loop fuel policy filter_index b
      else Ok b
  end.
Definition StartBlock (policy : FilterPolicy) (b : FilterBlockBuilder) (block_offset : Z)
    : outcome FilterBlockBuilder :=
  let filter_index := block_offset / kFilterBase in
  if filter_index <? blen (filter_offsets_ b) then Ub AssertionFailed
  else start_loop (Z.to_nat (filter_index - blen (filter_offsets_ b))) policy filter_index b.

Definition AddKey (b : FilterBlockBuilder) (key : list byte) : FilterBlockBuilder :=
  mkBuilder (keys_ b ++ key) (start_ b ++ [blen (keys_ b)]) (result_ b) (filter_offsets_ b).

Definition Finish (policy : FilterPolicy) (b : FilterBlockBuilder) : outcome (list byte) :=
  b ← (if (length (start_ b) =? 0)%nat then Ok b else GenerateFilter policy b);
  let array_offset := u32 (blen (result_ b)) in
  let result := foldl PutFixed32 (result_ b) (filter_offsets_ b) in
  let result := PutFixed32 result array_offset in
  Ok (result ++ [z2b kFilterBaseLg]).

(** The reader: [data_] and [offset_] are the contents and an index into them; [None]
    stands for the null pointers. *)
Record FilterBlockReader := mkFReader {
  data_ : option (list byte * Z);
  num_ : Z;
  base_lg_ : Z
}.

Definition new_reader (contents : list byte) : outcome FilterBlockReader :=
  let n := blen contents in
  if n <? 5 then Ok (mkFReader None 0 0)
  else
    match contents !! Z.to_nat (n - 1) with
    | None => Ub OutOfBounds
    | Some c =>
        let base_lg := u64 (b2c c) in
        last_word ← DecodeFixed32 (drop (Z.to_nat (n - 5)) contents);
        if n - 5 <? last_word then Ok (mkFReader None 0 base_lg)
        else Ok (mkFReader (Some (contents, last_word)) ((n - 5 - last_word) / 4) base_lg)
    end.

(** A shift by 64 bits or more is undefined. *)
Definition reader_KeyMayMatch (policy : FilterPolicy) (r : FilterBlockReader) (block_offset : Z)
    (key : list byte) : outcome bool :=
  if 64 <=? base_lg_ r then Ub BadShift
  else
    let index := Z.shiftr block_offset (base_lg_ r) in
    if index <? num_ r then
      match data_ r with
      | None => Ub NullDeref
      | Some (data, offset) =>
          start ← DecodeFixed32 (drop (Z.to_nat (offset + index * 4)) data);
          limit ← DecodeFixed32 (drop (Z.to_nat (offset + index * 4 + 4)) data);
          if (start <=? limit) && (limit <=? offset)
          then KeyMayMatch policy key (take (Z.to_nat (limit - start)) (drop (Z.to_nat start) data))
          else if start =? limit then Ok false
          else Ok true
      end
    else Ok true.

(** The calls a table makes: for every data block a [StartBlock] and its [AddKey]s, and
    one [Finish]. *)
Fixpoint add_blocks (policy : FilterPolicy) (b : FilterBlockBuilder) (blocks : list (Z * list (list byte)))
    : outcome FilterBlockBuilder :=
  match blocks with
  | [] => Ok b
  | (offset, keys) :: blocks =>
      b ← StartBlock policy b offset;
      add_blocks policy (foldl AddKey b keys) blocks
  end.
Definition build (policy : FilterPolicy) (blocks : list (Z * list (list byte))) : outcome (list byte) :=
  b ← add_blocks policy new_builder blocks; Finish policy b.

(** ** Lemmas *)

(** The offsets at which the elements of a concatenation start. *)
Fixpoint starts {A} (at_ : Z) (ls : list (list A)) : list Z :=
  match ls with [] => [] | l :: ls => at_ :: starts (at_ + blen l) ls end.

Lemma starts_snoc {A} at_ (ls : list (list A)) l :
  starts at_ (ls ++ [l]) = starts at_ ls ++ [at_ + blen (concat ls)].
Proof.
  revert at_. induction ls as [|x ls IH]; intros at_; simpl.
  - by rewrite Z.add_0_r.
  - by rewrite IH, blen_app, Z.add_assoc.
Qed.

Lemma length_starts {A} at_ (ls : list (list A)) : length (starts at_ ls) = length ls.
Proof. revert at_. induction ls; intros; simpl; auto. Qed.

Lemma starts_lookup {A} at_ (ls : list (list A)) i :
  (i < length ls)%nat → starts at_ ls !! i = Some (at_ + blen (concat (take i ls))).
Proof.
  revert at_ i. induction ls as [|x ls IH]; intros at_ [|i] Hi; simpl in *; try lia.
  - by rewrite Z.add_0_r.
  - rewrite IH by lia. by rewrite blen_app, Z.add_assoc.
Qed.

Lemma slices_cons keys s e l :
  slices keys (s :: e :: l) = take (Z.to_nat (e - s)) (drop (Z.to_nat s) keys) :: slices keys (e :: l).
Proof. done. Qed.

(** Cutting the flattened keys at their starting indices gives the keys. *)
Lemma slices_starts pre ls :
  slices (pre ++ concat ls) (starts (blen pre) ls ++ [blen pre + blen (concat ls)]) = ls.
Proof.
  revert pre. induction ls as [|l ls IH]; intros pre; [done|].
  assert (slices (pre ++ concat (l :: ls)) (starts (blen pre + blen l) ls ++ [blen pre + blen (concat (l :: ls))]) = ls) as E.
  { specialize (IH (pre ++ l)). rewrite blen_app, <- app_assoc in IH.
    simpl concat. by rewrite blen_app, Z.add_assoc. }
  simpl starts. cbn [app].
  assert (∃ s, starts (blen pre + blen l) ls ++ [blen pre + blen (concat (l :: ls))] =
    (blen pre + blen l) :: s) as [s Es].
  { destruct ls as [|l' ls]; simpl; [|by eexists]. exists []. by rewrite app_nil_r. }
  rewrite Es in *. rewrite slices_cons, E. f_equal. simpl concat.
  replace (blen pre + blen l - blen pre) with (blen l) by lia. unfold blen.
  by rewrite !Nat2Z.id, drop_app_length, take_app_length.
Qed.

Section filter_block.
Context (policy : FilterPolicy) (size_ok : list (list byte) → Prop) `{!FilterLaws size_ok policy}.

(** [fs] are filters for the lists of keys [gs]. *)
Definition filters_of (gs : list (list (list byte))) (fs : list (list byte)) : Prop :=
  Forall2 (λ g f, ∀ key, key ∈ g → KeyMayMatch policy key f = Ok true) gs fs.

(** The builder has made filters for [gs] and holds the keys [ks] of the next one. *)
Definition builder_ok (b : FilterBlockBuilder) (gs : list (list (list byte))) (ks : list (list byte)) : Prop :=
  ∃ fs, filters_of gs fs ∧ result_ b = concat fs ∧ filter_offsets_ b = map u32 (starts 0 fs) ∧
    keys_ b = concat ks ∧ start_ b = starts 0 ks.

Lemma builder_ok_length b gs ks : builder_ok b gs ks → blen (filter_offsets_ b) = blen gs.
Proof.
  intros (fs & Hf & _ & -> & _). unfold blen. by rewrite length_map, length_starts, (Forall2_length _ _ _ Hf).
Qed.

Lemma GenerateFilter_spec b gs ks :
  builder_ok b gs ks → (ks ≠ [] → size_ok ks) →
  ∃ b', GenerateFilter policy b = Ok b' ∧ builder_ok b' (gs ++ [ks]) [].
Proof.
  intros (fs & Hf & Hr & Ho & Hk & Hs) Hok. unfold GenerateFilter. rewrite Hs, length_starts.
  assert (map u32 (starts 0 fs) ++ [u32 (blen (concat fs))] = map u32 (starts 0 (fs ++ [([] : list byte)]))) as Ho'.
  { rewrite starts_snoc, map_app, Z.add_0_l. done. }
  destruct ks as [|k ks]; cbn [length Nat.eqb].
  - eexists. split; [done|]. exists (fs ++ [[]]). split; [|split; [|split]].
    + apply Forall2_app; [done|]. repeat constructor. by intros key ?%not_elem_of_nil.
    + cbn [result_]. by rewrite concat_app, Hr, app_nil_r.
    + cbn [filter_offsets_]. by rewrite Ho, Hr, Ho'.
    + cbn [keys_ start_]. done.
  - specialize (Hok ltac:(done)). pose proof (slices_starts [] (k :: ks)) as E.
    change (blen (@nil byte)) with 0 in E. rewrite Z.add_0_l in E. rewrite app_nil_l in E.
    rewrite Hk, E. destruct (filter_matches (k :: ks) (result_ b) Hok) as (f & -> & Hm).
    cbn [mbind outcome_bind]. eexists. split; [done|]. exists (fs ++ [f]). split; [|split; [|split]].
    + apply Forall2_app; [done|]. by repeat constructor.
    + cbn [result_]. by rewrite concat_app, Hr, concat_cons, concat_nil, app_nil_r.
    + cbn [filter_offsets_]. by rewrite Ho, Hr, starts_snoc, map_app, Z.add_0_l.
    + cbn [keys_ start_]. done.
Qed.

(** The key is in, or will be put into, filter number [i]. *)
Definition placed (gs : list (list (list byte))) (ks : list (list byte)) (i : nat) (key : list byte) : Prop :=
  (∃ g, gs !! i = Some g ∧ key ∈ g) ∨ (i = length gs ∧ key ∈ ks).

Lemma placed_generate gs ks i key : placed gs ks i key → placed (gs ++ [ks]) [] i key.
Proof.
  intros [(g & Hg & Hk)|[-> Hk]]; left.
  - exists g. split; [by apply lookup_app_l_Some | done].
  - exists ks. split; [by apply list_lookup_middle | done].
Qed.

Lemma start_loop_spec fuel b gs ks index :
  builder_ok b gs ks → (ks ≠ [] → size_ok ks) → Z.of_nat fuel = index - blen gs →
  ∃ b' gs' ks', start_loop fuel policy index b = Ok b' ∧ builder_ok b' gs' ks' ∧
    blen gs' = index ∧ (length ks' ≤ length ks)%nat ∧
    (∀ i key, placed gs ks i key → placed gs' ks' i key).
Proof.
  revert b gs ks. induction fuel as [|fuel IH]; intros b gs ks Hb Hok Hfuel; cbn [start_loop].
  - exists b, gs, ks. split_and!; [done | done | lia | done | done].
  - rewrite (builder_ok_length _ _ _ Hb). destruct (Z.ltb_spec (blen gs) index); [|lia].
    destruct (GenerateFilter_spec b gs ks Hb Hok) as (b1 & -> & Hb1). cbn [mbind outcome_bind].
    destruct (IH b1 (gs ++ [ks]) [] Hb1 ltac:(done)) as (b2 & gs2 & ks2 & -> & Hb2 & Hl & Hk & Hp).
    { rewrite blen_app. change (blen [ks]) with 1. lia. }
    exists b2, gs2, ks2. split_and!; [done | done | done | simpl in Hk; lia |].
    intros i key Hpl. apply Hp. by apply placed_generate.
Qed.

Lemma AddKey_spec b gs ks key :
  builder_ok b gs ks → builder_ok (AddKey b key) gs (ks ++ [key]).
Proof.
  intros (fs & Hf & Hr & Ho & Hk & Hs). exists fs. unfold AddKey. cbn [result_ filter_offsets_ keys_ start_].
  split; [done|]. split; [done|]. split; [done|].
  rewrite concat_app, concat_cons, concat_nil, app_nil_r, Hk, Hs, starts_snoc. by rewrite Z.add_0_l.
Qed.

Lemma AddKeys_spec b gs ks keys :
  builder_ok b gs ks → builder_ok (foldl AddKey b keys) gs (ks ++ keys).
Proof.
  revert b ks. induction keys as [|k keys IH]; intros b ks Hb; simpl; [by rewrite app_nil_r|].
  apply AddKey_spec with (key := k), IH in Hb. by rewrite <- app_assoc in Hb.
Qed.

(** Block offsets in the order of the file. *)
Fixpoint ascending (from : Z) (blocks : list (Z * list (list byte))) : Prop :=
  match blocks with
  | [] => True
  | (off, _) :: blocks => from ≤ off ∧ ascending off blocks
  end.

Definition total_keys (blocks : list (Z * list (list byte))) : nat := length (concat (map snd blocks)).

Lemma kFilterBase_value : kFilterBase = 2048.
Proof. done. Qed.

Lemma add_blocks_spec blocks b gs ks from :
  builder_ok b gs ks → ascending from blocks → 0 ≤ from → blen gs ≤ from / kFilterBase →
  (∀ l, (length l ≤ length ks + total_keys blocks)%nat → size_ok l) →
  ∃ b' gs' ks', add_blocks policy b blocks = Ok b' ∧ builder_ok b' gs' ks' ∧
    (length ks' ≤ length ks + total_keys blocks)%nat ∧
    (∀ i key, placed gs ks i key → placed gs' ks' i key) ∧
    (∀ off keys key, (off, keys) ∈ blocks → key ∈ keys →
       placed gs' ks' (Z.to_nat (off / kFilterBase)) key).
Proof.
  revert b gs ks from. induction blocks as [|[off keys] blocks IH]; intros b gs ks from Hb Hasc Hfrom Hgs Hok.
  - exists b, gs, ks. split_and!; [done | done | unfold total_keys; simpl; lia | done |].
    by intros off keys key ?%not_elem_of_nil.
  - destruct Hasc as [Hoff Hasc]. rewrite kFilterBase_value in *.
    assert (from / 2048 ≤ off / 2048) by (apply Z.div_le_mono; lia).
    assert (total_keys ((off, keys) :: blocks) = length keys + total_keys blocks)%nat as Htot.
    { unfold total_keys. simpl. by rewrite length_app. }
    rewrite Htot in *. cbn [add_blocks]. unfold StartBlock. rewrite (builder_ok_length _ _ _ Hb), kFilterBase_value.
    destruct (Z.ltb_spec (off / 2048) (blen gs)); [lia|].
    destruct (start_loop_spec (Z.to_nat (off / 2048 - blen gs)) b gs ks (off / 2048) Hb)
      as (b1 & gs1 & ks1 & -> & Hb1 & Hl1 & Hk1 & Hp1); [intros _; apply Hok; lia | lia |].
    cbn [mbind outcome_bind].
    destruct (IH (foldl AddKey b1 keys) gs1 (ks1 ++ keys) off) as (b2 & gs2 & ks2 & -> & Hb2 & Hk2 & Hp2 & Hin2).
    + by apply AddKeys_spec.
    + done.
    + lia.
    + lia.
    + intros l Hl. apply Hok. rewrite length_app in Hl. lia.
    + assert (∀ i key, placed gs1 ks1 i key → placed gs1 (ks1 ++ keys) i key) as Hadd.
      { intros i key [Hg|[-> Hk]]; [by left|]. right. split; [done|]. apply elem_of_app. by left. }
      exists b2, gs2, ks2. split_and!; [done | done | rewrite length_app in Hk2; lia | auto |].
      intros off' keys' key [[= -> ->]|Hin]%elem_of_cons Hkey; [|by eapply Hin2].
      apply Hp2. right. split; [unfold blen in *; lia|]. apply elem_of_app. by right.
Qed.

Lemma Finish_spec b gs ks :
  builder_ok b gs ks → (ks ≠ [] → size_ok ks) →
  ∃ gs' fs, filters_of gs' fs ∧
    (∀ i key, placed gs ks i key → ∃ g, gs' !! i = Some g ∧ key ∈ g) ∧
    Finish policy b = Ok (concat fs ++ concat (map EncodeFixed32 (map u32 (starts 0 fs) ++ [u32 (blen (concat fs))])) ++
                          [z2b kFilterBaseLg]).
Proof.
  intros Hb Hok. unfold Finish.
  assert (∃ b' gs', (if (length (start_ b) =? 0)%nat then Ok b else GenerateFilter policy b) = Ok b' ∧
    builder_ok b' gs' [] ∧ ∀ i key, placed gs ks i key → ∃ g, gs' !! i = Some g ∧ key ∈ g)
    as (b' & gs' & -> & (fs & Hf & Hr & Ho & _) & Hp).
  { pose proof Hb as (fs & Hf & Hr & Ho & Hk & Hs).
    assert (length (start_ b) = length ks) as Hlen by (by rewrite Hs, length_starts).
    destruct ks as [|k ks]; rewrite Hlen; cbn [length Nat.eqb].
    - exists b, gs. split; [done|]. split; [done|].
      intros i key [?|[_ ?%not_elem_of_nil]]; done.
    - destruct (GenerateFilter_spec b gs (k :: ks) Hb Hok) as (b' & -> & Hb').
      exists b', (gs ++ [k :: ks]). split; [done|]. split; [done|].
      intros i key Hpl%placed_generate. destruct Hpl as [?|[_ ?%not_elem_of_nil]]; done. }
  cbn [mbind outcome_bind]. exists gs', fs. split; [done|]. split; [done|].
  rewrite foldl_PutFixed32, Hr, Ho. unfold PutFixed32. rewrite map_app, concat_app, <- !app_assoc.
  cbn [map concat]. by rewrite app_nil_r.
Qed.

(** The reader on the contents the builder wrote. *)
Lemma reader_spec gs fs i g f off :
  filters_of gs fs → gs !! i = Some g → fs !! i = Some f → 0 ≤ off → i = Z.to_nat (off / kFilterBase) →
  let contents := concat fs ++ concat (map EncodeFixed32 (map u32 (starts 0 fs) ++ [u32 (blen (concat fs))])) ++
                  [z2b kFilterBaseLg] in
  blen contents < 2 ^ 32 →
  ∃ r, new_reader contents = Ok r ∧ ∀ key, reader_KeyMayMatch policy r off key = KeyMayMatch policy key f.
Proof.
  intros Hf Hg Hfi Hoff Hi. cbv zeta.
  pose proof (Forall2_length _ _ _ Hf) as Hlen.
  pose proof (lookup_lt_Some _ _ _ Hg) as Hlt.
  set (arr := map u32 (starts 0 fs) ++ [u32 (blen (concat fs))]).
  assert (length arr = S (length fs)) as Harr.
  { subst arr. rewrite length_app, length_map, length_starts. simpl. lia. }
  assert (∀ l : list Z, blen (concat (map EncodeFixed32 l)) = 4 * blen l) as Hsz.
  { induction l as [|x l IH]; [done|]. cbn [map concat]. rewrite blen_app, IH, blen_cons.
    change (blen (EncodeFixed32 x)) with 4. lia. }
  set (contents := concat fs ++ concat (map EncodeFixed32 arr) ++ [z2b kFilterBaseLg]).
  assert (blen contents = blen (concat fs) + 4 * blen fs + 5) as Hn.
  { subst contents. rewrite !blen_app, Hsz. unfold blen at 2. rewrite Harr. unfold blen. simpl. lia. }
  intros Hbound. rewrite Hn in Hbound.
  pose proof (blen_nonneg (concat fs)). pose proof (blen_nonneg fs).
  assert (∀ j, (j ≤ length fs)%nat → arr !! j = Some (blen (concat (take j fs))) ∧
    0 ≤ blen (concat (take j fs)) ≤ blen (concat fs)) as Hentry.
  { intros j Hj. assert (0 ≤ blen (concat (take j fs)) ≤ blen (concat fs)) as Hr.
    { split; [apply blen_nonneg|]. rewrite <- (take_drop j fs) at 2. rewrite concat_app, blen_app.
      pose proof (blen_nonneg (concat (drop j fs))). lia. }
    split; [|done]. subst arr. destruct (decide (j = length fs)) as [->|Hne].
    - rewrite firstn_all, lookup_app_r by (rewrite length_map, length_starts; lia).
      rewrite length_map, length_starts, Nat.sub_diag. simpl. by rewrite u32_small by (unfold is_u32; lia).
    - rewrite lookup_app_l by (rewrite length_map, length_starts; lia).
      rewrite list_lookup_fmap, starts_lookup by lia. simpl. by rewrite u32_small by (unfold is_u32; lia). }
  assert (contents !! Z.to_nat (blen contents - 1) = Some (z2b kFilterBaseLg)) as Hlastb.
  { subst contents. rewrite app_assoc. apply list_lookup_middle. rewrite app_assoc in Hn.
    unfold blen in *. rewrite length_app. rewrite length_app in Hn. simpl in *. lia. }
  assert (∀ j x, arr !! j = Some x → is_u32 x →
    DecodeFixed32 (drop (Z.to_nat (blen (concat fs) + Z.of_nat j * 4)) contents) = Ok x) as Hread.
  { intros j x. apply DecodeFixed32_array. }
  assert (DecodeFixed32 (drop (Z.to_nat (blen contents - 5)) contents) = Ok (blen (concat fs))) as Hword.
  { replace (blen contents - 5) with (blen (concat fs) + Z.of_nat (length fs) * 4) by (unfold blen in *; lia).
    apply Hread; [|unfold is_u32; lia].
    destruct (Hentry (length fs) ltac:(lia)) as [E _]. by rewrite firstn_all in E. }
  exists (mkFReader (Some (contents, blen (concat fs))) (blen fs) 11). split.
  - unfold new_reader. cbv zeta. destruct (Z.ltb_spec (blen contents) 5); [lia|].
    rewrite Hlastb, Hword. cbn [mbind outcome_bind].
    destruct (Z.ltb_spec (blen contents - 5) (blen (concat fs))); [lia|].
    do 2 f_equal. rewrite Hn. replace (blen (concat fs) + 4 * blen fs + 5 - 5 - blen (concat fs)) with (blen fs * 4) by lia.
    by rewrite Z.div_mul by lia.
  - intros key. unfold reader_KeyMayMatch. cbn [base_lg_ num_ data_]. change (64 <=? 11) with false. cbv iota zeta.
    assert (Z.shiftr off 11 = Z.of_nat i) as ->.
    { rewrite Z.shiftr_div_pow2, Hi, kFilterBase_value by lia. change (2 ^ 11) with 2048.
      rewrite Z2Nat.id; [done|]. apply Z.div_pos; lia. }
    destruct (Z.ltb_spec (Z.of_nat i) (blen fs)); [|unfold blen in *; lia].
    destruct (Hentry i ltac:(lia)) as [Es Hs]. destruct (Hentry (S i) ltac:(lia)) as [El Hl].
    rewrite (Hread i _ Es) by (unfold is_u32; lia).
    cbn [mbind outcome_bind].
    replace (blen (concat fs) + Z.of_nat i * 4 + 4) with (blen (concat fs) + Z.of_nat (S i) * 4) by lia.
    rewrite (Hread (S i) _ El) by (unfold is_u32; lia).
    cbn [mbind outcome_bind].
    assert (concat fs = concat (take i fs) ++ f ++ concat (drop (S i) fs)) as Hcat.
    { rewrite <- (take_drop_middle fs i f Hfi) at 1. by rewrite concat_app. }
    assert (blen (concat (take (S i) fs)) = blen (concat (take i fs)) + blen f) as Hstep.
    { rewrite (take_S_r _ _ _ Hfi), concat_app, blen_app. simpl. by rewrite app_nil_r. }
    pose proof (blen_nonneg f).
    destruct (Z.leb_spec (blen (concat (take i fs))) (blen (concat (take (S i) fs)))); [|lia].
    destruct (Z.leb_spec (blen (concat (take (S i) fs))) (blen (concat fs))); [|lia]. cbn [andb].
    f_equal. rewrite Hstep.
    replace (blen (concat (take i fs)) + blen f - blen (concat (take i fs))) with (blen f) by lia.
    subst contents. rewrite Hcat, <- !app_assoc. unfold blen. by rewrite !Nat2Z.id, drop_app_length, take_app_length.
Qed.

(** Opening the contents of a filter block. *)
Lemma new_reader_total contents : ∃ r, new_reader contents = Ok r.
Proof.
  unfold new_reader. destruct (Z.ltb_spec (blen contents) 5); [by eexists|].
  destruct (lookup_lt_is_Some_2 contents (Z.to_nat (blen contents - 1))) as [c ->]; [unfold blen in *; lia|].
  unfold DecodeFixed32. rewrite mem_read_ok; [|lia | lia | unfold blen in *; rewrite length_drop; lia].
  cbn [mbind outcome_bind mret outcome_ret]. destruct (_ <? _); by eexists.
Qed.

Lemma ascending_nonneg blocks : ∀ from off keys, 0 ≤ from → ascending from blocks → (off, keys) ∈ blocks → 0 ≤ off.
Proof.
  induction blocks as [|[o ks] blocks IH]; intros from off keys Hf Hasc Hin; [by apply not_elem_of_nil in Hin|].
  destruct Hasc as [Hz Hasc]. apply elem_of_cons in Hin as [[= -> ->]|Hin]; [lia|]. apply (IH o off keys); [lia | done | done].
Qed.

(** The filter that the finished block has for each data block. *)
Lemma build_reads blocks : ascending 0 blocks → (∀ l, (length l ≤ total_keys blocks)%nat → size_ok l) →
  ∃ contents, build policy blocks = Ok contents ∧
    (blen contents < 2 ^ 32 → ∃ r, new_reader contents = Ok r ∧ ∀ off keys k, (off, keys) ∈ blocks → k ∈ keys →
       ∃ f, blen f < 2 ^ 32 ∧ (∀ key, reader_KeyMayMatch policy r off key = KeyMayMatch policy key f) ∧ ∀ key, key ∈ keys → KeyMayMatch policy key f = Ok true).
Proof.
  intros Hasc Hsize. assert (builder_ok new_builder [] []) as H0 by (exists []; by split; [constructor|]).
  destruct (add_blocks_spec blocks new_builder [] [] 0 H0 Hasc) as (b & gs & ks & Eb & Hb & Hk & _ & Hin); [lia | done | done |].
  simpl in Hk. destruct (Finish_spec b gs ks Hb) as (gs' & fs & Hf & Hp & Efin); [intros _; by apply Hsize|].
  unfold build. rewrite Eb. cbn [mbind outcome_bind]. rewrite Efin. eexists. split; [reflexivity|]. intros Hbound.
  destruct (new_reader_total (concat fs ++ concat (map EncodeFixed32 (map u32 (starts 0 fs) ++ [u32 (blen (concat fs))])) ++ [z2b kFilterBaseLg])) as [r Er].
  exists r. split; [done|]. intros off keys k Hblk Hkin.
  destruct (Hp _ _ (Hin off keys k Hblk Hkin)) as (g & Hg & Hkg). pose proof (ascending_nonneg blocks 0 off keys ltac:(lia) Hasc Hblk) as Hoff.
  destruct (Forall2_lookup_l _ _ _ _ _ Hf Hg) as (f & Hfi & Hmatch). exists f.
  destruct (reader_spec gs' fs _ g f off Hf Hg Hfi Hoff eq_refl Hbound) as (r' & Er' & Hr). rewrite Er in Er'. injection Er' as <-.
  split; [|split; [exact Hr|]].
  - assert (blen f ≤ blen (concat fs)).
    { rewrite <- (take_drop_middle fs _ f Hfi), concat_app, blen_app. cbn [concat]. rewrite blen_app.
      pose proof (blen_nonneg (concat (take (Z.to_nat (off / kFilterBase)) fs))). pose proof (blen_nonneg (concat (drop (S (Z.to_nat (off / kFilterBase))) fs))). lia. }
    rewrite !blen_app in Hbound. pose proof (blen_nonneg (concat (map EncodeFixed32 (map u32 (starts 0 fs) ++ [u32 (blen (concat fs))])))).
    pose proof (blen_nonneg [z2b kFilterBaseLg]). rewrite map_app, concat_app, blen_app in *. lia.
  - intros key Hkey. destruct (Hp _ _ (Hin off keys key Hblk Hkey)) as (g2 & Hg2 & Hkg2). rewrite Hg in Hg2. injection Hg2 as <-. by apply Hmatch.
Qed.

End filter_block.

(** ** Properties *)

(** A table's filter block never hides a key.  For every lawful filter policy and
    every sequence of data blocks at ascending offsets, the builder's assertion holds,
    and the reader of the finished contents (less than 4 GiB) answers "may match" for
    every key that was added to the block at its offset, including blocks that share a
    2 KiB range or leave ranges empty. *)
Lemma filter_block_no_false_negatives (policy : FilterPolicy) (size_ok : list (list byte) → Prop)
    (HL : FilterLaws size_ok policy) (blocks : list (Z * list (list byte)))
    (Hasc : ascending 0 blocks) (Hsize : ∀ l, (length l ≤ total_keys blocks)%nat → size_ok l) :
  ∃ contents, build policy blocks = Ok contents ∧
    (blen contents < 2 ^ 32 →
     ∀ off keys key, (off, keys) ∈ blocks → key ∈ keys →
     ∃ r, new_reader contents = Ok r ∧ reader_KeyMayMatch policy r off key = Ok true).
Proof.
  destruct (build_reads policy size_ok blocks Hasc Hsize) as (contents & E & Hr). exists contents. split; [done|].
  intros Hbound off keys key Hblk Hkey. destruct (Hr Hbound) as (r & Er & Hread).
  destruct (Hread off keys key Hblk Hkey) as (f & _ & Ef & Hm). exists r. split; [done|]. rewrite Ef. by apply Hm.
Qed.

