(* ===== verification/Cursor.v ===== *)
(** * include/leveldb/iterator.h: the contract of iterators

    Every iterator of the database (over a block, a memtable, a merge of iterators, a
    table) has the operations of the class [Iterator].  [CursorLaws] says what they
    promise: the iterator is a cursor on a sorted list of entries, where the position at
    the length of the list is "not valid".  Iterators built from other iterators are
    verified against the contract of their children. *)
From S2P Require Import Prelude.
From S2P Require Import Status.
From S2P Require Import Interfaces.

(** ** Definitions *)

Abbreviation entry := (list byte * list byte)%type.

(** The operations of [Iterator] on objects with state [S]. *)
Record IteratorOps (S : Type) := mkIterator {
  it_Valid : S → bool;
  it_key : S → outcome (list byte);
  it_value : S → outcome (list byte);
  it_status : S → outcome status;
  it_Next : S → outcome S;
  it_Prev : S → outcome S;
  it_Seek : S → list byte → outcome S;
  it_SeekToFirst : S → outcome S;
  it_SeekToLast : S → outcome S
}.
Arguments mkIterator {S}.
Arguments it_Valid {S}.
Arguments it_key {S}.
Arguments it_value {S}.
Arguments it_status {S}.
Arguments it_Next {S}.
Arguments it_Prev {S}.
Arguments it_Seek {S}.
Arguments it_SeekToFirst {S}.
Arguments it_SeekToLast {S}.

(** The calls that move an iterator. *)
Inductive cursor_op := OpFirst | OpLast | OpNext | OpPrev | OpSeek (target : list byte).

Definition run_op {S} (I : IteratorOps S) (it : S) (op : cursor_op) : outcome S :=
  match op with
  | OpFirst => it_SeekToFirst I it
  | OpLast => it_SeekToLast I it
  | OpNext => it_Next I it
  | OpPrev => it_Prev I it
  | OpSeek target => it_Seek I it target
  end.
Fixpoint run_ops {S} (I : IteratorOps S) (it : S) (ops : list cursor_op) : outcome S :=
  match ops with [] => Ok it | op :: ops => it ← run_op I it op; run_ops I it ops end.

(** *** What they mean on a list of entries *)

Section spec.
Context (ord : list byte → list byte → Z) (target_ok : list byte → Prop) (es : list entry).

(** The first entry that is not below the target. *)
Fixpoint lower_bound (es : list entry) (target : list byte) : nat :=
  match es with
  | [] => O
  | x :: es => if 0 <=? ord x.1 target then O else S (lower_bound es target)
  end.
Definition spec_op (pos : nat) (op : cursor_op) : nat :=
  match op with
  | OpFirst => O
  | OpLast => pred (length es)
  | OpNext => S pos
  | OpPrev => if (pos =? 0)%nat then length es else pred pos
  | OpSeek target => lower_bound es target
  end.
(** [Next] and [Prev] require a valid iterator. *)
Definition op_allowed (pos : nat) (op : cursor_op) : Prop :=
  match op with
  | OpNext | OpPrev => (pos < length es)%nat
  | OpSeek target => target_ok target
  | _ => True
  end.
Fixpoint ops_allowed (pos : nat) (ops : list cursor_op) : Prop :=
  match ops with
  | [] => True
  | op :: ops => op_allowed pos op ∧ ops_allowed (spec_op pos op) ops
  end.

(** Entries with increasing keys. *)
Definition sorted_entries : Prop :=
  ∀ i j x y, (i < j)%nat → es !! i = Some x → es !! j = Some y → ord x.1 y.1 < 0.

End spec.

(** *** The contract *)

(** [shows it pos]: the object may be in state [it] when the cursor is at [pos]. *)
Class CursorLaws {S} (I : IteratorOps S) (ord : list byte → list byte → Z) (target_ok : list byte → Prop)
    (es : list entry) (shows : S → nat → Prop) : Prop := {
  cursor_pos it pos : shows it pos → (pos ≤ length es)%nat;
  cursor_valid it pos : shows it pos → it_Valid I it = bool_decide (pos < length es)%nat;
  cursor_entry it pos e : shows it pos → es !! pos = Some e → it_key I it = Ok e.1 ∧ it_value I it = Ok e.2;
  cursor_status it pos : shows it pos → it_status I it = Ok status_ok;
  cursor_step it pos op : shows it pos → op_allowed target_ok es pos op →
    ∃ it', run_op I it op = Ok it' ∧ shows it' (spec_op ord es pos op)
}.

(** ** Lemmas *)

Section laws.
Context {S} (I : IteratorOps S) (ord : list byte → list byte → Z) (target_ok : list byte → Prop)
  (es : list entry) (shows : S → nat → Prop) `{!CursorLaws I ord target_ok es shows}.

Lemma cursor_runs ops it pos :
  shows it pos → ops_allowed ord target_ok es pos ops →
  ∃ it', run_ops I it ops = Ok it' ∧ shows it' (foldl (spec_op ord es) pos ops).
Proof.
  revert it pos. induction ops as [|op ops IH]; intros it pos Hs Hok; [by exists it|].
  destruct Hok as [Hop Hok]. destruct (cursor_step it pos op Hs Hop) as (it1 & E & Hs1).
  cbn [run_ops foldl]. rewrite E. by apply IH.
Qed.

(** The observations after any sequence of calls. *)
Lemma cursor_observed ops it pos :
  shows it pos → ops_allowed ord target_ok es pos ops →
  ∃ it', run_ops I it ops = Ok it' ∧ it_status I it' = Ok status_ok ∧
    let pos' := foldl (spec_op ord es) pos ops in
    it_Valid I it' = bool_decide (pos' < length es)%nat ∧
    ∀ k v, es !! pos' = Some (k, v) → it_key I it' = Ok k ∧ it_value I it' = Ok v.
Proof.
  intros Hs Hok. destruct (cursor_runs ops it pos Hs Hok) as (it' & E & Hs').
  exists it'. split; [done|]. split; [by eapply cursor_status|]. cbv zeta.
  split; [by apply cursor_valid|]. intros k v Hkv. exact (cursor_entry it' _ (k, v) Hs' Hkv).
Qed.

End laws.

(** *** Objects that show a list *)

(** The object keeps the contract, whatever relation says so. *)
Section shown.
Context {S} (I : IteratorOps S) (ord : list byte → list byte → Z) (target_ok : list byte → Prop) (es : list entry).

Definition shown (it : S) (pos : nat) : Prop := ∃ shows, CursorLaws I ord target_ok es shows ∧ shows it pos.

Lemma shown_intro shows it pos : CursorLaws I ord target_ok es shows → shows it pos → shown it pos.
Proof. intros. by exists shows. Qed.

#[export] Instance shown_laws : CursorLaws I ord target_ok es shown.
Proof.
  split; intros it pos.
  - intros (sh & HL & H). by apply (cursor_pos (CursorLaws := HL) it).
  - intros (sh & HL & H). by apply (cursor_valid (CursorLaws := HL)).
  - intros e (sh & HL & H). by apply (cursor_entry (CursorLaws := HL)).
  - intros (sh & HL & H). by apply (cursor_status (CursorLaws := HL) it pos).
  - intros op (sh & HL & H) Hop. destruct (cursor_step (CursorLaws := HL) it pos op H Hop) as (it' & E & H'). exists it'. split; [done|]. by exists sh.
Qed.
End shown.

(** An object inside another one that forwards the calls. *)
Section embed.
Context {S T} (I : IteratorOps S) (J : IteratorOps T) (inj : S → T) (ord : list byte → list byte → Z).

Record forwards : Prop := mkForwards {
  fw_Valid it : it_Valid J (inj it) = it_Valid I it;
  fw_key it : it_key J (inj it) = it_key I it;
  fw_value it : it_value J (inj it) = it_value I it;
  fw_status it : it_status J (inj it) = it_status I it;
  fw_move it op : run_op J (inj it) op = (it ← run_op I it op; Ok (inj it))
}.

Lemma forwards_laws (tok tok' : list byte → Prop) es shows : forwards → (∀ t, tok' t → tok t) → CursorLaws I ord tok es shows →
  CursorLaws J ord tok' es (λ it pos, ∃ i, it = inj i ∧ shows i pos).
Proof.
  intros HF Htok HL. split; intros it pos.
  - intros (i & -> & H). by apply (cursor_pos i).
  - intros (i & -> & H). rewrite (fw_Valid HF). by apply cursor_valid.
  - intros e (i & -> & H). rewrite (fw_key HF), (fw_value HF). by apply cursor_entry.
  - intros (i & -> & H). rewrite (fw_status HF). by apply (cursor_status i pos).
  - intros op (i & -> & H) Hop. rewrite (fw_move HF).
    destruct (cursor_step i pos op H) as (i' & -> & H'); [destruct op; try done; by apply Htok|]. exists (inj i'). split; [done|]. by exists i'.
Qed.
End embed.

Lemma weaken_laws {S} (I : IteratorOps S) ord (tok tok' : list byte → Prop) es shows : (∀ t, tok' t → tok t) → CursorLaws I ord tok es shows → CursorLaws I ord tok' es shows.
Proof.
  intros Htok HL. split; intros it pos; [apply cursor_pos | apply cursor_valid | intros e; apply cursor_entry | apply cursor_status|].
  intros op H Hop. apply cursor_step; [done|]. destruct op; try done. by apply Htok.
Qed.

(** *** Lower bounds *)

Section lower_bound.
Context (ord : list byte → list byte → Z).

Lemma lower_bound_le es t : (lower_bound ord es t ≤ length es)%nat.
Proof. induction es as [|x es IH]; simpl; [lia|]. destruct (0 <=? _); lia. Qed.

Lemma lower_bound_below es t i x :
  (i < lower_bound ord es t)%nat → es !! i = Some x → ord x.1 t < 0.
Proof.
  revert i. induction es as [|y es IH]; intros i Hi Hx; [done|]. simpl in Hi.
  destruct (Z.leb_spec 0 (ord y.1 t)); [lia|].
  destruct i as [|i]; [by injection Hx as <-|]. apply (IH i); [lia | done].
Qed.

Lemma lower_bound_at es t x : es !! lower_bound ord es t = Some x → 0 ≤ ord x.1 t.
Proof.
  induction es as [|y es IH]; simpl; [done|].
  destruct (Z.leb_spec 0 (ord y.1 t)); [by intros [= <-] | apply IH].
Qed.

(** The lower bound is the only position with these properties. *)
Lemma lower_bound_unique es t p :
  (p ≤ length es)%nat → (∀ i x, (i < p)%nat → es !! i = Some x → ord x.1 t < 0) →
  (∀ x, es !! p = Some x → 0 ≤ ord x.1 t) → p = lower_bound ord es t.
Proof.
  revert p. induction es as [|y es IH]; intros p Hp Hbelow Hat; simpl in *; [lia|].
  destruct (Z.leb_spec 0 (ord y.1 t)) as [Hge|Hlt].
  - destruct p as [|p]; [done|]. specialize (Hbelow O y ltac:(lia) eq_refl). lia.
  - destruct p as [|p]; [specialize (Hat y eq_refl); lia|]. f_equal.
    apply IH; [lia | intros i x Hi; by apply (Hbelow (Datatypes.S i)); lia | exact Hat].
Qed.

End lower_bound.

(** *** The plain cursor on a list, which the examples use for the abstract children *)

Section list_cursor.
Context (ord : list byte → list byte → Z) (target_ok : list byte → Prop) (es : list entry).

Definition list_get (f : entry → list byte) (pos : nat) : outcome (list byte) :=
  match es !! pos with Some e => Ok (f e) | None => Ub AssertionFailed end.
Definition list_cursor : IteratorOps nat :=
  let move op pos := Ok (spec_op ord es pos op) in
  mkIterator (λ pos, bool_decide (pos < length es)%nat) (list_get fst) (list_get snd) (λ _, Ok status_ok)
    (move OpNext) (move OpPrev) (λ pos target, move (OpSeek target) pos) (move OpFirst) (move OpLast).

Lemma spec_op_le pos op : (pos ≤ length es)%nat → op_allowed target_ok es pos op → (spec_op ord es pos op ≤ length es)%nat.
Proof.
  intros Hpos Hop. destruct op; cbn [spec_op op_allowed] in *; try lia.
  - destruct (Nat.eqb_spec pos 0); lia.
  - apply lower_bound_le.
Qed.

#[export] Instance list_cursor_laws : CursorLaws list_cursor ord target_ok es (λ it pos, it = pos ∧ (pos ≤ length es)%nat).
Proof.
  split; intros it pos.
  - by intros [_ ?].
  - by intros [-> _].
  - intros e [-> _] He. cbn. unfold list_get. by rewrite He.
  - by intros _.
  - intros op [-> Hpos] Hop. exists (spec_op ord es pos op). split; [by destruct op|]. split; [done|]. by apply spec_op_le.
Qed.
End list_cursor.

(** Cursors that carry their list. *)
Section carried.
Context (ord : list byte → list byte → Z).

Definition carried_cursor : IteratorOps (list entry * nat) :=
  let move op (s : list entry * nat) := p ← run_op (list_cursor ord s.1) s.2 op; Ok (s.1, p) in
  mkIterator (λ s, it_Valid (list_cursor ord s.1) s.2) (λ s, it_key (list_cursor ord s.1) s.2)
    (λ s, it_value (list_cursor ord s.1) s.2) (λ _, Ok status_ok) (move OpNext) (move OpPrev)
    (λ s target, move (OpSeek target) s) (move OpFirst) (move OpLast).

Lemma carried_cursor_laws target_ok es : CursorLaws carried_cursor ord target_ok es (λ it pos, it = (es, pos) ∧ (pos ≤ length es)%nat).
Proof.
  split; intros it pos.
  - by intros [_ ?].
  - by intros [-> _].
  - intros e [-> _] He. cbn. unfold list_get. by rewrite He.
  - by intros _.
  - intros op [-> Hpos] Hop. exists (es, spec_op ord es pos op). split; [by destruct op|]. split; [done|].
    by apply (spec_op_le ord target_ok).
Qed.
End carried.
