(* ===== verification/Block.v ===== *)
(** * table/block_builder.cc and table/block.cc: sorted blocks of a table file

    The builder compresses the common prefixes of consecutive keys and records restart
    points; the iterator decodes entries, moves both ways and searches.  The iterator is
    shown to implement a cursor on the list of entries.  Offsets stand for the pointers
    into the block; [None] in [value_] for the empty slice that is not in the block. *)
From S2P Require Import Prelude.
From S2P Require Import Coding.
From S2P Require Import Status.
From S2P Require Import Interfaces.
From S2P Require Import Comparator.
From S2P Require Import Cursor.

(** ** Definitions *)

(** *** The builder *)

Module BlockBuilder.
Section builder.
(** The fields of [Options] the builder uses. *)
Context (comparator : Comparator) (block_restart_interval : Z).

Record builder := mkBuilder {
  buffer_ : list byte;
  restarts_ : list Z;
  counter_ : Z;
  finished_ : bool;
  last_key_ : list byte
}.

Definition new : outcome builder :=
  if 1 <=? block_restart_interval then Ok (mkBuilder [] [0] 0 false []) else Ub AssertionFailed.
Definition Reset (b : builder) : builder := mkBuilder [] [0] 0 false [].

Definition CurrentSizeEstimate (b : builder) : Z := blen (buffer_ b) + blen (restarts_ b) * 4 + 4.
Definition empty (b : builder) : bool := blen (buffer_ b) =? 0.

Definition Finish (b : builder) : builder * list byte :=
  let buffer := foldl PutFixed32 (buffer_ b) (restarts_ b) in
  let buffer := PutFixed32 buffer (u32 (blen (restarts_ b))) in
  (mkBuilder buffer (restarts_ b) (counter_ b) true (last_key_ b), buffer).

(** The assertions of [Add]. *)
Definition add_allowed (b : builder) (key : list byte) : bool :=
  negb (finished_ b) && (counter_ b <=? block_restart_interval) &&
  (empty b || (0 <? Compare comparator key (last_key_ b))).

Definition Add (b : builder) (key value : list byte) : outcome builder :=
  if negb (add_allowed b key) then Ub AssertionFailed
  else
    let '(shared, restarts, counter) :=
      if counter_ b <? block_restart_interval
      then (Bytewise.diff_index (last_key_ b) key, restarts_ b, counter_ b)
      else (O, restarts_ b ++ [u32 (blen (buffer_ b))], 0) in
    let non_shared := drop shared key in
    let buffer := PutVarint32 (buffer_ b) (u32 (Z.of_nat shared)) in
    let buffer := PutVarint32 buffer (u32 (blen non_shared)) in
    let buffer := PutVarint32 buffer (u32 (blen value)) in
    let last_key := take shared (last_key_ b) ++ non_shared in
    if negb (slice_eq last_key key) then Ub AssertionFailed
    else Ok (mkBuilder (buffer ++ non_shared ++ value) restarts (counter + 1) false last_key).

End builder.
End BlockBuilder.

(** *** The block *)

Module Block.

(** [size_] is zero for a malformed block. *)
Record block := mkBlock { data_ : list byte; size_ : Z; restart_offset_ : Z }.

Definition NumRestarts (data : list byte) (size : Z) : outcome Z :=
  if negb (4 <=? size) then Ub AssertionFailed else DecodeFixed32 (drop (Z.to_nat (size - 4)) data).

Definition new (contents : list byte) : outcome block :=
  let size := blen contents in
  if size <? 4 then Ok (mkBlock contents 0 0)
  else
    let max_restarts_allowed := (size - 4) / 4 in
    n ← NumRestarts contents size;
    if max_restarts_allowed <? n then Ok (mkBlock contents 0 0)
    else Ok (mkBlock contents size (u32 (size - u32 (1 + n) * 4))).

(** The three lengths of an entry, with the fast path for one byte each. *)
Definition decode_lengths (bytes : list byte) : option (Z * Z * Z * list byte) :=
  match bytes with
  | b0 :: b1 :: b2 :: rest =>
      if Z.lor (Z.lor (b2z b0) (b2z b1)) (b2z b2) <? 128
      then Some (b2z b0, b2z b1, b2z b2, rest)
      else
        match GetVarint32Ptr bytes with
        | None => None
        | Some (shared, q) =>
            match GetVarint32Ptr q with
            | None => None
            | Some (non_shared, q) =>
                match GetVarint32Ptr q with
                | None => None
                | Some (value_length, q) => Some (shared, non_shared, value_length, q)
                end
            end
        end
  | _ => None
  end.

(** [DecodeEntry(p, limit)]: the offset of the key delta, the shared and the non-shared
    length and the length of the value.  The sum of the last two is computed in 32
    bits. *)
Definition DecodeEntry (data : list byte) (p limit : Z) : option (Z * Z * Z * Z) :=
  if limit - p <? 3 then None
  else
    match decode_lengths (take (Z.to_nat (limit - p)) (drop (Z.to_nat p) data)) with
    | None => None
    | Some (shared, non_shared, value_length, rest) =>
        if u32 (blen rest) <? u32 (non_shared + value_length) then None
        else Some (limit - blen rest, shared, non_shared, value_length)
    end.

(** *** The iterator *)

Section iter.
Context (comparator : Comparator) (data : list byte) (restarts num_restarts : Z).

Record iter := mkIter {
  current_ : Z;
  restart_index_ : Z;
  key_ : list byte;
  value_ : option (Z * Z);
  status_ : status
}.

Definition new_iter : outcome iter :=
  if 0 <? num_restarts then Ok (mkIter restarts num_restarts [] None status_ok) else Ub AssertionFailed.

Definition Valid (it : iter) : bool := current_ it <? restarts.
Definition key (it : iter) : outcome (list byte) :=
  if Valid it then Ok (key_ it) else Ub AssertionFailed.
Definition value (it : iter) : outcome (list byte) :=
  if Valid it then
    match value_ it with Some (p, n) => mem_read data p n | None => Ok [] end
  else Ub AssertionFailed.

Definition NextEntryOffset (it : iter) : outcome Z :=
  match value_ it with Some (p, n) => Ok (u32 (p + n)) | None => Ub OutOfBounds end.

Definition GetRestartPoint (index : Z) : outcome Z :=
  if negb (index <? num_restarts) then Ub AssertionFailed
  else DecodeFixed32 (drop (Z.to_nat (restarts + index * 4)) data).

Definition SeekToRestartPoint (it : iter) (index : Z) : outcome iter :=
  offset ← GetRestartPoint index;
  Ok (mkIter (current_ it) index [] (Some (offset, 0)) (status_ it)).

Definition CorruptionError (it : iter) : iter :=
  mkIter restarts num_restarts [] None (Corruption (str "bad entry in block")).

(** [while (restart_index_ + 1 < num_restarts_ && ...) ++restart_index_]. *)
Fixpoint advance_restart (fuel : nat) (index current : Z) : outcome Z :=
  match fuel with
  | O => Blocked
  | S fuel =>
      if index + 1 <? num_restarts then
        p ← GetRestartPoint (index + 1);
        if p <? current then advance_restart fuel (index + 1) current else Ok index
      else Ok index
  end.

Definition ParseNextKey (it : iter) : outcome (iter * bool) :=
  current ← NextEntryOffset it;
  if restarts <=? current
  then Ok (mkIter restarts num_restarts (key_ it) (value_ it) (status_ it), false)
  else
    match DecodeEntry data current restarts with
    | None => Ok (CorruptionError it, false)
    | Some (p, shared, non_shared, value_length) =>
        if blen (key_ it) <? shared then Ok (CorruptionError it, false)
        else
          delta ← mem_read data p non_shared;
          let key := take (Z.to_nat shared) (key_ it) ++ delta in
          index ← advance_restart (S (Z.to_nat num_restarts)) (restart_index_ it) current;
          Ok (mkIter current index key (Some (p + non_shared, value_length)) (status_ it), true)
    end.

Definition Next (it : iter) : outcome iter :=
  if Valid it then r ← ParseNextKey it; Ok r.1 else Ub AssertionFailed.

(** The backwards scan of [Prev]; [None] is its early return. *)
Fixpoint prev_restart (fuel : nat) (index original : Z) : outcome (option Z) :=
  match fuel with
  | O => Blocked
  | S fuel =>
      p ← GetRestartPoint index;
      if original <=? p then
        if index =? 0 then Ok None else prev_restart fuel (index - 1) original
      else Ok (Some index)
  end.

(** [do {} while (ParseNextKey() && NextEntryOffset() < bound)]; every round moves
    forward in the block, so its length bounds the rounds. *)
Fixpoint scan (fuel : nat) (it : iter) (bound : Z) : outcome iter :=
  match fuel with
  | O => Blocked
  | S fuel =>
      r ← ParseNextKey it;
      if (r.2 : bool) then
        o ← NextEntryOffset r.1;
        if o <? bound then scan fuel r.1 bound else Ok r.1
      else Ok r.1
  end.

Definition Prev (it : iter) : outcome iter :=
  if Valid it then
    let original := current_ it in
    r ← prev_restart (S (Z.to_nat (restart_index_ it))) (restart_index_ it) original;
    match (r : option Z) with
    | None => Ok (mkIter restarts num_restarts (key_ it) (value_ it) (status_ it))
    | Some index =>
        it ← SeekToRestartPoint it index;
        scan (S (length data)) it original
    end
  else Ub AssertionFailed.

(** The binary search of [Seek]: the restart index to start from, [None] for a corrupt
    block. *)
Fixpoint bisect (fuel : nat) (target : list byte) (left right : Z) : outcome (option Z) :=
  match fuel with
  | O => Blocked
  | S fuel =>
      if left <? right then
        let mid := u32 (left + right + 1) / 2 in
        region_offset ← GetRestartPoint mid;
        match DecodeEntry data region_offset restarts with
        | None => Ok None
        | Some (key_ptr, shared, non_shared, _) =>
            if negb (shared =? 0) then Ok None
            else
              mid_key ← mem_read data key_ptr non_shared;
              if Compare comparator mid_key target <? 0
              then bisect fuel target mid right
              else bisect fuel target left (mid - 1)
        end
      else Ok (Some left)
  end.

(** The linear search. *)
Fixpoint seek_scan (fuel : nat) (target : list byte) (it : iter) : outcome iter :=
  match fuel with
  | O => Blocked
  | S fuel =>
      r ← ParseNextKey it;
      if negb (r.2 : bool) then Ok r.1
      else if 0 <=? Compare comparator (key_ r.1) target then Ok r.1
      else seek_scan fuel target r.1
  end.

Definition Seek (it : iter) (target : list byte) : outcome iter :=
  r ← bisect (S (Z.to_nat num_restarts)) target 0 (u32 (num_restarts - 1));
  match (r : option Z) with
  | None => Ok (CorruptionError it)
  | Some index =>
      it ← SeekToRestartPoint it index;
      seek_scan (S (length data)) target it
  end.

Definition SeekToFirst (it : iter) : outcome iter :=
  it ← SeekToRestartPoint it 0;
  r ← ParseNextKey it;
  Ok r.1.

Definition SeekToLast (it : iter) : outcome iter :=
  it ← SeekToRestartPoint it (num_restarts - 1);
  scan (S (length data)) it restarts.

End iter.

(** [NewIterator]: an error, an iterator that is always empty, or an iterator. *)
Inductive new_iterator_result :=
| ErrorIterator (s : status)
| EmptyIterator
| BlockIterator (restarts num_restarts : Z) (it : iter).

Definition NewIterator (b : block) : outcome new_iterator_result :=
  if size_ b <? 4 then Ok (ErrorIterator (Corruption (str "bad block contents")))
  else
    n ← NumRestarts (data_ b) (size_ b);
    if n =? 0 then Ok EmptyIterator
    else it ← new_iter (restart_offset_ b) n; Ok (BlockIterator (restart_offset_ b) n it).

End Block.

(** ** Lemmas *)

(** *** Entries *)

(** A row of a block: the length of the shared prefix, the key and the value. *)
Definition row : Type := nat * list byte * list byte.
Definition row_key (x : row) : list byte := x.1.2.
Definition row_value (x : row) : list byte := x.2.
Definition delta (x : row) : list byte := drop x.1.1 (row_key x).
Definition header (x : row) : list byte :=
  EncodeVarint32 (u32 (Z.of_nat x.1.1)) ++ EncodeVarint32 (u32 (blen (delta x))) ++
  EncodeVarint32 (u32 (blen (row_value x))).
Definition enc (x : row) : list byte := header x ++ delta x ++ row_value x.
Definition body (rows : list row) : list byte := concat (map enc rows).
Definition off (rows : list row) (i : nat) : Z := blen (body (take i rows)).

Lemma body_app a b : body (a ++ b) = body a ++ body b.
Proof. unfold body. by rewrite map_app, concat_app. Qed.
Lemma body_cons x b : body (x :: b) = enc x ++ body b.
Proof. done. Qed.

Lemma u32_u32 z : is_u32 (u32 z).
Proof. apply u32_range. Qed.

Lemma entry_header_length x : (3 ≤ length (header x))%nat.
Proof.
  unfold header. rewrite !length_app.
  pose proof (EncodeVarint32_length _ (u32_range (Z.of_nat x.1.1))).
  pose proof (EncodeVarint32_length _ (u32_range (blen (delta x)))).
  pose proof (EncodeVarint32_length _ (u32_range (blen (row_value x)))). lia.
Qed.

Lemma enc_length x : (3 + length (delta x) + length (row_value x) ≤ length (enc x))%nat.
Proof. unfold enc. rewrite !length_app. pose proof (entry_header_length x). lia. Qed.

Lemma off_S rows i x : rows !! i = Some x → off rows (S i) = off rows i + blen (enc x).
Proof.
  intros Hx. unfold off. rewrite (take_S_r _ _ _ Hx), body_app, blen_app. simpl.
  by rewrite body_cons, app_nil_r.
Qed.

Lemma off_0 rows : off rows 0 = 0.
Proof. done. Qed.

Lemma off_all rows : off rows (length rows) = blen (body rows).
Proof. unfold off. by rewrite firstn_all. Qed.

Lemma off_mono rows i j : (i ≤ j)%nat → off rows i ≤ off rows j.
Proof.
  intros Hij. unfold off. replace j with (i + (j - i))%nat by lia.
  rewrite <- take_take_drop, body_app, blen_app.
  pose proof (blen_nonneg (body (take (j - i) (drop i rows)))). lia.
Qed.

Lemma off_lt rows i j : (i < j ≤ length rows)%nat → off rows i < off rows j.
Proof.
  intros Hij. destruct (lookup_lt_is_Some_2 rows i ltac:(lia)) as [x Hx].
  pose proof (off_S rows i x Hx). pose proof (enc_length x).
  pose proof (off_mono rows (S i) j ltac:(lia)). unfold blen in *. lia.
Qed.

Lemma off_lt_inv rows i j :
  (i ≤ length rows)%nat → (j ≤ length rows)%nat → off rows i < off rows j → (i < j)%nat.
Proof.
  intros Hi Hj Hlt. destruct (Nat.lt_ge_cases i j) as [|Hge]; [done|].
  pose proof (off_mono rows j i Hge). lia.
Qed.

Lemma length_body rows : (length rows ≤ length (body rows))%nat.
Proof.
  induction rows as [|x rows IH]; [done|]. rewrite body_cons, length_app.
  pose proof (enc_length x). simpl. lia.
Qed.

(** The fast path of [DecodeEntry] reads what the general one reads. *)
Lemma lor_lt_128 a b c :
  0 ≤ a < 256 → 0 ≤ b < 256 → 0 ≤ c < 256 → Z.lor (Z.lor a b) c < 128 → a < 128 ∧ b < 128 ∧ c < 128.
Proof.
  intros Ha Hb Hc Hlt.
  assert (∀ x y, 0 ≤ x → 0 ≤ y → x ≤ Z.lor x y) as Hle.
  { intros x y Hx Hy. pose proof (proj2 (Z.ldiff_nonneg y x) (or_introl Hy)).
    replace (Z.lor x y) with (x + Z.ldiff y x); [lia|].
    rewrite Z.add_nocarry_lor; apply Z.bits_inj'; intros i _;
      rewrite ?Z.land_spec, ?Z.lor_spec, Z.ldiff_spec, ?Z.bits_0;
      by destruct (Z.testbit x i), (Z.testbit y i). }
  assert (0 ≤ Z.lor a b) as Hab by (apply Z.lor_nonneg; lia).
  pose proof (Hle (Z.lor a b) c Hab ltac:(lia)). pose proof (Hle a b ltac:(lia) ltac:(lia)).
  pose proof (Hle b a ltac:(lia) ltac:(lia)) as H1. rewrite Z.lor_comm in H1.
  pose proof (Hle c (Z.lor a b) ltac:(lia) Hab) as H2. rewrite (Z.lor_comm c) in H2. lia.
Qed.

Lemma GetVarint32Ptr_small b rest : b2z b < 128 → GetVarint32Ptr (b :: rest) = Some (b2z b, rest).
Proof.
  intros Hb. unfold GetVarint32Ptr. pose proof (b2z_range b). rewrite continuation_bit by lia.
  by destruct (Z.ltb_spec (b2z b) 128); [|lia].
Qed.

Import Block.

Lemma decode_lengths_enc x rest :
  blen (row_key x) < 2 ^ 32 → blen (row_value x) < 2 ^ 32 → (x.1.1 ≤ length (row_key x))%nat →
  decode_lengths (enc x ++ rest) =
  Some (Z.of_nat x.1.1, blen (delta x), blen (row_value x), delta x ++ row_value x ++ rest).
Proof.
  intros Hk Hv Hs.
  assert (is_u32 (Z.of_nat x.1.1) ∧ is_u32 (blen (delta x)) ∧ is_u32 (blen (row_value x))) as (H1 & H2 & H3).
  { unfold is_u32, delta, blen in *. rewrite length_drop. lia. }
  set (bytes := enc x ++ rest).
  assert (∃ q1 q2 q3, GetVarint32Ptr bytes = Some (Z.of_nat x.1.1, q1) ∧
    GetVarint32Ptr q1 = Some (blen (delta x), q2) ∧ GetVarint32Ptr q2 = Some (blen (row_value x), q3) ∧
    q3 = delta x ++ row_value x ++ rest) as (q1 & q2 & q3 & E1 & E2 & E3 & Hq).
  { do 3 eexists. subst bytes. unfold enc, header. rewrite !u32_small, <- !app_assoc by done.
    split; [by apply varint32_decode|]. split; [by apply varint32_decode|].
    split; [by apply varint32_decode | done]. }
  assert (3 ≤ length bytes)%nat as Hlen.
  { subst bytes. rewrite length_app. pose proof (enc_length x). lia. }
  clearbody bytes. unfold decode_lengths.
  destruct bytes as [|b0 [|b1 [|b2 r]]]; simpl in Hlen; try lia.
  destruct (Z.ltb_spec (Z.lor (Z.lor (b2z b0) (b2z b1)) (b2z b2)) 128) as [Hf|_].
  - apply lor_lt_128 in Hf as (L0 & L1 & L2); try apply b2z_range.
    rewrite GetVarint32Ptr_small in E1 by done. injection E1 as Ea <-.
    rewrite GetVarint32Ptr_small in E2 by done. injection E2 as Eb <-.
    rewrite GetVarint32Ptr_small in E3 by done. injection E3 as Ec <-. congruence.
  - rewrite E1, E2, E3. congruence.
Qed.

Lemma DecodeEntry_enc pre x post tail :
  blen (pre ++ enc x ++ post) < 2 ^ 32 → blen (row_key x) < 2 ^ 32 → (x.1.1 ≤ length (row_key x))%nat →
  let data := pre ++ enc x ++ post ++ tail in
  let p := blen pre + blen (header x) in
  DecodeEntry data (blen pre) (blen (pre ++ enc x ++ post)) =
    Some (p, Z.of_nat x.1.1, blen (delta x), blen (row_value x)) ∧
  mem_read data p (blen (delta x)) = Ok (delta x) ∧
  mem_read data (p + blen (delta x)) (blen (row_value x)) = Ok (row_value x) ∧
  p + blen (delta x) + blen (row_value x) = blen pre + blen (enc x).
Proof.
  intros Hb Hk Hs. cbv zeta.
  pose proof (blen_nonneg pre). pose proof (blen_nonneg post). pose proof (blen_nonneg tail).
  pose proof (blen_nonneg (delta x)). pose proof (blen_nonneg (row_value x)).
  assert (blen (enc x) = blen (header x) + blen (delta x) + blen (row_value x)) as Henc.
  { unfold enc. rewrite !blen_app. lia. }
  rewrite !blen_app in Hb. pose proof (entry_header_length x) as Hh. pose proof (blen_nonneg (header x)).
  assert (∀ a m c : list byte, mem_read (a ++ m ++ c) (blen a) (blen m) = Ok m) as Hread.
  { intros a m c. pose proof (blen_nonneg c). pose proof (blen_nonneg a). pose proof (blen_nonneg m).
    rewrite mem_read_ok by (rewrite ?blen_app; lia).
    unfold blen. by rewrite !Nat2Z.id, drop_app_length, take_app_length. }
  split; [|split; [|split; [|lia]]].
  - unfold DecodeEntry. rewrite !blen_app.
    destruct (Z.ltb_spec (blen pre + (blen (enc x) + blen post) - blen pre) 3); [unfold blen in *; lia|].
    replace (blen pre + (blen (enc x) + blen post) - blen pre) with (blen (enc x ++ post))
      by (rewrite blen_app; lia).
    rewrite app_assoc with (l := enc x). unfold blen at 1 2. rewrite !Nat2Z.id, drop_app_length, take_app_length.
    rewrite decode_lengths_enc by (try done; lia). rewrite !blen_app.
    destruct (Z.ltb_spec (u32 (blen (delta x) + (blen (row_value x) + blen post)))
      (u32 (blen (delta x) + blen (row_value x)))) as [Hlt|_].
    { rewrite !u32_small in Hlt by (unfold is_u32; unfold blen in *; lia). lia. }
    do 4 f_equal. lia.
  - replace (blen pre + blen (header x)) with (blen (pre ++ header x)) by (by rewrite blen_app).
    unfold enc. rewrite <- !app_assoc, (app_assoc pre). apply Hread.
  - replace (blen pre + blen (header x) + blen (delta x)) with (blen (pre ++ header x ++ delta x))
      by (rewrite !blen_app; lia).
    unfold enc. rewrite <- !app_assoc.
    replace (pre ++ header x ++ delta x ++ row_value x ++ post ++ tail) with
      ((pre ++ header x ++ delta x) ++ row_value x ++ post ++ tail) by (by rewrite <- !app_assoc).
    apply Hread.
Qed.

(** *** Well-formed blocks and positions of the iterator *)

(** A row shares a prefix of the key before it; the first one shares nothing. *)
Definition chain_ok (rows : list row) : Prop :=
  ∀ i x, rows !! i = Some x → (x.1.1 ≤ length (row_key x))%nat ∧
    match i with
    | O => x.1.1 = O
    | S j => ∀ y, rows !! j = Some y → take x.1.1 (row_key x) = take x.1.1 (row_key y)
    end.

(** Restart points are rows that share nothing, the first row (or the end of an empty
    block) among them. *)
Definition restarts_ok (rows : list row) (rs : list nat) : Prop :=
  rs !! O = Some O ∧ (rows = [] → length rs = 1%nat) ∧
  ∀ j r, rs !! j = Some r → (r ≤ length rows)%nat ∧ (0 < length rows → r < length rows)%nat ∧
    ∀ x, rows !! r = Some x → x.1.1 = O.

Definition block_bytes (rows : list row) (rs : list nat) : list byte :=
  body rows ++ concat (map EncodeFixed32 (map (λ r, off rows r) rs)) ++ EncodeFixed32 (Z.of_nat (length rs)).

Section cursor.
Context (cmp : Comparator) (rows : list row) (rs : list nat).
Context (Hchain : chain_ok rows) (Hrs : restarts_ok rows rs).
Context (Hsize : blen (block_bytes rows rs) < 2 ^ 32).

#[local] Notation data := (block_bytes rows rs).
#[local] Notation restarts := (blen (body rows)).
#[local] Notation num := (Z.of_nat (length rs)).
#[local] Notation n := (length rows).

Lemma data_blen : blen data = restarts + 4 * num + 4.
Proof.
  unfold block_bytes. rewrite !blen_app. change (blen (EncodeFixed32 _)) with 4.
  assert (∀ l : list Z, blen (concat (map EncodeFixed32 l)) = 4 * blen l) as ->.
  { induction l as [|x l IH]; [done|]. cbn [map concat]. rewrite blen_app, IH, blen_cons.
    change (blen (EncodeFixed32 x)) with 4. lia. }
  unfold blen at 2. rewrite length_map. lia.
Qed.

Lemma sizes : 0 ≤ restarts < 2 ^ 32 ∧ 0 < num < 2 ^ 32 ∧ (n < S (length data))%nat.
Proof.
  pose proof data_blen as E. pose proof (blen_nonneg (body rows)).
  assert (0 < length rs)%nat by (destruct Hrs as [H0 _]; by apply lookup_lt_Some in H0).
  pose proof (length_body rows). unfold blen in *. lia.
Qed.

Lemma off_range i : (i ≤ n)%nat → 0 ≤ off rows i ≤ restarts.
Proof.
  intros Hi. rewrite <- off_all. split; [apply (off_mono rows 0 i); lia | by apply off_mono].
Qed.

Lemma shared_le i x y :
  rows !! S i = Some x → rows !! i = Some y → (x.1.1 ≤ length (row_key y))%nat.
Proof.
  intros Hx Hy. destruct (Hchain _ _ Hx) as [Hs Heq]. specialize (Heq y Hy).
  apply (f_equal length) in Heq. rewrite !length_take in Heq. lia.
Qed.

(** A key is spelled out by the rows up to its own. *)
Lemma key_le_off i x : rows !! i = Some x → Z.of_nat (length (row_key x)) ≤ off rows (S i).
Proof.
  revert x. induction i as [|i IH]; intros x Hx; pose proof (off_S rows _ x Hx) as HS;
    pose proof (enc_length x); destruct (Hchain _ _ Hx) as [Hs Hp];
    assert (length (row_key x) = x.1.1 + length (delta x))%nat by (unfold delta; rewrite length_drop; lia).
  - rewrite off_0 in HS. unfold blen in *. lia.
  - destruct (lookup_lt_is_Some_2 rows i) as [y Hy]; [apply lookup_lt_Some in Hx; lia|].
    pose proof (shared_le i x y Hx Hy). specialize (IH y Hy). unfold blen in *. lia.
Qed.

Lemma Hkeys i x : rows !! i = Some x → blen (row_key x) < 2 ^ 32.
Proof.
  intros Hx. pose proof (key_le_off i x Hx). pose proof (lookup_lt_Some _ _ _ Hx).
  pose proof (off_range (S i) ltac:(lia)). pose proof sizes. unfold blen in *. lia.
Qed.

(** The entry of row [i]. *)
Lemma decode_row i x :
  rows !! i = Some x →
  ∃ p, DecodeEntry data (off rows i) restarts = Some (p, Z.of_nat x.1.1, blen (delta x), blen (row_value x)) ∧
    mem_read data p (blen (delta x)) = Ok (delta x) ∧
    mem_read data (p + blen (delta x)) (blen (row_value x)) = Ok (row_value x) ∧
    p + blen (delta x) + blen (row_value x) = off rows (S i).
Proof.
  intros Hx. destruct (Hchain _ _ Hx) as [Hs _].
  assert (body rows = body (take i rows) ++ enc x ++ body (drop (S i) rows)) as Hb.
  { rewrite <- (take_drop_middle rows i x Hx) at 1. by rewrite body_app. }
  pose proof sizes as (Hr & _ & _).
  pose proof (DecodeEntry_enc (body (take i rows)) x (body (drop (S i) rows))
    (concat (map EncodeFixed32 (map (λ r, off rows r) rs)) ++ EncodeFixed32 num)) as H.
  rewrite <- Hb in H. destruct (H ltac:(lia) (Hkeys _ _ Hx) Hs) as (E & R1 & R2 & Ho). clear H.
  assert (body (take i rows) ++ enc x ++ body (drop (S i) rows) ++
    concat (map EncodeFixed32 (map (λ r, off rows r) rs)) ++ EncodeFixed32 num = data) as Hd.
  { unfold block_bytes. rewrite Hb. by rewrite <- !app_assoc. }
  rewrite Hd in E, R1, R2. eexists. split; [exact E|]. split; [exact R1|]. split; [exact R2|].
  rewrite Ho. by rewrite (off_S _ _ _ Hx).
Qed.

Lemma GetRestartPoint_spec j r :
  rs !! j = Some r → GetRestartPoint data restarts num (Z.of_nat j) = Ok (off rows r).
Proof.
  intros Hj. pose proof (lookup_lt_Some _ _ _ Hj). destruct (proj2 (proj2 Hrs) _ _ Hj) as (Hr & _).
  unfold GetRestartPoint. destruct (Z.ltb_spec (Z.of_nat j) num); [|lia]. cbn [negb].
  unfold block_bytes. apply DecodeFixed32_array.
  - by rewrite list_lookup_fmap, Hj.
  - pose proof (off_range r Hr). pose proof sizes. unfold is_u32. lia.
Qed.

Lemma restart_lookup j : 0 ≤ j < num → ∃ r, rs !! Z.to_nat j = Some r ∧
  GetRestartPoint data restarts num j = Ok (off rows r) ∧ (r ≤ n)%nat ∧ (0 < n → r < n)%nat ∧
  (∀ x, rows !! r = Some x → x.1.1 = O).
Proof.
  intros Hj. destruct (lookup_lt_is_Some_2 rs (Z.to_nat j) ltac:(lia)) as [r Hr].
  exists r. split; [done|]. split; [|apply (proj2 (proj2 Hrs) _ _ Hr)].
  rewrite <- (Z2Nat.id j) by lia. by apply GetRestartPoint_spec.
Qed.

(** The iterator stands on row [i]; it is about to parse row [i]; it is past the end. *)
Definition at_row (it : iter) (i : nat) : Prop :=
  ∃ x p, rows !! i = Some x ∧ current_ it = off rows i ∧ key_ it = row_key x ∧
    value_ it = Some (p, blen (row_value x)) ∧
    mem_read data p (blen (row_value x)) = Ok (row_value x) ∧ p + blen (row_value x) = off rows (S i) ∧
    0 ≤ restart_index_ it < num ∧ status_ it = status_ok.
Definition before (it : iter) (i : nat) : Prop :=
  (i ≤ n)%nat ∧ (∃ p l, value_ it = Some (p, l) ∧ p + l = off rows i) ∧
  (∀ x, rows !! i = Some x → take x.1.1 (row_key x) = take x.1.1 (key_ it) ∧ (x.1.1 ≤ length (key_ it))%nat) ∧
  0 ≤ restart_index_ it < num ∧ status_ it = status_ok.
Definition past_end (it : iter) : Prop := current_ it = restarts ∧ status_ it = status_ok.

Lemma next_offset_before it i : before it i → NextEntryOffset it = Ok (off rows i).
Proof.
  intros (Hi & (p & l & Hv & Hp) & _). unfold NextEntryOffset. rewrite Hv, Hp.
  pose proof (off_range i Hi). pose proof sizes. rewrite u32_small by (unfold is_u32; lia). done.
Qed.

Lemma at_before it i : at_row it i → before it (S i).
Proof.
  intros (x & p & Hx & Hc & Hk & Hv & _ & Hp & Hri & Hst). pose proof (lookup_lt_Some _ _ _ Hx).
  split; [lia|]. split; [by eexists _, _|]. split; [|done].
  intros y Hy. destruct (Hchain _ _ Hy) as [Hs Heq]. rewrite Hk.
  split; [by apply Heq | by apply (shared_le i)].
Qed.

Lemma advance_restart_ok fuel index current :
  0 ≤ index < num → num - index < Z.of_nat fuel →
  ∃ index', advance_restart data restarts num fuel index current = Ok index' ∧ 0 ≤ index' < num.
Proof.
  revert index. induction fuel as [|fuel IH]; intros index Hi Hf; [lia|]. cbn [advance_restart].
  destruct (Z.ltb_spec (index + 1) num) as [Hlt|]; [|by exists index].
  destruct (restart_lookup (index + 1) ltac:(lia)) as (r & _ & -> & _). cbn [mbind outcome_bind].
  destruct (off rows r <? current); [|by exists index]. apply IH; lia.
Qed.

Lemma parse_at it i :
  before it i → (i < n)%nat →
  ∃ it', ParseNextKey data restarts num it = Ok (it', true) ∧ at_row it' i.
Proof.
  intros Hb Hi. pose proof (next_offset_before _ _ Hb) as Hn.
  destruct Hb as (_ & _ & Hkey & Hri & Hst).
  destruct (lookup_lt_is_Some_2 rows i Hi) as [x Hx]. destruct (Hkey x Hx) as [Htake Hle].
  unfold ParseNextKey. rewrite Hn. cbn [mbind outcome_bind].
  pose proof (off_lt rows i n ltac:(lia)) as Hlt. rewrite off_all in Hlt.
  destruct (Z.leb_spec restarts (off rows i)); [lia|].
  destruct (decode_row i x Hx) as (p & -> & R1 & R2 & Ho).
  destruct (Z.ltb_spec (blen (key_ it)) (Z.of_nat x.1.1)); [unfold blen in *; lia|].
  rewrite R1. cbn [mbind outcome_bind].
  destruct (advance_restart_ok (S (Z.to_nat num)) (restart_index_ it) (off rows i) Hri) as (ri & -> & Hri'); [lia|].
  cbn [mbind outcome_bind]. eexists. split; [reflexivity|].
  exists x, (p + blen (delta x)). cbn [current_ key_ value_ restart_index_ status_].
  split; [done|]. split; [done|]. split; [|done].
  rewrite Nat2Z.id, <- Htake. apply take_drop.
Qed.

Lemma parse_end it :
  before it n → ∃ it', ParseNextKey data restarts num it = Ok (it', false) ∧ past_end it'.
Proof.
  intros Hb. pose proof (next_offset_before _ _ Hb) as Hn. unfold ParseNextKey. rewrite Hn, off_all.
  cbn [mbind outcome_bind]. destruct (Z.leb_spec restarts restarts); [|lia].
  eexists. split; [reflexivity|]. split; [done | apply Hb].
Qed.

Lemma seek_restart it j :
  0 ≤ j < num → status_ it = status_ok →
  ∃ it' r, SeekToRestartPoint data restarts num it j = Ok it' ∧ rs !! Z.to_nat j = Some r ∧
    before it' r ∧ (0 < n → r < n)%nat.
Proof.
  intros Hj Hst. destruct (restart_lookup j Hj) as (r & Hr & E & Hrn & Hrn' & Hz).
  unfold SeekToRestartPoint. rewrite E. cbn [mbind outcome_bind]. eexists _, r. split; [reflexivity|].
  split; [done|]. split; [|done]. split; [done|].
  split; [exists (off rows r), 0; split; [done | lia]|]. split; [|done].
  intros x Hx. rewrite (Hz x Hx). split; [done | lia].
Qed.

(** *** The movements *)

Lemma scan_spec fuel it i j :
  before it i → (i ≤ j < n)%nat → (j - i < fuel)%nat →
  ∃ it', scan data restarts num fuel it (off rows (S j)) = Ok it' ∧ at_row it' j.
Proof.
  revert it i. induction fuel as [|fuel IH]; intros it i Hb Hij Hf; [lia|]. cbn [scan].
  destruct (parse_at it i Hb ltac:(lia)) as (it1 & -> & Hat). cbn [mbind outcome_bind fst snd].
  rewrite (next_offset_before _ _ (at_before _ _ Hat)). cbn [mbind outcome_bind].
  destruct (Z.ltb_spec (off rows (S i)) (off rows (S j))) as [Hlt|Hge].
  - apply off_lt_inv in Hlt; [|lia|lia]. apply (IH it1 (S i)); [by apply at_before | lia | lia].
  - assert (i = j) as ->; [|by exists it1].
    destruct (Nat.lt_ge_cases i j); [|lia]. pose proof (off_lt rows (S i) (S j) ltac:(lia)). lia.
Qed.

(** What the iterator shows at position [i] of the entries; from [n] on it is not
    valid. *)
Definition shows (it : iter) (i : nat) : Prop :=
  if decide (i < n)%nat then at_row it i else past_end it.

Lemma shows_at it i : (i < n)%nat → shows it i ↔ at_row it i.
Proof. intros. unfold shows. by rewrite decide_True. Qed.
Lemma shows_end it i : (n ≤ i)%nat → shows it i ↔ past_end it.
Proof. intros. unfold shows. rewrite decide_False; [done | lia]. Qed.

Lemma shows_status it i : shows it i → status_ it = status_ok.
Proof. unfold shows. case_decide; [by intros (?&?&?&?&?&?&?&?&?&?) | by intros []]. Qed.

Lemma at_valid it i : at_row it i → Valid restarts it = true ∧ (i < n)%nat.
Proof.
  intros (x & p & Hx & Hc & _). pose proof (lookup_lt_Some _ _ _ Hx). split; [|done].
  unfold Valid. rewrite Hc. pose proof (off_lt rows i n ltac:(lia)) as Hlt. rewrite off_all in Hlt.
  apply Z.ltb_lt. done.
Qed.

Lemma shows_valid it i : shows it i → Valid restarts it = bool_decide (i < n)%nat.
Proof.
  unfold shows. case_decide as Hd.
  - intros Hat. rewrite bool_decide_true by done. by apply at_valid in Hat as [? _].
  - intros [Hc _]. rewrite bool_decide_false by done. unfold Valid. rewrite Hc. apply Z.ltb_irrefl.
Qed.

Lemma parse_shows it i :
  before it i → ∃ it' b, ParseNextKey data restarts num it = Ok (it', b) ∧ shows it' i ∧
    b = bool_decide (i < n)%nat.
Proof.
  intros Hb. destruct (decide (i < n)%nat) as [Hi|Hi].
  - destruct (parse_at it i Hb Hi) as (it' & E & Hat). exists it', true.
    split; [done|]. split; [by apply shows_at|]. by rewrite bool_decide_true.
  - assert (i = n) as -> by (destruct Hb; lia).
    destruct (parse_end it Hb) as (it' & E & Hpe). exists it', false.
    split; [done|]. split; [by apply shows_end|]. by rewrite bool_decide_false.
Qed.

Lemma SeekToFirst_spec it i :
  shows it i → ∃ it', SeekToFirst data restarts num it = Ok it' ∧ shows it' 0.
Proof.
  intros Hst%shows_status. unfold SeekToFirst. pose proof sizes as (_ & Hn & _).
  destruct (seek_restart it 0 ltac:(lia) Hst) as (it1 & r & -> & Hr & Hb & _). cbn [mbind outcome_bind].
  destruct Hrs as [H0 _]. change (Z.to_nat 0) with 0%nat in Hr. rewrite H0 in Hr. injection Hr as <-.
  destruct (parse_shows it1 0 Hb) as (it2 & b & -> & Hs & _). cbn [mbind outcome_bind fst]. by exists it2.
Qed.

Lemma SeekToLast_spec it i :
  shows it i → ∃ it', SeekToLast data restarts num it = Ok it' ∧ shows it' (pred n).
Proof.
  intros Hst%shows_status. unfold SeekToLast. pose proof sizes as (_ & Hn & Hfuel).
  destruct (seek_restart it (num - 1) ltac:(lia) Hst) as (it1 & r & -> & Hr & Hb & Hrn). cbn [mbind outcome_bind].
  destruct (decide (n = 0%nat)) as [Hz|Hz].
  - assert (r = 0%nat) as -> by (destruct Hb; lia). cbn [scan].
    destruct (parse_shows it1 0 Hb) as (it2 & b & -> & Hs & ->). cbn [mbind outcome_bind fst snd].
    rewrite bool_decide_false by lia. exists it2. split; [done|]. by rewrite Hz.
  - destruct (scan_spec (S (length data)) it1 r (pred n) Hb) as (it2 & E & Hat); [lia | lia |].
    replace (S (pred n)) with n in E by lia. rewrite off_all in E. rewrite E.
    exists it2. split; [done|]. apply shows_at; [lia | done].
Qed.

Lemma Block_Next_spec it i :
  shows it i → (i < n)%nat → ∃ it', Next data restarts num it = Ok it' ∧ shows it' (S i).
Proof.
  intros Hs Hi. unfold Next. rewrite (shows_valid _ _ Hs), bool_decide_true by done.
  apply shows_at in Hs; [|done].
  destruct (parse_shows it (S i) (at_before _ _ Hs)) as (it' & b & -> & Hs' & _).
  cbn [mbind outcome_bind fst]. by exists it'.
Qed.

Lemma prev_restart_spec fuel index i :
  0 ≤ index < num → index < Z.of_nat fuel → (i < n)%nat →
  (i = O ∧ prev_restart data restarts num fuel index (off rows i) = Ok None) ∨
  (∃ j r, prev_restart data restarts num fuel index (off rows i) = Ok (Some j) ∧ 0 ≤ j < num ∧
     rs !! Z.to_nat j = Some r ∧ (r < i)%nat).
Proof.
  revert index. induction fuel as [|fuel IH]; intros index Hidx Hf Hi; [lia|]. cbn [prev_restart].
  destruct (restart_lookup index Hidx) as (r & Hr & -> & Hrn & _). cbn [mbind outcome_bind].
  destruct (Z.leb_spec (off rows i) (off rows r)) as [Hle|Hlt].
  - destruct (Z.eqb_spec index 0) as [->|Hne].
    + left. split; [|done]. change (Z.to_nat 0) with 0%nat in Hr. rewrite (proj1 Hrs) in Hr. injection Hr as <-.
      rewrite off_0 in Hle. destruct i as [|i]; [done|].
      pose proof (off_lt rows 0 (S i) ltac:(lia)). rewrite off_0 in *. lia.
    + apply IH; lia.
  - right. exists index, r. split; [done|]. split; [done|]. split; [done|].
    apply (off_lt_inv rows); [done | lia | done].
Qed.

Lemma Prev_spec it i :
  shows it i → (i < n)%nat →
  ∃ it', Prev data restarts num it = Ok it' ∧ shows it' (if (i =? 0)%nat then n else pred i).
Proof.
  intros Hs Hi. unfold Prev. rewrite (shows_valid _ _ Hs), bool_decide_true by done.
  pose proof (shows_status _ _ Hs) as Hst. apply shows_at in Hs; [|done].
  pose proof sizes as (_ & _ & Hfuel). destruct Hs as (x & p & Hx & Hc & Hk & Hv & _ & _ & Hri & _).
  rewrite Hc.
  destruct (prev_restart_spec (S (Z.to_nat (restart_index_ it))) (restart_index_ it) i Hri ltac:(lia) Hi)
    as [[-> ->]|(j & r & -> & Hj & Hr & Hlt)]; cbn [mbind outcome_bind].
  - eexists. split; [reflexivity|]. simpl. by apply shows_end.
  - destruct (seek_restart it j Hj Hst) as (it1 & r' & -> & Hr' & Hb & _). cbn [mbind outcome_bind].
    rewrite Hr in Hr'. injection Hr' as <-.
    destruct (scan_spec (S (length data)) it1 r (pred i) Hb) as (it2 & E & Hat); [lia | lia |].
    replace (S (pred i)) with i in E by lia. exists it2. split; [done|].
    destruct (Nat.eqb_spec i 0); [lia|]. apply shows_at; [lia | done].
Qed.

(** *** Searching *)

(** The index of the first entry that is not below the target. *)
Fixpoint seek_index (es : list row) (target : list byte) : nat :=
  match es with
  | [] => O
  | x :: es => if 0 <=? Compare cmp (row_key x) target then O else S (seek_index es target)
  end.

Lemma seek_index_le es target : (seek_index es target ≤ length es)%nat.
Proof. induction es as [|x es IH]; simpl; [lia|]. destruct (_ <=? _); lia. Qed.

Lemma seek_index_skip k es target :
  (∀ i x, (i < k)%nat → es !! i = Some x → Compare cmp (row_key x) target < 0) → (k ≤ length es)%nat →
  seek_index es target = (k + seek_index (drop k es) target)%nat.
Proof.
  revert es. induction k as [|k IH]; intros [|x es] Hlt Hk; simpl in *; try lia; try done.
  pose proof (Hlt 0%nat x ltac:(lia) eq_refl).
  destruct (Z.leb_spec 0 (Compare cmp (row_key x) target)); [lia|]. f_equal. apply IH; [|lia].
  intros i y Hi Hy. apply (Hlt (S i)); [lia | done].
Qed.

Lemma seek_scan_spec fuel target it i :
  before it i → (n - i < fuel)%nat →
  ∃ it', seek_scan cmp data restarts num fuel target it = Ok it' ∧
    shows it' (i + seek_index (drop i rows) target).
Proof.
  revert it i. induction fuel as [|fuel IH]; intros it i Hb Hf; [lia|]. cbn [seek_scan].
  destruct (parse_shows it i Hb) as (it1 & b & -> & Hs & ->). cbn [mbind outcome_bind fst snd].
  destruct (decide (i < n)%nat) as [Hi|Hi].
  - rewrite bool_decide_true by done. cbn [negb]. apply shows_at in Hs as Hat; [|done].
    pose proof Hat as (x & p & Hx & _ & Hk & _). rewrite Hk.
    rewrite (drop_S _ _ _ Hx). cbn [seek_index].
    destruct (Z.leb_spec 0 (Compare cmp (row_key x) target)).
    + exists it1. split; [done|]. by rewrite Nat.add_0_r.
    + destruct (IH it1 (S i) (at_before _ _ Hat) ltac:(lia)) as (it2 & -> & Hs2).
      exists it2. split; [done|]. by rewrite Nat.add_succ_r.
  - rewrite bool_decide_false by done. cbn [negb]. exists it1. split; [done|].
    rewrite skipn_all2 by lia. simpl. by rewrite Nat.add_0_r.
Qed.

(** The entries are sorted. *)
Context (valid : list byte → Prop) `{!ComparatorLaws valid cmp}.
Context (Hvalid : ∀ i x, rows !! i = Some x → valid (row_key x)).
Context (Hsorted : ∀ i j x y, (i < j)%nat → rows !! i = Some x → rows !! j = Some y →
  Compare cmp (row_key x) (row_key y) < 0).

Lemma bisect_spec fuel target left right :
  (0 < n)%nat → 0 ≤ left ≤ right → right < num → right - left < Z.of_nat fuel →
  (left = 0 ∨ ∃ r x, rs !! Z.to_nat left = Some r ∧ rows !! r = Some x ∧ Compare cmp (row_key x) target < 0) →
  ∃ l, bisect cmp data restarts num fuel target left right = Ok (Some l) ∧ 0 ≤ l < num ∧
    (l = 0 ∨ ∃ r x, rs !! Z.to_nat l = Some r ∧ rows !! r = Some x ∧ Compare cmp (row_key x) target < 0).
Proof.
  intros Hn. revert left right.
  induction fuel as [|fuel IH]; intros left right Hlr Hr Hf Hinv; [lia|]. cbn [bisect].
  destruct (Z.ltb_spec left right) as [Hlt|]; [|exists left; split; [done|]; split; [lia | done]].
  pose proof sizes as (_ & Hnum & _). pose proof Hsize as Hsz. rewrite data_blen in Hsz. pose proof (blen_nonneg (body rows)).
  rewrite u32_small by (unfold is_u32; lia).
  assert (left < (left + right + 1) / 2 ≤ right) as Hmid by dlia.
  revert Hmid. generalize ((left + right + 1) / 2) as mid. intros mid Hmid.
  destruct (restart_lookup mid ltac:(lia)) as (r & Hrm & -> & _ & Hrn & Hz). cbn [mbind outcome_bind].
  destruct (lookup_lt_is_Some_2 rows r (Hrn Hn)) as [x Hx].
  destruct (decode_row r x Hx) as (p & -> & R1 & _ & _). rewrite (Hz x Hx).
  change (Z.of_nat 0 =? 0) with true. cbn [negb]. rewrite R1. cbn [mbind outcome_bind].
  assert (delta x = row_key x) as ->. { unfold delta. by rewrite (Hz x Hx), drop_0. }
  destruct (Z.ltb_spec (Compare cmp (row_key x) target) 0).
  - apply IH; [lia | lia | lia |]. right. by exists r, x.
  - apply IH; [lia | lia | lia | done].
Qed.

Lemma Seek_spec it i target :
  shows it i → valid target →
  ∃ it', Seek cmp data restarts num it target = Ok it' ∧ shows it' (seek_index rows target).
Proof.
  intros Hst%shows_status Ht. unfold Seek. pose proof sizes as (_ & Hnum & Hfuel).
  rewrite (u32_small (num - 1)) by (unfold is_u32; lia).
  assert (∃ l, bisect cmp data restarts num (S (Z.to_nat num)) target 0 (num - 1) = Ok (Some l) ∧ 0 ≤ l < num ∧
    (l = 0 ∨ ∃ r x, rs !! Z.to_nat l = Some r ∧ rows !! r = Some x ∧ Compare cmp (row_key x) target < 0))
    as (l & -> & Hl & Hinv).
  { destruct (decide (0 < n)%nat) as [Hn|Hn]; [apply bisect_spec; try done; try lia; by left|].
    assert (rows = []) as Hz by (destruct rows; [done | simpl in Hn; lia]).
    apply (proj1 (proj2 Hrs)) in Hz. exists 0. split; [|split; [lia | by left]].
    rewrite Hz. done. }
  cbn [mbind outcome_bind].
  destruct (seek_restart it l Hl Hst) as (it1 & r & -> & Hr & Hb & _). cbn [mbind outcome_bind].
  destruct (seek_scan_spec (S (length data)) target it1 r Hb) as (it2 & -> & Hs); [lia|].
  exists it2. split; [done|]. rewrite (seek_index_skip r rows target); [done| |apply Hb].
  destruct Hinv as [->|(r' & x & Hr' & Hx & Hlt)].
  - change (Z.to_nat 0) with 0%nat in Hr. rewrite (proj1 Hrs) in Hr. injection Hr as <-. intros; lia.
  - rewrite Hr in Hr'. injection Hr' as <-. intros i' y Hi Hy.
    pose proof (Hsorted _ _ _ _ Hi Hy Hx).
    apply (compare_lt_le valid cmp (row_key y) (row_key x) target); eauto. lia.
Qed.

End cursor.

(** *** The builder *)

Section build.
Context (cmp : Comparator) (interval : Z) (Hint : 1 ≤ interval).
Import BlockBuilder.

(** The calls of a table: [Add] for every entry and [Finish]. *)
Fixpoint add_all (b : builder) (es : list (list byte * list byte)) : outcome builder :=
  match es with
  | [] => Ok b
  | (k, v) :: es => b ← Add cmp interval b k v; add_all b es
  end.
Definition build (es : list (list byte * list byte)) : outcome (list byte) :=
  b ← new interval; b ← add_all b es; Ok (Finish b).2.

(** The key of the last row. *)
Definition last_key (rows : list row) : list byte :=
  match last rows with Some x => row_key x | None => [] end.

Record build_inv (b : builder) (rows : list row) (rs : list nat) : Prop := mkInv {
  inv_buffer : buffer_ b = body rows;
  inv_restarts : restarts_ b = map (λ r, u32 (off rows r)) rs;
  inv_open : finished_ b = false;
  inv_last : last_key_ b = last_key rows;
  inv_counter : 0 ≤ counter_ b ≤ interval ∧ (rows = [] → counter_ b = 0);
  inv_chain : chain_ok rows;
  inv_rs : restarts_ok rows rs
}.

Lemma off_snoc rows x r : (r ≤ length rows)%nat → off (rows ++ [x]) r = off rows r.
Proof. intros Hr. unfold off. by rewrite take_app_le. Qed.

Lemma chain_snoc rows x :
  chain_ok rows → (x.1.1 ≤ length (row_key x))%nat → (rows = [] → x.1.1 = O) →
  take x.1.1 (row_key x) = take x.1.1 (last_key rows) → chain_ok (rows ++ [x]).
Proof.
  intros Hc Hs H0 Ht i y Hy. destruct (decide (i < length rows)%nat) as [Hi|Hi].
  - rewrite lookup_app_l in Hy by done. destruct (Hc i y Hy) as [? Hp]. split; [done|].
    destruct i as [|i]; [done|]. intros z Hz. rewrite lookup_app_l in Hz by lia. by apply Hp.
  - assert (i = length rows) as ->.
    { apply lookup_lt_Some in Hy. rewrite length_app in Hy. simpl in Hy. lia. }
    rewrite list_lookup_middle in Hy by done. injection Hy as <-. split; [done|].
    destruct rows as [|z rows] using rev_ind; [by apply H0|]. clear IHrows.
    rewrite length_app, Nat.add_1_r. intros y Hy.
    rewrite <- app_assoc in Hy. cbn [app] in Hy. rewrite list_lookup_middle in Hy by done. injection Hy as <-.
    rewrite Ht. unfold last_key. by rewrite last_snoc.
Qed.

Lemma restarts_snoc rows rs x :
  restarts_ok rows rs → (rows = [] → x.1.1 = O) → restarts_ok (rows ++ [x]) rs.
Proof.
  intros (H0 & _ & Hr) Hx. split; [done|]. split; [intros []%app_eq_nil; done|].
  intros j r Hj. destruct (Hr j r Hj) as (Hle & Hlt & Hz). rewrite length_app. simpl.
  split; [lia|]. split.
  - intros _. destruct rows; simpl in *; lia.
  - intros y Hy. destruct (decide (r < length rows)%nat).
    + rewrite lookup_app_l in Hy by done. by apply Hz.
    + destruct rows as [|z rows]; [|simpl in *; lia]. simpl in Hle. replace r with O in Hy by lia.
      injection Hy as <-. by apply Hx.
Qed.

Lemma restarts_snoc_new rows rs x :
  rows ≠ [] → restarts_ok rows rs → x.1.1 = O → restarts_ok (rows ++ [x]) (rs ++ [length rows]).
Proof.
  intros Hne Hr Hx. destruct (restarts_snoc rows rs x Hr ltac:(done)) as (H0 & _ & Hrs).
  split; [by apply lookup_app_l_Some|]. split; [intros []%app_eq_nil; done|].
  intros j r Hj. destruct (decide (j < length rs)%nat) as [Hlt|Hge].
  - rewrite lookup_app_l in Hj by done. by apply (Hrs j).
  - assert (r = length rows) as ->.
    { rewrite lookup_app_r in Hj by lia. destruct (j - length rs)%nat; [by injection Hj as <- | done]. }
    rewrite length_app. simpl. split; [lia|]. split; [lia|].
    intros y Hy. rewrite list_lookup_middle in Hy by done. by injection Hy as <-.
Qed.

(** Adding an entry with a larger key adds a row for it. *)
Lemma Add_spec b rows rs k v :
  build_inv b rows rs → (rows ≠ [] → 0 < Compare cmp k (last_key rows)) →
  ∃ b' s rs', Add cmp interval b k v = Ok b' ∧ build_inv b' (rows ++ [(s, k, v)]) rs'.
Proof.
  intros [Hbuf Hres Hopen Hlast [Hcnt Hcnt0] Hch Hrs] Hcmp. unfold Add.
  assert (add_allowed cmp interval b k = true) as ->.
  { unfold add_allowed, empty. rewrite Hopen, Hlast, Hbuf. simpl.
    destruct (Z.leb_spec (counter_ b) interval); [simpl|lia].
    destruct rows as [|x rows]; [done|]. specialize (Hcmp ltac:(done)).
    destruct (Z.ltb_spec 0 (Compare cmp k (last_key (x :: rows)))); [apply orb_true_r | lia]. }
  cbn [negb]. destruct (diff_index_split (last_key_ b) k) as (p & s' & l & Es & El & Ed & _).
  assert (∃ s rs', (s ≤ length k)%nat ∧ (rows = [] → s = O) ∧ take s k = take s (last_key rows) ∧
    (if counter_ b <? interval then (Bytewise.diff_index (last_key_ b) k, restarts_ b, counter_ b)
     else (O, restarts_ b ++ [u32 (blen (buffer_ b))], 0)) =
    (s, map (λ r, u32 (off rows r)) rs', if counter_ b <? interval then counter_ b else 0) ∧
    restarts_ok (rows ++ [(s, k, v)]) rs' ∧ (∀ j r, rs' !! j = Some r → (r ≤ length rows)%nat))
    as (s & rs' & Hs & Hs0 & Htake & -> & Hrs' & Hle).
  { destruct (Z.ltb_spec (counter_ b) interval) as [Hlt|Hge].
    - exists (length p), rs. rewrite Ed, Hres. split; [rewrite El, length_app; lia|].
      assert (rows = [] → length p = O) as Hp0.
      { intros ->. rewrite Hlast in Es. unfold last_key in Es. simpl in Es.
        symmetry in Es. apply app_eq_nil in Es as [-> _]. done. }
      split; [done|]. split; [rewrite <- Hlast, Es, El; by rewrite !take_app_length|]. split; [done|].
      split; [by apply restarts_snoc | intros j r Hj; by apply (proj2 (proj2 Hrs) j r Hj)].
    - assert (rows ≠ []) as Hne by (intros ->; rewrite Hcnt0 in Hge by done; lia).
      exists O, (rs ++ [length rows]). split; [lia|]. split; [done|]. split; [done|].
      split; [rewrite Hres, Hbuf, map_app; simpl; by rewrite off_all|].
      split; [by apply restarts_snoc_new|]. intros j r Hj.
      destruct (decide (j < length rs)%nat) as [Hlt|Hge'].
      + rewrite lookup_app_l in Hj by done. by apply (proj2 (proj2 Hrs) j r Hj).
      + rewrite lookup_app_r in Hj by lia. destruct (j - length rs)%nat; [by injection Hj as <- | done]. }
  cbv zeta.
  assert (take s (last_key_ b) ++ drop s k = k) as Hkey.
  { rewrite Hlast, <- Htake. apply take_drop. }
  rewrite Hkey. assert (slice_eq k k = true) as -> by (by apply slice_eq_spec). cbn [negb].
  eexists _, s, rs'. split; [reflexivity|].
  split; cbn [buffer_ restarts_ finished_ last_key_ counter_].
  - rewrite Hbuf, body_app, body_cons. unfold PutVarint32, enc, header, delta, row_key, row_value. simpl.
    by rewrite <- !app_assoc, app_nil_r.
  - apply map_ext_in. intros r [j Hj]%list_elem_of_In%list_elem_of_lookup. by rewrite off_snoc by eauto.
  - done.
  - unfold last_key. by rewrite last_snoc.
  - split; [destruct (Z.ltb_spec (counter_ b) interval); lia | by intros []%app_eq_nil].
  - by apply chain_snoc.
  - done.
Qed.

Definition entry_of (x : row) : list byte * list byte := (row_key x, row_value x).

Lemma add_all_spec (valid : list byte → Prop) es b rows rs :
  build_inv b rows rs → (∀ x y, valid x → valid y → Compare cmp x y < 0 → 0 < Compare cmp y x) →
  (∀ i x, (map entry_of rows ++ es) !! i = Some x → valid x.1) →
  sorted_entries (Compare cmp) (map entry_of rows ++ es) →
  ∃ b' rows' rs', add_all b es = Ok b' ∧ build_inv b' rows' rs' ∧
    map entry_of rows' = map entry_of rows ++ es.
Proof.
  intros Hb Hneg. revert b rows rs Hb. induction es as [|[k v] es IH]; intros b rows rs Hb Hval Hsort.
  { exists b, rows, rs. rewrite app_nil_r. done. }
  cbn [add_all]. destruct (Add_spec b rows rs k v Hb) as (b1 & s & rs1 & -> & Hb1).
  { intros Hne. destruct rows as [|x rows] using rev_ind; [done|]. clear IHrows.
    unfold last_key. rewrite last_snoc. rewrite map_app, <- app_assoc in Hsort, Hval. simpl in Hsort, Hval.
    assert ((map entry_of rows ++ entry_of x :: (k, v) :: es) !! length (map entry_of rows) = Some (entry_of x))
      as Hx by (by apply list_lookup_middle).
    assert ((map entry_of rows ++ entry_of x :: (k, v) :: es) !! S (length (map entry_of rows)) = Some (k, v)) as Hk.
    { rewrite lookup_app_r by lia. replace (S (length (map entry_of rows)) - length (map entry_of rows))%nat with 1%nat by lia. done. }
    apply Hneg; [apply (Hval _ _ Hx) | apply (Hval _ _ Hk) | refine (Hsort _ _ _ _ _ Hx Hk); lia]. }
  cbn [mbind outcome_bind].
  destruct (IH b1 _ _ Hb1) as (b2 & rows2 & rs2 & E & Hb2 & Hm).
  - by rewrite map_app, <- app_assoc.
  - by rewrite map_app, <- app_assoc.
  - exists b2, rows2, rs2. split; [done|]. split; [done|]. by rewrite Hm, map_app, <- app_assoc.
Qed.

Lemma new_build_inv : build_inv (mkBuilder [] [0] 0 false []) [] [0%nat].
Proof.
  split; try done; cbn [counter_]; [split; [lia | done] |].
  split; [done|]. split; [done|]. intros [|j] r Hj; [|done]. injection Hj as <-. simpl.
  split; [lia|]. split; [lia | done].
Qed.

(** The bytes of a finished block. *)
Lemma Finish_bytes b rows rs : build_inv b rows rs → blen (Finish b).2 < 2 ^ 32 → (Finish b).2 = block_bytes rows rs.
Proof.
  intros [Hbuf Hres _ _ _ Hch Hrs]. cbn [Finish snd].
  unfold PutFixed32 at 1 3. rewrite foldl_PutFixed32, Hbuf, Hres. intros Hlen. unfold block_bytes.
  rewrite <- app_assoc in *. rewrite !blen_app in Hlen.
  assert (∀ l : list Z, blen (concat (map EncodeFixed32 l)) = 4 * blen l) as Hsz.
  { induction l as [|x l IH]; [done|]. cbn [map concat]. rewrite blen_app, IH, blen_cons.
    change (blen (EncodeFixed32 x)) with 4. lia. }
  rewrite Hsz in Hlen. unfold blen in Hlen at 2. rewrite length_map in Hlen.
  pose proof (blen_nonneg (EncodeFixed32 (u32 (blen (map (λ r, u32 (off rows r)) rs))))).
  pose proof (blen_nonneg (body rows)).
  f_equal. f_equal.
  - f_equal. f_equal. apply map_ext_in. intros r [j Hj]%list_elem_of_In%list_elem_of_lookup.
    destruct (proj2 (proj2 Hrs) j r Hj) as (Hr & _).
    pose proof (off_mono rows 0 r ltac:(lia)) as Hlo. rewrite off_0 in Hlo.
    pose proof (off_mono rows r (length rows) Hr) as Hhi. rewrite off_all in Hhi.
    apply u32_small. unfold is_u32. lia.
  - f_equal. unfold blen at 1. rewrite length_map. apply u32_small. unfold is_u32. lia.
Qed.

Lemma build_spec (valid : list byte → Prop) es :
  (∀ x y, valid x → valid y → Compare cmp x y < 0 → 0 < Compare cmp y x) →
  (∀ i x, es !! i = Some x → valid x.1) → sorted_entries (Compare cmp) es →
  ∃ contents rows rs, build es = Ok contents ∧ map entry_of rows = es ∧ chain_ok rows ∧
    restarts_ok rows rs ∧ (blen contents < 2 ^ 32 → contents = block_bytes rows rs).
Proof.
  intros Hneg Hval Hsort. unfold build, new. destruct (Z.leb_spec 1 interval); [|lia]. cbn [mbind outcome_bind].
  destruct (add_all_spec valid es _ [] [0%nat] new_build_inv Hneg Hval Hsort) as (b & rows & rs & -> & Hb & Hm).
  cbn [mbind outcome_bind]. eexists _, rows, rs. split; [reflexivity|]. split; [done|].
  split; [by apply Hb|]. split; [by apply Hb|]. by apply Finish_bytes.
Qed.

End build.

(** *** Opening a block *)

Lemma open_block rows rs :
  restarts_ok rows rs → blen (block_bytes rows rs) < 2 ^ 32 →
  ∃ it, Block.new (block_bytes rows rs) =
      Ok (mkBlock (block_bytes rows rs) (blen (block_bytes rows rs)) (blen (body rows))) ∧
    NewIterator (mkBlock (block_bytes rows rs) (blen (block_bytes rows rs)) (blen (body rows))) =
      Ok (BlockIterator (blen (body rows)) (Z.of_nat (length rs)) it) ∧ past_end rows it.
Proof.
  intros Hrs Hlen. pose proof (data_blen rows rs) as Hd. pose proof (blen_nonneg (body rows)).
  assert (0 < length rs)%nat by (destruct Hrs as [H0 _]; by apply lookup_lt_Some in H0).
  assert (NumRestarts (block_bytes rows rs) (blen (block_bytes rows rs)) = Ok (Z.of_nat (length rs))) as Hn.
  { unfold NumRestarts. destruct (Z.leb_spec 4 (blen (block_bytes rows rs))); [|lia]. cbn [negb].
    unfold block_bytes at 2. rewrite app_assoc.
    replace (Z.to_nat (blen (block_bytes rows rs) - 4)) with
      (length (body rows ++ concat (map EncodeFixed32 (map (λ r, off rows r) rs)))).
    2: { unfold block_bytes, blen. rewrite !length_app. change (length (EncodeFixed32 _)) with 4%nat. lia. }
    rewrite drop_app_length, <- (app_nil_r (EncodeFixed32 _)). apply DecodeFixed32_Encode. unfold is_u32. lia. }
  unfold Block.new, NewIterator. cbv zeta. cbn [size_ data_ restart_offset_].
  destruct (Z.ltb_spec (blen (block_bytes rows rs)) 4); [lia|]. rewrite Hn. cbn [mbind outcome_bind].
  destruct (Z.ltb_spec ((blen (block_bytes rows rs) - 4) / 4) (Z.of_nat (length rs))) as [Hlt|_].
  { rewrite Hd in Hlt. dlia. }
  destruct (Z.eqb_spec (Z.of_nat (length rs)) 0); [lia|]. unfold new_iter.
  destruct (Z.ltb_spec 0 (Z.of_nat (length rs))); [|lia]. cbn [mbind outcome_bind].
  eexists. split; [|split; [reflexivity | done]].
  do 2 f_equal. rewrite (u32_small (1 + _)) by (unfold is_u32; lia).
  rewrite u32_small by (unfold is_u32; lia). lia.
Qed.

(** ** Properties *)

(** The iterator as an object of the class [Iterator]. *)
Definition block_iterator (cmp : Comparator) (data : list byte) (restarts num : Z) : IteratorOps iter :=
  mkIterator (Valid restarts) (key restarts) (value data restarts) (λ it, Ok (status_ it))
    (Next data restarts num) (Prev data restarts num) (Seek cmp data restarts num)
    (SeekToFirst data restarts num) (SeekToLast data restarts num).

Lemma seek_index_entries cmp rows target :
  seek_index cmp rows target = lower_bound (Compare cmp) (map entry_of rows) target.
Proof. induction rows as [|x rows IH]; simpl; [done|]. by rewrite IH. Qed.

(** The iterator of a well-formed block is a cursor on its entries. *)
Lemma block_cursor cmp valid rows rs :
  ComparatorLaws valid cmp → chain_ok rows → restarts_ok rows rs → blen (block_bytes rows rs) < 2 ^ 32 →
  (∀ i x, rows !! i = Some x → valid (row_key x)) →
  sorted_entries (Compare cmp) (map entry_of rows) →
  CursorLaws (block_iterator cmp (block_bytes rows rs) (blen (body rows)) (Z.of_nat (length rs)))
    (Compare cmp) valid (map entry_of rows) (λ it pos, shows rows rs it pos ∧ (pos ≤ length rows)%nat).
Proof.
  intros Hc Hch Hrs Hlen Hv Hsort.
  assert (∀ it pos, shows rows rs it pos → Valid (blen (body rows)) it = bool_decide (pos < length rows)%nat) as Hval.
  { intros it pos. by apply shows_valid. }
  assert (∀ i j x y, (i < j)%nat → rows !! i = Some x → rows !! j = Some y →
    Compare cmp (row_key x) (row_key y) < 0) as Hord.
  { intros i j x y Hij Hx Hy. apply (Hsort i j (entry_of x) (entry_of y) Hij); by rewrite list_lookup_fmap, ?Hx, ?Hy. }
  split; rewrite ?length_map.
  - by intros it pos [_ ?].
  - intros it pos [Hs _]. by apply Hval.
  - intros it pos e [Hs _] He. rewrite list_lookup_fmap in He. apply fmap_Some in He as (x & Hx & ->).
    pose proof (lookup_lt_Some _ _ _ Hx) as Hlt. pose proof (Hval _ _ Hs) as Hv'. apply shows_at in Hs; [|done].
    destruct Hs as (x' & p & Hx' & _ & Hk & Hvl & Hr & _). rewrite Hx in Hx'. injection Hx' as <-.
    cbn [it_key it_value block_iterator]. unfold key, value. rewrite Hv', bool_decide_true by done.
    by rewrite Hk, Hvl.
  - intros it pos [Hs _]. cbn [it_status block_iterator]. f_equal. by eapply shows_status.
  - intros it pos op [Hs Hpos] Hop.
    assert (∃ it1, run_op (block_iterator cmp (block_bytes rows rs) (blen (body rows)) (Z.of_nat (length rs))) it op =
      Ok it1 ∧ shows rows rs it1 (spec_op (Compare cmp) (map entry_of rows) pos op)) as (it1 & E & Hs1).
    { destruct op as [| | | |target]; cbn [run_op block_iterator it_Next it_Prev it_Seek it_SeekToFirst it_SeekToLast
        spec_op op_allowed] in *; rewrite ?length_map in *.
      - by eapply SeekToFirst_spec.
      - by eapply SeekToLast_spec.
      - by eapply Block_Next_spec.
      - by eapply Prev_spec.
      - rewrite <- seek_index_entries. by eapply Seek_spec. }
    exists it1. split; [done|]. split; [done|].
    destruct op as [| | | |target]; cbn [spec_op op_allowed] in *; rewrite ?length_map in *; try lia.
    + destruct (Nat.eqb_spec pos 0); lia.
    + rewrite <- (length_map entry_of rows). apply lower_bound_le.
Qed.

(** C19: A block is a sorted map with a cursor.  For every lawful comparator, restart
    interval and sequence of entries with increasing keys, the builder's assertions
    hold; the block it finishes (less than 4 GiB) opens, and after any sequence of
    [SeekToFirst], [SeekToLast], [Seek], and of [Next] and [Prev] on a valid
    iterator, the iterator is valid exactly when the same sequence on the list of
    entries is at an entry, shows the key and the value of that entry, and reports no
    error: the binary search finds the first key at or after the target, and
    stepping backwards through compressed entries is exact. *)
Theorem block_cursor_refines (cmp : Comparator) (valid : list byte → Prop) (interval : Z)
    (es : list entry) (HC : ComparatorLaws valid cmp) (Hint : 1 ≤ interval)
    (Hvalid : ∀ i x, es !! i = Some x → valid x.1) (Hsort : sorted_entries (Compare cmp) es) :
  ∃ contents, build cmp interval es = Ok contents ∧
    (blen contents < 2 ^ 32 →
     ∃ blk restarts num it0, Block.new contents = Ok blk ∧
       NewIterator blk = Ok (BlockIterator restarts num it0) ∧
       ∀ ops, ops_allowed (Compare cmp) valid es (length es) ops →
       ∃ it, run_ops (block_iterator cmp contents restarts num) it0 ops = Ok it ∧ status_ it = status_ok ∧
         let pos := foldl (spec_op (Compare cmp) es) (length es) ops in
         Valid restarts it = bool_decide (pos < length es)%nat ∧
         ∀ k v, es !! pos = Some (k, v) → key restarts it = Ok k ∧ value contents restarts it = Ok v).
Proof.
  destruct (build_spec cmp interval Hint valid es) as (contents & rows & rs & E & <- & Hch & Hrs & Hc);
    [intros x y Hx Hy; by apply (compare_neg valid) | done | done |].
  exists contents. split; [done|]. intros Hlen. pose proof (Hc Hlen) as ->. clear Hc.
  destruct (open_block rows rs Hrs Hlen) as (it0 & En & Ei & Hpe).
  eexists _, _, _, it0. split; [exact En|]. split; [exact Ei|]. intros ops Hops.
  assert (∀ i x, rows !! i = Some x → valid (row_key x)) as Hrows.
  { intros i x Hx. apply (Hvalid i (entry_of x)). by rewrite list_lookup_fmap, Hx. }
  pose proof (block_cursor cmp valid rows rs HC Hch Hrs Hlen Hrows Hsort) as Hcur.
  eapply cursor_observed in Hops as (it & Er & Es & Hobs); [| exact Hcur |].
  - exists it. split; [exact Er|]. split; [|exact Hobs]. cbn [it_status block_iterator] in Es. by injection Es.
  - rewrite length_map. split; [by apply shows_end | done].
Qed.

Definition demo_entries : list entry := [(str "a", str "1"); (str "ab", str "2"); (str "b", [])].

Lemma block_cursor_refines_witness :
  ∃ contents, build BytewiseComparator 2 demo_entries = Ok contents ∧
    (blen contents < 2 ^ 32 →
     ∃ blk restarts num it0, Block.new contents = Ok blk ∧
       NewIterator blk = Ok (BlockIterator restarts num it0) ∧
       ∀ ops, ops_allowed (Compare BytewiseComparator) any_key demo_entries 3 ops →
       ∃ it, run_ops (block_iterator BytewiseComparator contents restarts num) it0 ops = Ok it ∧ status_ it = status_ok ∧
         let pos := foldl (spec_op (Compare BytewiseComparator) demo_entries) 3%nat ops in
         Valid restarts it = bool_decide (pos < 3)%nat ∧
         ∀ k v, demo_entries !! pos = Some (k, v) → key restarts it = Ok k ∧ value contents restarts it = Ok v).
Proof.
  apply (block_cursor_refines BytewiseComparator any_key 2 demo_entries bytewise_laws).
  - discriminate.
  - done.
  - intros [|[|[|i]]] [|[|[|j]]] x y Hij Hx Hy; try (exfalso; lia); try discriminate;
      injection Hx as <-; injection Hy as <-; reflexivity.
Defined.

(** A damaged block can be read out of bounds.  [DecodeEntry] adds the length of
    the key delta and of the value in 32 bits, so an entry whose lengths wrap around
    passes its check although it promises not to go past the limit; the iterator then
    copies four gigabytes from the block. *)
Lemma block_entry_overflow :
  ∃ contents blk restarts num it0, blen contents = 16 ∧ Block.new contents = Ok blk ∧
    NewIterator blk = Ok (BlockIterator restarts num it0) ∧
    DecodeEntry contents 0 restarts = Some (7, 0, 2 ^ 32 - 1, 2) ∧
    SeekToFirst contents restarts num it0 = Ub OutOfBounds.
Proof.
  exists (EncodeVarint32 0 ++ EncodeVarint32 (2 ^ 32 - 1) ++ EncodeVarint32 2 ++ [z2b 120] ++
          EncodeFixed32 0 ++ EncodeFixed32 1).
  eexists _, _, _, _. split; [reflexivity|]. split; [vm_compute; reflexivity|].
  split; [vm_compute; reflexivity|]. split; vm_compute; reflexivity.
Qed.
