(* ===== verification/Format.v ===== *)
(** * table/format.h and table/format.cc: handles, the footer and stored blocks

    A block of a table file is its contents, one byte that says how they are compressed
    and a masked checksum of both; a [BlockHandle] says where it is; the footer says
    where the index and the metaindex are.  A [RandomAccessFile] is the function its
    [Read] computes, with a flag for implementations that return a pointer into memory
    of their own instead of filling the buffer.  The snappy library is not a part of
    the repository: its functions are arguments.  Allocation is taken to succeed. *)
From S2P Require Import Prelude.
From S2P Require Import Coding.
From S2P Require Import Crc32c.
From S2P Require Import Status.
From S2P Require Import Log.

(** ** Definitions *)

Module BlockHandle.
Record handle := mkHandle { offset_ : Z; size_ : Z }.

Definition kMaxEncodedLength : Z := 10 + 10.
Definition unset : Z := 2 ^ 64 - 1.
Definition new : handle := mkHandle unset unset.
Definition set_offset (o : Z) (h : handle) : handle := mkHandle o (size_ h).
Definition set_size (n : Z) (h : handle) : handle := mkHandle (offset_ h) n.

Definition EncodeTo (dst : list byte) (h : handle) : outcome (list byte) :=
  if offset_ h =? unset then Ub AssertionFailed
  else if size_ h =? unset then Ub AssertionFailed
  else Ok (PutVarint64 (PutVarint64 dst (offset_ h)) (size_ h)).

(** The handle (fields that were decoded before an error are kept), the rest of the input
    and the status. *)
Definition DecodeFrom (h : handle) (input : list byte) : handle * list byte * status :=
  match GetVarint64 input with
  | (None, input) => (h, input, Corruption (str "bad block handle"))
  | (Some o, input) =>
      let h := set_offset o h in
      match GetVarint64 input with
      | (None, input) => (h, input, Corruption (str "bad block handle"))
      | (Some n, input) => (set_size n h, input, status_ok)
      end
  end.
End BlockHandle.

Module Footer.
Import BlockHandle.
Record footer := mkFooter { metaindex_handle_ : handle; index_handle_ : handle }.

Definition kEncodedLength : Z := 2 * kMaxEncodedLength + 8.
Definition kTableMagicNumber : Z := 0xdb4775248b80fb57.
Definition new : footer := mkFooter BlockHandle.new BlockHandle.new.

(** [std::string::resize]. *)
Definition resize (n : Z) (s : list byte) : list byte := take (Z.to_nat n) s ++ replicate (Z.to_nat (n - blen s)) (z2b 0).

Definition EncodeTo (dst : list byte) (f : footer) : outcome (list byte) :=
  let original_size := blen dst in
  dst ← BlockHandle.EncodeTo dst (metaindex_handle_ f);
  dst ← BlockHandle.EncodeTo dst (index_handle_ f);
  let dst := resize (2 * kMaxEncodedLength) dst in
  let dst := PutFixed32 dst (u32 (Z.land kTableMagicNumber 0xffffffff)) in
  let dst := PutFixed32 dst (u32 (Z.shiftr kTableMagicNumber 32)) in
  if blen dst =? original_size + kEncodedLength then Ok dst else Ub AssertionFailed.

Definition DecodeFrom (f : footer) (input : list byte) : outcome (footer * list byte * status) :=
  let magic_ptr := drop (Z.to_nat (kEncodedLength - 8)) input in
  magic_lo ← DecodeFixed32 magic_ptr;
  magic_hi ← DecodeFixed32 (drop 4 magic_ptr);
  let magic := Z.lor (u64 (Z.shiftl magic_hi 32)) magic_lo in
  if negb (magic =? kTableMagicNumber) then Ok (f, input, Corruption (str "not an sstable (bad magic number)"))
  else
    let '(metaindex, rest, result) := BlockHandle.DecodeFrom (metaindex_handle_ f) input in
    let f := mkFooter metaindex (index_handle_ f) in
    if ok result then
      let '(index, rest, result) := BlockHandle.DecodeFrom (index_handle_ f) rest in
      let f := mkFooter (metaindex_handle_ f) index in
      if ok result then Ok (f, drop 8 magic_ptr, result) else Ok (f, rest, result)
    else Ok (f, rest, result).
End Footer.

Module Format.
Import BlockHandle.

Definition kBlockTrailerSize : Z := 5.
Definition kNoCompression : Z := 0.
Definition kSnappyCompression : Z := 1.

Record BlockContents := mkContents { data : list byte; cachable : bool; heap_allocated : bool }.
Definition no_contents : BlockContents := mkContents [] false false.

(** The status, the bytes, and whether they are in the buffer of the caller. *)
Record RandomAccessFile := mkFile { file_Read : Z → Z → status * list byte * bool }.

Section format.
Context (addr : list byte → Z).
(** The functions of [port]; [fresh] is what [new char[n]] holds. *)
Context (Snappy_GetUncompressedLength : list byte → option Z) (Snappy_Uncompress : list byte → option (list byte)).
Context (fresh : Z → list byte).

Definition ReadBlock (file : RandomAccessFile) (verify_checksums : bool) (h : handle) : outcome (BlockContents * status) :=
  let n := size_ h in
  let '(s, contents, in_buf) := file_Read file (offset_ h) (u64 (n + kBlockTrailerSize)) in
  if negb (ok s) then Ok (no_contents, s)
  else if negb (blen contents =? u64 (n + kBlockTrailerSize)) then Ok (no_contents, Corruption (str "truncated block read"))
  else
    matches ← (if (verify_checksums : bool) then
        crc ← bs ← mem_read contents (n + 1) 4; DecodeFixed32 bs;
        covered ← mem_read contents 0 (n + 1);
        actual ← Value (addr covered) covered;
        Ok (actual =? Unmask crc)
      else Ok true);
    if negb matches then Ok (no_contents, Corruption (str "block checksum mismatch"))
    else
      type ← mem_read contents n 1;
      raw ← mem_read contents 0 n;
      let type := match type with c :: _ => b2c c | [] => 0 end in
      if type =? kNoCompression then
        Ok (mkContents raw in_buf in_buf, status_ok)
      else if type =? kSnappyCompression then
        match Snappy_GetUncompressedLength raw with
        | None => Ok (no_contents, Corruption (str "corrupted compressed block contents"))
        | Some ulength =>
            match Snappy_Uncompress raw with
            | None => Ok (no_contents, Corruption (str "corrupted compressed block contents"))
            | Some bytes => ubuf ← mem_write (fresh ulength) 0 bytes; Ok (mkContents ubuf true true, status_ok)
            end
        end
      else Ok (no_contents, Corruption (str "bad block type")).

(** The bytes of a block in a file ([WriteRawBlock]). *)
Definition trailer (contents : list byte) (type : Z) : outcome (list byte) :=
  let type := [z2b type] in
  crc ← Value (addr contents) contents;
  crc ← Extend (addr type) crc type;
  Ok (type ++ EncodeFixed32 (Mask crc)).

End format.
End Format.

Import BlockHandle Footer Format.

(** ** Lemmas *)

(** *** Handles and the footer *)

Definition handle_ok (h : handle) : Prop := 0 ≤ offset_ h < unset ∧ 0 ≤ size_ h < unset.
Definition handle_bytes (h : handle) : list byte := EncodeVarint64 (offset_ h) ++ EncodeVarint64 (size_ h).

Lemma handle_encode dst h : handle_ok h → BlockHandle.EncodeTo dst h = Ok (dst ++ handle_bytes h).
Proof.
  intros [Ho Hs]. unfold BlockHandle.EncodeTo. destruct (Z.eqb_spec (offset_ h) unset); [lia|].
  destruct (Z.eqb_spec (size_ h) unset); [lia|]. unfold PutVarint64, handle_bytes. by rewrite <- app_assoc.
Qed.

Lemma handle_decode h h0 rest : handle_ok h → BlockHandle.DecodeFrom h0 (handle_bytes h ++ rest) = (h, rest, status_ok).
Proof.
  intros [Ho Hs]. unfold unset in *. unfold BlockHandle.DecodeFrom, handle_bytes. rewrite <- app_assoc.
  rewrite GetVarint64_Put by (unfold is_u64; lia). rewrite GetVarint64_Put by (unfold is_u64; lia). by destruct h.
Qed.

Lemma handle_bytes_length h : handle_ok h → (2 ≤ length (handle_bytes h) ≤ 20)%nat.
Proof.
  intros [Ho Hs]. unfold unset in *. unfold handle_bytes. rewrite length_app.
  pose proof (EncodeVarint64_length (offset_ h)) as H1. pose proof (EncodeVarint64_length (size_ h)) as H2.
  unfold is_u64 in *. specialize (H1 ltac:(lia)). specialize (H2 ltac:(lia)). lia.
Qed.

Definition footer_bytes (f : footer) : list byte :=
  let handles := handle_bytes (metaindex_handle_ f) ++ handle_bytes (index_handle_ f) in
  handles ++ replicate (40 - length handles) (z2b 0) ++ EncodeFixed32 0x8b80fb57 ++ EncodeFixed32 0xdb477524.

Definition footer_ok (f : footer) : Prop := handle_ok (metaindex_handle_ f) ∧ handle_ok (index_handle_ f).

Lemma footer_bytes_length f : footer_ok f → blen (footer_bytes f) = kEncodedLength.
Proof.
  intros [H1 H2]. apply handle_bytes_length in H1, H2. unfold footer_bytes, blen. rewrite !length_app, length_replicate, !length_EncodeFixed32.
  change kEncodedLength with 48. lia.
Qed.

Lemma footer_encode f : footer_ok f → Footer.EncodeTo [] f = Ok (footer_bytes f).
Proof.
  intros Hf. pose proof (footer_bytes_length f Hf) as Hl. destruct Hf as [H1 H2]. unfold Footer.EncodeTo.
  rewrite handle_encode by done. cbn [mbind outcome_bind]. rewrite handle_encode by done. cbn [mbind outcome_bind app].
  pose proof (handle_bytes_length _ H1). pose proof (handle_bytes_length _ H2).
  change (2 * kMaxEncodedLength) with 40. unfold resize. rewrite take_ge by (rewrite length_app; lia).
  replace (Z.to_nat (40 - blen (handle_bytes (metaindex_handle_ f) ++ handle_bytes (index_handle_ f)))) with
    (40 - length (handle_bytes (metaindex_handle_ f) ++ handle_bytes (index_handle_ f)))%nat by (unfold blen; lia).
  change (u32 (Z.land kTableMagicNumber 0xffffffff)) with 0x8b80fb57. change (u32 (Z.shiftr kTableMagicNumber 32)) with 0xdb477524.
  unfold PutFixed32. rewrite <- !app_assoc. unfold footer_bytes in Hl. rewrite <- !app_assoc in Hl.
  destruct (Z.eqb_spec (blen (handle_bytes (metaindex_handle_ f) ++ handle_bytes (index_handle_ f) ++
    replicate (40 - length (handle_bytes (metaindex_handle_ f) ++ handle_bytes (index_handle_ f))) (z2b 0) ++ EncodeFixed32 0x8b80fb57 ++ EncodeFixed32 0xdb477524))
    (blen (@nil byte) + kEncodedLength)) as [_|Hne]; [unfold footer_bytes; by rewrite <- !app_assoc | by destruct Hne].
Qed.

Lemma footer_decode f f0 rest : footer_ok f → Footer.DecodeFrom f0 (footer_bytes f ++ rest) = Ok (f, rest, status_ok).
Proof.
  intros [H1 H2]. unfold Footer.DecodeFrom. change (Z.to_nat (kEncodedLength - 8)) with 40%nat.
  assert (drop 40 (footer_bytes f ++ rest) = EncodeFixed32 0x8b80fb57 ++ EncodeFixed32 0xdb477524 ++ rest) as ->.
  { unfold footer_bytes. set (hs := handle_bytes (metaindex_handle_ f) ++ handle_bytes (index_handle_ f)).
    pose proof (handle_bytes_length _ H1). pose proof (handle_bytes_length _ H2).
    replace ((hs ++ replicate (40 - length hs) (z2b 0) ++ EncodeFixed32 0x8b80fb57 ++ EncodeFixed32 0xdb477524) ++ rest) with
      ((hs ++ replicate (40 - length hs) (z2b 0)) ++ EncodeFixed32 0x8b80fb57 ++ EncodeFixed32 0xdb477524 ++ rest) by (by rewrite <- !app_assoc).
    apply drop_app_length'. rewrite length_app, length_replicate. unfold hs. rewrite length_app. lia. }
  rewrite DecodeFixed32_Encode by (unfold is_u32; lia). cbn [mbind outcome_bind].
  change (drop 4 (EncodeFixed32 0x8b80fb57 ++ EncodeFixed32 0xdb477524 ++ rest)) with (EncodeFixed32 0xdb477524 ++ rest).
  rewrite DecodeFixed32_Encode by (unfold is_u32; lia). cbn [mbind outcome_bind].
  change (negb (Z.lor (u64 (Z.shiftl 0xdb477524 32)) 0x8b80fb57 =? kTableMagicNumber)) with false. cbv iota.
  unfold footer_bytes. rewrite <- !app_assoc. rewrite handle_decode by done. change (ok status_ok) with true. cbv iota.
  rewrite handle_decode by done. change (ok status_ok) with true. cbv iota. by destruct f.
Qed.

(** *** Stored blocks *)

Section stored.
Context (addr : list byte → Z) (Haddr : addr_ok addr).
Context (Snappy_GetUncompressedLength : list byte → option Z) (Snappy_Uncompress : list byte → option (list byte)).
Context (fresh : Z → list byte) (Hfresh : ∀ n, 0 ≤ n → blen (fresh n) = n).

(** The stored bytes [c] of type [type] are the block [raw]. *)
Definition stored_as (type : Z) (c raw : list byte) : Prop :=
  (type = kNoCompression ∧ c = raw) ∨
  (type = kSnappyCompression ∧ Snappy_GetUncompressedLength c = Some (blen raw) ∧ Snappy_Uncompress c = Some raw).

Definition trailer_bytes (c : list byte) (type : Z) : list byte := [z2b type] ++ EncodeFixed32 (Mask (crc32c 0 (c ++ [z2b type]))).

Lemma trailer_spec c type : blen c < 2 ^ 62 → trailer addr c type = Ok (trailer_bytes c type).
Proof.
  intros Hc. unfold trailer. rewrite (Value_spec addr c Haddr Hc). cbn [mbind outcome_bind].
  pose proof (Haddr [z2b type] ltac:(done)) as [H1 H2].
  rewrite Extend_spec by (done || apply crc32c_u32; done). cbn [mbind outcome_bind]. by rewrite crc32c_app.
Qed.

Lemma trailer_bytes_length c type : blen (trailer_bytes c type) = kBlockTrailerSize.
Proof. done. Qed.

Lemma ReadBlock_stored file verify o c type raw in_buf : stored_as type c raw → blen c < 2 ^ 61 →
  file_Read file o (blen c + kBlockTrailerSize) = (status_ok, c ++ trailer_bytes c type, in_buf) →
  ∃ b1 b2, ReadBlock addr Snappy_GetUncompressedLength Snappy_Uncompress fresh file verify (mkHandle o (blen c)) = Ok (mkContents raw b1 b2, status_ok).
Proof.
  intros Hst Hc Hread. pose proof (blen_nonneg c). unfold ReadBlock. cbn [size_ offset_].
  change kBlockTrailerSize with 5 in *. rewrite u64_small by (unfold is_u64; lia). rewrite Hread.
  change (ok status_ok) with true. cbn [negb]. rewrite blen_app. change (blen (trailer_bytes c type)) with 5. rewrite Z.eqb_refl. cbn [negb].
  assert (∀ pre a b, pre + 0 = blen a → mem_read (a ++ b) pre (blen b) = Ok b) as Htail.
  { intros pre a b Hp. rewrite mem_read_ok; [|pose proof (blen_nonneg a); lia | apply blen_nonneg | rewrite blen_app; lia].
    rewrite Z.add_0_r in Hp. subst. unfold blen. by rewrite !Nat2Z.id, drop_app_length, firstn_all. }
  assert (mem_read (c ++ trailer_bytes c type) (blen c + 1) 4 = Ok (EncodeFixed32 (Mask (crc32c 0 (c ++ [z2b type]))))) as E1.
  { unfold trailer_bytes. rewrite app_assoc. apply (Htail _ _ (EncodeFixed32 _)). rewrite blen_app. change (blen [z2b type]) with 1. lia. }
  assert (∀ n a b, n = blen a → mem_read (a ++ b) 0 n = Ok a) as Hhead.
  { intros n a b ->. rewrite mem_read_ok; [|lia | apply blen_nonneg | rewrite blen_app; pose proof (blen_nonneg b); lia].
    unfold blen. by rewrite Nat2Z.id, drop_0, take_app_length. }
  assert (mem_read (c ++ trailer_bytes c type) 0 (blen c + 1) = Ok (c ++ [z2b type])) as E2.
  { unfold trailer_bytes. rewrite app_assoc. apply Hhead. by rewrite blen_app. }
  rewrite E1, E2. cbn [mbind outcome_bind]. rewrite <- (app_nil_r (EncodeFixed32 _)), DecodeFixed32_Encode by apply u32_range. cbn [mbind outcome_bind].
  rewrite Value_spec by (done || (rewrite blen_app; change (blen [z2b type]) with 1; lia)). cbn [mbind outcome_bind].
  rewrite Unmask_Mask by (by apply crc32c_u32). rewrite Z.eqb_refl.
  assert ((if verify then Ok true else Ok true) = Ok true) as -> by (by destruct verify). cbn [mbind outcome_bind negb].
  assert (mem_read (c ++ trailer_bytes c type) (blen c) 1 = Ok [z2b type]) as ->.
  { rewrite mem_read_ok; [|lia | done | rewrite blen_app; change (blen (trailer_bytes c type)) with 5; lia].
    unfold blen. by rewrite Nat2Z.id, drop_app_length. }
  rewrite (Hhead (blen c) c) by done. cbn [mbind outcome_bind].
  destruct Hst as [[-> ->]|(-> & -> & ->)].
  - change (b2c (z2b kNoCompression) =? kNoCompression) with true. cbv iota. eauto.
  - change (b2c (z2b kSnappyCompression) =? kNoCompression) with false. change (b2c (z2b kSnappyCompression) =? kSnappyCompression) with true. cbv iota.
    assert (mem_write (fresh (blen raw)) 0 raw = Ok raw) as ->; [|cbn; eauto].
    pose proof (mem_write_middle [] (fresh (blen raw)) [] raw 0 eq_refl) as E. cbn [app] in E. rewrite !app_nil_r in E. apply E.
    pose proof (Hfresh (blen raw) (blen_nonneg raw)) as Hf. unfold blen in Hf |- *. lia.
Qed.
End stored.

(** A corrupted handle whose size is just below [2^64] passes the check for truncated
    reads: the size with the trailer wraps around to zero bytes, which any file can
    read, and the trailer is then read out of bounds. *)
Lemma read_block_size_wraps addr len uncompress fresh verify o (file : RandomAccessFile) in_buf :
  file_Read file o 0 = (status_ok, [], in_buf) → ReadBlock addr len uncompress fresh file verify (mkHandle o (2 ^ 64 - 5)) = Ub OutOfBounds.
Proof.
  intros Hr. unfold ReadBlock. cbn [size_ offset_]. change (u64 (2 ^ 64 - 5 + kBlockTrailerSize)) with 0. rewrite Hr. by destruct verify.
Qed.
