(* ===== verification/TableBuilder.v ===== *)
(** * table/table_builder.cc: writing a table file

    [TableBuilder] cuts the entries into data blocks and writes them, then the filter
    block, the metaindex, the index and the footer.  The file is a parameter: a type with
    the results of [Append] and [Flush].  [compressed_output] is only in use inside of
    [WriteBlock] and is a local value here. *)
From S2P Require Import Prelude.
From S2P Require Import Coding.
From S2P Require Import Crc32c.
From S2P Require Import Interfaces.
From S2P Require Import Status.
From S2P Require Import Log.
From S2P Require Import FilterBlock.
From S2P Require Import Cursor.
From S2P Require Import Block.
From S2P Require Import Format.
Import BlockHandle Footer Format.

(** ** Definitions *)

Module TableBuilder.

(** The options a table uses; the policy comes with its [Name]. *)
Record Options := mkOptions {
  comparator : Comparator;
  block_size : Z;
  block_restart_interval : Z;
  compression : Z;
  filter_policy : option (FilterPolicy * list byte)
}.
Definition index_options (o : Options) : Options := mkOptions (comparator o) (block_size o) 1 (compression o) (filter_policy o).

Section builder.
Context {F : Type} (file_Append : F → list byte → F * status) (file_Flush : F → F * status).
Context (addr : list byte → Z) (Snappy_Compress : list byte → option (list byte)).

(** [Rep]; the filter block builder keeps the policy it was created with. *)
Record rep := mkRep {
  options : Options;
  index_block_options : Options;
  file : F;
  offset : Z;
  status_ : status;
  data_block : BlockBuilder.builder;
  index_block : BlockBuilder.builder;
  last_key : list byte;
  num_entries : Z;
  closed : bool;
  filter_block : option (FilterPolicy * FilterBlockBuilder);
  pending_index_entry : bool;
  pending_handle : handle
}.

Definition set_options (o : Options) (r : rep) : rep :=
  mkRep o (index_options o) (file r) (offset r) (status_ r) (data_block r) (index_block r) (last_key r) (num_entries r) (closed r) (filter_block r) (pending_index_entry r) (pending_handle r).
Definition set_io (f : F) (o : Z) (s : status) (r : rep) : rep :=
  mkRep (options r) (index_block_options r) f o s (data_block r) (index_block r) (last_key r) (num_entries r) (closed r) (filter_block r) (pending_index_entry r) (pending_handle r).
Definition set_data (b : BlockBuilder.builder) (r : rep) : rep :=
  mkRep (options r) (index_block_options r) (file r) (offset r) (status_ r) b (index_block r) (last_key r) (num_entries r) (closed r) (filter_block r) (pending_index_entry r) (pending_handle r).
Definition set_index (b : BlockBuilder.builder) (r : rep) : rep :=
  mkRep (options r) (index_block_options r) (file r) (offset r) (status_ r) (data_block r) b (last_key r) (num_entries r) (closed r) (filter_block r) (pending_index_entry r) (pending_handle r).
Definition set_last_key (k : list byte) (r : rep) : rep :=
  mkRep (options r) (index_block_options r) (file r) (offset r) (status_ r) (data_block r) (index_block r) k (num_entries r) (closed r) (filter_block r) (pending_index_entry r) (pending_handle r).
Definition set_num_entries (n : Z) (r : rep) : rep :=
  mkRep (options r) (index_block_options r) (file r) (offset r) (status_ r) (data_block r) (index_block r) (last_key r) n (closed r) (filter_block r) (pending_index_entry r) (pending_handle r).
Definition set_closed (r : rep) : rep :=
  mkRep (options r) (index_block_options r) (file r) (offset r) (status_ r) (data_block r) (index_block r) (last_key r) (num_entries r) true (filter_block r) (pending_index_entry r) (pending_handle r).
Definition set_filter (b : option (FilterPolicy * FilterBlockBuilder)) (r : rep) : rep :=
  mkRep (options r) (index_block_options r) (file r) (offset r) (status_ r) (data_block r) (index_block r) (last_key r) (num_entries r) (closed r) b (pending_index_entry r) (pending_handle r).
Definition set_pending (p : bool) (h : handle) (r : rep) : rep :=
  mkRep (options r) (index_block_options r) (file r) (offset r) (status_ r) (data_block r) (index_block r) (last_key r) (num_entries r) (closed r) (filter_block r) p h.

(** [filter_block->StartBlock(offset)] and [filter_block->AddKey(key)], if there is one. *)
Definition start_filter (r : rep) : outcome rep :=
  match filter_block r with
  | None => Ok r
  | Some (p, b) => b ← StartBlock p b (offset r); Ok (set_filter (Some (p, b)) r)
  end.
Definition add_filter_key (key : list byte) (r : rep) : rep :=
  match filter_block r with
  | None => r
  | Some (p, b) => set_filter (Some (p, AddKey b key)) r
  end.

Definition new (o : Options) (f : F) : outcome rep :=
  db ← BlockBuilder.new (block_restart_interval o);
  ib ← BlockBuilder.new (block_restart_interval o);
  let fb := match filter_policy o with None => None | Some (p, _) => Some (p, new_builder) end in
  let r := mkRep o (index_options o) f 0 status_ok db ib [] 0 false fb false BlockHandle.new in
  match filter_block r with None => Ok r | Some (p, b) => b ← StartBlock p b 0; Ok (set_filter (Some (p, b)) r) end.

(** [same_comparator]: the pointers of the comparators are equal. *)
Definition ChangeOptions (same_comparator : bool) (o : Options) (r : rep) : rep * status :=
  if negb same_comparator then (r, status_err kInvalidArgument (str "changing comparator while building table") [])
  else (set_options o r, status_ok).

Definition WriteRawBlock (contents : list byte) (type : Z) (r : rep) : outcome (rep * handle) :=
  let h := mkHandle (offset r) (blen contents) in
  let '(f, s) := file_Append (file r) contents in
  if ok s then
    t ← trailer addr contents type;
    let '(f, s) := file_Append f t in
    let o := if ok s then u64 (offset r + (blen contents + kBlockTrailerSize)) else offset r in
    Ok (set_io f o s r, h)
  else Ok (set_io f (offset r) s r, h).

(** What [WriteBlock] stores for a finished block. *)
Definition choose_contents (compression : Z) (raw : list byte) : list byte * Z :=
  if compression =? kNoCompression then (raw, compression)
  else if compression =? kSnappyCompression then
    match Snappy_Compress raw with
    | Some compressed =>
        if blen compressed <? blen raw - blen raw / 8 then (compressed, compression) else (raw, kNoCompression)
    | None => (raw, kNoCompression)
    end
  else ([], compression).

(** The result is the state, the block after [Reset] and the handle. *)
Definition WriteBlock (b : BlockBuilder.builder) (r : rep) : outcome (rep * BlockBuilder.builder * handle) :=
  if negb (ok (status_ r)) then Ub AssertionFailed
  else
    let '(b, raw) := BlockBuilder.Finish b in
    let '(contents, type) := choose_contents (compression (options r)) raw in
    w ← WriteRawBlock contents type r;
    Ok (w.1, BlockBuilder.Reset b, w.2).

Definition Flush (r : rep) : outcome rep :=
  if closed r then Ub AssertionFailed
  else if negb (ok (status_ r)) then Ok r
  else if BlockBuilder.empty (data_block r) then Ok r
  else if pending_index_entry r then Ub AssertionFailed
  else
    w ← WriteBlock (data_block r) r;
    let '(r, b, h) := w in
    let r := set_pending (pending_index_entry r) h (set_data b r) in
    let r :=
      if ok (status_ r) then
        let '(f, s) := file_Flush (file r) in set_io f (offset r) s (set_pending true h r)
      else r in
    start_filter r.

(** The index entry of the last block, under the key [key]. *)
Definition add_index_entry (key : list byte) (r : rep) : outcome rep :=
  handle_encoding ← BlockHandle.EncodeTo [] (pending_handle r);
  let o := index_block_options r in
  ib ← BlockBuilder.Add (comparator o) (block_restart_interval o) (index_block r) key handle_encoding;
  Ok (set_pending false (pending_handle r) (set_index ib (set_last_key key r))).

Definition Add (key value : list byte) (r : rep) : outcome rep :=
  if closed r then Ub AssertionFailed
  else if negb (ok (status_ r)) then Ok r
  else if (0 <? num_entries r) && negb (0 <? Compare (comparator (options r)) key (last_key r)) then Ub AssertionFailed
  else
    r ← (if pending_index_entry r then
           if negb (BlockBuilder.empty (data_block r)) then Ub AssertionFailed
           else add_index_entry (FindShortestSeparator (comparator (options r)) (last_key r) key) r
         else Ok r);
    let r := add_filter_key key r in
    let r := set_num_entries (num_entries r + 1) (set_last_key key r) in
    let o := options r in
    db ← BlockBuilder.Add (comparator o) (block_restart_interval o) (data_block r) key value;
    let r := set_data db r in
    if block_size o <=? BlockBuilder.CurrentSizeEstimate db then Flush r else Ok r.

Definition write_filter (r : rep) : outcome (rep * handle) :=
  if ok (status_ r) then
    match filter_block r with
    | None => Ok (r, BlockHandle.new)
    | Some (p, b) => contents ← FilterBlock.Finish p b; WriteRawBlock contents kNoCompression r
    end
  else Ok (r, BlockHandle.new).

Definition filter_key (name : list byte) : list byte := str "filter." ++ name.

Definition write_metaindex (filter_handle : handle) (r : rep) : outcome (rep * handle) :=
  if ok (status_ r) then
    let o := options r in
    b ← BlockBuilder.new (block_restart_interval o);
    b ← (match filter_block r, filter_policy o with
         | None, _ => Ok b
         | Some _, None => Ub NullDeref
         | Some _, Some (_, name) =>
             handle_encoding ← BlockHandle.EncodeTo [] filter_handle;
             BlockBuilder.Add (comparator o) (block_restart_interval o) b (filter_key name) handle_encoding
         end);
    w ← WriteBlock b r;
    Ok (w.1.1, w.2)
  else Ok (r, BlockHandle.new).

Definition write_index (r : rep) : outcome (rep * handle) :=
  if ok (status_ r) then
    r ← (if pending_index_entry r then add_index_entry (FindShortSuccessor (comparator (options r)) (last_key r)) r else Ok r);
    w ← WriteBlock (index_block r) r;
    Ok (set_index w.1.2 w.1.1, w.2)
  else Ok (r, BlockHandle.new).

Definition write_footer (metaindex index : handle) (r : rep) : outcome rep :=
  if ok (status_ r) then
    footer_encoding ← Footer.EncodeTo [] (mkFooter metaindex index);
    let '(f, s) := file_Append (file r) footer_encoding in
    Ok (set_io f (if ok s then u64 (offset r + blen footer_encoding) else offset r) s r)
  else Ok r.

Definition Finish (r : rep) : outcome (rep * status) :=
  r ← Flush r;
  if closed r then Ub AssertionFailed
  else
    let r := set_closed r in
    w ← write_filter r;
    let '(r, filter_handle) := w in
    w ← write_metaindex filter_handle r;
    let '(r, metaindex_handle) := w in
    w ← write_index r;
    let '(r, index_handle) := w in
    r ← write_footer metaindex_handle index_handle r;
    Ok (r, status_ r).

Definition Abandon (r : rep) : outcome rep := if closed r then Ub AssertionFailed else Ok (set_closed r).
Definition NumEntries (r : rep) : Z := num_entries r.
Definition FileSize (r : rep) : Z := offset r.

(** A table with the entries [es]. *)
Definition build (o : Options) (f : F) (es : list entry) : outcome (rep * status) :=
  r ← new o f;
  r ← for_loop (λ e, Add e.1 e.2) es r;
  Finish r.

End builder.
Arguments rep : clear implicits.
End TableBuilder.

Import TableBuilder.

(** ** Contracts *)

(** A file whose successful [Append]s store the bytes; files are shorter than [2^60]. *)
Class WritableLaws {F} (file_Append : F → list byte → F * status) (file_Flush : F → F * status) (content : F → list byte) : Prop := {
  write_stores f d f' s : file_Append f d = (f', s) → ok s = true → content f' = content f ++ d ∧ blen (content f') < 2 ^ 60;
  flush_keeps f f' s : file_Flush f = (f', s) → ok s = true → content f' = content f
}.

(** The snappy library, whose blocks are shorter than 4 GiB, gives back what it
    compressed. *)
Class SnappyLaws (Snappy_Compress : list byte → option (list byte)) (Snappy_GetUncompressedLength : list byte → option Z)
    (Snappy_Uncompress : list byte → option (list byte)) : Prop := {
  snappy_roundtrip raw c : Snappy_Compress raw = Some c →
    Snappy_GetUncompressedLength c = Some (blen raw) ∧ Snappy_Uncompress c = Some raw ∧ blen raw < 2 ^ 32
}.

(** ** The contents of a table file *)

Section layout.
Context (Snappy_GetUncompressedLength : list byte → option Z) (Snappy_Uncompress : list byte → option (list byte)).

(** The block [raw] is stored at [h]. *)
Definition stored_at (file : list byte) (h : handle) (raw : list byte) : Prop :=
  ∃ c type pre post, stored_as Snappy_GetUncompressedLength Snappy_Uncompress type c raw ∧
    file = pre ++ c ++ trailer_bytes c type ++ post ∧ blen pre = offset_ h ∧ blen c = size_ h ∧ (c = raw ∨ blen raw < 2 ^ 32).
(** A sorted block with the entries [es] is stored at [h]. *)
Definition holds (file : list byte) (h : handle) (es : list entry) : Prop :=
  handle_ok h ∧ ∃ raw, stored_at file h raw ∧
    (blen raw < 2 ^ 32 → ∃ rows rs, raw = block_bytes rows rs ∧ chain_ok rows ∧ restarts_ok rows rs ∧ map entry_of rows = es).

Lemma stored_at_app file h raw tail : stored_at file h raw → stored_at (file ++ tail) h raw.
Proof.
  intros (c & type & pre & post & H1 & -> & H2). exists c, type, pre, (post ++ tail). split; [done|]. split; [by rewrite <- !app_assoc | done].
Qed.

Lemma holds_app file h es tail : holds file h es → holds (file ++ tail) h es.
Proof. intros (Hh & raw & Hs & Hr). split; [done|]. exists raw. split; [by apply stored_at_app | done]. Qed.

Lemma stored_at_small file h raw : stored_at file h raw → blen file < 2 ^ 32 → blen raw < 2 ^ 32.
Proof.
  intros (c & type & pre & post & _ & -> & _ & _ & [->|?]) Hf; [|done]. rewrite !blen_app in Hf.
  pose proof (blen_nonneg pre). pose proof (blen_nonneg post). pose proof (blen_nonneg (trailer_bytes raw type)). lia.
Qed.

(** A data block of the file. *)
Record dblock := mkD { d_handle : handle; d_entries : list entry }.
Definition block_offset (b : dblock) : Z := offset_ (d_handle b).
Definition entries_before (bs : list dblock) (j : nat) : nat := length (concat (map d_entries (take j bs))).
Definition filter_blocks (bs : list dblock) : list (Z * list (list byte)) := map (λ b, (offset_ (d_handle b), map fst (d_entries b))) bs.

Context (cmp : Comparator).

(** The index entries between blocks: the separator of the neighbouring keys, and the
    handle. *)
Definition index_ok (index : list entry) (bs : list dblock) (es : list entry) : Prop :=
  length index = length bs ∧ ∀ j x b, index !! j = Some x → bs !! j = Some b →
    x.2 = handle_bytes (d_handle b) ∧ ∃ a c, es !! pred (entries_before bs (S j)) = Some a ∧
      es !! entries_before bs (S j) = Some c ∧ x.1 = FindShortestSeparator cmp a.1 c.1.
(** The last index entry. *)
Definition last_index_ok (x : entry) (b : dblock) (es : list entry) : Prop :=
  x.2 = handle_bytes (d_handle b) ∧ ∃ a, last es = Some a ∧ x.1 = FindShortSuccessor cmp a.1.

Definition blocks_ok (file : list byte) (bs : list dblock) : Prop := ∀ b, b ∈ bs → holds file (d_handle b) (d_entries b) ∧ d_entries b ≠ [].

(** A file with the table of [es]. *)
Record table_file (policy : option (FilterPolicy * list byte)) (file : list byte) (es : list entry) (bs : list dblock) (index : list entry)
    (metah indexh : handle) : Prop := mkTable {
  tf_footer : ∃ body, file = body ++ footer_bytes (mkFooter metah indexh);
  tf_blocks : blocks_ok file bs;
  tf_handles : NoDup (map block_offset bs);
  tf_entries : es = concat (map d_entries bs);
  tf_index : holds file indexh index;
  tf_index_ok : match bs with
    | [] => index = []
    | _ => ∃ front x bs' b, index = front ++ [x] ∧ bs = bs' ++ [b] ∧ index_ok front bs' es ∧ last_index_ok x b es
    end;
  tf_meta : handle_ok metah ∧ match policy with
    | None => holds file metah []
    | Some (p, name) => ∃ fh contents o, holds file metah [(filter_key name, handle_bytes fh)] ∧ handle_ok fh ∧ stored_at file fh contents ∧
        ascending 0 (filter_blocks bs ++ [(o, [])]) ∧ FilterBlock.build p (filter_blocks bs ++ [(o, [])]) = Ok contents
    end
}.
End layout.

(** ** Lemmas *)

Lemma ok_status s : ok s = true → s = status_ok.
Proof. by destruct s. Qed.

Lemma add_blocks_app p l k : ∀ b, add_blocks p b (l ++ k) = (b ← add_blocks p b l; add_blocks p b k).
Proof. induction l as [|[o ks] l IH]; intros b; [done|]. cbn [add_blocks app]. destruct (StartBlock p b o); [apply IH | done..]. Qed.

Lemma add_blocks_key p b fb l o ks k : add_blocks p b (l ++ [(o, ks)]) = Ok fb → add_blocks p b (l ++ [(o, ks ++ [k])]) = Ok (AddKey fb k).
Proof.
  rewrite !add_blocks_app. destruct (add_blocks p b l) as [b1| | |]; try done. cbn [mbind outcome_bind add_blocks].
  destruct (StartBlock p b1 o) as [b2| | |]; try done. cbn [mbind outcome_bind]. intros [= <-]. by rewrite foldl_app.
Qed.

Lemma ascending_app l k : ∀ from, ascending from (l ++ k) ↔ ascending from l ∧ ascending (foldl (λ _ x, x.1) from l) k.
Proof. induction l as [|[o ks] l IH]; intros from; cbn [ascending app foldl fst]; [tauto|]. rewrite IH. tauto. Qed.

Lemma ascending_keys l o ks ks' from : ascending from (l ++ [(o, ks)]) → ascending from (l ++ [(o, ks')]).
Proof. rewrite !ascending_app. by intros [? [? _]]. Qed.

Lemma ascending_next l o ks o' from : ascending from (l ++ [(o, ks)]) → o ≤ o' → ascending from ((l ++ [(o, ks)]) ++ [(o', [])]).
Proof. intros H Ho. apply ascending_app. split; [done|]. rewrite foldl_app. by split. Qed.

Section builder_proof.
Context {F : Type} (file_Append : F → list byte → F * status) (file_Flush : F → F * status) (content : F → list byte)
  `{HW : !WritableLaws file_Append file_Flush content}.
Context (addr : list byte → Z) (Haddr : addr_ok addr).
Context (Snappy_Compress : list byte → option (list byte)) (Snappy_GetUncompressedLength : list byte → option Z)
  (Snappy_Uncompress : list byte → option (list byte)) `{HS : !SnappyLaws Snappy_Compress Snappy_GetUncompressedLength Snappy_Uncompress}.
Context (valid : list byte → Prop) (o : Options) `{HC : !ComparatorLaws valid (comparator o)}.
Context (Hint : 1 ≤ block_restart_interval o) (Hcomp : compression o = kNoCompression ∨ compression o = kSnappyCompression).
(** At most [N] keys go into the filters. *)
Context (N : nat) (size_ok : list (list byte) → Prop).
Definition policy_ok : Prop := match filter_policy o with
  | None => True
  | Some (p, _) => FilterLaws size_ok p ∧ ∀ l, (length l ≤ N)%nat → size_ok l
  end.
Context (Hpolicy : policy_ok).

#[local] Notation cmp := (comparator o).
#[local] Notation holds := (holds Snappy_GetUncompressedLength Snappy_Uncompress).
#[local] Notation stored_at := (stored_at Snappy_GetUncompressedLength Snappy_Uncompress).
#[local] Notation blocks_ok := (blocks_ok Snappy_GetUncompressedLength Snappy_Uncompress).
#[local] Notation WriteRawBlock := (WriteRawBlock file_Append addr).
#[local] Notation WriteBlock := (WriteBlock file_Append addr Snappy_Compress).
#[local] Notation Flush := (TableBuilder.Flush file_Append file_Flush addr Snappy_Compress).
#[local] Notation Add := (TableBuilder.Add file_Append file_Flush addr Snappy_Compress).

(** *** Writing a block *)

Definition at_end (r : rep F) : Prop := offset r = blen (content (file r)) ∧ offset r < 2 ^ 60.

Lemma WriteRawBlock_spec contents type r : at_end r →
  ∃ f z s, WriteRawBlock contents type r = Ok (set_io f z s r, mkHandle (offset r) (blen contents)) ∧ offset r ≤ z ∧
    if ok s then content f = content (file r) ++ contents ++ trailer_bytes contents type ∧ z = blen (content f) ∧ z < 2 ^ 60 ∧
      handle_ok (mkHandle (offset r) (blen contents)) else z = offset r.
Proof.
  intros [Ho Hlt]. unfold TableBuilder.WriteRawBlock. pose proof (blen_nonneg contents). pose proof (blen_nonneg (content (file r))).
  destruct (file_Append (file r) contents) as [f s] eqn:E. destruct (ok s) eqn:Es.
  - destruct (write_stores _ _ _ _ E Es) as [Hc Hb]. rewrite Hc, blen_app in Hb. rewrite trailer_spec by (done || lia).
    cbn [mbind outcome_bind]. destruct (file_Append f (trailer_bytes contents type)) as [f' s'] eqn:E'. destruct (ok s') eqn:Es'.
    + destruct (write_stores _ _ _ _ E' Es') as [Hc' Hb']. rewrite Hc', Hc, !blen_app in Hb'. change (blen (trailer_bytes contents type)) with 5 in *.
      change kBlockTrailerSize with 5. rewrite u64_small by (unfold is_u64; lia). eexists f', _, s'. split; [done|]. rewrite Es'.
      split; [lia|]. rewrite Hc', Hc, !blen_app. change (blen (trailer_bytes contents type)) with 5. split; [by rewrite <- app_assoc|].
      unfold handle_ok, unset. cbn. split; [lia|]. split; lia.
    + exists f', (offset r), s'. rewrite Es'. split; [done|]. split; [lia | done].
  - exists f, (offset r), s. rewrite Es. split; [done|]. split; [lia | done].
Qed.

Lemma choose_contents_spec raw c type : choose_contents Snappy_Compress (compression o) raw = (c, type) →
  stored_as Snappy_GetUncompressedLength Snappy_Uncompress type c raw ∧ (c = raw ∨ blen raw < 2 ^ 32).
Proof.
  unfold choose_contents. assert (∀ c t, (raw, kNoCompression) = (c, t) → stored_as Snappy_GetUncompressedLength Snappy_Uncompress t c raw ∧ (c = raw ∨ blen raw < 2 ^ 32)) as Hraw.
  { intros ? ? [= <- <-]. split; [by left | by left]. }
  destruct Hcomp as [->| ->]; [apply Hraw|]. change (kSnappyCompression =? kNoCompression) with false. cbv iota.
  rewrite Z.eqb_refl. destruct (Snappy_Compress raw) as [d|] eqn:E; [|apply Hraw].
  destruct (_ <? _); [|apply Hraw]. intros [= <- <-]. destruct (snappy_roundtrip raw d E) as (? & ? & ?). split; [by right | by right].
Qed.

(** The file after a block: what was there, and the block with the entries [es]. *)
Lemma WriteBlock_spec b interval rows rs r : build_inv interval b rows rs → at_end r → options r = o → ok (status_ r) = true →
  ∃ f z s h, WriteBlock b r = Ok (set_io f z s r, BlockBuilder.Reset b, h) ∧ offset r ≤ z ∧
    if ok s then ∃ ext, content f = content (file r) ++ ext ∧ z = blen (content f) ∧ offset r < z < 2 ^ 60 ∧
      offset_ h = offset r ∧ holds (content f) h (map entry_of rows) else z = offset r.
Proof.
  intros Hb Hend Ho Hs. unfold TableBuilder.WriteBlock. rewrite Hs, Ho. cbn [negb].
  destruct (BlockBuilder.Finish b) as [b' raw] eqn:Ef. assert (raw = (BlockBuilder.Finish b).2) as Er by (by rewrite Ef).
  assert (BlockBuilder.Reset b' = BlockBuilder.Reset b) as -> by done.
  destruct (choose_contents Snappy_Compress (compression o) raw) as [c type] eqn:Ec.
  destruct (choose_contents_spec raw c type Ec) as [Hst Hsmall].
  destruct (WriteRawBlock_spec c type r Hend) as (f & z & s & -> & Hz & Hcase). cbn [mbind outcome_bind fst snd].
  exists f, z, s, (mkHandle (offset r) (blen c)). split; [done|]. split; [done|]. destruct (ok s); [|done].
  destruct Hcase as (Hc & Hz' & Hlt & Hh). exists (c ++ trailer_bytes c type). split; [done|]. split; [done|]. split.
  { rewrite Hz', Hc, !blen_app in *. change (blen (trailer_bytes c type)) with 5 in *. destruct Hend as [-> _]. pose proof (blen_nonneg c). lia. }
  split; [done|].
  split; [exact Hh|]. exists raw. split.
  - exists c, type, (content (file r)), []. rewrite app_nil_r. destruct Hend as [He _]. split_and!; try done; by rewrite He.
  - intros Hl. rewrite Er in *. exists rows, rs. split; [by eapply Finish_bytes|]. split_and!; by destruct Hb.
Qed.


(** *** The invariant *)

Definition filter_inv (r : rep F) (bs : list dblock) (keys : list (list byte)) : Prop :=
  match filter_policy o with
  | None => filter_block r = None
  | Some (p, _) => ∃ fb, filter_block r = Some (p, fb) ∧ ascending 0 (filter_blocks bs ++ [(offset r, keys)]) ∧
      add_blocks p new_builder (filter_blocks bs ++ [(offset r, keys)]) = Ok fb
  end.

(** The index holds the blocks but the last one while its entry is pending. *)
Definition pending_inv (r : rep F) (es : list entry) (bs : list dblock) (rows irows : list row) : Prop :=
  if pending_index_entry r then rows = [] ∧ ∃ front b, bs = front ++ [b] ∧ pending_handle r = d_handle b ∧ index_ok cmp (map entry_of irows) front es
  else index_ok cmp (map entry_of irows) bs es.

Record tb_inv (r : rep F) (es : list entry) (bs : list dblock) (rows : list row) (rs : list nat) (irows : list row) (irs : list nat) : Prop := mkTbInv {
  ti_options : options r = o ∧ index_block_options r = index_options o;
  ti_open : closed r = false;
  ti_status : ok (status_ r) = true;
  ti_end : at_end r;
  ti_blocks : blocks_ok (content (file r)) bs;
  ti_handles : NoDup (map block_offset bs) ∧ ∀ b, b ∈ bs → offset_ (d_handle b) < offset r;
  ti_data : build_inv (block_restart_interval o) (data_block r) rows rs;
  ti_index : build_inv 1 (index_block r) irows irs;
  ti_entries : es = concat (map d_entries bs) ++ map entry_of rows;
  ti_last : ∀ e, last es = Some e → TableBuilder.last_key r = e.1;
  ti_num : num_entries r = Z.of_nat (length es);
  ti_size : (length es ≤ N)%nat;
  ti_pending : pending_inv r es bs rows irows;
  ti_filter : filter_inv r bs (map fst (map entry_of rows))
}.
Definition failed (r : rep F) : Prop := closed r = false ∧ ok (status_ r) = false.
Definition tb_ok (r : rep F) (es : list entry) : Prop :=
  failed r ∨ ∃ bs rows rs irows irs, tb_inv r es bs rows rs irows irs.

Lemma length_filter_keys bs : length (concat (map snd (filter_blocks bs))) = length (concat (map d_entries bs)).
Proof. unfold filter_blocks. induction bs as [|b bs IH]; [done|]. cbn. rewrite !length_app, length_map. by rewrite IH. Qed.

(** *** Starting a filter *)

Lemma start_filter_spec r bs keys z : filter_inv r bs keys → offset r ≤ z → (length (concat (map d_entries bs)) + length keys ≤ N)%nat →
  ∀ r' : rep F, filter_block r' = filter_block r → offset r' = z →
  ∃ (r2 : rep F) fb2, start_filter r' = Ok r2 ∧ r2 = set_filter fb2 r' ∧
    match filter_policy o with
    | None => fb2 = None
    | Some (p, _) => ∃ fb, fb2 = Some (p, fb) ∧ ascending 0 ((filter_blocks bs ++ [(offset r, keys)]) ++ [(z, [])]) ∧
        add_blocks p new_builder ((filter_blocks bs ++ [(offset r, keys)]) ++ [(z, [])]) = Ok fb
    end.
Proof.
  intros Hf Hz HN r' Efb Eo. unfold start_filter, filter_inv, policy_ok in *. rewrite Efb. destruct (filter_policy o) as [[p name]|].
  - destruct Hf as (fb & Ef & Hasc & Hadd). rewrite Ef. destruct Hpolicy as [HL Hsize].
    pose proof (ascending_next _ _ _ z 0 Hasc Hz) as Hasc'.
    assert (builder_ok p new_builder [] []) as H0 by (exists []; by split; [constructor|]).
    destruct (add_blocks_spec p size_ok _ new_builder [] [] 0 H0 Hasc') as (fb' & gs & ks & E & _); [lia | done | |].
    { intros l Hl. apply Hsize. cbn [length Nat.add] in Hl. unfold total_keys in Hl.
      rewrite !map_app, !concat_app, !length_app, length_filter_keys in Hl. cbn in Hl. rewrite app_nil_r in Hl. lia. }
    pose proof E as E'. rewrite add_blocks_app, Hadd in E'. cbn [mbind outcome_bind add_blocks foldl] in E'. rewrite Eo.
    destruct (StartBlock p fb z) as [fb2| | |]; try done. cbn [mbind outcome_bind] in *. injection E' as ->.
    exists (set_filter (Some (p, fb')) r'), (Some (p, fb')). split; [done|]. split; [done|]. by exists fb'.
  - rewrite Hf in *. exists r', None. split; [done|]. split; [|done]. destruct r'. cbn in *. by rewrite Efb.
Qed.

(** *** Flush *)

Lemma empty_rows interval b rows rs : build_inv interval b rows rs → BlockBuilder.empty b = bool_decide (rows = []).
Proof.
  intros Hb. unfold BlockBuilder.empty. rewrite (inv_buffer _ _ _ _ Hb). destruct rows as [|x rows]; [done|]. rewrite body_cons, blen_app.
  pose proof (enc_length x). rewrite bool_decide_false by done. apply Z.eqb_neq. unfold blen. lia.
Qed.

Lemma entries_before_all bs : entries_before bs (length bs) = length (concat (map d_entries bs)).
Proof. unfold entries_before. by rewrite firstn_all. Qed.
Lemma entries_before_app bs b j : (j ≤ length bs)%nat → entries_before (bs ++ [b]) j = entries_before bs j.
Proof. intros H. unfold entries_before. by rewrite take_app_le. Qed.

Lemma index_ok_more index bs es es' : index_ok cmp index bs es → index_ok cmp index bs (es ++ es').
Proof.
  intros [Hl H]. split; [done|]. intros j x b Hx Hb. destruct (H j x b Hx Hb) as (H1 & a & c & Ha & Hc & Hk). split; [done|].
  exists a, c. split; [by apply lookup_app_l_Some|]. split; [by apply lookup_app_l_Some | done].
Qed.

Lemma Flush_spec r es bs rows rs irows irs : tb_inv r es bs rows rs irows irs → rows ≠ [] →
  ∃ r', Flush r = Ok r' ∧ (failed r' ∨ ∃ b, tb_inv r' es (bs ++ [b]) [] [0%nat] irows irs).
Proof.
  intros Hi Hrows. pose proof Hi as [[Ho Hio] Hop Hst Hend Hbs [Hnd Hbelow] Hdata Hindex Hes Hlast Hnum Hsize Hpend Hfil].
  unfold TableBuilder.Flush. rewrite Hop, Hst, (empty_rows _ _ _ _ Hdata), bool_decide_false by done. cbn [negb].
  unfold pending_inv in Hpend. destruct (pending_index_entry r) eqn:Ep; [by destruct Hpend as [? _]|].
  destruct (WriteBlock_spec (data_block r) _ rows rs r Hdata Hend Ho Hst) as (f & z & s & h & -> & Hz & Hcase). cbn [mbind outcome_bind].
  set (r1 := set_pending (pending_index_entry r) h (set_data (BlockBuilder.Reset (data_block r)) (set_io f z s r))).
  change (status_ (set_pending _ _ _)) with s. change (file (set_pending _ _ _)) with f. change (offset (set_pending _ _ _)) with z.
  assert (length (concat (map d_entries bs)) + length (map fst (map entry_of rows)) ≤ N)%nat as HN.
  { rewrite Hes, length_app in Hsize. rewrite length_map. done. }
  destruct (ok s) eqn:Es.
  - destruct Hcase as (ext & Hc & Hz' & Hlt & Hoff & Hholds). destruct (file_Flush f) as [f' s'] eqn:Efl.
    set (r2 := set_io f' z s' (set_pending true h r1)).
    destruct (start_filter_spec r bs _ z Hfil Hz HN r2 eq_refl eq_refl) as (r3 & fb2 & E & -> & Hfb).
    exists (set_filter fb2 r2). split; [exact E|]. destruct (ok s') eqn:Es'; [|left; by split].
    pose proof (flush_keeps _ _ _ Efl Es') as Hkeep. right. exists (mkD h (map entry_of rows)). split; try done.
    + split; [cbn; by rewrite Hkeep | cbn; lia].
    + intros b [Hb| ->%list_elem_of_singleton]%elem_of_app; cbn [file set_filter r2 set_io]; rewrite Hkeep.
      * destruct (Hbs b Hb) as [H1 H2]. split; [|done]. rewrite Hc. by apply holds_app.
      * split; [done|]. cbn. by destruct rows.
    + rewrite map_app. cbn [offset set_filter r2 set_io map d_handle]. split.
      * apply NoDup_app. split; [done|]. split; [|apply NoDup_singleton]. intros z' (b & -> & Hb)%list_elem_of_fmap Hh%list_elem_of_singleton.
        specialize (Hbelow b Hb). unfold block_offset in Hh. cbn in Hh. lia.
      * intros b [Hb| ->%list_elem_of_singleton]%elem_of_app; [specialize (Hbelow b Hb); lia | cbn; lia].
    + by apply new_build_inv.
    + rewrite map_app, concat_app. cbn. by rewrite !app_nil_r.
    + unfold pending_inv. cbn [pending_index_entry set_filter r2 set_io set_pending pending_handle]. split; [done|].
      exists bs, (mkD h (map entry_of rows)). done.
    + unfold filter_inv. cbn [offset set_filter r2 set_io filter_block]. unfold filter_blocks in *. rewrite map_app. cbn [map d_handle d_entries].
      destruct (filter_policy o) as [[p name]|]; [|done]. rewrite Hoff. exact Hfb.
  - destruct (start_filter_spec r bs _ z Hfil Hz HN r1 eq_refl eq_refl) as (r3 & fb2 & E & -> & Hfb).
    exists (set_filter fb2 r1). split; [exact E|]. left. by split.
Qed.

(** *** Add *)

Definition all_valid (es : list entry) : Prop := ∀ e, e ∈ es → valid e.1.
#[local] Notation sorted es := (sorted_entries (Compare cmp) es).

Lemma sorted_le es i j x y : sorted es → all_valid es → (i ≤ j)%nat → es !! i = Some x → es !! j = Some y → Compare cmp x.1 y.1 ≤ 0.
Proof.
  intros Hs Hv Hij Hx Hy. destruct (decide (i = j)) as [->|Hne].
  - rewrite Hx in Hy. injection Hy as <-. rewrite (compare_refl (c := cmp) x.1); [done|]. apply Hv. by eapply list_elem_of_lookup_2.
  - pose proof (Hs i j x y ltac:(lia) Hx Hy). lia.
Qed.

Lemma entries_before_pos bs j b : (∀ b, b ∈ bs → d_entries b ≠ []) → bs !! j = Some b → (0 < entries_before bs (S j))%nat.
Proof.
  intros Hne Hb. unfold entries_before. rewrite (take_S_r _ _ _ Hb), map_app, concat_app, length_app. cbn.
  pose proof (Hne b (list_elem_of_lookup_2 _ _ _ Hb)). destruct (d_entries b); [done|]. cbn. lia.
Qed.

(** The separator behind block [j] lies between the neighbouring entries. *)
Lemma index_between index bs es j x b : index_ok cmp index bs es → (∀ b, b ∈ bs → d_entries b ≠ []) → sorted es → all_valid es →
  index !! j = Some x → bs !! j = Some b → ∃ a c, es !! pred (entries_before bs (S j)) = Some a ∧ es !! entries_before bs (S j) = Some c ∧
    x.1 = FindShortestSeparator cmp a.1 c.1 ∧ Compare cmp a.1 c.1 < 0 ∧ valid a.1 ∧ valid c.1 ∧ valid x.1 ∧ Compare cmp a.1 x.1 ≤ 0 ∧ Compare cmp x.1 c.1 < 0.
Proof.
  intros [_ H] Hne Hs Hv Hx Hb. destruct (H j x b Hx Hb) as (_ & a & c & Ha & Hc & Hk). exists a, c.
  assert (valid a.1) as Hva by (apply Hv; by eapply list_elem_of_lookup_2). assert (valid c.1) as Hvc by (apply Hv; by eapply list_elem_of_lookup_2).
  pose proof (entries_before_pos bs j b Hne Hb). assert (Compare cmp a.1 c.1 < 0) as Hlt by (refine (Hs _ _ _ _ _ Ha Hc); lia).
  pose proof (separator_between (c := cmp) a.1 c.1 Hva Hvc Hlt) as (H1 & H2 & H3). by rewrite Hk.
Qed.

Lemma index_last_below irows front b es a : index_ok cmp (map entry_of irows) front es → es = concat (map d_entries (front ++ [b])) →
  (∀ b', b' ∈ front ++ [b] → d_entries b' ≠ []) → sorted es → all_valid es → last es = Some a → irows ≠ [] → ∃ k, Block.last_key irows = k ∧ valid k ∧ Compare cmp k a.1 < 0.
Proof.
  intros Hi Hes Hne Hs Hv Ha Hir. destruct irows as [|x irows _] using rev_ind; [done|]. unfold Block.last_key. rewrite last_snoc.
  pose proof Hi as [Hl _]. rewrite length_map, length_app in Hl. cbn in Hl. rewrite map_app in Hi. cbn in Hi.
  assert ((map entry_of irows ++ [entry_of x]) !! length irows = Some (entry_of x)) as Hx by (apply list_lookup_middle; by rewrite length_map).
  destruct (lookup_lt_is_Some_2 front (length irows) ltac:(lia)) as [b' Hb'].
  destruct (index_between _ front es _ _ b' Hi ltac:(intros ? ?; apply Hne; apply elem_of_app; by left) Hs Hv Hx Hb') as (a' & c & _ & Hc & _ & _ & _ & Hvc & Hvx & _ & Hxc).
  exists (row_key x). split; [done|]. split; [done|]. rewrite last_lookup in Ha.
  assert (valid a.1) as Hva by (apply Hv; by eapply list_elem_of_lookup_2). apply (compare_lt_le valid cmp _ c.1); try done.
  refine (sorted_le es _ _ _ _ Hs Hv _ Hc Ha). apply lookup_lt_Some in Hc. lia.
Qed.

Lemma add_index_entry_spec (r : rep F) es front b irows irs a key : index_block_options r = index_options o → build_inv 1 (index_block r) irows irs →
  handle_ok (d_handle b) → (∀ b', b' ∈ front ++ [b] → d_entries b' ≠ []) → es = concat (map d_entries (front ++ [b])) → pending_handle r = d_handle b →
  index_ok cmp (map entry_of irows) front es → sorted es → all_valid es → last es = Some a → valid key → Compare cmp a.1 key ≤ 0 →
  ∃ ib sh irs', add_index_entry key r = Ok (set_pending false (pending_handle r) (set_index ib (set_last_key key r))) ∧
    build_inv 1 ib (irows ++ [(sh, key, handle_bytes (d_handle b))]) irs'.
Proof.
  intros Hio Hib Hh Hne Hes Hph Hidx Hs Hv Ha Hk Hak. unfold add_index_entry. rewrite Hph.
  rewrite handle_encode by done. cbn [mbind outcome_bind app].
  rewrite Hio. cbn [index_options comparator block_restart_interval].
  destruct (Add_spec cmp 1 ltac:(lia) (index_block r) irows irs key (handle_bytes (d_handle b)) Hib) as (ib & sh & irs' & -> & Hib').
  - intros Hnil. destruct (index_last_below irows front b es a Hidx Hes Hne Hs Hv Ha Hnil) as (k & -> & Hvk & Hlt).
    apply (compare_neg valid cmp); [done | done|]. rewrite last_lookup in Ha.
    apply (compare_lt_le valid cmp _ a.1); try done. apply Hv. by eapply list_elem_of_lookup_2.
  - cbn [mbind outcome_bind]. exists ib, sh, irs'. done.
Qed.

(** The state before the entry goes into the data block. *)
Lemma flush_index_spec r es bs rows rs irows irs k v : tb_inv r es bs rows rs irows irs → sorted (es ++ [(k, v)]) → all_valid (es ++ [(k, v)]) →
  ∃ r' irows' irs', (if pending_index_entry r then if negb (BlockBuilder.empty (data_block r)) then Ub AssertionFailed
      else add_index_entry (FindShortestSeparator (comparator (options r)) (TableBuilder.last_key r) k) r else Ok r) = Ok r' ∧
    build_inv 1 (index_block r') irows' irs' ∧ index_ok cmp (map entry_of irows') bs (es ++ [(k, v)]) ∧ pending_index_entry r' = false ∧
    options r' = options r ∧ index_block_options r' = index_block_options r ∧ closed r' = closed r ∧ status_ r' = status_ r ∧ file r' = file r ∧ offset r' = offset r ∧
    data_block r' = data_block r ∧ num_entries r' = num_entries r ∧ filter_block r' = filter_block r.
Proof.
  intros Hi Hs Hv. pose proof (ti_pending _ _ _ _ _ _ _ Hi) as Hp. unfold pending_inv in Hp. destruct (pending_index_entry r) eqn:Ep.
  - destruct Hp as (Hrows & front & b & -> & Hph & Hidx). rewrite (empty_rows _ _ _ _ (ti_data _ _ _ _ _ _ _ Hi)), Hrows.
    change (bool_decide ([] = [])) with true. cbn [negb]. rewrite (proj1 (ti_options _ _ _ _ _ _ _ Hi)).
    assert (all_valid es) as Hves by (intros e He; apply Hv; apply elem_of_app; by left).
    assert (sorted es) as Hses by (intros i j x y Hij Hx Hy; apply (Hs i j); [done | by apply lookup_app_l_Some..]).
    pose proof (ti_entries _ _ _ _ _ _ _ Hi) as Hes. rewrite Hrows in Hes. cbn in Hes. rewrite app_nil_r in Hes.
    pose proof (ti_blocks _ _ _ _ _ _ _ Hi) as Hbs. destruct (Hbs b ltac:(apply elem_of_app; right; by left)) as [_ Hbne].
    destruct (last es) as [a|] eqn:Ha.
    2: { apply last_None in Ha. rewrite Ha, map_app, concat_app in Hes. symmetry in Hes. apply app_eq_nil in Hes as [_ Hes]. cbn in Hes. by rewrite app_nil_r in Hes. }
    pose proof Ha as Ha'. rewrite last_lookup in Ha'. assert (valid a.1) as Hva by (apply Hves; by eapply list_elem_of_lookup_2).
    assert (valid k) as Hvk by (apply (Hv (k, v)); apply elem_of_app; right; by left).
    assert ((es ++ [(k, v)]) !! length es = Some (k, v)) as Hlk by (by apply list_lookup_middle).
    assert (length es ≠ 0)%nat as Hlen by (destruct es; [done | cbn; lia]).
    assert (Compare cmp a.1 k < 0) as Hak by (refine (Hs (pred (length es)) (length es) a (k, v) _ _ Hlk); [lia | by apply lookup_app_l_Some]).
    rewrite (ti_last _ _ _ _ _ _ _ Hi a Ha). set (sep := FindShortestSeparator cmp a.1 k).
    pose proof (separator_between (c := cmp) a.1 k Hva Hvk Hak) as (Hvs & Has & _). fold sep in Hvs, Has.
    destruct (Hbs b ltac:(apply elem_of_app; right; by left)) as [[Hbh _] _].
    destruct (add_index_entry_spec r es front b irows irs a sep (proj2 (ti_options _ _ _ _ _ _ _ Hi)) (ti_index _ _ _ _ _ _ _ Hi) Hbh
      ltac:(intros; by apply Hbs) Hes Hph Hidx Hses Hves Ha Hvs Has) as (ib & sh & irs' & -> & Hib).
    eexists _, _, irs'. split; [reflexivity|]. split; [exact Hib|]. split; [|repeat split; by destruct (ti_options _ _ _ _ _ _ _ Hi)].
    rewrite map_app. destruct Hidx as [Hl Hidx]. split; [by rewrite !length_app, Hl|]. intros j x b' Hx Hb'.
    destruct (decide (j < length front)%nat) as [Hlt|Hge].
    + rewrite lookup_app_l in Hx by (by rewrite Hl). rewrite lookup_app_l in Hb' by done. rewrite entries_before_app by lia.
      destruct (Hidx j x b' Hx Hb') as (H1 & a' & c & Ha2 & Hc & Hk). split; [done|]. exists a', c. split; [by apply lookup_app_l_Some|]. split; [by apply lookup_app_l_Some | done].
    + assert (j = length front) as -> by (apply lookup_lt_Some in Hb'; rewrite length_app in Hb'; cbn in Hb'; lia).
      rewrite list_lookup_middle in Hb' by done. injection Hb' as <-. cbn [map] in Hx. rewrite list_lookup_middle in Hx by (by rewrite Hl). injection Hx as <-. split; [done|].
      assert (entries_before (front ++ [b]) (S (length front)) = length es) as ->.
      { replace (S (length front)) with (length (front ++ [b])) by (rewrite length_app; cbn; lia). by rewrite entries_before_all, Hes. }
      exists a, (k, v). split; [by apply lookup_app_l_Some|]. split; [exact Hlk | done].
  - exists r, irows, irs. split; [done|]. split; [apply Hi|]. split; [by apply index_ok_more | done].
Qed.

Lemma add_filter_key_spec r bs keys key : filter_inv r bs keys → ∃ fb, add_filter_key key r = set_filter fb r ∧ filter_inv (set_filter fb r) bs (keys ++ [key]).
Proof.
  intros Hf. unfold add_filter_key, filter_inv in *. destruct (filter_policy o) as [[p name]|].
  - destruct Hf as (fb & -> & Hasc & Hadd). exists (Some (p, AddKey fb key)). split; [done|]. exists (AddKey fb key). cbn. split; [done|].
    split; [by eapply ascending_keys | by apply add_blocks_key].
  - rewrite Hf. exists None. split; [|done]. destruct r. cbn in *. by rewrite Hf.
Qed.

Lemma TableBuilder_Add_spec r es k v : tb_ok r es → (length (es ++ [(k, v)]) ≤ N)%nat → sorted (es ++ [(k, v)]) → all_valid (es ++ [(k, v)]) →
  ∃ r', Add k v r = Ok r' ∧ tb_ok r' (es ++ [(k, v)]).
Proof.
  intros [[Hcl Hst]|(bs & rows & rs & irows & irs & Hi)] HN Hs Hv; unfold TableBuilder.Add.
  { rewrite Hcl, Hst. exists r. split; [done|]. by left. }
  pose proof Hi as [[Ho Hio] Hop Hst Hend Hbs [Hnd Hbelow] Hdata Hindex Hes Hlast Hnum Hsize Hpend Hfil]. rewrite Hop, Hst, Hnum. cbn [negb].
  assert ((0 <? Z.of_nat (length es)) && negb (0 <? Compare (comparator (options r)) k (TableBuilder.last_key r)) = false) as ->.
  { destruct (last es) as [a|] eqn:Ha; [|apply last_None in Ha; by rewrite Ha]. rewrite (Hlast a eq_refl), Ho. rewrite last_lookup in Ha.
    assert ((es ++ [(k, v)]) !! length es = Some (k, v)) as Hlk by (by apply list_lookup_middle).
    assert (Compare cmp a.1 k < 0) as Hak.
    { refine (Hs (pred (length es)) (length es) a (k, v) _ _ Hlk); [apply lookup_lt_Some in Ha; lia | by apply lookup_app_l_Some]. }
    apply (compare_neg valid cmp) in Hak; [|apply Hv; apply elem_of_app; left; by eapply list_elem_of_lookup_2 | apply (Hv (k, v)); apply elem_of_app; right; by left].
    rewrite (proj2 (Z.ltb_lt _ _) Hak). apply andb_false_r. }
  destruct (flush_index_spec r es bs rows rs irows irs k v Hi Hs Hv) as (r1 & irows' & irs' & -> & Hib & Hidx & Ep & E1 & E2 & E3 & E4 & E5 & E6 & E7 & E8 & E9).
  cbn [mbind outcome_bind]. assert (filter_inv r1 bs (map fst (map entry_of rows))) as Hfil1 by (unfold filter_inv in *; by rewrite E9, E6).
  destruct (add_filter_key_spec r1 bs _ k Hfil1) as (fb & -> & Hfil2).
  cbn [num_entries set_filter]. cbn [options set_last_key set_num_entries set_filter data_block]. rewrite E1, E7, Ho.
  destruct (Add_spec cmp (block_restart_interval o) Hint (data_block r) rows rs k v Hdata) as (db & sh & rs' & -> & Hdb).
  { intros Hne. destruct rows as [|x rows0 _] using rev_ind; [done|]. unfold Block.last_key. rewrite last_snoc. rewrite map_app in Hes. cbn in Hes.
    rewrite app_assoc in Hes. assert ((es ++ [(k, v)]) !! length es = Some (k, v)) as Hlk by (by apply list_lookup_middle).
    assert (es !! pred (length es) = Some (entry_of x)) as Hx by (rewrite <- last_lookup, Hes; apply last_snoc).
    apply (compare_neg valid cmp); [apply (Hv (entry_of x)); apply elem_of_app; left; by eapply list_elem_of_lookup_2 | apply (Hv (k, v)); apply elem_of_app; right; by left|].
    refine (Hs (pred (length es)) (length es) (entry_of x) (k, v) _ _ Hlk); [apply lookup_lt_Some in Hx; lia | by apply lookup_app_l_Some]. }
  cbn [mbind outcome_bind]. set (r2 := set_data db _).
  assert (tb_inv r2 (es ++ [(k, v)]) bs (rows ++ [(sh, k, v)]) rs' irows' irs') as Hi2.
  { split; try done; unfold r2; cbn; rewrite ?E1, ?E2, ?E3, ?E4, ?E5, ?E6, ?E8.
    - done. - done. - done. - unfold at_end. cbn. by rewrite E5, E6. - done. - done.
    - by rewrite Hes, map_app, <- app_assoc.
    - intros e He. rewrite last_snoc in He. by injection He as <-.
    - rewrite length_app, Hnum. cbn. lia.
    - unfold pending_inv. cbn. by rewrite Ep.
    - unfold filter_inv in *. cbn in *. by rewrite !map_app. }
  change (block_size (options _)) with (block_size o). destruct (block_size o <=? BlockBuilder.CurrentSizeEstimate db).
  - destruct (Flush_spec r2 _ bs _ _ _ _ Hi2) as (r3 & -> & Hcase); [by destruct rows|]. exists r3. split; [done|].
    destruct Hcase as [Hf|[b Hb]]; [by left | right]. by eexists _, _, _, _, _.
  - exists r2. split; [done|]. right. by eexists _, _, _, _, _.
Qed.

(** *** Finish *)

Lemma Flush_final r es : tb_ok r es → ∃ r', Flush r = Ok r' ∧ (failed r' ∨ ∃ bs rs irows irs, tb_inv r' es bs [] rs irows irs).
Proof.
  intros [[Hcl Hst]|(bs & rows & rs & irows & irs & Hi)].
  { unfold TableBuilder.Flush. rewrite Hcl, Hst. exists r. split; [done|]. by left. }
  destruct rows as [|x rows].
  - unfold TableBuilder.Flush. rewrite (ti_open _ _ _ _ _ _ _ Hi), (ti_status _ _ _ _ _ _ _ Hi), (empty_rows _ _ _ _ (ti_data _ _ _ _ _ _ _ Hi)).
    exists r. split; [done|]. right. by exists bs, rs, irows, irs.
  - destruct (Flush_spec r es bs _ _ _ _ Hi) as (r' & -> & [Hf|[b Hb]]); [done | by exists r'; split; [|left] |].
    exists r'. split; [done|]. right. by eexists _, _, _, _.
Qed.

(** The parts of the state that the tail of [Finish] does not change. *)
Record extends (r r' : rep F) (ext : list byte) : Prop := mkExtends {
  ex_content : content (file r') = content (file r) ++ ext;
  ex_end : at_end r';
  ex_status : ok (status_ r') = true;
  ex_options : options r' = options r ∧ index_block_options r' = index_block_options r;
  ex_filter : filter_block r' = filter_block r;
  ex_pending : pending_index_entry r' = pending_index_entry r ∧ pending_handle r' = pending_handle r ∧ TableBuilder.last_key r' = TableBuilder.last_key r;
  ex_index : index_block r' = index_block r
}.

Lemma write_filter_spec (r : rep F) bs : ok (status_ r) = true → at_end r → filter_inv r bs [] → (length (concat (map d_entries bs)) ≤ N)%nat →
  ∃ r' h, write_filter file_Append addr r = Ok (r', h) ∧ (ok (status_ r') = true →
    ∃ ext, extends r r' ext ∧ match filter_policy o with
      | None => True
      | Some (p, _) => ∃ contents z, handle_ok h ∧ stored_at (content (file r')) h contents ∧ ascending 0 (filter_blocks bs ++ [(z, [])]) ∧
          FilterBlock.build p (filter_blocks bs ++ [(z, [])]) = Ok contents
      end).
Proof.
  intros Hst Hend Hf HN. unfold write_filter. rewrite Hst. unfold filter_inv, policy_ok in *.
  destruct (filter_policy o) as [[p name]|].
  - destruct Hf as (fb & -> & Hasc & Hadd). destruct Hpolicy as [HL Hsize].
    assert (builder_ok p new_builder [] []) as H0 by (exists []; by split; [constructor|]).
    assert (∀ l, (length l ≤ total_keys (filter_blocks bs ++ [(offset r, [])]))%nat → size_ok l) as Hsize'.
    { intros l Hl. apply Hsize. unfold total_keys in Hl. rewrite map_app, concat_app, length_app, length_filter_keys in Hl. cbn in Hl. lia. }
    destruct (add_blocks_spec p size_ok _ new_builder [] [] 0 H0 Hasc) as (fb' & gs & ks & E & Hb & Hk & _); [lia | done | exact Hsize' |].
    rewrite Hadd in E. injection E as <-.
    destruct (FilterBlock.Finish_spec p size_ok fb gs ks Hb) as (gs' & fs & _ & _ & Efin); [intros _; by apply Hsize'|].
    rewrite Efin. cbn [mbind outcome_bind]. set (contents := concat fs ++ _) in *.
    destruct (WriteRawBlock_spec contents kNoCompression r Hend) as (f & z & s & -> & Hz & Hcase). eexists _, _. split; [reflexivity|].
    cbn [status_ set_io]. intros Hs. rewrite Hs in Hcase. destruct Hcase as (Hc & Hz' & Hlt & Hh).
    exists (contents ++ trailer_bytes contents kNoCompression). split; [by split|]. exists contents, (offset r). split; [done|]. split.
    + exists contents, kNoCompression, (content (file r)), []. cbn [file set_io]. rewrite app_nil_r. destruct Hend as [He _].
      split_and!; [by left | done | by rewrite He | done | by left].
    + split; [done|]. unfold FilterBlock.build. rewrite Hadd. exact Efin.
  - rewrite Hf. exists r, BlockHandle.new. split; [done|]. intros _. exists []. split; [|done]. split; try done. by rewrite app_nil_r.
Qed.

Lemma write_metaindex_spec (r : rep F) fh : ok (status_ r) = true → at_end r → options r = o →
  match filter_policy o with None => filter_block r = None | Some _ => filter_block r ≠ None ∧ handle_ok fh end →
  ∃ r' h, write_metaindex file_Append addr Snappy_Compress fh r = Ok (r', h) ∧ (ok (status_ r') = true →
    ∃ ext, extends r r' ext ∧ holds (content (file r')) h
      (match filter_policy o with None => [] | Some (_, name) => [(filter_key name, handle_bytes fh)] end)).
Proof.
  intros Hst Hend Ho Hf. unfold write_metaindex. rewrite Hst, Ho. unfold BlockBuilder.new. rewrite (proj2 (Z.leb_le _ _) Hint). cbn [mbind outcome_bind].
  assert (∃ b rows rs, (match filter_block r with
      | Some _ => match filter_policy o with
                  | Some (_, name) => handle_encoding ← BlockHandle.EncodeTo [] fh;
                      BlockBuilder.Add cmp (block_restart_interval o) (BlockBuilder.mkBuilder [] [0] 0 false []) (filter_key name) handle_encoding
                  | None => Ub NullDeref
                  end
      | None => Ok (BlockBuilder.mkBuilder [] [0] 0 false []) end) = Ok b ∧ build_inv (block_restart_interval o) b rows rs ∧
      map entry_of rows = match filter_policy o with None => [] | Some (_, name) => [(filter_key name, handle_bytes fh)] end) as (b & rows & rs & Eb & Hb & Hrows).
  { destruct (filter_policy o) as [[p name]|].
    - destruct Hf as [Hf Hh]. destruct (filter_block r); [|done]. rewrite handle_encode by done. cbn [mbind outcome_bind app].
      destruct (Add_spec cmp (block_restart_interval o) Hint (BlockBuilder.mkBuilder [] [0] 0 false []) [] [0%nat] (filter_key name) (handle_bytes fh)) as (b & sh & rs & -> & Hb);
        [by apply new_build_inv | done|]. by eexists _, _, _.
    - rewrite Hf. eexists _, [], [0%nat]. split; [done|]. split; [by apply new_build_inv | done]. }
  rewrite Eb. cbn [mbind outcome_bind]. destruct (WriteBlock_spec b _ rows rs r Hb Hend Ho Hst) as (f & z & s & h & -> & Hz & Hcase). cbn [mbind outcome_bind fst snd].
  eexists _, _. split; [reflexivity|]. cbn [status_ set_io]. intros Hs. rewrite Hs in Hcase. destruct Hcase as (ext & Hc & Hz' & [_ Hlt] & Hoff & Hholds).
  exists ext. split; [by split|]. cbn [file set_io]. by rewrite <- Hrows.
Qed.

(** The last index entry. *)
Lemma write_index_spec (r : rep F) es bs irows irs : ok (status_ r) = true → at_end r → options r = o ∧ index_block_options r = index_options o →
  build_inv 1 (index_block r) irows irs → (∀ b, b ∈ bs → handle_ok (d_handle b) ∧ d_entries b ≠ []) → es = concat (map d_entries bs) →
  pending_inv r es bs [] irows → sorted es → all_valid es → (∀ e, last es = Some e → TableBuilder.last_key r = e.1) →
  ∃ r' h, write_index file_Append addr Snappy_Compress r = Ok (r', h) ∧ (ok (status_ r') = true →
    ∃ ext index, content (file r') = content (file r) ++ ext ∧ at_end r' ∧ holds (content (file r')) h index ∧
      match bs with
      | [] => index = []
      | _ => ∃ front x bs' b, index = front ++ [x] ∧ bs = bs' ++ [b] ∧ index_ok cmp front bs' es ∧ last_index_ok cmp x b es
      end).
Proof.
  intros Hst Hend [Ho Hio] Hib Hbs Hes Hp Hs Hv Hlast. unfold write_index. rewrite Hst.
  assert (∃ r1 irows' irs', (if pending_index_entry r then add_index_entry (FindShortSuccessor (comparator (options r)) (TableBuilder.last_key r)) r else Ok r) = Ok r1 ∧
    build_inv 1 (index_block r1) irows' irs' ∧ file r1 = file r ∧ offset r1 = offset r ∧ options r1 = o ∧ status_ r1 = status_ r ∧
    match bs with
    | [] => map entry_of irows' = []
    | _ => ∃ front x bs' b, map entry_of irows' = front ++ [x] ∧ bs = bs' ++ [b] ∧ index_ok cmp front bs' es ∧ last_index_ok cmp x b es
    end) as (r1 & irows' & irs' & -> & Hib' & Ef & Eo & Eopt & Est & Hindex).
  { unfold pending_inv in Hp. destruct (pending_index_entry r).
    - destruct Hp as (_ & front & b & -> & Hph & Hidx). destruct (Hbs b ltac:(apply elem_of_app; right; by left)) as [Hh Hbne].
      destruct (last es) as [a|] eqn:Ha.
      2: { apply last_None in Ha. rewrite Ha, map_app, concat_app in Hes. symmetry in Hes. apply app_eq_nil in Hes as [_ Hes]. cbn in Hes. by rewrite app_nil_r in Hes. }
      rewrite (Hlast a eq_refl), Ho. pose proof Ha as Ha'. rewrite last_lookup in Ha'.
      pose proof (successor_above (c := cmp) a.1 (Hv a ltac:(by eapply list_elem_of_lookup_2))) as [Hvs Has].
      destruct (add_index_entry_spec r es front b irows irs a _ Hio Hib Hh ltac:(intros; by apply Hbs) Hes Hph Hidx Hs Hv Ha Hvs Has) as (ib & sh & irs' & -> & Hib').
      eexists _, _, irs'. split; [reflexivity|]. split; [exact Hib'|]. do 4 (split; [done|]).
      assert (∃ front0 x bs' b0, map entry_of (irows ++ [(sh, FindShortSuccessor cmp a.1, handle_bytes (d_handle b))]) = front0 ++ [x] ∧
        front ++ [b] = bs' ++ [b0] ∧ index_ok cmp front0 bs' es ∧ last_index_ok cmp x b0 es) as Hgoal; [|by destruct front].
      rewrite map_app. eexists _, _, front, b. split; [reflexivity|]. split; [done|]. split; [done|]. split; [done|]. by exists a.
    - exists r, irows, irs. do 6 (split; [done|]). destruct bs as [|b0 bs0].
      + destruct Hp as [Hl _]. by apply nil_length_inv in Hl.
      + exfalso. destruct Hp as [Hl Hp]. rewrite length_map in Hl.
        destruct (lookup_lt_is_Some_2 (map entry_of irows) (length bs0)) as [x Hx]; [rewrite length_map, Hl; cbn; lia|].
        destruct (lookup_lt_is_Some_2 (b0 :: bs0) (length bs0)) as [b Hb]; [cbn; lia|].
        destruct (Hp _ x b Hx Hb) as (_ & _ & c & _ & Hc & _). change (S (length bs0)) with (length (b0 :: bs0)) in Hc.
        rewrite entries_before_all, <- Hes in Hc. apply lookup_lt_Some in Hc. lia. }
  cbn [mbind outcome_bind]. assert (at_end r1) as Hend1 by (unfold at_end; by rewrite Ef, Eo).
  destruct (WriteBlock_spec (index_block r1) 1 irows' irs' r1 Hib' Hend1 Eopt ltac:(by rewrite Est)) as (f & z & s & h & -> & Hz & Hcase). cbn [mbind outcome_bind fst snd].
  eexists _, _. split; [reflexivity|]. cbn [status_ set_io set_index]. intros Hs'. rewrite Hs' in Hcase. destruct Hcase as (ext & Hc & Hz' & [_ Hlt] & Hoff & Hholds).
  exists ext, (map entry_of irows'). cbn [file set_io set_index]. rewrite Ef in Hc. by split_and!.
Qed.

Lemma write_footer_spec (r : rep F) mh ih : ok (status_ r) = true → at_end r → handle_ok mh → handle_ok ih →
  ∃ r', write_footer file_Append mh ih r = Ok r' ∧ (ok (status_ r') = true →
    content (file r') = content (file r) ++ footer_bytes (mkFooter mh ih) ∧ at_end r').
Proof.
  intros Hst Hend Hm Hi. unfold write_footer. rewrite Hst, footer_encode by done. cbn [mbind outcome_bind].
  destruct (file_Append (file r) _) as [f s] eqn:E. eexists. split; [reflexivity|]. cbn [status_ file set_io]. intros Hs. rewrite Hs.
  destruct (write_stores _ _ _ _ E Hs) as [Hc Hb]. split; [done|]. unfold at_end. cbn [offset file set_io]. rewrite Hc in *. rewrite blen_app in *.
  destruct Hend as [He Hl]. rewrite <- He in *. pose proof (blen_nonneg (content (file r))). pose proof (blen_nonneg (footer_bytes (mkFooter mh ih))).
  rewrite u64_small by (unfold is_u64; lia). split; [done | lia].
Qed.

Lemma tail_failed (r : rep F) fh mh ih : ok (status_ r) = false → write_filter file_Append addr r = Ok (r, BlockHandle.new) ∧
  write_metaindex file_Append addr Snappy_Compress fh r = Ok (r, BlockHandle.new) ∧
  write_index file_Append addr Snappy_Compress r = Ok (r, BlockHandle.new) ∧ write_footer file_Append mh ih r = Ok r.
Proof. intros H. unfold write_filter, write_metaindex, write_index, write_footer. by rewrite H. Qed.

Lemma pending_inv_extends r r' ext es bs irows : extends r r' ext → pending_inv r es bs [] irows → pending_inv r' es bs [] irows.
Proof. intros He. destruct (ex_pending _ _ _ He) as (E1 & E2 & _). unfold pending_inv. by rewrite E1, E2. Qed.

Lemma tail_extends_trans r1 r2 r3 e1 e2 : extends r1 r2 e1 → extends r2 r3 e2 → extends r1 r3 (e1 ++ e2).
Proof.
  intros [A1 A2 A3 A4 A5 A6 A7] [B1 B2 B3 B4 B5 B6 B7]. split; try done; [by rewrite B1, A1, app_assoc| | | |]; try congruence.
  - destruct A4, B4. split; congruence.
  - destruct A6 as (? & ? & ?), B6 as (? & ? & ?). split_and!; congruence.
Qed.

Lemma Finish_table r es : tb_ok r es → sorted es → all_valid es → ∃ r' s, TableBuilder.Finish file_Append file_Flush addr Snappy_Compress r = Ok (r', s) ∧
  (ok s = true → offset r' = blen (content (file r')) ∧ ∃ bs index mh ih,
    table_file Snappy_GetUncompressedLength Snappy_Uncompress cmp (filter_policy o) (content (file r')) es bs index mh ih).
Proof.
  intros Hr Hs Hv. unfold TableBuilder.Finish. destruct (Flush_final r es Hr) as (r1 & -> & Hcase). cbn [mbind outcome_bind].
  assert (∀ (r : rep F), ok (status_ r) = false → ∃ r' s, Ok (r, status_ r) = Ok (r', s) ∧ (ok s = true → offset r' = blen (content (file r')) ∧ ∃ bs index mh ih,
    table_file Snappy_GetUncompressedLength Snappy_Uncompress cmp (filter_policy o) (content (file r')) es bs index mh ih)) as Hbad.
  { intros r0 H. exists r0, (status_ r0). split; [done|]. by rewrite H. }
  destruct Hcase as [[Hcl Hst]|(bs & rs & irows & irs & Hi)].
  { rewrite Hcl. assert (ok (status_ (set_closed r1)) = false) as Hst1 by done.
    destruct (tail_failed (set_closed r1) BlockHandle.new BlockHandle.new BlockHandle.new Hst1) as (-> & E2 & E3 & E4). cbn [mbind outcome_bind].
    rewrite E2. cbn [mbind outcome_bind]. rewrite E3. cbn [mbind outcome_bind]. rewrite E4. cbn [mbind outcome_bind]. by apply Hbad. }
  pose proof Hi as [Hopt Hop Hst Hend Hbs [Hnd Hbelow] Hdata Hindex Hes Hlast Hnum Hsize Hpend Hfil]. rewrite Hop. cbn in Hes. rewrite app_nil_r in Hes.
  set (r2 := set_closed r1). assert (filter_inv r2 bs []) as Hfil2 by exact Hfil.
  destruct (write_filter_spec r2 bs Hst Hend Hfil2 ltac:(by rewrite <- Hes)) as (r3 & fh & -> & Hok3). cbn [mbind outcome_bind].
  destruct (ok (status_ r3)) eqn:Hst3.
  2: { destruct (tail_failed r3 fh BlockHandle.new BlockHandle.new Hst3) as (_ & E2 & E3 & E4). rewrite E2. cbn [mbind outcome_bind]. rewrite E3. cbn [mbind outcome_bind]. rewrite E4. by apply Hbad. }
  destruct (Hok3 eq_refl) as (ext3 & Hex3 & Hfilter). clear Hok3.
  assert (match filter_policy o with None => filter_block r3 = None | Some _ => filter_block r3 ≠ None ∧ handle_ok fh end) as Hfb3.
  { rewrite (ex_filter _ _ _ Hex3). unfold filter_inv in Hfil2. destruct (filter_policy o) as [[p name]|]; [|done].
    destruct Hfil2 as (fb & -> & _). split; [done|]. by destruct Hfilter as (? & ? & ? & _). }
  destruct (write_metaindex_spec r3 fh Hst3 (ex_end _ _ _ Hex3) (eq_trans (proj1 (ex_options _ _ _ Hex3)) (proj1 Hopt)) Hfb3) as (r4 & mh & -> & Hok4).
  cbn [mbind outcome_bind]. destruct (ok (status_ r4)) eqn:Hst4.
  2: { destruct (tail_failed r4 fh mh BlockHandle.new Hst4) as (_ & _ & E3 & E4). rewrite E3. cbn [mbind outcome_bind]. rewrite E4. by apply Hbad. }
  destruct (Hok4 eq_refl) as (ext4 & Hex34 & Hmeta). clear Hok4. pose proof (tail_extends_trans _ _ _ _ _ Hex3 Hex34) as Hex4.
  assert (∀ b, b ∈ bs → handle_ok (d_handle b) ∧ d_entries b ≠ []) as Hbs' by (intros b Hb; destruct (Hbs b Hb) as [[? _] ?]; done).
  destruct (write_index_spec r4 es bs irows irs Hst4 (ex_end _ _ _ Hex4)) as (r5 & ih & -> & Hok5); try done.
  { destruct (ex_options _ _ _ Hex4) as [-> ->]. exact Hopt. }
  { by rewrite (ex_index _ _ _ Hex4). }
  { by eapply pending_inv_extends. }
  { destruct (ex_pending _ _ _ Hex4) as (_ & _ & ->). exact Hlast. }
  cbn [mbind outcome_bind]. destruct (ok (status_ r5)) eqn:Hst5.
  2: { destruct (tail_failed r5 fh mh ih Hst5) as (_ & _ & _ & E4). rewrite E4. by apply Hbad. }
  destruct (Hok5 eq_refl) as (ext5 & index & Hc5 & Hend5 & Hih & Hidx). clear Hok5.
  destruct (write_footer_spec r5 mh ih Hst5 Hend5 (proj1 Hmeta) (proj1 Hih)) as (r6 & -> & Hok6). cbn [mbind outcome_bind].
  exists r6, (status_ r6). split; [done|]. intros Hst6. destruct (Hok6 Hst6) as [Hc6 [Hend6 _]]. split; [done|]. exists bs, index, mh, ih.
  pose proof (ex_content _ _ _ Hex4) as Hc4. rewrite Hc6. split; try done.
  - by eexists.
  - intros b Hb. destruct (Hbs b Hb) as [Hb1 Hb2]. split; [|done]. apply holds_app. rewrite Hc5. apply holds_app. rewrite Hc4. by apply holds_app.
  - by apply holds_app.
  - split; [apply Hmeta|]. destruct (filter_policy o) as [[p name]|]; [|apply holds_app; rewrite Hc5; by apply holds_app].
    destruct Hfilter as (contents & z & Hfh & Hst' & Hasc & Hb). exists fh, contents, z. split; [apply holds_app; rewrite Hc5; by apply holds_app|]. split; [done|].
    split; [|done]. apply stored_at_app. rewrite Hc5. apply stored_at_app. rewrite (ex_content _ _ _ Hex34). by apply stored_at_app.
Qed.

(** *** Building a table *)

Lemma build_adds es2 : ∀ r es1, tb_ok r es1 → (length (es1 ++ es2) ≤ N)%nat → sorted (es1 ++ es2) → all_valid (es1 ++ es2) →
  ∃ r', for_loop (λ e : entry, Add e.1 e.2) es2 r = Ok r' ∧ tb_ok r' (es1 ++ es2).
Proof.
  induction es2 as [|[k v] es2 IH]; intros r es1 Hr HN Hs Hv; [exists r; by rewrite app_nil_r|].
  cbn [for_loop fst snd]. assert (es1 ++ (k, v) :: es2 = (es1 ++ [(k, v)]) ++ es2) as E by (by rewrite <- app_assoc). rewrite E in *.
  destruct (TableBuilder_Add_spec r es1 k v Hr) as (r1 & -> & Hr1).
  - rewrite length_app in HN. lia.
  - intros i j x y Hij Hx Hy. apply (Hs i j); [done | by apply lookup_app_l_Some..].
  - intros e He. apply Hv. apply elem_of_app. by left.
  - cbn [mbind outcome_bind]. by apply IH.
Qed.

Lemma new_spec f : content f = [] → ∃ r, TableBuilder.new o f = Ok r ∧ tb_ok r [].
Proof.
  intros Hf. unfold TableBuilder.new, BlockBuilder.new. rewrite (proj2 (Z.leb_le _ _) Hint). cbn [mbind outcome_bind].
  assert (∀ fb, (match filter_policy o with None => fb = None | Some (p, _) => ∃ b, fb = Some (p, b) ∧ add_blocks p new_builder [(0, [])] = Ok b end) →
    tb_ok (mkRep o (index_options o) f 0 status_ok (BlockBuilder.mkBuilder [] [0] 0 false []) (BlockBuilder.mkBuilder [] [0] 0 false []) [] 0 false fb false BlockHandle.new) []) as Hinv.
  { intros fb Hfb. right. exists [], [], [0%nat], [], [0%nat]. split; try done.
    - split; cbn; [by rewrite Hf | done].
    - intros b Hb. by apply elem_of_nil in Hb.
    - split; [constructor|]. intros b Hb. by apply elem_of_nil in Hb.
    - by apply new_build_inv.
    - by apply new_build_inv.
    - cbn. lia.
    - unfold filter_inv. cbn. destruct (filter_policy o) as [[p name]|]; [|done]. destruct Hfb as (b & -> & Hb). exists b. split; [done|]. by split. }
  cbn [filter_block]. unfold policy_ok in Hpolicy. destruct (filter_policy o) as [[p name]|].
  - change (StartBlock p new_builder 0) with (Ok new_builder). cbn [mbind outcome_bind]. eexists. split; [reflexivity|]. apply Hinv. by exists new_builder.
  - eexists. split; [reflexivity|]. by apply Hinv.
Qed.

(** Building never fails an assertion; if it reports success the file is the table. *)
Lemma build_table f es : content f = [] → (length es ≤ N)%nat → sorted es → all_valid es →
  ∃ r s, TableBuilder.build file_Append file_Flush addr Snappy_Compress o f es = Ok (r, s) ∧
    (ok s = true → offset r = blen (content (file r)) ∧ ∃ bs index mh ih,
      table_file Snappy_GetUncompressedLength Snappy_Uncompress cmp (filter_policy o) (content (file r)) es bs index mh ih).
Proof.
  intros Hf HN Hs Hv. unfold TableBuilder.build. destruct (new_spec f Hf) as (r0 & -> & H0). cbn [mbind outcome_bind].
  destruct (build_adds es r0 [] H0 HN Hs Hv) as (r1 & -> & H1). cbn [mbind outcome_bind]. by apply Finish_table.
Qed.
End builder_proof.
