(* ===== verification/SkipList.v ===== *)
(** * db/skiplist.h: the ordered set of the memtables

    Nodes live in a list; a pointer is an index into it, index 0 is [head_], and nodes
    are never freed.  The array [next_] of a node holds [None] where nothing has been
    stored.  The comparison object may fail (a memtable compares encoded entries).
    [Insert] is one writer; readers run concurrently with it, interleaved at every load
    and store of a link, in a sequentially consistent memory.  The key type and its
    comparison are parameters of the template. *)
From S2P Require Import Prelude.
From S2P Require Import Interfaces.
From S2P Require Import Random.
From Stdlib Require Import Sorting.Sorted.

(** ** Definitions *)

Module SkipList.
Section SkipList.
Context {K : Type} (compare_ : K → K → outcome Z).

Definition kMaxHeight : nat := 12.
Definition kBranching : Z := 4.

(** A pointer to a node. *)
Abbreviation ptr := (option nat).

Record node := mkNode { key : K; next_ : list (option ptr) }.

Record skiplist := mkSkipList { nodes : list node; max_height_ : nat; rnd_ : Z }.

Definition head_ : nat := 0.
Definition GetMaxHeight (sl : skiplist) : nat := max_height_ sl.

(** *** Nodes *)

Definition set_nodes (sl : skiplist) (ns : list node) : skiplist := mkSkipList ns (max_height_ sl) (rnd_ sl).

Definition get_node (sl : skiplist) (x : nat) : outcome node :=
  match nodes sl !! x with Some n => Ok n | None => Ub OutOfBounds end.

(** [x->Next(n)] and [x->NoBarrier_Next(n)]. *)
Definition Next (sl : skiplist) (x n : nat) : outcome ptr :=
  nd ← get_node sl x;
  match next_ nd !! n with
  | None => Ub OutOfBounds
  | Some None => Ub Uninitialized
  | Some (Some p) => Ok p
  end.

(** [x->SetNext(n, p)] and [x->NoBarrier_SetNext(n, p)]. *)
Definition SetNext (sl : skiplist) (x n : nat) (p : ptr) : outcome skiplist :=
  nd ← get_node sl x;
  if decide (n < length (next_ nd))%nat
  then Ok (set_nodes sl (<[x := mkNode (key nd) (<[n := Some p]> (next_ nd))]> (nodes sl)))
  else Ub OutOfBounds.

Definition NewNode (sl : skiplist) (k : K) (height : nat) : skiplist * nat :=
  (set_nodes sl (nodes sl ++ [mkNode k (replicate height None)]), length (nodes sl)).

(** The constructor; [zero] is the key 0 of the head node. *)
Definition new (zero : K) : skiplist :=
  mkSkipList [mkNode zero (replicate kMaxHeight (Some None))] 1 (Random.new 0xdeadbeef).

(** [key() const] of a node that is not null. *)
Definition node_key (sl : skiplist) (x : nat) : outcome K := nd ← get_node sl x; Ok (key nd).

Definition Equal (a b : K) : outcome bool := c ← compare_ a b; Ok (c =? 0).

Definition KeyIsAfterNode (sl : skiplist) (k : K) (n : ptr) : outcome bool :=
  match n with
  | None => Ok false
  | Some x => nk ← node_key sl x; c ← compare_ nk k; Ok (c <? 0)
  end.

(** *** Searching *)

(** The array [prev] of a search; [None] is the null pointer. *)
Abbreviation prev_array := (option (list ptr)).

Definition set_prev (prev : prev_array) (level x : nat) : outcome prev_array :=
  match prev with
  | None => Ok None
  | Some a => if decide (level < length a)%nat then Ok (Some (<[level := Some x]> a)) else Ub OutOfBounds
  end.

(** One turn of the loop of [FindGreaterOrEqual]: the node, the level and the array, or
    the result. *)
Definition find_step (sl : skiplist) (k : K) (st : nat * nat * prev_array)
    : outcome ((nat * nat * prev_array) + (ptr * prev_array)) :=
  let '(x, level, prev) := st in
  next ← Next sl x level;
  after ← KeyIsAfterNode sl k next;
  if (after : bool) then
    match (next : ptr) with Some n => Ok (inl (n, level, prev)) | None => Ub NullDeref end
  else
    prev ← set_prev prev level x;
    if decide (level = O) then Ok (inr (next, prev)) else Ok (inl (x, pred level, prev)).

Fixpoint find_loop (fuel : nat) (sl : skiplist) (k : K) (st : nat * nat * prev_array)
    : outcome (ptr * prev_array) :=
  match fuel with
  | O => Blocked
  | S fuel =>
      r ← find_step sl k st;
      match (r : _ + _) with inl st => find_loop fuel sl k st | inr res => Ok res end
  end.

(** Every turn moves to a later node or to a lower level. *)
Definition search_fuel (sl : skiplist) : nat := length (nodes sl) + max_height_ sl.

Definition FindGreaterOrEqual (sl : skiplist) (k : K) (prev : prev_array) : outcome (ptr * prev_array) :=
  find_loop (search_fuel sl) sl k (head_, pred (GetMaxHeight sl), prev).

Fixpoint find_less_loop (fuel : nat) (sl : skiplist) (k : K) (x level : nat) : outcome nat :=
  match fuel with
  | O => Blocked
  | S fuel =>
      before ← (if decide (x = head_) then Ok true
                else xk ← node_key sl x; c ← compare_ xk k; Ok (c <? 0));
      if negb before then Ub AssertionFailed
      else
        next ← Next sl x level;
        after ← KeyIsAfterNode sl k next;
        match (next : ptr), (after : bool) with
        | Some n, true => find_less_loop fuel sl k n level
        | _, _ => if decide (level = O) then Ok x else find_less_loop fuel sl k x (pred level)
        end
  end.
Definition FindLessThan (sl : skiplist) (k : K) : outcome nat :=
  find_less_loop (search_fuel sl) sl k head_ (pred (GetMaxHeight sl)).

Fixpoint find_last_loop (fuel : nat) (sl : skiplist) (x level : nat) : outcome nat :=
  match fuel with
  | O => Blocked
  | S fuel =>
      next ← Next sl x level;
      match (next : ptr) with
      | None => if decide (level = O) then Ok x else find_last_loop fuel sl x (pred level)
      | Some n => find_last_loop fuel sl n level
      end
  end.
Definition FindLast (sl : skiplist) : outcome nat :=
  find_last_loop (search_fuel sl) sl head_ (pred (GetMaxHeight sl)).

Definition Contains (sl : skiplist) (k : K) : outcome bool :=
  r ← FindGreaterOrEqual sl k None;
  match (r.1 : ptr) with
  | None => Ok false
  | Some x => xk ← node_key sl x; e ← Equal k xk; Ok e
  end.

(** *** Insertion *)

(** The height and the new state of the generator. *)
Fixpoint random_height (fuel height : nat) (rnd : Z) : nat * Z :=
  match fuel with
  | O => (height, rnd)
  | S fuel =>
      if decide (height < kMaxHeight)%nat then
        let rnd := Random.Next rnd in
        if rnd mod kBranching =? 0 then random_height fuel (S height) rnd else (height, rnd)
      else (height, rnd)
  end.
Definition RandomHeight (rnd : Z) : nat * Z := random_height kMaxHeight 1 rnd.

Definition get_prev (prev : list ptr) (i : nat) : outcome nat :=
  match prev !! i with
  | None => Ub OutOfBounds
  | Some None => Ub Uninitialized
  | Some (Some p) => Ok p
  end.

(** [prev[i] = head_] for the new levels [i]. *)
Fixpoint fill_prev (n i : nat) (prev : list ptr) : outcome (list ptr) :=
  match n with
  | O => Ok prev
  | S n => if decide (i < length prev)%nat then fill_prev n (S i) (<[i := Some head_]> prev) else Ub OutOfBounds
  end.

(** [Insert] up to the new node: the first store that readers can see is that of the
    new maximal height.  The result is the node, [prev] and the node's height. *)
Definition insert_begin (sl : skiplist) (k : K) : outcome (skiplist * nat * list ptr * nat) :=
  r ← FindGreaterOrEqual sl k (Some (replicate kMaxHeight None));
  dup ← match (r.1 : ptr) with None => Ok false | Some x => xk ← node_key sl x; Equal k xk end;
  if (dup : bool) then Ub AssertionFailed
  else
    let '(height, rnd) := RandomHeight (rnd_ sl) in
    let prev := default [] r.2 in
    let max := GetMaxHeight sl in
    prev ← (if decide (max < height)%nat then fill_prev (height - max) max prev else Ok prev);
    let max := if decide (max < height)%nat then height else max in
    let '(sl, x) := NewNode (mkSkipList (nodes sl) max rnd) k height in
    Ok (sl, x, prev, height).

(** The two statements of the linking loop. *)
Definition link_new (sl : skiplist) (x : nat) (prev : list ptr) (i : nat) : outcome skiplist :=
  p ← get_prev prev i; n ← Next sl p i; SetNext sl x i n.
Definition link_prev (sl : skiplist) (x : nat) (prev : list ptr) (i : nat) : outcome skiplist :=
  p ← get_prev prev i; SetNext sl p i (Some x).

Fixpoint link_loop (n i : nat) (sl : skiplist) (x : nat) (prev : list ptr) : outcome skiplist :=
  match n with
  | O => Ok sl
  | S n => sl ← link_new sl x prev i; sl ← link_prev sl x prev i; link_loop n (S i) sl x prev
  end.

Definition Insert (sl : skiplist) (k : K) : outcome skiplist :=
  b ← insert_begin sl k;
  let '(sl, x, prev, height) := b in
  link_loop height 0 sl x prev.

(** *** Iteration *)

Definition it_new : ptr := None.
Definition it_Valid (it : ptr) : bool := bool_decide (it ≠ None).
Definition it_key (sl : skiplist) (it : ptr) : outcome K :=
  match it with Some x => node_key sl x | None => Ub AssertionFailed end.
Definition it_Next (sl : skiplist) (it : ptr) : outcome ptr :=
  match it with Some x => Next sl x 0 | None => Ub AssertionFailed end.
Definition null_if_head (x : nat) : ptr := if decide (x = head_) then None else Some x.
Definition it_Prev (sl : skiplist) (it : ptr) : outcome ptr :=
  match it with
  | Some x => k ← node_key sl x; y ← FindLessThan sl k; Ok (null_if_head y)
  | None => Ub AssertionFailed
  end.
Definition it_Seek (sl : skiplist) (target : K) : outcome ptr :=
  r ← FindGreaterOrEqual sl target None; Ok r.1.
Definition it_SeekToFirst (sl : skiplist) : outcome ptr := Next sl head_ 0.
Definition it_SeekToLast (sl : skiplist) : outcome ptr := y ← FindLast sl; Ok (null_if_head y).

(** *** One writer and any number of readers *)

Inductive writer :=
| WIdle
| WLink (x : nat) (prev : list ptr) (i height : nat)      (* x->NoBarrier_SetNext(i, ...) *)
| WPublish (x : nat) (prev : list ptr) (i height : nat).  (* prev[i]->SetNext(i, x) *)

(** A reader inside [FindGreaterOrEqual], or with the result of its last call. *)
Inductive reader :=
| RIdle
| RSearch (target : K) (x level : nat)
| RDone (target : K) (result : ptr).

Record system := mkSystem { list_ : skiplist; writer_ : writer; readers_ : list reader }.

(** The next store of the writer. *)
Definition writer_step (s : system) : outcome system :=
  match writer_ s with
  | WIdle => Ok s
  | WLink x prev i height =>
      sl ← link_new (list_ s) x prev i; Ok (mkSystem sl (WPublish x prev i height) (readers_ s))
  | WPublish x prev i height =>
      sl ← link_prev (list_ s) x prev i;
      Ok (mkSystem sl (if decide (S i < height)%nat then WLink x prev (S i) height else WIdle) (readers_ s))
  end.

(** One turn of a reader's loop. *)
Definition reader_step (sl : skiplist) (r : reader) : outcome reader :=
  match r with
  | RIdle | RDone _ _ => Ok r
  | RSearch target x level =>
      res ← find_step sl target (x, level, None);
      Ok match (res : _ + _) with inl (x, level, _) => RSearch target x level | inr (p, _) => RDone target p end
  end.

Inductive step (valid : K → Prop) : system → system → Prop :=
| step_insert sl rs k sl' x prev height :
    valid k → insert_begin sl k = Ok (sl', x, prev, height) →
    step valid (mkSystem sl WIdle rs) (mkSystem sl' (WLink x prev 0 height) rs)
| step_writer s s' : writer_ s ≠ WIdle → writer_step s = Ok s' → step valid s s'
| step_call s i r target :
    valid target → readers_ s !! i = Some r → (∀ t x l, r ≠ RSearch t x l) →
    step valid s (mkSystem (list_ s) (writer_ s)
      (<[i := RSearch target head_ (pred (GetMaxHeight (list_ s)))]> (readers_ s)))
| step_reader s i r r' :
    readers_ s !! i = Some r → reader_step (list_ s) r = Ok r' →
    step valid s (mkSystem (list_ s) (writer_ s) (<[i := r']> (readers_ s))).

(** The nodes along a level from the link [p] on. *)
Fixpoint walk (fuel : nat) (sl : skiplist) (level : nat) (p : ptr) : list nat :=
  match fuel, p with
  | S fuel, Some x => x :: match Next sl x level with Ok q => walk fuel sl level q | _ => [] end
  | _, _ => []
  end.
Definition level_nodes (sl : skiplist) (level : nat) : list nat :=
  match Next sl head_ level with Ok p => walk (length (nodes sl)) sl level p | _ => [] end.
Definition contents (sl : skiplist) : list nat := level_nodes sl 0.

End SkipList.
End SkipList.

Import SkipList.

(** ** Lemmas *)

Section proofs.
Context {K : Type} (compare_ : K → K → outcome Z) (valid : K → Prop) (ord : K → K → Z).
Context `{!OrderLaws valid ord}.
Context (Hcmp : ∀ a b, valid a → valid b → compare_ a b = Ok (ord a b)).
#[local] Abbreviation skiplist := (@skiplist K).
Implicit Types (sl : skiplist) (x y p i n : nat) (l : list nat) (L : nat → list nat) (k : K).

Definition key_at sl x : option K := key <$> nodes sl !! x.

(** *** Links *)

Lemma get_node_lookup sl x nd : get_node sl x = Ok nd ↔ nodes sl !! x = Some nd.
Proof. unfold get_node. destruct (nodes sl !! x); split; congruence. Qed.

Lemma Next_Ok sl x i q :
  Next sl x i = Ok q ↔ ∃ nd, nodes sl !! x = Some nd ∧ next_ nd !! i = Some (Some q).
Proof.
  unfold Next, get_node. destruct (nodes sl !! x) as [nd|]; cbn [mbind outcome_bind].
  2: { split; [done | intros (? & ? & ?); done]. }
  destruct (next_ nd !! i) as [[r|]|] eqn:E; split; try done.
  - intros [= <-]. by exists nd.
  - intros (nd' & [= <-] & E'). rewrite E in E'. by injection E' as <-.
  - intros (nd' & [= <-] & E'). by rewrite E in E'.
  - intros (nd' & [= <-] & E'). by rewrite E in E'.
Qed.

Lemma node_key_at sl x k : key_at sl x = Some k → node_key sl x = Ok k.
Proof.
  unfold key_at, node_key, get_node. destruct (nodes sl !! x); [|done]. by intros [= <-].
Qed.

(** A store changes one link and no key. *)
Lemma SetNext_spec sl x i q nd :
  nodes sl !! x = Some nd → (i < length (next_ nd))%nat →
  ∃ sl', SetNext sl x i q = Ok sl' ∧ Next sl' x i = Ok q ∧
    (∀ y j, y ≠ x ∨ j ≠ i → Next sl' y j = Next sl y j) ∧ (∀ y, key_at sl' y = key_at sl y) ∧
    (∀ y, length <$> (next_ <$> nodes sl' !! y) = length <$> (next_ <$> nodes sl !! y)) ∧
    length (nodes sl') = length (nodes sl) ∧ max_height_ sl' = max_height_ sl.
Proof.
  intros Hx Hi. pose proof (lookup_lt_Some _ _ _ Hx) as Hlt. unfold SetNext, get_node. rewrite Hx.
  cbn [mbind outcome_bind]. rewrite decide_True by done. eexists. split; [done|].
  unfold set_nodes. cbn [nodes max_height_]. split_and!.
  - apply Next_Ok. exists (mkNode (key nd) (<[i:=Some q]> (next_ nd))). cbn [nodes].
    split; [by apply list_lookup_insert_eq | by apply list_lookup_insert_eq].
  - intros y j Hyj. unfold Next, get_node. cbn [nodes]. destruct (decide (y = x)) as [->|Hne].
    + rewrite list_lookup_insert_eq, Hx by done. cbn [mbind outcome_bind next_].
      by rewrite list_lookup_insert_ne by (destruct Hyj; congruence).
    + by rewrite list_lookup_insert_ne by congruence.
  - intros y. unfold key_at. cbn [nodes]. destruct (decide (y = x)) as [->|Hne].
    + by rewrite list_lookup_insert_eq, Hx by done.
    + by rewrite list_lookup_insert_ne by congruence.
  - intros y. cbn [nodes]. destruct (decide (y = x)) as [->|Hne].
    + rewrite list_lookup_insert_eq, Hx by done. simpl. by rewrite length_insert.
    + by rewrite list_lookup_insert_ne by congruence.
  - by rewrite length_insert.
  - done.
Qed.

(** *** Chains of links *)

Fixpoint chain sl i x l : Prop :=
  match l with
  | [] => Next sl x i = Ok None
  | y :: l => Next sl x i = Ok (Some y) ∧ chain sl i y l
  end.

Lemma chain_at sl i x l n y : chain sl i x l → (x :: l) !! n = Some y → Next sl y i = Ok (l !! n).
Proof.
  revert x n. induction l as [|z l IH]; intros x n Hc Hy; simpl in Hc.
  - destruct n as [|n]; [by injection Hy as <- | done].
  - destruct Hc as [Hx Hc]. destruct n as [|n]; [by injection Hy as <- | by apply (IH z n)].
Qed.

Lemma chain_frame sl sl' i x l :
  (∀ y, y ∈ x :: l → Next sl' y i = Next sl y i) → chain sl i x l → chain sl' i x l.
Proof.
  revert x. induction l as [|z l IH]; intros x Hf Hc; simpl in *.
  - rewrite Hf; [done | set_solver].
  - destruct Hc as [Hx Hc]. split; [rewrite Hf; [done | set_solver]|].
    apply IH; [|done]. intros y Hy. apply Hf. set_solver.
Qed.

(** Linking a new node after the [n]th one. *)
Lemma chain_insert sl sl' i x l n p z :
  chain sl i x l → (x :: l) !! n = Some p → NoDup (x :: l) → z ∉ x :: l →
  Next sl z i = Ok (l !! n) → Next sl' p i = Ok (Some z) → (∀ y, y ≠ p → Next sl' y i = Next sl y i) →
  chain sl' i x (take n l ++ z :: drop n l).
Proof.
  intros Hc Hp Hnd Hz Hzn Hpn Hf. revert x n Hc Hp Hnd Hz Hzn.
  induction l as [|w l IH]; intros x n Hc Hp Hnd Hz Hzn.
  - destruct n as [|n]; [|done]. injection Hp as <-. cbn [take drop app chain]. split; [done|].
    rewrite Hf by set_solver. done.
  - destruct Hc as [Hx Hc]. destruct n as [|n].
    + injection Hp as <-. cbn [take drop app chain]. split; [done|].
      rewrite Hf by set_solver. split; [done|].
      apply (chain_frame sl); [|done]. intros y Hy. apply Hf. apply NoDup_cons in Hnd as [Hnd _]. set_solver.
    + cbn [take drop app chain]. split.
      * rewrite Hf; [done|]. apply NoDup_cons in Hnd as [Hnd _]. change ((w :: l) !! n = Some p) in Hp.
        apply list_elem_of_lookup_2 in Hp. congruence.
      * apply IH; [done | done | by apply NoDup_cons in Hnd as [_ ?] | set_solver | done].
Qed.

Lemma walk_chain sl i x l fuel : chain sl i x l → (length l ≤ fuel)%nat →
  ∀ q, Next sl x i = Ok q → walk fuel sl i q = l.
Proof.
  revert x fuel. induction l as [|y l IH]; intros x fuel Hc Hf q Hq; simpl in Hc.
  - rewrite Hc in Hq. injection Hq as <-. by destruct fuel.
  - destruct Hc as [Hx Hc]. rewrite Hx in Hq. injection Hq as <-.
    destruct fuel as [|fuel]; [simpl in Hf; lia|]. cbn [walk]. f_equal.
    destruct (Next sl y i) as [q| | |] eqn:E.
    + apply (IH y); [done | simpl in Hf; lia | done].
    + destruct l; simpl in Hc; [|destruct Hc]; congruence.
    + destruct l; simpl in Hc; [|destruct Hc]; congruence.
    + destruct l; simpl in Hc; [|destruct Hc]; congruence.
Qed.

(** *** The order of nodes *)

(** The head node comes before all others. *)
Definition before sl x y : Prop :=
  y ≠ head_ ∧ (x = head_ ∨ ∃ kx ky, key_at sl x = Some kx ∧ key_at sl y = Some ky ∧ ord kx ky < 0).
Definition below sl k x : Prop := x = head_ ∨ ∃ kx, key_at sl x = Some kx ∧ ord kx k < 0.

Definition has_key sl x : Prop := ∃ k, key_at sl x = Some k ∧ valid k.

Record inv sl L : Prop := mkInv {
  inv_height : (1 ≤ max_height_ sl ≤ kMaxHeight)%nat;
  inv_chain : ∀ i, (i < kMaxHeight)%nat → chain sl i head_ (L i);
  inv_high : ∀ i, (max_height_ sl ≤ i)%nat → L i = [];
  inv_sub : ∀ i, L (S i) `sublist_of` L i;
  inv_keys : ∀ x, x ∈ L O → has_key sl x;
  inv_sorted : StronglySorted (before sl) (head_ :: L O)
}.

(** Two elements of a strictly sorted list are in the order of their positions. *)
Lemma sorted_lookup {A} (R : A → A → Prop) (l : list A) :
  StronglySorted R l → ∀ i j a b, (i < j)%nat → l !! i = Some a → l !! j = Some b → R a b.
Proof.
  induction 1 as [|a l Hs IH Ha]; intros i j b c Hij Hb Hc; [done|].
  destruct j as [|j]; [lia|]. destruct i as [|i].
  - injection Hb as <-. rewrite Forall_forall in Ha. apply Ha. by eapply list_elem_of_lookup_2.
  - eapply (IH i j); [lia | done | done].
Qed.

Lemma sorted_sublist {A} (R : A → A → Prop) (l k : list A) :
  l `sublist_of` k → StronglySorted R k → StronglySorted R l.
Proof.
  induction 1 as [|x l k Hl IH|x l k Hl IH]; intros Hk; [done| |].
  - apply StronglySorted_inv in Hk as [Hk Hx]. constructor; [by apply IH|].
    rewrite Forall_forall in *. intros y Hy. apply Hx. by eapply elem_of_sublist.
  - apply StronglySorted_inv in Hk as [Hk _]. by apply IH.
Qed.

Section invariant.
Context sl L (Hinv : inv sl L).

Lemma sub_0 i : L i `sublist_of` L O.
Proof. induction i as [|i IH]; [done|]. etrans; [apply (inv_sub _ _ Hinv) | done]. Qed.

Lemma level_key i x : x ∈ L i → has_key sl x.
Proof. intros Hx. apply (inv_keys _ _ Hinv). eapply elem_of_sublist; [apply Hx | apply sub_0]. Qed.

Lemma level_sorted i : StronglySorted (before sl) (head_ :: L i).
Proof. eapply sorted_sublist; [|apply (inv_sorted _ _ Hinv)]. apply sublist_skip, sub_0. Qed.

Lemma level_not_head i x : x ∈ L i → x ≠ head_.
Proof.
  intros [n Hn]%list_elem_of_lookup.
  destruct (sorted_lookup _ _ (level_sorted i) 0 (S n) head_ x ltac:(lia) eq_refl Hn) as [? _]. done.
Qed.

Lemma before_irrefl x : has_key sl x → ¬ before sl x x.
Proof.
  intros (k & Hk & Hv) [Hh [?|(k1 & k2 & E1 & E2 & Hlt)]]; [done|].
  rewrite Hk in E1, E2. injection E1 as <-. injection E2 as <-. pose proof (order_sgn k k Hv Hv). lia.
Qed.

Lemma before_asym x y : x = head_ ∨ has_key sl x → has_key sl y → before sl x y → ¬ before sl y x.
Proof.
  intros Hx (ky & Hky & Hvy) [Hy Hxy] [Hx' Hyx]. destruct Hx as [|(kx & Hkx & Hvx)]; [done|].
  destruct Hxy as [|(k1 & k2 & E1 & E2 & H12)]; [done|]. destruct Hyx as [|(k3 & k4 & E3 & E4 & H34)]; [done|].
  rewrite Hkx in *. rewrite Hky in *. simplify_eq. pose proof (order_sgn _ _ Hvx Hvy). lia.
Qed.

(** Positions follow the order. *)
Lemma before_position i a b x y :
  (head_ :: L i) !! a = Some x → (head_ :: L i) !! b = Some y → before sl x y → (a < b)%nat.
Proof.
  intros Ha Hb Hxy. pose proof (level_sorted i) as Hs.
  assert (∀ c z, (head_ :: L i) !! c = Some z → z = head_ ∨ has_key sl z) as Hkey.
  { intros [|c] z Hz; [injection Hz as <-; by left|]. right. apply (level_key i). by eapply list_elem_of_lookup_2. }
  destruct (Nat.lt_trichotomy a b) as [|[->|Hgt]]; [done| |].
  - rewrite Ha in Hb. injection Hb as <-. destruct (Hkey _ _ Ha) as [->|Hk].
    + by destruct Hxy as [? _].
    + by apply before_irrefl in Hxy.
  - pose proof (sorted_lookup _ _ Hs b a y x Hgt Hb Ha) as Hyx. destruct (Hkey _ _ Ha) as [->|Hk].
    + by destruct Hyx as [? _].
    + exfalso. revert Hyx. apply (before_asym x y); [by right | | done].
      destruct (Hkey _ _ Hb) as [->|]; [by destruct Hxy | done].
Qed.

Lemma level_NoDup i : NoDup (head_ :: L i).
Proof.
  apply NoDup_alt. intros a b x Ha Hb. pose proof (level_sorted i) as Hs.
  assert (∀ c d, (c < d)%nat → (head_ :: L i) !! c = Some x → (head_ :: L i) !! d = Some x → False) as Hcd.
  { intros c d Hlt Hc Hd. pose proof (sorted_lookup _ _ Hs c d x x Hlt Hc Hd) as Hxx.
    pose proof (before_position i d c x x Hd Hc Hxx). lia. }
  destruct (Nat.lt_trichotomy a b) as [Hlt|[|Hgt]]; [destruct (Hcd a b); done | done | destruct (Hcd b a); done].
Qed.

Lemma level_length i : (S (length (L i)) ≤ length (nodes sl))%nat.
Proof.
  rewrite <- (length_seq (length (nodes sl)) 0). change (S (length (L i))) with (length (head_ :: L i)).
  apply submseteq_length, NoDup_submseteq; [apply level_NoDup|].
  intros x Hx. apply elem_of_seq. split; [lia|]. simpl.
  apply elem_of_cons in Hx as [->|Hx].
  - pose proof (inv_chain _ _ Hinv 0 ltac:(unfold kMaxHeight; lia)) as Hc.
    assert (∃ q, Next sl head_ 0 = Ok q) as [q Hq] by (destruct (L 0); simpl in Hc; [|destruct Hc]; eauto).
    apply Next_Ok in Hq as (nd & Hnd & _). by apply lookup_lt_Some in Hnd.
  - apply level_key in Hx as (k & Hk & _). unfold key_at in Hk. apply fmap_Some in Hk as (nd & Hnd & _).
    by apply lookup_lt_Some in Hnd.
Qed.

Lemma level_nodes_spec i : (i < kMaxHeight)%nat → level_nodes sl i = L i.
Proof.
  intros Hi. pose proof (inv_chain _ _ Hinv i Hi) as Hc. unfold level_nodes.
  assert (∃ q, Next sl head_ i = Ok q) as [q Hq] by (destruct (L i); simpl in Hc; [|destruct Hc]; eauto).
  rewrite Hq. eapply walk_chain; [done | | done]. pose proof (level_length i). lia.
Qed.

Lemma contents_spec : contents sl = L O.
Proof. apply level_nodes_spec. unfold kMaxHeight. lia. Qed.

(** Being below a key is inherited from later nodes. *)
Lemma below_down k x y : valid k → has_key sl y → x = head_ ∨ has_key sl x →
  below sl k y → x = y ∨ before sl x y → below sl k x.
Proof.
  intros Hk (ky & Hky & Hvy) Hx Hby [->|[Hy Hxy]]; [done|].
  destruct Hx as [->|(kx & Hkx & Hvx)]; [by left|].
  destruct Hxy as [->|(k1 & k2 & E1 & E2 & Hlt)]; [by left|].
  destruct Hby as [->|(k3 & E3 & Hlt3)]; [done|]. rewrite Hkx in E1. rewrite Hky in *. simplify_eq.
  right. exists k1. split; [done|]. eapply (order_lt_le valid ord k1 k3); try done; lia.
Qed.

(** *** One turn of a search *)

(** The node a search has reached on a level. *)
Definition reached k i x : Prop := x ∈ head_ :: L i ∧ below sl k x.

(** The first node of the list that is not below the key. *)
Definition first_from k (q : option nat) : Prop :=
  ∃ n, (n ≤ length (L O))%nat ∧ q = L O !! n ∧
    (∀ j y, (j < n)%nat → L O !! j = Some y → below sl k y) ∧ (∀ y, q = Some y → ¬ below sl k y).

Lemma KeyIsAfterNode_spec k q :
  valid k → (∀ y, q = Some y → has_key sl y ∧ y ≠ head_) →
  ∃ b, KeyIsAfterNode compare_ sl k q = Ok b ∧ (b = true ↔ ∃ y, q = Some y ∧ below sl k y).
Proof.
  intros Hk Hq. unfold KeyIsAfterNode. destruct q as [y|].
  2: { exists false. split; [done|]. split; [done | intros (? & ? & _); done]. }
  destruct (Hq y eq_refl) as [(ky & Hky & Hvy) Hne]. rewrite (node_key_at _ _ _ Hky). cbn [mbind outcome_bind].
  rewrite Hcmp by done. cbn [mbind outcome_bind]. exists (ord ky k <? 0). split; [done|].
  rewrite Z.ltb_lt. split.
  - intros Hlt. exists y. split; [done|]. right. by exists ky.
  - intros (y' & [= <-] & [->|(k' & E & Hlt)]); [done|]. rewrite Hky in E. by injection E as <-.
Qed.

Lemma next_key i n y : L i !! n = Some y → has_key sl y ∧ y ≠ head_.
Proof.
  intros Hn%list_elem_of_lookup_2. split; [by eapply level_key | by eapply level_not_head].
Qed.

(** One turn at the [n]th node of a level. *)
Lemma find_step_at k i n x (prev : option (list (option nat))) :
  valid k → (i < kMaxHeight)%nat → (head_ :: L i) !! n = Some x → below sl k x →
  (∀ a, prev = Some a → length a = kMaxHeight) →
  (∃ y, L i !! n = Some y ∧ below sl k y ∧ find_step compare_ sl k (x, i, prev) = Ok (inl (y, i, prev))) ∨
  ((∀ y, L i !! n = Some y → ¬ below sl k y) ∧
   let prev' := (λ a, <[i := Some x]> a) <$> prev in
   find_step compare_ sl k (x, i, prev) =
     Ok (if decide (i = O) then inr (L i !! n, prev') else inl (x, pred i, prev'))).
Proof.
  intros Hk Hi Hx Hb Hprev. unfold find_step.
  rewrite (chain_at _ _ _ _ _ _ (inv_chain _ _ Hinv i Hi) Hx). cbn [mbind outcome_bind].
  destruct (KeyIsAfterNode_spec k (L i !! n) Hk) as (b & -> & Hbs); [intros y Hy; by eapply next_key|].
  cbn [mbind outcome_bind]. destruct b.
  - left. destruct (proj1 Hbs eq_refl) as (y & Hy & Hyb). exists y. by rewrite Hy.
  - right. split; [intros y Hy Hyb; apply (Bool.diff_false_true), Hbs; eauto|]. cbv zeta.
    assert (set_prev prev i x = Ok ((λ a, <[i := Some x]> a) <$> prev)) as ->.
    { destruct prev as [a|]; [|done]. cbn [set_prev]. by rewrite decide_True by (rewrite (Hprev a) by done; done). }
    cbn [mbind outcome_bind]. by destruct (decide (i = O)).
Qed.

(** Where the lowest level ends the search, its result is the first node from the key
    on. *)
Lemma first_from_stop k n x :
  valid k → (head_ :: L O) !! n = Some x → below sl k x → (∀ y, L O !! n = Some y → ¬ below sl k y) →
  first_from k (L O !! n).
Proof.
  intros Hk Hx Hb Hstop. exists n. split; [apply lookup_lt_Some in Hx; simpl in Hx; lia|].
  split; [done|]. split; [|done]. intros j y Hj Hy.
  assert (n ≠ O) by lia. destruct n as [|n]; [done|]. change (L O !! n = Some x) in Hx.
  assert (has_key sl x) by (eapply next_key; done). assert (has_key sl y) by (eapply next_key; done).
  apply (below_down k y x); [done | done | by right | done |].
  destruct (decide (j = n)) as [->|]; [left; congruence|]. right.
  apply (sorted_lookup _ _ (level_sorted 0) (S j) (S n)); [lia | done | done].
Qed.

(** *** Searches from the head *)

(** The last node of a level that is below the key. *)
Definition stop_at k i n x : Prop :=
  (head_ :: L i) !! n = Some x ∧ below sl k x ∧ ∀ y, L i !! n = Some y → ¬ below sl k y.

(** A node of a level is a node of the level below. *)
Lemma descend i n x : (head_ :: L (S i)) !! n = Some x → ∃ n', (head_ :: L i) !! n' = Some x.
Proof.
  intros Hx%list_elem_of_lookup_2. apply list_elem_of_lookup.
  eapply elem_of_sublist; [exact Hx|]. apply sublist_skip, (inv_sub _ _ Hinv).
Qed.

(** Moving on a level moves on the lowest level. *)
Lemma move_position i n m x y :
  (head_ :: L i) !! n = Some x → (head_ :: L O) !! m = Some x → L i !! n = Some y →
  ∃ m', (head_ :: L O) !! m' = Some y ∧ (m < m' ≤ length (L O))%nat.
Proof.
  intros Hx Hm Hy. pose proof (sorted_lookup _ _ (level_sorted i) n (S n) x y ltac:(lia) Hx Hy) as Hxy.
  assert (y ∈ L O) as [m' Hm']%list_elem_of_lookup.
  { eapply elem_of_sublist; [by eapply list_elem_of_lookup_2 | apply sub_0]. }
  exists (S m'). split; [done|]. pose proof (before_position 0 m (S m') x y Hm Hm' Hxy).
  apply lookup_lt_Some in Hm'. lia.
Qed.

Definition filled k i (prev prev' : option (list (option nat))) : Prop :=
  match prev, prev' with
  | None, None => True
  | Some a, Some a' => length a' = kMaxHeight ∧
      (∀ j, (j ≤ i)%nat → ∃ n p, a' !! j = Some (Some p) ∧ stop_at k j n p) ∧
      (∀ j, (i < j)%nat → a' !! j = a !! j)
  | _, _ => False
  end.

Lemma find_loop_spec k : valid k → ∀ fuel i n m x prev,
  (i < kMaxHeight)%nat → (head_ :: L i) !! n = Some x → (head_ :: L O) !! m = Some x → below sl k x →
  (∀ a, prev = Some a → length a = kMaxHeight) → (length (L O) - m + i < fuel)%nat →
  ∃ q prev', find_loop compare_ fuel sl k (x, i, prev) = Ok (q, prev') ∧ first_from k q ∧ filled k i prev prev'.
Proof.
  intros Hk. induction fuel as [|fuel IH]; intros i n m x prev Hi Hx Hm Hb Hprev Hf; [lia|].
  cbn [find_loop]. destruct (find_step_at k i n x prev Hk Hi Hx Hb Hprev) as [(y & Hy & Hyb & ->)|[Hstop ->]].
  - cbn [mbind outcome_bind]. destruct (move_position i n m x y Hx Hm Hy) as (m' & Hm' & Hlt).
    apply (IH i (S n) m' y prev); try done. lia.
  - cbn [mbind outcome_bind]. destruct (decide (i = O)) as [->|Hi0].
    + eexists _, _. split; [reflexivity|]. split; [by apply (first_from_stop k n x)|].
      destruct prev as [a|]; [|done]. cbn [filled fmap option_fmap option_map]. pose proof (Hprev a eq_refl) as Ha.
      split; [by rewrite length_insert|]. split.
      * intros j Hj. replace j with O by lia. exists n, x.
        by rewrite list_lookup_insert_eq by (rewrite Ha; unfold kMaxHeight; lia).
      * intros j Hj. by rewrite list_lookup_insert_ne by lia.
    + destruct i as [|i]; [done|]. cbn [pred]. destruct (descend i n x Hx) as [n' Hn'].
      destruct (IH i n' m x ((λ a, <[S i := Some x]> a) <$> prev)) as (q & prev' & E & Hq & Hfill); try done;
        [lia | | lia |].
      { intros a' Ha'. destruct prev as [a|]; [|done]. injection Ha' as <-. rewrite length_insert. by apply Hprev. }
      exists q, prev'. split; [done|]. split; [done|].
      destruct prev as [a|], prev' as [a'|]; try done. cbn [filled fmap option_fmap option_map] in *.
      destruct Hfill as (Hlen & Hle & Hgt). pose proof (Hprev a eq_refl) as Ha. split; [done|]. split.
      * intros j Hj. destruct (decide (j = S i)) as [->|]; [|apply Hle; lia]. exists n, x.
        rewrite Hgt, list_lookup_insert_eq by (rewrite ?Ha; lia). done.
      * intros j Hj. rewrite Hgt, list_lookup_insert_ne by lia. done.
Qed.

(** The search from the head, with the fuel the code's loop is given. *)
Lemma FindGreaterOrEqual_spec k prev :
  valid k → (∀ a, prev = Some a → length a = kMaxHeight) →
  ∃ q prev', FindGreaterOrEqual compare_ sl k prev = Ok (q, prev') ∧ first_from k q ∧
    filled k (pred (max_height_ sl)) prev prev'.
Proof.
  intros Hk Hprev. pose proof (inv_height _ _ Hinv) as Hh. pose proof (level_length 0).
  apply (find_loop_spec k Hk _ _ 0 0 head_ prev); try done; [unfold GetMaxHeight; lia | by left |].
  unfold search_fuel, GetMaxHeight. lia.
Qed.

Lemma find_less_spec k : valid k → ∀ fuel i n m x,
  (i < kMaxHeight)%nat → (head_ :: L i) !! n = Some x → (head_ :: L O) !! m = Some x → below sl k x →
  (length (L O) - m + i < fuel)%nat →
  ∃ y n', find_less_loop compare_ fuel sl k x i = Ok y ∧ stop_at k 0 n' y.
Proof.
  intros Hk. induction fuel as [|fuel IH]; intros i n m x Hi Hx Hm Hb Hf; [lia|].
  cbn [find_less_loop].
  assert ((if decide (x = head_) then Ok true
    else xk ← node_key sl x; c ← compare_ xk k; Ok (c <? 0)) = Ok true) as ->.
  { case_decide as Hd; [done|]. destruct Hb as [|(kx & Hkx & Hlt)]; [done|].
    rewrite (node_key_at _ _ _ Hkx). cbn [mbind outcome_bind].
    assert (valid kx) as Hvx.
    { destruct n as [|n]; [by injection Hx as <-|]. destruct (level_key i x) as (k' & E & Hv).
      - by eapply list_elem_of_lookup_2.
      - rewrite Hkx in E. by injection E as <-. }
    rewrite Hcmp by done. cbn [mbind outcome_bind]. by rewrite (proj2 (Z.ltb_lt _ _) Hlt). }
  cbn [mbind outcome_bind negb].
  rewrite (chain_at _ _ _ _ _ _ (inv_chain _ _ Hinv i Hi) Hx). cbn [mbind outcome_bind].
  destruct (KeyIsAfterNode_spec k (L i !! n) Hk) as (b & -> & Hbs); [intros y Hy; by eapply next_key|].
  cbn [mbind outcome_bind]. destruct b.
  - destruct (proj1 Hbs eq_refl) as (y & Hy & Hyb). rewrite Hy.
    destruct (move_position i n m x y Hx Hm Hy) as (m' & Hm' & Hlt).
    apply (IH i (S n) m' y); try done. lia.
  - assert (∀ y, L i !! n = Some y → ¬ below sl k y) as Hstop.
    { intros y Hy Hyb. apply Bool.diff_false_true, Hbs. by exists y. }
    assert (∃ y n', (if decide (i = O) then Ok x else find_less_loop compare_ fuel sl k x (pred i)) = Ok y ∧
      stop_at k 0 n' y) as HG; [|destruct (L i !! n); exact HG].
    case_decide as Hd; [subst i; by exists x, n|]. destruct i as [|i]; [done|]. cbn [pred].
    destruct (descend i n x Hx) as [n' Hn']. apply (IH i n' m x); try done; lia.
Qed.

Lemma FindLessThan_spec k : valid k → ∃ y n, FindLessThan compare_ sl k = Ok y ∧ stop_at k 0 n y.
Proof.
  intros Hk. pose proof (inv_height _ _ Hinv) as Hh. pose proof (level_length 0).
  apply (find_less_spec k Hk _ _ 0 0 head_); try done; [unfold GetMaxHeight; lia | by left |].
  unfold search_fuel, GetMaxHeight. lia.
Qed.

Lemma find_last_spec : ∀ fuel i n m x,
  (i < kMaxHeight)%nat → (head_ :: L i) !! n = Some x → (head_ :: L O) !! m = Some x →
  (length (L O) - m + i < fuel)%nat →
  ∃ y, find_last_loop fuel sl x i = Ok y ∧ (head_ :: L O) !! length (L O) = Some y.
Proof.
  induction fuel as [|fuel IH]; intros i n m x Hi Hx Hm Hf; [lia|].
  cbn [find_last_loop]. rewrite (chain_at _ _ _ _ _ _ (inv_chain _ _ Hinv i Hi) Hx). cbn [mbind outcome_bind].
  destruct (L i !! n) as [y|] eqn:Hy.
  - destruct (move_position i n m x y Hx Hm Hy) as (m' & Hm' & Hlt). apply (IH i (S n) m' y); try done. lia.
  - case_decide as Hd.
    + subst i. exists x. split; [done|]. apply lookup_ge_None in Hy. pose proof (lookup_lt_Some _ _ _ Hx) as Hlt.
      simpl in Hlt. by replace (length (L O)) with n by lia.
    + destruct i as [|i]; [done|]. cbn [pred]. destruct (descend i n x Hx) as [n' Hn'].
      apply (IH i n' m x); try done; lia.
Qed.

Lemma FindLast_spec : ∃ y, FindLast sl = Ok y ∧ (head_ :: L O) !! length (L O) = Some y.
Proof.
  pose proof (inv_height _ _ Hinv) as Hh. pose proof (level_length 0).
  apply (find_last_spec _ _ 0 0 head_); try done; [unfold GetMaxHeight; lia|].
  unfold search_fuel, GetMaxHeight. lia.
Qed.

End invariant.

(** *** Changing the list *)

Definition keys_kept sl sl' : Prop := ∀ y k, key_at sl y = Some k → key_at sl' y = Some k.

Lemma before_kept sl sl' x y : keys_kept sl sl' → before sl x y → before sl' x y.
Proof. intros Hk [Hy [->|(kx & ky & Ex & Ey & Hlt)]]; (split; [done|]); [by left|]. right. exists kx, ky. auto. Qed.

Lemma has_key_kept sl sl' x : keys_kept sl sl' → has_key sl x → has_key sl' x.
Proof. intros Hk (k & E & Hv). exists k. auto. Qed.

Lemma below_kept sl sl' k x : keys_kept sl sl' → x = head_ ∨ has_key sl x → below sl k x ↔ below sl' k x.
Proof.
  intros Hk Hx. split.
  - intros [->|(kx & E & Hlt)]; [by left|]. right. exists kx. auto.
  - intros [->|(kx & E & Hlt)]; [by left|]. destruct Hx as [->|(k' & E' & _)]; [by left|].
    right. exists k'. split; [done|]. rewrite (Hk _ _ E') in E. by injection E as <-.
Qed.

Lemma sorted_impl {A} (R R' : A → A → Prop) (l : list A) :
  (∀ a b, R a b → R' a b) → StronglySorted R l → StronglySorted R' l.
Proof.
  intros HR. induction 1 as [|a l _ IH Ha]; [constructor|]. constructor; [done|].
  eapply Forall_impl; [exact Ha | apply HR].
Qed.

Lemma sorted_insert {A} (R : A → A → Prop) (a b : list A) (e : A) :
  StronglySorted R (a ++ b) → Forall (λ c, R c e) a → Forall (R e) b → StronglySorted R (a ++ e :: b).
Proof.
  induction a as [|c a IH]; intros Hs Ha Hb; simpl in *; [by constructor|].
  apply StronglySorted_inv in Hs as [Hs Hy]. apply Forall_cons in Ha as [Hyx Ha].
  constructor; [by apply IH|]. apply Forall_app in Hy as [Hya Hyb]. apply Forall_app. split; [done|]. by constructor.
Qed.

(** The lists of the levels stay valid when links elsewhere change. *)
Lemma inv_frame sl sl' L :
  inv sl L → (max_height_ sl ≤ max_height_ sl' ≤ kMaxHeight)%nat → keys_kept sl sl' →
  (∀ i y, (i < kMaxHeight)%nat → y ∈ head_ :: L i → Next sl' y i = Next sl y i) → inv sl' L.
Proof.
  intros [Hh Hc Hhi Hsub Hk Hs] Hh' Hkk Hn. split.
  - lia.
  - intros i Hi. apply (chain_frame sl); [|by apply Hc]. intros y Hy. by apply Hn.
  - intros i Hi. apply Hhi. lia.
  - done.
  - intros x Hx. eapply has_key_kept; [done | by apply Hk].
  - eapply sorted_impl; [|exact Hs]. intros a b. by apply before_kept.
Qed.

(** A stop splits its level into the nodes below the key and the others. *)
Lemma stop_split sl L k i n x :
  inv sl L → valid k → stop_at sl L k i n x →
  Forall (below sl k) (take n (L i)) ∧ Forall (λ y, ¬ below sl k y) (drop n (L i)).
Proof.
  intros Hinv Hk (Hx & Hb & Hstop).
  assert (∀ c z, (head_ :: L i) !! c = Some z → z = head_ ∨ has_key sl z) as Hkey.
  { intros [|c] z Hz; [injection Hz as <-; by left|]. right. by eapply next_key. }
  assert (∀ j y z, L i !! j = Some z → below sl k z → ∀ c, (head_ :: L i) !! c = Some y → (c ≤ S j)%nat → below sl k y)
    as Hdown.
  { intros j y z Hz Hbz c Hy Hc. apply (below_down sl k y z); [done | by eapply next_key | by eapply Hkey | done |].
    destruct (decide (c = S j)) as [->|]; [left; change (L i !! j = Some y) in Hy; congruence|].
    right. apply (sorted_lookup _ _ (level_sorted sl L Hinv i) c (S j)); [lia | done | done]. }
  split; apply Forall_lookup; intros j y Hy.
  - apply lookup_take_Some in Hy as [Hy Hj]. destruct n as [|n]; [lia|].
    apply (Hdown n y x) with (c := S j); [done | done | done | lia].
  - rewrite lookup_drop in Hy. intros Hby. destruct (L i !! n) as [z|] eqn:Hz.
    + apply (Hstop z eq_refl). by apply (Hdown (n + j)%nat z y) with (c := S n); [| | | lia].
    + apply lookup_ge_None in Hz. apply lookup_lt_Some in Hy. lia.
Qed.

Lemma sublist_around {A} (P : A → Prop) (a b c d : list A) (e : A) :
  (a ++ b) `sublist_of` (c ++ e :: d) → e ∉ a ++ b →
  Forall P a → Forall (λ z, ¬ P z) b → Forall P c → Forall (λ z, ¬ P z) d →
  (a ++ e :: b) `sublist_of` (c ++ e :: d).
Proof.
  intros Hsub Hx Ha Hb Hc Hd.
  apply sublist_app_cons_r in Hsub as [Hsub|(l1 & l2 & E & _)]; [|rewrite E in Hx; set_solver].
  apply sublist_app_r in Hsub as (k1 & k2 & E & H1 & H2).
  assert (a = k1 ∧ b = k2) as [-> ->].
  { apply app_eq_app in E as [l [[-> ->]|[-> ->]]].
    - destruct l as [|z l]; [by rewrite app_nil_r|]. exfalso.
      apply Forall_app in Ha as [_ Hz]. apply Forall_cons in Hz as [Hz _].
      rewrite Forall_forall in Hd. apply (Hd z); [|done]. eapply elem_of_sublist; [|exact H2]. set_solver.
    - destruct l as [|z l]; [by rewrite app_nil_r|]. exfalso.
      apply Forall_app in Hb as [Hz _]. apply Forall_cons in Hz as [Hz _]. apply Hz.
      rewrite Forall_forall in Hc. apply Hc. eapply elem_of_sublist; [|exact H1]. set_solver. }
  apply sublist_app; [done | by apply sublist_skip].
Qed.

(** *** Linking a new node *)

(** The new node [x] has been linked on the levels below [i]. *)
Record linking sl L x k (prev : list (option nat)) i height : Prop := mkLinking {
  lk_key : key_at sl x = Some k;
  lk_valid : valid k;
  lk_new : x ≠ head_;
  lk_node : ∃ nd, nodes sl !! x = Some nd ∧ length (next_ nd) = height;
  lk_range : (i ≤ height ≤ max_height_ sl)%nat;
  lk_out : ∀ j, (i ≤ j)%nat → x ∉ L j;
  lk_prev : ∀ j, (i ≤ j < height)%nat → ∃ n p, prev !! j = Some (Some p) ∧ stop_at sl L k j n p;
  lk_above : ∀ y, y ∈ L O → y ≠ x → below sl k y ∨ before sl x y;
  lk_in : (0 < i)%nat → x ∈ L (pred i)
}.

Lemma link_new_spec sl L x k prev i height :
  inv sl L → linking sl L x k prev i height → (i < height)%nat →
  ∃ sl' n p, link_new sl x prev i = Ok sl' ∧ prev !! i = Some (Some p) ∧ stop_at sl' L k i n p ∧
    Next sl' x i = Ok (L i !! n) ∧ inv sl' L ∧ linking sl' L x k prev i height ∧ keys_kept sl sl'.
Proof.
  intros Hinv [Hk Hv Hne (nd & Hnd & Hlen) Hr Hout Hprev Hab Hin] Hi.
  pose proof (inv_height _ _ Hinv) as Hh.
  destruct (Hprev i ltac:(lia)) as (n & p & Hp & Hst). pose proof Hst as (Hpn & _).
  destruct (SetNext_spec sl x i (L i !! n) nd Hnd ltac:(lia)) as (sl' & E & Hx & Hoth & Hkeys & Hlens & _ & Hmax).
  assert (keys_kept sl sl') as Hkk by (intros y ky; by rewrite Hkeys).
  assert (∀ y, y = head_ ∨ has_key sl y → below sl' k y ↔ below sl k y) as Hbel.
  { intros y Hy. symmetry. by apply below_kept. }
  assert (∀ j c y, (head_ :: L j) !! c = Some y → y = head_ ∨ has_key sl y) as Hkey.
  { intros j [|c] y Hy; [injection Hy as <-; by left|]. right. by eapply next_key. }
  assert (∀ j c q, stop_at sl L k j c q → stop_at sl' L k j c q) as Hstop.
  { intros j c q (H1 & H2 & H3). split; [done|]. split; [by apply Hbel; [by eapply Hkey|]|].
    intros y Hy Hby. apply (H3 y Hy), Hbel; [|done]. by apply (Hkey j (S c)). }
  exists sl', n, p. split; [|split; [done | split; [by apply Hstop | split; [done|]]]].
  { unfold link_new, get_prev. rewrite Hp. cbn [mbind outcome_bind].
    rewrite (chain_at _ _ _ _ _ _ (inv_chain _ _ Hinv i ltac:(lia)) Hpn). cbn [mbind outcome_bind]. done. }
  split; [|split; [|done]].
  - apply (inv_frame sl); [done | lia | done|]. intros j y Hj Hy. apply Hoth.
    destruct (decide (j = i)) as [->|]; [left | by right]. intros ->.
    apply elem_of_cons in Hy as [?|Hy]; [done|]. by apply (Hout i).
  - split; try done.
    + by apply Hkk.
    + specialize (Hlens x). rewrite Hnd in Hlens. cbn in Hlens. destruct (nodes sl' !! x) as [nd'|]; [|done].
      exists nd'. split; [done|]. injection Hlens as ->. done.
    + lia.
    + intros j Hj. destruct (Hprev j Hj) as (m & q & Hq & Hsq). exists m, q. auto.
    + intros y Hy Hyx. destruct (Hab y Hy Hyx) as [Hb|Hb]; [left | right].
      * apply Hbel; [|done]. right. by apply (level_key sl L Hinv 0).
      * by eapply before_kept.
Qed.

(** The lists after the node has been linked on level [i]. *)
Definition linked L i n x : nat → list nat := λ j, if decide (j = i) then take n (L i) ++ x :: drop n (L i) else L j.

Lemma linked_same L i n x : linked L i n x i = take n (L i) ++ x :: drop n (L i).
Proof. unfold linked. by rewrite decide_True. Qed.
Lemma linked_other L i n x j : j ≠ i → linked L i n x j = L j.
Proof. intros. unfold linked. by rewrite decide_False. Qed.

Lemma elem_of_linked L i n x j y : y ∈ linked L i n x j ↔ y ∈ L j ∨ (j = i ∧ y = x).
Proof.
  destruct (decide (j = i)) as [->|Hne].
  - rewrite linked_same, elem_of_app, elem_of_cons. rewrite <- (take_drop n (L i)) at 3. rewrite elem_of_app. tauto.
  - rewrite linked_other by done. tauto.
Qed.

(** The levels of the linked list are sublists of each other. *)
Lemma linked_sub sl L x k prev i height n p :
  inv sl L → linking sl L x k prev i height → stop_at sl L k i n p →
  ∀ j, linked L i n x (S j) `sublist_of` linked L i n x j.
Proof.
  intros Hinv Hlk Hst j. pose proof (stop_split _ _ _ _ _ _ Hinv (lk_valid _ _ _ _ _ _ _ Hlk) Hst) as [Hlo Hhi].
  destruct (decide (S j = i)) as [<-|Hne].
  - rewrite linked_same, linked_other by lia. pose proof (lk_in _ _ _ _ _ _ _ Hlk ltac:(lia)) as Hx. cbn in Hx.
    apply list_elem_of_split in Hx as (c & d & E).
    pose proof (inv_sub _ _ Hinv j) as Hsub. rewrite <- (take_drop n (L (S j))) in Hsub. rewrite E in Hsub |- *.
    apply (sublist_around (below sl k)); try done.
    + rewrite take_drop. apply (lk_out _ _ _ _ _ _ _ Hlk). lia.
    + apply Forall_lookup. intros m y Hy. pose proof (level_sorted sl L Hinv j) as Hs.
      assert (before sl y x) as [Hne [Hy0|(ky & kx & Ey & Ex & Hlt)]].
      { apply (sorted_lookup _ _ Hs (S m) (S (length c))); [apply lookup_lt_Some in Hy; lia | |].
        - change (L j !! m = Some y). rewrite E. by apply lookup_app_l_Some.
        - change (L j !! length c = Some x). rewrite E. by apply list_lookup_middle. }
      * by left.
      * right. exists ky. split; [done|]. rewrite (lk_key _ _ _ _ _ _ _ Hlk) in Ex. by injection Ex as <-.
    + apply Forall_lookup. intros m y Hy Hby. pose proof (level_sorted sl L Hinv j) as Hs.
      assert (before sl x y) as [Hne Hxy].
      { apply (sorted_lookup _ _ Hs (S (length c)) (S (length c + S m))); [lia | |].
        - change (L j !! length c = Some x). rewrite E. by apply list_lookup_middle.
        - change (L j !! (length c + S m)%nat = Some y). rewrite E, lookup_app_r by lia.
          by replace (length c + S m - length c)%nat with (S m) by lia. }
      destruct Hxy as [?|(kx & ky & Ex & Ey & Hlt)]; [by destruct (lk_new _ _ _ _ _ _ _ Hlk)|].
      destruct Hby as [?|(ky' & Ey' & Hlt')]; [done|]. rewrite (lk_key _ _ _ _ _ _ _ Hlk) in Ex.
      rewrite Ey in Ey'. simplify_eq. assert (valid ky') as Hvy.
      { destruct (level_key sl L Hinv j y) as (k' & Ek & Hv); [rewrite E; set_solver by (by eapply list_elem_of_lookup_2)|].
        rewrite Ey in Ek. by injection Ek as <-. }
      pose proof (order_sgn _ _ (lk_valid _ _ _ _ _ _ _ Hlk) Hvy). lia.
  - destruct (decide (j = i)) as [->|Hne'].
    + rewrite linked_same, linked_other by lia. etrans; [apply (inv_sub _ _ Hinv)|].
      rewrite <- (take_drop n (L i)) at 1. apply sublist_app; [done | by apply sublist_cons].
    + rewrite !linked_other by done. apply (inv_sub _ _ Hinv).
Qed.

(** The stops of other levels and keys do not depend on the links. *)
Lemma stop_kept sl sl' L L' k i n x :
  inv sl L → keys_kept sl sl' → L' i = L i → stop_at sl L k i n x → stop_at sl' L' k i n x.
Proof.
  intros Hinv Hkk HL (H1 & H2 & H3). unfold stop_at. rewrite HL.
  assert (∀ c y, (head_ :: L i) !! c = Some y → y = head_ ∨ has_key sl y) as Hkey.
  { intros [|c] y Hy; [injection Hy as <-; by left|]. right. by eapply next_key. }
  split; [done|]. split; [apply (below_kept sl sl'); [done | by eapply Hkey | done]|].
  intros y Hy Hby. apply (H3 y Hy). apply (below_kept sl sl'); [done | by apply (Hkey (S n)) | done].
Qed.

(** The new lists are in order. *)
Lemma linked_sorted sl L x k prev i height n p :
  inv sl L → linking sl L x k prev i height → stop_at sl L k i n p →
  StronglySorted (before sl) (head_ :: linked L i n x O).
Proof.
  intros Hinv Hlk Hst. destruct (decide (i = O)) as [->|Hi]; [|rewrite linked_other by done; apply (inv_sorted _ _ Hinv)].
  pose proof (stop_split _ _ _ _ _ _ Hinv (lk_valid _ _ _ _ _ _ _ Hlk) Hst) as [Hlo Hhi].
  pose proof (lk_key _ _ _ _ _ _ _ Hlk) as Hkx. pose proof (lk_new _ _ _ _ _ _ _ Hlk) as Hx.
  rewrite linked_same. apply (sorted_insert (before sl) (head_ :: take n (L O)) (drop n (L O)) x).
  - cbn [app]. rewrite take_drop. apply (inv_sorted _ _ Hinv).
  - apply Forall_cons. split; [by split; [done | left]|]. eapply Forall_impl; [exact Hlo|].
    intros y [->|(ky & Ey & Hlt)]; (split; [done|]); [by left|]. right. by exists ky, k.
  - apply Forall_lookup. intros j y Hy. assert (y ∈ drop n (L O)) as Hyd by (by eapply list_elem_of_lookup_2).
    assert (y ∈ L O) as Hy0 by (rewrite <- (take_drop n (L O)); set_solver).
    destruct (lk_above _ _ _ _ _ _ _ Hlk y Hy0) as [Hb|Hb]; [| |done].
    + intros ->. by apply (lk_out _ _ _ _ _ _ _ Hlk O).
    + rewrite Forall_forall in Hhi. by destruct (Hhi y Hyd).
Qed.

Lemma link_prev_spec sl L x k prev i height n p :
  inv sl L → linking sl L x k prev i height → (i < height)%nat →
  prev !! i = Some (Some p) → stop_at sl L k i n p → Next sl x i = Ok (L i !! n) →
  ∃ sl', link_prev sl x prev i = Ok sl' ∧ inv sl' (linked L i n x) ∧
    linking sl' (linked L i n x) x k prev (S i) height ∧ keys_kept sl sl'.
Proof.
  intros Hinv Hlk Hi Hp Hst Hnx. pose proof Hst as (Hpn & _ & _).
  pose proof (linked_sub _ _ _ _ _ _ _ _ _ Hinv Hlk Hst) as Hsub.
  pose proof (linked_sorted _ _ _ _ _ _ _ _ _ Hinv Hlk Hst) as Hsorted.
  pose proof (inv_height _ _ Hinv) as Hh. pose proof Hlk as [Hk Hv Hne (nd & Hnd & Hlen) Hr Hout Hprev Hab Hin].
  pose proof (chain_at _ _ _ _ _ _ (inv_chain _ _ Hinv i ltac:(lia)) Hpn) as Hpl.
  apply Next_Ok in Hpl as (ndp & Hndp & Hpi).
  destruct (SetNext_spec sl p i (Some x) ndp Hndp) as (sl' & E & Hx & Hoth & Hkeys & Hlens & _ & Hmax).
  { by apply lookup_lt_Some in Hpi. }
  assert (keys_kept sl sl') as Hkk by (intros y ky; by rewrite Hkeys).
  exists sl'. split; [unfold link_prev, get_prev; by rewrite Hp|]. split; [|split; [|done]].
  - split.
    + lia.
    + intros j Hj. destruct (decide (j = i)) as [->|Hji].
      * rewrite linked_same. apply (chain_insert sl sl' i head_ (L i) n p x); try done.
        -- by apply (inv_chain _ _ Hinv).
        -- by apply (level_NoDup sl L Hinv).
        -- intros [?|?]%elem_of_cons; [done | by apply (Hout i)].
        -- intros y Hy. apply Hoth. by left.
      * rewrite linked_other by done. apply (chain_frame sl); [|by apply (inv_chain _ _ Hinv)].
        intros y _. apply Hoth. by right.
    + intros j Hj. rewrite linked_other by lia. apply (inv_high _ _ Hinv). lia.
    + done.
    + intros y [Hy|[_ ->]]%elem_of_linked.
      * eapply has_key_kept; [done | by apply (inv_keys _ _ Hinv)].
      * exists k. split; [by apply Hkk | done].
    + eapply sorted_impl; [|exact Hsorted]. intros a b. by apply before_kept.
  - split; try done.
    + by apply Hkk.
    + specialize (Hlens x). rewrite Hnd in Hlens. cbn in Hlens. destruct (nodes sl' !! x) as [nd'|]; [|done].
      exists nd'. split; [done|]. injection Hlens as ->. done.
    + lia.
    + intros j Hj. rewrite linked_other by lia. apply Hout. lia.
    + intros j Hj. destruct (Hprev j ltac:(lia)) as (m & q & Hq & Hsq). exists m, q. split; [done|].
      apply (stop_kept sl sl' L); [done | done | by rewrite linked_other by lia | done].
    + intros y [Hy|[_ ->]]%elem_of_linked Hyx; [|done].
      destruct (Hab y Hy Hyx) as [Hb|Hb]; [left | right; by eapply before_kept].
      apply (below_kept sl sl'); [done | right; by apply (inv_keys _ _ Hinv) | done].
    + intros _. apply elem_of_linked. by right.
Qed.

Lemma link_loop_spec x k prev height : ∀ m i sl L,
  inv sl L → linking sl L x k prev i height → (0 < i)%nat → (i + m = height)%nat →
  ∃ sl' L', link_loop m i sl x prev = Ok sl' ∧ inv sl' L' ∧ L' O = L O ∧ keys_kept sl sl'.
Proof.
  induction m as [|m IH]; intros i sl L Hinv Hlk Hi Hm; cbn [link_loop].
  { exists sl, L. split_and!; try done. by intros ??. }
  destruct (link_new_spec _ _ _ _ _ _ _ Hinv Hlk ltac:(lia)) as (sl1 & n & p & -> & Hp & Hst & Hnx & Hinv1 & Hlk1 & Hk1).
  cbn [mbind outcome_bind].
  destruct (link_prev_spec _ _ _ _ _ _ _ _ _ Hinv1 Hlk1 ltac:(lia) Hp Hst Hnx) as (sl2 & -> & Hinv2 & Hlk2 & Hk2).
  cbn [mbind outcome_bind].
  destruct (IH (S i) sl2 _ Hinv2 Hlk2 ltac:(lia) ltac:(lia)) as (sl' & L' & E & Hinv' & H0 & Hk').
  exists sl', L'. split; [done|]. split; [done|]. split; [by rewrite H0, linked_other by lia|].
  intros y ky Hy. by apply Hk', Hk2, Hk1.
Qed.

(** *** The first part of [Insert] *)

Lemma random_height_range fuel : ∀ h rnd, (1 ≤ h ≤ kMaxHeight)%nat →
  (1 ≤ (random_height fuel h rnd).1 ≤ kMaxHeight)%nat.
Proof.
  induction fuel as [|fuel IH]; intros h rnd Hh; cbn [random_height]; [done|].
  case_decide; [|done]. cbv zeta. destruct (_ =? 0); [apply IH; lia | done].
Qed.

Lemma fill_prev_spec n : ∀ i (prev : list (option nat)), (i + n ≤ length prev)%nat →
  ∃ prev', fill_prev n i prev = Ok prev' ∧
    (∀ j, (i ≤ j < i + n)%nat → prev' !! j = Some (Some head_)) ∧
    (∀ j, ¬ (i ≤ j < i + n)%nat → prev' !! j = prev !! j).
Proof.
  induction n as [|n IH]; intros i prev Hle; cbn [fill_prev].
  { exists prev. split; [done|]. split; [lia | done]. }
  rewrite decide_True by lia. destruct (IH (S i) (<[i:=Some head_]> prev)) as (prev' & E & H1 & H2).
  { rewrite length_insert. lia. }
  exists prev'. split; [done|]. split; intros j Hj.
  - destruct (decide (j = i)) as [->|]; [|apply H1; lia].
    rewrite H2 by lia. by rewrite list_lookup_insert_eq by lia.
  - rewrite H2 by lia. by rewrite list_lookup_insert_ne by lia.
Qed.

Lemma duplicate_test sl L k q :
  inv sl L → valid k → first_from sl L k q →
  ∃ b, match q with None => Ok false | Some x => xk ← node_key sl x; Equal compare_ k xk end = Ok b ∧
    (b = true ↔ ∃ y ky, y ∈ L O ∧ key_at sl y = Some ky ∧ ord k ky = 0).
Proof.
  intros Hinv Hk (n & Hn & -> & Hbel & Hfirst).
  assert (∀ j y, L O !! j = Some y → ∃ ky, key_at sl y = Some ky ∧ valid ky) as Hkey.
  { intros j y Hy. by eapply next_key in Hy as [? _]. }
  assert (∀ j y ky, L O !! j = Some y → key_at sl y = Some ky → ord k ky = 0 → (n ≤ j)%nat) as Hge.
  { intros j y ky Hy Ey H0. destruct (decide (n ≤ j)%nat); [done|].
    destruct (Hbel j y ltac:(lia) Hy) as [->|(k' & E & Hlt)].
    - exfalso. by apply list_elem_of_lookup_2, (level_not_head sl L Hinv 0) in Hy.
    - destruct (Hkey j y Hy) as (k2 & E2 & Hv2). simplify_eq. pose proof (order_sgn _ _ Hk Hv2). lia. }
  destruct (L O !! n) as [z|] eqn:Hz.
  - destruct (Hkey n z Hz) as (kz & Ez & Hvz). rewrite (node_key_at _ _ _ Ez). unfold Equal.
    cbn [mbind outcome_bind]. rewrite Hcmp by done. cbn [mbind outcome_bind]. eexists. split; [done|].
    rewrite Z.eqb_eq. split; [intros E; exists z, kz; split; [by eapply list_elem_of_lookup_2 | done]|].
    intros (y & ky & [j Hy]%list_elem_of_lookup & Ey & H0).
    pose proof (Hge j y ky Hy Ey H0) as Hj. destruct (decide (j = n)) as [->|]; [congruence|].
    destruct (sorted_lookup _ _ (level_sorted sl L Hinv 0) (S n) (S j) z y ltac:(lia) Hz Hy) as [_ [->|(k1 & k2 & E1 & E2 & Hlt)]].
    { exfalso. by apply list_elem_of_lookup_2, (level_not_head sl L Hinv 0) in Hz. }
    destruct (Hkey j y Hy) as (k3 & E3 & Hv3). rewrite Ez in E1. rewrite Ey in E2, E3.
    injection E1 as <-. injection E2 as <-. injection E3 as <-.
    assert (¬ ord kz k < 0) as Hnb by (intros Hlt1; apply (Hfirst z eq_refl); right; by exists kz).
    pose proof (order_lt_le valid ord kz ky k Hvz Hv3 Hk Hlt). pose proof (order_sgn k ky Hk Hv3). lia.
  - exists false. split; [done|]. split; [done|]. intros (y & ky & [j Hy]%list_elem_of_lookup & Ey & H0).
    pose proof (Hge j y ky Hy Ey H0). apply lookup_ge_None in Hz. apply lookup_lt_Some in Hy. lia.
Qed.

Lemma insert_begin_spec sl L k :
  inv sl L → valid k →
  ((∃ y ky, y ∈ L O ∧ key_at sl y = Some ky ∧ ord k ky = 0) → insert_begin compare_ sl k = Ub AssertionFailed) ∧
  ((∀ y ky, y ∈ L O → key_at sl y = Some ky → ord k ky ≠ 0) →
   ∃ sl' x prev height, insert_begin compare_ sl k = Ok (sl', x, prev, height) ∧
     inv sl' L ∧ linking sl' L x k prev 0 height ∧ keys_kept sl sl' ∧ (1 ≤ height)%nat).
Proof.
  intros Hinv Hk. unfold insert_begin.
  destruct (FindGreaterOrEqual_spec sl L Hinv k (Some (replicate kMaxHeight None)) Hk) as (q & prev & E & Hq & Hfill).
  { by intros a [= <-]. }
  rewrite E. cbn [mbind outcome_bind fst snd].
  destruct (duplicate_test sl L k q Hinv Hk Hq) as (b & -> & Hb). cbn [mbind outcome_bind].
  split; [by intros ->%Hb|]. intros Hnodup.
  destruct b; [destruct (proj1 Hb eq_refl) as (y & ky & Hy & Ey & H0); by destruct (Hnodup y ky Hy Ey)|].
  destruct prev as [a|]; [|done]. destruct Hfill as (Hla & Hle & _). cbn [default from_option]. unfold id.
  pose proof (random_height_range kMaxHeight 1 (rnd_ sl) ltac:(unfold kMaxHeight; lia)) as Hh.
  unfold RandomHeight. destruct (random_height kMaxHeight 1 (rnd_ sl)) as [height rnd]. cbn [fst] in Hh.
  pose proof (inv_height _ _ Hinv) as Hmax. unfold GetMaxHeight.
  set (max' := if decide (max_height_ sl < height)%nat then height else max_height_ sl).
  assert (height ≤ max' ∧ max_height_ sl ≤ max' ≤ kMaxHeight)%nat as Hmax' by (subst max'; case_decide; lia).
  assert (∃ prev, (if decide (max_height_ sl < height)%nat then fill_prev (height - max_height_ sl) (max_height_ sl) a
    else Ok a) = Ok prev ∧ (∀ j, (j < height)%nat → (j < max_height_ sl)%nat → prev !! j = a !! j) ∧
    (∀ j, (j < height)%nat → (max_height_ sl ≤ j)%nat → prev !! j = Some (Some head_))) as (prev & Eprev & Hlo & Hhi).
  { case_decide as Hd; [|exists a; split; [done|]; split; [done | lia]].
    destruct (fill_prev_spec (height - max_height_ sl) (max_height_ sl) a ltac:(lia)) as (prev & Ep & H1 & H2).
    exists prev. split; [done|]. split; intros j ? ?; [apply H2 | apply H1]; lia. }
  rewrite Eprev. cbn [mbind outcome_bind]. unfold NewNode, set_nodes. cbn [nodes max_height_ rnd_].
  eexists _, _, prev, height. split; [reflexivity|].
  set (sl' := mkSkipList (nodes sl ++ [mkNode k (replicate height None)]) max' rnd).
  assert (keys_kept sl sl') as Hkk.
  { intros y ky. unfold key_at. cbn [sl' nodes]. destruct (nodes sl !! y) as [nd|] eqn:Ey; [|done].
    by rewrite (lookup_app_l_Some _ _ _ _ Ey). }
  assert (∀ j y, y ∈ head_ :: L j → (y < length (nodes sl))%nat) as Hold.
  { intros j y [->|Hy]%elem_of_cons; [pose proof (level_length sl L Hinv 0); unfold head_; lia|].
    apply (level_key sl L Hinv) in Hy as (ky & Ey & _). unfold key_at in Ey.
    apply fmap_Some in Ey as (nd & Ey & _). by apply lookup_lt_Some in Ey. }
  assert (inv sl' L) as Hinv'.
  { apply (inv_frame sl); [done | cbn [sl' max_height_]; lia | done |]. intros i y Hi Hy. apply Hold in Hy.
    unfold Next, get_node. cbn [sl' nodes]. by rewrite lookup_app_l by done. }
  split; [done|]. split; [|split; [done | lia]]. split.
  - unfold key_at. cbn [sl' nodes]. by rewrite list_lookup_middle.
  - done.
  - specialize (Hold 0%nat head_ ltac:(set_solver)). unfold head_ in *. lia.
  - exists (mkNode k (replicate height None)). cbn [sl' nodes next_]. rewrite list_lookup_middle by done.
    by rewrite length_replicate.
  - cbn [sl' max_height_]. lia.
  - intros j _ Hx. specialize (Hold j (length (nodes sl)) ltac:(set_solver)). lia.
  - intros j [_ Hj]. destruct (decide (j < max_height_ sl)%nat) as [Hlt|Hge].
    + destruct (Hle j ltac:(lia)) as (n & p & Hp & Hst). exists n, p. rewrite Hlo by done. split; [done|].
      by apply (stop_kept sl sl' L L).
    + exists O, head_. rewrite Hhi by lia. split; [done|]. split; [done|]. split; [by left|].
      rewrite (inv_high _ _ Hinv j) by lia. done.
  - intros y Hy Hyx. destruct (inv_keys _ _ Hinv y Hy) as (ky & Ey & Hvy).
    destruct (Z.lt_ge_cases (ord ky k) 0) as [Hlt|Hge]; [left; right; exists ky; split; [by apply Hkk | done]|].
    right. split; [by apply (level_not_head sl L Hinv 0)|]. right. exists k, ky.
    split; [unfold key_at; cbn [sl' nodes]; by rewrite list_lookup_middle|]. split; [by apply Hkk|].
    pose proof (order_sgn k ky Hk Hvy). specialize (Hnodup y ky Hy Ey). lia.
  - lia.
Qed.

Lemma Insert_spec sl L k :
  inv sl L → valid k → (∀ y ky, y ∈ L O → key_at sl y = Some ky → ord k ky ≠ 0) →
  ∃ sl' L' x n, Insert compare_ sl k = Ok sl' ∧ inv sl' L' ∧ keys_kept sl sl' ∧ key_at sl' x = Some k ∧
    L' O = take n (L O) ++ x :: drop n (L O).
Proof.
  intros Hinv Hk Hnd. destruct (insert_begin_spec sl L k Hinv Hk) as [_ Hb].
  destruct (Hb Hnd) as (sl1 & x & prev & height & E & Hinv1 & Hlk1 & Hk1 & Hh). unfold Insert. rewrite E.
  cbn [mbind outcome_bind]. destruct height as [|height]; [lia|]. cbn [link_loop].
  destruct (link_new_spec _ _ _ _ _ _ _ Hinv1 Hlk1 ltac:(lia)) as (sl2 & n & p & -> & Hp & Hst & Hnx & Hinv2 & Hlk2 & Hk2).
  cbn [mbind outcome_bind].
  destruct (link_prev_spec _ _ _ _ _ _ _ _ _ Hinv2 Hlk2 ltac:(lia) Hp Hst Hnx) as (sl3 & -> & Hinv3 & Hlk3 & Hk3).
  cbn [mbind outcome_bind].
  destruct (link_loop_spec _ _ _ _ height 1 sl3 _ Hinv3 Hlk3 ltac:(lia) ltac:(lia)) as (sl' & L' & E' & Hinv' & H0 & Hk').
  exists sl', L', x, n. split; [done|]. split; [done|].
  split; [intros y ky Hy; by apply Hk', Hk3, Hk2, Hk1|].
  split; [apply Hk', (lk_key _ _ _ _ _ _ _ Hlk3)|]. by rewrite H0, linked_same.
Qed.

Lemma new_list_inv (zero : K) : inv (new zero) (λ _, []).
Proof.
  split; try done.
  - unfold kMaxHeight. simpl. lia.
  - intros i Hi. apply Next_Ok. exists (mkNode zero (replicate kMaxHeight (Some None))).
    split; [done|]. by apply lookup_replicate.
  - by intros x ?%elem_of_nil.
  - constructor; [constructor | done].
Qed.

(** *** The list of keys *)

(** The keys of the list, in its order. *)
Definition represents sl (ks : list K) : Prop :=
  ∃ L, inv sl L ∧ Forall2 (λ x k, key_at sl x = Some k) (L O) ks.

Definition sorted_keys (ks : list K) : Prop :=
  ∀ i j a b, (i < j)%nat → ks !! i = Some a → ks !! j = Some b → ord a b < 0.

Lemma represents_new zero : represents (new zero) [].
Proof. exists (λ _, []). split; [apply new_list_inv | constructor]. Qed.

Lemma represents_valid sl ks i k : represents sl ks → ks !! i = Some k → valid k.
Proof.
  intros (L & Hinv & Hks) Hk. eapply Forall2_lookup_r in Hk as (x & Hx & Ex); [|done]. cbv beta in *.
  apply (next_key sl L Hinv) in Hx as [(k' & E & Hv) _]. rewrite Ex in E. by injection E as <-.
Qed.

Lemma represents_sorted sl ks : represents sl ks → sorted_keys ks.
Proof.
  intros (L & Hinv & Hks) i j a b Hij Ha Hb.
  eapply Forall2_lookup_r in Ha as (x & Hx & Ex); [|done]. cbv beta in *. eapply Forall2_lookup_r in Hb as (y & Hy & Ey); [|done]. cbv beta in *.
  destruct (sorted_lookup _ _ (level_sorted sl L Hinv 0) (S i) (S j) x y ltac:(lia) Hx Hy) as [_ [->|(k1 & k2 & E1 & E2 & Hlt)]].
  - exfalso. by apply list_elem_of_lookup_2, (level_not_head sl L Hinv 0) in Hx.
  - rewrite Ex in E1. rewrite Ey in E2. by injection E1 as <-; injection E2 as <-.
Qed.

Lemma represents_insert sl ks k :
  represents sl ks → valid k → (∀ k', k' ∈ ks → ord k k' ≠ 0) →
  ∃ sl' a b, Insert compare_ sl k = Ok sl' ∧ ks = a ++ b ∧ represents sl' (a ++ k :: b).
Proof.
  intros (L & Hinv & Hks) Hk Hnd.
  destruct (Insert_spec sl L k Hinv Hk) as (sl' & L' & x & n & E & Hinv' & Hkk & Hx & HL).
  { intros y ky [j Hy]%list_elem_of_lookup Ey. eapply Forall2_lookup_l in Hy as (k' & Hk' & Ek'); [|done]. cbv beta in *.
    rewrite Ey in Ek'. injection Ek' as <-. apply Hnd. by eapply list_elem_of_lookup_2. }
  exists sl', (take n ks), (drop n ks). split; [done|]. split; [by rewrite take_drop|].
  exists L'. split; [done|]. rewrite HL.
  assert (Forall2 (λ x k, key_at sl' x = Some k) (L O) ks) as Hks'.
  { eapply Forall2_impl; [exact Hks|]. intros y ky. apply Hkk. }
  apply Forall2_app; [by apply Forall2_take|]. constructor; [done | by apply Forall2_drop].
Qed.

Lemma represents_duplicate sl ks k k' :
  represents sl ks → valid k → k' ∈ ks → ord k k' = 0 → Insert compare_ sl k = Ub AssertionFailed.
Proof.
  intros (L & Hinv & Hks) Hk [j Hj]%list_elem_of_lookup H0.
  eapply Forall2_lookup_r in Hj as (x & Hx & Ex); [|done]. cbv beta in *.
  unfold Insert. destruct (insert_begin_spec sl L k Hinv Hk) as [Hd _]. rewrite Hd; [done|].
  exists x, k'. split; [by eapply list_elem_of_lookup_2 | done].
Qed.

(** The operations in terms of positions. *)
Section positions.
Context sl (ks : list K) (Hrep : represents sl ks).

Lemma represents_length : length (contents sl) = length ks.
Proof.
  destruct Hrep as (L & Hinv & Hks). rewrite (contents_spec sl L Hinv). by eapply Forall2_length.
Qed.

Lemma position_key n x : contents sl !! n = Some x → ∃ k, node_key sl x = Ok k ∧ ks !! n = Some k.
Proof.
  destruct Hrep as (L & Hinv & Hks). rewrite (contents_spec sl L Hinv). intros Hx.
  eapply Forall2_lookup_l in Hx as (k & Hk & Ek); [|done]. cbv beta in *. exists k. split; [by apply node_key_at | done].
Qed.

Lemma position_next n x : contents sl !! n = Some x → it_Next sl (Some x) = Ok (contents sl !! S n).
Proof.
  destruct Hrep as (L & Hinv & Hks). rewrite (contents_spec sl L Hinv). intros Hx. cbn [it_Next].
  by apply (chain_at _ _ head_ (L O) (S n) x (inv_chain _ _ Hinv 0 ltac:(unfold kMaxHeight; lia))).
Qed.

Lemma position_first : it_SeekToFirst sl = Ok (contents sl !! 0%nat).
Proof.
  destruct Hrep as (L & Hinv & Hks). rewrite (contents_spec sl L Hinv). unfold it_SeekToFirst.
  by apply (chain_at _ _ head_ (L O) 0 head_ (inv_chain _ _ Hinv 0 ltac:(unfold kMaxHeight; lia))).
Qed.

(** A node of the lowest level with the head before it, as a position of the list. *)
Lemma null_if_head_at L n y : inv sl L → (head_ :: L O) !! n = Some y →
  null_if_head y = if (n =? 0)%nat then None else L O !! pred n.
Proof.
  intros Hinv Hy. unfold null_if_head. destruct n as [|n]; [by injection Hy as <-|].
  change (L O !! n = Some y) in Hy. rewrite decide_False; [done|].
  by apply list_elem_of_lookup_2, (level_not_head sl L Hinv 0) in Hy.
Qed.

Lemma position_last : it_SeekToLast sl = Ok (contents sl !! pred (length ks)).
Proof.
  destruct Hrep as (L & Hinv & Hks). pose proof (Forall2_length _ _ _ Hks) as Hl.
  unfold it_SeekToLast. destruct (FindLast_spec sl L Hinv) as (y & -> & Hy). cbn [mbind outcome_bind].
  rewrite (null_if_head_at L _ y Hinv Hy), (contents_spec sl L Hinv), Hl.
  destruct (length ks) as [|m]; [|done]. cbn. f_equal. symmetry. apply lookup_ge_None. lia.
Qed.

Lemma position_prev n x :
  contents sl !! n = Some x →
  it_Prev compare_ sl (Some x) = Ok (if (n =? 0)%nat then None else contents sl !! pred n).
Proof.
  destruct Hrep as (L & Hinv & Hks). rewrite (contents_spec sl L Hinv). intros Hx. cbn [it_Prev].
  destruct (next_key sl L Hinv 0 n x Hx) as [(k & Ek & Hv) Hne]. rewrite (node_key_at _ _ _ Ek).
  cbn [mbind outcome_bind]. destruct (FindLessThan_spec sl L Hinv k Hv) as (y & m & -> & Hst).
  cbn [mbind outcome_bind]. pose proof Hst as (Hy & _ & _).
  destruct (stop_split sl L k 0 m y Hinv Hv Hst) as [Hlo Hhi].
  assert (m = n) as ->; [|by rewrite (null_if_head_at L _ y Hinv Hy)].
  assert (¬ below sl k x) as Hnx.
  { intros [?|(k' & E & Hlt)]; [done|]. rewrite Ek in E. injection E as <-. pose proof (order_sgn k k Hv Hv). lia. }
  destruct (Nat.lt_trichotomy m n) as [Hlt|[->|Hgt]]; [|done|].
  - destruct (lookup_lt_is_Some_2 (L O) m) as [z Hz]; [apply lookup_lt_Some in Hx; lia|]. exfalso.
    rewrite Forall_lookup in Hhi. apply (Hhi O z); [by rewrite lookup_drop, Nat.add_0_r|].
    destruct (sorted_lookup _ _ (level_sorted sl L Hinv 0) (S m) (S n) z x ltac:(lia) Hz Hx) as [_ [->|(k1 & k2 & E1 & E2 & Hlt')]].
    + by left.
    + right. exists k1. rewrite Ek in E2. injection E2 as <-. done.
  - exfalso. apply Hnx. rewrite Forall_lookup in Hlo. apply (Hlo n). by rewrite lookup_take_lt by lia.
Qed.

(** [Seek] goes to the first key from the target on. *)
Lemma first_from_keys L k q : inv sl L → L O = contents sl → valid k → first_from sl L k q →
  ∃ n, (n ≤ length ks)%nat ∧ q = contents sl !! n ∧ (∀ j k', (j < n)%nat → ks !! j = Some k' → ord k' k < 0) ∧
    (∀ k', ks !! n = Some k' → 0 ≤ ord k' k).
Proof.
  intros Hinv HL Hk (n & Hn & -> & Hlo & Hhi). exists n. rewrite <- represents_length, <- HL.
  destruct Hrep as (L' & Hinv' & Hks). rewrite <- (contents_spec sl L' Hinv'), <- HL in Hks.
  split; [done|]. split; [done|]. split.
  - intros j k' Hj Hk'. eapply Forall2_lookup_r in Hk' as (x & Hx & Ex); [|done].
    destruct (Hlo j x Hj Hx) as [->|(k2 & E2 & Hlt)].
    + exfalso. by apply list_elem_of_lookup_2, (level_not_head sl L Hinv 0) in Hx.
    + rewrite Ex in E2. by injection E2 as <-.
  - intros k' Hk'. eapply Forall2_lookup_r in Hk' as (x & Hx & Ex); [|done].
    destruct (Z.lt_ge_cases (ord k' k) 0); [|done]. exfalso. apply (Hhi x Hx). right. by exists k'.
Qed.

Lemma position_seek k : valid k →
  ∃ n, it_Seek compare_ sl k = Ok (contents sl !! n) ∧ (n ≤ length ks)%nat ∧
    (∀ j k', (j < n)%nat → ks !! j = Some k' → ord k' k < 0) ∧ (∀ k', ks !! n = Some k' → 0 ≤ ord k' k).
Proof.
  intros Hk. destruct Hrep as (L & Hinv & Hks).
  destruct (FindGreaterOrEqual_spec sl L Hinv k None Hk) as (q & prev & E & Hq & _); [done|].
  destruct (first_from_keys L k q Hinv) as (n & Hn & -> & Hlo & Hhi); [by rewrite (contents_spec sl L Hinv) | done | done|].
  exists n. split; [unfold it_Seek; by rewrite E | done].
Qed.

Lemma position_contains k : valid k →
  ∃ b, Contains compare_ sl k = Ok b ∧ (b = true ↔ ∃ k', k' ∈ ks ∧ ord k k' = 0).
Proof.
  intros Hk. destruct Hrep as (L & Hinv & Hks).
  destruct (FindGreaterOrEqual_spec sl L Hinv k None Hk) as (q & prev & E & Hq & _); [done|].
  destruct (duplicate_test sl L k q Hinv Hk Hq) as (b & Eb & Hb).
  exists b. split.
  - unfold Contains. rewrite E. cbn [mbind outcome_bind fst]. destruct q as [x|]; [|done].
    unfold node_key in *. destruct (get_node sl x) as [nd| | |]; cbn [mbind outcome_bind] in *; try done.
    destruct (Equal compare_ k (key nd)); cbn [mbind outcome_bind] in *; congruence.
  - rewrite Hb. split.
    + intros (y & ky & [j Hy]%list_elem_of_lookup & Ey & H0). eapply Forall2_lookup_l in Hy as (k' & Hk' & Ek'); [|done]. cbv beta in *.
      rewrite Ey in Ek'. injection Ek' as <-. exists ky. split; [by eapply list_elem_of_lookup_2 | done].
    + intros (k' & [j Hk']%list_elem_of_lookup & H0). eapply Forall2_lookup_r in Hk' as (x & Hx & Ex); [|done].
      exists x, k'. split; [by eapply list_elem_of_lookup_2 | done].
Qed.

End positions.

(** *** Concurrent readers *)

Definition writer_ok sl L (w : writer) : Prop :=
  match w with
  | WIdle => True
  | WLink x prev i height => ∃ k, linking sl L x k prev i height ∧ (i < height)%nat
  | WPublish x prev i height => ∃ k n p, linking sl L x k prev i height ∧ (i < height)%nat ∧
      prev !! i = Some (Some p) ∧ stop_at sl L k i n p ∧ Next sl x i = Ok (L i !! n)
  end.

Definition reader_ok sl L (r : reader) : Prop :=
  match r with
  | RSearch target x level => valid target ∧ (level < kMaxHeight)%nat ∧ reached sl L target level x
  | _ => True
  end.

Record sys_inv (s : system) L : Prop := mkSysInv {
  sys_list : inv (list_ s) L;
  sys_writer : writer_ok (list_ s) L (writer_ s);
  sys_readers : Forall (reader_ok (list_ s) L) (readers_ s)
}.

Lemma reader_kept sl sl' L L' r :
  inv sl L → keys_kept sl sl' → (∀ j y, y ∈ L j → y ∈ L' j) → reader_ok sl L r → reader_ok sl' L' r.
Proof.
  intros Hinv Hkk HL. destruct r as [|t x level|]; try done. intros (Ht & Hl & Hx & Hb).
  split; [done|]. split; [done|]. split.
  - apply elem_of_cons in Hx as [->|Hx]; [set_solver|]. apply elem_of_cons. right. by apply HL.
  - apply (below_kept sl sl'); [done | | done]. apply elem_of_cons in Hx as [->|Hx]; [by left|]. right.
    by apply (level_key sl L Hinv level).
Qed.

(** One turn of a reader is defined and keeps it on the list; a result is exact at the
    time of the turn. *)
Lemma reader_step_spec sl L r :
  inv sl L → reader_ok sl L r → ∃ r', reader_step compare_ sl r = Ok r' ∧ reader_ok sl L r' ∧
    ∀ t x level q, r = RSearch t x level → r' = RDone t q → first_from sl L t q.
Proof.
  intros Hinv Hr. destruct r as [|t x level|]; [by exists RIdle| |by eexists].
  destruct Hr as (Ht & Hl & [n Hx]%list_elem_of_lookup & Hb). cbn [reader_step].
  destruct (find_step_at sl L Hinv t level n x None Ht Hl Hx Hb) as [(y & Hy & Hyb & ->)|[Hstop ->]]; [done| |];
    cbn [mbind outcome_bind].
  - eexists. split; [reflexivity|]. split; [|done]. split; [done|]. split; [done|].
    split; [apply elem_of_cons; right; by eapply list_elem_of_lookup_2 | done].
  - case_decide as Hd; (eexists; split; [reflexivity|]).
    + subst level. split; [done|]. intros t' x' l' q [= <- <- <-] [= <-]. by apply (first_from_stop sl L Hinv t n x).
    + split; [|done]. destruct level as [|level]; [done|]. cbn [pred].
      destruct (descend sl L Hinv level n x Hx) as [n' Hn']. split; [done|]. split; [lia|].
      split; [by eapply list_elem_of_lookup_2 | done].
Qed.

Lemma writer_step_spec s L :
  sys_inv s L → ∃ s' L', writer_step s = Ok s' ∧ sys_inv s' L' ∧ (∀ j, L j `sublist_of` L' j).
Proof.
  intros [Hinv Hw Hr]. destruct s as [sl [|x prev i height|x prev i height] rs]; cbn [list_ writer_ readers_] in *.
  - exists (mkSystem sl WIdle rs), L. by split_and!.
  - destruct Hw as (k & Hlk & Hi).
    destruct (link_new_spec _ _ _ _ _ _ _ Hinv Hlk Hi) as (sl' & n & p & E & Hp & Hst & Hnx & Hinv' & Hlk' & Hkk).
    exists (mkSystem sl' (WPublish x prev i height) rs), L. unfold writer_step. cbn [writer_ list_ readers_].
    rewrite E. split; [done|]. split; [|done]. split; cbn [list_ writer_ readers_]; [done | by exists k, n, p|].
    eapply Forall_impl; [exact Hr|]. intros r. by apply reader_kept.
  - destruct Hw as (k & n & p & Hlk & Hi & Hp & Hst & Hnx).
    destruct (link_prev_spec _ _ _ _ _ _ _ _ _ Hinv Hlk Hi Hp Hst Hnx) as (sl' & E & Hinv' & Hlk' & Hkk).
    exists (mkSystem sl' (if decide (S i < height)%nat then WLink x prev (S i) height else WIdle) rs), (linked L i n x).
    unfold writer_step. cbn [writer_ list_ readers_]. rewrite E. split; [done|]. split.
    + split; cbn [list_ writer_ readers_]; [done | case_decide; [by exists k | done] |].
      eapply Forall_impl; [exact Hr|]. intros r. apply reader_kept; [done | done|].
      intros j y Hy. apply elem_of_linked. by left.
    + intros j. destruct (decide (j = i)) as [->|]; [|by rewrite linked_other].
      rewrite linked_same. rewrite <- (take_drop n (L i)) at 1. apply sublist_app; [done | by apply sublist_cons].
Qed.

Lemma step_inv s s' L :
  sys_inv s L → step compare_ valid s s' → ∃ L', sys_inv s' L' ∧ (∀ j, L j `sublist_of` L' j).
Proof.
  intros HI Hstep. destruct Hstep as [sl rs k sl' x prev height Hk E|s s' _ E|s i r target Ht Hi Hr|s i r r' Hi E].
  - destruct HI as [Hinv _ Hr]. cbn [list_ writer_ readers_] in *.
    destruct (insert_begin_spec sl L k Hinv Hk) as [Hdup Hok].
    assert (∀ y ky, y ∈ L O → key_at sl y = Some ky → ord k ky ≠ 0) as Hnd.
    { intros y ky Hy Ey H0. rewrite Hdup in E; [done|]. by exists y, ky. }
    destruct (Hok Hnd) as (sl1 & x1 & prev1 & h1 & E1 & Hinv1 & Hlk & Hkk & Hh). rewrite E in E1. injection E1 as <- <- <- <-.
    exists L. split; [|done]. split; cbn [list_ writer_ readers_]; [done | by exists k |].
    eapply Forall_impl; [exact Hr|]. intros r. by apply reader_kept.
  - destruct (writer_step_spec s L HI) as (s1 & L1 & E1 & H1 & Hsub). rewrite E in E1. injection E1 as <-. by exists L1.
  - exists L. destruct HI as [Hinv Hw Hrs]. split; [|done]. split; cbn [list_ writer_ readers_]; [done | done |].
    apply Forall_insert; [done|]. split; [done|]. pose proof (inv_height _ _ Hinv). unfold GetMaxHeight.
    split; [lia|]. split; [set_solver | by left].
  - exists L. destruct HI as [Hinv Hw Hrs]. split; [|done]. split; cbn [list_ writer_ readers_]; [done | done |].
    apply Forall_insert; [done|]. rewrite Forall_lookup in Hrs.
    destruct (reader_step_spec (list_ s) L r Hinv (Hrs i r Hi)) as (r1 & E1 & Hr1 & _). rewrite E in E1. by injection E1 as <-.
Qed.

Lemma steps_inv s s' L :
  sys_inv s L → rtc (step compare_ valid) s s' → ∃ L', sys_inv s' L' ∧ (∀ j, L j `sublist_of` L' j).
Proof.
  intros HI Hs. revert L HI. induction Hs as [s|s s1 s' Hst _ IH]; intros L HI; [by exists L|].
  destruct (step_inv s s1 L HI Hst) as (L1 & HI1 & Hsub1). destruct (IH L1 HI1) as (L' & HI' & Hsub').
  exists L'. split; [done|]. intros j. etrans; [apply Hsub1 | apply Hsub'].
Qed.

End proofs.

(** ** Properties *)

(** The calls of [Insert] in order. *)
Fixpoint insert_all {K} (compare_ : K → K → outcome Z) (sl : @skiplist K) (ks : list K) : outcome (@skiplist K) :=
  match ks with [] => Ok sl | k :: ks => sl ← Insert compare_ sl k; insert_all compare_ sl ks end.

Lemma insert_all_represents {K} compare_ (valid : K → Prop) ord `{!OrderLaws valid ord}
    (Hcmp : ∀ a b, valid a → valid b → compare_ a b = Ok (ord a b)) ks : ∀ sl es,
  represents valid ord sl es → Forall valid ks →
  (∀ i j a b, (i < j)%nat → (es ++ ks) !! i = Some a → (es ++ ks) !! j = Some b → ord b a ≠ 0) →
  ∃ sl' es', insert_all compare_ sl ks = Ok sl' ∧ represents valid ord sl' es' ∧ es' ≡ₚ es ++ ks.
Proof.
  induction ks as [|k ks IH]; intros sl es Hrep Hv Hd.
  { exists sl, es. by rewrite app_nil_r. }
  apply Forall_cons in Hv as [Hk Hv].
  destruct (represents_insert compare_ valid ord Hcmp sl es k Hrep Hk) as (sl1 & a & b & E & -> & Hrep1).
  { intros k' [i Hi]%list_elem_of_lookup. apply (Hd i (length es)); [by eapply lookup_lt_Some | by apply lookup_app_l_Some|].
    by apply list_lookup_middle. }
  cbn [insert_all]. rewrite E. cbn [mbind outcome_bind].
  assert (∀ x y, x ∈ (a ++ b) ++ [k] → y ∈ ks → ord y x ≠ 0) as Hcross.
  { intros x y [i Hi]%list_elem_of_lookup [j Hj]%list_elem_of_lookup.
    apply (Hd i (length ((a ++ b) ++ [k]) + j)%nat); [apply lookup_lt_Some in Hi; lia | |].
    - rewrite (app_assoc (a ++ b) [k] ks : (a ++ b) ++ k :: ks = _). by apply lookup_app_l_Some.
    - rewrite (app_assoc (a ++ b) [k] ks : (a ++ b) ++ k :: ks = _), lookup_app_r by lia.
      by replace (length ((a ++ b) ++ [k]) + j - length ((a ++ b) ++ [k]))%nat with j by lia. }
  pose proof (represents_sorted valid ord sl1 _ Hrep1) as Hs1.
  destruct (IH sl1 (a ++ k :: b) Hrep1 Hv) as (sl' & es' & E' & Hrep' & Hp).
  { intros i j x y Hij Hx Hy. apply lookup_app_Some in Hy as [Hy|[Hge Hy]].
    - assert ((a ++ k :: b) !! i = Some x) as Hx'.
      { apply lookup_lt_Some in Hy. by rewrite lookup_app_l in Hx by lia. }
      pose proof (Hs1 i j x y Hij Hx' Hy).
      pose proof (order_sgn x y (represents_valid valid ord sl1 _ i x Hrep1 Hx') (represents_valid valid ord sl1 _ j y Hrep1 Hy)).
      lia.
    - apply lookup_app_Some in Hx as [Hx|[Hgei Hx]].
      + apply Hcross; [|by eapply list_elem_of_lookup_2]. apply list_elem_of_lookup_2 in Hx. set_solver.
      + apply (Hd (length (a ++ b) + S (i - length (a ++ k :: b)))%nat (length (a ++ b) + S (j - length (a ++ k :: b)))%nat);
          [lia | |]; rewrite lookup_app_r by lia.
        * by replace (length (a ++ b) + S (i - length (a ++ k :: b)) - length (a ++ b))%nat with (S (i - length (a ++ k :: b))) by lia.
        * by replace (length (a ++ b) + S (j - length (a ++ k :: b)) - length (a ++ b))%nat with (S (j - length (a ++ k :: b))) by lia. }
  exists sl', es'. split; [done|]. split; [done|]. rewrite Hp, <- !app_assoc. cbn [app].
  apply Permutation_app_head, Permutation_middle.
Qed.

(** C21: The skip list is a sorted set.  Inserting keys that are pairwise different, in
    any order, succeeds and gives the sorted list of them; inserting a key again fails
    the assertion; [Contains] decides membership; and the iterator is a cursor on the
    sorted list: [SeekToFirst], [SeekToLast], [Next], [Prev] and [Seek] go to the
    position the list says, whatever heights the generator drew. *)
Theorem skiplist_set {K} (compare_ : K → K → outcome Z) (valid : K → Prop) (ord : K → K → Z)
    (HO : OrderLaws valid ord) (Hcmp : ∀ a b, valid a → valid b → compare_ a b = Ok (ord a b))
    (zero : K) (ks : list K) (Hvalid : Forall valid ks)
    (Hdist : ∀ i j a b, (i < j)%nat → ks !! i = Some a → ks !! j = Some b → ord b a ≠ 0) :
  ∃ sl es, insert_all compare_ (new zero) ks = Ok sl ∧ es ≡ₚ ks ∧ sorted_keys ord es ∧
    length (contents sl) = length es ∧
    (∀ k, k ∈ ks → Insert compare_ sl k = Ub AssertionFailed) ∧
    (∀ k, valid k → ∃ b, Contains compare_ sl k = Ok b ∧ (b = true ↔ ∃ k', k' ∈ ks ∧ ord k k' = 0)) ∧
    (∀ n x, contents sl !! n = Some x →
       (∃ k, it_key sl (Some x) = Ok k ∧ es !! n = Some k) ∧
       it_Next sl (Some x) = Ok (contents sl !! S n) ∧
       it_Prev compare_ sl (Some x) = Ok (if (n =? 0)%nat then None else contents sl !! pred n)) ∧
    it_SeekToFirst sl = Ok (contents sl !! 0%nat) ∧ it_SeekToLast sl = Ok (contents sl !! pred (length es)) ∧
    (∀ k, valid k → ∃ n, it_Seek compare_ sl k = Ok (contents sl !! n) ∧ (n ≤ length es)%nat ∧
       (∀ j k', (j < n)%nat → es !! j = Some k' → ord k' k < 0) ∧ (∀ k', es !! n = Some k' → 0 ≤ ord k' k)).
Proof.
  destruct (insert_all_represents compare_ valid ord Hcmp ks (new zero) []) as (sl & es & E & Hrep & Hp);
    [apply represents_new | done | done |].
  exists sl, es. split; [done|]. split; [done|]. split; [by eapply represents_sorted|].
  split; [by eapply represents_length|].
  assert (∀ k, k ∈ ks ↔ k ∈ es) as Hin by (intros k; by rewrite Hp).
  split_and!.
  - intros k Hk. assert (valid k) as Hv by (rewrite Forall_forall in Hvalid; by apply Hvalid).
    apply (represents_duplicate compare_ valid ord Hcmp sl es k k Hrep Hv); [by apply Hin|].
    pose proof (order_sgn k k Hv Hv). lia.
  - intros k Hk. destruct (position_contains compare_ valid ord Hcmp sl es Hrep k Hk) as (b & Eb & Hb).
    exists b. split; [done|]. rewrite Hb. by setoid_rewrite Hin.
  - intros n x Hx. split; [by apply (position_key valid ord sl es Hrep)|].
    split; [by apply (position_next valid ord sl es Hrep) | by apply (position_prev compare_ valid ord Hcmp sl es Hrep)].
  - by apply (position_first valid ord sl es Hrep).
  - by apply (position_last valid ord sl es Hrep).
  - intros k Hk. by apply (position_seek compare_ valid ord Hcmp sl es Hrep).
Qed.

(** Integers with their order, as keys. *)
Definition int_compare (a b : Z) : outcome Z := Ok (a - b).
#[export] Instance int_order : OrderLaws (λ _ : Z, True) (λ a b, a - b).
Proof. split; [intros; lia | intros; lia]. Qed.

Lemma skiplist_set_witness :
  ∃ sl es, insert_all int_compare (new 0) [5; 1; 9; 3] = Ok sl ∧ es ≡ₚ [5; 1; 9; 3] ∧ sorted_keys (λ a b, a - b) es ∧
    length (contents sl) = length es ∧
    (∀ k, k ∈ [5; 1; 9; 3] → Insert int_compare sl k = Ub AssertionFailed) ∧
    (∀ k, True → ∃ b, Contains int_compare sl k = Ok b ∧ (b = true ↔ ∃ k', k' ∈ [5; 1; 9; 3] ∧ k - k' = 0)) ∧
    (∀ n x, contents sl !! n = Some x →
       (∃ k, it_key sl (Some x) = Ok k ∧ es !! n = Some k) ∧
       it_Next sl (Some x) = Ok (contents sl !! S n) ∧
       it_Prev int_compare sl (Some x) = Ok (if (n =? 0)%nat then None else contents sl !! pred n)) ∧
    it_SeekToFirst sl = Ok (contents sl !! 0%nat) ∧ it_SeekToLast sl = Ok (contents sl !! pred (length es)) ∧
    (∀ k, True → ∃ n, it_Seek int_compare sl k = Ok (contents sl !! n) ∧ (n ≤ length es)%nat ∧
       (∀ j k', (j < n)%nat → es !! j = Some k' → k' - k < 0) ∧ (∀ k', es !! n = Some k' → 0 ≤ k' - k)).
Proof.
  apply (skiplist_set int_compare (λ _ : Z, True) (λ a b, a - b) int_order ltac:(done) 0 [5; 1; 9; 3]).
  - by repeat constructor.
  - intros i j a b Hij Ha Hb. apply (bool_decide_unpack _).
    do 4 (destruct i as [|i]; [do 4 (destruct j as [|j]; [try lia; simplify_eq/=; reflexivity|]); done|]). done.
Defined.

(** What a lookup promises: the first key from the target on, at this moment. *)
Definition first_at_or_after {K} (ord : K → K → Z) (sl : @skiplist K) (target : K) (p : option nat) : Prop :=
  ∃ n, (n ≤ length (contents sl))%nat ∧ p = contents sl !! n ∧
    (∀ j x k, (j < n)%nat → contents sl !! j = Some x → node_key sl x = Ok k → ord k target < 0) ∧
    (∀ x k, p = Some x → node_key sl x = Ok k → 0 ≤ ord k target).

Lemma first_from_public {K} (valid : K → Prop) ord `{!OrderLaws valid ord} (sl : @skiplist K) L k p :
  inv valid ord sl L → valid k → first_from ord sl L k p → first_at_or_after ord sl k p.
Proof.
  intros Hinv Hk (n & Hn & -> & Hlo & Hhi).
  assert (∀ j x k', L O !! j = Some x → node_key sl x = Ok k' → key_at sl x = Some k') as Hkey.
  { intros j x k' Hx E. destruct (next_key valid ord sl L Hinv 0 j x Hx) as [(k2 & E2 & _) _].
    rewrite (node_key_at _ _ _ E2) in E. by injection E as <-. }
  exists n. rewrite (contents_spec valid ord sl L Hinv). split; [done|]. split; [done|]. split.
  - intros j x k' Hj Hx E. destruct (Hlo j x Hj Hx) as [->|(k2 & E2 & Hlt)].
    + exfalso. by apply list_elem_of_lookup_2, (level_not_head valid ord sl L Hinv 0) in Hx.
    + rewrite (Hkey _ _ _ Hx E) in E2. by injection E2 as <-.
  - intros x k' Hx E. destruct (Z.lt_ge_cases (ord k' k) 0); [|done]. exfalso. apply (Hhi x Hx). right.
    exists k'. split; [by eapply Hkey | done].
Qed.

(** C15: Readers need no lock.  In every interleaving of one inserting thread and any
    number of readers, store by store and load by load: the list is sorted at every
    moment, neither side ever meets undefined behaviour (a null or dangling pointer, a
    link that has not been stored yet, a failing assertion of the linking), every
    lookup that ends returns the first key at or after its target in the list as it is
    at that moment, a key is visible from the first link on, and no later step removes
    or reorders what was visible. *)
Theorem skiplist_concurrent {K} (compare_ : K → K → outcome Z) (valid : K → Prop) (ord : K → K → Z)
    (HO : OrderLaws valid ord) (Hcmp : ∀ a b, valid a → valid b → compare_ a b = Ok (ord a b))
    (zero : K) (n : nat) (s : system)
    (Hreach : rtc (step compare_ valid) (mkSystem (new zero) WIdle (replicate n RIdle)) s) :
  (∀ i j x y kx ky, (i < j)%nat → contents (list_ s) !! i = Some x → contents (list_ s) !! j = Some y →
     node_key (list_ s) x = Ok kx → node_key (list_ s) y = Ok ky → ord kx ky < 0) ∧
  (∃ s', writer_step s = Ok s') ∧
  (∀ i r, readers_ s !! i = Some r → ∃ r', reader_step compare_ (list_ s) r = Ok r' ∧
     ∀ t x level p, r = RSearch t x level → r' = RDone t p → first_at_or_after ord (list_ s) t p) ∧
  (∀ x prev i height, (0 < i)%nat → writer_ s = WLink x prev i height → x ∈ contents (list_ s)) ∧
  (∀ s2, rtc (step compare_ valid) s s2 → contents (list_ s) `sublist_of` contents (list_ s2)).
Proof.
  destruct (steps_inv compare_ valid ord Hcmp (mkSystem (new zero) WIdle (replicate n RIdle)) s (λ _, []))
    as (L & HI & _); [split; cbn [list_ writer_ readers_]; [apply new_list_inv | done | by apply Forall_replicate] | done |].
  pose proof HI as [Hinv Hw Hrs]. pose proof (contents_spec valid ord (list_ s) L Hinv) as Hc. split_and!.
  - intros i j x y kx ky Hij Hx Hy Ex Ey. rewrite Hc in Hx, Hy.
    destruct (next_key valid ord _ L Hinv 0 i x Hx) as [(k1 & E1 & _) Hnx].
    destruct (next_key valid ord _ L Hinv 0 j y Hy) as [(k2 & E2 & _) _].
    rewrite (node_key_at _ _ _ E1) in Ex. rewrite (node_key_at _ _ _ E2) in Ey. injection Ex as <-. injection Ey as <-.
    destruct (sorted_lookup _ _ (level_sorted valid ord _ L Hinv 0) (S i) (S j) x y ltac:(lia) Hx Hy)
      as [_ [?|(k3 & k4 & E3 & E4 & Hlt)]]; [done|]. rewrite E1 in E3. rewrite E2 in E4. by injection E3 as <-; injection E4 as <-.
  - destruct (writer_step_spec compare_ valid ord Hcmp s L HI) as (s' & _ & E & _). by exists s'.
  - intros i r Hi. rewrite Forall_lookup in Hrs.
    destruct (reader_step_spec compare_ valid ord Hcmp (list_ s) L r Hinv (Hrs i r Hi)) as (r' & E & _ & Hres).
    exists r'. split; [done|]. intros t x level p -> ->. eapply (first_from_public valid ord); [done | |by eapply Hres].
    by destruct (Hrs i _ Hi).
  - intros x prev i height Hi Ew. rewrite Hc. rewrite Ew in Hw. destruct Hw as (k & Hlk & _).
    eapply elem_of_sublist; [by apply (lk_in _ _ _ _ _ _ _ _ _ Hlk)|]. by apply (sub_0 valid ord (list_ s)).
  - intros s2 Hs2. destruct (steps_inv compare_ valid ord Hcmp s s2 L HI Hs2) as (L2 & HI2 & Hsub).
    rewrite Hc, (contents_spec valid ord (list_ s2) L2 (sys_list _ _ _ _ HI2)). apply Hsub.
Qed.

(** A schedule, run on the list of integers. *)
Inductive move := MInsert (k : Z) | MWriter | MCall (i : nat) (target : Z) | MReader (i : nat).

Definition run_move (s : @system Z) (m : move) : option system :=
  match m with
  | MInsert k =>
      match writer_ s, insert_begin int_compare (list_ s) k with
      | WIdle, Ok (sl', x, prev, height) => Some (mkSystem sl' (WLink x prev 0 height) (readers_ s))
      | _, _ => None
      end
  | MWriter =>
      match writer_ s with
      | WIdle => None
      | _ => match writer_step s with Ok s' => Some s' | _ => None end
      end
  | MCall i target =>
      match readers_ s !! i with
      | Some (RSearch _ _ _) | None => None
      | Some _ => Some (mkSystem (list_ s) (writer_ s)
                    (<[i := RSearch target head_ (pred (GetMaxHeight (list_ s)))]> (readers_ s)))
      end
  | MReader i =>
      match readers_ s !! i with
      | Some r => match reader_step int_compare (list_ s) r with
                  | Ok r' => Some (mkSystem (list_ s) (writer_ s) (<[i := r']> (readers_ s)))
                  | _ => None end
      | None => None
      end
  end.
Fixpoint run_moves (s : @system Z) (ms : list move) : option system :=
  match ms with [] => Some s | m :: ms => match run_move s m with Some s => run_moves s ms | None => None end end.

Lemma run_moves_reach ms : ∀ s s', run_moves s ms = Some s' → rtc (step int_compare (λ _ : Z, True)) s s'.
Proof.
  induction ms as [|m ms IH]; intros s s' Hr; cbn [run_moves] in Hr; [by injection Hr as <-|].
  destruct (run_move s m) as [s1|] eqn:E; [|done]. eapply rtc_l; [|by apply IH]. clear Hr IH.
  destruct m as [k| |i t|i]; cbn [run_move] in E.
  - destruct s as [sl w rs]. cbn [writer_ list_ readers_] in E. destruct w; try done.
    destruct (insert_begin int_compare sl k) as [[[[sl' x] prev] h]| | |] eqn:Eb; try done. injection E as <-.
    by apply (step_insert _ _ _ _ k).
  - assert (writer_ s ≠ WIdle) by (by destruct (writer_ s)).
    apply step_writer; [done|]. destruct (writer_ s); [done | |]; destruct (writer_step s); congruence.
  - destruct (readers_ s !! i) as [r|] eqn:Ei; [|done]. destruct r; try done; injection E as <-;
      by eapply (step_call _ _ _ i).
  - destruct (readers_ s !! i) as [r|] eqn:Ei; [|done].
    destruct (reader_step int_compare (list_ s) r) as [r'| | |] eqn:Er; try done. injection E as <-.
    by eapply (step_reader _ _ _ i r).
Qed.

(** A reader starts before an insertion and finds the key that is linked under it. *)
Definition demo_start : @system Z := mkSystem (new 0) WIdle (replicate 1 RIdle).
Definition demo_moves : list move := [MInsert 5; MCall 0 3; MReader 0; MWriter; MWriter; MReader 0].
Definition demo_state : @system Z := default demo_start (run_moves demo_start demo_moves).

Lemma demo_reached : rtc (step int_compare (λ _ : Z, True)) demo_start demo_state.
Proof. apply (run_moves_reach demo_moves). reflexivity. Qed.

Lemma skiplist_concurrent_witness :
  readers_ demo_state = [RDone 3 (Some 1%nat)] ∧
  (∃ s', writer_step demo_state = Ok s') ∧
  (∀ s2, rtc (step int_compare (λ _ : Z, True)) demo_state s2 → contents (list_ demo_state) `sublist_of` contents (list_ s2)).
Proof.
  split; [vm_compute; reflexivity|].
  destruct (skiplist_concurrent int_compare (λ _ : Z, True) (λ a b, a - b) int_order ltac:(done) 0 1 demo_state demo_reached)
    as (_ & H1 & _ & _ & H2). by split.
Defined.
