(* ===== verification/MemTable.v ===== *)
(** * db/memtable.h and db/memtable.cc: the sorted table of recent updates

    A memtable is a skip list of encoded entries: the length of the internal key, the
    internal key, the length of the value, the value.  A pointer to an entry is the list
    of the bytes from it on.  The arena supplies the memory of entries and nodes; the
    addresses that [new] would return are arguments.  The table is shown to answer
    lookups with the newest visible update and to iterate in the order of internal
    keys. *)
From S2P Require Import Prelude.
From S2P Require Import Coding.
From S2P Require Import Interfaces.
From S2P Require Import Comparator.
From S2P Require Import Dbformat.
From S2P Require Import Status.
From S2P Require Import WriteBatch.
From S2P Require Import Random.
From S2P Require Import Arena.
From S2P Require Import Cursor.
From S2P Require Import SkipList.

(** ** Definitions *)

Module MemTable.
Section MemTable.
(** The user's comparator inside [comparator_], and the contents of new memory. *)
Context (user : Comparator) (junk : Z → list byte).

Record memtable := mkMemTable {
  refs_ : Z;
  arena_ : Arena.arena;
  table_ : @SkipList.skiplist (list byte)
}.

(** The static [GetLengthPrefixedSlice]: the slice and the bytes after it. *)
Definition GetLengthPrefixedSlice (data : list byte) : outcome (list byte * list byte) :=
  match GetVarint32Ptr (take 5 data) with
  | None => Ub NullDeref
  | Some (len, rest) =>
      let p := Z.of_nat (length (take 5 data) - length rest) in
      s ← mem_read data p len;
      Ok (s, drop (Z.to_nat (p + len)) data)
  end.

(** [KeyComparator::operator()]. *)
Definition key_compare (aptr bptr : list byte) : outcome Z :=
  a ← GetLengthPrefixedSlice aptr;
  b ← GetLengthPrefixedSlice bptr;
  Ok (InternalKeyComparator.Compare user a.1 b.1).

Definition EncodeKey (target : list byte) : list byte := PutVarint32 [] (u32 (blen target)) ++ target.

(** The size of a node of the given height: the key and the links. *)
Definition node_size (height : nat) : Z := 16 + 8 * (Z.of_nat height - 1).

(** The constructor; the head node of the list is allocated in the arena. *)
Definition new (node_addr : Z) : outcome memtable :=
  a ← Arena.AllocateAligned node_addr Arena.new (node_size SkipList.kMaxHeight);
  Ok (mkMemTable 0 a.1 (SkipList.new [])).

Definition Ref (m : memtable) : memtable := mkMemTable (refs_ m + 1) (arena_ m) (table_ m).
(** [Unref]: [None] when the table has been deleted. *)
Definition Unref (m : memtable) : outcome (option memtable) :=
  let refs := refs_ m - 1 in
  if refs <? 0 then Ub AssertionFailed
  else if refs <=? 0 then Ok None
  else Ok (Some (mkMemTable refs (arena_ m) (table_ m))).

Definition ApproximateMemoryUsage (m : memtable) : Z := Arena.MemoryUsage (arena_ m).

(** The bytes [Add] writes to the block it allocates. *)
Definition encode_entry (s : Z) (type : ValueType) (key value : list byte) (encoded_len : Z) : outcome (list byte) :=
  let key_size := blen key in
  let val_size := blen value in
  let internal_key_size := key_size + 8 in
  let buf := junk encoded_len in
  let len := EncodeVarint32 (u32 internal_key_size) in
  buf ← mem_write buf 0 len;
  let p := blen len in
  buf ← mem_write buf p key;
  let p := p + key_size in
  buf ← mem_write buf p (EncodeFixed64 (u64 (Z.lor (Z.shiftl s 8) (type_value type))));
  let p := p + 8 in
  let vlen := EncodeVarint32 (u32 val_size) in
  buf ← mem_write buf p vlen;
  let p := p + blen vlen in
  buf ← mem_write buf p value;
  if p + val_size =? encoded_len then Ok buf else Ub AssertionFailed.

(** The height of the node that was created last. *)
Definition last_height (sl : @SkipList.skiplist (list byte)) : nat :=
  match last (SkipList.nodes sl) with Some n => length (SkipList.next_ n) | None => O end.

(** [Add]; the arena is asked for the entry and, inside [Insert], for the node. *)
Definition Add (buf_addr node_addr : Z) (m : memtable) (s : Z) (type : ValueType) (key value : list byte)
    : outcome memtable :=
  let internal_key_size := blen key + 8 in
  let encoded_len := VarintLength internal_key_size + internal_key_size + VarintLength (blen value) + blen value in
  a ← Arena.Allocate buf_addr (arena_ m) encoded_len;
  buf ← encode_entry s type key value encoded_len;
  table ← SkipList.Insert key_compare (table_ m) buf;
  a ← Arena.AllocateAligned node_addr a.1 (node_size (last_height table));
  Ok (mkMemTable (refs_ m) a.1 table).

(** [Get]: whether the table knows the key, [*value] and [*s]. *)
Definition Get (m : memtable) (key : LookupKey.t) (value : list byte) (st : status)
    : outcome (bool * list byte * status) :=
  it ← SkipList.it_Seek key_compare (table_ m) (LookupKey.memtable_key key);
  if SkipList.it_Valid it then
    entry ← SkipList.it_key (table_ m) it;
    match GetVarint32Ptr (take 5 entry) with
    | None => Ub NullDeref
    | Some (key_length, rest) =>
        let key_ptr := Z.of_nat (length (take 5 entry) - length rest) in
        ukey ← mem_read entry key_ptr (key_length - 8);
        if Compare user ukey (LookupKey.user_key key) =? 0 then
          tag ← DecodeFixed64 (drop (Z.to_nat (key_ptr + key_length - 8)) entry);
          let t := Z.land tag 0xff in
          if t =? type_value kTypeValue then
            v ← GetLengthPrefixedSlice (drop (Z.to_nat (key_ptr + key_length)) entry);
            Ok (true, v.1, st)
          else if t =? type_value kTypeDeletion then Ok (true, value, NotFound [])
          else Ok (false, value, st)
        else Ok (false, value, st)
    end
  else Ok (false, value, st).

(** *** Iteration *)

Definition iterator (m : memtable) : IteratorOps (option nat) :=
  mkIterator SkipList.it_Valid
    (λ it, e ← SkipList.it_key (table_ m) it; k ← GetLengthPrefixedSlice e; Ok k.1)
    (λ it, e ← SkipList.it_key (table_ m) it; k ← GetLengthPrefixedSlice e;
           v ← GetLengthPrefixedSlice k.2; Ok v.1)
    (λ _, Ok status_ok)
    (SkipList.it_Next (table_ m))
    (SkipList.it_Prev key_compare (table_ m))
    (λ _ target, SkipList.it_Seek key_compare (table_ m) (EncodeKey target))
    (λ _, SkipList.it_SeekToFirst (table_ m))
    (λ _, SkipList.it_SeekToLast (table_ m)).

End MemTable.
End MemTable.

Import MemTable.

(** ** The abstract table *)

(** An update: its sequence number, type, user key and value. *)
Record upd := mkUpd { u_seq : Z; u_type : ValueType; u_key : list byte; u_value : list byte }.

Definition upd_ok (u : upd) : Prop :=
  seq_ok (u_seq u) ∧ blen (u_key u) + 13 < 2 ^ 32 ∧ blen (u_value u) < 2 ^ 32.
Definition upd_ikey (u : upd) : list byte := ikey (u_key u) (u_seq u) (u_type u).

Section visible.
Context (user : Comparator).
(** The updates a lookup may see, and the newest of them. *)
Definition matches (k : list byte) (s : Z) (u : upd) : bool :=
  (Compare user (u_key u) k =? 0) && (u_seq u <=? s).
Definition newest (acc : option upd) (u : upd) : option upd :=
  match acc with Some w => if u_seq w <? u_seq u then Some u else acc | None => Some u end.
Definition visible (k : list byte) (s : Z) (ups : list upd) : option upd :=
  foldl newest None (List.filter (matches k s) ups).
End visible.

Definition lookup_result (r : option upd) (value : list byte) (st : status) : bool * list byte * status :=
  match r with
  | None => (false, value, st)
  | Some u => match u_type u with
              | kTypeValue => (true, u_value u, st)
              | kTypeDeletion => (true, value, NotFound [])
              end
  end.

(** The calls of [Add], with the addresses for the entry and for the node. *)
Fixpoint add_all (user : Comparator) (junk : Z → list byte) (m : memtable) (calls : list (Z * Z * upd)) : outcome memtable :=
  match calls with
  | [] => Ok m
  | (b, n, u) :: calls =>
      m ← Add user junk b n m (u_seq u) (u_type u) (u_key u) (u_value u);
      add_all user junk m calls
  end.

(** ** Lemmas *)

(** *** Entries *)

Definition entry_of (u : upd) : list byte :=
  EncodeVarint32 (blen (u_key u) + 8) ++ upd_ikey u ++ EncodeVarint32 (blen (u_value u)) ++ u_value u.

Lemma blen_ikey u s t : blen (ikey u s t) = blen u + 8.
Proof. rewrite ikey_app, blen_app. done. Qed.

Lemma prefix_decode n rest :
  is_u32 n → GetVarint32Ptr (take 5 (EncodeVarint32 n ++ rest)) = Some (n, take (5 - length (EncodeVarint32 n)) rest) ∧
    (length (take 5 (EncodeVarint32 n ++ rest)) - length (take (5 - length (EncodeVarint32 n)) rest))%nat =
    length (EncodeVarint32 n).
Proof.
  intros Hn. pose proof (EncodeVarint32_length n Hn) as Hl.
  rewrite take_app, (take_ge (EncodeVarint32 n)) by lia. split; [by apply varint32_decode|].
  rewrite length_app. lia.
Qed.

Lemma prefixed_slice (s rest : list byte) :
  is_u32 (blen s) → GetLengthPrefixedSlice (EncodeVarint32 (blen s) ++ s ++ rest) = Ok (s, rest).
Proof.
  intros Hs. unfold GetLengthPrefixedSlice. destruct (prefix_decode (blen s) (s ++ rest) Hs) as [-> ->].
  generalize (EncodeVarint32 (blen s)) as len. intros len. pose proof (blen_nonneg s).
  assert (mem_read (len ++ s ++ rest) (Z.of_nat (length len)) (blen s) = Ok s) as ->.
  { rewrite mem_read_ok; [|lia | done | rewrite !blen_app; pose proof (blen_nonneg rest); unfold blen in *; lia].
    rewrite Nat2Z.id, drop_app_length. unfold blen. by rewrite Nat2Z.id, take_app_length. }
  cbn [mbind outcome_bind]. do 2 f_equal. unfold blen. rewrite <- Nat2Z.inj_add, Nat2Z.id.
  rewrite (app_assoc len s rest), <- (length_app len s). apply drop_app_length.
Qed.

Lemma entry_split u : upd_ok u →
  GetLengthPrefixedSlice (entry_of u) = Ok (upd_ikey u, EncodeVarint32 (blen (u_value u)) ++ u_value u) ∧
  GetLengthPrefixedSlice (EncodeVarint32 (blen (u_value u)) ++ u_value u) = Ok (u_value u, []).
Proof.
  intros (Hs & Hk & Hv). pose proof (blen_nonneg (u_key u)). pose proof (blen_nonneg (u_value u)). split.
  - unfold entry_of. rewrite <- (blen_ikey (u_key u) (u_seq u) (u_type u)). apply prefixed_slice.
    unfold is_u32. unfold upd_ikey. rewrite blen_ikey. lia.
  - rewrite <- (app_nil_r (u_value u)) at 2. apply prefixed_slice. by unfold is_u32.
Qed.

(** What [Add] writes fills its block exactly and is the entry. *)
Lemma encode_entry_spec junk u :
  (∀ n, 0 ≤ n → blen (junk n) = n) → upd_ok u →
  encode_entry junk (u_seq u) (u_type u) (u_key u) (u_value u)
    (VarintLength (blen (u_key u) + 8) + (blen (u_key u) + 8) + VarintLength (blen (u_value u)) + blen (u_value u)) =
  Ok (entry_of u).
Proof.
  intros Hjunk (Hs & Hk & Hv). pose proof (blen_nonneg (u_key u)) as Hk0. pose proof (blen_nonneg (u_value u)) as Hv0.
  assert (∀ n, is_u32 n → VarintLength n = blen (EncodeVarint32 n)) as Hvl.
  { intros n Hn. by rewrite VarintLength_spec, varint_widths_agree. }
  rewrite !Hvl by (unfold is_u32; lia). unfold encode_entry, entry_of, upd_ikey. cbv zeta.
  rewrite !u32_small by (unfold is_u32; lia).
  assert (u64 (Z.lor (Z.shiftl (u_seq u) 8) (type_value (u_type u))) = PackSequenceAndType (u_seq u) (u_type u)) as ->.
  { rewrite pack_add by done. pose proof (type_value_range (u_type u)).
    rewrite Z.lor_comm, lor_shiftl_add by lia. rewrite u64_small; [lia|].
    unfold is_u64. unfold seq_ok, kMaxSequenceNumber in Hs. change (u64 (Z.shiftl 1 56) - 1) with (2 ^ 56 - 1) in Hs. lia. }
  rewrite ikey_app.
  set (l1 := EncodeVarint32 (blen (u_key u) + 8)). set (l2 := EncodeVarint32 (blen (u_value u))).
  set (tag := EncodeFixed64 _).
  set (n := blen l1 + (blen (u_key u) + 8) + blen l2 + blen (u_value u)).
  assert (blen (junk n) = n) as Hj by (apply Hjunk; subst n; pose proof (blen_nonneg l1); pose proof (blen_nonneg l2); lia).
  assert (blen tag = 8) as Htag by done. clearbody l1 l2 tag. revert Hj. generalize (junk n). intros dst Hdst.
  assert (∀ k : nat, blen (drop k dst) = Z.max 0 (n - Z.of_nat k)) as Hdrop.
  { intros k. unfold blen in *. rewrite length_drop. lia. }
  rewrite <- (app_nil_l dst), (mem_write_next [] dst l1) by (try done; subst n; pose proof (blen_nonneg l2); lia).
  cbn [mbind outcome_bind app]. rewrite (mem_write_next l1 _ (u_key u)); [|done|].
  2: { rewrite Hdrop. subst n. unfold blen in *. lia. }
  cbn [mbind outcome_bind]. rewrite drop_drop, (mem_write_next (l1 ++ u_key u) _ tag); [|rewrite blen_app; lia|].
  2: { rewrite Hdrop. subst n. unfold blen in *. lia. }
  cbn [mbind outcome_bind]. rewrite drop_drop, (mem_write_next ((l1 ++ u_key u) ++ tag) _ l2); [|rewrite !blen_app; lia|].
  2: { rewrite Hdrop. subst n. unfold blen in *. lia. }
  cbn [mbind outcome_bind]. rewrite drop_drop, (mem_write_next (((l1 ++ u_key u) ++ tag) ++ l2) _ (u_value u)); [|rewrite !blen_app; lia|].
  2: { rewrite Hdrop. subst n. unfold blen in *. lia. }
  cbn [mbind outcome_bind]. rewrite drop_drop.
  replace (blen l1 + blen (u_key u) + 8 + blen l2 + blen (u_value u) =? n) with true by (symmetry; subst n; lia).
  f_equal. rewrite drop_ge, app_nil_r, <- !app_assoc; [done|]. subst n. unfold blen in *. lia.
Qed.

(** *** The order of entries *)

Section order.
Context (user : Comparator) `{Huser : !ComparatorLaws any_key user}.
#[local] Notation icmp := (InternalKeyComparator.Compare user).
#[local] Notation key_compare := (key_compare user).

Lemma icmp_ikey u v s s' t t' :
  seq_ok s → seq_ok s' →
  Z.sgn (icmp (ikey u s t) (ikey v s' t')) =
  if Compare user u v =? 0 then Z.sgn ((256 * s' + type_value t') - (256 * s + type_value t)) else Z.sgn (Compare user u v).
Proof.
  intros Hs Hs'. rewrite (icmp_spec user _ _ (256 * s + type_value t) (256 * s' + type_value t')) by (by apply last_ikey).
  cbv zeta. by rewrite !extract_ikey.
Qed.

(** The internal key of an encoded entry. *)
Definition ekey (e : list byte) : list byte :=
  match GetLengthPrefixedSlice e with Ok (k, _) => k | _ => [] end.
Definition entry_valid (e : list byte) : Prop := ∃ k rest, GetLengthPrefixedSlice e = Ok (k, rest) ∧ ikey_ok k.
Definition entry_ord (a b : list byte) : Z := icmp (ekey a) (ekey b).

#[export] Instance entry_order : OrderLaws entry_valid entry_ord.
Proof.
  assert (∀ a, entry_valid a → ikey_ok (ekey a)) as Hk.
  { intros a (k & rest & E & Hk). unfold ekey. by rewrite E. }
  split.
  - intros a b Ha Hb. by apply icmp_sgn; [|apply Hk|apply Hk].
  - intros a b d Ha Hb Hd. apply icmp_trans; auto.
Qed.

Lemma key_compare_ord a b : entry_valid a → entry_valid b → key_compare a b = Ok (entry_ord a b).
Proof.
  intros (k & rest & Ea & _) (k' & rest' & Eb & _). unfold MemTable.key_compare, entry_ord, ekey.
  by rewrite Ea, Eb.
Qed.

Lemma ekey_entry u : upd_ok u → ekey (entry_of u) = upd_ikey u.
Proof. intros Hu. unfold ekey. by rewrite (proj1 (entry_split u Hu)). Qed.

Lemma entry_of_valid u : upd_ok u → entry_valid (entry_of u).
Proof. intros Hu. eexists _, _. split; [apply (entry_split u Hu) | apply ikey_ok_ikey]. Qed.

(** Comparing the entries of two updates. *)
Lemma entry_cmp u w : upd_ok u → upd_ok w →
  Z.sgn (entry_ord (entry_of u) (entry_of w)) =
  if Compare user (u_key u) (u_key w) =? 0
  then Z.sgn ((256 * u_seq w + type_value (u_type w)) - (256 * u_seq u + type_value (u_type u)))
  else Z.sgn (Compare user (u_key u) (u_key w)).
Proof.
  intros Hu Hw. unfold entry_ord. rewrite !ekey_entry by done. by apply icmp_ikey; [apply Hu | apply Hw].
Qed.

(** *** Lookups in the abstract table *)

Lemma visible_spec k s ups :
  match visible user k s ups with
  | None => ∀ w, w ∈ ups → matches user k s w = false
  | Some u => u ∈ ups ∧ matches user k s u = true ∧ ∀ w, w ∈ ups → matches user k s w = true → u_seq w ≤ u_seq u
  end.
Proof.
  unfold visible. induction ups as [|x ups IH] using rev_ind; simpl; [by intros w ?%elem_of_nil|].
  rewrite List.filter_app, foldl_app. simpl. destruct (matches user k s x) eqn:Hx; simpl.
  - destruct (foldl newest None _) as [u|]; cbn [newest].
    + destruct IH as (Hu & Hm & Hmax). destruct (Z.ltb_spec (u_seq u) (u_seq x)).
      * split; [set_solver|]. split; [done|]. intros w [Hw| ->%list_elem_of_singleton]%elem_of_app Hmw; [|lia].
        specialize (Hmax w Hw Hmw). lia.
      * split; [set_solver|]. split; [done|]. intros w [Hw| ->%list_elem_of_singleton]%elem_of_app Hmw; [by apply Hmax | lia].
    + split; [set_solver|]. split; [done|]. intros w [Hw| ->%list_elem_of_singleton]%elem_of_app Hmw; [|lia].
      rewrite (IH w Hw) in Hmw. done.
  - destruct (foldl newest None _) as [u|].
    + destruct IH as (Hu & Hm & Hmax). split; [set_solver|]. split; [done|].
      intros w [Hw| ->%list_elem_of_singleton]%elem_of_app Hmw; [by apply Hmax | congruence].
    + intros w [Hw| ->%list_elem_of_singleton]%elem_of_app; [by apply IH | done].
Qed.

(** The answer is unique where sequence numbers are. *)
Lemma visible_unique k s ups u :
  (∀ v w, v ∈ ups → w ∈ ups → u_seq v = u_seq w → v = w) →
  u ∈ ups → matches user k s u = true → (∀ w, w ∈ ups → matches user k s w = true → u_seq w ≤ u_seq u) →
  visible user k s ups = Some u.
Proof.
  intros Hinj Hu Hm Hmax. pose proof (visible_spec k s ups) as Hs. destruct (visible user k s ups) as [v|].
  - destruct Hs as (Hv & Hmv & Hmaxv). f_equal. apply Hinj; [done | done|].
    pose proof (Hmaxv u Hu Hm). pose proof (Hmax v Hv Hmv). lia.
  - by rewrite (Hs u Hu) in Hm.
Qed.

(** *** The table *)

(** The table holds the updates. *)
Definition holds (m : memtable) (ups : list upd) : Prop :=
  ∃ es, represents entry_valid entry_ord (table_ m) es ∧ es ≡ₚ map entry_of ups.

Lemma memtable_Add_spec junk b n m ups u :
  (∀ n, 0 ≤ n → blen (junk n) = n) → n mod 8 = 0 → holds m ups → Forall upd_ok ups → upd_ok u →
  (∀ w, w ∈ ups → u_seq w ≠ u_seq u) →
  ∃ m', Add user junk b n m (u_seq u) (u_type u) (u_key u) (u_value u) = Ok m' ∧ holds m' (ups ++ [u]).
Proof.
  intros Hjunk Hn (es & Hrep & Hp) Hups Hu Hseq. unfold Add. cbv zeta.
  pose proof Hu as (Hs & Hk & Hv).
  set (len := VarintLength (blen (u_key u) + 8) + (blen (u_key u) + 8) + VarintLength (blen (u_value u)) + blen (u_value u)).
  assert (0 < len) as Hlen.
  { subst len. rewrite !VarintLength_spec. pose proof (blen_nonneg (u_key u)). pose proof (blen_nonneg (u_value u)).
    pose proof (blen_nonneg (EncodeVarint64 (blen (u_key u) + 8))). pose proof (blen_nonneg (EncodeVarint64 (blen (u_value u)))). lia. }
  destruct (Allocate_total b (arena_ m) len Hlen) as [a1 ->]. cbn [mbind outcome_bind].
  subst len. rewrite encode_entry_spec by done. cbn [mbind outcome_bind].
  destruct (represents_insert key_compare entry_valid entry_ord key_compare_ord (table_ m) es (entry_of u) Hrep)
    as (sl' & a & c & -> & Ees & Hrep'); [by apply entry_of_valid | |].
  { intros e He. rewrite Hp in He. apply list_elem_of_fmap in He as (w & -> & Hw).
    assert (upd_ok w) as Hwok by (rewrite Forall_forall in Hups; by apply Hups).
    intros H0. pose proof (entry_cmp u w Hu Hwok) as Hc. rewrite H0 in Hc.
    pose proof (type_value_range (u_type u)). pose proof (type_value_range (u_type w)). specialize (Hseq w Hw).
    destruct (Z.eqb_spec (Compare user (u_key u) (u_key w)) 0); lia. }
  cbn [mbind outcome_bind]. destruct (AllocateAligned_total n a1.1 (node_size (last_height sl')) Hn) as [a2 ->].
  cbn [mbind outcome_bind]. eexists. split; [reflexivity|]. exists (a ++ entry_of u :: c). split; [done|].
  rewrite map_app. simpl. rewrite <- Hp, Ees, <- Permutation_middle. rewrite (Permutation_app_comm (a ++ c)). done.
Qed.

Definition call_ok (c : Z * Z * upd) : Prop := c.1.2 mod 8 = 0 ∧ upd_ok c.2.

Lemma add_all_holds junk calls : (∀ n, 0 ≤ n → blen (junk n) = n) → Forall call_ok calls → ∀ m ups,
  holds m ups → Forall upd_ok ups → NoDup (map u_seq (ups ++ map snd calls)) →
  ∃ m', add_all user junk m calls = Ok m' ∧ holds m' (ups ++ map snd calls).
Proof.
  intros Hjunk. induction 1 as [|[[b n] u] calls [Hn Hu] _ IH]; intros m ups Hm Hups Hnd; cbn [add_all map snd].
  { exists m. by rewrite app_nil_r. }
  cbn [fst snd] in Hn, Hu. cbn [map snd] in Hnd.
  destruct (memtable_Add_spec junk b n m ups u Hjunk Hn Hm Hups Hu) as (m1 & -> & Hm1).
  { intros w Hw E. rewrite map_app in Hnd. apply NoDup_app in Hnd as (_ & Hx & _).
    apply (Hx (u_seq w)); [by apply list_elem_of_fmap_2|]. rewrite E. simpl. by left. }
  cbn [mbind outcome_bind]. destruct (IH m1 (ups ++ [u]) Hm1) as (m' & E & Hm').
  - apply Forall_app. by split; [|constructor].
  - by rewrite <- app_assoc.
  - exists m'. split; [done|]. by rewrite <- app_assoc in Hm'.
Qed.

Lemma new_holds addr : addr mod 8 = 0 → ∃ m, MemTable.new addr = Ok m ∧ holds m [].
Proof.
  intros Ha. unfold MemTable.new. destruct (AllocateAligned_total addr Arena.new (node_size SkipList.kMaxHeight) Ha) as [a ->].
  cbn [mbind outcome_bind]. eexists. split; [reflexivity|]. exists []. split; [apply represents_new | done].
Qed.

(** *** Lookups *)

(** The key of a lookup, as an entry of the list. *)
Lemma lookup_valid k s : blen k + 13 < 2 ^ 32 →
  GetLengthPrefixedSlice (EncodeVarint32 (blen k + 8) ++ ikey k s kTypeValue) = Ok (ikey k s kTypeValue, []).
Proof.
  intros Hk. pose proof (blen_nonneg k). rewrite <- (blen_ikey k s kTypeValue).
  rewrite <- (app_nil_r (ikey k s kTypeValue)) at 2. apply prefixed_slice. rewrite blen_ikey. unfold is_u32. lia.
Qed.

(** Where an update stands with respect to a lookup key. *)
Lemma lookup_cmp u k s : upd_ok u → seq_ok s → blen k + 13 < 2 ^ 32 →
  let target := EncodeVarint32 (blen k + 8) ++ ikey k s kTypeValue in
  (entry_ord (entry_of u) target < 0 ↔ Compare user (u_key u) k < 0 ∨ (Compare user (u_key u) k = 0 ∧ s < u_seq u)).
Proof.
  intros Hu Hs Hk. cbv zeta. unfold entry_ord. rewrite ekey_entry by done. unfold ekey. rewrite lookup_valid by done.
  unfold upd_ikey. pose proof (icmp_ikey (u_key u) k (u_seq u) s (u_type u) kTypeValue (proj1 Hu) Hs) as Hc.
  pose proof (type_value_range (u_type u)). change (type_value kTypeValue) with 1 in Hc.
  destruct (Z.eqb_spec (Compare user (u_key u) k) 0); lia.
Qed.

(** Reading the user key, the tag and the value of an entry. *)
Lemma entry_fields u : upd_ok u →
  ∃ rest, let p := Z.of_nat (length (take 5 (entry_of u)) - length rest) in
    GetVarint32Ptr (take 5 (entry_of u)) = Some (blen (u_key u) + 8, rest) ∧
    mem_read (entry_of u) p (blen (u_key u) + 8 - 8) = Ok (u_key u) ∧
    DecodeFixed64 (drop (Z.to_nat (p + (blen (u_key u) + 8) - 8)) (entry_of u)) =
      Ok (256 * u_seq u + type_value (u_type u)) ∧
    drop (Z.to_nat (p + (blen (u_key u) + 8))) (entry_of u) = EncodeVarint32 (blen (u_value u)) ++ u_value u.
Proof.
  intros (Hs & Hk & Hv). pose proof (blen_nonneg (u_key u)).
  destruct (prefix_decode (blen (u_key u) + 8) (upd_ikey u ++ EncodeVarint32 (blen (u_value u)) ++ u_value u)) as [E1 E2];
    [unfold is_u32; lia|].
  eexists. cbv zeta. split; [exact E1|]. unfold entry_of. rewrite E2. clear E1 E2.
  generalize (EncodeVarint32 (blen (u_key u) + 8)) as len. intros len.
  generalize (EncodeVarint32 (blen (u_value u)) ++ u_value u) as tail. intros tail.
  unfold upd_ikey. rewrite ikey_app, <- app_assoc.
  pose proof (pack_add (u_seq u) (u_type u) Hs) as Hpack. pose proof (pack_u64 (u_seq u) (u_type u) Hs) as Hu64.
  split; [|split].
  - replace (blen (u_key u) + 8 - 8) with (blen (u_key u)) by lia.
    rewrite mem_read_ok; [|lia | done | rewrite !blen_app; change (blen (EncodeFixed64 _)) with 8; pose proof (blen_nonneg tail); unfold blen in *; lia].
    rewrite Nat2Z.id, drop_app_length. unfold blen. by rewrite Nat2Z.id, take_app_length.
  - replace (Z.to_nat (Z.of_nat (length len) + (blen (u_key u) + 8) - 8)) with (length (len ++ u_key u)).
    2: { rewrite length_app. unfold blen. lia. }
    rewrite (app_assoc len), drop_app_length, <- Hpack. by apply DecodeFixed64_Encode.
  - replace (Z.to_nat (Z.of_nat (length len) + (blen (u_key u) + 8))) with
      (length (len ++ u_key u ++ EncodeFixed64 (PackSequenceAndType (u_seq u) (u_type u)))).
    2: { rewrite !length_app. change (length (EncodeFixed64 _)) with 8%nat. unfold blen. lia. }
    generalize (EncodeFixed64 (PackSequenceAndType (u_seq u) (u_type u))) as tag. intros tag.
    replace (len ++ u_key u ++ tag ++ tail) with ((len ++ u_key u ++ tag) ++ tail) by (by rewrite <- !app_assoc). apply drop_app_length.
Qed.

(** The answer at the position of the lookup key. *)
Lemma Get_at es ups k s n :
  Forall upd_ok ups → es ≡ₚ map entry_of ups → sorted_keys entry_ord es →
  (∀ v w, v ∈ ups → w ∈ ups → u_seq v = u_seq w → v = w) → seq_ok s → blen k + 13 < 2 ^ 32 →
  let target := EncodeVarint32 (blen k + 8) ++ ikey k s kTypeValue in
  (∀ j e, (j < n)%nat → es !! j = Some e → entry_ord e target < 0) → (∀ e, es !! n = Some e → 0 ≤ entry_ord e target) →
  (n ≤ length es)%nat →
  match es !! n with
  | None => visible user k s ups = None
  | Some e => ∃ u, u ∈ ups ∧ e = entry_of u ∧
      visible user k s ups = if Compare user (u_key u) k =? 0 then Some u else None
  end.
Proof.
  intros Hups Hp Hsort Hinj Hs Hk target Hlo Hhi Hn. rewrite Forall_forall in Hups.
  assert (∀ j e, es !! j = Some e → ∃ u, u ∈ ups ∧ e = entry_of u) as Hent.
  { intros j e He%list_elem_of_lookup_2. rewrite Hp in He. apply list_elem_of_fmap in He as (u & -> & Hu). by exists u. }
  assert (∀ w, w ∈ ups → matches user k s w = true → ∃ j, (n ≤ j)%nat ∧ es !! j = Some (entry_of w)) as Hmatch.
  { intros w Hw [Hc Hle]%andb_true_iff. apply Z.eqb_eq in Hc. apply Z.leb_le in Hle.
    assert (entry_of w ∈ es) as [j Hj]%list_elem_of_lookup by (rewrite Hp; by apply list_elem_of_fmap_2).
    exists j. split; [|done]. destruct (decide (n ≤ j)%nat); [done|]. specialize (Hlo j _ ltac:(lia) Hj).
    apply (lookup_cmp w k s (Hups w Hw) Hs Hk) in Hlo. lia. }
  pose proof (visible_spec k s ups) as Hvs.
  destruct (es !! n) as [e|] eqn:He.
  - destruct (Hent n e He) as (u & Hu & ->). exists u. split; [done|]. split; [done|].
    pose proof (Hups u Hu) as Huok. specialize (Hhi _ eq_refl).
    assert (¬ entry_ord (entry_of u) target < 0) as Hge by lia. unfold target in Hge. rewrite lookup_cmp in Hge by done.
    assert (∀ w, w ∈ ups → matches user k s w = true → w = u ∨ entry_ord (entry_of u) (entry_of w) < 0) as Hafter.
    { intros w Hw Hm. destruct (Hmatch w Hw Hm) as (j & Hj & Ej). destruct (decide (j = n)) as [->|].
      - left. rewrite He in Ej. injection Ej as Ej. apply Hinj; [done | done|].
        pose proof (entry_cmp u w Huok (Hups w Hw)) as Hc. rewrite Ej in Hc.
        assert (entry_ord (entry_of w) (entry_of w) = 0) as H0.
        { pose proof (order_sgn (OrderLaws := entry_order) _ _ (entry_of_valid w (Hups w Hw)) (entry_of_valid w (Hups w Hw))). lia. }
        rewrite H0 in Hc. pose proof (type_value_range (u_type u)). pose proof (type_value_range (u_type w)).
        destruct (Z.eqb_spec (Compare user (u_key u) (u_key w)) 0); lia.
      - right. apply (Hsort n j); [lia | done | done]. }
    destruct (Z.eqb_spec (Compare user (u_key u) k) 0) as [E|E].
    + apply visible_unique; [done | done | |].
      * unfold matches. rewrite E. cbn [Z.eqb andb]. apply Z.leb_le. lia.
      * intros w Hw Hm. destruct (Hafter w Hw Hm) as [->|Hlt]; [done|].
        apply andb_true_iff in Hm as [Hc _]. apply Z.eqb_eq in Hc.
        assert (Compare user (u_key u) (u_key w) = 0) as Huw.
        { apply (compare_eq_trans any_key user _ k); try done. by apply (compare_zero any_key user). }
        pose proof (entry_cmp u w Huok (Hups w Hw)) as Hcmp. rewrite Huw in Hcmp. cbn [Z.eqb] in Hcmp.
        pose proof (type_value_range (u_type u)). pose proof (type_value_range (u_type w)). lia.
    + destruct (visible user k s ups) as [w|]; [|done]. exfalso. destruct Hvs as (Hw & Hm & _).
      destruct (Hafter w Hw Hm) as [->|Hlt]; apply andb_true_iff in Hm as [Hc _]; apply Z.eqb_eq in Hc; [done|].
      pose proof (entry_cmp u w Huok (Hups w Hw)) as Hcmp.
      assert (Compare user (u_key u) (u_key w) ≤ 0) by (destruct (Z.eqb_spec (Compare user (u_key u) (u_key w)) 0); lia).
      pose proof (compare_trans (u_key u) (u_key w) k I I I). lia.
  - apply lookup_ge_None in He. destruct (visible user k s ups) as [w|]; [|done]. destruct Hvs as (Hw & Hm & _).
    destruct (Hmatch w Hw Hm) as (j & Hj & Ej). apply lookup_lt_Some in Ej. lia.
Qed.

Lemma Get_spec m ups lk k s value st :
  holds m ups → Forall upd_ok ups → (∀ v w, v ∈ ups → w ∈ ups → u_seq v = u_seq w → v = w) →
  seq_ok s → blen k + 13 < 2 ^ 32 →
  LookupKey.memtable_key lk = EncodeVarint32 (blen k + 8) ++ ikey k s kTypeValue → LookupKey.user_key lk = k →
  Get user m lk value st = Ok (lookup_result (visible user k s ups) value st).
Proof.
  intros (es & Hrep & Hp) Hups Hinj Hs Hk Emem Euser. unfold Get. rewrite Emem, Euser.
  assert (entry_valid (EncodeVarint32 (blen k + 8) ++ ikey k s kTypeValue)) as Hvt.
  { eexists _, _. split; [by apply lookup_valid | apply ikey_ok_ikey]. }
  destruct (position_seek key_compare entry_valid entry_ord key_compare_ord (table_ m) es Hrep _ Hvt)
    as (n & -> & Hn & Hlo & Hhi). cbn [mbind outcome_bind].
  pose proof (Get_at es ups k s n Hups Hp (represents_sorted _ _ _ _ Hrep) Hinj Hs Hk Hlo Hhi Hn) as Hat.
  pose proof (represents_length _ _ _ _ Hrep) as Hl.
  destruct (SkipList.contents (table_ m) !! n) as [x|] eqn:Hx.
  - destruct (position_key _ _ _ _ Hrep n x Hx) as (e & Ee & He). rewrite He in Hat.
    destruct Hat as (u & Hu & -> & ->). unfold SkipList.it_Valid. rewrite bool_decide_true by done.
    cbn [SkipList.it_key]. rewrite Ee. cbn [mbind outcome_bind].
    assert (upd_ok u) as Huok by (rewrite Forall_forall in Hups; by apply Hups).
    destruct (entry_fields u Huok) as (rest & E1 & E2 & E3 & E4). rewrite E1. cbv zeta. rewrite E2.
    cbn [mbind outcome_bind]. destruct (Z.eqb_spec (Compare user (u_key u) k) 0); [|done].
    rewrite E3, E4. cbn [mbind outcome_bind]. rewrite (proj2 (entry_split u Huok)).
    rewrite land_255 by (pose proof (type_value_range (u_type u)); pose proof (proj1 Huok) as [? _]; lia).
    pose proof (type_value_range (u_type u)).
    replace ((256 * u_seq u + type_value (u_type u)) mod 256) with (type_value (u_type u)) by dlia.
    unfold lookup_result. by destruct (u_type u).
  - apply lookup_ge_None in Hx. destruct (es !! n) as [e|] eqn:He; [apply lookup_lt_Some in He; lia|].
    rewrite Hat. done.
Qed.

End order.

(** *** The iterator *)

Section cursor.
Context (user : Comparator) `{Huser : !ComparatorLaws any_key user} (m : memtable) (us : list upd)
  (Hus : Forall upd_ok us) (Hrep : represents entry_valid (entry_ord user) (table_ m) (map entry_of us)).
#[local] Notation icmp := (InternalKeyComparator.Compare user).

Definition row (u : upd) : entry := (upd_ikey u, u_value u).
Definition target_ok (t : list byte) : Prop := ikey_ok t ∧ is_u32 (blen t).
Definition at_pos (it : option nat) (pos : nat) : Prop :=
  it = SkipList.contents (table_ m) !! pos ∧ (pos ≤ length us)%nat.

Lemma table_length : length (SkipList.contents (table_ m)) = length us.
Proof. rewrite (represents_length _ _ _ _ Hrep). apply length_map. Qed.

Lemma table_node pos : (pos < length us)%nat →
  ∃ x u, SkipList.contents (table_ m) !! pos = Some x ∧ us !! pos = Some u ∧ upd_ok u ∧
    SkipList.it_key (table_ m) (Some x) = Ok (entry_of u).
Proof.
  intros Hpos. destruct (lookup_lt_is_Some_2 (SkipList.contents (table_ m)) pos) as [x Hx]; [by rewrite table_length|].
  destruct (lookup_lt_is_Some_2 us pos Hpos) as [u Hu].
  destruct (position_key _ _ _ _ Hrep pos x Hx) as (e & Ee & He).
  rewrite list_lookup_fmap, Hu in He. injection He as <-.
  exists x, u. split; [done|]. split; [done|]. split; [|done].
  rewrite Forall_forall in Hus. apply Hus. by eapply list_elem_of_lookup_2.
Qed.

Lemma row_below pos u t : us !! pos = Some u → upd_ok u → target_ok t →
  entry_ord user (entry_of u) (EncodeKey t) = icmp (upd_ikey u) t.
Proof.
  intros Hu Hok [Ht Hl]. unfold entry_ord. rewrite ekey_entry by done. f_equal. unfold ekey, EncodeKey.
  unfold PutVarint32. rewrite u32_small by done. cbn [app].
  rewrite <- (app_nil_r t) at 2. by rewrite prefixed_slice.
Qed.

Lemma seek_entry t : target_ok t → entry_valid (EncodeKey t).
Proof.
  intros [Ht Hl]. unfold entry_valid, EncodeKey. unfold PutVarint32. rewrite u32_small by done. cbn [app].
  exists t, []. split; [|done]. rewrite <- (app_nil_r t) at 2. by apply prefixed_slice.
Qed.

Lemma seek_at it t pos : at_pos it pos → target_ok t →
  ∃ it', SkipList.it_Seek (key_compare user) (table_ m) (EncodeKey t) = Ok it' ∧ at_pos it' (lower_bound icmp (map row us) t).
Proof.
  intros _ Ht.
  destruct (position_seek (key_compare user) entry_valid (entry_ord user) (key_compare_ord user) (table_ m) _ Hrep _
    (seek_entry t Ht)) as (n & E & Hn & Hlo & Hhi). rewrite length_map in Hn.
  exists (SkipList.contents (table_ m) !! n). split; [done|].
  assert (∀ i x, map row us !! i = Some x → ∃ u, us !! i = Some u ∧ x = row u ∧ upd_ok u) as Hrow.
  { intros i x Hx. rewrite list_lookup_fmap in Hx. apply fmap_Some in Hx as (u & Hu & ->). exists u. split; [done|]. split; [done|].
    rewrite Forall_forall in Hus. apply Hus. by eapply list_elem_of_lookup_2. }
  assert (n = lower_bound icmp (map row us) t) as <-; [|by split].
  apply lower_bound_unique; [by rewrite length_map| |].
  - intros i x Hi Hx. destruct (Hrow i x Hx) as (u & Hu & -> & Hok). cbn [row fst]. rewrite <- (row_below i u t Hu Hok Ht).
    apply (Hlo i); [done|]. by rewrite list_lookup_fmap, Hu.
  - intros x Hx. destruct (Hrow n x Hx) as (u & Hu & -> & Hok). cbn [row fst]. rewrite <- (row_below n u t Hu Hok Ht).
    apply Hhi. by rewrite list_lookup_fmap, Hu.
Qed.

#[export] Instance memtable_cursor : CursorLaws (iterator user m) icmp target_ok (map row us) at_pos.
Proof.
  split; intros it pos; rewrite ?length_map.
  - by intros [_ ?].
  - intros [-> Hpos]. unfold iterator. cbn [it_Valid]. unfold SkipList.it_Valid. apply bool_decide_ext.
    rewrite <- table_length, <- lookup_lt_is_Some. apply not_eq_None_Some.
  - intros e [-> Hpos] He. pose proof (lookup_lt_Some _ _ _ He) as Hlt. rewrite length_map in Hlt.
    destruct (table_node pos Hlt) as (x & u & Hx & Hu & Hok & E). rewrite list_lookup_fmap, Hu in He. injection He as <-.
    rewrite Hx. unfold iterator. cbn [it_key it_value row fst snd]. rewrite E. cbn [mbind outcome_bind].
    destruct (entry_split u Hok) as [-> E2]. cbn [mbind outcome_bind fst snd]. split; [done|]. by rewrite E2.
  - done.
  - intros op [-> Hpos]. destruct op; cbn [op_allowed spec_op run_op iterator it_SeekToFirst it_SeekToLast it_Next it_Prev it_Seek];
      rewrite ?length_map.
    + intros _. rewrite (position_first _ _ _ _ Hrep). eexists. split; [reflexivity|]. split; [done | lia].
    + intros _. rewrite (position_last _ _ _ _ Hrep), length_map. eexists. split; [reflexivity|]. split; [done | lia].
    + intros Hlt. destruct (table_node pos Hlt) as (x & u & Hx & _). rewrite Hx.
      rewrite (position_next _ _ _ _ Hrep pos x Hx). eexists. split; [reflexivity|]. split; [done | lia].
    + intros Hlt. destruct (table_node pos Hlt) as (x & u & Hx & _). rewrite Hx.
      rewrite (position_prev (key_compare user) _ _ (key_compare_ord user) _ _ Hrep pos x Hx). eexists. split; [reflexivity|].
      destruct (Nat.eqb_spec pos 0) as [->|]; [|split; [done | lia]].
      split; [|done]. symmetry. apply lookup_ge_None. by rewrite table_length.
    + intros Ht. by apply (seek_at (SkipList.contents (table_ m) !! pos) target pos).
Qed.

Lemma rows_sorted : sorted_entries icmp (map row us).
Proof.
  intros i j x y Hij Hx Hy. rewrite list_lookup_fmap in Hx, Hy. apply fmap_Some in Hx as (u & Hu & ->).
  apply fmap_Some in Hy as (v & Hv & ->). rewrite Forall_forall in Hus. cbn [row fst].
  rewrite <- (ekey_entry u), <- (ekey_entry v) by (apply Hus; by eapply list_elem_of_lookup_2).
  apply (represents_sorted _ _ _ _ Hrep i j); [done| |]; rewrite list_lookup_fmap.
  - by rewrite Hu.
  - by rewrite Hv.
Qed.

End cursor.

Lemma map_injective_NoDup {A B} (f : A → B) l : NoDup (map f l) → ∀ v w, v ∈ l → w ∈ l → f v = f w → v = w.
Proof.
  induction l as [|a l IH]; cbn [map]; [by intros _ v w Hv%elem_of_nil|]. intros [Ha Hl]%NoDup_cons v w.
  rewrite !elem_of_cons. intros [->|Hv] [->|Hw] E; [done | | |by apply IH].
  - destruct Ha. rewrite E. by apply list_elem_of_fmap_2.
  - destruct Ha. rewrite <- E. by apply list_elem_of_fmap_2.
Qed.

(** ** Properties *)

(** C14: The memtable answers with the newest visible update.  After any calls of [Add]
    with different sequence numbers, [Get] with a lookup key for user key [k] and
    snapshot [s] finds the value of the update with the greatest sequence number among
    those of [k] not above [s], reports a deletion as NotFound, and reports nothing when
    there is none; and the iterator of the table is a cursor on all updates in the order
    of internal keys. *)
Theorem memtable_get (user : Comparator) (Huser : ComparatorLaws any_key user) (junk fresh : Z → list byte)
    (Hjunk : ∀ n, 0 ≤ n → blen (junk n) = n) (Hfresh : ∀ n, 0 ≤ n → blen (fresh n) = n)
    (addr : Z) (Haddr : addr mod 8 = 0) (calls : list (Z * Z * upd)) (Hcalls : Forall call_ok calls)
    (Hseq : NoDup (map u_seq (map snd calls))) :
  let ups := map snd calls in
  let icmp := InternalKeyComparator.Compare user in
  ∃ m0 m, MemTable.new addr = Ok m0 ∧ add_all user junk m0 calls = Ok m ∧
    (∀ k s value st, seq_ok s → blen k + 13 < 2 ^ 32 →
      ∃ lk, LookupKey.new fresh k s = Ok lk ∧
        MemTable.Get user m lk value st = Ok (lookup_result (visible user k s ups) value st)) ∧
    ∃ us, us ≡ₚ ups ∧ sorted_entries icmp (map row us) ∧
      ∀ ops, ops_allowed icmp target_ok (map row us) (length us) ops →
        let pos := foldl (spec_op icmp (map row us)) (length us) ops in
        ∃ it, run_ops (MemTable.iterator user m) None ops = Ok it ∧
          it_Valid (MemTable.iterator user m) it = bool_decide (pos < length us)%nat ∧
          ∀ u, us !! pos = Some u →
            it_key (MemTable.iterator user m) it = Ok (upd_ikey u) ∧
            it_value (MemTable.iterator user m) it = Ok (u_value u).
Proof.
  cbv zeta. destruct (new_holds user addr Haddr) as (m0 & E0 & H0).
  destruct (add_all_holds user junk calls Hjunk Hcalls m0 [] H0) as (m & E & Hm); [done | done|]. cbn [app] in Hm.
  assert (Forall upd_ok (map snd calls)) as Hups.
  { apply Forall_fmap. eapply Forall_impl; [exact Hcalls|]. by intros c [_ ?]. }
  exists m0, m. split; [done|]. split; [done|]. split.
  { intros k s value st Hs Hk. destruct (lookup_key_new fresh k s Hfresh Hk) as (lk & El & E1 & _ & E2).
    exists lk. split; [done|]. apply Get_spec; try done. by apply map_injective_NoDup. }
  destruct Hm as (es & Hrep & Hp). apply Permutation_map_inv in Hp as (us & -> & Hp).
  exists us. split; [by rewrite Hp|]. assert (Forall upd_ok us) as Hus by (by rewrite <- Hp).
  split; [by apply (rows_sorted user m)|]. intros ops Hops.
  assert (at_pos m us None (length us)) as Hat.
  { split; [|done]. symmetry. apply lookup_ge_None. by rewrite (table_length user m us Hrep). }
  pose proof (memtable_cursor user m us Hus Hrep) as HC.
  destruct (cursor_observed (iterator user m) _ target_ok (map row us) (at_pos m us) ops None (length us) Hat Hops)
    as (it & Er & _ & Hv & Hkv). rewrite length_map in Hv. exists it. split; [done|]. split; [done|].
  intros u Hu. apply Hkv. by rewrite list_lookup_fmap, Hu.
Qed.

Definition demo_user : Comparator := BytewiseComparator.
Definition demo_calls : list (Z * Z * upd) :=
  [(1000, 8000, mkUpd 1 kTypeValue [z2b 98] [z2b 1]); (2000, 16000, mkUpd 2 kTypeValue [z2b 97] [z2b 2]);
   (3000, 24000, mkUpd 3 kTypeDeletion [z2b 98] [])].
Definition zeros (n : Z) : list byte := replicate (Z.to_nat n) (z2b 0).

Lemma memtable_get_witness :
  ∃ m0 m, MemTable.new 4096 = Ok m0 ∧ add_all demo_user zeros m0 demo_calls = Ok m ∧
    (∃ lk, LookupKey.new zeros [z2b 98] 2 = Ok lk ∧ MemTable.Get demo_user m lk [] status_ok = Ok (true, [z2b 1], status_ok)) ∧
    (∃ lk, LookupKey.new zeros [z2b 98] 3 = Ok lk ∧ MemTable.Get demo_user m lk [] status_ok = Ok (true, [], NotFound [])).
Proof.
  destruct (memtable_get demo_user bytewise_laws zeros zeros
    ltac:(intros n Hn; unfold zeros; rewrite blen_replicate; lia) ltac:(intros n Hn; unfold zeros; rewrite blen_replicate; lia)
    4096 eq_refl demo_calls) as (m0 & m & E0 & E & HG & _).
  - repeat constructor; vm_compute; congruence.
  - apply (bool_decide_unpack _). vm_compute. reflexivity.
  - exists m0, m. split; [exact E0|]. split; [exact E|]. split.
    + destruct (HG [z2b 98] 2 [] status_ok) as (lk & El & Eg); [split; vm_compute; congruence | vm_compute; reflexivity|].
      exists lk. split; [exact El|]. rewrite Eg. vm_compute. reflexivity.
    + destruct (HG [z2b 98] 3 [] status_ok) as (lk & El & Eg); [split; vm_compute; congruence | vm_compute; reflexivity|].
      exists lk. split; [exact El|]. rewrite Eg. vm_compute. reflexivity.
Defined.
