(* ===== verification/Iterators.v ===== *)
(** * table/iterator.cc and table/iterator_wrapper.h: parts of every iterator

    The cleanup functions every iterator carries, the empty iterator, and the wrapper
    that caches the validity and the key of an iterator.  The wrapper is shown to stay
    in step with the iterator inside it. *)
From S2P Require Import Prelude.
From S2P Require Import Status.
From S2P Require Import Interfaces.
From S2P Require Import Cursor.

(** ** Definitions *)

(** [Iterator::cleanup_]: the first function is stored in the member, the others in a
    list behind it.  [F] stands for a function with its two arguments. *)
Module Cleanup.
Record cleanups {F : Type} := mkCleanups { function : option F; next : list F }.
Arguments cleanups : clear implicits.

Definition new {F} : cleanups F := mkCleanups F None [].
Definition RegisterCleanup {F} (c : cleanups F) (func : F) : cleanups F :=
  match function c with
  | None => mkCleanups F (Some func) (next c)
  | Some f => mkCleanups F (Some f) (func :: next c)
  end.
(** The calls of the destructor, in order. *)
Definition destroy {F} (c : cleanups F) : list F :=
  match function c with Some f => f :: next c | None => [] end.
End Cleanup.

(** [EmptyIterator]; the state is [status_]. *)
Definition EmptyIterator : IteratorOps status :=
  mkIterator (λ _, false) (λ _, Ub AssertionFailed) (λ _, Ub AssertionFailed) (λ st, Ok st)
    (λ _, Ub AssertionFailed) (λ _, Ub AssertionFailed) (λ st _, Ok st) (λ st, Ok st) (λ st, Ok st).
Definition NewEmptyIterator : status := status_ok.
Definition NewErrorIterator (st : status) : status := st.

(** [IteratorWrapper] of an iterator with state [S]. *)
Module IteratorWrapper.
Section IteratorWrapper.
Context {S : Type}.

Record wrapper := mkWrapper { iter_ : option S; valid_ : bool; key_ : list byte }.

Definition new : wrapper := mkWrapper None false [].
Definition Update (I : IteratorOps S) (it : S) (old : list byte) : outcome wrapper :=
  if it_Valid I it then k ← it_key I it; Ok (mkWrapper (Some it) true k)
  else Ok (mkWrapper (Some it) false old).
Definition Set_ (I : IteratorOps S) (iter : option S) (w : wrapper) : outcome wrapper :=
  match iter with
  | None => Ok (mkWrapper None false (key_ w))
  | Some it => Update I it (key_ w)
  end.

Definition Valid (w : wrapper) : bool := valid_ w.
Definition key (w : wrapper) : outcome (list byte) := if Valid w then Ok (key_ w) else Ub AssertionFailed.
Definition value (I : IteratorOps S) (w : wrapper) : outcome (list byte) :=
  if Valid w then match iter_ w with Some it => it_value I it | None => Ub NullDeref end
  else Ub AssertionFailed.
Definition wrapper_status (I : IteratorOps S) (w : wrapper) : outcome status :=
  match iter_ w with Some it => it_status I it | None => Ub AssertionFailed end.
(** [Next], [Prev], [Seek], [SeekToFirst] and [SeekToLast]. *)
Definition move (I : IteratorOps S) (op : cursor_op) (w : wrapper) : outcome wrapper :=
  match iter_ w with
  | None => Ub AssertionFailed
  | Some it => it ← run_op I it op; Update I it (key_ w)
  end.
End IteratorWrapper.
Arguments wrapper : clear implicits.
End IteratorWrapper.

(** ** Lemmas *)

(** *** Cleanup functions *)

(** Every registered function is called once; the first one is called first. *)
Lemma cleanup_all {F} (fs : list F) :
  Cleanup.destroy (foldl Cleanup.RegisterCleanup Cleanup.new fs) =
  match fs with [] => [] | f :: fs => f :: rev fs end.
Proof.
  destruct fs as [|f fs]; [done|]. simpl. change (Cleanup.RegisterCleanup _ f) with (Cleanup.mkCleanups F (Some f) []).
  rewrite <- (app_nil_r (rev fs)). generalize (@nil F) as l. induction fs as [|g fs IH]; intros l; [done|].
  simpl. unfold Cleanup.RegisterCleanup at 2. simpl. by rewrite IH, <- app_assoc.
Qed.

(** *** The empty iterator is a cursor on no entries *)

#[export] Instance empty_cursor ord target_ok :
  CursorLaws EmptyIterator ord target_ok [] (λ st pos, st = status_ok ∧ pos = 0%nat).
Proof.
  split; intros it pos; cbn [length].
  - intros [_ ->]. lia.
  - intros [_ ->]. done.
  - intros e [_ ->]. done.
  - by intros [-> _].
  - intros op [-> ->] Hop. destruct op; cbn in *; try lia; by exists status_ok.
Qed.

(** *** The wrapper follows its iterator *)

Section wrapper.
Context {S : Type} (I : IteratorOps S) (ord : list byte → list byte → Z) (target_ok : list byte → Prop)
  (es : list entry) (shows : S → nat → Prop) `{!CursorLaws I ord target_ok es shows}.

(** The cached fields agree with the iterator at [pos]. *)
Definition in_step (w : IteratorWrapper.wrapper S) (pos : nat) : Prop :=
  ∃ it, IteratorWrapper.iter_ w = Some it ∧ shows it pos ∧
    IteratorWrapper.valid_ w = bool_decide (pos < length es)%nat ∧
    ∀ e, es !! pos = Some e → IteratorWrapper.key_ w = e.1.

Lemma Update_in_step it pos old :
  shows it pos → ∃ w, IteratorWrapper.Update I it old = Ok w ∧ in_step w pos.
Proof.
  intros Hs. unfold IteratorWrapper.Update. rewrite (cursor_valid it pos Hs). case_bool_decide as Hp.
  - destruct (lookup_lt_is_Some_2 es pos Hp) as [e He]. destruct (cursor_entry it pos e Hs He) as [-> _].
    cbn [mbind outcome_bind]. eexists. split; [done|]. exists it. cbn. rewrite bool_decide_true by done.
    split_and!; try done. intros e' He'. rewrite He in He'. by injection He' as <-.
  - eexists. split; [done|]. exists it. cbn. rewrite bool_decide_false by done. split_and!; try done.
    intros e He. by apply lookup_lt_Some in He.
Qed.

Lemma move_in_step w pos op :
  in_step w pos → op_allowed target_ok es pos op →
  ∃ w', IteratorWrapper.move I op w = Ok w' ∧ in_step w' (spec_op ord es pos op).
Proof.
  intros (it & E & Hs & _) Hop. unfold IteratorWrapper.move. rewrite E.
  destruct (cursor_step it pos op Hs Hop) as (it' & -> & Hs'). by apply Update_in_step.
Qed.

Lemma in_step_valid w pos : in_step w pos → IteratorWrapper.Valid w = bool_decide (pos < length es)%nat.
Proof. by intros (it & _ & _ & ? & _). Qed.

Lemma in_step_entry w pos e : in_step w pos → es !! pos = Some e →
  IteratorWrapper.key w = Ok e.1 ∧ IteratorWrapper.value I w = Ok e.2.
Proof.
  intros (it & E & Hs & Hv & Hk) He. unfold IteratorWrapper.key, IteratorWrapper.value, IteratorWrapper.Valid.
  rewrite Hv, bool_decide_true by (by eapply lookup_lt_Some). rewrite E, (Hk e He).
  by destruct (cursor_entry it pos e Hs He) as [_ ->].
Qed.

Lemma in_step_status w pos : in_step w pos → IteratorWrapper.wrapper_status I w = Ok status_ok.
Proof.
  intros (it & E & Hs & _). unfold IteratorWrapper.wrapper_status. rewrite E. by eapply cursor_status.
Qed.

Lemma in_step_le w pos : in_step w pos → (pos ≤ length es)%nat.
Proof. intros (it & _ & Hs & _). by eapply cursor_pos. Qed.

End wrapper.
