(* ===== verification/Merger.v ===== *)
(** * table/merger.cc: the merging iterator

    The union of the entries of several iterators, kept as one array of wrappers, the
    index of the wrapper at the current entry and the direction of the last move.  The
    children are iterators with states of one type [S]; [child i] is the virtual table
    of the [i]-th one.  The merging iterator is shown to keep the contract of iterators
    when its children do. *)
From S2P Require Import Prelude.
From S2P Require Import Status.
From S2P Require Import Interfaces.
From S2P Require Import Comparator.
From S2P Require Import Cursor.
From S2P Require Import Iterators.
From Stdlib Require Import Sorting.Sorted.
From stdpp Require sorting.

(** ** Definitions *)

Module Merging.
Import IteratorWrapper.

Inductive Direction := kForward | kReverse.
#[export] Instance Direction_eq_dec : EqDecision Direction.
Proof. solve_decision. Defined.

Section Merging.
Context {S : Type} (comparator_ : Comparator) (child : nat → IteratorOps S).

(** [current_] is the index of a wrapper; [n_] is the length of [children_]. *)
Record merging := mkMerging {
  children_ : list (wrapper S);
  current_ : option nat;
  direction_ : Direction
}.
Definition n_ (m : merging) : nat := length (children_ m).

Definition get (ch : list (wrapper S)) (i : nat) : outcome (wrapper S) :=
  match ch !! i with Some w => Ok w | None => Ub OutOfBounds end.
Definition get_key (ch : list (wrapper S)) (i : nat) : outcome (list byte) := w ← get ch i; key w.
(** A move of the child [i]. *)
Definition move_child (op : cursor_op) (i : nat) (ch : list (wrapper S)) : outcome (list (wrapper S)) :=
  w ← get ch i; w ← move (child i) op w; Ok (<[i := w]> ch).

(** The constructor. *)
Definition set_child (children : list S) (i : nat) (ch : list (wrapper S)) : outcome (list (wrapper S)) :=
  w ← get ch i; w ← Set_ (child i) (children !! i) w; Ok (<[i := w]> ch).
Definition new_merging (children : list S) : outcome merging :=
  ch ← for_loop (set_child children) (seq 0 (length children)) (replicate (length children) new);
  Ok (mkMerging ch None kForward).

Definition Valid (m : merging) : bool := bool_decide (current_ m ≠ None).

(** The loops of [FindSmallest] and [FindLargest] over the indices [l]. *)
Fixpoint find_loop (better : Z → bool) (ch : list (wrapper S)) (l : list nat) (best : option nat) : outcome (option nat) :=
  match l with
  | [] => Ok best
  | i :: l =>
      w ← get ch i;
      if IteratorWrapper.Valid w then
        match best with
        | None => find_loop better ch l (Some i)
        | Some b =>
            k ← key w;
            bk ← get_key ch b;
            find_loop better ch l (if better (Compare comparator_ k bk) then Some i else Some b)
        end
      else find_loop better ch l best
  end.
Definition FindSmallest (m : merging) : outcome merging :=
  current ← find_loop (λ r, r <? 0) (children_ m) (seq 0 (n_ m)) None;
  Ok (mkMerging (children_ m) current (direction_ m)).
Definition FindLargest (m : merging) : outcome merging :=
  current ← find_loop (λ r, 0 <? r) (children_ m) (rev (seq 0 (n_ m))) None;
  Ok (mkMerging (children_ m) current (direction_ m)).

Definition move_all (op : cursor_op) (m : merging) : outcome merging :=
  ch ← for_loop (move_child op) (seq 0 (n_ m)) (children_ m);
  Ok (mkMerging ch (current_ m) (direction_ m)).
Definition set_direction (d : Direction) (m : merging) : merging := mkMerging (children_ m) (current_ m) d.

Definition SeekToFirst (m : merging) : outcome merging :=
  m ← move_all OpFirst m; m ← FindSmallest m; Ok (set_direction kForward m).
Definition SeekToLast (m : merging) : outcome merging :=
  m ← move_all OpLast m; m ← FindLargest m; Ok (set_direction kReverse m).
Definition Seek (m : merging) (target : list byte) : outcome merging :=
  m ← move_all (OpSeek target) m; m ← FindSmallest m; Ok (set_direction kForward m).

(** The bodies of the loops that turn the children around. *)
Definition turn_forward (current i : nat) (ch : list (wrapper S)) : outcome (list (wrapper S)) :=
  if (i =? current)%nat then Ok ch
  else
    k ← get_key ch current;
    ch ← move_child (OpSeek k) i ch;
    w ← get ch i;
    if IteratorWrapper.Valid w then
      k ← get_key ch current;
      wk ← key w;
      if Compare comparator_ k wk =? 0 then move_child OpNext i ch else Ok ch
    else Ok ch.
Definition turn_reverse (current i : nat) (ch : list (wrapper S)) : outcome (list (wrapper S)) :=
  if (i =? current)%nat then Ok ch
  else
    k ← get_key ch current;
    ch ← move_child (OpSeek k) i ch;
    w ← get ch i;
    if IteratorWrapper.Valid w then move_child OpPrev i ch else move_child OpLast i ch.

Definition Next (m : merging) : outcome merging :=
  match current_ m with
  | None => Ub AssertionFailed
  | Some c =>
      ch ← (if bool_decide (direction_ m = kForward) then Ok (children_ m)
            else for_loop (turn_forward c) (seq 0 (n_ m)) (children_ m));
      ch ← move_child OpNext c ch;
      FindSmallest (mkMerging ch (Some c) kForward)
  end.
Definition Prev (m : merging) : outcome merging :=
  match current_ m with
  | None => Ub AssertionFailed
  | Some c =>
      ch ← (if bool_decide (direction_ m = kReverse) then Ok (children_ m)
            else for_loop (turn_reverse c) (seq 0 (n_ m)) (children_ m));
      ch ← move_child OpPrev c ch;
      FindLargest (mkMerging ch (Some c) kReverse)
  end.

Definition merging_key (m : merging) : outcome (list byte) :=
  match current_ m with None => Ub AssertionFailed | Some c => get_key (children_ m) c end.
Definition merging_value (m : merging) : outcome (list byte) :=
  match current_ m with
  | None => Ub AssertionFailed
  | Some c => w ← get (children_ m) c; value (child c) w
  end.

Fixpoint status_loop (i : nat) (ws : list (wrapper S)) (st : status) : outcome status :=
  match ws with
  | [] => Ok st
  | w :: ws => st ← wrapper_status (child i) w; if ok st then status_loop (Datatypes.S i) ws st else Ok st
  end.
Definition merging_status (m : merging) : outcome status := status_loop 0 (children_ m) status_ok.

Definition MergingIterator : IteratorOps merging :=
  mkIterator Valid merging_key merging_value merging_status Next Prev Seek SeekToFirst SeekToLast.

(** *** NewMergingIterator: no child, one child, or a merging iterator *)

Inductive merged := MEmpty (it : status) | MOne (it : S) | MMany (it : merging).

Definition NewMergingIterator (list : list S) : outcome merged :=
  match list with
  | [] => Ok (MEmpty NewEmptyIterator)
  | [it] => Ok (MOne it)
  | _ => m ← new_merging list; Ok (MMany m)
  end.

(** The virtual table of the result. *)
Definition merged_iterator : IteratorOps merged :=
  let move op it :=
    match it with
    | MEmpty it => it ← run_op EmptyIterator it op; Ok (MEmpty it)
    | MOne it => it ← run_op (child 0) it op; Ok (MOne it)
    | MMany it => it ← run_op MergingIterator it op; Ok (MMany it)
    end in
  let get {A} (f : ∀ T, IteratorOps T → T → A) it :=
    match it with
    | MEmpty it => f _ EmptyIterator it
    | MOne it => f _ (child 0) it
    | MMany it => f _ MergingIterator it
    end in
  mkIterator (get (λ T, it_Valid)) (get (λ T, it_key)) (get (λ T, it_value)) (get (λ T, it_status))
    (move OpNext) (move OpPrev) (λ it target, move (OpSeek target) it) (move OpFirst) (move OpLast).

End Merging.
End Merging.

Import IteratorWrapper Merging.

(** ** Lemmas *)

Section proof.
Context {S : Type} (cmp : Comparator) (child : nat → IteratorOps S) (target_ok : list byte → Prop)
  `{HO : !OrderLaws target_ok (Compare cmp)} (n : nat) (tagged : list (nat * entry)) (shows : nat → S → nat → Prop).
#[local] Notation ord := (Compare cmp).

(** [tagged] are the entries of all children in order, each with its child. *)
Definition part (i : nat) : list entry := map snd (filter (λ x, x.1 = i) tagged).
#[local] Notation es := (map snd tagged).

Context (Hchild : ∀ i, (i < n)%nat → CursorLaws (child i) ord target_ok (part i) (shows i))
  (Htags : ∀ x, x ∈ tagged → (x.1 < n)%nat) (Hsort : sorted_entries ord es) (Hkeys : ∀ x, x ∈ tagged → target_ok x.2.1).

(** *** Positions of the children around a position in the union *)

(** How many of the first [r] entries belong to child [i], and the entry before. *)
Definition cut (i r : nat) : nat := count (λ x, x.1 = i) tagged r.
Definition back (i q : nat) : nat := if (q =? 0)%nat then length (part i) else pred q.

Lemma cut_0 i : cut i 0 = 0%nat.
Proof. done. Qed.
Lemma cut_all i : cut i (length tagged) = length (part i).
Proof. unfold cut, part. by rewrite count_all, length_map. Qed.
Lemma cut_le i r : (cut i r ≤ length (part i))%nat.
Proof. unfold part. rewrite length_map. apply count_le. Qed.
Lemma cut_S i r c e : tagged !! r = Some (c, e) →
  cut i (Datatypes.S r) = (cut i r + if (i =? c)%nat then 1 else 0)%nat.
Proof.
  intros Hr. unfold cut. rewrite (count_S _ _ _ _ Hr). f_equal. cbn [fst].
  destruct (Nat.eqb_spec i c) as [->|]; [by rewrite decide_True | by rewrite decide_False].
Qed.

Lemma cut_at r c e : tagged !! r = Some (c, e) → part c !! cut c r = Some e.
Proof. intros Hr. unfold part, cut. by rewrite list_lookup_fmap, (count_at (λ x, x.1 = c) tagged r (c, e) Hr eq_refl). Qed.

Lemma part_elem i j e : part i !! j = Some e → filter (λ x, x.1 = i) tagged !! j = Some (i, e).
Proof.
  intros Hj. unfold part in Hj. rewrite list_lookup_fmap in Hj. apply fmap_Some in Hj as ([i' e'] & Hj & ->). rewrite Hj.
  apply list_elem_of_lookup_2, list_elem_of_filter in Hj as [Hi _]. cbn in Hi. by subst.
Qed.

Lemma part_before i r j e : part i !! j = Some e → (j < cut i r)%nat → ∃ m, (m < r)%nat ∧ tagged !! m = Some (i, e).
Proof. intros Hj%part_elem. by apply count_before. Qed.

Lemma part_after i r j e : part i !! j = Some e → (cut i r ≤ j)%nat → ∃ m, (r ≤ m)%nat ∧ tagged !! m = Some (i, e).
Proof. intros Hj%part_elem. by apply count_after. Qed.

Lemma tagged_sorted r m x y : (r < m)%nat → tagged !! r = Some x → tagged !! m = Some y → ord x.2.1 y.2.1 < 0.
Proof. intros Hrm Hx Hy. apply (Hsort r m); [done | |]; by rewrite list_lookup_fmap, ?Hx, ?Hy. Qed.

Lemma tagged_key r x : tagged !! r = Some x → target_ok x.2.1.
Proof. intros Hx. apply Hkeys. by eapply list_elem_of_lookup_2. Qed.

(** A target splits the children where it splits the union. *)
Lemma cut_bound i t : target_ok t → cut i (lower_bound ord es t) = lower_bound ord (part i) t.
Proof.
  intros Ht. apply lower_bound_unique; [apply cut_le | |].
  - intros j x Hj Hx. destruct (part_before i _ j x Hx Hj) as (m & Hm & Em).
    apply (lower_bound_below ord es t m); [done|]. by rewrite list_lookup_fmap, Em.
  - intros x Hx. destruct (part_after i _ _ x Hx (le_n _)) as (m & Hm & Em).
    destruct (es !! lower_bound ord es t) as [y|] eqn:Hy.
    + pose proof (lower_bound_at ord es t y Hy) as Hge. destruct (decide (m = lower_bound ord es t)) as [->|Hne].
      { rewrite list_lookup_fmap, Em in Hy. by injection Hy as <-. }
      rewrite list_lookup_fmap in Hy. apply fmap_Some in Hy as (z & Hz & ->).
      assert (lower_bound ord es t < m)%nat as Hlm by lia. pose proof (tagged_sorted _ m z (i, x) Hlm Hz Em) as Hlt. cbn [snd] in Hlt.
      destruct (Z.lt_ge_cases (ord x.1 t) 0) as [Hxt|]; [|done].
      pose proof (order_lt_le target_ok ord z.2.1 x.1 t (tagged_key _ _ Hz) (tagged_key _ _ Em) Ht Hlt). lia.
    + apply lookup_ge_None in Hy. apply lookup_lt_Some in Em. rewrite length_map in Hy. lia.
Qed.

Lemma bound_at r x : tagged !! r = Some x → lower_bound ord es x.2.1 = r.
Proof.
  intros Hx. symmetry. apply lower_bound_unique.
  - rewrite length_map. apply lookup_lt_Some in Hx. lia.
  - intros i y Hi Hy. rewrite list_lookup_fmap in Hy. apply fmap_Some in Hy as (z & Hz & ->). by apply (tagged_sorted i r).
  - intros y Hy. rewrite list_lookup_fmap, Hx in Hy. injection Hy as <-.
    pose proof (order_sgn (OrderLaws := HO) _ _ (tagged_key _ _ Hx) (tagged_key _ _ Hx)). lia.
Qed.

Lemma cut_key i r x : tagged !! r = Some x → lower_bound ord (part i) x.2.1 = cut i r.
Proof. intros Hx. rewrite <- cut_bound by (by eapply tagged_key). by rewrite (bound_at r x). Qed.

(** *** Wrappers in step *)

Definition at_ps (ch : list (wrapper S)) (ps : nat → nat) : Prop :=
  length ch = n ∧ ∀ i w, ch !! i = Some w → in_step (part i) (shows i) w (ps i).

Lemma at_ps_ext ch ps ps' : (∀ i, (i < n)%nat → ps i = ps' i) → at_ps ch ps → at_ps ch ps'.
Proof.
  intros Hps [Hl H]. split; [done|]. intros i w Hw. rewrite <- Hps; [by apply H|]. rewrite <- Hl. by eapply lookup_lt_Some.
Qed.

Lemma at_get ch ps i : at_ps ch ps → (i < n)%nat →
  ∃ w, get ch i = Ok w ∧ ch !! i = Some w ∧ in_step (part i) (shows i) w (ps i).
Proof.
  intros [Hl H] Hi. rewrite <- Hl in Hi. destruct (lookup_lt_is_Some_2 ch i Hi) as [w Hw].
  exists w. unfold get. rewrite Hw. split_and!; [done | done | by apply H].
Qed.

Lemma at_key ch ps i e : at_ps ch ps → (i < n)%nat → part i !! ps i = Some e → get_key ch i = Ok e.1.
Proof.
  intros Ha Hi He. destruct (at_get ch ps i Ha Hi) as (w & E & _ & Hs). unfold get_key. rewrite E. cbn [mbind outcome_bind].
  pose proof (Hchild i Hi). by destruct (in_step_entry _ _ _ _ _ w _ e Hs He).
Qed.

Definition set_pos (ps : nat → nat) (i p : nat) : nat → nat := λ j, if (j =? i)%nat then p else ps j.

Lemma at_set ch ps i w p : at_ps ch ps → in_step (part i) (shows i) w p → at_ps (<[i := w]> ch) (set_pos ps i p).
Proof.
  intros [Hl H] Hw. split; [by rewrite length_insert|]. intros j x Hx. unfold set_pos.
  destruct (Nat.eqb_spec j i) as [->|Hne].
  - apply list_lookup_insert_Some in Hx as [(_ & -> & _)|[? _]]; done.
  - rewrite list_lookup_insert_ne in Hx by done. by apply H.
Qed.

Lemma move_child_spec op ch ps i : at_ps ch ps → (i < n)%nat → op_allowed target_ok (part i) (ps i) op →
  ∃ ch', move_child child op i ch = Ok ch' ∧ at_ps ch' (set_pos ps i (spec_op ord (part i) (ps i) op)).
Proof.
  intros Ha Hi Hop. destruct (at_get ch ps i Ha Hi) as (w & E & _ & Hs). unfold move_child. rewrite E. cbn [mbind outcome_bind].
  pose proof (Hchild i Hi). destruct (move_in_step (child i) ord target_ok (part i) (shows i) w (ps i) op Hs Hop) as (w' & -> & Hs').
  eexists. split; [done|]. by apply at_set.
Qed.

(** *** Choosing the current child *)

Lemma find_loop_best better ch ps c ec :
  at_ps ch ps → (c < n)%nat → part c !! ps c = Some ec →
  (∀ i e, (i < n)%nat → i ≠ c → part i !! ps i = Some e → better (ord e.1 ec.1) = false ∧ better (ord ec.1 e.1) = true) →
  ∀ l best, (∀ i, i ∈ l → (i < n)%nat) → (c ∈ l ∨ best = Some c) →
    match best with None => True | Some b => (b < n)%nat ∧ is_Some (part b !! ps b) end →
    find_loop cmp better ch l best = Ok (Some c).
Proof.
  intros Ha Hc Hec Hbest l. induction l as [|i l IH]; intros best Hl Hin Hb.
  { destruct Hin as [?%elem_of_nil| ->]; done. }
  assert (i < n)%nat as Hi by (apply Hl; by left).
  assert (∀ j, j ∈ l → (j < n)%nat) as Hl' by (intros j Hj; apply Hl; by right).
  destruct (at_get ch ps i Ha Hi) as (w & E & _ & Hs). cbn [find_loop]. rewrite E. cbn [mbind outcome_bind].
  rewrite (in_step_valid _ _ _ _ Hs). case_bool_decide as Hv.
  - destruct (lookup_lt_is_Some_2 _ _ Hv) as [e He].
    destruct best as [b|].
    + destruct Hb as [Hb [eb Heb]]. pose proof (Hchild i Hi).
      destruct (in_step_entry (child i) ord target_ok (part i) (shows i) w _ e Hs He) as [-> _]. cbn [mbind outcome_bind].
      rewrite (at_key ch ps b eb Ha Hb Heb). cbn [mbind outcome_bind].
      destruct (decide (i = c)) as [->|Hic].
      * rewrite Hec in He. injection He as <-. destruct (decide (b = c)) as [->|Hbc].
        { destruct (better _); apply IH; eauto. }
        destruct (Hbest b eb Hb Hbc Heb) as [_ ->]. apply IH; eauto.
      * destruct (decide (b = c)) as [->|Hbc].
        { rewrite Hec in Heb. injection Heb as <-. destruct (Hbest i e Hi Hic He) as [-> _]. apply IH; eauto. }
        assert (c ∈ l) as Hcl by (destruct Hin as [[->|?]%elem_of_cons|[= ->]]; done).
        destruct (better _); apply IH; eauto.
    + apply IH; [done | | by eauto]. destruct Hin as [[->|?]%elem_of_cons|?]; [by right | by left | done].
  - apply IH; [done | | done]. destruct Hin as [[->|?]%elem_of_cons| ->]; [| by left | by right].
    destruct Hv. by eapply lookup_lt_Some.
Qed.

Lemma find_loop_none better ch ps : at_ps ch ps → (∀ i, (i < n)%nat → part i !! ps i = None) →
  ∀ l, (∀ i, i ∈ l → (i < n)%nat) → find_loop cmp better ch l None = Ok None.
Proof.
  intros Ha Hno l. induction l as [|i l IH]; intros Hl; [done|].
  assert (i < n)%nat as Hi by (apply Hl; by left).
  destruct (at_get ch ps i Ha Hi) as (w & E & _ & Hs). cbn [find_loop]. rewrite E. cbn [mbind outcome_bind].
  rewrite (in_step_valid _ _ _ _ Hs), bool_decide_false; [apply IH; intros j Hj; apply Hl; by right|].
  rewrite <- lookup_lt_is_Some, (Hno i Hi). by intros [? ?].
Qed.

Lemma in_range i : i ∈ seq 0 n → (i < n)%nat.
Proof. rewrite elem_of_seq. lia. Qed.

Lemma in_rev_range i : i ∈ rev (seq 0 n) ↔ (i < n)%nat.
Proof. rewrite list_elem_of_In, <- in_rev, <- list_elem_of_In, elem_of_seq. lia. Qed.

Lemma smallest_spec ch r : at_ps ch (λ i, cut i r) → (r ≤ length tagged)%nat →
  find_loop cmp (λ x, x <? 0) ch (seq 0 n) None = Ok (fst <$> tagged !! r).
Proof.
  intros Ha Hr. destruct (tagged !! r) as [[c ec]|] eqn:Hc.
  - assert (c < n)%nat as Hcn by (apply (Htags (c, ec)); by eapply list_elem_of_lookup_2).
    apply (find_loop_best _ ch _ c ec Ha Hcn (cut_at r c ec Hc)); [| apply in_range | left; apply elem_of_seq; lia | done].
    intros i e Hi Hic He. destruct (part_after i r _ e He (le_n _)) as (m & Hm & Em).
    assert (m ≠ r) as Hne by (intros ->; congruence).
    pose proof (tagged_sorted r m _ _ ltac:(lia) Hc Em) as Hlt. cbn [snd] in Hlt.
    pose proof (proj1 (order_neg target_ok ord _ _ (tagged_key _ _ Hc) (tagged_key _ _ Em)) Hlt). cbn [snd] in *.
    split; [apply Z.ltb_ge; lia | by apply Z.ltb_lt].
  - apply (find_loop_none _ ch _ Ha); [|apply in_range]. intros i Hi. apply lookup_ge_None in Hc.
    replace r with (length tagged) by lia. apply lookup_ge_None. by rewrite cut_all.
Qed.

Lemma back_cut i r e : part i !! back i (cut i r) = Some e → ∃ m, (m < r)%nat ∧ tagged !! m = Some (i, e).
Proof.
  unfold back. destruct (Nat.eqb_spec (cut i r) 0) as [E|Hne]; intros He.
  - apply lookup_lt_Some in He. lia.
  - apply (part_before i r _ e He). lia.
Qed.

Lemma largest_spec ch r : at_ps ch (λ i, back i (cut i r)) → (r ≤ length tagged)%nat →
  find_loop cmp (λ x, 0 <? x) ch (rev (seq 0 n)) None = Ok (if (r =? 0)%nat then None else fst <$> tagged !! pred r).
Proof.
  intros Ha Hr. destruct r as [|r]; cbn [Nat.eqb pred].
  - apply (find_loop_none _ ch _ Ha).
    + intros i Hi. unfold back. rewrite cut_0. cbn [Nat.eqb]. by apply lookup_ge_None.
    + intros i Hi. by apply in_rev_range.
  - destruct (tagged !! r) as [[c ec]|] eqn:Hc; [|apply lookup_ge_None in Hc; lia]. cbn [fmap option_fmap option_map fst].
    assert (c < n)%nat as Hcn by (apply (Htags (c, ec)); by eapply list_elem_of_lookup_2).
    assert (back c (cut c (Datatypes.S r)) = cut c r) as Eb.
    { rewrite (cut_S c r c ec Hc), Nat.eqb_refl. unfold back. destruct (Nat.eqb_spec (cut c r + 1) 0); lia. }
    apply (find_loop_best _ ch _ c ec Ha Hcn); [by rewrite Eb; apply cut_at | | | left; by apply in_rev_range | done].
    + intros i e Hi Hic He. apply back_cut in He as (m & Hm & Em).
      assert (m ≠ r) as Hne by (intros ->; congruence).
      pose proof (tagged_sorted m r _ _ ltac:(lia) Em Hc) as Hlt. cbn [snd] in Hlt.
      pose proof (proj1 (order_neg target_ok ord _ _ (tagged_key _ _ Em) (tagged_key _ _ Hc)) Hlt). cbn [snd] in *.
      split; [apply Z.ltb_ge; lia | by apply Z.ltb_lt].
    + intros i Hi. by apply in_rev_range.
Qed.

(** *** The state between two calls *)

(** The positions of the children when the current entry has rank [r]. *)
Definition placed (d : Direction) (r i : nat) : nat :=
  match d with kForward => cut i r | kReverse => back i (cut i (Datatypes.S r)) end.

Definition merging_shows (m : merging) (pos : nat) : Prop :=
  (pos ≤ length tagged)%nat ∧ current_ m = fst <$> tagged !! pos ∧
  ∃ ps, at_ps (children_ m) ps ∧ ((pos < length tagged)%nat → ∀ i, (i < n)%nat → ps i = placed (direction_ m) pos i).

Lemma placed_current d r c e : tagged !! r = Some (c, e) → placed d r c = cut c r.
Proof.
  intros Hr. destruct d; [done|]. unfold placed. rewrite (cut_S c r c e Hr), Nat.eqb_refl. unfold back.
  destruct (Nat.eqb_spec (cut c r + 1) 0); lia.
Qed.

Lemma placed_other r c e i : tagged !! r = Some (c, e) → i ≠ c → placed kReverse r i = back i (cut i r).
Proof.
  intros Hr Hi. unfold placed. rewrite (cut_S i r c e Hr). destruct (Nat.eqb_spec i c); [done|]. by rewrite Nat.add_0_r.
Qed.

(** A loop that moves every child. *)
Lemma move_all_spec (f : nat → list (wrapper S) → outcome (list (wrapper S))) ps ps' ch :
  (∀ i ch', (i < n)%nat → at_ps ch' (λ j, if (j <? i)%nat then ps' j else ps j) →
    ∃ ch2, f i ch' = Ok ch2 ∧ at_ps ch2 (set_pos (λ j, if (j <? i)%nat then ps' j else ps j) i (ps' i))) →
  at_ps ch ps → ∃ ch', for_loop f (seq 0 n) ch = Ok ch' ∧ at_ps ch' ps'.
Proof.
  intros Hstep Ha.
  destruct (for_loop_range f (λ i ch', at_ps ch' (λ j, if (j <? i)%nat then ps' j else ps j)) n 0 ch) as (ch' & E & H').
  - exact Ha.
  - intros i ch' Hi Hat. destruct (Hstep i ch' ltac:(lia) Hat) as (ch2 & E & H2). exists ch2. split; [done|].
    eapply at_ps_ext; [|exact H2]. intros j Hj. unfold set_pos.
    destruct (Nat.eqb_spec j i) as [->|]; [by rewrite (proj2 (Nat.ltb_lt _ _)) by lia|].
    destruct (Nat.ltb_spec j i), (Nat.ltb_spec j (Datatypes.S i)); try lia; done.
  - exists ch'. split; [done|]. eapply at_ps_ext; [|exact H']. intros j Hj. cbv beta. by rewrite (proj2 (Nat.ltb_lt _ _)) by lia.
Qed.

(** [SeekToFirst], [SeekToLast] and [Seek] move every child in the same way. *)
Lemma move_each op ch ps ps' : at_ps ch ps →
  (∀ i p, (i < n)%nat → op_allowed target_ok (part i) p op) → (∀ i p, (i < n)%nat → spec_op ord (part i) p op = ps' i) →
  ∃ ch', for_loop (move_child child op) (seq 0 n) ch = Ok ch' ∧ at_ps ch' ps'.
Proof.
  intros Ha Hop Hps. eapply move_all_spec; [|exact Ha]. intros i ch' Hi Hat.
  destruct (move_child_spec op ch' _ i Hat Hi (Hop i _ Hi)) as (ch2 & E & H2). rewrite (Hps i _ Hi) in H2. by exists ch2.
Qed.

Lemma same_position i ch ps p : at_ps ch ps → ps i = p → at_ps ch (set_pos ps i p).
Proof.
  intros Ha E. eapply at_ps_ext; [|exact Ha]. intros j _. unfold set_pos. by destruct (Nat.eqb_spec j i) as [->|].
Qed.

Lemma set_pos_twice ps i p q ch : at_ps ch (set_pos (set_pos ps i p) i q) → at_ps ch (set_pos ps i q).
Proof. apply at_ps_ext. intros j _. unfold set_pos. by destruct (j =? i)%nat. Qed.

(** Seeking the other child [i] to the current key. *)
Lemma seek_other ch ps c e r i : tagged !! r = Some (c, e) → (i < n)%nat → i ≠ c → at_ps ch ps → ps c = cut c r →
  ∃ k ch' w, get_key ch c = Ok k ∧ move_child child (OpSeek k) i ch = Ok ch' ∧ at_ps ch' (set_pos ps i (cut i r)) ∧
    get ch' i = Ok w ∧ in_step (part i) (shows i) w (cut i r) ∧ get_key ch' c = Ok e.1 ∧ k = e.1.
Proof.
  intros Hr Hi Hic Ha Hc. assert (c < n)%nat as Hcn by (apply (Htags (c, e)); by eapply list_elem_of_lookup_2).
  exists e.1. destruct (move_child_spec (OpSeek e.1) ch ps i Ha Hi (tagged_key r (c, e) Hr)) as (ch' & E & Ha').
  cbn [spec_op] in Ha'. pose proof (cut_key i r (c, e) Hr) as Eb. cbn [snd] in Eb. rewrite Eb in Ha'.
  destruct (at_get ch' _ i Ha' Hi) as (w & Ew & _ & Hw). unfold set_pos at 1 in Hw. rewrite Nat.eqb_refl in Hw.
  exists ch', w. split_and!; try done.
  - apply (at_key ch ps c e Ha Hcn). rewrite Hc. by apply cut_at.
  - apply (at_key ch' _ c e Ha' Hcn). unfold set_pos. destruct (Nat.eqb_spec c i); [congruence|]. rewrite Hc. by apply cut_at.
Qed.

Lemma turn_forward_spec ch ps c e r i : tagged !! r = Some (c, e) → (i < n)%nat → at_ps ch ps → ps c = cut c r →
  ∃ ch', turn_forward cmp child c i ch = Ok ch' ∧ at_ps ch' (set_pos ps i (cut i r)).
Proof.
  intros Hr Hi Ha Hc. unfold turn_forward. destruct (Nat.eqb_spec i c) as [->|Hic].
  { exists ch. split; [done | by apply same_position]. }
  destruct (seek_other ch ps c e r i Hr Hi Hic Ha Hc) as (k & ch' & w & -> & E & Ha' & Ew & Hw & Ek & ->).
  cbn [mbind outcome_bind]. rewrite E. cbn [mbind outcome_bind]. rewrite Ew. cbn [mbind outcome_bind].
  rewrite (in_step_valid _ _ _ _ Hw). case_bool_decide as Hv; [|by exists ch'].
  rewrite Ek. cbn [mbind outcome_bind]. destruct (lookup_lt_is_Some_2 _ _ Hv) as [e' He'].
  pose proof (Hchild i Hi). destruct (in_step_entry (child i) ord target_ok (part i) (shows i) w _ e' Hw He') as [-> _].
  cbn [mbind outcome_bind]. destruct (part_after i r _ e' He' (le_n _)) as (m & Hm & Em).
  assert (r < m)%nat as Hrm by (assert (m ≠ r) by (intros ->; congruence); lia).
  pose proof (tagged_sorted r m _ _ Hrm Hr Em) as Hlt. cbn [snd] in Hlt.
  destruct (Z.eqb_spec (ord e.1 e'.1) 0); [lia | by exists ch'].
Qed.

Lemma turn_reverse_spec ch ps c e r i : tagged !! r = Some (c, e) → (i < n)%nat → at_ps ch ps → ps c = cut c r →
  ∃ ch', turn_reverse child c i ch = Ok ch' ∧ at_ps ch' (set_pos ps i (placed kReverse r i)).
Proof.
  intros Hr Hi Ha Hc. unfold turn_reverse. destruct (Nat.eqb_spec i c) as [->|Hic].
  { exists ch. split; [done|]. apply same_position; [done|]. by rewrite (placed_current _ _ c e). }
  rewrite (placed_other r c e i Hr Hic).
  destruct (seek_other ch ps c e r i Hr Hi Hic Ha Hc) as (k & ch' & w & -> & E & Ha' & Ew & Hw & Ek & ->).
  cbn [mbind outcome_bind]. rewrite E. cbn [mbind outcome_bind]. rewrite Ew. cbn [mbind outcome_bind].
  rewrite (in_step_valid _ _ _ _ Hw). pose proof (cut_le i r) as Hle.
  assert (set_pos ps i (cut i r) i = cut i r) as Ep by (unfold set_pos; by rewrite Nat.eqb_refl).
  case_bool_decide as Hv.
  - destruct (move_child_spec OpPrev ch' _ i Ha' Hi) as (ch2 & E2 & H2); [cbn [op_allowed]; lia|].
    exists ch2. split; [done|]. apply set_pos_twice in H2. rewrite Ep in H2. exact H2.
  - destruct (move_child_spec OpLast ch' _ i Ha' Hi I) as (ch2 & E2 & H2). exists ch2. split; [done|].
    apply set_pos_twice in H2. cbn [spec_op] in H2. unfold back. replace (cut i r) with (length (part i)) by lia.
    destruct (Nat.eqb_spec (length (part i)) 0) as [E0|]; [rewrite E0 in *|]; exact H2.
Qed.

(** *** Every operation *)

Lemma merging_count m pos : merging_shows m pos → n_ m = n.
Proof. by intros (_ & _ & ps & [Hl _] & _). Qed.

Lemma shows_forward ch r : at_ps ch (λ i, cut i r) → (r ≤ length tagged)%nat → ∀ cur d,
  ∃ m, FindSmallest cmp (mkMerging ch cur d) = Ok m ∧ merging_shows (set_direction kForward m) r ∧ direction_ m = d.
Proof.
  intros Ha Hr cur d. unfold FindSmallest, n_. cbn [children_ direction_]. rewrite (proj1 Ha), (smallest_spec ch r Ha Hr).
  cbn [mbind outcome_bind]. eexists. split; [reflexivity|]. split; [|done]. split; [done|]. split; [done|].
  exists (λ i, cut i r). split; [done|]. by intros _ i _.
Qed.

Lemma shows_reverse ch r : at_ps ch (λ i, back i (cut i r)) → (r ≤ length tagged)%nat → ∀ cur d,
  ∃ m, FindLargest cmp (mkMerging ch cur d) = Ok m ∧
    merging_shows (set_direction kReverse m) (if (r =? 0)%nat then length tagged else pred r) ∧ direction_ m = d.
Proof.
  intros Ha Hr cur d. unfold FindLargest, n_. cbn [children_ direction_]. rewrite (proj1 Ha), (largest_spec ch r Ha Hr).
  cbn [mbind outcome_bind]. eexists. split; [reflexivity|]. split; [|done].
  destruct (Nat.eqb_spec r 0) as [->|Hne]; (split; [lia|]); cbn [set_direction current_ children_ direction_].
  - rewrite (proj2 (lookup_ge_None tagged (length tagged))) by done. split; [done|]. exists (λ i, back i (cut i 0)). split; [done | lia].
  - split; [done|]. exists (λ i, back i (cut i r)). split; [done|]. intros _ i _. unfold placed. by replace (Datatypes.S (pred r)) with r by lia.
Qed.

Lemma set_direction_same (m : @merging S) d : direction_ m = d → set_direction d m = m.
Proof. destruct m. by intros <-. Qed.

Lemma merging_move_all op m pos ps' : merging_shows m pos →
  (∀ i p, (i < n)%nat → op_allowed target_ok (part i) p op) → (∀ i p, (i < n)%nat → spec_op ord (part i) p op = ps' i) →
  ∃ ch, move_all child op m = Ok (mkMerging ch (current_ m) (direction_ m)) ∧ at_ps ch ps'.
Proof.
  intros Hm Hop Hps. pose proof (merging_count m pos Hm) as Hn. destruct Hm as (_ & _ & ps & Ha & _).
  destruct (move_each op (children_ m) ps ps' Ha Hop Hps) as (ch & E & H'). exists ch. unfold move_all.
  rewrite Hn, E. done.
Qed.

Lemma merging_next m pos : merging_shows m pos → (pos < length tagged)%nat →
  ∃ m', Merging.Next cmp child m = Ok m' ∧ merging_shows m' (Datatypes.S pos).
Proof.
  intros Hm Hpos. pose proof (merging_count m pos Hm) as Hn. destruct Hm as (_ & Hcur & ps & Ha & Hps). specialize (Hps Hpos).
  destruct (lookup_lt_is_Some_2 tagged pos Hpos) as [[c e] Hr]. rewrite Hr in Hcur. unfold Merging.Next. rewrite Hcur.
  cbn [fmap option_fmap option_map fst].
  assert (c < n)%nat as Hcn by (apply (Htags (c, e)); by eapply list_elem_of_lookup_2).
  assert (∃ ch, (if bool_decide (direction_ m = kForward) then Ok (children_ m)
    else for_loop (turn_forward cmp child c) (seq 0 (n_ m)) (children_ m)) = Ok ch ∧ at_ps ch (λ i, cut i pos)) as (ch & -> & Ha').
  { destruct (direction_ m) eqn:Ed; [rewrite bool_decide_true by done|rewrite bool_decide_false by done].
    - exists (children_ m). split; [done|]. eapply at_ps_ext; [|exact Ha]. exact Hps.
    - rewrite Hn. eapply (move_all_spec _ ps); [|exact Ha]. intros i ch' Hi Hat. eapply turn_forward_spec; try done.
      cbv beta. destruct (c <? i)%nat; [done|]. rewrite Hps by done. by rewrite (placed_current kReverse pos c e). }
  cbn [mbind outcome_bind]. destruct (move_child_spec OpNext ch _ c Ha' Hcn) as (ch2 & -> & H2).
  { cbn [op_allowed]. eapply lookup_lt_Some. by apply (cut_at pos c e). }
  cbn [mbind outcome_bind]. cbn [spec_op] in H2.
  destruct (shows_forward ch2 (Datatypes.S pos)) with (cur := Some c) (d := kForward) as (m' & E & Hm' & Ed); [|lia|].
  - eapply at_ps_ext; [|exact H2]. intros i Hi. unfold set_pos. rewrite (cut_S i pos c e Hr).
    destruct (Nat.eqb_spec i c) as [->|]; lia.
  - exists m'. split; [done|]. by rewrite set_direction_same in Hm'.
Qed.

Lemma merging_prev m pos : merging_shows m pos → (pos < length tagged)%nat →
  ∃ m', Merging.Prev cmp child m = Ok m' ∧ merging_shows m' (if (pos =? 0)%nat then length tagged else pred pos).
Proof.
  intros Hm Hpos. pose proof (merging_count m pos Hm) as Hn. destruct Hm as (_ & Hcur & ps & Ha & Hps). specialize (Hps Hpos).
  destruct (lookup_lt_is_Some_2 tagged pos Hpos) as [[c e] Hr]. rewrite Hr in Hcur. unfold Merging.Prev. rewrite Hcur.
  cbn [fmap option_fmap option_map fst].
  assert (c < n)%nat as Hcn by (apply (Htags (c, e)); by eapply list_elem_of_lookup_2).
  assert (∃ ch, (if bool_decide (direction_ m = kReverse) then Ok (children_ m)
    else for_loop (turn_reverse child c) (seq 0 (n_ m)) (children_ m)) = Ok ch ∧ at_ps ch (placed kReverse pos)) as (ch & -> & Ha').
  { destruct (direction_ m) eqn:Ed; [rewrite bool_decide_false by done|rewrite bool_decide_true by done].
    - rewrite Hn. eapply (move_all_spec _ ps); [|exact Ha]. intros i ch' Hi Hat. eapply turn_reverse_spec; try done.
      cbv beta. destruct (c <? i)%nat; [by rewrite (placed_current _ pos c e)|]. by rewrite Hps by done.
    - exists (children_ m). split; [done|]. eapply at_ps_ext; [|exact Ha]. exact Hps. }
  assert (placed kReverse pos c = cut c pos) as Ec by (by apply (placed_current _ pos c e)).
  cbn [mbind outcome_bind]. destruct (move_child_spec OpPrev ch _ c Ha' Hcn) as (ch2 & -> & H2).
  { cbn [op_allowed]. rewrite Ec. eapply lookup_lt_Some. by apply (cut_at pos c e). }
  cbn [mbind outcome_bind]. cbn [spec_op] in H2.
  destruct (shows_reverse ch2 pos) with (cur := Some c) (d := kReverse) as (m' & E & Hm' & Ed); [|lia|].
  - eapply at_ps_ext; [|exact H2]. intros i Hi. unfold set_pos. destruct (Nat.eqb_spec i c) as [->|Hic]; [by rewrite Ec|].
    by apply (placed_other pos c e).
  - exists m'. split; [done|]. by rewrite set_direction_same in Hm'.
Qed.

Lemma status_loop_ok ws : ∀ i, (∀ j w, ws !! j = Some w → wrapper_status (child (i + j)) w = Ok status_ok) →
  status_loop child i ws status_ok = Ok status_ok.
Proof.
  induction ws as [|w ws IH]; intros i H; [done|]. cbn [status_loop]. pose proof (H 0%nat w eq_refl) as E. rewrite Nat.add_0_r in E.
  rewrite E. cbn [mbind outcome_bind]. change (ok status_ok) with true. cbv iota. apply IH. intros j x Hx.
  replace (Datatypes.S i + j)%nat with (i + Datatypes.S j)%nat by lia. by apply H.
Qed.

(** The merging iterator keeps the contract. *)
#[export] Instance merging_laws : CursorLaws (MergingIterator cmp child) ord target_ok es merging_shows.
Proof.
  split; intros m pos; rewrite ?length_map.
  - by intros [? _].
  - intros (Hpos & Hcur & _). cbn [it_Valid MergingIterator]. unfold Merging.Valid. apply bool_decide_ext.
    rewrite Hcur, <- lookup_lt_is_Some, <- not_eq_None_Some, fmap_None. done.
  - intros e Hm He. rewrite list_lookup_fmap in He. apply fmap_Some in He as ([c e'] & Hr & ->). cbn [snd].
    pose proof (lookup_lt_Some _ _ _ Hr) as Hpos. destruct Hm as (_ & Hcur & ps & Ha & Hps). specialize (Hps Hpos).
    rewrite Hr in Hcur. cbn [it_key it_value MergingIterator]. unfold merging_key, merging_value. rewrite Hcur.
    cbn [fmap option_fmap option_map fst].
    assert (c < n)%nat as Hcn by (apply (Htags (c, e')); by eapply list_elem_of_lookup_2).
    assert (part c !! ps c = Some e') as He by (rewrite Hps, (placed_current _ pos c e') by done; by apply cut_at).
    split; [by apply (at_key _ ps)|]. destruct (at_get _ ps c Ha Hcn) as (w & -> & _ & Hw). cbn [mbind outcome_bind].
    pose proof (Hchild c Hcn). by destruct (in_step_entry (child c) ord target_ok _ _ w _ e' Hw He).
  - intros (_ & _ & ps & [Hl H] & _). cbn [it_status MergingIterator]. unfold merging_status. apply status_loop_ok.
    intros j w Hw. pose proof (lookup_lt_Some _ _ _ Hw) as Hj. rewrite Hl in Hj. pose proof (Hchild j Hj).
    by apply (in_step_status (child j) ord target_ok (part j) (shows j) w (ps j)), H.
  - intros op Hm Hop. destruct op as [| | | |t]; cbn [run_op MergingIterator it_Next it_Prev it_Seek it_SeekToFirst it_SeekToLast
      spec_op op_allowed] in *; rewrite ?length_map in *.
    + destruct (merging_move_all OpFirst m pos (λ i, cut i 0) Hm) as (ch & E & Ha); [done | done|].
      unfold Merging.SeekToFirst. rewrite E. cbn [mbind outcome_bind].
      destruct (shows_forward ch 0 Ha ltac:(lia) (current_ m) (direction_ m)) as (m' & -> & Hm' & _). cbn [mbind outcome_bind]. eauto.
    + destruct (merging_move_all OpLast m pos (λ i, back i (cut i (length tagged))) Hm) as (ch & E & Ha); [done | |].
      { intros i p Hi. rewrite cut_all. unfold back. cbn [spec_op]. destruct (Nat.eqb_spec (length (part i)) 0) as [->|]; done. }
      unfold Merging.SeekToLast. rewrite E. cbn [mbind outcome_bind].
      destruct (shows_reverse ch (length tagged) Ha ltac:(lia) (current_ m) (direction_ m)) as (m' & -> & Hm' & _).
      cbn [mbind outcome_bind]. eexists. split; [reflexivity|]. destruct (Nat.eqb_spec (length tagged) 0) as [E0|]; [|done].
      rewrite E0 in *. done.
    + by apply merging_next.
    + by apply merging_prev.
    + destruct (merging_move_all (OpSeek t) m pos (λ i, cut i (lower_bound ord es t)) Hm) as (ch & E & Ha); [done | |].
      { intros i p Hi. cbn [spec_op]. by rewrite cut_bound. }
      unfold Merging.Seek. rewrite E. cbn [mbind outcome_bind].
      destruct (shows_forward ch (lower_bound ord es t) Ha) with (cur := current_ m) (d := direction_ m) as (m' & -> & Hm' & _).
      { rewrite <- (length_map snd). apply lower_bound_le. }
      cbn [mbind outcome_bind]. eauto.
Qed.

(** A new merging iterator is not valid. *)
Lemma new_merging_spec (its : list S) (ps : nat → nat) :
  length its = n → (∀ i it, its !! i = Some it → shows i it (ps i)) →
  ∃ m, new_merging child its = Ok m ∧ merging_shows m (length tagged).
Proof.
  intros Hl Hits. unfold new_merging. rewrite Hl.
  destruct (for_loop_range (set_child child its)
    (λ i ch, length ch = n ∧ ∀ j w, (j < i)%nat → ch !! j = Some w → in_step (part j) (shows j) w (ps j))
    n 0 (replicate n IteratorWrapper.new)) as (ch & E & Hch & Hin).
  - split; [by rewrite length_replicate | lia].
  - intros i ch Hi [Hch Hin]. unfold set_child, get.
    destruct (lookup_lt_is_Some_2 ch i ltac:(lia)) as [w ->]. cbn [mbind outcome_bind].
    destruct (lookup_lt_is_Some_2 its i ltac:(lia)) as [it Hit]. rewrite Hit. cbn [Set_]. pose proof (Hchild i ltac:(lia)).
    destruct (Update_in_step (child i) ord target_ok (part i) (shows i) it (ps i) (key_ w) (Hits i it Hit)) as (w' & -> & Hw').
    cbn [mbind outcome_bind]. eexists. split; [reflexivity|]. split; [by rewrite length_insert|].
    intros j x Hj Hx. destruct (decide (j = i)) as [->|Hne].
    + apply list_lookup_insert_Some in Hx as [(_ & -> & _)|[? _]]; done.
    + rewrite list_lookup_insert_ne in Hx by done. apply (Hin j x); [lia | done].
  - rewrite E. cbn [mbind outcome_bind]. eexists. split; [reflexivity|]. split; [done|].
    rewrite (proj2 (lookup_ge_None tagged (length tagged))) by done. split; [done|].
    exists ps. split; [|lia]. split; [done|]. intros i w Hw. apply Hin; [|done]. rewrite <- Hch. by eapply lookup_lt_Some.
Qed.

End proof.

(** *** The union of sorted lists *)

Fixpoint tag_from (k : nat) (ess : list (list entry)) : list (nat * entry) :=
  match ess with [] => [] | l :: ess => map (pair k) l ++ tag_from (S k) ess end.

Lemma tag_from_entries ess : ∀ k, map snd (tag_from k ess) = concat ess.
Proof.
  induction ess as [|l ess IH]; intros k; [done|]. cbn [tag_from concat]. rewrite map_app, IH, map_map. f_equal. apply map_id.
Qed.

Lemma tag_from_part ess : ∀ k i, map snd (filter (λ x, x.1 = i) (tag_from k ess)) =
  if decide (k ≤ i)%nat then default [] (ess !! (i - k)%nat) else [].
Proof.
  induction ess as [|l ess IH]; intros k i; cbn [tag_from]; [by destruct (decide _)|].
  rewrite filter_app, map_app, IH.
  assert (map snd (filter (λ x, x.1 = i) (map (pair k) l)) = if decide (k = i) then l else []) as ->.
  { induction l as [|e l IHl]; cbn [map]; [by destruct (decide _)|]. rewrite filter_cons. cbn [fst]. destruct (decide (k = i)); [|done].
    cbn [map snd]. by rewrite IHl. }
  destruct (decide (k = i)) as [->|].
  - rewrite decide_False by lia. rewrite decide_True, Nat.sub_diag by lia. apply app_nil_r.
  - destruct (decide (S k ≤ i)%nat); [|by rewrite decide_False by lia].
    rewrite decide_True by lia. by replace (i - k)%nat with (S (i - S k))%nat by lia.
Qed.

Lemma filter_all {A} (P : A → Prop) `{∀ x, Decision (P x)} (l : list A) : (∀ x, x ∈ l → P x) → filter P l = l.
Proof.
  induction l as [|x l IH]; intros H'; [done|]. rewrite filter_cons_True by (apply H'; by left). f_equal.
  apply IH. intros y Hy. apply H'. by right.
Qed.

Section union.
Context (ord : list byte → list byte → Z) (target_ok : list byte → Prop) `{HO : !OrderLaws target_ok ord}.

Lemma sorted_strongly es : sorted_entries ord es → StronglySorted (λ x y : entry, ord x.1 y.1 < 0) es.
Proof.
  induction es as [|x es IH]; intros Hs; constructor.
  - apply IH. intros i j a b Hij Ha Hb. by apply (Hs (S i) (S j)); [lia|..].
  - apply Forall_lookup. intros i y Hy. by apply (Hs 0%nat (S i)); [lia|..].
Qed.

Lemma sorted_tail (x : entry) es : sorted_entries ord (x :: es) → sorted_entries ord es.
Proof. intros Hs i j a b Hij Ha Hb. by apply (Hs (S i) (S j)); [lia|..]. Qed.

Lemma sorted_part (tagged : list (nat * entry)) i : sorted_entries ord (map snd tagged) → sorted_entries ord (part tagged i).
Proof.
  unfold part. induction tagged as [|x tagged IH]; [by intros _ ?|]. intros Hs. cbn [map] in Hs. rewrite filter_cons.
  pose proof (IH (sorted_tail _ _ Hs)) as IH'. destruct (decide (x.1 = i)); [|done]. cbn [map].
  intros a b y z Hab Hy Hz. destruct a as [|a], b as [|b]; try lia.
  - injection Hy as <-. change (map snd (filter (λ y, y.1 = i) tagged) !! b = Some z) in Hz.
    apply list_elem_of_lookup_2, list_elem_of_fmap in Hz as (w & -> & [_ Hw]%list_elem_of_filter).
    apply list_elem_of_lookup in Hw as [m Hm]. apply (Hs 0%nat (S m)); [lia | done|]. change (map snd tagged !! m = Some w.2).
    by rewrite list_lookup_fmap, Hm.
  - apply (IH' a b); [lia | done | done].
Qed.

(** Sorted lists with different keys have one union, and every entry knows its list. *)
Lemma union_tagged ess es :
  es ≡ₚ concat ess → sorted_entries ord es → (∀ i l, ess !! i = Some l → sorted_entries ord l) → (∀ e, e ∈ es → target_ok e.1) →
  ∃ tagged, es = map snd tagged ∧ (∀ x, x ∈ tagged → (x.1 < length ess)%nat) ∧
    ∀ i l, ess !! i = Some l → part tagged i = l.
Proof.
  intros Hp Hs Hess Hk. rewrite <- (tag_from_entries ess 0) in Hp. apply Permutation_map_inv in Hp as (tagged & -> & Hp).
  exists tagged. split; [done|].
  assert (∀ i, map snd (filter (λ x, x.1 = i) tagged) ≡ₚ default [] (ess !! i)) as Hpart.
  { intros i. rewrite <- Hp. rewrite tag_from_part. by rewrite decide_True, Nat.sub_0_r by lia. }
  split.
  - intros x Hx. destruct (decide (x.1 < length ess)%nat); [done|].
    specialize (Hpart x.1). rewrite lookup_ge_None_2 in Hpart by lia. cbn [default] in Hpart.
    apply Permutation_nil_r in Hpart.
    assert (x.2 ∈ map snd (filter (λ y, y.1 = x.1) tagged)) as Hin; [|by rewrite Hpart in Hin; apply elem_of_nil in Hin].
    by apply list_elem_of_fmap_2, list_elem_of_filter.
  - intros i l Hl. specialize (Hpart i). rewrite Hl in Hpart. cbn [default] in Hpart.
    eapply (sorting.StronglySorted_unique_strong (λ x y : entry, ord x.1 y.1 < 0)); [| | |exact Hpart].
    + intros x y Hx Hy H1 H2.
      assert (∀ z, z ∈ part tagged i → target_ok z.1) as Hz.
      { intros z (w & -> & [_ Hw]%list_elem_of_filter)%list_elem_of_fmap. apply Hk. by apply list_elem_of_fmap_2. }
      rewrite <- Hpart in Hy. pose proof (order_neg target_ok ord x.1 y.1 (Hz x Hx) (Hz y Hy)). lia.
    + by apply sorted_strongly, sorted_part.
    + apply sorted_strongly. by apply (Hess i).
Qed.

End union.

(** *** NewMergingIterator *)

Section merged.
Context {S : Type} (cmp : Comparator) (child : nat → IteratorOps S) (target_ok : list byte → Prop)
  `{HO : !OrderLaws target_ok (Compare cmp)} (ess : list (list entry)) (shows : nat → S → nat → Prop)
  (tagged : list (nat * entry)).
#[local] Notation ord := (Compare cmp).
#[local] Notation es := (map snd tagged).
Context (Hchild : ∀ i l, ess !! i = Some l → CursorLaws (child i) ord target_ok l (shows i))
  (Hparts : ∀ i l, ess !! i = Some l → part tagged i = l)
  (Htags : ∀ x, x ∈ tagged → (x.1 < length ess)%nat) (Hsort : sorted_entries ord es) (Hkeys : ∀ x, x ∈ tagged → target_ok x.2.1).

Definition merged_shows (m : @merged S) (pos : nat) : Prop :=
  match m with
  | MEmpty it => tagged = [] ∧ it = status_ok ∧ pos = 0%nat
  | MOne it => length ess = 1%nat ∧ shows 0 it pos
  | MMany m => merging_shows (length ess) tagged shows m pos
  end.

Lemma part_laws i : (i < length ess)%nat → CursorLaws (child i) ord target_ok (part tagged i) (shows i).
Proof. intros [l Hl]%lookup_lt_is_Some_2. rewrite (Hparts i l Hl). by apply Hchild. Qed.

Lemma one_child : length ess = 1%nat → CursorLaws (child 0) ord target_ok es (shows 0).
Proof.
  intros H1. assert (part tagged 0 = es) as <-; [|apply part_laws; lia]. unfold part. f_equal. apply filter_all.
  intros x Hx. specialize (Htags x Hx). lia.
Qed.

Lemma merged_laws : CursorLaws (merged_iterator cmp child) ord target_ok es merged_shows.
Proof.
  pose proof (merging_laws cmp child target_ok (length ess) tagged shows part_laws Htags Hsort Hkeys) as HM.
  split; intros [it|it|m] pos; cbn [merged_shows].
  - intros (-> & _ & ->). done.
  - intros [H1 Hs]. pose proof (one_child H1). by eapply (cursor_pos (shows := shows 0%nat)).
  - apply (cursor_pos (I := MergingIterator cmp child)).
  - intros (-> & _ & ->). done.
  - intros [H1 Hs]. pose proof (one_child H1). by apply (cursor_valid (I := child 0%nat)).
  - apply (cursor_valid (I := MergingIterator cmp child)).
  - by intros e (-> & _ & ->).
  - intros e [H1 Hs]. pose proof (one_child H1). by apply (cursor_entry (I := child 0%nat)).
  - intros e. apply (cursor_entry (I := MergingIterator cmp child)).
  - by intros (_ & -> & _).
  - intros [H1 Hs]. pose proof (one_child H1). by apply (cursor_status (I := child 0%nat) (shows := shows 0%nat) it pos).
  - apply (cursor_status (I := MergingIterator cmp child)).
  - intros op (-> & -> & ->) Hop. pose proof (empty_cursor ord target_ok) as HE.
    destruct (cursor_step (CursorLaws := HE) status_ok 0 op (conj eq_refl eq_refl) Hop) as (it' & E & -> & E0).
    exists (MEmpty status_ok). split; [|split_and!; [done | done | exact E0]].
    destruct op; cbn in *; done || (by injection E as <-).
  - intros op [H1 Hs] Hop. pose proof (one_child H1). destruct (cursor_step (I := child 0%nat) it pos op Hs Hop) as (it' & E & Hs').
    exists (MOne it'). split; [|done]. destruct op; cbn [run_op merged_iterator it_Next it_Prev it_Seek it_SeekToFirst it_SeekToLast] in *; by rewrite E.
  - intros op Hs Hop. destruct (cursor_step (I := MergingIterator cmp child) m pos op Hs Hop) as (m' & E & Hs').
    exists (MMany m'). split; [|done]. destruct op; cbn [run_op merged_iterator it_Next it_Prev it_Seek it_SeekToFirst it_SeekToLast] in *; by rewrite E.
Qed.

Lemma NewMergingIterator_spec its (ps : nat → nat) :
  length its = length ess → (∀ i it, its !! i = Some it → shows i it (ps i)) → (∀ i l, ess !! i = Some l → ps i = length l) →
  ∃ m, NewMergingIterator child its = Ok m ∧ merged_shows m (length es).
Proof.
  intros Hl Hits Hps.
  assert (∃ m, new_merging child its = Ok m ∧ merging_shows (length ess) tagged shows m (length es)) as (m & E & Hm).
  { rewrite length_map. eapply new_merging_spec; [exact part_laws | done | exact Hits]. }
  unfold NewMergingIterator. destruct its as [|it [|it' its]].
  - eexists. split; [reflexivity|]. cbn [merged_shows].
    assert (tagged = []) as ->; [|done]. destruct tagged as [|x t]; [done|]. cbn in Hl.
    specialize (Htags x ltac:(by left)). lia.
  - eexists. split; [reflexivity|]. cbn [merged_shows]. split; [done|].
    destruct (lookup_lt_is_Some_2 ess 0) as [l Hl0]; [rewrite <- Hl; cbn; lia|].
    pose proof (Hits 0%nat it eq_refl) as H0. rewrite (Hps 0%nat l Hl0) in H0.
    assert (length l = length es) as <-; [|done]. rewrite <- (Hparts 0 l Hl0). unfold part. f_equal. f_equal. apply filter_all.
    intros x Hx. specialize (Htags x Hx). cbn in Hl. lia.
  - rewrite E. cbn [mbind outcome_bind]. eauto.
Qed.

End merged.

(** ** Properties *)

(** C16: The merging iterator is a cursor on the union.  For any number of children that
    keep the contract of iterators over sorted lists with different keys, whatever the
    interleaving of [Next], [Prev], [Seek], [SeekToFirst] and [SeekToLast] (each change
    of direction repositions the children), the iterator that [NewMergingIterator]
    returns shows the entries of all children in the order of the comparator, its status
    is OK and no assertion fails. *)
Theorem merging_cursor {S} (cmp : Comparator) (child : nat → IteratorOps S) (target_ok : list byte → Prop)
    (HO : OrderLaws target_ok (Compare cmp)) (ess : list (list entry)) (shows : nat → S → nat → Prop)
    (Hchild : ∀ i l, ess !! i = Some l →
      CursorLaws (child i) (Compare cmp) target_ok l (shows i) ∧ sorted_entries (Compare cmp) l)
    (es : list entry) (Hes : es ≡ₚ concat ess) (Hsort : sorted_entries (Compare cmp) es)
    (Hkeys : ∀ e, e ∈ es → target_ok e.1) (its : list S) (Hlen : length its = length ess)
    (Hits : ∀ i it l, its !! i = Some it → ess !! i = Some l → shows i it (length l)) :
  ∃ it0, NewMergingIterator child its = Ok it0 ∧
    ∀ ops, ops_allowed (Compare cmp) target_ok es (length es) ops →
      let pos := foldl (spec_op (Compare cmp) es) (length es) ops in
      ∃ it, run_ops (merged_iterator cmp child) it0 ops = Ok it ∧
        it_status (merged_iterator cmp child) it = Ok status_ok ∧
        it_Valid (merged_iterator cmp child) it = bool_decide (pos < length es)%nat ∧
        ∀ k v, es !! pos = Some (k, v) →
          it_key (merged_iterator cmp child) it = Ok k ∧ it_value (merged_iterator cmp child) it = Ok v.
Proof.
  destruct (union_tagged (Compare cmp) target_ok ess es Hes Hsort) as (tagged & -> & Htags & Hparts); [apply Hchild | done|].
  assert (∀ x, x ∈ tagged → target_ok x.2.1) as Hk by (intros x Hx; apply Hkeys; by apply list_elem_of_fmap_2).
  destruct (NewMergingIterator_spec cmp child target_ok ess shows tagged (λ i l H, proj1 (Hchild i l H)) Hparts Htags Hsort Hk
    its (λ i, length (default [] (ess !! i))) Hlen) as (it0 & E & H0).
  - intros i it Hi. destruct (lookup_lt_is_Some_2 ess i) as [l Hl]; [rewrite <- Hlen; by eapply lookup_lt_Some|].
    rewrite Hl. by apply (Hits i it l).
  - intros i l Hl. by rewrite Hl.
  - exists it0. split; [done|]. intros ops Hops.
    pose proof (merged_laws cmp child target_ok ess shows tagged (λ i l H, proj1 (Hchild i l H)) Hparts Htags Hsort Hk) as HL.
    by apply (cursor_observed (merged_iterator cmp child) (Compare cmp) target_ok (map snd tagged) (merged_shows ess shows tagged) ops it0 (length (map snd tagged))).
Qed.

Definition demo_a : list entry := [(str "a", str "1"); (str "d", str "4")].
Definition demo_b : list entry := [(str "b", str "2"); (str "c", str "3")].
Definition demo_union : list entry := [(str "a", str "1"); (str "b", str "2"); (str "c", str "3"); (str "d", str "4")].
Definition demo_child (i : nat) : IteratorOps nat := list_cursor (Compare BytewiseComparator) (match i with O => demo_a | _ => demo_b end).

Lemma sorted_entries_adjacent (cmp : Comparator) `{!ComparatorLaws any_key cmp} es :
  Sorted.Sorted (λ x y : entry, Compare cmp x.1 y.1 < 0) es → sorted_entries (Compare cmp) es.
Proof.
  intros Hs%Sorted_StronglySorted i j x y Hij Hx Hy.
  - revert i j Hij Hx Hy. induction Hs as [|a l Hs IH Ha]; intros i j Hij Hx Hy; [done|]. destruct j as [|j]; [lia|].
    change (l !! j = Some y) in Hy. destruct i as [|i].
    + injection Hx as <-. rewrite Forall_forall in Ha. apply Ha. by eapply list_elem_of_lookup_2.
    + by apply (IH i j); [lia|..].
  - intros a b c H1 H2. apply (compare_lt_le any_key cmp a.1 b.1 c.1); try done. lia.
Qed.

Lemma merging_cursor_witness :
  ∃ it0, NewMergingIterator demo_child [2%nat; 2%nat] = Ok it0 ∧
    let ops := [OpFirst; OpNext; OpNext; OpPrev; OpPrev; OpNext; OpSeek (str "bb"); OpPrev] in
    ∃ it, run_ops (merged_iterator BytewiseComparator demo_child) it0 ops = Ok it ∧
      it_key (merged_iterator BytewiseComparator demo_child) it = Ok (str "b").
Proof.
  assert (∀ l, bool_decide (Sorted.Sorted (λ x y : entry, Compare BytewiseComparator x.1 y.1 < 0) l) = true →
    sorted_entries (Compare BytewiseComparator) l) as Hs.
  { intros l Hl. apply sorted_entries_adjacent; [apply bytewise_laws | by apply bool_decide_eq_true in Hl]. }
  destruct (merging_cursor BytewiseComparator demo_child any_key (comparator_order any_key _ bytewise_laws) [demo_a; demo_b]
    (λ i it pos, it = pos ∧ (pos ≤ length (match i with O => demo_a | _ => demo_b end))%nat)) with (es := demo_union) (its := [2%nat; 2%nat])
    as (it0 & E & Hops).
  - intros [|[|i]] l Hl; try done; injection Hl as <-; (split; [apply list_cursor_laws | apply Hs; vm_compute; reflexivity]).
  - apply (bool_decide_unpack _). vm_compute. reflexivity.
  - apply Hs. vm_compute. reflexivity.
  - done.
  - done.
  - intros [|[|i]] it l Hi Hl; try done; injection Hl as <-; injection Hi as <-; (split; [done | vm_compute; lia]).
  - exists it0. split; [exact E|].
    destruct (Hops [OpFirst; OpNext; OpNext; OpPrev; OpPrev; OpNext; OpSeek (str "bb"); OpPrev]) as (it & Er & _ & _ & Hk).
    + repeat split; vm_compute; lia.
    + exists it. split; [exact Er|]. apply (Hk (str "b") (str "2")). vm_compute. reflexivity.
Defined.
