(* ===== verification/TwoLevel.v ===== *)
(** * table/two_level_iterator.cc: iterators over an index of blocks

    The values of the index iterator are handles of data blocks; [block_function] opens
    an iterator for a handle.  The two-level iterator is shown to keep the contract of
    iterators, over the entries of all blocks, when the two levels keep it.  [fuel]
    bounds the loops that skip empty blocks: one more than the number of blocks is
    enough, whatever the blocks. *)
From S2P Require Import Prelude.
From S2P Require Import Status.
From S2P Require Import Interfaces.
From S2P Require Import Comparator.
From S2P Require Import Cursor.
From S2P Require Import Iterators.

(** ** Definitions *)

Module TwoLevel.
Import IteratorWrapper.
Section TwoLevel.
(** The virtual tables of the two levels; the function may return a null pointer. *)
Context {SI SD : Type} (index : IteratorOps SI) (data : IteratorOps SD) (block_function_ : list byte → outcome (option SD)) (fuel : nat).

Record two_level := mkTwoLevel {
  status_ : status;
  index_iter_ : wrapper SI;
  data_iter_ : wrapper SD;
  data_block_handle_ : list byte
}.

Definition NewTwoLevelIterator (index_iter : SI) : outcome two_level :=
  w ← Set_ index (Some index_iter) new; Ok (mkTwoLevel status_ok w new []).

Definition with_index (w : wrapper SI) (t : two_level) : two_level :=
  mkTwoLevel (status_ t) w (data_iter_ t) (data_block_handle_ t).
Definition with_data (w : wrapper SD) (t : two_level) : two_level :=
  mkTwoLevel (status_ t) (index_iter_ t) w (data_block_handle_ t).
Definition with_handle (h : list byte) (t : two_level) : two_level :=
  mkTwoLevel (status_ t) (index_iter_ t) (data_iter_ t) h.
Definition has_data (t : two_level) : bool := bool_decide (iter_ (data_iter_ t) ≠ None).
Definition move_index (op : cursor_op) (t : two_level) : outcome two_level :=
  w ← move index op (index_iter_ t); Ok (with_index w t).
Definition move_data (op : cursor_op) (t : two_level) : outcome two_level :=
  w ← move data op (data_iter_ t); Ok (with_data w t).
(** [if (data_iter_.iter() != NULL) data_iter_.op()]. *)
Definition move_if_data (op : cursor_op) (t : two_level) : outcome two_level :=
  if has_data t then move_data op t else Ok t.

Definition SaveError (s : status) (t : two_level) : two_level :=
  if ok (status_ t) && negb (ok s) then mkTwoLevel s (index_iter_ t) (data_iter_ t) (data_block_handle_ t) else t.
Definition SetDataIterator (iter : option SD) (t : two_level) : outcome two_level :=
  t ← (if has_data t then s ← wrapper_status data (data_iter_ t); Ok (SaveError s t) else Ok t);
  w ← Set_ data iter (data_iter_ t);
  Ok (with_data w t).
Definition InitDataBlock (t : two_level) : outcome two_level :=
  if IteratorWrapper.Valid (index_iter_ t) then
    handle ← value index (index_iter_ t);
    if has_data t && bool_decide (handle = data_block_handle_ t) then Ok t
    else iter ← block_function_ handle; SetDataIterator iter (with_handle handle t)
  else SetDataIterator None t.

Definition Valid (t : two_level) : bool := IteratorWrapper.Valid (data_iter_ t).

Fixpoint forward_loop (fuel : nat) (t : two_level) : outcome two_level :=
  match fuel with
  | O => Blocked
  | S fuel =>
      if negb (has_data t) || negb (Valid t) then
        if IteratorWrapper.Valid (index_iter_ t) then
          t ← move_index OpNext t;
          t ← InitDataBlock t;
          t ← move_if_data OpFirst t;
          forward_loop fuel t
        else SetDataIterator None t
      else Ok t
  end.
Definition SkipEmptyDataBlocksForward : two_level → outcome two_level := forward_loop fuel.

Fixpoint backward_loop (fuel : nat) (t : two_level) : outcome two_level :=
  match fuel with
  | O => Blocked
  | S fuel =>
      if negb (has_data t) || negb (Valid t) then
        if IteratorWrapper.Valid (index_iter_ t) then
          t ← move_index OpPrev t;
          t ← InitDataBlock t;
          t ← move_if_data OpLast t;
          backward_loop fuel t
        else SetDataIterator None t
      else Ok t
  end.
Definition SkipEmptyDataBlocksBackward : two_level → outcome two_level := backward_loop fuel.

Definition Seek (t : two_level) (target : list byte) : outcome two_level :=
  t ← move_index (OpSeek target) t;
  t ← InitDataBlock t;
  t ← move_if_data (OpSeek target) t;
  SkipEmptyDataBlocksForward t.
Definition SeekToFirst (t : two_level) : outcome two_level :=
  t ← move_index OpFirst t;
  t ← InitDataBlock t;
  t ← move_if_data OpFirst t;
  SkipEmptyDataBlocksForward t.
Definition SeekToLast (t : two_level) : outcome two_level :=
  t ← move_index OpLast t;
  t ← InitDataBlock t;
  t ← move_if_data OpLast t;
  SkipEmptyDataBlocksBackward t.
Definition Next (t : two_level) : outcome two_level :=
  if Valid t then t ← move_data OpNext t; SkipEmptyDataBlocksForward t else Ub AssertionFailed.
Definition Prev (t : two_level) : outcome two_level :=
  if Valid t then t ← move_data OpPrev t; SkipEmptyDataBlocksBackward t else Ub AssertionFailed.

Definition two_key (t : two_level) : outcome (list byte) :=
  if Valid t then key (data_iter_ t) else Ub AssertionFailed.
Definition two_value (t : two_level) : outcome (list byte) :=
  if Valid t then value data (data_iter_ t) else Ub AssertionFailed.
Definition two_status (t : two_level) : outcome status :=
  s ← wrapper_status index (index_iter_ t);
  if negb (ok s) then Ok s
  else if has_data t then
    s ← wrapper_status data (data_iter_ t);
    if negb (ok s) then Ok s else Ok (status_ t)
  else Ok (status_ t).

Definition TwoLevelIterator : IteratorOps two_level :=
  mkIterator Valid two_key two_value two_status Next Prev Seek SeekToFirst SeekToLast.

End TwoLevel.
End TwoLevel.

Import IteratorWrapper TwoLevel.

(** ** Lemmas *)

Section proof.
Context {SI SD : Type} (cmp : Comparator) (index : IteratorOps SI) (data : IteratorOps SD)
  (block_function_ : list byte → outcome (option SD)) (target_ok : list byte → Prop) `{HO : !OrderLaws target_ok (Compare cmp)}
  (ies : list entry) (blk : list byte → list entry)
  (ishows : SI → nat → Prop) (dshows : list byte → SD → nat → Prop).
#[local] Notation ord := (Compare cmp).

(** The index entries carry handles; [blk h] are the entries of the block of [h]. *)
Definition blocks : list (list entry) := map (λ i, blk i.2) ies.
#[local] Notation es := (concat blocks).

(** Every index key is at or above the keys of its block and below those of the blocks
    that follow. *)
Definition index_separates : Prop :=
  ∀ j k b e, ies !! j = Some k → blocks !! b = Some e → ∀ x, x ∈ e →
    ((b ≤ j)%nat → ord x.1 k.1 ≤ 0) ∧ ((j < b)%nat → ord k.1 x.1 < 0).

Context (HI : CursorLaws index ord target_ok ies ishows)
  (HD : ∀ h, CursorLaws data ord target_ok (blk h) (dshows h))
  (Hopen : ∀ k h, (k, h) ∈ ies → ∃ it, block_function_ h = Ok (Some it) ∧ ∃ p, dshows h it p)
  (Hsep : index_separates) (Hkeys : ∀ e, e ∈ es → target_ok e.1) (Hikeys : ∀ i, i ∈ ies → target_ok i.1).

(** *** Ranks *)

(** The number of entries before block [q]. *)
Definition off (q : nat) : nat := length (concat (take q blocks)).

Lemma blocks_off_S q i : ies !! q = Some i → off (S q) = (off q + length (blk i.2))%nat.
Proof.
  intros Hq. unfold off. rewrite (take_S_r blocks q (blk i.2)) by (unfold blocks; by rewrite list_lookup_fmap, Hq).
  rewrite concat_app, length_app. cbn [concat]. by rewrite app_nil_r.
Qed.

Lemma blocks_off_all : off (length ies) = length es.
Proof. unfold off. rewrite take_ge; [done|]. unfold blocks. by rewrite length_map. Qed.

Lemma blocks_off_0 : off 0 = 0%nat.
Proof. done. Qed.

Lemma block_entry q i p : ies !! q = Some i → (p < length (blk i.2))%nat → es !! (off q + p)%nat = blk i.2 !! p.
Proof.
  intros Hq Hp. assert (blocks !! q = Some (blk i.2)) as Hb by (unfold blocks; by rewrite list_lookup_fmap, Hq).
  rewrite <- (take_drop_middle blocks q _ Hb) at 1. rewrite concat_app, lookup_app_r by (unfold off; lia).
  unfold off. replace (_ + p - _)%nat with p by lia. cbn [concat]. by rewrite lookup_app_l.
Qed.

(** Every rank lies in one block. *)
Lemma rank_block r e : es !! r = Some e → ∃ q i p, ies !! q = Some i ∧ blk i.2 !! p = Some e ∧ r = (off q + p)%nat.
Proof.
  intros Hr. assert (∀ q, (r < off q)%nat → (q ≤ length ies)%nat →
    ∃ q i p, ies !! q = Some i ∧ (p < length (blk i.2))%nat ∧ r = (off q + p)%nat) as H.
  { induction q as [|q IH]; intros Hlt Hq; [rewrite blocks_off_0 in Hlt; lia|].
    destruct (decide (r < off q)%nat) as [|Hge]; [apply IH; lia|].
    destruct (lookup_lt_is_Some_2 ies q Hq) as [i Hi]. rewrite (blocks_off_S q i Hi) in Hlt.
    exists q, i, (r - off q)%nat. split_and!; [done | lia..]. }
  destruct (H (length ies)) as (q & i & p & Hi & Hp & ->); [rewrite blocks_off_all; by eapply lookup_lt_Some | done|].
  exists q, i, p. split_and!; [done | | done]. by rewrite <- (block_entry q i p Hi Hp).
Qed.

Lemma blocks_off_mono q q' : (q ≤ q')%nat → (off q ≤ off q')%nat.
Proof.
  intros Hq. unfold off. replace (take q blocks) with (take q (take q' blocks)) by (rewrite take_take; f_equal; lia).
  rewrite <- (take_drop q (take q' blocks)) at 2. rewrite concat_app, length_app. lia.
Qed.

Lemma block_elem q i x : ies !! q = Some i → x ∈ blk i.2 → blocks !! q = Some (blk i.2) ∧ x ∈ es.
Proof.
  intros Hq Hx. assert (blocks !! q = Some (blk i.2)) as Hb by (unfold blocks; by rewrite list_lookup_fmap, Hq).
  split; [done|]. apply list_elem_of_In, in_concat. exists (blk i.2). split; apply list_elem_of_In; [by eapply list_elem_of_lookup_2 | done].
Qed.

(** The first entry at or after a target. *)
Lemma seek_rank t q i : target_ok t → q = lower_bound ord ies t → ies !! q = Some i →
  lower_bound ord es t = (off q + lower_bound ord (blk i.2) t)%nat.
Proof.
  intros Ht -> Hi. set (q := lower_bound ord ies t) in *. pose proof (lower_bound_le ord (blk i.2) t) as Hle.
  pose proof (Hikeys i (list_elem_of_lookup_2 _ _ _ Hi)) as Hik.
  symmetry. apply lower_bound_unique.
  - rewrite <- blocks_off_all. etransitivity; [|apply (blocks_off_mono (S q)); by eapply lookup_lt_Some]. rewrite (blocks_off_S q i Hi). lia.
  - intros r x Hr Hx. destruct (rank_block r x Hx) as (q' & i' & p' & Hi' & Hp' & ->).
    destruct (block_elem q' i' x Hi' (list_elem_of_lookup_2 _ _ _ Hp')) as [Hb' Hin].
    destruct (decide (q' = q)) as [->|Hne].
    + rewrite Hi in Hi'. injection Hi' as <-. apply (lower_bound_below ord (blk i.2) t p'); [lia | done].
    + assert (q' < q)%nat as Hlt.
      { destruct (decide (q' < q)%nat); [done|]. pose proof (blocks_off_mono (S q) q' ltac:(lia)) as Hm. rewrite (blocks_off_S q i Hi) in Hm. lia. }
      pose proof (lower_bound_below ord ies t q' i' Hlt Hi') as Hbelow.
      apply (order_le_lt target_ok ord x.1 i'.1 t); [by apply Hkeys | apply Hikeys; by eapply list_elem_of_lookup_2 | done | | done].
      apply (Hsep q' i' q' _ Hi' Hb'); [by eapply list_elem_of_lookup_2 | done].
  - intros x Hx. destruct (decide (lower_bound ord (blk i.2) t < length (blk i.2))%nat) as [Hlt|Hge].
    + rewrite (block_entry q i _ Hi Hlt) in Hx. by apply (lower_bound_at ord (blk i.2)).
    + destruct (rank_block _ x Hx) as (q' & i' & p' & Hi' & Hp' & E).
      destruct (block_elem q' i' x Hi' (list_elem_of_lookup_2 _ _ _ Hp')) as [Hb' Hin].
      assert (q < q')%nat as Hlt.
      { destruct (decide (q < q')%nat); [done|]. pose proof (blocks_off_mono (S q') (S q) ltac:(lia)) as Hm.
        rewrite (blocks_off_S q' i' Hi'), (blocks_off_S q i Hi) in Hm. apply lookup_lt_Some in Hp'. lia. }
      pose proof (lower_bound_at ord ies t i Hi) as Hat.
      assert (ord i.1 x.1 < 0) as Hix.
      { apply (Hsep q i q' _ Hi Hb'); [by eapply list_elem_of_lookup_2 | done]. }
      destruct (Z.lt_ge_cases (ord x.1 t) 0) as [Hxt|]; [|done].
      pose proof (order_lt_le target_ok ord i.1 x.1 t Hik (Hkeys x Hin) Ht Hix). lia.
Qed.

Lemma seek_rank_end t : target_ok t → lower_bound ord ies t = length ies → lower_bound ord es t = length es.
Proof.
  intros Ht Hlb. symmetry. apply lower_bound_unique; [done | |intros x Hx; apply lookup_lt_Some in Hx; lia].
  intros r x Hr Hx. destruct (rank_block r x Hx) as (q' & i' & p' & Hi' & Hp' & ->).
  destruct (block_elem q' i' x Hi' (list_elem_of_lookup_2 _ _ _ Hp')) as [Hb' Hin].
  assert (ord i'.1 t < 0) by (apply (lower_bound_below ord ies t q' i'); [rewrite Hlb; by eapply lookup_lt_Some | done]).
  apply (order_le_lt target_ok ord x.1 i'.1 t); [by apply Hkeys | apply Hikeys; by eapply list_elem_of_lookup_2 | done | | done].
  apply (Hsep q' i' q' _ Hi' Hb'); [by eapply list_elem_of_lookup_2 | done].
Qed.

(** *** The parts of the state *)

(** The index is at [q] and the data iterator is null or at a position of a block. *)
Definition state_ok (t : @two_level SI SD) (q : nat) (dp : option (list byte * nat)) : Prop :=
  status_ t = status_ok ∧ in_step ies ishows (index_iter_ t) q ∧
  match dp with
  | None => iter_ (data_iter_ t) = None ∧ valid_ (data_iter_ t) = false
  | Some (h, p) => in_step (blk h) (dshows h) (data_iter_ t) p ∧ data_block_handle_ t = h
  end.

Lemma state_has_data t q dp : state_ok t q dp → has_data t = bool_decide (dp ≠ None).
Proof.
  intros (_ & _ & Hd). unfold has_data. destruct dp as [[h p]|].
  - destruct Hd as [(it & E & _) _]. rewrite E. by rewrite !bool_decide_true.
  - destruct Hd as [-> _]. by rewrite !bool_decide_false by auto.
Qed.

Lemma state_valid t q dp : state_ok t q dp →
  Valid t = match dp with Some (h, p) => bool_decide (p < length (blk h))%nat | None => false end.
Proof.
  intros (_ & _ & Hd). unfold Valid. destruct dp as [[h p]|]; [|by destruct Hd].
  destruct Hd as [Hd _]. apply (in_step_valid _ _ _ _ Hd).
Qed.

Lemma set_data_null t q dp : state_ok t q dp → ∃ t', SetDataIterator data None t = Ok t' ∧ state_ok t' q None.
Proof.
  intros Ht. pose proof (state_has_data t q dp Ht) as Hh. destruct Ht as (Hst & Hi & Hd). unfold SetDataIterator. rewrite Hh.
  destruct dp as [[h p]|]; [rewrite bool_decide_true by done|rewrite bool_decide_false by auto].
  - destruct Hd as [Hd Eh]. pose proof (HD h). rewrite (in_step_status data ord target_ok (blk h) (dshows h) _ _ Hd).
    cbn [mbind outcome_bind]. unfold SaveError. rewrite Hst. cbn [ok]. cbn. eexists. split; [reflexivity|]. done.
  - cbn. eexists. split; [reflexivity|]. done.
Qed.

Lemma set_data_open t q dp k h it p : state_ok t q dp → ies !! q = Some (k, h) → dshows h it p →
  ∃ t', SetDataIterator data (Some it) (with_handle h t) = Ok t' ∧ state_ok t' q (Some (h, p)).
Proof.
  intros Ht Hq Hit. pose proof (state_has_data t q dp Ht) as Hh. destruct Ht as (Hst & Hi & Hd). unfold SetDataIterator.
  change (has_data (with_handle h t)) with (has_data t). rewrite Hh. cbn [data_iter_ with_handle].
  assert (∀ s, ok s = true → ∀ t0 : @two_level SI SD, SaveError s t0 = t0) as Hsave.
  { intros s Hs t0. unfold SaveError. rewrite Hs. by rewrite andb_false_r. }
  pose proof (HD h). destruct (Update_in_step data ord target_ok (blk h) (dshows h) it p (key_ (data_iter_ t)) Hit) as (w & E & Hw).
  assert ((if bool_decide (dp ≠ None) then s ← wrapper_status data (data_iter_ t); Ok (SaveError s (with_handle h t)) else
    Ok (with_handle h t)) = Ok (with_handle h t)) as ->.
  { destruct dp as [[h' p']|]; [rewrite bool_decide_true by done|by rewrite bool_decide_false by auto].
    destruct Hd as [Hd _]. pose proof (HD h'). rewrite (in_step_status data ord target_ok (blk h') (dshows h') _ _ Hd).
    cbn [mbind outcome_bind]. by rewrite Hsave. }
  cbn [mbind outcome_bind Set_ data_iter_ with_handle]. rewrite E. cbn [mbind outcome_bind]. eexists. split; [reflexivity|]. done.
Qed.

Lemma InitDataBlock_spec t q dp : state_ok t q dp →
  ∃ t', InitDataBlock index data block_function_ t = Ok t' ∧
    match ies !! q with
    | Some i => ∃ p, state_ok t' q (Some (i.2, p))
    | None => state_ok t' q None
    end.
Proof.
  intros Ht. pose proof Ht as (Hst & Hi & Hd). unfold InitDataBlock. rewrite (in_step_valid _ _ _ _ Hi).
  destruct (ies !! q) as [[k h]|] eqn:Hq.
  - rewrite bool_decide_true by (by eapply lookup_lt_Some).
    destruct (in_step_entry index ord target_ok ies ishows _ q (k, h) Hi Hq) as [_ ->]. cbn [mbind outcome_bind snd].
    rewrite (state_has_data t q dp Ht).
    destruct (bool_decide (dp ≠ None) && bool_decide (h = data_block_handle_ t)) eqn:Ec.
    + apply andb_true_iff in Ec as [Hn Hh]. apply bool_decide_eq_true in Hn, Hh. destruct dp as [[h' p]|]; [|done].
      destruct Hd as [Hd <-]. exists t. split; [done|]. exists p. rewrite <- Hh in *. done.
    + destruct (Hopen k h) as (it & -> & p & Hp); [by eapply list_elem_of_lookup_2|]. cbn [mbind outcome_bind].
      destruct (set_data_open t q dp k h it p Ht Hq Hp) as (t' & -> & Ht'). exists t'. eauto.
  - apply lookup_ge_None in Hq. rewrite bool_decide_false by lia. by apply (set_data_null t q dp).
Qed.

Lemma move_index_spec op t q dp : state_ok t q dp → op_allowed target_ok ies q op →
  ∃ t', move_index index op t = Ok t' ∧ state_ok t' (spec_op ord ies q op) dp.
Proof.
  intros (Hst & Hi & Hd) Hop. unfold move_index.
  destruct (move_in_step index ord target_ok ies ishows _ q op Hi Hop) as (w & -> & Hw). cbn [mbind outcome_bind].
  eexists. split; [reflexivity|]. done.
Qed.

Lemma move_data_spec op t q h p : state_ok t q (Some (h, p)) → op_allowed target_ok (blk h) p op →
  ∃ t', move_data data op t = Ok t' ∧ state_ok t' q (Some (h, spec_op ord (blk h) p op)).
Proof.
  intros (Hst & Hi & Hd & Hh) Hop. unfold move_data. pose proof (HD h).
  destruct (move_in_step data ord target_ok (blk h) (dshows h) _ p op Hd Hop) as (w & -> & Hw). cbn [mbind outcome_bind].
  eexists. split; [reflexivity|]. done.
Qed.

(** The index moves, the block at its new position is opened and its iterator moves. *)
Lemma enter_block iop op t q dp : state_ok t q dp → op_allowed target_ok ies q iop → (∀ h p, op_allowed target_ok (blk h) p op) →
  ∃ t1 t2 t', move_index index iop t = Ok t1 ∧ InitDataBlock index data block_function_ t1 = Ok t2 ∧
    move_if_data data op t2 = Ok t' ∧ let q' := spec_op ord ies q iop in
    match ies !! q' with
    | Some i => ∃ p, state_ok t' q' (Some (i.2, spec_op ord (blk i.2) p op))
    | None => state_ok t' q' None
    end.
Proof.
  intros Ht Hiop Hop. destruct (move_index_spec iop t q dp Ht Hiop) as (t1 & E1 & H1).
  destruct (InitDataBlock_spec t1 _ dp H1) as (t2 & E2 & H2). exists t1, t2. cbv zeta. unfold move_if_data.
  destruct (ies !! spec_op ord ies q iop) as [i|].
  - destruct H2 as [p H2]. rewrite (state_has_data _ _ _ H2), bool_decide_true by done.
    destruct (move_data_spec op t2 _ _ p H2 (Hop _ _)) as (t' & E' & H'). exists t'. split_and!; try done. by exists p.
  - rewrite (state_has_data _ _ _ H2), bool_decide_false by auto. by exists t2.
Qed.

(** *** The cursor *)

Definition shows2 (t : @two_level SI SD) (pos : nat) : Prop :=
  if decide (pos < length es)%nat then
    ∃ q i p, ies !! q = Some i ∧ state_ok t q (Some (i.2, p)) ∧ (p < length (blk i.2))%nat ∧ pos = (off q + p)%nat
  else pos = length es ∧ ∃ q, state_ok t q None.

Lemma shows_in t q i p : ies !! q = Some i → state_ok t q (Some (i.2, p)) → (p < length (blk i.2))%nat → shows2 t (off q + p)%nat.
Proof.
  intros Hi Ht Hp. unfold shows2. pose proof (blocks_off_mono (S q) (length ies) ltac:(by eapply lookup_lt_Some)) as Hm.
  rewrite (blocks_off_S q i Hi), blocks_off_all in Hm. rewrite decide_True by lia. by exists q, i, p.
Qed.

Lemma shows_none t q : state_ok t q None → shows2 t (length es).
Proof. intros Ht. unfold shows2. rewrite decide_False by lia. split; [done|]. by exists q. Qed.

(** Skipping forward keeps the rank. *)
Lemma forward_spec fuel : ∀ t q i p, ies !! q = Some i → state_ok t q (Some (i.2, p)) → (length ies - q < fuel)%nat →
  ∃ t', forward_loop index data block_function_ fuel t = Ok t' ∧ shows2 t' (off q + p)%nat.
Proof.
  induction fuel as [|fuel IH]; intros t q i p Hi Ht Hf; [lia|]. cbn [forward_loop].
  rewrite (state_has_data _ _ _ Ht), (state_valid _ _ _ Ht). rewrite bool_decide_true by done. cbn [negb orb].
  case_bool_decide as Hp; cbn [negb]. { exists t. split; [done|]. by apply (shows_in t q i). }
  pose proof Ht as (_ & Hix & Hd & _). pose proof (HD i.2) as HDi. pose proof (in_step_le data ord target_ok _ _ _ _ Hd) as Hle.
  rewrite (in_step_valid _ _ _ _ Hix), bool_decide_true by (by eapply lookup_lt_Some).
  destruct (enter_block OpNext OpFirst t q _ Ht) as (t1 & t2 & t3 & -> & E2 & E3 & H3); [by eapply lookup_lt_Some | done|].
  cbn [mbind outcome_bind]. rewrite E2. cbn [mbind outcome_bind]. rewrite E3. cbn [mbind outcome_bind].
  cbn [spec_op] in H3. replace (off q + p)%nat with (off (S q) + 0)%nat by (rewrite (blocks_off_S q i Hi); lia).
  destruct (ies !! S q) as [i'|] eqn:Hi'.
  - destruct H3 as [_ H3]. apply (IH t3 (S q) i' 0%nat Hi' H3). apply lookup_lt_Some in Hi'. lia.
  - assert (off (S q) + 0 = length es)%nat as ->.
    { rewrite <- blocks_off_all, Nat.add_0_r. f_equal. apply lookup_ge_None in Hi'. apply lookup_lt_Some in Hi. lia. }
    destruct fuel as [|fuel]; [apply lookup_lt_Some in Hi; lia|]. cbn [forward_loop].
    rewrite (state_has_data _ _ _ H3), bool_decide_false by auto. cbn [negb orb].
    pose proof H3 as (_ & Hi3 & _). rewrite (in_step_valid _ _ _ _ Hi3), bool_decide_false by (by apply lookup_ge_None in Hi'; lia).
    destruct (set_data_null t3 _ _ H3) as (t' & -> & H'). exists t'. split; [done|]. by eapply shows_none.
Qed.

Lemma forward_end fuel t q : state_ok t q None → ies !! q = None → (0 < fuel)%nat →
  ∃ t', forward_loop index data block_function_ fuel t = Ok t' ∧ shows2 t' (length es).
Proof.
  intros Ht Hq Hf. destruct fuel as [|fuel]; [lia|]. cbn [forward_loop]. rewrite (state_has_data _ _ _ Ht), bool_decide_false by auto.
  cbn [negb orb]. pose proof Ht as (_ & Hi & _). apply lookup_ge_None in Hq.
  rewrite (in_step_valid _ _ _ _ Hi), bool_decide_false by lia.
  destruct (set_data_null t _ _ Ht) as (t' & -> & H'). exists t'. split; [done|]. by eapply shows_none.
Qed.

(** Skipping backward from a position off its block finds the entry before the block. *)
Definition before (r : nat) : nat := if (r =? 0)%nat then length es else pred r.

Lemma backward_spec fuel : ∀ t q i p, ies !! q = Some i → state_ok t q (Some (i.2, p)) → (S q < fuel)%nat →
  ∃ t', backward_loop index data block_function_ fuel t = Ok t' ∧
    shows2 t' (if decide (p < length (blk i.2))%nat then off q + p else before (off q))%nat.
Proof.
  induction fuel as [|fuel IH]; intros t q i p Hi Ht Hf; [lia|]. cbn [backward_loop].
  rewrite (state_has_data _ _ _ Ht), (state_valid _ _ _ Ht). rewrite bool_decide_true by done. cbn [negb orb].
  destruct (decide (p < length (blk i.2))%nat) as [Hp|Hp]; [rewrite bool_decide_true by done|rewrite bool_decide_false by done]; cbn [negb].
  { exists t. split; [done|]. by apply (shows_in t q i). }
  pose proof Ht as (_ & Hix & _). pose proof (lookup_lt_Some _ _ _ Hi) as Hq.
  rewrite (in_step_valid _ _ _ _ Hix), bool_decide_true by done.
  destruct (enter_block OpPrev OpLast t q _ Ht) as (t1 & t2 & t3 & -> & E2 & E3 & H3); [done | done|].
  cbn [mbind outcome_bind]. rewrite E2. cbn [mbind outcome_bind]. rewrite E3. cbn [mbind outcome_bind].
  cbn [spec_op] in H3. destruct (Nat.eqb_spec q 0) as [->|Hq0].
  - rewrite (proj2 (lookup_ge_None ies (length ies))) in H3 by done. destruct fuel as [|fuel]; [lia|]. cbn [backward_loop].
    rewrite (state_has_data _ _ _ H3), bool_decide_false by auto. cbn [negb orb].
    pose proof H3 as (_ & Hi3 & _). rewrite (in_step_valid _ _ _ _ Hi3), bool_decide_false by lia.
    destruct (set_data_null t3 _ _ H3) as (t' & -> & H'). exists t'. split; [done|]. by eapply shows_none.
  - destruct (lookup_lt_is_Some_2 ies (pred q) ltac:(lia)) as [i' Hi']. rewrite Hi' in H3. destruct H3 as [p' H3]. cbn [spec_op] in H3.
    destruct (IH t3 (pred q) i' _ Hi' H3 ltac:(lia)) as (t' & E & H'). exists t'. split; [done|].
    pose proof (blocks_off_S (pred q) i' Hi') as Eo. replace (S (pred q)) with q in Eo by lia. rewrite Eo.
    destruct (decide _) as [Hlt|Hge] in H'; unfold before in *.
    + destruct (Nat.eqb_spec (off (pred q) + length (blk i'.2)) 0); [lia|]. by replace (pred (off (pred q) + _))%nat with
        (off (pred q) + pred (length (blk i'.2)))%nat by lia.
    + by replace (off (pred q) + length (blk i'.2))%nat with (off (pred q)) by lia.
Qed.

Lemma backward_end fuel t q : state_ok t q None → ies !! q = None → (0 < fuel)%nat →
  ∃ t', backward_loop index data block_function_ fuel t = Ok t' ∧ shows2 t' (length es).
Proof.
  intros Ht Hq Hf. destruct fuel as [|fuel]; [lia|]. cbn [backward_loop]. rewrite (state_has_data _ _ _ Ht), bool_decide_false by auto.
  cbn [negb orb]. pose proof Ht as (_ & Hi & _). apply lookup_ge_None in Hq.
  rewrite (in_step_valid _ _ _ _ Hi), bool_decide_false by lia.
  destruct (set_data_null t _ _ Ht) as (t' & -> & H'). exists t'. split; [done|]. by eapply shows_none.
Qed.

Lemma shows_state t pos : shows2 t pos → ∃ q dp, state_ok t q dp.
Proof. unfold shows2. destruct (decide _); [intros (q & i & p & _ & ? & _) | intros (_ & q & ?)]; eauto. Qed.

Lemma shows_at_entry t pos e : shows2 t pos → es !! pos = Some e →
  ∃ q i p, ies !! q = Some i ∧ state_ok t q (Some (i.2, p)) ∧ blk i.2 !! p = Some e ∧ pos = (off q + p)%nat.
Proof.
  intros Hs He. unfold shows2 in Hs. rewrite decide_True in Hs by (by eapply lookup_lt_Some).
  destruct Hs as (q & i & p & Hi & Ht & Hp & ->). exists q, i, p. split_and!; try done. by rewrite <- (block_entry q i p Hi Hp).
Qed.

Lemma shows_valid2 t pos : shows2 t pos → Valid t = bool_decide (pos < length es)%nat.
Proof.
  unfold shows2. destruct (decide (pos < length es)%nat); [rewrite bool_decide_true by done|rewrite bool_decide_false by done].
  - intros (q & i & p & _ & Ht & Hp & _). rewrite (state_valid _ _ _ Ht). by rewrite bool_decide_true.
  - intros (_ & q & Ht). apply (state_valid _ _ _ Ht).
Qed.

Context (fuel : nat) (Hfuel : (S (length ies) < fuel)%nat).

(** Both levels move to a position, then empty blocks are skipped forward. *)
Lemma jump_forward iop op t q dp r : state_ok t q dp → op_allowed target_ok ies q iop → (∀ h p, op_allowed target_ok (blk h) p op) →
  let q' := spec_op ord ies q iop in (q' ≤ length ies)%nat →
  (∀ i p, ies !! q' = Some i → r = (off q' + spec_op ord (blk i.2) p op)%nat) → (ies !! q' = None → r = length es) →
  ∃ t', (t ← move_index index iop t; t ← InitDataBlock index data block_function_ t; t ← move_if_data data op t;
         forward_loop index data block_function_ fuel t) = Ok t' ∧ shows2 t' r.
Proof.
  intros Ht Hiop Hop q' Hq' Hin Hend.
  destruct (enter_block iop op t q dp Ht Hiop Hop) as (t1 & t2 & t3 & -> & E2 & E3 & H3). cbv zeta in H3. fold q' in H3.
  cbn [mbind outcome_bind]. rewrite E2. cbn [mbind outcome_bind]. rewrite E3. cbn [mbind outcome_bind].
  destruct (ies !! q') as [i|] eqn:Hi.
  - destruct H3 as [p H3]. rewrite (Hin i p eq_refl). apply (forward_spec fuel t3 q' i _ Hi H3). lia.
  - rewrite (Hend eq_refl). apply (forward_end fuel t3 q' H3 Hi). lia.
Qed.

Lemma two_level_first t q dp : state_ok t q dp → ∃ t', SeekToFirst index data block_function_ fuel t = Ok t' ∧ shows2 t' 0.
Proof.
  intros Ht. apply (jump_forward OpFirst OpFirst t q dp 0 Ht I); cbn [spec_op]; [done | lia | |].
  - intros i p Hi. by rewrite blocks_off_0.
  - intros Hn. apply lookup_ge_None in Hn. unfold blocks. destruct ies as [|? ?]; [done | cbn in Hn; lia].
Qed.

Lemma two_level_seek t q dp target : state_ok t q dp → target_ok target →
  ∃ t', Seek index data block_function_ fuel t target = Ok t' ∧ shows2 t' (lower_bound ord es target).
Proof.
  intros Ht Htarget. apply (jump_forward (OpSeek target) (OpSeek target) t q dp _ Ht Htarget); cbn [spec_op]; [done | | |].
  - apply lower_bound_le.
  - intros i p Hi. by apply seek_rank.
  - intros Hn. apply lookup_ge_None in Hn. apply seek_rank_end; [done|]. pose proof (lower_bound_le ord ies target). lia.
Qed.

Lemma two_level_last t q dp : state_ok t q dp → ∃ t', SeekToLast index data block_function_ fuel t = Ok t' ∧ shows2 t' (pred (length es)).
Proof.
  intros Ht. unfold SeekToLast.
  destruct (enter_block OpLast OpLast t q dp Ht I) as (t1 & t2 & t3 & -> & E2 & E3 & H3); [done|]. cbn [spec_op] in H3.
  cbn [mbind outcome_bind]. rewrite E2. cbn [mbind outcome_bind]. rewrite E3. cbn [mbind outcome_bind].
  destruct (ies !! pred (length ies)) as [i|] eqn:Hi.
  - destruct H3 as [_ H3]. destruct (backward_spec fuel t3 _ i _ Hi H3) as (t' & E & H'); [lia|]. exists t'. split; [done|].
    pose proof (blocks_off_S _ i Hi) as Eo. pose proof (lookup_lt_Some _ _ _ Hi) as Hl.
    replace (S (pred (length ies))) with (length ies) in Eo by lia. rewrite blocks_off_all in Eo. rewrite Eo.
    destruct (decide _) as [Hlt|Hge] in H'.
    + by replace (pred (_ + _))%nat with (off (pred (length ies)) + pred (length (blk i.2)))%nat by lia.
    + unfold before in H'. replace (length (blk i.2)) with 0%nat in * by lia. rewrite Nat.add_0_r in *.
      destruct (Nat.eqb_spec (off (pred (length ies))) 0) as [E0|]; [|done]. rewrite E0 in *. by rewrite Eo in H'.
  - destruct (backward_end fuel t3 _ H3 Hi) as (t' & E & H'); [lia|]. exists t'. split; [done|].
    apply lookup_ge_None in Hi. assert (length ies = 0)%nat as E0 by lia. rewrite <- blocks_off_all, E0 in *. done.
Qed.

Lemma two_level_next t pos : shows2 t pos → (pos < length es)%nat →
  ∃ t', Next index data block_function_ fuel t = Ok t' ∧ shows2 t' (S pos).
Proof.
  intros Hs Hpos. unfold Next. rewrite (shows_valid2 t pos Hs), bool_decide_true by done.
  unfold shows2 in Hs. rewrite decide_True in Hs by done. destruct Hs as (q & i & p & Hi & Ht & Hp & ->).
  destruct (move_data_spec OpNext t q _ p Ht Hp) as (t1 & -> & H1). cbn [mbind outcome_bind].
  destruct (forward_spec fuel t1 q i _ Hi H1) as (t' & E & H'); [lia|]. exists t'. split; [done|].
  cbn [spec_op] in H'. by replace (S (off q + p))%nat with (off q + S p)%nat by lia.
Qed.

Lemma two_level_prev t pos : shows2 t pos → (pos < length es)%nat →
  ∃ t', Prev index data block_function_ fuel t = Ok t' ∧ shows2 t' (if (pos =? 0)%nat then length es else pred pos).
Proof.
  intros Hs Hpos. unfold Prev. rewrite (shows_valid2 t pos Hs), bool_decide_true by done.
  unfold shows2 in Hs. rewrite decide_True in Hs by done. destruct Hs as (q & i & p & Hi & Ht & Hp & ->).
  destruct (move_data_spec OpPrev t q _ p Ht Hp) as (t1 & -> & H1). cbn [mbind outcome_bind spec_op] in *.
  destruct (backward_spec fuel t1 q i _ Hi H1) as (t' & E & H'); [pose proof (lookup_lt_Some _ _ _ Hi); lia|].
  exists t'. split; [done|]. destruct (Nat.eqb_spec p 0) as [->|Hne].
  - rewrite decide_False in H' by lia. by rewrite Nat.add_0_r.
  - rewrite decide_True in H' by lia. destruct (Nat.eqb_spec (off q + p) 0); [lia|].
    by replace (pred (off q + p)) with (off q + pred p)%nat by lia.
Qed.

Lemma two_level_laws : CursorLaws (TwoLevelIterator index data block_function_ fuel) ord target_ok es shows2.
Proof.
  split; intros t pos.
  - unfold shows2. destruct (decide _); [lia | intros [-> _]; done].
  - apply shows_valid2.
  - intros e Hs He. cbn [it_key it_value TwoLevelIterator]. unfold two_key, two_value.
    rewrite (shows_valid2 t pos Hs), bool_decide_true by (by eapply lookup_lt_Some).
    destruct (shows_at_entry t pos e Hs He) as (q & i & p & Hi & (_ & _ & Hd & _) & Hp & _). pose proof (HD i.2).
    apply (in_step_entry data ord target_ok _ _ _ p e Hd Hp).
  - intros Hs. destruct (shows_state t pos Hs) as (q & dp & Ht). cbn [it_status TwoLevelIterator]. unfold two_status.
    rewrite (state_has_data t q dp Ht). destruct Ht as (Hst & Hi & Hd).
    rewrite (in_step_status index ord target_ok ies ishows _ q Hi). cbn [mbind outcome_bind]. cbn [ok status_ok].
    destruct dp as [[h p]|]; [rewrite bool_decide_true by done|rewrite bool_decide_false by auto]; cbn.
    + destruct Hd as [Hd _]. pose proof (HD h). rewrite (in_step_status data ord target_ok _ _ _ p Hd). cbn. by rewrite Hst.
    + by rewrite Hst.
  - intros op Hs Hop. destruct (shows_state t pos Hs) as (q & dp & Ht).
    destruct op; cbn [run_op TwoLevelIterator it_Next it_Prev it_Seek it_SeekToFirst it_SeekToLast spec_op op_allowed] in *.
    + by eapply two_level_first.
    + by eapply two_level_last.
    + by apply two_level_next.
    + by apply two_level_prev.
    + by eapply two_level_seek.
Qed.

Lemma new_two_level it p : ishows it p →
  ∃ t, NewTwoLevelIterator index it = Ok t ∧ shows2 t (length es).
Proof.
  intros Hit. unfold NewTwoLevelIterator. cbn [Set_ new key_].
  destruct (Update_in_step index ord target_ok ies ishows it p [] Hit) as (w & -> & Hw). cbn [mbind outcome_bind].
  eexists. split; [reflexivity|]. eapply (shows_none _ p). split; [done|]. by split.
Qed.

End proof.

(** ** Properties *)

(** C18: The two-level iterator is a cursor on the entries of all blocks.  When the index
    and the block iterators keep the contract and every index key separates its block
    from the following ones, the iterator runs through the blocks in both directions and
    seeks in them as one list, empty blocks included, under any sequence of calls; the
    loops that skip blocks end within the number of blocks, the status is OK and no
    assertion fails. *)
Theorem two_level_cursor {SI SD} (cmp : Comparator) (index : IteratorOps SI) (data : IteratorOps SD)
    (block_function_ : list byte → outcome (option SD)) (target_ok : list byte → Prop) (HO : OrderLaws target_ok (Compare cmp))
    (ies : list entry) (blk : list byte → list entry) (ishows : SI → nat → Prop) (dshows : list byte → SD → nat → Prop)
    (HI : CursorLaws index (Compare cmp) target_ok ies ishows)
    (HD : ∀ h, CursorLaws data (Compare cmp) target_ok (blk h) (dshows h))
    (Hopen : ∀ k h, (k, h) ∈ ies → ∃ it, block_function_ h = Ok (Some it) ∧ ∃ p, dshows h it p)
    (Hsep : index_separates cmp ies blk) (Hkeys : ∀ e, e ∈ concat (blocks ies blk) → target_ok e.1)
    (Hikeys : ∀ i, i ∈ ies → target_ok i.1) (fuel : nat) (Hfuel : (S (length ies) < fuel)%nat)
    (it : SI) (Hit : ishows it (length ies)) :
  let es := concat (blocks ies blk) in
  let two := TwoLevelIterator index data block_function_ fuel in
  ∃ t0, NewTwoLevelIterator index it = Ok t0 ∧
    ∀ ops, ops_allowed (Compare cmp) target_ok es (length es) ops →
      let pos := foldl (spec_op (Compare cmp) es) (length es) ops in
      ∃ t, run_ops two t0 ops = Ok t ∧ it_status two t = Ok status_ok ∧
        it_Valid two t = bool_decide (pos < length es)%nat ∧
        ∀ k v, es !! pos = Some (k, v) → it_key two t = Ok k ∧ it_value two t = Ok v.
Proof.
  cbv zeta. destruct (new_two_level cmp index target_ok ies blk ishows dshows HI it _ Hit) as (t0 & E & H0).
  exists t0. split; [done|]. intros ops Hops.
  pose proof (two_level_laws cmp index data block_function_ target_ok ies blk ishows dshows HI HD Hopen Hsep Hkeys Hikeys fuel Hfuel) as HL.
  by apply (cursor_observed (TwoLevelIterator index data block_function_ fuel) (Compare cmp) target_ok (concat (blocks ies blk))
    (shows2 ies blk ishows dshows) ops t0 (length (concat (blocks ies blk)))).
Qed.

(** Three blocks, the second one empty. *)
Definition demo_ord : list byte → list byte → Z := Compare BytewiseComparator.
Definition demo_block (h : list byte) : list entry :=
  if decide (h = str "1") then [(str "a", str "x"); (str "b", str "y")]
  else if decide (h = str "3") then [(str "f", str "z")] else [].
Definition demo_index : list entry := [(str "c", str "1"); (str "d", str "2"); (str "f", str "3")].

Definition demo_data : IteratorOps (list entry * nat) := carried_cursor demo_ord.

Lemma two_level_cursor_witness :
  let two := TwoLevelIterator (list_cursor demo_ord demo_index) demo_data (λ h, Ok (Some (demo_block h, O))) 5 in
  ∃ t0, NewTwoLevelIterator (list_cursor demo_ord demo_index) 3%nat = Ok t0 ∧
    ∃ t, run_ops two t0 [OpSeek (str "b"); OpNext; OpPrev; OpPrev; OpNext; OpNext] = Ok t ∧ it_key two t = Ok (str "f").
Proof.
  cbv zeta. destruct (two_level_cursor BytewiseComparator (list_cursor demo_ord demo_index) demo_data (λ h, Ok (Some (demo_block h, O)))
    any_key (comparator_order any_key _ bytewise_laws) demo_index demo_block (λ it pos, it = pos ∧ (pos ≤ 3)%nat)
    (λ h it pos, it = (demo_block h, pos) ∧ (pos ≤ length (demo_block h))%nat)) with (fuel := 5%nat) (it := 3%nat) as (t0 & E & Hops).
  - apply list_cursor_laws.
  - intros h. apply carried_cursor_laws.
  - intros k h _. eexists. split; [reflexivity|]. exists O. split; [done | lia].
  - intros j k b e Hj Hb x Hx.
    destruct j as [|[|[|j]]]; try done; injection Hj as <-; destruct b as [|[|[|b]]]; try done; injection Hb as <-;
      revert x Hx; apply Forall_forall; vm_compute; repeat (constructor; [split; intros ?; (lia || discriminate || reflexivity)|]); constructor.
  - done.
  - done.
  - cbn. lia.
  - cbn. lia.
  - exists t0. split; [exact E|]. destruct (Hops [OpSeek (str "b"); OpNext; OpPrev; OpPrev; OpNext; OpNext]) as (t & Er & _ & _ & Hk).
    + repeat split; vm_compute; lia.
    + exists t. split; [exact Er|]. apply (Hk (str "f") (str "z")). vm_compute. reflexivity.
Defined.
