(* ===== verification/Table.v ===== *)
(** * table/table.cc: reading a table file

    [Open] reads the footer, the index and the filter; an iterator is the two-level
    iterator over the index; [InternalGet] looks one key up.  The file and the block cache
    are parameters: [cached] is what [Lookup] returns for a key, and the block that would
    be inserted is a part of the result of [BlockReader].  The cleanup functions of the
    iterators only free memory.  [fuel] bounds the loops of the two-level iterator, as in
    TwoLevel.v. *)
From S2P Require Import Prelude.
From S2P Require Import Coding.
From S2P Require Import Interfaces.
From S2P Require Import Bloom.
From S2P Require Import Comparator.
From S2P Require Import Status.
From S2P Require Import Log.
From S2P Require Import FilterBlock.
From S2P Require Import Cursor.
From S2P Require Import Block.
From S2P Require Import Format.
From S2P Require Import TableBuilder.
From S2P Require Import Iterators.
From S2P Require Import TwoLevel.
Import BlockHandle Footer Format.

(** ** Definitions *)

(** *** Iterators over any block *)

(** What [Block::NewIterator] returns: an empty iterator with a status, or an iterator with
    the block it runs over. *)
Module BlockIter.
Inductive block_iter :=
| Empty (st : status)
| Iter (data : list byte) (restarts num_restarts : Z) (it : Block.iter).

Definition NewIterator (b : Block.block) : outcome block_iter :=
  r ← Block.NewIterator b;
  Ok (match r with
      | Block.ErrorIterator s => Empty s
      | Block.EmptyIterator => Empty status_ok
      | Block.BlockIterator restarts num it => Iter (Block.data_ b) restarts num it
      end).

Section ops.
Context (cmp : Comparator).

Definition get {A} (e : status → A) (f : list byte → Z → Z → Block.iter → A) (b : block_iter) : A :=
  match b with Empty st => e st | Iter data restarts num it => f data restarts num it end.
Definition move (op : cursor_op) (b : block_iter) : outcome block_iter :=
  match b with
  | Empty st => st ← run_op EmptyIterator st op; Ok (Empty st)
  | Iter data restarts num it => it ← run_op (block_iterator cmp data restarts num) it op; Ok (Iter data restarts num it)
  end.
Definition ops : IteratorOps block_iter :=
  mkIterator
    (get (it_Valid EmptyIterator) (λ data restarts num, it_Valid (block_iterator cmp data restarts num)))
    (get (it_key EmptyIterator) (λ data restarts num, it_key (block_iterator cmp data restarts num)))
    (get (it_value EmptyIterator) (λ data restarts num, it_value (block_iterator cmp data restarts num)))
    (get (it_status EmptyIterator) (λ data restarts num, it_status (block_iterator cmp data restarts num)))
    (move OpNext) (move OpPrev) (λ b target, move (OpSeek target) b) (move OpFirst) (move OpLast).
End ops.
End BlockIter.

Module Table.
Import BlockIter.

(** The options of the table and of a read. *)
Record Options := mkOptions { comparator : Comparator; filter_policy : option (FilterPolicy * list byte); paranoid_checks : bool }.
Record ReadOptions := mkReadOptions { verify_checksums : bool; fill_cache : bool }.

(** [Rep]; the reader of the filter keeps its policy. *)
Record table := mkTable {
  options : Options;
  file : RandomAccessFile;
  cache_id : Z;
  filter : option (FilterPolicy * FilterBlockReader);
  metaindex_handle : handle;
  index_block : Block.block
}.
Definition set_filter (f : option (FilterPolicy * FilterBlockReader)) (t : table) : table :=
  mkTable (options t) (file t) (cache_id t) f (metaindex_handle t) (index_block t).

Section table.
Context (addr : list byte → Z).
Context (Snappy_GetUncompressedLength : list byte → option Z) (Snappy_Uncompress : list byte → option (list byte)).
Context (fresh : Z → list byte).
#[local] Notation ReadBlock := (ReadBlock addr Snappy_GetUncompressedLength Snappy_Uncompress fresh).

Definition ReadFilter (filter_handle_value : list byte) (t : table) : outcome table :=
  let '(filter_handle, _, s) := BlockHandle.DecodeFrom BlockHandle.new filter_handle_value in
  if negb (ok s) then Ok t
  else
    b ← ReadBlock (file t) (paranoid_checks (options t)) filter_handle;
    if negb (ok b.2) then Ok t
    else
      match filter_policy (options t) with
      | None => Ok t
      | Some (p, _) => r ← new_reader (Format.data b.1); Ok (set_filter (Some (p, r)) t)
      end.

Definition ReadMeta (f : footer) (t : table) : outcome table :=
  match filter_policy (options t) with
  | None => Ok t
  | Some (p, name) =>
      b ← ReadBlock (file t) (paranoid_checks (options t)) (metaindex_handle_ f);
      if negb (ok b.2) then Ok t
      else
        meta ← Block.new (Format.data b.1);
        iter ← NewIterator meta;
        let key := TableBuilder.filter_key name in
        let I := BlockIter.ops BytewiseComparator in
        iter ← it_Seek I iter key;
        if it_Valid I iter then
          k ← it_key I iter;
          if slice_eq k key then v ← it_value I iter; ReadFilter v t else Ok t
        else Ok t
  end.

(** [new_id]: what [block_cache->NewId] returns, or zero without a cache. *)
Definition Open (o : Options) (f : RandomAccessFile) (size new_id : Z) : outcome (option table * status) :=
  if size <? kEncodedLength then Ok (None, Corruption (str "file is too short to be an sstable"))
  else
    let '(s, footer_input, _) := file_Read f (size - kEncodedLength) kEncodedLength in
    if negb (ok s) then Ok (None, s)
    else
      d ← Footer.DecodeFrom Footer.new footer_input;
      let '(foot, _, s) := d in
      if negb (ok s) then Ok (None, s)
      else
        b ← ReadBlock f (paranoid_checks o) (index_handle_ foot);
        if negb (ok b.2) then Ok (None, b.2)
        else
          index_block ← Block.new (Format.data b.1);
          t ← ReadMeta foot (mkTable o f new_id None (metaindex_handle_ foot) index_block);
          Ok (Some t, status_ok).

(** The key of a block in the cache. *)
Definition cache_key (t : table) (h : handle) : list byte := EncodeFixed64 (cache_id t) ++ EncodeFixed64 (offset_ h).

(** [cached] is [None] if there is no block cache.  The second result is the block that is
    inserted, with its key and its charge. *)
Definition BlockReader (cached : option (list byte → option Block.block)) (t : table) (ro : ReadOptions) (index_value : list byte)
    : outcome (block_iter * option (list byte * Block.block * Z)) :=
  let '(h, _, s) := BlockHandle.DecodeFrom BlockHandle.new index_value in
  if negb (ok s) then Ok (Empty s, None)
  else
    match mbind (λ lookup : list byte → option Block.block, lookup (cache_key t h)) cached with
    | Some block => iter ← NewIterator block; Ok (iter, None)
    | None =>
        b ← ReadBlock (file t) (verify_checksums ro) h;
        if negb (ok b.2) then Ok (Empty b.2, None)
        else
          block ← Block.new (Format.data b.1);
          iter ← NewIterator block;
          let insert := bool_decide (cached ≠ None) && cachable b.1 && fill_cache ro in
          Ok (iter, if insert then Some (cache_key t h, block, Block.size_ block) else None)
    end.

Definition block_function (cached : option (list byte → option Block.block)) (t : table) (ro : ReadOptions) (index_value : list byte) : outcome (option block_iter) :=
  r ← BlockReader cached t ro index_value; Ok (Some r.1).

Definition table_iterator (cached : option (list byte → option Block.block)) (fuel : nat) (t : table) (ro : ReadOptions) :
    IteratorOps (TwoLevel.two_level (SI := block_iter) (SD := block_iter)) :=
  let I := BlockIter.ops (comparator (options t)) in TwoLevel.TwoLevelIterator I I (block_function cached t ro) fuel.
Definition NewIterator (t : table) : outcome (TwoLevel.two_level (SI := block_iter) (SD := block_iter)) :=
  index ← BlockIter.NewIterator (index_block t);
  TwoLevel.NewTwoLevelIterator (BlockIter.ops (comparator (options t))) index.

(** [filter != NULL && handle.DecodeFrom(&handle_value).ok() && !filter->KeyMayMatch(...)]. *)
Definition filtered_out (t : table) (handle_value k : list byte) : outcome bool :=
  match filter t with
  | None => Ok false
  | Some (p, reader) =>
      let '(h, _, s) := BlockHandle.DecodeFrom BlockHandle.new handle_value in
      if ok s then m ← reader_KeyMayMatch p reader (offset_ h) k; Ok (negb m) else Ok false
  end.

(** The status, and the entry that is passed to [saver]. *)
Definition InternalGet (cached : option (list byte → option Block.block)) (t : table) (ro : ReadOptions) (k : list byte)
    : outcome (status * option entry) :=
  let I := BlockIter.ops (comparator (options t)) in
  iiter ← BlockIter.NewIterator (index_block t);
  iiter ← it_Seek I iiter k;
  r ← (if it_Valid I iiter then
         handle_value ← it_value I iiter;
         out ← filtered_out t handle_value k;
         if (out : bool) then Ok (status_ok, None)
         else
           b ← BlockReader cached t ro handle_value;
           block_iter ← it_Seek I b.1 k;
           saved ← (if it_Valid I block_iter then key ← it_key I block_iter; value ← it_value I block_iter; Ok (Some (key, value)) else Ok None);
           s ← it_status I block_iter;
           Ok (s, saved)
       else Ok (status_ok, None));
  if ok r.1 then s ← it_status I iiter; Ok (s, r.2) else Ok r.

Definition ApproximateOffsetOf (t : table) (key : list byte) : outcome Z :=
  let I := BlockIter.ops (comparator (options t)) in
  index_iter ← BlockIter.NewIterator (index_block t);
  index_iter ← it_Seek I index_iter key;
  if it_Valid I index_iter then
    input ← it_value I index_iter;
    let '(h, _, s) := BlockHandle.DecodeFrom BlockHandle.new input in
    Ok (if ok s then offset_ h else offset_ (metaindex_handle t))
  else Ok (offset_ (metaindex_handle t)).

End table.
End Table.

Import BlockIter.

(** ** Lemmas *)

(** *** Block iterators *)

(** The iterator is at [pos] of a block with the entries [es]. *)
Definition entries_shows (es : list entry) (b : block_iter) (pos : nat) : Prop :=
  ∃ rows rs it, map entry_of rows = es ∧ chain_ok rows ∧ restarts_ok rows rs ∧ blen (block_bytes rows rs) < 2 ^ 32 ∧
    b = Iter (block_bytes rows rs) (blen (body rows)) (Z.of_nat (length rs)) it ∧ shows rows rs it pos ∧ (pos ≤ length rows)%nat.

Lemma block_iter_cursor valid cmp es : ComparatorLaws valid cmp → (∀ e, e ∈ es → valid e.1) → sorted_entries (Compare cmp) es →
  CursorLaws (BlockIter.ops cmp) (Compare cmp) valid es (entries_shows es).
Proof.
  intros HC Hv Hs. assert (∀ rows rs, map entry_of rows = es → chain_ok rows → restarts_ok rows rs → blen (block_bytes rows rs) < 2 ^ 32 →
    CursorLaws (block_iterator cmp (block_bytes rows rs) (blen (body rows)) (Z.of_nat (length rs))) (Compare cmp) valid es
      (λ it pos, shows rows rs it pos ∧ (pos ≤ length rows)%nat)) as Hcur.
  { intros rows rs <- Hch Hrs Hlen. apply block_cursor; try done. intros i x Hx. apply (Hv (entry_of x)).
    apply list_elem_of_lookup_2 with i. by rewrite list_lookup_fmap, Hx. }
  split; intros b pos; [| |intros e| |intros op]; intros (rows & rs & it & He & Hch & Hrs & Hlen & -> & Hsh);
    pose proof (Hcur rows rs He Hch Hrs Hlen) as HL.
  - exact (cursor_pos it pos Hsh).
  - exact (cursor_valid it pos Hsh).
  - exact (cursor_entry it pos e Hsh).
  - exact (cursor_status it pos Hsh).
  - intros Hop. destruct (cursor_step it pos op Hsh Hop) as (it' & E & Hsh').
    exists (Iter (block_bytes rows rs) (blen (body rows)) (Z.of_nat (length rs)) it').
    split; [|by exists rows, rs, it'].
    transitivity (x ← run_op (block_iterator cmp (block_bytes rows rs) (blen (body rows)) (Z.of_nat (length rs))) it op;
      Ok (Iter (block_bytes rows rs) (blen (body rows)) (Z.of_nat (length rs)) x)); [by destruct op | by rewrite E].
Qed.

(** Opening the bytes of a block. *)
Definition opens (es : list entry) (block : Block.block) : Prop := ∃ it, BlockIter.NewIterator block = Ok it ∧ entries_shows es it (length es).

Lemma open_rows rows rs : chain_ok rows → restarts_ok rows rs → blen (block_bytes rows rs) < 2 ^ 32 →
  ∃ block, Block.new (block_bytes rows rs) = Ok block ∧ opens (map entry_of rows) block.
Proof.
  intros Hch Hrs Hlen. destruct (open_block rows rs Hrs Hlen) as (it & E1 & E2 & Hp). eexists. split; [exact E1|].
  unfold opens, BlockIter.NewIterator. rewrite E2. cbn [mbind outcome_bind]. eexists. split; [reflexivity|].
  exists rows, rs, it. rewrite length_map. split_and!; try done. by apply shows_end.
Qed.

(** *** The index of a table *)

(** The entries of the block with an encoded handle. *)
Fixpoint entries_of (bs : list dblock) (h : list byte) : list entry :=
  match bs with
  | [] => []
  | b :: bs => if decide (handle_bytes (d_handle b) = h) then d_entries b else entries_of bs h
  end.

Lemma handle_bytes_inj h h' : handle_ok h → handle_ok h' → handle_bytes h = handle_bytes h' → h = h'.
Proof.
  intros H H' E. pose proof (handle_decode h BlockHandle.new [] H) as D. rewrite E, (handle_decode h' BlockHandle.new [] H') in D. by injection D.
Qed.

Lemma entries_of_block bs b : NoDup (map block_offset bs) → (∀ b, b ∈ bs → handle_ok (d_handle b)) → b ∈ bs →
  entries_of bs (handle_bytes (d_handle b)) = d_entries b.
Proof.
  intros Hnd Hok. induction bs as [|b' bs IH]; intros Hb; [by apply elem_of_nil in Hb|]. cbn [entries_of]. cbn in Hnd. apply NoDup_cons in Hnd as [Hn Hnd].
  apply elem_of_cons in Hb as [<-|Hb]; [by rewrite decide_True|]. rewrite decide_False.
  - apply IH; try done. intros x Hx. apply Hok. by right.
  - intros E. apply handle_bytes_inj in E; [|apply Hok; by left | apply Hok; by right]. apply Hn. apply list_elem_of_fmap. exists b.
    unfold block_offset. by rewrite E.
Qed.

Section index.
Context (valid : list byte → Prop) (cmp : Comparator) `{HC : !ComparatorLaws valid cmp}.
Context (es : list entry) (bs : list dblock) (index : list entry).
Context (Hes : es = concat (map d_entries bs)) (Hne : ∀ b, b ∈ bs → d_entries b ≠ []) (Hhandle : ∀ b, b ∈ bs → handle_ok (d_handle b)).
Context (Hnd : NoDup (map block_offset bs)) (Hsorted : sorted_entries (Compare cmp) es) (Hvalid : ∀ e, e ∈ es → valid e.1).

(** What an index entry says about its block: its key is at or above the last key of the
    block and below the first key of the next one. *)
Definition separates (j : nat) (x : entry) : Prop :=
  ∃ a, es !! pred (entries_before bs (S j)) = Some a ∧ Compare cmp a.1 x.1 ≤ 0 ∧
    ∀ c, es !! entries_before bs (S j) = Some c → Compare cmp a.1 c.1 < 0 ∧ x.1 = FindShortestSeparator cmp a.1 c.1 ∧ Compare cmp x.1 c.1 < 0.
Definition index_entry_ok (j : nat) (x : entry) (b : dblock) : Prop := x.2 = handle_bytes (d_handle b) ∧ valid x.1 ∧ separates j x.
Definition table_index : Prop := length index = length bs ∧ ∀ j x b, index !! j = Some x → bs !! j = Some b → index_entry_ok j x b.

Lemma index_table : (match bs with
    | [] => index = []
    | _ => ∃ front x bs' b, index = front ++ [x] ∧ bs = bs' ++ [b] ∧ index_ok cmp front bs' es ∧ last_index_ok cmp x b es
    end) → table_index.
Proof.
  intros H. destruct (decide (bs = [])) as [E|E]; [unfold table_index; rewrite E in *; rewrite H; by split|].
  assert (∃ front x bs' b, index = front ++ [x] ∧ bs = bs' ++ [b] ∧ index_ok cmp front bs' es ∧ last_index_ok cmp x b es) as (front & x & bs' & b & Ei & Eb & Hf & Hx & a & Ha & Hxk).
  { by destruct bs. }
  clear H E. pose proof (proj1 Hf) as Hl. unfold table_index. rewrite Ei. split; [rewrite Eb, !length_app; cbn; lia|]. intros j y b' Hy Hb'. rewrite Eb in Hb'.
  destruct (decide (j < length bs')%nat) as [Hlt|Hge].
  - rewrite lookup_app_l in Hy by lia. rewrite lookup_app_l in Hb' by done.
    destruct (index_between valid (TableBuilder.mkOptions cmp 0 0 0 None) front bs' es j y b' Hf) as (a' & c & Ha' & Hc & Hk & Hac & _ & _ & Hvy & Hay & Hyc); try done.
    { intros b0 H0. apply Hne. rewrite Eb. apply elem_of_app. by left. }
    split; [by apply (proj2 Hf j y b')|]. split; [done|]. exists a'. rewrite Eb, entries_before_app by lia. split; [done|]. split; [done|].
    intros c' Hc'. rewrite Hc in Hc'. injection Hc' as <-. done.
  - assert (j = length bs') as -> by (apply lookup_lt_Some in Hb'; rewrite length_app in Hb'; cbn in Hb'; lia).
    rewrite list_lookup_middle in Hb' by done. injection Hb' as <-. rewrite list_lookup_middle in Hy by done. injection Hy as <-.
    rewrite last_lookup in Ha. assert (valid a.1) as Hva by (apply Hvalid; by eapply list_elem_of_lookup_2).
    pose proof (successor_above (c := cmp) a.1 Hva) as [Hvs Has].
    split; [done|]. split; [by rewrite Hxk|]. assert (entries_before bs (S (length bs')) = length es) as Eb'.
    { replace (S (length bs')) with (length bs) by (rewrite Eb, length_app; cbn; lia). by rewrite entries_before_all, Hes. }
    unfold separates. rewrite Eb'. exists a. split; [done|]. split; [by rewrite Hxk|]. intros c Hc. apply lookup_lt_Some in Hc. lia.
Qed.

Context (Hindex : table_index).
#[local] Notation blk := (entries_of bs).

Lemma index_entry_block j x : index !! j = Some x → ∃ b, bs !! j = Some b ∧ index_entry_ok j x b ∧ blk x.2 = d_entries b.
Proof.
  intros Hx. destruct Hindex as [Hl H]. destruct (lookup_lt_is_Some_2 bs j) as [b Hb]; [rewrite <- Hl; by eapply lookup_lt_Some|].
  exists b. split; [done|]. pose proof (H j x b Hx Hb) as Hok. split; [done|]. destruct Hok as [-> _]. apply entries_of_block; try done. by eapply list_elem_of_lookup_2.
Qed.

Lemma table_blocks : blocks index blk = map d_entries bs.
Proof.
  apply list_eq. intros j. unfold blocks. rewrite !list_lookup_fmap. destruct (index !! j) as [x|] eqn:Hx.
  - destruct (index_entry_block j x Hx) as (b & Hb & _ & E). rewrite Hb. cbn. by rewrite E.
  - apply lookup_ge_None in Hx. rewrite (proj1 Hindex) in Hx. rewrite (proj2 (lookup_ge_None bs j)) by done. done.
Qed.

Lemma table_off j : TwoLevel.off index blk j = entries_before bs j.
Proof. unfold TwoLevel.off, entries_before. rewrite table_blocks. by rewrite <- fmap_take. Qed.

Lemma entries_before_mono j j' : (j ≤ j')%nat → (entries_before bs j ≤ entries_before bs j')%nat.
Proof. rewrite <- !table_off. apply blocks_off_mono. Qed.

Lemma index_valid x : x ∈ index → valid x.1.
Proof. intros [j Hj]%list_elem_of_lookup. by destruct (index_entry_block j x Hj) as (b & _ & (_ & ? & _) & _). Qed.

Lemma block_at j b p x : bs !! j = Some b → d_entries b !! p = Some x →
  es !! (entries_before bs j + p)%nat = Some x ∧ (entries_before bs j + p < entries_before bs (S j))%nat.
Proof.
  intros Hb Hp. pose proof (lookup_lt_Some _ _ _ Hp) as Hlt. destruct (lookup_lt_is_Some_2 index j) as [i Hi].
  { rewrite (proj1 Hindex). by eapply lookup_lt_Some. }
  destruct (index_entry_block j i Hi) as (b' & Hb' & _ & Eb). rewrite Hb in Hb'. injection Hb' as <-. rewrite <- Eb in Hp, Hlt.
  pose proof (block_entry index blk j i p Hi Hlt) as E. pose proof (blocks_off_S index blk j i Hi) as ES.
  rewrite table_blocks, <- Hes in E. rewrite !table_off in *. rewrite E. split; [done | lia].
Qed.

Lemma first_after j b : bs !! j = Some b → ∃ c, es !! entries_before bs j = Some c.
Proof.
  intros Hb. pose proof (Hne b (list_elem_of_lookup_2 _ _ _ Hb)) as Hn. destruct (d_entries b) as [|c l] eqn:E; [done|].
  destruct (block_at j b 0 c Hb) as [Hc _]; [by rewrite E|]. rewrite Nat.add_0_r in Hc. by exists c.
Qed.

(** The entries up to the end of block [j] and the entry behind it. *)
Lemma separates_le j x b r e : index !! j = Some x → bs !! j = Some b → es !! r = Some e → (r < entries_before bs (S j))%nat → Compare cmp e.1 x.1 ≤ 0.
Proof.
  intros Hx Hb He Hr. destruct (proj2 Hindex j x b Hx Hb) as (_ & Hvx & a & Ha & Hax & _).
  assert (valid e.1) by (apply Hvalid; by eapply list_elem_of_lookup_2). assert (valid a.1) by (apply Hvalid; by eapply list_elem_of_lookup_2).
  apply (compare_trans (c := cmp) e.1 a.1); try done. refine (sorted_le valid (TableBuilder.mkOptions cmp 0 0 0 None) es r _ e a Hsorted Hvalid _ He Ha). lia.
Qed.

Lemma separates_lt j x b r e : index !! j = Some x → bs !! j = Some b → es !! r = Some e → (entries_before bs (S j) ≤ r)%nat → Compare cmp x.1 e.1 < 0.
Proof.
  intros Hx Hb He Hr. destruct (proj2 Hindex j x b Hx Hb) as (_ & Hvx & a & Ha & Hax & Hc).
  destruct (lookup_lt_is_Some_2 es (entries_before bs (S j))) as [c Ec]; [apply lookup_lt_Some in He; lia|].
  destruct (Hc c Ec) as (_ & _ & Hxc). assert (valid e.1) by (apply Hvalid; by eapply list_elem_of_lookup_2). assert (valid c.1) by (apply Hvalid; by eapply list_elem_of_lookup_2).
  apply (compare_lt_le valid cmp _ c.1); try done. exact (sorted_le valid (TableBuilder.mkOptions cmp 0 0 0 None) es _ r c e Hsorted Hvalid Hr Ec He).
Qed.

Lemma index_sorted : sorted_entries (Compare cmp) index.
Proof.
  intros j j' x y Hj Hx Hy. destruct (index_entry_block j x Hx) as (b & Hb & (_ & Hvx & _) & _). destruct (index_entry_block j' y Hy) as (b' & Hb' & (_ & Hvy & _) & _).
  destruct (first_after j' b' Hb') as [c Hc]. assert (valid c.1) by (apply Hvalid; by eapply list_elem_of_lookup_2).
  apply (compare_lt_le valid cmp _ c.1); try done.
  - apply (separates_lt j x b _ c Hx Hb Hc). apply entries_before_mono. lia.
  - apply (separates_le j' y b' _ c Hy Hb' Hc). pose proof (Hne b' (list_elem_of_lookup_2 _ _ _ Hb')) as Hn.
    destruct (d_entries b') as [|e l] eqn:E; [done|]. destruct (block_at j' b' 0 e Hb'); [by rewrite E | lia].
Qed.

Lemma index_separates_blocks : index_separates cmp index blk.
Proof.
  intros j x q l Hx Hl e He. rewrite table_blocks, list_lookup_fmap in Hl. apply fmap_Some in Hl as (b' & Hb' & ->).
  destruct (index_entry_block j x Hx) as (b & Hb & _ & _). apply list_elem_of_lookup in He as [p Hp]. destruct (block_at q b' p e Hb' Hp) as [Hr Hlt]. split; intros Hq.
  - apply (separates_le j x b _ e Hx Hb Hr). pose proof (entries_before_mono (S q) (S j)). lia.
  - apply (separates_lt j x b _ e Hx Hb Hr). pose proof (entries_before_mono (S j) q). lia.
Qed.

Lemma block_sorted b : b ∈ bs → sorted_entries (Compare cmp) (d_entries b).
Proof.
  intros [j Hj]%list_elem_of_lookup p p' x y Hp Hx Hy. destruct (block_at j b p x Hj Hx) as [H1 _]. destruct (block_at j b p' y Hj Hy) as [H2 _].
  refine (Hsorted _ _ x y _ H1 H2). lia.
Qed.

Lemma block_valid b : b ∈ bs → ∀ e, e ∈ d_entries b → valid e.1.
Proof.
  intros [j Hj]%list_elem_of_lookup e [p Hp]%list_elem_of_lookup. destruct (block_at j b p e Hj Hp) as [H1 _]. apply Hvalid. by eapply list_elem_of_lookup_2.
Qed.
End index.

(** *** Reading blocks *)

Section reading.
Context (addr : list byte → Z) (Haddr : addr_ok addr).
Context (Snappy_GetUncompressedLength : list byte → option Z) (Snappy_Uncompress : list byte → option (list byte)).
Context (fresh : Z → list byte) (Hfresh : ∀ n, 0 ≤ n → blen (fresh n) = n).
Context (content : list byte) (Hcontent : blen content < 2 ^ 32).

#[local] Notation ReadBlock := (ReadBlock addr Snappy_GetUncompressedLength Snappy_Uncompress fresh).
#[local] Notation holds := (holds Snappy_GetUncompressedLength Snappy_Uncompress content).
#[local] Notation stored_at := (stored_at Snappy_GetUncompressedLength Snappy_Uncompress content).

(** A file with this content. *)
Definition reads (f : RandomAccessFile) : Prop :=
  ∀ o n, 0 ≤ o → 0 ≤ n → o + n ≤ blen content → ∃ b, file_Read f o n = (status_ok, take (Z.to_nat n) (drop (Z.to_nat o) content), b).

Context (file : RandomAccessFile) (Hfile : reads file).

Lemma ReadBlock_at verify h raw : stored_at h raw → ∃ b1 b2, ReadBlock file verify h = Ok (mkContents raw b1 b2, status_ok).
Proof.
  intros (c & type & pre & post & Hst & Hc & Ho & Hs & _). pose proof (blen_nonneg pre). pose proof (blen_nonneg c). pose proof (blen_nonneg post).
  pose proof Hcontent as Hl. rewrite Hc, !blen_app in Hl. change (blen (trailer_bytes c type)) with 5 in Hl.
  destruct (Hfile (offset_ h) (blen c + kBlockTrailerSize)) as [b Hread]; [lia | change kBlockTrailerSize with 5; lia | |].
  { rewrite Hc, !blen_app. change (blen (trailer_bytes c type)) with 5. change kBlockTrailerSize with 5. lia. }
  assert (h = mkHandle (offset_ h) (blen c)) as -> by (destruct h; cbn in *; by subst).
  cbn [offset_] in *. eapply ReadBlock_stored; try done; [lia|]. rewrite Hread. f_equal. f_equal. rewrite Hc, <- Ho.
  unfold blen at 2. rewrite Nat2Z.id, drop_app_length. rewrite (app_assoc c). apply take_app_length'.
  rewrite length_app. change (length (trailer_bytes c type)) with 5%nat. change kBlockTrailerSize with 5. unfold blen. lia.
Qed.

Lemma ReadBlock_opens verify h l : holds h l → ∃ c block, ReadBlock file verify h = Ok (c, status_ok) ∧ Block.new (Format.data c) = Ok block ∧ opens l block.
Proof.
  intros (_ & raw & Hst & Hr). pose proof (stored_at_small _ _ _ _ _ Hst Hcontent) as Hsmall.
  destruct (Hr Hsmall) as (rows & rs & -> & Hch & Hrs & <-). destruct (ReadBlock_at verify h _ Hst) as (b1 & b2 & E).
  destruct (open_rows rows rs Hch Hrs Hsmall) as (block & Eb & Ho). by exists (mkContents (block_bytes rows rs) b1 b2), block.
Qed.

(** Whatever was read from a handle before, reading it gives the same block. *)
Lemma ReadBlock_again verify h l c block : holds h l → ReadBlock file verify h = Ok (c, status_ok) → Block.new (Format.data c) = Ok block → opens l block.
Proof.
  intros (_ & raw & Hst & Hr) E Eb. pose proof (stored_at_small _ _ _ _ _ Hst Hcontent) as Hsmall.
  destruct (Hr Hsmall) as (rows & rs & -> & Hch & Hrs & <-). destruct (ReadBlock_at verify h _ Hst) as (b1 & b2 & E'). rewrite E in E'. injection E' as ->.
  destruct (open_rows rows rs Hch Hrs Hsmall) as (block' & Eb' & Ho). cbn [Format.data] in Eb. rewrite Eb in Eb'. by injection Eb' as ->.
Qed.

(** *** The block cache *)

(** The cached blocks of the table are blocks of its file. *)
Definition read_before (h : handle) (block : Block.block) : Prop :=
  ∃ verify c, ReadBlock file verify h = Ok (c, status_ok) ∧ Block.new (Format.data c) = Ok block.
Definition coherent (t : Table.table) (bs : list dblock) (lookup : list byte → option Block.block) : Prop :=
  ∀ b block, b ∈ bs → lookup (Table.cache_key t (d_handle b)) = Some block → read_before (d_handle b) block.
Definition cache_ok (t : Table.table) (bs : list dblock) (cached : option (list byte → option Block.block)) : Prop :=
  match cached with None => True | Some lookup => coherent t bs lookup end.
(** The cache after a block was inserted. *)
Definition cache_insert (ins : option (list byte * Block.block * Z)) (lookup : list byte → option Block.block) : list byte → option Block.block :=
  match ins with Some (k, block, _) => λ k', if decide (k' = k) then Some block else lookup k' | None => lookup end.

Lemma EncodeFixed64_inj a b : is_u64 a → is_u64 b → EncodeFixed64 a = EncodeFixed64 b → a = b.
Proof.
  intros Ha Hb E. pose proof (DecodeFixed64_Encode a [] Ha) as D. rewrite E, (DecodeFixed64_Encode b [] Hb) in D. by injection D.
Qed.

Lemma block_offset_inj bs b b' : NoDup (map block_offset bs) → b ∈ bs → b' ∈ bs → block_offset b = block_offset b' → b = b'.
Proof.
  intros Hnd [i Hi]%list_elem_of_lookup [j Hj]%list_elem_of_lookup E.
  assert (i = j) as ->; [|by rewrite Hi in Hj; injection Hj].
  apply (NoDup_lookup _ i j (block_offset b) Hnd); rewrite list_lookup_fmap; [by rewrite Hi | by rewrite Hj, E].
Qed.

#[local] Notation BlockReader := (Table.BlockReader addr Snappy_GetUncompressedLength Snappy_Uncompress fresh).

Lemma BlockReader_spec cached t ro bs b : Table.file t = file → (∀ b, b ∈ bs → holds (d_handle b) (d_entries b)) → NoDup (map block_offset bs) →
  b ∈ bs → cache_ok t bs cached →
  ∃ it ins, BlockReader cached t ro (handle_bytes (d_handle b)) = Ok (it, ins) ∧ entries_shows (d_entries b) it (length (d_entries b)) ∧
    ∀ lookup, coherent t bs lookup → coherent t bs (cache_insert ins lookup).
Proof.
  intros Hf Hb Hnd Hin Hcache. unfold Table.BlockReader. rewrite <- (app_nil_r (handle_bytes _)), handle_decode by apply Hb, Hin. change (negb (ok status_ok)) with false. cbv iota.
  destruct (mbind _ cached) as [block|] eqn:Em.
  - destruct cached as [lookup|]; [|done]. cbn in Em, Hcache. destruct (Hcache b block Hin Em) as (verify & c & E & Eb).
    destruct (ReadBlock_again verify _ _ c block (Hb b Hin) E Eb) as (it & -> & Hit). cbn [mbind outcome_bind]. by exists it, None.
  - destruct (ReadBlock_opens (Table.verify_checksums ro) _ _ (Hb b Hin)) as (c & block & E & Eb & it & Ei & Hit). rewrite Hf, E. cbn [mbind outcome_bind fst snd].
    change (negb (ok status_ok)) with false. cbv iota. rewrite Eb. cbn [mbind outcome_bind]. rewrite Ei. cbn [mbind outcome_bind].
    eexists it, _. split; [reflexivity|]. split; [done|]. intros lookup Hl. destruct (_ && _ && _); [|done]. intros b' block' Hin' Hk. cbn [cache_insert] in Hk.
    case_decide as Ek; [|by apply (Hl b')]. injection Hk as <-. assert (b' = b) as ->; [|by exists (Table.verify_checksums ro), c].
    unfold Table.cache_key in Ek. apply app_inv_head in Ek. apply block_offset_inj with bs; try done.
    destruct (Hb b Hin) as [[[? ?] _] _]. destruct (Hb b' Hin') as [[[? ?] _] _]. unfold unset in *. apply EncodeFixed64_inj in Ek; [done | unfold is_u64; lia..].
Qed.

(** *** Opening the file *)

Context (valid : list byte → Prop) (o : Table.Options) `{HC : !ComparatorLaws valid (Table.comparator o)}.
Context (N : nat) (size_ok : list (list byte) → Prop).
Context (Hpolicy : match Table.filter_policy o with
  | None => True
  | Some (p, _) => FilterLaws size_ok p ∧ ∀ l, (length l ≤ N)%nat → size_ok l
  end).
Context (es : list entry) (bs : list dblock) (index : list entry) (mh ih : handle).
Context (Htable : table_file Snappy_GetUncompressedLength Snappy_Uncompress (Table.comparator o) (Table.filter_policy o) content es bs index mh ih).
Context (Hsorted : sorted_entries (Compare (Table.comparator o)) es) (Hvalid : ∀ e, e ∈ es → valid e.1) (HN : (length es ≤ N)%nat).
#[local] Notation cmp := (Table.comparator o).

(** The reader asks the filter that was made from the keys of the block. *)
Definition filter_ok (f : option (FilterPolicy * FilterBlockReader)) : Prop :=
  match f with
  | None => True
  | Some (p, r) => (∃ name, Table.filter_policy o = Some (p, name)) ∧ ∀ b, b ∈ bs → ∃ fl, blen fl < 2 ^ 32 ∧
      (∀ key, reader_KeyMayMatch p r (block_offset b) key = KeyMayMatch p key fl) ∧ ∀ e, e ∈ d_entries b → KeyMayMatch p e.1 fl = Ok true
  end.
Record table_ok (id : Z) (t : Table.table) : Prop := mkTableOk {
  tk_options : Table.options t = o;
  tk_file : Table.file t = file;
  tk_id : Table.cache_id t = id;
  tk_meta : Table.metaindex_handle t = mh;
  tk_filter : filter_ok (Table.filter t) ∧ (Table.filter_policy o = None ↔ Table.filter t = None);
  tk_index : opens index (Table.index_block t)
}.

#[local] Notation ReadFilter := (Table.ReadFilter addr Snappy_GetUncompressedLength Snappy_Uncompress fresh).
#[local] Notation ReadMeta := (Table.ReadMeta addr Snappy_GetUncompressedLength Snappy_Uncompress fresh).
#[local] Notation Open := (Table.Open addr Snappy_GetUncompressedLength Snappy_Uncompress fresh).

Lemma ReadFilter_spec p name fh contents z (t : Table.table) : Table.options t = o → Table.file t = file → Table.filter_policy o = Some (p, name) → handle_ok fh →
  stored_at fh contents → ascending 0 (filter_blocks bs ++ [(z, [])]) → FilterBlock.build p (filter_blocks bs ++ [(z, [])]) = Ok contents →
  ∃ r, ReadFilter (handle_bytes fh) t = Ok (Table.set_filter (Some (p, r)) t) ∧ filter_ok (Some (p, r)).
Proof.
  intros Ho Hf Hp Hfh Hst Hasc Hb. unfold Table.ReadFilter. rewrite <- (app_nil_r (handle_bytes fh)), handle_decode by done. change (negb (ok status_ok)) with false. cbv iota.
  destruct (ReadBlock_at (Table.paranoid_checks o) fh contents Hst) as (b1 & b2 & E). rewrite Ho, Hf, E. cbn [mbind outcome_bind fst snd].
  change (negb (ok status_ok)) with false. cbv iota. rewrite Hp. cbn [Format.data]. pose proof Hpolicy as Hpol. rewrite Hp in Hpol. destruct Hpol as [HL Hsize].
  destruct (build_reads p size_ok _ Hasc) as (contents' & E' & Hr).
  { intros l Hl. apply Hsize. unfold total_keys in Hl. rewrite map_app, concat_app, length_app, length_filter_keys in Hl. cbn in Hl.
    rewrite <- (tf_entries _ _ _ _ _ _ _ _ _ _ Htable) in Hl. lia. }
  rewrite Hb in E'. injection E' as <-. destruct (Hr (stored_at_small _ _ _ _ _ Hst Hcontent)) as (r & -> & Hread). cbn [mbind outcome_bind].
  exists r. split; [done|]. split; [by exists name|]. intros b Hin. destruct (tf_blocks _ _ _ _ _ _ _ _ _ _ Htable b Hin) as [_ Hne].
  destruct (d_entries b) as [|e l] eqn:El; [done|]. destruct (Hread (block_offset b) (map fst (d_entries b)) e.1) as (fl & Hfl & Heq & Hm).
  { apply elem_of_app. left. unfold filter_blocks. apply list_elem_of_fmap. by exists b. }
  { rewrite El. by left. }
  exists fl. split; [done|]. split; [done|]. rewrite <- El. intros x Hx. apply Hm. apply list_elem_of_fmap. by exists x.
Qed.

Lemma ReadMeta_spec t : Table.options t = o → Table.file t = file → Table.filter t = None →
  ∃ f, ReadMeta (mkFooter mh ih) t = Ok (Table.set_filter f t) ∧ filter_ok f ∧ (Table.filter_policy o = None ↔ f = None).
Proof.
  intros Ho Hf Ht. destruct (tf_meta _ _ _ _ _ _ _ _ _ _ Htable) as [_ Hmeta]. unfold Table.ReadMeta. rewrite Ho. destruct (Table.filter_policy o) as [[p name]|] eqn:Hp in Hmeta |- *.
  2: { exists None. split; [|by split]. destruct t. cbn in *. by rewrite Ht. }
  destruct Hmeta as (fh & contents & z & Hm & Hfh & Hst & Hasc & Hb). cbn [metaindex_handle_].
  destruct (ReadBlock_opens (Table.paranoid_checks o) _ _ Hm) as (c & block & E & Eb & it & Ei & Hit). rewrite Hf, E. cbn [mbind outcome_bind fst snd].
  change (negb (ok status_ok)) with false. cbv iota. rewrite Eb. cbn [mbind outcome_bind]. rewrite Ei. cbn [mbind outcome_bind].
  set (key := TableBuilder.filter_key name) in *.
  assert (CursorLaws (BlockIter.ops BytewiseComparator) (Compare BytewiseComparator) any_key [(key, handle_bytes fh)] (entries_shows [(key, handle_bytes fh)])) as HL.
  { apply (block_iter_cursor any_key); [apply bytewise_laws | done|]. intros i j x y Hij Hx Hy. apply lookup_lt_Some in Hy. cbn in Hy. lia. }
  destruct (cursor_step it _ (OpSeek key) Hit I) as (it' & E' & Hit'). cbn [run_op] in E'. rewrite E'. cbn [mbind outcome_bind].
  cbn [spec_op lower_bound fst] in Hit'. rewrite (compare_refl (valid := any_key) (c := BytewiseComparator) key I) in Hit'. change (0 <=? 0) with true in Hit'. cbv iota in Hit'.
  rewrite (cursor_valid (CursorLaws := HL) it' _ Hit'), bool_decide_true by (cbn; lia). destruct (cursor_entry (CursorLaws := HL) it' _ (key, handle_bytes fh) Hit' eq_refl) as [-> ->].
  cbn [mbind outcome_bind fst snd]. rewrite (proj2 (slice_eq_spec _ _)) by done.
  destruct (ReadFilter_spec p name fh contents z t Ho Hf Hp Hfh Hst Hasc Hb) as (r & -> & Hr). exists (Some (p, r)). by split_and!.
Qed.

Lemma Open_spec id : ∃ t, Open o file (blen content) id = Ok (Some t, status_ok) ∧ table_ok id t.
Proof.
  destruct (tf_footer _ _ _ _ _ _ _ _ _ _ Htable) as [front Hfront]. destruct (tf_meta _ _ _ _ _ _ _ _ _ _ Htable) as [Hmh _].
  pose proof (proj1 (tf_index _ _ _ _ _ _ _ _ _ _ Htable)) as Hih. assert (footer_ok (mkFooter mh ih)) as Hok by done.
  pose proof (footer_bytes_length _ Hok) as Hfl. change kEncodedLength with 48 in Hfl. pose proof (blen_nonneg front).
  assert (blen content = blen front + 48) as Hlen by (by rewrite Hfront, blen_app, Hfl).
  unfold Table.Open. change kEncodedLength with 48. destruct (Z.ltb_spec (blen content) 48); [lia|].
  destruct (Hfile (blen content - 48) 48) as [b Hread]; [lia..|]. rewrite Hread. change (negb (ok status_ok)) with false. cbv iota.
  assert (take (Z.to_nat 48) (drop (Z.to_nat (blen content - 48)) content) = footer_bytes (mkFooter mh ih) ++ []) as ->.
  { rewrite Hlen, Hfront, app_nil_r. replace (Z.to_nat (blen front + 48 - 48)) with (length front) by (unfold blen; lia). rewrite drop_app_length.
    apply take_ge. unfold blen in Hfl. lia. }
  rewrite footer_decode by done. cbn [mbind outcome_bind]. change (negb (ok status_ok)) with false. cbv iota. cbn [index_handle_ metaindex_handle_].
  destruct (ReadBlock_opens (Table.paranoid_checks o) _ _ (tf_index _ _ _ _ _ _ _ _ _ _ Htable)) as (c & block & -> & Eb & Hop).
  cbn [mbind outcome_bind fst snd]. change (negb (ok status_ok)) with false. cbv iota. rewrite Eb. cbn [mbind outcome_bind].
  destruct (ReadMeta_spec (Table.mkTable o file id None mh block) eq_refl eq_refl eq_refl) as (f & -> & Hf). cbn [mbind outcome_bind].
  eexists. split; [reflexivity|]. by split.
Qed.

(** *** The iterator *)

Lemma table_es : es = concat (map d_entries bs).
Proof. exact (tf_entries _ _ _ _ _ _ _ _ _ _ Htable). Qed.
Lemma table_holds b : b ∈ bs → holds (d_handle b) (d_entries b).
Proof. intros Hb. by destruct (tf_blocks _ _ _ _ _ _ _ _ _ _ Htable b Hb). Qed.
Lemma table_nonempty b : b ∈ bs → d_entries b ≠ [].
Proof. intros Hb. by destruct (tf_blocks _ _ _ _ _ _ _ _ _ _ Htable b Hb). Qed.
Lemma table_handle b : b ∈ bs → handle_ok (d_handle b).
Proof. intros Hb. by destruct (table_holds b Hb). Qed.
Lemma table_offsets : NoDup (map block_offset bs).
Proof. exact (tf_handles _ _ _ _ _ _ _ _ _ _ Htable). Qed.
Lemma table_has_index : table_index valid cmp es bs index.
Proof.
  apply (index_table valid cmp); first [apply table_es | apply table_nonempty | apply table_handle | apply table_offsets | done | exact (tf_index_ok _ _ _ _ _ _ _ _ _ _ Htable)].
Qed.

(** The facts the lemmas on the index need. *)
#[local] Ltac table_facts := first [done | apply table_es | apply table_nonempty | apply table_handle | apply table_offsets | apply table_has_index | assumption].

Lemma entries_of_cases h : entries_of bs h = [] ∨ ∃ b, b ∈ bs ∧ entries_of bs h = d_entries b.
Proof.
  clear -bs. induction bs as [|b l IH]; [by left|]. cbn [entries_of]. case_decide; [right; exists b; split; [by left | done]|].
  destruct IH as [|(b' & Hb & E)]; [by left|]. right. exists b'. split; [by right | done].
Qed.

Lemma table_block_cursor h : CursorLaws (BlockIter.ops cmp) (Compare cmp) valid (entries_of bs h) (entries_shows (entries_of bs h)).
Proof.
  apply block_iter_cursor; [done|..]; destruct (entries_of_cases h) as [->|(b & Hb & ->)].
  - intros e He. by apply elem_of_nil in He.
  - eapply (block_valid valid cmp es bs index); table_facts.
  - intros i j x y _ Hx. done.
  - eapply (block_sorted valid cmp es bs index); table_facts.
Qed.

Lemma table_index_cursor : CursorLaws (BlockIter.ops cmp) (Compare cmp) valid index (entries_shows index).
Proof.
  apply block_iter_cursor; [done|..].
  - eapply (index_valid valid cmp es bs index); table_facts.
  - eapply (index_sorted valid cmp es bs index); table_facts.
Qed.

Lemma table_separates : index_separates cmp index (entries_of bs).
Proof.
  eapply (index_separates_blocks valid cmp es bs index); table_facts.
Qed.

Lemma index_entries : concat (blocks index (entries_of bs)) = es.
Proof. rewrite (table_blocks valid cmp es bs index) by table_facts. by rewrite <- table_es. Qed.

Lemma index_block_of x : x ∈ index → ∃ b, b ∈ bs ∧ x.2 = handle_bytes (d_handle b) ∧ entries_of bs x.2 = d_entries b.
Proof.
  intros [j Hj]%list_elem_of_lookup. destruct (index_entry_block valid cmp es bs index table_handle table_offsets table_has_index j x Hj) as (b & Hb & (Hx & _) & E).
  exists b. split; [by eapply list_elem_of_lookup_2 | done].
Qed.

#[local] Notation table_shows := (shows2 index (entries_of bs) (entries_shows index) (λ h, entries_shows (entries_of bs h))).
#[local] Notation table_iterator := (Table.table_iterator addr Snappy_GetUncompressedLength Snappy_Uncompress fresh).

Lemma table_cursor id t cached fuel ro : table_ok id t → cache_ok t bs cached → (S (length index) < fuel)%nat →
  CursorLaws (table_iterator cached fuel t ro) (Compare cmp) valid es table_shows ∧ ∃ it, Table.NewIterator t = Ok it ∧ table_shows it (length es).
Proof.
  intros Ht Hcache Hfuel. rewrite <- index_entries. pose proof table_index_cursor as HI. pose proof table_block_cursor as HD. split.
  - unfold Table.table_iterator. rewrite (tk_options _ _ Ht). apply (two_level_laws cmp _ _ _ valid index (entries_of bs)); try done.
    + intros k h Hin. destruct (index_block_of _ Hin) as (b & Hb & Eh & El). cbn [snd] in Eh, El. rewrite El, Eh.
      destruct (BlockReader_spec cached t ro bs b (tk_file _ _ Ht) table_holds table_offsets Hb Hcache) as (it & ins & E & Hit & _).
      exists it. unfold Table.block_function. rewrite E. split; [done|]. by eexists.
    + apply table_separates.
    + rewrite index_entries. exact Hvalid.
    + eapply (index_valid valid cmp es bs index); table_facts.
  - unfold Table.NewIterator. destruct (tk_index _ _ Ht) as (it & -> & Hit). cbn [mbind outcome_bind]. rewrite (tk_options _ _ Ht).
    exact (new_two_level cmp _ valid index (entries_of bs) (entries_shows index) (λ h, entries_shows (entries_of bs h)) HI it (length index) Hit).
Qed.

Lemma index_short : (length index ≤ length es)%nat.
Proof.
  rewrite (proj1 table_has_index), table_es. assert (∀ b, b ∈ bs → d_entries b ≠ []) as Hne by apply table_nonempty. clear -bs Hne.
  induction bs as [|b l IH]; [done|]. cbn [map concat length]. rewrite length_app. pose proof (Hne b ltac:(by left)) as Hb.
  assert (length l ≤ length (concat (map d_entries l)))%nat by (apply IH; intros x Hx; apply Hne; by right). destruct (d_entries b); [done | cbn; lia].
Qed.

(** *** Lookups *)

(** Keys that an application of the table takes for the same: the filter and the
    separators must not tell them apart. *)
Context (same : list byte → list byte → Prop).
Context (Hsame_filter : ∀ p name, Table.filter_policy o = Some (p, name) → ∀ a k f, same a k → KeyMayMatch p a f = KeyMayMatch p k f).
Context (Hsame_sep : ∀ a c k, valid a → valid c → valid k → Compare cmp a c < 0 → Compare cmp a k < 0 →
  Compare cmp k (FindShortestSeparator cmp a c) ≤ 0 → ¬ same c k).

Lemma filtered_out_spec id t b k : table_ok id t → b ∈ bs →
  ∃ out, Table.filtered_out t (handle_bytes (d_handle b)) k = Ok out ∧ (out = true → ∀ e, e ∈ d_entries b → ¬ same e.1 k).
Proof.
  intros Ht Hb. unfold Table.filtered_out. pose proof (proj1 (tk_filter _ _ Ht)) as Hf. destruct (Table.filter t) as [[p r]|]; [|by exists false].
  destruct Hf as [[name Hp] Hf]. destruct (Hf b Hb) as (fl & Hlen & Hread & Hm). rewrite <- (app_nil_r (handle_bytes _)), handle_decode by (by apply table_handle).
  change (ok status_ok) with true. cbv iota. change (offset_ (d_handle b)) with (block_offset b). rewrite Hread.
  pose proof Hpolicy as Hpol. rewrite Hp in Hpol. destruct Hpol as [HL _]. destruct (filter_answers (FilterLaws := HL) k fl Hlen) as [m Em]. rewrite Em. cbn [mbind outcome_bind].
  exists (negb m). split; [done|]. intros Hn e He Hsame. rewrite <- (Hsame_filter p name Hp e.1 k fl Hsame), (Hm e He) in Em. by injection Em as <-.
Qed.

(** The block of an index position and the rank of a target in it. *)
Lemma index_target k x : valid k → index !! lower_bound (Compare cmp) index k = Some x →
  ∃ b, b ∈ bs ∧ x.2 = handle_bytes (d_handle b) ∧ let p := lower_bound (Compare cmp) (d_entries b) k in
    (∀ e, d_entries b !! p = Some e → es !! lower_bound (Compare cmp) es k = Some e) ∧
    (d_entries b !! p = None → ∀ e, es !! lower_bound (Compare cmp) es k = Some e → ¬ same e.1 k).
Proof.
  intros Hk Hx. destruct (index_entry_block valid cmp es bs index table_handle table_offsets table_has_index _ x Hx) as (b & Hb & (Hxh & Hvx & a & Ha & Hax & Hc) & Eb).
  assert (b ∈ bs) as Hin by (by eapply list_elem_of_lookup_2). exists b. split; [done|]. split; [done|]. cbv zeta.
  pose proof (seek_rank cmp valid index (entries_of bs) table_separates) as Hrank. rewrite index_entries in Hrank.
  specialize (Hrank Hvalid). specialize (Hrank ltac:(eapply (index_valid valid cmp es bs index); table_facts) k _ x Hk eq_refl Hx).
  rewrite Eb, (table_off valid cmp es bs index) in Hrank by table_facts. rewrite Hrank.
  set (j := lower_bound (Compare cmp) index k) in *. set (p := lower_bound (Compare cmp) (d_entries b) k) in *. split.
  - intros e He. by destruct (block_at valid cmp es bs index table_es table_handle table_offsets table_has_index j b p e Hb He) as [? _].
  - intros Hp e He. apply lookup_ge_None in Hp. pose proof (lower_bound_le (Compare cmp) (d_entries b) k) as Hple. fold p in Hple.
    assert (entries_before bs j + p = entries_before bs (S j))%nat as E.
    { pose proof (blocks_off_S index (entries_of bs) j x Hx) as ES. rewrite !(table_off valid cmp es bs index), Eb in ES by table_facts. lia. }
    rewrite E in He. destruct (Hc e He) as (Hae & Hxk & _). assert (valid a.1) as Hva by (apply Hvalid; by eapply list_elem_of_lookup_2).
    assert (valid e.1) as Hve by (apply Hvalid; by eapply list_elem_of_lookup_2). apply (Hsame_sep a.1 e.1 k Hva Hve Hk Hae).
    + assert (d_entries b !! pred p = Some a) as Hap.
      { pose proof (table_nonempty b Hin) as Hne. destruct (lookup_lt_is_Some_2 (d_entries b) (pred p)) as [a' Ha']; [destruct (d_entries b); [done | cbn in *; lia]|].
        destruct (block_at valid cmp es bs index table_es table_handle table_offsets table_has_index j b _ a' Hb Ha') as [Hes' _].
        rewrite <- E in Ha. replace (pred (entries_before bs j + p)) with (entries_before bs j + pred p)%nat in Ha; [by rewrite Hes' in Ha; injection Ha as ->|].
        destruct (d_entries b); [done | cbn in *; lia]. }
      apply (lower_bound_below (Compare cmp) (d_entries b) k (pred p) a); [|done]. fold p. apply lookup_lt_Some in Hap. lia.
    + rewrite <- Hxk. pose proof (lower_bound_at (Compare cmp) index k x Hx). pose proof (compare_sgn (c := cmp) k x.1 Hk Hvx). lia.
Qed.

#[local] Notation InternalGet := (Table.InternalGet addr Snappy_GetUncompressedLength Snappy_Uncompress fresh).

Lemma InternalGet_spec id t cached ro k : table_ok id t → cache_ok t bs cached → valid k →
  ∃ r, InternalGet cached t ro k = Ok (status_ok, r) ∧
    match r with
    | Some e => es !! lower_bound (Compare cmp) es k = Some e
    | None => ∀ e, es !! lower_bound (Compare cmp) es k = Some e → ¬ same e.1 k
    end.
Proof.
  intros Ht Hcache Hk. unfold Table.InternalGet. rewrite (tk_options _ _ Ht). destruct (tk_index _ _ Ht) as (it & -> & Hit). cbn [mbind outcome_bind].
  pose proof table_index_cursor as HI. destruct (cursor_step it _ (OpSeek k) Hit Hk) as (it' & E & Hit'). cbn [run_op spec_op] in E, Hit'. rewrite E. cbn [mbind outcome_bind].
  rewrite (cursor_valid it' _ Hit'). set (j := lower_bound (Compare cmp) index k) in *. destruct (index !! j) as [x|] eqn:Hx.
  - rewrite bool_decide_true by (by eapply lookup_lt_Some). destruct (cursor_entry it' _ x Hit' Hx) as [_ ->]. cbn [mbind outcome_bind].
    destruct (index_target k x Hk Hx) as (b & Hb & -> & Hsome & Hnone). destruct (filtered_out_spec id t b k Ht Hb) as (out & -> & Hout). cbn [mbind outcome_bind].
    assert (∀ r : option entry, (s ← it_status (BlockIter.ops cmp) it'; Ok (s, r)) = Ok (status_ok, r)) as Hst by (intros r; by rewrite (cursor_status it' _ Hit')).
    destruct out.
    + cbn [mbind outcome_bind fst snd]. change (ok status_ok) with true. cbv iota. rewrite Hst. exists None. split; [done|]. intros e He.
      destruct (d_entries b !! lower_bound (Compare cmp) (d_entries b) k) as [e'|] eqn:Ep; [|by apply Hnone].
      rewrite (Hsome e' eq_refl) in He. injection He as <-. apply Hout; [done|]. by eapply list_elem_of_lookup_2.
    + destruct (BlockReader_spec cached t ro bs b (tk_file _ _ Ht) table_holds table_offsets Hb Hcache) as (d & ins & -> & Hd & _). cbn [mbind outcome_bind fst snd].
      pose proof (table_block_cursor (handle_bytes (d_handle b))) as HD. rewrite (entries_of_block bs b table_offsets table_handle Hb) in HD.
      destruct (cursor_step d _ (OpSeek k) Hd Hk) as (d' & E' & Hd'). cbn [run_op spec_op] in E', Hd'. rewrite E'. cbn [mbind outcome_bind].
      rewrite (cursor_valid d' _ Hd'), (cursor_status d' _ Hd').
      destruct (d_entries b !! lower_bound (Compare cmp) (d_entries b) k) as [e'|] eqn:Ep.
      * rewrite bool_decide_true by (by eapply lookup_lt_Some). destruct (cursor_entry d' _ e' Hd' Ep) as [-> ->]. cbn [mbind outcome_bind fst snd].
        change (ok status_ok) with true. cbv iota. rewrite Hst. exists (Some e'). split; [by destruct e'|]. by apply Hsome.
      * rewrite bool_decide_false by (by apply lookup_ge_None in Ep; lia). cbn [mbind outcome_bind fst snd].
        change (ok status_ok) with true. cbv iota. rewrite Hst. exists None. split; [done|]. by apply Hnone.
  - pose proof (lookup_ge_None_1 _ _ Hx) as Hge. rewrite bool_decide_false by lia. cbn [mbind outcome_bind fst snd]. change (ok status_ok) with true. cbv iota.
    rewrite (cursor_status it' _ Hit'). exists None. split; [done|]. intros e He. exfalso.
    pose proof (seek_rank_end cmp valid index (entries_of bs) table_separates) as Hend. rewrite index_entries in Hend. apply lookup_lt_Some in He.
    rewrite Hend in He; [lia | exact Hvalid | | exact Hk |].
    + eapply (index_valid valid cmp es bs index); table_facts.
    + pose proof (lower_bound_le (Compare cmp) index k). fold j. lia.
Qed.

(** The offset of the block that would hold the key, or of the metaindex behind the last one. *)
Lemma ApproximateOffsetOf_spec id t k : table_ok id t → valid k →
  Table.ApproximateOffsetOf t k = Ok (match bs !! lower_bound (Compare cmp) index k with Some b => block_offset b | None => offset_ mh end).
Proof.
  intros Ht Hk. unfold Table.ApproximateOffsetOf. rewrite (tk_options _ _ Ht), (tk_meta _ _ Ht). destruct (tk_index _ _ Ht) as (it & -> & Hit). cbn [mbind outcome_bind].
  pose proof table_index_cursor as HI. destruct (cursor_step it _ (OpSeek k) Hit Hk) as (it' & E & Hit'). cbn [run_op spec_op] in E, Hit'. rewrite E. cbn [mbind outcome_bind].
  rewrite (cursor_valid it' _ Hit'). destruct (index !! lower_bound (Compare cmp) index k) as [x|] eqn:Hx.
  - rewrite bool_decide_true by (by eapply lookup_lt_Some). destruct (cursor_entry it' _ x Hit' Hx) as [_ ->]. cbn [mbind outcome_bind].
    destruct (index_entry_block valid cmp es bs index table_handle table_offsets table_has_index _ x Hx) as (b & Hb & (-> & _) & _). rewrite Hb.
    rewrite <- (app_nil_r (handle_bytes _)), handle_decode by (apply table_handle; by eapply list_elem_of_lookup_2). done.
  - apply lookup_ge_None in Hx as Hx'. rewrite bool_decide_false by lia. rewrite (proj1 table_has_index) in Hx'. by rewrite (proj2 (lookup_ge_None bs _) Hx').
Qed.

End reading.

(** ** Properties *)

Section properties.
Context {F : Type} (file_Append : F → list byte → F * status) (file_Flush : F → F * status) (content : F → list byte)
  `{HW : !WritableLaws file_Append file_Flush content}.
Context (addr : list byte → Z) (Haddr : addr_ok addr) (fresh : Z → list byte) (Hfresh : ∀ n, 0 ≤ n → blen (fresh n) = n).
Context (Snappy_Compress : list byte → option (list byte)) (Snappy_GetUncompressedLength : list byte → option Z)
  (Snappy_Uncompress : list byte → option (list byte)) `{HS : !SnappyLaws Snappy_Compress Snappy_GetUncompressedLength Snappy_Uncompress}.
(** The options of the writer and of the reader have the same comparator and policy. *)
Context (valid : list byte → Prop) (wo : TableBuilder.Options) (o : Table.Options) `{HC : !ComparatorLaws valid (Table.comparator o)}.
Context (Hcmp : TableBuilder.comparator wo = Table.comparator o) (Hfilter : TableBuilder.filter_policy wo = Table.filter_policy o).
Context (Hint : 1 ≤ TableBuilder.block_restart_interval wo)
  (Hcomp : TableBuilder.compression wo = kNoCompression ∨ TableBuilder.compression wo = kSnappyCompression).
Context (size_ok : list (list byte) → Prop) (es : list entry) (Hpolicy : policy_ok wo (length es) size_ok).
Context (Hsorted : sorted_entries (Compare (Table.comparator o)) es) (Hvalid : ∀ e, e ∈ es → valid e.1).

#[local] Notation build := (TableBuilder.build file_Append file_Flush addr Snappy_Compress wo).
#[local] Notation Open := (Table.Open addr Snappy_GetUncompressedLength Snappy_Uncompress fresh o).
#[local] Notation cmp := (Table.comparator o).

(** A table that was built without an error can be opened. *)
Lemma build_opens f : content f = [] → ∃ r s, build f es = Ok (r, s) ∧ (ok s = true → blen (content (TableBuilder.file r)) < 2 ^ 32 →
  ∀ raf, reads (content (TableBuilder.file r)) raf → ∀ id, ∃ t bs index mh ih, Open raf (TableBuilder.FileSize r) id = Ok (Some t, status_ok) ∧
    table_file Snappy_GetUncompressedLength Snappy_Uncompress cmp (Table.filter_policy o) (content (TableBuilder.file r)) es bs index mh ih ∧
    table_ok raf o bs index mh id t).
Proof.
  intros Hf. assert (ComparatorLaws valid (TableBuilder.comparator wo)) as HC' by (by rewrite Hcmp).
  destruct (build_table file_Append file_Flush content addr Haddr Snappy_Compress Snappy_GetUncompressedLength Snappy_Uncompress valid wo Hint Hcomp
    (length es) size_ok Hpolicy f es Hf) as (r & s & E & Hr); [done | by rewrite Hcmp | done |]. exists r, s. split; [done|].
  intros Hs Hsmall raf Hraf id. destruct (Hr Hs) as (Hoff & bs & index & mh & ih & Ht). rewrite Hcmp, Hfilter in Ht.
  destruct (Open_spec addr Haddr Snappy_GetUncompressedLength Snappy_Uncompress fresh Hfresh _ Hsmall raf Hraf o (length es) size_ok) with (Htable := Ht) (id := id) as (t & Eo & Htk).
  - unfold policy_ok in Hpolicy. by rewrite Hfilter in Hpolicy.
  - done.
  - unfold TableBuilder.FileSize. rewrite Hoff. by exists t, bs, index, mh, ih.
Qed.

(** C7: A table file holds what was added to it.  Building a table from sorted entries
    never fails an assertion; when the writes succeed and the file is shorter than 4 GiB,
    opening it succeeds and the iterator of the table is a cursor on these entries: any
    sequence of calls that their preconditions allow moves it as on the list, with status
    OK and without a failed assertion, whatever the block size, the restart interval, the
    compression and the filter, and whatever blocks of the file are in the block cache. *)
Theorem table_roundtrip (f : F) (Hf : content f = []) :
  ∃ r s, build f es = Ok (r, s) ∧ (ok s = true → blen (content (TableBuilder.file r)) < 2 ^ 32 →
    ∀ raf, reads (content (TableBuilder.file r)) raf → ∀ id, ∃ t bs, Open raf (TableBuilder.FileSize r) id = Ok (Some t, status_ok) ∧
      ∀ cached ro fuel, cache_ok addr Snappy_GetUncompressedLength Snappy_Uncompress fresh raf t bs cached → (S (length es) < fuel)%nat →
        let I := Table.table_iterator addr Snappy_GetUncompressedLength Snappy_Uncompress fresh cached fuel t ro in
        ∃ it0, Table.NewIterator t = Ok it0 ∧
          ∀ ops, ops_allowed (Compare cmp) valid es (length es) ops →
            ∃ it, run_ops I it0 ops = Ok it ∧ it_status I it = Ok status_ok ∧
              let pos := foldl (spec_op (Compare cmp) es) (length es) ops in
              it_Valid I it = bool_decide (pos < length es)%nat ∧
              ∀ k v, es !! pos = Some (k, v) → it_key I it = Ok k ∧ it_value I it = Ok v).
Proof.
  destruct (build_opens f Hf) as (r & s & E & H). exists r, s. split; [done|]. intros Hs Hsmall raf Hraf id.
  destruct (H Hs Hsmall raf Hraf id) as (t & bs & index & mh & ih & Eo & Ht & Htk). exists t, bs. split; [done|]. cbv zeta. intros cached ro fuel Hcache Hfuel.
  destruct (table_cursor addr Haddr Snappy_GetUncompressedLength Snappy_Uncompress fresh Hfresh _ Hsmall raf Hraf valid o es bs index mh ih Ht Hsorted Hvalid id t cached fuel ro Htk Hcache) as (HL & it0 & Ei & Hit).
  { pose proof (index_short Snappy_GetUncompressedLength Snappy_Uncompress (content (TableBuilder.file r)) valid o es bs index mh ih Ht Hsorted Hvalid). lia. }
  exists it0. split; [done|]. intros ops Hops. exact (cursor_observed _ _ _ _ _ ops it0 _ Hit Hops).
Qed.

(** C8: [InternalGet] finds what the table holds.  In a table that was built and opened as
    before, a lookup of any key ends with status OK; it passes an entry on only if that
    is the first entry at or after the key, and it passes nothing on only if the table
    has no entry there that counts as the same key, be it that the key is behind all
    entries, between two blocks, or ruled out by the filter.  [same] is the application's
    equality of keys, which the filter and the separators must respect. *)
Theorem table_get (same : list byte → list byte → Prop)
    (Hsame_filter : ∀ p name, Table.filter_policy o = Some (p, name) → ∀ a k fl, same a k → KeyMayMatch p a fl = KeyMayMatch p k fl)
    (Hsame_sep : ∀ a c k, valid a → valid c → valid k → Compare cmp a c < 0 → Compare cmp a k < 0 →
      Compare cmp k (FindShortestSeparator cmp a c) ≤ 0 → ¬ same c k)
    (f : F) (Hf : content f = []) :
  ∃ r s, build f es = Ok (r, s) ∧ (ok s = true → blen (content (TableBuilder.file r)) < 2 ^ 32 →
    ∀ raf, reads (content (TableBuilder.file r)) raf → ∀ id, ∃ t bs, Open raf (TableBuilder.FileSize r) id = Ok (Some t, status_ok) ∧
      ∀ cached ro k, cache_ok addr Snappy_GetUncompressedLength Snappy_Uncompress fresh raf t bs cached → valid k →
        ∃ found, Table.InternalGet addr Snappy_GetUncompressedLength Snappy_Uncompress fresh cached t ro k = Ok (status_ok, found) ∧
          match found with
          | Some e => es !! lower_bound (Compare cmp) es k = Some e
          | None => ∀ e, es !! lower_bound (Compare cmp) es k = Some e → ¬ same e.1 k
          end).
Proof.
  destruct (build_opens f Hf) as (r & s & E & H). exists r, s. split; [done|]. intros Hs Hsmall raf Hraf id.
  destruct (H Hs Hsmall raf Hraf id) as (t & bs & index & mh & ih & Eo & Ht & Htk). exists t, bs. split; [done|]. intros cached ro k Hcache Hk.
  eapply (InternalGet_spec addr Haddr Snappy_GetUncompressedLength Snappy_Uncompress fresh Hfresh _ Hsmall raf Hraf valid o (length es) size_ok); try done.
  unfold policy_ok in Hpolicy. by rewrite Hfilter in Hpolicy.
Qed.

(** The block cache stays coherent.  Reading a block of the table, from the file or from
    the cache, opens an iterator on the entries of that block of the file, and the block
    it leaves in the cache is the block of its key: a cache that held blocks of the file
    under their keys still does. *)
Lemma block_cache_coherent (f : F) (Hf : content f = []) :
  ∃ r s, build f es = Ok (r, s) ∧ (ok s = true → blen (content (TableBuilder.file r)) < 2 ^ 32 →
    ∀ raf, reads (content (TableBuilder.file r)) raf → ∀ id, ∃ t bs, Open raf (TableBuilder.FileSize r) id = Ok (Some t, status_ok) ∧
      es = concat (map d_entries bs) ∧
      ∀ cached ro b, cache_ok addr Snappy_GetUncompressedLength Snappy_Uncompress fresh raf t bs cached → b ∈ bs →
        ∃ it ins, Table.BlockReader addr Snappy_GetUncompressedLength Snappy_Uncompress fresh cached t ro (handle_bytes (d_handle b)) = Ok (it, ins) ∧
          entries_shows (d_entries b) it (length (d_entries b)) ∧
          ∀ lookup, coherent addr Snappy_GetUncompressedLength Snappy_Uncompress fresh raf t bs lookup →
            coherent addr Snappy_GetUncompressedLength Snappy_Uncompress fresh raf t bs (cache_insert ins lookup)).
Proof.
  destruct (build_opens f Hf) as (r & s & E & H). exists r, s. split; [done|]. intros Hs Hsmall raf Hraf id.
  destruct (H Hs Hsmall raf Hraf id) as (t & bs & index & mh & ih & Eo & Ht & Htk). exists t, bs. split; [done|].
  split; [by eapply table_es|]. intros cached ro b Hcache Hb.
  apply (BlockReader_spec addr Haddr Snappy_GetUncompressedLength Snappy_Uncompress fresh Hfresh _ Hsmall raf Hraf); try done.
  - by destruct Htk.
  - intros b' Hb'. by eapply table_holds.
  - by eapply table_offsets.
Qed.
End properties.

(** *** Examples *)

(** A file in memory, without compression. *)
Definition mem_Append (f d : list byte) : list byte * status :=
  if blen (f ++ d) <? 2 ^ 60 then (f ++ d, status_ok) else (f, status_err kIOError (str "file too large") []).
Definition mem_Flush (f : list byte) : list byte * status := (f, status_ok).
Definition mem_Read (content : list byte) : RandomAccessFile :=
  mkFile (λ o n, (status_ok, take (Z.to_nat n) (drop (Z.to_nat o) content), false)).

#[export] Instance mem_writable : WritableLaws mem_Append mem_Flush (λ f, f).
Proof.
  split; [|by intros f f' s [= <- _]]. intros f d f' s. unfold mem_Append. destruct (Z.ltb_spec (blen (f ++ d)) (2 ^ 60)); [|by intros [= _ <-]].
  by intros [= <- _] _.
Qed.
#[export] Instance no_snappy : SnappyLaws (λ _, None) (λ _, None) (λ _, None).
Proof. by split. Qed.
Lemma mem_reads content : reads content (mem_Read content).
Proof. intros o n _ _ _. by eexists. Qed.

Definition demo_policy : option (FilterPolicy * list byte) := Some (Bloom.policy (Bloom.mkPolicy 10 6), str "b").
Definition demo_writer : TableBuilder.Options := TableBuilder.mkOptions BytewiseComparator 20 2 kSnappyCompression demo_policy.
Definition demo_options : Table.Options := Table.mkOptions BytewiseComparator demo_policy true.
Definition demo_entries : list entry := [(str "a", str "1"); (str "ab", str "2"); (str "b", str "xxxxxxxxxxx"); (str "c", [])].
Definition demo_build : outcome (TableBuilder.rep (list byte) * status) :=
  TableBuilder.build mem_Append mem_Flush (λ _, 0) (λ _, None) demo_writer [] demo_entries.
Definition demo_file : list byte := match demo_build with Ok (r, _) => TableBuilder.file r | _ => [] end.
Definition demo_fresh (n : Z) : list byte := replicate (Z.to_nat n) (z2b 0).
Definition demo_open : outcome (option Table.table * status) :=
  Table.Open (λ _, 0) (λ _, None) (λ _, None) demo_fresh demo_options (mem_Read demo_file) 185 7.

Lemma demo_addr : addr_ok (λ _, 0).
Proof. intros b Hb. pose proof (blen_nonneg b). lia. Qed.
Lemma demo_fresh_length n : 0 ≤ n → blen (demo_fresh n) = n.
Proof. intros Hn. unfold demo_fresh, blen. rewrite length_replicate. lia. Qed.
Definition demo_size (keys : list (list byte)) : Prop := 0 ≤ blen keys * 10 < 2 ^ 63.
Lemma demo_policy_ok : policy_ok demo_writer (length demo_entries) demo_size.
Proof.
  unfold policy_ok. cbn [TableBuilder.filter_policy demo_writer demo_policy]. split; [apply (bloom_laws 10 (Bloom.mkPolicy 10 6) eq_refl)|].
  intros l Hl. unfold demo_size, blen. change (length demo_entries) with 4%nat in Hl. lia.
Qed.
Lemma demo_sorted : sorted_entries (Compare BytewiseComparator) demo_entries.
Proof.
  intros i j x y Hij Hx Hy. assert (j < 4)%nat as Hj by (by apply lookup_lt_Some in Hy).
  destruct i as [|[|[|[|i]]]], j as [|[|[|[|j]]]]; try lia; injection Hx as <-; injection Hy as <-; reflexivity.
Qed.
Lemma demo_built r s : demo_build = Ok (r, s) → ok s = true ∧ TableBuilder.file r = demo_file ∧ TableBuilder.FileSize r = 185.
Proof.
  assert (match demo_build with Ok (r, s) => Some (TableBuilder.FileSize r, s) | _ => None end = Some (185, status_ok)) as H by (vm_compute; reflexivity).
  unfold demo_file. intros E. rewrite E in H |- *. injection H as Hr ->. split; [reflexivity|]. split; [reflexivity | exact Hr].
Qed.

(** Running through the table, with its first block in the cache. *)
Lemma table_roundtrip_witness : ∃ t it0, demo_open = Ok (Some t, status_ok) ∧ Table.NewIterator t = Ok it0 ∧
  let I := Table.table_iterator (λ _, 0) (λ _, None) (λ _, None) demo_fresh None 6 t (Table.mkReadOptions true true) in
  ∃ it, run_ops I it0 [OpSeek (str "ab"); OpNext; OpPrev; OpLast] = Ok it ∧ it_key I it = Ok (str "c").
Proof.
  destruct (table_roundtrip mem_Append mem_Flush (λ f, f) (λ _, 0) demo_addr demo_fresh demo_fresh_length (λ _, None) (λ _, None) (λ _, None)
    any_key demo_writer demo_options eq_refl eq_refl) with (size_ok := demo_size) (es := demo_entries) (f := @nil byte) as (r & s & E & H).
  - cbn. lia.
  - by right.
  - exact demo_policy_ok.
  - exact demo_sorted.
  - done.
  - done.
  - destruct (demo_built r s E) as (Es & Ef & Ez).
    rewrite Ef, Ez in H. destruct (H Es ltac:(vm_compute; reflexivity) (mem_Read demo_file) (mem_reads demo_file) 7) as (t & bs & Eo & Ht).
    destruct (Ht None (Table.mkReadOptions true true) 6%nat I ltac:(cbn; lia)) as (it0 & Ei & Hops). exists t, it0. split; [exact Eo|]. split; [exact Ei|].
    destruct (Hops [OpSeek (str "ab"); OpNext; OpPrev; OpLast]) as (it & Er & _ & _ & Hk); [repeat split; vm_compute; lia|].
    exists it. split; [exact Er|]. apply (Hk (str "c") []). vm_compute. reflexivity.
Defined.

Lemma table_get_witness : ∃ t found, demo_open = Ok (Some t, status_ok) ∧
  Table.InternalGet (λ _, 0) (λ _, None) (λ _, None) demo_fresh None t (Table.mkReadOptions true true) (str "b") = Ok (status_ok, found) ∧
  found = Some (str "b", str "xxxxxxxxxxx").
Proof.
  destruct (table_get mem_Append mem_Flush (λ f, f) (λ _, 0) demo_addr demo_fresh demo_fresh_length (λ _, None) (λ _, None) (λ _, None)
    any_key demo_writer demo_options eq_refl eq_refl) with (size_ok := demo_size) (es := demo_entries) (same := @eq (list byte)) (f := @nil byte) as (r & s & E & H).
  - cbn. lia.
  - by right.
  - exact demo_policy_ok.
  - exact demo_sorted.
  - done.
  - intros p name _ a k fl ->. reflexivity.
  - intros a c k Ha Hc Hk Hac _ Hks ->. change (Table.comparator demo_options) with BytewiseComparator in *. destruct (separator_between (c := BytewiseComparator) a k Ha Hk Hac) as (_ & _ & H3).
    apply (compare_neg any_key BytewiseComparator) in H3; [lia | done | done].
  - done.
  - destruct (demo_built r s E) as (Es & Ef & Ez).
    rewrite Ef, Ez in H. destruct (H Es ltac:(vm_compute; reflexivity) (mem_Read demo_file) (mem_reads demo_file) 7) as (t & bs & Eo & Ht).
    destruct (Ht None (Table.mkReadOptions true true) (str "b") I I) as (found & Eg & Hf). exists t, found. split; [exact Eo|]. split; [exact Eg|].
    assert (demo_entries !! lower_bound (Compare BytewiseComparator) demo_entries (str "b") = Some (str "b", str "xxxxxxxxxxx")) as El by (vm_compute; reflexivity).
    destruct found as [e|]; [exact (eq_trans (eq_sym Hf) El) | exfalso; exact (Hf _ El eq_refl)].
Defined.

