(* ===== verification/DbIter.v ===== *)
(** * db/db_iter.cc: the iterator of the user's view

    An iterator over internal keys (user key, sequence number, type) becomes an iterator
    over the user keys that are live in a snapshot.  The internal iterator is any
    iterator of entries sorted by internal key; [db_] is only told about the keys that
    were read, which [samples_] records.  The capacity of the saved strings is not
    modelled, so [ClearSavedValue] is the assignment of the empty string.  [fuel] bounds
    the loops over the internal iterator: one more than the number of its entries is
    enough. *)
From S2P Require Import Prelude.
From S2P Require Import Interfaces.
From S2P Require Import Comparator.
From S2P Require Import Dbformat.
From S2P Require Import Status.
From S2P Require Import Random.
From S2P Require Import Cursor.
From S2P Require Import MemTable.

(** ** Definitions *)

Module DbIter.

Definition kReadBytesPeriod : Z := 1048576.

Inductive Direction := kForward | kReverse.
#[export] Instance Direction_eq_dec : EqDecision Direction.
Proof. solve_decision. Defined.

Section DbIter.
Context {S : Type} (I : IteratorOps S) (user_comparator_ : Comparator) (sequence_ : Z) (fuel : nat).

Record dbiter := mkDbIter {
  iter_ : S;
  status_ : status;
  saved_key_ : list byte;
  saved_value_ : list byte;
  direction_ : Direction;
  valid_ : bool;
  rnd_ : Z;
  bytes_counter_ : Z;
  samples_ : list (list byte)
}.

Definition set_iter it d := mkDbIter it (status_ d) (saved_key_ d) (saved_value_ d) (direction_ d) (valid_ d) (rnd_ d) (bytes_counter_ d) (samples_ d).
Definition set_status st d := mkDbIter (iter_ d) st (saved_key_ d) (saved_value_ d) (direction_ d) (valid_ d) (rnd_ d) (bytes_counter_ d) (samples_ d).
Definition SaveKey k d := mkDbIter (iter_ d) (status_ d) k (saved_value_ d) (direction_ d) (valid_ d) (rnd_ d) (bytes_counter_ d) (samples_ d).
Definition set_value v d := mkDbIter (iter_ d) (status_ d) (saved_key_ d) v (direction_ d) (valid_ d) (rnd_ d) (bytes_counter_ d) (samples_ d).
Definition set_direction dir d := mkDbIter (iter_ d) (status_ d) (saved_key_ d) (saved_value_ d) dir (valid_ d) (rnd_ d) (bytes_counter_ d) (samples_ d).
Definition set_valid b d := mkDbIter (iter_ d) (status_ d) (saved_key_ d) (saved_value_ d) (direction_ d) b (rnd_ d) (bytes_counter_ d) (samples_ d).
Definition set_sampling rnd counter samples d := mkDbIter (iter_ d) (status_ d) (saved_key_ d) (saved_value_ d) (direction_ d) (valid_ d) rnd counter samples.
Definition ClearSavedValue : dbiter → dbiter := set_value [].

(** [RandomPeriod]: the period and the new state of the generator. *)
Definition RandomPeriod (rnd : Z) : Z * Z := Random.Uniform rnd (2 * kReadBytesPeriod).

(** The constructor. *)
Definition NewDBIterator (iter : S) (seed : Z) : dbiter :=
  let '(period, rnd) := RandomPeriod (Random.new seed) in
  mkDbIter iter status_ok [] [] kForward false rnd period [].

(** The loop of [ParseKey]: a sample of the key [k] for every period that has passed. *)
Fixpoint sample_loop (n : nat) (k : list byte) (rnd counter : Z) (samples : list (list byte))
    : outcome (Z * Z * list (list byte)) :=
  match n with
  | O => Blocked
  | Datatypes.S n =>
      if counter <? 0 then
        let '(period, rnd) := RandomPeriod rnd in
        sample_loop n k rnd (counter + period) (samples ++ [k])
      else Ok (rnd, counter, samples)
  end.
(** Two draws bring the counter up by at least one. *)
Definition sample_fuel (counter : Z) : nat := Datatypes.S (2 * Z.to_nat (- counter)).

Definition ParseKey (d : dbiter) : outcome (option ParsedInternalKey * dbiter) :=
  k ← it_key I (iter_ d);
  v ← it_value I (iter_ d);
  let counter := bytes_counter_ d - (blen k + blen v) in
  s ← sample_loop (sample_fuel counter) k (rnd_ d) counter (samples_ d);
  let d := set_sampling s.1.1 s.1.2 s.2 d in
  p ← ParseInternalKey k;
  Ok (p, match p with None => set_status (Corruption (str "corrupted internal key in DBIter")) d | Some _ => d end).

(** [skip] is [&saved_key_] in every call. *)
Fixpoint find_next_loop (n : nat) (skipping : bool) (d : dbiter) : outcome dbiter :=
  match n with
  | O => Blocked
  | Datatypes.S n =>
      let advance skipping d :=
        it ← it_Next I (iter_ d);
        let d := set_iter it d in
        if it_Valid I it then find_next_loop n skipping d
        else Ok (set_valid false (SaveKey [] d)) in
      r ← ParseKey d;
      let d := r.2 in
      match (r.1 : option ParsedInternalKey) with
      | Some ikey =>
          if sequence ikey <=? sequence_ then
            match type ikey with
            | kTypeDeletion => advance true (SaveKey (user_key ikey) d)
            | kTypeValue =>
                if skipping && (Compare user_comparator_ (user_key ikey) (saved_key_ d) <=? 0)
                then advance skipping d
                else Ok (SaveKey [] (set_valid true d))
            end
          else advance skipping d
      | None => advance skipping d
      end
  end.
Definition FindNextUserEntry (skipping : bool) (d : dbiter) : outcome dbiter :=
  if it_Valid I (iter_ d) && bool_decide (direction_ d = kForward) then find_next_loop fuel skipping d
  else Ub AssertionFailed.

(** The loop of [FindPrevUserEntry] with its local variable [value_type]. *)
Fixpoint find_prev_loop (n : nat) (value_type : ValueType) (d : dbiter) : outcome (ValueType * dbiter) :=
  match n with
  | O => Blocked
  | Datatypes.S n =>
      let step value_type d :=
        it ← it_Prev I (iter_ d);
        let d := set_iter it d in
        if it_Valid I it then find_prev_loop n value_type d else Ok (value_type, d) in
      r ← ParseKey d;
      let d := r.2 in
      match (r.1 : option ParsedInternalKey) with
      | Some ikey =>
          if sequence ikey <=? sequence_ then
            if bool_decide (value_type ≠ kTypeDeletion) && (Compare user_comparator_ (user_key ikey) (saved_key_ d) <? 0)
            then Ok (value_type, d)
            else
              match type ikey with
              | kTypeDeletion => step kTypeDeletion (ClearSavedValue (SaveKey [] d))
              | kTypeValue =>
                  raw_value ← it_value I (iter_ d);
                  k ← it_key I (iter_ d);
                  step kTypeValue (set_value raw_value (SaveKey (ExtractUserKey k) d))
              end
          else step value_type d
      | None => step value_type d
      end
  end.
Definition FindPrevUserEntry (d : dbiter) : outcome dbiter :=
  if bool_decide (direction_ d = kReverse) then
    r ← (if it_Valid I (iter_ d) then find_prev_loop fuel kTypeDeletion d else Ok (kTypeDeletion, d));
    let d := r.2 in
    if bool_decide ((r.1 : ValueType) = kTypeDeletion)
    then Ok (set_direction kForward (ClearSavedValue (SaveKey [] (set_valid false d))))
    else Ok (set_valid true d)
  else Ub AssertionFailed.

Definition Next (d : dbiter) : outcome dbiter :=
  if valid_ d then
    if bool_decide (direction_ d = kReverse) then
      let d := set_direction kForward d in
      it ← (if it_Valid I (iter_ d) then it_Next I (iter_ d) else it_SeekToFirst I (iter_ d));
      let d := set_iter it d in
      if it_Valid I it then FindNextUserEntry true d else Ok (SaveKey [] (set_valid false d))
    else
      k ← it_key I (iter_ d);
      FindNextUserEntry true (SaveKey (ExtractUserKey k) d)
  else Ub AssertionFailed.

(** The loop of [Prev] that leaves the entries of the current key; false when it ran off
    the first entry. *)
Fixpoint scan_back (n : nat) (d : dbiter) : outcome (bool * dbiter) :=
  match n with
  | O => Blocked
  | Datatypes.S n =>
      it ← it_Prev I (iter_ d);
      let d := set_iter it d in
      if it_Valid I it then
        k ← it_key I it;
        if Compare user_comparator_ (ExtractUserKey k) (saved_key_ d) <? 0 then Ok (true, d) else scan_back n d
      else Ok (false, ClearSavedValue (SaveKey [] (set_valid false d)))
  end.
Definition Prev (d : dbiter) : outcome dbiter :=
  if valid_ d then
    if bool_decide (direction_ d = kForward) then
      if it_Valid I (iter_ d) then
        k ← it_key I (iter_ d);
        r ← scan_back fuel (SaveKey (ExtractUserKey k) d);
        if (r.1 : bool) then FindPrevUserEntry (set_direction kReverse r.2) else Ok r.2
      else Ub AssertionFailed
    else FindPrevUserEntry d
  else Ub AssertionFailed.

Definition Seek (d : dbiter) (target : list byte) : outcome dbiter :=
  let d := ClearSavedValue (set_direction kForward d) in
  let d := SaveKey (AppendInternalKey [] (mkParsed target sequence_ kValueTypeForSeek)) d in
  it ← it_Seek I (iter_ d) (saved_key_ d);
  let d := set_iter it d in
  if it_Valid I it then FindNextUserEntry false d else Ok (set_valid false d).
Definition SeekToFirst (d : dbiter) : outcome dbiter :=
  let d := ClearSavedValue (set_direction kForward d) in
  it ← it_SeekToFirst I (iter_ d);
  let d := set_iter it d in
  if it_Valid I it then FindNextUserEntry false d else Ok (set_valid false d).
Definition SeekToLast (d : dbiter) : outcome dbiter :=
  let d := ClearSavedValue (set_direction kReverse d) in
  it ← it_SeekToLast I (iter_ d);
  FindPrevUserEntry (set_iter it d).

Definition db_key (d : dbiter) : outcome (list byte) :=
  if valid_ d then
    if bool_decide (direction_ d = kForward) then k ← it_key I (iter_ d); Ok (ExtractUserKey k) else Ok (saved_key_ d)
  else Ub AssertionFailed.
Definition db_value (d : dbiter) : outcome (list byte) :=
  if valid_ d then
    if bool_decide (direction_ d = kForward) then it_value I (iter_ d) else Ok (saved_value_ d)
  else Ub AssertionFailed.
Definition db_status (d : dbiter) : outcome status :=
  if ok (status_ d) then it_status I (iter_ d) else Ok (status_ d).

Definition DBIter : IteratorOps dbiter :=
  mkIterator valid_ db_key db_value db_status Next Prev Seek SeekToFirst SeekToLast.

End DbIter.
End DbIter.

Import DbIter.

(** ** The user's view *)

#[export] Instance upd_eq_dec : EqDecision upd.
Proof. solve_decision. Defined.

(** The updates that a lookup in the snapshot would find, with their values: the
    specification is the one of [MemTable::Get]. *)
Definition is_live (user : Comparator) (s : Z) (us : list upd) (u : upd) : Prop :=
  visible user (u_key u) s us = Some u ∧ u_type u = kTypeValue.
#[export] Instance is_live_dec user s us u : Decision (is_live user s us u).
Proof. apply _. Defined.
Definition user_view (user : Comparator) (s : Z) (us : list upd) : list entry :=
  map (λ u, (u_key u, u_value u)) (filter (is_live user s us) us).

(** ** Lemmas *)

(** *** Sampling *)

(** Two consecutive periods are not both empty. *)
Lemma period_twice seed : seed_ok seed → (RandomPeriod seed).1 = 0 → (RandomPeriod (RandomPeriod seed).2).1 ≠ 0.
Proof.
  intros Hs. unfold RandomPeriod, Random.Uniform. cbn [fst snd].
  destruct (Random_Next_spec seed Hs) as [_ Hx]. revert Hx. generalize (Random.Next seed). clear Hs seed. intros x Hx H0.
  destruct (Random_Next_spec x Hx) as [-> _]. change (2 * kReadBytesPeriod) with 2097152 in *.
  unfold seed_ok, Random.M in Hx. assert (∃ a, x = 2097152 * a) as [a ->] by (exists (x / 2097152); pose proof (Z.div_mod x 2097152 ltac:(lia)); lia).
  assert (1 ≤ a < 1024) as Ha by lia.
  assert (forallb (λ i, negb ((2097152 * Z.of_nat i * Random.A) mod Random.M mod 2097152 =? 0)) (seq 1 1023) = true) as Hall
    by (vm_compute; reflexivity).
  assert (In (Z.to_nat a) (seq 1 1023)) as Hin by (apply in_seq; lia).
  rewrite forallb_forall in Hall. specialize (Hall _ Hin). rewrite Z2Nat.id in Hall by lia.
  intros E. rewrite E in Hall. discriminate Hall.
Qed.

Lemma period_range seed : seed_ok seed → 0 ≤ (RandomPeriod seed).1 ∧ seed_ok (RandomPeriod seed).2.
Proof. intros Hs. destruct (Random_Uniform_spec seed (2 * kReadBytesPeriod) Hs); [done|]. unfold RandomPeriod. split; [lia | done]. Qed.

(** The sampling loop ends. *)
Lemma sample_loop_total k m : ∀ n rnd c samples, seed_ok rnd → - c ≤ Z.of_nat m → (2 * m < n)%nat →
  ∃ rnd' c' samples', sample_loop n k rnd c samples = Ok (rnd', c', samples') ∧ seed_ok rnd' ∧ 0 ≤ c'.
Proof.
  induction m as [|m IH]; intros n rnd c samples Hs Hc Hn; (destruct n as [|n]; [lia|]); cbn [sample_loop].
  { destruct (Z.ltb_spec c 0); [lia|]. eauto 10. }
  destruct (Z.ltb_spec c 0); [|eauto 10]. destruct (period_range rnd Hs) as [Hp Hs'].
  destruct (RandomPeriod rnd) as [p rnd1] eqn:E1. cbn [fst snd] in *.
  destruct (decide (p = 0)) as [->|Hne]; [|apply IH; [done | lia | lia]].
  destruct n as [|n]; [lia|]. cbn [sample_loop]. destruct (Z.ltb_spec (c + 0) 0); [|eauto 10].
  destruct (period_range rnd1 Hs') as [Hp1 Hs1]. pose proof (period_twice rnd Hs) as Ht. rewrite E1 in Ht. cbn [fst snd] in Ht.
  destruct (RandomPeriod rnd1) as [p1 rnd2]. cbn [fst snd] in *. apply IH; [done | specialize (Ht eq_refl); lia | lia].
Qed.

Section proof.
Context {S : Type} (I : IteratorOps S) (user : Comparator) `{Huser : !ComparatorLaws any_key user} (s : Z) (Hs : seq_ok s)
  (us : list upd) (target_ok : list byte → Prop) (ishows : S → nat → Prop).
#[local] Notation ucmp := (Compare user).
#[local] Notation icmp := (InternalKeyComparator.Compare user).
#[local] Notation N := (length us).
#[local] Notation live := (is_live user s us).
#[local] Notation view := (filter live us).
#[local] Notation dbiter := (@dbiter S).

(** The internal iterator is a cursor on the updates in the order of internal keys. *)
Context (HI : CursorLaws I icmp target_ok (map row us) ishows) (Hsort : sorted_entries icmp (map row us))
  (Hseq : ∀ u, u ∈ us → seq_ok (u_seq u))
  (Hinj : ∀ v w, v ∈ us → w ∈ us → ucmp (u_key v) (u_key w) = 0 → u_seq v = u_seq w → v = w).

Definition vis (u : upd) : Prop := u_seq u ≤ s.

Lemma ule_trans a b c : ucmp a b ≤ 0 → ucmp b c ≤ 0 → ucmp a c ≤ 0.
Proof. by apply compare_trans. Qed.
Lemma uflip a b : Z.sgn (ucmp b a) = - Z.sgn (ucmp a b).
Proof. by apply compare_sgn. Qed.

(** Later updates have greater keys, or the same key and an older sequence number. *)
Lemma later i j u w : (i < j)%nat → us !! i = Some u → us !! j = Some w →
  ucmp (u_key u) (u_key w) ≤ 0 ∧ (ucmp (u_key u) (u_key w) = 0 → u_seq w < u_seq u).
Proof.
  intros Hij Hu Hw. assert (u ∈ us ∧ w ∈ us) as [Hin1 Hin2] by (split; by eapply list_elem_of_lookup_2).
  assert (icmp (upd_ikey u) (upd_ikey w) < 0) as Hlt.
  { apply (Hsort i j (row u) (row w) Hij); by rewrite list_lookup_fmap, ?Hu, ?Hw. }
  pose proof (icmp_ikey user (u_key u) (u_key w) (u_seq u) (u_seq w) (u_type u) (u_type w) (Hseq u Hin1) (Hseq w Hin2)) as Hc.
  fold (upd_ikey u) (upd_ikey w) in Hc. pose proof (type_value_range (u_type u)). pose proof (type_value_range (u_type w)).
  destruct (Z.eqb_spec (ucmp (u_key u) (u_key w)) 0) as [E|E]; [|split; [lia|done]].
  split; [lia|]. intros _. destruct (decide (u_seq u = u_seq w)) as [Es|]; [|lia].
  pose proof (Hinj u w Hin1 Hin2 E Es) as <-. rewrite Z.sub_diag in Hc. change (Z.sgn 0) with 0 in Hc. apply Z.sgn_null_iff in Hc. lia.
Qed.

(** The first visible update of a key is the one a lookup finds. *)
Lemma live_iff j u : us !! j = Some u →
  live u ↔ vis u ∧ u_type u = kTypeValue ∧
    ∀ i w, (i < j)%nat → us !! i = Some w → vis w → ucmp (u_key w) (u_key u) ≠ 0.
Proof.
  intros Hu. assert (u ∈ us) as Hin by (by eapply list_elem_of_lookup_2). unfold is_live, vis.
  pose proof (visible_spec user (u_key u) s us) as Hv. split.
  - intros [E Ht]. rewrite E in Hv. destruct Hv as (_ & Hm & Hmax). unfold matches in Hm.
    apply andb_true_iff in Hm as [_ Hle]. apply Z.leb_le in Hle. split; [done|]. split; [done|].
    intros i w Hij Hw Hvw Hc. assert (u_seq w ≤ u_seq u).
    { apply Hmax; [by eapply list_elem_of_lookup_2|]. unfold matches. rewrite Hc. cbn. by apply Z.leb_le. }
    destruct (later i j w u Hij Hw Hu) as [_ Hlt]. specialize (Hlt Hc). lia.
  - intros (Hvu & Ht & Hfirst). split; [|done].
    assert (matches user (u_key u) s u = true) as Hmu.
    { unfold matches. rewrite compare_refl by done. cbn. by apply Z.leb_le. }
    destruct (visible user (u_key u) s us) as [v|]; [|by rewrite (Hv u Hin) in Hmu].
    destruct Hv as (Hvin & Hm & Hmax). specialize (Hmax u Hin Hmu). f_equal.
    unfold matches in Hm. apply andb_true_iff in Hm as [Hc Hle]. apply Z.eqb_eq in Hc. apply Z.leb_le in Hle.
    apply list_elem_of_lookup in Hvin as [i Hi]. destruct (Nat.lt_trichotomy i j) as [Hlt|[->|Hgt]].
    + by destruct (Hfirst i v Hlt Hi Hle).
    + congruence.
    + destruct (later j i u v Hgt Hu Hi) as [_ Hlt]. pose proof (uflip (u_key v) (u_key u)). lia.
Qed.

Lemma same_iff a b : ucmp a b = 0 ↔ ucmp b a = 0.
Proof. pose proof (uflip a b). lia. Qed.

(** *** Positions in the view *)

#[local] Notation rank := (count live us).

Lemma view_at j u : us !! j = Some u → live u → view !! rank j = Some u.
Proof. apply count_at. Qed.

Lemma rank_next j j' u : us !! j = Some u → live u → (j < j')%nat →
  (∀ k w, (j < k < j')%nat → us !! k = Some w → ¬ live w) → rank j' = Datatypes.S (rank j).
Proof.
  intros Hu Hl Hj Hno. rewrite <- (count_none live us (Datatypes.S j) j'); [|lia|intros k w Hk; apply Hno; lia].
  rewrite (count_S _ _ _ _ Hu), decide_True by done. lia.
Qed.

Lemma rank_0 j : (∀ k w, (k < j)%nat → us !! k = Some w → ¬ live w) → rank j = 0%nat.
Proof. intros Hno. rewrite <- (count_none live us 0 j); [done | lia|]. intros k w Hk. apply Hno. lia. Qed.

Lemma rank_end j : (∀ k w, (j ≤ k)%nat → us !! k = Some w → ¬ live w) → rank j = length view.
Proof.
  intros Hno. destruct (decide (N ≤ j)%nat); [by apply count_all|].
  rewrite <- (count_all live us N) by done. apply count_none; [lia|]. intros k w Hk. apply Hno. lia.
Qed.

(** *** The state between two calls *)

(** The internal iterator is at [ip] and nothing is wrong. *)
Definition ok_state (d : dbiter) (ip : nat) : Prop :=
  ishows (iter_ d) ip ∧ status_ d = status_ok ∧ seed_ok (rnd_ d).

(** Moving backwards, the internal iterator is before the entry [j] with nothing visible
    between them. *)
Definition behind (ip j : nat) : Prop :=
  ∃ lo, (ip = N ∧ lo = 0%nat ∨ lo = Datatypes.S ip) ∧ (lo ≤ j)%nat ∧
    ∀ i w, (lo ≤ i < j)%nat → us !! i = Some w → ¬ vis w.

Definition current (d : dbiter) (ip j : nat) (u : upd) : Prop :=
  match direction_ d with
  | kForward => ip = j
  | kReverse => saved_key_ d = u_key u ∧ saved_value_ d = u_value u ∧ behind ip j
  end.

Definition db_shows (d : dbiter) (pos : nat) : Prop :=
  ∃ ip, ok_state d ip ∧
    if valid_ d then ∃ j u, us !! j = Some u ∧ live u ∧ pos = rank j ∧ current d ip j u
    else pos = length view.

Lemma entry_at d ip : ok_state d ip → (ip < N)%nat →
  ∃ u, us !! ip = Some u ∧ u ∈ us ∧ it_key I (iter_ d) = Ok (upd_ikey u) ∧ it_value I (iter_ d) = Ok (u_value u).
Proof.
  intros (Hi & _) Hip. destruct (lookup_lt_is_Some_2 us ip Hip) as [u Hu]. exists u. split; [done|].
  split; [by eapply list_elem_of_lookup_2|]. apply (cursor_entry _ ip (row u) Hi). by rewrite list_lookup_fmap, Hu.
Qed.

Lemma iter_valid it ip : ishows it ip → it_Valid I it = bool_decide (ip < N)%nat.
Proof. intros Hi. rewrite (cursor_valid _ _ Hi). by rewrite length_map. Qed.

Lemma iter_le it ip : ishows it ip → (ip ≤ N)%nat.
Proof. intros Hi. pose proof (cursor_pos _ _ Hi) as H. by rewrite length_map in H. Qed.

Lemma iter_next it ip : ishows it ip → (ip < N)%nat → ∃ it', it_Next I it = Ok it' ∧ ishows it' (Datatypes.S ip).
Proof. intros Hi Hip. apply (cursor_step it ip OpNext Hi). cbn [op_allowed]. by rewrite length_map. Qed.

Lemma iter_prev it ip : ishows it ip → (ip < N)%nat →
  ∃ it', it_Prev I it = Ok it' ∧ ishows it' (if (ip =? 0)%nat then N else pred ip).
Proof.
  intros Hi Hip. destruct (cursor_step it ip OpPrev Hi) as (it' & E & Hi'); [cbn [op_allowed]; by rewrite length_map|].
  exists it'. split; [done|]. cbn [spec_op] in Hi'. by rewrite length_map in Hi'.
Qed.

(** [ParseKey] succeeds on a well-formed entry and changes only the sampling fields. *)
Lemma ParseKey_spec d ip u : ok_state d ip → us !! ip = Some u →
  ∃ r c l, ParseKey I d = Ok (Some (mkParsed (u_key u) (u_seq u) (u_type u)), set_sampling r c l d) ∧
    ok_state (set_sampling r c l d) ip.
Proof.
  intros Hd Hu. destruct (entry_at d ip Hd) as (u' & Hu' & Hin & Ek & Ev); [by eapply lookup_lt_Some|].
  rewrite Hu in Hu'. injection Hu' as <-. unfold ParseKey. rewrite Ek, Ev. cbn [mbind outcome_bind]. cbv zeta.
  destruct Hd as (Hi & Hst & Hr). set (c0 := bytes_counter_ d - (blen (upd_ikey u) + blen (u_value u))).
  destruct (sample_loop_total (upd_ikey u) (Z.to_nat (- c0)) (sample_fuel c0) (rnd_ d) c0 (samples_ d) Hr) as (r & c & l & -> & Hr' & _);
    [lia | unfold sample_fuel; lia|].
  cbn [mbind outcome_bind fst snd]. unfold upd_ikey. rewrite parse_ikey by (by apply Hseq). cbn [mbind outcome_bind].
  exists r, c, l. split; [done|]. done.
Qed.

(** *** Forward *)

(** Keys above the base, if there is one. *)
Definition above (base : option (list byte)) (u : upd) : Prop :=
  match base with None => True | Some b => 0 < ucmp (u_key u) b end.

(** What [skipping] and [*skip] stand for at position [ip]: the visible updates that are
    skipped are those not above the base and those hidden by a visible update before
    [ip]. *)
Definition skip_inv (base : option (list byte)) (ip : nat) (skipping : bool) (skip : list byte) : Prop :=
  ∀ j w, (ip ≤ j)%nat → us !! j = Some w → vis w →
    match base with None => True | Some b => 0 ≤ ucmp (u_key w) b end ∧
    (skipping && (ucmp (u_key w) skip <=? 0) = true ↔
     ¬ above base w ∨ ∃ i v, (i < ip)%nat ∧ us !! i = Some v ∧ vis v ∧ ucmp (u_key v) (u_key w) = 0).

Lemma skip_inv_step base ip u skipping skip : us !! ip = Some u → skip_inv base ip skipping skip →
  (vis u → u_type u = kTypeValue → skipping && (ucmp (u_key u) skip <=? 0) = true) →
  (vis u → u_type u = kTypeValue) →
  skip_inv base (Datatypes.S ip) skipping skip.
Proof.
  intros Hu Hinv Hblock Hval j w Hj Hw Hvw. destruct (Hinv j w ltac:(lia) Hw Hvw) as [Hbase Hiff]. split; [done|].
  rewrite Hiff. split.
  - intros [?|(i & v & Hi & Hv)]; [by left|]. right. exists i, v. split; [lia | done].
  - intros [?|(i & v & Hi & Hv & Hvv & Hc)]; [by left|]. destruct (decide (i = ip)) as [->|Hne].
    + rewrite Hu in Hv. injection Hv as <-. apply Hiff. pose proof (Hblock Hvv (Hval Hvv)) as Hb.
      apply andb_true_iff in Hb as [-> Hle]. apply Z.leb_le in Hle. cbn. apply Z.leb_le.
      apply (ule_trans _ (u_key u)); [|done]. pose proof (uflip (u_key u) (u_key w)). lia.
    + right. exists i, v. split; [lia | done].
Qed.

Lemma skip_inv_deletion base ip u skipping skip : us !! ip = Some u → vis u → skip_inv base ip skipping skip →
  skip_inv base (Datatypes.S ip) true (u_key u).
Proof.
  intros Hu Hvu Hinv j w Hj Hw Hvw. destruct (Hinv j w ltac:(lia) Hw Hvw) as [Hbase _]. split; [done|].
  destruct (Hinv ip u (le_n _) Hu Hvu) as [Hbu _]. destruct (later ip j u w ltac:(lia) Hu Hw) as [Huw _]. cbn [andb].
  rewrite Z.leb_le. split.
  - intros Hle. right. exists ip, u. split; [lia|]. split; [done|]. split; [done|]. pose proof (uflip (u_key u) (u_key w)). lia.
  - intros [Hna|(i & v & Hi & Hv & Hvv & Hc)].
    + unfold above in Hna. destruct base as [b|]; [|done]. apply (ule_trans _ b); [lia|]. pose proof (uflip b (u_key u)). lia.
    + apply (ule_trans _ (u_key v)); [pose proof (uflip (u_key v) (u_key w)); lia|].
      destruct (decide (i = ip)) as [->|]; [|by apply (later i ip v u ltac:(lia))].
      rewrite Hu in Hv. injection Hv as <-. by rewrite compare_refl.
Qed.

(** The first live update from [ip] on that is above the base, or none. *)
Definition found_next (base : option (list byte)) (ip : nat) (d : dbiter) : Prop :=
  ∃ ip', ok_state d ip' ∧ direction_ d = kForward ∧
    if valid_ d then ∃ u, us !! ip' = Some u ∧ live u ∧ (ip ≤ ip')%nat ∧ above base u ∧
      ∀ k w, (ip ≤ k < ip')%nat → us !! k = Some w → live w → ¬ above base w
    else ∀ k w, (ip ≤ k)%nat → us !! k = Some w → live w → ¬ above base w.

Lemma found_next_step base ip u d : us !! ip = Some u → (live u → ¬ above base u) →
  found_next base (Datatypes.S ip) d → found_next base ip d.
Proof.
  intros Hu Hno (ip' & Hd & Hdir & H). exists ip'. split; [done|]. split; [done|]. destruct (valid_ d).
  - destruct H as (v & Hv & Hl & Hle & Ha & Hno'). exists v. split; [done|]. split; [done|]. split; [lia|]. split; [done|].
    intros k w Hk Hw. destruct (decide (k = ip)) as [->|]; [|apply (Hno' k w ltac:(lia) Hw)]. rewrite Hu in Hw. by injection Hw as <-.
  - intros k w Hk Hw. destruct (decide (k = ip)) as [->|]; [|apply (H k w ltac:(lia) Hw)]. rewrite Hu in Hw. by injection Hw as <-.
Qed.

Lemma find_next_spec base n : ∀ d ip skipping, ok_state d ip → (ip < N)%nat → direction_ d = kForward → (N - ip < n)%nat →
  skip_inv base ip skipping (saved_key_ d) →
  ∃ d', find_next_loop I user s n skipping d = Ok d' ∧ found_next base ip d'.
Proof.
  induction n as [|n IH]; intros d ip skipping Hd Hip Hdir Hn Hinv; [lia|].
  destruct (lookup_lt_is_Some_2 us ip Hip) as [u Hu]. cbn [find_next_loop].
  destruct (ParseKey_spec d ip u Hd Hu) as (r & c & l & -> & Hd1). cbn [mbind outcome_bind fst snd sequence user_key type].
  remember (set_sampling r c l d) as d1 eqn:Ed1.
  assert (direction_ d1 = kForward ∧ saved_key_ d1 = saved_key_ d) as [Hdir1 Hsk1] by (by subst d1).
  rewrite <- Hsk1 in Hinv. clear Ed1 Hd r c l Hdir Hsk1 d.
  assert (∀ skipping' d2, ok_state d2 ip → direction_ d2 = kForward → (live u → ¬ above base u) →
    skip_inv base (Datatypes.S ip) skipping' (saved_key_ d2) →
    ∃ d', (it ← it_Next I (iter_ d2);
      if it_Valid I it then find_next_loop I user s n skipping' (set_iter it d2)
      else Ok (set_valid false (SaveKey [] (set_iter it d2)))) = Ok d' ∧ found_next base ip d') as Hadv.
  { intros skipping' d2 (Hi2 & Hst2 & Hr2) Hdir2 Hno Hinv2. destruct (iter_next _ ip Hi2 Hip) as (it & -> & Hit).
    cbn [mbind outcome_bind]. rewrite (iter_valid it _ Hit). case_bool_decide as Hlt.
    - destruct (IH (set_iter it d2) (Datatypes.S ip) skipping') as (d' & E & Hf); [done | done | done | lia | done|].
      exists d'. split; [done|]. by apply (found_next_step base ip u).
    - eexists. split; [reflexivity|]. apply (found_next_step base ip u _ Hu Hno). exists (Datatypes.S ip). split; [done|].
      split; [done|]. cbn. intros k w Hk Hw. apply lookup_lt_Some in Hw. lia. }
  destruct (Z.leb_spec (u_seq u) s) as [Hvu|Hvu].
  - destruct (Hinv ip u (le_n _) Hu Hvu) as [Hbu Hiff]. destruct (u_type u) eqn:Et.
    + apply (Hadv true (SaveKey (u_key u) d1)); [done | done | |].
      * intros [_ Hc]. congruence.
      * by apply (skip_inv_deletion base ip u skipping (saved_key_ d1)).
    + destruct (skipping && (ucmp (u_key u) (saved_key_ d1) <=? 0)) eqn:Eb.
      * apply (Hadv skipping d1); [done | done | |].
        -- intros Hl Ha. apply (live_iff ip u Hu) in Hl as (_ & _ & Hfirst).
           destruct (proj1 Hiff eq_refl) as [Hna|(i & v & Hi & Hv & Hvv & Hc)]; [done|]. by apply (Hfirst i v).
        -- by apply (skip_inv_step base ip u).
      * eexists. split; [reflexivity|]. exists ip. split; [done|]. split; [done|]. cbn. exists u. split; [done|].
        assert (¬ (¬ above base u ∨ ∃ i v, (i < ip)%nat ∧ us !! i = Some v ∧ vis v ∧ ucmp (u_key v) (u_key u) = 0)) as Hnot
          by (rewrite <- Hiff; done).
        split; [|split; [done|split; [|lia]]].
        -- apply (live_iff ip u Hu). split; [done|]. split; [done|]. intros i v Hi Hv Hvv Hc. apply Hnot. right. by exists i, v.
        -- destruct base as [b|]; [|done]. cbn. destruct (Z.lt_ge_cases 0 (ucmp (u_key u) b)); [done|]. destruct Hnot. left. cbn. lia.
  - apply (Hadv skipping d1); [done | done | |].
    + intros Hl. apply (live_iff ip u Hu) in Hl as (Hv & _). unfold vis in Hv. lia.
    + apply (skip_inv_step base ip u skipping (saved_key_ d1) Hu Hinv); unfold vis; lia.
Qed.

(** *** Backward *)

(** The last live update before position [hi], or none. *)
Definition found_prev (hi : nat) (d : dbiter) (vt : ValueType) : Prop :=
  ∃ ip, ok_state d ip ∧ direction_ d = kReverse ∧
    match vt with
    | kTypeValue => ∃ c u, us !! c = Some u ∧ live u ∧ (c < hi)%nat ∧ saved_key_ d = u_key u ∧ saved_value_ d = u_value u ∧
        behind ip c ∧ ∀ k w, (c < k < hi)%nat → us !! k = Some w → ¬ live w
    | kTypeDeletion => ∀ k w, (k < hi)%nat → us !! k = Some w → ¬ live w
    end.

(** The candidate after the updates from position [ip] up have been read. *)
Definition candidate (ip hi : nat) (d : dbiter) (vt : ValueType) : Prop :=
  match vt with
  | kTypeValue => ∃ c u, us !! c = Some u ∧ (ip ≤ c < hi)%nat ∧ vis u ∧ u_type u = kTypeValue ∧
      saved_key_ d = u_key u ∧ saved_value_ d = u_value u ∧
      (∀ k w, (ip ≤ k < c)%nat → us !! k = Some w → ¬ vis w) ∧ ∀ k w, (c < k < hi)%nat → us !! k = Some w → ¬ live w
  | kTypeDeletion => ∀ k w, (ip ≤ k < hi)%nat → us !! k = Some w → ¬ live w
  end.

(** A candidate with no visible update of its key before is live. *)
Lemma candidate_done ip hi d vt ip' : candidate ip hi d vt → ok_state d ip' → direction_ d = kReverse →
  (ip = 0%nat ∧ ip' = N) ∨ (∃ v, ip = Datatypes.S ip' ∧ us !! ip' = Some v ∧ vt = kTypeValue ∧ ucmp (u_key v) (saved_key_ d) < 0) →
  found_prev hi d vt.
Proof.
  intros Hc Hd Hdir Hend. exists ip'. split; [done|]. split; [done|]. destruct vt.
  - destruct Hend as [[-> _]|(v & _ & _ & ? & _)]; [|done]. intros k w Hk. apply (Hc k w). lia.
  - destruct Hc as (c & u & Hu & Hlt & Hvu & Ht & Hk & Hv & Hno & Hno2). exists c, u. split; [done|].
    split; [|split; [lia|]; split; [done|]; split; [done|]; split; [|done]].
    + apply (live_iff c u Hu). split; [done|]. split; [done|]. intros i w Hi Hw Hvw Hs0.
      destruct (decide (ip ≤ i)%nat); [by apply (Hno i w)|]. destruct Hend as [[-> _]|(v & -> & Hv' & _ & Hlt')]; [lia|].
      rewrite Hk in Hlt'. assert (ucmp (u_key w) (u_key v) ≤ 0) as Hwv.
      { destruct (decide (i = ip')) as [->|]; [|apply (later i ip' w v ltac:(lia) Hw Hv')]. rewrite Hw in Hv'. injection Hv' as ->.
        by rewrite compare_refl. }
      pose proof (compare_le_lt any_key user (u_key w) (u_key v) (u_key u)
        Logic.I Logic.I Logic.I Hwv Hlt'). lia.
    + exists ip. split; [|split; [lia | done]]. destruct Hend as [[-> ->]|(v & -> & _)]; [by left | by right].
Qed.

Lemma candidate_skip ip hi d d' vt u : us !! ip = Some u → ¬ vis u → saved_key_ d' = saved_key_ d → saved_value_ d' = saved_value_ d →
  candidate (Datatypes.S ip) hi d vt → candidate ip hi d' vt.
Proof.
  intros Hu Hvu Ek Ev Hc. destruct vt; cbn in *.
  - intros k w Hk Hw Hl. destruct (decide (k = ip)) as [->|]; [|apply (Hc k w ltac:(lia) Hw Hl)].
    rewrite Hu in Hw. injection Hw as <-. apply (live_iff ip u Hu) in Hl as [? _]. done.
  - destruct Hc as (c & v & Hv & Hlt & Hrest). exists c, v. rewrite Ek, Ev. split; [done|]. split; [lia|].
    destruct Hrest as (H1 & H2 & H3 & H4 & H5 & H6). split_and!; try done. intros k w Hk Hw.
    destruct (decide (k = ip)) as [->|]; [rewrite Hu in Hw; by injection Hw as <- | apply (H5 k w ltac:(lia) Hw)].
Qed.

(** A visible update that does not end the candidate takes its place. *)
Lemma candidate_take ip hi d d' vt u : us !! ip = Some u → (ip < hi)%nat → vis u →
  (vt = kTypeValue → 0 ≤ ucmp (u_key u) (saved_key_ d)) →
  (u_type u = kTypeValue → saved_key_ d' = u_key u ∧ saved_value_ d' = u_value u) →
  candidate (Datatypes.S ip) hi d vt → candidate ip hi d' (u_type u).
Proof.
  intros Hu Hip Hvu Hge Hnew Hc.
  assert (∀ k w, (Datatypes.S ip ≤ k < hi)%nat → us !! k = Some w → ¬ live w) as Hno.
  { destruct vt; [exact Hc|]. destruct Hc as (c & v & Hv & Hlt & Hvv & Ht & Hk & _ & Hno1 & Hno2). intros k w Hk' Hw Hl.
    destruct (Nat.lt_trichotomy k c) as [Hkc|[->|Hkc]].
    - apply (live_iff k w Hw) in Hl as [Hvw _]. apply (Hno1 k w); [lia | done | done].
    - rewrite Hv in Hw. injection Hw as <-. apply (live_iff c v Hv) in Hl as (_ & _ & Hf). apply (Hf ip u ltac:(lia) Hu Hvu).
      specialize (Hge eq_refl). rewrite Hk in Hge. destruct (later ip c u v ltac:(lia) Hu Hv) as [Hle _]. lia.
    - apply (Hno2 k w); [lia | done | done]. }
  destruct (u_type u) eqn:Et; cbn.
  - intros k w Hk Hw Hl. destruct (decide (k = ip)) as [->|]; [|apply (Hno k w ltac:(lia) Hw Hl)].
    rewrite Hu in Hw. injection Hw as <-. destruct Hl as [_ Hc']. congruence.
  - destruct (Hnew eq_refl) as [Ek Ev]. exists ip, u. split_and!; try done; intros k w Hk; first [lia | apply (Hno k w); lia].
Qed.

Lemma find_prev_spec hi n : ∀ d ip vt, ok_state d ip → (ip < N)%nat → (ip < hi)%nat → direction_ d = kReverse → (ip < n)%nat →
  candidate (Datatypes.S ip) hi d vt →
  ∃ vt' d', find_prev_loop I user s n vt d = Ok (vt', d') ∧ found_prev hi d' vt'.
Proof.
  induction n as [|n IH]; intros d ip vt Hd Hip Hhi Hdir Hn Hc; [lia|].
  destruct (lookup_lt_is_Some_2 us ip Hip) as [u Hu]. cbn [find_prev_loop].
  destruct (ParseKey_spec d ip u Hd Hu) as (r & c & l & -> & Hd1). cbn [mbind outcome_bind fst snd sequence user_key type].
  remember (set_sampling r c l d) as d1 eqn:Ed1.
  assert (direction_ d1 = kReverse) as Hdir1 by (by subst d1). assert (candidate (Datatypes.S ip) hi d1 vt) as Hc1 by (by subst d1; destruct vt).
  clear Ed1 Hd r c l Hdir Hc d.
  assert (∀ vt' d2, ok_state d2 ip → direction_ d2 = kReverse → candidate ip hi d2 vt' →
    ∃ vt2 d', (it ← it_Prev I (iter_ d2);
      if it_Valid I it then find_prev_loop I user s n vt' (set_iter it d2) else Ok (vt', set_iter it d2)) = Ok (vt2, d') ∧
      found_prev hi d' vt2) as Hstep.
  { intros vt' d2 (Hi2 & Hst2 & Hr2) Hdir2 Hc2. destruct (iter_prev _ ip Hi2 Hip) as (it & -> & Hit).
    cbn [mbind outcome_bind]. rewrite (iter_valid it _ Hit). destruct (Nat.eqb_spec ip 0) as [->|Hne].
    - rewrite bool_decide_false by lia. eexists _, _. split; [reflexivity|].
      apply (candidate_done 0 hi (set_iter it d2) vt' N); [by destruct vt' | done | done|]. by left.
    - rewrite bool_decide_true by lia. apply (IH (set_iter it d2) (pred ip) vt'); try done; [lia | lia | lia|].
      replace (Datatypes.S (pred ip)) with ip by lia. by destruct vt'. }
  destruct (Z.leb_spec (u_seq u) s) as [Hvu|Hvu].
  - destruct (bool_decide (vt ≠ kTypeDeletion) && (ucmp (u_key u) (saved_key_ d1) <? 0)) eqn:Eb.
    + apply andb_true_iff in Eb as [Hvt Hlt]. apply bool_decide_eq_true in Hvt. apply Z.ltb_lt in Hlt.
      eexists _, _. split; [reflexivity|]. apply (candidate_done (Datatypes.S ip) hi d1 vt ip Hc1 Hd1 Hdir1).
      right. exists u. split_and!; try done. by destruct vt.
    + assert (vt = kTypeValue → 0 ≤ ucmp (u_key u) (saved_key_ d1)) as Hge.
      { intros ->. rewrite bool_decide_true in Eb by done. cbn in Eb. by apply Z.ltb_ge in Eb. }
      destruct (u_type u) eqn:Et.
      * apply (Hstep kTypeDeletion (ClearSavedValue (SaveKey [] d1))); [done | done|]. rewrite <- Et.
        apply (candidate_take ip hi d1 _ vt u Hu Hhi Hvu Hge); [by rewrite Et | done].
      * destruct (entry_at d1 ip Hd1 Hip) as (u' & Hu' & _ & Ek & Ev). rewrite Hu in Hu'. injection Hu' as <-.
        rewrite Ev. cbn [mbind outcome_bind]. rewrite Ek. cbn [mbind outcome_bind]. unfold upd_ikey. rewrite extract_ikey.
        apply (Hstep kTypeValue (set_value (u_value u) (SaveKey (u_key u) d1))); [done | done|]. rewrite <- Et.
        by apply (candidate_take ip hi d1 _ vt u Hu Hhi Hvu Hge).
  - apply (Hstep vt d1); [done | done|]. apply (candidate_skip ip hi d1 d1 vt u Hu); [unfold vis; lia | done..].
Qed.

(** *** From positions of the internal iterator to positions in the view *)

#[local] Notation es := (user_view user s us).
(** The view has one entry per user key, in order. *)
Lemma view_sorted : sorted_entries ucmp es.
Proof.
  intros i j x y Hij Hx Hy. unfold user_view in Hx, Hy. rewrite list_lookup_fmap in Hx, Hy.
  apply fmap_Some in Hx as (u & Hu & ->). apply fmap_Some in Hy as (w & Hw & ->). cbn [fst].
  pose proof (list_elem_of_lookup_2 _ _ _ Hu) as [Hl [a Ha]%list_elem_of_lookup]%list_elem_of_filter.
  pose proof (list_elem_of_lookup_2 _ _ _ Hw) as [Hlw [b Hb]%list_elem_of_lookup]%list_elem_of_filter.
  destruct (count_before live us b i u) as (m & Hm & Em); [done | |].
  - destruct (decide (i < rank b)%nat); [done|]. destruct (count_after live us (Datatypes.S b) j w Hw) as (m & Hm & Em).
    { rewrite (count_S _ _ _ _ Hb), decide_True by done. lia. }
    pose proof (proj1 (live_iff b w Hb) Hlw) as [Hvw _]. destruct (proj1 (live_iff m w Em) Hlw) as (_ & _ & Hf).
    destruct (Hf b w ltac:(lia) Hb Hvw). by apply compare_refl.
  - destruct (later m b u w Hm Em Hb) as [Hle _]. pose proof (proj1 (live_iff m u Em) Hl) as [Hvu _].
    destruct (proj1 (live_iff b w Hb) Hlw) as (_ & _ & Hf). specialize (Hf m u Hm Em Hvu). lia.
Qed.

Context (ktarget_ok : list byte → Prop) (Hseek : ∀ t, ktarget_ok t → target_ok (ikey t s kTypeValue))
  (fuel : nat) (Hfuel : (N < fuel)%nat).

Lemma length_view : length es = length view.
Proof. unfold user_view. by rewrite length_map. Qed.

Lemma shows_first ip d : found_next None ip d → db_shows d (rank ip).
Proof.
  intros (ip' & Hd & Hdir & H). exists ip'. split; [done|]. destruct (valid_ d).
  - destruct H as (u & Hu & Hl & Hle & _ & Hno). exists ip', u. unfold current. rewrite Hdir. split_and!; try done.
    apply count_none; [done|]. intros k w Hk Hw Hlw. by apply (Hno k w Hk Hw Hlw).
  - apply rank_end. intros k w Hk Hw Hl. by apply (H k w).
Qed.

Lemma shows_after ip j u d : us !! j = Some u → live u → (ip ≤ j)%nat → found_next (Some (u_key u)) ip d →
  db_shows d (Datatypes.S (rank j)).
Proof.
  intros Hu Hl Hip (ip' & Hd & Hdir & H).
  assert (∀ k w, (j < k)%nat → us !! k = Some w → live w → ¬ above (Some (u_key u)) w → False) as Hcl.
  { intros k w Hk Hw Hlw Hna. cbn in Hna. destruct (later j k u w Hk Hu Hw) as [Hle _].
    pose proof (proj1 (live_iff j u Hu) Hl) as [Hvu _]. apply (live_iff k w Hw) in Hlw as (_ & _ & Hf).
    apply (Hf j u Hk Hu Hvu). pose proof (uflip (u_key u) (u_key w)). lia. }
  exists ip'. split; [done|]. destruct (valid_ d).
  - destruct H as (v & Hv & Hlv & Hle & Ha & Hno). exists ip', v. unfold current. rewrite Hdir. split_and!; try done.
    assert (j < ip')%nat as Hj.
    { destruct (decide (j < ip')%nat); [done|]. cbn in Ha. destruct (decide (ip' = j)) as [->|].
      - rewrite Hu in Hv. injection Hv as <-. rewrite compare_refl in Ha by done. lia.
      - destruct (later ip' j v u ltac:(lia) Hv Hu). lia. }
    symmetry. apply (rank_next j ip' u Hu Hl Hj). intros k w Hk Hw Hlw. apply (Hcl k w); [lia | done | done|].
    apply (Hno k w); [lia | done | done].
  - rewrite <- (rank_next j (Datatypes.S j) u Hu Hl) by lia. apply rank_end. intros k w Hk Hw Hlw.
    apply (Hcl k w); [lia | done | done|]. apply (H k w); [lia | done | done].
Qed.

(** After a move of the internal iterator to [ip], [FindNextUserEntry(false)] or the end. *)
Lemma find_first d it ip : ok_state (set_iter it d) ip → direction_ d = kForward →
  skip_inv None ip false (saved_key_ d) →
  ∃ d', (if it_Valid I it then FindNextUserEntry I user s fuel false (set_iter it d) else Ok (set_valid false (set_iter it d))) = Ok d' ∧
    db_shows d' (rank ip).
Proof.
  intros Hd Hdir Hinv. pose proof (proj1 Hd) as Hi. cbn [iter_ set_iter] in Hi. rewrite (iter_valid it ip Hi). case_bool_decide as Hip.
  - unfold FindNextUserEntry. cbn [iter_ set_iter direction_]. rewrite (iter_valid it ip Hi), Hdir, !bool_decide_true by done. cbn [andb].
    destruct (find_next_spec None fuel (set_iter it d) ip false) as (d' & E & Hf); [done | done | done | lia | done|].
    exists d'. split; [done | by apply shows_first].
  - eexists. split; [reflexivity|]. exists ip. split; [done|]. cbn [valid_ set_valid]. apply rank_end.
    intros k w Hk Hw. apply lookup_lt_Some in Hw. lia.
Qed.

Lemma find_after d ip j u : ok_state d ip → (ip ≤ j)%nat → direction_ d = kForward → us !! j = Some u → live u →
  saved_key_ d = u_key u → (∀ k w, (ip ≤ k < j)%nat → us !! k = Some w → ¬ vis w) →
  ∃ d', FindNextUserEntry I user s fuel true d = Ok d' ∧ db_shows d' (Datatypes.S (rank j)).
Proof.
  intros Hd Hip Hdir Hu Hl Hk Hno. pose proof (lookup_lt_Some _ _ _ Hu) as Hj.
  unfold FindNextUserEntry. rewrite (iter_valid _ ip (proj1 Hd)), Hdir, !bool_decide_true by (done || lia). cbn [andb].
  destruct (find_next_spec (Some (u_key u)) fuel d ip true) as (d' & E & Hf); [done | lia | done | lia | |].
  - intros i w Hi Hw Hvw. assert (j ≤ i)%nat as Hji.
    { destruct (decide (j ≤ i)%nat); [done|]. exfalso. apply (Hno i w); [lia | done | done]. }
    assert (ucmp (u_key u) (u_key w) ≤ 0) as Huw.
    { destruct (decide (i = j)) as [->|]; [|apply (later j i u w ltac:(lia) Hu Hw)]. rewrite Hu in Hw. injection Hw as <-.
      by rewrite compare_refl. }
    pose proof (uflip (u_key u) (u_key w)) as Hfl. split; [lia|]. rewrite Hk. cbn [andb above]. rewrite Z.leb_le. split; [left; lia|].
    intros [?|(k & v & Hk' & Hv & Hvv & Hc)]; [lia|].
    assert (ucmp (u_key v) (u_key u) ≤ 0) as Hvu by (apply (later k j v u); [lia | done | done]).
    apply (ule_trans _ (u_key v)); [pose proof (uflip (u_key v) (u_key w)); lia | done].
  - exists d'. split; [done|]. by apply (shows_after ip j u).
Qed.

Lemma FindPrev_spec d ip : ok_state d ip → direction_ d = kReverse →
  let hi := if decide (ip < N)%nat then Datatypes.S ip else 0%nat in
  ∃ d', FindPrevUserEntry I user s fuel d = Ok d' ∧ db_shows d' (if (rank hi =? 0)%nat then length view else pred (rank hi)).
Proof.
  intros Hd Hdir hi. unfold FindPrevUserEntry. rewrite Hdir, bool_decide_true by done. rewrite (iter_valid _ ip (proj1 Hd)).
  assert (∃ vt d1, (if bool_decide (ip < N)%nat then find_prev_loop I user s fuel kTypeDeletion d else Ok (kTypeDeletion, d)) = Ok (vt, d1) ∧
    found_prev hi d1 vt) as (vt & d1 & -> & Hf).
  { subst hi. destruct (decide (ip < N)%nat) as [Hip|Hip]; [rewrite bool_decide_true by done|rewrite bool_decide_false by done].
    - apply find_prev_spec with (ip := ip); try done; [lia | lia|]. cbn. intros k w Hk. lia.
    - eexists _, _. split; [reflexivity|]. exists ip. split; [done|]. split; [done|]. intros k w Hk. lia. }
  cbn [mbind outcome_bind fst snd]. destruct Hf as (ip1 & Hd1 & Hdir1 & Hf). destruct vt.
  - rewrite bool_decide_true by done. eexists. split; [reflexivity|]. exists ip1. split; [done|]. cbn [valid_ set_direction ClearSavedValue set_value SaveKey set_valid].
    rewrite (rank_0 hi) by (intros k w Hk; by apply Hf). done.
  - rewrite bool_decide_false by done. eexists. split; [reflexivity|]. exists ip1. split; [done|]. cbn [valid_ set_valid].
    destruct Hf as (c & u & Hu & Hl & Hc & Hk & Hv & Hb & Hno). exists c, u. split; [done|]. split; [done|].
    rewrite (rank_next c hi u Hu Hl Hc Hno). split; [done|]. unfold current. cbn [direction_ set_valid saved_key_ saved_value_]. by rewrite Hdir1.
Qed.

Lemma scan_back_spec j u n : us !! j = Some u → live u → ∀ d ip, ok_state d ip → (ip ≤ j)%nat → (ip < n)%nat → saved_key_ d = u_key u →
  (∀ k w, (ip ≤ k < j)%nat → us !! k = Some w → ¬ live w) →
  ∃ b d', scan_back I user n d = Ok (b, d') ∧
    if (b : bool) then ∃ ip', ok_state d' ip' ∧ (Datatypes.S ip' ≤ j)%nat ∧ rank (Datatypes.S ip') = rank j
    else db_shows d' (length view) ∧ rank j = 0%nat.
Proof.
  intros Hu Hl. pose proof (lookup_lt_Some _ _ _ Hu) as Hj. induction n as [|n IH]; intros d ip Hd Hip Hn Hk Hno; [lia|].
  cbn [scan_back]. destruct Hd as (Hi & Hst & Hr). destruct (iter_prev _ ip Hi ltac:(lia)) as (it & -> & Hit).
  cbn [mbind outcome_bind]. rewrite (iter_valid it _ Hit). destruct (Nat.eqb_spec ip 0) as [->|Hne].
  { rewrite bool_decide_false by lia. eexists _, _. split; [reflexivity|]. split.
    - exists N. split; [done|]. done.
    - apply rank_0. intros k w Hk'. apply Hno. lia. }
  rewrite bool_decide_true by lia. assert (ok_state (set_iter it d) (pred ip)) as Hd1 by done.
  destruct (entry_at _ _ Hd1 ltac:(lia)) as (w & Hw & _ & Ek & _). cbn [iter_ set_iter] in Ek. rewrite Ek. cbn [mbind outcome_bind].
  unfold upd_ikey. rewrite extract_ikey. cbn [saved_key_ set_iter]. rewrite Hk.
  destruct (Z.ltb_spec (ucmp (u_key w) (u_key u)) 0) as [Hlt|Hge].
  - eexists _, _. split; [reflexivity|]. exists (pred ip). replace (Datatypes.S (pred ip)) with ip by lia. split; [done|]. split; [done|].
    apply count_none; [done|]. intros k v Hk' Hv. by apply (Hno k v).
  - apply (IH (set_iter it d) (pred ip) Hd1); [lia | lia | done|]. intros k v Hk' Hv.
    destruct (decide (k = pred ip)) as [->|]; [|apply (Hno k v ltac:(lia) Hv)]. rewrite Hw in Hv. injection Hv as <-.
    intros Hlw. apply (live_iff _ w Hw) in Hlw as [Hvw _]. apply (live_iff j u Hu) in Hl as (_ & _ & Hf).
    apply (Hf (pred ip) w ltac:(lia) Hw Hvw). destruct (later (pred ip) j w u ltac:(lia) Hw Hu). lia.
Qed.

(** *** Every operation *)

Lemma db_next d pos : db_shows d pos → (pos < length es)%nat → ∃ d', DbIter.Next I user s fuel d = Ok d' ∧ db_shows d' (Datatypes.S pos).
Proof.
  intros (ip & Hd & Hv) Hpos. rewrite length_view in Hpos. unfold DbIter.Next. destruct (valid_ d); [|lia].
  destruct Hv as (j & u & Hu & Hl & -> & Hcur). pose proof (lookup_lt_Some _ _ _ Hu) as Hj. unfold current in Hcur.
  destruct (direction_ d) eqn:Hdir.
  - subst ip. rewrite bool_decide_false by done. destruct (entry_at d j Hd Hj) as (u' & Hu' & _ & -> & _).
    rewrite Hu in Hu'. injection Hu' as <-. cbn [mbind outcome_bind]. unfold upd_ikey. rewrite extract_ikey.
    apply (find_after _ j j u); try done. intros k w Hk. lia.
  - rewrite bool_decide_true by done. destruct Hcur as (Hk & _ & lo & Hlo & Hle & Hno). cbn [iter_ set_direction].
    destruct Hd as (Hi & Hst & Hr).
    assert (∃ it, (if it_Valid I (iter_ d) then it_Next I (iter_ d) else it_SeekToFirst I (iter_ d)) = Ok it ∧ ishows it lo) as (it & -> & Hit).
    { rewrite (iter_valid _ ip Hi). destruct Hlo as [[-> ->]| ->].
      - rewrite bool_decide_false by lia. apply (cursor_step _ N OpFirst Hi Logic.I).
      - rewrite bool_decide_true by lia. apply iter_next; [done | lia]. }
    cbn [mbind outcome_bind]. rewrite (iter_valid it lo Hit), bool_decide_true by lia. by apply (find_after _ lo j u).
Qed.

Lemma db_prev d pos : db_shows d pos → (pos < length es)%nat →
  ∃ d', DbIter.Prev I user s fuel d = Ok d' ∧ db_shows d' (if (pos =? 0)%nat then length es else pred pos).
Proof.
  intros (ip & Hd & Hv) Hpos. rewrite length_view in *. unfold DbIter.Prev. destruct (valid_ d); [|lia].
  destruct Hv as (j & u & Hu & Hl & -> & Hcur). pose proof (lookup_lt_Some _ _ _ Hu) as Hj. unfold current in Hcur.
  destruct (direction_ d) eqn:Hdir.
  - subst ip. rewrite bool_decide_true by done. rewrite (iter_valid _ j (proj1 Hd)), bool_decide_true by done.
    destruct (entry_at d j Hd Hj) as (u' & Hu' & _ & -> & _). rewrite Hu in Hu'. injection Hu' as <-. cbn [mbind outcome_bind].
    unfold upd_ikey. rewrite extract_ikey.
    destruct (scan_back_spec j u fuel Hu Hl (SaveKey (u_key u) d) j) as (b & d1 & -> & Hb); try done; [lia | intros k w Hk; lia|].
    cbn [mbind outcome_bind fst snd]. destruct b.
    + destruct Hb as (ip & Hd1 & Hip & Hrank). destruct (FindPrev_spec (set_direction kReverse d1) ip) as (d' & E & H'); [done | done|].
      exists d'. split; [done|]. rewrite decide_True in H' by lia. by rewrite <- Hrank.
    + destruct Hb as [Hb ->]. exists d1. by split.
  - rewrite bool_decide_false by done. destruct Hcur as (_ & _ & lo & Hlo & Hle & Hno).
    destruct (FindPrev_spec d ip Hd Hdir) as (d' & E & H'). exists d'. split; [done|].
    assert (rank lo = rank j) as Hrank.
    { apply count_none; [done|]. intros k w Hk Hw Hlw. apply (Hno k w Hk Hw). apply (live_iff k w Hw) in Hlw. apply Hlw. }
    rewrite <- Hrank. destruct Hlo as [[-> ->]| ->]; [by rewrite decide_False in H' by lia | by rewrite decide_True in H' by lia].
Qed.

Lemma db_first d pos : db_shows d pos → ∃ d', DbIter.SeekToFirst I user s fuel d = Ok d' ∧ db_shows d' 0.
Proof.
  intros (ip & (Hi & Hst & Hr) & _). unfold DbIter.SeekToFirst. cbn [iter_ ClearSavedValue set_value set_direction].
  destruct (cursor_step _ ip OpFirst Hi Logic.I) as (it & E & Hit). cbn [run_op] in E. rewrite E. cbn [mbind outcome_bind].
  apply (find_first (ClearSavedValue (set_direction kForward d)) it 0); [done | done|].
  intros j w Hj Hw Hvw. split; [done|]. cbn. split; [done|]. intros [H|(i & v & Hi' & _)]; [by destruct H | lia].
Qed.

Lemma db_last d pos : db_shows d pos → ∃ d', DbIter.SeekToLast I user s fuel d = Ok d' ∧ db_shows d' (pred (length es)).
Proof.
  intros (ip & (Hi & Hst & Hr) & _). unfold DbIter.SeekToLast. cbn [iter_ ClearSavedValue set_value set_direction].
  destruct (cursor_step _ ip OpLast Hi Logic.I) as (it & E & Hit). cbn [run_op] in E. rewrite E. cbn [mbind outcome_bind].
  cbn [spec_op] in Hit. rewrite length_map in Hit.
  destruct (FindPrev_spec (set_iter it (ClearSavedValue (set_direction kReverse d))) (pred N)) as (d' & E' & H'); [done | done|].
  exists d'. split; [done|]. rewrite length_view. destruct (decide (pred N < N)%nat) in H'.
  - replace (Datatypes.S (pred N)) with N in H' by lia. rewrite count_all in H' by done.
    destruct (Nat.eqb_spec (length view) 0) as [E0|]; [by rewrite E0 in *|done].
  - assert (length view = 0%nat) as E0 by (rewrite <- (count_all live us 0); [done | lia]).
    change (rank 0) with 0%nat in H'. cbn [Nat.eqb] in H'. by rewrite E0 in *.
Qed.

Lemma seek_position t : ktarget_ok t → rank (lower_bound icmp (map row us) (ikey t s kTypeValue)) = lower_bound ucmp es t ∧
  skip_inv None (lower_bound icmp (map row us) (ikey t s kTypeValue)) false (ikey t s kTypeValue).
Proof.
  intros Ht. set (ip := lower_bound icmp (map row us) (ikey t s kTypeValue)).
  assert (∀ u, u ∈ us → Z.sgn (icmp (upd_ikey u) (ikey t s kTypeValue)) =
    if ucmp (u_key u) t =? 0 then Z.sgn ((256 * s + 1) - (256 * u_seq u + type_value (u_type u))) else Z.sgn (ucmp (u_key u) t)) as Hcmp.
  { intros u Hu. apply (icmp_ikey user (u_key u) t (u_seq u) s (u_type u) kTypeValue (Hseq u Hu) Hs). }
  assert (∀ k w, (k < ip)%nat → us !! k = Some w → ucmp (u_key w) t < 0 ∨ ucmp (u_key w) t = 0 ∧ ¬ vis w) as Hbefore.
  { intros k w Hk Hw. pose proof (lower_bound_below icmp (map row us) (ikey t s kTypeValue) k (row w) Hk) as Hlt.
    rewrite list_lookup_fmap, Hw in Hlt. specialize (Hlt eq_refl). cbn [row fst] in Hlt.
    specialize (Hcmp w ltac:(by eapply list_elem_of_lookup_2)). pose proof (type_value_range (u_type w)). unfold vis.
    destruct (Z.eqb_spec (ucmp (u_key w) t) 0); lia. }
  assert (∀ k w, (ip ≤ k)%nat → us !! k = Some w → 0 ≤ ucmp (u_key w) t) as Hafter.
  { intros k w Hk Hw. destruct (lookup_lt_is_Some_2 us ip) as [x Hx]; [apply lookup_lt_Some in Hw; lia|].
    pose proof (lower_bound_at icmp (map row us) (ikey t s kTypeValue) (row x)) as Hge. fold ip in Hge.
    rewrite list_lookup_fmap, Hx in Hge. specialize (Hge eq_refl). cbn [row fst] in Hge.
    specialize (Hcmp x ltac:(by eapply list_elem_of_lookup_2)).
    assert (0 ≤ ucmp (u_key x) t) as Hxt by (destruct (Z.eqb_spec (ucmp (u_key x) t) 0); lia).
    destruct (decide (k = ip)) as [->|]; [rewrite Hx in Hw; by injection Hw as <-|].
    destruct (later ip k x w ltac:(lia) Hx Hw) as [Hxw _]. pose proof (uflip t (u_key x)) as Hf1. pose proof (uflip (u_key w) t) as Hf2.
    assert (ucmp t (u_key w) ≤ 0) by (apply (ule_trans _ (u_key x)); [lia | done]). lia. }
  split.
  - apply lower_bound_unique.
    + rewrite length_view. apply count_le.
    + intros i x Hi Hx. unfold user_view in Hx. rewrite list_lookup_fmap in Hx. apply fmap_Some in Hx as (u & Hu & ->). cbn [fst].
      pose proof (list_elem_of_lookup_2 _ _ _ Hu) as [Hl _]%list_elem_of_filter.
      destruct (count_before live us ip i u Hu Hi) as (m & Hm & Em). destruct (Hbefore m u Hm Em) as [|[_ Hnv]]; [done|].
      by destruct (proj1 (live_iff m u Em) Hl) as [Hvu _].
    + intros x Hx. unfold user_view in Hx. rewrite list_lookup_fmap in Hx. apply fmap_Some in Hx as (u & Hu & ->). cbn [fst].
      destruct (count_after live us ip _ u Hu (le_n _)) as (m & Hm & Em). by apply (Hafter m u).
  - intros j w Hj Hw Hvw. split; [done|]. cbn. split; [done|]. intros [H|(i & v & Hi & Hv & Hvv & Hc)]; [by destruct H|].
    exfalso. pose proof (Hafter j w Hj Hw). destruct (Hbefore i v Hi Hv) as [Hlt|[_ Hnv]]; [|done].
    pose proof (uflip (u_key v) (u_key w)). assert (ucmp (u_key w) t < 0); [|lia].
    apply (compare_le_lt any_key user (u_key w) (u_key v) t); done || lia.
Qed.

Lemma db_seek d pos t : db_shows d pos → ktarget_ok t →
  ∃ d', DbIter.Seek I user s fuel d t = Ok d' ∧ db_shows d' (lower_bound ucmp es t).
Proof.
  intros (ip & (Hi & Hst & Hr) & _) Ht. unfold DbIter.Seek. cbn [iter_ ClearSavedValue set_value set_direction SaveKey saved_key_].
  change (AppendInternalKey [] (mkParsed t s kValueTypeForSeek)) with (ikey t s kTypeValue).
  destruct (cursor_step _ ip (OpSeek (ikey t s kTypeValue)) Hi (Hseek t Ht)) as (it & E & Hit). cbn [run_op] in E. rewrite E.
  cbn [mbind outcome_bind]. destruct (seek_position t Ht) as [<- Hinv].
  by apply (find_first (SaveKey (ikey t s kTypeValue) (ClearSavedValue (set_direction kForward d))) it).
Qed.

Lemma db_iter_laws : CursorLaws (DBIter I user s fuel) ucmp ktarget_ok es db_shows.
Proof.
  split; intros d pos.
  - intros (ip & Hd & Hv). rewrite length_view. destruct (valid_ d); [|by subst].
    destruct Hv as (j & u & _ & _ & -> & _). apply count_le.
  - intros (ip & Hd & Hv). cbn [it_Valid DBIter]. rewrite length_view. destruct (valid_ d).
    + destruct Hv as (j & u & Hu & Hl & -> & _). rewrite bool_decide_true; [done|]. eapply lookup_lt_Some. by apply view_at.
    + subst pos. by rewrite bool_decide_false by lia.
  - intros e (ip & Hd & Hv) He. unfold user_view in He. rewrite list_lookup_fmap in He. apply fmap_Some in He as (u' & Hu' & ->).
    cbn [it_key it_value DBIter]. unfold db_key, db_value. destruct (valid_ d); [|subst pos; apply lookup_lt_Some in Hu'; lia].
    destruct Hv as (j & u & Hu & Hl & -> & Hcur). rewrite (view_at j u Hu Hl) in Hu'. injection Hu' as <-. unfold current in Hcur.
    destruct (direction_ d); [rewrite !bool_decide_true by done|rewrite !bool_decide_false by done].
    + subst ip. destruct (entry_at d j Hd) as (u' & Hu' & _ & -> & ->); [by eapply lookup_lt_Some|].
      rewrite Hu in Hu'. injection Hu' as <-. cbn [mbind outcome_bind fst snd]. unfold upd_ikey. by rewrite extract_ikey.
    + destruct Hcur as (-> & -> & _). done.
  - intros (ip & (Hi & Hst & Hr) & _). cbn [it_status DBIter]. unfold db_status. rewrite Hst. cbn. by eapply (cursor_status (I := I)).
  - intros op Hd Hop. destruct op; cbn [run_op DBIter it_Next it_Prev it_Seek it_SeekToFirst it_SeekToLast spec_op op_allowed] in *.
    + by apply (db_first d pos).
    + by apply (db_last d pos).
    + by apply db_next.
    + by apply db_prev.
    + by apply (db_seek d pos).
Qed.

Lemma new_db_iter it p seed : ishows it p → db_shows (NewDBIterator it seed) (length es).
Proof.
  intros Hit. unfold NewDBIterator. destruct (period_range (Random.new seed) (Random_new_ok seed)) as [_ Hr].
  destruct (RandomPeriod (Random.new seed)) as [q rnd]. exists p. split; [done|]. apply length_view.
Qed.

End proof.

(** ** Properties *)

(** C13: The database iterator shows the user's view of a snapshot.  Over any internal
    iterator that is a cursor on updates sorted by internal key (no two updates of a
    user key with one sequence number), the iterator is a cursor on exactly the entries
    that a lookup in the snapshot finds: one entry per user key that has a visible
    value and no newer visible deletion, with the value a lookup returns, in the user's
    order.  This holds for any sequence of [Next], [Prev], [Seek], [SeekToFirst] and
    [SeekToLast] with any changes of direction; the loops end, the status is OK and no
    assertion fails. *)
Theorem db_iter_view {S} (I : IteratorOps S) (user : Comparator) (Huser : ComparatorLaws any_key user)
    (s : Z) (Hs : seq_ok s) (us : list upd) (target_ok : list byte → Prop) (ishows : S → nat → Prop)
    (HI : CursorLaws I (InternalKeyComparator.Compare user) target_ok (map row us) ishows)
    (Hsort : sorted_entries (InternalKeyComparator.Compare user) (map row us))
    (Hseq : ∀ u, u ∈ us → seq_ok (u_seq u))
    (Hinj : ∀ v w, v ∈ us → w ∈ us → Compare user (u_key v) (u_key w) = 0 → u_seq v = u_seq w → v = w)
    (key_ok : list byte → Prop) (Hseek : ∀ t, key_ok t → target_ok (ikey t s kTypeValue))
    (fuel : nat) (Hfuel : (length us < fuel)%nat) (it : S) (p : nat) (Hit : ishows it p) (seed : Z) :
  let es := user_view user s us in
  let db := DBIter I user s fuel in
  sorted_entries (Compare user) es ∧
  ∀ ops, ops_allowed (Compare user) key_ok es (length es) ops →
    let pos := foldl (spec_op (Compare user) es) (length es) ops in
    ∃ d, run_ops db (NewDBIterator it seed) ops = Ok d ∧ it_status db d = Ok status_ok ∧
      it_Valid db d = bool_decide (pos < length es)%nat ∧
      ∀ k v, es !! pos = Some (k, v) → it_key db d = Ok k ∧ it_value db d = Ok v.
Proof.
  cbv zeta. split; [by apply view_sorted|]. intros ops Hops.
  pose proof (db_iter_laws I user s Hs us target_ok ishows HI Hsort Hseq Hinj key_ok Hseek fuel Hfuel) as HL.
  apply (cursor_observed (DBIter I user s fuel) (Compare user) key_ok (user_view user s us) (db_shows user s us ishows) ops); [|done].
  by apply (new_db_iter user s us ishows it p).
Qed.

(** Key "a" was deleted after the snapshot 4, "b" before it, "c" was overwritten. *)
Definition demo_rows : list upd :=
  [mkUpd 5 kTypeDeletion (str "a") []; mkUpd 1 kTypeValue (str "a") (str "1");
   mkUpd 4 kTypeDeletion (str "b") []; mkUpd 2 kTypeValue (str "b") (str "2");
   mkUpd 6 kTypeValue (str "c") (str "new"); mkUpd 3 kTypeValue (str "c") (str "3")].
Definition demo_icmp : list byte → list byte → Z := InternalKeyComparator.Compare BytewiseComparator.

Lemma db_iter_view_witness :
  let db := DBIter (list_cursor demo_icmp (map row demo_rows)) BytewiseComparator 4 7 in
  user_view BytewiseComparator 4 demo_rows = [(str "a", str "1"); (str "c", str "3")] ∧
  ∃ d, run_ops db (NewDBIterator 6%nat 301) [OpFirst; OpNext; OpPrev; OpNext; OpPrev; OpSeek (str "b")] = Ok d ∧
    it_key db d = Ok (str "c") ∧ it_value db d = Ok (str "3").
Proof.
  cbv zeta. split; [vm_compute; reflexivity|].
  destruct (db_iter_view (list_cursor demo_icmp (map row demo_rows)) BytewiseComparator bytewise_laws 4
    ltac:(split; vm_compute; congruence) demo_rows any_key (λ it pos, it = pos ∧ (pos ≤ 6)%nat)) with
    (key_ok := any_key) (fuel := 7%nat) (it := 6%nat) (p := 6%nat) (seed := 301) as [_ Hops].
  - apply list_cursor_laws.
  - intros i j x y Hij Hx Hy.
    do 6 (destruct i as [|i]; [injection Hx as <-; do 6 (destruct j as [|j]; [first [lia | injection Hy as <-; vm_compute; reflexivity]|]); discriminate Hy|]).
    discriminate Hx.
  - apply Forall_forall. repeat (constructor; [split; vm_compute; congruence|]). constructor.
  - intros v w Hv Hw _ E. revert v Hv E.
    refine (proj1 (Forall_forall (λ v, u_seq v = u_seq w → v = w) demo_rows) _). revert w Hw.
    refine (proj1 (Forall_forall (λ w, Forall (λ v, u_seq v = u_seq w → v = w) demo_rows) demo_rows) _).
    repeat (constructor; [repeat (constructor; [cbn; (reflexivity || (intros E; discriminate E))|]); constructor|]). constructor.
  - done.
  - cbn. lia.
  - split; [done | lia].
  - destruct (Hops [OpFirst; OpNext; OpPrev; OpNext; OpPrev; OpSeek (str "b")]) as (d & E & _ & _ & Hk).
    + repeat split; vm_compute; lia.
    + exists d. split; [exact E|]. apply (Hk (str "c") (str "3")). vm_compute. reflexivity.
Defined.
