(* ===== verification/VersionEdit.v ===== *)
(** * db/version_edit.h and db/version_edit.cc: changes of the set of files

    A version edit is the record of the descriptor log: which files a version adds and
    deletes, and the counters of the database.  It is shown to survive encoding and
    decoding, and decoding is shown to end on every input.  Levels and file numbers are
    [Z]; a set of pairs is the sorted list of its elements, in the order in which
    [std::set] iterates. *)
From S2P Require Import Prelude.
From S2P Require Import Coding.
From S2P Require Import Dbformat.
From S2P Require Import Status.
From Stdlib Require Import Sorting.Sorted.
From stdpp Require sorting.

(** ** Definitions *)

(** [InternalKey] is its member [rep_]. *)
Module InternalKey.
Definition Encode (rep : list byte) : outcome (list byte) :=
  match rep with [] => Ub AssertionFailed | _ => Ok rep end.
(** The 38 bytes that [snprintf] may need fit its buffer. *)
Definition parsed_DebugString (p : ParsedInternalKey) : list byte :=
  str "'" ++ EscapeString (user_key p) ++ str "' @ " ++ decimal (sequence p) ++ str " : " ++ decimal (type_value (type p)).
Definition key_DebugString (rep : list byte) : outcome (list byte) :=
  p ← ParseInternalKey rep;
  Ok (match (p : option ParsedInternalKey) with
      | Some parsed => parsed_DebugString parsed
      | None => str "(bad)" ++ EscapeString rep
      end).
End InternalKey.

Record FileMetaData := mkFile {
  refs : Z;
  allowed_seeks : Z;
  number : Z;
  file_size : Z;
  smallest : list byte;
  largest : list byte
}.
(** A new [FileMetaData] whose fields have been assigned. *)
Definition new_file (number file_size : Z) (smallest largest : list byte) : FileMetaData :=
  mkFile 0 (2 ^ 30) number file_size smallest largest.

(** [std::set::insert] of pairs, in lexicographic order. *)
Definition pair_lt (a b : Z * Z) : bool := (a.1 <? b.1) || ((a.1 =? b.1) && (a.2 <? b.2)).
Fixpoint set_insert (x : Z * Z) (l : list (Z * Z)) : list (Z * Z) :=
  match l with
  | [] => [x]
  | y :: l' => if pair_lt x y then x :: l else if pair_lt y x then y :: set_insert x l' else l
  end.

Module VersionEdit.

Definition kComparator : Z := 1.
Definition kLogNumber : Z := 2.
Definition kNextFileNumber : Z := 3.
Definition kLastSequence : Z := 4.
Definition kCompactPointer : Z := 5.
Definition kDeletedFile : Z := 6.
Definition kNewFile : Z := 7.
Definition kPrevLogNumber : Z := 9.

Record version_edit := mkEdit {
  comparator_ : list byte;
  log_number_ : Z;
  prev_log_number_ : Z;
  next_file_number_ : Z;
  last_sequence_ : Z;
  has_comparator_ : bool;
  has_log_number_ : bool;
  has_prev_log_number_ : bool;
  has_next_file_number_ : bool;
  has_last_sequence_ : bool;
  compact_pointers_ : list (Z * list byte);
  deleted_files_ : list (Z * Z);
  new_files_ : list (Z * FileMetaData)
}.

Definition Clear (e : version_edit) : version_edit :=
  mkEdit [] 0 0 0 0 false false false false false (compact_pointers_ e) [] [].
(** The constructor: the vector and the sets are empty. *)
Definition new : version_edit := Clear (mkEdit [] 0 0 0 0 false false false false false [] [] []).

Definition SetComparatorName (name : list byte) (e : version_edit) : version_edit :=
  mkEdit name (log_number_ e) (prev_log_number_ e) (next_file_number_ e) (last_sequence_ e)
    true (has_log_number_ e) (has_prev_log_number_ e) (has_next_file_number_ e) (has_last_sequence_ e)
    (compact_pointers_ e) (deleted_files_ e) (new_files_ e).
Definition SetLogNumber (num : Z) (e : version_edit) : version_edit :=
  mkEdit (comparator_ e) num (prev_log_number_ e) (next_file_number_ e) (last_sequence_ e)
    (has_comparator_ e) true (has_prev_log_number_ e) (has_next_file_number_ e) (has_last_sequence_ e)
    (compact_pointers_ e) (deleted_files_ e) (new_files_ e).
Definition SetPrevLogNumber (num : Z) (e : version_edit) : version_edit :=
  mkEdit (comparator_ e) (log_number_ e) num (next_file_number_ e) (last_sequence_ e)
    (has_comparator_ e) (has_log_number_ e) true (has_next_file_number_ e) (has_last_sequence_ e)
    (compact_pointers_ e) (deleted_files_ e) (new_files_ e).
Definition SetNextFile (num : Z) (e : version_edit) : version_edit :=
  mkEdit (comparator_ e) (log_number_ e) (prev_log_number_ e) num (last_sequence_ e)
    (has_comparator_ e) (has_log_number_ e) (has_prev_log_number_ e) true (has_last_sequence_ e)
    (compact_pointers_ e) (deleted_files_ e) (new_files_ e).
Definition SetLastSequence (seq : Z) (e : version_edit) : version_edit :=
  mkEdit (comparator_ e) (log_number_ e) (prev_log_number_ e) (next_file_number_ e) seq
    (has_comparator_ e) (has_log_number_ e) (has_prev_log_number_ e) (has_next_file_number_ e) true
    (compact_pointers_ e) (deleted_files_ e) (new_files_ e).
Definition with_files (pointers : list (Z * list byte)) (deleted : list (Z * Z)) (files : list (Z * FileMetaData))
    (e : version_edit) : version_edit :=
  mkEdit (comparator_ e) (log_number_ e) (prev_log_number_ e) (next_file_number_ e) (last_sequence_ e)
    (has_comparator_ e) (has_log_number_ e) (has_prev_log_number_ e) (has_next_file_number_ e) (has_last_sequence_ e)
    pointers deleted files.
Definition SetCompactPointer (level : Z) (key : list byte) (e : version_edit) : version_edit :=
  with_files (compact_pointers_ e ++ [(level, key)]) (deleted_files_ e) (new_files_ e) e.
Definition AddFile (level file file_size : Z) (smallest largest : list byte) (e : version_edit) : version_edit :=
  with_files (compact_pointers_ e) (deleted_files_ e) (new_files_ e ++ [(level, new_file file file_size smallest largest)]) e.
Definition DeleteFile (level file : Z) (e : version_edit) : version_edit :=
  with_files (compact_pointers_ e) (set_insert (level, file) (deleted_files_ e)) (new_files_ e) e.

(** *** Encoding *)

(** A tag, a level; a level is converted from [int] to [uint32_t]. *)
Definition put_level (dst : list byte) (tag level : Z) : list byte := PutVarint32 (PutVarint32 dst tag) (u32 level).
Definition put_number (has : bool) (tag num : Z) (dst : list byte) : list byte :=
  if has then PutVarint64 (PutVarint32 dst tag) num else dst.
Definition put_pointer (p : Z * list byte) (dst : list byte) : outcome (list byte) :=
  k ← InternalKey.Encode p.2;
  Ok (PutLengthPrefixedSlice (put_level dst kCompactPointer p.1) k).
Definition put_deleted (p : Z * Z) (dst : list byte) : outcome (list byte) :=
  Ok (PutVarint64 (put_level dst kDeletedFile p.1) p.2).
Definition put_file (p : Z * FileMetaData) (dst : list byte) : outcome (list byte) :=
  let f := p.2 in
  let dst := PutVarint64 (PutVarint64 (put_level dst kNewFile p.1) (number f)) (file_size f) in
  s ← InternalKey.Encode (smallest f);
  l ← InternalKey.Encode (largest f);
  Ok (PutLengthPrefixedSlice (PutLengthPrefixedSlice dst s) l).

Definition EncodeTo (e : version_edit) (dst : list byte) : outcome (list byte) :=
  let dst := if has_comparator_ e then PutLengthPrefixedSlice (PutVarint32 dst kComparator) (comparator_ e) else dst in
  let dst := put_number (has_log_number_ e) kLogNumber (log_number_ e) dst in
  let dst := put_number (has_prev_log_number_ e) kPrevLogNumber (prev_log_number_ e) dst in
  let dst := put_number (has_next_file_number_ e) kNextFileNumber (next_file_number_ e) dst in
  let dst := put_number (has_last_sequence_ e) kLastSequence (last_sequence_ e) dst in
  dst ← for_loop put_pointer (compact_pointers_ e) dst;
  dst ← for_loop put_deleted (deleted_files_ e) dst;
  for_loop put_file (new_files_ e) dst.

(** *** Decoding *)

Definition GetInternalKey (input : list byte) : option (list byte) * list byte := GetLengthPrefixedSlice input.
Definition GetLevel (input : list byte) : option Z * list byte :=
  match GetVarint32 input with
  | (Some v, rest) => (if v <? kNumLevels then Some v else None, rest)
  | (None, rest) => (None, rest)
  end.

(** [if (get1(&input, &x) && get2(&input, &y))]: the second is not called if the first
    failed. *)
Definition and_then {A B} (get1 : list byte → option A * list byte) (get2 : list byte → option B * list byte)
    (input : list byte) : option (A * B) * list byte :=
  match get1 input with
  | (None, rest) => (None, rest)
  | (Some a, rest) => match get2 rest with (None, rest) => (None, rest) | (Some b, rest) => (Some (a, b), rest) end
  end.

(** One case of the switch: the edit, the new [input] and [msg]. *)
Definition finish {A} (r : option A * list byte) (msg : list byte) (set : A → version_edit → version_edit) (e : version_edit)
    : version_edit * list byte * option (list byte) :=
  match r with
  | (Some a, rest) => (set a e, rest, None)
  | (None, rest) => (e, rest, Some msg)
  end.

Definition decode_tag (tag : Z) (input : list byte) (e : version_edit) : version_edit * list byte * option (list byte) :=
  if tag =? kComparator then finish (GetLengthPrefixedSlice input) (str "comparator name") SetComparatorName e
  else if tag =? kLogNumber then finish (GetVarint64 input) (str "log number") SetLogNumber e
  else if tag =? kPrevLogNumber then finish (GetVarint64 input) (str "previous log number") SetPrevLogNumber e
  else if tag =? kNextFileNumber then finish (GetVarint64 input) (str "next file number") SetNextFile e
  else if tag =? kLastSequence then finish (GetVarint64 input) (str "last sequence number") SetLastSequence e
  else if tag =? kCompactPointer then
    finish (and_then GetLevel GetInternalKey input) (str "compaction pointer") (λ p, SetCompactPointer p.1 p.2) e
  else if tag =? kDeletedFile then
    finish (and_then GetLevel GetVarint64 input) (str "deleted file") (λ p, DeleteFile p.1 p.2) e
  else if tag =? kNewFile then
    finish (and_then (and_then (and_then (and_then GetLevel GetVarint64) GetVarint64) GetInternalKey) GetInternalKey input)
      (str "new-file entry") (λ p, AddFile p.1.1.1.1 p.1.1.1.2 p.1.1.2 p.1.2 p.2) e
  else (e, input, Some (str "unknown tag")).

(** The loop of [DecodeFrom]; every round takes a byte, so [fuel] is the length of the
    input and one more. *)
Fixpoint decode_from (fuel : nat) (e : version_edit) (input : list byte) : outcome (version_edit * list byte * option (list byte)) :=
  match fuel with
  | O => Blocked
  | S fuel =>
      match GetVarint32 input with
      | (None, rest) => Ok (e, rest, None)
      | (Some tag, rest) =>
          match decode_tag tag rest e with
          | (e, rest, None) => decode_from fuel e rest
          | r => Ok r
          end
      end
  end.
Definition DecodeFrom (e : version_edit) (src : list byte) : outcome (version_edit * status) :=
  r ← decode_from (S (length src)) (Clear e) src;
  let msg := match (r.2 : option (list byte)) with
             | Some m => Some m
             | None => match r.1.2 with [] => None | _ => Some (str "invalid tag") end
             end in
  Ok (r.1.1, match (msg : option (list byte)) with
             | Some m => status_err kCorruption (str "VersionEdit") m
             | None => status_ok
             end).

(** *** Printing *)

(** The literals start with a line feed and two spaces. *)
Definition label (name : list byte) : list byte := z2b 10 :: str "  " ++ name.
Definition show_number (has : bool) (name : list byte) (num : Z) (r : list byte) : list byte :=
  if has then AppendNumberTo (r ++ label name) num else r.
Definition show_pointer (p : Z * list byte) (r : list byte) : outcome (list byte) :=
  k ← InternalKey.key_DebugString p.2;
  Ok (AppendNumberTo (r ++ label (str "CompactPointer: ")) p.1 ++ str " " ++ k).
Definition show_deleted (p : Z * Z) (r : list byte) : outcome (list byte) :=
  Ok (AppendNumberTo (AppendNumberTo (r ++ label (str "DeleteFile: ")) p.1 ++ str " ") p.2).
Definition show_file (p : Z * FileMetaData) (r : list byte) : outcome (list byte) :=
  let f := p.2 in
  let r := AppendNumberTo (r ++ label (str "AddFile: ")) p.1 in
  let r := AppendNumberTo (AppendNumberTo (r ++ str " ") (number f) ++ str " ") (file_size f) ++ str " " in
  s ← InternalKey.key_DebugString (smallest f);
  l ← InternalKey.key_DebugString (largest f);
  Ok (r ++ s ++ str " .. " ++ l).
Definition DebugString (e : version_edit) : outcome (list byte) :=
  let r := str "VersionEdit {" in
  let r := if has_comparator_ e then r ++ label (str "Comparator: ") ++ comparator_ e else r in
  let r := show_number (has_log_number_ e) (str "LogNumber: ") (log_number_ e) r in
  let r := show_number (has_prev_log_number_ e) (str "PrevLogNumber: ") (prev_log_number_ e) r in
  let r := show_number (has_next_file_number_ e) (str "NextFile: ") (next_file_number_ e) r in
  let r := show_number (has_last_sequence_ e) (str "LastSeq: ") (last_sequence_ e) r in
  r ← for_loop show_pointer (compact_pointers_ e) r;
  r ← for_loop show_deleted (deleted_files_ e) r;
  r ← for_loop show_file (new_files_ e) r;
  Ok (r ++ z2b 10 :: str "}" ++ [z2b 10]).

End VersionEdit.

Import VersionEdit.

(** ** Well-formed edits *)

Definition level_ok (level : Z) : Prop := 0 ≤ level < kNumLevels.
Definition key_ok (k : list byte) : Prop := k ≠ [] ∧ blen k < 2 ^ 32.
Definition file_ok (f : FileMetaData) : Prop :=
  is_u64 (number f) ∧ is_u64 (file_size f) ∧ key_ok (smallest f) ∧ key_ok (largest f).

(** The values fit their types, a field that is not set has its initial value, and the
    set of deleted files is sorted. *)
Record edit_ok (e : version_edit) : Prop := mkEditOk {
  ok_comparator : blen (comparator_ e) < 2 ^ 32 ∧ (has_comparator_ e = false → comparator_ e = []);
  ok_log : is_u64 (log_number_ e) ∧ (has_log_number_ e = false → log_number_ e = 0);
  ok_prev : is_u64 (prev_log_number_ e) ∧ (has_prev_log_number_ e = false → prev_log_number_ e = 0);
  ok_next : is_u64 (next_file_number_ e) ∧ (has_next_file_number_ e = false → next_file_number_ e = 0);
  ok_last : is_u64 (last_sequence_ e) ∧ (has_last_sequence_ e = false → last_sequence_ e = 0);
  ok_pointers : Forall (λ p, level_ok p.1 ∧ key_ok p.2) (compact_pointers_ e);
  ok_deleted : Forall (λ p, level_ok p.1 ∧ is_u64 p.2) (deleted_files_ e);
  ok_sorted : StronglySorted (λ a b, pair_lt a b = true) (deleted_files_ e);
  ok_files : Forall (λ p, level_ok p.1 ∧ file_ok p.2) (new_files_ e)
}.

(** ** Lemmas *)

(** *** The set of deleted files *)

Lemma pair_lt_spec a b : pair_lt a b = true ↔ a.1 < b.1 ∨ a.1 = b.1 ∧ a.2 < b.2.
Proof. unfold pair_lt. rewrite orb_true_iff, andb_true_iff, Z.ltb_lt, Z.eqb_eq, Z.ltb_lt. done. Qed.

Lemma pair_lt_trans a b c : pair_lt a b = true → pair_lt b c = true → pair_lt a c = true.
Proof. rewrite !pair_lt_spec. lia. Qed.

Lemma set_insert_elem x y l : y ∈ set_insert x l ↔ y = x ∨ y ∈ l.
Proof.
  induction l as [|z l IH]; cbn [set_insert]; [set_solver|].
  destruct (pair_lt x z) eqn:E1; [set_solver|]. destruct (pair_lt z x) eqn:E2; [set_solver|].
  assert (x = z) as ->; [|set_solver]. destruct x as [a b], z as [c d].
  assert (¬ pair_lt (a, b) (c, d) = true ∧ ¬ pair_lt (c, d) (a, b) = true) as [H1 H2] by (rewrite E1, E2; done).
  rewrite pair_lt_spec in H1, H2. cbn in H1, H2. f_equal; lia.
Qed.

Lemma set_insert_sorted x l : StronglySorted (λ a b, pair_lt a b = true) l → StronglySorted (λ a b, pair_lt a b = true) (set_insert x l).
Proof.
  induction 1 as [|y l Hs IH Hy]; cbn [set_insert]; [repeat constructor|].
  destruct (pair_lt x y) eqn:E1.
  - constructor; [by constructor|]. constructor; [done|]. eapply Forall_impl; [exact Hy|]. intros z Hz. by eapply pair_lt_trans.
  - destruct (pair_lt y x) eqn:E2; [|by constructor]. constructor; [done|]. apply Forall_forall. intros z Hz.
    apply set_insert_elem in Hz as [->|Hz]; [done|]. rewrite Forall_forall in Hy. by apply Hy.
Qed.

(** Inserting in order appends. *)
Lemma set_insert_last x l : StronglySorted (λ a b, pair_lt a b = true) (l ++ [x]) → set_insert x l = l ++ [x].
Proof.
  induction l as [|y l IH]; [done|]. intros Hs. apply StronglySorted_inv in Hs as [Hs Hy]. cbn [app set_insert].
  assert (pair_lt y x = true) as Hyx by (rewrite Forall_forall in Hy; apply Hy; set_solver).
  destruct (pair_lt x y) eqn:E; [|by rewrite Hyx, IH]. apply pair_lt_spec in E. apply pair_lt_spec in Hyx. lia.
Qed.

(** *** The operations keep edits well-formed *)

Lemma new_ok : edit_ok new.
Proof. split; unfold is_u64; cbn; try done; try constructor. Qed.

Lemma edit_ok_AddFile level f size s l e :
  edit_ok e → level_ok level → is_u64 f → is_u64 size → key_ok s → key_ok l → edit_ok (AddFile level f size s l e).
Proof. intros [] ? ? ? ? ?. split; try done. apply Forall_app. split; [done|]. constructor; [by split|constructor]. Qed.

Lemma edit_ok_DeleteFile level f e : edit_ok e → level_ok level → is_u64 f → edit_ok (DeleteFile level f e).
Proof.
  intros [] ? ?. split; try done; [|by apply set_insert_sorted]. apply Forall_forall. intros x Hx.
  apply set_insert_elem in Hx as [->|Hx]; [done|]. rewrite Forall_forall in ok_deleted0. by apply ok_deleted0.
Qed.

Lemma edit_ok_SetCompactPointer level k e : edit_ok e → level_ok level → key_ok k → edit_ok (SetCompactPointer level k e).
Proof. intros [] ? ?. split; try done. apply Forall_app. split; [done|]. constructor; [by split|constructor]. Qed.

(** *** Encoding and decoding *)

(** A piece of the encoding that makes the loop of [DecodeFrom] apply [f]. *)
Definition piece_ok (p : list byte * (version_edit → version_edit)) : Prop :=
  p.1 ≠ [] ∧ ∀ fuel e rest, decode_from (S fuel) e (p.1 ++ rest) = decode_from fuel (p.2 e) rest.

Lemma pieces_decode ps : Forall piece_ok ps → ∀ fuel e, (length ps < fuel)%nat →
  decode_from fuel e (concat (map fst ps)) = Ok (foldl (λ e p, p.2 e) e ps, [], None).
Proof.
  induction 1 as [|p ps [_ Hp] _ IH]; intros fuel e Hf; (destruct fuel as [|fuel]; [cbn in Hf; lia|]); [done|].
  cbn [map concat foldl]. rewrite Hp. apply IH. cbn in Hf. lia.
Qed.

Lemma pieces_length ps : Forall piece_ok ps → (length ps ≤ length (concat (map fst ps)))%nat.
Proof.
  induction 1 as [|p ps [Hp _] _ IH]; [done|]. cbn [map concat length]. rewrite length_app. destruct p.1; [done|]. cbn. lia.
Qed.

Lemma piece_tag tag body f : is_u32 tag →
  (∀ e rest, decode_tag tag (body ++ rest) e = (f e, rest, None)) → piece_ok (EncodeVarint32 tag ++ body, f).
Proof.
  intros Htag Hd. split.
  - cbn. pose proof (EncodeVarint32_length tag Htag). destruct (EncodeVarint32 tag); [cbn in *; lia | done].
  - intros fuel e rest. cbn [fst snd decode_from]. rewrite <- app_assoc, GetVarint32_Put by done. by rewrite Hd.
Qed.

Lemma GetLevel_Put level rest : level_ok level → GetLevel (EncodeVarint32 (u32 level) ++ rest) = (Some level, rest).
Proof.
  unfold level_ok, kNumLevels. intros Hl. unfold GetLevel. rewrite u32_small, GetVarint32_Put by (unfold is_u32; lia).
  unfold kNumLevels. by rewrite (proj2 (Z.ltb_lt _ _)) by lia.
Qed.

Definition slice_bytes (k : list byte) : list byte := PutLengthPrefixedSlice [] k.
Definition pointer_bytes (p : Z * list byte) : list byte := EncodeVarint32 kCompactPointer ++ EncodeVarint32 (u32 p.1) ++ slice_bytes p.2.
Definition deleted_bytes (p : Z * Z) : list byte := EncodeVarint32 kDeletedFile ++ EncodeVarint32 (u32 p.1) ++ EncodeVarint64 p.2.
Definition file_bytes (p : Z * FileMetaData) : list byte :=
  EncodeVarint32 kNewFile ++ EncodeVarint32 (u32 p.1) ++ EncodeVarint64 (number p.2) ++ EncodeVarint64 (file_size p.2) ++
  slice_bytes (smallest p.2) ++ slice_bytes (largest p.2).
Definition norm_file (p : Z * FileMetaData) : Z * FileMetaData :=
  (p.1, new_file (number p.2) (file_size p.2) (smallest p.2) (largest p.2)).

(** The pieces of the encoding of an edit. *)
Definition option_piece (has : bool) (tag : Z) (body : list byte) (f : version_edit → version_edit) :=
  if has then [(EncodeVarint32 tag ++ body, f)] else [].
Definition field_pieces (e : version_edit) :=
  option_piece (has_comparator_ e) kComparator (slice_bytes (comparator_ e)) (SetComparatorName (comparator_ e)) ++
  option_piece (has_log_number_ e) kLogNumber (EncodeVarint64 (log_number_ e)) (SetLogNumber (log_number_ e)) ++
  option_piece (has_prev_log_number_ e) kPrevLogNumber (EncodeVarint64 (prev_log_number_ e)) (SetPrevLogNumber (prev_log_number_ e)) ++
  option_piece (has_next_file_number_ e) kNextFileNumber (EncodeVarint64 (next_file_number_ e)) (SetNextFile (next_file_number_ e)) ++
  option_piece (has_last_sequence_ e) kLastSequence (EncodeVarint64 (last_sequence_ e)) (SetLastSequence (last_sequence_ e)).
Definition pieces (e : version_edit) : list (list byte * (version_edit → version_edit)) :=
  field_pieces e ++
  map (λ p, (pointer_bytes p, SetCompactPointer p.1 p.2)) (compact_pointers_ e) ++
  map (λ p, (deleted_bytes p, DeleteFile p.1 p.2)) (deleted_files_ e) ++
  map (λ p, (file_bytes p, AddFile p.1 (number p.2) (file_size p.2) (smallest p.2) (largest p.2))) (new_files_ e).

Lemma slice_get k rest : blen k < 2 ^ 32 → GetLengthPrefixedSlice (slice_bytes k ++ rest) = (Some k, rest).
Proof. apply GetLengthPrefixedSlice_Put. Qed.

Lemma option_piece_ok (has : bool) tag body f : is_u32 tag →
  (∀ e rest, decode_tag tag (body ++ rest) e = (f e, rest, None)) → Forall piece_ok (option_piece has tag body f).
Proof. intros Htag Hd. destruct has; repeat constructor; by apply (piece_tag tag body f). Qed.

Lemma field_pieces_ok e : edit_ok e → Forall piece_ok (field_pieces e).
Proof.
  intros [[Hc _] [Hl _] [Hp _] [Hn _] [Hs _] _ _ _ _]. unfold field_pieces.
  repeat (apply Forall_app; split); (apply option_piece_ok; [done|]); intros e' rest; unfold decode_tag; cbn [Z.eqb Pos.eqb kComparator kLogNumber kPrevLogNumber kNextFileNumber kLastSequence];
    rewrite ?slice_get, ?GetVarint64_Put by done; done.
Qed.

Lemma pieces_ok e : edit_ok e → Forall piece_ok (pieces e).
Proof.
  intros He. unfold pieces. apply Forall_app. split; [by apply field_pieces_ok|]. destruct He.
  repeat (apply Forall_app; split); apply Forall_fmap.
  - eapply Forall_impl; [exact ok_pointers0|]. intros [l k] [Hl [Hk Hb]]. apply (piece_tag kCompactPointer); [done|].
    intros e' rest. unfold decode_tag. cbn [Z.eqb Pos.eqb kComparator kLogNumber kPrevLogNumber kNextFileNumber kLastSequence kCompactPointer fst snd] in *.
    unfold and_then, GetInternalKey. rewrite <- app_assoc, GetLevel_Put by done. by rewrite slice_get.
  - eapply Forall_impl; [exact ok_deleted0|]. intros [l n] [Hl Hn]. apply (piece_tag kDeletedFile); [done|].
    intros e' rest. unfold decode_tag. cbn [Z.eqb Pos.eqb kComparator kLogNumber kPrevLogNumber kNextFileNumber kLastSequence kCompactPointer kDeletedFile fst snd] in *.
    unfold and_then. rewrite <- app_assoc, GetLevel_Put by done. by rewrite GetVarint64_Put.
  - eapply Forall_impl; [exact ok_files0|]. intros [l f] [Hl (Hn & Hz & [_ Hs] & [_ Hg])]. apply (piece_tag kNewFile); [done|].
    intros e' rest. unfold decode_tag. cbn [Z.eqb Pos.eqb kComparator kLogNumber kPrevLogNumber kNextFileNumber kLastSequence kCompactPointer kDeletedFile kNewFile fst snd] in *.
    unfold and_then, GetInternalKey. rewrite <- !app_assoc, GetLevel_Put by done. rewrite !GetVarint64_Put by done. by rewrite !slice_get.
Qed.

(** *** What the pieces do to an edit *)

Lemma fold_fields e e0 : edit_ok e →
  foldl (λ e p, p.2 e) (Clear e0) (field_pieces e) = with_files (compact_pointers_ e0) [] [] e.
Proof.
  intros [[_ Hc] [_ Hl] [_ Hp] [_ Hn] [_ Hs] _ _ _ _].
  destruct e as [c l p n s hc hl hp hn hs cp df nf]. cbn in *.
  destruct hc, hl, hp, hn, hs; cbn; rewrite ?Hc, ?Hl, ?Hp, ?Hn, ?Hs by done; done.
Qed.

Lemma fold_pointers l : ∀ e, foldl (λ e p, p.2 e) e (map (λ p, (pointer_bytes p, SetCompactPointer p.1 p.2)) l) =
  with_files (compact_pointers_ e ++ l) (deleted_files_ e) (new_files_ e) e.
Proof.
  induction l as [|[lv k] l IH]; intros e; cbn [map foldl snd fst]; [rewrite app_nil_r; by destruct e|].
  rewrite IH. destruct e. cbn. by rewrite <- app_assoc.
Qed.

Lemma fold_deleted l : ∀ e, StronglySorted (λ a b, pair_lt a b = true) (deleted_files_ e ++ l) →
  foldl (λ e p, p.2 e) e (map (λ p, (deleted_bytes p, DeleteFile p.1 p.2)) l) =
  with_files (compact_pointers_ e) (deleted_files_ e ++ l) (new_files_ e) e.
Proof.
  induction l as [|[lv k] l IH]; intros e Hs; cbn [map foldl snd fst]; [rewrite app_nil_r; by destruct e|].
  replace (deleted_files_ e ++ (lv, k) :: l) with ((deleted_files_ e ++ [(lv, k)]) ++ l) in * by (by rewrite <- app_assoc).
  assert (set_insert (lv, k) (deleted_files_ e) = deleted_files_ e ++ [(lv, k)]) as E.
  { apply set_insert_last. by apply sorting.StronglySorted_app_1_l in Hs. }
  rewrite IH; cbn; rewrite E; [by destruct e | done].
Qed.

Lemma fold_files l : ∀ e, foldl (λ e p, p.2 e) e
    (map (λ p, (file_bytes p, AddFile p.1 (number p.2) (file_size p.2) (smallest p.2) (largest p.2))) l) =
  with_files (compact_pointers_ e) (deleted_files_ e) (new_files_ e ++ map norm_file l) e.
Proof.
  induction l as [|[lv f] l IH]; intros e; cbn [map foldl snd fst]; [rewrite app_nil_r; by destruct e|].
  rewrite IH. destruct e. cbn. by rewrite <- app_assoc.
Qed.

(** The edit that decoding gives: the files have their initial counters, and what was in
    [compact_pointers_] before stays. *)
Definition decoded (e0 e : version_edit) : version_edit :=
  with_files (compact_pointers_ e0 ++ compact_pointers_ e) (deleted_files_ e) (map norm_file (new_files_ e)) e.

Lemma fold_pieces e e0 : edit_ok e → foldl (λ e p, p.2 e) (Clear e0) (pieces e) = decoded e0 e.
Proof.
  intros He. unfold pieces. rewrite !foldl_app, fold_fields by done. rewrite fold_pointers.
  rewrite fold_deleted by (apply (ok_sorted e He)). rewrite fold_files. by destruct e.
Qed.

(** *** The bytes that [EncodeTo] appends *)

Lemma for_loop_append {A} (f : A → list byte → outcome (list byte)) (g : A → list byte) l :
  (∀ x dst, x ∈ l → f x dst = Ok (dst ++ g x)) → ∀ dst, for_loop f l dst = Ok (dst ++ concat (map g l)).
Proof.
  induction l as [|x l IH]; intros Hf dst; cbn [for_loop map concat]; [by rewrite app_nil_r|].
  rewrite Hf by (by left). cbn [mbind outcome_bind]. rewrite IH; [by rewrite <- app_assoc|]. intros y d Hy. apply Hf. by right.
Qed.

Lemma Encode_key_ok k : key_ok k → InternalKey.Encode k = Ok k.
Proof. intros [? _]. by destruct k. Qed.

Lemma EncodeTo_pieces e dst : edit_ok e → EncodeTo e dst = Ok (dst ++ concat (map fst (pieces e))).
Proof.
  intros He. destruct He. unfold EncodeTo. cbv zeta.
  assert (∀ d, let d1 := if has_comparator_ e then PutLengthPrefixedSlice (PutVarint32 d kComparator) (comparator_ e) else d in
    put_number (has_last_sequence_ e) kLastSequence (last_sequence_ e) (put_number (has_next_file_number_ e) kNextFileNumber (next_file_number_ e)
      (put_number (has_prev_log_number_ e) kPrevLogNumber (prev_log_number_ e) (put_number (has_log_number_ e) kLogNumber (log_number_ e) d1))) =
    d ++ concat (map fst (field_pieces e))) as Hfields.
  { intros d. unfold field_pieces, put_number, PutVarint64, PutVarint32, option_piece, slice_bytes.
    destruct (has_comparator_ e), (has_log_number_ e), (has_prev_log_number_ e), (has_next_file_number_ e), (has_last_sequence_ e);
      cbn [map fst concat app]; rewrite ?(PutLengthPrefixedSlice_app (_ ++ _)), ?app_nil_r, <- ?app_assoc; done. }
  rewrite Hfields. rewrite (for_loop_append put_pointer pointer_bytes).
  2: { intros [l k] d Hin. rewrite Forall_forall in ok_pointers0. destruct (ok_pointers0 _ Hin) as [_ Hk]. unfold put_pointer, pointer_bytes, put_level, PutVarint32, slice_bytes.
       cbn [fst snd] in *. rewrite Encode_key_ok by done. cbn [mbind outcome_bind]. rewrite PutLengthPrefixedSlice_app. by rewrite <- !app_assoc. }
  cbn [mbind outcome_bind]. rewrite (for_loop_append put_deleted deleted_bytes).
  2: { intros [l k] d Hin. unfold put_deleted, deleted_bytes, put_level, PutVarint32, PutVarint64. by rewrite <- !app_assoc. }
  cbn [mbind outcome_bind]. rewrite (for_loop_append put_file file_bytes).
  2: { intros [l f] d Hin. rewrite Forall_forall in ok_files0. destruct (ok_files0 _ Hin) as (_ & _ & _ & Hs & Hg). unfold put_file, file_bytes, put_level, PutVarint32, PutVarint64, slice_bytes.
       cbn [fst snd] in *. rewrite !Encode_key_ok by done. cbn [mbind outcome_bind].
       rewrite PutLengthPrefixedSlice_app, (PutLengthPrefixedSlice_app (_ ++ _)). by rewrite <- !app_assoc. }
  f_equal. unfold pieces. rewrite !map_app, !concat_app, !map_map. cbn [fst]. by rewrite <- !app_assoc.
Qed.

(** *** Decoding arbitrary bytes *)

(** A getter that ends with no more input than it was given. *)
Definition shrinks {A} (get : list byte → option A * list byte) : Prop := ∀ p a rest, get p = (Some a, rest) → (length rest ≤ length p)%nat.

Lemma shrinks_varint64 : shrinks GetVarint64.
Proof. intros p a rest (_ & pre & -> & _)%GetVarint64_bounds. rewrite length_app. lia. Qed.
Lemma shrinks_slice : shrinks GetLengthPrefixedSlice.
Proof. intros p a rest (pre & -> & _)%GetLengthPrefixedSlice_shrinks. rewrite !length_app. lia. Qed.
Lemma shrinks_level : shrinks GetLevel.
Proof.
  intros p a rest. unfold GetLevel. destruct (GetVarint32 p) as [[v|] r] eqn:E; [|done]. destruct (v <? kNumLevels); [|done].
  intros [= <- <-]. apply GetVarint32_bounds in E as (_ & pre & -> & _). rewrite length_app. lia.
Qed.
Lemma shrinks_and {A B} (g1 : list byte → option A * list byte) (g2 : list byte → option B * list byte) :
  shrinks g1 → shrinks g2 → shrinks (and_then g1 g2).
Proof.
  intros H1 H2 p [a b] rest. unfold and_then. destruct (g1 p) as [[x|] r] eqn:E1; [|done]. destruct (g2 r) as [[y|] r2] eqn:E2; [|done].
  intros [= <- <- <-]. apply H1 in E1. apply H2 in E2. lia.
Qed.
#[local] Hint Resolve shrinks_varint64 shrinks_slice shrinks_level shrinks_and : shrinks.

Lemma finish_shrinks {A} (get : list byte → option A * list byte) p msg set e e' rest :
  shrinks get → finish (get p) msg set e = (e', rest, None) → (length rest ≤ length p)%nat.
Proof. intros Hg. unfold finish. destruct (get p) as [[a|] r] eqn:E; [|done]. intros [= <- <-]. by eapply Hg. Qed.

Lemma decode_tag_shrinks tag p e e' rest : decode_tag tag p e = (e', rest, None) → (length rest ≤ length p)%nat.
Proof.
  unfold decode_tag. repeat case_match; try done; intros E; eapply finish_shrinks in E; try exact E; unfold GetInternalKey; auto 10 with shrinks.
Qed.

(** The loop ends, and it ends without a message only where no tag can be read. *)
Lemma decode_from_total fuel : ∀ e p, (length p < fuel)%nat → ∃ r, decode_from fuel e p = Ok r.
Proof.
  induction fuel as [|fuel IH]; intros e p Hp; [lia|]. cbn [decode_from].
  destruct (GetVarint32 p) as [[tag|] rest] eqn:Et; [|eauto].
  apply GetVarint32_bounds in Et as (_ & pre & -> & Hpre & _). rewrite length_app in Hp.
  destruct (decode_tag tag rest e) as [[e' rest'] [msg|]] eqn:Ed; [eauto|].
  apply decode_tag_shrinks in Ed. apply IH. lia.
Qed.

(** Levels of decoded edits are levels. *)
Definition levels_ok (e : version_edit) : Prop :=
  Forall (λ p, 0 ≤ p.1 < kNumLevels) (compact_pointers_ e) ∧ Forall (λ p, 0 ≤ p.1 < kNumLevels) (deleted_files_ e) ∧
  Forall (λ p, 0 ≤ p.1 < kNumLevels) (new_files_ e).

Lemma GetLevel_range p v rest : GetLevel p = (Some v, rest) → 0 ≤ v < kNumLevels.
Proof.
  unfold GetLevel. destruct (GetVarint32 p) as [[x|] r] eqn:E; [|done]. destruct (Z.ltb_spec x kNumLevels); [|done].
  intros [= <- <-]. apply GetVarint32_bounds in E as [Hx _]. unfold is_u32 in Hx. lia.
Qed.

Lemma and_then_fst {A B} (g1 : list byte → option A * list byte) (g2 : list byte → option B * list byte) p a b rest :
  and_then g1 g2 p = (Some (a, b), rest) → ∃ r, g1 p = (Some a, r).
Proof. unfold and_then. destruct (g1 p) as [[x|] r]; [|done]. destruct (g2 r) as [[y|] r2]; [|done]. intros [= -> _ _]. by exists r. Qed.

Lemma decode_tag_levels tag p e : levels_ok e → levels_ok (decode_tag tag p e).1.1.
Proof.
  intros (Hp & Hd & Hf). unfold decode_tag. repeat case_match; try done; unfold finish; case_match eqn:E; case_match; subst; try done.
  - destruct p0 as [lv k]. apply and_then_fst in E as [r E%GetLevel_range]. split; [|done]. cbn. apply Forall_app. split; [done|].
    by constructor.
  - destruct p0 as [lv k]. apply and_then_fst in E as [r E%GetLevel_range]. split; [done|]. split; [|done]. cbn. apply Forall_forall.
    intros x [->|Hx]%set_insert_elem; [done|]. rewrite Forall_forall in Hd. by apply Hd.
  - destruct p0 as [[[[lv k] z] s] g]. apply and_then_fst in E as [r1 E]. apply and_then_fst in E as [r2 E]. apply and_then_fst in E as [r3 E].
    apply and_then_fst in E as [r4 E%GetLevel_range]. split; [done|]. split; [done|]. cbn. apply Forall_app. split; [done|]. by constructor.
Qed.

Lemma decode_from_levels fuel : ∀ e p r, levels_ok e → decode_from fuel e p = Ok r → levels_ok r.1.1.
Proof.
  induction fuel as [|fuel IH]; intros e p r He; [done|]. cbn [decode_from]. destruct (GetVarint32 p) as [[tag|] rest]; [|by intros [= <-]].
  pose proof (decode_tag_levels tag rest e He) as H'. destruct (decode_tag tag rest e) as [[e' rest'] [msg|]]; [by intros [= <-]|].
  by apply IH.
Qed.

Lemma edit_encoded e e0 dst : edit_ok e → ∃ bytes, EncodeTo e dst = Ok (dst ++ bytes) ∧ DecodeFrom e0 bytes = Ok (decoded e0 e, status_ok).
Proof.
  intros He. exists (concat (map fst (pieces e))). split; [by apply EncodeTo_pieces|]. unfold DecodeFrom. rewrite (pieces_decode _ (pieces_ok e He)).
  - cbn [mbind outcome_bind fst snd]. by rewrite fold_pieces.
  - pose proof (pieces_length _ (pieces_ok e He)). lia.
Qed.

(** ** Properties *)

(** C38: Version edits survive the descriptor log.  [EncodeTo] of a well-formed edit (the
    operations keep edits well-formed) appends bytes from which [DecodeFrom] rebuilds
    every field, with the reference and seek counters of the files at their initial
    values, whatever the edit it decodes into held; only the compaction pointers of that
    edit are kept in front of the decoded ones, because [Clear] does not clear them. *)
Theorem version_edit_roundtrip (e e0 : version_edit) (He : edit_ok e) (dst : list byte) :
  ∃ bytes, EncodeTo e dst = Ok (dst ++ bytes) ∧ DecodeFrom e0 bytes = Ok (decoded e0 e, status_ok) ∧
    (compact_pointers_ e0 = [] → (∀ p, p ∈ new_files_ e → norm_file p = p) → decoded e0 e = e).
Proof.
  destruct (edit_encoded e e0 dst He) as (bytes & E1 & E2). exists bytes. split; [done|]. split; [done|].
  intros E Hf. unfold decoded. rewrite E. cbn [app]. replace (map norm_file (new_files_ e)) with (new_files_ e); [by destruct e|].
  clear -Hf. induction (new_files_ e) as [|p l IH]; [done|]. cbn [map]. rewrite Hf by (by left). f_equal. apply IH.
  intros q Hq. apply Hf. by right.
Qed.

Definition demo_edit : version_edit :=
  AddFile 2 12 1000 (str "aaaaaaaa1") (str "bbbbbbbb2") (DeleteFile 1 7 (DeleteFile 1 9 (SetCompactPointer 3 (str "cccccccc3")
    (SetLastSequence 77 (SetNextFile 13 (SetLogNumber 11 (SetComparatorName (str "leveldb.BytewiseComparator") new))))))).

Lemma demo_edit_ok : edit_ok demo_edit.
Proof.
  assert (∀ k, bool_decide (k ≠ []) && (blen k <? 2 ^ 32) = true → key_ok k) as Hk.
  { intros k [H1%bool_decide_eq_true H2%Z.ltb_lt]%andb_true_iff. by split. }
  unfold demo_edit. apply edit_ok_AddFile; [|unfold level_ok, kNumLevels; lia | unfold is_u64; lia | unfold is_u64; lia
    | apply Hk; vm_compute; reflexivity | apply Hk; vm_compute; reflexivity].
  do 2 (apply edit_ok_DeleteFile; [|unfold level_ok, kNumLevels; lia | unfold is_u64; lia]).
  apply edit_ok_SetCompactPointer; [|unfold level_ok, kNumLevels; lia | apply Hk; vm_compute; reflexivity].
  split; cbn [comparator_ log_number_ prev_log_number_ next_file_number_ last_sequence_ has_comparator_ has_log_number_
    has_prev_log_number_ has_next_file_number_ has_last_sequence_ compact_pointers_ deleted_files_ new_files_
    SetLastSequence SetNextFile SetLogNumber SetComparatorName new Clear].
  - split; [vm_compute; reflexivity | intros H; discriminate H].
  - split; [unfold is_u64; lia | intros H; discriminate H].
  - split; [unfold is_u64; lia | reflexivity].
  - split; [unfold is_u64; lia | intros H; discriminate H].
  - split; [unfold is_u64; lia | intros H; discriminate H].
  - constructor.
  - constructor.
  - constructor.
  - constructor.
Qed.

Lemma version_edit_roundtrip_witness :
  ∃ bytes, EncodeTo demo_edit [] = Ok ([] ++ bytes) ∧ DecodeFrom new bytes = Ok (demo_edit, status_ok).
Proof.
  destruct (version_edit_roundtrip demo_edit new demo_edit_ok []) as (bytes & E & Ed & En).
  exists bytes. split; [exact E|]. rewrite Ed. rewrite En; [reflexivity | reflexivity|].
  intros p Hp. apply list_elem_of_singleton in Hp as ->. reflexivity.
Defined.

(** C39: Decoding ends on every input.  Whatever the bytes, [DecodeFrom] returns an edit
    and a status that is OK or a corruption; the levels of everything it decoded are
    levels of the database, and the status is OK only if the whole input was read. *)
Theorem version_edit_decode_total (e0 : version_edit) (src : list byte) :
  ∃ e st, DecodeFrom e0 src = Ok (e, st) ∧
    (st = status_ok ∨ ∃ msg, st = status_err kCorruption (str "VersionEdit") msg) ∧
    (Forall (λ p, 0 ≤ p.1 < kNumLevels) (compact_pointers_ e0) → levels_ok e) ∧
    (st = status_ok → ∃ r, decode_from (S (length src)) (Clear e0) src = Ok r ∧ r = (e, [], None)).
Proof.
  destruct (decode_from_total (S (length src)) (Clear e0) src ltac:(lia)) as [[[e rest] msg] E].
  exists e. unfold DecodeFrom. rewrite E. cbn [mbind outcome_bind fst snd].
  eexists. split; [reflexivity|]. split; [|split].
  - destruct msg as [m|]; [by right; eexists|]. destruct rest; [by left | by right; eexists].
  - intros Hp. pose proof (decode_from_levels _ (Clear e0) src _ ltac:(by split) E) as Hl. exact Hl.
  - intros Hst. eexists. split; [reflexivity|]. destruct msg as [m|]; [done|]. by destruct rest.
Qed.

Lemma version_edit_decode_total_witness :
  ∃ e st, DecodeFrom new (map z2b [7; 2; 200]) = Ok (e, st) ∧ levels_ok e ∧ st ≠ status_ok.
Proof.
  destruct (version_edit_decode_total new (map z2b [7; 2; 200])) as (e & st & E & _ & Hl & Hok).
  exists e, st. split; [exact E|]. split; [apply Hl; constructor|].
  intros Hst. destruct (Hok Hst) as (r & Er & Ee). rewrite Ee in Er. vm_compute in Er. discriminate Er.
Defined.
