(* ===== verification/Updates.v ===== *)
(** * The abstract contents of the database

    The database is a collection of updates [upd]; a lookup of a user key in a snapshot
    finds the newest visible one ([visible], MemTable.v).  This file relates [visible] to
    the ways in which the updates are stored: in sorted runs that are searched from
    newest to oldest. *)
From Stdlib Require Import Sorting.Sorted.
From stdpp Require sorting.
From S2P Require Import Prelude.
From S2P Require Import Interfaces.
From S2P Require Import Dbformat.
From S2P Require Import Cursor.
From S2P Require Import MemTable.

Section updates.
Context (user : Comparator) `{Huser : !ComparatorLaws any_key user}.
#[local] Notation icmp := (InternalKeyComparator.Compare user).
#[local] Notation ucmp := (Compare user).

(** ** Definitions *)

(** A sorted run, as a memtable or a table file holds it. *)
Definition run_ok (us : list upd) : Prop := sorted_entries icmp (map row us) ∧ ∀ u, u ∈ us → seq_ok (u_seq u).

(** For the key [k], everything in [us1] is newer than everything in [us2]. *)
Definition newer_for (k : list byte) (us1 us2 : list upd) : Prop :=
  ∀ v w, v ∈ us1 → w ∈ us2 → ucmp (u_key v) k = 0 → ucmp (u_key w) k = 0 → u_seq w < u_seq v.
(** ... and for every key. *)
Definition newer (us1 us2 : list upd) : Prop :=
  ∀ v w, v ∈ us1 → w ∈ us2 → ucmp (u_key v) (u_key w) = 0 → u_seq w < u_seq v.

(** Two updates of a key have different sequence numbers. *)
Definition seqs_unique (us : list upd) : Prop :=
  ∀ v w, v ∈ us → w ∈ us → ucmp (u_key v) (u_key w) = 0 → u_seq v = u_seq w → v = w.

(** ** Lemmas *)

Lemma ucmp_trans a b c : ucmp a b ≤ 0 → ucmp b c ≤ 0 → ucmp a c ≤ 0.
Proof. by apply compare_trans. Qed.
Lemma ucmp_flip a b : Z.sgn (ucmp b a) = - Z.sgn (ucmp a b).
Proof. by apply compare_sgn. Qed.
Lemma ucmp_same a b c : ucmp a c = 0 → ucmp b c = 0 → ucmp a b = 0.
Proof. intros Ha Hb. pose proof (ucmp_flip b c). apply (compare_eq_trans any_key user a c b); [done ..|]. lia. Qed.
Lemma ucmp_same_l a b c : ucmp a b = 0 → Z.sgn (ucmp a c) = Z.sgn (ucmp b c).
Proof.
  intros E. pose proof (ucmp_flip a b). pose proof (ucmp_flip a c). pose proof (ucmp_flip b c).
  pose proof (ucmp_trans a b c). pose proof (ucmp_trans b a c). pose proof (ucmp_trans c a b). pose proof (ucmp_trans c b a). lia.
Qed.
Lemma ucmp_same_r a b c : ucmp a b = 0 → Z.sgn (ucmp c a) = Z.sgn (ucmp c b).
Proof. intros E. pose proof (ucmp_same_l a b c E). pose proof (ucmp_flip a c). pose proof (ucmp_flip b c). lia. Qed.

Lemma matches_spec k s u : matches user k s u = true ↔ ucmp (u_key u) k = 0 ∧ u_seq u ≤ s.
Proof. unfold matches. rewrite andb_true_iff, Z.eqb_eq, Z.leb_le. done. Qed.

Lemma newer_newer_for us1 us2 k : newer us1 us2 → newer_for k us1 us2.
Proof. intros H v w Hv Hw E1 E2. apply H; [done | done|]. by apply (ucmp_same _ _ k). Qed.

Lemma newer_for_app_r k us us1 us2 : newer_for k us us1 → newer_for k us us2 → newer_for k us (us1 ++ us2).
Proof. intros H1 H2 v w Hv [Hw|Hw]%elem_of_app; [by apply H1 | by apply H2]. Qed.

(** *** The newest update of a list *)

Lemma fold_newest_keep u l : (∀ w, w ∈ l → u_seq w ≤ u_seq u) → foldl newest (Some u) l = Some u.
Proof.
  induction l as [|w l IH]; intros Hl; [done|]. cbn [foldl newest].
  destruct (Z.ltb_spec (u_seq u) (u_seq w)); [specialize (Hl w ltac:(by left)); lia|]. apply IH. intros v Hv. apply Hl. by right.
Qed.

Lemma elem_of_list_filter_bool {A} (f : A → bool) (l : list A) x : x ∈ List.filter f l ↔ f x = true ∧ x ∈ l.
Proof. rewrite !list_elem_of_In, filter_In. tauto. Qed.

Lemma visible_app_newer k s us1 us2 : newer_for k us1 us2 →
  visible user k s (us1 ++ us2) = match visible user k s us1 with Some u => Some u | None => visible user k s us2 end.
Proof.
  intros Hn. unfold visible at 1. rewrite List.filter_app, foldl_app. fold (visible user k s us1).
  pose proof (visible_spec user k s us1) as Hv. destruct (visible user k s us1) as [u|]; [|done].
  destruct Hv as (Hu & Hm & _). apply fold_newest_keep. intros w [Hmw Hw]%elem_of_list_filter_bool.
  apply matches_spec in Hm, Hmw. pose proof (Hn u w Hu Hw (proj1 Hm) (proj1 Hmw)). lia.
Qed.

Lemma visible_none k s us : (∀ u, u ∈ us → matches user k s u = false) → visible user k s us = None.
Proof.
  intros H. pose proof (visible_spec user k s us) as Hv. destruct (visible user k s us) as [u|]; [|done].
  destruct Hv as (Hu & Hm & _). by rewrite H in Hm.
Qed.

(** The answer depends on the updates of the key only. *)
Lemma visible_ext k s us us' : seqs_unique us → (∀ u, matches user k s u = true → u ∈ us ↔ u ∈ us') →
  visible user k s us = visible user k s us'.
Proof.
  intros Hinj Heq. pose proof (visible_spec user k s us) as Hv. pose proof (visible_spec user k s us') as Hv'.
  destruct (visible user k s us) as [u|], (visible user k s us') as [u'|].
  - destruct Hv as (Hu & Hm & Hmax), Hv' as (Hu' & Hm' & Hmax'). rewrite <- Heq in Hu' by done.
    pose proof (Hmax u' Hu' Hm'). pose proof (Hmax' u (proj1 (Heq u Hm) Hu) Hm). apply matches_spec in Hm as [E _], Hm' as [E' _].
    f_equal. apply Hinj; [done | done | by apply (ucmp_same _ _ k) | lia].
  - destruct Hv as (Hu & Hm & _). rewrite Heq in Hu by done. by rewrite Hv' in Hm.
  - destruct Hv' as (Hu & Hm & _). rewrite <- Heq in Hu by done. by rewrite Hv in Hm.
  - done.
Qed.

Lemma seqs_unique_sub us us' : (∀ u, u ∈ us' → u ∈ us) → seqs_unique us → seqs_unique us'.
Proof. intros H Hu v w Hv Hw. apply Hu; by apply H. Qed.

(** *** Sorted runs *)

Lemma icmp_updates v w : seq_ok (u_seq v) → seq_ok (u_seq w) → icmp (upd_ikey v) (upd_ikey w) < 0 →
  ucmp (u_key v) (u_key w) < 0 ∨ ucmp (u_key v) (u_key w) = 0 ∧ u_seq w ≤ u_seq v.
Proof.
  intros Hv Hw Hlt. pose proof (icmp_ikey user (u_key v) (u_key w) _ _ (u_type v) (u_type w) Hv Hw) as Hc.
  fold (upd_ikey v) (upd_ikey w) in Hc. pose proof (type_value_range (u_type v)). pose proof (type_value_range (u_type w)).
  destruct (Z.eqb_spec (ucmp (u_key v) (u_key w)) 0); lia.
Qed.

(** Where the lookup key stands among the updates. *)
Lemma icmp_lookup u k s : seq_ok (u_seq u) → seq_ok s →
  icmp (upd_ikey u) (ikey k s kTypeValue) < 0 ↔ ucmp (u_key u) k < 0 ∨ ucmp (u_key u) k = 0 ∧ s < u_seq u.
Proof.
  intros Hu Hs. pose proof (icmp_ikey user (u_key u) k _ s (u_type u) kTypeValue Hu Hs) as Hc. fold (upd_ikey u) in Hc.
  pose proof (type_value_range (u_type u)). change (type_value kTypeValue) with 1 in Hc.
  destruct (Z.eqb_spec (ucmp (u_key u) k) 0); lia.
Qed.

Lemma run_ok_app us1 us2 : run_ok (us1 ++ us2) → run_ok us1 ∧ run_ok us2.
Proof.
  intros [Hs Hq]. split; split; try (intros u Hu; apply Hq; set_solver).
  - intros i j x y Hij Hx Hy. apply (Hs i j x y Hij); rewrite map_app; by apply lookup_app_l_Some.
  - intros i j x y Hij Hx Hy. apply (Hs (length (map row us1) + i)%nat (length (map row us1) + j)%nat x y ltac:(lia));
      rewrite map_app, lookup_app_r by lia; by rewrite Nat.add_comm, Nat.add_sub.
Qed.

Lemma run_ok_cons u us : run_ok (u :: us) → run_ok us ∧ seq_ok (u_seq u) ∧
  ∀ w, w ∈ us → icmp (upd_ikey u) (upd_ikey w) < 0.
Proof.
  intros H. split; [apply (run_ok_app [u] us H)|]. destruct H as [Hs Hq]. split; [apply Hq; by left|].
  intros w [i Hi]%list_elem_of_lookup. apply (Hs 0%nat (S i) (row u) (row w)); [lia | done|]. change (map row (u :: us) !! S i) with (map row us !! i). by rewrite list_lookup_fmap, Hi.
Qed.

Lemma run_later us u w i j : run_ok us → (i < j)%nat → us !! i = Some u → us !! j = Some w → icmp (upd_ikey u) (upd_ikey w) < 0.
Proof. intros [Hs _] Hij Hu Hw. apply (Hs i j (row u) (row w) Hij); by rewrite list_lookup_fmap, ?Hu, ?Hw. Qed.

(** In a run the newest visible update is the first one. *)
Lemma visible_run k s us : run_ok us → visible user k s us = head (List.filter (matches user k s) us).
Proof.
  induction us as [|u us IH]; [done|]. intros H. apply run_ok_cons in H as (Hr & Hu & Hlt).
  unfold visible. cbn [List.filter]. destruct (matches user k s u) eqn:Hm; [|by apply IH].
  cbn [foldl newest head]. apply fold_newest_keep. intros w [Hmw Hw]%elem_of_list_filter_bool.
  pose proof (icmp_updates u w Hu (proj2 Hr w Hw) (Hlt w Hw)) as Hc. apply matches_spec in Hm as [E _], Hmw as [E' _].
  pose proof (ucmp_same _ _ k E E'). lia.
Qed.

(** A lookup in a run is a seek. *)
Lemma visible_seek k s us : run_ok us → seq_ok s →
  visible user k s us = match us !! lower_bound icmp (map row us) (ikey k s kTypeValue) with
                        | Some u => if ucmp (u_key u) k =? 0 then Some u else None
                        | None => None
                        end.
Proof.
  intros Hr Hs. rewrite (visible_run k s us Hr). induction us as [|u us IH]; [done|].
  pose proof Hr as Hr0. apply run_ok_cons in Hr as (Hr & Hu & Hlt). cbn [map lower_bound List.filter row fst].
  pose proof (icmp_lookup u k s Hu Hs) as Hc. destruct (Z.leb_spec 0 (icmp (upd_ikey u) (ikey k s kTypeValue))) as [Hge|Hl].
  - change ((u :: us) !! 0%nat) with (Some u). cbv beta iota. destruct (Z.eqb_spec (ucmp (u_key u) k) 0) as [E|E].
    + assert (matches user k s u = true) as Hm by (apply matches_spec; split; [done | lia]). by rewrite Hm.
    + enough (∀ w, w ∈ u :: us → matches user k s w = false) as Hnone.
      { change (head (List.filter (matches user k s) (u :: us)) = None). by rewrite <- visible_run, visible_none by (apply Hr0 || done). }
      intros w Hw. apply not_true_is_false. intros [Hm _]%matches_spec. apply elem_of_cons in Hw as [->|Hw]; [done|].
      pose proof (icmp_updates u w Hu (proj2 Hr w Hw) (Hlt w Hw)) as Hd. pose proof (ucmp_same_r (u_key w) k (u_key u) Hm). lia.
  - assert (matches user k s u = false) as ->; [|by apply IH]. apply not_true_is_false. intros [E Hle]%matches_spec. lia.
Qed.

(** Runs in order are a run, and a run has no update twice. *)
Lemma run_ok_join us1 us2 : run_ok us1 → run_ok us2 → (∀ u w, u ∈ us1 → w ∈ us2 → icmp (upd_ikey u) (upd_ikey w) < 0) → run_ok (us1 ++ us2).
Proof.
  intros H1 H2 H12. split; [|intros u [Hu|Hu]%elem_of_app; [by apply H1 | by apply H2]].
  intros i j x y Hij Hx Hy. rewrite list_lookup_fmap in Hx, Hy. apply fmap_Some in Hx as (u & Hu & ->). apply fmap_Some in Hy as (w & Hw & ->). cbn [row fst].
  apply lookup_app_Some in Hu as [Hu|[Hui Hu]], Hw as [Hw|[Hwj Hw]].
  - by apply (run_later us1 u w i j).
  - apply H12; by eapply list_elem_of_lookup_2.
  - apply lookup_lt_Some in Hw. lia.
  - apply (run_later us2 u w (i - length us1) (j - length us1)); [done | lia | done | done].
Qed.
Lemma run_nodup us : run_ok us → NoDup us.
Proof.
  intros H. apply NoDup_alt. intros i j u Hi Hj. pose proof (proj2 H u ltac:(by eapply list_elem_of_lookup_2)) as Hu.
  assert (¬ icmp (upd_ikey u) (upd_ikey u) < 0) as Hirr.
  { pose proof (icmp_ikey user (u_key u) (u_key u) _ _ (u_type u) (u_type u) Hu Hu) as Hc. fold (upd_ikey u) in Hc. pose proof (ucmp_flip (u_key u) (u_key u)).
    destruct (Z.eqb_spec (ucmp (u_key u) (u_key u)) 0); lia. }
  destruct (Nat.lt_trichotomy i j) as [Hlt|[|Hlt]]; [|done|]; destruct Hirr; [by apply (run_later us u u i j) | by apply (run_later us u u j i)].
Qed.

Lemma newer_disjoint us1 us2 u : newer us1 us2 → u ∈ us1 → u ∉ us2.
Proof. intros H H1 H2. pose proof (ucmp_flip (u_key u) (u_key u)). specialize (H u u H1 H2 ltac:(lia)). lia. Qed.
Lemma newer_app_l us1 us2 us : newer (us1 ++ us2) us ↔ newer us1 us ∧ newer us2 us.
Proof. unfold newer. setoid_rewrite elem_of_app. split; [intros H; split; intros v w Hv; apply H; auto | intros [H1 H2] v w [Hv|Hv]; [by apply H1 | by apply H2]]. Qed.
Lemma newer_app_r us1 us2 us : newer us (us1 ++ us2) ↔ newer us us1 ∧ newer us us2.
Proof. unfold newer. setoid_rewrite elem_of_app. split; [intros H; split; intros v w Hv Hw; apply H; auto | intros [H1 H2] v w Hv [Hw|Hw]; [by apply H1 | by apply H2]]. Qed.
Lemma seqs_unique_newer us1 us2 : newer us1 us2 → seqs_unique us1 → seqs_unique us2 → seqs_unique (us1 ++ us2).
Proof.
  intros Hn H1 H2 v w [Hv|Hv]%elem_of_app [Hw|Hw]%elem_of_app E Es; [by apply H1 | | |by apply H2].
  - specialize (Hn v w Hv Hw E). lia.
  - pose proof (ucmp_flip (u_key v) (u_key w)). specialize (Hn w v Hw Hv ltac:(lia)). lia.
Qed.

(** *** The sorted union *)

(** The order of internal keys on updates. *)
Definition upd_tag (u : upd) : Z := 256 * u_seq u + type_value (u_type u).
Definition not_after (u w : upd) : Prop := ucmp (u_key u) (u_key w) < 0 ∨ ucmp (u_key u) (u_key w) = 0 ∧ upd_tag w ≤ upd_tag u.
#[local] Instance not_after_dec u w : Decision (not_after u w).
Proof. unfold not_after. apply _. Defined.

#[local] Instance not_after_total : Total not_after.
Proof. intros u w. unfold not_after. pose proof (ucmp_flip (u_key u) (u_key w)). destruct (decide (ucmp (u_key u) (u_key w) = 0)); [|lia]. lia. Qed.
#[local] Instance not_after_trans : Transitive not_after.
Proof.
  intros u v w H1 H2. unfold not_after in *. pose proof (ucmp_trans (u_key u) (u_key v) (u_key w)) as Ht. pose proof (ucmp_trans (u_key w) (u_key u) (u_key v)) as Ht2.
  pose proof (ucmp_trans (u_key v) (u_key w) (u_key u)) as Ht3.
  pose proof (ucmp_flip (u_key u) (u_key v)). pose proof (ucmp_flip (u_key v) (u_key w)). pose proof (ucmp_flip (u_key u) (u_key w)). lia.
Qed.

Lemma not_after_icmp u w : seq_ok (u_seq u) → seq_ok (u_seq w) → not_after u w ↔ icmp (upd_ikey u) (upd_ikey w) ≤ 0.
Proof.
  intros Hu Hw. pose proof (icmp_ikey user (u_key u) (u_key w) _ _ (u_type u) (u_type w) Hu Hw) as Hc. fold (upd_ikey u) (upd_ikey w) in Hc.
  unfold not_after, upd_tag. destruct (Z.eqb_spec (ucmp (u_key u) (u_key w)) 0); lia.
Qed.
Lemma icmp_zero u w : seq_ok (u_seq u) → seq_ok (u_seq w) → icmp (upd_ikey u) (upd_ikey w) = 0 → ucmp (u_key u) (u_key w) = 0 ∧ u_seq u = u_seq w.
Proof.
  intros Hu Hw E. pose proof (icmp_ikey user (u_key u) (u_key w) _ _ (u_type u) (u_type w) Hu Hw) as Hc. fold (upd_ikey u) (upd_ikey w) in Hc. rewrite E in Hc.
  pose proof (type_value_range (u_type u)). pose proof (type_value_range (u_type w)). destruct (Z.eqb_spec (ucmp (u_key u) (u_key w)) 0); lia.
Qed.

(** Different updates can be put in order. *)
Lemma sorted_run us : NoDup us → seqs_unique us → (∀ u, u ∈ us → seq_ok (u_seq u)) → ∃ us', us' ≡ₚ us ∧ run_ok us'.
Proof.
  intros Hnd Hu Hok. exists (sorting.merge_sort not_after us). pose proof (sorting.merge_sort_Permutation not_after us) as Hp. split; [done|].
  pose proof (sorting.StronglySorted_merge_sort not_after us) as Hs. revert Hs Hp. generalize (sorting.merge_sort not_after us). intros us' Hs Hp.
  split; [|intros u Hin; apply Hok; by rewrite <- Hp]. rewrite <- Hp in Hnd.
  intros i j x y Hij Hx Hy. rewrite list_lookup_fmap in Hx, Hy. apply fmap_Some in Hx as (u & Hui & ->). apply fmap_Some in Hy as (w & Hwj & ->). cbn [row fst].
  assert (u ∈ us ∧ w ∈ us) as [Hin Hin'] by (rewrite <- !Hp; split; by eapply list_elem_of_lookup_2).
  assert (not_after u w) as Hle.
  { clear -Hs Hij Hui Hwj. revert i j Hij Hui Hwj. induction Hs as [|z l Hs IH Hf]; intros i j Hij Hu Hw; [done|]. destruct j as [|j]; [lia|].
    destruct i as [|i]; [injection Hu as <-; rewrite Forall_forall in Hf; apply Hf; by eapply list_elem_of_lookup_2|]. apply (IH i j); [lia | done | done]. }
  apply not_after_icmp in Hle; [|by apply Hok ..]. destruct (decide (icmp (upd_ikey u) (upd_ikey w) = 0)) as [E|]; [|lia].
  apply icmp_zero in E as [Ek Eq]; [|by apply Hok ..]. assert (u = w) as -> by (by apply Hu). pose proof (NoDup_lookup _ i j w Hnd Hui Hwj). lia.
Qed.

End updates.
