(* ===== verification/Version.v ===== *)
(** * db/version_set.cc: the files of a version

    A version holds, for every level, the table files in which the database is stored.
    [FindFile] searches a sorted level, [GetOverlappingInputs] and [SomeFileOverlapsRange]
    ask which files touch a range of keys, [PickLevelForMemTableOutput] places a new
    file, and [Get] looks a key up level by level.  The tables are reached through
    [TableCache::Get], an argument with the contract [TableReads].

    A pointer to a file of the version is its position, a level and an index; the other
    versions that share the [FileMetaData] are not modelled.  [std::sort] is the stable
    sort of the library; file numbers are unique, so every sort gives this result. *)
From S2P Require Import Prelude.
From S2P Require Import Coding.
From S2P Require Import Interfaces.
From S2P Require Import Comparator.
From S2P Require Import Dbformat.
From S2P Require Import Status.
From S2P Require Import Cursor.
From S2P Require Import MemTable.
From S2P Require Import VersionEdit.
From S2P Require Import Updates.
From Stdlib Require Import Sorting.Sorted.
From Stdlib Require Import Floats.SpecFloat.
From stdpp Require sorting.

(** ** Definitions *)

Module Version.

Definition kTargetFileSize : Z := 2 * 1048576.
Definition kMaxGrandParentOverlapBytes : Z := 10 * kTargetFileSize.
Definition MaxFileSizeForLevel (level : nat) : Z := kTargetFileSize.
Definition TotalFileSize (files : list FileMetaData) : Z := foldl (λ sum f, s64 (sum + file_size f)) 0 files.

(** A position in the levels of a version. *)
Definition file_ptr : Type := nat * nat.

Record version := mkVersion {
  files_ : list (list FileMetaData);
  file_to_compact_ : option file_ptr;
  file_to_compact_level_ : Z;
  compaction_score_ : spec_float;
  compaction_level_ : Z
}.
(** A version that has its files only. *)
Definition new_version (files : list (list FileMetaData)) : version :=
  mkVersion files None (-1) (binary_normalize 53 1024 (-1) 0 false) (-1).
Definition set_levels (files : list (list FileMetaData)) (to_compact : option file_ptr) (level : Z) (v : version) : version :=
  mkVersion files to_compact level (compaction_score_ v) (compaction_level_ v).
Definition level_files (v : version) (level : nat) : list FileMetaData := default [] (files_ v !! level).

Definition file_at (files : list FileMetaData) (i : Z) : outcome FileMetaData :=
  match files !! Z.to_nat i with Some f => Ok f | None => Ub OutOfBounds end.

Inductive SaverState := kNotFound | kFound | kDeleted | kCorrupt.
Record Saver := mkSaver { state : SaverState; saved : list byte }.
Record GetStats := mkStats { seek_file : option file_ptr; seek_file_level : Z }.

Section Version.
Context (user : Comparator).
#[local] Notation icmp := (InternalKeyComparator.Compare user).
#[local] Notation ucmp := (Compare user).

(** *** Searching a level *)

(** The loop of [FindFile]; every round shortens the interval, so [fuel] is the number of
    files. *)
Fixpoint find_file_loop (fuel : nat) (files : list FileMetaData) (key : list byte) (left right : Z) : outcome Z :=
  if left <? right then
    match fuel with
    | O => Blocked
    | S fuel =>
        let mid := u32 (left + right) / 2 in
        f ← file_at files mid;
        k ← InternalKey.Encode (largest f);
        if icmp k key <? 0 then find_file_loop fuel files key (u32 (mid + 1)) right
        else find_file_loop fuel files key left mid
    end
  else Ok right.
Definition FindFile (files : list FileMetaData) (key : list byte) : outcome Z :=
  right ← find_file_loop (length files) files key 0 (u32 (blen files));
  Ok (s32 right).

(** A null key is [None]. *)
Definition AfterFile (user_key : option (list byte)) (f : FileMetaData) : bool :=
  match user_key with Some k => 0 <? ucmp k (ExtractUserKey (largest f)) | None => false end.
Definition BeforeFile (user_key : option (list byte)) (f : FileMetaData) : bool :=
  match user_key with Some k => ucmp k (ExtractUserKey (smallest f)) <? 0 | None => false end.

Definition SomeFileOverlapsRange (disjoint_sorted_files : bool) (files : list FileMetaData)
    (smallest_user_key largest_user_key : option (list byte)) : outcome bool :=
  if disjoint_sorted_files then
    index ← match smallest_user_key with
            | Some k => i ← FindFile files (ikey k kMaxSequenceNumber kValueTypeForSeek); Ok (u32 i)
            | None => Ok 0
            end;
    if blen files <=? (index : Z) then Ok false
    else f ← file_at files index; Ok (negb (BeforeFile largest_user_key f))
  else Ok (existsb (λ f, negb (AfterFile smallest_user_key f || BeforeFile largest_user_key f)) files).
Definition OverlapInLevel (v : version) (level : nat) (smallest_user_key largest_user_key : option (list byte)) : outcome bool :=
  SomeFileOverlapsRange (bool_decide (0 < level)%nat) (level_files v level) smallest_user_key largest_user_key.

(** *** Ranges of files *)

Definition before_begin (user_begin : option (list byte)) (k : list byte) : bool :=
  match user_begin with Some b => ucmp k b <? 0 | None => false end.
Definition after_end (user_end : option (list byte)) (k : list byte) : bool :=
  match user_end with Some e => 0 <? ucmp k e | None => false end.

(** The loop of [GetOverlappingInputs]: every restart of the search at level 0 moves a
    bound to the bound of a file. *)
Fixpoint overlapping_loop (fuel : nat) (level0 : bool) (files : list FileMetaData) (i : nat)
    (user_begin user_end : option (list byte)) (inputs : list FileMetaData) : outcome (list FileMetaData) :=
  match files !! i with
  | None => Ok inputs
  | Some f =>
      match fuel with
      | O => Blocked
      | S fuel =>
          let file_start := ExtractUserKey (smallest f) in
          let file_limit := ExtractUserKey (largest f) in
          if before_begin user_begin file_limit then overlapping_loop fuel level0 files (S i) user_begin user_end inputs
          else if after_end user_end file_start then overlapping_loop fuel level0 files (S i) user_begin user_end inputs
          else if level0 && before_begin user_begin file_start
          then overlapping_loop fuel level0 files 0 (Some file_start) user_end []
          else if level0 && after_end user_end file_limit
          then overlapping_loop fuel level0 files 0 user_begin (Some file_limit) []
          else overlapping_loop fuel level0 files (S i) user_begin user_end (inputs ++ [f])
      end
  end.
Definition overlapping_fuel (n : nat) : nat := S (2 * n) * S n.
Definition GetOverlappingInputs (v : version) (level : nat) (begin end_ : option (list byte)) : outcome (list FileMetaData) :=
  if bool_decide (Z.of_nat level < kNumLevels) then
    let files := level_files v level in
    overlapping_loop (overlapping_fuel (length files)) (bool_decide (level = 0%nat)) files 0
      (ExtractUserKey <$> begin) (ExtractUserKey <$> end_) []
  else Ub AssertionFailed.

(** *** The level of a new file *)

Fixpoint pick_level (fuel : nat) (v : version) (smallest_user_key largest_user_key : list byte) (level : nat) : outcome nat :=
  match fuel with
  | O => Blocked
  | S fuel =>
      if Z.of_nat level <? kMaxMemCompactLevel then
        o ← OverlapInLevel v (S level) (Some smallest_user_key) (Some largest_user_key);
        if (o : bool) then Ok level
        else
          big ← if Z.of_nat level + 2 <? kNumLevels then
                  overlaps ← GetOverlappingInputs v (S (S level))
                    (Some (ikey smallest_user_key kMaxSequenceNumber kValueTypeForSeek))
                    (Some (ikey largest_user_key 0 kTypeDeletion));
                  Ok (kMaxGrandParentOverlapBytes <? TotalFileSize overlaps)
                else Ok false;
          if (big : bool) then Ok level else pick_level fuel v smallest_user_key largest_user_key (S level)
      else Ok level
  end.
Definition PickLevelForMemTableOutput (v : version) (smallest_user_key largest_user_key : list byte) : outcome nat :=
  o ← OverlapInLevel v 0 (Some smallest_user_key) (Some largest_user_key);
  if (o : bool) then Ok 0%nat else pick_level (S (Z.to_nat kMaxMemCompactLevel)) v smallest_user_key largest_user_key 0.

(** *** The files to search *)

Definition numbered (level : nat) (files : list FileMetaData) : list (file_ptr * FileMetaData) := imap (λ i f, ((level, i), f)) files.
Definition NewestFirst (a b : file_ptr * FileMetaData) : Prop := number b.2 ≤ number a.2.
#[export] Instance NewestFirst_dec a b : Decision (NewestFirst a b).
Proof. apply Z_le_dec. Defined.
Definition file_covers (user_key : list byte) (f : FileMetaData) : bool :=
  (0 <=? ucmp user_key (ExtractUserKey (smallest f))) && (ucmp user_key (ExtractUserKey (largest f)) <=? 0).

(** The files of a level that may hold a user key, in the order in which they are
    searched. *)
Definition search_files (v : version) (level : nat) (user_key internal_key : list byte) : outcome (list (file_ptr * FileMetaData)) :=
  let files := level_files v level in
  match level with
  | O => Ok (sorting.merge_sort NewestFirst (List.filter (λ p, file_covers user_key p.2) (numbered 0 files)))
  | S _ =>
      match files with
      | [] => Ok []
      | _ =>
          i ← FindFile files internal_key;
          let index := u32 i in
          if blen files <=? index then Ok []
          else
            f ← file_at files index;
            if ucmp user_key (ExtractUserKey (smallest f)) <? 0 then Ok [] else Ok [((level, Z.to_nat index), f)]
      end
  end.

(** [ForEachOverlapping]: [func] answers whether to go on. *)
Fixpoint each_file {A} (func : A → file_ptr → bool * A) (files : list (file_ptr * FileMetaData)) (arg : A) : bool * A :=
  match files with
  | [] => (true, arg)
  | p :: files => let r := func arg p.1 in if r.1 then each_file func files r.2 else r
  end.
Fixpoint each_level {A} (func : A → file_ptr → bool * A) (v : version) (user_key internal_key : list byte)
    (levels : list nat) (arg : A) : outcome A :=
  match levels with
  | [] => Ok arg
  | level :: levels =>
      files ← search_files v level user_key internal_key;
      let r := each_file func files arg in
      if r.1 then each_level func v user_key internal_key levels r.2 else Ok r.2
  end.
Definition ForEachOverlapping {A} (v : version) (user_key internal_key : list byte) (arg : A)
    (func : A → file_ptr → bool * A) : outcome A :=
  each_level func v user_key internal_key (seq 0 (Z.to_nat kNumLevels)) arg.

(** *** Lookups *)

(** [TableCache::Get] calls the saver at most once: the result holds the entry. *)
Definition table_cache := Z → Z → list byte → outcome (status * option entry).
Context (table_get : table_cache).

Definition SaveValue (user_key : list byte) (s : Saver) (ikey v : list byte) : outcome Saver :=
  p ← ParseInternalKey ikey;
  Ok (match (p : option ParsedInternalKey) with
      | None => mkSaver kCorrupt (saved s)
      | Some parsed =>
          if ucmp (Dbformat.user_key parsed) user_key =? 0 then
            match type parsed with
            | kTypeValue => mkSaver kFound v
            | kTypeDeletion => mkSaver kDeleted (saved s)
            end
          else s
      end).

(** The variables of [Get] that live across the loops. *)
Record get_vars := mkVars { value : list byte; stats : GetStats; last_file_read : option file_ptr }.
Definition charge (g : get_vars) : GetStats :=
  match last_file_read g, seek_file (stats g) with
  | Some p, None => mkStats (Some p) (Z.of_nat p.1)
  | _, _ => stats g
  end.

(** The search of the files of one level; a status ends [Get]. *)
Fixpoint search_loop (user_key ikey : list byte) (files : list (file_ptr * FileMetaData)) (g : get_vars)
    : outcome (get_vars * option status) :=
  match files with
  | [] => Ok (g, None)
  | (p, f) :: files =>
      let st := charge g in
      r ← table_get (number f) (file_size f) ikey;
      sv ← match (r.2 : option entry) with
           | Some e => SaveValue user_key (mkSaver kNotFound (value g)) e.1 e.2
           | None => Ok (mkSaver kNotFound (value g))
           end;
      let g := mkVars (saved sv) st (Some p) in
      if ok r.1 then
        match state sv with
        | kNotFound => search_loop user_key ikey files g
        | kFound => Ok (g, Some r.1)
        | kDeleted => Ok (g, Some (NotFound []))
        | kCorrupt => Ok (g, Some (status_err kCorruption (str "corrupted key for ") user_key))
        end
      else Ok (g, Some r.1)
  end.
Fixpoint search_levels (v : version) (user_key ikey : list byte) (levels : list nat) (g : get_vars) : outcome (get_vars * status) :=
  match levels with
  | [] => Ok (g, NotFound [])
  | level :: levels =>
      files ← search_files v level user_key ikey;
      r ← search_loop user_key ikey files g;
      match (r.2 : option status) with
      | Some s => Ok (r.1, s)
      | None => search_levels v user_key ikey levels r.1
      end
  end.
Definition Get (v : version) (k : LookupKey.t) (val : list byte) : outcome (status * list byte * GetStats) :=
  r ← search_levels v (LookupKey.user_key k) (LookupKey.internal_key k) (seq 0 (Z.to_nat kNumLevels))
    (mkVars val (mkStats None (-1)) None);
  Ok (r.2, value r.1, stats r.1).

(** *** Seek statistics *)

Definition set_allowed_seeks (n : Z) (f : FileMetaData) : FileMetaData :=
  mkFile (refs f) n (number f) (file_size f) (smallest f) (largest f).
Definition UpdateStats (v : version) (st : GetStats) : outcome (bool * version) :=
  match seek_file st with
  | None => Ok (false, v)
  | Some p =>
      f ← file_at (level_files v p.1) (Z.of_nat p.2);
      let n := allowed_seeks f - 1 in
      if n <? - 2 ^ 31 then Ub SignedOverflow
      else
        let files := alter (alter (set_allowed_seeks n) p.2) p.1 (files_ v) in
        match file_to_compact_ v with
        | None =>
            if n <=? 0 then Ok (true, set_levels files (Some p) (seek_file_level st) v)
            else Ok (false, set_levels files None (file_to_compact_level_ v) v)
        | Some c => Ok (false, set_levels files (Some c) (file_to_compact_level_ v) v)
        end
  end.

(** [State::Match] of [RecordReadSample]: the first match and the number of matches. *)
Definition Match (st : GetStats * Z) (p : file_ptr) : bool * (GetStats * Z) :=
  let matches := st.2 + 1 in
  (matches <? 2, (if matches =? 1 then mkStats (Some p) (Z.of_nat p.1) else st.1, matches)).
Definition RecordReadSample (v : version) (internal_key : list byte) : outcome (bool * version) :=
  p ← ParseInternalKey internal_key;
  match (p : option ParsedInternalKey) with
  | None => Ok (false, v)
  | Some parsed =>
      st ← ForEachOverlapping v (Dbformat.user_key parsed) internal_key (mkStats None (-1), 0) Match;
      if 2 <=? st.2 then UpdateStats v st.1 else Ok (false, v)
  end.

(** *** Iterators over the files of a level *)

(** [LevelFileNumIterator]: its state is [index_]. *)
Definition file_value (f : FileMetaData) : list byte := EncodeFixed64 (number f) ++ EncodeFixed64 (file_size f).
Definition LevelFileNumIterator (files : list FileMetaData) : IteratorOps Z :=
  let valid index := index <? blen files in
  mkIterator valid
    (λ index, if valid index then f ← file_at files index; InternalKey.Encode (largest f) else Ub AssertionFailed)
    (λ index, if valid index then f ← file_at files index; Ok (file_value f) else Ub AssertionFailed)
    (λ _, Ok status_ok)
    (λ index, if valid index then Ok (u32 (index + 1)) else Ub AssertionFailed)
    (λ index, if valid index then Ok (if index =? 0 then u32 (blen files) else index - 1) else Ub AssertionFailed)
    (λ _ target, i ← FindFile files target; Ok (u32 i))
    (λ _, Ok 0)
    (λ _, Ok (match files with [] => 0 | _ => u32 (blen files - 1) end)).
Definition new_file_iterator (files : list FileMetaData) : Z := u32 (blen files).

(** [GetFileIterator]: the number and the size that [TableCache::NewIterator] is called
    with, or the status of the error iterator. *)
Definition GetFileIterator (value : list byte) : outcome (Z * Z + status) :=
  if blen value =? 16 then
    n ← DecodeFixed64 value;
    size ← DecodeFixed64 (drop 8 value);
    Ok (inl (n, size))
  else Ok (inr (status_err kCorruption (str "FileReader invoked with unexpected value") [])).

End Version.

(** *** Printing *)

Definition show_version_file (f : FileMetaData) (r : list byte) : outcome (list byte) :=
  let r := AppendNumberTo (AppendNumberTo (r ++ str " ") (number f) ++ str ":") (file_size f) ++ str "[" in
  s ← InternalKey.key_DebugString (smallest f);
  l ← InternalKey.key_DebugString (largest f);
  Ok (r ++ s ++ str " .. " ++ l ++ str "]" ++ [z2b 10]).
Definition show_level (v : version) (level : nat) (r : list byte) : outcome (list byte) :=
  for_loop show_version_file (level_files v level) (AppendNumberTo (r ++ str "--- level ") (Z.of_nat level) ++ str " ---" ++ [z2b 10]).
Definition version_DebugString (v : version) : outcome (list byte) := for_loop (show_level v) (seq 0 (Z.to_nat kNumLevels)) [].

End Version.

Import Version.

(** ** Well-formed versions *)

Section proof.
Context (user : Comparator) `{Huser : !ComparatorLaws any_key user}.
#[local] Notation icmp := (InternalKeyComparator.Compare user).
#[local] Notation ucmp := (Compare user).

(** The entries of the iterator over a level. *)
Definition file_row (f : FileMetaData) : entry := (largest f, file_value f).

(** The keys of a file, and the files of a level above 0: they are in order and their
    ranges do not overlap. *)
Definition range_ok (f : FileMetaData) : Prop := ikey_ok (smallest f) ∧ ikey_ok (largest f) ∧ icmp (smallest f) (largest f) ≤ 0.
Record level_sorted (files : list FileMetaData) : Prop := mkLevelSorted {
  lo_files : ∀ f, f ∈ files → range_ok f;
  lo_sorted : ∀ i j f g, (i < j)%nat → files !! i = Some f → files !! j = Some g → icmp (largest f) (smallest g) < 0;
  lo_count : blen files < 2 ^ 31
}.

(** ** Lemmas *)

Lemma ikey_nonempty k : ikey_ok k → k ≠ [].
Proof. unfold ikey_ok. by destruct k; simpl; [lia|]. Qed.

Lemma Encode_ok k : ikey_ok k → InternalKey.Encode k = Ok k.
Proof. intros H%ikey_nonempty. by destruct k. Qed.

Lemma icmp_lt_le a b c : ikey_ok a → ikey_ok b → ikey_ok c → icmp a b < 0 → icmp b c ≤ 0 → icmp a c < 0.
Proof. intros. by apply (compare_lt_le ikey_ok (internal_comparator user) a b c). Qed.
Lemma icmp_le_lt a b c : ikey_ok a → ikey_ok b → ikey_ok c → icmp a b ≤ 0 → icmp b c < 0 → icmp a c < 0.
Proof. intros. by apply (compare_le_lt ikey_ok (internal_comparator user) a b c). Qed.

Lemma largest_sorted files i j f g : level_sorted files → (i < j)%nat → files !! i = Some f → files !! j = Some g →
  icmp (largest f) (largest g) < 0.
Proof.
  intros Hl Hij Hf Hg. destruct (lo_files _ Hl f) as (_ & H1 & _); [by eapply list_elem_of_lookup_2|].
  destruct (lo_files _ Hl g) as (H2 & H3 & H4); [by eapply list_elem_of_lookup_2|].
  apply (icmp_lt_le _ (smallest g)); [done ..| |done]. by apply (lo_sorted _ Hl i j).
Qed.

Lemma level_rows_sorted files : level_sorted files → sorted_entries icmp (map file_row files).
Proof.
  intros Hl i j x y Hij Hx Hy. rewrite list_lookup_fmap in Hx, Hy. apply fmap_Some in Hx as (f & Hf & ->).
  apply fmap_Some in Hy as (g & Hg & ->). by apply (largest_sorted files i j).
Qed.

(** *** FindFile is the lower bound of the largest keys *)

Lemma find_file_loop_spec files key : level_sorted files → ikey_ok key → ∀ fuel left right,
  0 ≤ left ≤ right → right ≤ blen files → right - left ≤ Z.of_nat fuel →
  (∀ i f, Z.of_nat i < left → files !! i = Some f → icmp (largest f) key < 0) →
  (∀ f, files !! Z.to_nat right = Some f → 0 ≤ icmp (largest f) key) →
  ∃ n, find_file_loop user fuel files key left right = Ok (Z.of_nat n) ∧ (n ≤ length files)%nat ∧
    (∀ i f, (i < n)%nat → files !! i = Some f → icmp (largest f) key < 0) ∧
    (∀ f, files !! n = Some f → 0 ≤ icmp (largest f) key).
Proof.
  intros Hl Hkey. induction fuel as [|fuel IH]; intros left right Hlr Hr Hf Hlo Hhi; cbn [find_file_loop];
    (destruct (Z.ltb_spec left right) as [Hlt|]; [|exists (Z.to_nat right); split; [by rewrite Z2Nat.id by lia|];
      split; [unfold blen in Hr; lia|]; split; [intros i f Hi; apply Hlo; lia | done]]); [lia|].
  pose proof (lo_count _ Hl) as Hc. rewrite (u32_small (left + right)) by (unfold is_u32; lia). cbv zeta.
  set (mid := (left + right) / 2). assert (left ≤ mid < right) as Hmid by (subst mid; dlia).
  destruct (files !! Z.to_nat mid) as [f|] eqn:Hfm; [|apply lookup_ge_None in Hfm; unfold blen in *; lia].
  unfold file_at. rewrite Hfm. cbn [mbind outcome_bind].
  destruct (lo_files _ Hl f) as (_ & Hk & _); [by eapply list_elem_of_lookup_2|]. rewrite Encode_ok by done. cbn [mbind outcome_bind].
  destruct (Z.ltb_spec (icmp (largest f) key) 0) as [Hneg|Hpos].
  - rewrite u32_small by (unfold is_u32; lia). apply IH; [lia | lia | lia | |done]. intros i g Hi Hg.
    destruct (decide (i = Z.to_nat mid)) as [->|]; [by simplify_eq|].
    destruct (decide (i < Z.to_nat mid)%nat); [|lia].
    pose proof (largest_sorted files i (Z.to_nat mid) g f Hl ltac:(lia) Hg Hfm).
    destruct (lo_files _ Hl g) as (_ & Hkg & _); [by eapply list_elem_of_lookup_2|].
    apply (icmp_lt_le _ (largest f)); [done ..|lia].
  - apply IH; [lia | lia | lia | done|]. intros g Hg. by simplify_eq.
Qed.

Lemma FindFile_spec files key : level_sorted files → ikey_ok key →
  FindFile user files key = Ok (Z.of_nat (lower_bound icmp (map file_row files) key)).
Proof.
  intros Hl Hk. unfold FindFile. pose proof (lo_count _ Hl) as Hc. pose proof (blen_nonneg files).
  rewrite u32_small by (unfold is_u32; lia).
  destruct (find_file_loop_spec files key Hl Hk (length files) 0 (blen files)) as (n & -> & Hn & Hlo & Hhi);
    [lia | lia | unfold blen; lia | lia | |].
  { intros f Hf. apply lookup_lt_Some in Hf. unfold blen in Hf. lia. }
  cbn [mbind outcome_bind]. rewrite s32_small by (unfold blen in Hc; lia). do 2 f_equal.
  apply lower_bound_unique; [by rewrite length_map| |].
  - intros i x Hi Hx. rewrite list_lookup_fmap in Hx. apply fmap_Some in Hx as (f & Hf & ->). by apply (Hlo i).
  - intros x Hx. rewrite list_lookup_fmap in Hx. apply fmap_Some in Hx as (f & Hf & ->). by apply Hhi.
Qed.

Lemma FindFile_bounds files key n : level_sorted files → n = lower_bound icmp (map file_row files) key →
  (n ≤ length files)%nat ∧ u32 (Z.of_nat n) = Z.of_nat n ∧
  (∀ i f, (i < n)%nat → files !! i = Some f → icmp (largest f) key < 0) ∧
  (∀ f, files !! n = Some f → 0 ≤ icmp (largest f) key).
Proof.
  intros Hl ->. pose proof (lower_bound_le icmp (map file_row files) key) as Hle. rewrite length_map in Hle.
  pose proof (lo_count _ Hl) as Hc. split; [done|]. split; [apply u32_small; unfold is_u32, blen in *; lia|]. split.
  - intros i f Hi Hf. apply (lower_bound_below icmp (map file_row files) key i (file_row f) Hi). by rewrite list_lookup_fmap, Hf.
  - intros f Hf. apply (lower_bound_at icmp (map file_row files) key (file_row f)). by rewrite list_lookup_fmap, Hf.
Qed.

(** *** The iterator over the files of a level *)

#[export] Instance level_cursor files (Hl : level_sorted files) :
  CursorLaws (LevelFileNumIterator user files) icmp ikey_ok (map file_row files)
    (λ index pos, index = Z.of_nat pos ∧ (pos ≤ length files)%nat).
Proof.
  pose proof (lo_count _ Hl) as Hc.
  split; intros index pos; rewrite ?length_map.
  - by intros [_ ?].
  - intros [-> Hp]. cbn. unfold blen. destruct (Z.ltb_spec (Z.of_nat pos) (Z.of_nat (length files))); case_bool_decide; done || lia.
  - intros e [-> Hp] He. pose proof (lookup_lt_Some _ _ _ He) as Hlt. rewrite length_map in Hlt.
    rewrite list_lookup_fmap in He. apply fmap_Some in He as (f & Hf & ->). cbn.
    destruct (Z.ltb_spec (Z.of_nat pos) (blen files)) as [_|Hge]; [|unfold blen in Hge; lia].
    unfold file_at. rewrite Nat2Z.id, Hf. cbn. rewrite Encode_ok; [done|]. apply list_elem_of_lookup_2 in Hf. by destruct (lo_files _ Hl f Hf) as (_ & ? & _).
  - done.
  - intros op [-> Hp] Hop. unfold op_allowed in Hop. rewrite length_map in Hop. exists (Z.of_nat (spec_op icmp (map file_row files) pos op)).
    unfold blen in Hc. destruct op; cbn [run_op LevelFileNumIterator it_SeekToFirst it_SeekToLast it_Next it_Prev it_Seek spec_op];
      rewrite ?length_map.
    + split; [done|]. split; [done | lia].
    + split; [|split; [done | lia]]. f_equal. destruct files as [|f files]; [done|]. unfold blen. cbn [length pred] in *.
      rewrite u32_small by (unfold is_u32; lia). lia.
    + destruct (Z.ltb_spec (Z.of_nat pos) (blen files)) as [_|Hge]; [|unfold blen in Hge; lia].
      rewrite u32_small by (unfold is_u32; lia). split; [f_equal; lia|]. split; [done | lia].
    + destruct (Z.ltb_spec (Z.of_nat pos) (blen files)) as [_|Hge]; [|unfold blen in Hge; lia].
      destruct (Z.eqb_spec (Z.of_nat pos) 0), (Nat.eqb_spec pos 0); try lia.
      * rewrite u32_small by (unfold is_u32, blen; lia). split; [done|]. split; [done | lia].
      * split; [f_equal; lia|]. split; [done | lia].
    + rewrite FindFile_spec by done. cbn [mbind outcome_bind].
      destruct (FindFile_bounds files target _ Hl eq_refl) as (Hn & -> & _). done.
Qed.

(** *** Lookups *)

(** What a file holds, and what [TableCache::Get] answers: the entry at the position of
    the lookup key, or nothing where the filter knows that the key is not in the file. *)
Context (contents : FileMetaData → list upd) (table_get : table_cache).

Record file_holds (f : FileMetaData) : Prop := mkFileHolds {
  fh_run : run_ok user (contents f);
  fh_range : range_ok f;
  fh_within : ∀ u, u ∈ contents f → icmp (smallest f) (upd_ikey u) ≤ 0 ∧ icmp (upd_ikey u) (largest f) ≤ 0;
  fh_last : ∃ u, u ∈ contents f ∧ upd_ikey u = largest f
}.
Definition TableReads (f : FileMetaData) : Prop := ∀ t, target_ok t →
  let at_key := map row (contents f) !! lower_bound icmp (map row (contents f)) t in
  ∃ r, table_get (number f) (file_size f) t = Ok (status_ok, r) ∧
    match r with
    | Some e => at_key = Some e
    | None => ∀ e, at_key = Some e → ucmp (ExtractUserKey e.1) (ExtractUserKey t) ≠ 0
    end.

(** The outcome of a search: the new value and the status that ends the search. *)
Definition answered (r : option upd) (val : list byte) : list byte * option status :=
  match r with
  | None => (val, None)
  | Some u => match u_type u with
              | kTypeValue => (u_value u, Some status_ok)
              | kTypeDeletion => (val, Some (NotFound []))
              end
  end.

Definition file_in (v : version) (p : file_ptr) : Prop := is_Some (level_files v p.1 !! p.2).
Definition stats_ok (v : version) (st : GetStats) : Prop :=
  match seek_file st with Some p => file_in v p ∧ seek_file_level st = Z.of_nat p.1 | None => seek_file_level st = -1 end.
Definition vars_ok (v : version) (g : get_vars) : Prop :=
  stats_ok v (stats g) ∧ ∀ p, last_file_read g = Some p → file_in v p.

Lemma charge_ok v g : vars_ok v g → stats_ok v (charge g).
Proof.
  intros [Hs Hl]. unfold charge. destruct (last_file_read g) as [p|]; [|done].
  destruct (seek_file (stats g)); [done|]. split; [by apply Hl | done].
Qed.

Lemma SaveValue_spec k s u v : seq_ok (u_seq u) → SaveValue user k s (upd_ikey u) v =
  Ok (if ucmp (u_key u) k =? 0 then
        match u_type u with kTypeValue => mkSaver kFound v | kTypeDeletion => mkSaver kDeleted (saved s) end else s).
Proof. intros Hu. unfold SaveValue, upd_ikey. rewrite parse_ikey by done. cbn [mbind outcome_bind]. by cbn. Qed.

Lemma row_key_user u : ExtractUserKey (row u).1 = u_key u.
Proof. apply extract_ikey. Qed.

Lemma lookup_target k s : seq_ok s → blen k + 13 < 2 ^ 32 → target_ok (ikey k s kTypeValue).
Proof.
  intros Hs Hk. split; [apply ikey_ok_ikey|]. pose proof (blen_nonneg k). rewrite blen_ikey. unfold is_u32. lia.
Qed.

(** What one file answers. *)
Lemma file_lookup f k s val : file_holds f → TableReads f → seq_ok s → blen k + 13 < 2 ^ 32 →
  ∃ r sv, table_get (number f) (file_size f) (ikey k s kTypeValue) = Ok (status_ok, r) ∧
    match r with
    | Some e => SaveValue user k (mkSaver kNotFound val) e.1 e.2
    | None => Ok (mkSaver kNotFound val)
    end = Ok sv ∧
    match visible user k s (contents f) with
    | None => sv = mkSaver kNotFound val
    | Some u => match u_type u with kTypeValue => sv = mkSaver kFound (u_value u) | kTypeDeletion => sv = mkSaver kDeleted val end
    end.
Proof.
  intros Hf Hr Hs Hk. destruct (Hr _ (lookup_target k s Hs Hk)) as (r & E & Hat). pose proof (fh_run _ Hf) as Hrun.
  pose proof (visible_seek user k s (contents f) Hrun Hs) as Hv. rewrite list_lookup_fmap in Hat. exists r.
  destruct (contents f !! _) as [u|] eqn:Hu.
  - assert (seq_ok (u_seq u)) as Huseq by (apply Hrun; by eapply list_elem_of_lookup_2). destruct r as [e|].
    + injection Hat as <-. eexists. split; [done|]. cbn [row fst snd]. rewrite SaveValue_spec by done. split; [reflexivity|].
      rewrite Hv. destruct (ucmp (u_key u) k =? 0); [|done]. by destruct (u_type u).
    + eexists. split; [done|]. split; [reflexivity|]. specialize (Hat _ eq_refl). rewrite row_key_user, extract_ikey in Hat.
      rewrite Hv. destruct (Z.eqb_spec (ucmp (u_key u) k) 0); [done|]. done.
  - destruct r as [e|]; [done|]. eexists. split; [done|]. split; [reflexivity|]. by rewrite Hv.
Qed.

Definition holdings (L : list (file_ptr * FileMetaData)) : list (list upd) := map (λ p, contents p.2) L.

Lemma newer_for_concat k us L : Forall (newer_for user k us) L → newer_for user k us (concat L).
Proof. induction 1 as [|us' L H _ IH]; [intros v w _ Hw; by apply elem_of_nil in Hw|]. cbn. by apply newer_for_app_r. Qed.

Lemma search_loop_spec v k s L : seq_ok s → blen k + 13 < 2 ^ 32 →
  (∀ p, p ∈ L → file_holds p.2 ∧ TableReads p.2 ∧ file_in v p.1) → StronglySorted (newer_for user k) (holdings L) → ∀ g, vars_ok v g →
  let a := answered (visible user k s (concat (holdings L))) (value g) in
  ∃ g', search_loop user table_get k (ikey k s kTypeValue) L g = Ok (g', a.2) ∧ value g' = a.1 ∧ vars_ok v g'.
Proof.
  intros Hs Hk. induction L as [|[p f] L IH]; intros HL Hsort g Hg; [by exists g|].
  destruct (HL (p, f) ltac:(by left)) as (Hf & Hr & Hp). cbn [fst snd] in Hf, Hr, Hp.
  apply StronglySorted_inv in Hsort as [Hsort Hnew]. cbn [holdings map concat snd]. rewrite (visible_app_newer user) by (by apply newer_for_concat).
  destruct (file_lookup f k s (value g) Hf Hr Hs Hk) as (r & sv & E & Esv & Hv). cbv zeta. cbn [search_loop]. rewrite E.
  cbn [mbind outcome_bind fst snd]. rewrite Esv. change (ok status_ok) with true. cbn [mbind outcome_bind].
  assert (∀ val, vars_ok v (mkVars val (charge g) (Some p))) as Hok.
  { intros val. split; [by apply charge_ok|]. intros q [= <-]. done. }
  fold (holdings L).
  destruct (visible user k s (contents f)) as [u|]; cbn [answered fst snd].
  - destruct (u_type u); subst sv; cbn [state saved]; eexists; (split; [reflexivity|]); done.
  - subst sv. cbn [state saved]. apply (IH ltac:(intros q Hq; apply HL; by right) Hsort (mkVars (value g) (charge g) (Some p)) (Hok _)).
Qed.

(** *** The files to search *)

Definition level_updates (v : version) (level : nat) : list upd := concat (map contents (level_files v level)).
Definition version_updates (v : version) : list upd := concat (map (level_updates v) (seq 0 (Z.to_nat kNumLevels))).

(** The invariant of versions: above level 0 the files of a level are disjoint, a newer
    file of level 0 has the newer updates, and so has a level over the levels after it. *)
Record version_ok (v : version) : Prop := mkVersionOk {
  vo_levels : length (files_ v) = Z.to_nat kNumLevels;
  vo_holds : ∀ level f, f ∈ level_files v level → file_holds f ∧ TableReads f;
  vo_sorted : ∀ level, (0 < level)%nat → level_sorted (level_files v level);
  vo_level0 : ∀ i j f g, i ≠ j → level_files v 0 !! i = Some f → level_files v 0 !! j = Some g →
    number f ≠ number g ∧ (number g < number f → newer user (contents f) (contents g));
  vo_newer : ∀ l m, (l < m)%nat → newer user (level_updates v l) (level_updates v m);
  vo_unique : seqs_unique user (version_updates v)
}.

Lemma elem_of_numbered level files p : p ∈ numbered level files ↔ ∃ i f, files !! i = Some f ∧ p = ((level, i), f).
Proof.
  unfold numbered. rewrite list_elem_of_lookup. split.
  - intros [i Hi]. rewrite list_lookup_imap in Hi. apply fmap_Some in Hi as (f & Hf & ->). by exists i, f.
  - intros (i & f & Hf & ->). exists i. by rewrite list_lookup_imap, Hf.
Qed.

Lemma NoDup_numbered level files : NoDup (numbered level files).
Proof.
  apply NoDup_alt. intros i j p Hi Hj. unfold numbered in Hi, Hj. rewrite list_lookup_imap in Hi, Hj.
  apply fmap_Some in Hi as (f & _ & ->). apply fmap_Some in Hj as (g & _ & [= ? ?]). done.
Qed.

Lemma elem_of_level_updates v level u : u ∈ level_updates v level ↔ ∃ f, f ∈ level_files v level ∧ u ∈ contents f.
Proof.
  unfold level_updates. rewrite list_elem_of_In, in_concat. split.
  - intros (us & Hus & Hu). apply in_map_iff in Hus as (f & <- & Hf). exists f. by rewrite !list_elem_of_In.
  - intros (f & Hf & Hu). exists (contents f). rewrite <- !list_elem_of_In. split; [by apply list_elem_of_fmap_2 | done].
Qed.

Lemma elem_of_version_updates v u : version_ok v → u ∈ version_updates v ↔ ∃ level, u ∈ level_updates v level.
Proof.
  intros Hv. unfold version_updates. rewrite list_elem_of_In, in_concat. split.
  - intros (us & Hus & Hu). apply in_map_iff in Hus as (l & <- & _). exists l. by apply list_elem_of_In.
  - intros (l & Hu). exists (level_updates v l). split; [|by apply list_elem_of_In]. apply in_map_iff. exists l. split; [done|].
    apply in_seq. split; [lia|]. apply elem_of_level_updates in Hu as (f & Hf & _). unfold level_files in Hf.
    destruct (files_ v !! l) eqn:E; [|by apply elem_of_nil in Hf]. apply lookup_lt_Some in E. by rewrite (vo_levels _ Hv) in E.
Qed.

Lemma level_unique v level : version_ok v → seqs_unique user (level_updates v level).
Proof.
  intros Hv. apply (seqs_unique_sub user (version_updates v)); [|by apply vo_unique].
  intros u Hu. apply elem_of_version_updates; [done|]. by exists level.
Qed.

Lemma StronglySorted_map {A B} (R : A → A → Prop) (P : B → B → Prop) (f : A → B) l : StronglySorted R l → NoDup l →
  (∀ x y, x ∈ l → y ∈ l → x ≠ y → R x y → P (f x) (f y)) → StronglySorted P (map f l).
Proof.
  induction 1 as [|x l Hs IH Hx]; intros Hn HP; cbn [map]; constructor.
  - apply IH; [by apply NoDup_cons in Hn as [_ ?]|]. intros y z Hy Hz. apply HP; by right.
  - apply Forall_forall. intros y' Hy'. apply list_elem_of_fmap in Hy' as (y & -> & Hy). apply NoDup_cons in Hn as [Hni _].
    apply HP; [by left | by right | by intros -> | by rewrite Forall_forall in Hx; apply Hx].
Qed.

(** A file that does not cover the key has no update of it. *)
Lemma not_covered f k u : file_holds f → u ∈ contents f → ucmp (u_key u) k = 0 → file_covers user k f = true.
Proof.
  intros Hf Hu E. destruct (fh_within _ Hf u Hu) as [H1 H2]. apply (icmp_user_le user) in H1, H2.
  unfold upd_ikey in H1, H2. rewrite extract_ikey in H1, H2. pose proof (ucmp_same_l user (u_key u) k (ExtractUserKey (largest f)) E).
  pose proof (ucmp_same_r user (u_key u) k (ExtractUserKey (smallest f)) E). pose proof (ucmp_flip user k (ExtractUserKey (smallest f))).
  unfold file_covers. apply andb_true_iff. rewrite !Z.leb_le. lia.
Qed.

Lemma elem_of_holdings L u : u ∈ concat (holdings L) ↔ ∃ p, p ∈ L ∧ u ∈ contents p.2.
Proof.
  unfold holdings. rewrite list_elem_of_In, in_concat. split.
  - intros (us & Hus & Hu). apply in_map_iff in Hus as (p & <- & Hp). exists p. by rewrite !list_elem_of_In.
  - intros (p & Hp & Hu). exists (contents p.2). rewrite <- !list_elem_of_In. split; [|done].
    apply (list_elem_of_fmap_2 (λ p, contents p.2) L p Hp).
Qed.

(** What [search_files] selects for a key. *)
Definition selected (v : version) (level : nat) (k : list byte) (s : Z) (L : list (file_ptr * FileMetaData)) : Prop :=
  (∀ p, p ∈ L → p.2 ∈ level_files v level ∧ file_in v p.1) ∧ StronglySorted (newer_for user k) (holdings L) ∧
  visible user k s (concat (holdings L)) = visible user k s (level_updates v level).

Lemma search_level0 v k s : version_ok v → ∃ L, search_files user v 0 k (ikey k s kTypeValue) = Ok L ∧ selected v 0 k s L.
Proof.
  intros Hv. eexists. split; [reflexivity|]. set (F := List.filter _ _).
  assert (∀ p, p ∈ sorting.merge_sort (NewestFirst) F ↔ ∃ i f, level_files v 0 !! i = Some f ∧ p = ((0%nat, i), f) ∧ file_covers user k f = true) as Hin.
  { intros p. rewrite (sorting.merge_sort_Permutation NewestFirst F). unfold F. rewrite elem_of_list_filter_bool, elem_of_numbered. naive_solver. }
  split; [|split].
  - intros p (i & f & Hi & -> & _)%Hin. split; [by eapply list_elem_of_lookup_2 | by eexists].
  - apply (StronglySorted_map NewestFirst).
    + apply sorting.StronglySorted_merge_sort; [intros x y z; unfold NewestFirst; lia | intros x y; unfold NewestFirst; lia].
    + rewrite (sorting.merge_sort_Permutation NewestFirst F). unfold F. apply NoDup_ListNoDup, List.NoDup_filter, NoDup_ListNoDup, NoDup_numbered.
    + intros p q (i & f & Hi & -> & _)%Hin (j & g & Hj & -> & _)%Hin Hne Hle. apply (newer_newer_for user).
      destruct (vo_level0 _ Hv i j f g) as [Hn Hnew]; [intros ->; simplify_eq | done | done|]. apply Hnew. unfold NewestFirst in Hle. cbn in *. lia.
  - symmetry. apply (visible_ext user); [by apply level_unique|]. intros u [Hm _]%matches_spec.
    rewrite elem_of_level_updates, elem_of_holdings. split.
    + intros (f & Hf & Hu). pose proof Hf as [i Hi]%list_elem_of_lookup. exists ((0%nat, i), f). split; [|done]. apply Hin.
      exists i, f. split; [done|]. split; [done|]. apply (not_covered f k u); [by apply (vo_holds _ Hv 0) | done | done].
    + intros (p & (i & f & Hi & -> & _)%Hin & Hu). exists f. split; [by eapply list_elem_of_lookup_2 | done].
Qed.

(** Successive files of a level hold successive updates. *)
Lemma level_files_order v level i j f g u w : version_ok v → (0 < level)%nat → (i < j)%nat →
  level_files v level !! i = Some f → level_files v level !! j = Some g → u ∈ contents f → w ∈ contents g →
  icmp (upd_ikey u) (upd_ikey w) < 0.
Proof.
  intros Hv Hlv Hij Hf Hg Hu Hw. destruct (vo_holds _ Hv level f) as [Hhf _]; [by eapply list_elem_of_lookup_2|].
  destruct (vo_holds _ Hv level g) as [Hhg _]; [by eapply list_elem_of_lookup_2|].
  destruct (fh_range _ Hhf) as (_ & Hkf & _), (fh_range _ Hhg) as (Hkg & _ & _).
  apply (icmp_le_lt _ (largest f)); [apply ikey_ok_ikey | done | apply ikey_ok_ikey | by apply (fh_within _ Hhf)|].
  apply (icmp_lt_le _ (smallest g)); [done | done | apply ikey_ok_ikey | | by apply (fh_within _ Hhg)].
  by apply (lo_sorted _ (vo_sorted _ Hv level Hlv) i j).
Qed.

Lemma ucmp_order u w : icmp (upd_ikey u) (upd_ikey w) < 0 → ucmp (u_key u) (u_key w) ≤ 0.
Proof. intros H. pose proof (icmp_user_le user (upd_ikey u) (upd_ikey w) ltac:(lia)) as Hc. unfold upd_ikey in Hc. by rewrite !extract_ikey in Hc. Qed.

Lemma search_files_above v level k t : (0 < level)%nat → search_files user v level k t =
  let files := level_files v level in
  if decide (files = []) then Ok []
  else
    i ← FindFile user files t;
    if blen files <=? u32 i then Ok []
    else
      f ← file_at files (u32 i);
      if ucmp k (ExtractUserKey (smallest f)) <? 0 then Ok [] else Ok [((level, Z.to_nat (u32 i)), f)].
Proof. intros Hl. destruct level as [|l]; [lia|]. unfold search_files. destruct (level_files v (S l)); [done|]. by rewrite decide_False. Qed.

(** Above level 0 only the file at the lower bound can answer. *)
Section level.
Context (v : version) (Hv : version_ok v) (level : nat) (Hlevel : (0 < level)%nat) (k : list byte) (s : Z) (Hs : seq_ok s).
#[local] Notation files := (level_files v level).
#[local] Notation target := (ikey k s kTypeValue).
#[local] Notation n := (lower_bound icmp (map file_row files) target).

Lemma in_level_files u : u ∈ level_updates v level → ∃ i f, files !! i = Some f ∧ u ∈ contents f ∧ file_holds f.
Proof.
  intros (f & Hf & Hu)%elem_of_level_updates. pose proof Hf as [i Hi]%list_elem_of_lookup. exists i, f.
  split; [done|]. split; [done|]. by apply (vo_holds _ Hv level).
Qed.

Lemma update_seq_ok f u : file_holds f → u ∈ contents f → seq_ok (u_seq u).
Proof. intros Hf. apply (fh_run _ Hf). Qed.

Lemma below_bound i f u : (i < n)%nat → files !! i = Some f → file_holds f → u ∈ contents f → matches user k s u = false.
Proof.
  intros Hi Hf Hh Hu. destruct (FindFile_bounds files target n (vo_sorted _ Hv level Hlevel) eq_refl) as (_ & _ & Hlo & _).
  specialize (Hlo i f Hi Hf). destruct (fh_range _ Hh) as (_ & Hkf & _).
  assert (icmp (upd_ikey u) target < 0) as Hlt.
  { apply (icmp_le_lt _ (largest f)); [apply ikey_ok_ikey | done | apply ikey_ok_ikey | by apply (fh_within _ Hh) | done]. }
  apply (icmp_lookup user u k s (update_seq_ok f u Hh Hu) Hs) in Hlt.
  apply not_true_is_false. intros [E Hle]%matches_spec. lia.
Qed.

(** An update behind one that is above the key. *)
Lemma behind_above u w : ucmp (u_key u) k > 0 → icmp (upd_ikey u) (upd_ikey w) < 0 → matches user k s w = false.
Proof.
  intros Hu Huw%ucmp_order. apply not_true_is_false. intros [E _]%matches_spec.
  pose proof (ucmp_same_r user (u_key w) k (u_key u) E). lia.
Qed.

Lemma level_visible_none : length files = n → visible user k s (level_updates v level) = None.
Proof.
  intros Hn. apply (visible_none user). intros u (i & f & Hf & Hu & Hh)%in_level_files. apply (below_bound i f); [|done ..].
  apply lookup_lt_Some in Hf. lia.
Qed.

Lemma level_visible f : files !! n = Some f → visible user k s (level_updates v level) = visible user k s (contents f).
Proof.
  intros Hf. destruct (FindFile_bounds files target n (vo_sorted _ Hv level Hlevel) eq_refl) as (_ & _ & _ & Hhi). specialize (Hhi f Hf).
  assert (f ∈ files) as Hin by (by eapply list_elem_of_lookup_2). destruct (vo_holds _ Hv level f Hin) as [Hh _].
  assert (∀ x, x ∈ contents f → x ∈ level_updates v level) as Hsub by (intros x Hx; apply elem_of_level_updates; by exists f).
  pose proof (visible_spec user k s (contents f)) as Hx. pose proof (visible_spec user k s (level_updates v level)) as Hy.
  destruct (visible user k s (level_updates v level)) as [y|].
  2: { destruct (visible user k s (contents f)) as [x|]; [|done]. destruct Hx as (Hx & Hm & _). by rewrite (Hy x (Hsub x Hx)) in Hm. }
  destruct Hy as (Hy & Hmy & Hmax). destruct (in_level_files y Hy) as (i & g & Hg & Hyg & Hhg).
  pose proof (proj1 (matches_spec user k s y) Hmy) as [Ey Hley].
  assert (i < n → False)%nat as Hni by (intros Hi; by rewrite (below_bound i g y) in Hmy).
  destruct (visible user k s (contents f)) as [x|].
  - destruct Hx as (Hx & Hmx & Hmaxf). pose proof (Hmax x (Hsub x Hx) Hmx) as Hle.
    pose proof (proj1 (matches_spec user k s x) Hmx) as [Ex Hlex]. f_equal.
    apply (level_unique v level Hv); [done | by apply Hsub | by apply (ucmp_same user _ _ k)|].
    destruct (decide (i = n)) as [->|Hne]; [simplify_eq; pose proof (Hmaxf y Hyg Hmy); lia|].
    pose proof (level_files_order v level n i f g x y Hv Hlevel ltac:(lia) Hf Hg Hx Hyg) as Hxy.
    apply (icmp_updates user) in Hxy; [|by apply (update_seq_ok f) | by apply (update_seq_ok g)].
    pose proof (ucmp_same user _ _ k Ex Ey). lia.
  - exfalso. destruct (fh_last _ Hh) as (w & Hw & Ew). rewrite <- Ew in Hhi.
    pose proof (icmp_lookup user w k s (update_seq_ok f w Hh Hw) Hs) as Hwk. pose proof (Hx w Hw) as Hmw.
    destruct (decide (i = n)) as [->|Hne]; [simplify_eq; by rewrite (Hx y Hyg) in Hmy|].
    pose proof (ucmp_order w y (level_files_order v level n i f g w y Hv Hlevel ltac:(lia) Hf Hg Hw Hyg)) as Hwy.
    pose proof (ucmp_same_r user (u_key y) k (u_key w) Ey). destruct (decide (ucmp (u_key w) k = 0 ∧ u_seq w ≤ s)) as [Hmw2|]; [|lia].
    apply (matches_spec user) in Hmw2. congruence.
Qed.

Lemma search_level : ∃ L, search_files user v level k target = Ok L ∧ selected v level k s L.
Proof.
  assert (∀ L, L = [] → visible user k s (level_updates v level) = None → selected v level k s L) as Hnil.
  { intros L -> E. split; [intros p Hp; by apply elem_of_nil in Hp|]. split; [constructor|]. by rewrite E. }
  rewrite search_files_above by done. cbv zeta. pose proof (vo_sorted _ Hv level Hlevel) as Hl. destruct (decide (files = [])) as [E|_].
  { eexists. split; [done|]. apply Hnil; [done|]. apply (visible_none user). intros u (f & Hf & _)%elem_of_level_updates.
    rewrite E in Hf. by apply elem_of_nil in Hf. }
  rewrite (FindFile_spec files target Hl) by apply ikey_ok_ikey. cbn [mbind outcome_bind].
  destruct (FindFile_bounds files target n Hl eq_refl) as (Hn & Hu & _). rewrite Hu. destruct (Z.leb_spec (blen files) (Z.of_nat n)) as [Hle|Hlt].
  { eexists. split; [done|]. apply Hnil; [done|]. apply level_visible_none. unfold blen in Hle. lia. }
  destruct (files !! n) as [f|] eqn:Hf; [|apply lookup_ge_None in Hf; unfold blen in Hlt; lia].
  unfold file_at. rewrite Nat2Z.id, Hf. cbn [mbind outcome_bind]. assert (f ∈ files) as Hin by (by eapply list_elem_of_lookup_2).
  destruct (vo_holds _ Hv level f Hin) as [Hh _]. destruct (Z.ltb_spec (ucmp k (ExtractUserKey (smallest f))) 0) as [Hlow|Hge].
  - eexists. split; [done|]. apply Hnil; [done|]. rewrite (level_visible f Hf). apply (visible_none user). intros u Hu2.
    apply not_true_is_false. intros [E _]%matches_spec. pose proof (not_covered f k u Hh Hu2 E) as Hc.
    unfold file_covers in Hc. apply andb_true_iff in Hc as [Hc _]. apply Z.leb_le in Hc. lia.
  - eexists. split; [done|]. split; [|split].
    + intros p Hp. apply list_elem_of_singleton in Hp as ->. cbn [fst snd]. split; [done|]. unfold file_in. cbn [fst snd]. by eexists.
    + repeat constructor.
    + cbn [holdings map snd concat]. rewrite app_nil_r. by rewrite (level_visible f Hf).
Qed.
End level.

(** *** The whole search *)

Lemma search_any v level k s : version_ok v → seq_ok s → ∃ L, search_files user v level k (ikey k s kTypeValue) = Ok L ∧ selected v level k s L.
Proof. intros Hv Hs. destruct level as [|l]; [by apply search_level0|]. apply search_level; [done | lia | done]. Qed.

Lemma newer_levels v l ls k : version_ok v → Forall (λ m, (l < m)%nat) ls → newer_for user k (level_updates v l) (concat (map (level_updates v) ls)).
Proof.
  intros Hv Hls. apply newer_for_concat. apply Forall_fmap. eapply Forall_impl; [exact Hls|]. intros m Hm.
  by apply (newer_newer_for user), vo_newer.
Qed.

Lemma search_levels_spec v k s levels : version_ok v → seq_ok s → blen k + 13 < 2 ^ 32 → StronglySorted lt levels → ∀ g, vars_ok v g →
  let a := answered (visible user k s (concat (map (level_updates v) levels))) (value g) in
  ∃ g', search_levels user table_get v k (ikey k s kTypeValue) levels g = Ok (g', default (NotFound []) a.2) ∧ value g' = a.1 ∧ vars_ok v g'.
Proof.
  intros Hv Hs Hk. induction 1 as [|l ls Hsort IH Hl]; intros g Hg; [by exists g|].
  cbn [map concat search_levels]. rewrite (visible_app_newer user) by (by apply newer_levels).
  destruct (search_any v l k s Hv Hs) as (L & -> & HL & Hord & <-). cbn [mbind outcome_bind].
  destruct (search_loop_spec v k s L Hs Hk) with (g := g) as (g' & -> & Hval & Hok); [|done | done|].
  { intros p Hp. destruct (HL p Hp) as [Hin Hp2]. split; [|split]; [by apply (vo_holds _ Hv l) | by apply (vo_holds _ Hv l) | done]. }
  cbn [mbind outcome_bind fst snd]. destruct (visible user k s (concat (holdings L))) as [u|]; cbn [answered].
  - cbn [answered] in Hval. destruct (u_type u); cbn [fst snd] in *; exists g'; done.
  - cbn [answered fst snd] in *. destruct (IH g' Hok) as (g2 & E & Hv2 & Hok2). cbv zeta in *. rewrite Hval in *. exists g2. done.
Qed.

(** What a lookup answers. *)
Definition answer (r : option upd) (val : list byte) : status * list byte :=
  match r with
  | Some u => match u_type u with kTypeValue => (status_ok, u_value u) | kTypeDeletion => (NotFound [], val) end
  | None => (NotFound [], val)
  end.

Lemma Version_Get_spec v k s lk val : version_ok v → seq_ok s → blen k + 13 < 2 ^ 32 →
  LookupKey.user_key lk = k → LookupKey.internal_key lk = ikey k s kTypeValue →
  ∃ st, Version.Get user table_get v lk val = Ok (answer (visible user k s (version_updates v)) val, st) ∧ stats_ok v st.
Proof.
  intros Hv Hs Hk E1 E2.
  destruct (search_levels_spec v k s (seq 0 (Z.to_nat kNumLevels)) Hv Hs Hk) with (g := mkVars val (mkStats None (-1)) None) as (g' & E & Hval & Hok & _).
  - apply Sorted_StronglySorted; [intros x y z; lia|]. repeat constructor.
  - split; [done|]. intros p [=].
  - exists (stats g'). split; [|done]. unfold Version.Get. rewrite E1, E2, E. cbn [mbind outcome_bind fst snd]. rewrite Hval.
    cbn [value answered]. unfold version_updates. destruct (visible user k s _) as [u|]; [|done]. cbn [answered answer]. by destruct (u_type u).
Qed.

(** *** Seek statistics *)

Lemma UpdateStats_total v st : stats_ok v st → (∀ level f, f ∈ level_files v level → - 2 ^ 31 < allowed_seeks f) →
  ∃ r, UpdateStats v st = Ok r.
Proof.
  intros Hst Hseeks. unfold UpdateStats, stats_ok in *. destruct (seek_file st) as [p|]; [|by eexists].
  destruct Hst as [[f Hf] _]. unfold file_at. rewrite Nat2Z.id, Hf. cbn [mbind outcome_bind].
  pose proof (Hseeks p.1 f ltac:(by eapply list_elem_of_lookup_2)) as Hs.
  destruct (Z.ltb_spec (allowed_seeks f - 1) (- 2 ^ 31)); [lia|].
  destruct (file_to_compact_ v); [by eexists|]. destruct (_ <=? 0); by eexists.
Qed.

(** *** Ranges of files *)

(** A file touches a range of user keys, where [None] is unbounded. *)
Definition touches (user_begin user_end : option (list byte)) (f : FileMetaData) : bool :=
  negb (before_begin user user_begin (ExtractUserKey (largest f))) && negb (after_end user user_end (ExtractUserKey (smallest f))).
Definition within (user_begin user_end : option (list byte)) (f : FileMetaData) : Prop :=
  before_begin user user_begin (ExtractUserKey (smallest f)) = false ∧ after_end user user_end (ExtractUserKey (largest f)) = false.
(** The range has grown. *)
Definition grown_begin (b b0 : option (list byte)) : Prop := ∀ k, before_begin user b k = true → before_begin user b0 k = true.
Definition grown_end (e e0 : option (list byte)) : Prop := ∀ k, after_end user e k = true → after_end user e0 k = true.

Lemma filter_length_lt {A} (p q : A → bool) l x :
  (∀ y, q y = true → p y = true) → x ∈ l → p x = true → q x = false → (length (List.filter q l) < length (List.filter p l))%nat.
Proof.
  intros Hqp Hx Hp Hq.
  assert (∀ l, length (List.filter q l) ≤ length (List.filter p l))%nat as Hle.
  { clear l Hx. induction l as [|y l IH]; [done|]. cbn [List.filter]. pose proof (Hqp y). destruct (q y); [rewrite H by done; cbn; lia|].
    destruct (p y); cbn; lia. }
  induction l as [|y l IH]; [by apply elem_of_nil in Hx|]. cbn [List.filter]. apply elem_of_cons in Hx as [->|Hx].
  - rewrite Hp, Hq. cbn. pose proof (Hle l). lia.
  - specialize (IH Hx). pose proof (Hqp y). destruct (q y); [rewrite H by done; cbn; lia|]. destruct (p y); cbn; lia.
Qed.

(** The files that can still move a bound. *)
Definition movers (b e : option (list byte)) (files : list FileMetaData) : nat :=
  (length (List.filter (λ f, before_begin user b (ExtractUserKey (smallest f))) files) +
   length (List.filter (λ f, after_end user e (ExtractUserKey (largest f))) files))%nat.

Lemma before_begin_trans b k k' : before_begin user b k = true → ucmp k' k ≤ 0 → before_begin user b k' = true.
Proof.
  destruct b as [b|]; cbn; [|done]. rewrite !Z.ltb_lt. intros H1 H2. by apply (compare_le_lt any_key user k' k b).
Qed.
Lemma after_end_trans e k k' : after_end user e k = true → ucmp k k' ≤ 0 → after_end user e k' = true.
Proof.
  destruct e as [e|]; cbn; [|done]. rewrite !Z.ltb_lt. intros H1 H2. pose proof (ucmp_flip user k e). pose proof (ucmp_flip user k' e).
  assert (ucmp e k' < 0); [|lia]. apply (compare_lt_le any_key user e k k'); [done ..|lia|done].
Qed.

Lemma overlapping_loop_spec level0 files b0 e0 : ∀ fuel i b e inputs,
  (movers b e files * S (length files) + (length files - i) ≤ fuel)%nat → (i ≤ length files)%nat →
  grown_begin b b0 → grown_end e e0 → (level0 = false → b = b0 ∧ e = e0) →
  inputs = List.filter (touches b e) (take i files) → (level0 = true → ∀ f, f ∈ inputs → within b e f) →
  ∃ b' e', overlapping_loop user fuel level0 files i b e inputs = Ok (List.filter (touches b' e') files) ∧
    grown_begin b' b0 ∧ grown_end e' e0 ∧ (level0 = false → b' = b0 ∧ e' = e0) ∧
    (level0 = true → ∀ f, f ∈ List.filter (touches b' e') files → within b' e' f).
Proof.
  induction fuel as [|fuel IH]; intros i b e inputs Hfuel Hi Hb He H0 Hin Hw;
    (cbn [overlapping_loop]; destruct (files !! i) as [f|] eqn:Hf;
      [|apply lookup_ge_None in Hf; rewrite (take_ge files i) in Hin by lia; subst inputs; exists b, e; done]);
    pose proof (lookup_lt_Some _ _ _ Hf) as Hlt; [lia|].
  assert (inputs ++ (if touches b e f then [f] else []) = List.filter (touches b e) (take (S i) files)) as Hsnoc.
  { rewrite (take_S_r files i f Hf), List.filter_app, <- Hin. cbn [List.filter]. by destruct (touches b e f). }
  assert (f ∈ files) as Hfin by (by eapply list_elem_of_lookup_2). unfold touches in Hsnoc at 1.
  destruct (before_begin user b (ExtractUserKey (largest f))) eqn:E1; cbn [negb andb] in Hsnoc.
  { rewrite app_nil_r in Hsnoc. by apply IH; [lia | lia | | | | |]. }
  destruct (after_end user e (ExtractUserKey (smallest f))) eqn:E2; cbn [negb andb] in Hsnoc.
  { rewrite app_nil_r in Hsnoc. by apply IH; [lia | lia | | | | |]. }
  destruct (level0 && before_begin user b (ExtractUserKey (smallest f))) eqn:E3.
  { apply andb_true_iff in E3 as [-> E3].
    assert (grown_begin (Some (ExtractUserKey (smallest f))) b) as Hg.
    { intros k Hk. cbn in Hk. apply Z.ltb_lt in Hk. apply (before_begin_trans b (ExtractUserKey (smallest f)) k E3). lia. }
    apply IH; [|lia | by intros k Hk; apply Hb, Hg | done | done | done | intros _ g Hg'; by apply elem_of_nil in Hg'].
    pose proof (filter_length_lt (λ f, before_begin user b (ExtractUserKey (smallest f)))
      (λ g, before_begin user (Some (ExtractUserKey (smallest f))) (ExtractUserKey (smallest g))) files f ltac:(intros g; apply Hg) Hfin E3) as Hm.
    cbn beta in Hm. rewrite <- Nat.le_succ_l in Hm. unfold movers in *.
    assert (before_begin user (Some (ExtractUserKey (smallest f))) (ExtractUserKey (smallest f)) = false) as Hself
      by (cbn; rewrite compare_refl by done; done). specialize (Hm Hself). nia. }
  destruct (level0 && after_end user e (ExtractUserKey (largest f))) eqn:E4.
  { apply andb_true_iff in E4 as [-> E4].
    assert (grown_end (Some (ExtractUserKey (largest f))) e) as Hg.
    { intros k Hk. cbn in Hk. apply Z.ltb_lt in Hk. apply (after_end_trans e (ExtractUserKey (largest f)) k E4).
      pose proof (ucmp_flip user k (ExtractUserKey (largest f))). lia. }
    apply IH; [|lia | done | by intros k Hk; apply He, Hg | done | done | intros _ g Hg'; by apply elem_of_nil in Hg'].
    pose proof (filter_length_lt (λ f, after_end user e (ExtractUserKey (largest f)))
      (λ g, after_end user (Some (ExtractUserKey (largest f))) (ExtractUserKey (largest g))) files f ltac:(intros g; apply Hg) Hfin E4) as Hm.
    cbn beta in Hm. rewrite <- Nat.le_succ_l in Hm. unfold movers in *.
    assert (after_end user (Some (ExtractUserKey (largest f))) (ExtractUserKey (largest f)) = false) as Hself
      by (cbn; rewrite compare_refl by done; done). specialize (Hm Hself). nia. }
  apply IH; [lia | lia | done | done | done | done|]. intros -> g Hg. cbn [andb] in E3, E4.
  apply elem_of_app in Hg as [Hg|Hg]; [by apply Hw|]. apply list_elem_of_singleton in Hg as ->. done.
Qed.

Lemma movers_bound b e files : (movers b e files ≤ 2 * length files)%nat.
Proof. unfold movers. pose proof (filter_length_le (λ f, before_begin user b (ExtractUserKey (smallest f))) files).
  pose proof (filter_length_le (λ f, after_end user e (ExtractUserKey (largest f))) files). lia. Qed.

Lemma GetOverlappingInputs_spec v level b e : (level < 7)%nat →
  ∃ b' e', GetOverlappingInputs user v level b e = Ok (List.filter (touches b' e') (level_files v level)) ∧
    grown_begin b' (ExtractUserKey <$> b) ∧ grown_end e' (ExtractUserKey <$> e) ∧
    ((0 < level)%nat → b' = ExtractUserKey <$> b ∧ e' = ExtractUserKey <$> e) ∧
    (level = 0%nat → ∀ f, f ∈ List.filter (touches b' e') (level_files v level) → within b' e' f).
Proof.
  intros Hl. unfold GetOverlappingInputs. rewrite bool_decide_true by (unfold kNumLevels; lia).
  pose proof (movers_bound (ExtractUserKey <$> b) (ExtractUserKey <$> e) (level_files v level)) as Hm.
  destruct (overlapping_loop_spec (bool_decide (level = 0%nat)) (level_files v level) (ExtractUserKey <$> b) (ExtractUserKey <$> e)
    (overlapping_fuel (length (level_files v level))) 0 (ExtractUserKey <$> b) (ExtractUserKey <$> e) [])
    as (b' & e' & -> & H1 & H2 & H3 & H4); [unfold overlapping_fuel; nia | lia | by intros k Hk | by intros k Hk | by intros _ | by rewrite take_0 | intros _ f Hf; by apply elem_of_nil in Hf|].
  exists b', e'. split; [done|]. split; [done|]. split; [done|]. split.
  - intros Hlv. apply H3. apply bool_decide_eq_false. lia.
  - intros ->. apply H4. done.
Qed.

(** *** Overlap tests *)

Definition well_formed_key (key : list byte) : Prop := ∃ u s t, seq_ok s ∧ key = ikey u s t.

Lemma touches_spec a b f : negb (AfterFile user a f || BeforeFile user b f) = touches a b f.
Proof.
  unfold touches. rewrite negb_orb. f_equal; f_equal.
  - destruct a as [a|]; cbn; [|done]. pose proof (ucmp_flip user a (ExtractUserKey (largest f))).
    destruct (Z.ltb_spec 0 (ucmp a (ExtractUserKey (largest f)))), (Z.ltb_spec (ucmp (ExtractUserKey (largest f)) a) 0); done || lia.
  - destruct b as [b|]; cbn; [|done]. pose proof (ucmp_flip user b (ExtractUserKey (smallest f))).
    destruct (Z.ltb_spec (ucmp b (ExtractUserKey (smallest f))) 0), (Z.ltb_spec 0 (ucmp (ExtractUserKey (smallest f)) b)); done || lia.
Qed.

Lemma existsb_false_spec {A} (p : A → bool) l : existsb p l = false ↔ ∀ x, x ∈ l → p x = false.
Proof.
  rewrite <- not_true_iff_false, existsb_exists. split.
  - intros H x Hx. apply not_true_is_false. intros Hp. apply H. exists x. by rewrite <- list_elem_of_In.
  - intros H (x & Hx & Hp). rewrite <- list_elem_of_In in Hx. by rewrite H in Hp.
Qed.

(** The first file that does not end before the smallest key decides. *)
Lemma first_file_decides files n a b : level_sorted files → (n ≤ length files)%nat →
  (∀ i f, (i < n)%nat → files !! i = Some f → before_begin user a (ExtractUserKey (largest f)) = true) →
  (∀ f, files !! n = Some f → before_begin user a (ExtractUserKey (largest f)) = false) →
  existsb (touches a b) files = match files !! n with Some f => negb (BeforeFile user b f) | None => false end.
Proof.
  intros Hl Hn Hlo Hhi. destruct (files !! n) as [f|] eqn:Hf.
  - pose proof (touches_spec a b f) as Ht. unfold touches in Ht at 1. specialize (Hhi f eq_refl).
    assert (touches a b f = negb (BeforeFile user b f)) as Etf.
    { pose proof (touches_spec None b f) as Ht0. cbn [AfterFile orb] in Ht0. rewrite Ht0. unfold touches. rewrite Hhi. done. }
    destruct (touches a b f) eqn:E; [rewrite <- Etf; apply existsb_exists; exists f; split; [apply list_elem_of_In; by eapply list_elem_of_lookup_2 | done]|].
    rewrite <- Etf. apply existsb_false_spec. intros g Hg. pose proof Hg as [j Hj]%list_elem_of_lookup.
    unfold touches in *. rewrite Hhi in E. cbn [negb andb] in E. apply negb_false_iff in E.
    destruct (Nat.lt_trichotomy j n) as [Hjn|[->|Hjn]]; [by rewrite (Hlo j g) | simplify_eq; by rewrite E, andb_comm|].
    rewrite (after_end_trans b (ExtractUserKey (smallest f)) (ExtractUserKey (smallest g)) E); [by rewrite andb_comm|].
    pose proof (lo_sorted _ Hl n j f g Hjn Hf Hj) as Hfg. apply Z.lt_le_incl, (icmp_user_le user) in Hfg.
    destruct (lo_files _ Hl f) as (_ & _ & Hr); [by eapply list_elem_of_lookup_2|]. apply (icmp_user_le user) in Hr.
    by apply (ucmp_trans user _ (ExtractUserKey (largest f))).
  - apply existsb_false_spec. intros g Hg. pose proof Hg as [j Hj]%list_elem_of_lookup. unfold touches.
    rewrite (Hlo j g); [done | | done]. apply lookup_ge_None in Hf. apply lookup_lt_Some in Hj. lia.
Qed.

Lemma SomeFileOverlapsRange_spec disjoint files a b :
  (disjoint = true → level_sorted files ∧ ∀ f, f ∈ files → well_formed_key (largest f)) →
  SomeFileOverlapsRange user disjoint files a b = Ok (existsb (touches a b) files).
Proof.
  intros Hd. unfold SomeFileOverlapsRange. destruct disjoint.
  2: { f_equal. induction files as [|f files IH]; [done|]. cbn [existsb]. by rewrite touches_spec, IH. }
  destruct (Hd eq_refl) as [Hl Hwf]. pose proof (lo_count _ Hl) as Hc.
  set (n := match a with Some k => lower_bound icmp (map file_row files) (ikey k kMaxSequenceNumber kValueTypeForSeek) | None => O end).
  assert (match a with Some k => i ← FindFile user files (ikey k kMaxSequenceNumber kValueTypeForSeek); Ok (u32 i) | None => Ok 0 end = Ok (Z.of_nat n)) as ->.
  { destruct a as [k|]; [|done]. rewrite FindFile_spec by (done || apply ikey_ok_ikey). cbn [mbind outcome_bind].
    destruct (FindFile_bounds files (ikey k kMaxSequenceNumber kValueTypeForSeek) n Hl eq_refl) as (_ & E & _). exact (f_equal Ok E). }
  cbn [mbind outcome_bind].
  assert ((n ≤ length files)%nat ∧ (∀ i f, (i < n)%nat → files !! i = Some f → before_begin user a (ExtractUserKey (largest f)) = true) ∧
    (∀ f, files !! n = Some f → before_begin user a (ExtractUserKey (largest f)) = false)) as (Hn & Hlo & Hhi).
  { destruct a as [k|]; [|subst n; split; [lia|]; split; [intros; lia | done]].
    destruct (FindFile_bounds files (ikey k kMaxSequenceNumber kValueTypeForSeek) n Hl eq_refl) as (Hn & _ & Hlo & Hhi).
    assert (∀ f, f ∈ files → icmp (largest f) (ikey k kMaxSequenceNumber kValueTypeForSeek) < 0 ↔ ucmp (ExtractUserKey (largest f)) k < 0) as Hcmp.
    { intros f Hf. destruct (Hwf f Hf) as (u & s & t & Hs & ->). rewrite extract_ikey.
      pose proof (icmp_lookup user (mkUpd s t u []) k kMaxSequenceNumber Hs) as Hi. unfold upd_ikey in Hi. cbn [u_key u_seq u_type] in Hi.
      rewrite Hi by done. unfold seq_ok in Hs. lia. }
    split; [done|]. split; cbn [before_begin].
    - intros i f Hi Hf. apply Z.ltb_lt. apply Hcmp; [by eapply list_elem_of_lookup_2 | by apply (Hlo i)].
    - intros f Hf. apply Z.ltb_ge. pose proof (Hhi f Hf). pose proof (Hcmp f ltac:(by eapply list_elem_of_lookup_2)). lia. }
  rewrite (first_file_decides files n a b) by done. unfold file_at. rewrite Nat2Z.id. unfold blen.
  destruct (Z.leb_spec (Z.of_nat (length files)) (Z.of_nat n)) as [Hge|Hlt].
  - by rewrite lookup_ge_None_2 by lia.
  - destruct (files !! n) as [f|] eqn:Hf; [done|]. apply lookup_ge_None in Hf. lia.
Qed.

(** The levels that the tests rely on. *)
Definition levels_searchable (v : version) : Prop := ∀ level, (0 < level)%nat →
  level_sorted (level_files v level) ∧ ∀ f, f ∈ level_files v level → well_formed_key (largest f).
Definition level_free (v : version) (a b : list byte) (level : nat) : Prop :=
  ∀ f, f ∈ level_files v level → touches (Some a) (Some b) f = false.

Lemma OverlapInLevel_spec v level a b : levels_searchable v →
  ∃ o : bool, OverlapInLevel user v level (Some a) (Some b) = Ok o ∧ (o = false → level_free v a b level).
Proof.
  intros Hv. unfold OverlapInLevel. rewrite SomeFileOverlapsRange_spec.
  - eexists. split; [done|]. exact (proj1 (existsb_false_spec (touches (Some a) (Some b)) _)).
  - intros Hl%bool_decide_eq_true. by apply Hv.
Qed.

Lemma pick_level_spec v a b : levels_searchable v → ∀ fuel level, (level ≤ 2)%nat → (2 < level + fuel)%nat →
  (∀ l, (l ≤ level)%nat → level_free v a b l) →
  ∃ out, pick_level user fuel v a b level = Ok out ∧ (out ≤ 2)%nat ∧ ∀ l, (l ≤ out)%nat → level_free v a b l.
Proof.
  intros Hv. induction fuel as [|fuel IH]; intros level Hl Hf Hfree; [lia|]. cbn [pick_level]. unfold kMaxMemCompactLevel.
  destruct (Z.ltb_spec (Z.of_nat level) 2) as [Hlt|]; [|by exists level].
  destruct (OverlapInLevel_spec v (S level) a b Hv) as (o & -> & Ho). cbn [mbind outcome_bind]. destruct o; [by exists level|].
  destruct (Z.ltb_spec (Z.of_nat level + 2) kNumLevels) as [Hn|Hn]; [|unfold kNumLevels in Hn; lia].
  destruct (GetOverlappingInputs_spec v (S (S level)) (Some (ikey a kMaxSequenceNumber kValueTypeForSeek)) (Some (ikey b 0 kTypeDeletion)) ltac:(lia))
    as (b' & e' & -> & _). cbn [mbind outcome_bind]. destruct (_ <? TotalFileSize _); [by exists level|].
  apply IH; [lia | lia|]. intros l Hle. destruct (decide (l = S level)) as [->|]; [by apply Ho | apply Hfree; lia].
Qed.
End proof.

(** ** Properties *)

(** C10: [Version::Get] finds the newest visible update.  In a version whose files above
    level 0 are disjoint and whose newer files and lower levels hold the newer updates of
    every key, the lookup of [k] in snapshot [s] stops at the update with the greatest
    sequence number not above [s] among all updates of [k] in all files: it assigns its
    value, and answers NotFound for a deletion and when there is none.  The statistics
    name a file of the version, so that [UpdateStats] can be called with them. *)
Theorem version_get (user : Comparator) (Huser : ComparatorLaws any_key user) (contents : FileMetaData → list upd)
    (table_get : table_cache) (fresh : Z → list byte) (Hfresh : ∀ n, 0 ≤ n → blen (fresh n) = n)
    (v : version) (Hv : version_ok user contents table_get v) (k : list byte) (s : Z) (Hs : seq_ok s) (Hk : blen k + 13 < 2 ^ 32)
    (val : list byte) :
  ∃ lk st, LookupKey.new fresh k s = Ok lk ∧
    let r := visible user k s (version_updates contents v) in
    Version.Get user table_get v lk val =
      Ok (match r with
          | Some u => match u_type u with kTypeValue => (status_ok, u_value u, st) | kTypeDeletion => (NotFound [], val, st) end
          | None => (NotFound [], val, st)
          end) ∧
    ((∀ level f, f ∈ level_files v level → - 2 ^ 31 < allowed_seeks f) → ∃ r, UpdateStats v st = Ok r).
Proof.
  destruct (lookup_key_new fresh k s Hfresh Hk) as (lk & El & _ & E1 & E2).
  destruct (Version_Get_spec user contents table_get v k s lk val Hv Hs Hk E2 E1) as (st & E & Hst).
  exists lk, st. split; [done|]. cbv zeta. rewrite E. split; [|by apply UpdateStats_total].
  destruct (visible user k s _) as [u|]; [|done]. cbn [answer]. by destruct (u_type u).
Qed.

(** Compactions take complete ranges.  [GetOverlappingInputs] returns on every range
    and every level; it selects files of the level, all those that touch the range, and
    above level 0 no others.  At level 0, where the search restarts when a file grows the
    range, every file that touches a selected one is selected too. *)
Lemma overlapping_inputs (user : Comparator) (Huser : ComparatorLaws any_key user) (v : version) (level : nat) (Hlevel : (level < 7)%nat)
    (begin end_ : option (list byte)) :
  let b := ExtractUserKey <$> begin in
  let e := ExtractUserKey <$> end_ in
  ∃ inputs, GetOverlappingInputs user v level begin end_ = Ok inputs ∧
    (∀ f, f ∈ inputs → f ∈ level_files v level) ∧
    (∀ f, f ∈ level_files v level → touches user b e f = true → f ∈ inputs) ∧
    ((0 < level)%nat → ∀ f, f ∈ inputs → touches user b e f = true) ∧
    (level = 0%nat → ∀ f g, f ∈ inputs → g ∈ level_files v 0 →
      touches user (Some (ExtractUserKey (smallest f))) (Some (ExtractUserKey (largest f))) g = true → g ∈ inputs).
Proof.
  cbv zeta. destruct (GetOverlappingInputs_spec user v level begin end_ Hlevel) as (b' & e' & E & Hb & He & H0 & Hw).
  eexists. split; [exact E|]. split; [|split; [|split]].
  - by intros f [_ ?]%elem_of_list_filter_bool.
  - intros f Hf Ht. apply elem_of_list_filter_bool. split; [|done]. unfold touches in *. apply andb_true_iff in Ht as [H1 H2].
    apply negb_true_iff in H1, H2. apply andb_true_iff. split; apply negb_true_iff; apply not_true_is_false.
    + intros H%Hb. congruence.
    + intros H%He. congruence.
  - intros Hl f [Ht _]%elem_of_list_filter_bool. by destruct (H0 Hl) as [<- <-].
  - intros -> f g Hf Hg Ht. apply elem_of_list_filter_bool. split; [|done]. destruct (Hw eq_refl f Hf) as [W1 W2].
    unfold touches in *. apply andb_true_iff in Ht as [H1 H2]. cbn in H1, H2. apply negb_true_iff in H1, H2. apply Z.ltb_ge in H1, H2.
    apply andb_true_iff. split; apply negb_true_iff; apply not_true_is_false; intros H.
    + apply (before_begin_trans user _ _ (ExtractUserKey (smallest f))) in H; [congruence|]. pose proof (ucmp_flip user (ExtractUserKey (largest g)) (ExtractUserKey (smallest f))). lia.
    + apply (after_end_trans user _ _ (ExtractUserKey (largest f))) in H; [congruence|]. done.
Qed.

(** A memtable is never written below data it overlaps.  The overlap test by binary
    search answers what the test of every file answers, and the level that
    [PickLevelForMemTableOutput] picks for a range of keys is at most
    [kMaxMemCompactLevel], and where it is not 0 no file of this level or of a level
    above it touches the range, so the order of ages of the levels is kept. *)
Lemma pick_level_safe (user : Comparator) (Huser : ComparatorLaws any_key user) (v : version) (Hv : levels_searchable user v)
    (a b : list byte) :
  (∀ level x y, (0 < level)%nat → SomeFileOverlapsRange user true (level_files v level) x y = SomeFileOverlapsRange user false (level_files v level) x y) ∧
  ∃ level, PickLevelForMemTableOutput user v a b = Ok level ∧ Z.of_nat level ≤ kMaxMemCompactLevel ∧
    ((0 < level)%nat → ∀ l f, (l ≤ level)%nat → f ∈ level_files v l → touches user (Some a) (Some b) f = false).
Proof.
  split.
  { intros level x y Hl. rewrite (SomeFileOverlapsRange_spec user true) by (intros _; by apply Hv). by rewrite (SomeFileOverlapsRange_spec user false).  }
  unfold PickLevelForMemTableOutput. destruct (OverlapInLevel_spec user v 0 a b Hv) as (o & -> & Ho). cbn [mbind outcome_bind].
  destruct o; [exists 0%nat; split; [done|]; split; [done | lia]|].
  destruct (pick_level_spec user v a b Hv (S (Z.to_nat kMaxMemCompactLevel)) 0) as (out & -> & Hout & Hfree).
  - lia.
  - unfold kMaxMemCompactLevel. lia.
  - intros l Hl. assert (l = 0%nat) as -> by lia. by apply Ho.
  - exists out. split; [done|]. split; [unfold kMaxMemCompactLevel; lia|]. intros _ l f Hl. by apply Hfree.
Qed.

(** Two overlapping files at level 0, the newer one with a deletion, and two at level 1. *)
Definition demo_update (n : Z) : list upd :=
  if n =? 12 then [mkUpd 9 kTypeDeletion (str "k") []]
  else if n =? 11 then [mkUpd 7 kTypeValue (str "k") (str "seven")]
  else if n =? 5 then [mkUpd 3 kTypeValue (str "k") (str "three")]
  else [mkUpd 2 kTypeValue (str "m") (str "two")].
Definition demo_contents (f : FileMetaData) : list upd := demo_update (number f).
Definition demo_file (n : Z) : FileMetaData :=
  let k := match demo_update n with u :: _ => upd_ikey u | [] => [] end in new_file n 100 k k.
Definition demo_version : version := new_version [[demo_file 11; demo_file 12]; [demo_file 5; demo_file 6]; []; []; []; []; []].
Definition demo_table_get (n size : Z) (t : list byte) : outcome (status * option entry) :=
  let es := map row (demo_update n) in
  Ok (status_ok, es !! lower_bound (InternalKeyComparator.Compare BytewiseComparator) es t).

Lemma demo_levels level : level_files demo_version (S (S level)) = [].
Proof. do 5 (destruct level as [|level]; [done|]). done. Qed.

Lemma demo_holds n : n ∈ [11; 12; 5; 6] →
  file_holds BytewiseComparator demo_contents (demo_file n) ∧ TableReads BytewiseComparator demo_contents demo_table_get (demo_file n).
Proof.
  intros Hn. split.
  - rewrite !elem_of_cons in Hn. destruct Hn as [->|[->|[->|[->|Hn%elem_of_nil]]]]; [| | | |done];
      (split; [split; [intros [|i] [|j] x y Hij Hx Hy; try done; lia | intros u Hu; apply list_elem_of_singleton in Hu as ->; split; vm_compute; congruence]
        | split; [unfold ikey_ok; vm_compute; lia | split; [unfold ikey_ok; vm_compute; lia | vm_compute; congruence]]
        | intros u Hu; apply list_elem_of_singleton in Hu as ->; split; vm_compute; congruence
        | eexists; split; [by left | reflexivity]]).
  - intros t Ht. cbv zeta. eexists. split; [reflexivity|]. cbn [number demo_file new_file]. unfold demo_contents.
    change (number (demo_file n)) with n. destruct (map row (demo_update n) !! _) as [e|]; done.
Qed.

Lemma demo_version_ok : version_ok BytewiseComparator demo_contents demo_table_get demo_version.
Proof.
  assert (∀ u, u ∈ level_updates demo_contents demo_version 0 → u ∈ demo_update 11 ++ demo_update 12) as H0 by (intros u Hu; exact Hu).
  assert (∀ u, u ∈ level_updates demo_contents demo_version 1 → u ∈ demo_update 5 ++ demo_update 6) as H1 by (intros u Hu; exact Hu).
  assert (∀ l u, u ∉ level_updates demo_contents demo_version (S (S l))) as H2.
  { intros l u. unfold level_updates. rewrite demo_levels. apply not_elem_of_nil. }
  assert (∀ level f, f ∈ level_files demo_version level → ∃ n, n ∈ [11; 12; 5; 6] ∧ f = demo_file n) as Hfiles.
  { intros [|[|level]] f Hf; [| |rewrite demo_levels in Hf; by apply elem_of_nil in Hf].
    - exists (number f). change (f ∈ [demo_file 11; demo_file 12]) in Hf. rewrite !elem_of_cons in Hf. destruct Hf as [->|[->|Hf%elem_of_nil]]; [| |done]; split; try done; set_solver.
    - exists (number f). change (f ∈ [demo_file 5; demo_file 6]) in Hf. rewrite !elem_of_cons in Hf. destruct Hf as [->|[->|Hf%elem_of_nil]]; [| |done]; split; try done; set_solver. }
  split.
  - reflexivity.
  - intros level f (n & Hn & ->)%Hfiles. by apply demo_holds.
  - intros [|[|level]] Hl; [lia | |rewrite demo_levels; split; [intros f Hf; by apply elem_of_nil in Hf | done | done]]. split; [| |done].
    + intros f (n & Hn & ->)%Hfiles. apply (fh_range _ _ _ (proj1 (demo_holds n Hn))).
    + intros [|[|i]] [|[|j]] f g Hij Hf Hg; try lia; try done. change (Some (demo_file 5) = Some f) in Hf. change (Some (demo_file 6) = Some g) in Hg.
      injection Hf as <-. injection Hg as <-. vm_compute. congruence.
  - intros [|[|i]] [|[|j]] f g Hij Hf Hg; try lia; try done; [change (Some (demo_file 11) = Some f) in Hf; change (Some (demo_file 12) = Some g) in Hg
      | change (Some (demo_file 12) = Some f) in Hf; change (Some (demo_file 11) = Some g) in Hg];
      injection Hf as <-; injection Hg as <-; (split; [done|]); intros Hlt; [done|].
    intros u w Hu Hw _. apply list_elem_of_singleton in Hu as ->. apply list_elem_of_singleton in Hw as ->. done.
  - intros [|[|l]] [|[|m]] Hlm u w Hu Hw E; try lia; try (by destruct (H2 _ _ Hw)); try (by destruct (H2 _ _ Hu)).
    apply H0 in Hu. apply H1 in Hw. cbn in Hu, Hw. rewrite !elem_of_cons, elem_of_nil in Hu, Hw.
    destruct Hu as [->|[->|[]]], Hw as [->|[->|[]]]; vm_compute in E; vm_compute; congruence.
  - intros u w Hu Hw E Es. change (version_updates demo_contents demo_version) with (demo_update 11 ++ demo_update 12 ++ demo_update 5 ++ demo_update 6) in Hu, Hw.
    cbn in Hu, Hw. rewrite !elem_of_cons, elem_of_nil in Hu, Hw.
    destruct Hu as [->|[->|[->|[->|[]]]]], Hw as [->|[->|[->|[->|[]]]]]; vm_compute in Es; congruence || done.
Qed.

Definition fresh_zeros (n : Z) : list byte := replicate (Z.to_nat n) (z2b 0).
Lemma fresh_zeros_len n : 0 ≤ n → blen (fresh_zeros n) = n.
Proof. intros Hn. unfold fresh_zeros. rewrite blen_replicate. lia. Qed.

Lemma version_get_witness :
  (∃ lk st, LookupKey.new fresh_zeros (str "k") 8 = Ok lk ∧
    Version.Get BytewiseComparator demo_table_get demo_version lk [] = Ok (status_ok, str "seven", st)) ∧
  (∃ lk st, LookupKey.new fresh_zeros (str "k") 20 = Ok lk ∧
    Version.Get BytewiseComparator demo_table_get demo_version lk [] = Ok (NotFound [], [], st)).
Proof.
  split.
  - destruct (version_get BytewiseComparator bytewise_laws demo_contents demo_table_get fresh_zeros fresh_zeros_len demo_version demo_version_ok
      (str "k") 8 ltac:(split; vm_compute; congruence) ltac:(vm_compute; reflexivity) []) as (lk & st & El & Eg & _).
    exists lk, st. split; [exact El|]. etransitivity; [exact Eg | vm_compute; reflexivity].
  - destruct (version_get BytewiseComparator bytewise_laws demo_contents demo_table_get fresh_zeros fresh_zeros_len demo_version demo_version_ok
      (str "k") 20 ltac:(split; vm_compute; congruence) ltac:(vm_compute; reflexivity) []) as (lk & st & El & Eg & _).
    exists lk, st. split; [exact El|]. etransitivity; [exact Eg | vm_compute; reflexivity].
Defined.

