(* ===== verification/TableCache.v ===== *)
(** * db/table_cache.cc and db/builder.cc: tables by number

    [TableCache] opens the table of a file number and keeps it open in a cache;
    [BuildTable] writes the entries of an iterator to a new table file and makes sure that
    the cache can open it.  Together they discharge what a version relies on: a lookup in
    a file by its number answers as the list of updates that was written.

    The cache is a finite map from file numbers to open tables that drops an entry only
    on [Evict].  The eviction of the least recently used entries (Cache.v) is left out: an
    evicted table is opened again from its file, and the theorems hold for any contents
    of the cache that agree with the files. *)
From stdpp Require Import gmap.
From S2P Require Import Prelude.
From S2P Require Import Interfaces.
From S2P Require Import Coding.
From S2P Require Import Comparator.
From S2P Require Import Bloom.
From S2P Require Import Log.
From S2P Require Import Status.
From S2P Require Import Dbformat.
From S2P Require Import Cursor.
From S2P Require Import FilterBlock.
From S2P Require Import Block.
From S2P Require Import Format.
From S2P Require Import TableBuilder.
From S2P Require Import TwoLevel.
From S2P Require Import Table.
From S2P Require Import MemTable.
From S2P Require Import VersionEdit.
From S2P Require Import Updates.
From S2P Require Import Version.
From S2P Require Import Env.
From S2P Require Import FileName.
Import FileName Format.

(** ** Definitions *)

Module TableCache.

Section cache.
Context (addr : list byte → Z) (Snappy_GetUncompressedLength : list byte → option Z) (Snappy_Uncompress : list byte → option (list byte))
  (fresh : Z → list byte).
Context (dbname : list byte) (options_ : Table.Options).
Context {E : Type} (NewRandomAccessFile : list byte → E → E * (status + RandomAccessFile)).

(** The cache of the open tables; a table keeps its file. *)
Abbreviation tables := (gmap (list byte) Table.table).
Definition table_key (file_number : Z) : list byte := EncodeFixed64 file_number.

(** The file under its name, or else under the name that older versions gave it. *)
Definition open_table_file (file_number : Z) (e : E) : outcome (E * (status + RandomAccessFile)) :=
  fname ← TableFileName dbname file_number;
  match NewRandomAccessFile fname e with
  | (e, inr f) => Ok (e, inr f)
  | (e, inl s) =>
      old_fname ← SSTTableFileName dbname file_number;
      match NewRandomAccessFile old_fname e with
      | (e, inr f) => Ok (e, inr f)
      | (e, inl _) => Ok (e, inl s)
      end
  end.

(** [new_id]: the id that a new table gets from the block cache. *)
Definition FindTable (file_number file_size new_id : Z) (c : tables) (e : E) : outcome (E * tables * (status + Table.table)) :=
  match c !! table_key file_number with
  | Some t => Ok (e, c, inr t)
  | None =>
      r ← open_table_file file_number e;
      match (r.2 : status + RandomAccessFile) with
      | inl s => Ok (r.1, c, inl s)
      | inr f =>
          t ← Table.Open addr Snappy_GetUncompressedLength Snappy_Uncompress fresh options_ f file_size new_id;
          match (t.1 : option Table.table) with
          | Some table => if ok t.2 then Ok (r.1, <[table_key file_number := table]> c, inr table) else Ub AssertionFailed
          | None => if ok t.2 then Ub NullDeref else Ok (r.1, c, inl t.2)
          end
      end
  end.

(** An iterator of the table, or an error iterator. *)
Definition NewIterator (file_number file_size new_id : Z) (c : tables) (e : E) : outcome (E * tables * (status + Table.table * TwoLevel.two_level)) :=
  r ← FindTable file_number file_size new_id c e;
  match (r.2 : status + Table.table) with
  | inl s => Ok (r.1, inl s)
  | inr t => it ← Table.NewIterator t; Ok (r.1, inr (t, it))
  end.

(** The entry is what is passed to [saver]. *)
Definition Get (blocks : option (list byte → option Block.block)) (ro : Table.ReadOptions) (file_number file_size new_id : Z) (k : list byte) (c : tables) (e : E)
    : outcome (E * tables * (status * option entry)) :=
  r ← FindTable file_number file_size new_id c e;
  match (r.2 : status + Table.table) with
  | inl s => Ok (r.1, (s, None))
  | inr t => g ← Table.InternalGet addr Snappy_GetUncompressedLength Snappy_Uncompress fresh blocks t ro k; Ok (r.1, g)
  end.

Definition Evict (file_number : Z) (c : tables) : tables := delete (table_key file_number) c.

End cache.
Abbreviation tables := (gmap (list byte) Table.table).

(** *** BuildTable *)

Section build.
Context (addr : list byte → Z) (Snappy_Compress : list byte → option (list byte)) (Snappy_GetUncompressedLength : list byte → option Z)
  (Snappy_Uncompress : list byte → option (list byte)) (fresh : Z → list byte).
Context (dbname : list byte) (wo : TableBuilder.Options) (options_ : Table.Options).
Context {E W R : Type} (env : EnvOps E W R) (NewRandomAccessFile : list byte → E → E * (status + RandomAccessFile)).
Context {T : Type} (iter : IteratorOps T).

(** The destination of the builder is a file of the environment. *)
Definition table_append (f : W * E) (d : list byte) : (W * E) * status := let '(e, s) := Env.file_Append env f.1 d f.2 in ((f.1, e), s).
Definition table_flush (f : W * E) : (W * E) * status := let '(e, s) := Env.file_Flush env f.1 f.2 in ((f.1, e), s).

Fixpoint add_entries (fuel : nat) (it : T) (largest : list byte) (b : TableBuilder.rep (W * E)) : outcome (T * list byte * TableBuilder.rep (W * E)) :=
  if it_Valid iter it then
    match fuel with
    | O => Blocked
    | S fuel =>
        key ← it_key iter it;
        value ← it_value iter it;
        b ← TableBuilder.Add table_append table_flush addr Snappy_Compress key value b;
        it ← it_Next iter it;
        add_entries fuel it key b
    end
  else Ok (it, largest, b).

(** The table is usable: it can be opened and its iterator has no error. *)
Definition verify_table (file_number file_size new_id : Z) (c : tables) (e : E) : outcome (E * tables * status) :=
  r ← NewIterator addr Snappy_GetUncompressedLength Snappy_Uncompress fresh dbname options_ NewRandomAccessFile file_number file_size new_id c e;
  match (r.2 : status + Table.table * TwoLevel.two_level) with
  | inl s => Ok (r.1, s)
  | inr (t, it) =>
      s ← it_status (Table.table_iterator addr Snappy_GetUncompressedLength Snappy_Uncompress fresh None 0 t (Table.mkReadOptions false true)) it;
      Ok (r.1, s)
  end.

(** [Finish], [Sync], [Close] and the check of the table. *)
Definition finish_table (b : TableBuilder.rep (W * E)) (smallest largest : list byte) (new_id : Z) (m : FileMetaData) (c : tables)
    : outcome (E * tables * FileMetaData * status) :=
  r ← TableBuilder.Finish table_append table_flush addr Snappy_Compress b;
  let '(b, s) := (r : TableBuilder.rep (W * E) * status) in
  let '(file, e) := TableBuilder.file b in
  let size := if ok s then TableBuilder.FileSize b else 0 in
  if ok s && negb (0 <? size) then Ub AssertionFailed
  else
    let m := VersionEdit.mkFile (refs m) (allowed_seeks m) (number m) size smallest largest in
    let '(e, s) := if ok s then Env.file_Sync env file e else (e, s) in
    let '(e, s) := if ok s then Env.file_Close env file e else (e, s) in
    if ok s then r ← verify_table (number m) size new_id c e; Ok (r.1.1, r.1.2, m, r.2)
    else Ok (e, c, m, s).

Definition BuildTable (fuel : nat) (it : T) (m : FileMetaData) (new_id : Z) (c : tables) (e : E) : outcome (E * tables * FileMetaData * status) :=
  let m := VersionEdit.mkFile (refs m) (allowed_seeks m) (number m) 0 (smallest m) (largest m) in
  it ← it_SeekToFirst iter it;
  fname ← TableFileName dbname (number m);
  let close (it : T) (r : E * tables * FileMetaData * status) :=
    let '(e, c, m, s) := r in
    st ← it_status iter it;
    let s := if ok st then s else st in
    if ok s && (0 <? file_size m) then Ok (e, c, m, s) else Ok ((DeleteFile env fname e).1, c, m, s) in
  if it_Valid iter it then
    match NewWritableFile env fname e with
    | (e, inl s) => Ok (e, c, m, s)
    | (e, inr file) =>
        b ← TableBuilder.new wo (file, e);
        smallest ← it_key iter it;
        r ← add_entries fuel it (largest m) b;
        let '(it, largest, b) := (r : T * list byte * TableBuilder.rep (W * E)) in
        r ← finish_table b smallest largest new_id m c;
        close it r
    end
  else close it (e, c, m, status_ok).

End build.

(** The options the database passes on: [SanitizeOptions] puts the comparator and the
    filter policy of internal keys in the place of the user's. *)
Definition internal_policy (policy : option (FilterPolicy * list byte)) : option (FilterPolicy * list byte) :=
  match policy with Some (p, name) => Some (internal_filter_policy p, name) | None => None end.
Definition table_options (user : Comparator) (policy : option (FilterPolicy * list byte)) (paranoid : bool) : Table.Options :=
  Table.mkOptions (internal_comparator user) (internal_policy policy) paranoid.
Definition builder_options (user : Comparator) (policy : option (FilterPolicy * list byte)) (block_size interval compression : Z) : TableBuilder.Options :=
  TableBuilder.mkOptions (internal_comparator user) block_size interval compression (internal_policy policy).
End TableCache.

Import TableBuilder TableCache.

(** ** Contracts *)

(** The operations on table files: [linked e name w] says that [w] is the file with this
    name and [data e w] are its bytes.  Writing may fail; a file that was written can be
    opened and read, table files stay shorter than 4 GiB, and an operation on a file
    changes no other one. *)
Class TableEnv {E W R} (env : EnvOps E W R) (NewRandomAccessFile : list byte → E → E * (status + RandomAccessFile))
    (linked : E → list byte → W → Prop) (data : E → W → list byte) : Prop := {
  te_create n e e' w : NewWritableFile env n e = (e', inr w) → linked e' n w ∧ data e' w = [] ∧
    ∀ n' w', n' ≠ n → linked e n' w' → w' ≠ w ∧ linked e' n' w' ∧ data e' w' = data e w';
  te_create_failed n e e' s : NewWritableFile env n e = (e', inl s) → ok s = false ∧ ∀ n' w', n' ≠ n → linked e n' w' → linked e' n' w' ∧ data e' w' = data e w';
  te_append w d e e' s : Env.file_Append env w d e = (e', s) → (∀ n w', linked e n w' → linked e' n w') ∧
    (∀ w', w' ≠ w → data e' w' = data e w') ∧ (blen (data e w) < 2 ^ 32 → blen (data e' w) < 2 ^ 32) ∧ (ok s = true → data e' w = data e w ++ d ∧ blen (data e' w) < 2 ^ 60);
  te_flush w e e' s : Env.file_Flush env w e = (e', s) → (∀ n w', linked e n w' → linked e' n w') ∧
    (∀ w', w' ≠ w → data e' w' = data e w') ∧ (blen (data e w) < 2 ^ 32 → blen (data e' w) < 2 ^ 32) ∧ (ok s = true → data e' w = data e w);
  te_sync w e e' s : Env.file_Sync env w e = (e', s) → (∀ n w', linked e n w' → linked e' n w') ∧
    (∀ w', w' ≠ w → data e' w' = data e w') ∧ (ok s = true → data e' w = data e w);
  te_close w e e' s : Env.file_Close env w e = (e', s) → (∀ n w', linked e n w' → linked e' n w') ∧
    (∀ w', w' ≠ w → data e' w' = data e w') ∧ (ok s = true → data e' w = data e w);
  te_delete n e e' s : DeleteFile env n e = (e', s) → ∀ n' w', n' ≠ n → linked e n' w' → linked e' n' w' ∧ data e' w' = data e w';
  te_rename src dst e e' s : RenameFile env src dst e = (e', s) → ∀ n' w', n' ≠ src → n' ≠ dst → linked e n' w' → linked e' n' w' ∧ data e' w' = data e w';
  te_open n w e : linked e n w → ∃ e' f, NewRandomAccessFile n e = (e', inr f) ∧ reads (data e w) f ∧
    (∀ n w', linked e n w' ↔ linked e' n w') ∧ ∀ w', data e' w' = data e w';
  te_missing n e : (∀ w, ¬ linked e n w) → ∃ e' s, NewRandomAccessFile n e = (e', inl s) ∧ ok s = false ∧
    (∀ n w', linked e n w' ↔ linked e' n w') ∧ ∀ w', data e' w' = data e w'
}.

(** ** Lemmas *)

(** *** What the builder leaves alone *)

Section keeps.
Context {F : Type} (file_Append : F → list byte → F * status) (file_Flush : F → F * status) (addr : list byte → Z) (Snappy_Compress : list byte → option (list byte)).
Context (Keep : F → Prop) (Happend : ∀ f d f' s, file_Append f d = (f', s) → Keep f → Keep f') (Hflush : ∀ f f' s, file_Flush f = (f', s) → Keep f → Keep f').
#[local] Notation keep r := (Keep (TableBuilder.file r)).

Lemma keep_raw contents type (r r' : TableBuilder.rep F) h : WriteRawBlock file_Append addr contents type r = Ok (r', h) → keep r → keep r'.
Proof.
  unfold WriteRawBlock. destruct (file_Append (TableBuilder.file r) contents) as [f s] eqn:E. intros H Hr. pose proof (Happend _ _ _ _ E Hr) as Hf.
  destruct (ok s); [|by injection H as <- _]. destruct (trailer addr contents type) as [t| | |]; try done. cbn [mbind outcome_bind] in H.
  destruct (file_Append f t) as [f' s'] eqn:E'. injection H as <- _. by apply (Happend _ _ _ _ E').
Qed.
Lemma keep_block b (r : TableBuilder.rep F) w : WriteBlock file_Append addr Snappy_Compress b r = Ok w → keep r → keep w.1.1.
Proof.
  unfold WriteBlock. destruct (negb _); [done|]. destruct (BlockBuilder.Finish b) as [b' raw]. destruct (choose_contents _ _ _) as [c t].
  destruct (WriteRawBlock _ _ _ _ _) as [[r' h]| | |] eqn:E; try done. cbn [mbind outcome_bind]. intros [= <-]. by apply (keep_raw _ _ _ _ _ E).
Qed.
Lemma keep_start_filter (r r' : TableBuilder.rep F) : start_filter r = Ok r' → keep r → keep r'.
Proof. unfold start_filter. destruct (filter_block r) as [[p b]|]; [|by intros [= <-]]. destruct (StartBlock _ _ _) as [b'| | |]; try done. by intros [= <-]. Qed.
Lemma keep_flush (r r' : TableBuilder.rep F) : TableBuilder.Flush file_Append file_Flush addr Snappy_Compress r = Ok r' → keep r → keep r'.
Proof.
  unfold TableBuilder.Flush. destruct (closed r); [done|]. destruct (negb _); [by intros [= <-]|]. destruct (BlockBuilder.empty _); [by intros [= <-]|]. destruct (pending_index_entry r); [done|].
  destruct (WriteBlock _ _ _ _ _) as [[[r1 b] h]| | |] eqn:E; try done. cbn [mbind outcome_bind]. intros H Hr. pose proof (keep_block _ _ _ E Hr) as H1. cbn [fst] in H1.
  apply keep_start_filter in H; [done|]. destruct (ok _); [|done]. cbn [TableBuilder.file set_pending set_data]. destruct (file_Flush (TableBuilder.file r1)) as [f s] eqn:Ef. by apply (Hflush _ _ _ Ef).
Qed.
Lemma keep_index_entry key (r r' : TableBuilder.rep F) : add_index_entry key r = Ok r' → keep r → keep r'.
Proof.
  unfold add_index_entry. destruct (BlockHandle.EncodeTo _ _) as [h| | |]; try done. cbn [mbind outcome_bind]. destruct (BlockBuilder.Add _ _ _ _ _) as [b| | |]; try done. by intros [= <-].
Qed.
Lemma keep_add key value (r r' : TableBuilder.rep F) : TableBuilder.Add file_Append file_Flush addr Snappy_Compress key value r = Ok r' → keep r → keep r'.
Proof.
  unfold TableBuilder.Add. destruct (closed r); [done|]. destruct (negb (ok _)); [by intros [= <-]|]. destruct (_ && _); [done|].
  destruct (if pending_index_entry r then _ else _) as [r1| | |] eqn:E1; try done. cbn [mbind outcome_bind]. intros H Hr.
  assert (keep r1) as H1. { destruct (pending_index_entry r); [|by injection E1 as <-]. destruct (negb _); [done|]. by apply (keep_index_entry _ _ _ E1). }
  destruct (BlockBuilder.Add _ _ _ _ _) as [db| | |]; try done. cbn [mbind outcome_bind] in H.
  assert (keep (set_data db (set_num_entries (num_entries (add_filter_key key r1) + 1) (set_last_key key (add_filter_key key r1))))) as H2.
  { cbn [TableBuilder.file set_data set_num_entries set_last_key]. unfold add_filter_key. by destruct (filter_block r1) as [[p b]|]. }
  destruct (_ <=? _); [by apply (keep_flush _ _ H)|]. by injection H as <-.
Qed.
Lemma keep_adds es : ∀ r r' : TableBuilder.rep F, for_loop (λ e, TableBuilder.Add file_Append file_Flush addr Snappy_Compress e.1 e.2) es r = Ok r' → keep r → keep r'.
Proof.
  induction es as [|e es IH]; intros r r'; cbn [for_loop]; [by intros [= <-]|]. destruct (TableBuilder.Add _ _ _ _ _ _ _) as [r1| | |] eqn:E; try done. cbn [mbind outcome_bind].
  intros H Hr. apply (IH _ _ H). by apply (keep_add _ _ _ _ E).
Qed.
Lemma keep_finish (r r' : TableBuilder.rep F) s : TableBuilder.Finish file_Append file_Flush addr Snappy_Compress r = Ok (r', s) → keep r → keep r'.
Proof.
  unfold TableBuilder.Finish. destruct (TableBuilder.Flush _ _ _ _ r) as [r1| | |] eqn:E1; try done. cbn [mbind outcome_bind]. intros H Hr. pose proof (keep_flush _ _ E1 Hr) as H1.
  destruct (closed r1); [done|]. destruct (write_filter _ _ _) as [[r2 fh]| | |] eqn:E2; try done. cbn [mbind outcome_bind] in H.
  assert (keep r2) as H2.
  { unfold write_filter in E2. destruct (ok _); [|by injection E2 as <- _]. destruct (filter_block _) as [[p b]|]; [|by injection E2 as <- _]. destruct (FilterBlock.Finish p b) as [c| | |]; try done. by apply (keep_raw _ _ _ _ _ E2). }
  destruct (write_metaindex _ _ _ fh r2) as [[r3 mh]| | |] eqn:E3; try done. cbn [mbind outcome_bind] in H.
  assert (keep r3) as H3.
  { unfold write_metaindex in E3. destruct (ok _); [|by injection E3 as <- _]. destruct (BlockBuilder.new _) as [b| | |]; try done. cbn [mbind outcome_bind] in E3.
    destruct (match filter_block r2, _ with None, _ => _ | Some _, None => _ | Some _, Some _ => _ end) as [b'| | |]; try done. cbn [mbind outcome_bind] in E3.
    destruct (WriteBlock _ _ _ _ r2) as [w| | |] eqn:Ew; try done. injection E3 as <- _. by apply (keep_block _ _ _ Ew). }
  destruct (write_index _ _ _ r3) as [[r4 ih]| | |] eqn:E4; try done. cbn [mbind outcome_bind] in H.
  assert (keep r4) as H4.
  { unfold write_index in E4. destruct (ok _); [|by injection E4 as <- _]. destruct (if pending_index_entry r3 then _ else _) as [r5| | |] eqn:E5; try done. cbn [mbind outcome_bind] in E4.
    destruct (WriteBlock _ _ _ _ r5) as [w| | |] eqn:Ew; try done. injection E4 as <- _. apply (keep_block _ _ _ Ew). destruct (pending_index_entry r3); [by apply (keep_index_entry _ _ _ E5) | by injection E5 as <-]. }
  destruct (write_footer _ _ _ r4) as [r5| | |] eqn:E5; try done. injection H as <- _. unfold write_footer in E5. destruct (ok _); [|by injection E5 as <-].
  destruct (Footer.EncodeTo _ _) as [fe| | |]; try done. cbn [mbind outcome_bind] in E5. destruct (file_Append (TableBuilder.file r4) fe) as [f s'] eqn:Ef. injection E5 as <-. by apply (Happend _ _ _ _ Ef).
Qed.
Lemma keep_new o f (r : TableBuilder.rep F) : TableBuilder.new o f = Ok r → Keep f → keep r.
Proof.
  unfold TableBuilder.new. destruct (BlockBuilder.new _) as [b| | |]; try done. cbn [mbind outcome_bind TableBuilder.filter_block].
  destruct (TableBuilder.filter_policy o) as [[p name]|]; [|by intros [= <-]]. destruct (StartBlock _ _ _) as [b'| | |]; try done. by intros [= <-].
Qed.
End keeps.

(** *** Opening tables *)

Section open.
Context (addr : list byte → Z) (Haddr : addr_ok addr) (Snappy_Compress : list byte → option (list byte)) (Snappy_GetUncompressedLength : list byte → option Z)
  (Snappy_Uncompress : list byte → option (list byte)) `{HS : !SnappyLaws Snappy_Compress Snappy_GetUncompressedLength Snappy_Uncompress}
  (fresh : Z → list byte) (Hfresh : ∀ n, 0 ≤ n → blen (fresh n) = n).
Context (dbname : list byte) (valid : list byte → Prop) (o : Table.Options) `{HC : !ComparatorLaws valid (Table.comparator o)}.
(** At most [N] keys go into the filters. *)
Context (N : nat) (size_ok : list (list byte) → Prop).
Context (Hpolicy : match Table.filter_policy o with
  | None => True
  | Some (p, _) => FilterLaws size_ok p ∧ ∀ l, (length l ≤ N)%nat → size_ok l
  end).
Context {E W R : Type} (env : EnvOps E W R) (NewRandomAccessFile : list byte → E → E * (status + RandomAccessFile))
  (linked : E → list byte → W → Prop) (data : E → W → list byte) `{HE : !TableEnv env NewRandomAccessFile linked data}.
#[local] Notation cmp := (Table.comparator o).
#[local] Notation FindTable := (TableCache.FindTable addr Snappy_GetUncompressedLength Snappy_Uncompress fresh dbname o NewRandomAccessFile).
#[local] Notation name_of n := (MakeFileName dbname n (str "ldb")).
#[local] Notation old_name_of n := (MakeFileName dbname n (str "sst")).
#[local] Notation table_file := (table_file Snappy_GetUncompressedLength Snappy_Uncompress cmp (Table.filter_policy o)).
#[local] Notation cache_ok := (cache_ok addr Snappy_GetUncompressedLength Snappy_Uncompress fresh).

(** The entries a table can have. *)
Definition entries_ok (es : list entry) : Prop := sorted_entries (Compare cmp) es ∧ (∀ e, e ∈ es → valid e.1) ∧ (length es ≤ N)%nat.
(** The bytes are a table with the entries. *)
Definition is_table (content : list byte) (es : list entry) : Prop :=
  blen content < 2 ^ 32 ∧ ∃ bs index mh ih, table_file content es bs index mh ih.
(** The file of the number holds them. *)
Definition on_disk (e : E) (n size : Z) (es : list entry) : Prop :=
  ∃ w, (linked e (name_of n) w ∨ ((∀ w', ¬ linked e (name_of n) w') ∧ linked e (old_name_of n) w)) ∧ size = blen (data e w) ∧ is_table (data e w) es.
(** It is a new file: no other name led to it before. *)
Definition made_on_disk (e0 e : E) (n size : Z) (es : list entry) : Prop :=
  ∃ w, linked e (name_of n) w ∧ (∀ n' w', n' ≠ name_of n → linked e0 n' w' → w' ≠ w) ∧ size = blen (data e w) ∧ is_table (data e w) es.
Lemma made_is_on_disk e0 e n size es : made_on_disk e0 e n size es → on_disk e n size es.
Proof. intros (w & Hw & _ & Hs & Ht). exists w. split; [by left | done]. Qed.
(** An open table with the entries; [blocks] is the block cache. *)
Definition opened (blocks : option (list byte → option Block.block)) (t : Table.table) (es : list entry) : Prop :=
  ∃ content raf bs index mh ih id, blen content < 2 ^ 32 ∧ reads content raf ∧ table_file content es bs index mh ih ∧
    table_ok raf o bs index mh id t ∧ cache_ok raf t bs blocks.
(** Every open table is the table of its number. *)
Definition tables_ok (stored : Z → option (list entry)) (blocks : option (list byte → option Block.block)) (c : tables) : Prop :=
  ∀ n t es, is_u64 n → c !! table_key n = Some t → stored n = Some es → opened blocks t es.
(** The block cache has nothing under a new id. *)
Definition new_cache_id (blocks : option (list byte → option Block.block)) (id : Z) : Prop :=
  match blocks with None => True | Some lookup => ∀ k, lookup (EncodeFixed64 id ++ k) = None end.
(** The files are the same. *)
Definition same_files (e e' : E) : Prop := (∀ n w, linked e n w ↔ linked e' n w) ∧ ∀ w, data e' w = data e w.

Lemma same_files_trans e1 e2 e3 : same_files e1 e2 → same_files e2 e3 → same_files e1 e3.
Proof. intros [A1 A2] [B1 B2]. split; [intros n w; by rewrite A1|]. intros w. by rewrite B2. Qed.
Lemma on_disk_same e e' n size es : same_files e e' → on_disk e n size es → on_disk e' n size es.
Proof.
  intros [H1 H2] (w & Hw & Hs & Ht). exists w. rewrite H2. split; [|done]. rewrite <- !H1. destruct Hw as [Hw|[Hn Hw]]; [by left|]. right. split; [|done]. intros w'. rewrite <- H1. apply Hn.
Qed.
Lemma made_on_disk_same e0 e e' n size es : same_files e e' → made_on_disk e0 e n size es → made_on_disk e0 e' n size es.
Proof. intros [H1 H2] (w & Hw & Ho & Hs & Ht). exists w. rewrite H2. split; [by apply H1 | done]. Qed.
Lemma name_ok n : 0 < n → TableFileName dbname n = Ok (name_of n) ∧ SSTTableFileName dbname n = Ok (old_name_of n).
Proof. intros Hn. unfold TableFileName, SSTTableFileName. destruct (Z.ltb_spec 0 n); [done | lia]. Qed.

Lemma open_file_spec e n size es : 0 < n → on_disk e n size es →
  ∃ e' f content, open_table_file dbname NewRandomAccessFile n e = Ok (e', inr f) ∧ reads content f ∧ size = blen content ∧ is_table content es ∧ same_files e e'.
Proof.
  intros Hn (w & Hw & Hs & Ht). unfold open_table_file. destruct (name_ok n Hn) as [-> ->]. cbn [mbind outcome_bind]. destruct Hw as [Hw|[Hno Hw]].
  - destruct (te_open (env := env) _ w e Hw) as (e' & f & -> & Hr & H1 & H2). by exists e', f, (data e w).
  - destruct (te_missing (env := env) _ e Hno) as (e1 & s & -> & _ & H1 & H2). cbn [mbind outcome_bind]. apply H1 in Hw.
    destruct (te_open (env := env) _ w e1 Hw) as (e' & f & -> & Hr & H3 & H4). rewrite H2 in Hr. exists e', f, (data e w). split; [done|]. split; [done|]. split; [done|]. split; [done|].
    by apply (same_files_trans e e1 e').
Qed.

Lemma FindTable_spec stored blocks c e n size id es : tables_ok stored blocks c → 0 < n → is_u64 n → stored n = Some es → on_disk e n size es → new_cache_id blocks id → entries_ok es →
  ∃ e' c' t, FindTable n size id c e = Ok (e', c', inr t) ∧ opened blocks t es ∧ tables_ok stored blocks c' ∧ same_files e e'.
Proof.
  intros Hc Hn Hu Hst Hd Hid (Hsorted & Hvalid & HN). unfold TableCache.FindTable. destruct (c !! table_key n) as [t|] eqn:Ec.
  { exists e, c, t. split; [done|]. split; [by apply (Hc n t es)|]. split; [done|]. by split. }
  destruct (open_file_spec e n size es Hn Hd) as (e' & f & content & -> & Hr & -> & (Hsmall & bs & index & mh & ih & Ht) & Hsame). cbn [mbind outcome_bind fst snd].
  destruct (Open_spec addr Haddr Snappy_GetUncompressedLength Snappy_Uncompress fresh Hfresh content Hsmall f Hr o N size_ok Hpolicy es bs index mh ih Ht HN id) as (t & -> & Htk).
  cbn [mbind outcome_bind fst snd]. change (ok status_ok) with true. cbv iota.
  assert (opened blocks t es) as Hop.
  { exists content, f, bs, index, mh, ih, id. split; [done|]. split; [done|]. split; [done|]. split; [done|]. destruct blocks as [lookup|]; [|done].
    intros b block _ Hb. unfold Table.cache_key in Hb. rewrite (tk_id _ _ _ _ _ _ _ Htk), Hid in Hb. done. }
  exists e', (<[table_key n := t]> c), t. split; [done|]. split; [done|]. split; [|done].
  intros m t' es' Hm Hlook Hes. destruct (decide (table_key m = table_key n)) as [Ek|Ek].
  - apply EncodeFixed64_inj in Ek as ->; [|done..]. rewrite lookup_insert_eq in Hlook. injection Hlook as <-. congruence.
  - rewrite lookup_insert_ne in Hlook by done. by apply (Hc m).
Qed.

Lemma cached_get_spec (same : list byte → list byte → Prop)
    (Hsame_filter : ∀ p name, Table.filter_policy o = Some (p, name) → ∀ a k fl, same a k → KeyMayMatch p a fl = KeyMayMatch p k fl)
    (Hsame_sep : ∀ a c k, valid a → valid c → valid k → Compare cmp a c < 0 → Compare cmp a k < 0 →
      Compare cmp k (FindShortestSeparator cmp a c) ≤ 0 → ¬ same c k)
    stored blocks ro c e n size id es k : tables_ok stored blocks c → 0 < n → is_u64 n → stored n = Some es → on_disk e n size es → new_cache_id blocks id → entries_ok es → valid k →
  ∃ e' c' r, TableCache.Get addr Snappy_GetUncompressedLength Snappy_Uncompress fresh dbname o NewRandomAccessFile blocks ro n size id k c e = Ok (e', c', (status_ok, r)) ∧
    match r with
    | Some x => es !! lower_bound (Compare cmp) es k = Some x
    | None => ∀ x, es !! lower_bound (Compare cmp) es k = Some x → ¬ same x.1 k
    end ∧ tables_ok stored blocks c' ∧ same_files e e'.
Proof.
  intros Hc Hn Hu Hst Hd Hid Hes Hk. unfold TableCache.Get.
  destruct (FindTable_spec stored blocks c e n size id es Hc Hn Hu Hst Hd Hid Hes) as (e' & c' & t & -> & (content & raf & bs & index & mh & ih & id' & Hsmall & Hr & Ht & Htk & Hbl) & Hc' & Hsame).
  cbn [mbind outcome_bind fst snd]. destruct Hes as (Hsorted & Hvalid & HN).
  destruct (InternalGet_spec addr Haddr Snappy_GetUncompressedLength Snappy_Uncompress fresh Hfresh content Hsmall raf Hr valid o N size_ok Hpolicy es bs index mh ih Ht Hsorted Hvalid HN same Hsame_filter Hsame_sep id' t blocks ro k Htk Hbl Hk)
    as (r & -> & Hres). cbn [mbind outcome_bind fst snd]. by exists e', c', r.
Qed.

Lemma NewIterator_spec stored blocks c e n size id es ro fuel : tables_ok stored blocks c → 0 < n → is_u64 n → stored n = Some es → on_disk e n size es → new_cache_id blocks id → entries_ok es →
  (S (length es) < fuel)%nat →
  ∃ e' c' t it shows, TableCache.NewIterator addr Snappy_GetUncompressedLength Snappy_Uncompress fresh dbname o NewRandomAccessFile n size id c e = Ok (e', c', inr (t, it)) ∧
    CursorLaws (Table.table_iterator addr Snappy_GetUncompressedLength Snappy_Uncompress fresh blocks fuel t ro) (Compare cmp) valid es shows ∧ shows it (length es) ∧
    tables_ok stored blocks c' ∧ same_files e e'.
Proof.
  intros Hc Hn Hu Hst Hd Hid Hes Hfuel. unfold TableCache.NewIterator.
  destruct (FindTable_spec stored blocks c e n size id es Hc Hn Hu Hst Hd Hid Hes) as (e' & c' & t & -> & (content & raf & bs & index & mh & ih & id' & Hsmall & Hr & Ht & Htk & Hbl) & Hc' & Hsame).
  cbn [mbind outcome_bind fst snd]. destruct Hes as (Hsorted & Hvalid & HN).
  destruct (table_cursor addr Haddr Snappy_GetUncompressedLength Snappy_Uncompress fresh Hfresh content Hsmall raf Hr valid o es bs index mh ih Ht Hsorted Hvalid id' t blocks fuel ro Htk Hbl) as (HL & it & -> & Hit).
  { pose proof (index_short Snappy_GetUncompressedLength Snappy_Uncompress content valid o es bs index mh ih Ht Hsorted Hvalid). lia. }
  cbn [mbind outcome_bind]. eexists e', c', t, it, _. split; [done|]. split; [exact HL|]. by split.
Qed.
End open.

(** *** Building tables *)

Section building.
Context (addr : list byte → Z) (Haddr : addr_ok addr) (Snappy_Compress : list byte → option (list byte)) (Snappy_GetUncompressedLength : list byte → option Z)
  (Snappy_Uncompress : list byte → option (list byte)) `{HS : !SnappyLaws Snappy_Compress Snappy_GetUncompressedLength Snappy_Uncompress}
  (fresh : Z → list byte) (Hfresh : ∀ n, 0 ≤ n → blen (fresh n) = n).
Context (dbname : list byte) (valid : list byte → Prop) (wo : TableBuilder.Options) (o : Table.Options) `{HC : !ComparatorLaws valid (Table.comparator o)}.
(** The options of the writer and of the reader are made from the same ones. *)
Context (Hcmp : TableBuilder.comparator wo = Table.comparator o) (Hfilter : TableBuilder.filter_policy wo = Table.filter_policy o).
Context (Hint : 1 ≤ TableBuilder.block_restart_interval wo)
  (Hcomp : TableBuilder.compression wo = kNoCompression ∨ TableBuilder.compression wo = kSnappyCompression).
Context (N : nat) (size_ok : list (list byte) → Prop) (Hpolicy : policy_ok wo N size_ok).
Context {E W R : Type} (env : EnvOps E W R) (NewRandomAccessFile : list byte → E → E * (status + RandomAccessFile))
  (linked : E → list byte → W → Prop) (data : E → W → list byte) `{HE : !TableEnv env NewRandomAccessFile linked data}.
#[local] Notation cmp := (Table.comparator o).
#[local] Notation name_of n := (MakeFileName dbname n (str "ldb")).
#[local] Notation entries_ok := (entries_ok valid o N).
#[local] Notation on_disk := (on_disk Snappy_GetUncompressedLength Snappy_Uncompress dbname o linked data).
#[local] Notation made_on_disk := (made_on_disk Snappy_GetUncompressedLength Snappy_Uncompress dbname o linked data).
#[local] Notation is_table := (is_table Snappy_GetUncompressedLength Snappy_Uncompress o).
#[local] Notation tables_ok := (tables_ok addr Snappy_GetUncompressedLength Snappy_Uncompress fresh o).
#[local] Notation Add := (TableBuilder.Add (table_append env) (table_flush env) addr Snappy_Compress).

#[local] Instance table_writable : WritableLaws (table_append env) (table_flush env) (λ f, data f.2 f.1).
Proof.
  split.
  - intros [w e] d f' s. unfold table_append. cbn [fst snd]. destruct (Env.file_Append env w d e) as [e' s'] eqn:E0. intros [= <- <-] Hs. cbn [fst snd].
    destruct (te_append (env := env) w d e e' s' E0) as (_ & _ & _ & H). by apply H.
  - intros [w e] f' s. unfold table_flush. cbn [fst snd]. destruct (Env.file_Flush env w e) as [e' s'] eqn:E0. intros [= <- <-] Hs. cbn [fst snd].
    destruct (te_flush (env := env) w e e' s' E0) as (_ & _ & _ & H). by apply H.
Qed.

(** The other files are as they were. *)
Definition others_kept (name : list byte) (e e' : E) : Prop := ∀ n w, n ≠ name → linked e n w → linked e' n w ∧ data e' w = data e w.
(** The file that is written keeps its name. *)
Definition writing (name : list byte) (w : W) (e : E) (f : W * E) : Prop :=
  f.1 = w ∧ linked f.2 name w ∧ ∀ n w', n ≠ name → linked e n w' → w' ≠ w ∧ linked f.2 n w' ∧ data f.2 w' = data e w'.

Lemma writing_step name w e e1 e2 : writing name w e (w, e1) → (∀ n w', linked e1 n w' → linked e2 n w') → (∀ w', w' ≠ w → data e2 w' = data e1 w') → writing name w e (w, e2).
Proof.
  intros (_ & H2 & H3) Hl Hd. split; [done|]. split; [by apply Hl|]. intros n w' Hn Hw. destruct (H3 n w' Hn Hw) as (A & B & C). cbn in *. split; [done|]. split; [by apply Hl|]. by rewrite Hd.
Qed.
Lemma writing_append name w e f d f' s : table_append env f d = (f', s) → writing name w e f → writing name w e f'.
Proof.
  destruct f as [w0 e0]. unfold table_append. cbn [fst snd]. destruct (Env.file_Append env w0 d e0) as [e1 s1] eqn:E0. intros [= <- <-] Hw. pose proof Hw as (Ew & _). cbn in Ew. subst w0.
  destruct (te_append (env := env) w d e0 e1 s1 E0) as (H1 & H2 & _ & _). by apply (writing_step name w e e0).
Qed.
Lemma writing_flush name w e f f' s : table_flush env f = (f', s) → writing name w e f → writing name w e f'.
Proof.
  destruct f as [w0 e0]. unfold table_flush. cbn [fst snd]. destruct (Env.file_Flush env w0 e0) as [e1 s1] eqn:E0. intros [= <- <-] Hw. pose proof Hw as (Ew & _). cbn in Ew. subst w0.
  destruct (te_flush (env := env) w e0 e1 s1 E0) as (H1 & H2 & _ & _). by apply (writing_step name w e e0).
Qed.
Definition short (w : W) (f : W * E) : Prop := f.1 = w ∧ blen (data f.2 w) < 2 ^ 32.
Lemma short_append w f d f' s : table_append env f d = (f', s) → short w f → short w f'.
Proof.
  destruct f as [w0 e0]. unfold table_append, short. cbn [fst snd]. destruct (Env.file_Append env w0 d e0) as [e1 s1] eqn:E0. intros [= <- <-] [-> H]. split; [done|].
  destruct (te_append (env := env) w d e0 e1 s1 E0) as (_ & _ & H1 & _). by apply H1.
Qed.
Lemma short_flush w f f' s : table_flush env f = (f', s) → short w f → short w f'.
Proof.
  destruct f as [w0 e0]. unfold table_flush, short. cbn [fst snd]. destruct (Env.file_Flush env w0 e0) as [e1 s1] eqn:E0. intros [= <- <-] [-> H]. split; [done|].
  destruct (te_flush (env := env) w e0 e1 s1 E0) as (_ & _ & H1 & _). by apply H1.
Qed.
Lemma writing_others name w e e1 : writing name w e (w, e1) → others_kept name e e1.
Proof. intros (_ & _ & H) n w' Hn Hw. by destruct (H n w' Hn Hw) as (_ & ? & ?). Qed.
Lemma others_same name e e1 e2 : others_kept name e e1 → same_files linked data e1 e2 → others_kept name e e2.
Proof. intros H [H1 H2] n w Hn Hw. destruct (H n w Hn Hw) as [A B]. split; [by apply H1 | by rewrite H2]. Qed.
Lemma others_delete name e e1 : others_kept name e e1 → others_kept name e (DeleteFile env name e1).1.
Proof.
  intros H n w Hn Hw. destruct (H n w Hn Hw) as [A B]. destruct (DeleteFile env name e1) as [e2 s] eqn:E0. cbn [fst].
  destruct (te_delete (env := env) name e1 e2 s E0 n w Hn A) as [C D]. split; [done | by rewrite D].
Qed.
Lemma others_refl name e : others_kept name e e.
Proof. by intros n w _ Hw. Qed.

Context {T : Type} (iter : IteratorOps T) (es : list entry) (starget : list byte → Prop) (shows : T → nat → Prop)
  (HI : CursorLaws iter (Compare cmp) starget es shows) (Hes : entries_ok es).

Lemma add_entries_spec : ∀ fuel pos it largest b b', shows it pos → (length es - pos ≤ fuel)%nat → (pos ≤ length es)%nat → for_loop (λ x, Add x.1 x.2) (drop pos es) b = Ok b' →
  ∃ it', add_entries addr Snappy_Compress env iter fuel it largest b = Ok (it', match last (drop pos es) with Some x => x.1 | None => largest end, b') ∧ shows it' (length es).
Proof.
  induction fuel as [|fuel IH]; intros pos it largest b b' Hs Hfuel Hpos; cbn [add_entries]; rewrite (cursor_valid (CursorLaws := HI) it pos Hs).
  - assert (pos = length es) as -> by lia. rewrite drop_all, bool_decide_false by lia. cbn. intros [= <-]. by exists it.
  - case_bool_decide as Hlt; [|assert (pos = length es) as -> by lia; rewrite drop_all; cbn; intros [= <-]; by exists it].
    destruct (lookup_lt_is_Some_2 es pos Hlt) as [x Hx]. destruct (cursor_entry (CursorLaws := HI) it pos x Hs Hx) as [-> ->]. cbn [mbind outcome_bind].
    rewrite (drop_S _ x) by done. cbn [for_loop]. destruct (Add x.1 x.2 b) as [b1| | |]; try done. cbn [mbind outcome_bind]. intros Hb.
    destruct (cursor_step (CursorLaws := HI) it pos OpNext Hs Hlt) as (it1 & E1 & Hs1). cbn [run_op spec_op] in E1, Hs1. rewrite E1. cbn [mbind outcome_bind].
    destruct (IH (S pos) it1 x.1 b1 b' Hs1 ltac:(lia) Hlt Hb) as (it' & -> & Hit'). exists it'. split; [|done]. f_equal. f_equal. f_equal.
    change (x :: drop (S pos) es) with ([x] ++ drop (S pos) es). rewrite last_app. by destruct (last (drop (S pos) es)).
Qed.

Context (stored : Z → option (list entry)) (blocks : option (list byte → option Block.block)) (id : Z) (Hid : new_cache_id blocks id).
#[local] Notation Finish := (TableBuilder.Finish (table_append env) (table_flush env) addr Snappy_Compress).
#[local] Notation finish_table := (TableCache.finish_table addr Snappy_Compress Snappy_GetUncompressedLength Snappy_Uncompress fresh dbname o env NewRandomAccessFile).
#[local] Notation verify_table := (TableCache.verify_table addr Snappy_GetUncompressedLength Snappy_Uncompress fresh dbname o NewRandomAccessFile).

Lemma table_not_empty content : is_table content es → 0 < blen content.
Proof.
  intros (_ & bs & index & mh & ih & Ht). destruct (tf_footer _ _ _ _ _ _ _ _ _ _ Ht) as [front ->]. destruct (tf_meta _ _ _ _ _ _ _ _ _ _ Ht) as [Hmh _].
  pose proof (proj1 (tf_index _ _ _ _ _ _ _ _ _ _ Ht)) as Hih. rewrite blen_app, (footer_bytes_length (Footer.mkFooter mh ih)) by done. change Footer.kEncodedLength with 48. pose proof (blen_nonneg front). lia.
Qed.
Lemma verify_spec n size c e : tables_ok stored blocks c → 0 < n → is_u64 n → stored n = Some es → on_disk e n size es →
  ∃ e' c', verify_table n size id c e = Ok (e', c', status_ok) ∧ tables_ok stored blocks c' ∧ same_files linked data e e'.
Proof.
  intros Hc Hn Hu Hst Hd. unfold TableCache.verify_table. assert (match Table.filter_policy o with None => True | Some (p, _) => FilterLaws size_ok p ∧ ∀ l, (length l ≤ N)%nat → size_ok l end) as Hpol
    by (pose proof Hpolicy as H; unfold policy_ok in H; by rewrite Hfilter in H).
  destruct (NewIterator_spec addr Haddr Snappy_GetUncompressedLength Snappy_Uncompress fresh Hfresh dbname valid o N size_ok Hpol env NewRandomAccessFile linked data
    stored blocks c e n size id es (Table.mkReadOptions false true) (S (S (length es))) Hc Hn Hu Hst Hd Hid Hes ltac:(lia)) as (e' & c' & t & it & sh & -> & HL & Hit & Hc' & Hsame).
  cbn [mbind outcome_bind fst snd]. pose proof (cursor_status (CursorLaws := HL) it _ Hit) as Es. cbn in Es |- *. rewrite Es. cbn [mbind outcome_bind]. by exists e', c'.
Qed.

Lemma finish_table_spec m small large e w r1 r s c : Finish r1 = Ok (r, s) → writing (name_of (number m)) w e (TableBuilder.file r) →
  (ok s = true → offset r = blen (data (TableBuilder.file r).2 w) ∧ is_table (data (TableBuilder.file r).2 w) es) →
  tables_ok stored blocks c → 0 < number m → is_u64 (number m) → stored (number m) = Some es →
  ∃ e' c' m' s', finish_table r1 small large id m c = Ok (e', c', m', s') ∧ others_kept (name_of (number m)) e e' ∧ tables_ok stored blocks c' ∧ number m' = number m ∧
    (ok s' = true → smallest m' = small ∧ largest m' = large ∧ 0 < file_size m' ∧ made_on_disk e e' (number m) (file_size m') es).
Proof.
  intros EF Hw Htab Hc Hn Hu Hst. unfold TableCache.finish_table. rewrite EF. cbn [mbind outcome_bind]. destruct (TableBuilder.file r) as [w0 e1] eqn:Ef. cbn [snd] in Htab.
  pose proof Hw as (Ew & _). cbn in Ew. subst w0. destruct (ok s) eqn:Es.
  2: { cbv zeta. cbn [andb]. rewrite !Es. cbv iota beta. eexists _, _, _, _. split; [reflexivity|]. split; [by apply (writing_others _ w)|]. split; [done|]. split; [done|]. by rewrite Es. }
  destruct (Htab eq_refl) as [Hoff Hist]. pose proof (table_not_empty _ Hist) as Hpos. cbn [andb]. unfold TableBuilder.FileSize. rewrite Hoff. destruct (Z.ltb_spec 0 (blen (data e1 w))); [|lia]. cbn [negb].
  destruct (Env.file_Sync env w e1) as [e2 s2] eqn:E2. destruct (te_sync (env := env) w e1 e2 s2 E2) as (A1 & A2 & A3). pose proof (writing_step _ _ _ _ e2 Hw A1 A2) as Hw2. cbv iota beta.
  assert (∀ e3 s3, writing (name_of (number m)) w e (w, e3) → ok s3 = false → ∃ e' c' m' s', Ok (e3, c, VersionEdit.mkFile (refs m) (allowed_seeks m) (number m) (blen (data e1 w)) small large, s3) = Ok (e', c', m', s') ∧
    others_kept (name_of (number m)) e e' ∧ tables_ok stored blocks c' ∧ number m' = number m ∧ (ok s' = true → smallest m' = small ∧ largest m' = large ∧ 0 < file_size m' ∧ made_on_disk e e' (number m) (file_size m') es)) as Hfail.
  { intros e3 s3 Hw3 Hs3. eexists _, _, _, _. split; [reflexivity|]. split; [by apply (writing_others _ w)|]. split; [done|]. split; [done|]. by rewrite Hs3. }
  destruct (ok s2) eqn:Es2; cbv iota beta; [|rewrite !Es2; by apply Hfail].
  destruct (Env.file_Close env w e2) as [e3 s3] eqn:E3. destruct (te_close (env := env) w e2 e3 s3 E3) as (B1 & B2 & B3). pose proof (writing_step _ _ _ _ e3 Hw2 B1 B2) as Hw3.
  destruct (ok s3) eqn:Es3; [|by apply Hfail]. cbn [number]. assert (data e3 w = data e1 w) as Ed by (rewrite B3, A3; done).
  assert (made_on_disk e e3 (number m) (blen (data e1 w)) es) as Hm.
  { destruct Hw3 as (_ & Hl3 & Ho3). exists w. rewrite Ed. split; [done|]. split; [|done]. intros n' w' Hn' Hw'. by destruct (Ho3 n' w' Hn' Hw'). }
  pose proof (made_is_on_disk _ _ _ _ _ _ _ _ _ _ _ Hm) as Hd.
  destruct (verify_spec (number m) _ c e3 Hc Hn Hu Hst Hd) as (e4 & c' & -> & Hc' & Hsame). cbn [mbind outcome_bind fst snd].
  eexists _, _, _, _. split; [reflexivity|]. split; [apply (others_same _ _ e3); [by apply (writing_others _ w) | done]|]. split; [done|]. split; [done|]. intros _. split; [done|]. split; [done|]. split; [done|].
  by apply (made_on_disk_same _ _ _ _ _ _ e e3).
Qed.

#[local] Notation BuildTable := (TableCache.BuildTable addr Snappy_Compress Snappy_GetUncompressedLength Snappy_Uncompress fresh dbname wo o env NewRandomAccessFile iter).

(** What the metadata and the files say after [BuildTable]. *)
Definition table_built (m m' : FileMetaData) (e e' : E) (s : status) : Prop :=
  (es = [] → s = status_ok ∧ file_size m' = 0) ∧
  (es ≠ [] → ok s = true → Some (smallest m') = head (map fst es) ∧ Some (largest m') = last (map fst es) ∧ 0 < file_size m' ∧ made_on_disk e e' (number m) (file_size m') es).
(** The file was deleted, or never made. *)
Definition table_discarded (name : list byte) (e e' : E) (s : status) : Prop :=
  (∃ e1, e' = (DeleteFile env name e1).1) ∨ NewWritableFile env name e = (e', inl s).

Lemma builder_runs name w e e1 : entries_ok es → writing name w e (w, e1) → data e1 w = [] →
  ∃ b0 b1 r s, TableBuilder.new wo (w, e1) = Ok b0 ∧ for_loop (λ x, Add x.1 x.2) es b0 = Ok b1 ∧ Finish b1 = Ok (r, s) ∧ writing name w e (TableBuilder.file r) ∧
    (ok s = true → offset r = blen (data (TableBuilder.file r).2 w) ∧ is_table (data (TableBuilder.file r).2 w) es).
Proof.
  intros (Hsorted & Hvalid & HN) Hw Hd. assert (ComparatorLaws valid (TableBuilder.comparator wo)) as HC' by (by rewrite Hcmp).
  destruct (build_table (table_append env) (table_flush env) (λ f, data f.2 f.1) addr Haddr Snappy_Compress Snappy_GetUncompressedLength Snappy_Uncompress valid wo Hint Hcomp N size_ok Hpolicy (w, e1) es Hd HN)
    as (r & s & Eb & Hr); [by rewrite Hcmp | done|]. unfold TableBuilder.build in Eb.
  destruct (TableBuilder.new wo (w, e1)) as [b0| | |] eqn:E0; try done. cbn [mbind outcome_bind] in Eb. destruct (for_loop _ es b0) as [b1| | |] eqn:E1; try done. cbn [mbind outcome_bind] in Eb.
  exists b0, b1, r, s. split; [done|]. split; [done|]. split; [done|].
  assert (writing name w e (TableBuilder.file r) ∧ short w (TableBuilder.file r)) as [Hwr [_ Hsh]].
  { pose (Keep f := writing name w e f ∧ short w f). assert (∀ f d f' s, table_append env f d = (f', s) → Keep f → Keep f') as Ha by (intros f d f' s' Ef [? ?]; split; [by apply (writing_append name w e f d f' s') | by apply (short_append w f d f' s')]).
    assert (∀ f f' s, table_flush env f = (f', s) → Keep f → Keep f') as Hf by (intros f f' s' Ef [? ?]; split; [by apply (writing_flush name w e f f' s') | by apply (short_flush w f f' s')]).
    apply (keep_finish (table_append env) (table_flush env) addr Snappy_Compress Keep Ha Hf b1 r s Eb).
    apply (keep_adds (table_append env) (table_flush env) addr Snappy_Compress Keep Ha Hf es b0 b1 E1).
    apply (keep_new Keep wo (w, e1) b0 E0). split; [done|]. split; [done|]. cbn [snd]. by rewrite Hd. }
  split; [done|]. intros Hs. destruct (Hr Hs) as (Hoff & bs & index & mh & ih & Ht). destruct (proj1 Hwr). split; [done|]. rewrite Hcmp, Hfilter in Ht. split; [exact Hsh|]. by exists bs, index, mh, ih.
Qed.

Lemma BuildTable_spec fuel it p m c e : shows it p → (length es ≤ fuel)%nat → 0 < number m → is_u64 (number m) → stored (number m) = Some es → tables_ok stored blocks c →
  ∃ e' c' m' s, BuildTable fuel it m id c e = Ok (e', c', m', s) ∧ others_kept (name_of (number m)) e e' ∧ tables_ok stored blocks c' ∧ number m' = number m ∧ table_built m m' e e' s ∧
    (ok s = false ∨ es = [] → table_discarded (name_of (number m)) e e' s).
Proof.
  intros Hit Hfuel Hn Hu Hst Hc. unfold TableCache.BuildTable. destruct (cursor_step (CursorLaws := HI) it p OpFirst Hit Logic.I) as (it0 & E0 & Hit0). cbn [run_op spec_op] in E0, Hit0. rewrite E0. cbn [mbind outcome_bind number].
  destruct (name_ok dbname (number m) Hn) as [-> _]. cbn [mbind outcome_bind]. rewrite (cursor_valid (CursorLaws := HI) it0 0 Hit0). unfold table_built, table_discarded. destruct (es !! 0%nat) as [x|] eqn:Hx.
  2: { assert (es = []) as Ees by (destruct es; [done | by cbn in Hx]). rewrite Ees. cbn [length]. rewrite bool_decide_false by lia. rewrite (cursor_status (CursorLaws := HI) it0 _ Hit0). cbn [mbind outcome_bind file_size]. change (ok status_ok) with true. cbn [andb]. eexists _, _, _, _. split; [reflexivity|].
    split; [apply others_delete, others_refl|]. split; [done|]. split; [done|]. split; [done|]. intros _. left. by exists e. }
  assert (es ≠ []) as Hne by (intros E1; by rewrite E1 in Hx). assert (Some x.1 = head (map fst es)) as Hhead by (destruct es; [done | cbn in Hx; by injection Hx as ->]).
  rewrite bool_decide_true by (by apply lookup_lt_Some in Hx). destruct (NewWritableFile env (name_of (number m)) e) as [e1 [s|w]] eqn:Enew.
  { destruct (te_create_failed (env := env) _ e e1 s Enew) as [Hs Ho]. eexists _, _, _, _. split; [reflexivity|]. split; [exact Ho|]. split; [done|]. split; [done|]. rewrite Hs. split; [by split|]. intros _. by right. }
  destruct (te_create (env := env) _ e e1 w Enew) as (Hl & Hd & Ho). assert (writing (name_of (number m)) w e (w, e1)) as Hw by (split; [done|]; split; [done | exact Ho]).
  destruct (builder_runs _ w e e1 Hes Hw Hd) as (b0 & b1 & r & s & -> & Eadd & EF & Hwr & Htab). cbn [mbind outcome_bind].
  destruct (cursor_entry (CursorLaws := HI) it0 0 x Hit0 Hx) as [-> _]. cbn [mbind outcome_bind].
  cbn [largest]. destruct (add_entries_spec fuel 0 it0 (largest m) b0 b1 Hit0 ltac:(lia) ltac:(lia) Eadd) as (it1 & -> & Hit1). cbn [mbind outcome_bind]. rewrite drop_0.
  set (m0 := VersionEdit.mkFile _ _ _ _ _ _). set (large := match last es with Some x => x.1 | None => largest m end).
  destruct (finish_table_spec m0 x.1 large e w b1 r s c EF Hwr Htab Hc Hn Hu Hst) as (e' & c' & m' & s' & -> & Hoth & Hc' & Hnum & Hok). cbn [mbind outcome_bind].
  rewrite (cursor_status (CursorLaws := HI) it1 _ Hit1). cbn [mbind outcome_bind]. change (ok status_ok) with true. cbv iota beta.
  destruct (ok s') eqn:Es'; cbn [andb].
  - destruct (Hok eq_refl) as (H1 & H2 & H3 & H4). destruct (Z.ltb_spec 0 (file_size m')); [|lia]. eexists _, _, _, _. split; [reflexivity|]. split; [exact Hoth|]. split; [done|]. split; [exact Hnum|].
    split; [|intros [?|?]; congruence]. split; [done|]. intros _ _. split; [congruence|]. split; [|done]. rewrite H2. unfold large. rewrite fmap_last. destruct (last es) eqn:El; [done|]. apply last_None in El. congruence.
  - eexists _, _, _, _. split; [reflexivity|]. split; [by apply others_delete|]. split; [done|]. split; [exact Hnum|]. split; [split; [done | congruence]|]. intros _. left. by exists e'.
Qed.
End building.

(** *** Tables of a database *)

Section database.
Context (user : Comparator) `{Huser : !ComparatorLaws any_key user}.
#[local] Notation icmp := (InternalKeyComparator.Compare user).
#[local] Notation ucmp := (Compare user).

(** A separator of two keys is before every version of the second one's user key. *)
Lemma separator_same a c k : ikey_ok a → ikey_ok c → ikey_ok k → icmp a c < 0 → icmp a k < 0 →
  icmp k (InternalKeyComparator.FindShortestSeparator user a c) ≤ 0 → ucmp (ExtractUserKey c) (ExtractUserKey k) ≠ 0.
Proof.
  intros Ha Hc Hk Hac Hak. unfold InternalKeyComparator.FindShortestSeparator. cbv zeta. set (tmp := FindShortestSeparator user _ _).
  destruct (_ && _) eqn:Eb; intros Hks E.
  - apply andb_true_iff in Eb as [E1%Z.ltb_lt E2%Z.ltb_lt]. apply (icmp_user_le user) in Hks. rewrite extract_put in Hks. assert (ucmp (ExtractUserKey a) (ExtractUserKey c) < 0) as Hult.
    { destruct (Z.lt_ge_cases (ucmp (ExtractUserKey a) (ExtractUserKey c)) 0) as [|Hge]; [done|]. apply separator_keeps in Hge; [|done..]. subst tmp. rewrite Hge in E1. lia. }
    destruct (separator_between (c := user) (ExtractUserKey a) (ExtractUserKey c) Logic.I Logic.I Hult) as (_ & _ & Hsep). fold tmp in Hsep.
    pose proof (compare_le_lt any_key user _ _ _ Logic.I Logic.I Logic.I Hks Hsep). pose proof (ucmp_flip user (ExtractUserKey k) (ExtractUserKey c)). lia.
  - pose proof (icmp_sgn user a k Ha Hk). lia.
Qed.

Lemma run_entries us N : run_ok user us → (length us ≤ N)%nat → ∀ o, Table.comparator o = internal_comparator user → entries_ok ikey_ok o N (map row us).
Proof.
  intros [Hs _] HN o Ho. unfold entries_ok. rewrite Ho, length_map. split; [exact Hs|]. split; [|done]. intros e (u & -> & _)%list_elem_of_fmap. apply ikey_ok_ikey.
Qed.

(** Metadata with the first and the last key of a run. *)
Lemma run_holds us contents f : run_ok user us → us ≠ [] → contents f = us → Some (smallest f) = head (map fst (map row us)) → Some (largest f) = last (map fst (map row us)) →
  file_holds user contents f.
Proof.
  intros Hr Hne Ec Hh Hl. assert (∃ i u, us !! i = Some u ∧ largest f = upd_ikey u ∧ i = pred (length us)) as (i & z & Hz & Ez & Ei).
  { rewrite !fmap_last in Hl. destruct (last us) as [u|] eqn:El; [|by apply last_None in El]. cbn in Hl. injection Hl as Hl. rewrite last_lookup in El. by exists (pred (length us)), u. }
  destruct us as [|a us']; [done|]. cbn in Hh. injection Hh as Hh. set (us := a :: us') in *.
  assert (∀ u, u ∈ us → icmp (upd_ikey a) (upd_ikey u) ≤ 0) as Hmin.
  { intros u [j Hj]%list_elem_of_lookup. destruct j as [|j]; [injection Hj as <-; pose proof (icmp_sgn user (upd_ikey a) (upd_ikey a) ltac:(apply ikey_ok_ikey) ltac:(apply ikey_ok_ikey)); lia|].
    apply Z.lt_le_incl, (run_later user us a u 0 (S j) Hr); [lia | done | done]. }
  assert (∀ u, u ∈ us → icmp (upd_ikey u) (upd_ikey z) ≤ 0) as Hmax.
  { intros u [j Hj]%list_elem_of_lookup. destruct (decide (j = i)) as [->|Hji]; [rewrite Hz in Hj; injection Hj as <-; pose proof (icmp_sgn user (upd_ikey z) (upd_ikey z) ltac:(apply ikey_ok_ikey) ltac:(apply ikey_ok_ikey)); lia|].
    apply Z.lt_le_incl, (run_later user us u z j i Hr); [apply lookup_lt_Some in Hj; lia | done | done]. }
  assert (z ∈ us) as Hin by (by eapply list_elem_of_lookup_2). split; rewrite ?Ec; [done | | |].
  - unfold range_ok. rewrite Hh, Ez. split; [apply ikey_ok_ikey|]. split; [apply ikey_ok_ikey|]. by apply Hmin.
  - intros u Hu. rewrite Hh, Ez. split; [by apply Hmin | by apply Hmax].
  - by exists z.
Qed.
End database.

(** ** Properties *)

Section properties.
Context (addr : list byte → Z) (Haddr : addr_ok addr) (Snappy_Compress : list byte → option (list byte)) (Snappy_GetUncompressedLength : list byte → option Z)
  (Snappy_Uncompress : list byte → option (list byte)) `{HS : !SnappyLaws Snappy_Compress Snappy_GetUncompressedLength Snappy_Uncompress}
  (fresh : Z → list byte) (Hfresh : ∀ n, 0 ≤ n → blen (fresh n) = n).
Context (dbname : list byte) (user : Comparator) `{Huser : !ComparatorLaws any_key user}.
(** The user's filter policy; keys that are equal for the comparator are equal for it. *)
Context (policy : option (FilterPolicy * list byte)) (N : nat) (size_ok : list (list byte) → Prop)
  (Hpolicy : match policy with
   | None => True
   | Some (p, _) => FilterLaws size_ok p ∧ (∀ l, (length l ≤ N)%nat → size_ok l) ∧ ∀ a b fl, Compare user a b = 0 → KeyMayMatch p a fl = KeyMayMatch p b fl
   end).
Context (block_size interval compression : Z) (paranoid : bool) (Hint : 1 ≤ interval) (Hcomp : compression = kNoCompression ∨ compression = kSnappyCompression).
Context {E W R : Type} (env : EnvOps E W R) (NewRandomAccessFile : list byte → E → E * (status + RandomAccessFile))
  (linked : E → list byte → W → Prop) (data : E → W → list byte) `{HE : !TableEnv env NewRandomAccessFile linked data}.
#[local] Notation icmp := (InternalKeyComparator.Compare user).
#[local] Notation o := (TableCache.table_options user policy paranoid).
#[local] Notation wo := (TableCache.builder_options user policy block_size interval compression).
#[local] Notation name_of n := (MakeFileName dbname n (str "ldb")).
#[local] Notation on_disk := (on_disk Snappy_GetUncompressedLength Snappy_Uncompress dbname o linked data).
#[local] Notation tables_ok := (tables_ok addr Snappy_GetUncompressedLength Snappy_Uncompress fresh o).
(** [TableCache::Get] as a version calls it. *)
#[local] Notation table_get blocks ro id c e := (λ n size t, r ← TableCache.Get addr Snappy_GetUncompressedLength Snappy_Uncompress fresh dbname o NewRandomAccessFile blocks ro n size id t c e; Ok r.2).

Lemma internal_policy_ok : match Table.filter_policy o with
  | None => True
  | Some (p, _) => FilterLaws (λ keys, size_ok (map ExtractUserKey keys)) p ∧ ∀ l, (length l ≤ N)%nat → size_ok (map ExtractUserKey l)
  end.
Proof.
  destruct policy as [[p name]|]; [|done]. destruct Hpolicy as (HF & Hl & _). cbn. split; [by apply internal_filter_laws|]. intros l Hlen. apply Hl. by rewrite length_map.
Qed.

(** A table on disk is read as the version expects. *)
Lemma disk_reads stored blocks ro id c e us contents f : tables_ok stored blocks c → 0 < number f → is_u64 (number f) → stored (number f) = Some (map row us) →
  on_disk e (number f) (file_size f) (map row us) → new_cache_id blocks id → run_ok user us → (length us ≤ N)%nat → contents f = us →
  TableReads user contents (table_get blocks ro id c e) f.
Proof.
  intros Hc Hn Hu Hst Hd Hid Hrun HN Ec t [Ht _]. cbv zeta. rewrite Ec.
  destruct (cached_get_spec addr Haddr Snappy_GetUncompressedLength Snappy_Uncompress fresh Hfresh dbname ikey_ok o N (λ keys, size_ok (map ExtractUserKey keys)) internal_policy_ok env NewRandomAccessFile linked data
    (λ a b, Compare user (ExtractUserKey a) (ExtractUserKey b) = 0)) with (stored := stored) (blocks := blocks) (ro := ro) (c := c) (e := e) (n := number f) (size := file_size f) (id := id) (es := map row us) (k := t)
    as (e' & c' & r & -> & Hr & _); try done.
  - intros p name. destruct policy as [[p0 name0]|]; [|done]. intros [= <- <-] a k fl Hs. destruct Hpolicy as (_ & _ & Hp). cbn. by apply Hp.
  - intros a c0 k Ha Hc0 Hk. apply (separator_same user a c0 k Ha Hc0 Hk).
  - by apply (run_entries user us N Hrun HN o).
  - cbn [mbind outcome_bind snd]. exists r. split; [done|]. destruct r as [x|]; exact Hr.
Qed.

(** C9: A table that was built is read back.  Whatever writes fail, [BuildTable] on an
    iterator of a sorted run of updates returns and changes no other file.  If it reports
    OK and the run is not empty, the metadata describe the run, the file is in place, and
    a lookup through the table cache answers as a version expects of a file with these
    updates, now and as long as the file is there, from the file or from the cache; if it
    fails, or the run is empty, the file is removed. *)
Theorem build_table_reads {T} (iter : IteratorOps T) (us : list upd) (starget : list byte → Prop) (shows : T → nat → Prop)
    (HI : CursorLaws iter icmp starget (map row us) shows) (Hrun : run_ok user us) (HN : (length us ≤ N)%nat)
    (stored : Z → option (list entry)) (blocks : option (list byte → option Block.block)) (id : Z) (Hid : new_cache_id blocks id)
    (fuel : nat) (Hfuel : (length us ≤ fuel)%nat) (it : T) (p : nat) (Hit : shows it p)
    (m : FileMetaData) (Hn : 0 < number m) (Hu : is_u64 (number m)) (Hst : stored (number m) = Some (map row us))
    (c : tables) (Hc : tables_ok stored blocks c) (e : E) :
  ∃ e' c' m' s, BuildTable addr Snappy_Compress Snappy_GetUncompressedLength Snappy_Uncompress fresh dbname wo o env NewRandomAccessFile iter fuel it m id c e = Ok (e', c', m', s) ∧
    others_kept linked data (name_of (number m)) e e' ∧ tables_ok stored blocks c' ∧ number m' = number m ∧
    (us = [] → s = status_ok ∧ file_size m' = 0) ∧ (ok s = false ∨ us = [] → table_discarded env (name_of (number m)) e e' s) ∧
    (ok s = true → us ≠ [] → 0 < file_size m' ∧ on_disk e' (number m) (file_size m') (map row us) ∧
      ∀ contents, contents m' = us → file_holds user contents m' ∧
        ∀ e2 c2 blocks2 id2 ro, on_disk e2 (number m) (file_size m') (map row us) → tables_ok stored blocks2 c2 → new_cache_id blocks2 id2 →
          TableReads user contents (table_get blocks2 ro id2 c2 e2) m').
Proof.
  assert (policy_ok wo N (λ keys, size_ok (map ExtractUserKey keys))) as Hpol by exact internal_policy_ok.
  destruct (BuildTable_spec addr Haddr Snappy_Compress Snappy_GetUncompressedLength Snappy_Uncompress fresh Hfresh dbname ikey_ok wo o eq_refl eq_refl Hint Hcomp N _ Hpol env NewRandomAccessFile linked data
    iter (map row us) starget shows HI (run_entries user us N Hrun HN o eq_refl) stored blocks id Hid fuel it p m c e Hit ltac:(by rewrite length_map) Hn Hu Hst Hc)
    as (e' & c' & m' & s & E0 & Hoth & Hc' & Hnum & [Hempty Hbuilt] & Hdis).
  exists e', c', m', s. split; [exact E0|]. split; [done|]. split; [done|]. split; [done|]. split; [intros ->; by apply Hempty|]. split; [intros [?| ->]; apply Hdis; auto|].
  intros Hs Hne. destruct (Hbuilt ltac:(by destruct us) Hs) as (Hh & Hl & Hpos & Hd%made_is_on_disk). split; [done|]. split; [done|]. intros contents Ec.
  split; [by apply (run_holds user us contents m')|]. intros e2 c2 blocks2 id2 ro Hd2 Hc2 Hid2. rewrite <- Hnum in *. by apply (disk_reads stored blocks2 ro id2 c2 e2 us contents m').
Qed.
End properties.

(** *** Examples *)

(** A file system whose files stay shorter than 4 GiB. *)
Definition disk_append (w : nat) (d : list byte) (e : Fs.fs) : Fs.fs * status :=
  if blen (Fs.node_data w e ++ d) <? 2 ^ 32 then Env.file_Append Fs.ops w d e else (e, status_err kIOError (str "file too large") []).
Definition disk_ops : EnvOps Fs.fs nat (nat * nat) :=
  mkEnv Fs.fs nat (nat * nat) (NewSequentialFile Fs.ops) (NewWritableFile Fs.ops) (NewAppendableFile Fs.ops) (FileExists Fs.ops) (GetChildren Fs.ops) (DeleteFile Fs.ops)
    (GetFileSize Fs.ops) (RenameFile Fs.ops) disk_append (file_Close Fs.ops) (file_Flush Fs.ops) (file_Sync Fs.ops) (Env.file_Read Fs.ops) (file_Skip Fs.ops).
Definition disk_open (n : list byte) (e : Fs.fs) : Fs.fs * (status + RandomAccessFile) := (e, Fs.with_name n e (λ w, inr (mem_Read (Fs.node_data w e)))).

#[export] Instance disk_env : TableEnv disk_ops disk_open Fs.linked (λ e w, Fs.node_data w e).
Proof.
  split.
  - intros n e e' w E0. destruct (env_writable_ok (EnvLaws := Fs_laws) n e) as (e1 & w1 & E1 & Hl & Hd & Ho). change (NewWritableFile Fs.ops n e = (e', inr w)) in E0. rewrite E1 in E0. injection E0 as <- <-. by split.
  - intros n e e' s. done.
  - intros w d e e' s. cbn. unfold disk_append. destruct (Z.ltb_spec (blen (Fs.node_data w e ++ d)) (2 ^ 32)); intros [= <- <-].
    + destruct (env_append_ok (EnvLaws := Fs_laws) w d e) as (e1 & E1 & Hd & Ho & Hl). cbn in E1. injection E1 as <-. split; [intros n w'; by apply Hl|].
      split; [done|]. rewrite Hd. split; [done|]. intros _. split; [done | lia].
    + split; [done|]. split; [done|]. split; [done|]. done.
  - by intros w e e' s [= <- <-].
  - by intros w e e' s [= <- <-].
  - by intros w e e' s [= <- <-].
  - intros n e e' s. cbn. unfold Fs.linked. destruct (Fs.names e !! n); intros [= <- _] n' w' Hn Hl; [|done]. split; [cbn; by rewrite lookup_delete_ne | done].
  - intros src dst e e' s. cbn. unfold Fs.linked. destruct (Fs.names e !! src); intros [= <- _] n' w' H1 H2 Hl; [|done]. cbn. by rewrite lookup_delete_ne, lookup_insert_ne.
  - intros n w e Hl. unfold disk_open, Fs.with_name. rewrite Hl. eexists _, _. split; [reflexivity|]. split; [apply mem_reads | done].
  - intros n e Hno. unfold disk_open, Fs.with_name. unfold Fs.linked in Hno. destruct (Fs.names e !! n) as [w|]; [by destruct (Hno w)|]. by eexists _, _.
Qed.

Definition demo_run : list upd := [mkUpd 7 kTypeValue (str "k") (str "seven"); mkUpd 3 kTypeValue (str "k") (str "three"); mkUpd 4 kTypeDeletion (str "m") []].
Lemma demo_table_run_ok : run_ok BytewiseComparator demo_run.
Proof.
  split.
  - intros i j x y Hij Hx Hy. do 3 (destruct i as [|i]; [do 3 (destruct j as [|j]; [try lia; injection Hx as <-; injection Hy as <-; vm_compute; reflexivity|]); done|]). done.
  - intros u Hu. unfold demo_run in Hu. rewrite !elem_of_cons, elem_of_nil in Hu. destruct Hu as [->|[->|[->|[]]]]; split; vm_compute; congruence.
Qed.
Lemma demo_user_policy : FilterLaws demo_size (Bloom.policy (Bloom.mkPolicy 10 6)) ∧ (∀ l : list (list byte), (length l ≤ 3)%nat → demo_size l) ∧
  ∀ a b fl, Compare BytewiseComparator a b = 0 → KeyMayMatch (Bloom.policy (Bloom.mkPolicy 10 6)) a fl = KeyMayMatch (Bloom.policy (Bloom.mkPolicy 10 6)) b fl.
Proof.
  split; [apply (bloom_laws 10 (Bloom.mkPolicy 10 6) eq_refl)|]. split; [intros l Hl; unfold demo_size, blen; lia|].
  intros a b fl H. assert (a = b) as ->; [|done]. by apply slice_compare_eq.
Qed.
Definition demo_table_build : outcome (Fs.fs * tables * FileMetaData * status) :=
  BuildTable (λ _, 0) (λ _, None) (λ _, None) (λ _, None) demo_fresh (str "db") (builder_options BytewiseComparator demo_policy 4096 16 kSnappyCompression)
    (table_options BytewiseComparator demo_policy false) disk_ops disk_open (list_cursor (InternalKeyComparator.Compare BytewiseComparator) (map row demo_run)) 3 3%nat
    (new_file 9 0 [] []) 1 ∅ Fs.empty.

Lemma build_table_reads_witness : ∃ e' c' m', demo_table_build = Ok (e', c', m', status_ok) ∧ number m' = 9 ∧
  file_holds BytewiseComparator (λ _, demo_run) m' ∧
  TableReads BytewiseComparator (λ _, demo_run) (λ n size t, r ← TableCache.Get (λ _, 0) (λ _, None) (λ _, None) demo_fresh (str "db") (table_options BytewiseComparator demo_policy false) disk_open None
    (Table.mkReadOptions false true) n size 2 t ∅ e'; Ok r.2) m'.
Proof.
  destruct (build_table_reads (λ _, 0) demo_addr (λ _, None) (λ _, None) (λ _, None) demo_fresh demo_fresh_length (str "db") BytewiseComparator demo_policy 3 demo_size demo_user_policy
    4096 16 kSnappyCompression false ltac:(lia) ltac:(by right) disk_ops disk_open Fs.linked (λ e w, Fs.node_data w e)
    (list_cursor (InternalKeyComparator.Compare BytewiseComparator) (map row demo_run)) demo_run (λ _, True) _ (list_cursor_laws _ _ _) demo_table_run_ok) with
    (stored := λ _ : Z, Some (map row demo_run)) (blocks := @None (list byte → option Block.block)) (id := 1) (fuel := 3%nat) (it := 3%nat) (p := 3%nat) (m := new_file 9 0 [] []) (c := ∅ : tables) (e := Fs.empty)
    as (e' & c' & m' & s & E0 & _ & _ & Hnum & _ & _ & Hok).
  - cbn. lia.
  - done.
  - cbn. lia.
  - split; [reflexivity | cbn; lia].
  - cbn. lia.
  - split; vm_compute; congruence.
  - done.
  - intros n t es _ Ht. by rewrite lookup_empty in Ht.
  - assert (match demo_table_build with Ok (_, _, _, s) => ok s | _ => false end = true) as Hs by (vm_compute; reflexivity). assert (demo_table_build = Ok (e', c', m', s)) as E1 by exact E0. clear E0. rewrite E1 in Hs. cbv iota in Hs.
    destruct (Hok Hs ltac:(done)) as (_ & Hd & Hc). destruct (Hc (λ _, demo_run) eq_refl) as [Hf Hr]. clear Hok Hc.
    exists e', c', m'. split; [unfold ok in Hs; apply bool_decide_eq_true in Hs as ->; exact E1|]. split; [exact Hnum|]. split; [exact Hf|].
    apply (Hr e' ∅ None 2 (Table.mkReadOptions false true) Hd); [|exact I]. intros n t es _ Ht. by rewrite lookup_empty in Ht.
Defined.
