(* ===== verification/VersionBuilder.v ===== *)
(** * db/version_set.cc: applying edits to a version

    [VersionSet::Builder] accumulates a sequence of edits on top of a version and saves
    the result as a new version.  [FileSet] is an [std::set] ordered by [BySmallestKey]:
    the list of its elements in this order.  The counts of references to files and
    versions, which decide when an object is freed, are not modelled.

    The checks that the files of a level do not overlap are compiled only if [NDEBUG] is
    not defined, and the default build defines it: [ndebug] tells which build it is.
    [SaveTo] is the build with the checks, in which a failed check is reported; where it
    succeeds the default build gives the same version ([edit_applied]). *)
From stdpp Require Import gmap.
From S2P Require Import Prelude.
From S2P Require Import Interfaces.
From S2P Require Import Comparator.
From S2P Require Import Dbformat.
From S2P Require Import VersionEdit.
From S2P Require Import Version.
From Stdlib Require Import Sorting.Sorted.
Import Version.

(** ** Definitions *)

Module VersionBuilder.
Section VersionBuilder.
Context (user : Comparator).
#[local] Notation icmp := (InternalKeyComparator.Compare user).

(** [Compare] of two [InternalKey]s. *)
Definition CompareKeys (a b : list byte) : outcome Z :=
  a ← InternalKey.Encode a; b ← InternalKey.Encode b; Ok (icmp a b).
Definition BySmallestKey (f1 f2 : FileMetaData) : outcome bool :=
  r ← CompareKeys (smallest f1) (smallest f2);
  Ok (if negb (r =? 0) then r <? 0 else number f1 <? number f2).

(** [FileSet::insert]: an element that is there already stays. *)
Fixpoint insert_file (f : FileMetaData) (l : list FileMetaData) : outcome (list FileMetaData) :=
  match l with
  | [] => Ok [f]
  | g :: l' =>
      before ← BySmallestKey f g;
      if (before : bool) then Ok (f :: l)
      else
        after ← BySmallestKey g f;
        if (after : bool) then l' ← insert_file f l'; Ok (g :: l') else Ok l
  end.

Record LevelState := mkLevelState { deleted_files : gset Z; added_files : list FileMetaData }.
(** The builder, with the [compact_pointer_] array of its [VersionSet]. *)
Record builder := mkBuilder { base_ : version; levels_ : list LevelState; compact_pointer_ : list (list byte) }.

Definition new (base : version) (compact_pointer : list (list byte)) : builder :=
  mkBuilder base (replicate (Z.to_nat kNumLevels) (mkLevelState ∅ [])) compact_pointer.

(** An access to an element of an array of [kNumLevels] levels. *)
Definition array_at {A} (l : list A) (level : Z) : outcome A :=
  if 0 <=? level then match l !! Z.to_nat level with Some a => Ok a | None => Ub OutOfBounds end else Ub OutOfBounds.

Definition set_pointer (p : Z * list byte) (b : builder) : outcome builder :=
  k ← InternalKey.Encode p.2;
  _ ← array_at (compact_pointer_ b) p.1;
  Ok (mkBuilder (base_ b) (levels_ b) (<[Z.to_nat p.1 := k]> (compact_pointer_ b))).
Definition set_level (level : Z) (l : LevelState) (b : builder) : builder :=
  mkBuilder (base_ b) (<[Z.to_nat level := l]> (levels_ b)) (compact_pointer_ b).
Definition delete_file (p : Z * Z) (b : builder) : outcome builder :=
  l ← array_at (levels_ b) p.1;
  Ok (set_level p.1 (mkLevelState ({[p.2]} ∪ deleted_files l) (added_files l)) b).
Definition seeks_allowed (size : Z) : Z := let n := s32 (size / 16384) in if n <? 100 then 100 else n.
Definition add_file (p : Z * FileMetaData) (b : builder) : outcome builder :=
  l ← array_at (levels_ b) p.1;
  let f := mkFile 1 (seeks_allowed (file_size p.2)) (number p.2) (file_size p.2) (smallest p.2) (largest p.2) in
  added ← insert_file f (added_files l);
  Ok (set_level p.1 (mkLevelState (deleted_files l ∖ {[number f]}) added) b).
Definition Apply (edit : VersionEdit.version_edit) (b : builder) : outcome builder :=
  b ← for_loop set_pointer (VersionEdit.compact_pointers_ edit) b;
  b ← for_loop delete_file (VersionEdit.deleted_files_ edit) b;
  for_loop add_file (VersionEdit.new_files_ edit) b.

(** The files of one level of the new version. *)
Definition MaybeAddFile (ndebug : bool) (deleted : gset Z) (level : nat) (f : FileMetaData) (files : list FileMetaData) : outcome (list FileMetaData) :=
  if bool_decide (number f ∈ deleted) then Ok files
  else
    match last files with
    | Some g => if negb ndebug && bool_decide (0 < level)%nat then r ← CompareKeys (largest g) (smallest f); if r <? 0 then Ok tt else Ub AssertionFailed else Ok tt
    | None => Ok tt
    end ≫= λ _, Ok (files ++ [f]).

(** [std::upper_bound]: the files before the first one that [added] is before. *)
Fixpoint upper_bound (added : FileMetaData) (base : list FileMetaData) : outcome (list FileMetaData * list FileMetaData) :=
  match base with
  | [] => Ok ([], [])
  | f :: base' =>
      b ← BySmallestKey added f;
      if (b : bool) then Ok ([], base) else r ← upper_bound added base'; Ok (f :: r.1, r.2)
  end.
Fixpoint merge_added (ndebug : bool) (deleted : gset Z) (level : nat) (added base files : list FileMetaData) : outcome (list FileMetaData * list FileMetaData) :=
  match added with
  | [] => Ok (base, files)
  | a :: added =>
      r ← upper_bound a base;
      files ← for_loop (MaybeAddFile ndebug deleted level) r.1 files;
      files ← MaybeAddFile ndebug deleted level a files;
      merge_added ndebug deleted level added r.2 files
  end.
(** The check that follows; [abort] is reported like a failed assertion. *)
Fixpoint no_overlap (files : list FileMetaData) : outcome () :=
  match files with
  | f :: ((g :: _) as files') => r ← CompareKeys (largest f) (smallest g); if 0 <=? r then Ub AssertionFailed else no_overlap files'
  | _ => Ok tt
  end.
Definition save_level (ndebug : bool) (b : builder) (level : nat) : outcome (list FileMetaData) :=
  l ← array_at (levels_ b) (Z.of_nat level);
  r ← merge_added ndebug (deleted_files l) level (added_files l) (level_files (base_ b) level) [];
  files ← for_loop (MaybeAddFile ndebug (deleted_files l) level) r.1 r.2;
  _ ← if negb ndebug && bool_decide (0 < level)%nat then no_overlap files else Ok tt;
  Ok files.
Definition SaveTo_build (ndebug : bool) (b : builder) : outcome version :=
  files ← for_loop (λ level files, f ← save_level ndebug b level; Ok (files ++ [f])) (seq 0 (Z.to_nat kNumLevels)) [];
  Ok (new_version files).
Definition SaveTo (b : builder) : outcome version := SaveTo_build false b.

End VersionBuilder.
End VersionBuilder.

Import VersionBuilder.

(** ** Lemmas *)

Section proof.
Context (user : Comparator) `{Huser : !ComparatorLaws any_key user}.
#[local] Notation icmp := (InternalKeyComparator.Compare user).

(** *** The order of files *)

Definition Rfile (f g : FileMetaData) : Prop := icmp (smallest f) (smallest g) < 0 ∨ icmp (smallest f) (smallest g) = 0 ∧ number f < number g.
#[export] Instance Rfile_dec f g : Decision (Rfile f g) := decide (_ ∨ _).

Lemma CompareKeys_ok a b : ikey_ok a → ikey_ok b → CompareKeys user a b = Ok (icmp a b).
Proof. intros Ha Hb. unfold CompareKeys. by rewrite !Encode_ok. Qed.
Lemma BySmallestKey_ok f g : range_ok user f → range_ok user g → BySmallestKey user f g = Ok (bool_decide (Rfile f g)).
Proof.
  intros (Hf & _) (Hg & _). unfold BySmallestKey. rewrite CompareKeys_ok by done. cbn [mbind outcome_bind]. f_equal. unfold Rfile.
  destruct (Z.eqb_spec (icmp (smallest f) (smallest g)) 0); cbn [negb];
    [destruct (Z.ltb_spec (number f) (number g)) | destruct (Z.ltb_spec (icmp (smallest f) (smallest g)) 0)]; symmetry;
    first [apply bool_decide_eq_true; lia | apply bool_decide_eq_false; lia].
Qed.

Lemma ikey_cmp_sgn a b : ikey_ok a → ikey_ok b → Z.sgn (icmp b a) = - Z.sgn (icmp a b).
Proof. intros. by apply (compare_sgn (valid := ikey_ok) (c := internal_comparator user)). Qed.

Lemma Rfile_trans f g h : range_ok user f → range_ok user g → range_ok user h → Rfile f g → Rfile g h → Rfile f h.
Proof.
  intros (Hf & _) (Hg & _) (Hh & _). pose proof (ikey_cmp_sgn (smallest f) (smallest g) Hf Hg). pose proof (ikey_cmp_sgn (smallest g) (smallest h) Hg Hh). pose proof (ikey_cmp_sgn (smallest f) (smallest h) Hf Hh).
  assert (∀ a b c, ikey_ok a → ikey_ok b → ikey_ok c → icmp a b ≤ 0 → icmp b c ≤ 0 → icmp a c ≤ 0) as Ht by (intros; by apply (compare_trans (valid := ikey_ok) (c := internal_comparator user) a b c)).
  pose proof (Ht (smallest f) (smallest g) (smallest h) Hf Hg Hh). pose proof (Ht (smallest h) (smallest g) (smallest f) Hh Hg Hf). pose proof (Ht (smallest g) (smallest h) (smallest f) Hg Hh Hf). pose proof (Ht (smallest h) (smallest f) (smallest g) Hh Hf Hg).
  unfold Rfile. intros [?|[? ?]] [?|[? ?]]; [left|left|left|]; lia.
Qed.
Lemma Rfile_irrefl f g : range_ok user f → Rfile f g → number f = number g → smallest f = smallest g → False.
Proof. intros (Hf & _) [H|[_ H]] E1 E2; [|lia]. rewrite <- E2 in H. pose proof (ikey_cmp_sgn (smallest f) (smallest f) Hf Hf). lia. Qed.
Lemma Rfile_total f g : range_ok user f → range_ok user g → number f ≠ number g → ¬ Rfile f g → Rfile g f.
Proof. intros (Hf & _) (Hg & _) Hn Hr. unfold Rfile in *. pose proof (ikey_cmp_sgn (smallest f) (smallest g) Hf Hg). destruct (decide (icmp (smallest f) (smallest g) = 0)); lia. Qed.
Lemma Rfile_asym f g : range_ok user f → range_ok user g → Rfile f g → Rfile g f → False.
Proof. intros Hf Hg H1 H2. pose proof (Rfile_trans f g f Hf Hg Hf H1 H2) as H. by apply (Rfile_irrefl f f). Qed.

(** A level as the versions keep it: sorted, with distinct numbers. *)
Definition ranges_ok (l : list FileMetaData) : Prop := ∀ f, f ∈ l → range_ok user f.
#[local] Notation sorted := (StronglySorted Rfile).

Lemma sorted_app l k : sorted (l ++ k) ↔ sorted l ∧ sorted k ∧ ∀ f g, f ∈ l → g ∈ k → Rfile f g.
Proof.
  induction l as [|x l IH]; cbn.
  - split; [intros H; split; [constructor|]; split; [done|]; by intros f g ?%elem_of_nil | tauto].
  - split.
    + intros H. apply StronglySorted_inv in H as [H Hx]. apply IH in H as (H1 & H2 & H3). rewrite Forall_forall in Hx. split; [constructor; [done|]; apply Forall_forall; intros y Hy; apply Hx, elem_of_app; by left|].
      split; [done|]. intros f g [->|Hf]%elem_of_cons Hg; [apply Hx, elem_of_app; by right | by apply H3].
    + intros (H1 & H2 & H3). apply StronglySorted_inv in H1 as [H1 Hx]. constructor; [apply IH; split; [done|]; split; [done|]; intros f g Hf; apply H3; by right|].
      apply Forall_app. split; [done|]. apply Forall_forall. intros y Hy. apply H3; [by left | done].
Qed.

(** Two sorted lists with the same files are equal. *)
Lemma sorted_unique l k : ranges_ok l → sorted l → sorted k → (∀ f, f ∈ l ↔ f ∈ k) → l = k.
Proof.
  revert k. induction l as [|x l IH]; intros k Hok Hl Hk Heq.
  - destruct k as [|y k]; [done|]. exfalso. apply (elem_of_nil y), Heq. by left.
  - destruct k as [|y k]; [exfalso; apply (elem_of_nil x), Heq; by left|].
    apply StronglySorted_inv in Hl as [Hl Hx], Hk as [Hk Hy]. rewrite Forall_forall in Hx, Hy.
    assert (ranges_ok (y :: k)) as Hok' by (intros f Hf; by apply Hok, Heq).
    assert (x = y) as ->.
    { assert (x ∈ y :: k) as [->|H1]%elem_of_cons by (apply Heq; by left); [done|]. assert (y ∈ x :: l) as [->|H2]%elem_of_cons by (apply Heq; by left); [done|].
      destruct (Rfile_asym x y); [apply Hok; by left | apply Hok'; by left | by apply Hx | by apply Hy]. }
    f_equal. apply IH; [intros f Hf; apply Hok; by right | done | done|]. intros f. assert (∀ m : list FileMetaData, (∀ z, z ∈ m → Rfile y z) → f ∈ m → f ≠ y) as Hne.
    { intros m Hm Hf ->. apply (Rfile_asym y y); [apply Hok; by left | apply Hok; by left | by apply Hm | by apply Hm]. }
    specialize (Heq f). rewrite !elem_of_cons in Heq. split; intros Hf; [destruct (proj1 Heq (or_intror Hf)) as [->|?] | destruct (proj2 Heq (or_intror Hf)) as [->|?]]; try done;
      [by destruct (Hne l Hx Hf) | by destruct (Hne k Hy Hf)].
Qed.

(** *** The set of added files *)

Lemma insert_file_spec f l : range_ok user f → ranges_ok l → sorted l → (∀ g, g ∈ l → number g ≠ number f) →
  ∃ l', insert_file user f l = Ok l' ∧ sorted l' ∧ ∀ g, g ∈ l' ↔ g = f ∨ g ∈ l.
Proof.
  intros Hf. induction l as [|g l IH]; intros Hok Hs Hn; cbn [insert_file].
  { exists [f]. split; [done|]. split; [by constructor; [constructor|]|]. intros g. rewrite elem_of_cons. done. }
  assert (range_ok user g) as Hg by (apply Hok; by left). rewrite !BySmallestKey_ok by done. cbn [mbind outcome_bind].
  case_bool_decide as H1.
  - exists (f :: g :: l). split; [done|]. split; [|intros h; by rewrite elem_of_cons]. constructor; [done|]. apply Forall_forall. intros h [->|Hh]%elem_of_cons; [done|].
    apply StronglySorted_inv in Hs as [_ Hs]. rewrite Forall_forall in Hs. apply (Rfile_trans f g h); [done | done | apply Hok; by right | done | by apply Hs].
  - assert (Rfile g f) as H2 by (apply Rfile_total; [done | done | | done]; intros E; by apply (Hn g); [left|]). rewrite bool_decide_true by done.
    apply StronglySorted_inv in Hs as [Hs Hgl]. destruct IH as (l' & -> & Hs' & Hin); [intros h Hh; apply Hok; by right | done | intros h Hh; apply Hn; by right|].
    cbn [mbind outcome_bind]. exists (g :: l'). split; [done|]. split; [|intros h; rewrite !elem_of_cons, Hin; tauto].
    constructor; [done|]. apply Forall_forall. rewrite Forall_forall in Hgl. intros h [->|Hh]%Hin; [done | by apply Hgl].
Qed.

(** *** Merging *)

Fixpoint split_files (a : FileMetaData) (base : list FileMetaData) : list FileMetaData * list FileMetaData :=
  match base with
  | [] => ([], [])
  | f :: base' => if decide (Rfile a f) then ([], base) else let r := split_files a base' in (f :: r.1, r.2)
  end.
Fixpoint merge_files (added base : list FileMetaData) : list FileMetaData :=
  match added with [] => base | a :: added => let r := split_files a base in r.1 ++ a :: merge_files added r.2 end.

Lemma split_files_app a base : (split_files a base).1 ++ (split_files a base).2 = base.
Proof. induction base as [|f base IH]; [done|]. cbn. case_decide; [done|]. cbn. by rewrite IH. Qed.
Lemma split_files_elem a base f : f ∈ base ↔ f ∈ (split_files a base).1 ∨ f ∈ (split_files a base).2.
Proof. rewrite <- elem_of_app. by rewrite split_files_app. Qed.
Lemma upper_bound_spec a base : range_ok user a → ranges_ok base → upper_bound user a base = Ok (split_files a base).
Proof.
  intros Ha. induction base as [|f base IH]; intros Hok; [done|]. cbn. rewrite BySmallestKey_ok by (done || (apply Hok; by left)). cbn [mbind outcome_bind].
  rewrite IH by (intros g Hg; apply Hok; by right). unfold bool_decide. by destruct (Rfile_dec a f).
Qed.
Lemma split_files_sorted a base : range_ok user a → ranges_ok base → sorted base → (∀ g, g ∈ base → number g ≠ number a) →
  (∀ f, f ∈ (split_files a base).1 → Rfile f a) ∧ (∀ f, f ∈ (split_files a base).2 → Rfile a f).
Proof.
  intros Ha. induction base as [|f base IH]; intros Hok Hs Hn; cbn; [by split; intros ? ?%elem_of_nil|].
  assert (range_ok user f) as Hf by (apply Hok; by left). apply StronglySorted_inv in Hs as [Hs Hfb]. rewrite Forall_forall in Hfb. case_decide as H; cbn.
  - split; [by intros ? ?%elem_of_nil|]. intros g [->|Hg]%elem_of_cons; [done|]. apply (Rfile_trans a f g); [done | done | apply Hok; by right | done | by apply Hfb].
  - destruct IH as [H1 H2]; [intros g Hg; apply Hok; by right | done | intros g Hg; apply Hn; by right|]. split; [|done].
    intros g [->|Hg]%elem_of_cons; [|by apply H1]. apply Rfile_total; [done | done | | done]. intros E. by apply (Hn f); [left|].
Qed.

Lemma merge_files_elem f added : ∀ base, f ∈ merge_files added base ↔ f ∈ added ∨ f ∈ base.
Proof.
  induction added as [|a added IH]; intros base; cbn; [split; [by right | by intros [?%elem_of_nil|]]|].
  rewrite elem_of_app, !elem_of_cons, IH. rewrite (split_files_elem a base f). tauto.
Qed.
Lemma merge_files_sorted added : ∀ base, ranges_ok added → ranges_ok base → sorted added → sorted base →
  (∀ f g, f ∈ added → g ∈ base → number g ≠ number f) → sorted (merge_files added base).
Proof.
  induction added as [|a added IH]; intros base Ha Hb Hsa Hsb Hn; [done|]. cbn [merge_files]. apply StronglySorted_inv in Hsa as [Hsa Haa]. rewrite Forall_forall in Haa.
  assert (range_ok user a) as Hra by (apply Ha; by left).
  destruct (split_files_sorted a base Hra Hb Hsb) as [H1 H2]; [intros g Hg; apply Hn; [by left | done]|].
  pose proof (split_files_app a base) as Eb. rewrite <- Eb in Hsb. apply sorted_app in Hsb as (Hs1 & Hs2 & H12).
  assert (∀ f, f ∈ (split_files a base).2 → f ∈ base) as Hin2 by (intros f Hf; apply (split_files_elem a); by right).
  assert (∀ f, f ∈ merge_files added (split_files a base).2 → Rfile a f) as Ham by (intros f [Hf|Hf]%merge_files_elem; [by apply Haa | by apply H2]).
  apply sorted_app. split; [done|]. split.
  - constructor; [|by apply Forall_forall]. apply IH; [intros f Hf; apply Ha; by right | intros f Hf; by apply Hb, Hin2 | done | done|].
    intros f g Hf Hg. apply Hn; [by right | by apply Hin2].
  - intros f g Hf [->|Hg]%elem_of_cons; [by apply H1|]. assert (range_ok user f) by (apply Hb, (split_files_elem a); by left).
    apply (Rfile_trans f a g); [done | done | | by apply H1 | by apply Ham].
    apply merge_files_elem in Hg as [Hg|Hg]; [apply Ha; by right | by apply Hb, Hin2].
Qed.

(** *** Saving a level *)

Fixpoint chain (files : list FileMetaData) : bool :=
  match files with f :: ((g :: _) as files') => (icmp (largest f) (smallest g) <? 0) && chain files' | _ => true end.
Definition ordered (level : nat) (files : list FileMetaData) : bool := bool_decide (level = 0%nat) || chain files.
Definition checked (level : nat) (files : list FileMetaData) : outcome (list FileMetaData) := if ordered level files then Ok files else Ub AssertionFailed.
Definition kept (deleted : gset Z) (files : list FileMetaData) : list FileMetaData := filter (λ f, number f ∉ deleted) files.

Lemma files_chain_snoc files f : chain (files ++ [f]) = chain files && match last files with Some g => icmp (largest g) (smallest f) <? 0 | None => true end.
Proof.
  induction files as [|x [|y files] IH]; [done | cbn; by rewrite andb_comm|]. change (last (x :: y :: files)) with (last (y :: files)). cbn [app chain] in *. rewrite IH. by rewrite andb_assoc.
Qed.
Lemma chain_app_false l k : chain l = false → chain (l ++ k) = false.
Proof.
  induction l as [|x [|y l] IH]; [done | done|]. cbn [app chain]. intros H. apply andb_false_iff in H as [->|H]; [done|]. apply andb_false_iff. right. by apply IH.
Qed.
Lemma no_overlap_spec files : ranges_ok files → no_overlap user files = if chain files then Ok tt else Ub AssertionFailed.
Proof.
  induction files as [|f [|g files] IH]; intros Hok; [done | done|]. cbn [no_overlap chain].
  destruct (Hok f) as (_ & H1 & _); [by left|]. destruct (Hok g) as (H2 & _); [right; by left|]. rewrite CompareKeys_ok by done. cbn [mbind outcome_bind].
  destruct (Z.leb_spec 0 (icmp (largest f) (smallest g))); destruct (Z.ltb_spec (icmp (largest f) (smallest g)) 0); try lia; [done|]. cbn [andb]. apply IH. intros h Hh. apply Hok. by right.
Qed.

Lemma ordered_app_false level l k : ordered level l = false → ordered level (l ++ k) = false.
Proof. unfold ordered. intros [-> H]%orb_false_iff. by rewrite chain_app_false. Qed.
Lemma checked_app level l k : ordered level l = false → checked level (l ++ k) = Ub AssertionFailed.
Proof. intros H. unfold checked. by rewrite ordered_app_false. Qed.
Lemma checked_ok level l : ordered level l = true → checked level l = Ok l.
Proof. intros H. unfold checked. by rewrite H. Qed.
Lemma kept_cons deleted f l : kept deleted (f :: l) = (if bool_decide (number f ∈ deleted) then [] else [f]) ++ kept deleted l.
Proof. unfold kept. rewrite filter_cons. case_bool_decide; destruct (decide (number f ∉ deleted)); done. Qed.
Lemma kept_app deleted l k : kept deleted (l ++ k) = kept deleted l ++ kept deleted k.
Proof. apply filter_app. Qed.
Lemma elem_of_kept f deleted l : f ∈ kept deleted l ↔ f ∈ l ∧ number f ∉ deleted.
Proof. unfold kept. rewrite list_elem_of_filter. tauto. Qed.

Lemma MaybeAddFile_spec deleted level f files : range_ok user f → ranges_ok files → ordered level files = true →
  MaybeAddFile user false deleted level f files = checked level (files ++ if bool_decide (number f ∈ deleted) then [] else [f]).
Proof.
  intros Hf Hok Ho. unfold MaybeAddFile. case_bool_decide; [by rewrite app_nil_r, checked_ok|].
  unfold ordered in Ho. unfold checked, ordered. rewrite files_chain_snoc. apply orb_true_iff in Ho.
  destruct (last files) as [g|] eqn:El; [|by destruct Ho as [->| ->]; [|rewrite orb_true_r]].
  assert (range_ok user g) as (_ & Hg & _). { apply Hok. rewrite last_lookup in El. by eapply list_elem_of_lookup_2. }
  destruct Hf as (Hf & _). rewrite CompareKeys_ok by done. cbn [mbind outcome_bind]. destruct level as [|level]; [done|].
  rewrite bool_decide_true by lia. cbn [negb andb]. destruct Ho as [Ho|Ho]; [done|]. rewrite Ho. rewrite bool_decide_false by done. cbn [orb andb]. by destruct (_ <? 0).
Qed.
Lemma ranges_ok_app l k : ranges_ok (l ++ k) ↔ ranges_ok l ∧ ranges_ok k.
Proof. unfold ranges_ok. setoid_rewrite elem_of_app. naive_solver. Qed.
Lemma ranges_ok_kept deleted l : ranges_ok l → ranges_ok (kept deleted l).
Proof. intros H f [Hf _]%elem_of_kept. by apply H. Qed.
Lemma ranges_ok_sub l k : ranges_ok l → (∀ f, f ∈ k → f ∈ l) → ranges_ok k.
Proof. intros H Hs f Hf. by apply H, Hs. Qed.

Lemma maybe_add_all deleted level l : ∀ files, ranges_ok l → ranges_ok files → ordered level files = true →
  for_loop (MaybeAddFile user false deleted level) l files = checked level (files ++ kept deleted l).
Proof.
  induction l as [|f l IH]; intros files Hl Hf Ho; cbn [for_loop]; [by rewrite app_nil_r, checked_ok|].
  assert (range_ok user f) as Hrf by (apply Hl; by left). rewrite MaybeAddFile_spec by done. rewrite kept_cons, app_assoc. unfold checked at 1.
  destruct (ordered level (files ++ _)) eqn:E; [|by rewrite checked_app]. cbn [mbind outcome_bind]. apply IH; [intros g Hg; apply Hl; by right | | done].
  apply ranges_ok_app. split; [done|]. case_bool_decide; intros g Hg; [by apply elem_of_nil in Hg | by apply list_elem_of_singleton in Hg as ->].
Qed.

Lemma merge_added_spec deleted level added : ∀ base files, ranges_ok added → ranges_ok base → ranges_ok files → ordered level files = true →
  (r ← merge_added user false deleted level added base files; for_loop (MaybeAddFile user false deleted level) r.1 r.2) =
    checked level (files ++ kept deleted (merge_files added base)).
Proof.
  induction added as [|a added IH]; intros base files Ha Hb Hf Ho; cbn [merge_added merge_files].
  { cbn [mbind outcome_bind fst snd]. by apply maybe_add_all. }
  assert (range_ok user a) as Hra by (apply Ha; by left). rewrite upper_bound_spec by done. cbn [mbind outcome_bind].
  assert (ranges_ok (split_files a base).1 ∧ ranges_ok (split_files a base).2) as [H1 H2] by (split; apply (ranges_ok_sub base _ Hb); intros f Hf'; apply (split_files_elem a); auto).
  rewrite maybe_add_all by done. rewrite kept_app, kept_cons. rewrite (app_assoc files). unfold checked at 1.
  destruct (ordered level (files ++ kept deleted (split_files a base).1)) eqn:E1; [|cbn [mbind outcome_bind]; by rewrite checked_app]. cbn [mbind outcome_bind].
  assert (ranges_ok (files ++ kept deleted (split_files a base).1)) as Hf1 by (apply ranges_ok_app; split; [done | by apply ranges_ok_kept]).
  rewrite MaybeAddFile_spec by done. rewrite (app_assoc (files ++ _)). unfold checked at 1.
  destruct (ordered level ((files ++ _) ++ _)) eqn:E2; [|cbn [mbind outcome_bind]; by rewrite checked_app]. cbn [mbind outcome_bind].
  apply IH; [intros f Hf'; apply Ha; by right | done | | done]. apply ranges_ok_app. split; [done|].
  case_bool_decide; intros g Hg; [by apply elem_of_nil in Hg | by apply list_elem_of_singleton in Hg as ->].
Qed.

(** The files of a level of the new version. *)
Definition level_at (b : builder) (level : nat) : LevelState := default (mkLevelState ∅ []) (levels_ b !! level).
Definition saved (b : builder) (level : nat) : list FileMetaData :=
  kept (deleted_files (level_at b level)) (merge_files (added_files (level_at b level)) (level_files (base_ b) level)).

Lemma array_at_ok {A} (l : list A) level a : l !! level = Some a → array_at l (Z.of_nat level) = Ok a.
Proof. intros H. unfold array_at. destruct (Z.leb_spec 0 (Z.of_nat level)); [|lia]. by rewrite Nat2Z.id, H. Qed.

Record builder_ok (b : builder) : Prop := mkBuilderOk {
  bo_levels : length (levels_ b) = Z.to_nat kNumLevels;
  bo_pointers : length (compact_pointer_ b) = Z.to_nat kNumLevels;
  bo_base level : ranges_ok (level_files (base_ b) level) ∧ sorted (level_files (base_ b) level);
  bo_added level : ranges_ok (added_files (level_at b level)) ∧ sorted (added_files (level_at b level));
  bo_numbers level f g : f ∈ added_files (level_at b level) → g ∈ level_files (base_ b) level → number g ≠ number f
}.

Lemma save_level_spec b level : builder_ok b → (level < 7)%nat → save_level user false b level = checked level (saved b level).
Proof.
  intros [H1 _ H3 H4 H5] Hl. unfold save_level. destruct (lookup_lt_is_Some_2 (levels_ b) level) as [l El]; [rewrite H1; done|].
  rewrite (array_at_ok _ _ _ El). cbn [mbind outcome_bind]. assert (level_at b level = l) as Ela by (unfold level_at; by rewrite El).
  destruct (H3 level) as [Hb _], (H4 level) as [Ha _]. rewrite Ela in Ha. unfold saved. rewrite Ela.
  assert (ordered level [] = true) as Hnil by (unfold ordered; by rewrite orb_true_r). assert (ranges_ok []) as Hrn by (by intros f ?%elem_of_nil).
  pose proof (merge_added_spec (deleted_files l) level (added_files l) (level_files (base_ b) level) [] Ha Hb Hrn Hnil) as Hm. cbn [app] in Hm.
  destruct (merge_added _ _ _ _ _ _ _) as [r| | |] eqn:E; cbn [mbind outcome_bind] in Hm |- *; try (rewrite <- Hm; done).
  rewrite Hm. unfold checked. destruct (ordered level (kept _ _)) eqn:Eo; [|done]. cbn [mbind outcome_bind].
  destruct level as [|level]; [done|]. rewrite bool_decide_true by lia. cbn [negb andb]. rewrite no_overlap_spec.
  - unfold ordered in Eo. rewrite bool_decide_false in Eo by done. cbn [orb] in Eo. by rewrite Eo.
  - apply ranges_ok_kept. intros f [Hf|Hf]%merge_files_elem; [by apply Ha | by apply Hb].
Qed.

Lemma elem_of_saved b level f : f ∈ saved b level ↔ (f ∈ added_files (level_at b level) ∨ f ∈ level_files (base_ b) level) ∧ number f ∉ deleted_files (level_at b level).
Proof. unfold saved. by rewrite elem_of_kept, merge_files_elem. Qed.
Lemma saved_ranges b level : builder_ok b → ranges_ok (saved b level).
Proof. intros [_ _ H3 H4 _]. intros f [[Hf|Hf] _]%elem_of_saved; [by apply (H4 level) | by apply (H3 level)]. Qed.
Lemma StronglySorted_filter (P : FileMetaData → Prop) `{!∀ x, Decision (P x)} l : sorted l → sorted (filter P l).
Proof.
  induction l as [|x l IH]; [done|]. intros [Hl Hx]%StronglySorted_inv. rewrite filter_cons. case_decide; [|by apply IH]. constructor; [by apply IH|].
  apply Forall_forall. rewrite Forall_forall in Hx. intros y [_ Hy]%list_elem_of_filter. by apply Hx.
Qed.
Lemma saved_sorted b level : builder_ok b → sorted (saved b level).
Proof.
  intros [_ _ H3 H4 H5]. unfold saved, kept. apply StronglySorted_filter, merge_files_sorted; [apply H4 | apply H3 | apply H4 | apply H3 | apply H5].
Qed.

Lemma SaveTo_spec b : builder_ok b → SaveTo user b =
  if forallb (λ level, ordered level (saved b level)) (seq 0 7) then Ok (new_version (map (saved b) (seq 0 7))) else Ub AssertionFailed.
Proof.
  intros Hb. unfold SaveTo, SaveTo_build. change (Z.to_nat kNumLevels) with 7%nat.
  assert (∀ n m acc, (m + n = 7)%nat → for_loop (λ level files, f ← save_level user false b level; Ok (files ++ [f])) (seq m n) acc =
    if forallb (λ level, ordered level (saved b level)) (seq m n) then Ok (acc ++ map (saved b) (seq m n)) else Ub AssertionFailed) as H.
  { induction n as [|n IH]; intros m acc Hm; cbn [seq for_loop forallb map]; [by rewrite app_nil_r|]. rewrite save_level_spec by (done || lia). unfold checked.
    destruct (ordered m (saved b m)); [|done]. cbn [mbind outcome_bind andb]. rewrite IH by lia. by rewrite <- app_assoc. }
  rewrite (H 7%nat 0%nat []) by done. by destruct (forallb _ _).
Qed.

(** *** The build without checks *)

Lemma MaybeAddFile_ndebug deleted level f files :
  MaybeAddFile user true deleted level f files = Ok (files ++ if bool_decide (number f ∈ deleted) then [] else [f]).
Proof. unfold MaybeAddFile. case_bool_decide; [by rewrite app_nil_r|]. by destruct (last files). Qed.
Lemma maybe_add_all_ndebug deleted level l : ∀ files, for_loop (MaybeAddFile user true deleted level) l files = Ok (files ++ kept deleted l).
Proof.
  induction l as [|f l IH]; intros files; cbn [for_loop]; [by rewrite app_nil_r|]. rewrite MaybeAddFile_ndebug. cbn [mbind outcome_bind].
  by rewrite IH, kept_cons, app_assoc.
Qed.
Lemma merge_added_ndebug deleted level added : ∀ base files, ranges_ok added → ranges_ok base →
  (r ← merge_added user true deleted level added base files; for_loop (MaybeAddFile user true deleted level) r.1 r.2) = Ok (files ++ kept deleted (merge_files added base)).
Proof.
  induction added as [|a added IH]; intros base files Ha Hb; cbn [merge_added merge_files]; [cbn [mbind outcome_bind fst snd]; apply maybe_add_all_ndebug|].
  rewrite upper_bound_spec by (done || apply Ha; by left). cbn [mbind outcome_bind]. rewrite maybe_add_all_ndebug. cbn [mbind outcome_bind].
  rewrite MaybeAddFile_ndebug. cbn [mbind outcome_bind]. rewrite IH.
  - by rewrite kept_app, kept_cons, !app_assoc.
  - intros f Hf. apply Ha. by right.
  - apply (ranges_ok_sub base _ Hb). intros f Hf. apply (split_files_elem a). auto.
Qed.
Lemma save_level_ndebug b level : builder_ok b → (level < 7)%nat → save_level user true b level = Ok (saved b level).
Proof.
  intros [H1 _ H3 H4 H5] Hl. unfold save_level. destruct (lookup_lt_is_Some_2 (levels_ b) level) as [l El]; [rewrite H1; done|].
  rewrite (array_at_ok _ _ _ El). cbn [mbind outcome_bind]. assert (level_at b level = l) as Ela by (unfold level_at; by rewrite El).
  destruct (H3 level) as [Hb _], (H4 level) as [Ha _]. rewrite Ela in Ha. unfold saved. rewrite Ela.
  pose proof (merge_added_ndebug (deleted_files l) level (added_files l) (level_files (base_ b) level) [] Ha Hb) as Hm. cbn [app] in Hm.
  destruct (merge_added _ _ _ _ _ _ _) as [r| | |] eqn:E; cbn [mbind outcome_bind] in Hm |- *; try done. by rewrite Hm.
Qed.
Lemma SaveTo_ndebug b : builder_ok b → SaveTo_build user true b = Ok (new_version (map (saved b) (seq 0 7))).
Proof.
  intros Hb. unfold SaveTo_build. change (Z.to_nat kNumLevels) with 7%nat.
  assert (∀ n m acc, (m + n = 7)%nat → for_loop (λ level files, f ← save_level user true b level; Ok (files ++ [f])) (seq m n) acc = Ok (acc ++ map (saved b) (seq m n))) as H.
  { induction n as [|n IH]; intros m acc Hm; cbn [seq for_loop map]; [by rewrite app_nil_r|]. rewrite save_level_ndebug by (done || lia). cbn [mbind outcome_bind].
    rewrite IH by lia. by rewrite <- app_assoc. }
  by rewrite (H 7%nat 0%nat []).
Qed.

(** *** Applying an edit *)

Definition build (f : FileMetaData) : FileMetaData := mkFile 1 (seeks_allowed (file_size f)) (number f) (file_size f) (smallest f) (largest f).
(** The files that an edit adds to a level, and the numbers it deletes from it. *)
Definition new_at (ps : list (Z * FileMetaData)) (level : nat) : list FileMetaData :=
  map (λ p, build p.2) (filter (λ p, p.1 = Z.of_nat level) ps).
Definition pointed (pointers : list (list byte)) (ps : list (Z * list byte)) : list (list byte) :=
  foldl (λ l p, <[Z.to_nat p.1 := p.2]> l) pointers ps.

Record edit_fits (e : VersionEdit.version_edit) : Prop := mkEditFits {
  ef_pointers : Forall (λ p, level_ok p.1 ∧ p.2 ≠ []) (VersionEdit.compact_pointers_ e);
  ef_deleted : Forall (λ p, level_ok p.1) (VersionEdit.deleted_files_ e);
  ef_new : Forall (λ p, level_ok p.1 ∧ range_ok user p.2) (VersionEdit.new_files_ e)
}.

Lemma level_ok_nat z : level_ok z → ∃ level, (level < 7)%nat ∧ z = Z.of_nat level.
Proof. unfold level_ok, kNumLevels. intros H. exists (Z.to_nat z). lia. Qed.
Lemma array_at_ex {A} (l : list A) level : (level < length l)%nat → ∃ a, l !! level = Some a ∧ array_at l (Z.of_nat level) = Ok a.
Proof. intros [a Ha]%lookup_lt_is_Some_2. exists a. split; [done|]. by apply array_at_ok. Qed.
Lemma level_at_set level l b m : (level < length (levels_ b))%nat → level_at (set_level (Z.of_nat level) l b) m = if decide (m = level) then l else level_at b m.
Proof.
  intros Hl. unfold level_at, set_level. cbn. rewrite Nat2Z.id. case_decide as E; [subst; by rewrite list_lookup_insert_eq | by rewrite list_lookup_insert_ne].
Qed.

Lemma set_pointers_spec ps : ∀ b, length (compact_pointer_ b) = 7%nat → Forall (λ p, level_ok p.1 ∧ p.2 ≠ []) ps →
  for_loop set_pointer ps b = Ok (mkBuilder (base_ b) (levels_ b) (pointed (compact_pointer_ b) ps)).
Proof.
  induction ps as [|[z k] ps IH]; intros b Hl Hps; cbn [for_loop]; [by destruct b|]. apply Forall_cons in Hps as [[Hz Hk] Hps]. cbn [fst snd] in *.
  apply level_ok_nat in Hz as (level & Hlt & ->). unfold set_pointer. cbn [fst snd]. unfold InternalKey.Encode. destruct k as [|c k]; [done|]. cbn [mbind outcome_bind].
  destruct (array_at_ex (compact_pointer_ b) level) as (old & _ & ->); [lia|]. cbn [mbind outcome_bind]. rewrite IH; [done | cbn; by rewrite length_insert | done].
Qed.

(** Whatever an edit holds, the pointers move as it says. *)
Lemma Apply_pointers e b b' : Apply user e b = Ok b' → compact_pointer_ b' = pointed (compact_pointer_ b) (VersionEdit.compact_pointers_ e).
Proof.
  assert (∀ ps b b', for_loop set_pointer ps b = Ok b' → compact_pointer_ b' = pointed (compact_pointer_ b) ps) as Hset.
  { induction ps as [|[z k] ps IH]; intros b0 b1; cbn [for_loop]; [by intros [= <-]|]. destruct (set_pointer (z, k) b0) as [b2| | |] eqn:E; try done.
    cbn [mbind outcome_bind]. intros ->%IH. revert E. unfold set_pointer, InternalKey.Encode. cbn [fst snd]. destruct k as [|c k]; [done|]. cbn [mbind outcome_bind].
    destruct (array_at _ z) as [old| | |]; cbn [mbind outcome_bind]; try done. by intros [= <-]. }
  assert (∀ {A} (f : A → builder → outcome builder) ps, (∀ a b b', f a b = Ok b' → compact_pointer_ b' = compact_pointer_ b) →
    ∀ b b', for_loop f ps b = Ok b' → compact_pointer_ b' = compact_pointer_ b) as Hloop.
  { intros A f ps Hf. induction ps as [|a ps IH]; intros b0 b1; cbn [for_loop]; [by intros [= <-]|]. destruct (f a b0) as [b2| | |] eqn:E; try done. cbn [mbind outcome_bind].
    intros ->%IH. by apply (Hf a). }
  unfold Apply. destruct (for_loop set_pointer _ b) as [b1| | |] eqn:E1; try done. cbn [mbind outcome_bind]. destruct (for_loop delete_file _ b1) as [b2| | |] eqn:E2; try done. cbn [mbind outcome_bind].
  intros E3. rewrite <- (Hset _ _ _ E1). transitivity (compact_pointer_ b2).
  - refine (Hloop _ (add_file user) _ _ _ _ E3). intros p c c'. unfold add_file. destruct (array_at _ _) as [l| | |]; try done. cbn [mbind outcome_bind].
    destruct (insert_file _ _ _) as [added| | |]; try done. cbn [mbind outcome_bind]. by intros [= <-].
  - refine (Hloop _ delete_file _ _ _ _ E2). intros p c c'. unfold delete_file. destruct (array_at _ _) as [l| | |]; try done. cbn [mbind outcome_bind]. by intros [= <-].
Qed.

Lemma delete_files_spec ps : ∀ b, length (levels_ b) = 7%nat → Forall (λ p, level_ok p.1) ps → ∃ b', for_loop delete_file ps b = Ok b' ∧
  base_ b' = base_ b ∧ compact_pointer_ b' = compact_pointer_ b ∧ length (levels_ b') = 7%nat ∧ ∀ level, added_files (level_at b' level) = added_files (level_at b level) ∧
    ∀ n, n ∈ deleted_files (level_at b' level) ↔ n ∈ deleted_files (level_at b level) ∨ (Z.of_nat level, n) ∈ ps.
Proof.
  induction ps as [|[z n] ps IH]; intros b Hl Hps; cbn [for_loop].
  { exists b. split_and!; try done. intros level. split; [done|]. intros n. split; [by left | by intros [?|?%elem_of_nil]]. }
  apply Forall_cons in Hps as [Hz Hps]. cbn [fst] in Hz. apply level_ok_nat in Hz as (level & Hlt & ->).
  destruct (array_at_ex (levels_ b) level) as (l & El & Ea); [lia|]. set (b1 := set_level (Z.of_nat level) (mkLevelState ({[n]} ∪ deleted_files l) (added_files l)) b).
  assert (delete_file (Z.of_nat level, n) b = Ok b1) as -> by (unfold delete_file; cbn [fst snd]; by rewrite Ea). cbn [mbind outcome_bind]. assert (∀ m, level_at b1 m = if decide (m = level) then mkLevelState ({[n]} ∪ deleted_files l) (added_files l) else level_at b m) as Hm by (intros m; apply level_at_set; lia).
  assert (level_at b level = l) as Ela by (unfold level_at; by rewrite El).
  destruct (IH b1) as (b' & -> & E1 & E2 & E3 & H); [cbn; by rewrite length_insert | done|]. exists b'. split; [done|]. split; [done|]. split; [done|]. split; [done|].
  intros m. destruct (H m) as [Ha Hd]. rewrite Hm in Ha, Hd. split; [rewrite Ha; case_decide as E; [by subst | done]|].
  intros x. rewrite Hd, elem_of_cons. case_decide as E; [|naive_solver lia]. subst. cbn [deleted_files]. rewrite elem_of_union, elem_of_singleton. naive_solver.
Qed.

Lemma new_at_cons level f ps m : new_at ((Z.of_nat level, f) :: ps) m = (if decide (m = level) then [build f] else []) ++ new_at ps m.
Proof. unfold new_at. rewrite filter_cons. cbn [fst]. case_decide as E1; case_decide as E2; try lia; done. Qed.

Lemma add_files_spec ps : ∀ b, builder_ok b → Forall (λ p, level_ok p.1 ∧ range_ok user p.2) ps →
  (∀ level, NoDup (map number (new_at ps level)) ∧ ∀ f g, f ∈ new_at ps level → g ∈ added_files (level_at b level) ∨ g ∈ level_files (base_ b) level → number g ≠ number f) →
  ∃ b', for_loop (add_file user) ps b = Ok b' ∧ builder_ok b' ∧ base_ b' = base_ b ∧ compact_pointer_ b' = compact_pointer_ b ∧ ∀ level,
    (∀ f, f ∈ added_files (level_at b' level) ↔ f ∈ added_files (level_at b level) ∨ f ∈ new_at ps level) ∧
    (∀ n, n ∈ deleted_files (level_at b' level) ↔ n ∈ deleted_files (level_at b level) ∧ ∀ f, f ∈ new_at ps level → number f ≠ n).
Proof.
  induction ps as [|[z f] ps IH]; intros b Hb Hps Hn; cbn [for_loop].
  { exists b. split_and!; try done. intros level. split; [intros f; split; [by left | by intros [?|?%elem_of_nil]] | intros n; split; [intros; split; [done|]; by intros ? ?%elem_of_nil | tauto]]. }
  apply Forall_cons in Hps as [[Hz Hf] Hps]. cbn [fst snd] in *. apply level_ok_nat in Hz as (level & Hlt & ->).
  pose proof Hb as [B1 B2 B3 B4 B5]. change (Z.to_nat kNumLevels) with 7%nat in *.
  destruct (array_at_ex (levels_ b) level) as (l & El & Ea); [lia|]. assert (level_at b level = l) as Ela by (unfold level_at; by rewrite El).
  destruct (B4 level) as [Ba1 Ba2]. rewrite Ela in Ba1, Ba2. destruct (Hn level) as [Hn1 Hn2]. rewrite new_at_cons, decide_True in Hn1, Hn2 by done. cbn [app map] in Hn1. apply NoDup_cons in Hn1 as [Hn1 Hn1'].
  destruct (insert_file_spec (build f) (added_files l)) as (added & Eadd & Hs & Hin); [done | done | done | intros g Hg; apply Hn2; [by left | left; by rewrite Ela]|].
  set (b1 := set_level (Z.of_nat level) (mkLevelState (deleted_files l ∖ {[number (build f)]}) added) b).
  assert (add_file user (Z.of_nat level, f) b = Ok b1) as -> by (unfold add_file; cbn [fst snd]; rewrite Ea; cbn [mbind outcome_bind]; fold (build f); by rewrite Eadd). cbn [mbind outcome_bind]. assert (∀ m, level_at b1 m = if decide (m = level) then mkLevelState (deleted_files l ∖ {[number (build f)]}) added else level_at b m) as Hm by (intros m; apply level_at_set; lia).
  assert (builder_ok b1) as Hb1.
  { split; [cbn; by rewrite length_insert | done | apply B3 | |].
    - intros m. rewrite Hm. case_decide as E; [|apply B4]. subst m. cbn. split; [|done]. intros g [->|Hg]%Hin; [done | by apply Ba1].
    - intros m g h. rewrite Hm. case_decide as E; [|apply B5]. subst m. cbn [added_files]. intros [->|Hg]%Hin Hh; [apply Hn2; [by left | by right] | apply (B5 level); [by rewrite Ela | done]]. }
  destruct (IH b1 Hb1 Hps) as (b' & -> & Hb' & E1 & E2 & H).
  { intros m. rewrite Hm. destruct (Hn m) as [Hm1 Hm2]. rewrite new_at_cons in Hm1, Hm2. case_decide as E; [subst m|by split].
    split; [done|]. intros g h Hg Hh. cbn [added_files] in Hh. destruct Hh as [[->|Hh]%Hin|Hh].
    - intros Eq. apply Hn1. rewrite Eq. by apply list_elem_of_fmap_2.
    - apply Hn2; [by right | left; by rewrite Ela].
    - apply Hn2; [by right | by right]. }
  exists b'. split; [done|]. split; [done|]. split; [done|]. split; [done|]. intros m. destruct (H m) as [Ha Hd]. rewrite Hm in Ha, Hd. split; intros x.
  - rewrite Ha, new_at_cons, elem_of_app. case_decide as E; [subst m|split; [intros [?|?]; auto | intros [?|[?%elem_of_nil|?]]; auto; done]].
    cbn [added_files]. rewrite Hin, Ela, list_elem_of_singleton. tauto.
  - rewrite Hd, new_at_cons. case_decide as E; [subst m|done]. cbn [deleted_files]. rewrite elem_of_difference, elem_of_singleton, Ela. setoid_rewrite elem_of_app. setoid_rewrite list_elem_of_singleton.
    split; [intros [[H1 H2] H3]; split; [done|]; intros g [->|Hg]; [by intros Eq | by apply H3] | intros [H1 H2]; split; [split; [done|]; intros Eq; by apply (H2 (build f)); [left|] | intros g Hg; apply H2; by right]].
Qed.

(** The numbers that an edit adds to a level are new there. *)
Definition edit_fresh (e : VersionEdit.version_edit) (b : builder) : Prop := ∀ level,
  NoDup (map number (new_at (VersionEdit.new_files_ e) level)) ∧
  ∀ f g, f ∈ new_at (VersionEdit.new_files_ e) level → g ∈ added_files (level_at b level) ∨ g ∈ level_files (base_ b) level → number g ≠ number f.

Lemma Apply_spec e b : builder_ok b → edit_fits e → edit_fresh e b →
  ∃ b', Apply user e b = Ok b' ∧ builder_ok b' ∧ base_ b' = base_ b ∧ compact_pointer_ b' = pointed (compact_pointer_ b) (VersionEdit.compact_pointers_ e) ∧
    ∀ level, (∀ f, f ∈ added_files (level_at b' level) ↔ f ∈ added_files (level_at b level) ∨ f ∈ new_at (VersionEdit.new_files_ e) level) ∧
      (∀ n, n ∈ deleted_files (level_at b' level) ↔ (n ∈ deleted_files (level_at b level) ∨ (Z.of_nat level, n) ∈ VersionEdit.deleted_files_ e) ∧
        ∀ f, f ∈ new_at (VersionEdit.new_files_ e) level → number f ≠ n).
Proof.
  intros Hb [Hp Hd Hn] Hf. pose proof Hb as [B1 B2 B3 B4 B5]. change (Z.to_nat kNumLevels) with 7%nat in *. unfold Apply. rewrite set_pointers_spec by done. cbn [mbind outcome_bind].
  destruct (delete_files_spec _ (mkBuilder (base_ b) (levels_ b) (pointed (compact_pointer_ b) (VersionEdit.compact_pointers_ e))) B1 Hd) as (b1 & -> & E1 & E2 & E3 & H1). cbn [mbind outcome_bind].
  cbn [base_ compact_pointer_] in E1, E2. assert (∀ level, level_at (mkBuilder (base_ b) (levels_ b) (pointed (compact_pointer_ b) (VersionEdit.compact_pointers_ e))) level = level_at b level) as Hl by done.
  setoid_rewrite Hl in H1. assert (builder_ok b1) as Hb1.
  { split; [done | | rewrite E1; apply B3 | intros level; destruct (H1 level) as [-> _]; apply B4 | intros level f g; destruct (H1 level) as [-> _]; rewrite E1; apply B5].
    rewrite E2. clear -B2. change (Z.to_nat kNumLevels) with 7%nat. revert B2. generalize (compact_pointer_ b). induction (VersionEdit.compact_pointers_ e) as [|p ps IH]; intros l Hl; [done|]. cbn. apply IH. by rewrite length_insert. }
  destruct (add_files_spec _ b1 Hb1 Hn) as (b' & -> & Hb' & E4 & E5 & H2).
  { intros level. destruct (Hf level) as [Hf1 Hf2]. destruct (H1 level) as [-> _]. rewrite E1. by split. }
  exists b'. rewrite E4, E5, E1, E2. split_and!; try done. intros level. destruct (H1 level) as [Ha1 Hd1], (H2 level) as [Ha2 Hd2]. split; [intros f; by rewrite Ha2, Ha1|]. intros n. by rewrite Hd2, Hd1.
Qed.

(** *** Disjoint files *)

Lemma chain_pairs l : ranges_ok l → chain l = true → ∀ i j f g, (i < j)%nat → l !! i = Some f → l !! j = Some g → icmp (largest f) (smallest g) < 0.
Proof.
  induction l as [|x l IH]; intros Hok Hc i j f g Hij Hi Hj; [done|]. destruct j as [|j]; [lia|]. cbn in Hj. assert (ranges_ok l) as Hokl by (intros h Hh; apply Hok; by right).
  destruct l as [|y l]; [done|]. cbn [chain] in Hc. apply andb_true_iff in Hc as [Hxy%Z.ltb_lt Hc]. destruct i as [|i]; [|apply (IH Hokl Hc i j); [lia | done | done]].
  cbn in Hi. injection Hi as <-. destruct j as [|j]; [cbn in Hj; by injection Hj as <-|].
  pose proof (IH Hokl Hc 0%nat (S j) y g ltac:(lia) eq_refl Hj) as Hyg. destruct (Hok x) as (_ & H1 & _); [by left|]. destruct (Hok y) as (H2 & H3 & H4); [right; by left|].
  destruct (Hokl g) as (H5 & _); [by eapply list_elem_of_lookup_2|]. apply (icmp_lt_le user _ (smallest y)); [done | done | done | done|].
  apply Z.lt_le_incl. by apply (icmp_le_lt user _ (largest y)).
Qed.

Definition disjoint_files (f g : FileMetaData) : Prop := f = g ∨ icmp (largest f) (smallest g) < 0 ∨ icmp (largest g) (smallest f) < 0.
Lemma chain_disjoint l : ranges_ok l → sorted l → chain l = true ↔ ∀ f g, f ∈ l → g ∈ l → disjoint_files f g.
Proof.
  intros Hok Hs. split.
  - intros Hc f g [i Hi]%list_elem_of_lookup [j Hj]%list_elem_of_lookup. destruct (Nat.lt_trichotomy i j) as [H|[->|H]].
    + right; left. by apply (chain_pairs l Hok Hc i j).
    + left. congruence.
    + right; right. by apply (chain_pairs l Hok Hc j i).
  - induction l as [|x [|y l] IH]; intros Hd; [done | done|]. cbn [chain]. apply andb_true_iff. apply StronglySorted_inv in Hs as [Hs Hx].
    split; [|apply IH; [intros f Hf; apply Hok; by right | done | intros f g Hf Hg; apply Hd; by right]]. apply Z.ltb_lt.
    apply Forall_cons in Hx as [Hxy _]. destruct (Hok x) as (H1 & H2 & H3); [by left|]. destruct (Hok y) as (H4 & H5 & H6); [right; by left|].
    destruct (Hd x y) as [->|[?|Hyx]]; [by left | right; by left | | done |].
    + by destruct (Rfile_asym y y); [apply Hok; by left | apply Hok; by left | |].
    + exfalso. assert (icmp (smallest x) (smallest y) ≤ 0) as Hle by (destruct Hxy; lia). pose proof (icmp_le_lt user (smallest y) (largest y) (smallest x) H4 H5 H1 H6 Hyx).
      pose proof (ikey_cmp_sgn (smallest x) (smallest y) H1 H4). lia.
Qed.

(** *** One edit after the other, and all at once *)

Fixpoint apply_each (es : list VersionEdit.version_edit) (v : version) (pointers : list (list byte)) : outcome (version * list (list byte)) :=
  match es with
  | [] => Ok (v, pointers)
  | e :: es => b ← Apply user e (VersionBuilder.new v pointers); v ← SaveTo user b; apply_each es v (compact_pointer_ b)
  end.
Definition apply_at_once (es : list VersionEdit.version_edit) (v : version) (pointers : list (list byte)) : outcome (version * list (list byte)) :=
  b ← for_loop (Apply user) es (VersionBuilder.new v pointers); v ← SaveTo user b; Ok (v, compact_pointer_ b).

Record levels_ok (v : version) : Prop := mkLevelsOk {
  vl_count : length (files_ v) = Z.to_nat kNumLevels;
  vl_ranges level : ranges_ok (level_files v level);
  vl_sorted level : sorted (level_files v level);
  vl_ordered level : ordered level (level_files v level) = true
}.
Definition added_numbers (es : list VersionEdit.version_edit) (level : nat) : list Z :=
  concat (map (λ e, map number (new_at (VersionEdit.new_files_ e) level)) es).
Definition fresh_for (es : list VersionEdit.version_edit) (b : builder) : Prop := ∀ level, NoDup (added_numbers es level) ∧
  ∀ n, n ∈ added_numbers es level → ∀ g, g ∈ added_files (level_at b level) ∨ g ∈ level_files (base_ b) level → number g ≠ n.

Lemma level_at_new v pointers level : level_at (VersionBuilder.new v pointers) level = mkLevelState ∅ [].
Proof. unfold level_at, VersionBuilder.new. cbn -[replicate]. destruct (replicate _ _ !! level) eqn:E; [|done]. by apply lookup_replicate in E as [-> _]. Qed.
Lemma new_builder_ok v pointers : levels_ok v → length pointers = 7%nat → builder_ok (VersionBuilder.new v pointers).
Proof.
  intros [H1 H2 H3 H4] Hp. split; [done | done | by split | |]; intros level; rewrite level_at_new; [split; [by intros ? ?%elem_of_nil | constructor] | by intros f g ?%elem_of_nil].
Qed.

Lemma edit_fresh_of es e b : fresh_for (e :: es) b → edit_fresh e b.
Proof.
  intros H level. destruct (H level) as [Hnd Hn]. unfold added_numbers in *. cbn [map concat] in *. apply NoDup_app in Hnd as (H1 & _ & _). split; [done|].
  intros f g Hf Hg. apply Hn; [|done]. apply elem_of_app. left. by apply list_elem_of_fmap_2.
Qed.

Lemma saved_level b level : builder_ok b → (∀ l, (7 ≤ l)%nat → level_files (base_ b) l = []) → (7 ≤ level)%nat → saved b level = [].
Proof.
  intros Hb Hl Hge. unfold saved. rewrite Hl by done. assert (level_at b level = mkLevelState ∅ []) as -> by (unfold level_at; rewrite lookup_ge_None_2; [done | rewrite (bo_levels _ Hb); done]). done.
Qed.
Lemma levels_beyond v level : levels_ok v → (7 ≤ level)%nat → level_files v level = [].
Proof. intros [H _ _ _] Hge. unfold level_files. by rewrite lookup_ge_None_2 by (rewrite H; done). Qed.

Lemma saved_files b : builder_ok b → (∀ l, (7 ≤ l)%nat → level_files (base_ b) l = []) →
  ∀ level, level_files (new_version (map (saved b) (seq 0 7))) level = saved b level.
Proof.
  intros Hb Hl level. unfold level_files. cbn [files_ new_version]. rewrite list_lookup_fmap. destruct (decide (level < 7)%nat) as [Hlt|Hge].
  - rewrite lookup_seq_lt by done. done.
  - rewrite lookup_seq_ge by lia. cbn. symmetry. apply saved_level; [done | done | lia].
Qed.
Lemma saved_version b v : builder_ok b → (∀ l, (7 ≤ l)%nat → level_files (base_ b) l = []) → SaveTo user b = Ok v → levels_ok v ∧ ∀ level, level_files v level = saved b level.
Proof.
  intros Hb Hl. rewrite SaveTo_spec by done. destruct (forallb _ _) eqn:E; [|done]. intros [= <-].
  pose proof (saved_files b Hb Hl) as H.
  split; [|exact H]. split; [done | intros level; rewrite H; by apply saved_ranges | intros level; rewrite H; by apply saved_sorted|].
  intros level. rewrite H. destruct (decide (level < 7)%nat) as [Hlt|Hge]; [|rewrite saved_level by (done || lia); unfold ordered; by rewrite orb_true_r].
  rewrite forallb_forall in E. apply E. apply in_seq. lia.
Qed.

(** An edit on top of the edits in a builder is the edit on the version they make. *)
Lemma Apply_step e es b v : builder_ok b → levels_ok v → (∀ level, level_files v level = saved b level) → edit_fits e → fresh_for (e :: es) b →
  ∃ b' c, Apply user e b = Ok b' ∧ Apply user e (VersionBuilder.new v (compact_pointer_ b)) = Ok c ∧ builder_ok b' ∧ builder_ok c ∧ base_ b' = base_ b ∧ base_ c = v ∧
    compact_pointer_ c = compact_pointer_ b' ∧ (∀ level, saved c level = saved b' level) ∧ fresh_for es b' ∧
    ∀ level f, f ∈ saved c level ↔ (f ∈ level_files v level ∧ (Z.of_nat level, number f) ∉ VersionEdit.deleted_files_ e) ∨ f ∈ new_at (VersionEdit.new_files_ e) level.
Proof.
  intros Hb Hv Hsame He Hf. pose proof (edit_fresh_of _ _ _ Hf) as Hfe. destruct (Apply_spec e b Hb He Hfe) as (b' & Eb & Hb' & Ebase & Eptr & H).
  pose proof (new_builder_ok v (compact_pointer_ b) Hv (bo_pointers _ Hb)) as Hnew.
  assert (edit_fresh e (VersionBuilder.new v (compact_pointer_ b))) as Hfc.
  { intros level. destruct (Hfe level) as [H1 H2]. split; [done|]. intros f g Hin. rewrite level_at_new. intros [?%elem_of_nil|Hg]; [done|]. cbn in Hg. rewrite Hsame in Hg.
    apply elem_of_saved in Hg as [Hg _]. by apply H2. }
  destruct (Apply_spec e _ Hnew He Hfc) as (c & Ec & Hc & Ecbase & Ecptr & Hcl). exists b', c.
  assert (∀ level f, f ∈ saved c level ↔ (f ∈ level_files v level ∧ (Z.of_nat level, number f) ∉ VersionEdit.deleted_files_ e) ∨ f ∈ new_at (VersionEdit.new_files_ e) level) as Hsc.
  { intros level f. rewrite elem_of_saved, Ecbase. destruct (Hcl level) as [Ha Hd]. rewrite Ha, Hd, level_at_new. cbn [added_files deleted_files base_ VersionBuilder.new]. rewrite elem_of_nil, elem_of_empty.
    destruct (Hfc level) as [_ Hn]. split.
    - intros [[[[]|Hin]|Hin] Hnd]; [by right|]. left. split; [done|]. intros Hdel. apply Hnd. split; [by right|]. intros g Hg E. apply (Hn g f Hg); [by right | done].
    - intros [[Hin Hnd]|Hin]; (split; [tauto|]); [intros [[[]|?] _]; done|]. intros [_ Hno]. by apply (Hno f). }
  split; [done|]. split; [done|]. split; [done|]. split; [done|]. split; [done|]. split; [done|]. split; [by rewrite Ecptr, Eptr|]. split; [|split; [|exact Hsc]].
  - intros level. apply sorted_unique; [by apply saved_ranges | by apply saved_sorted | by apply saved_sorted|]. intros f. rewrite Hsc, Hsame, !elem_of_saved, Ebase.
    destruct (H level) as [Ha Hd]. rewrite Ha, Hd. destruct (Hfe level) as [_ Hn]. split.
    + intros [[[Hin H1] H2]|Hin]; [split; [tauto|]; intros [[?|?] _]; done|]. split; [tauto|]. intros [_ Hno]. by apply (Hno f).
    + intros [[[Hin|Hin]|Hin] Hnd]; [|by right|]; left; (split; [split; [tauto|]; intros ?; apply Hnd; split; [by left|] | intros ?; apply Hnd; split; [by right|]]); intros g Hg E; (apply (Hn g f Hg); [tauto | done]).
  - intros level. destruct (Hf level) as [Hnd Hn]. unfold added_numbers in Hnd, Hn |- *. cbn [map concat] in Hnd, Hn. apply NoDup_app in Hnd as (Hnd1 & Hnd2 & Hnd3). split; [done|].
    intros n Hin g Hg. rewrite Ebase in Hg. destruct (H level) as [Ha _]. rewrite Ha in Hg. destruct Hg as [[Hg|Hg]|Hg]; try (apply Hn; [apply elem_of_app; by right | tauto]).
    intros E. apply (Hnd2 n); [|done]. rewrite <- E. by apply list_elem_of_fmap_2.
Qed.

Lemma replay es : ∀ b v v' pointers', builder_ok b → levels_ok v → (∀ l, (7 ≤ l)%nat → level_files (base_ b) l = []) → (∀ level, level_files v level = saved b level) →
  Forall edit_fits es → fresh_for es b → apply_each es v (compact_pointer_ b) = Ok (v', pointers') →
  ∃ b', for_loop (Apply user) es b = Ok b' ∧ builder_ok b' ∧ compact_pointer_ b' = pointers' ∧ levels_ok v' ∧ base_ b' = base_ b ∧ ∀ level, level_files v' level = saved b' level.
Proof.
  induction es as [|e es IH]; intros b v v' pointers' Hb Hv Hbeyond Hsame Hes Hf; cbn [apply_each for_loop].
  { intros [= <- <-]. by exists b. }
  apply Forall_cons in Hes as [He Hes]. destruct (Apply_step e es b v Hb Hv Hsame He Hf) as (b1 & c & -> & -> & Hb1 & Hc & Eb & Ec & Ep & Esaved & Hf1 & _). cbn [mbind outcome_bind].
  destruct (SaveTo user c) as [v1| | |] eqn:Es; try done. cbn [mbind outcome_bind]. rewrite Ep. intros Hrest.
  destruct (saved_version c v1 Hc) as [Hv1 Hl1]; [rewrite Ec; intros; by apply levels_beyond | done|].
  destruct (IH b1 v1 v' pointers' Hb1 Hv1) as (b' & H1 & H2 & H3 & H4 & H5 & H6); [by rewrite Eb | intros level; by rewrite Hl1 | done | done | done|].
  exists b'. rewrite H5, Eb. done.
Qed.

Lemma saved_new v pointers level : saved (VersionBuilder.new v pointers) level = level_files v level.
Proof.
  unfold saved. rewrite level_at_new. cbn [added_files deleted_files merge_files base_ VersionBuilder.new]. unfold kept.
  induction (level_files v level) as [|f l IH]; [done|]. rewrite filter_cons_True by apply not_elem_of_empty. by rewrite IH.
Qed.
Lemma fresh_new es v pointers : (∀ level, NoDup (map number (level_files v level) ++ added_numbers es level)) → fresh_for es (VersionBuilder.new v pointers).
Proof.
  intros H level. specialize (H level). apply NoDup_app in H as (_ & H1 & H2). split; [done|]. intros n Hn g. rewrite level_at_new. intros [?%elem_of_nil|Hg]; [done|].
  intros <-. apply (H1 (number g)); [by apply list_elem_of_fmap_2 | done].
Qed.
Lemma same_levels v w : levels_ok v → levels_ok w → (∀ level, level_files v level = level_files w level) → files_ v = files_ w.
Proof.
  intros [H1 _ _ _] [H2 _ _ _] H. apply list_eq. intros i. specialize (H i). unfold level_files in H.
  destruct (files_ v !! i) as [x|] eqn:E1, (files_ w !! i) as [y|] eqn:E2; cbn in H; try (by subst).
  - apply lookup_lt_Some in E1. apply lookup_ge_None in E2. lia.
  - apply lookup_lt_Some in E2. apply lookup_ge_None in E1. lia.
Qed.
End proof.

(** ** Properties *)

(** C27: An edit changes a version as it says, in both builds.  On a version whose levels are
    sorted, an edit whose new files have new numbers yields in the default build, at every
    level, the files that were there and are not deleted and the new files, again sorted,
    and the compaction pointers that it sets.  If the files of every level above 0 are
    disjoint, the new version satisfies the invariant and the build with the checks makes
    the same one; if they are not, that build stops at its check, while the default build
    installs a version that violates the invariant. *)
Theorem edit_applied (user : Comparator) (Huser : ComparatorLaws any_key user) (v : version) (pointers : list (list byte)) (e : VersionEdit.version_edit)
    (Hv : levels_ok user v) (Hp : length pointers = 7%nat) (He : edit_fits user e)
    (Hfresh : ∀ level, NoDup (map number (level_files v level) ++ added_numbers [e] level)) :
  let wanted level f := (f ∈ level_files v level ∧ (Z.of_nat level, number f) ∉ VersionEdit.deleted_files_ e) ∨ f ∈ new_at (VersionEdit.new_files_ e) level in
  let result ndebug := b ← Apply user e (VersionBuilder.new v pointers); v' ← SaveTo_build user ndebug b; Ok (v', compact_pointer_ b) in
  let fits := ∀ level f g, (0 < level)%nat → wanted level f → wanted level g → disjoint_files user f g in
  ∃ v', result true = Ok (v', pointed pointers (VersionEdit.compact_pointers_ e)) ∧
    (∀ level, StronglySorted (Rfile user) (level_files v' level) ∧ ∀ f, f ∈ level_files v' level ↔ wanted level f) ∧
    (fits → result false = result true ∧ levels_ok user v') ∧
    (¬ fits → result false = Ub AssertionFailed ∧ ¬ levels_ok user v').
Proof.
  intros wanted result fits.
  destruct (Apply_step user e [] (VersionBuilder.new v pointers) v) as (b' & c & _ & Ec & _ & Hc & _ & Ebase & _ & _ & _ & Hs);
    [by apply new_builder_ok | done | intros level; by rewrite saved_new | done | by apply fresh_new|].
  assert (compact_pointer_ c = pointed pointers (VersionEdit.compact_pointers_ e)) as Eptr.
  { pose proof (fresh_new [e] v pointers Hfresh) as Hfr. destruct (Apply_spec user e (VersionBuilder.new v pointers)) as (c' & Ec' & _ & _ & Hptr & _); [by apply new_builder_ok | done | by apply (edit_fresh_of [])|].
    cbn [compact_pointer_ VersionBuilder.new] in *. congruence. }
  assert (∀ level, (0 < level)%nat → chain user (saved user c level) = true ↔ ∀ f g, wanted level f → wanted level g → disjoint_files user f g) as Hd.
  { intros level Hl. rewrite (chain_disjoint user); [|by apply saved_ranges | by apply saved_sorted]. by setoid_rewrite Hs. }
  assert (∀ l, (7 ≤ l)%nat → level_files (base_ c) l = []) as Hbeyond by (rewrite Ebase; intros; by apply (levels_beyond user)).
  assert (∀ ndebug, result ndebug = v' ← SaveTo_build user ndebug c; Ok (v', compact_pointer_ c)) as Er by (intros ndebug; unfold result; cbn [compact_pointer_ VersionBuilder.new] in Ec; by rewrite Ec).
  set (v' := new_version (map (saved user c) (seq 0 7))). pose proof (saved_files user c Hc Hbeyond) as Hl. fold v' in Hl.
  pose proof (SaveTo_spec user c Hc) as Edebug. unfold SaveTo in Edebug. fold v' in Edebug. exists v'. rewrite !Er, (SaveTo_ndebug user c Hc). fold v'. cbn [mbind outcome_bind].
  split; [by rewrite Eptr|]. split; [intros level; rewrite Hl; split; [by apply saved_sorted | intros f; apply Hs]|]. split.
  - intros Hfits. assert (forallb (λ level, ordered user level (saved user c level)) (seq 0 7) = true) as E.
    { apply forallb_forall. intros level _. unfold ordered. destruct level as [|level]; [done|]. cbn [orb bool_decide]. apply orb_true_iff. right. apply Hd; [lia|]. intros f g. apply Hfits. lia. }
    rewrite E in Edebug. rewrite Edebug. split; [done|]. by destruct (saved_version user c v' Hc Hbeyond Edebug).
  - intros Hno. assert (¬ levels_ok user v') as Hbad.
    { intros Hv'. apply Hno. intros level f g Hpos Hf Hg. pose proof (vl_ordered user v' Hv' level) as Ho. unfold ordered in Ho. rewrite bool_decide_false in Ho by lia. rewrite Hl in Ho. by apply (Hd level Hpos). }
    split; [|done]. rewrite Edebug. destruct (forallb _ _) eqn:E; [|done]. exfalso. apply Hbad. by destruct (saved_version user c v' Hc Hbeyond Edebug).
Qed.

(** C26: Replaying the descriptor log reproduces the version.  [Recover] applies all edits
    to one builder, [LogAndApply] builds a version for each of them: if every edit adds
    files with new numbers, both end with the same files at every level, in the same
    order, and the same compaction pointers, and the builder of [Recover] fails no
    assertion that the versions in between passed. *)
Theorem builder_replay (user : Comparator) (Huser : ComparatorLaws any_key user) (v v' : version) (pointers pointers' : list (list byte)) (es : list VersionEdit.version_edit)
    (Hv : levels_ok user v) (Hp : length pointers = 7%nat) (Hes : Forall (edit_fits user) es)
    (Hfresh : ∀ level, NoDup (map number (level_files v level) ++ added_numbers es level))
    (Heach : apply_each user es v pointers = Ok (v', pointers')) :
  ∃ v'', apply_at_once user es v pointers = Ok (v'', pointers') ∧ files_ v'' = files_ v' ∧ levels_ok user v''.
Proof.
  destruct (replay user es (VersionBuilder.new v pointers) v v' pointers') as (b & Eb & Hb & Eptr & Hv' & Ebase & Hl);
    [by apply new_builder_ok | done | intros; by apply (levels_beyond user) | intros level; by rewrite saved_new | done | by apply fresh_new | done|].
  unfold apply_at_once. rewrite Eb. cbn [mbind outcome_bind]. rewrite SaveTo_spec by done.
  assert (forallb (λ level, ordered user level (saved user b level)) (seq 0 7) = true) as E by (apply forallb_forall; intros level _; rewrite <- Hl; apply Hv').
  pose proof (saved_version user b (new_version (map (saved user b) (seq 0 7))) Hb) as Hsv. rewrite (SaveTo_spec user b Hb), E in Hsv.
  destruct Hsv as [Hv'' Hl'']; [rewrite Ebase; intros; by apply (levels_beyond user) | done|]. rewrite E. cbn [mbind outcome_bind]. rewrite Eptr. eexists. split; [reflexivity|].
  split; [|done]. apply (same_levels user); [done | done|]. intros level. by rewrite Hl'', Hl.
Qed.

(** Two files are added to level 1; then one of them is moved to level 2. *)
Definition empty_version : version := new_version (replicate 7 []).
Definition demo_key (k : list byte) : list byte := ikey k 5 kTypeValue.
Definition demo_edit1 : VersionEdit.version_edit :=
  VersionEdit.AddFile 1 6 1000 (demo_key (str "c")) (demo_key (str "d"))
    (VersionEdit.AddFile 1 5 2000 (demo_key (str "a")) (demo_key (str "b")) VersionEdit.new).
Definition demo_edit2 : VersionEdit.version_edit :=
  VersionEdit.SetCompactPointer 1 (demo_key (str "b"))
    (VersionEdit.AddFile 2 7 2000 (demo_key (str "a")) (demo_key (str "b")) (VersionEdit.DeleteFile 1 5 VersionEdit.new)).

Lemma empty_level level : level_files empty_version level = [].
Proof. unfold level_files, empty_version. cbn -[replicate]. destruct (replicate 7 [] !! level) eqn:E; [by apply lookup_replicate in E as [-> _] | done]. Qed.
Lemma empty_levels_ok user : levels_ok user empty_version.
Proof.
  split; [done | | |]; intros level; rewrite empty_level; [by intros f ?%elem_of_nil | constructor | unfold ordered; by rewrite orb_true_r].
Qed.
Lemma demo_range f a b : smallest f = demo_key a → largest f = demo_key b → bool_decide (InternalKeyComparator.Compare BytewiseComparator (demo_key a) (demo_key b) ≤ 0) = true → range_ok BytewiseComparator f.
Proof. intros E1 E2 H%bool_decide_eq_true. unfold range_ok. rewrite E1, E2. split; [apply ikey_ok_ikey|]. split; [apply ikey_ok_ikey | exact H]. Qed.
Lemma demo_edits_fit : Forall (edit_fits BytewiseComparator) [demo_edit1; demo_edit2].
Proof.
  assert (∀ z, bool_decide (0 ≤ z < 7) = true → level_ok z) as Hl by (intros z H%bool_decide_eq_true; exact H).
  assert (∀ f a b, smallest f = demo_key a → largest f = demo_key b → bool_decide (InternalKeyComparator.Compare BytewiseComparator (demo_key a) (demo_key b) ≤ 0) = true → range_ok BytewiseComparator f) as Hr by apply demo_range.
  apply Forall_cons; split; [|apply Forall_cons; split; [|apply Forall_nil]]; (split; cbn -[demo_key range_ok level_ok];
    repeat (apply Forall_cons; split); try apply Forall_nil; try (apply Hl; vm_compute; reflexivity); split; try (apply Hl; vm_compute; reflexivity)).
  - apply (Hr _ (str "a") (str "b")); [done | done | vm_compute; reflexivity].
  - apply (Hr _ (str "c") (str "d")); [done | done | vm_compute; reflexivity].
  - by vm_compute.
  - apply (Hr _ (str "a") (str "b")); [done | done | vm_compute; reflexivity].
Qed.
Lemma demo_fresh level : NoDup (map number (level_files empty_version level) ++ added_numbers [demo_edit1; demo_edit2] level).
Proof.
  rewrite empty_level. destruct level as [|[|[|level]]]; [apply (bool_decide_unpack _); vm_compute; exact I..|].
  unfold added_numbers, new_at. cbn [map concat demo_edit1 demo_edit2 VersionEdit.new_files_ VersionEdit.AddFile VersionEdit.SetCompactPointer VersionEdit.DeleteFile VersionEdit.with_files VersionEdit.new VersionEdit.Clear app].
  rewrite !filter_cons_False by (cbn [fst]; lia). constructor.
Qed.
Definition demo_pointers : list (list byte) := replicate 7 [].

(** Two files of level 1 that share keys. *)
Definition demo_overlap : VersionEdit.version_edit :=
  VersionEdit.AddFile 1 6 1000 (demo_key (str "b")) (demo_key (str "d"))
    (VersionEdit.AddFile 1 5 2000 (demo_key (str "a")) (demo_key (str "c")) VersionEdit.new).
Lemma demo_overlap_fits : edit_fits BytewiseComparator demo_overlap.
Proof.
  assert (∀ z, bool_decide (0 ≤ z < 7) = true → level_ok z) as Hl by (intros z H%bool_decide_eq_true; exact H).
  split; cbn -[demo_key range_ok level_ok]; repeat (apply Forall_cons; split); try apply Forall_nil; split; try (apply Hl; vm_compute; reflexivity).
  - apply (demo_range _ (str "a") (str "c")); [done | done | vm_compute; reflexivity].
  - apply (demo_range _ (str "b") (str "d")); [done | done | vm_compute; reflexivity].
Qed.
Lemma demo_overlap_fresh level : NoDup (map number (level_files empty_version level) ++ added_numbers [demo_overlap] level).
Proof.
  rewrite empty_level. destruct level as [|[|level]]; [apply (bool_decide_unpack _); vm_compute; exact I..|].
  unfold added_numbers, new_at. cbn [map concat demo_overlap VersionEdit.new_files_ VersionEdit.AddFile VersionEdit.with_files VersionEdit.new VersionEdit.Clear app].
  rewrite !filter_cons_False by (cbn [fst]; lia). constructor.
Qed.

Lemma edit_applied_witness :
  let result ndebug := b ← Apply BytewiseComparator demo_overlap (VersionBuilder.new empty_version demo_pointers); v' ← SaveTo_build BytewiseComparator ndebug b; Ok (v', compact_pointer_ b) in
  result false = Ub AssertionFailed ∧ ∃ v', result true = Ok (v', demo_pointers) ∧ map number (level_files v' 1) = [5; 6] ∧ ¬ levels_ok BytewiseComparator v'.
Proof.
  intros result. destruct (edit_applied BytewiseComparator _ empty_version demo_pointers demo_overlap (empty_levels_ok _) eq_refl demo_overlap_fits demo_overlap_fresh)
    as (v' & E & _ & _ & Hno).
  destruct Hno as [E2 Hbad].
  - intros Hfits. destruct (Hfits 1%nat (build (VersionEdit.mkFile 0 (seeks_allowed 1000) 6 1000 (demo_key (str "b")) (demo_key (str "d"))))
      (build (VersionEdit.mkFile 0 (seeks_allowed 2000) 5 2000 (demo_key (str "a")) (demo_key (str "c"))))) as [H|[H|H]].
    + lia.
    + right. vm_compute. set_solver.
    + right. vm_compute. set_solver.
    + vm_compute in H. discriminate H.
    + vm_compute in H. discriminate H.
    + vm_compute in H. discriminate H.
  - split; [exact E2|]. exists v'. split; [exact E|]. split; [|exact Hbad].
    assert (match result true with Ok (w, _) => bool_decide (map number (level_files w 1) = [5; 6]) | _ => false end = true) as H by (vm_compute; reflexivity).
    unfold result in H. rewrite E in H. by apply bool_decide_eq_true in H.
Defined.

Lemma demo_each : ∃ v p, apply_each BytewiseComparator [demo_edit1; demo_edit2] empty_version demo_pointers = Ok (v, p).
Proof. vm_compute. by do 2 eexists. Qed.
Lemma builder_replay_witness :
  ∃ v' pointers' v'', apply_each BytewiseComparator [demo_edit1; demo_edit2] empty_version demo_pointers = Ok (v', pointers') ∧
    apply_at_once BytewiseComparator [demo_edit1; demo_edit2] empty_version demo_pointers = Ok (v'', pointers') ∧ files_ v'' = files_ v'.
Proof.
  destruct demo_each as (v' & pointers' & E).
  destruct (builder_replay BytewiseComparator _ empty_version v' demo_pointers pointers' [demo_edit1; demo_edit2] (empty_levels_ok _) eq_refl demo_edits_fit demo_fresh E) as (v'' & E2 & E3 & _).
  exists v', pointers', v''. split; [exact E|]. split; [exact E2 | exact E3].
Defined.
