(* ===== verification/VersionSet.v ===== *)
(** * db/version_set.cc: the set of versions and its log

    [VersionSet] owns the live versions of the database and the counters of its files.
    [LogAndApply] installs an edit after it has been written to the MANIFEST file,
    [Recover] reads the MANIFEST back.  The current version is the last one of the list
    of live versions; a version carries the number of references to it.  The mutex is
    released while the MANIFEST is written: [other] is what the other threads do to the
    state meanwhile (they may not call [LogAndApply]).  A score is a [double], computed
    by the IEEE 754 operations of [SpecFloat]. *)
From stdpp Require Import gmap.
From Stdlib Require Import Floats.SpecFloat.
From Stdlib Require Import Sorting.Sorted.
From S2P Require Import Prelude.
From S2P Require Import Crc32c.
From S2P Require Import Interfaces.
From S2P Require Import Comparator.
From S2P Require Import Dbformat.
From S2P Require Import Status.
From S2P Require Import Env.
From S2P Require Import FileName.
From S2P Require Import Log.
From S2P Require Import VersionEdit.
From S2P Require Import Version.
From S2P Require Import VersionBuilder.
Import FileName Version VersionBuilder.

(** ** Definitions *)

Module VersionSet.

(** *** Scores *)

Definition double_of (z : Z) : spec_float := binary_normalize 53 1024 z 0 false.
Fixpoint max_bytes_loop (n : nat) (result : spec_float) : spec_float :=
  match n with O => result | S n => max_bytes_loop n (SFmul 53 1024 result (double_of 10)) end.
Definition MaxBytesForLevel (level : nat) : spec_float := max_bytes_loop (level - 1) (SFmul 53 1024 (double_of 10) (double_of 1048576)).
Definition level_score (v : version) (level : nat) : spec_float :=
  match level with
  | O => SFdiv 53 1024 (double_of (blen (level_files v 0))) (double_of kL0_CompactionTrigger)
  | _ => SFdiv 53 1024 (double_of (u64 (TotalFileSize (level_files v level)))) (MaxBytesForLevel level)
  end.
Definition better (v : version) (best : Z * spec_float) (level : nat) : Z * spec_float :=
  let score := level_score v level in if SFltb best.2 score then (Z.of_nat level, score) else best.
Definition Finalize (v : version) : version :=
  let best := foldl (better v) (-1, double_of (-1)) (seq 0 (Z.to_nat kNumLevels - 1)) in
  mkVersion (files_ v) (file_to_compact_ v) (file_to_compact_level_ v) best.2 best.1.

(** *** The state *)

Record node := mkNode { refs_ : Z; node_version : version }.

Section VersionSet.
Context (user : Comparator) (user_name : list byte).
Context {E W R : Type} (env : EnvOps E W R) (addr : list byte → Z).
Context (dbname : list byte) (reuse_logs : bool).
#[local] Notation writer := (@Writer.writer W).

(** [descriptor_file_] is the destination of [descriptor_log_]. *)
Record version_set := mkVersionSet {
  next_file_number_ : Z;
  manifest_file_number_ : Z;
  last_sequence_ : Z;
  log_number_ : Z;
  prev_log_number_ : Z;
  descriptor_log_ : option writer;
  compact_pointer_ : list (list byte);
  versions_ : list node
}.
Definition set_next_file_number (n : Z) (s : version_set) : version_set :=
  mkVersionSet n (manifest_file_number_ s) (last_sequence_ s) (log_number_ s) (prev_log_number_ s) (descriptor_log_ s) (compact_pointer_ s) (versions_ s).
Definition set_log_numbers (log prev : Z) (s : version_set) : version_set :=
  mkVersionSet (next_file_number_ s) (manifest_file_number_ s) (last_sequence_ s) log prev (descriptor_log_ s) (compact_pointer_ s) (versions_ s).
Definition set_descriptor (number : Z) (log : option writer) (s : version_set) : version_set :=
  mkVersionSet (next_file_number_ s) number (last_sequence_ s) (log_number_ s) (prev_log_number_ s) log (compact_pointer_ s) (versions_ s).
Definition set_pointers (p : list (list byte)) (s : version_set) : version_set :=
  mkVersionSet (next_file_number_ s) (manifest_file_number_ s) (last_sequence_ s) (log_number_ s) (prev_log_number_ s) (descriptor_log_ s) p (versions_ s).
Definition set_versions (l : list node) (s : version_set) : version_set :=
  mkVersionSet (next_file_number_ s) (manifest_file_number_ s) (last_sequence_ s) (log_number_ s) (prev_log_number_ s) (descriptor_log_ s) (compact_pointer_ s) l.

Definition current_ (s : version_set) : outcome version :=
  match last (versions_ s) with Some n => Ok (node_version n) | None => Ub NullDeref end.

(** [Version::Ref] and [Version::Unref] of the version at position [i] of the list. *)
Definition Ref (i : nat) (s : version_set) : outcome version_set :=
  match versions_ s !! i with
  | Some n => Ok (set_versions (<[i := mkNode (refs_ n + 1) (node_version n)]> (versions_ s)) s)
  | None => Ub UseAfterFree
  end.
Definition Unref (i : nat) (s : version_set) : outcome version_set :=
  match versions_ s !! i with
  | Some n =>
      if negb (1 <=? refs_ n) then Ub AssertionFailed
      else if refs_ n - 1 =? 0 then Ok (set_versions (take i (versions_ s) ++ drop (S i) (versions_ s)) s)
      else Ok (set_versions (<[i := mkNode (refs_ n - 1) (node_version n)]> (versions_ s)) s)
  | None => Ub UseAfterFree
  end.
Definition AppendVersion (v : version) (s : version_set) : outcome version_set :=
  s ← match versions_ s with [] => Ok s | _ => Unref (pred (length (versions_ s))) s end;
  Ok (set_versions (versions_ s ++ [mkNode 1 v]) s).

(** The constructor. *)
Definition new : outcome version_set :=
  AppendVersion (new_version (replicate (Z.to_nat kNumLevels) []))
    (mkVersionSet 2 0 0 0 0 None (replicate (Z.to_nat kNumLevels) []) []).

Definition NewFileNumber (s : version_set) : Z * version_set := (next_file_number_ s, set_next_file_number (u64 (next_file_number_ s + 1)) s).
Definition ReuseFileNumber (file_number : Z) (s : version_set) : version_set :=
  if next_file_number_ s =? u64 (file_number + 1) then set_next_file_number file_number s else s.
Definition SetLastSequence (n : Z) (s : version_set) : outcome version_set :=
  if last_sequence_ s <=? n
  then Ok (mkVersionSet (next_file_number_ s) (manifest_file_number_ s) n (log_number_ s) (prev_log_number_ s) (descriptor_log_ s) (compact_pointer_ s) (versions_ s))
  else Ub AssertionFailed.
Definition MarkFileNumberUsed (number : Z) (s : version_set) : version_set :=
  if next_file_number_ s <=? number then set_next_file_number (u64 (number + 1)) s else s.

Definition NumLevelFiles (level : nat) (s : version_set) : outcome Z :=
  if bool_decide (Z.of_nat level < kNumLevels) then v ← current_ s; Ok (s32 (blen (level_files v level))) else Ub AssertionFailed.
Definition NumLevelBytes (level : nat) (s : version_set) : outcome Z :=
  if bool_decide (Z.of_nat level < kNumLevels) then v ← current_ s; Ok (TotalFileSize (level_files v level)) else Ub AssertionFailed.
Definition NeedsCompaction (s : version_set) : outcome bool :=
  v ← current_ s;
  Ok (SFleb (double_of 1) (compaction_score_ v) || bool_decide (is_Some (file_to_compact_ v))).
Definition AddLiveFiles (s : version_set) (live : gset Z) : gset Z :=
  foldl (λ live n, foldl (λ live level, foldl (λ live f, {[number f]} ∪ live) live (level_files (node_version n) level)) live
           (seq 0 (Z.to_nat kNumLevels))) live (versions_ s).

(** *** LogAndApply *)

(** The log writes through the file system. *)
Definition log_append (f : W * E) (d : list byte) : (W * E) * status := let '(e, s) := file_Append env f.1 d f.2 in ((f.1, e), s).
Definition log_flush (f : W * E) : (W * E) * status := let '(e, s) := file_Flush env f.1 f.2 in ((f.1, e), s).
Definition AddRecord (w : writer) (record : list byte) (e : E) : outcome (writer * E * status) :=
  r ← Writer.AddRecord log_append log_flush addr (Writer.mkWriter (Writer.dest_ w, e) (Writer.block_offset_ w) (Writer.type_crc_ w)) record;
  Ok (Writer.mkWriter (Writer.dest_ r.1).1 (Writer.block_offset_ r.1) (Writer.type_crc_ r.1), (Writer.dest_ r.1).2, r.2).

Definition save_pointer (pointers : list (list byte)) (level : nat) (edit : VersionEdit.version_edit) : VersionEdit.version_edit :=
  match pointers !! level with
  | Some (b :: k) => VersionEdit.SetCompactPointer (Z.of_nat level) (b :: k) edit
  | _ => edit
  end.
Definition save_files (v : version) (level : nat) (edit : VersionEdit.version_edit) : VersionEdit.version_edit :=
  foldl (λ e f, VersionEdit.AddFile (Z.of_nat level) (number f) (file_size f) (smallest f) (largest f) e) edit (level_files v level).
Definition snapshot_edit (v : version) (pointers : list (list byte)) : VersionEdit.version_edit :=
  let levels := seq 0 (Z.to_nat kNumLevels) in
  let edit := VersionEdit.SetComparatorName user_name VersionEdit.new in
  let edit := foldl (λ e level, save_pointer pointers level e) edit levels in
  foldl (λ e level, save_files v level e) edit levels.
Definition WriteSnapshot (w : writer) (s : version_set) (e : E) : outcome (writer * E * status) :=
  v ← current_ s;
  record ← VersionEdit.EncodeTo (snapshot_edit v (compact_pointer_ s)) [];
  AddRecord w record e.

(** The fields of the edit that the version set knows. *)
Definition complete_edit (edit : VersionEdit.version_edit) (s : version_set) : outcome VersionEdit.version_edit :=
  edit ← (if VersionEdit.has_log_number_ edit then
            if negb (log_number_ s <=? VersionEdit.log_number_ edit) then Ub AssertionFailed
            else if negb (VersionEdit.log_number_ edit <? next_file_number_ s) then Ub AssertionFailed
            else Ok edit
          else Ok (VersionEdit.SetLogNumber (log_number_ s) edit));
  let edit := if VersionEdit.has_prev_log_number_ edit then edit else VersionEdit.SetPrevLogNumber (prev_log_number_ s) edit in
  Ok (VersionEdit.SetLastSequence (last_sequence_ s) (VersionEdit.SetNextFile (next_file_number_ s) edit)).

(** A new descriptor file, if there is none. *)
Definition open_descriptor (s : version_set) (e : E) : outcome (version_set * E * status * option (list byte)) :=
  match descriptor_log_ s with
  | Some _ => Ok (s, e, status_ok, None)
  | None =>
      name ← DescriptorFileName dbname (manifest_file_number_ s);
      match NewWritableFile env name e with
      | (e, inl st) => Ok (s, e, st, Some name)
      | (e, inr file) =>
          tc ← Writer.InitTypeCrc addr;
          r ← WriteSnapshot (Writer.mkWriter file 0 tc) s e;
          Ok (set_descriptor (manifest_file_number_ s) (Some r.1.1) s, r.1.2, r.2, Some name)
      end
  end.

(** The write to the descriptor log, without the mutex. *)
Definition write_descriptor (edit : VersionEdit.version_edit) (created : bool) (st : status) (s : version_set) (e : E)
    : outcome (version_set * E * status) :=
  r ← (if ok st then
         record ← VersionEdit.EncodeTo edit [];
         match descriptor_log_ s with
         | Some w =>
             r ← AddRecord w record e;
             let '(w, e, st) := r in
             let '(e, st) := if ok st then file_Sync env (Writer.dest_ w) e else (e, st) in
             Ok (set_descriptor (manifest_file_number_ s) (Some w) s, e, st)
         | None => Ub NullDeref
         end
       else Ok (s, e, st));
  let '(s, e, st) := (r : version_set * E * status) in
  if ok st && created then r ← SetCurrentFile env dbname (manifest_file_number_ s) e; Ok (s, r.1, r.2) else Ok (s, e, st).

Definition LogAndApply (other : version_set → version_set) (edit : VersionEdit.version_edit) (s : version_set) (e : E)
    : outcome (status * VersionEdit.version_edit * version_set * E) :=
  edit ← complete_edit edit s;
  cur ← current_ s;
  b ← Apply user edit (VersionBuilder.new cur (compact_pointer_ s));
  let s := set_pointers (VersionBuilder.compact_pointer_ b) s in
  v ← SaveTo user b;
  let v := Finalize v in
  d ← open_descriptor s e;
  let '(s, e, st, created) := (d : version_set * E * status * option (list byte)) in
  let edit := match created with Some _ => VersionEdit.SetNextFile (next_file_number_ s) edit | None => edit end in
  r ← write_descriptor edit (bool_decide (is_Some created)) st s e;
  let '(s, e, st) := (r : version_set * E * status) in
  let s := other s in
  if ok st then
    s ← AppendVersion v s;
    Ok (st, edit, set_log_numbers (VersionEdit.log_number_ edit) (VersionEdit.prev_log_number_ edit) s, e)
  else
    match created with
    | Some name => Ok (st, edit, set_descriptor (manifest_file_number_ s) None s, (DeleteFile env name e).1)
    | None => Ok (st, edit, s, e)
    end.

(** *** Recover *)

(** The variables of [Recover] that the records set. *)
Record recovered := mkRecovered {
  rec_builder : builder;
  rec_log_number : option Z;
  rec_prev_log_number : option Z;
  rec_next_file : option Z;
  rec_last_sequence : option Z
}.
Definition seen (has : bool) (n : Z) (old : option Z) : option Z := if has then Some n else old.
Definition note_fields (edit : VersionEdit.version_edit) (b : builder) (r : recovered) : recovered :=
  mkRecovered b (seen (VersionEdit.has_log_number_ edit) (VersionEdit.log_number_ edit) (rec_log_number r))
    (seen (VersionEdit.has_prev_log_number_ edit) (VersionEdit.prev_log_number_ edit) (rec_prev_log_number r))
    (seen (VersionEdit.has_next_file_number_ edit) (VersionEdit.next_file_number_ edit) (rec_next_file r))
    (seen (VersionEdit.has_last_sequence_ edit) (VersionEdit.last_sequence_ edit) (rec_last_sequence r)).

(** One record of the descriptor. *)
Definition replay_record (record : list byte) (r : recovered) : outcome (status * recovered) :=
  d ← VersionEdit.DecodeFrom VersionEdit.new record;
  let edit := (d : VersionEdit.version_edit * status).1 in
  let s := if ok d.2 && VersionEdit.has_comparator_ edit && negb (bool_decide (VersionEdit.comparator_ edit = user_name))
           then status_err kInvalidArgument (VersionEdit.comparator_ edit ++ str " does not match existing comparator ") user_name
           else d.2 in
  b ← (if ok s then Apply user edit (rec_builder r) else Ok (rec_builder r));
  Ok (s, note_fields edit b r).

(** [LogReporter]: the first corruption is kept in the status. *)
Definition report {G} (s : status) (before after : @Reader.reader G) : status :=
  if ok s then match drop (length (Reader.reports before)) (Reader.reports after) with r :: _ => r.2 | [] => s end else s.

(** The loop over the records.  A record is read before the status is tested. *)
Fixpoint replay_loop (rounds fuel : nat) (e : E) (reader : @Reader.reader R) (s : status) (r : recovered) : outcome (status * recovered) :=
  match rounds with
  | O => Blocked
  | S rounds =>
      d ← Reader.ReadRecord (λ f n, file_Read env f n e) (λ f n, file_Skip env f n e) addr fuel reader;
      let '(reader', record, _) := (d : Reader.read_result) in
      let s := report s reader reader' in
      match (record : option (list byte)) with
      | Some record => if ok s then d ← replay_record record r; replay_loop rounds fuel e reader' d.1 d.2 else Ok (s, r)
      | None => Ok (s, r)
      end
  end.

Definition ReuseManifest (dscname dscbase : list byte) (s : version_set) (e : E) : outcome (bool * version_set * E) :=
  if negb reuse_logs then Ok (false, s, e)
  else
    match ParseFileName dscbase, GetFileSize env dscname e with
    | Some (manifest_number, kDescriptorFile), inr manifest_size =>
        if kTargetFileSize <=? manifest_size then Ok (false, s, e)
        else
          match descriptor_log_ s with
          | Some _ => Ub AssertionFailed
          | None =>
              match NewAppendableFile env dscname e with
              | (e, inl _) => Ok (false, s, e)
              | (e, inr file) =>
                  w ← Writer.new_at addr file manifest_size;
                  Ok (true, set_descriptor manifest_number (Some w) s, e)
              end
          end
    | _, _ => Ok (false, s, e)
    end.

Definition missing_field (r : recovered) : status :=
  match rec_next_file r, rec_log_number r, rec_last_sequence r with
  | None, _, _ => Corruption (str "no meta-nextfile entry in descriptor")
  | _, None, _ => Corruption (str "no meta-lognumber entry in descriptor")
  | _, _, None => Corruption (str "no last-sequence-number entry in descriptor")
  | Some _, Some _, Some _ => status_ok
  end.
(** The results: the status, [*save_manifest] where it is set, and the new state. *)
Definition Recover (rounds fuel : nat) (s : version_set) (e : E) : outcome (status * bool * version_set * E) :=
  c ← ReadFileToString env fuel (CurrentFileName dbname) e;
  let '(e, st, current) := (c : E * status * list byte) in
  if negb (ok st) then Ok (st, false, s, e)
  else if bool_decide (last current = Some (z2b 10)) then
    let current := take (length current - 1) current in
    let dscname := dbname ++ str "/" ++ current in
    match NewSequentialFile env dscname e with
    | (e, inl st) => Ok (st, false, s, e)
    | (e, inr file) =>
        cur ← current_ s;
        d ← replay_loop rounds fuel e (Reader.new file true true 0) st
              (mkRecovered (VersionBuilder.new cur (compact_pointer_ s)) None None None None);
        let '(st, r) := (d : status * recovered) in
        let s := set_pointers (VersionBuilder.compact_pointer_ (rec_builder r)) s in
        let log_number := default 0 (rec_log_number r) in
        let prev_log_number := default 0 (rec_prev_log_number r) in
        let '(st, s) := if ok st then (missing_field r, MarkFileNumberUsed log_number (MarkFileNumberUsed prev_log_number s)) else (st, s) in
        if ok st then
          v ← SaveTo user (rec_builder r);
          s ← AppendVersion (Finalize v) s;
          let next_file := default 0 (rec_next_file r) in
          let s := mkVersionSet (u64 (next_file + 1)) next_file (default 0 (rec_last_sequence r)) log_number prev_log_number
                     (descriptor_log_ s) (compact_pointer_ s) (versions_ s) in
          m ← ReuseManifest dscname current s e;
          let '(reused, s, e) := (m : bool * version_set * E) in
          Ok (st, negb reused, s, e)
        else Ok (st, false, s, e)
    end
  else Ok (Corruption (str "CURRENT file does not end with newline"), false, s, e).

End VersionSet.
Arguments version_set : clear implicits.
Arguments mkVersionSet {W} _ _ _ _ _ _ _ _.
End VersionSet.

Import VersionSet.

(** ** Lemmas *)

(** *** Writing the log through the file system *)

Section log.
Context {E W R : Type} (env : EnvOps E W R) (linked : E → list byte → W → Prop) (data : E → W → list byte) (remaining : E → R → list byte)
  `{!EnvLaws env linked data remaining} (addr : list byte → Z) (Haddr : addr_ok addr).
#[local] Notation writer := (@Writer.writer W).

#[export] Instance log_laws : AppendLaws (log_append env) (log_flush env) (λ f, data f.2 f.1).
Proof.
  split.
  - intros [w e] d. unfold log_append. cbn [fst snd]. destruct (env_append_ok w d e) as (e' & -> & Hd & _). by exists (w, e').
  - intros [w e]. unfold log_flush. cbn [fst snd]. rewrite env_flush_ok. by exists (w, e).
Qed.

(** The files and names that a step on the file [w] leaves alone. *)
Definition touches_only (w : W) (e e' : E) : Prop := (∀ n w', linked e' n w' ↔ linked e n w') ∧ ∀ w', w' ≠ w → data e' w' = data e w'.

Lemma AddRecord_ok w record e : writer_ok w → ∃ w' e' bs, AddRecord env addr w record e = Ok (w', e', status_ok) ∧ Writer.dest_ w' = Writer.dest_ w ∧
  writer_ok w' ∧ frames (Writer.block_offset_ w) true record bs (Writer.block_offset_ w') ∧ data e' (Writer.dest_ w) = data e (Writer.dest_ w) ++ bs ∧
  touches_only (Writer.dest_ w) e e'.
Proof.
  intros [Hw1 Hw2]. unfold AddRecord. set (w0 := Writer.mkWriter (Writer.dest_ w, e) _ _).
  destruct (AddRecord_frames (log_append env) (log_flush env) (λ f, data f.2 f.1) addr Haddr w0 record (conj Hw1 Hw2)) as (w1 & bs & E1 & [Hw1' Hw2'] & Hf & Hc).
  pose proof (AddRecord_inv (log_append env) (log_flush env) addr (λ f, f.1 = Writer.dest_ w ∧ touches_only (Writer.dest_ w) e f.2)) as Hinv.
  destruct (Hinv) with (w := w0) (data := record) (w' := w1) (s := status_ok) as [Hd Ht]; [| |done|done|].
  - intros [w' e'] d H. cbn [fst snd] in H. destruct H as [H0 [H1 H2]]. subst w'. unfold log_append. cbn [fst snd]. destruct (env_append_ok (Writer.dest_ w) d e') as (e2 & -> & _ & Ho & Hl). cbn.
    split; [done|]. split; [intros n w'; by rewrite Hl|]. intros w' Hne. by rewrite Ho, H2.
  - intros [w' e'] H. unfold log_flush. cbn [fst snd] in *. by rewrite env_flush_ok.
  - rewrite E1. cbn [mbind outcome_bind fst snd]. rewrite Hd. eexists _, _, bs. split; [reflexivity|]. split; [done|]. split; [done|]. split; [done|].
    cbn [fst snd] in Hc. rewrite Hd in Hc. done.
Qed.

(** The file of [w] is the log of the edits. *)
Definition logs (e : E) (w : writer) (es : list VersionEdit.version_edit) : Prop :=
  writer_ok w ∧ ∃ rs, Forall2 (λ ed r, VersionEdit.EncodeTo ed [] = Ok r) es rs ∧ log_of 0 rs (data e (Writer.dest_ w)) (Writer.block_offset_ w).

Lemma logs_nil e file : data e file = [] → logs e (Writer.mkWriter file 0 type_crcs) [].
Proof. intros Hd. split; [split; [done | unfold kBlockSize; cbn; lia]|]. exists []. cbn. rewrite Hd. split; constructor. Qed.
Lemma logs_add e w es ed record : logs e w es → VersionEdit.EncodeTo ed [] = Ok record →
  ∃ w' e', AddRecord env addr w record e = Ok (w', e', status_ok) ∧ Writer.dest_ w' = Writer.dest_ w ∧ logs e' w' (es ++ [ed]) ∧ touches_only (Writer.dest_ w) e e'.
Proof.
  intros [Hw (rs & Hrs & Hl)] He. destruct (AddRecord_ok w record e Hw) as (w' & e' & bs & E1 & Hd & Hw' & Hf & Hdata & Ht).
  exists w', e'. split; [done|]. split; [done|]. split; [|done]. split; [done|]. exists (rs ++ [record]). split; [apply Forall2_app; [done | by constructor]|].
  rewrite Hd, Hdata. eapply log_of_app; [done|]. rewrite <- (app_nil_r bs). econstructor; [done|]. constructor.
Qed.
End log.

(** *** Versions with the same files *)

Section built.
Context (user : Comparator) `{Huser : !ComparatorLaws any_key user}.
#[local] Notation sorted := (StronglySorted (Rfile user)).

(** What the descriptor stores of the files of a version: everything but the counts of
    references and of seeks. *)
Definition built (v : version) : list (list FileMetaData) := map (map build) (files_ v).

Lemma built_level v level : map build (level_files v level) = default [] (built v !! level).
Proof. unfold built, level_files. rewrite list_lookup_fmap. by destruct (files_ v !! level). Qed.
Lemma built_same v w level : built v = built w → map build (level_files v level) = map build (level_files w level).
Proof. intros H. by rewrite !built_level, H. Qed.
Lemma elem_built f l : f ∈ l → build f ∈ map build l.
Proof. apply list_elem_of_fmap_2. Qed.

Lemma ranges_ok_built l : ranges_ok user (map build l) ↔ ranges_ok user l.
Proof. split; [intros H f Hf; apply (H (build f)); by apply elem_built | intros H f [g [-> Hg]]%list_elem_of_fmap; by apply (H g)]. Qed.
Lemma sorted_built l : sorted (map build l) ↔ sorted l.
Proof.
  induction l as [|f l IH]; [done|]. cbn [map]. split; intros [H1 H2]%StronglySorted_inv; (constructor; [by apply IH|]); rewrite Forall_forall in H2 |- *.
  - intros g Hg. by apply (H2 (build g)), elem_built.
  - intros g [h [-> Hh]]%list_elem_of_fmap. by apply (H2 h).
Qed.
Lemma chain_built l : chain user (map build l) = chain user l.
Proof. induction l as [|f [|g l] IH]; [done | done|]. cbn [map chain] in *. by rewrite IH. Qed.
Lemma ordered_built level l : ordered user level (map build l) = ordered user level l.
Proof. unfold ordered. by rewrite chain_built. Qed.
Lemma number_built l : map number (map build l) = map number l.
Proof. by induction l as [|f l IH]; [|cbn; rewrite IH]. Qed.
Lemma build_build f : build (build f) = build f.
Proof. done. Qed.
Lemma new_at_built ps level : map build (new_at ps level) = new_at ps level.
Proof. unfold new_at. rewrite map_map. done. Qed.

Lemma levels_ok_built v w : levels_ok user v → built w = built v → levels_ok user w.
Proof.
  intros [H1 H2 H3 H4] E. assert (∀ level, map build (level_files w level) = map build (level_files v level)) as El by (intros level; by apply built_same).
  split; [| intros level; apply ranges_ok_built; rewrite El; by apply ranges_ok_built | intros level; apply sorted_built; rewrite El; by apply sorted_built | intros level; rewrite <- ordered_built, El, ordered_built; apply H4].
  apply (f_equal length) in E. unfold built in E. rewrite !length_map in E. by rewrite E.
Qed.

Lemma levels_built v w : levels_ok user v → levels_ok user w → (∀ level, map build (level_files v level) = map build (level_files w level)) → built v = built w.
Proof.
  intros [H1 _ _ _] [H2 _ _ _] H. apply list_eq. intros i. specialize (H i). rewrite !built_level in H.
  destruct (built v !! i) as [x|] eqn:E1, (built w !! i) as [y|] eqn:E2; cbn in H; try (by subst); unfold built in *.
  - apply lookup_lt_Some in E1. apply lookup_ge_None in E2. rewrite length_map in *. lia.
  - apply lookup_lt_Some in E2. apply lookup_ge_None in E1. rewrite length_map in *. lia.
Qed.

(** What one edit makes of a version. *)
Definition after_edit (v : version) (e : VersionEdit.version_edit) (level : nat) (f : FileMetaData) : Prop :=
  (f ∈ level_files v level ∧ (Z.of_nat level, number f) ∉ VersionEdit.deleted_files_ e) ∨ f ∈ new_at (VersionEdit.new_files_ e) level.
Definition fresh_edit (v : version) (e : VersionEdit.version_edit) : Prop := ∀ level,
  NoDup (added_numbers [e] level) ∧ ∀ n, n ∈ added_numbers [e] level → ∀ g, g ∈ level_files v level → number g ≠ n.

Lemma fresh_edit_for v e pointers : fresh_edit v e → fresh_for [e] (VersionBuilder.new v pointers).
Proof. intros H level. destruct (H level) as [H1 H2]. split; [done|]. intros n Hn g. rewrite level_at_new. intros [?%elem_of_nil|Hg]; [done | by apply H2]. Qed.
Lemma edit_step v e pointers : levels_ok user v → length pointers = 7%nat → edit_fits user e → fresh_edit v e →
  ∃ b, Apply user e (VersionBuilder.new v pointers) = Ok b ∧ builder_ok user b ∧ VersionBuilder.compact_pointer_ b = pointed pointers (VersionEdit.compact_pointers_ e) ∧ (∀ level f, f ∈ VersionBuilder.saved user b level ↔ after_edit v e level f) ∧
    ∀ v', SaveTo user b = Ok v' → levels_ok user v' ∧ ∀ level, level_files v' level = VersionBuilder.saved user b level.
Proof.
  intros Hv Hp He Hf. destruct (Apply_step user e [] (VersionBuilder.new v pointers) v) as (b' & c & _ & Ec & _ & Hc & _ & Ebase & _ & _ & _ & Hs);
    [by apply new_builder_ok | done | intros level; by rewrite saved_new | done | by apply fresh_edit_for|].
  destruct (Apply_spec user e (VersionBuilder.new v pointers)) as (c' & Ec' & _ & _ & Hptr & _); [by apply new_builder_ok | done | by apply (edit_fresh_of []), fresh_edit_for|].
  cbn [VersionBuilder.compact_pointer_ VersionBuilder.new] in Ec, Hptr. exists c. split; [done|]. split; [done|]. split; [congruence|]. split; [done|]. intros v' E. apply (saved_version user c); [done | | done].
  rewrite Ebase. intros l Hl. by apply (levels_beyond user).
Qed.

(** An edit that succeeds on a version succeeds on each with the same files. *)
Lemma after_edit_built v w e level : built v = built w → ∀ f, f ∈ map build (level_files v level) ∧ (Z.of_nat level, number f) ∉ VersionEdit.deleted_files_ e ∨ f ∈ new_at (VersionEdit.new_files_ e) level ↔
    ∃ g, f = build g ∧ after_edit w e level g.
Proof.
  intros E f. rewrite (built_same v w level E). unfold after_edit. split.
  - intros [[[g [-> Hg]]%list_elem_of_fmap Hn]|Hf]; [exists g; split; [done | by left]|]. rewrite <- new_at_built in Hf. apply list_elem_of_fmap in Hf as (g & -> & Hg). exists g. split; [done | by right].
  - intros (g & -> & [[Hg Hn]|Hg]); [left; split; [by apply elem_built | done] | right; rewrite <- new_at_built; by apply elem_built].
Qed.
Lemma edit_same v w e pointers b v' : levels_ok user v → built w = built v → length pointers = 7%nat → edit_fits user e → fresh_edit v e →
  Apply user e (VersionBuilder.new v pointers) = Ok b → SaveTo user b = Ok v' →
  ∀ pointers', length pointers' = 7%nat → ∃ c w', Apply user e (VersionBuilder.new w pointers') = Ok c ∧ SaveTo user c = Ok w' ∧ levels_ok user v' ∧ levels_ok user w' ∧ built w' = built v' ∧
    length (VersionBuilder.compact_pointer_ c) = 7%nat ∧ length (VersionBuilder.compact_pointer_ b) = 7%nat.
Proof.
  intros Hv Ew Hp He Hf Eb Es pointers' Hp'. pose proof (levels_ok_built v w Hv Ew) as Hw.
  assert (fresh_edit w e) as Hfw.
  { intros level. destruct (Hf level) as [H1 H2]. split; [done|]. intros n Hn g Hg. pose proof (elem_built g _ Hg) as Hg'. rewrite (built_same w v level Ew) in Hg'.
    apply list_elem_of_fmap in Hg' as (h & E & Hh). replace (number g) with (number h) by (by apply (f_equal number) in E). by apply H2. }
  destruct (edit_step v e pointers Hv Hp He Hf) as (b0 & Eb0 & Hb & _ & Hbs & Hb'). assert (b0 = b) as -> by congruence.
  destruct (edit_step w e pointers' Hw Hp' He Hfw) as (c & Ec & Hc & _ & Hcs & Hc'). destruct (Hb' v' Es) as [Hv' Hl].
  assert (∀ level, map build (VersionBuilder.saved user c level) = map build (VersionBuilder.saved user b level)) as Hsame.
  { intros level. apply (sorted_unique user); [by apply ranges_ok_built, saved_ranges | by apply sorted_built, saved_sorted | by apply sorted_built, saved_sorted|].
    intros f. rewrite !list_elem_of_fmap. setoid_rewrite Hcs. setoid_rewrite Hbs. setoid_rewrite <- (after_edit_built v w e level (eq_sym Ew)). by setoid_rewrite <- (after_edit_built v v e level eq_refl). }
  pose proof (SaveTo_spec user c Hc) as Ecs. rewrite (SaveTo_spec user b Hb) in Es. destruct (forallb (λ level, ordered user level (VersionBuilder.saved user b level)) (seq 0 7)) eqn:Eo; [|done].
  assert (forallb (λ level, ordered user level (VersionBuilder.saved user c level)) (seq 0 7) = true) as Eo'.
  { rewrite <- Eo. clear -Hsame Huser. induction (seq 0 7) as [|level l IH]; [done|]. cbn [forallb]. by rewrite IH, <- ordered_built, Hsame, ordered_built. }
  rewrite Eo' in Ecs. destruct (Hc' _ Ecs) as [Hw' Hlw]. eexists c, _. split; [done|]. split; [done|]. split; [done|]. split; [done|].
  split; [apply levels_built; [done | done|]; intros level; by rewrite Hlw, Hl|]. split; apply bo_pointers with (user := user); assumption.
Qed.
End built.

(** *** The snapshot *)

Section snapshot.
Context (user : Comparator) `{Huser : !ComparatorLaws any_key user} (user_name : list byte) (Hname : blen user_name < 2 ^ 32).
Import VersionEdit.

Definition entries (v : version) (level : nat) : list (Z * FileMetaData) :=
  map (λ f, (Z.of_nat level, new_file (number f) (file_size f) (smallest f) (largest f))) (level_files v level).
Lemma save_files_spec v level e : save_files v level e = with_files (compact_pointers_ e) (deleted_files_ e) (new_files_ e ++ entries v level) e.
Proof.
  unfold save_files, entries. revert e. induction (level_files v level) as [|f l IH]; intros e; cbn [foldl map]; [rewrite app_nil_r; by destruct e|].
  rewrite IH. cbn [AddFile with_files compact_pointers_ deleted_files_ new_files_]. by rewrite <- app_assoc.
Qed.
Lemma save_all_spec v levels : ∀ e, foldl (λ e level, save_files v level e) e levels =
  with_files (compact_pointers_ e) (deleted_files_ e) (new_files_ e ++ concat (map (entries v) levels)) e.
Proof.
  induction levels as [|level levels IH]; intros e; cbn [foldl map concat]; [rewrite app_nil_r; by destruct e|].
  rewrite IH, save_files_spec. cbn [with_files compact_pointers_ deleted_files_ new_files_]. by rewrite <- app_assoc.
Qed.

(** Pointers as a version set keeps them. *)
Definition pointers_ok (pointers : list (list byte)) : Prop := length pointers = 7%nat ∧ Forall (λ k, blen k < 2 ^ 32) pointers.
Lemma pointed_ok pointers ps : pointers_ok pointers → Forall (λ p, level_ok p.1 ∧ key_ok p.2) ps → pointers_ok (pointed pointers ps).
Proof.
  intros Hp Hps. revert pointers Hp. induction Hps as [|[z k] ps [_ [_ Hk]] _ IH]; intros pointers Hp; [done|]. apply IH. destruct Hp as [H1 H2].
  split; [by rewrite length_insert | by apply Forall_insert].
Qed.
Lemma save_pointers_spec pointers levels : Forall (λ k, blen k < 2 ^ 32) pointers → Forall (λ level, level < 7)%nat levels → ∀ e, ∃ ps,
  foldl (λ e level, save_pointer pointers level e) e levels = with_files (compact_pointers_ e ++ ps) (deleted_files_ e) (new_files_ e) e ∧
  Forall (λ p, level_ok p.1 ∧ key_ok p.2) ps.
Proof.
  intros Hp. induction 1 as [|level levels Hl _ IH]; intros e; cbn [foldl]; [exists []; rewrite app_nil_r; by destruct e|].
  destruct (IH (save_pointer pointers level e)) as (ps & -> & Hps). unfold save_pointer. destruct (pointers !! level) as [[|b k]|] eqn:E; try (by exists ps).
  cbn [SetCompactPointer with_files compact_pointers_ deleted_files_ new_files_]. exists ((Z.of_nat level, b :: k) :: ps). rewrite <- app_assoc. split; [done|]. constructor; [|done].
  split; [unfold level_ok, kNumLevels; cbn; lia|]. split; [done|]. rewrite Forall_forall in Hp. apply Hp. by eapply list_elem_of_lookup_2.
Qed.

Lemma snapshot_spec v pointers : pointers_ok pointers → ∃ ps, snapshot_edit user_name v pointers =
  with_files ps [] (concat (map (entries v) (seq 0 7))) (SetComparatorName user_name new) ∧ Forall (λ p, level_ok p.1 ∧ key_ok p.2) ps.
Proof.
  intros [_ Hp]. unfold snapshot_edit. change (Z.to_nat kNumLevels) with 7%nat.
  destruct (save_pointers_spec pointers (seq 0 7) Hp ltac:(apply Forall_forall; intros l Hl%elem_of_seq; lia) (SetComparatorName user_name new)) as (ps & -> & Hps).
  rewrite save_all_spec. by exists ps.
Qed.

(** A version that can be written. *)
Record storable (v : version) : Prop := mkStorable {
  st_levels : VersionBuilder.levels_ok user v;
  st_files level f : f ∈ level_files v level → file_ok f;
  st_numbers level : NoDup (map number (level_files v level))
}.
Lemma elem_of_entries v p : p ∈ concat (map (entries v) (seq 0 7)) ↔ ∃ level f, (level < 7)%nat ∧ f ∈ level_files v level ∧ p = (Z.of_nat level, new_file (number f) (file_size f) (smallest f) (largest f)).
Proof.
  rewrite list_elem_of_In, in_concat. split.
  - intros (l & (level & <- & Hl)%in_map_iff & Hin). apply in_seq in Hl. apply list_elem_of_In, list_elem_of_fmap in Hin as (f & -> & Hf). exists level, f. split; [lia | done].
  - intros (level & f & Hl & Hf & ->). exists (entries v level). split; [apply in_map, in_seq; lia|]. apply list_elem_of_In, list_elem_of_fmap. by exists f.
Qed.
Lemma snapshot_edit_ok v pointers : storable v → pointers_ok pointers → edit_ok (snapshot_edit user_name v pointers) ∧ edit_fits user (snapshot_edit user_name v pointers).
Proof.
  intros [H1 H2 _] Hp. destruct (snapshot_spec v pointers Hp) as (ps & -> & Hps). split; split; cbn; try done; try (by constructor).
  - apply Forall_forall. intros p (level & f & Hl & Hf & ->)%elem_of_entries. split; [unfold level_ok, kNumLevels; cbn; lia | by apply (H2 level f)].
  - eapply Forall_impl; [exact Hps|]. by intros p [? [? _]].
  - apply Forall_forall. intros p (level & f & Hl & Hf & ->)%elem_of_entries. split; [unfold level_ok, kNumLevels; cbn; lia|]. apply (vl_ranges user v H1 level f Hf).
Qed.

Lemma new_at_app ps qs level : new_at (ps ++ qs) level = new_at ps level ++ new_at qs level.
Proof. unfold new_at. by rewrite filter_app, map_app. Qed.
Lemma new_at_entries v l level : new_at (entries v l) level = if decide (l = level) then map build (level_files v level) else [].
Proof.
  unfold entries. case_decide as E; [subst l|]; induction (level_files v _) as [|f fs IH]; try done; cbn [map]; rewrite new_at_cons.
  - rewrite decide_True by done. by rewrite IH.
  - by rewrite decide_False by done.
Qed.
Lemma snapshot_new_at v pointers level : VersionBuilder.levels_ok user v → pointers_ok pointers → new_at (new_files_ (snapshot_edit user_name v pointers)) level = map build (level_files v level).
Proof.
  intros Hv Hp. destruct (snapshot_spec v pointers Hp) as (ps & -> & _). cbn [new_files_ with_files].
  destruct (decide (level < 7)%nat) as [Hl|Hl].
  - change (seq 0 7) with [0; 1; 2; 3; 4; 5; 6]%nat. cbn [map concat]. rewrite !new_at_app, !new_at_entries.
    do 7 (destruct level as [|level]; [cbn; by rewrite ?app_nil_r|]). lia.
  - rewrite (levels_beyond user v level Hv) by lia. change (seq 0 7) with [0; 1; 2; 3; 4; 5; 6]%nat. cbn [map concat]. rewrite !new_at_app, !new_at_entries.
    rewrite !decide_False by lia. done.
Qed.

Lemma empty_fresh e : (∀ level, NoDup (added_numbers [e] level)) → fresh_edit empty_version e.
Proof. intros H level. split; [done|]. intros n _ g. rewrite empty_level. by intros ?%elem_of_nil. Qed.
Lemma added_one e level : added_numbers [e] level = map number (new_at (new_files_ e) level).
Proof. unfold added_numbers. cbn [map concat]. by rewrite app_nil_r. Qed.

(** Replaying the snapshot makes the version it was taken of. *)
Lemma snapshot_applied v pointers pointers' : storable v → pointers_ok pointers → length pointers' = 7%nat →
  ∃ w p, apply_each user [snapshot_edit user_name v pointers] empty_version pointers' = Ok (w, p) ∧ VersionBuilder.levels_ok user w ∧ built w = built v ∧ length p = 7%nat.
Proof.
  intros Hst Hp Hp'. pose proof Hst as [Hv Hfiles Hnum]. destruct (snapshot_edit_ok v pointers Hst Hp) as [_ Hfit].
  destruct (edit_step user empty_version (snapshot_edit user_name v pointers) pointers') as (b & Eb & Hb & _ & Hs & Hsave); [apply empty_levels_ok | done | done | |].
  { apply empty_fresh. intros level. rewrite added_one, snapshot_new_at by done. by rewrite number_built. }
  assert (∀ level, VersionBuilder.saved user b level = map build (level_files v level)) as Hl.
  { intros level. apply (sorted_unique user); [by apply saved_ranges | by apply saved_sorted | apply sorted_built; by apply vl_sorted|].
    intros f. rewrite Hs. unfold after_edit. rewrite empty_level, snapshot_new_at by done. split; [by intros [[?%elem_of_nil _]|?] | by right]. }
  pose proof (SaveTo_spec user b Hb) as E. assert (forallb (λ level, ordered user level (VersionBuilder.saved user b level)) (seq 0 7) = true) as Eo.
  { apply forallb_forall. intros level _. rewrite Hl, ordered_built. by apply vl_ordered. }
  rewrite Eo in E. destruct (Hsave _ E) as [Hw Hlw]. cbn [apply_each]. rewrite Eb. cbn [mbind outcome_bind]. rewrite E. cbn [mbind outcome_bind]. eexists _, _. split; [reflexivity|].
  split; [done|]. split; [|apply (bo_pointers user b Hb)]. apply (levels_built user); [done | done|]. intros level. rewrite Hlw, Hl, map_map. done.
Qed.
End snapshot.

(** *** The descriptor *)

Section descriptor.
Context (user : Comparator) `{Huser : !ComparatorLaws any_key user} (user_name : list byte) (Hname : blen user_name < 2 ^ 32).
Context {E W R : Type} (env : EnvOps E W R) (linked : E → list byte → W → Prop) (data : E → W → list byte) (remaining : E → R → list byte)
  `{!EnvLaws env linked data remaining} (addr : list byte → Z) (Haddr : addr_ok addr) (dbname : list byte).
#[local] Notation writer := (@Writer.writer W).
#[local] Notation logs := (logs data).

Definition manifest_base (n : Z) : list byte := str "MANIFEST-" ++ print6 n.
Definition manifest_name (n : Z) : list byte := dbname ++ str "/" ++ manifest_base n.

(** The descriptor file holds the edits [es], and CURRENT names it. *)
Record manifest (s : version_set W) (e : E) (w : writer) (es : list VersionEdit.version_edit) : Prop := mkManifest {
  mf_log : descriptor_log_ s = Some w;
  mf_logs : logs e w es;
  mf_linked : linked e (manifest_name (manifest_file_number_ s)) (Writer.dest_ w);
  mf_current : ∃ c, linked e (CurrentFileName dbname) c ∧ c ≠ Writer.dest_ w ∧ data e c = manifest_base (manifest_file_number_ s) ++ [z2b 10]
}.
Record counters_ok (s : version_set W) : Prop := mkCountersOk {
  ct_manifest : is_u64 (manifest_file_number_ s) ∧ 0 < manifest_file_number_ s;
  ct_next : is_u64 (next_file_number_ s);
  ct_last : is_u64 (last_sequence_ s);
  ct_log : is_u64 (log_number_ s);
  ct_prev : is_u64 (prev_log_number_ s)
}.

Lemma manifest_not_temp n m : manifest_name n ≠ MakeFileName dbname m (str "dbtmp") ∨ ¬ is_u64 m.
Proof.
  destruct (decide (is_u64 m)) as [Hm|Hm]; [left | by right]. unfold manifest_name, MakeFileName. intros H%app_inv_head%app_inv_head.
  destruct (print6_digits m Hm) as (ds & Ed & Hne & Hall & _). rewrite Ed in H. symmetry in H. by apply digits_head in H.
Qed.
Lemma manifest_not_current n : manifest_name n ≠ CurrentFileName dbname.
Proof. unfold manifest_name, CurrentFileName. intros H%app_inv_head. done. Qed.

Lemma logs_data e e' w es : data e' (Writer.dest_ w) = data e (Writer.dest_ w) → logs e w es → logs e' w es.
Proof. intros Hd [Hw (rs & Hrs & Hl)]. split; [done|]. exists rs. by rewrite Hd. Qed.

(** *** Completing an edit *)

Record completes (edit edit' : VersionEdit.version_edit) : Prop := mkCompletes {
  cp_ok : edit_ok edit';
  cp_pointers : VersionEdit.compact_pointers_ edit' = VersionEdit.compact_pointers_ edit;
  cp_deleted : VersionEdit.deleted_files_ edit' = VersionEdit.deleted_files_ edit;
  cp_new : VersionEdit.new_files_ edit' = VersionEdit.new_files_ edit;
  cp_comparator : VersionEdit.comparator_ edit' = VersionEdit.comparator_ edit ∧ VersionEdit.has_comparator_ edit' = VersionEdit.has_comparator_ edit;
  cp_set : VersionEdit.has_log_number_ edit' = true ∧ VersionEdit.has_prev_log_number_ edit' = true ∧
    VersionEdit.has_next_file_number_ edit' = true ∧ VersionEdit.has_last_sequence_ edit' = true
}.
Lemma complete_edit_spec edit s edit' : edit_ok edit → counters_ok s → complete_edit edit s = Ok edit' →
  completes edit edit' ∧ VersionEdit.last_sequence_ edit' = last_sequence_ s ∧ VersionEdit.next_file_number_ edit' = next_file_number_ s.
Proof.
  intros He [_ H2 H3 H4 H5]. unfold complete_edit. destruct edit as [cm lg pv nx ls hc hl hp hn hs ps ds fs].
  cbn [VersionEdit.has_log_number_ VersionEdit.log_number_]. destruct He as [K1 K2 K3 K4 K5 K6 K7 K8 K9]. cbn in *.
  destruct hl; [destruct (negb (log_number_ s <=? lg)); [done|]; destruct (negb (lg <? next_file_number_ s)); [done|]|];
    cbn [mbind outcome_bind]; intros [= <-]; destruct hp; (split; [split; [split|..] | done]); cbn; try done; by destruct K2, K3.
Qed.
Lemma completes_next edit edit' n : completes edit edit' → is_u64 n → completes edit (VersionEdit.SetNextFile n edit').
Proof. intros [[] ? ? ? ? (? & ? & ? & ?)] Hn. by split. Qed.
Lemma completes_fits edit edit' : completes edit edit' → edit_fits user edit → edit_fits user edit'.
Proof. intros [_ H1 H2 H3 _ _] []. split; by rewrite ?H1, ?H2, ?H3. Qed.
Lemma completes_Apply edit edit' b : completes edit edit' → Apply user edit' b = Apply user edit b.
Proof. intros [_ H1 H2 H3 _ _]. unfold Apply. by rewrite H1, H2, H3. Qed.

(** *** Writing the descriptor *)

Lemma open_descriptor_ok s e v : descriptor_log_ s = None → current_ s = Ok v → storable user v → pointers_ok (compact_pointer_ s) → counters_ok s →
  ∃ e' w, open_descriptor user_name env addr dbname s e = Ok (set_descriptor (manifest_file_number_ s) (Some w) s, e', status_ok, Some (manifest_name (manifest_file_number_ s))) ∧
    logs e' w [snapshot_edit user_name v (compact_pointer_ s)] ∧ linked e' (manifest_name (manifest_file_number_ s)) (Writer.dest_ w).
Proof.
  intros Hnone Hv Hst Hp [[_ Hpos] _ _ _ _]. unfold open_descriptor, DescriptorFileName. rewrite Hnone. destruct (Z.ltb_spec 0 (manifest_file_number_ s)); [|lia]. cbn [mbind outcome_bind].
  change (dbname ++ str "/MANIFEST-" ++ print6 (manifest_file_number_ s)) with (manifest_name (manifest_file_number_ s)).
  destruct (env_writable_ok (manifest_name (manifest_file_number_ s)) e) as (e1 & file & -> & Hl & Hd & _). rewrite (InitTypeCrc_spec addr Haddr). cbn [mbind outcome_bind].
  unfold WriteSnapshot. rewrite Hv. cbn [mbind outcome_bind]. destruct (snapshot_edit_ok user user_name Hname v (compact_pointer_ s) Hst Hp) as [Hok _].
  destruct (edit_encoded _ VersionEdit.new [] Hok) as (bytes & Eb & _). rewrite Eb. cbn [mbind outcome_bind app].
  destruct (logs_add env linked data remaining addr Haddr e1 (Writer.mkWriter file 0 type_crcs) [] _ bytes (logs_nil data e1 file Hd) Eb) as (w & e2 & -> & Hdest & Hlogs & Ht & _).
  cbn [mbind outcome_bind fst snd]. exists e2, w. split; [done|]. split; [done|]. rewrite Hdest. by apply Ht.
Qed.

Lemma write_descriptor_ok s e w es edit created : counters_ok s → descriptor_log_ s = Some w → logs e w es → linked e (manifest_name (manifest_file_number_ s)) (Writer.dest_ w) →
  (created = false → manifest s e w es) → edit_ok edit →
  ∃ w' e', write_descriptor env addr dbname edit created status_ok s e = Ok (set_descriptor (manifest_file_number_ s) (Some w') s, e', status_ok) ∧
    manifest (set_descriptor (manifest_file_number_ s) (Some w') s) e' w' (es ++ [edit]).
Proof.
  intros [[Hn Hpos] _ _ _ _] Hw Hlogs Hlink Hman Hok. unfold write_descriptor. change (ok status_ok) with true. cbv iota.
  destruct (edit_encoded _ VersionEdit.new [] Hok) as (bytes & Eb & _). rewrite Eb. cbn [mbind outcome_bind app]. rewrite Hw.
  destruct (logs_add env linked data remaining addr Haddr e w es edit bytes Hlogs Eb) as (w' & e1 & -> & Hdest & Hlogs1 & Ht & Hd).
  cbn [mbind outcome_bind fst snd]. change (ok status_ok) with true. cbv iota. rewrite env_sync_ok. cbn [mbind outcome_bind]. change (ok status_ok) with true. cbn [andb].
  destruct created.
  - destruct (SetCurrentFile_ok env linked data remaining dbname (manifest_file_number_ s) e1 Hpos Hn) as (e2 & c & E2 & Hc & Hdc & Hf).
    cbn [manifest_file_number_ set_descriptor]. rewrite E2. cbn [mbind outcome_bind fst snd].
    destruct (Hf (manifest_name (manifest_file_number_ s)) (Writer.dest_ w)) as (Hne & Hl2 & Hd2); [apply manifest_not_current | | by apply Ht |].
    { destruct (manifest_not_temp (manifest_file_number_ s) (manifest_file_number_ s)) as [H|H]; [exact H | done]. }
    exists w', e2. split; [done|]. split; [done | | by rewrite Hdest | exists c; rewrite Hdest].
    + apply (logs_data e1); [by rewrite Hdest | done].
    + split; [done|]. split; [done|]. rewrite Hdc. unfold manifest_base. by rewrite <- app_assoc.
  - destruct (Hman eq_refl) as [_ _ _ (c & Hc & Hne & Hdc)]. exists w', e1. split; [done|]. split; [done | done | rewrite Hdest; by apply Ht | exists c].
    rewrite Hdest. split; [by apply Ht|]. split; [done|]. by rewrite Hd.
Qed.
End descriptor.

(** *** One call of [LogAndApply] *)

Section calls.
Context (user : Comparator) (user_name : list byte).
Context {E W R : Type} (env : EnvOps E W R) (addr : list byte → Z) (dbname : list byte).

(** The steps of a call that returns. *)
Record call_steps (other : version_set W → version_set W) (edit : VersionEdit.version_edit) (s : version_set W) (e : E)
    (st : status) (edit' : VersionEdit.version_edit) (s' : version_set W) (e' : E) : Prop := mkCallSteps {
  cs_edit : VersionEdit.version_edit; cs_cur : version; cs_builder : builder; cs_new : version;
  cs_state : version_set W; cs_env : E; cs_status : status; cs_created : option (list byte);
  cs_written : version_set W; cs_after : E;
  cs_complete : complete_edit edit s = Ok cs_edit;
  cs_current : current_ s = Ok cs_cur;
  cs_apply : Apply user cs_edit (VersionBuilder.new cs_cur (compact_pointer_ s)) = Ok cs_builder;
  cs_save : SaveTo user cs_builder = Ok cs_new;
  cs_open : open_descriptor user_name env addr dbname (set_pointers (VersionBuilder.compact_pointer_ cs_builder) s) e = Ok (cs_state, cs_env, cs_status, cs_created);
  cs_final : edit' = match cs_created with Some _ => VersionEdit.SetNextFile (next_file_number_ cs_state) cs_edit | None => cs_edit end;
  cs_write : write_descriptor env addr dbname edit' (bool_decide (is_Some cs_created)) cs_status cs_state cs_env = Ok (cs_written, cs_after, st);
  cs_result : if ok st then ∃ s3, AppendVersion (Finalize cs_new) (other cs_written) = Ok s3 ∧ e' = cs_after ∧
                s' = set_log_numbers (VersionEdit.log_number_ edit') (VersionEdit.prev_log_number_ edit') s3
              else (s', e') = match cs_created with
                              | Some name => (set_descriptor (manifest_file_number_ (other cs_written)) None (other cs_written), (DeleteFile env name cs_after).1)
                              | None => (other cs_written, cs_after)
                              end
}.

Lemma LogAndApply_steps other edit s e st edit' s' e' : LogAndApply user user_name env addr dbname other edit s e = Ok (st, edit', s', e') →
  call_steps other edit s e st edit' s' e'.
Proof.
  unfold LogAndApply. destruct (complete_edit edit s) as [ed| | |] eqn:E1; try done. cbn [mbind outcome_bind].
  destruct (current_ s) as [v| | |] eqn:E2; try done. cbn [mbind outcome_bind].
  destruct (Apply user ed _) as [b| | |] eqn:E3; try done. cbn [mbind outcome_bind].
  destruct (SaveTo user b) as [v'| | |] eqn:E4; try done. cbn [mbind outcome_bind].
  destruct (open_descriptor _ _ _ _ _ e) as [[[[s1 e1] st1] created]| | |] eqn:E5; try done. cbn [mbind outcome_bind].
  set (ed' := match created with Some _ => _ | None => ed end).
  destruct (write_descriptor _ _ _ ed' _ _ _ _) as [[[s2 e2] st2]| | |] eqn:E6; try done. cbn [mbind outcome_bind].
  assert (∀ st, (if ok st then ∃ s3, AppendVersion (Finalize v') (other s2) = Ok s3 ∧ e' = e2 ∧ s' = set_log_numbers (VersionEdit.log_number_ ed') (VersionEdit.prev_log_number_ ed') s3
    else (s', e') = match created with Some name => (set_descriptor (manifest_file_number_ (other s2)) None (other s2), (DeleteFile env name e2).1) | None => (other s2, e2) end) → st2 = st → edit' = ed' → call_steps other edit s e st edit' s' e') as H.
  { intros st3 Hres <- ->. by eapply (mkCallSteps other edit s e st2 ed' s' e' ed v b v' s1 e1 st1 created s2 e2). }
  intros Hrun. apply (H st); [| |].
  - destruct (ok st2) eqn:Eo; [destruct (AppendVersion _ _) as [s3| | |]; try done; cbn [mbind outcome_bind] in Hrun | destruct created];
      (assert (st = st2) as -> by congruence); rewrite Eo; [exists s3|..]; split_and?; congruence.
  - destruct (ok st2); [destruct (AppendVersion _ _); try done; cbn [mbind outcome_bind] in Hrun | destruct created]; congruence.
  - destruct (ok st2); [destruct (AppendVersion _ _); try done; cbn [mbind outcome_bind] in Hrun | destruct created]; congruence.
Qed.

Lemma open_descriptor_state s e s1 e1 st1 created : open_descriptor user_name env addr dbname s e = Ok (s1, e1, st1, created) →
  (∃ d, s1 = set_descriptor (manifest_file_number_ s) d s) ∧
  match descriptor_log_ s with Some _ => created = None | None => ∃ name, DescriptorFileName dbname (manifest_file_number_ s) = Ok name ∧ created = Some name end.
Proof.
  unfold open_descriptor. destruct (descriptor_log_ s) as [w|] eqn:Ed; [intros [= <- <- <- <-]; split; [exists (Some w); rewrite <- Ed; by destruct s | done]|].
  destruct (DescriptorFileName _ _) as [name| | |]; try done. cbn [mbind outcome_bind]. destruct (NewWritableFile env name e) as [e2 [st|file]].
  - intros [= <- <- <- <-]. split; [exists None; rewrite <- Ed; by destruct s | by exists name].
  - destruct (Writer.InitTypeCrc addr) as [tc| | |]; try done. cbn [mbind outcome_bind]. destruct (WriteSnapshot _ _ _ _ _ _) as [[[w e3] st]| | |]; try done.
    cbn [mbind outcome_bind fst snd]. intros [= <- <- <- <-]. split; [by exists (Some w) | by exists name].
Qed.
Lemma write_descriptor_state edit created st s e s2 e2 st2 : write_descriptor env addr dbname edit created st s e = Ok (s2, e2, st2) →
  ∃ d, s2 = set_descriptor (manifest_file_number_ s) d s.
Proof.
  unfold write_descriptor. assert (∀ r : version_set W * E * status, (if ok r.2 && created then q ← SetCurrentFile env dbname (manifest_file_number_ r.1.1) r.1.2; Ok (r.1.1, q.1, q.2) else Ok r) = Ok (s2, e2, st2) → s2 = r.1.1) as H.
  { intros [[t f] u]. cbn. destruct (_ && _); [|by intros [= <- <- <-]]. destruct (SetCurrentFile _ _ _ _); try done. cbn [mbind outcome_bind]. by intros [= <- _ _]. }
  assert (s = set_descriptor (manifest_file_number_ s) (descriptor_log_ s) s) as Es by by destruct s.
  destruct (ok st); cbn [mbind outcome_bind]; [|intros Hr; apply (H (s, e, st)) in Hr as ->; by exists (descriptor_log_ s)].
  destruct (VersionEdit.EncodeTo edit []) as [record| | |]; try done. cbn [mbind outcome_bind]. destruct (descriptor_log_ s) as [w|]; [|done].
  destruct (AddRecord _ _ _ _ _) as [[[w' e'] st']| | |]; try done. cbn [mbind outcome_bind]. destruct (if ok st' then _ else _) as [e3 st3]. cbn [mbind outcome_bind].
  intros Hr. apply (H (_, e3, st3)) in Hr as ->. by exists (Some w').
Qed.
End calls.

Lemma complete_edit_pointers {W} edit (s : version_set W) ed : complete_edit edit s = Ok ed → VersionEdit.compact_pointers_ ed = VersionEdit.compact_pointers_ edit.
Proof.
  unfold complete_edit. destruct (VersionEdit.has_log_number_ edit).
  - destruct (negb _); [done|]. destruct (negb _); [done|]. cbn [mbind outcome_bind]. intros [= <-]. by destruct (VersionEdit.has_prev_log_number_ edit).
  - cbn [mbind outcome_bind]. intros [= <-]. by destruct (VersionEdit.has_prev_log_number_ _).
Qed.

(** *** Sessions *)

(** What the descriptor must bring back of a state: the files, and the numbers. *)
Record commit := mkCommit { c_size : Z; c_files : list (list FileMetaData); c_log : Z; c_prev : Z; c_next : Z; c_last : Z }.

Section session.
Context (user : Comparator) `{Huser : !ComparatorLaws any_key user} (user_name : list byte) (Hname : blen user_name < 2 ^ 32).
Context {E W R : Type} (env : EnvOps E W R) (linked : E → list byte → W → Prop) (data : E → W → list byte) (remaining : E → R → list byte)
  `{!EnvLaws env linked data remaining} (addr : list byte → Z) (Haddr : addr_ok addr) (dbname : list byte).
#[local] Notation writer := (@Writer.writer W).
#[local] Notation manifest := (manifest linked data dbname).

Definition no_pointers : list (list byte) := replicate 7 [].
Definition names_user (e : VersionEdit.version_edit) : Prop := VersionEdit.has_comparator_ e = true → VersionEdit.comparator_ e = user_name.

(** What the state keeps while [LogAndApply] does not run: the descriptor, the log
    numbers and the files of the current version; and on disk CURRENT and the descriptor. *)
Record keeps (s : version_set W) (e : E) (s' : version_set W) (e' : E) : Prop := mkKeeps {
  kp_descriptor : descriptor_log_ s' = descriptor_log_ s ∧ manifest_file_number_ s' = manifest_file_number_ s;
  kp_logs : log_number_ s' = log_number_ s ∧ prev_log_number_ s' = prev_log_number_ s;
  kp_counters : is_u64 (next_file_number_ s) ∧ is_u64 (last_sequence_ s) → is_u64 (next_file_number_ s') ∧ is_u64 (last_sequence_ s');
  kp_pointers : pointers_ok (compact_pointer_ s) → pointers_ok (compact_pointer_ s');
  kp_current v : current_ s = Ok v → ∃ v', current_ s' = Ok v' ∧ built v' = built v;
  kp_files name f : name = CurrentFileName dbname ∨ name = manifest_name dbname (manifest_file_number_ s) → linked e name f → linked e' name f ∧ data e' f = data e f
}.

(** The commit of a call that returned with [s'] and [e'] after it wrote [edit]. *)
Record committed (s' : version_set W) (e' : E) (edit : VersionEdit.version_edit) (c : commit) : Prop := mkCommitted {
  cm_size w : descriptor_log_ s' = Some w → blen (data e' (Writer.dest_ w)) = c_size c;
  cm_files v : current_ s' = Ok v → built v = c_files c;
  cm_logs : log_number_ s' = c_log c ∧ prev_log_number_ s' = c_prev c;
  cm_counters : VersionEdit.next_file_number_ edit = c_next c ∧ VersionEdit.last_sequence_ edit = c_last c
}.

(** A run of the database: [es] are the edits in the descriptor, [cs] the commits. *)
Inductive session : version_set W → E → list VersionEdit.version_edit → list commit → Prop :=
| session_start s e v : descriptor_log_ s = None → counters_ok s → pointers_ok (compact_pointer_ s) → current_ s = Ok v → storable user v → session s e [] []
| session_keeps s e es cs s' e' : session s e es cs → keeps s e s' e' → session s' e' es cs
| session_apply s e es cs v other edit edit' s' e' c : session s e es cs → current_ s = Ok v →
    edit_ok edit → edit_fits user edit → names_user edit → fresh_edit v edit →
    (∀ level n, n ∈ added_numbers [edit] level → n ∉ added_numbers es level) →
    (∀ s e, keeps s e (other s) e) →
    LogAndApply user user_name env addr dbname other edit s e = Ok (status_ok, edit', s', e') → committed s' e' edit' c →
    session s' e' (match es with [] => [snapshot_edit user_name v (pointed (compact_pointer_ s) (VersionEdit.compact_pointers_ edit))] | _ => es end ++ [edit']) (cs ++ [c]).

(** *** What the descriptor holds *)

Definition encodes (e : VersionEdit.version_edit) (r : list byte) : Prop := VersionEdit.EncodeTo e [] = Ok r.
(** The first [n] edits make the files of [c], the last of them has its numbers, and they
    take its size. *)
Record recorded (es : list VersionEdit.version_edit) (n : nat) (c : commit) : Prop := mkRecorded {
  rd_files : ∃ w p, apply_each user (take n es) empty_version no_pointers = Ok (w, p) ∧ built w = c_files c;
  rd_size : ∃ rs bytes b, Forall2 encodes (take n es) rs ∧ log_of 0 rs bytes b ∧ blen bytes = c_size c;
  rd_last : ∃ es0 e, take n es = es0 ++ [e] ∧ (VersionEdit.has_log_number_ e = true ∧ VersionEdit.has_prev_log_number_ e = true ∧
    VersionEdit.has_next_file_number_ e = true ∧ VersionEdit.has_last_sequence_ e = true) ∧
    VersionEdit.log_number_ e = c_log c ∧ VersionEdit.prev_log_number_ e = c_prev c ∧ VersionEdit.next_file_number_ e = c_next c ∧ VersionEdit.last_sequence_ e = c_last c
}.
Record edits_ok (es : list VersionEdit.version_edit) : Prop := mkEditsOk {
  eo_ok : Forall edit_ok es;
  eo_fits : Forall (edit_fits user) es;
  eo_names : Forall names_user es;
  eo_fresh level : NoDup (added_numbers es level)
}.
Record session_ok (s : version_set W) (e : E) (es : list VersionEdit.version_edit) (cs : list commit) : Prop := mkSessionOk {
  so_counters : counters_ok s;
  so_pointers : pointers_ok (compact_pointer_ s);
  so_edits : edits_ok es;
  so_state : ∃ v, current_ s = Ok v ∧ VersionBuilder.levels_ok user v ∧
    ((es = [] ∧ cs = [] ∧ descriptor_log_ s = None ∧ storable user v) ∨
     (length es = S (length cs) ∧ (∃ w, manifest s e w es) ∧
      ∃ v0 p0, apply_each user es empty_version no_pointers = Ok (v0, p0) ∧ built v0 = built v ∧ VersionBuilder.levels_ok user v0 ∧ length p0 = 7%nat));
  so_commits k c : cs !! k = Some c → recorded es (S (S k)) c
}.

Lemma apply_each_app es es' : ∀ v p, apply_each user (es ++ es') v p = r ← apply_each user es v p; apply_each user es' r.1 r.2.
Proof.
  induction es as [|e es IH]; intros v p; cbn [app apply_each]; [done|]. destruct (Apply user e _) as [b| | |]; try done. cbn [mbind outcome_bind].
  destruct (SaveTo user b) as [w| | |]; try done. cbn [mbind outcome_bind]. apply IH.
Qed.
Lemma added_app es es' level : added_numbers (es ++ es') level = added_numbers es level ++ added_numbers es' level.
Proof. unfold added_numbers. by rewrite map_app, concat_app. Qed.
Lemma recorded_app es n c x : recorded es n c → (n ≤ length es)%nat → recorded (es ++ [x]) n c.
Proof. intros [] Hn. split; by rewrite take_app_le. Qed.

Lemma storable_built v w : storable user v → built w = built v → storable user w.
Proof.
  intros [H1 H2 H3] Eb. split; [by apply (levels_ok_built user v)| |]; intros level.
  - intros f Hf. apply elem_built in Hf. rewrite (built_same w v level Eb) in Hf. apply list_elem_of_fmap in Hf as (g & Eg & Hg). pose proof (H2 level g Hg) as Hok.
    unfold file_ok in *. change (number f) with (number (build f)). change (file_size f) with (file_size (build f)). change (smallest f) with (smallest (build f)). change (largest f) with (largest (build f)). by rewrite Eg.
  - rewrite <- number_built, (built_same w v level Eb), number_built. apply H3.
Qed.
Lemma keeps_counters s e s' e' : keeps s e s' e' → counters_ok s → counters_ok s'.
Proof. intros [[_ Hm] [Hl Hp] Hc _ _ _] [H1 H2 H3 H4 H5]. destruct Hc as [? ?]; [done|]. split; by rewrite ?Hm, ?Hl, ?Hp. Qed.
Lemma keeps_manifest s e s' e' w es : keeps s e s' e' → manifest s e w es → manifest s' e' w es.
Proof.
  intros [[Hd Hm] _ _ _ _ Hf] [H1 H2 H3 (c & H4 & H5 & H6)]. destruct (Hf _ _ (or_intror eq_refl) H3) as [H3' Hdata]. destruct (Hf _ _ (or_introl eq_refl) H4) as [H4' Hdc].
  split; [congruence | by apply (logs_data data e) | by rewrite Hm | exists c; rewrite Hdc, Hm; done].
Qed.
Lemma keeps_session s e es cs s' e' : session_ok s e es cs → keeps s e s' e' → session_ok s' e' es cs.
Proof.
  intros [H1 H2 H3 (v & Hv & Hlv & Hst) H5] Hk. split; [by apply (keeps_counters s e s' e') | by apply (kp_pointers s e s' e') | done | | done].
  destruct (kp_current _ _ _ _ Hk v Hv) as (v' & Hv' & Eb). exists v'. split; [done|]. split; [by apply (levels_ok_built user v)|].
  destruct Hst as [(-> & -> & Hn & Hs)|(Hl & (w & Hw) & v0 & p0 & E0 & Eb0 & Hr)].
  - left. split; [done|]. split; [done|]. split; [|by apply (storable_built v)]. rewrite <- Hn. apply (kp_descriptor _ _ _ _ Hk).
  - right. split; [done|]. split; [exists w; by apply (keeps_manifest s e)|]. exists v0, p0. by rewrite Eb.
Qed.

(** The descriptor that a call writes to: the edits in it make the current version. *)
Lemma opened s e es cs v b s1 e1 st1 created : session_ok s e es cs → current_ s = Ok v → pointers_ok (VersionBuilder.compact_pointer_ b) →
  open_descriptor user_name env addr dbname (set_pointers (VersionBuilder.compact_pointer_ b) s) e = Ok (s1, e1, st1, created) →
  let es0 := match es with [] => [snapshot_edit user_name v (VersionBuilder.compact_pointer_ b)] | _ => es end in
  ∃ w, st1 = status_ok ∧ s1 = set_descriptor (manifest_file_number_ s) (Some w) (set_pointers (VersionBuilder.compact_pointer_ b) s) ∧ logs data e1 w es0 ∧
    linked e1 (manifest_name dbname (manifest_file_number_ s)) (Writer.dest_ w) ∧ (bool_decide (is_Some created) = false → manifest s1 e1 w es0) ∧
    length es0 = S (length cs) ∧ edits_ok es0 ∧
    (∀ level n, n ∈ added_numbers es0 level → n ∈ added_numbers es level ∨ n ∈ map number (level_files v level)) ∧
    ∃ v0 p0, apply_each user es0 empty_version no_pointers = Ok (v0, p0) ∧ built v0 = built v ∧ VersionBuilder.levels_ok user v0 ∧ length p0 = 7%nat.
Proof.
  intros [H1 H2 H3 (v1 & Hv1 & Hlv & Hst) H5] Hv Hp Hopen es0. assert (v1 = v) as -> by congruence. set (s0 := set_pointers (VersionBuilder.compact_pointer_ b) s) in *.
  destruct Hst as [(Ees & Ecs & Hn & Hs)|(Hl & (w & Hw) & Hr)].
  - destruct (open_descriptor_ok user user_name Hname env linked data remaining addr Haddr dbname s0 e v) as (e2 & w & E1 & Hlogs & Hlink); try done.
    { by destruct H1. }
    rewrite E1 in Hopen. injection Hopen as <- <- <- <-. exists w. subst es cs es0. destruct (snapshot_edit_ok user user_name Hname v (VersionBuilder.compact_pointer_ b) Hs Hp) as [K1 K2].
    assert (∀ level, added_numbers [snapshot_edit user_name v (VersionBuilder.compact_pointer_ b)] level = map number (level_files v level)) as Ha.
    { intros level. rewrite added_one, (snapshot_new_at user user_name v _ level Hlv Hp). apply number_built. }
    split_and!; try done.
    + split; [by constructor | by constructor | | intros level; rewrite Ha; by apply st_numbers with (user := user)]. constructor; [|done]. intros _.
      by destruct (snapshot_spec user_name v _ Hp) as (ps & -> & _).
    + intros level n. rewrite Ha. by right.
    + destruct (snapshot_applied user user_name Hname v _ no_pointers Hs Hp eq_refl) as (w0 & p & Ew & Hw0 & Eb & Hp0). by exists w0, p.
  - pose proof Hw as [Hd Hlogs Hlink Hcur]. unfold open_descriptor in Hopen. change (descriptor_log_ s0) with (descriptor_log_ s) in Hopen. rewrite Hd in Hopen.
    injection Hopen as <- <- <- <-. exists w. assert (es0 = es) as -> by by destruct es. split_and!; try done; [|by left].
    unfold s0, set_descriptor, set_pointers. cbn. by rewrite <- Hd.
Qed.

Lemma manifest_state s s' e w es : descriptor_log_ s' = descriptor_log_ s → manifest_file_number_ s' = manifest_file_number_ s → manifest s e w es → manifest s' e w es.
Proof. intros H1 H2 []. split; by rewrite ?H1, ?H2. Qed.
Lemma AppendVersion_state {X} v (s s' : version_set X) : AppendVersion v s = Ok s' → (∃ l, s' = set_versions l s) ∧ current_ s' = Ok v.
Proof.
  unfold AppendVersion. assert (∀ t : version_set X, Ok (set_versions (versions_ t ++ [mkNode 1 v]) t) = Ok s' → (∃ l, t = set_versions l s) → (∃ l, s' = set_versions l s) ∧ current_ s' = Ok v) as H.
  { intros t [= <-] (l & ->). split; [by eexists|]. unfold current_. cbn. by rewrite last_snoc. }
  destruct (versions_ s) as [|n l] eqn:Ev; [intros Hr; apply (H s Hr); exists []; rewrite <- Ev; by destruct s|].
  destruct (Unref _ s) as [t| | |] eqn:Eu; try done. cbn [mbind outcome_bind]. intros Hr. apply (H t Hr). revert Eu. unfold Unref. destruct (_ !! _) as [m|]; [|done].
  destruct (negb _); [done|]. destruct (_ =? 0); intros [= <-]; by eexists.
Qed.

Lemma apply_session s e es cs v other edit edit' s' e' c : session_ok s e es cs → current_ s = Ok v →
  edit_ok edit → edit_fits user edit → names_user edit → fresh_edit v edit →
  (∀ level n, n ∈ added_numbers [edit] level → n ∉ added_numbers es level) → (∀ s e, keeps s e (other s) e) →
  LogAndApply user user_name env addr dbname other edit s e = Ok (status_ok, edit', s', e') → committed s' e' edit' c →
  session_ok s' e' (match es with [] => [snapshot_edit user_name v (pointed (compact_pointer_ s) (VersionEdit.compact_pointers_ edit))] | _ => es end ++ [edit']) (cs ++ [c]).
Proof.
  intros Hs Hv Hok Hfit Hnames Hfresh Hnew Hother [ed v1 b v' s1 e1 st1 created s2 e2 Ecomp Ecur Eapply Esave Eopen Efinal Ewrite Hres]%LogAndApply_steps Hc.
  assert (v1 = v) as -> by congruence. pose proof Hs as [H1 H2 H3 (v1 & Hv1 & Hlv & Hst) H5]. assert (v1 = v) as -> by congruence. clear Hst Hv1.
  destruct (complete_edit_spec edit s ed Hok H1 Ecomp) as (Hcomp & Hlast & Hnext). rewrite (completes_Apply user _ _ _ Hcomp) in Eapply.
  destruct (edit_step user v edit (compact_pointer_ s) Hlv (proj1 H2) Hfit Hfresh) as (b1 & Eb1 & Hb & Hptr & _). assert (b1 = b) as -> by congruence.
  assert (pointers_ok (VersionBuilder.compact_pointer_ b)) as Hp by (rewrite Hptr; apply pointed_ok; [done | by apply ok_pointers]).
  destruct (opened s e es cs v b s1 e1 st1 created Hs Hv Hp Eopen) as (w & -> & Es1 & Hlogs & Hlink & Hman & Hlen & [O1 O2 O3 O4] & Hadd & v0 & p0 & E0 & Eb0 & Hlv0 & Hp0).
  rewrite <- Hptr. set (es0 := match es with [] => _ | _ => es end) in *.
  assert (is_u64 (next_file_number_ s1)) as Hnext1 by (rewrite Es1; by destruct H1). assert (completes edit edit') as Hcomp' by (rewrite Efinal; destruct created; [by apply completes_next | done]).
  assert (VersionEdit.last_sequence_ edit' = last_sequence_ s) as Hlast' by (rewrite Efinal; by destruct created).
  destruct (write_descriptor_ok env linked data remaining addr Haddr dbname s1 e1 w es0 edit' (bool_decide (is_Some created))) as (w' & e3 & E3 & Hm);
    [rewrite Es1; by destruct H1 | by rewrite Es1 | done | by rewrite Es1 | done | by apply Hcomp'|].
  rewrite E3 in Ewrite. injection Ewrite as <- <-. change (ok status_ok) with true in Hres. cbv iota in Hres. destruct Hres as (s3 & Happ & -> & ->).
  pose proof (Hother (set_descriptor (manifest_file_number_ s1) (Some w') s1) e3) as Hk. set (s2 := set_descriptor _ _ s1) in *.
  apply AppendVersion_state in Happ as [(l & ->) Hcur].
  pose proof (keeps_manifest _ _ _ _ _ _ Hk Hm) as Hm'. assert (counters_ok (other s2)) as Hcnt by (apply (keeps_counters _ _ _ _ Hk); unfold s2; rewrite Es1; by destruct H1).
  destruct (edit_same user v v0 edit (compact_pointer_ s) b v' Hlv Eb0 (proj1 H2) Hfit Hfresh Eapply Esave p0 Hp0) as (c0 & w0 & Ec0 & Ew0 & Hlv' & Hlw0 & Ebw & Hpc & _).
  assert (apply_each user (es0 ++ [edit']) empty_version no_pointers = Ok (w0, VersionBuilder.compact_pointer_ c0)) as Eall.
  { rewrite apply_each_app, E0. cbn [mbind outcome_bind fst snd apply_each]. rewrite (completes_Apply user _ _ _ Hcomp'), Ec0. cbn [mbind outcome_bind]. by rewrite Ew0. }
  assert (∀ level, added_numbers [edit'] level = added_numbers [edit] level) as Eadd by (intros level; rewrite !added_one; by rewrite (cp_new _ _ Hcomp')).
  set (s' := set_log_numbers _ _ _) in *. split.
  - destruct Hcnt as [K1 K2 K3 K4 K5]. split; try done; apply (cp_ok _ _ Hcomp').
  - apply (kp_pointers _ _ _ _ Hk). unfold s2. by rewrite Es1.
  - split; try (apply Forall_app; split; [done|]; apply Forall_singleton); [apply Hcomp' | by apply (completes_fits user edit) | |].
    + unfold names_user. destruct (cp_comparator _ _ Hcomp') as [-> ->]. exact Hnames.
    + intros level. rewrite added_app, Eadd. apply NoDup_app. destruct (Hfresh level) as [F1 F2]. split; [apply O4|]. split; [|done]. intros n Hn Hin.
      destruct (Hadd level n Hn) as [Hold|Hold]; [by apply (Hnew level n)|]. apply list_elem_of_fmap in Hold as (f & -> & Hf). by apply (F2 _ Hin f Hf).
  - exists (Finalize v'). split; [done|]. split; [by apply (levels_ok_built user v')|]. right. split; [rewrite !length_app, Hlen; cbn; lia|]. split; [exists w'; by apply (manifest_state (other s2))|].
    exists w0, (VersionBuilder.compact_pointer_ c0). done.
  - intros k c1 Hk1. destruct (decide (k < length cs)%nat) as [Hlt|Hge].
    + rewrite lookup_app_l in Hk1 by done. apply recorded_app; [|lia]. assert (es0 = es) as ->; [|by apply H5].
      unfold es0. destruct es; [|done]. exfalso. destruct (H5 k c1 Hk1) as [_ _ (x & y & Hxy & _)]. by destruct x.
    + assert (k = length cs ∧ c1 = c) as [-> ->]. { apply lookup_lt_Some in Hk1 as Hlt. rewrite length_app in Hlt. cbn in Hlt. assert (k = length cs) as -> by lia. by rewrite list_lookup_middle in Hk1; [injection Hk1|]. }
      destruct Hc as [C1 C2 [C3 C4] [C5 C6]]. destruct Hm' as [M1 [_ (rs & Hrs & Hlog)] _ _].
      assert (take (S (S (length cs))) (es0 ++ [edit']) = es0 ++ [edit']) as Etake by (apply take_ge; rewrite length_app, Hlen; cbn; lia).
      split; rewrite Etake.
      * exists w0, (VersionBuilder.compact_pointer_ c0). split; [done|]. rewrite Ebw. by apply (C2 (Finalize v')).
      * exists rs, (data e3 (Writer.dest_ w')), (Writer.block_offset_ w'). split; [done|]. split; [done|]. by apply C1.
      * exists es0, edit'. split; [done|]. split; [by apply Hcomp'|]. done.
Qed.

Lemma session_inv s e es cs : session s e es cs → session_ok s e es cs.
Proof.
  induction 1 as [s e v H1 H2 H3 H4 H5|s e es cs s' e' _ IH Hk|s e es cs v other edit edit' s' e' c _ IH Hv H1 H2 H3 H4 H5 H6 H7 H8].
  - split; [done | done | split; by try constructor; intros; constructor | | done]. exists v. split; [done|]. split; [by apply st_levels|]. by left.
  - by apply (keeps_session s e).
  - by apply (apply_session s e es cs v other edit edit').
Qed.

(** *** Reading the descriptor *)

Definition fields (q : recovered) : option Z * option Z * option Z * option Z := (rec_log_number q, rec_prev_log_number q, rec_next_file q, rec_last_sequence q).
Definition note (t : option Z * option Z * option Z * option Z) (e : VersionEdit.version_edit) : option Z * option Z * option Z * option Z :=
  (seen (VersionEdit.has_log_number_ e) (VersionEdit.log_number_ e) t.1.1.1, seen (VersionEdit.has_prev_log_number_ e) (VersionEdit.prev_log_number_ e) t.1.1.2,
   seen (VersionEdit.has_next_file_number_ e) (VersionEdit.next_file_number_ e) t.1.2, seen (VersionEdit.has_last_sequence_ e) (VersionEdit.last_sequence_ e) t.2).

Lemma Apply_decoded ed b : Apply user (decoded VersionEdit.new ed) b = Apply user ed b.
Proof.
  unfold Apply. cbn [decoded VersionEdit.with_files VersionEdit.compact_pointers_ VersionEdit.deleted_files_ VersionEdit.new_files_ VersionEdit.new VersionEdit.Clear app].
  destruct (for_loop set_pointer _ b) as [b1| | |]; try done. cbn [mbind outcome_bind]. destruct (for_loop delete_file _ b1) as [b2| | |]; try done. cbn [mbind outcome_bind].
  revert b2. induction (VersionEdit.new_files_ ed) as [|p ps IH]; intros b2; [done|]. cbn [map for_loop]. change (add_file user (norm_file p) b2) with (add_file user p b2).
  destruct (add_file user p b2) as [b3| | |]; try done. cbn [mbind outcome_bind]. apply IH.
Qed.
Lemma replay_record_ok ed record q b : edit_ok ed → names_user ed → encodes ed record → Apply user ed (rec_builder q) = Ok b →
  ∃ q', replay_record user user_name record q = Ok (status_ok, q') ∧ rec_builder q' = b ∧ fields q' = note (fields q) ed.
Proof.
  intros Hok Hn Henc Hb. unfold replay_record. destruct (edit_encoded ed VersionEdit.new [] Hok) as (bytes & Eb & Ed). assert (bytes = record) as -> by (unfold encodes in Henc; rewrite Eb in Henc; by injection Henc).
  rewrite Ed. cbn [mbind outcome_bind fst snd]. change (ok status_ok) with true. cbn [andb].
  assert (VersionEdit.has_comparator_ (decoded VersionEdit.new ed) && negb (bool_decide (VersionEdit.comparator_ (decoded VersionEdit.new ed) = user_name)) = false) as ->.
  { change (VersionEdit.has_comparator_ (decoded VersionEdit.new ed)) with (VersionEdit.has_comparator_ ed). change (VersionEdit.comparator_ (decoded VersionEdit.new ed)) with (VersionEdit.comparator_ ed).
    unfold names_user in Hn. destruct (VersionEdit.has_comparator_ ed); [by rewrite Hn, bool_decide_true|done]. }
  change (ok status_ok) with true. cbv iota. rewrite Apply_decoded, Hb. cbn [mbind outcome_bind]. by eexists.
Qed.

Section reading.
Context (e0 : E) (fuel : nat).
#[local] Notation file_Read' := (λ f n, file_Read env f n e0).
#[local] Notation file_Skip' := (λ f n, file_Skip env f n e0).
#[export] Instance read_laws : ReadLaws file_Read' (remaining e0).
Proof. split. intros g n Hn. by apply env_read_ok. Qed.

Lemma report_same {G} (r r' : @Reader.reader G) st : Reader.reports r' = Reader.reports r → report st r r' = st.
Proof. intros H. unfold report. rewrite H, drop_all. by destruct (ok st). Qed.

Lemma replay_loop_ok r recs : reads file_Read' addr fuel file_Skip' r recs → ∀ es rounds q b, Forall2 encodes es recs → Forall edit_ok es → Forall names_user es →
  (length recs < rounds)%nat → for_loop (Apply user) es (rec_builder q) = Ok b →
  ∃ q', replay_loop user user_name env addr rounds fuel e0 r status_ok q = Ok (status_ok, q') ∧ rec_builder q' = b ∧ fields q' = foldl note (fields q) es.
Proof.
  induction 1 as [r r' scr Hr Hrep|r r' scr x xs Hr Hrep _ IH]; intros es [|rounds] q b Henc Hok Hn Hl Hb; try (cbn in Hl; lia); cbn [replay_loop]; rewrite Hr; cbn [mbind outcome_bind];
    rewrite (report_same r r' _ Hrep); cbv zeta.
  - inversion Henc. subst. injection Hb as <-. by exists q.
  - inversion Henc as [|ed ? es' ? Hed Henc']. subst. apply Forall_cons in Hok as [Hok1 Hok], Hn as [Hn1 Hn]. cbn [for_loop] in Hb. destruct (Apply user ed _) as [b1| | |] eqn:Eb; try done. cbn [mbind outcome_bind] in Hb.
    change (ok status_ok) with true. cbv iota. destruct (replay_record_ok ed x q b1 Hok1 Hn1 Hed Eb) as (q1 & -> & Eb1 & Ef1). cbn [mbind outcome_bind fst snd].
    destruct (IH es' rounds q1 b) as (q' & -> & Hq & Hf); [done | done | done | cbn in Hl; lia | by rewrite Eb1|]. exists q'. split; [done|]. split; [done|]. cbn [foldl]. by rewrite Hf, Ef1.
Qed.
End reading.

(** A prefix of the descriptor that reaches the end of a commit is the log of this
    commit or of a later one. *)
Lemma descriptor_prefix s e w es cs j cj V : session_ok s e es cs → manifest s e w es → cs !! j = Some cj → V `prefix_of` data e (Writer.dest_ w) → c_size cj ≤ blen V →
  ∀ e0 fuel g, remaining e0 g = V → blen V < 2 ^ 62 → (length (data e (Writer.dest_ w)) < fuel)%nat →
  ∃ k ck recs, (j ≤ k)%nat ∧ cs !! k = Some ck ∧ recorded es (S (S k)) ck ∧ Forall2 encodes (take (S (S k)) es) recs ∧
    reads (λ f n, file_Read env f n e0) addr fuel (λ f n, file_Skip env f n e0) (Reader.new g true true 0) recs.
Proof.
  intros Hs [_ [_ (rs & Hrs & Hlog)] _ _] Hj HV Hsize e0 fuel g Hg HVs Hfuel. pose proof (read_laws e0) as HR.
  destruct (read_log (λ f n, file_Read env f n e0) (remaining e0) addr Haddr 0 rs _ _ Hlog ltac:(done) fuel (λ f n, file_Skip env f n e0) (Reader.new g true true 0) 0 V) as (k & Hreads & Hk & Hiff); try done.
  { rewrite <- Hg. apply at_pos_new. by rewrite Hg. }
  pose proof (so_state _ _ _ _ Hs) as (v & _ & _ & [(-> & -> & _)|(Hlen & _)]); [done|]. pose proof (Forall2_length _ _ _ Hrs) as Hrl.
  pose proof (so_commits _ _ _ _ Hs j cj Hj) as [_ (rs' & bytes & b & Hrs' & Hlog' & Hb) _].
  apply lookup_lt_Some in Hj as Hjl. assert (S (S j) ≤ k)%nat as Hjk.
  { destruct (Hiff (S (S j)) ltac:(lia)) as (cs' & c' & Hl' & Hi). apply Hi. assert (rs' = take (S (S j)) rs) as ->.
    { pose proof (Forall2_take _ _ _ (S (S j)) Hrs) as Ht. clear -Hrs' Ht. revert Ht. generalize (take (S (S j)) rs). induction Hrs' as [|x y xs ys Hxy _ IH]; intros zs Ht; inversion Ht; subst; [done|]. f_equal; [unfold encodes in *; congruence | by apply IH]. }
    destruct (log_of_fun _ _ _ _ Hl' _ _ Hlog') as [-> _]. lia. }
  destruct k as [|[|k]]; try lia. destruct (lookup_lt_is_Some_2 cs k) as [ck Hck]; [lia|]. exists k, ck, (take (S (S k)) rs).
  split; [lia|]. split; [done|]. split; [by apply (so_commits _ _ _ _ Hs)|]. split; [by apply Forall2_take | done].
Qed.

(** *** Recovering *)

Lemma edits_ok_take es n : edits_ok es → edits_ok (take n es).
Proof.
  intros [H1 H2 H3 H4]. split; try by apply Forall_take. intros level. specialize (H4 level). rewrite <- (take_drop n es), added_app in H4. by apply NoDup_app in H4 as [H4 _].
Qed.
Lemma replay_builder es v p : edits_ok es → apply_each user es empty_version no_pointers = Ok (v, p) →
  ∃ b w, for_loop (Apply user) es (VersionBuilder.new empty_version no_pointers) = Ok b ∧ SaveTo user b = Ok w ∧ built w = built v.
Proof.
  intros [_ H2 _ H4] Heach. destruct (replay user es (VersionBuilder.new empty_version no_pointers) empty_version v p) as (b & Eb & Hb & _ & Hv & Ebase & Hl);
    [apply new_builder_ok; [apply empty_levels_ok | done] | apply empty_levels_ok | intros; apply empty_level | intros level; by rewrite saved_new | done | apply fresh_new; intros level; rewrite empty_level; apply H4 | done|].
  assert (forallb (λ level, ordered user level (VersionBuilder.saved user b level)) (seq 0 7) = true) as Ho by (apply forallb_forall; intros level _; rewrite <- Hl; apply Hv).
  pose proof (SaveTo_spec user b Hb) as Es. rewrite Ho in Es. destruct (saved_version user b _ Hb (λ l _, eq_trans (f_equal (λ v, level_files v l) Ebase) (empty_level l)) Es) as [Hw Hlw].
  eexists b, _. split; [done|]. split; [done|]. apply (levels_built user); [done | done|]. intros level. by rewrite Hlw, Hl.
Qed.

Definition new_set : version_set W := mkVersionSet 2 0 0 0 0 None no_pointers [mkNode 1 empty_version].
Lemma new_set_spec : VersionSet.new = Ok new_set.
Proof. vm_compute. reflexivity. Qed.

Lemma ReuseManifest_ok reuse n f s e : is_u64 n → linked e (manifest_name dbname n) f → descriptor_log_ s = None →
  ∃ reused s', ReuseManifest env addr reuse (manifest_name dbname n) (manifest_base n) s e = Ok (reused, s', e) ∧
    s' = (if reused then set_descriptor n (descriptor_log_ s') s else s) ∧ (reused = true → is_Some (descriptor_log_ s')).
Proof.
  intros Hn Hl Hd. unfold ReuseManifest. destruct reuse; cbn [negb]; [|by exists false, s]. unfold manifest_base. rewrite (parse_manifest n Hn), (env_size_ok _ _ _ Hl).
  destruct (_ <=? _); [by exists false, s|]. rewrite Hd, (env_appendable_ok _ _ _ Hl). unfold Writer.new_at. rewrite (InitTypeCrc_spec addr Haddr). cbn [mbind outcome_bind].
  eexists true, _. split; [reflexivity|]. split; [done | by eexists].
Qed.
Lemma current_contents n : let c := manifest_base n ++ [z2b 10] in last c = Some (z2b 10) ∧ take (length c - 1) c = manifest_base n.
Proof. intros c. unfold c. rewrite last_snoc, length_app. cbn [length]. split; [done|]. by rewrite Nat.add_sub, take_app_length. Qed.
Lemma note_all q es0 e : VersionEdit.has_log_number_ e = true ∧ VersionEdit.has_prev_log_number_ e = true ∧ VersionEdit.has_next_file_number_ e = true ∧ VersionEdit.has_last_sequence_ e = true →
  foldl note q (es0 ++ [e]) = (Some (VersionEdit.log_number_ e), Some (VersionEdit.prev_log_number_ e), Some (VersionEdit.next_file_number_ e), Some (VersionEdit.last_sequence_ e)).
Proof. intros (H1 & H2 & H3 & H4). rewrite foldl_app. cbn [foldl]. unfold note. by rewrite H1, H2, H3, H4. Qed.
Lemma mark_used n (s : version_set W) : descriptor_log_ (MarkFileNumberUsed n s) = descriptor_log_ s ∧ versions_ (MarkFileNumberUsed n s) = versions_ s.
Proof. unfold MarkFileNumberUsed. by destruct (_ <=? _); destruct s. Qed.

(** The state that recovery must produce from a commit. *)
Record restored (c : commit) (n : Z) (save : bool) (s : version_set W) : Prop := mkRestored {
  re_files : ∃ v, current_ s = Ok v ∧ built v = c_files c;
  re_logs : log_number_ s = c_log c ∧ prev_log_number_ s = c_prev c;
  re_last : last_sequence_ s = c_last c;
  re_next : next_file_number_ s = u64 (c_next c + 1);
  re_descriptor : if save then descriptor_log_ s = None ∧ manifest_file_number_ s = c_next c else is_Some (descriptor_log_ s) ∧ manifest_file_number_ s = n
}.

(** The end of [Recover]: from the records to the state. *)
Lemma Recover_run reuse rounds fuel n e c f (Q : commit → Prop) : is_u64 n → linked e (CurrentFileName dbname) c → data e c = manifest_base n ++ [z2b 10] → linked e (manifest_name dbname n) f →
  (length (data e c) < fuel)%nat →
  (∀ e0 g, remaining e0 g = data e f → ∃ es recs rec, Q rec ∧ edits_ok es ∧ Forall2 encodes es recs ∧ recorded es (length es) rec ∧ (length recs < rounds)%nat ∧
    reads (λ f n, file_Read env f n e0) addr fuel (λ f n, file_Skip env f n e0) (Reader.new g true true 0) recs) →
  ∃ rec save s' e', Q rec ∧ Recover user user_name env addr dbname reuse rounds fuel new_set e = Ok (status_ok, save, s', e') ∧ restored rec n save s'.
Proof.
  intros Hn Hc Hdc Hf Hfuel Hlog.
  unfold Recover. destruct (ReadFileToString_ok env linked data remaining fuel (CurrentFileName dbname) c e Hc Hfuel) as (e1 & -> & Hd1 & Hl1). cbn [mbind outcome_bind].
  change (ok status_ok) with true. cbn [negb]. rewrite Hdc. destruct (current_contents n) as [-> ->]. rewrite bool_decide_true by done. cbv zeta.
  change (dbname ++ str "/" ++ manifest_base n) with (manifest_name dbname n).
  destruct (env_sequential_ok (manifest_name dbname n) f e1 (proj2 (Hl1 _ _) Hf)) as (e2 & g & -> & Hg & Hd2 & Hl2). change (current_ new_set) with (Ok empty_version). cbn [mbind outcome_bind].
  destruct (Hlog e2 g ltac:(by rewrite Hg, Hd1)) as (es & recs & rec & HQ & Hes & Henc & [(w & p & Heach & Ew) _ (es0 & el & Elast & Hset & L1 & L2 & L3 & L4)] & Hrounds & Hreads). rewrite firstn_all in Heach, Elast.
  destruct (replay_builder es w p Hes Heach) as (b & v & Eb & Ev & Ebv). destruct Hes as [O1 _ O3 _].
  destruct (replay_loop_ok e2 fuel _ _ Hreads es rounds (mkRecovered (VersionBuilder.new empty_version no_pointers) None None None None) b Henc O1 O3 Hrounds Eb) as (q & Eq & Hq & Hfields).
  rewrite Elast, (note_all _ es0 el Hset) in Hfields. change (compact_pointer_ new_set) with no_pointers. rewrite Eq. cbn [mbind outcome_bind]. change (ok status_ok) with true. cbv iota.
  unfold missing_field. injection Hfields as F1 F2 F3 F4. rewrite F1, F2, F3, F4, Hq. cbn [default id]. change (ok status_ok) with true. cbv iota. rewrite Ev. cbn [mbind outcome_bind].
  set (s1 := MarkFileNumberUsed _ (MarkFileNumberUsed _ _)). assert (versions_ s1 = versions_ new_set ∧ descriptor_log_ s1 = None) as [Ev1 Ed1].
  { unfold s1. destruct (mark_used (VersionEdit.log_number_ el) (MarkFileNumberUsed (VersionEdit.prev_log_number_ el) (set_pointers (VersionBuilder.compact_pointer_ b) new_set))) as (-> & ->).
    by destruct (mark_used (VersionEdit.prev_log_number_ el) (set_pointers (VersionBuilder.compact_pointer_ b) new_set)) as (-> & ->). }
  assert (AppendVersion (Finalize v) s1 = Ok (set_versions [mkNode 1 (Finalize v)] s1)) as -> by (unfold AppendVersion, Unref; rewrite Ev1; reflexivity). cbn [mbind outcome_bind].
  set (s2 := mkVersionSet _ _ _ _ _ _ _ _). destruct (ReuseManifest_ok reuse n f s2 e2 Hn) as (reused & s3 & -> & Es3 & Hs3); [by apply Hl2, Hl1 | done|].
  cbn [mbind outcome_bind]. exists rec, (negb reused), s3, e2. split; [done|]. split; [done|].
  assert (∃ v, current_ s2 = Ok v ∧ built v = c_files rec) as Hcur by (exists (Finalize v); split; [done|]; by rewrite <- Ew, <- Ebv).
  destruct reused; [rewrite Es3|subst s3]; (split; [exact Hcur | by split | done | cbn; by rewrite <- L3|]); [split; [by apply Hs3 | done] | by split].
Qed.
End session.

(** ** Properties *)

(** C25: The MANIFEST brings back what was committed.  Take a run of the database in
    which [LogAndApply] was called any number of times, between steps that keep the
    descriptor and the current files, and with other threads at work while it writes.
    Whatever prefix of the descriptor file a crash leaves, if it includes what was there
    when the [j]-th call returned, then [Recover] of a new version set succeeds and makes
    the state of a call that is not before the [j]-th: the same files at every level, the
    log numbers, the last sequence number and the next file number; and it goes on with
    the descriptor it read exactly if it asks for no new one. *)
Theorem manifest_recovery (user : Comparator) (Huser : ComparatorLaws any_key user) (user_name : list byte) (Hname : blen user_name < 2 ^ 32)
    {E W R : Type} (env : EnvOps E W R) (linked : E → list byte → W → Prop) (data : E → W → list byte) (remaining : E → R → list byte)
    (Henv : EnvLaws env linked data remaining) (addr : list byte → Z) (Haddr : addr_ok addr) (dbname : list byte)
    (s : version_set W) (e crash : E) (es : list VersionEdit.version_edit) (cs : list commit) (w : @Writer.writer W) (c f : W) (j : nat) (cj : commit)
    (Hsession : session user user_name env linked data addr dbname s e es cs)
    (Hw : descriptor_log_ s = Some w)
    (Hc : linked crash (CurrentFileName dbname) c) (Hdc : data crash c = manifest_base (manifest_file_number_ s) ++ [z2b 10])
    (Hf : linked crash (manifest_name dbname (manifest_file_number_ s)) f) (Hdf : data crash f `prefix_of` data e (Writer.dest_ w))
    (Hj : cs !! j = Some cj) (Hsize : c_size cj ≤ blen (data crash f) < 2 ^ 62)
    (reuse_logs : bool) (rounds fuel : nat) (Hrounds : (S (length cs) < rounds)%nat)
    (Hfuel : (length (data e (Writer.dest_ w)) < fuel)%nat ∧ (length (data crash c) < fuel)%nat) :
  ∃ k ck save s' crash', (j ≤ k)%nat ∧ cs !! k = Some ck ∧
    (s0 ← VersionSet.new; Recover user user_name env addr dbname reuse_logs rounds fuel s0 crash) = Ok (status_ok, save, s', crash') ∧
    restored ck (manifest_file_number_ s) save s'.
Proof.
  pose proof (session_inv user user_name Hname env linked data remaining addr Haddr dbname s e es cs Hsession) as Hs.
  pose proof (so_state _ _ _ _ _ _ _ _ _ Hs) as (v & _ & _ & [(_ & -> & _)|(Hlen & (w0 & Hm) & _)]); [done|]. assert (w0 = w) as -> by (pose proof (mf_log _ _ _ _ _ _ _ Hm); congruence).
  destruct (ct_manifest _ (so_counters _ _ _ _ _ _ _ _ _ Hs)) as [Hn Hpos].
  destruct (Recover_run user user_name env linked data remaining addr Haddr dbname reuse_logs rounds fuel (manifest_file_number_ s) crash c f (λ ck, ∃ k, (j ≤ k)%nat ∧ cs !! k = Some ck) Hn Hc Hdc Hf (proj2 Hfuel)) as (ck & save & s' & e' & (k & Hjk & Hck) & Hrun & Hres);
    [|exists k, ck, save, s', e'; rewrite new_set_spec; done].
  intros e0 g Hg. destruct (descriptor_prefix user user_name env linked data remaining addr Haddr dbname s e w es cs j cj (data crash f) Hs Hm Hj Hdf ltac:(lia) e0 fuel g Hg ltac:(lia) (proj1 Hfuel)) as (k & ck & recs & Hjk & Hck & Hrec & Henc & Hreads).
  apply lookup_lt_Some in Hck as Hkl. pose proof (Forall2_length _ _ _ Henc) as Hl. rewrite length_take in Hl. exists (take (S (S k)) es), recs, ck. split; [by exists k|].
  split; [apply edits_ok_take; by apply so_edits in Hs|]. split; [done|]. split; [|split; [lia | done]]. rewrite length_take, Nat.min_l by lia. destruct Hrec. split; by rewrite take_take, Nat.min_id.
Qed.

(** A database with no files calls [LogAndApply] once. *)
Definition demo_start : version_set nat := mkVersionSet 7 2 0 0 0 None no_pointers [mkNode 1 empty_version].
Definition demo_name : list byte := str "leveldb.BytewiseComparator".
Definition demo_addr : list byte → Z := λ _, 0.
Definition demo_db : list byte := str "/db".
Definition demo_run : outcome (status * VersionEdit.version_edit * version_set nat * Fs.fs) :=
  LogAndApply BytewiseComparator demo_name Fs.ops demo_addr demo_db (λ s, s) demo_edit1 demo_start Fs.empty.

Lemma demo_addr_ok : addr_ok demo_addr.
Proof. intros b Hb. unfold demo_addr. split; [done | lia]. Qed.
Lemma demo_keeps s e : keeps (W := nat) Fs.linked (λ e w, Fs.node_data w e) demo_db s e s e.
Proof. split; try done. intros v Hv. by exists v. Qed.
Lemma demo_edit1_ok : edit_ok demo_edit1.
Proof.
  assert (∀ k, bool_decide (k ≠ []) && (blen k <? 2 ^ 32) = true → key_ok k) as Hk.
  { intros k [H1%bool_decide_eq_true H2%Z.ltb_lt]%andb_true_iff. by split. }
  unfold demo_edit1. do 2 (apply edit_ok_AddFile; [|unfold level_ok, kNumLevels; lia | unfold is_u64; lia | unfold is_u64; lia
    | apply Hk; vm_compute; reflexivity | apply Hk; vm_compute; reflexivity]). apply new_ok.
Qed.
Lemma demo_start_ok : session BytewiseComparator demo_name Fs.ops Fs.linked (λ e w, Fs.node_data w e) demo_addr demo_db demo_start Fs.empty [] [].
Proof.
  apply (session_start _ _ _ _ _ _ _ demo_start Fs.empty empty_version); [done | by split; unfold is_u64; cbn | | done |].
  - split; [done|]. unfold demo_start, no_pointers. cbn [compact_pointer_]. by apply Forall_replicate.
  - split; [apply empty_levels_ok | intros level f; rewrite empty_level; by intros ?%elem_of_nil | intros level; rewrite empty_level; constructor].
Qed.
Definition demo_check (r : outcome (status * VersionEdit.version_edit * version_set nat * Fs.fs)) : bool :=
  match r with
  | Ok (st, _, s, e) => bool_decide (st = status_ok) && match descriptor_log_ s with Some w => blen (Fs.node_data (Writer.dest_ w) e) <? 2 ^ 62 | None => false end &&
      match current_ s with Ok _ => true | _ => false end
  | _ => false
  end.
Lemma demo_checked r : demo_check r = true → ∃ ed s e w v, r = Ok (status_ok, ed, s, e) ∧ descriptor_log_ s = Some w ∧ current_ s = Ok v ∧ blen (Fs.node_data (Writer.dest_ w) e) < 2 ^ 62.
Proof.
  unfold demo_check. destruct r as [[[[st ed] s] e]| | |]; [|done..]. intros [[Hst%bool_decide_eq_true Hw]%andb_true_iff Hv]%andb_true_iff.
  subst st. destruct (current_ s) as [v| | |] eqn:Ev; try done. destruct (descriptor_log_ s) as [w|] eqn:Ew; [|done]. apply Z.ltb_lt in Hw. by exists ed, s, e, w, v.
Qed.
Lemma demo_run_ok : demo_check demo_run = true.
Proof. vm_compute. reflexivity. Qed.
Lemma demo_edit_new level : NoDup (added_numbers [demo_edit1] level).
Proof.
  pose proof (demo_fresh level) as Hf. rewrite empty_level in Hf. unfold added_numbers in *. cbn [map concat app] in *. rewrite app_nil_r. by apply NoDup_app in Hf as (Hf & _).
Qed.
Lemma demo_session : ∃ s e es c w, session BytewiseComparator demo_name Fs.ops Fs.linked (λ e w, Fs.node_data w e) demo_addr demo_db s e es [c] ∧
  descriptor_log_ s = Some w ∧ c_size c = blen (Fs.node_data (Writer.dest_ w) e) ∧ blen (Fs.node_data (Writer.dest_ w) e) < 2 ^ 62.
Proof.
  destruct (demo_checked demo_run demo_run_ok) as (ed & s & e & w & v & Er & Hw & Ev & Hlt).
  set (c := mkCommit (blen (Fs.node_data (Writer.dest_ w) e)) (built v) (log_number_ s) (prev_log_number_ s) (VersionEdit.next_file_number_ ed) (VersionEdit.last_sequence_ ed)).
  eexists s, e, _, c, w. split; [|split; [exact Hw | split; [reflexivity | exact Hlt]]]. change [c] with ([] ++ [c]).
  eapply (session_apply _ _ _ _ _ _ _ demo_start Fs.empty [] [] empty_version (λ s, s) demo_edit1 ed); [apply demo_start_ok | reflexivity | apply demo_edit1_ok
    | exact (proj1 (proj1 (Forall_cons _ _ _) demo_edits_fit)) | intros H; discriminate H | | | intros; apply demo_keeps | exact Er|]; clear Er.
  - intros level. split; [apply demo_edit_new|]. intros n _ g. rewrite empty_level. by intros ?%elem_of_nil.
  - by intros level n _ ?%elem_of_nil.
  - split; [intros w' Hw'; by assert (w' = w) as -> by congruence | intros v' Hv'; by assert (v' = v) as -> by congruence | by split | by split].
Qed.

Lemma manifest_recovery_witness :
  ∃ (s : version_set nat) e c w fuel save s' crash', descriptor_log_ s = Some w ∧ c_size c = blen (Fs.node_data (Writer.dest_ w) e) ∧
    (s0 ← VersionSet.new; Recover BytewiseComparator demo_name Fs.ops demo_addr demo_db false 3 fuel s0 e) = Ok (status_ok, save, s', crash') ∧
    restored c (manifest_file_number_ s) save s'.
Proof.
  destruct demo_session as (s & e & es & c & w & Hs & Hw & Hsize & Hlt).
  pose proof (session_inv BytewiseComparator demo_name eq_refl Fs.ops Fs.linked (λ e w, Fs.node_data w e) Fs.remaining demo_addr demo_addr_ok demo_db s e es [c] Hs) as Hok.
  destruct (so_state _ _ _ _ _ _ _ _ _ Hok) as (v & _ & _ & [(_ & E & _)|(_ & (w0 & [Hw0 _ Hlink (fc & Hc & _ & Hdc)]) & _)]); [discriminate E|].
  assert (w0 = w) as -> by (rewrite Hw in Hw0; injection Hw0; auto).
  set (d := Fs.node_data (Writer.dest_ w) e) in *. set (fuel := S (length d + length (Fs.node_data fc e))).
  assert (S (length [c]) < 3)%nat as Hrounds by (cbn; lia). assert (length d < fuel ∧ length (Fs.node_data fc e) < fuel)%nat as Hfuel by lia.
  destruct (manifest_recovery BytewiseComparator _ demo_name eq_refl Fs.ops Fs.linked (λ e w, Fs.node_data w e) Fs.remaining _ demo_addr demo_addr_ok demo_db s e e es [c] w fc (Writer.dest_ w) 0 c
    Hs Hw Hc Hdc Hlink (reflexivity _) eq_refl (conj (Z.eq_le_incl _ _ Hsize) Hlt) false 3 fuel Hrounds Hfuel) as (k & ck & save & s' & crash' & _ & Hck & Hrun & Hres).
  destruct k; [|discriminate Hck]. injection Hck as <-. exists s, e, c, w, fuel, save, s', crash'. split; [exact Hw|]. split; [exact Hsize|]. split; [exact Hrun | exact Hres].
Defined.

(** C29: What a call of [LogAndApply] leaves behind.  For every environment, whatever it does:
    a new version is installed, with the edit's log numbers, only if the call returns OK,
    and it is what the builder made of the edit.  Whatever the call returns, the compaction
    pointers of the edit are in effect.  If there was no descriptor and the call fails, the
    one it created is closed and its file is deleted, so that the next call writes a new
    one, with a full snapshot.  If there was one, the record of the edit is given to it,
    and the call returns the status of [AddRecord], or else that of [Sync]; nothing is
    undone: the descriptor stays open behind the record, also when its [Sync] failed and
    no version was installed. *)
Theorem LogAndApply_outcome (user : Comparator) (user_name : list byte) {E W R : Type} (env : EnvOps E W R) (addr : list byte → Z) (dbname : list byte)
    (other : version_set W → version_set W) (edit edit' : VersionEdit.version_edit) (s s' : version_set W) (e e' : E) (st : status)
    (Hcall : LogAndApply user user_name env addr dbname other edit s e = Ok (st, edit', s', e')) :
  let left d := other (set_descriptor (manifest_file_number_ s) d (set_pointers (pointed (compact_pointer_ s) (VersionEdit.compact_pointers_ edit)) s)) in
  let installed t := ∃ cur edit0 b v t', current_ s = Ok cur ∧ complete_edit edit s = Ok edit0 ∧ Apply user edit0 (VersionBuilder.new cur (compact_pointer_ s)) = Ok b ∧
    SaveTo user b = Ok v ∧ AppendVersion (Finalize v) t = Ok t' ∧ current_ s' = Ok (Finalize v) ∧
    s' = set_log_numbers (VersionEdit.log_number_ edit') (VersionEdit.prev_log_number_ edit') t' in
  match descriptor_log_ s with
  | Some w => ∃ record w' e1 st1, VersionEdit.EncodeTo edit' [] = Ok record ∧ AddRecord env addr w record e = Ok (w', e1, st1) ∧
      (e', st) = (if ok st1 then file_Sync env (Writer.dest_ w') e1 else (e1, st1)) ∧
      if ok st then installed (left (Some w')) else s' = left (Some w')
  | None => ∃ name d, DescriptorFileName dbname (manifest_file_number_ s) = Ok name ∧
      if ok st then installed (left d)
      else s' = set_descriptor (manifest_file_number_ (left d)) None (left d) ∧ ∃ e1, e' = (DeleteFile env name e1).1
  end.
Proof.
  intros left installed. destruct (LogAndApply_steps user user_name env addr dbname other edit s e st edit' s' e' Hcall)
    as [ed cur b v s1 e1 st1 created s2 e2 E1 E2 E3 E4 Eopen Eed Ewrite Hres].
  assert (VersionBuilder.compact_pointer_ b = pointed (compact_pointer_ s) (VersionEdit.compact_pointers_ edit)) as Ep.
  { rewrite (Apply_pointers user _ _ _ E3). by rewrite (complete_edit_pointers _ _ _ E1). }
  rewrite Ep in Eopen.
  assert (∀ d, (if ok st then ∃ s3, AppendVersion (Finalize v) (left d) = Ok s3 ∧ e' = e2 ∧ s' = set_log_numbers (VersionEdit.log_number_ edit') (VersionEdit.prev_log_number_ edit') s3 else True) →
    if ok st then installed (left d) ∧ e' = e2 else True) as Hinst.
  { intros d. destruct (ok st); [|done]. intros (s3 & Ea & -> & ->). split; [|done]. exists cur, ed, b, v, s3. do 5 (split; [done|]). split; [|done]. by apply AppendVersion_state in Ea as [_ Hc]. }
  destruct (descriptor_log_ s) as [w|] eqn:Ed.
  - unfold open_descriptor in Eopen. cbn [descriptor_log_ set_pointers] in Eopen. rewrite Ed in Eopen. injection Eopen as <- <- <- <-.
    rewrite bool_decide_false in Ewrite by (intros [? ?]; done). unfold write_descriptor in Ewrite. cbn [ok status_ok descriptor_log_ set_pointers] in Ewrite. rewrite Ed in Ewrite.
    destruct (VersionEdit.EncodeTo edit' []) as [record| | |] eqn:Erec; try done. cbn [mbind outcome_bind] in Ewrite.
    destruct (AddRecord env addr w record e) as [[[w' e1'] st1']| | |] eqn:Eadd; try done. cbn [mbind outcome_bind] in Ewrite.
    exists record, w', e1', st1'. split; [done|]. split; [done|].
    destruct (if ok st1' then file_Sync env (Writer.dest_ w') e1' else (e1', st1')) as [e3 st3] eqn:Esync. cbn [mbind outcome_bind] in Ewrite.
    change (ok status_ok) with true in Ewrite. cbn iota in Ewrite. cbn [mbind outcome_bind] in Ewrite. rewrite andb_false_r in Ewrite. injection Ewrite as <- <- <-.
    change (set_descriptor _ (Some w') _) with (set_descriptor (manifest_file_number_ s) (Some w') (set_pointers (pointed (compact_pointer_ s) (VersionEdit.compact_pointers_ edit)) s)) in Hres.
    fold (left (Some w')) in Hres. specialize (Hinst (Some w')). destruct (ok st3); [destruct (Hinst Hres) as [? ->]; done | by injection Hres as -> ->].
  - apply open_descriptor_state in Eopen as [(d1 & ->) Hcreated]. apply write_descriptor_state in Ewrite as (d & ->).
    change (set_descriptor _ d _) with (set_descriptor (manifest_file_number_ s) d (set_pointers (pointed (compact_pointer_ s) (VersionEdit.compact_pointers_ edit)) s)) in Hres.
    fold (left d) in Hres. cbn [descriptor_log_ set_pointers manifest_file_number_] in Hcreated. rewrite Ed in Hcreated. destruct Hcreated as (name & En & ->).
    exists name, d. split; [done|]. specialize (Hinst d). destruct (ok st); [by destruct (Hinst Hres) | injection Hres as -> ->]. split; [done|]. by exists e2.
Qed.

(** A file system whose [Sync] fails. *)
Definition no_sync : EnvOps Fs.fs nat (nat * nat) :=
  mkEnv Fs.fs nat (nat * nat) (NewSequentialFile Fs.ops) (NewWritableFile Fs.ops) (NewAppendableFile Fs.ops) (FileExists Fs.ops) (GetChildren Fs.ops) (DeleteFile Fs.ops)
    (GetFileSize Fs.ops) (RenameFile Fs.ops) (file_Append Fs.ops) (file_Close Fs.ops) (file_Flush Fs.ops) (λ _ e, (e, IOError (str "MANIFEST") (str "disk full")))
    (file_Read Fs.ops) (file_Skip Fs.ops).
(** The second edit of a session meets it. *)
Definition demo_unsynced : outcome (version_set nat * Fs.fs * (status * VersionEdit.version_edit * version_set nat * Fs.fs)) :=
  r ← demo_run;
  let '(_, _, s, e) := (r : status * VersionEdit.version_edit * version_set nat * Fs.fs) in
  r ← LogAndApply BytewiseComparator demo_name no_sync demo_addr demo_db (λ s, s) demo_edit2 s e;
  Ok (s, e, r).
Definition unsynced_check (r : outcome (version_set nat * Fs.fs * (status * VersionEdit.version_edit * version_set nat * Fs.fs))) : bool :=
  match r with
  | Ok (s, e, (st, _, s', e')) => negb (ok st) && bool_decide (is_Some (descriptor_log_ s)) &&
      (blen (Fs.node_data 0 e) <? blen (Fs.node_data 0 e')) && bool_decide (compact_pointer_ s !! 1%nat = Some [] ∧ compact_pointer_ s' !! 1%nat = Some (demo_key (str "b")))
  | _ => false
  end.
Lemma demo_unsynced_checked : unsynced_check demo_unsynced = true.
Proof. vm_compute. reflexivity. Qed.

(** The call fails and installs no version; the pointer has moved and the record is in the
    file. *)
Lemma LogAndApply_outcome_witness :
  ∃ s e st edit' s' e', demo_unsynced = Ok (s, e, (st, edit', s', e')) ∧ ok st = false ∧ versions_ s' = versions_ s ∧
    compact_pointer_ s' = pointed (compact_pointer_ s) [(1, demo_key (str "b"))] ∧ blen (Fs.node_data 0 e) < blen (Fs.node_data 0 e').
Proof.
  pose proof demo_unsynced_checked as H. unfold unsynced_check in H. destruct demo_unsynced as [[[s e] [[[st edit'] s'] e']]| | |] eqn:E; [|discriminate H..].
  exists s, e, st, edit', s', e'. split; [reflexivity|]. apply andb_true_iff in H as [H _]. apply andb_true_iff in H as [H Hlen]. apply andb_true_iff in H as [Hst Hd].
  apply negb_true_iff in Hst. apply Z.ltb_lt in Hlen. apply bool_decide_eq_true in Hd. split; [exact Hst|].
  assert (LogAndApply BytewiseComparator demo_name no_sync demo_addr demo_db (λ s, s) demo_edit2 s e = Ok (st, edit', s', e')) as Hcall.
  { unfold demo_unsynced in E. destruct demo_run as [[[[st0 ed0] s0] e0]| | |]; [|discriminate E..]. cbn [mbind outcome_bind] in E.
    destruct (LogAndApply BytewiseComparator demo_name no_sync demo_addr demo_db (λ s, s) demo_edit2 s0 e0) as [r| | |] eqn:E2; [|discriminate E..]. cbn [mbind outcome_bind] in E.
    injection E as -> -> ->. exact E2. }
  pose proof (LogAndApply_outcome BytewiseComparator demo_name no_sync demo_addr demo_db (λ s, s) demo_edit2 edit' s s' e e' st Hcall) as Hout. cbv zeta in Hout.
  destruct (descriptor_log_ s) as [w|]; [|destruct Hd as [? ?]; discriminate]. destruct Hout as (record & w' & e1 & st1 & _ & _ & _ & Hleft). rewrite Hst in Hleft.
  rewrite Hleft. split; [reflexivity|]. split; [reflexivity | exact Hlen].
Defined.
