(* ===== verification/Compaction.v ===== *)
(** * db/version_set.cc, db/db_impl.cc: compactions

    A compaction merges the files of two levels into new files of the lower one and drops
    the entries that no reader can need.  The merged input is any iterator of internal
    keys.  The environment is an argument: the numbers that [NewFileNumber] returns while
    other threads take numbers too, the statuses of the file operations, the sizes of the
    tables, and what each load of [shutting_down_] sees.  A table under construction is the
    list of its entries; [tables] records the tables that were finished.  After an error of
    its file a [TableBuilder] ignores [Add] and [Finish] reports the error: the model keeps
    the entries, and the status is an argument. *)
From Stdlib Require Import Sorting.Sorted.
From S2P Require Import Prelude.
From S2P Require Import Interfaces.
From S2P Require Import Comparator.
From S2P Require Import Dbformat.
From S2P Require Import Status.
From S2P Require Import Cursor.
From S2P Require Import MemTable.
From S2P Require Import VersionEdit.
From S2P Require Import Updates.
From S2P Require Import Version.
Import Version.

(** ** Definitions *)

Module Compaction.

Record compaction := mkCompaction {
  level_ : nat;
  max_output_file_size_ : Z;
  input_version_ : version;
  edit_ : VersionEdit.version_edit;
  inputs0_ : list FileMetaData;
  inputs1_ : list FileMetaData;
  grandparents_ : list FileMetaData;
  grandparent_index_ : nat;
  seen_key_ : bool;
  overlapped_bytes_ : Z;
  level_ptrs_ : list nat
}.

(** The constructor; the input version and the inputs are set by [VersionSet]. *)
Definition new (level : nat) (v : version) (inputs0 inputs1 grandparents : list FileMetaData) : compaction :=
  mkCompaction level (MaxFileSizeForLevel level) v VersionEdit.new inputs0 inputs1 grandparents 0 false 0
    (replicate (Z.to_nat kNumLevels) 0%nat).
Definition set_grandparents (index : nat) (seen : bool) (overlapped : Z) (c : compaction) : compaction :=
  mkCompaction (level_ c) (max_output_file_size_ c) (input_version_ c) (edit_ c) (inputs0_ c) (inputs1_ c) (grandparents_ c)
    index seen overlapped (level_ptrs_ c).
Definition set_level_ptrs (ptrs : list nat) (c : compaction) : compaction :=
  mkCompaction (level_ c) (max_output_file_size_ c) (input_version_ c) (edit_ c) (inputs0_ c) (inputs1_ c) (grandparents_ c)
    (grandparent_index_ c) (seen_key_ c) (overlapped_bytes_ c) ptrs.

Definition IsTrivialMove (c : compaction) : bool :=
  bool_decide (length (inputs0_ c) = 1%nat) && bool_decide (length (inputs1_ c) = 0%nat) &&
  (TotalFileSize (grandparents_ c) <=? kMaxGrandParentOverlapBytes).

Definition AddInputDeletions (c : compaction) (edit : VersionEdit.version_edit) : VersionEdit.version_edit :=
  let delete level files edit := foldl (λ e f, VersionEdit.DeleteFile (Z.of_nat level) (number f) e) edit files in
  delete (S (level_ c)) (inputs1_ c) (delete (level_ c) (inputs0_ c) edit).

Section Compaction.
Context (user : Comparator).
#[local] Notation icmp := (InternalKeyComparator.Compare user).
#[local] Notation ucmp := (Compare user).

(** The inner loop of [IsBaseLevelForKey] over the files from [level_ptrs_[lvl]] on: the
    new pointer, and whether the key is in the range of the file it stops at. *)
Fixpoint scan_files (user_key : list byte) (files : list FileMetaData) (ptr : nat) : nat * bool :=
  match files with
  | [] => (ptr, false)
  | f :: files =>
      if ucmp user_key (ExtractUserKey (largest f)) <=? 0 then (ptr, 0 <=? ucmp user_key (ExtractUserKey (smallest f)))
      else scan_files user_key files (S ptr)
  end.
Fixpoint base_loop (user_key : list byte) (v : version) (levels : list nat) (ptrs : list nat) : bool * list nat :=
  match levels with
  | [] => (true, ptrs)
  | lvl :: levels =>
      let ptr := ptrs !!! lvl in
      let r := scan_files user_key (drop ptr (level_files v lvl)) ptr in
      let ptrs := <[lvl := r.1]> ptrs in
      if r.2 then (false, ptrs) else base_loop user_key v levels ptrs
  end.
Definition IsBaseLevelForKey (user_key : list byte) (c : compaction) : bool * compaction :=
  let r := base_loop user_key (input_version_ c) (seq (level_ c + 2) (Z.to_nat kNumLevels - (level_ c + 2))) (level_ptrs_ c) in
  (r.1, set_level_ptrs r.2 c).

(** The loop of [ShouldStopBefore] over the grandparents from [grandparent_index_] on. *)
Fixpoint scan_grandparents (internal_key : list byte) (files : list FileMetaData) (seen : bool) (index : nat) (overlapped : Z)
    : outcome (nat * Z) :=
  match files with
  | [] => Ok (index, overlapped)
  | f :: files =>
      k ← InternalKey.Encode (largest f);
      if 0 <? icmp internal_key k then
        scan_grandparents internal_key files seen (S index) (if seen then s64 (overlapped + file_size f) else overlapped)
      else Ok (index, overlapped)
  end.
Definition ShouldStopBefore (internal_key : list byte) (c : compaction) : outcome (bool * compaction) :=
  r ← scan_grandparents internal_key (drop (grandparent_index_ c) (grandparents_ c)) (seen_key_ c) (grandparent_index_ c) (overlapped_bytes_ c);
  Ok (if kMaxGrandParentOverlapBytes <? r.2 then (true, set_grandparents r.1 true 0 c) else (false, set_grandparents r.1 true r.2 c)).

(** *** DBImpl::CompactionState *)

Record Output := mkOutput { out_number : Z; out_file_size : Z; out_smallest : list byte; out_largest : list byte }.

Record compact_state := mkCompact {
  compact : compaction;
  outputs : list Output;
  builder : option (list entry);
  total_bytes : Z;
  numbers_used : nat;
  tables : list (Z * list entry)
}.
Definition new_state (c : compaction) : compact_state := mkCompact c [] None 0 0 [].
Definition set_compaction (c : compaction) (w : compact_state) : compact_state :=
  mkCompact c (outputs w) (builder w) (total_bytes w) (numbers_used w) (tables w).

(** [*compact->current_output() = f( )]. *)
Definition set_current (f : Output → Output) (w : compact_state) : outcome compact_state :=
  match outputs w with
  | [] => Ub OutOfBounds
  | _ => Ok (mkCompact (compact w) (alter f (pred (length (outputs w))) (outputs w)) (builder w) (total_bytes w) (numbers_used w) (tables w))
  end.

(** The environment. *)
Record environment := mkEnvironment {
  new_file_number : nat → Z;
  open_status : Z → status;
  finish_status : Z → status;
  sync_status : Z → status;
  close_status : Z → status;
  verify_status : Z → status;
  table_size : bool → list entry → Z;
  shutting_down : nat → bool
}.
Context (env : environment) (smallest_snapshot : Z).

Definition OpenCompactionOutputFile (w : compact_state) : outcome (status * compact_state) :=
  match builder w with
  | Some _ => Ub AssertionFailed
  | None =>
      let file_number := new_file_number env (numbers_used w) in
      let out := mkOutput file_number 0 [] [] in
      let s := open_status env file_number in
      Ok (s, mkCompact (compact w) (outputs w ++ [out]) (if ok s then Some [] else None) (total_bytes w) (S (numbers_used w)) (tables w))
  end.

Definition set_size (n : Z) (o : Output) : Output := mkOutput (out_number o) n (out_smallest o) (out_largest o).
Definition set_smallest (k : list byte) (o : Output) : Output := mkOutput (out_number o) (out_file_size o) k (out_largest o).
Definition set_largest (k : list byte) (o : Output) : Output := mkOutput (out_number o) (out_file_size o) (out_smallest o) k.

(** [input_status] is the call of [input->status()]. *)
Definition FinishCompactionOutputFile (input_status : outcome status) (w : compact_state) : outcome (status * compact_state) :=
  match builder w, last (outputs w) with
  | Some es, Some out =>
      let output_number := out_number out in
      if output_number =? 0 then Ub AssertionFailed
      else
        st ← input_status;
        let s := if ok st then finish_status env output_number else st in
        let current_bytes := table_size env (ok st) es in
        let w := mkCompact (compact w) (alter (set_size current_bytes) (pred (length (outputs w))) (outputs w)) None
                   (u64 (total_bytes w + current_bytes)) (numbers_used w)
                   (if ok st then tables w ++ [(output_number, es)] else tables w) in
        let s := if ok s then sync_status env output_number else s in
        let s := if ok s then close_status env output_number else s in
        let s := if ok s && (0 <? blen es) then verify_status env output_number else s in
        Ok (s, w)
  | _, _ => Ub AssertionFailed
  end.

(** *** The decision to drop an entry *)

Record key_state := mkKey { current_user_key : list byte; has_current_user_key : bool; last_sequence_for_key : Z }.
Definition new_key_state : key_state := mkKey [] false kMaxSequenceNumber.

Definition handle_key (key : list byte) (ks : key_state) (c : compaction) : outcome (bool * key_state * compaction) :=
  p ← ParseInternalKey key;
  Ok (match (p : option ParsedInternalKey) with
      | None => (false, new_key_state, c)
      | Some ikey =>
          let ks := if negb (has_current_user_key ks) || negb (ucmp (user_key ikey) (current_user_key ks) =? 0)
                    then mkKey (user_key ikey) true kMaxSequenceNumber else ks in
          let r := if last_sequence_for_key ks <=? smallest_snapshot then (true, c)
                   else if bool_decide (type ikey = kTypeDeletion) && (sequence ikey <=? smallest_snapshot)
                   then IsBaseLevelForKey (user_key ikey) c
                   else (false, c) in
          (r.1, mkKey (current_user_key ks) (has_current_user_key ks) (sequence ikey), r.2)
      end).

(** [builder->Add], which asserts the order of the keys. *)
Definition builder_add (key value : list byte) (w : compact_state) : outcome compact_state :=
  match builder w with
  | None => Ub NullDeref
  | Some es =>
      match last es with
      | Some e => if 0 <? icmp key e.1 then Ok tt else Ub AssertionFailed
      | None => Ok tt
      end ≫= λ _,
      Ok (mkCompact (compact w) (outputs w) (Some (es ++ [(key, value)])) (total_bytes w) (numbers_used w) (tables w))
  end.

(** [if (!drop) { ... }]. *)
Definition add_entry (key value : list byte) (input_status : outcome status) (w : compact_state) : outcome (status * compact_state) :=
  r ← match builder w with None => OpenCompactionOutputFile w | Some _ => Ok (status_ok, w) end;
  if ok r.1 then
    w ← match builder r.2 with
        | Some [] => set_current (set_smallest key) r.2
        | Some _ => Ok r.2
        | None => Ub NullDeref
        end;
    w ← set_current (set_largest key) w;
    w ← builder_add key value w;
    match builder w with
    | Some es =>
        if max_output_file_size_ (compact w) <=? table_size env false es then FinishCompactionOutputFile input_status w
        else Ok (status_ok, w)
    | None => Ub NullDeref
    end
  else Ok r.

(** *** DBImpl::DoCompactionWork *)

Context {T : Type} (input : IteratorOps T).

(** The loop over the input; [round] counts the loads of [shutting_down_]. *)
Fixpoint work_loop (fuel round : nat) (it : T) (ks : key_state) (w : compact_state) : outcome (status * T * compact_state * nat) :=
  if it_Valid input it then
    if shutting_down env round then Ok (status_ok, it, w, S round)
    else
      match fuel with
      | O => Blocked
      | S fuel =>
          key ← it_key input it;
          stop ← ShouldStopBefore key (compact w);
          let w := set_compaction stop.2 w in
          r ← match stop.1, builder w with
              | true, Some _ => FinishCompactionOutputFile (it_status input it) w
              | _, _ => Ok (status_ok, w)
              end;
          if ok r.1 then
            let w := r.2 in
            d ← handle_key key ks (compact w);
            let w := set_compaction d.2 w in
            r ← if d.1.1 : bool then Ok (status_ok, w) else v ← it_value input it; add_entry key v (it_status input it) w;
            if ok r.1 then
              it ← it_Next input it;
              work_loop fuel (S round) it d.1.2 r.2
            else Ok (r.1, it, r.2, S round)
          else Ok (r.1, it, r.2, S round)
      end
  else Ok (status_ok, it, w, round).

Definition DeletingDB : status := status_err kIOError (str "Deleting DB during compaction") [].

(** [InstallCompactionResults]: the edit that is logged and applied. *)
Definition add_output (level : nat) (e : VersionEdit.version_edit) (o : Output) : VersionEdit.version_edit :=
  VersionEdit.AddFile (Z.of_nat level + 1) (out_number o) (out_file_size o) (out_smallest o) (out_largest o) e.
Definition InstallCompactionResults (w : compact_state) : VersionEdit.version_edit :=
  let c := compact w in foldl (add_output (level_ c)) (AddInputDeletions c (edit_ c)) (outputs w).

(** The edit is [None] where nothing is installed. *)
Definition DoCompactionWork (fuel : nat) (it : T) (c : compaction) : outcome (status * option VersionEdit.version_edit * compact_state) :=
  it ← it_SeekToFirst input it;
  r ← work_loop fuel 0 it new_key_state (new_state c);
  let '(s, it, w, round) := (r : status * T * compact_state * nat) in
  let s := if ok s && shutting_down env round then DeletingDB else s in
  r ← match builder w with
      | Some _ => if ok s then FinishCompactionOutputFile (it_status input it) w else Ok (s, w)
      | None => Ok (s, w)
      end;
  s ← if ok r.1 then it_status input it else Ok r.1;
  Ok (s, if ok s then Some (InstallCompactionResults r.2) else None, r.2).

End Compaction.

(** [smallest_snapshot]: the sequence numbers of the snapshot list from the oldest on. *)
Definition oldest_needed (snapshots : list Z) (last_sequence : Z) : Z :=
  match snapshots with [] => last_sequence | s :: _ => s end.

End Compaction.

Import Compaction.

(** ** Lemmas *)

Section proof.
Context (user : Comparator) `{Huser : !ComparatorLaws any_key user} (snap : Z) (Hsnap : snap < kMaxSequenceNumber)
  (v : version) (level : nat).
#[local] Notation icmp := (InternalKeyComparator.Compare user).
#[local] Notation ucmp := (Compare user).
#[local] Notation levels := (seq (level + 2) (Z.to_nat kNumLevels - (level + 2))).
Context (Hlevels : ∀ lvl, lvl ∈ levels → level_sorted user (level_files v lvl)).

(** *** IsBaseLevelForKey *)

(** All files before the pointer end before the key. *)
Definition passed (k : list byte) (files : list FileMetaData) (ptr : nat) : Prop :=
  ∀ j f, (j < ptr)%nat → files !! j = Some f → ucmp (ExtractUserKey (largest f)) k < 0.

Lemma scan_files_spec k all : level_sorted user all → ∀ files ptr, drop ptr all = files → passed k all ptr →
  let r := scan_files user k files ptr in
  passed k all r.1 ∧ (r.2 = false → ∀ f, f ∈ all → file_covers user k f = false).
Proof.
  intros Hall. induction files as [|f files IH]; intros ptr Hd Hp; cbn [scan_files].
  - split; [done|]. intros _ f [j Hj]%list_elem_of_lookup. pose proof (lookup_lt_Some _ _ _ Hj) as Hlt.
    assert (length all ≤ ptr)%nat by (pose proof (length_drop all ptr) as Hl; rewrite Hd in Hl; cbn in Hl; lia).
    pose proof (Hp j f ltac:(lia) Hj). pose proof (ucmp_flip user k (ExtractUserKey (largest f))).
    unfold file_covers. apply andb_false_iff. right. apply Z.leb_gt. lia.
  - assert (all !! ptr = Some f) as Hf by (pose proof (lookup_drop all ptr 0) as H; rewrite Hd, Nat.add_0_r in H; by rewrite <- H).
    pose proof (ucmp_flip user k (ExtractUserKey (largest f))) as Hfl.
    destruct (Z.leb_spec (ucmp k (ExtractUserKey (largest f))) 0) as [Hle|Hgt].
    + split; [done|]. cbn [snd]. intros Hlow%Z.leb_gt g Hg. pose proof Hg as [j Hj]%list_elem_of_lookup.
      unfold file_covers. apply andb_false_iff. destruct (Nat.lt_trichotomy j ptr) as [Hj2|[->|Hj2]].
      * right. apply Z.leb_gt. pose proof (Hp j g Hj2 Hj). pose proof (ucmp_flip user k (ExtractUserKey (largest g))). lia.
      * left. simplify_eq. by apply Z.leb_gt.
      * left. apply Z.leb_gt. pose proof (lo_sorted _ _ Hall ptr j f g Hj2 Hf Hj) as Hs. apply Z.lt_le_incl, (icmp_user_le user) in Hs.
        destruct (lo_files _ _ Hall f) as (_ & _ & Hr); [by eapply list_elem_of_lookup_2|]. apply (icmp_user_le user) in Hr.
        apply (compare_lt_le any_key user k (ExtractUserKey (smallest f))); [done ..|].
        by apply (ucmp_trans user _ (ExtractUserKey (largest f))).
    + assert (drop (S ptr) all = files) as Hd2 by (rewrite (drop_S all f ptr Hf) in Hd; congruence).
      apply IH; [done|]. intros j g Hj Hg. destruct (decide (j = ptr)) as [->|]; [simplify_eq; lia | apply (Hp j g); [lia | done]].
Qed.

Definition ptrs_ok (k : list byte) (ptrs : list nat) : Prop :=
  length ptrs = Z.to_nat kNumLevels ∧ ∀ lvl, lvl ∈ levels → passed k (level_files v lvl) (ptrs !!! lvl).

Lemma base_loop_spec k : ∀ ls ptrs, (∀ lvl, lvl ∈ ls → lvl ∈ levels) → ptrs_ok k ptrs →
  let r := base_loop user k v ls ptrs in
  ptrs_ok k r.2 ∧ (r.1 = true → ∀ lvl f, lvl ∈ ls → f ∈ level_files v lvl → file_covers user k f = false).
Proof.
  induction ls as [|l ls IH]; intros ptrs Hls Hp; cbn [base_loop].
  { split; [done|]. intros _ lvl f Hl. by apply elem_of_nil in Hl. }
  assert (l ∈ levels) as Hl by (apply Hls; by left). destruct Hp as [Hlen Hp].
  destruct (scan_files_spec k (level_files v l) (Hlevels l Hl) _ (ptrs !!! l) eq_refl (Hp l Hl)) as [Hp2 Hfree].
  destruct (scan_files user k _ _) as [ptr covered]. cbn [fst snd] in *.
  assert (ptrs_ok k (<[l:=ptr]> ptrs)) as Hok.
  { split; [by rewrite length_insert|]. intros lvl Hlvl. destruct (decide (lvl = l)) as [->|Hne].
    - rewrite list_lookup_total_insert_eq; [done|]. apply elem_of_seq in Hl. unfold kNumLevels in *. lia.
    - rewrite list_lookup_total_insert_ne by done. by apply Hp. }
  destruct covered; [by split|]. destruct (IH _ ltac:(intros lvl Hlvl; apply Hls; by right) Hok) as [H1 H2]. split; [done|].
  intros Hb lvl f [->|Hlvl]%elem_of_cons Hf; [by apply Hfree | by apply (H2 Hb lvl)].
Qed.

(** *** Which entries are kept *)

Definition decide_upd (ks : key_state) (ptrs : list nat) (u : upd) : bool * key_state * list nat :=
  let ks := if negb (has_current_user_key ks) || negb (ucmp (u_key u) (current_user_key ks) =? 0)
            then mkKey (u_key u) true kMaxSequenceNumber else ks in
  let r := if last_sequence_for_key ks <=? snap then (true, ptrs)
           else if bool_decide (u_type u = kTypeDeletion) && (u_seq u <=? snap) then base_loop user (u_key u) v levels ptrs
           else (false, ptrs) in
  (r.1, mkKey (current_user_key ks) (has_current_user_key ks) (u_seq u), r.2).
Fixpoint keep (us : list upd) (ks : key_state) (ptrs : list nat) : list upd :=
  match us with
  | [] => []
  | u :: us => let d := decide_upd ks ptrs u in let l := keep us d.1.2 d.2 in if d.1.1 then l else u :: l
  end.

Lemma handle_key_upd u ks c : seq_ok (u_seq u) → input_version_ c = v → level_ c = level →
  handle_key user snap (upd_ikey u) ks c =
    let d := decide_upd ks (level_ptrs_ c) u in Ok (d.1.1, d.1.2, set_level_ptrs d.2 c).
Proof.
  intros Hu Hv Hl. unfold handle_key, upd_ikey. rewrite parse_ikey by done. cbn [mbind outcome_bind user_key sequence type].
  unfold decide_upd. cbv zeta. f_equal. set (ks' := if _ || _ then _ else _). unfold IsBaseLevelForKey. rewrite Hv, Hl.
  assert (c = set_level_ptrs (level_ptrs_ c) c) as Hc by (by destruct c).
  destruct (last_sequence_for_key ks' <=? snap); [by cbn [fst snd]; rewrite <- Hc|].
  destruct (bool_decide _ && _); [done|]. by cbn [fst snd]; rewrite <- Hc.
Qed.

(** The state of the loop between two entries. *)
Definition key_inv (ks : key_state) (us : list upd) : Prop :=
  has_current_user_key ks = true → ∀ u, u ∈ us → ucmp (current_user_key ks) (u_key u) ≤ 0 ∧
    (ucmp (current_user_key ks) (u_key u) = 0 → u_seq u ≤ last_sequence_for_key ks).
Definition ptrs_inv (ptrs : list nat) (us : list upd) : Prop :=
  length ptrs = Z.to_nat kNumLevels ∧
  ∀ lvl u, lvl ∈ levels → u ∈ us → passed (u_key u) (level_files v lvl) (ptrs !!! lvl).
Definition hidden (ks : key_state) (k : list byte) : Prop :=
  has_current_user_key ks = true ∧ ucmp k (current_user_key ks) = 0 ∧ last_sequence_for_key ks ≤ snap.

(** What a reader sees: a deletion is as good as nothing. *)
Definition found (r : option upd) : option (list byte) :=
  match r with Some u => match u_type u with kTypeValue => Some (u_value u) | kTypeDeletion => None end | None => None end.

(** Older updates lie in the deeper levels of the input version. *)
Definition covered (older : list upd) : Prop :=
  ∀ w, w ∈ older → ∃ lvl f, lvl ∈ levels ∧ f ∈ level_files v lvl ∧ file_covers user (u_key w) f = true.

Lemma visible_skip k s u l : matches user k s u = false → visible user k s (u :: l) = visible user k s l.
Proof. intros Hm. unfold visible. cbn [List.filter]. by rewrite Hm. Qed.

Lemma visible_take k s u l : matches user k s u = true → (∀ w, w ∈ l → ucmp (u_key u) (u_key w) = 0 → u_seq w ≤ u_seq u) →
  visible user k s (u :: l) = Some u.
Proof.
  intros Hm Hl. unfold visible. cbn [List.filter]. rewrite Hm. cbn [foldl newest]. apply fold_newest_keep.
  intros w [Hmw Hw]%elem_of_list_filter_bool. apply (matches_spec user) in Hm as [E _], Hmw as [E' _].
  apply Hl; [done|]. by apply (ucmp_same user _ _ k).
Qed.

Lemma not_hidden_before ks us k : key_inv ks us → hidden ks k → ∀ u, u ∈ us → 0 ≤ ucmp (u_key u) k.
Proof.
  intros Hi (Hh & Hk & _) u Hu. destruct (Hi Hh u Hu) as [H1 _]. pose proof (ucmp_flip user k (u_key u)).
  pose proof (ucmp_same_l user k (current_user_key ks) (u_key u) Hk). lia.
Qed.

(** One step of the decision. *)
Lemma decide_spec ks ptrs u us : run_ok user (u :: us) → key_inv ks (u :: us) → ptrs_inv ptrs (u :: us) →
  let d := decide_upd ks ptrs u in
  key_inv d.1.2 us ∧ ptrs_inv d.2 us ∧
  (∀ k, ucmp (u_key u) k = 0 → hidden d.1.2 k ↔ u_seq u ≤ snap) ∧ (∀ k, ucmp (u_key u) k ≠ 0 → ¬ hidden d.1.2 k) ∧
  (hidden ks (u_key u) → d.1.1 = true ∧ u_seq u ≤ snap) ∧
  (¬ hidden ks (u_key u) → d.1.1 = true → u_type u = kTypeDeletion ∧ u_seq u ≤ snap ∧
    ∀ lvl f, lvl ∈ levels → f ∈ level_files v lvl → file_covers user (u_key u) f = false).
Proof.
  intros Hrun Hk Hp. apply (run_ok_cons user) in Hrun as (Hr & Hu & Hlt). cbv zeta. unfold decide_upd.
  set (first := negb _ || negb _). set (ks' := if first then _ else ks).
  assert (has_current_user_key ks' = true ∧ ucmp (u_key u) (current_user_key ks') = 0) as [Hhas Hcur].
  { subst ks'. destruct first eqn:E; [split; [done | by apply compare_refl]|]. subst first.
    apply orb_false_iff in E as [E1%negb_false_iff E2%negb_false_iff]. split; [done | by apply Z.eqb_eq]. }
  assert (ucmp (current_user_key ks') (u_key u) = 0) as Hcur' by (pose proof (ucmp_flip user (u_key u) (current_user_key ks')); lia).
  assert (last_sequence_for_key ks' ≤ snap ↔ hidden ks (u_key u)) as Hhid.
  { unfold hidden. subst ks'. destruct first eqn:E; subst first.
    - cbn [last_sequence_for_key]. apply orb_true_iff in E. rewrite !negb_true_iff, Z.eqb_neq in E. split; [lia|].
      intros (H1 & H2 & _). destruct E; congruence.
    - apply orb_false_iff in E as [E1%negb_false_iff E2%negb_false_iff]. apply Z.eqb_eq in E2. tauto. }
  assert (ptrs_ok (u_key u) ptrs) as Hpu by (split; [apply Hp|]; intros lvl Hl; apply (proj2 Hp); [done | by left]).
  set (r := if _ <=? snap then _ else _).
  assert (ptrs_ok (u_key u) r.2 ∧ (hidden ks (u_key u) → r.1 = true) ∧ (¬ hidden ks (u_key u) → r.1 = true → u_type u = kTypeDeletion ∧ u_seq u ≤ snap ∧
    ∀ lvl f, lvl ∈ levels → f ∈ level_files v lvl → file_covers user (u_key u) f = false)) as (Hr1 & Hr2 & Hr3).
  { subst r. destruct (Z.leb_spec (last_sequence_for_key ks') snap) as [Hle|Hgt]; cbn [fst snd].
    { split; [done|]. split; [done|]. intros Hn. destruct Hn. by apply Hhid. }
    assert (∀ b : bool, hidden ks (u_key u) → b = true) as Hno by (intros b Hh%Hhid; lia).
    destruct (bool_decide _ && _) eqn:Eb; [|split; [done|]; split; [apply Hno | done]].
    apply andb_true_iff in Eb as [Eb%bool_decide_eq_true Es%Z.leb_le].
    destruct (base_loop_spec (u_key u) levels ptrs (λ _ H, H) Hpu) as [H1 H2]. split; [done|]. split; [apply Hno|].
    intros _ Hb. split; [done|]. split; [done|]. by apply H2. }
  cbn [fst snd]. clearbody r. split; [|split; [|split; [|split; [|split]]]].
  - intros _ w Hw. cbn [current_user_key last_sequence_for_key].
    pose proof (icmp_updates user u w Hu (proj2 Hr w Hw) (Hlt w Hw)). pose proof (ucmp_same_l user (current_user_key ks') (u_key u) (u_key w) Hcur').
    lia.
  - split; [apply Hr1|]. intros lvl w Hl Hw j f Hj Hf. pose proof (proj2 Hr1 lvl Hl j f Hj Hf).
    pose proof (icmp_updates user u w Hu (proj2 Hr w Hw) (Hlt w Hw)). apply (compare_lt_le any_key user _ (u_key u)); [done ..|lia].
  - intros k E. unfold hidden. cbn. pose proof (ucmp_same_l user (u_key u) k (current_user_key ks') E). split; [tauto|]. intros H1. split; [done|]. split; [lia | done].
  - intros k E (_ & H1 & _). cbn in H1. apply E. apply (ucmp_same user _ _ (current_user_key ks')); done.
  - intros Hh. split; [by apply Hr2|]. destruct Hh as (H1 & H2 & H3). destruct (Hk H1 u ltac:(by left)) as [_ H4].
    pose proof (ucmp_flip user (u_key u) (current_user_key ks)). specialize (H4 ltac:(lia)). lia.
  - done.
Qed.

Lemma keep_sublist us : ∀ ks ptrs, keep us ks ptrs `sublist_of` us.
Proof.
  induction us as [|u us IH]; intros ks ptrs; [done|]. cbn [keep]. destruct (decide_upd ks ptrs u) as [[[] ks'] ptrs']; cbn [fst snd].
  - by apply sublist_cons. - by apply sublist_skip.
Qed.

Lemma keep_elem us ks ptrs u : u ∈ keep us ks ptrs → u ∈ us.
Proof. apply sublist_subseteq, keep_sublist. Qed.

(** Dropping entries changes no lookup in a snapshot that may still be read. *)
Lemma keep_lookup k s older : snap ≤ s → covered older → ∀ us ks ptrs,
  run_ok user us → newer user us older → key_inv ks us → ptrs_inv ptrs us →
  (hidden ks k → ∀ u, u ∈ keep us ks ptrs → ucmp (u_key u) k ≠ 0) ∧
  (¬ hidden ks k → found (visible user k s (keep us ks ptrs ++ older)) = found (visible user k s (us ++ older))).
Proof.
  intros Hs Hcov. induction us as [|u us IH]; intros ks ptrs Hrun Hnew Hk Hp.
  { split; [intros _ u Hu; by apply elem_of_nil in Hu | done]. }
  destruct (decide_spec ks ptrs u us Hrun Hk Hp) as (Hk' & Hp' & Hhid & Hnhid & Hdrop & Hbase). cbn [keep].
  destruct (decide_upd ks ptrs u) as [[drop ks'] ptrs']. cbn [fst snd] in *.
  pose proof (run_ok_cons user u us Hrun) as (Hr & Hu & Hlt).
  destruct (IH ks' ptrs' Hr) as [IHh IHn]; [by intros x w Hx; apply Hnew; right | done | done|]. clear IH.
  assert (∀ w, w ∈ us → ucmp (u_key u) (u_key w) = 0 → u_seq w ≤ u_seq u) as Hle.
  { intros w Hw E. pose proof (icmp_updates user u w Hu (proj2 Hr w Hw) (Hlt w Hw)). lia. }
  assert (∀ w, w ∈ older → ucmp (u_key u) (u_key w) = 0 → u_seq w ≤ u_seq u) as Hleo.
  { intros w Hw E. pose proof (Hnew u w ltac:(by left) Hw E). lia. }
  destruct (decide (ucmp (u_key u) k = 0)) as [E|E].
  - assert (hidden ks k ↔ hidden ks (u_key u)) as Hsame.
    { unfold hidden. pose proof (ucmp_same_l user (u_key u) k (current_user_key ks) E). split; intros (? & ? & ?); (split; [done|]; split; [lia | done]). }
    split.
    + intros Hh%Hsame w Hw. destruct (Hdrop Hh) as [-> Hle2]. apply IHh; [by apply Hhid | done].
    + intros Hh. rewrite Hsame in Hh. destruct drop.
      * destruct (Hbase Hh eq_refl) as (Ht & Hseq & Hfree). assert (matches user k s u = true) as Hm by (apply matches_spec; split; [done | lia]).
        rewrite <- app_comm_cons, (visible_take k s u (us ++ older) Hm).
        2: { intros w [Hw|Hw]%elem_of_app Ew; [by apply Hle | by apply Hleo]. }
        cbn [found]. rewrite Ht. rewrite (visible_none user); [done|]. intros w [Hw|Hw]%elem_of_app; apply not_true_is_false; intros [Ew _]%(matches_spec user).
        -- destruct (IHh (proj2 (Hhid k E) Hseq) w Hw Ew).
        -- destruct (Hcov w Hw) as (lvl & f & Hl & Hf & Hc). pose proof (Hfree lvl f Hl Hf) as Hn.
           pose proof (ucmp_same user _ _ k E Ew) as Euw. unfold file_covers in Hn, Hc.
           apply andb_true_iff in Hc as [C1%Z.leb_le C2%Z.leb_le]. apply andb_false_iff in Hn. rewrite !Z.leb_gt in Hn.
           pose proof (ucmp_same_l user _ _ (ExtractUserKey (smallest f)) Euw). pose proof (ucmp_same_l user _ _ (ExtractUserKey (largest f)) Euw). lia.
      * rewrite <- !app_comm_cons. destruct (matches user k s u) eqn:Hm.
        -- rewrite !visible_take; [done | done | | done |]; intros w [Hw|Hw]%elem_of_app Ew; auto. apply Hle; [by eapply keep_elem | done].
        -- rewrite !visible_skip by done. apply IHn. intros Hh2. apply (Hhid k E) in Hh2.
           assert (matches user k s u = true); [apply matches_spec; split; [done | lia] | congruence].
  - assert (∀ s, matches user k s u = false) as Hm by (intros s'; apply not_true_is_false; by intros [? _]%(matches_spec user)). split.
    + intros Hh w Hw Ew. pose proof (not_hidden_before ks _ k Hk Hh u ltac:(by left)) as Hge.
      assert (w ∈ us) as Hwus. { destruct drop; [by eapply keep_elem|]. apply elem_of_cons in Hw as [->|Hw]; [done | by eapply keep_elem]. }
      pose proof (icmp_updates user u w Hu (proj2 Hr w Hwus) (Hlt w Hwus)). pose proof (ucmp_same_r user (u_key w) k (u_key u) Ew). lia.
    + intros _. rewrite <- app_comm_cons, (visible_skip k s u (us ++ older)) by done. destruct drop; [|rewrite <- app_comm_cons, visible_skip by done]; apply IHn; by apply Hnhid.
Qed.

Lemma initial_ptrs l : ptrs_inv (replicate (Z.to_nat kNumLevels) 0%nat) l.
Proof.
  split; [apply length_replicate|]. intros lvl u Hl _ j f Hj. exfalso.
  rewrite list_lookup_total_alt in Hj. destruct (replicate (Z.to_nat kNumLevels) 0%nat !! lvl) as [n|] eqn:E.
  - apply lookup_replicate in E as [-> _]. cbn in Hj. lia.
  - cbn in Hj. lia.
Qed.

(** At most one entry of each user key is kept if no snapshot is older than the input. *)
Lemma keep_distinct us : ∀ ks ptrs, run_ok user us → key_inv ks us → ptrs_inv ptrs us → (∀ u, u ∈ us → u_seq u ≤ snap) →
  StronglySorted (λ u w, ucmp (u_key u) (u_key w) ≠ 0) (keep us ks ptrs).
Proof.
  induction us as [|u us IH]; intros ks ptrs Hrun Hk Hp Hold; [constructor|].
  destruct (decide_spec ks ptrs u us Hrun Hk Hp) as (Hk' & Hp' & Hhid & _). cbn [keep]. destruct (decide_upd ks ptrs u) as [[drop ks'] ptrs']. cbn [fst snd] in *.
  pose proof (run_ok_cons user u us Hrun) as (Hr & _ & _). assert (StronglySorted (λ u w, ucmp (u_key u) (u_key w) ≠ 0) (keep us ks' ptrs')) as Hs by (apply IH; [done..|]; intros w Hw; apply Hold; by right).
  destruct drop; [done|]. constructor; [done|]. apply Forall_forall. intros w Hw E.
  destruct (keep_lookup (u_key u) snap [] ltac:(lia) ltac:(by intros x ?%elem_of_nil) us ks' ptrs' Hr ltac:(by intros x y _ ?%elem_of_nil) Hk' Hp') as [Hh _].
  assert (ucmp (u_key u) (u_key u) = 0) as Er by (by apply compare_refl). apply (Hh (proj2 (Hhid _ Er) (Hold u ltac:(by left))) w Hw). pose proof (ucmp_flip user (u_key u) (u_key w)). lia.
Qed.
Lemma keep_new_distinct us : run_ok user us → (∀ u, u ∈ us → u_seq u ≤ snap) →
  StronglySorted (λ u w, ucmp (u_key u) (u_key w) ≠ 0) (keep us new_key_state (replicate (Z.to_nat kNumLevels) 0%nat)).
Proof. intros Hrun Hold. apply keep_distinct; [done | done | apply initial_ptrs | done]. Qed.

(** ... between newer and older data. *)
Lemma keep_reads k s us above older : snap ≤ s → run_ok user us → newer user us older → covered older → newer user above (us ++ older) →
  found (visible user k s (above ++ keep us new_key_state (replicate (Z.to_nat kNumLevels) 0%nat) ++ older)) = found (visible user k s (above ++ us ++ older)).
Proof.
  intros Hle Hrun Hnew Hcov Hab. rewrite !(visible_app_newer user k s above).
  - destruct (visible user k s above); [done|].
    apply (keep_lookup k s older Hle Hcov us new_key_state (replicate (Z.to_nat kNumLevels) 0%nat) Hrun Hnew); [done | apply initial_ptrs | by intros [? _]].
  - by apply (newer_newer_for user).
  - apply (newer_newer_for user). intros x y Hx [Hy|Hy]%elem_of_app; apply Hab; try done; apply elem_of_app; [left; by eapply keep_elem | by right].
Qed.

(** *** Writing the output files *)

Context (env : environment) (Hnumbers : ∀ n, new_file_number env n ≠ 0).

(** A finished output describes its table. *)
Definition describes (o : Output) (t : Z * list entry) : Prop :=
  out_number o = t.1 ∧ head (map fst t.2) = Some (out_smallest o) ∧ last (map fst t.2) = Some (out_largest o).
Definition written (w : compact_state) : list entry := concat (map snd (tables w)) ++ default [] (builder w).
Definition outputs_ok (w : compact_state) : Prop :=
  match builder w with
  | None => Forall2 describes (outputs w) (tables w)
  | Some es => ∃ outs o, outputs w = outs ++ [o] ∧ Forall2 describes outs (tables w) ∧ out_number o ≠ 0 ∧ describes o (out_number o, es)
  end.

Lemma alter_last {A} (f : A → A) (l : list A) x : alter f (pred (length (l ++ [x]))) (l ++ [x]) = l ++ [f x].
Proof.
  replace (pred (length (l ++ [x]))) with (length l + 0)%nat by (rewrite length_app; cbn; lia). by rewrite alter_app_r.
Qed.

Lemma describes_size o n t : describes o t → describes (set_size n o) t.
Proof. by intros (H1 & H2 & H3). Qed.

Lemma finish_output_spec w es : outputs_ok w → builder w = Some es →
  ∃ s w', FinishCompactionOutputFile env (Ok status_ok) w = Ok (s, w') ∧ outputs_ok w' ∧ builder w' = None ∧
    written w' = written w ∧ compact w' = compact w.
Proof.
  intros Ho Eb. unfold outputs_ok in Ho. rewrite Eb in Ho. destruct Ho as (outs & o & Eo & Hall & Hn & Hd).
  unfold FinishCompactionOutputFile. rewrite Eb, Eo, last_snoc. destruct (Z.eqb_spec (out_number o) 0); [done|].
  cbn [mbind outcome_bind]. change (ok status_ok) with true. cbv iota. eexists _, _. split; [reflexivity|].
  split; [|split; [done|]; split; [|done]].
  - unfold outputs_ok. cbn [builder outputs tables]. rewrite alter_last. apply Forall2_app; [done|]. constructor; [|constructor].
    by apply describes_size.
  - unfold written. cbn [tables builder]. rewrite Eb. cbn [default]. rewrite map_app, concat_app. cbn. by rewrite !app_nil_r.
Qed.

(** An entry is added behind everything in the table. *)
Lemma add_entry_spec key value w : outputs_ok w →
  (∀ es e, builder w = Some es → last es = Some e → 0 < icmp key e.1) →
  ∃ s w', add_entry user env key value (Ok status_ok) w = Ok (s, w') ∧ compact w' = compact w ∧
    (ok s = true → outputs_ok w' ∧ written w' = written w ++ [(key, value)]).
Proof.
  intros Ho Hlast. unfold add_entry.
  assert (∃ s w1, (match builder w with None => OpenCompactionOutputFile env w | Some _ => Ok (status_ok, w) end) = Ok (s, w1) ∧
    compact w1 = compact w ∧ (ok s = true → ∃ es outs o, builder w1 = Some es ∧ outputs w1 = outs ++ [o] ∧
      Forall2 describes outs (tables w1) ∧ out_number o ≠ 0 ∧ written w1 = written w ∧ (es ≠ [] → describes o (out_number o, es)) ∧
      (∀ e, last es = Some e → 0 < icmp key e.1))) as (s & w1 & -> & Ec & Hw1).
  { unfold outputs_ok in Ho. destruct (builder w) as [es|] eqn:Eb.
    - eexists _, w. split; [done|]. split; [done|]. intros _. destruct Ho as (outs & o & Eo & Hall & Hn & Hd).
      exists es, outs, o. repeat (split; [done|]). intros e He. by apply (Hlast es).
    - unfold OpenCompactionOutputFile. rewrite Eb. eexists _, _. split; [reflexivity|]. split; [done|]. intros ->.
      eexists [], (outputs w), _. split; [done|]. split; [done|]. split; [done|]. split; [apply Hnumbers|].
      split; [unfold written; cbn; by rewrite Eb|]. split; [done|]. by intros e. }
  cbn [mbind outcome_bind fst snd]. destruct (ok s) eqn:Es; [|exists s, w1; split; [done|]; split; [done|]; congruence].
  destruct (Hw1 eq_refl) as (es & outs & o & Eb & Eo & Hall & Hn & Hwr & Hd & Hl). clear Hw1. rewrite Eb.
  set (f := match es with [] => set_smallest key | _ => id end).
  assert (match es with [] => set_current (set_smallest key) w1 | _ => Ok w1 end =
    Ok (mkCompact (compact w1) (outs ++ [f o]) (Some es) (total_bytes w1) (numbers_used w1) (tables w1))) as E1.
  { subst f. destruct es; [|f_equal; destruct w1; cbn in *; congruence]. unfold set_current. rewrite Eo, alter_last, Eb. by destruct outs. }
  rewrite E1. clear E1. cbn [mbind outcome_bind]. unfold set_current. cbn [outputs compact builder total_bytes numbers_used tables].
  rewrite alter_last. replace (match outs ++ [f o] with [] => _ | _ => _ end) with
    (Ok (mkCompact (compact w1) (outs ++ [set_largest key (f o)]) (Some es) (total_bytes w1) (numbers_used w1) (tables w1))) by (by destruct outs).
  cbn [mbind outcome_bind]. unfold builder_add. cbn [builder].
  assert ((match last es with Some e => if 0 <? icmp key e.1 then Ok tt else Ub AssertionFailed | None => Ok tt end) = Ok tt) as ->.
  { destruct (last es) as [e|]; [|done]. specialize (Hl e eq_refl). by destruct (Z.ltb_spec 0 (icmp key e.1)); [|lia]. }
  cbn [mbind outcome_bind outputs compact builder total_bytes numbers_used tables].
  set (w2 := mkCompact _ _ _ _ _ _). assert (outputs_ok w2 ∧ written w2 = written w ++ [(key, value)]) as [Ho2 Hw2].
  { split.
    - exists outs, (set_largest key (f o)). split; [done|]. split; [done|].
      assert (out_number (set_largest key (f o)) = out_number o) as -> by (subst f; by destruct es). split; [done|].
      split; [by subst f; destruct es|]. cbn [snd]. rewrite !map_app. cbn [map fst]. rewrite last_snoc. split; [|done].
      subst f. destruct es as [|e es]; [done|]. destruct (Hd ltac:(done)) as (_ & Hh & _). exact Hh.
    - rewrite <- Hwr. unfold written. rewrite Eb. cbn. by rewrite app_assoc. }
  destruct (_ <=? _).
  - destruct (finish_output_spec w2 _ Ho2 eq_refl) as (s2 & w3 & -> & Ho3 & _ & Hw3 & Ec3). exists s2, w3. split; [done|].
    split; [by rewrite Ec3|]. intros _. split; [done|]. congruence.
  - exists status_ok, w2. done.
Qed.

(** *** The loop *)

(** The fields that the loop does not change. *)
Definition static (c0 c : compaction) : Prop :=
  level_ c = level_ c0 ∧ input_version_ c = input_version_ c0 ∧ edit_ c = edit_ c0 ∧ inputs0_ c = inputs0_ c0 ∧
  inputs1_ c = inputs1_ c0 ∧ grandparents_ c = grandparents_ c0.

Lemma scan_grandparents_total key seen files : (∀ g, g ∈ files → largest g ≠ []) → ∀ index n,
  ∃ r, scan_grandparents user key files seen index n = Ok r.
Proof.
  induction files as [|f files IH]; intros Hg index n; cbn [scan_grandparents]; [by eexists|].
  pose proof (Hg f ltac:(by left)) as Hf. destruct (largest f) as [|b k]; [done|]. cbn [InternalKey.Encode mbind outcome_bind].
  destruct (0 <? _); [|by eexists]. apply IH. intros g Hin. apply Hg. by right.
Qed.

Lemma ShouldStopBefore_total key c0 c : static c0 c → (∀ g, g ∈ grandparents_ c0 → largest g ≠ []) →
  ∃ b c', ShouldStopBefore user key c = Ok (b, c') ∧ static c0 c' ∧ level_ptrs_ c' = level_ptrs_ c.
Proof.
  intros Hc Hg. unfold ShouldStopBefore.
  destruct (scan_grandparents_total key (seen_key_ c) (drop (grandparent_index_ c) (grandparents_ c))) with (index := grandparent_index_ c) (n := overlapped_bytes_ c)
    as (r & ->).
  { intros g Hin. apply Hg. destruct Hc as (_ & _ & _ & _ & _ & <-). by eapply elem_of_sublist, sublist_drop. }
  cbn [mbind outcome_bind]. destruct (_ <? r.2); eexists _, _; (split; [reflexivity|]); done.
Qed.

Context {T : Type} (input : IteratorOps T) (us : list upd) (starget : list byte → Prop) (shows : T → nat → Prop)
  (HI : CursorLaws input icmp starget (map row us) shows) (Hrun : run_ok user us)
  (c0 : compaction) (Hc0 : level_ c0 = level ∧ input_version_ c0 = v) (Hgp : ∀ g, g ∈ grandparents_ c0 → largest g ≠ []).

(** [kept] are the entries written for the first [pos] entries of the input. *)
Definition loop_inv (pos : nat) (it : T) (ks : key_state) (w : compact_state) : Prop :=
  shows it pos ∧ static c0 (compact w) ∧ outputs_ok w ∧ run_ok user (drop pos us) ∧ key_inv ks (drop pos us) ∧
  ptrs_inv (level_ptrs_ (compact w)) (drop pos us) ∧
  ∃ kept, written w = map row kept ∧ kept `sublist_of` take pos us ∧
    kept ++ keep (drop pos us) ks (level_ptrs_ (compact w)) = keep us new_key_state (level_ptrs_ c0).

Lemma entry_here pos it u : shows it pos → us !! pos = Some u →
  it_Valid input it = true ∧ it_key input it = Ok (upd_ikey u) ∧ it_value input it = Ok (u_value u) ∧ it_status input it = Ok status_ok.
Proof.
  intros Hs Hu. assert (map row us !! pos = Some (row u)) as He by (by rewrite list_lookup_fmap, Hu).
  pose proof (lookup_lt_Some _ _ _ He) as Hlt. rewrite (cursor_valid (CursorLaws := HI) it pos Hs), bool_decide_true by done.
  destruct (cursor_entry (CursorLaws := HI) it pos _ Hs He) as [-> ->]. rewrite (cursor_status (CursorLaws := HI) it pos Hs). done.
Qed.

Lemma last_written w kept pos u es e : written w = map row kept → kept `sublist_of` take pos us → us !! pos = Some u →
  builder w = Some es → last es = Some e → 0 < icmp (upd_ikey u) e.1.
Proof.
  intros Hw Hsub Hu Eb He. assert (e ∈ map row kept) as Hin.
  { rewrite <- Hw. unfold written. rewrite Eb. apply elem_of_app. right. cbn. apply last_Some in He as [l ->]. apply elem_of_app. right. by left. }
  apply list_elem_of_fmap in Hin as (x & -> & Hx). apply (elem_of_sublist _ _ _ Hx) in Hsub.
  apply list_elem_of_lookup in Hsub as [i Hi]. apply lookup_take_Some in Hi as [Hi Hlt].
  pose proof (run_later user us x u i pos Hrun Hlt Hi Hu) as Hc. cbn [row fst].
  pose proof (icmp_sgn user (upd_ikey x) (upd_ikey u) (ikey_ok_ikey _ _ _) (ikey_ok_ikey _ _ _)). lia.
Qed.

(** [if (ShouldStopBefore(key) && builder != NULL) status = FinishCompactionOutputFile]. *)
Lemma stop_spec pos it w (b : bool) : shows it pos → outputs_ok w →
  ∃ s w', match b, builder w with true, Some _ => FinishCompactionOutputFile env (it_status input it) w | _, _ => Ok (status_ok, w) end = Ok (s, w') ∧
    outputs_ok w' ∧ written w' = written w ∧ compact w' = compact w ∧ (∀ es, builder w' = Some es → builder w = Some es).
Proof.
  intros Hs Ho. rewrite (cursor_status (CursorLaws := HI) it pos Hs). destruct b; [|by eexists _, _].
  destruct (builder w) as [es|] eqn:Eb; [|exists status_ok, w; by rewrite Eb].
  destruct (finish_output_spec w es Ho Eb) as (s & w' & -> & H1 & H2 & H3 & H4). exists s, w'. repeat (split; [done|]). rewrite H2. done.
Qed.

(** One round of the loop. *)
Lemma round_spec pos it ks w u : loop_inv pos it ks w → us !! pos = Some u →
  ∃ stop c1 s1 w1, ShouldStopBefore user (upd_ikey u) (compact w) = Ok (stop, c1) ∧
    match stop, builder (set_compaction c1 w) with
    | true, Some _ => FinishCompactionOutputFile env (it_status input it) (set_compaction c1 w)
    | _, _ => Ok (status_ok, set_compaction c1 w)
    end = Ok (s1, w1) ∧
  ∃ drop ks' c2 s2 w2, handle_key user snap (upd_ikey u) ks (compact w1) = Ok (drop, ks', c2) ∧
    (if drop then Ok (status_ok, set_compaction c2 w1)
     else add_entry user env (upd_ikey u) (u_value u) (it_status input it) (set_compaction c2 w1)) = Ok (s2, w2) ∧
    (ok s2 = true → ∃ it', it_Next input it = Ok it' ∧ loop_inv (S pos) it' ks' w2).
Proof.
  intros (Hs & Hst & Ho & Hr & Hk & Hp & kept & Hw & Hsub & Hkeep) Hu.
  destruct (ShouldStopBefore_total (upd_ikey u) c0 (compact w) Hst Hgp) as (stop & c1 & Estop & Hst1 & Eptr1).
  exists stop, c1. assert (outputs_ok (set_compaction c1 w)) as Ho' by exact Ho.
  destruct (stop_spec pos it (set_compaction c1 w) stop Hs Ho') as (s1 & w1 & Efin & Ho1 & Hw1 & Ec1 & Hb1).
  exists s1, w1. split; [exact Estop|]. split; [exact Efin|]. cbn [compact set_compaction] in Ec1.
  assert (drop pos us = u :: drop (S pos) us) as Ed by (by apply drop_S). rewrite Ed in Hr, Hk, Hp, Hkeep.
  pose proof (run_ok_cons user _ _ Hr) as (Hr' & Hseq & _).
  rewrite (handle_key_upd u ks (compact w1) Hseq) by (rewrite Ec1; destruct Hst1 as (E1 & E2 & _), Hc0 as [E3 E4]; congruence).
  rewrite Ec1, Eptr1. destruct (decide_spec ks (level_ptrs_ (compact w)) u _ Hr Hk Hp) as (Hk' & Hp' & _).
  cbn [keep] in Hkeep. destruct (decide_upd ks (level_ptrs_ (compact w)) u) as [[drp ks'] ptrs']. cbn [fst snd] in *.
  set (w1' := set_compaction (set_level_ptrs ptrs' c1) w1). exists drp, ks', (set_level_ptrs ptrs' c1). fold w1'.
  assert (it_Valid input it = true ∧ it_status input it = Ok status_ok) as [_ Est] by (destruct (entry_here pos it u Hs Hu) as (? & _ & _ & ?); done).
  assert (∃ it', it_Next input it = Ok it' ∧ shows it' (S pos)) as (it' & En & Hs').
  { destruct (cursor_step (CursorLaws := HI) it pos OpNext Hs) as (it' & En & Hs'); [|by exists it'].
    cbn. rewrite length_map. by eapply lookup_lt_Some. }
  assert (outputs_ok w1') as Ho1' by exact Ho1. assert (written w1' = map row kept) as Hw1' by (rewrite <- Hw; exact Hw1).
  destruct drp.
  - exists status_ok, w1'. split; [done|]. split; [done|]. intros _. exists it'. split; [done|]. split; [done|].
    split; [exact Hst1|]. split; [done|]. split; [done|]. split; [done|]. split; [exact Hp'|]. exists kept. split; [done|]. split; [|done].
    rewrite (take_S_r us pos u Hu). by apply sublist_inserts_r.
  - rewrite Est. destruct (add_entry_spec (upd_ikey u) (u_value u) w1' Ho1') as (s2 & w2 & -> & Ec2 & Hok).
    { intros es e Eb He. apply (last_written w kept pos u es e); try done. apply (Hb1 es Eb). }
    exists s2, w2. split; [done|]. split; [done|]. intros Hs2. destruct (Hok Hs2) as [Ho2 Hw2]. exists it'. split; [done|].
    split; [done|]. rewrite Ec2. split; [exact Hst1|]. split; [done|]. split; [done|]. split; [done|]. split; [exact Hp'|].
    exists (kept ++ [u]). split; [by rewrite Hw2, Hw1', map_app|]. split.
    + rewrite (take_S_r us pos u Hu). by apply sublist_app.
    + by rewrite <- app_assoc.
Qed.

Lemma work_loop_spec : ∀ fuel round pos it ks w, loop_inv pos it ks w → (length us - pos ≤ fuel)%nat → (pos ≤ length us)%nat →
  ∃ s it' w' round', work_loop user env snap input fuel round it ks w = Ok (s, it', w', round') ∧
    (ok s = true → ∃ pos' ks', loop_inv pos' it' ks' w' ∧ (pos' ≤ length us)%nat ∧
      (pos' = length us ∨ ∃ i, (i < round')%nat ∧ shutting_down env i = true)).
Proof.
  induction fuel as [|fuel IH]; intros round pos it ks w Hinv Hf Hpos; pose proof Hinv as (Hs & _); cbn [work_loop];
    rewrite (cursor_valid (CursorLaws := HI) it pos Hs), length_map; case_bool_decide as Hlt; try lia.
  1: { eexists _, _, _, _. split; [reflexivity|]. intros _. exists pos, ks. split; [done|]. split; [done|]. left. lia. }
  2: { eexists _, _, _, _. split; [reflexivity|]. intros _. exists pos, ks. split; [done|]. split; [done|]. left. lia. }
  destruct (shutting_down env round) eqn:Eshut.
  { eexists _, _, _, _. split; [reflexivity|]. intros _. exists pos, ks. split; [done|]. split; [done|]. right. exists round. split; [lia | done]. }
  destruct (us !! pos) as [u|] eqn:Hu; [|apply lookup_ge_None in Hu; lia].
  destruct (entry_here pos it u Hs Hu) as (_ & Ek & Ev & _). rewrite Ek. cbn [mbind outcome_bind].
  destruct (round_spec pos it ks w u Hinv Hu) as (stop & c1 & s1 & w1 & Estop & Efin & drp & ks' & c2 & s2 & w2 & Eh & Eadd & Hnext).
  rewrite Estop. cbn [mbind outcome_bind fst snd]. rewrite Efin. cbn [mbind outcome_bind fst snd].
  destruct (ok s1) eqn:E1; [|eexists _, _, _, _; split; [reflexivity | congruence]].
  rewrite Eh. cbn [mbind outcome_bind fst snd].
  replace (if drp then Ok (status_ok, set_compaction c2 w1) else v ← it_value input it; add_entry user env (upd_ikey u) v (it_status input it) (set_compaction c2 w1))
    with (Ok (s2, w2)) by (rewrite <- Eadd, Ev; by destruct drp).
  cbn [mbind outcome_bind fst snd]. destruct (ok s2) eqn:E2; [|eexists _, _, _, _; split; [reflexivity | congruence]].
  destruct (Hnext eq_refl) as (it' & -> & Hinv'). cbn [mbind outcome_bind]. apply (IH _ (S pos)); [done | lia | lia].
Qed.

(** *** The whole compaction *)

Lemma new_state_inv it : shows it 0 → level_ptrs_ c0 = replicate (Z.to_nat kNumLevels) 0%nat → loop_inv 0 it new_key_state (new_state c0).
Proof.
  intros Hs Hptr. split; [done|]. split; [by repeat split|]. split; [constructor|]. rewrite drop_0. split; [done|]. split; [done|].
  split; [cbn [compact new_state]; rewrite Hptr; apply initial_ptrs | by exists []].
Qed.

Lemma final_finish pos it ks w s : loop_inv pos it ks w → ok s = true →
  ∃ s' w', match builder w with
           | Some _ => if ok s then FinishCompactionOutputFile env (it_status input it) w else Ok (s, w)
           | None => Ok (s, w)
           end = Ok (s', w') ∧ Forall2 describes (outputs w') (tables w') ∧ concat (map snd (tables w')) = written w ∧ compact w' = compact w.
Proof.
  intros (Hs & _ & Ho & _) Eok. rewrite Eok, (cursor_status (CursorLaws := HI) it pos Hs). destruct (builder w) as [es|] eqn:Eb.
  - destruct (finish_output_spec w es Ho Eb) as (s' & w' & -> & Ho' & Hn & Hw & Hc). exists s', w'. split; [done|].
    unfold outputs_ok in Ho'. rewrite Hn in Ho'. split; [done|]. split; [|done]. rewrite <- Hw. unfold written. by rewrite Hn, app_nil_r.
  - exists s, w. split; [done|]. unfold outputs_ok in Ho. rewrite Eb in Ho. split; [done|]. split; [|done].
    unfold written. by rewrite Eb, app_nil_r.
Qed.

Lemma DoCompactionWork_spec fuel it p : shows it p → level_ptrs_ c0 = replicate (Z.to_nat kNumLevels) 0%nat →
  (length us ≤ fuel)%nat → (∀ i j, (i ≤ j)%nat → shutting_down env i = true → shutting_down env j = true) →
  ∃ s edit w, DoCompactionWork user env snap input fuel it c0 = Ok (s, edit, w) ∧ (ok s = false → edit = None) ∧
    (ok s = true → edit = Some (InstallCompactionResults w) ∧ static c0 (compact w) ∧ Forall2 describes (outputs w) (tables w) ∧
      concat (map snd (tables w)) = map row (keep us new_key_state (level_ptrs_ c0))).
Proof.
  intros Hs Hptr Hfuel Hmono. destruct (cursor_step (CursorLaws := HI) it p OpFirst Hs Logic.I) as (it0 & E0 & Hs0).
  unfold DoCompactionWork. cbn [run_op] in E0. rewrite E0. cbn [mbind outcome_bind].
  destruct (work_loop_spec fuel 0 0 it0 new_key_state (new_state c0)) as (s & it1 & w & round & El & Hok); [by apply new_state_inv | lia | lia|].
  rewrite El. cbn [mbind outcome_bind]. destruct (ok s) eqn:Es.
  - destruct (Hok eq_refl) as (pos & ks & Hinv & Hpos & Hend). pose proof Hinv as (Hs1 & Hst & _ & _ & _ & _ & kept & Hw & _ & Hkeep).
    cbn [andb]. destruct (shutting_down env round) eqn:Eshut.
    { exists DeletingDB, None, w. change (ok DeletingDB) with false. destruct (builder w); done. }
    destruct Hend as [->|(i & Hi & Hsd)]; [|by rewrite (Hmono i round ltac:(lia) Hsd) in Eshut].
    destruct (final_finish _ it1 ks w s Hinv Es) as (s' & w' & -> & Hd & Hcat & Hcw). cbn [mbind outcome_bind fst snd].
    rewrite drop_all in Hkeep. cbn [keep] in Hkeep. rewrite app_nil_r in Hkeep.
    destruct (ok s') eqn:Es'.
    + rewrite (cursor_status (CursorLaws := HI) it1 _ Hs1). cbn [mbind outcome_bind]. change (ok status_ok) with true.
      eexists _, _, w'. split; [reflexivity|]. split; [done|]. intros _. split; [done|]. split; [by rewrite Hcw|]. split; [done|].
      by rewrite Hcat, Hw, Hkeep.
    + cbn [mbind outcome_bind]. rewrite Es'. eexists _, _, w'. split; [reflexivity|]. split; [done | congruence].
  - cbn [andb]. assert ((match builder w with Some _ => if false then FinishCompactionOutputFile env (it_status input it1) w else Ok (s, w) | None => Ok (s, w) end) = Ok (s, w)) as E
      by (by destruct (builder w)). rewrite Es, E. cbn [mbind outcome_bind fst snd]. rewrite Es. cbn [mbind outcome_bind]. rewrite Es.
    eexists _, _, w. split; [reflexivity|]. split; [done | congruence].
Qed.

End proof.

(** *** The edit *)

(** *** The numbers of the outputs *)

Section numbers.
Context (user : Comparator) (env : environment) (snap : Z) {T : Type} (input : IteratorOps T).

(** Every output has a number of its own. *)
Definition numbers_ok (w : compact_state) : Prop := map out_number (outputs w) = map (new_file_number env) (seq 0 (numbers_used w)).

Lemma alter_numbers f k outs : (∀ o, out_number (f o) = out_number o) → map out_number (alter f k outs) = map out_number outs.
Proof. intros Hf. revert k. induction outs as [|o outs IH]; intros [|k]; cbn; [done | done | by rewrite Hf | by f_equal; apply IH]. Qed.
Lemma numbers_set_current f w w' : (∀ o, out_number (f o) = out_number o) → set_current f w = Ok w' → numbers_ok w → numbers_ok w'.
Proof.
  intros Hf. unfold set_current. destruct (outputs w) as [|o outs] eqn:E; [done|]. intros [= <-]. unfold numbers_ok. cbn [outputs numbers_used]. by rewrite alter_numbers, E.
Qed.
Lemma numbers_open w s w' : OpenCompactionOutputFile env w = Ok (s, w') → numbers_ok w → numbers_ok w'.
Proof.
  unfold OpenCompactionOutputFile. destruct (builder w); [done|]. intros [= <- <-]. unfold numbers_ok. cbn [outputs numbers_used]. rewrite map_app, seq_S, map_app. by intros ->.
Qed.
Lemma numbers_finish st w s w' : FinishCompactionOutputFile env st w = Ok (s, w') → numbers_ok w → numbers_ok w'.
Proof.
  unfold FinishCompactionOutputFile. destruct (builder w) as [es|]; [|done]. destruct (last (outputs w)); [|done]. destruct (_ =? 0); [done|].
  destruct st as [x| | |]; try done. cbn [mbind outcome_bind]. intros [= _ <-]. unfold numbers_ok. cbn [outputs numbers_used]. by rewrite alter_numbers.
Qed.
Lemma numbers_add_entry key value st w s w' : add_entry user env key value st w = Ok (s, w') → numbers_ok w → numbers_ok w'.
Proof.
  unfold add_entry. intros H Hw. destruct (match builder w with None => _ | Some _ => _ end) as [[s1 w1]| | |] eqn:E1; try done. cbn [mbind outcome_bind fst snd] in H.
  assert (numbers_ok w1) as Hw1 by (destruct (builder w); [by injection E1 as _ <- | by apply (numbers_open w s1)]).
  destruct (ok s1); [|by injection H as _ <-]. destruct (match builder w1 with Some [] => _ | _ => _ end) as [w2| | |] eqn:E2; try done. cbn [mbind outcome_bind] in H.
  assert (numbers_ok w2) as Hw2 by (destruct (builder w1) as [[|]|]; [by apply (numbers_set_current (set_smallest key) w1) | by injection E2 as <- | done]).
  destruct (set_current (set_largest key) w2) as [w3| | |] eqn:E3; try done. cbn [mbind outcome_bind] in H. apply numbers_set_current in E3; [|done..].
  destruct (builder_add user key value w3) as [w4| | |] eqn:E4; try done. cbn [mbind outcome_bind] in H.
  assert (numbers_ok w4) as Hw4.
  { unfold builder_add in E4. destruct (builder w3) as [es|]; [|done]. destruct (match last es with Some e => _ | None => _ end); try done. cbn [mbind outcome_bind] in E4. by injection E4 as <-. }
  destruct (builder w4); [|done]. destruct (_ <=? _); [by apply numbers_finish in H | by injection H as _ <-].
Qed.
Lemma numbers_loop fuel : ∀ round it ks w s it' w' round', work_loop user env snap input fuel round it ks w = Ok (s, it', w', round') → numbers_ok w → numbers_ok w'.
Proof.
  induction fuel as [|fuel IH]; intros round it ks w s it' w' round'; cbn [work_loop]; (destruct (it_Valid input it); [|by intros [= _ _ <- _]]);
    (destruct (shutting_down env round); [by intros [= _ _ <- _]|]); [done|]. intros H Hw.
  destruct (it_key input it) as [key| | |]; try done. cbn [mbind outcome_bind] in H. destruct (ShouldStopBefore user key (compact w)) as [[stop c1]| | |]; try done. cbn [mbind outcome_bind fst snd] in H.
  destruct (match stop, builder (set_compaction c1 w) with true, Some _ => _ | _, _ => _ end) as [[s1 w1]| | |] eqn:E1; try done. cbn [mbind outcome_bind fst snd] in H.
  assert (numbers_ok w1) as Hw1 by (destruct stop; [destruct (builder (set_compaction c1 w))|]; [by apply numbers_finish in E1 | by injection E1 as _ <-..]).
  destruct (ok s1); [|by injection H as _ _ <- _]. destruct (handle_key user snap key ks (compact w1)) as [[[drop ks'] c2]| | |]; try done. cbn [mbind outcome_bind fst snd] in H.
  destruct (if drop then _ else _) as [[s2 w2]| | |] eqn:E2; try done. cbn [mbind outcome_bind fst snd] in H.
  assert (numbers_ok w2) as Hw2.
  { destruct drop; [by injection E2 as _ <-|]. destruct (it_value input it) as [value| | |]; try done. cbn [mbind outcome_bind] in E2. by apply numbers_add_entry in E2. }
  destruct (ok s2); [|by injection H as _ _ <- _]. destruct (it_Next input it) as [it2| | |]; try done. cbn [mbind outcome_bind] in H. by apply (IH _ _ _ _ _ _ _ _ H).
Qed.
Lemma numbers_run fuel it c s edit w : DoCompactionWork user env snap input fuel it c = Ok (s, edit, w) → numbers_ok w.
Proof.
  unfold DoCompactionWork. destruct (it_SeekToFirst input it) as [it0| | |]; try done. cbn [mbind outcome_bind].
  destruct (work_loop _ _ _ _ _ _ _ _ _) as [[[[s1 it1] w1] round]| | |] eqn:E; try done. cbn [mbind outcome_bind]. intros H. apply numbers_loop in E; [|done].
  set (s2 := if ok s1 && _ then _ else s1) in H. destruct (match builder w1 with Some _ => _ | None => _ end) as [[s3 w3]| | |] eqn:E3; try done. cbn [mbind outcome_bind fst snd] in H.
  destruct (if ok s3 then _ else _) as [s4| | |]; try done. cbn [mbind outcome_bind] in H. injection H as _ _ <-.
  destruct (builder w1); [destruct (ok s2); [by apply numbers_finish in E3|]|]; by injection E3 as _ <-.
Qed.
End numbers.

Lemma fold_add_output level outs : ∀ e,
  let e' := foldl (add_output level) e outs in
  VersionEdit.new_files_ e' = VersionEdit.new_files_ e ++
    map (λ o, (Z.of_nat level + 1, new_file (out_number o) (out_file_size o) (out_smallest o) (out_largest o))) outs ∧
  VersionEdit.deleted_files_ e' = VersionEdit.deleted_files_ e ∧ VersionEdit.compact_pointers_ e' = VersionEdit.compact_pointers_ e.
Proof.
  induction outs as [|o outs IH]; intros e; cbn [foldl map]; [by rewrite app_nil_r|].
  destruct (IH (add_output level e o)) as [-> [-> ->]]. split; [|done]. cbn. by rewrite <- app_assoc.
Qed.

Lemma fold_deletions level files : ∀ e p,
  let e' := foldl (λ e f, VersionEdit.DeleteFile (Z.of_nat level) (number f) e) e files in
  VersionEdit.new_files_ e' = VersionEdit.new_files_ e ∧ VersionEdit.compact_pointers_ e' = VersionEdit.compact_pointers_ e ∧
  (p ∈ VersionEdit.deleted_files_ e' ↔ p ∈ VersionEdit.deleted_files_ e ∨ ∃ f, f ∈ files ∧ p = (Z.of_nat level, number f)).
Proof.
  induction files as [|f files IH]; intros e p; cbn [foldl].
  { split; [done|]. split; [done|]. split; [by left|]. intros [H|(f & Hf & _)]; [done | by apply elem_of_nil in Hf]. }
  destruct (IH (VersionEdit.DeleteFile (Z.of_nat level) (number f) e) p) as [-> [-> ->]]. split; [done|]. split; [done|]. cbn.
  rewrite set_insert_elem. setoid_rewrite elem_of_cons. naive_solver.
Qed.

(** The edit of a compaction that started as [c0]. *)
Lemma installed_edit c0 w : static c0 (compact w) → let e := InstallCompactionResults w in
  VersionEdit.new_files_ e = VersionEdit.new_files_ (edit_ c0) ++
    map (λ o, (Z.of_nat (level_ c0) + 1, new_file (out_number o) (out_file_size o) (out_smallest o) (out_largest o))) (outputs w) ∧
  VersionEdit.compact_pointers_ e = VersionEdit.compact_pointers_ (edit_ c0) ∧
  ∀ q, q ∈ VersionEdit.deleted_files_ e ↔ q ∈ VersionEdit.deleted_files_ (edit_ c0) ∨
    (∃ f, f ∈ inputs0_ c0 ∧ q = (Z.of_nat (level_ c0), number f)) ∨ (∃ f, f ∈ inputs1_ c0 ∧ q = (Z.of_nat (S (level_ c0)), number f)).
Proof.
  intros (E1 & _ & E3 & E4 & E5 & _). unfold InstallCompactionResults, AddInputDeletions. rewrite E1, E3, E4, E5.
  set (e1 := foldl _ (edit_ c0) (inputs0_ c0)). set (e2 := foldl _ e1 (inputs1_ c0)). destruct (fold_add_output (level_ c0) (outputs w) e2) as [-> [-> ->]].
  pose proof (fold_deletions (level_ c0) (inputs0_ c0) (edit_ c0)) as H1. pose proof (fold_deletions (S (level_ c0)) (inputs1_ c0) e1) as H2.
  cbv zeta in H1, H2. fold e1 in H1. fold e2 in H2. destruct (H1 (0, 0)) as (N1 & P1 & _), (H2 (0, 0)) as (N2 & P2 & _).
  split; [by rewrite N2, N1|]. split; [by rewrite P2, P1|]. intros q. destruct (H1 q) as (_ & _ & D1), (H2 q) as (_ & _ & D2). rewrite D2, D1. tauto.
Qed.

(** ** Properties *)

(** C6: Compactions lose nothing a reader can see.  For every sorted input, every file
    system, every interleaving of file numbers and every moment of a shutdown,
    [DoCompactionWork] returns; it installs an edit only if it reports OK.  Then the
    tables it wrote hold a part of the input in order and the outputs of the edit
    describe them, the input files are deleted, and for every key and every snapshot not
    older than the smallest one a lookup through newer data, the new tables and older
    data of the deeper levels finds what it found with the inputs in their place. *)
Theorem compaction_preserves_reads (user : Comparator) (Huser : ComparatorLaws any_key user) {T} (input : IteratorOps T)
    (us : list upd) (starget : list byte → Prop) (shows : T → nat → Prop)
    (HI : CursorLaws input (InternalKeyComparator.Compare user) starget (map row us) shows) (Hrun : run_ok user us)
    (v : version) (level : nat) (inputs0 inputs1 grandparents : list FileMetaData)
    (Hlevels : ∀ lvl, (0 < lvl)%nat → level_sorted user (level_files v lvl)) (Hgp : ∀ g, g ∈ grandparents → largest g ≠ [])
    (env : environment) (Hnumbers : ∀ n, new_file_number env n ≠ 0)
    (Hmono : ∀ i j, (i ≤ j)%nat → shutting_down env i = true → shutting_down env j = true)
    (snap : Z) (Hsnap : snap < kMaxSequenceNumber) (fuel : nat) (Hfuel : (length us ≤ fuel)%nat) (it : T) (p : nat) (Hit : shows it p) :
  ∃ s edit w, DoCompactionWork user env snap input fuel it (Compaction.new level v inputs0 inputs1 grandparents) = Ok (s, edit, w) ∧
    (ok s = false → edit = None) ∧
    (ok s = true → ∃ e kept, edit = Some e ∧ kept `sublist_of` us ∧ concat (map snd (tables w)) = map row kept ∧
      Forall2 describes (outputs w) (tables w) ∧
      VersionEdit.new_files_ e = map (λ o, (Z.of_nat level + 1, new_file (out_number o) (out_file_size o) (out_smallest o) (out_largest o))) (outputs w) ∧
      (∀ q, q ∈ VersionEdit.deleted_files_ e ↔
        (∃ f, f ∈ inputs0 ∧ q = (Z.of_nat level, number f)) ∨ (∃ f, f ∈ inputs1 ∧ q = (Z.of_nat (S level), number f))) ∧
      ∀ above older k s, snap ≤ s → newer user us older → covered user v level older → newer user above (us ++ older) →
        found (visible user k s (above ++ kept ++ older)) = found (visible user k s (above ++ us ++ older))).
Proof.
  assert (∀ lvl, lvl ∈ seq (level + 2) (Z.to_nat kNumLevels - (level + 2)) → level_sorted user (level_files v lvl)) as Hlv.
  { intros lvl Hl%elem_of_seq. apply Hlevels. lia. }
  set (c0 := Compaction.new level v inputs0 inputs1 grandparents).
  destruct (DoCompactionWork_spec user snap Hsnap v level Hlv env Hnumbers input us starget shows HI Hrun c0 (conj eq_refl eq_refl) Hgp fuel it p Hit eq_refl Hfuel Hmono)
    as (s & edit & w & E & Hno & Hyes). exists s, edit, w. split; [exact E|]. split; [done|]. intros Hs.
  destruct (Hyes Hs) as (-> & Hst & Hd & Hcat). eexists _, _. split; [reflexivity|].
  split; [by apply keep_sublist|]. split; [exact Hcat|]. split; [done|]. destruct (installed_edit c0 w Hst) as (-> & _ & Hdel).
  split; [done|]. split; [intros q; rewrite Hdel; cbn; rewrite elem_of_nil; tauto|].
  intros above older k s' Hle Hnew Hcov Hab.
  by apply keep_reads.
Qed.

(** A deletion that covers an older value, and a value that hides an older one; every
    snapshot is newer, and there are no deeper levels. *)
Definition demo_input : list upd :=
  [mkUpd 9 kTypeDeletion (str "a") []; mkUpd 5 kTypeValue (str "a") (str "x");
   mkUpd 7 kTypeValue (str "b") (str "y"); mkUpd 3 kTypeValue (str "b") (str "z")].
Definition demo_base : version := new_version (replicate 7 []).
Definition demo_env : environment :=
  mkEnvironment (λ n, 100 + Z.of_nat n) (λ _, status_ok) (λ _, status_ok) (λ _, status_ok) (λ _, status_ok) (λ _, status_ok)
    (λ _ es, 10 * blen es) (λ _, false).

Lemma demo_input_run : run_ok BytewiseComparator demo_input.
Proof.
  split.
  - intros i j x y Hij Hx Hy. do 4 (destruct i as [|i]; [do 4 (destruct j as [|j]; [try lia; injection Hx as <-; injection Hy as <-; vm_compute; reflexivity|]); done|]). done.
  - intros u Hu. unfold demo_input in Hu. rewrite !elem_of_cons, elem_of_nil in Hu. destruct Hu as [->|[->|[->|[->|[]]]]]; split; vm_compute; congruence.
Qed.

Lemma demo_base_levels lvl : level_files demo_base lvl = [].
Proof. do 7 (destruct lvl as [|lvl]; [done|]). done. Qed.

Lemma compaction_preserves_reads_witness :
  ∃ w e, DoCompactionWork BytewiseComparator demo_env 10 (list_cursor (InternalKeyComparator.Compare BytewiseComparator) (map row demo_input)) 4%nat 4%nat
      (Compaction.new 0 demo_base [] [] []) = Ok (status_ok, Some e, w) ∧
    concat (map snd (tables w)) = [row (mkUpd 7 kTypeValue (str "b") (str "y"))] ∧
    ∃ kept, concat (map snd (tables w)) = map row kept ∧
      ∀ k, found (visible BytewiseComparator k 20 ([] ++ kept ++ [])) = found (visible BytewiseComparator k 20 ([] ++ demo_input ++ [])).
Proof.
  destruct (compaction_preserves_reads BytewiseComparator bytewise_laws
    (list_cursor (InternalKeyComparator.Compare BytewiseComparator) (map row demo_input)) demo_input (λ _, True) _
    (list_cursor_laws _ _ _) demo_input_run demo_base 0 [] [] []) with (env := demo_env) (snap := 10) (fuel := 4%nat) (it := 4%nat) (p := 4%nat)
    as (s & edit & w & E & _ & Hyes).
  - intros lvl _. rewrite demo_base_levels. split; [intros f Hf; by apply elem_of_nil in Hf | done | done].
  - intros g Hg. by apply elem_of_nil in Hg.
  - intros n. cbn. lia.
  - done.
  - vm_compute. reflexivity.
  - cbn. lia.
  - split; [reflexivity | cbn; lia].
  - pose (W := DoCompactionWork BytewiseComparator demo_env 10
      (list_cursor (InternalKeyComparator.Compare BytewiseComparator) (map row demo_input)) 4%nat 4%nat (Compaction.new 0 demo_base [] [] [])).
    assert (match W with Ok r => ok r.1.1 | _ => false end = true) as Hs by (vm_compute; reflexivity).
    assert (match W with Ok r => concat (map snd (tables r.2)) | _ => [] end = [row (mkUpd 7 kTypeValue (str "b") (str "y"))]) as Ht
      by (vm_compute; reflexivity).
    subst W. rewrite E in Hs, Ht. cbn [fst snd] in Hs, Ht. destruct (Hyes Hs) as (e & kept & -> & _ & Hcat & _ & _ & _ & Hreads).
    exists w, e. unfold ok in Hs. apply bool_decide_eq_true in Hs as ->. split; [exact E|]. split; [exact Ht|].
    exists kept. split; [exact Hcat|]. clear E Ht Hcat Hyes. intros k. apply Hreads; [lia | | |]; intros x.
    + intros y _ Hy. by apply elem_of_nil in Hy.
    + intros Hx. by apply elem_of_nil in Hx.
    + intros y Hx. by apply elem_of_nil in Hx.
Defined.
