(* ===== verification/Picker.v ===== *)
(** * db/version_set.cc: choosing what to compact

    [PickCompaction] and [CompactRange] choose files of one level, and [SetupOtherInputs]
    adds the files of the next level that overlap them.  The choice is shown to be
    complete: no file outside the inputs can hold a version of a key that is older than
    one that the compaction moves below it, provided no user key is split over two files
    of a level.  Together with the merge (Compaction.v) and the builder
    (VersionBuilder.v) this shows that an installed compaction changes no lookup.

    [DoCompactionWork] compacts memtables while it merges.  The merge does not see them;
    they change the current version, to which the edit of the compaction is applied at
    the end.  [flushed] relates this version to the one the inputs were picked from, and
    [flushed_step] shows that a memtable that is written at the level that
    [PickLevelForMemTableOutput] picks keeps the relation.  No user key is split as long
    as no snapshot is older than the merged updates: [DoCompactionWork] then keeps one
    update of each key.  With an older snapshot it may cut its outputs between two
    updates of a key, and what is shown here does not apply to a later compaction of
    that level. *)
From stdpp Require Import gmap.
From Stdlib Require Import Floats.SpecFloat.
From Stdlib Require Import Sorting.Sorted.
From S2P Require Import Prelude.
From S2P Require Import Interfaces.
From S2P Require Import Comparator.
From S2P Require Import Dbformat.
From S2P Require Import Status.
From S2P Require Import Cursor.
From S2P Require Import MemTable.
From S2P Require Import VersionEdit.
From S2P Require Import Updates.
From S2P Require Import Version.
From S2P Require Import VersionBuilder.
From S2P Require Import VersionSet.
From S2P Require Import Compaction.
Import Version VersionBuilder VersionSet Compaction.

(** ** Definitions *)

Module Picker.

Definition kExpandedCompactionByteSizeLimit : Z := 25 * kTargetFileSize.

Definition set_edit (e : VersionEdit.version_edit) (c : compaction) : compaction :=
  mkCompaction (level_ c) (max_output_file_size_ c) (input_version_ c) e (inputs0_ c) (inputs1_ c) (grandparents_ c)
    (grandparent_index_ c) (seen_key_ c) (overlapped_bytes_ c) (level_ptrs_ c).

Section Picker.
Context (user : Comparator).
#[local] Notation icmp := (InternalKeyComparator.Compare user).

(** The smallest and the largest key. *)
Definition extend_range (r : list byte * list byte) (f : FileMetaData) : outcome (list byte * list byte) :=
  a ← CompareKeys user (smallest f) r.1;
  b ← CompareKeys user (largest f) r.2;
  Ok (if a <? 0 then smallest f else r.1, if 0 <? b then largest f else r.2).
Definition GetRange (inputs : list FileMetaData) : outcome (list byte * list byte) :=
  match inputs with
  | [] => Ub AssertionFailed
  | f :: fs => for_loop (λ g r, extend_range r g) fs (smallest f, largest f)
  end.
Definition GetRange2 (inputs1 inputs2 : list FileMetaData) : outcome (list byte * list byte) := GetRange (inputs1 ++ inputs2).

(** More files of the level, if they need no more files of the next level. *)
Record chosen := mkChosen { ch_inputs0 : list FileMetaData; ch_inputs1 : list FileMetaData; ch_largest : list byte; ch_all : list byte * list byte }.
Definition expand (v : version) (level : nat) (c : chosen) : outcome chosen :=
  match ch_inputs1 c with
  | [] => Ok c
  | _ =>
      expanded0 ← GetOverlappingInputs user v level (Some (ch_all c).1) (Some (ch_all c).2);
      if bool_decide (length (ch_inputs0 c) < length expanded0)%nat &&
         (s64 (TotalFileSize (ch_inputs1 c) + TotalFileSize expanded0) <? kExpandedCompactionByteSizeLimit) then
        new_range ← GetRange expanded0;
        expanded1 ← GetOverlappingInputs user v (S level) (Some new_range.1) (Some new_range.2);
        if bool_decide (length expanded1 = length (ch_inputs1 c)) then
          all ← GetRange2 expanded0 expanded1;
          Ok (mkChosen expanded0 expanded1 new_range.2 all)
        else Ok c
      else Ok c
  end.
Definition choose (v : version) (level : nat) (inputs0 : list FileMetaData) : outcome chosen :=
  range ← GetRange inputs0;
  inputs1 ← GetOverlappingInputs user v (S level) (Some range.1) (Some range.2);
  all ← GetRange2 inputs0 inputs1;
  expand v level (mkChosen inputs0 inputs1 range.2 all).

(** The compaction and the new compaction pointers. *)
Definition SetupOtherInputs (v : version) (level : nat) (inputs0 : list FileMetaData) (pointers : list (list byte))
    : outcome (compaction * list (list byte)) :=
  ch ← choose v level inputs0;
  grandparents ← if bool_decide (Z.of_nat level + 2 < kNumLevels)
                 then GetOverlappingInputs user v (S (S level)) (Some (ch_all ch).1) (Some (ch_all ch).2) else Ok [];
  k ← InternalKey.Encode (ch_largest ch);
  _ ← array_at pointers (Z.of_nat level);
  let c := Compaction.new level v (ch_inputs0 ch) (ch_inputs1 ch) grandparents in
  Ok (set_edit (VersionEdit.SetCompactPointer (Z.of_nat level) (ch_largest ch) (edit_ c)) c, <[level := k]> pointers).

(** The first file after the compaction pointer, or else the first one. *)
Fixpoint next_file (pointer : list byte) (files : list FileMetaData) : outcome (option FileMetaData) :=
  match files with
  | [] => Ok None
  | f :: files =>
      match pointer with
      | [] => Ok (Some f)
      | _ => k ← InternalKey.Encode (largest f); if 0 <? icmp k pointer then Ok (Some f) else next_file pointer files
      end
  end.
Definition size_input (v : version) (level : nat) (pointers : list (list byte)) : outcome FileMetaData :=
  pointer ← array_at pointers (Z.of_nat level);
  n ← next_file pointer (level_files v level);
  match (n : option FileMetaData) with
  | Some f => Ok f
  | None => file_at (level_files v level) 0
  end.

(** The level and the first input. *)
Definition pick_first (v : version) (pointers : list (list byte)) : outcome (option (nat * FileMetaData)) :=
  if SFleb (double_of 1) (compaction_score_ v) then
    if negb (0 <=? compaction_level_ v) then Ub AssertionFailed
    else if negb (compaction_level_ v + 1 <? kNumLevels) then Ub AssertionFailed
    else
      let level := Z.to_nat (compaction_level_ v) in
      f ← size_input v level pointers; Ok (Some (level, f))
  else
    match file_to_compact_ v with
    | Some p =>
        match level_files v p.1 !! p.2 with
        | Some f => Ok (Some (Z.to_nat (file_to_compact_level_ v), f))
        | None => Ub UseAfterFree
        end
    | None => Ok None
    end.

Context {W : Type}.

(** The compaction refers to the current version. *)
Definition setup (level : nat) (inputs0 : list FileMetaData) (s : version_set W) : outcome (option compaction * version_set W) :=
  v ← current_ s;
  s ← VersionSet.Ref (pred (length (versions_ s))) s;
  r ← SetupOtherInputs v level inputs0 (compact_pointer_ s);
  Ok (Some r.1, set_pointers r.2 s).
Definition PickCompaction (s : version_set W) : outcome (option compaction * version_set W) :=
  v ← current_ s;
  first ← pick_first v (compact_pointer_ s);
  match (first : option (nat * FileMetaData)) with
  | None => Ok (None, s)
  | Some (level, f) =>
      inputs0 ← match level with
                | O =>
                    range ← GetRange [f];
                    inputs ← GetOverlappingInputs user v 0 (Some range.1) (Some range.2);
                    match (inputs : list FileMetaData) with [] => Ub AssertionFailed | _ => Ok inputs end
                | S _ => Ok [f]
                end;
      setup level inputs0 s
  end.

(** The files up to the one that reaches the limit of a compaction. *)
Fixpoint limit_inputs (limit total : Z) (inputs : list FileMetaData) : list FileMetaData :=
  match inputs with
  | [] => []
  | f :: inputs => let total := u64 (total + file_size f) in f :: (if limit <=? total then [] else limit_inputs limit total inputs)
  end.
Definition CompactRange (level : nat) (begin end_ : option (list byte)) (s : version_set W) : outcome (option compaction * version_set W) :=
  v ← current_ s;
  inputs ← GetOverlappingInputs user v level begin end_;
  match (inputs : list FileMetaData) with
  | [] => Ok (None, s)
  | _ => setup level (if bool_decide (0 < level)%nat then limit_inputs (MaxFileSizeForLevel level) 0 inputs else inputs) s
  end.

(** The assertions of [DoCompactionWork] before its loop, and the oldest snapshot that may
    still be read. *)
Definition start_work (snapshots : list Z) (c : compaction) (s : version_set W) : outcome Z :=
  n ← NumLevelFiles (level_ c) s;
  if 0 <? n then Ok (oldest_needed snapshots (VersionSet.last_sequence_ s)) else Ub AssertionFailed.

Definition MaxNextLevelOverlappingBytes (s : version_set W) : outcome Z :=
  v ← current_ s;
  for_loop (λ level result,
      for_loop (λ f result,
          overlaps ← GetOverlappingInputs user v (S level) (Some (smallest f)) (Some (largest f));
          let sum := TotalFileSize overlaps in Ok (if result <? sum then sum else result))
        (level_files v level) result)
    (seq 1 (Z.to_nat kNumLevels - 2)) 0.

End Picker.
End Picker.

Import Picker.

(** ** Lemmas *)

Section choice.
Context (user : Comparator) `{Huser : !ComparatorLaws any_key user}.
#[local] Notation icmp := (InternalKeyComparator.Compare user).
#[local] Notation ucmp := (Compare user).
#[local] Notation lo f := (ExtractUserKey (smallest f)).
#[local] Notation hi f := (ExtractUserKey (largest f)).

(** *** Ranges *)

Lemma icmp_same a : ikey_ok a → icmp a a = 0.
Proof. intros Ha. pose proof (ikey_cmp_sgn user a a Ha Ha). lia. Qed.

(** [r] is the range of the files [l]. *)
Definition range_of (l : list FileMetaData) (r : list byte * list byte) : Prop :=
  (∃ f, f ∈ l ∧ r.1 = smallest f) ∧ (∃ f, f ∈ l ∧ r.2 = largest f) ∧ ∀ f, f ∈ l → icmp r.1 (smallest f) ≤ 0 ∧ icmp (largest f) r.2 ≤ 0.
Lemma extend_range_spec l r f : ranges_ok user l → range_ok user f → range_of l r → ∃ r', extend_range user r f = Ok r' ∧ range_of (l ++ [f]) r'.
Proof.
  intros Hl (H1 & H2 & H3) ((f1 & Hf1 & E1) & (f2 & Hf2 & E2) & Hr). destruct (Hl f1 Hf1) as (A1 & _ & _), (Hl f2 Hf2) as (_ & A2 & _).
  unfold extend_range. rewrite E1, E2, !CompareKeys_ok by done. cbn [mbind outcome_bind]. eexists. split; [reflexivity|].
  pose proof (ikey_cmp_sgn user (smallest f) (smallest f1) H1 A1). pose proof (ikey_cmp_sgn user (largest f) (largest f2) H2 A2).
  pose proof (icmp_same (smallest f) H1). pose proof (icmp_same (largest f) H2). split; [|split].
  - cbn [fst]. destruct (_ <? 0); [exists f | exists f1]; (split; [apply elem_of_app|done]); [right; by left | by left].
  - cbn [snd]. destruct (0 <? _); [exists f | exists f2]; (split; [apply elem_of_app|done]); [right; by left | by left].
  - cbn [fst snd]. intros g [Hg| ->%list_elem_of_singleton]%elem_of_app.
    + destruct (Hr g Hg) as [K1 K2], (Hl g Hg) as (B1 & B2 & _). rewrite E1 in K1. rewrite E2 in K2. split.
      * destruct (Z.ltb_spec (icmp (smallest f) (smallest f1)) 0); [|done]. apply (icmp_trans user _ (smallest f1)); [done | done | done | lia | done].
      * destruct (Z.ltb_spec 0 (icmp (largest f) (largest f2))); [|done]. apply (icmp_trans user _ (largest f2)); [done | done | done | done | lia].
    + destruct (Z.ltb_spec (icmp (smallest f) (smallest f1)) 0), (Z.ltb_spec 0 (icmp (largest f) (largest f2))); lia.
Qed.
Lemma GetRange_spec l : l ≠ [] → ranges_ok user l → ∃ r, GetRange user l = Ok r ∧ range_of l r.
Proof.
  destruct l as [|f fs]; [done|]. intros _ Hl. cbn [GetRange].
  assert (∀ fs l r, ranges_ok user (l ++ fs) → range_of l r → ∃ r', for_loop (λ g r, extend_range user r g) fs r = Ok r' ∧ range_of (l ++ fs) r') as H.
  { clear -Huser. induction fs as [|g fs IH]; intros l r Hok Hr; cbn [for_loop]; [rewrite app_nil_r; by exists r|]. apply ranges_ok_app in Hok as Hok2. destruct Hok2 as [Hl Hg].
    destruct (extend_range_spec l r g Hl (Hg g ltac:(by left)) Hr) as (r1 & -> & Hr1). cbn [mbind outcome_bind].
    assert (l ++ g :: fs = (l ++ [g]) ++ fs) as E by (by rewrite <- app_assoc). rewrite E in *. by apply IH. }
  destruct (Hl f ltac:(by left)) as (H1 & H2 & _). apply (H fs [f]); [done|]. split; [exists f; split; [by left | done]|]. split; [exists f; split; [by left | done]|].
  intros g ->%list_elem_of_singleton. cbn. rewrite !icmp_same by done. done.
Qed.
Lemma range_of_keys l r : ranges_ok user l → range_of l r → ikey_ok r.1 ∧ ikey_ok r.2 ∧ ∀ f, f ∈ l → ucmp (ExtractUserKey r.1) (lo f) ≤ 0 ∧ ucmp (hi f) (ExtractUserKey r.2) ≤ 0.
Proof.
  intros Hl ((f & Hf & ->) & (g & Hg & ->) & Hr). split; [apply (Hl f Hf)|]. split; [apply (Hl g Hg)|]. intros h Hh. destruct (Hr h Hh). by split; apply icmp_user_le.
Qed.

(** *** Complete inputs *)

(** [f] and [g] hold a common user key, as far as their ranges tell. *)
Definition meet (f1 f2 g : FileMetaData) : Prop := ucmp (lo f1) (hi g) ≤ 0 ∧ ucmp (lo g) (hi f2) ≤ 0.
Record complete (v : version) (level : nat) (inputs0 inputs1 : list FileMetaData) : Prop := mkComplete {
  cc_nonempty : inputs0 ≠ [];
  cc_inputs0 f : f ∈ inputs0 → f ∈ level_files v level;
  cc_inputs1 f : f ∈ inputs1 → f ∈ level_files v (S level);
  cc_hull f1 f2 g : f1 ∈ inputs0 → f2 ∈ inputs0 → g ∈ level_files v (S level) → meet f1 f2 g → g ∈ inputs1;
  cc_tight g : g ∈ inputs1 → ∃ f1 f2, f1 ∈ inputs0 ∧ f2 ∈ inputs0 ∧ meet f1 f2 g;
  cc_level0 f g : level = 0%nat → f ∈ inputs0 → g ∈ level_files v 0 → meet f f g → g ∈ inputs0
}.
Definition closed (v : version) (level : nat) (l : list FileMetaData) : Prop :=
  l ≠ [] ∧ (∀ f, f ∈ l → f ∈ level_files v level) ∧ (level = 0%nat → ∀ f g, f ∈ l → g ∈ level_files v 0 → meet f f g → g ∈ l).

Lemma touches_meet a b f : touches user (Some a) (Some b) f = true ↔ ucmp a (hi f) ≤ 0 ∧ ucmp (lo f) b ≤ 0.
Proof.
  unfold touches. cbn [before_begin after_end]. rewrite andb_true_iff, !negb_true_iff, !Z.ltb_ge. pose proof (ucmp_flip user a (hi f)). split; intros [? ?]; split; lia.
Qed.

Lemma overlapping_files v level r : levels_ok user v → (level < 7)%nat → ∃ l, GetOverlappingInputs user v level (Some r.1) (Some r.2) = Ok l ∧
  (∀ f, f ∈ l → f ∈ level_files v level) ∧ (∀ f, f ∈ level_files v level → ucmp (ExtractUserKey r.1) (hi f) ≤ 0 → ucmp (lo f) (ExtractUserKey r.2) ≤ 0 → f ∈ l) ∧
  ((0 < level)%nat → ∀ f, f ∈ l → ucmp (ExtractUserKey r.1) (hi f) ≤ 0 ∧ ucmp (lo f) (ExtractUserKey r.2) ≤ 0) ∧
  (level = 0%nat → ∀ f g, f ∈ l → g ∈ level_files v 0 → meet f f g → g ∈ l).
Proof.
  intros Hv Hl. destruct (overlapping_inputs user Huser v level Hl (Some r.1) (Some r.2)) as (l & E & H1 & H2 & H3 & H4). cbn [fmap option_fmap option_map] in *.
  exists l. split; [done|]. split; [done|]. split; [|split].
  - intros f Hf A B. apply H2; [done|]. by apply touches_meet.
  - intros Hpos f Hf. by apply touches_meet, H3.
  - intros E0 f g Hf Hg Hm. apply (H4 E0 f g Hf Hg). by apply touches_meet.
Qed.

Lemma closed_complete v level inputs0 r inputs1 : levels_ok user v → (S level < 7)%nat → closed v level inputs0 → range_of inputs0 r →
  GetOverlappingInputs user v (S level) (Some r.1) (Some r.2) = Ok inputs1 → complete v level inputs0 inputs1.
Proof.
  intros Hv Hl (Hne & Hsub & H0) Hr E. destruct (overlapping_files v (S level) r Hv Hl) as (l & E' & H1 & H2 & H3 & _). assert (l = inputs1) as -> by congruence.
  assert (ranges_ok user inputs0) as Hok by (intros f Hf; apply (vl_ranges user v Hv level), Hsub, Hf).
  destruct (range_of_keys inputs0 r Hok Hr) as (_ & _ & Hk). split; [done | done | done | | | intros f g E0; by apply H0].
  - intros f1 f2 g Hf1 Hf2 Hg [M1 M2]. destruct (Hk f1 Hf1) as [K1 _], (Hk f2 Hf2) as [_ K2]. apply H2; [done | by apply (ucmp_trans user _ (lo f1)) | by apply (ucmp_trans user _ (hi f2))].
  - intros g Hg. destruct (H3 ltac:(lia) g Hg) as [M1 M2]. destruct Hr as ((f1 & Hf1 & E1) & (f2 & Hf2 & E2) & _). exists f1, f2. split; [done|]. split; [done|]. unfold meet. rewrite E1 in M1. rewrite E2 in M2. done.
Qed.

(** *** The files that a range reaches *)

(** In level 0, the files that touch the range, and those that overlap a file that is
    reached. *)
Inductive reached (v : version) (b e : option (list byte)) : FileMetaData → Prop :=
| reached_range f : f ∈ level_files v 0 → touches user b e f = true → reached v b e f
| reached_next f g : reached v b e f → g ∈ level_files v 0 → meet f f g → reached v b e g.
(** [l] are the files of a level that a range of user keys asks for, in their order. *)
Definition reach (v : version) (level : nat) (b e : option (list byte)) (l : list FileMetaData) : Prop :=
  match level with
  | O => l `sublist_of` level_files v 0 ∧ ∀ f, f ∈ l ↔ reached v b e f
  | S _ => l = List.filter (touches user b e) (level_files v level)
  end.
Definition reach_range (v : version) (level : nat) (r : list byte * list byte) : list FileMetaData → Prop :=
  reach v level (Some (ExtractUserKey r.1)) (Some (ExtractUserKey r.2)).

Lemma user_range f : range_ok user f → ucmp (lo f) (hi f) ≤ 0.
Proof. intros (_ & _ & H). by apply icmp_user_le. Qed.
Lemma touches_true b e f : touches user b e f = true ↔ before_begin user b (hi f) = false ∧ after_end user e (lo f) = false.
Proof. unfold touches. by rewrite andb_true_iff, !negb_true_iff. Qed.

(** A bound that moves to the bound of a file takes in files that overlap this file. *)
Lemma moved_begin b e f g : range_ok user g → touches user b e f = true → touches user (Some (lo f)) e g = true → touches user b e g = true ∨ meet f f g.
Proof.
  intros Hg [F1 F2]%touches_true [G1 G2]%touches_true. destruct (before_begin user b (hi g)) eqn:E; [right | left; by apply touches_true].
  cbn in G1. apply Z.ltb_ge in G1. pose proof (ucmp_flip user (lo f) (hi g)). split; [lia|].
  destruct (decide (ucmp (hi f) (hi g) ≤ 0)) as [Hle|Hle]; [by rewrite (before_begin_trans user b (hi g) (hi f) E Hle) in F1|].
  apply (ucmp_trans user _ (hi g)); [by apply user_range|]. pose proof (ucmp_flip user (hi f) (hi g)). lia.
Qed.
Lemma moved_end b e f g : range_ok user g → touches user b e f = true → touches user b (Some (hi f)) g = true → touches user b e g = true ∨ meet f f g.
Proof.
  intros Hg [F1 F2]%touches_true [G1 G2]%touches_true. destruct (after_end user e (lo g)) eqn:E; [right | left; by apply touches_true].
  cbn in G2. apply Z.ltb_ge in G2. pose proof (ucmp_flip user (hi f) (lo g)). split; [|lia].
  destruct (decide (ucmp (lo g) (lo f) ≤ 0)) as [Hle|Hle]; [by rewrite (after_end_trans user e (lo g) (lo f) E Hle) in F2|].
  apply (ucmp_trans user _ (lo g)); [pose proof (ucmp_flip user (lo g) (lo f)); lia | by apply user_range].
Qed.

(** The search in level 0 takes nothing but what it must. *)
Lemma overlapping_loop_sub files (X : FileMetaData → Prop) : ranges_ok user files → (∀ f g, X f → g ∈ files → meet f f g → X g) →
  ∀ fuel i b e inputs l, (∀ f, f ∈ files → touches user b e f = true → X f) → (∀ f, f ∈ inputs → X f) →
  overlapping_loop user fuel true files i b e inputs = Ok l → ∀ f, f ∈ l → X f.
Proof.
  intros Hok HX. induction fuel as [|fuel IH]; intros i b e inputs l Ht Hin; cbn [overlapping_loop]; (destruct (files !! i) as [f|] eqn:Ef; [|by intros [= <-]]); [done|].
  assert (f ∈ files) as Hf by (by eapply list_elem_of_lookup_2).
  destruct (before_begin user b (hi f)) eqn:E1; [by apply IH|]. destruct (after_end user e (lo f)) eqn:E2; [by apply IH|].
  assert (touches user b e f = true) as Htf by (by apply touches_true). cbn [andb].
  destruct (before_begin user b (lo f)).
  { apply IH; [|by intros g ?%elem_of_nil]. intros g Hg Hg2. destruct (moved_begin b e f g (Hok g Hg) Htf Hg2) as [H|H]; [by apply Ht|]. apply (HX f); [by apply Ht | done | done]. }
  destruct (after_end user e (hi f)).
  { apply IH; [|by intros g ?%elem_of_nil]. intros g Hg Hg2. destruct (moved_end b e f g (Hok g Hg) Htf Hg2) as [H|H]; [by apply Ht|]. apply (HX f); [by apply Ht | done | done]. }
  apply IH; [done|]. intros g [Hg| ->%list_elem_of_singleton]%elem_of_app; [by apply Hin | by apply Ht].
Qed.

Lemma filter_sublist {A} (p : A → bool) (l : list A) : List.filter p l `sublist_of` l.
Proof. induction l as [|x l IH]; cbn [List.filter]; [constructor|]. destruct (p x); by constructor. Qed.

Lemma GetOverlappingInputs_reach v level b e l : levels_ok user v → (level < 7)%nat → GetOverlappingInputs user v level b e = Ok l →
  reach v level (ExtractUserKey <$> b) (ExtractUserKey <$> e) l.
Proof.
  intros Hv Hl E. destruct (GetOverlappingInputs_spec user v level b e Hl) as (b' & e' & E' & _ & _ & H0 & _). rewrite E in E'.
  destruct level as [|level]; [|destruct (H0 ltac:(lia)) as [-> ->]; by injection E' as ->].
  destruct (overlapping_inputs user Huser v 0 Hl b e) as (l' & E2 & H1 & H2 & _ & H4). rewrite E in E2. injection E2 as <-.
  split; [injection E' as ->; apply filter_sublist|]. intros f. split.
  - revert E. unfold GetOverlappingInputs. cbn [Z.of_nat Z.ltb bool_decide]. rewrite bool_decide_true by (unfold kNumLevels; lia). rewrite bool_decide_true by done. intros E.
    revert f. refine (overlapping_loop_sub (level_files v 0) (reached v (ExtractUserKey <$> b) (ExtractUserKey <$> e)) (vl_ranges user v Hv 0) (reached_next v _ _) _ _ _ _ _ _ _ _ E); [by apply reached_range | by intros g ?%elem_of_nil].
  - induction 1 as [g Hg Ht|f g Hf IH Hg Hm]; [by apply H2|]. apply (H4 eq_refl f g IH Hg). by apply touches_meet.
Qed.

Lemma reach_touches v level b e l : reach v level b e l → l ≠ [] → ∃ f, f ∈ level_files v level ∧ touches user b e f = true.
Proof.
  intros Hr Hne. destruct l as [|f l]; [done|]. destruct level as [|level].
  - destruct Hr as [_ Hr]. assert (reached v b e f) as Hf by (apply Hr; by left). clear -Hf. induction Hf as [f Hf Ht|f g _ IH _ _]; [by exists f | exact IH].
  - cbn in Hr. exists f. assert (f ∈ f :: l) as Hf by (by left). rewrite Hr in Hf. by apply elem_of_list_filter_bool in Hf as [Ht Hf].
Qed.

(** The inputs for a seed: the files of the next level in its range; then more files of
    its level, if they fit and need no more files of the next one. *)
Definition grown (v : version) (level : nat) (seed inputs0 inputs1 : list FileMetaData) : Prop :=
  ∃ r next all, range_of seed r ∧ reach_range v (S level) r next ∧ range_of (seed ++ next) all ∧
    ((inputs0 = seed ∧ inputs1 = next) ∨
     (next ≠ [] ∧ reach_range v level all inputs0 ∧ (length seed < length inputs0)%nat ∧
      s64 (TotalFileSize next + TotalFileSize inputs0) < kExpandedCompactionByteSizeLimit ∧
      ∃ r', range_of inputs0 r' ∧ reach_range v (S level) r' inputs1 ∧ length inputs1 = length next)).

Lemma choose_spec v level inputs0 : levels_ok user v → (S level < 7)%nat → closed v level inputs0 →
  ∃ ch, choose user v level inputs0 = Ok ch ∧ complete v level (ch_inputs0 ch) (ch_inputs1 ch) ∧ (∀ f, f ∈ inputs0 → f ∈ ch_inputs0 ch) ∧
    grown v level inputs0 (ch_inputs0 ch) (ch_inputs1 ch) ∧
    (∃ f, f ∈ ch_inputs0 ch ∧ ch_largest ch = largest f ∧ ∀ g, g ∈ ch_inputs0 ch → icmp (largest g) (largest f) ≤ 0).
Proof.
  intros Hv Hl Hc. pose proof Hc as (Hne & Hsub & H0). assert (ranges_ok user inputs0) as Hok by (intros f Hf; apply (vl_ranges user v Hv level), Hsub, Hf).
  unfold choose. destruct (GetRange_spec inputs0 Hne Hok) as (r & -> & Hr). cbn [mbind outcome_bind].
  destruct (overlapping_files v (S level) r Hv Hl) as (inputs1 & E1 & Hin1 & _). rewrite E1. cbn [mbind outcome_bind].
  assert (ranges_ok user (inputs0 ++ inputs1)) as Hok1 by (apply ranges_ok_app; split; [done | intros f Hf; apply (vl_ranges user v Hv (S level)), Hin1, Hf]).
  destruct (GetRange_spec (inputs0 ++ inputs1) ltac:(by destruct inputs0) Hok1) as (all & Eall & Hall). unfold GetRange2. rewrite Eall. cbn [mbind outcome_bind].
  pose proof (closed_complete v level inputs0 r inputs1 Hv Hl Hc Hr E1) as Hcomp.
  assert (∀ l r, range_of l r → ∃ f, f ∈ l ∧ r.2 = largest f ∧ ∀ g, g ∈ l → icmp (largest g) (largest f) ≤ 0) as Hmax.
  { intros l r0 (_ & (f & Hf & E) & Hrr). exists f. split; [done|]. split; [done|]. intros g Hg. rewrite <- E. by apply Hrr. }
  pose proof (GetOverlappingInputs_reach _ _ _ _ _ Hv Hl E1) as Hreach1.
  set (c := mkChosen inputs0 inputs1 r.2 all). assert (∃ ch, Ok c = Ok ch ∧ complete v level (ch_inputs0 ch) (ch_inputs1 ch) ∧ (∀ f, f ∈ inputs0 → f ∈ ch_inputs0 ch) ∧
    grown v level inputs0 (ch_inputs0 ch) (ch_inputs1 ch) ∧
    (∃ f, f ∈ ch_inputs0 ch ∧ ch_largest ch = largest f ∧ ∀ g, g ∈ ch_inputs0 ch → icmp (largest g) (largest f) ≤ 0)) as Hbase.
  { exists c. split; [done|]. split; [done|]. split; [done|]. split; [|by apply Hmax]. exists r, inputs1, all. split; [done|]. split; [done|]. split; [done|]. by left. }
  unfold expand. cbn [ch_inputs1 ch_inputs0 ch_all c]. destruct inputs1 as [|i1 inputs1']; [exact Hbase|]. set (inputs1 := i1 :: inputs1') in *.
  destruct (overlapping_files v level all Hv ltac:(lia)) as (exp0 & E0 & X1 & X2 & X3 & X4). rewrite E0. cbn [mbind outcome_bind].
  destruct (bool_decide _ && _) eqn:Eb; [|exact Hbase]. apply andb_true_iff in Eb as [Elen%bool_decide_eq_true Esize%Z.ltb_lt].
  assert (closed v level exp0) as Hc0 by (split; [intros ->; cbn in Elen; lia | split; [done|]; intros Elv; subst level; by apply X4]).
  assert (ranges_ok user exp0) as Hok0 by (intros f Hf; apply (vl_ranges user v Hv level), X1, Hf).
  destruct (GetRange_spec exp0 (proj1 Hc0) Hok0) as (r0 & -> & Hr0). cbn [mbind outcome_bind].
  destruct (overlapping_files v (S level) r0 Hv Hl) as (exp1 & E2 & Hin2 & _). rewrite E2. cbn [mbind outcome_bind].
  case_bool_decide as Ecount; [|exact Hbase]. assert (ranges_ok user (exp0 ++ exp1)) as Hok2 by (apply ranges_ok_app; split; [done | intros f Hf; apply (vl_ranges user v Hv (S level)), Hin2, Hf]).
  unfold GetRange2. destruct (GetRange_spec (exp0 ++ exp1) ltac:(destruct exp0; [by destruct Hc0|done]) Hok2) as (all2 & -> & _). cbn [mbind outcome_bind]. eexists. split; [reflexivity|]. cbn [ch_inputs0 ch_inputs1 ch_largest].
  split; [by apply (closed_complete v level exp0 r0)|]. split; [|split; [|by apply Hmax]].
  2: { exists r, inputs1, all. split; [done|]. split; [done|]. split; [done|]. right. split; [done|].
       split; [apply (GetOverlappingInputs_reach v level (Some all.1) (Some all.2) exp0 Hv ltac:(lia) E0)|]. split; [done|]. split; [exact Esize|]. exists r0. split; [done|].
       split; [apply (GetOverlappingInputs_reach _ _ _ _ _ Hv Hl E2) | done]. } destruct (range_of_keys _ _ Hok1 Hall) as (_ & _ & Hk). intros f Hf.
  destruct (Hk f) as [K1 K2]; [apply elem_of_app; by left|]. destruct (Hok f Hf) as (_ & _ & Hle). apply (icmp_user_le user) in Hle.
  apply X2; [by apply Hsub | by apply (ucmp_trans user _ (lo f)) | by apply (ucmp_trans user _ (hi f))].
Qed.

(** *** The compaction of a version set *)

(** A compaction as it comes from the version set: nothing of it has run. *)
Record picked (v : version) (c : compaction) : Prop := mkPicked {
  pk_version : input_version_ c = v;
  pk_level : (S (level_ c) < 7)%nat;
  pk_complete : complete v (level_ c) (inputs0_ c) (inputs1_ c);
  pk_grandparents g : g ∈ grandparents_ c → g ∈ level_files v (S (S (level_ c)));
  pk_fresh : level_ptrs_ c = replicate (Z.to_nat kNumLevels) 0%nat;
  pk_edit : ∃ f, f ∈ inputs0_ c ∧ (∀ g, g ∈ inputs0_ c → icmp (largest g) (largest f) ≤ 0) ∧
    edit_ c = VersionEdit.SetCompactPointer (Z.of_nat (level_ c)) (largest f) VersionEdit.new
}.

Lemma SetupOtherInputs_spec v level inputs0 pointers : levels_ok user v → (S level < 7)%nat → closed v level inputs0 → length pointers = 7%nat →
  ∃ c f, SetupOtherInputs user v level inputs0 pointers = Ok (c, <[level := largest f]> pointers) ∧ picked v c ∧ level_ c = level ∧
    (∀ f, f ∈ inputs0 → f ∈ inputs0_ c) ∧ grown v level inputs0 (inputs0_ c) (inputs1_ c) ∧ f ∈ inputs0_ c ∧ ∀ g, g ∈ inputs0_ c → icmp (largest g) (largest f) ≤ 0.
Proof.
  intros Hv Hl Hc Hp. unfold SetupOtherInputs. destruct (choose_spec v level inputs0 Hv Hl Hc) as (ch & -> & Hcomp & Hsub & Hgrown & f & Hf & Elargest & Hmax). cbn [mbind outcome_bind].
  assert (∃ gps, (if bool_decide (Z.of_nat level + 2 < kNumLevels) then GetOverlappingInputs user v (S (S level)) (Some (ch_all ch).1) (Some (ch_all ch).2) else Ok []) = Ok gps ∧
    ∀ g, g ∈ gps → g ∈ level_files v (S (S level))) as (gps & -> & Hgps).
  { case_bool_decide as Hlt; [|exists []; split; [done|]; by intros g ?%elem_of_nil]. unfold kNumLevels in Hlt.
    destruct (overlapping_files v (S (S level)) (ch_all ch) Hv ltac:(lia)) as (gps & -> & H & _). by exists gps. }
  cbn [mbind outcome_bind]. destruct (vl_ranges user v Hv level f (cc_inputs0 _ _ _ _ Hcomp f Hf)) as (_ & Hkey & _). rewrite Elargest, Encode_ok by done. cbn [mbind outcome_bind].
  destruct (array_at_ex pointers level) as (old & _ & ->); [lia|]. cbn [mbind outcome_bind]. eexists _, f. split; [reflexivity|]. split; [|done].
  split; try done. by exists f.
Qed.

(** *** The first input *)

Definition finalized (v : version) : Prop := compaction_score_ v = compaction_score_ (VersionSet.Finalize v) ∧ compaction_level_ v = compaction_level_ (VersionSet.Finalize v).
Definition seek_ok (v : version) : Prop := ∀ p, file_to_compact_ v = Some p → file_to_compact_level_ v = Z.of_nat p.1 ∧ (S p.1 < 7)%nat ∧ is_Some (level_files v p.1 !! p.2).

Lemma empty_score v level : (level < 6)%nat → level_files v level = [] → SFleb (double_of 1) (level_score v level) = false.
Proof. intros Hl E. do 6 (destruct level as [|level]; [unfold level_score; rewrite E; vm_compute; reflexivity|]). lia. Qed.
Lemma best_level v : ∀ levels best, (∀ level, level ∈ levels → (level < 6)%nat) →
  SFleb (double_of 1) best.2 = false ∨ (∃ level, (level < 6)%nat ∧ best = (Z.of_nat level, level_score v level)) →
  let b := foldl (better v) best levels in SFleb (double_of 1) b.2 = false ∨ (∃ level, (level < 6)%nat ∧ b = (Z.of_nat level, level_score v level)).
Proof.
  induction levels as [|level levels IH]; intros best Hl Hb; [done|]. cbn [foldl]. apply IH; [intros l Hin; apply Hl; by right|]. unfold better.
  destruct (SFltb _ _); [right; exists level; split; [apply Hl; by left | done] | done].
Qed.
Lemma size_level v : finalized v → SFleb (double_of 1) (compaction_score_ v) = true →
  ∃ level, (level < 6)%nat ∧ compaction_level_ v = Z.of_nat level ∧ level_files v level ≠ [].
Proof.
  intros [E1 E2] Hs. rewrite E1 in Hs. unfold VersionSet.Finalize in *. change (Z.to_nat kNumLevels - 1)%nat with 6%nat in *. cbn [compaction_score_ compaction_level_] in *.
  destruct (best_level v (seq 0 6) (-1, double_of (-1))) as [H|(level & Hl & H)]; [intros level Hin%elem_of_seq; lia | left; vm_compute; reflexivity | congruence|].
  exists level. split; [done|]. rewrite E2, H. split; [done|]. intros E. rewrite H in Hs. cbn [snd] in Hs. by rewrite empty_score in Hs.
Qed.

(** The first file after the compaction pointer, or the first one if there is none. *)
Definition after_pointer (pointer : list byte) (f : FileMetaData) : Prop := pointer = [] ∨ 0 < icmp (largest f) pointer.
Definition round_robin (pointer : list byte) (files : list FileMetaData) (f : FileMetaData) : Prop :=
  (∃ pre post, files = pre ++ f :: post ∧ (∀ g, g ∈ pre → ¬ after_pointer pointer g) ∧ after_pointer pointer f) ∨
  ((∀ g, g ∈ files → ¬ after_pointer pointer g) ∧ head files = Some f).
(** The level and the file that call for a compaction. *)
Definition first_of (v : version) (pointers : list (list byte)) (level : nat) (f : FileMetaData) : Prop :=
  if SFleb (double_of 1) (compaction_score_ v)
  then compaction_level_ v = Z.of_nat level ∧ ∃ pointer, pointers !! level = Some pointer ∧ round_robin pointer (level_files v level) f
  else ∃ p, file_to_compact_ v = Some p ∧ level = p.1 ∧ level_files v p.1 !! p.2 = Some f.

Lemma next_file_spec pointer files : ranges_ok user files → ∃ r, next_file user pointer files = Ok r ∧
  match r with
  | Some f => ∃ pre post, files = pre ++ f :: post ∧ (∀ g, g ∈ pre → ¬ after_pointer pointer g) ∧ after_pointer pointer f
  | None => ∀ g, g ∈ files → ¬ after_pointer pointer g
  end.
Proof.
  assert (∀ f files, after_pointer pointer f → ∃ pre post, f :: files = pre ++ f :: post ∧ (∀ g, g ∈ pre → ¬ after_pointer pointer g) ∧ after_pointer pointer f) as Hhere
    by (intros f l Hf; exists [], l; split; [done|]; split; [by intros g ?%elem_of_nil | done]).
  induction files as [|f files IH]; intros Hok; cbn [next_file]; [exists None; split; [done|]; by intros g ?%elem_of_nil|].
  destruct pointer as [|b pointer]; [exists (Some f); split; [done|]; apply Hhere; by left|].
  destruct (Hok f ltac:(by left)) as (_ & Hk & _). rewrite Encode_ok by done. cbn [mbind outcome_bind].
  destruct (Z.ltb_spec 0 (icmp (largest f) (b :: pointer))) as [Hlt|Hge]; [exists (Some f); split; [done|]; apply Hhere; by right|].
  assert (¬ after_pointer (b :: pointer) f) as Hn by (intros [?|?]; [done | lia]).
  destruct IH as (r & -> & Hr); [intros g Hg; apply Hok; by right|]. exists r. split; [done|]. destruct r as [h|].
  - destruct Hr as (pre & post & -> & Hpre & Hh). exists (f :: pre), post. split; [done|]. split; [|done]. intros g [->|Hg]%elem_of_cons; [done | by apply Hpre].
  - intros g [->|Hg]%elem_of_cons; [done | by apply Hr].
Qed.
Lemma size_input_spec v level pointers : levels_ok user v → length pointers = 7%nat → (level < 7)%nat → level_files v level ≠ [] →
  ∃ f pointer, size_input user v level pointers = Ok f ∧ f ∈ level_files v level ∧ pointers !! level = Some pointer ∧ round_robin pointer (level_files v level) f.
Proof.
  intros Hv Hp Hl Hne. unfold size_input. destruct (array_at_ex pointers level) as (pointer & Hpo & ->); [lia|]. cbn [mbind outcome_bind].
  destruct (next_file_spec pointer (level_files v level) (vl_ranges user v Hv level)) as ([f|] & -> & Hr); cbn [mbind outcome_bind].
  - exists f, pointer. split; [done|]. split; [destruct Hr as (pre & post & -> & _); apply elem_of_app; right; by left|]. split; [done|]. by left.
  - destruct (level_files v level) as [|f l]; [done|]. exists f, pointer. split; [done|]. split; [by left|]. split; [done|]. by right.
Qed.
Lemma pick_first_spec v pointers : levels_ok user v → finalized v → seek_ok v → length pointers = 7%nat →
  ∃ r, pick_first user v pointers = Ok r ∧
    match r with
    | Some (level, f) => (S level < 7)%nat ∧ f ∈ level_files v level ∧ first_of v pointers level f ∧ SFleb (double_of 1) (compaction_score_ v) || bool_decide (is_Some (file_to_compact_ v)) = true
    | None => SFleb (double_of 1) (compaction_score_ v) || bool_decide (is_Some (file_to_compact_ v)) = false
    end.
Proof.
  intros Hv Hf Hs Hp. unfold pick_first, first_of. destruct (SFleb (double_of 1) (compaction_score_ v)) eqn:Es.
  - destruct (size_level v Hf Es) as (level & Hl & -> & Hne). destruct (Z.leb_spec 0 (Z.of_nat level)); [|lia]. unfold kNumLevels. destruct (Z.ltb_spec (Z.of_nat level + 1) 7); [|lia]. cbn [negb].
    rewrite Nat2Z.id. destruct (size_input_spec v level pointers Hv Hp ltac:(lia) Hne) as (f & pointer & -> & Hin & Hpo & Hrr). cbn [mbind outcome_bind]. eexists. split; [reflexivity|]. split; [lia|]. split; [done|]. split; [|done]. split; [done|]. by exists pointer.
  - destruct (file_to_compact_ v) as [p|] eqn:Ep; [|by exists None]. destruct (Hs p Ep) as (El & Hl & [f Hf']). rewrite Hf', El, Nat2Z.id.
    eexists. split; [reflexivity|]. split; [done|]. split; [by eapply list_elem_of_lookup_2|]. split; [|done]. by exists p.
Qed.

(** What a pick does to the version set: the current version has one reference more, and
    the pointer of the level is the largest key of the inputs. *)
Definition refer {W} (s : version_set W) (v : version) : list node :=
  alter (λ n, mkNode (refs_ n + 1) v) (pred (length (versions_ s))) (versions_ s).
Definition picks {W} (v : version) (s s' : version_set W) (c : compaction) : Prop :=
  picked v c ∧ ∃ f, f ∈ inputs0_ c ∧ s' = set_pointers (<[level_ c := largest f]> (compact_pointer_ s)) (set_versions (refer s v) s).

Lemma setup_spec {W} level inputs0 (s : version_set W) v : current_ s = Ok v → levels_ok user v → (S level < 7)%nat → closed v level inputs0 → length (compact_pointer_ s) = 7%nat →
  ∃ c s', setup user level inputs0 s = Ok (Some c, s') ∧ picks v s s' c ∧ level_ c = level ∧ (∀ f, f ∈ inputs0 → f ∈ inputs0_ c) ∧ grown v level inputs0 (inputs0_ c) (inputs1_ c).
Proof.
  intros Hcur Hv Hl Hc Hp. unfold setup. rewrite Hcur. cbn [mbind outcome_bind]. unfold current_ in Hcur. destruct (last (versions_ s)) as [n|] eqn:El; [|done]. injection Hcur as <-.
  rewrite last_lookup in El. unfold VersionSet.Ref. rewrite El. cbn [mbind outcome_bind].
  destruct (SetupOtherInputs_spec (node_version n) level inputs0 (compact_pointer_ s) Hv Hl Hc Hp) as (c & f & E & Hpk & Elevel & Hsub & Hgrown & Hf & Hmax).
  change (compact_pointer_ (set_versions _ s)) with (compact_pointer_ s). rewrite E. cbn [mbind outcome_bind fst snd]. exists c. eexists. split; [reflexivity|]. split; [|done]. split; [done|].
  exists f. split; [done|]. rewrite Elevel. unfold refer. f_equal. f_equal. apply list_eq. intros i. destruct (decide (i = pred (length (versions_ s)))) as [->|Hne].
  - rewrite list_lookup_insert_eq by (by eapply lookup_lt_Some). by rewrite list_lookup_alter_eq, El.
  - by rewrite list_lookup_insert_ne, list_lookup_alter_ne.
Qed.

Lemma closed_one v level f : (0 < level)%nat → f ∈ level_files v level → closed v level [f].
Proof. intros Hl Hf. split; [done|]. split; [by intros g ->%list_elem_of_singleton | lia]. Qed.
(** The sum of the file sizes as the loop computes it. *)
Definition total_size (total : Z) (l : list FileMetaData) : Z := foldl (λ t f, u64 (t + file_size f)) total l.
(** [l] are the first files of [files], up to the one with which they reach [limit]. *)
Definition cut_at (limit total : Z) (files l : list FileMetaData) : Prop :=
  ∃ rest, files = l ++ rest ∧ (rest = [] ∨ limit ≤ total_size total l) ∧ ∀ n, (0 < n < length l)%nat → total_size total (take n l) < limit.
Lemma limit_inputs_cut limit files : ∀ total, cut_at limit total files (limit_inputs limit total files).
Proof.
  induction files as [|f files IH]; intros total; cbn [limit_inputs]; [exists []; split; [done|]; split; [by left|]; cbn; lia|].
  destruct (Z.leb_spec limit (u64 (total + file_size f))) as [Hle|Hlt].
  - exists files. split; [done|]. split; [by right|]. cbn. lia.
  - destruct (IH (u64 (total + file_size f))) as (rest & E & Hr & Hn). exists rest. split; [cbn; by rewrite <- E|]. split; [exact Hr|].
    intros [|n] Hlen; [lia|]. cbn [take total_size foldl]. cbn [length] in Hlen. destruct n as [|n]; [exact Hlt|]. apply Hn. lia.
Qed.
Lemma limit_inputs_sub limit inputs : ∀ total f, f ∈ limit_inputs limit total inputs → f ∈ inputs.
Proof.
  induction inputs as [|g inputs IH]; intros total f; cbn [limit_inputs]; [done|]. intros [->|Hf]%elem_of_cons; [by left|]. right. destruct (_ <=? _); [by apply elem_of_nil in Hf | by eapply IH].
Qed.
End choice.

#[export] Instance FileMetaData_eq_dec : EqDecision FileMetaData.
Proof. solve_decision. Defined.

(** *** The files around the inputs *)

Section around.
Context (user : Comparator) `{Huser : !ComparatorLaws any_key user}.
#[local] Notation icmp := (InternalKeyComparator.Compare user).
#[local] Notation ucmp := (Compare user).
#[local] Notation lo f := (ExtractUserKey (smallest f)).
#[local] Notation hi f := (ExtractUserKey (largest f)).

Lemma ucmp_le_lt a b c : ucmp a b ≤ 0 → ucmp b c < 0 → ucmp a c < 0.
Proof. by apply (compare_le_lt any_key user). Qed.
Lemma ucmp_lt_le a b c : ucmp a b < 0 → ucmp b c ≤ 0 → ucmp a c < 0.
Proof. by apply (compare_lt_le any_key user). Qed.
Lemma ucmp_not_le a b : ¬ ucmp a b ≤ 0 → ucmp b a < 0.
Proof. intros H. pose proof (ucmp_flip user a b). lia. Qed.

Definition before (f g : FileMetaData) : Prop := icmp (largest f) (smallest g) < 0.
Definition ubefore (f g : FileMetaData) : Prop := ucmp (hi f) (lo g) < 0.
(** No user key is in the ranges of both. *)
Definition apart (f g : FileMetaData) : Prop := ubefore f g ∨ ubefore g f.
(** No user key is split over two files of the level. *)
Definition unsplit (files : list FileMetaData) : Prop := ∀ i j f g, (i < j)%nat → files !! i = Some f → files !! j = Some g → ubefore f g.

Lemma ubefore_before f g : ubefore f g → before f g.
Proof. apply (icmp_user_lt user). Qed.
Lemma range_user f : range_ok user f → ucmp (lo f) (hi f) ≤ 0.
Proof. intros (_ & _ & H). by apply icmp_user_le. Qed.
Lemma not_meet f1 f2 g : ¬ meet user f1 f2 g → ubefore g f1 ∨ ubefore f2 g.
Proof.
  unfold meet, ubefore. intros H. destruct (decide (ucmp (lo f1) (hi g) ≤ 0)) as [H1|H1]; [|left; by apply ucmp_not_le].
  right. apply ucmp_not_le. tauto.
Qed.
Lemma two_files (files : list FileMetaData) (f g : FileMetaData) : f ∈ files → g ∈ files → f ≠ g → ∃ i j, files !! i = Some f ∧ files !! j = Some g ∧ ((i < j) ∨ (j < i))%nat.
Proof.
  intros [i Hi]%list_elem_of_lookup [j Hj]%list_elem_of_lookup Hne. exists i, j. split; [done|]. split; [done|]. assert (i ≠ j) by (intros ->; congruence). lia.
Qed.

Context (v : version) (level : nat) (in0 in1 : list FileMetaData) (Hc : complete user v level in0 in1)
  (Hsorted : ∀ l, (0 < l)%nat → level_sorted user (level_files v l)) (Hranges : ∀ l, ranges_ok user (level_files v l)).

(** A file of the next level that is no input is on one side of all inputs. *)
Lemma hull_sides g : g ∈ level_files v (S level) → g ∉ in1 → (∀ f, f ∈ in0 → ubefore g f) ∨ (∀ f, f ∈ in0 → ubefore f g).
Proof.
  intros Hg Hn. assert (ranges_ok user in0) as Hok by (intros f Hf; apply (Hranges level), (cc_inputs0 _ _ _ _ _ Hc), Hf).
  destruct (GetRange_spec user in0 (cc_nonempty _ _ _ _ _ Hc) Hok) as (r & _ & (f1 & Hf1 & E1) & (f2 & Hf2 & E2) & Hr).
  assert (¬ meet user f1 f2 g) as Hm by (intros Hm; apply Hn; by apply (cc_hull _ _ _ _ _ Hc f1 f2)).
  apply not_meet in Hm as [Hm|Hm]; [left | right]; intros f Hf; destruct (Hr f Hf) as [K1 K2]; rewrite ?E1, ?E2 in *; apply (icmp_user_le user) in K1, K2; unfold ubefore in *.
  - by apply (ucmp_lt_le _ (lo f1)).
  - by apply (ucmp_le_lt _ (hi f2)).
Qed.
Lemma next_sides g : g ∈ level_files v (S level) → g ∉ in1 → (∀ f, f ∈ in0 ++ in1 → before g f) ∨ (∀ f, f ∈ in0 ++ in1 → before f g).
Proof.
  intros Hg Hn. assert (∀ f, f ∈ in1 → before f g ∨ before g f) as Hord.
  { intros f Hf. destruct (two_files (level_files v (S level)) f g) as (i & j & Hi & Hj & [Hlt|Hlt]); [by apply (cc_inputs1 _ _ _ _ _ Hc) | done | by intros -> | |].
    - left. by apply (lo_sorted _ _ (Hsorted (S level) ltac:(lia)) i j).
    - right. by apply (lo_sorted _ _ (Hsorted (S level) ltac:(lia)) j i). }
  pose proof (range_user g (Hranges _ g Hg)) as Hgr.
  assert (∀ f, f ∈ in1 → before f g → ucmp (hi f) (lo g) ≤ 0) as Hle by (intros f _ Hb; apply icmp_user_le; unfold before in Hb; lia).
  assert (∀ f, before g f → ucmp (hi g) (lo f) ≤ 0) as Hle' by (intros f Hb; apply icmp_user_le; unfold before in Hb; lia).
  destruct (hull_sides g Hg Hn) as [Hs|Hs]; [left | right]; intros f [Hf|Hf]%elem_of_app; try (by apply ubefore_before, Hs);
    destruct (cc_tight _ _ _ _ _ Hc f Hf) as (f1 & f2 & Hf1 & Hf2 & M1 & M2); destruct (Hord f Hf) as [Hb|Hb]; try done; exfalso.
  - pose proof (Hle f Hf Hb) as H1. pose proof (Hs f1 Hf1) as H2. unfold ubefore in H2.
    pose proof (ucmp_lt_le _ _ _ H2 M1) as H3. pose proof (ucmp_trans user _ _ _ H1 Hgr) as H4. pose proof (ucmp_flip user (hi f) (hi g)). lia.
  - pose proof (Hle' f Hb) as H1. pose proof (Hs f2 Hf2) as H2. unfold ubefore in H2. pose proof (ucmp_le_lt _ _ _ M2 H2) as H3.
    pose proof (ucmp_trans user _ _ _ Hgr H1) as H4. pose proof (ucmp_flip user (lo f) (lo g)). lia.
Qed.
Lemma next_apart g f : unsplit (level_files v (S level)) → g ∈ level_files v (S level) → g ∉ in1 → f ∈ in0 ++ in1 → apart f g.
Proof.
  intros Hu Hg Hn [Hf|Hf]%elem_of_app.
  - destruct (hull_sides g Hg Hn) as [Hs|Hs]; [right | left]; by apply Hs.
  - destruct (two_files (level_files v (S level)) f g) as (i & j & Hi & Hj & [Hlt|Hlt]); [by apply (cc_inputs1 _ _ _ _ _ Hc) | done | by intros -> | |];
      [left; by apply (Hu i j) | right; by apply (Hu j i)].
Qed.
Lemma same_apart g f : ((0 < level)%nat → unsplit (level_files v level)) → g ∈ level_files v level → g ∉ in0 → f ∈ in0 → apart f g.
Proof.
  intros Hu Hg Hn Hf. destruct (decide (level = 0%nat)) as [E|E].
  - assert (¬ meet user f f g) as Hm. { intros Hm. apply Hn. rewrite E in Hg. by apply (cc_level0 _ _ _ _ _ Hc f). } apply not_meet in Hm. by destruct Hm; [right | left].
  - destruct (two_files (level_files v level) f g) as (i & j & Hi & Hj & [Hlt|Hlt]); [by apply (cc_inputs0 _ _ _ _ _ Hc) | done | by intros -> | |];
      [left; by apply (Hu ltac:(lia) i j) | right; by apply (Hu ltac:(lia) j i)].
Qed.
End around.

(** *** Inputs without a gap *)

Section gapless.
Context (user : Comparator) `{Huser : !ComparatorLaws any_key user}.
#[local] Notation ucmp := (Compare user).
#[local] Notation lo f := (ExtractUserKey (smallest f)).
#[local] Notation hi f := (ExtractUserKey (largest f)).

(** [f] is after [g], or before it. *)
Definition side (after : bool) (g f : FileMetaData) : Prop := if after then ubefore user g f else ubefore user f g.
(** A file that has no user key in common with one of the files lies on one side of all of
    them. *)
Definition gapless (l : list FileMetaData) : Prop :=
  ∀ g, range_ok user g → (∀ f, f ∈ l → apart user f g) → ∃ after, ∀ f, f ∈ l → side after g f.

Lemma apart_side f g : apart user f g → ∃ after, side after g f.
Proof. intros [H|H]; [by exists false | by exists true]. Qed.
Lemma touch_side after g f1 f2 h : range_ok user g → side after g f1 → side after g f2 → meet user f1 f2 h → apart user h g → side after g h.
Proof.
  intros Hg%(user_range user) H1 H2 [M1 M2] [Ha|Ha]; destruct after; cbn [side] in *; try done; exfalso; unfold ubefore in *.
  - pose proof (ucmp_lt_le user _ _ _ (ucmp_lt_le user _ _ _ Ha Hg) (Z.lt_le_incl _ _ H1)). pose proof (ucmp_flip user (lo f1) (hi h)). lia.
  - pose proof (ucmp_le_lt user _ _ _ M2 H2) as H. pose proof (ucmp_lt_le user _ _ _ H Hg). pose proof (ucmp_flip user (hi g) (lo h)). lia.
Qed.
Lemma range_side after g l r h : range_ok user g → range_of user l r → touches user (Some (ExtractUserKey r.1)) (Some (ExtractUserKey r.2)) h = true → apart user h g →
  (∀ f, f ∈ l → side after g f) → side after g h.
Proof.
  intros Hg ((f1 & Hf1 & E1) & (f2 & Hf2 & E2) & _) Ht%(touches_meet user) Ha Hs. rewrite E1, E2 in Ht. by apply (touch_side after g f1 f2); [| apply Hs..| |].
Qed.
Lemma reach_side after v level g l r fs : range_ok user g → range_of user l r → reach_range user v level r fs → (∀ h, h ∈ fs → apart user h g) →
  (∀ f, f ∈ l → side after g f) → ∀ h, h ∈ fs → side after g h.
Proof.
  intros Hg Hr Hfs Ha Hs. destruct level as [|level].
  - destruct Hfs as [_ Hfs]. intros h Hh. apply Hfs in Hh as Hre. clear Hh. induction Hre as [h Hh Ht|f h Hf IH Hh Hm].
    + apply (range_side after g l r h Hg Hr Ht); [apply Ha, Hfs; by constructor | done].
    + apply (touch_side after g f f h Hg IH IH Hm). apply Ha, Hfs. by apply (reached_next user v _ _ f).
  - intros h Hh. apply (range_side after g l r h Hg Hr); [|by apply Ha | done]. cbn in Hfs. rewrite Hfs in Hh. by apply elem_of_list_filter_bool in Hh as [? _].
Qed.
Lemma touches_wider a b a' b' h : ucmp a' a ≤ 0 → ucmp b b' ≤ 0 → touches user (Some a) (Some b) h = true → touches user (Some a') (Some b') h = true.
Proof. intros Ha Hb [H1 H2]%(touches_meet user). apply (touches_meet user). split; [by apply (ucmp_trans user _ a) | by apply (ucmp_trans user _ b)]. Qed.
Lemma grown_gapless v level seed in0 in1 : levels_ok user v → (∀ f, f ∈ seed → f ∈ in0) → (∀ f, f ∈ in0 → f ∈ level_files v level) → grown user v level seed in0 in1 →
  gapless seed → gapless (in0 ++ in1).
Proof.
  intros Hv Hsub H0 (r & next & all & Hr & Hnext & Hall & Hcase) Hseed g Hg Ha. assert (∀ f, f ∈ in0 → apart user f g) as Ha0 by (intros f Hf; apply Ha, elem_of_app; by left).
  assert (∀ f, f ∈ in1 → apart user f g) as Ha1 by (intros f Hf; apply Ha, elem_of_app; by right).
  destruct (Hseed g Hg) as [after Hs]; [intros f Hf; by apply Ha0, Hsub|]. exists after. destruct Hcase as [[-> ->]|(_ & Hr0 & _ & _ & r' & Hr' & Hr1 & _)].
  - intros f [Hf|Hf]%elem_of_app; [by apply Hs|]. by apply (reach_side after v (S level) g seed r next).
  - assert (∀ h, h ∈ next → h ∈ in1) as Hin.
    { cbn in Hnext, Hr1. rewrite Hnext, Hr1. intros h [Ht Hh]%elem_of_list_filter_bool. apply elem_of_list_filter_bool. split; [|done].
      assert (ranges_ok user in0) as Hok by (intros f Hf; apply (vl_ranges user v Hv level), H0, Hf). destruct (range_of_keys user in0 r' Hok Hr') as (_ & _ & Hk).
      destruct Hr as ((f1 & Hf1 & E1) & (f2 & Hf2 & E2) & _). rewrite E1, E2 in Ht. revert Ht. apply touches_wider; by apply Hk, Hsub. }
    assert (∀ f, f ∈ seed ++ next → side after g f) as Hs1.
    { intros f [Hf|Hf]%elem_of_app; [by apply Hs|]. apply (reach_side after v (S level) g seed r next); auto. }
    pose proof (reach_side after v level g (seed ++ next) all in0 Hg Hall Hr0 Ha0 Hs1) as Hs0.
    intros f [Hf|Hf]%elem_of_app; [by apply Hs0|]. by apply (reach_side after v (S level) g in0 r' in1).
Qed.
Lemma gapless_one f : gapless [f].
Proof. intros g _ Ha. destruct (apart_side f g) as [after H]; [apply Ha; by left|]. exists after. by intros h ->%list_elem_of_singleton. Qed.
Lemma gapless_reach v f seed : levels_ok user v → f ∈ level_files v 0 → reach_range user v 0 (smallest f, largest f) seed → gapless seed.
Proof.
  intros Hv Hf Hr g Hg Ha. pose proof (vl_ranges user v Hv 0 f Hf) as Hrf. pose proof Hrf as (K1 & K2 & _). apply (user_range user) in Hrf.
  assert (f ∈ seed) as Hin by (apply Hr; constructor; [done|]; by apply (touches_meet user)).
  destruct (apart_side f g (Ha f Hin)) as [after Hs]. exists after. apply (reach_side after v 0 g [f] (smallest f, largest f)); [done | | done | done|].
  - split; [exists f; split; [by left | done]|]. split; [exists f; split; [by left | done]|]. intros h ->%list_elem_of_singleton. cbn. by rewrite !(icmp_same user).
  - by intros h ->%list_elem_of_singleton.
Qed.
End gapless.

(** *** The output files *)

Lemma StronglySorted_sublist {A} (Rel : A → A → Prop) l k : l `sublist_of` k → StronglySorted Rel k → StronglySorted Rel l.
Proof.
  induction 1 as [|x l k Hs IH|x l k Hs IH]; intros Hk; [done| |]; apply StronglySorted_inv in Hk as [Hk Hx]; [|by apply IH]. constructor; [by apply IH|].
  rewrite Forall_forall in *. intros y Hy. apply Hx. by eapply elem_of_sublist.
Qed.

Section output.
Context (user : Comparator) `{Huser : !ComparatorLaws any_key user}.
#[local] Notation icmp := (InternalKeyComparator.Compare user).
#[local] Notation ucmp := (Compare user).

Lemma row_inj us ws : (∀ u, u ∈ us → seq_ok (u_seq u)) → (∀ w, w ∈ ws → seq_ok (u_seq w)) → map row us = map row ws → us = ws.
Proof.
  revert ws. induction us as [|u us IH]; intros [|w ws] Hu Hw; try done. cbn [map]. intros [= E1 E2 E3].
  assert (u = w) as ->.
  { assert (ParseInternalKey (upd_ikey u) = ParseInternalKey (upd_ikey w)) as E by (by rewrite E1). unfold upd_ikey in E. rewrite !parse_ikey in E by first [by apply Hu; left | by apply Hw; left].
    injection E as F1 F2 F3. destruct u, w. cbn in *. congruence. }
  f_equal. apply IH; [intros x Hx; apply Hu; by right | intros x Hx; apply Hw; by right | done].
Qed.

(** The entries of the tables, cut into the tables. *)
Lemma table_parts (ts : list (Z * list entry)) : ∀ kept, concat (map snd ts) = map row kept → ∃ parts, concat parts = kept ∧ Forall2 (λ t p, t.2 = map row p) ts parts.
Proof.
  induction ts as [|t ts IH]; intros kept E; cbn [map concat] in E; [exists []; split; [by destruct kept | constructor]|].
  symmetry in E. apply map_eq_app in E as (p & k & -> & E1 & E2). destruct (IH k (eq_sym E2)) as (parts & <- & H). exists (p :: parts). split; [done|]. by constructor.
Qed.

Definition follows (u w : upd) : Prop := icmp (upd_ikey u) (upd_ikey w) < 0.
Lemma run_sorted us : run_ok user us ↔ StronglySorted follows us ∧ ∀ u, u ∈ us → seq_ok (u_seq u).
Proof.
  split; intros [H1 H2]; (split; [|done]).
  - assert (run_ok user us) as Hr by done. clear H1 H2. induction us as [|u us IH]; [constructor|]. apply (run_ok_cons user) in Hr as (Hr & _ & Hlt). constructor; [by apply IH | by apply Forall_forall].
  - intros i j x y Hij. rewrite !list_lookup_fmap. intros Hx Hy. destruct (us !! i) as [u|] eqn:Hu; [|done]. destruct (us !! j) as [w|] eqn:Hw; [|done]. cbn in Hx, Hy.
    injection Hx as <-. injection Hy as <-. cbn [fst row]. clear H2. revert i j Hij Hu Hw. induction H1 as [|a us Hs IH Ha]; intros i j Hij Hu Hw; [done|].
    destruct j as [|j]; [lia|]. destruct i as [|i]; [|apply (IH i j); [lia | done | done]]. cbn in Hu, Hw. injection Hu as ->. rewrite Forall_forall in Ha. apply Ha. by eapply list_elem_of_lookup_2.
Qed.
Lemma run_sublist us ws : ws `sublist_of` us → run_ok user us → run_ok user ws.
Proof. intros Hs [H1 H2]%run_sorted. apply run_sorted. split; [by eapply StronglySorted_sublist|]. intros u Hu. apply H2. by eapply elem_of_sublist. Qed.

(** An output file, as the builder of the version keeps it. *)
Definition out_file (o : Output) : FileMetaData := build (new_file (out_number o) (out_file_size o) (out_smallest o) (out_largest o)).
Record output_of (o : Output) (part : list upd) : Prop := mkOutputOf {
  oo_run : run_ok user part;
  oo_first : ∃ u, u ∈ part ∧ out_smallest o = upd_ikey u ∧ ∀ w, w ∈ part → icmp (upd_ikey u) (upd_ikey w) ≤ 0;
  oo_last : ∃ u, u ∈ part ∧ out_largest o = upd_ikey u ∧ ∀ w, w ∈ part → icmp (upd_ikey w) (upd_ikey u) ≤ 0
}.
Lemma icmp_upd_same u : icmp (upd_ikey u) (upd_ikey u) = 0.
Proof. apply (icmp_same user), ikey_ok_ikey. Qed.
Lemma describes_part o t part : describes o t → t.2 = map row part → run_ok user part → output_of o part.
Proof.
  intros (_ & Hh & Hl) E Hr. rewrite E in Hh, Hl. apply run_sorted in Hr as Hs. destruct Hs as [Hs _]. split; [done| |].
  - destruct part as [|u part]; [done|]. cbn in Hh. injection Hh as Hh. exists u. split; [by left|]. split; [done|]. apply StronglySorted_inv in Hs as [_ Hu]. rewrite Forall_forall in Hu.
    intros w [->|Hw]%elem_of_cons; [by rewrite icmp_upd_same | by apply Z.lt_le_incl, Hu].
  - destruct part as [|u part _] using rev_ind; [done|]. rewrite !map_app in Hl. cbn [map fst row] in Hl. rewrite last_snoc in Hl. injection Hl as Hl. exists u. split; [apply elem_of_app; right; by left|]. split; [done|].
    intros w [Hw| ->%list_elem_of_singleton]%elem_of_app; [|by rewrite icmp_upd_same]. clear -Hs Hw. induction part as [|x part IH]; [by apply elem_of_nil in Hw|]. cbn [app] in Hs. apply StronglySorted_inv in Hs as [Hs Hx].
    rewrite Forall_forall in Hx. apply elem_of_cons in Hw as [->|Hw]; [|by apply IH]. apply Z.lt_le_incl, Hx, elem_of_app. right. by left.
Qed.
Lemma output_range o part : output_of o part → range_ok user (out_file o).
Proof.
  intros [_ (a & Ha & E1 & Hmin) (b & Hb & E2 & _)]. unfold range_ok, out_file. cbn [build new_file smallest largest]. rewrite E1, E2.
  split; [apply ikey_ok_ikey|]. split; [apply ikey_ok_ikey|]. by apply Hmin.
Qed.
Lemma output_holds contents o part : output_of o part → contents (out_file o) = part → file_holds user contents (out_file o).
Proof.
  intros Ho Ec. pose proof (output_range o part Ho) as Hr. destruct Ho as [H1 (a & Ha & E1 & Hmin) (b & Hb & E2 & Hmax)]. split; rewrite ?Ec; [done | done | |].
  - intros u Hu. unfold out_file. cbn [build new_file smallest largest]. rewrite E1, E2. split; [by apply Hmin | by apply Hmax].
  - exists b. split; [done|]. unfold out_file. cbn [build new_file largest]. done.
Qed.
(** Outputs are in the order of their tables. *)
Lemma outputs_before o1 p1 o2 p2 : output_of o1 p1 → output_of o2 p2 → (∀ u w, u ∈ p1 → w ∈ p2 → follows u w) → before user (out_file o1) (out_file o2).
Proof.
  intros [_ _ (b & Hb & E1 & _)] [_ (a & Ha & E2 & _) _] H. unfold before, out_file. cbn [build new_file smallest largest]. rewrite E1, E2. by apply H.
Qed.
Lemma parts_order (Rel : upd → upd → Prop) (parts : list (list upd)) i j p q : StronglySorted Rel (concat parts) → (i < j)%nat → parts !! i = Some p → parts !! j = Some q → ∀ u w, u ∈ p → w ∈ q → Rel u w.
Proof.
  revert i j. induction parts as [|x parts IH]; intros i j Hs Hij Hi Hj u w Hu Hw; [done|]. cbn [concat] in Hs. destruct j as [|j]; [lia|].
  assert (∀ a l k, StronglySorted Rel (a ++ l) → StronglySorted Rel l ∧ (k ∈ a → ∀ y, y ∈ l → Rel k y)) as Happ.
  { clear. intros a l k. induction a as [|z a IH]; cbn; [split; [done | by intros ?%elem_of_nil]|]. intros [H1 H2]%StronglySorted_inv. destruct (IH H1) as [H3 H4]. split; [done|].
    rewrite Forall_forall in H2. intros [->|Hk]%elem_of_cons y Hy; [apply H2, elem_of_app; by right | by apply H4]. }
  destruct (Happ x (concat parts) u Hs) as [Hs' Hx]. destruct i as [|i]; [|apply (IH i j Hs' ltac:(lia) Hi Hj); done].
  cbn in Hi. injection Hi as ->. apply Hx; [done|]. apply list_elem_of_In, in_concat. exists q. split; [apply list_elem_of_In; by eapply list_elem_of_lookup_2 | by apply list_elem_of_In].
Qed.
End output.

(** *** Installing a compaction *)

(** [v] is [v0] with the files of the memtables that were compacted in the meantime: their
    updates are newer than those of [v0], and a file that was pushed below level 0 has no
    user key in common with the files of [v0] down to its level. *)
Record flushed (user : Comparator) (contents : FileMetaData → list upd) (v0 v : version) : Prop := mkFlushed {
  fl_old l f : f ∈ level_files v0 l → f ∈ level_files v l;
  fl_newer l f u w : f ∈ level_files v l → f ∉ level_files v0 l → u ∈ contents f → w ∈ version_updates contents v0 → Compare user (u_key u) (u_key w) = 0 → u_seq w < u_seq u;
  fl_apart l m f g : (m ≤ l)%nat → (0 < l)%nat → f ∈ level_files v l → f ∉ level_files v0 l → g ∈ level_files v0 m → apart user f g
}.

Section install.
Context (user : Comparator) `{Huser : !ComparatorLaws any_key user} (contents contents' : FileMetaData → list upd) (table_get table_get' : table_cache)
  (v0 : version) (Hv0 : version_ok user contents table_get v0) (Hlv0 : levels_ok user v0)
  (v : version) (Hv : version_ok user contents table_get v) (Hlv : levels_ok user v) (Hnums : ∀ l, NoDup (map number (level_files v l)))
  (Hfl : flushed user contents v0 v) (c : compaction) (Hc : picked user v0 c)
  (Hgap : (∀ l f, f ∈ level_files v l → f ∈ level_files v0 l) ∨ gapless user (inputs0_ c ++ inputs1_ c)).
#[local] Notation icmp := (InternalKeyComparator.Compare user).
#[local] Notation ucmp := (Compare user).
#[local] Notation L := (level_ c).
#[local] Notation updates l := (level_updates contents v l).
Context (Hsplit0 : (0 < L)%nat → unsplit user (level_files v0 L)) (Hsplit1 : unsplit user (level_files v0 (S L)))
  (us : list upd) (Hrun : run_ok user us) (Hus : ∀ u, u ∈ us ↔ ∃ f, f ∈ inputs0_ c ++ inputs1_ c ∧ u ∈ contents f)
  (kept : list upd) (Hkept : ∀ u, u ∈ kept → u ∈ us)
  (outs : list Output) (parts : list (list upd)) (Hparts : concat parts = kept) (Hsorted : StronglySorted (follows user) kept)
  (Houts : Forall2 (output_of user) outs parts)
  (e : VersionEdit.version_edit)
  (Hdel : ∀ q, q ∈ VersionEdit.deleted_files_ e ↔ (∃ f, f ∈ inputs0_ c ∧ q = (Z.of_nat L, number f)) ∨ (∃ f, f ∈ inputs1_ c ∧ q = (Z.of_nat (S L), number f)))
  (Hnew : VersionEdit.new_files_ e = map (λ o, (Z.of_nat L + 1, new_file (out_number o) (out_file_size o) (out_smallest o) (out_largest o))) outs)
  (Hptr : Forall (λ p, level_ok p.1 ∧ p.2 ≠ []) (VersionEdit.compact_pointers_ e))
  (Hnodup : NoDup (map out_number outs)) (Hfresh : ∀ o, o ∈ outs → ∀ l f, f ∈ level_files v l → number f ≠ out_number o)
  (Hold : ∀ l f, f ∈ level_files v l → contents' f = contents f ∧ TableReads user contents' table_get' f)
  (Hout : ∀ i o p, outs !! i = Some o → parts !! i = Some p → contents' (out_file o) = p ∧ TableReads user contents' table_get' (out_file o)).

Let Hcomp := pk_complete user v0 c Hc.
Lemma level_files_range l : ranges_ok user (level_files v l).
Proof. apply (vl_ranges user v Hlv). Qed.
Lemma old_files_range l : ranges_ok user (level_files v0 l).
Proof. apply (vl_ranges user v0 Hlv0). Qed.
Lemma input0_old f : f ∈ inputs0_ c → f ∈ level_files v0 L.
Proof. apply (cc_inputs0 _ _ _ _ _ Hcomp). Qed.
Lemma input1_old f : f ∈ inputs1_ c → f ∈ level_files v0 (S L).
Proof. apply (cc_inputs1 _ _ _ _ _ Hcomp). Qed.
Lemma input0_in f : f ∈ inputs0_ c → f ∈ level_files v L.
Proof. intros Hf. by apply (fl_old _ _ _ _ Hfl), input0_old. Qed.
Lemma input1_in f : f ∈ inputs1_ c → f ∈ level_files v (S L).
Proof. intros Hf. by apply (fl_old _ _ _ _ Hfl), input1_old. Qed.

(** The files of the new version. *)
Definition stays (l : nat) (f : FileMetaData) : Prop := f ∈ level_files v l ∧ (l = L → f ∉ inputs0_ c) ∧ (l = S L → f ∉ inputs1_ c).
Definition made (l : nat) (f : FileMetaData) : Prop := l = S L ∧ ∃ o, o ∈ outs ∧ f = out_file o.

Lemma same_number l f g : f ∈ level_files v l → g ∈ level_files v l → number f = number g → f = g.
Proof.
  intros [i Hi]%list_elem_of_lookup [j Hj]%list_elem_of_lookup En. specialize (Hnums l). assert (i = j) as ->; [|congruence].
  apply (NoDup_lookup _ i j (number f) Hnums); rewrite list_lookup_fmap; [by rewrite Hi | by rewrite Hj; cbn; rewrite En].
Qed.
Lemma new_at_outs l : new_at (VersionEdit.new_files_ e) l = if decide (l = S L) then map out_file outs else [].
Proof.
  rewrite Hnew. unfold new_at. case_decide as E.
  - subst l. clear Hnew. induction outs as [|o os IH]; [done|]. cbn [map]. rewrite filter_cons_True by (cbn; lia). cbn [map]. f_equal.
    assert (∀ os : list Output, map (λ p : Z * FileMetaData, build p.2) (filter (λ p : Z * FileMetaData, p.1 = Z.of_nat (S L)) (map (λ o, (Z.of_nat L + 1, new_file (out_number o) (out_file_size o) (out_smallest o) (out_largest o))) os)) = map out_file os) as H; [|apply H].
    clear. induction os as [|o os IH]; [done|]. cbn [map]. rewrite filter_cons_True by (cbn; lia). cbn [map]. by rewrite IH.
  - clear Hnew. induction outs as [|o os IH]; [done|]. cbn [map]. rewrite filter_cons_False by (cbn; lia).
    assert (∀ os : list Output, map (λ p : Z * FileMetaData, build p.2) (filter (λ p : Z * FileMetaData, p.1 = Z.of_nat l) (map (λ o, (Z.of_nat L + 1, new_file (out_number o) (out_file_size o) (out_smallest o) (out_largest o))) os)) = []) as H; [|apply H].
    clear -E. induction os as [|o os IH]; [done|]. cbn [map]. by rewrite filter_cons_False by (cbn; lia).
Qed.
Lemma after_spec l f : after_edit v e l f ↔ stays l f ∨ made l f.
Proof.
  unfold after_edit, stays, made. rewrite new_at_outs, Hdel. split.
  - intros [[Hf Hn]|Hf].
    + left. split; [done|]. split; intros -> Hin; apply Hn; [left | right]; by exists f.
    + case_decide as E; [|by apply elem_of_nil in Hf]. apply list_elem_of_fmap in Hf as (o & -> & Ho). right. split; [done|]. by exists o.
  - intros [(Hf & H0 & H1)|(-> & o & Ho & ->)]; [left | right; rewrite decide_True by done; by apply list_elem_of_fmap_2].
    split; [done|]. intros [(g & Hg & [= El En])|(g & Hg & [= El En])]; apply Nat2Z.inj in El; subst l;
      [apply (H0 eq_refl) | apply (H1 eq_refl)]; assert (f = g) as ->; try done.
    + apply (same_number L); [done | by apply input0_in | done].
    + apply (same_number (S L)); [done | by apply input1_in | done].
Qed.

Lemma out_part o : o ∈ outs → ∃ i p, outs !! i = Some o ∧ parts !! i = Some p ∧ output_of user o p.
Proof.
  intros [i Hi]%list_elem_of_lookup. destruct (parts !! i) as [p|] eqn:Hp.
  - exists i, p. split; [done|]. split; [done|]. by apply (Forall2_lookup_lr _ _ _ _ _ _ Houts Hi Hp).
  - apply lookup_ge_None in Hp. apply lookup_lt_Some in Hi. rewrite (Forall2_length _ _ _ Houts) in Hi. lia.
Qed.
Lemma part_kept i p u : parts !! i = Some p → u ∈ p → u ∈ kept.
Proof. intros Hp Hu. rewrite <- Hparts. apply list_elem_of_In, in_concat. exists p. split; apply list_elem_of_In; [by eapply list_elem_of_lookup_2 | done]. Qed.
Lemma input_level f : f ∈ inputs0_ c ++ inputs1_ c → ∃ l, (l = L ∨ l = S L) ∧ f ∈ level_files v0 l.
Proof. intros [Hf|Hf]%elem_of_app; [exists L | exists (S L)]; (split; [tauto|]); [by apply input0_old | by apply input1_old]. Qed.
Lemma input_current f : f ∈ inputs0_ c ++ inputs1_ c → ∃ l, (l = L ∨ l = S L) ∧ f ∈ level_files v l.
Proof. intros (l & Hl & Hf)%input_level. exists l. split; [done|]. by apply (fl_old _ _ _ _ Hfl). Qed.
Lemma file_holds_at l f : f ∈ level_files v l → file_holds user contents f.
Proof. intros Hf. by destruct (vo_holds _ _ _ _ Hv l f Hf). Qed.

Lemma sorted_once l i j f : ranges_ok user l → StronglySorted (Rfile user) l → l !! i = Some f → l !! j = Some f → i = j.
Proof.
  assert (∀ l i j f, ranges_ok user l → StronglySorted (Rfile user) l → (i < j)%nat → l !! i = Some f → l !! j = Some f → False) as H.
  { clear -Huser. induction l as [|x l IH]; intros i j f Hok Hs Hij Hi Hj; [done|]. apply StronglySorted_inv in Hs as [Hs Hx]. destruct j as [|j]; [lia|].
    assert (ranges_ok user l) as Hokl by (intros g Hg; apply Hok; by right). destruct i as [|i]; [|apply (IH i j f Hokl Hs); [lia | done | done]].
    cbn in Hi, Hj. injection Hi as ->. rewrite Forall_forall in Hx. apply (Rfile_irrefl user f f); [apply Hok; by left | | done | done]. apply Hx. by eapply list_elem_of_lookup_2. }
  intros Hok Hs Hi Hj. destruct (Nat.lt_trichotomy i j) as [Hlt|[->|Hlt]]; [|done|]; exfalso; by eapply (H l _ _ f Hok Hs Hlt).
Qed.

(** The entries of an output lie in the inputs. *)
Lemma output_bounds o : o ∈ outs → ∃ p a b, a ∈ p ∧ b ∈ p ∧ p ∈ parts ∧ out_smallest o = upd_ikey a ∧ out_largest o = upd_ikey b.
Proof.
  intros Ho. destruct (out_part o Ho) as (i & p & _ & Hp & [_ (a & Ha & E1 & _) (b & Hb & E2 & _)]). exists p, a, b. split; [done|]. split; [done|]. split; [by eapply list_elem_of_lookup_2 | done].
Qed.
Lemma output_input p u : p ∈ parts → u ∈ p → ∃ f, f ∈ inputs0_ c ++ inputs1_ c ∧ u ∈ contents f ∧ range_ok user f ∧ icmp (smallest f) (upd_ikey u) ≤ 0 ∧ icmp (upd_ikey u) (largest f) ≤ 0.
Proof.
  intros [i Hp]%list_elem_of_lookup Hu. destruct (proj1 (Hus u) (Hkept u (part_kept i p u Hp Hu))) as (f & Hf & Huf). destruct (input_current f Hf) as (l & _ & Hl). pose proof (file_holds_at l f Hl) as Hh.
  exists f. split; [done|]. split; [done|]. split; [by apply (level_files_range l)|]. by apply (fh_within _ _ _ Hh).
Qed.
Lemma sides_output g o : range_ok user g → o ∈ outs → (∀ f, f ∈ inputs0_ c ++ inputs1_ c → before user g f) ∨ (∀ f, f ∈ inputs0_ c ++ inputs1_ c → before user f g) →
  before user g (out_file o) ∨ before user (out_file o) g.
Proof.
  intros (G1 & G2 & _) Ho Hs. destruct (output_bounds o Ho) as (p & a & b & Ha & Hb & Hp & E1 & E2). destruct Hs as [Hs|Hs]; [left | right]; unfold before, out_file in *; cbn [build new_file smallest largest].
  - rewrite E1. destruct (output_input p a Hp Ha) as (f & Hf & _ & (F1 & F2 & _) & K1 & _). pose proof (Hs f Hf). apply (icmp_lt_le user _ (smallest f)); [done | done | apply ikey_ok_ikey | done | done].
  - rewrite E2. destruct (output_input p b Hp Hb) as (f & Hf & _ & (F1 & F2 & _) & _ & K2). pose proof (Hs f Hf). apply (icmp_le_lt user _ (largest f)); [apply ikey_ok_ikey | done | done | done | done].
Qed.
(** A new file below level 0 has no user key of the inputs. *)
Lemma new_file_apart l g f : (S L ≤ l)%nat → g ∈ level_files v l → g ∉ level_files v0 l → f ∈ inputs0_ c ++ inputs1_ c → apart user f g.
Proof.
  intros Hl Hg Hn (m & Hm & Hf)%input_level. assert (apart user g f) as [H|H]; [|by right | by left]. by apply (fl_apart _ _ _ _ Hfl l m); [lia | lia | | |].
Qed.
(** A file of the next level that stays has no user key of the inputs, and is on one side
    of every output. *)
Lemma stays_apart g f : stays (S L) g → f ∈ inputs0_ c ++ inputs1_ c → apart user f g.
Proof.
  intros (Hg & _ & Hn) Hf. destruct (decide (g ∈ level_files v0 (S L))) as [Ho|Ho]; [|by apply (new_file_apart (S L))].
  apply (next_apart user v0 L (inputs0_ c) (inputs1_ c) Hcomp (λ l, vl_ranges user v0 Hlv0 l)); auto.
Qed.
Lemma stays_beside g o : stays (S L) g → o ∈ outs → before user g (out_file o) ∨ before user (out_file o) g.
Proof.
  intros Hst Ho. pose proof Hst as (Hg & _ & Hn). apply sides_output; [by apply (level_files_range (S L)) | done|]. destruct (decide (g ∈ level_files v0 (S L))) as [Hold'|Hnew'].
  - apply (next_sides user v0 L (inputs0_ c) (inputs1_ c) Hcomp (vo_sorted _ _ _ _ Hv0) old_files_range g Hold' (Hn eq_refl)).
  - destruct Hgap as [Hsame|Hgl]; [by destruct Hnew'; apply Hsame|]. destruct (Hgl g (level_files_range _ g Hg)) as [[] Hs]; [intros f; by apply stays_apart | left | right]; intros f Hf; by apply (ubefore_before user), Hs.
Qed.
Lemma made_beside o1 o2 : o1 ∈ outs → o2 ∈ outs → out_file o1 = out_file o2 ∨ before user (out_file o1) (out_file o2) ∨ before user (out_file o2) (out_file o1).
Proof.
  intros H1 H2. destruct (out_part o1 H1) as (i & p & Hi & Hp & Op), (out_part o2 H2) as (j & q & Hj & Hq & Oq). rewrite <- Hparts in Hsorted.
  destruct (Nat.lt_trichotomy i j) as [Hlt|[->|Hlt]]; [right; left | left; congruence | right; right].
  - apply (outputs_before user o1 p o2 q Op Oq). by apply (parts_order (follows user) parts i j).
  - apply (outputs_before user o2 q o1 p Oq Op). by apply (parts_order (follows user) parts j i).
Qed.
Lemma new_level_disjoint l f g : (0 < l)%nat → stays l f ∨ made l f → stays l g ∨ made l g → disjoint_files user f g.
Proof.
  unfold disjoint_files. intros Hl [Hf|(-> & o1 & Ho1 & ->)] [Hg|(El & o2 & Ho2 & ->)].
  - destruct (decide (f = g)) as [->|Hne]; [by left|]. right. destruct (two_files (level_files v l) f g (proj1 Hf) (proj1 Hg) Hne) as (i & j & Hi & Hj & [Hlt|Hlt]).
    + left. by apply (lo_sorted _ _ (vo_sorted _ _ _ _ Hv l Hl) i j).
    + right. by apply (lo_sorted _ _ (vo_sorted _ _ _ _ Hv l Hl) j i).
  - subst l. right. by apply stays_beside.
  - right. destruct (stays_beside g o1 Hg Ho1) as [?|?]; [by right | by left].
  - by apply made_beside.
Qed.

(** The builder accepts the edit. *)
Lemma compaction_edit_fits : edit_fits user e.
Proof.
  pose proof (pk_level user v0 c Hc) as Hl. split; [done | |].
  - apply Forall_forall. intros q Hq. apply Hdel in Hq as [(f & _ & ->)|(f & _ & ->)]; unfold level_ok, kNumLevels; cbn [fst]; lia.
  - rewrite Hnew. apply Forall_forall. intros q (o & -> & Ho)%list_elem_of_fmap. cbn [fst snd]. split; [unfold level_ok, kNumLevels; lia|].
    destruct (out_part o Ho) as (i & p & _ & _ & Op). apply (output_range user o p Op).
Qed.
Lemma compaction_edit_fresh : fresh_edit v e.
Proof.
  intros l. unfold added_numbers. cbn [map concat]. rewrite app_nil_r, new_at_outs. case_decide; [|split; [constructor | by intros n ?%elem_of_nil]].
  assert (map number (map out_file outs) = map out_number outs) as -> by (rewrite map_map; by apply map_ext). split; [done|].
  intros n (o & -> & Ho)%list_elem_of_fmap g Hg. by apply (Hfresh o Ho l).
Qed.
Lemma compaction_edit_applies pointers : length pointers = 7%nat → ∃ b v', Apply user e (VersionBuilder.new v pointers) = Ok b ∧ SaveTo user b = Ok v' ∧
  levels_ok user v' ∧ ∀ l f, f ∈ level_files v' l ↔ stays l f ∨ made l f.
Proof.
  intros Hp. destruct (edit_step user v e pointers Hlv Hp compaction_edit_fits compaction_edit_fresh) as (b & Eb & Hb & _ & Hs & Hsave). exists b.
  assert (forallb (λ level, ordered user level (VersionBuilder.saved user b level)) (seq 0 7) = true) as E.
  { apply forallb_forall. intros l _. unfold ordered. destruct (decide (l = 0%nat)) as [->|Hl]; [done|]. rewrite bool_decide_false by done. cbn [orb].
    apply (chain_disjoint user); [by apply saved_ranges | by apply saved_sorted|]. intros f g. rewrite !Hs, !after_spec. apply new_level_disjoint. lia. }
  pose proof (SaveTo_spec user b Hb) as Esave. rewrite E in Esave. eexists. split; [done|]. split; [exact Esave|]. destruct (Hsave _ Esave) as [Hv' El]. split; [done|].
  intros l f. by rewrite El, Hs, after_spec.
Qed.

(** *** The new version *)

Context (v' : version) (Hv' : levels_ok user v') (Hfiles : ∀ l f, f ∈ level_files v' l ↔ stays l f ∨ made l f)
  (Hcount : ∀ l, blen (level_files v' l) < 2 ^ 31).
#[local] Notation updates' l := (level_updates contents' v' l).

(** An update of the new version was in an input or is in a file that stays. *)
Definition staying_upd (l : nat) (u : upd) : Prop := ∃ f, stays l f ∧ u ∈ contents f.
Lemma stays_upd l f : stays l f → contents' f = contents f.
Proof. intros (Hf & _). by apply (Hold l). Qed.
Lemma made_upd o u : o ∈ outs → u ∈ contents' (out_file o) → u ∈ kept.
Proof. intros Ho Hu. destruct (out_part o Ho) as (i & p & Hi & Hp & _). destruct (Hout i o p Hi Hp) as [E _]. rewrite E in Hu. by apply (part_kept i p). Qed.
Lemma kept_made u : u ∈ kept → ∃ o, o ∈ outs ∧ u ∈ contents' (out_file o).
Proof.
  rewrite <- Hparts. intros (p & Hp%list_elem_of_In & Hu%list_elem_of_In)%list_elem_of_In%in_concat. apply list_elem_of_lookup in Hp as [i Hp]. destruct (outs !! i) as [o|] eqn:Ho.
  - exists o. split; [by eapply list_elem_of_lookup_2|]. by destruct (Hout i o p Ho Hp) as [-> _].
  - apply lookup_ge_None in Ho. apply lookup_lt_Some in Hp. rewrite (Forall2_length _ _ _ Houts) in Ho. lia.
Qed.
Lemma updates_after l u : u ∈ updates' l ↔ staying_upd l u ∨ (l = S L ∧ u ∈ kept).
Proof.
  rewrite elem_of_level_updates. split.
  - intros (f & [Hf|(-> & o & Ho & ->)]%Hfiles & Hu); [left; exists f; split; [done|]; by rewrite <- (stays_upd l f) | right; split; [done|]; by apply (made_upd o)].
  - intros [(f & Hf & Hu)|(-> & (o & Ho & Hu)%kept_made)]; [exists f | exists (out_file o)]; (split; [apply Hfiles|]); [by left | by rewrite (stays_upd l f) | right; split; [done|]; by exists o | done].
Qed.
Lemma updates_before l u : u ∈ updates l ↔ staying_upd l u ∨ (l = L ∧ ∃ f, f ∈ inputs0_ c ∧ u ∈ contents f) ∨ (l = S L ∧ ∃ f, f ∈ inputs1_ c ∧ u ∈ contents f).
Proof.
  rewrite elem_of_level_updates. split.
  - intros (f & Hf & Hu). destruct (decide (l = L ∧ f ∈ inputs0_ c)) as [[? ?]|H0]; [right; left; eauto|]. destruct (decide (l = S L ∧ f ∈ inputs1_ c)) as [[? ?]|H1]; [right; right; eauto|].
    left. exists f. split; [|done]. split; [done|]. split; intros -> ?; tauto.
  - intros [(f & (Hf & _) & Hu)|[(-> & f & Hf & Hu)|(-> & f & Hf & Hu)]]; exists f; (split; [|done]); [done | by apply input0_in | by apply input1_in].
Qed.
Lemma us_level u : u ∈ us → u ∈ updates L ∨ u ∈ updates (S L).
Proof.
  intros (f & [Hf|Hf]%elem_of_app & Hu)%Hus; rewrite !updates_before; [left; right; left | right; right; right]; (split; [done|]); by exists f.
Qed.
Lemma level_us u : u ∈ updates L ∨ u ∈ updates (S L) → staying_upd L u ∨ staying_upd (S L) u ∨ u ∈ us.
Proof.
  rewrite !updates_before, Hus. setoid_rewrite elem_of_app. intros [[H|[(_ & f & ? & ?)|(E & _)]]|[H|[(E & _)|(_ & f & ? & ?)]]]; try lia; try tauto; right; right; exists f; tauto.
Qed.
Lemma staying_before l u : staying_upd l u → u ∈ updates l.
Proof. intros H. apply updates_before. by left. Qed.

(** A file of the two levels that stays has no user key of the inputs. *)
Lemma holds_key f u : file_holds user contents f → u ∈ contents f → ucmp (ExtractUserKey (smallest f)) (u_key u) ≤ 0 ∧ ucmp (u_key u) (ExtractUserKey (largest f)) ≤ 0.
Proof.
  intros Hf Hu. destruct (fh_within _ _ _ Hf u Hu) as [H1 H2]. apply (icmp_user_le user) in H1, H2. unfold upd_ikey in H1, H2. by rewrite !extract_ikey in *.
Qed.
Lemma apart_keys f g u w : apart user f g → file_holds user contents f → file_holds user contents g → u ∈ contents f → w ∈ contents g → ucmp (u_key u) (u_key w) ≠ 0.
Proof using Huser.
  clear -Huser.
  intros Ha Hf Hg Hu Hw. destruct (holds_key f u Hf Hu) as [F1 F2], (holds_key g w Hg Hw) as [G1 G2]. pose proof (ucmp_flip user (u_key u) (u_key w)). destruct Ha as [Ha|Ha]; unfold ubefore in Ha.
  - pose proof (ucmp_lt_le user _ _ _ (ucmp_le_lt user _ _ _ F2 Ha) G1). lia.
  - pose proof (ucmp_lt_le user _ _ _ (ucmp_le_lt user _ _ _ G2 Ha) F1). lia.
Qed.
Lemma staying_next u w : staying_upd (S L) u → w ∈ us → ucmp (u_key u) (u_key w) ≠ 0.
Proof.
  intros (g & Hg & Hu) (f & Hf & Hw)%Hus. destruct (input_current f Hf) as (l & _ & Hl). intros E. apply (apart_keys f g w u); [by apply stays_apart | by apply (file_holds_at l) | by apply (file_holds_at (S L)), Hg | done | done|].
  pose proof (ucmp_flip user (u_key u) (u_key w)). lia.
Qed.
Lemma us_old u : u ∈ us → u ∈ version_updates contents v0.
Proof. intros (f & (l & _ & Hl)%input_level & Hu)%Hus. apply (elem_of_version_updates user contents table_get v0 u Hv0). exists l. apply elem_of_level_updates. by exists f. Qed.
Lemma staying_same u w : staying_upd L u → w ∈ us → ucmp (u_key u) (u_key w) = 0 → u_seq w < u_seq u.
Proof.
  intros Hu Hw E. pose proof Hu as (g & (Hg & Hn & _) & Hug). destruct (decide (g ∈ level_files v0 L)) as [Ho|Ho]; [|by apply (fl_newer _ _ _ _ Hfl L g u w); [| | |apply us_old|]].
  apply Hus in Hw as (f & [Hf|Hf]%elem_of_app & Hw).
  - exfalso. pose proof (input0_in f Hf) as Hl. apply (apart_keys f g w u); [|by apply (file_holds_at L) | by apply (file_holds_at L) | done | done |].
    + apply (same_apart user v0 L (inputs0_ c) (inputs1_ c) Hcomp); auto.
    + pose proof (ucmp_flip user (u_key u) (u_key w)). lia.
  - apply (vo_newer _ _ _ _ Hv L (S L) ltac:(lia) u w); [by apply staying_before | apply updates_before; right; right; split; [done|]; by exists f | done].
Qed.
Lemma staying_old l m u w : (l < m)%nat → staying_upd l u → staying_upd m w → ucmp (u_key u) (u_key w) = 0 → u_seq w < u_seq u.
Proof. intros Hlm Hu Hw. apply (vo_newer _ _ _ _ Hv l m Hlm u w); by apply staying_before. Qed.
Lemma above_us l u w : (l ≤ S L)%nat → staying_upd l u → w ∈ us → ucmp (u_key u) (u_key w) = 0 → u_seq w < u_seq u.
Proof.
  intros Hl Hu Hw E. destruct (decide (l = S L)) as [->|]; [by destruct (staying_next u w Hu Hw)|]. destruct (decide (l = L)) as [->|]; [by apply staying_same|].
  apply staying_before in Hu. destruct (us_level w Hw) as [H|H]; [apply (vo_newer _ _ _ _ Hv l L ltac:(lia) u w) | apply (vo_newer _ _ _ _ Hv l (S L) ltac:(lia) u w)]; done.
Qed.
Lemma us_below m u w : (S L < m)%nat → u ∈ us → staying_upd m w → ucmp (u_key u) (u_key w) = 0 → u_seq w < u_seq u.
Proof.
  intros Hm Hu Hw E. apply staying_before in Hw. destruct (us_level u Hu) as [H|H]; [apply (vo_newer _ _ _ _ Hv L m ltac:(lia) u w) | apply (vo_newer _ _ _ _ Hv (S L) m ltac:(lia) u w)]; done.
Qed.

Lemma new_version_newer l m : (l < m)%nat → newer user (updates' l) (updates' m).
Proof.
  intros Hlm u w [Hu|[-> Hu]]%updates_after [Hw|[-> Hw]]%updates_after E.
  - by apply (staying_old l m).
  - apply (above_us l); [lia | done | by apply Hkept | done].
  - apply (us_below m); [lia | by apply Hkept | done | done].
  - lia.
Qed.
Lemma new_update_old l u : u ∈ updates' l → ∃ m, u ∈ updates m.
Proof. intros [Hu|[-> Hu]]%updates_after; [exists l; by apply staying_before|]. destruct (us_level u (Hkept u Hu)); eauto. Qed.

Lemma new_version_ok : version_ok user contents' table_get' v'.
Proof.
  assert (∀ l, (0 < l)%nat → level_sorted user (level_files v' l)) as Hsort.
  { intros l Hl. split; [by apply (vl_ranges user v' Hv' l) | | apply Hcount]. apply (chain_pairs user); [apply (vl_ranges user v' Hv' l)|].
    pose proof (vl_ordered user v' Hv' l) as Ho. unfold ordered in Ho. by rewrite bool_decide_false in Ho by lia. }
  split; [apply (vl_count user v' Hv') | | done | | apply new_version_newer |].
  - intros l f [Hf|(-> & o & Ho & ->)]%Hfiles.
    + pose proof (stays_upd l f Hf) as E. destruct Hf as [Hf _]. destruct (Hold l f Hf) as [_ Hr]. split; [|done]. destruct (file_holds_at l f Hf) as [H1 H2 H3 H4]. split; rewrite ?E; done.
    + destruct (out_part o Ho) as (i & p & Hi & Hp & Op). destruct (Hout i o p Hi Hp) as [E Hr]. split; [by apply (output_holds user contents' o p) | done].
  - intros i j f g Hij Hi Hj. assert (f ∈ level_files v' 0 ∧ g ∈ level_files v' 0) as [Hf Hg] by (split; by eapply list_elem_of_lookup_2).
    apply Hfiles in Hf as [Hf|[? _]], Hg as [Hg|[? _]]; [|lia..]. assert (f ≠ g) as Hne.
    { intros ->. apply Hij. apply (sorted_once (level_files v' 0) i j g); [apply (vl_ranges user v' Hv') | apply (vl_sorted user v' Hv') | done | done]. }
    rewrite (stays_upd 0 f Hf), (stays_upd 0 g Hg). destruct (two_files (level_files v 0) f g (proj1 Hf) (proj1 Hg) Hne) as (i' & j' & Hi' & Hj' & Hlt).
    apply (vo_level0 _ _ _ _ Hv i' j'); [lia | done | done].
  - apply (seqs_unique_sub user (version_updates contents v)); [|apply (vo_unique _ _ _ _ Hv)]. intros u Hu.
    unfold version_updates in Hu. apply list_elem_of_In, in_concat in Hu as (x & Hx & Hu). apply in_map_iff in Hx as (l & <- & _). apply list_elem_of_In, new_update_old in Hu as [m Hm].
    apply (elem_of_version_updates user contents table_get v u Hv). by exists m.
Qed.

(** What stays above the outputs or is new, and what stays below them. *)
Definition region (P : nat → FileMetaData → Prop) `{!∀ l f, Decision (P l f)} : list upd :=
  concat (map (λ l, concat (map contents (filter (λ f, ((l = L → f ∉ inputs0_ c) ∧ (l = S L → f ∉ inputs1_ c)) ∧ P l f) (level_files v l)))) (seq 0 7)).
Definition is_old (l : nat) (f : FileMetaData) : Prop := (S (S L) ≤ l)%nat ∧ f ∈ level_files v0 l.
#[local] Instance is_old_dec l f : Decision (is_old l f).
Proof. unfold is_old. apply _. Defined.
Lemma stays_level l f : stays l f → (l < 7)%nat.
Proof. intros (Hf & _). destruct (decide (l < 7)%nat); [done|]. rewrite (levels_beyond user) in Hf by (done || lia). by apply elem_of_nil in Hf. Qed.
Lemma elem_of_region P `{!∀ l f, Decision (P l f)} u : u ∈ region P ↔ ∃ l f, stays l f ∧ P l f ∧ u ∈ contents f.
Proof.
  unfold region. rewrite list_elem_of_In, in_concat. split.
  - intros (x & Hx & Hu). apply in_map_iff in Hx as (l & <- & Hl). apply in_concat in Hu as (y & Hy & Hu). apply in_map_iff in Hy as (f & <- & Hf). rewrite <- !list_elem_of_In in *.
    apply list_elem_of_filter in Hf as [[Hs HP] Hf]. by exists l, f.
  - intros (l & f & Hs & HP & Hu). eexists. split; [apply in_map_iff; exists l; split; [reflexivity | apply in_seq; pose proof (stays_level l f Hs); lia]|]. apply in_concat. exists (contents f). split; [|by apply list_elem_of_In].
    apply in_map_iff. exists f. split; [done|]. destruct Hs. by apply list_elem_of_In, list_elem_of_filter.
Qed.
#[local] Notation above := (region (λ l f, ¬ is_old l f)).
#[local] Notation older := (region is_old).
Lemma region_split l u : staying_upd l u → u ∈ above ∨ u ∈ older.
Proof. intros (f & Hf & Hu). rewrite !elem_of_region. destruct (decide (is_old l f)); [right | left]; by exists l, f. Qed.
Lemma region_staying P `{!∀ l f, Decision (P l f)} u : u ∈ region P → ∃ l, staying_upd l u.
Proof. intros (l & f & Hf & _ & Hu)%elem_of_region. by exists l, f. Qed.
Lemma old_members u : u ∈ version_updates contents v ↔ u ∈ above ++ us ++ older.
Proof.
  rewrite (elem_of_version_updates user contents table_get v u Hv), !elem_of_app. split.
  - intros (l & Hu). assert (staying_upd l u ∨ u ∈ us) as [H|H]; [|pose proof (region_split l u H); tauto | tauto].
    apply updates_before in Hu as [Hu|[(_ & f & ? & ?)|(_ & f & ? & ?)]]; [by left | right..]; apply Hus; exists f; rewrite elem_of_app; tauto.
  - intros [(l & H)%region_staying|[H|(l & H)%region_staying]]; [exists l; by apply staying_before | destruct (us_level u H); eauto | exists l; by apply staying_before].
Qed.
Lemma new_members u : u ∈ version_updates contents' v' ↔ u ∈ above ++ kept ++ older.
Proof.
  rewrite (elem_of_version_updates user contents' table_get' v' u new_version_ok), !elem_of_app. setoid_rewrite updates_after. split.
  - intros (l & [H|[_ H]]); [pose proof (region_split l u H); tauto | tauto].
  - intros [(l & H)%region_staying|[H|(l & H)%region_staying]]; [exists l; by left | exists (S L); by right | exists l; by left].
Qed.

(** What is older than the outputs is in the input version. *)
Lemma older_old w : w ∈ older → ∃ m f, (S (S L) ≤ m < 7)%nat ∧ f ∈ level_files v0 m ∧ w ∈ contents f ∧ staying_upd m w.
Proof. intros (m & f & Hf & [Hm Ho] & Hw)%elem_of_region. exists m, f. pose proof (stays_level m f Hf). split; [lia|]. split; [done|]. split; [done|]. by exists f. Qed.
Lemma older_version w : w ∈ older → w ∈ version_updates contents v0.
Proof. intros (m & f & _ & Hf & Hw & _)%older_old. apply (elem_of_version_updates user contents table_get v0 w Hv0). exists m. apply elem_of_level_updates. by exists f. Qed.
Lemma above_newer u w : u ∈ above → w ∈ us ++ older → ucmp (u_key u) (u_key w) = 0 → u_seq w < u_seq u.
Proof.
  intros (l & f & Hf & Hn & Hu)%elem_of_region Hw. destruct (decide (f ∈ level_files v0 l)) as [Ho|Ho].
  - assert (l ≤ S L)%nat as Hl by (destruct (decide (S (S L) ≤ l)%nat) as [H|H]; [destruct Hn; by split | lia]). apply elem_of_app in Hw as [Hw|(m & _ & Hm & _ & _ & Hw)%older_old]; [apply (above_us l); [done | by exists f | done]|].
    apply (staying_old l m); [lia | by exists f | done].
  - apply (fl_newer _ _ _ _ Hfl l f u w); [apply Hf | done | done|]. apply elem_of_app in Hw as [Hw|Hw]; [by apply us_old | by apply older_version].
Qed.

Lemma new_version_reads (snap : Z) k s : snap < kMaxSequenceNumber → snap ≤ s → kept = keep user snap v0 L us new_key_state (replicate (Z.to_nat kNumLevels) 0%nat) →
  found (visible user k s (version_updates contents' v')) = found (visible user k s (version_updates contents v)).
Proof.
  intros Hsnap Hs Ek. pose proof (vo_unique _ _ _ _ Hv) as Huniq. pose proof (vo_unique _ _ _ _ new_version_ok) as Huniq'.
  rewrite (visible_ext user k s (version_updates contents v) (above ++ us ++ older)) by (done || intros u _; apply old_members).
  rewrite (visible_ext user k s (version_updates contents' v') (above ++ kept ++ older)) by (done || intros u _; apply new_members). rewrite Ek.
  apply (keep_reads user snap Hsnap v0 L); [|done|done| | |exact above_newer].
  - intros lvl Hl%elem_of_seq. apply (vo_sorted _ _ _ _ Hv0). lia.
  - intros u w Hu (m & f & Hm & _ & _ & Hw)%older_old. apply (us_below m); [lia | done | done].
  - intros w (m & f & Hm & Hf & Hw & _)%older_old. exists m, f. change (Z.to_nat kNumLevels) with 7%nat. split; [apply elem_of_seq; lia|]. split; [done|].
    assert (file_holds user contents f) as Hh by (by destruct (vo_holds _ _ _ _ Hv0 m f Hf)). apply (not_covered user contents f (u_key w) w Hh Hw). pose proof (ucmp_flip user (u_key w) (u_key w)). lia.
Qed.

(** *** No user key is split *)

(** Files of a sorted level that are pairwise apart. *)
Lemma sorted_unsplit files : level_sorted user files → (∀ i j f g, (i < j)%nat → files !! i = Some f → files !! j = Some g → apart user f g) → unsplit user files.
Proof using Huser.
  clear -Huser. intros Hs Ha i j f g Hij Hi Hj. destruct (Ha i j f g Hij Hi Hj) as [H|H]; [done|]. exfalso. pose proof (lo_sorted _ _ Hs i j f g Hij Hi Hj) as H1. apply Z.lt_le_incl, (icmp_user_le user) in H1.
  destruct (lo_files _ _ Hs f) as (_ & _ & F); [by eapply list_elem_of_lookup_2|]. destruct (lo_files _ _ Hs g) as (_ & _ & G); [by eapply list_elem_of_lookup_2|].
  apply (icmp_user_le user) in F, G. unfold ubefore in H. pose proof (ucmp_lt_le user _ _ _ (ucmp_lt_le user _ _ _ (ucmp_le_lt user _ _ _ G H) F) H1).
  pose proof (ucmp_flip user (ExtractUserKey (smallest g)) (ExtractUserKey (smallest g))). lia.
Qed.
Lemma before_cut f g : before user f g → ucmp (ExtractUserKey (largest f)) (ExtractUserKey (smallest g)) ≠ 0 → ubefore user f g.
Proof using Huser. clear -Huser. intros H%Z.lt_le_incl%(icmp_user_le user) Hn. unfold ubefore. lia. Qed.
(** An update of an output and a file that stays beside the output. *)
Lemma stays_key g p u : stays (S L) g → p ∈ parts → u ∈ p → ∀ k, k = ExtractUserKey (smallest g) ∨ k = ExtractUserKey (largest g) → ucmp k (u_key u) ≠ 0.
Proof.
  intros Hg Hp Hu k Hk E. destruct (output_input p u Hp Hu) as (f & Hf & Huf & _). destruct (input_current f Hf) as (l & _ & Hl). destruct (holds_key f u (file_holds_at l f Hl) Huf) as [K1 K2].
  pose proof (level_files_range (S L) g (proj1 Hg)) as Hr%(user_range user). pose proof (ucmp_flip user k (u_key u)) as Hflip.
  assert (ucmp (ExtractUserKey (smallest g)) (u_key u) ≤ 0 ∧ ucmp (u_key u) (ExtractUserKey (largest g)) ≤ 0) as [M1 M2].
  { destruct Hk as [->| ->]; (split; [|]); try lia; [apply (ucmp_trans user _ (ExtractUserKey (smallest g))); [lia | done] | apply (ucmp_trans user _ (ExtractUserKey (largest g))); [done | lia]]. }
  destruct (stays_apart g f Hg Hf) as [H|H]; unfold ubefore in H.
  - pose proof (ucmp_lt_le user _ _ _ (ucmp_le_lt user _ _ _ K2 H) M1). pose proof (ucmp_flip user (u_key u) (u_key u)). lia.
  - pose proof (ucmp_lt_le user _ _ _ (ucmp_le_lt user _ _ _ M2 H) K1). pose proof (ucmp_flip user (u_key u) (u_key u)). lia.
Qed.
Lemma stays_made_apart g o : stays (S L) g → o ∈ outs → apart user g (out_file o).
Proof.
  intros Hg Ho. destruct (output_bounds o Ho) as (p & a & b & Ha & Hb & Hp & E1 & E2). destruct (stays_beside g o Hg Ho) as [H|H]; [left | right]; apply before_cut; try done;
    unfold out_file; cbn [build new_file smallest largest].
  - rewrite E1. unfold upd_ikey. rewrite extract_ikey. apply (stays_key g p a Hg Hp Ha). by right.
  - rewrite E2. unfold upd_ikey. rewrite extract_ikey. intros E. apply (stays_key g p b Hg Hp Hb (ExtractUserKey (smallest g))); [by left|]. pose proof (ucmp_flip user (u_key b) (ExtractUserKey (smallest g))). lia.
Qed.
Lemma made_apart o1 o2 : StronglySorted (λ u w, ucmp (u_key u) (u_key w) ≠ 0) kept → o1 ∈ outs → o2 ∈ outs → out_file o1 = out_file o2 ∨ apart user (out_file o1) (out_file o2).
Proof.
  intros Hd H1 H2. rewrite <- Hparts in Hsorted, Hd.
  assert (∀ o o' i j p q, (i < j)%nat → parts !! i = Some p → parts !! j = Some q → output_of user o p → output_of user o' q → ubefore user (out_file o) (out_file o')) as Hbefore.
  { clear -Hd Hsorted Huser. intros o o' i j p q Hij Hp Hq Op Oq. apply before_cut; [apply (outputs_before user o p o' q Op Oq); by apply (parts_order (follows user) parts i j)|].
    destruct Op as [_ _ (b & Hb & E1 & _)], Oq as [_ (a & Ha & E2 & _) _]. unfold out_file. cbn [build new_file smallest largest]. rewrite E1, E2. unfold upd_ikey. rewrite !extract_ikey.
    by apply (parts_order _ parts i j p q Hd). }
  destruct (out_part o1 H1) as (i & p & Hi & Hp & Op), (out_part o2 H2) as (j & q & Hj & Hq & Oq). destruct (Nat.lt_trichotomy i j) as [Hlt|[->|Hlt]]; [right; left | left; congruence | right; right].
  - by apply (Hbefore o1 o2 i j p q).
  - by apply (Hbefore o2 o1 j i q p).
Qed.
Lemma new_version_unsplit l : (0 < l)%nat → StronglySorted (λ u w, ucmp (u_key u) (u_key w) ≠ 0) kept → unsplit user (level_files v l) → unsplit user (level_files v' l).
Proof.
  intros Hl Hd Hu. pose proof (vo_sorted _ _ _ _ new_version_ok l Hl) as Hs. apply sorted_unsplit; [done|]. intros i j f g Hij Hi Hj.
  assert (f ≠ g) as Hne by (intros ->; pose proof (sorted_once (level_files v' l) i j g (vl_ranges user v' Hv' l) (vl_sorted user v' Hv' l) Hi Hj); lia).
  assert (f ∈ level_files v' l ∧ g ∈ level_files v' l) as [Hf Hg] by (split; by eapply list_elem_of_lookup_2).
  apply Hfiles in Hf as [Hf|(-> & o1 & Ho1 & ->)], Hg as [Hg|(El & o2 & Ho2 & ->)].
  - destruct (two_files (level_files v l) f g (proj1 Hf) (proj1 Hg) Hne) as (i' & j' & Hi' & Hj' & [Hlt|Hlt]); [left; by apply (Hu i' j') | right; by apply (Hu j' i')].
  - subst l. by apply stays_made_apart.
  - destruct (stays_made_apart g o1 Hg Ho1); [by right | by left].
  - destruct (made_apart o1 o2 Hd Ho1 Ho2); [done|]. done.
Qed.
End install.

(** A memtable that is compacted into a file at the level that
    [PickLevelForMemTableOutput] picks. *)
Lemma flushed_step (user : Comparator) (Huser : ComparatorLaws any_key user) contents v0 v v' f level :
  flushed user contents v0 v → levels_searchable user v → range_ok user f → PickLevelForMemTableOutput user v (ExtractUserKey (smallest f)) (ExtractUserKey (largest f)) = Ok level →
  (∀ l g, g ∈ level_files v' l ↔ g ∈ level_files v l ∨ (l = level ∧ g = f)) →
  (∀ u w, u ∈ contents f → w ∈ version_updates contents v0 → Compare user (u_key u) (u_key w) = 0 → u_seq w < u_seq u) →
  flushed user contents v0 v' ∧ ∀ l, (0 < l)%nat → level_sorted user (level_files v' l) → unsplit user (level_files v l) → unsplit user (level_files v' l).
Proof.
  intros Hfl Hv Hf Hlevel Hfiles Hnew. destruct (pick_level_safe user Huser v Hv (ExtractUserKey (smallest f)) (ExtractUserKey (largest f))) as (_ & level' & E & _ & Hfree).
  rewrite Hlevel in E. injection E as <-.
  assert (∀ m g, (m ≤ level)%nat → (0 < level)%nat → g ∈ level_files v m → apart user f g) as Hapart.
  { intros m g Hm Hl Hg. assert (¬ meet user f f g) as Hn by (intros Ht%(touches_meet user); by rewrite (Hfree Hl m g Hm Hg) in Ht). apply (not_meet user) in Hn as [H|H]; [by right | by left]. }
  split; [split|].
  - intros l g Hg. apply Hfiles. left. by apply (fl_old _ _ _ _ Hfl).
  - intros l g u w [Hg|[-> ->]]%Hfiles Hn; [by apply (fl_newer _ _ _ _ Hfl l g) | by apply Hnew].
  - intros l m g h Hm Hl [Hg|[-> ->]]%Hfiles Hn Hh; [by apply (fl_apart _ _ _ _ Hfl l m)|]. apply (Hapart m); [done | done|]. by apply (fl_old _ _ _ _ Hfl).
  - intros l Hl Hs Hu. apply (sorted_unsplit user); [done|]. intros i j g h Hij Hi Hj.
    assert (g ∈ level_files v' l ∧ h ∈ level_files v' l) as [Hg Hh] by (split; by eapply list_elem_of_lookup_2).
    assert (g ≠ h) as Hne. { intros ->. pose proof (lo_sorted _ _ Hs i j h h Hij Hi Hj) as H. destruct (lo_files _ _ Hs h Hh) as (K1 & K2 & K3). pose proof (ikey_cmp_sgn user (smallest h) (largest h) K1 K2). lia. }
    apply Hfiles in Hg as [Hg|[El ->]], Hh as [Hh|[El' ->]].
    + destruct (two_files (level_files v l) g h Hg Hh Hne) as (i' & j' & Hi' & Hj' & [Hlt|Hlt]); [left; by apply (Hu i' j') | right; by apply (Hu j' i')].
    + subst l. destruct (Hapart level g ltac:(lia) Hl Hg); [by right | by left].
    + subst l. by apply (Hapart level).
    + done.
Qed.

(** ** Properties *)

(** C28: A compaction is picked exactly when one is needed, and it takes what it must and
    no more.  On a current version whose score is that of [Finalize], [PickCompaction]
    fails no assertion; it returns a compaction exactly if [NeedsCompaction] holds, and
    otherwise leaves the version set alone.  It starts from the file after the compaction
    pointer of the level with the best score, or else from the file with too many seeks;
    in level 0 it adds the files that overlap it, directly or through others, and no other
    file; and its inputs leave no gap: a file that has no user key in common with one of
    them lies on one side of all of them.  [CompactRange] returns a compaction exactly if
    a file of the level touches the range; in level 0 it takes the files that the range
    reaches in this way, and in the other levels the files that touch the range, up to the
    one that reaches the size limit.  Both then add the files of the next level in the
    range of the inputs, and more files of the level only if they need no more files of
    the next one; the inputs are closed under the overlaps that the merge depends on, and
    the version set changes by a reference and by the compaction pointer only. *)
Theorem pick_complete (user : Comparator) (Huser : ComparatorLaws any_key user) {W} (s : version_set W) (v : version)
    (Hcur : current_ s = Ok v) (Hv : levels_ok user v) (Hfin : finalized v) (Hseek : seek_ok v) (Hp : length (VersionSet.compact_pointer_ s) = 7%nat) :
  (∃ r, PickCompaction user s = Ok r ∧ NeedsCompaction s = Ok (bool_decide (is_Some r.1)) ∧
    match r.1 with
    | Some c => picks user v s r.2 c ∧ ∃ f seed, first_of user v (VersionSet.compact_pointer_ s) (level_ c) f ∧
        match level_ c with O => reach_range user v 0 (smallest f, largest f) seed | S _ => seed = [f] end ∧ grown user v (level_ c) seed (inputs0_ c) (inputs1_ c) ∧
        gapless user (inputs0_ c ++ inputs1_ c)
    | None => r.2 = s
    end) ∧
  (∀ level begin end_, (S level < 7)%nat → ∃ r, CompactRange user level begin end_ s = Ok r ∧
    let b := ExtractUserKey <$> begin in
    let e := ExtractUserKey <$> end_ in
    match r.1 with
    | Some c => picks user v s r.2 c ∧ level_ c = level ∧ (∃ f, f ∈ level_files v level ∧ touches user b e f = true) ∧
        ∃ asked seed, reach user v level b e asked ∧
          match level with O => seed = asked | S _ => cut_at (MaxFileSizeForLevel level) 0 asked seed end ∧ grown user v level seed (inputs0_ c) (inputs1_ c)
    | None => r.2 = s ∧ ∀ f, f ∈ level_files v level → touches user b e f = false
    end).
Proof.
  split.
  - unfold PickCompaction, NeedsCompaction. rewrite Hcur. cbn [mbind outcome_bind].
    destruct (pick_first_spec user v (VersionSet.compact_pointer_ s) Hv Hfin Hseek Hp) as ([[level f]|] & -> & Hr); cbn [mbind outcome_bind].
    2: { exists (None, s). split; [done|]. split; [|done]. f_equal. exact Hr. }
    destruct Hr as (Hl & Hf & Hfirst & Hneed). rewrite Hneed.
    assert (∃ inputs0, match level with
                | O => range ← GetRange user [f]; inputs ← GetOverlappingInputs user v 0 (Some range.1) (Some range.2);
                       match (inputs : list FileMetaData) with [] => Ub AssertionFailed | _ => Ok inputs end
                | S _ => Ok [f] end = Ok inputs0 ∧ closed user v level inputs0 ∧
                match level with O => reach_range user v 0 (smallest f, largest f) inputs0 | S _ => inputs0 = [f] end) as (inputs0 & -> & Hc & Hseed).
    { destruct level as [|level]; [|exists [f]; split; [done|]; split; [apply closed_one; [lia | done] | done]]. cbn [GetRange for_loop mbind outcome_bind].
      destruct (overlapping_files user v 0 (smallest f, largest f) Hv ltac:(lia)) as (l & El & H1 & H2 & _ & H4). cbn [fst snd] in *. rewrite El. cbn [mbind outcome_bind].
      pose proof (user_range user f (vl_ranges user v Hv 0 f Hf)) as Hrange. assert (f ∈ l) as Hin by (by apply H2).
      pose proof (GetOverlappingInputs_reach user v 0 _ _ l Hv ltac:(lia) El) as Hreach.
      destruct l as [|g l]; [by apply elem_of_nil in Hin|]. eexists. split; [reflexivity|]. split; [|exact Hreach]. split; [done|]. split; [done|]. intros _ h1 h2. by apply H4. }
    cbn [mbind outcome_bind]. destruct (setup_spec user level inputs0 s v Hcur Hv Hl Hc Hp) as (c & s' & -> & Hpk & <- & Hsub & Hgrown). exists (Some c, s'). split; [done|]. split; [done|].
    split; [done|]. exists f, inputs0. split; [done|]. split; [done|]. split; [done|]. apply (grown_gapless user v (level_ c) inputs0); [done | done | apply (cc_inputs0 _ _ _ _ _ (pk_complete user v c (proj1 Hpk))) | done|].
    destruct (level_ c); [by apply (gapless_reach user v f) | subst inputs0; apply gapless_one].
  - intros level begin end_ Hl. unfold CompactRange. rewrite Hcur. cbn [mbind outcome_bind].
    destruct (overlapping_inputs user Huser v level ltac:(lia) begin end_) as (l & E & H1 & H2 & _ & H4). rewrite E. cbn [mbind outcome_bind].
    pose proof (GetOverlappingInputs_reach user v level begin end_ l Hv ltac:(lia) E) as Hreach.
    destruct l as [|f l]; [exists (None, s); split; [done|]; split; [done|]; intros f Hf; apply not_true_is_false; intros Ht; by apply (H2 f Hf), elem_of_nil in Ht|].
    set (seed := if bool_decide (0 < level)%nat then limit_inputs (MaxFileSizeForLevel level) 0 (f :: l) else f :: l). assert (closed user v level seed) as Hc.
    { unfold seed. case_bool_decide as Hpos; [|split; [done|]; split; [done|]; intros Elv g h Hg Hh Hm; apply (H4 Elv g h Hg Hh); by apply (touches_meet user)].
      split; [done|]. split; [|lia]. intros g Hg. apply H1. by eapply limit_inputs_sub. }
    destruct (setup_spec user level seed s v Hcur Hv Hl Hc Hp) as (c & s' & -> & Hpk & El & _ & Hgrown). exists (Some c, s'). split; [done|]. split; [done|]. split; [done|].
    split; [by apply (reach_touches user v level _ _ (f :: l))|]. exists (f :: l), seed. split; [done|]. split; [|done].
    destruct level as [|level]; [done|]. unfold seed. rewrite bool_decide_true by lia. apply limit_inputs_cut.
Qed.

(** Three files of level 0: the first two have a key in common, and a search that missed
    the first one asks for its compaction. *)
Definition demo_version2 : version :=
  let v := VersionSet.Finalize (new_version [[demo_file 11; demo_file 5; demo_file 6]; []; []; []; []; []; []]) in
  mkVersion (files_ v) (Some (0%nat, 0%nat)) 0 (compaction_score_ v) (compaction_level_ v).
Definition demo_set2 : version_set unit := mkVersionSet 20 2 9 3 0 None (replicate 7 []) [mkNode 1 demo_version2].

Lemma demo2_levels l : level_files demo_version2 (S l) = [].
Proof. do 7 (destruct l as [|l]; [done|]). done. Qed.
Lemma demo2_file f l : f ∈ level_files demo_version2 l → l = 0%nat ∧ (f = demo_file 11 ∨ f = demo_file 5 ∨ f = demo_file 6).
Proof.
  destruct l as [|l]; [|rewrite demo2_levels; by intros ?%elem_of_nil]. change (level_files demo_version2 0) with [demo_file 11; demo_file 5; demo_file 6].
  rewrite !elem_of_cons, elem_of_nil. tauto.
Qed.
Lemma demo2_holds l f : f ∈ level_files demo_version2 l → file_holds BytewiseComparator demo_contents f ∧ TableReads BytewiseComparator demo_contents demo_table_get f.
Proof. intros (_ & [->|[->| ->]])%demo2_file; apply demo_holds; apply (bool_decide_unpack _); vm_compute; exact I. Qed.
Lemma demo2_levels_ok : levels_ok BytewiseComparator demo_version2.
Proof.
  split; [done | intros l f Hf; apply (demo2_holds l f Hf) | |].
  - intros [|l]; [|rewrite demo2_levels; constructor]. change (level_files demo_version2 0) with [demo_file 11; demo_file 5; demo_file 6].
    repeat first [apply SSorted_cons | apply SSorted_nil | apply Forall_cons; split | apply Forall_nil]; try done; left; vm_compute; reflexivity.
  - intros [|l]; [done|]. rewrite demo2_levels. unfold ordered. by rewrite orb_true_r.
Qed.
Lemma demo2_updates u : u ∈ version_updates demo_contents demo_version2 → u = mkUpd 7 kTypeValue (str "k") (str "seven") ∨ u = mkUpd 3 kTypeValue (str "k") (str "three") ∨ u = mkUpd 2 kTypeValue (str "m") (str "two").
Proof.
  intros Hu. change (u ∈ demo_update 11 ++ demo_update 5 ++ demo_update 6) in Hu. cbn in Hu. rewrite !elem_of_cons, elem_of_nil in Hu. tauto.
Qed.
Lemma demo2_ok : version_ok BytewiseComparator demo_contents demo_table_get demo_version2.
Proof.
  split; [done | apply demo2_holds | | | |].
  - intros [|l] Hl; [lia|]. rewrite demo2_levels. split; [by intros f ?%elem_of_nil | done | done].
  - intros [|[|[|i]]] [|[|[|j]]] f g Hij Hi Hj; try done; injection Hi as <-; injection Hj as <-; (split; [done|]); intros Hlt; try done;
      intros u w Hu Hw E; apply list_elem_of_singleton in Hu as ->; apply list_elem_of_singleton in Hw as ->; vm_compute in E |- *; congruence.
  - intros l [|m] Hlm; [lia|]. intros u w _ Hw. unfold level_updates in Hw. rewrite demo2_levels in Hw. by apply elem_of_nil in Hw.
  - intros u w Hu Hw E Es. apply demo2_updates in Hu, Hw. destruct Hu as [->|[->| ->]], Hw as [->|[->| ->]]; vm_compute in Es; congruence || done.
Qed.
Lemma demo2_finalized : finalized demo_version2.
Proof. by split. Qed.
Lemma demo2_seek : seek_ok demo_version2.
Proof. intros p [= <-]. split; [done|]. split; [cbn; lia|]. by exists (demo_file 11). Qed.

(** The pick takes the two files with the key; a range from [m] on takes the third one. *)
Lemma pick_complete_witness : ∃ c s' c2 s2, PickCompaction BytewiseComparator demo_set2 = Ok (Some c, s') ∧ picks BytewiseComparator demo_version2 demo_set2 s' c ∧
  map number (inputs0_ c) = [11; 5] ∧ inputs1_ c = [] ∧
  CompactRange BytewiseComparator 0 (Some (ikey (str "m") kMaxSequenceNumber kValueTypeForSeek)) None demo_set2 = Ok (Some c2, s2) ∧
  picks BytewiseComparator demo_version2 demo_set2 s2 c2 ∧ map number (inputs0_ c2) = [6].
Proof.
  destruct (pick_complete BytewiseComparator bytewise_laws demo_set2 demo_version2 eq_refl demo2_levels_ok demo2_finalized demo2_seek eq_refl) as [([r s'] & E & _ & Hr) Hrange].
  destruct (Hrange 0%nat (Some (ikey (str "m") kMaxSequenceNumber kValueTypeForSeek)) None ltac:(lia)) as ([r2 s2] & E2 & Hr2). clear Hrange. cbv zeta in Hr2. cbn [fst snd] in Hr, Hr2.
  pose (result := PickCompaction BytewiseComparator demo_set2). pose (result2 := CompactRange BytewiseComparator 0 (Some (ikey (str "m") kMaxSequenceNumber kValueTypeForSeek)) None demo_set2).
  assert (match result with Ok (Some c, _) => bool_decide (map number (inputs0_ c) = [11; 5] ∧ inputs1_ c = []) | _ => false end = true) as H by (vm_compute; reflexivity).
  assert (match result2 with Ok (Some c, _) => bool_decide (map number (inputs0_ c) = [6]) | _ => false end = true) as H' by (vm_compute; reflexivity).
  unfold result in H. rewrite E in H. unfold result2 in H'. rewrite E2 in H'. clear result result2.
  destruct r as [c|]; [|exfalso; clear -H; congruence]. destruct r2 as [c2|]; [|exfalso; clear -H'; congruence].
  apply bool_decide_eq_true in H as [H1 H2]. apply bool_decide_eq_true in H'. exists c, s', c2, s2.
  split; [exact E|]. split; [exact (proj1 Hr)|]. split; [exact H1|]. split; [exact H2|]. split; [exact E2|]. split; [exact (proj1 Hr2) | exact H'].
Defined.

(** *** The run of a compaction *)

Lemma part_run user (Huser : ComparatorLaws any_key user) parts : StronglySorted (follows user) (concat parts) → (∀ u, u ∈ concat parts → seq_ok (u_seq u)) → Forall (run_ok user) parts.
Proof.
  intros Hs Hq. apply Forall_forall. intros p Hp. apply list_elem_of_lookup in Hp as [i Hp]. assert (p `sublist_of` concat parts) as Hsub.
  { clear -Hp. revert i Hp. induction parts as [|x parts IH]; intros i Hp; [done|]. cbn [concat]. destruct i as [|i]; [injection Hp as ->; by apply sublist_inserts_r|].
    apply sublist_inserts_l. by apply (IH i). }
  apply (run_sorted user). split; [by apply (StronglySorted_sublist (follows user) p (concat parts))|]. intros u Hu. apply Hq. by apply (elem_of_sublist p).
Qed.
Lemma outputs_of_tables user (Huser : ComparatorLaws any_key user) outs ts parts : Forall2 describes outs ts → Forall2 (λ (t : Z * list entry) p, t.2 = map row p) ts parts → Forall (run_ok user) parts → Forall2 (output_of user) outs parts.
Proof.
  intros Hd. revert parts. induction Hd as [|o t outs ts Ho Hd IH]; intros parts Ht Hp; inversion Ht as [|t' p ts' parts' E Ht']; subst; [constructor|].
  apply Forall_cons in Hp as [Hp Hps]. constructor; [by apply (describes_part user o t) | by apply IH].
Qed.

(** What the tables of the run are in the new version. *)
Definition reads_outputs (user : Comparator) (contents' : FileMetaData → list upd) (table_get' : table_cache) (w : compact_state) : Prop :=
  ∀ i o t, outputs w !! i = Some o → tables w !! i = Some t →
    t.2 = map row (contents' (out_file o)) ∧ run_ok user (contents' (out_file o)) ∧ TableReads user contents' table_get' (out_file o).

(** A compaction that was picked starts. *)
Lemma start_work_ok user v {W} (s : version_set W) c snapshots : current_ s = Ok v → picked user v c → blen (level_files v (level_ c)) < 2 ^ 31 →
  start_work snapshots c s = Ok (oldest_needed snapshots (VersionSet.last_sequence_ s)).
Proof.
  intros Hcur Hc Hsize. unfold start_work, NumLevelFiles. pose proof (pk_level user v c Hc). rewrite bool_decide_true by (unfold kNumLevels; lia). rewrite Hcur. cbn [mbind outcome_bind].
  pose proof (pk_complete user v c Hc) as Hcomp. pose proof (cc_nonempty _ _ _ _ _ Hcomp) as Hne. destruct (inputs0_ c) as [|f l] eqn:Ei; [done|].
  assert (f ∈ level_files v (level_ c)) as Hf by (apply (cc_inputs0 _ _ _ _ _ Hcomp); by left). destruct (level_files v (level_ c)) as [|g files]; [by apply elem_of_nil in Hf|].
  cbn [mbind outcome_bind]. assert (0 < blen (g :: files)) as Hpos by (unfold blen; cbn [length]; lia). rewrite s32_small by (clear -Hpos Hsize; lia). by rewrite (proj2 (Z.ltb_lt _ _)).
Qed.
(** The tables of a run, as the parts of what it kept. *)
Lemma outputs_parts user (Huser : ComparatorLaws any_key user) us kept : run_ok user us → kept `sublist_of` us → ∀ contents' table_get' w,
  Forall2 describes (outputs w) (tables w) → concat (map snd (tables w)) = map row kept → reads_outputs user contents' table_get' w →
  ∃ parts, concat parts = kept ∧ StronglySorted (follows user) kept ∧ Forall2 (output_of user) (outputs w) parts ∧
    ∀ i o q, outputs w !! i = Some o → parts !! i = Some q → contents' (out_file o) = q ∧ TableReads user contents' table_get' (out_file o).
Proof.
  intros Hrun Hsub contents' table_get' w Hd Hcat Hreads. assert (run_ok user kept) as Hkrun by (by apply (run_sublist user us)).
  destruct (table_parts (tables w) kept Hcat) as (parts & Hparts & Ht). pose proof (proj1 (run_sorted user kept) Hkrun) as [Hsorted Hseq]. exists parts. split; [done|]. split; [done|].
  split; [apply (outputs_of_tables user Huser _ (tables w)); [done | done | apply (part_run user Huser); by rewrite Hparts]|].
  intros i o q Ho Hq. destruct (tables w !! i) as [t|] eqn:Et; [|apply lookup_ge_None in Et; apply lookup_lt_Some in Ho; rewrite (Forall2_length _ _ _ Hd) in Ho; lia].
  destruct (Hreads i o t Ho Et) as (E1 & [_ E2] & Hr). split; [|done]. pose proof (Forall2_lookup_lr _ _ _ _ _ _ Ht Et Hq) as E3. cbn in E3.
  apply row_inj; [done | | congruence]. intros u Hu. apply Hseq. rewrite <- Hparts. apply list_elem_of_In, in_concat. exists q. split; apply list_elem_of_In; [by eapply list_elem_of_lookup_2 | done].
Qed.
(** The edit of a compaction that was picked. *)
Lemma installed_compaction user (Huser : ComparatorLaws any_key user) v (Hlv : levels_ok user v) c (Hc : picked user v c) w : static c (compact w) → let e := InstallCompactionResults w in
  VersionEdit.new_files_ e = map (λ o, (Z.of_nat (level_ c) + 1, new_file (out_number o) (out_file_size o) (out_smallest o) (out_largest o))) (outputs w) ∧
  Forall (λ q, level_ok q.1 ∧ q.2 ≠ []) (VersionEdit.compact_pointers_ e) ∧
  ∀ q, q ∈ VersionEdit.deleted_files_ e ↔ (∃ f, f ∈ inputs0_ c ∧ q = (Z.of_nat (level_ c), number f)) ∨ (∃ f, f ∈ inputs1_ c ∧ q = (Z.of_nat (S (level_ c)), number f)).
Proof.
  intros Hst. destruct (installed_edit c w Hst) as (Hnew & Hptr & Hdel). destruct (pk_edit user v c Hc) as (f0 & Hf0 & _ & Eedit). rewrite Eedit in Hnew, Hptr, Hdel. cbn in Hnew, Hptr.
  split; [exact Hnew|]. split; [|intros q; rewrite Hdel; cbn; rewrite elem_of_nil; tauto].
  rewrite Hptr. pose proof (pk_level user v c Hc). apply Forall_singleton. cbn [fst snd]. split; [unfold level_ok, kNumLevels; lia|]. apply ikey_nonempty.
  apply (vl_ranges user v Hlv (level_ c) f0). by apply (cc_inputs0 _ _ _ _ _ (pk_complete user v c Hc)).
Qed.

(** C11: Installing a compaction changes no lookup, as long as no user key is split.  Let
    a compaction be picked on a current version that satisfies the invariant and in which
    no user key is split over two files of the levels it merges (the code does not ensure
    this while an old snapshot is held).  [DoCompactionWork] takes the oldest snapshot and
    merges the inputs.  Until it installs its edit, memtables may be compacted: they add
    files to the current version, either none or the inputs leave no gap.  If the merge
    runs to its end and its tables are read as they were written, the builder accepts the
    edit for the version that is current then; the new version satisfies the invariant
    again, and for every key and every snapshot that may still be read, a lookup in it
    finds what it found in the version it replaces.  If no snapshot is older than an
    update of the inputs, a level in which no user key was split has none that is split
    afterwards. *)
Theorem compaction_installed (user : Comparator) (Huser : ComparatorLaws any_key user) {T} (input : IteratorOps T)
    (us : list upd) (starget : list byte → Prop) (shows : T → nat → Prop)
    (HI : CursorLaws input (InternalKeyComparator.Compare user) starget (map row us) shows) (Hrun : run_ok user us)
    (contents contents' : FileMetaData → list upd) (table_get table_get' : table_cache)
    {W} (s : version_set W) (v : version) (Hcurrent : current_ s = Ok v) (Hv : version_ok user contents table_get v) (Hlv : levels_ok user v)
    (c : compaction) (Hc : picked user v c) (Hsize : blen (level_files v (level_ c)) < 2 ^ 31)
    (Hsplit0 : (0 < level_ c)%nat → unsplit user (level_files v (level_ c))) (Hsplit1 : unsplit user (level_files v (S (level_ c))))
    (Hus : ∀ u, u ∈ us ↔ ∃ f, f ∈ inputs0_ c ++ inputs1_ c ∧ u ∈ contents f)
    (snapshots : list Z) (Hsnap : oldest_needed snapshots (VersionSet.last_sequence_ s) < kMaxSequenceNumber)
    (env : environment) (Hpos : ∀ n, new_file_number env n ≠ 0) (Hinj : ∀ m n, new_file_number env m = new_file_number env n → m = n)
    (Hmono : ∀ i j, (i ≤ j)%nat → shutting_down env i = true → shutting_down env j = true)
    (fuel : nat) (Hfuel : (length us ≤ fuel)%nat) (it : T) (p : nat) (Hit : shows it p)
    (cur : version) (Hcv : version_ok user contents table_get cur) (Hcl : levels_ok user cur) (Hfl : flushed user contents v cur)
    (Hgap : (∀ l f, f ∈ level_files cur l → f ∈ level_files v l) ∨ gapless user (inputs0_ c ++ inputs1_ c))
    (Hnums : ∀ l, NoDup (map number (level_files cur l))) (Hfresh : ∀ n l f, f ∈ level_files cur l → number f ≠ new_file_number env n)
    (Hold : ∀ l f, f ∈ level_files cur l → contents' f = contents f ∧ TableReads user contents' table_get' f)
    (pointers : list (list byte)) (Hp : length pointers = 7%nat) :
  ∃ snap, start_work snapshots c s = Ok snap ∧ snap = oldest_needed snapshots (VersionSet.last_sequence_ s) ∧
  ∃ st edit w, DoCompactionWork user env snap input fuel it c = Ok (st, edit, w) ∧ (ok st = false → edit = None) ∧
    (ok st = true → reads_outputs user contents' table_get' w →
      ∃ e b v', edit = Some e ∧ Apply user e (VersionBuilder.new cur pointers) = Ok b ∧ SaveTo user b = Ok v' ∧ levels_ok user v' ∧
        ((∀ l, blen (level_files v' l) < 2 ^ 31) → version_ok user contents' table_get' v' ∧
          (∀ k s, snap ≤ s → found (visible user k s (version_updates contents' v')) = found (visible user k s (version_updates contents cur))) ∧
          ((∀ u, u ∈ us → u_seq u ≤ snap) → ∀ l, (0 < l)%nat → unsplit user (level_files cur l) → unsplit user (level_files v' l)))).
Proof.
  exists (oldest_needed snapshots (VersionSet.last_sequence_ s)). split; [by apply (start_work_ok user v)|]. split; [done|]. set (snap := oldest_needed _ _) in *.
  assert (∀ lvl, lvl ∈ seq (level_ c + 2) (Z.to_nat kNumLevels - (level_ c + 2)) → level_sorted user (level_files v lvl)) as Hlevels.
  { intros lvl Hl%elem_of_seq. apply (vo_sorted _ _ _ _ Hv). lia. }
  assert (∀ g, g ∈ grandparents_ c → largest g ≠ []) as Hgp.
  { intros g Hg. apply ikey_nonempty. apply (vl_ranges user v Hlv (S (S (level_ c))) g). by apply (pk_grandparents user v c Hc). }
  destruct (DoCompactionWork_spec user snap Hsnap v (level_ c) Hlevels env Hpos input us starget shows HI Hrun c (conj eq_refl (pk_version user v c Hc)) Hgp fuel it p Hit (pk_fresh user v c Hc) Hfuel Hmono)
    as (st & edit & w & E & Hno & Hyes). exists st, edit, w. split; [exact E|]. split; [done|]. intros Hs Hreads.
  destruct (Hyes Hs) as (-> & Hst & Hd & Hcat). rewrite (pk_fresh user v c Hc) in Hcat. set (kept := keep _ _ _ _ _ _ _) in Hcat. clear Hno Hyes Hs.
  pose proof (keep_sublist user snap v (level_ c) us new_key_state (replicate (Z.to_nat kNumLevels) 0%nat)) as Hsub. fold kept in Hsub.
  destruct (outputs_parts user Huser us kept Hrun Hsub contents' table_get' w Hd Hcat Hreads) as (parts & Hparts & Hsorted & Houts & Hout).
  destruct (installed_compaction user Huser v Hlv c Hc w Hst) as (Hnew & Hptr & Hdel). set (e := InstallCompactionResults w) in *.
  pose proof (numbers_run user env snap input fuel it c _ _ w E) as Hn. unfold numbers_ok in Hn.
  assert (NoDup (map out_number (outputs w))) as Hnodup by (rewrite Hn; apply NoDup_fmap_2; [intros x y; apply Hinj | apply NoDup_seq]).
  assert (∀ o, o ∈ outputs w → ∀ l f, f ∈ level_files cur l → number f ≠ out_number o) as Hfr.
  { intros o Ho l f Hf. assert (out_number o ∈ map out_number (outputs w)) as Hin by (by apply list_elem_of_fmap_2). rewrite Hn in Hin. apply list_elem_of_fmap in Hin as (n & -> & _). by apply (Hfresh n l). }
  assert (∀ u, u ∈ kept → u ∈ us) as Hkept by (intros u; apply keep_elem).
  destruct (compaction_edit_applies user contents contents' table_get table_get' v Hv Hlv cur Hcv Hcl Hnums Hfl c Hc Hgap Hsplit0 Hsplit1 us Hus kept Hkept (outputs w) parts Hparts Hsorted Houts e Hdel Hnew Hptr Hnodup Hfr Hout pointers Hp)
    as (b & v' & Eb & Ev & Hlv' & Hfiles). exists e, b, v'. split; [done|]. split; [exact Eb|]. split; [exact Ev|]. split; [done|]. intros Hcount.
  split; [by apply (new_version_ok user contents contents' table_get table_get' v Hv Hlv cur Hcv Hfl c Hc Hgap Hsplit0 Hsplit1 us Hus kept Hkept (outputs w) parts Hparts Houts Hold Hout v' Hlv' Hfiles)|]. split.
  - intros k s'' Hle. by apply (new_version_reads user contents contents' table_get table_get' v Hv Hlv cur Hcv Hcl Hfl c Hc Hgap Hsplit0 Hsplit1 us Hrun Hus kept Hkept (outputs w) parts Hparts Houts Hold Hout v' Hlv' Hfiles Hcount snap).
  - intros Hle l Hl. apply (new_version_unsplit user contents contents' table_get table_get' v Hv Hlv cur Hcv Hcl Hfl c Hc Hgap Hsplit0 Hsplit1 us Hus kept Hkept (outputs w) parts Hparts Hsorted Houts Hold Hout v' Hlv' Hfiles Hcount l Hl).
    by apply keep_new_distinct.
Qed.

(** The compaction of the two files at level 0 that hold versions of a key. *)
Definition demo_updates2 : list upd := [mkUpd 7 kTypeValue (str "k") (str "seven"); mkUpd 3 kTypeValue (str "k") (str "three")].
Definition demo_update2 (n : Z) : list upd := if n =? 100 then [mkUpd 7 kTypeValue (str "k") (str "seven")] else demo_update n.
Definition demo_contents2 (f : FileMetaData) : list upd := demo_update2 (number f).
Definition demo_table_get2 (n size : Z) (t : list byte) : outcome (status * option entry) :=
  let es := map row (demo_update2 n) in
  Ok (status_ok, es !! lower_bound (InternalKeyComparator.Compare BytewiseComparator) es t).

Lemma demo2_reads f : TableReads BytewiseComparator demo_contents2 demo_table_get2 f.
Proof. intros t _. cbv zeta. eexists. split; [reflexivity|]. unfold demo_contents2. by destruct (map row (demo_update2 (number f)) !! _). Qed.
Lemma demo2_closed : closed BytewiseComparator demo_version2 0 [demo_file 11; demo_file 5].
Proof.
  split; [done|]. split.
  - intros f Hf. change (f ∈ [demo_file 11; demo_file 5; demo_file 6]). rewrite !elem_of_cons in *. rewrite elem_of_nil in *. tauto.
  - intros _ f g Hf (_ & Hg)%demo2_file [_ M]. rewrite !elem_of_cons, elem_of_nil in *. destruct Hg as [->|[->| ->]]; [tauto | tauto|]. exfalso.
    destruct Hf as [->|[->|[]]]; vm_compute in M; congruence.
Qed.
Definition demo_compaction : compaction :=
  match setup BytewiseComparator 0 [demo_file 11; demo_file 5] demo_set2 with Ok (Some c, _) => c | _ => Compaction.new 0 demo_version2 [] [] [] end.
Lemma demo2_picked : picked BytewiseComparator demo_version2 demo_compaction.
Proof.
  destruct (setup_spec BytewiseComparator 0 [demo_file 11; demo_file 5] demo_set2 demo_version2 eq_refl demo2_levels_ok ltac:(lia) demo2_closed eq_refl) as (c & s' & E & [Hc _] & _).
  unfold demo_compaction. rewrite E. exact Hc.
Qed.
Lemma demo2_members u : u ∈ demo_updates2 ↔ ∃ f, f ∈ inputs0_ demo_compaction ++ inputs1_ demo_compaction ∧ u ∈ demo_contents f.
Proof.
  assert (inputs0_ demo_compaction ++ inputs1_ demo_compaction = [demo_file 11; demo_file 5]) as -> by (vm_compute; reflexivity). split.
  - intros Hu. unfold demo_updates2 in Hu. rewrite !elem_of_cons, elem_of_nil in Hu. destruct Hu as [->|[->|[]]]; [exists (demo_file 11) | exists (demo_file 5)]; (split; [cbn; set_solver | by left]).
  - intros (f & Hf & Hu). cbn in Hf. rewrite !elem_of_cons, elem_of_nil in Hf. destruct Hf as [->|[->|[]]]; apply list_elem_of_singleton in Hu as ->; [by left | right; by left].
Qed.
Lemma demo2_run : run_ok BytewiseComparator demo_updates2.
Proof.
  apply (run_sorted BytewiseComparator (Huser := bytewise_laws)). split.
  - repeat first [apply SSorted_cons | apply SSorted_nil | apply Forall_cons; split | apply Forall_nil]; vm_compute; reflexivity.
  - intros u Hu. unfold demo_updates2 in Hu. rewrite !elem_of_cons, elem_of_nil in Hu. destruct Hu as [->|[->|[]]]; split; vm_compute; congruence.
Qed.
(** While the compaction runs, a memtable that deletes the key is compacted into a file. *)
Definition demo_current : version := new_version [[demo_file 12; demo_file 11; demo_file 5; demo_file 6]; []; []; []; []; []; []].
Lemma demo3_levels l : level_files demo_current (S l) = [].
Proof. do 7 (destruct l as [|l]; [done|]). done. Qed.
Lemma demo3_file f l : f ∈ level_files demo_current l → l = 0%nat ∧ ∃ n, n ∈ [12; 11; 5; 6] ∧ f = demo_file n.
Proof.
  destruct l as [|l]; [|rewrite demo3_levels; by intros ?%elem_of_nil]. change (level_files demo_current 0) with (map demo_file [12; 11; 5; 6]). intros (n & -> & Hn)%list_elem_of_fmap. split; [done|]. by exists n.
Qed.
Lemma demo3_holds l f : f ∈ level_files demo_current l → file_holds BytewiseComparator demo_contents f ∧ TableReads BytewiseComparator demo_contents demo_table_get f.
Proof. intros (_ & n & Hn & ->)%demo3_file. apply demo_holds. rewrite !elem_of_cons in *. tauto. Qed.
Lemma demo3_levels_ok : levels_ok BytewiseComparator demo_current.
Proof.
  split; [done | intros l f Hf; apply (demo3_holds l f Hf) | |].
  - intros [|l]; [|rewrite demo3_levels; constructor]. change (level_files demo_current 0) with [demo_file 12; demo_file 11; demo_file 5; demo_file 6].
    repeat first [apply SSorted_cons | apply SSorted_nil | apply Forall_cons; split | apply Forall_nil]; try done; left; vm_compute; reflexivity.
  - intros [|l]; [done|]. rewrite demo3_levels. unfold ordered. by rewrite orb_true_r.
Qed.
Lemma demo3_updates u : u ∈ version_updates demo_contents demo_current → u = mkUpd 9 kTypeDeletion (str "k") [] ∨
  u = mkUpd 7 kTypeValue (str "k") (str "seven") ∨ u = mkUpd 3 kTypeValue (str "k") (str "three") ∨ u = mkUpd 2 kTypeValue (str "m") (str "two").
Proof.
  intros Hu. change (u ∈ demo_update 12 ++ demo_update 11 ++ demo_update 5 ++ demo_update 6) in Hu. cbn in Hu. rewrite !elem_of_cons, elem_of_nil in Hu. tauto.
Qed.
Lemma demo3_ok : version_ok BytewiseComparator demo_contents demo_table_get demo_current.
Proof.
  split; [done | apply demo3_holds | | | |].
  - intros [|l] Hl; [lia|]. rewrite demo3_levels. split; [by intros f ?%elem_of_nil | done | done].
  - intros [|[|[|[|i]]]] [|[|[|[|j]]]] f g Hij Hi Hj; try done; injection Hi as <-; injection Hj as <-; (split; [done|]); intros Hlt; try done;
      intros u w Hu Hw E; apply list_elem_of_singleton in Hu as ->; apply list_elem_of_singleton in Hw as ->; vm_compute in E |- *; congruence.
  - intros l [|m] Hlm; [lia|]. intros u w _ Hw. unfold level_updates in Hw. rewrite demo3_levels in Hw. by apply elem_of_nil in Hw.
  - intros u w Hu Hw E Es. apply demo3_updates in Hu, Hw. destruct Hu as [->|[->|[->| ->]]], Hw as [->|[->|[->| ->]]]; vm_compute in Es; congruence || done.
Qed.
Lemma demo3_flushed : flushed BytewiseComparator demo_contents demo_version2 demo_current.
Proof.
  split.
  - intros l f (-> & Hf)%demo2_file. change (f ∈ [demo_file 12; demo_file 11; demo_file 5; demo_file 6]). rewrite !elem_of_cons. tauto.
  - intros l f u w (-> & n & Hn & ->)%demo3_file Ho Hu Hw E. assert (n = 12) as ->.
    { rewrite !elem_of_cons, elem_of_nil in Hn. destruct Hn as [->|[->|[->|[->|[]]]]]; [done|..]; destruct Ho; change (level_files demo_version2 0) with [demo_file 11; demo_file 5; demo_file 6]; rewrite !elem_of_cons; tauto. }
    apply list_elem_of_singleton in Hu as ->. apply demo2_updates in Hw as [->|[->| ->]]; vm_compute in E |- *; congruence || done.
  - intros l m f g _ Hl (-> & _)%demo3_file. lia.
Qed.
Lemma demo3_gapless : gapless BytewiseComparator (inputs0_ demo_compaction ++ inputs1_ demo_compaction).
Proof.
  intros g Hg Ha. assert (inputs0_ demo_compaction ++ inputs1_ demo_compaction = [demo_file 11; demo_file 5]) as E by (vm_compute; reflexivity). rewrite E in *.
  destruct (Ha (demo_file 11) ltac:(by left)) as [H|H]; [exists false | exists true]; intros f Hf; rewrite !elem_of_cons, elem_of_nil in Hf; destruct Hf as [->|[->|[]]]; exact H.
Qed.
Lemma demo3_numbers l : NoDup (map number (level_files demo_current l)).
Proof. destruct l as [|l]; [apply (bool_decide_unpack _); vm_compute; exact I | rewrite demo3_levels; constructor]. Qed.
Lemma demo3_fresh n l f : f ∈ level_files demo_current l → number f ≠ new_file_number demo_env n.
Proof. cbn. intros (_ & m & Hm & ->)%demo3_file. rewrite !elem_of_cons, elem_of_nil in Hm. destruct Hm as [->|[->|[->|[->|[]]]]]; cbn; lia. Qed.
Lemma demo3_old l f : f ∈ level_files demo_current l → demo_contents2 f = demo_contents f ∧ TableReads BytewiseComparator demo_contents2 demo_table_get2 f.
Proof. intros (_ & m & Hm & ->)%demo3_file. rewrite !elem_of_cons, elem_of_nil in Hm. destruct Hm as [->|[->|[->|[->|[]]]]]; (split; [done | apply demo2_reads]). Qed.

Definition demo_work : outcome (status * option VersionEdit.version_edit * compact_state) :=
  DoCompactionWork BytewiseComparator demo_env 8 (list_cursor (InternalKeyComparator.Compare BytewiseComparator) (map row demo_updates2)) 2 2%nat demo_compaction.
Lemma demo2_outputs w : outputs w = [mkOutput 100 10 (ikey (str "k") 7 kTypeValue) (ikey (str "k") 7 kTypeValue)] → tables w = [(100, [row (mkUpd 7 kTypeValue (str "k") (str "seven"))])] →
  reads_outputs BytewiseComparator demo_contents2 demo_table_get2 w.
Proof.
  intros E1 E2 i o t. rewrite E1, E2. destruct i as [|i]; [|done]. cbn. intros [= <-] [= <-]. split; [done|]. split; [|apply demo2_reads].
  apply (run_sorted BytewiseComparator (Huser := bytewise_laws)). split; [repeat constructor|]. intros u ->%list_elem_of_singleton. split; vm_compute; congruence.
Qed.

(** What the run yields, as far as the check of the new version needs it. *)
Definition demo_installs (r : outcome (status * option VersionEdit.version_edit * compact_state)) : bool :=
  match r with
  | Ok (s, Some e, w) =>
      ok s && bool_decide (map out_number (outputs w) = [100] ∧ map out_file_size (outputs w) = [10] ∧ map out_smallest (outputs w) = [ikey (str "k") 7 kTypeValue] ∧
        map out_largest (outputs w) = [ikey (str "k") 7 kTypeValue] ∧ tables w = [(100, [row (mkUpd 7 kTypeValue (str "k") (str "seven"))])]) &&
      match Apply BytewiseComparator e (VersionBuilder.new demo_current (replicate 7 [])) with
      | Ok b => match SaveTo BytewiseComparator b with Ok v' => forallb (λ l, blen (level_files v' l) <? 100) (seq 0 7) | _ => false end
      | _ => false
      end
  | _ => false
  end.
Lemma demo_installs_reads s e w : demo_installs (Ok (s, Some e, w)) = true → s = status_ok ∧ reads_outputs BytewiseComparator demo_contents2 demo_table_get2 w ∧
  concat (map snd (tables w)) = [row (mkUpd 7 kTypeValue (str "k") (str "seven"))].
Proof.
  unfold demo_installs. rewrite !andb_true_iff, bool_decide_eq_true. intros [[Hs (H1 & H2 & H3 & H4 & H5)] _]. split; [by apply bool_decide_eq_true in Hs|]. split; [|by rewrite H5].
  apply demo2_outputs; [|done]. destruct (outputs w) as [|[n z a b] [|]]; try done. cbn [map out_number out_file_size out_smallest out_largest] in H1, H2, H3, H4. congruence.
Qed.
Lemma demo_installs_small s e w b v' : demo_installs (Ok (s, Some e, w)) = true → Apply BytewiseComparator e (VersionBuilder.new demo_current (replicate 7 [])) = Ok b →
  SaveTo BytewiseComparator b = Ok v' → levels_ok BytewiseComparator v' → ∀ l, blen (level_files v' l) < 2 ^ 31.
Proof.
  unfold demo_installs. intros H Eb Ev Hv l. rewrite Eb, Ev in H. apply andb_true_iff in H as [_ H]. rewrite forallb_forall in H.
  destruct (decide (l < 7)%nat) as [Hl|Hl]; [specialize (H l ltac:(apply in_seq; lia)); lia|]. rewrite (levels_beyond BytewiseComparator) by (done || lia). done.
Qed.

(** The new file hides what the compaction keeps of the key. *)
Lemma compaction_installed_witness :
  ∃ w e b v', demo_work = Ok (status_ok, Some e, w) ∧
    Apply BytewiseComparator e (VersionBuilder.new demo_current (replicate 7 [])) = Ok b ∧ SaveTo BytewiseComparator b = Ok v' ∧
    concat (map snd (tables w)) = [row (mkUpd 7 kTypeValue (str "k") (str "seven"))] ∧
    (∀ k s, 8 ≤ s → found (visible BytewiseComparator k s (version_updates demo_contents2 v')) = found (visible BytewiseComparator k s (version_updates demo_contents demo_current))) ∧
    unsplit BytewiseComparator (level_files v' 1).
Proof.
  destruct (compaction_installed BytewiseComparator bytewise_laws
    (list_cursor (InternalKeyComparator.Compare BytewiseComparator) (map row demo_updates2)) demo_updates2 (λ _, True) _ (list_cursor_laws _ _ _) demo2_run
    demo_contents demo_contents2 demo_table_get demo_table_get2 demo_set2 demo_version2 eq_refl demo2_ok demo2_levels_ok demo_compaction demo2_picked)
    with (snapshots := [8]) (env := demo_env) (fuel := 2%nat) (it := 2%nat) (p := 2%nat) (cur := demo_current) (pointers := replicate 7 ([] : list byte)) as (snap & _ & -> & st & edit & w & E & _ & Hyes).
  - vm_compute. reflexivity.
  - change (level_ demo_compaction) with 0%nat. lia.
  - intros i j f g _ Hi. change (level_ demo_compaction) with 0%nat in Hi. rewrite demo2_levels in Hi. by clear -Hi.
  - apply demo2_members.
  - vm_compute. reflexivity.
  - intros n. cbn. lia.
  - intros m n. cbn. lia.
  - done.
  - cbn. lia.
  - split; [reflexivity | cbn; lia].
  - apply demo3_ok.
  - apply demo3_levels_ok.
  - apply demo3_flushed.
  - right. apply demo3_gapless.
  - apply demo3_numbers.
  - apply demo3_fresh.
  - apply demo3_old.
  - reflexivity.
  - assert (demo_work = Ok (st, edit, w)) as E' by exact E. clear E. assert (demo_installs demo_work = true) as H by (vm_compute; reflexivity). rewrite E' in H. destruct edit as [e|]; [|exfalso; clear -H; by unfold demo_installs in H].
    destruct (demo_installs_reads st e w H) as (-> & Hr & Ht). destruct (Hyes eq_refl Hr) as (e' & b & v' & Ee & Eb & Ev & Hlv' & Hv'). clear Hyes. assert (e = e') as <- by (clear -Ee; congruence).
    exists w, e, b, v'. split; [exact E'|]. split; [exact Eb|]. split; [exact Ev|]. split; [exact Ht|].
    destruct (Hv' (demo_installs_small status_ok e w b v' H Eb Ev Hlv')) as (_ & Hreads & Hunsplit). split; [intros k s Hs; exact (Hreads k s Hs)|]. apply Hunsplit; [|clear; lia|].
    + clear. intros u Hu. unfold demo_updates2 in Hu. rewrite !elem_of_cons, elem_of_nil in Hu. destruct Hu as [->|[->|[]]]; cbn; lia.
    + clear. intros i j f g _ Hi. rewrite demo3_levels in Hi. by clear -Hi.
Defined.
