(* ===== verification/Snapshot.v ===== *)
(** * db/snapshot.h: the list of snapshots

    The live snapshots of a database are a circular doubly linked list with a dummy head,
    in the order in which they were taken; its oldest element bounds what a compaction may
    drop.  [snapshots] holds everything that was allocated, where a deleted snapshot is
    [None].  There is one list: the field [list_] of a snapshot, which only an assertion
    reads, is left out. *)
From Stdlib Require Import Sorting.Sorted.
From stdpp Require sorting.
From S2P Require Import Prelude.
From S2P Require Import Links.
From S2P Require Import Merger.
From S2P Require Import Compaction.
Import Compaction.

(** ** Definitions *)

Module Snapshot.

(** A pointer is the index of a snapshot, or [None] for the dummy head of the list. *)
Record SnapshotImpl := mkSnapshot { number_ : Z; prev_ : option nat; next_ : option nat }.
Record SnapshotList := mkSnapshots { list_prev : option nat; list_next : option nat; snapshots : list (option SnapshotImpl) }.

Definition new : SnapshotList := mkSnapshots None None [].
Definition snapshot_at (i : nat) (l : SnapshotList) : outcome SnapshotImpl :=
  match snapshots l !! i with Some (Some s) => Ok s | _ => Ub UseAfterFree end.
Definition set_snapshot (i : nat) (s : option SnapshotImpl) (l : SnapshotList) : SnapshotList :=
  mkSnapshots (list_prev l) (list_next l) (<[i := s]> (snapshots l)).
Definition set_next (p v : option nat) (l : SnapshotList) : outcome SnapshotList :=
  match p with
  | None => Ok (mkSnapshots (list_prev l) v (snapshots l))
  | Some i => s ← snapshot_at i l; Ok (set_snapshot i (Some (mkSnapshot (number_ s) (prev_ s) v)) l)
  end.
Definition set_prev (p v : option nat) (l : SnapshotList) : outcome SnapshotList :=
  match p with
  | None => Ok (mkSnapshots v (list_next l) (snapshots l))
  | Some i => s ← snapshot_at i l; Ok (set_snapshot i (Some (mkSnapshot (number_ s) v (next_ s))) l)
  end.

Definition empty (l : SnapshotList) : bool := bool_decide (list_next l = None).
(** The number of the snapshot at a pointer that is not the head. *)
Definition number_at (p : option nat) (l : SnapshotList) : outcome Z :=
  match p with Some i => s ← snapshot_at i l; Ok (number_ s) | None => Ub AssertionFailed end.
Definition oldest (l : SnapshotList) : outcome Z := if empty l then Ub AssertionFailed else number_at (list_next l) l.
Definition newest (l : SnapshotList) : outcome Z := if empty l then Ub AssertionFailed else number_at (list_prev l) l.

Definition New (seq : Z) (l : SnapshotList) : outcome (nat * SnapshotList) :=
  let i := length (snapshots l) in
  let l := mkSnapshots (list_prev l) (list_next l) (snapshots l ++ [Some (mkSnapshot seq (list_prev l) None)]) in
  s ← snapshot_at i l;
  l ← set_next (prev_ s) (Some i) l;
  s ← snapshot_at i l;
  l ← set_prev (next_ s) (Some i) l;
  Ok (i, l).
Definition Delete (i : nat) (l : SnapshotList) : outcome SnapshotList :=
  s ← snapshot_at i l;
  l ← set_next (prev_ s) (next_ s) l;
  s ← snapshot_at i l;
  l ← set_prev (next_ s) (prev_ s) l;
  Ok (set_snapshot i None l).

(** The start of [DoCompactionWork]. *)
Definition smallest_snapshot (l : SnapshotList) (last_sequence : Z) : outcome Z :=
  if empty l then Ok last_sequence else oldest l.

(** Calls of the database: [GetSnapshot] and [ReleaseSnapshot]. *)
Inductive call := GetSnapshot (last_sequence : Z) | ReleaseSnapshot (i : nat).
Definition run_call (c : call) (l : SnapshotList) : outcome SnapshotList :=
  match c with GetSnapshot seq => r ← New seq l; Ok r.2 | ReleaseSnapshot i => Delete i l end.

End Snapshot.

Import Snapshot.

(** *** The live snapshots, in the order in which they were taken *)

Definition live_step (c : call) (s : nat * list (nat * Z)) : nat * list (nat * Z) :=
  match c with
  | GetSnapshot seq => (S s.1, s.2 ++ [(s.1, seq)])
  | ReleaseSnapshot i => (s.1, filter (λ x, x.1 ≠ i) s.2)
  end.
Fixpoint live (cs : list call) (s : nat * list (nat * Z)) : nat * list (nat * Z) :=
  match cs with [] => s | c :: cs => live cs (live_step c s) end.
(** A snapshot is released once; sequence numbers do not go back. *)
Fixpoint calls_ok (cs : list call) (last_sequence : Z) (s : nat * list (nat * Z)) : Prop :=
  match cs with
  | [] => True
  | c :: cs => match c with
               | GetSnapshot seq => last_sequence ≤ seq ∧ calls_ok cs seq (live_step c s)
               | ReleaseSnapshot i => i ∈ s.2.*1 ∧ calls_ok cs last_sequence (live_step c s)
               end
  end.

Fixpoint last_of (cs : list call) (last_sequence : Z) : Z :=
  match cs with [] => last_sequence | GetSnapshot seq :: cs => last_of cs seq | _ :: cs => last_of cs last_sequence end.

(** ** Lemmas *)

Definition nx (l : SnapshotList) (p : option nat) : option (option nat) :=
  match p with None => Some (list_next l) | Some i => match snapshots l !! i with Some (Some s) => Some (next_ s) | _ => None end end.
Definition pv (l : SnapshotList) (p : option nat) : option (option nat) :=
  match p with None => Some (list_prev l) | Some i => match snapshots l !! i with Some (Some s) => Some (prev_ s) | _ => None end end.
Definition num (l : SnapshotList) (i : nat) : option Z :=
  match snapshots l !! i with Some (Some s) => Some (number_ s) | _ => None end.

(** The list of the snapshots [xs]. *)
Record shows (l : SnapshotList) (xs : list (nat * Z)) : Prop := mkShows {
  sh_links : dseg (nx l) (pv l) None xs.*1 None;
  sh_nodup : NoDup xs.*1;
  sh_numbers : ∀ i n, (i, n) ∈ xs → num l i = Some n
}.

Lemma snapshot_next_spec l p n v : nx l p = Some n → ∃ l', set_next p v l = Ok l' ∧ length (snapshots l') = length (snapshots l) ∧
  (∀ q, nx l' q = if decide (q = p) then Some v else nx l q) ∧ (∀ q, pv l' q = pv l q) ∧ (∀ i, num l' i = num l i).
Proof.
  destruct p as [i|]; cbn [set_next]; intros Hn.
  - cbn in Hn. unfold snapshot_at. destruct (snapshots l !! i) as [[s|]|] eqn:Hi; try done. pose proof (lookup_lt_Some _ _ _ Hi) as Hlt.
    cbn [mbind outcome_bind]. eexists. split; [reflexivity|]. split; [apply length_insert|].
    assert (∀ j, snapshots (set_snapshot i (Some (mkSnapshot (number_ s) (prev_ s) v)) l) !! j =
      if decide (j = i) then Some (Some (mkSnapshot (number_ s) (prev_ s) v)) else snapshots l !! j) as E.
    { intros j. cbn. case_decide as Ej; [subst j; by apply list_lookup_insert_eq | by apply list_lookup_insert_ne]. }
    split_and!; [intros [j|] | intros [j|] | intros j]; unfold nx, pv, num; rewrite ?E; try done; destruct (decide (j = i)) as [->|]; rewrite ?Hi; try done;
      [by rewrite decide_True | by rewrite decide_False by congruence].
  - eexists. split; [reflexivity|]. split_and!; [done | by intros [j|] | by intros [j|] | done].
Qed.
Lemma snapshot_prev_spec l p n v : pv l p = Some n → ∃ l', set_prev p v l = Ok l' ∧ length (snapshots l') = length (snapshots l) ∧
  (∀ q, pv l' q = if decide (q = p) then Some v else pv l q) ∧ (∀ q, nx l' q = nx l q) ∧ (∀ i, num l' i = num l i).
Proof.
  destruct p as [i|]; cbn [set_prev]; intros Hn.
  - cbn in Hn. unfold snapshot_at. destruct (snapshots l !! i) as [[s|]|] eqn:Hi; try done. pose proof (lookup_lt_Some _ _ _ Hi) as Hlt.
    cbn [mbind outcome_bind]. eexists. split; [reflexivity|]. split; [apply length_insert|].
    assert (∀ j, snapshots (set_snapshot i (Some (mkSnapshot (number_ s) v (next_ s))) l) !! j =
      if decide (j = i) then Some (Some (mkSnapshot (number_ s) v (next_ s))) else snapshots l !! j) as E.
    { intros j. cbn. case_decide as Ej; [subst j; by apply list_lookup_insert_eq | by apply list_lookup_insert_ne]. }
    split_and!; [intros [j|] | intros [j|] | intros j]; unfold nx, pv, num; rewrite ?E; try done; destruct (decide (j = i)) as [->|]; rewrite ?Hi; try done;
      [by rewrite decide_True | by rewrite decide_False by congruence].
  - eexists. split; [reflexivity|]. split_and!; [done | by intros [j|] | by intros [j|] | done].
Qed.

Lemma snapshot_at_links l i p n : nx l (Some i) = Some n → pv l (Some i) = Some p → ∃ s, snapshot_at i l = Ok s ∧ next_ s = n ∧ prev_ s = p ∧ num l i = Some (number_ s).
Proof.
  cbn. unfold snapshot_at, num. destruct (snapshots l !! i) as [[s|]|]; try done. intros [= <-] [= <-]. by exists s.
Qed.

(** Nothing in the list is a pointer to a later allocation. *)
Lemma shows_fresh l xs i n : shows l xs → (i, n) ∈ xs → (i < length (snapshots l))%nat.
Proof.
  intros H Hi. pose proof (sh_numbers _ _ H i n Hi) as E. unfold num in E. destruct (snapshots l !! i) as [[s|]|] eqn:Ei; try done. by eapply lookup_lt_Some.
Qed.

Lemma New_spec l xs seq : shows l xs → ∃ l', New seq l = Ok (length (snapshots l), l') ∧ length (snapshots l') = S (length (snapshots l)) ∧
  shows l' (xs ++ [(length (snapshots l), seq)]).
Proof.
  intros H. pose proof (sh_links _ _ H) as Hd. pose proof (dseg_lastp _ _ _ _ _ Hd) as [Hp Hn]. cbn in Hp. injection Hp as Hp.
  set (x := length (snapshots l)). set (p := lastp None xs.*1) in *.
  assert (x ∉ xs.*1) as Hx.
  { intros ([i n] & E & Hi)%list_elem_of_fmap. pose proof (shows_fresh _ _ _ _ H Hi). cbn in E. subst x. lia. }
  assert (p ≠ Some x) as Hpx.
  { destruct (lastp_in None xs.*1) as [E|(y & E & Hy)%list_elem_of_fmap]; fold p in E; rewrite E; [done|]. by intros [= ->]. }
  unfold New. fold x. set (l0 := mkSnapshots (list_prev l) (list_next l) (snapshots l ++ [Some (mkSnapshot seq (list_prev l) None)])).
  assert (∀ i, snapshots l0 !! i = if decide (i = x) then Some (Some (mkSnapshot seq p None)) else snapshots l !! i) as El0.
  { intros i. cbn [snapshots l0]. case_decide as E; [subst i; rewrite lookup_app_r, Nat.sub_diag by done; by rewrite Hp|].
    destruct (decide (i < x)%nat); [by rewrite lookup_app_l|]. rewrite !lookup_ge_None_2; [done | rewrite ?length_app; cbn; subst x; lia ..]. }
  assert (∀ q, nx l0 q = if decide (q = Some x) then Some None else nx l q) as Hn0.
  { intros [i|]; unfold nx; [|done]. rewrite El0. destruct (decide (i = x)) as [->|]; [by rewrite decide_True | by rewrite decide_False by congruence]. }
  assert (∀ q, pv l0 q = if decide (q = Some x) then Some p else pv l q) as Hp0.
  { intros [i|]; unfold pv; [|done]. rewrite El0. destruct (decide (i = x)) as [->|]; [by rewrite decide_True | by rewrite decide_False by congruence]. }
  destruct (snapshot_at_links l0 x p None) as (s0 & -> & _ & Ep0 & _); [rewrite Hn0, decide_True by done; done | rewrite Hp0, decide_True by done; done|].
  cbn [mbind outcome_bind]. rewrite Ep0.
  destruct (snapshot_next_spec l0 p None (Some x)) as (l1 & -> & Hl1 & Hn1 & Hp1 & Hm1); [by rewrite Hn0, decide_False|]. cbn [mbind outcome_bind].
  destruct (snapshot_at_links l1 x p None) as (s1 & -> & En1 & _ & _); [by rewrite Hn1, decide_False, Hn0, decide_True by done | by rewrite Hp1, Hp0, decide_True|].
  cbn [mbind outcome_bind]. rewrite En1.
  destruct (snapshot_prev_spec l1 None (list_prev l1) (Some x) eq_refl) as (l2 & -> & Hl2 & Hp2 & Hn2 & Hm2). cbn [mbind outcome_bind].
  exists l2. split; [done|]. split; [rewrite Hl2, Hl1; cbn; rewrite length_app; cbn; lia|].
  assert (NoDup (xs.*1 ++ [x])) as Hnd.
  { apply NoDup_app. split; [apply (sh_nodup _ _ H)|]. split; [|apply NoDup_singleton]. by intros y Hy ->%list_elem_of_singleton. }
  split; rewrite ?fmap_app; cbn [fmap list_fmap fst].
  - apply (dseg_append (nx l) (pv l)); [done | done| |].
    + intros q. rewrite Hn2, Hn1, Hn0. fold p. by repeat case_decide.
    + intros q. rewrite Hp2, Hp1, Hp0. fold p. by repeat case_decide.
  - done.
  - intros i n [Hi|Hi%list_elem_of_singleton]%elem_of_app; rewrite Hm2, Hm1; unfold num; rewrite El0.
    + rewrite decide_False; [by apply (sh_numbers _ _ H)|]. intros ->. apply Hx. by apply (list_elem_of_fmap_2 fst _ (x, n)).
    + injection Hi as -> ->. by rewrite decide_True.
Qed.

Lemma split_at (xs : list (nat * Z)) i : i ∈ xs.*1 → ∃ l n k, xs = l ++ (i, n) :: k.
Proof. intros ([j n] & -> & (l & k & ->)%list_elem_of_split)%list_elem_of_fmap. by exists l, n, k. Qed.

Lemma filter_others (l k : list (nat * Z)) i n : NoDup (l ++ (i, n) :: k).*1 → filter (λ x, x.1 ≠ i) (l ++ (i, n) :: k) = l ++ k.
Proof.
  rewrite fmap_app. cbn. intros (H1 & H2 & [H3 H4]%NoDup_cons)%NoDup_app. rewrite filter_app, filter_cons_False by (cbn; tauto).
  rewrite !filter_all; [done | |].
  - intros x Hx E. apply H3. rewrite <- E. by apply list_elem_of_fmap_2.
  - intros x Hx E. apply (H2 x.1); [by apply list_elem_of_fmap_2 | rewrite E; by left].
Qed.

Lemma Delete_spec l xs i : shows l xs → i ∈ xs.*1 → ∃ l', Delete i l = Ok l' ∧ length (snapshots l') = length (snapshots l) ∧
  shows l' (filter (λ x, x.1 ≠ i) xs).
Proof.
  intros H (h & n0 & k & ->)%split_at. pose proof (sh_nodup _ _ H) as Hnd. pose proof (filter_others _ _ _ _ Hnd) as ->.
  pose proof (sh_links _ _ H) as Hd. pose proof Hd as Hd'. rewrite fmap_app in Hd', Hnd. cbn [fmap list_fmap fst] in Hd', Hnd. change (list_fmap _ _ fst k) with (k.*1) in *.
  apply dseg_app in Hd' as [Hl Hk]. apply dseg_lastp in Hl as [Hpi Hnp]. apply dseg_headp in Hk as [Hni Hpn].
  set (p := lastp None h.*1) in *. set (n := headp k.*1 None) in *. unfold Delete.
  pose proof Hnd as Hnd'. apply NoDup_app in Hnd' as (Hndh & Hhk & [Hik Hndk]%NoDup_cons).
  assert (p ≠ Some i) as Hpi'.
  { destruct (lastp_in None h.*1) as [E|(y & E & Hy)%list_elem_of_fmap]; fold p in E; rewrite E; [done|]. intros [= ->]. apply (Hhk i Hy). by left. }
  assert (n ≠ Some i) as Hni'.
  { unfold n. destruct k as [|[z nz] k]; [done|]. cbn. intros [= ->]. apply Hik. by left. }
  destruct (snapshot_at_links l i p n Hni Hpi) as (s0 & -> & En0 & Ep0 & _). cbn [mbind outcome_bind]. rewrite En0, Ep0.
  destruct (snapshot_next_spec l p (Some i) n Hnp) as (l1 & -> & Hl1 & Hn1 & Hp1 & Hm1). cbn [mbind outcome_bind].
  destruct (snapshot_at_links l1 i p n) as (s1 & -> & En1 & Ep1 & _); [by rewrite Hn1, decide_False | by rewrite Hp1|]. cbn [mbind outcome_bind]. rewrite En1, Ep1.
  destruct (snapshot_prev_spec l1 n (Some i) p) as (l2 & -> & Hl2 & Hp2 & Hn2 & Hm2); [by rewrite Hp1|]. cbn [mbind outcome_bind].
  eexists. split; [reflexivity|]. split; [cbn; by rewrite length_insert, Hl2, Hl1|].
  assert (i < length (snapshots l))%nat as Hlt by (apply (shows_fresh _ _ i n0 H); apply elem_of_app; right; by left).
  assert (∀ j, snapshots (set_snapshot i None l2) !! j = if decide (j = i) then Some None else snapshots l2 !! j) as E3.
  { intros j. cbn. case_decide as Ej; [subst j; apply list_lookup_insert_eq; by rewrite Hl2, Hl1 | by apply list_lookup_insert_ne]. }
  assert (∀ q, q ≠ Some i → nx (set_snapshot i None l2) q = nx l2 q ∧ pv (set_snapshot i None l2) q = pv l2 q) as E4.
  { intros [j|] Hq; [|done]. unfold nx, pv. by rewrite E3, decide_False by congruence. }
  assert (i ∉ (h ++ k).*1) as Hi.
  { rewrite fmap_app. intros [Hin|Hin]%elem_of_app; [|done]. apply (Hhk i Hin). by left. }
  rewrite fmap_app in Hi.
  split; rewrite ?fmap_app.
  - apply (dseg_frame (nx l2) (pv l2)).
    + rewrite fmap_app in Hd. apply (dseg_remove (nx l) (pv l) _ _ h.*1 i k.*1 Hd Hnd); intros q; [rewrite Hn2, Hn1 | rewrite Hp2, Hp1]; done.
    + intros q Hq. apply E4. intros ->. destruct Hq as [?|(y & [= ->] & Hy)%list_elem_of_fmap]; done.
    + intros q Hq. apply E4. intros ->. destruct Hq as [?|(y & [= ->] & Hy)%list_elem_of_fmap]; done.
  - apply NoDup_app. split_and!; try done. intros x Hx Hxk. apply (Hhk x Hx). by right.
  - intros j m Hj. unfold num. rewrite E3, decide_False.
    + fold (num l2 j). rewrite Hm2, Hm1. apply (sh_numbers _ _ H). apply elem_of_app. apply elem_of_app in Hj as [?|?]; [by left | right; by right].
    + intros ->. apply Hi. rewrite <- fmap_app. by apply (list_elem_of_fmap_2 fst _ (i, m)).
Qed.

(** What the list answers. *)
Lemma shows_answers l xs : shows l xs →
  empty l = bool_decide (xs = []) ∧ oldest l = match xs with [] => Ub AssertionFailed | x :: _ => Ok x.2 end ∧
  newest l = match last xs with None => Ub AssertionFailed | Some x => Ok x.2 end.
Proof.
  intros H. pose proof (sh_links _ _ H) as Hd. pose proof (dseg_headp _ _ _ _ _ Hd) as [Hn _]. pose proof (dseg_lastp _ _ _ _ _ Hd) as [Hp _].
  cbn in Hn, Hp. injection Hn as Hn. injection Hp as Hp. unfold oldest, newest.
  assert (empty l = bool_decide (xs = [])) as E by (unfold empty; rewrite Hn; by destruct xs). rewrite E. split; [done|].
  assert (∀ x, x ∈ xs → number_at (Some x.1) l = Ok x.2) as Hat.
  { intros [i n] Hi. pose proof (sh_numbers _ _ H i n Hi) as Hnum. cbn. unfold num, snapshot_at in *. destruct (snapshots l !! i) as [[s|]|]; try done. injection Hnum as <-. done. }
  destruct xs as [|x xs]; [done|]. cbn [bool_decide decide]. rewrite bool_decide_false by done. rewrite Hn, Hp. split; [apply Hat; by left|].
  unfold lastp. rewrite fmap_last. destruct (last (x :: xs)) as [y|] eqn:Ey; [|by apply last_None in Ey]. cbn. apply Hat.
  rewrite last_lookup in Ey. by eapply list_elem_of_lookup_2.
Qed.

(** The order in which the snapshots were taken is the order of their numbers. *)
Definition ordered (last_sequence : Z) (xs : list (nat * Z)) : Prop :=
  StronglySorted (λ x y, x.2 ≤ y.2) xs ∧ ∀ x, x ∈ xs → x.2 ≤ last_sequence.

Lemma ordered_filter last i xs : ordered last xs → ordered last (filter (λ x, x.1 ≠ i) xs).
Proof.
  intros [Hs Hl]. split; [|intros x [_ Hx]%list_elem_of_filter; by apply Hl].
  clear Hl. induction Hs as [|x xs Hs IH Hf]; [constructor|]. rewrite filter_cons. case_decide; [|done]. constructor; [done|].
  rewrite Forall_forall in Hf |- *. intros y [_ Hy]%list_elem_of_filter. by apply Hf.
Qed.
Lemma ordered_snoc last xs i seq : ordered last xs → last ≤ seq → ordered seq (xs ++ [(i, seq)]).
Proof.
  intros [Hs Hl] Hle. split.
  - apply sorting.StronglySorted_app. split_and!; [|done|by repeat constructor].
    intros x y Hx ->%list_elem_of_singleton. specialize (Hl x Hx). cbn. lia.
  - intros x [Hx| ->%list_elem_of_singleton]%elem_of_app; [specialize (Hl x Hx); lia | done].
Qed.

Lemma live_runs cs : ∀ l xs last, shows l xs → ordered last xs → calls_ok cs last (length (snapshots l), xs) →
  ∃ l', for_loop run_call cs l = Ok l' ∧ shows l' (live cs (length (snapshots l), xs)).2 ∧ ordered (last_of cs last) (live cs (length (snapshots l), xs)).2.
Proof.
  induction cs as [|c cs IH]; intros l xs last H Ho Hc; [by exists l|]. cbn [calls_ok for_loop live last_of] in *. destruct c as [seq|i]; destruct Hc as [H1 Hc]; cbn [live_step fst snd run_call] in *.
  - destruct (New_spec l xs seq H) as (l1 & -> & E & H'). cbn [mbind outcome_bind fst snd]. rewrite <- E in Hc |- *. apply IH; [done | by eapply ordered_snoc | done].
  - destruct (Delete_spec l xs i H H1) as (l1 & -> & E & H'). cbn [mbind outcome_bind]. rewrite <- E in Hc |- *. apply IH; [done | by apply ordered_filter | done].
Qed.

Lemma new_shows : shows new [].
Proof. split; [done | constructor | by intros i n ?%elem_of_nil]. Qed.

(** ** Properties *)

(** C24: The list of snapshots keeps the live snapshots.  After any sequence of
    [GetSnapshot] and [ReleaseSnapshot] in which every snapshot is released at most once
    and sequence numbers do not go back, the links of the list are intact, it is empty,
    has its oldest and its newest snapshot exactly as the list of the live snapshots in
    the order of their creation, no assertion fails and no released snapshot is read.
    The bound that a compaction takes from it, [smallest_snapshot], is not above any live
    snapshot nor above the last sequence number. *)
Theorem snapshots_refine (cs : list call) (first : Z) (Hcs : calls_ok cs first (0%nat, [])) :
  let xs := (live cs (0%nat, [])).2 in
  let last_sequence := last_of cs first in
  ∃ l, for_loop run_call cs new = Ok l ∧
    empty l = bool_decide (xs = []) ∧
    oldest l = match xs with [] => Ub AssertionFailed | x :: _ => Ok x.2 end ∧
    newest l = match last xs with None => Ub AssertionFailed | Some x => Ok x.2 end ∧
    smallest_snapshot l last_sequence = Ok (oldest_needed xs.*2 last_sequence) ∧
    oldest_needed xs.*2 last_sequence ≤ last_sequence ∧
    ∀ x, x ∈ xs → oldest_needed xs.*2 last_sequence ≤ x.2.
Proof.
  cbv zeta. destruct (live_runs cs new [] first new_shows) as (l & E & H & Ho); [split; [constructor | by intros x ?%elem_of_nil] | exact Hcs|].
  cbn [length new snapshots] in *. set (xs := (live cs (0%nat, [])).2) in *. exists l. destruct (shows_answers l xs H) as (E1 & E2 & E3).
  split; [done|]. split; [done|]. split; [done|]. split; [done|]. unfold smallest_snapshot. rewrite E1, E2. destruct Ho as [Hs Hl].
  destruct xs as [|x xs]; cbn [bool_decide]; [by rewrite bool_decide_true; [split; [|split; [|intros y ?%elem_of_nil]]|]|].
  rewrite bool_decide_false by done. split; [done|]. split; [apply Hl; by left|]. cbn. apply StronglySorted_inv in Hs as [_ Hf]. rewrite Forall_forall in Hf.
  intros y [->|Hy]%elem_of_cons; [done | by apply Hf].
Qed.

Lemma snapshots_refine_witness :
  let cs := [GetSnapshot 5; GetSnapshot 7; GetSnapshot 7; ReleaseSnapshot 0; GetSnapshot 9; ReleaseSnapshot 2] in
  ∃ l, for_loop run_call cs new = Ok l ∧ oldest l = Ok 7 ∧ newest l = Ok 9 ∧ smallest_snapshot l 9 = Ok 7.
Proof.
  cbv zeta. destruct (snapshots_refine [GetSnapshot 5; GetSnapshot 7; GetSnapshot 7; ReleaseSnapshot 0; GetSnapshot 9; ReleaseSnapshot 2] 0)
    as (l & E & _ & E1 & E2 & E3 & _).
  - cbn. split_and!; try lia; set_solver.
  - exists l. split; [exact E|]. split; [exact E1|]. split; [exact E2 | exact E3].
Defined.
