(* ===== verification/DbRead.v ===== *)
(** * db/db_impl.cc: reads

    [Get], [NewIterator], [RecordReadSample] and the snapshots of [DBImpl].  A reader takes
    references to the memtables and to the current version under the mutex, reads without
    it, and gives them back; the object of a memtable is an index, a version is a position
    in the list of live versions.  [TableCache::Get] and [TableCache::NewIterator] are
    arguments.  This file has the definitions and the lookups; DbScan.v has the iterators.
    An iterator reads the memtables as they are when it is made: the concurrent reads of a
    skip list while it grows are the subject of SkipList.v. *)
From stdpp Require Import gmap.
From Stdlib Require Import Sorting.Sorted.
From S2P Require Import Prelude.
From S2P Require Import Coding.
From S2P Require Import Interfaces.
From S2P Require Import Comparator.
From S2P Require Import Dbformat.
From S2P Require Import Status.
From S2P Require Import Cursor.
From S2P Require Import Iterators.
From S2P Require Import SkipList.
From S2P Require Import MemTable.
From S2P Require Import Merger.
From S2P Require Import TwoLevel.
From S2P Require Import DbIter.
From S2P Require Import VersionEdit.
From S2P Require Import Updates.
From S2P Require Import Version.
From S2P Require Import VersionBuilder.
From S2P Require Import VersionSet.
From S2P Require Import Snapshot.
Import MemTable Version.

(** ** Definitions *)

Module DbRead.
Section DbRead.
Context (user : Comparator) (fresh : Z → list byte) (table_get : table_cache).
Context {TI : Type} (table_iter : IteratorOps TI) (NewTableIterator : Z → Z → outcome TI) (fuel : nat).
Context {W : Type}.

(** *** The state *)

(** [memtables] holds every memtable that was allocated, where a deleted one is [None];
    [mem_] and [imm_] are indices. *)
Record db := mkDb {
  memtables : list (option memtable);
  mem_ : nat;
  imm_ : option nat;
  set_ : VersionSet.version_set W;
  snapshots_ : Snapshot.SnapshotList;
  seed_ : Z;
  bg_compaction_scheduled_ : bool;
  shutting_down_ : bool;
  bg_error_ : status;
  manual_compaction_ : bool
}.
Definition set_memtables (l : list (option memtable)) (d : db) : db :=
  mkDb l (mem_ d) (imm_ d) (set_ d) (snapshots_ d) (seed_ d) (bg_compaction_scheduled_ d) (shutting_down_ d) (bg_error_ d) (manual_compaction_ d).
Definition set_set (s : VersionSet.version_set W) (d : db) : db :=
  mkDb (memtables d) (mem_ d) (imm_ d) s (snapshots_ d) (seed_ d) (bg_compaction_scheduled_ d) (shutting_down_ d) (bg_error_ d) (manual_compaction_ d).
Definition set_snapshots (l : Snapshot.SnapshotList) (d : db) : db :=
  mkDb (memtables d) (mem_ d) (imm_ d) (set_ d) l (seed_ d) (bg_compaction_scheduled_ d) (shutting_down_ d) (bg_error_ d) (manual_compaction_ d).
Definition set_seed (n : Z) (d : db) : db :=
  mkDb (memtables d) (mem_ d) (imm_ d) (set_ d) (snapshots_ d) n (bg_compaction_scheduled_ d) (shutting_down_ d) (bg_error_ d) (manual_compaction_ d).
Definition set_scheduled (b : bool) (d : db) : db :=
  mkDb (memtables d) (mem_ d) (imm_ d) (set_ d) (snapshots_ d) (seed_ d) b (shutting_down_ d) (bg_error_ d) (manual_compaction_ d).

Definition MaybeScheduleCompaction (d : db) : outcome db :=
  if bg_compaction_scheduled_ d then Ok d
  else if shutting_down_ d then Ok d
  else if negb (ok (bg_error_ d)) then Ok d
  else
    work ← (if bool_decide (imm_ d = None) && negb (manual_compaction_ d) then VersionSet.NeedsCompaction (set_ d) else Ok true);
    Ok (if (work : bool) then set_scheduled true d else d).

(** *** References *)

Definition memtable_at (i : nat) (d : db) : outcome memtable :=
  match memtables d !! i with Some (Some m) => Ok m | _ => Ub UseAfterFree end.
Definition ref_memtable (i : nat) (d : db) : outcome db :=
  m ← memtable_at i d; Ok (set_memtables (<[i := Some (MemTable.Ref m)]> (memtables d)) d).
Definition unref_memtable (i : nat) (d : db) : outcome db :=
  m ← memtable_at i d; m ← MemTable.Unref m; Ok (set_memtables (<[i := m]> (memtables d)) d).
Definition if_some {A} (f : nat → A → outcome A) (i : option nat) (a : A) : outcome A :=
  match i with Some i => f i a | None => Ok a end.
(** A version is a position in the list of live versions. *)
Definition current_position (d : db) : nat := pred (length (VersionSet.versions_ (set_ d))).
Definition version_at (p : nat) (d : db) : outcome version :=
  match VersionSet.versions_ (set_ d) !! p with Some n => Ok (VersionSet.node_version n) | None => Ub UseAfterFree end.
Definition ref_version (p : nat) (d : db) : outcome db := s ← VersionSet.Ref p (set_ d); Ok (set_set s d).
Definition unref_version (p : nat) (d : db) : outcome db := s ← VersionSet.Unref p (set_ d); Ok (set_set s d).
(** The statistics of a version change in place. *)
Definition set_version (p : nat) (v : version) (d : db) : db :=
  set_set (VersionSet.set_versions (alter (λ n, VersionSet.mkNode (VersionSet.refs_ n) v) p (VersionSet.versions_ (set_ d))) (set_ d)) d.

(** What a reader holds: [IterState], and the locals of [Get]. *)
Record held := mkHeld { h_mem : nat; h_imm : option nat; h_version : nat }.

(** *** Snapshots *)

Definition GetSnapshot (d : db) : outcome (nat * db) :=
  r ← Snapshot.New (VersionSet.last_sequence_ (set_ d)) (snapshots_ d); Ok (r.1, set_snapshots r.2 d).
Definition ReleaseSnapshot (s : nat) (d : db) : outcome db := l ← Snapshot.Delete s (snapshots_ d); Ok (set_snapshots l d).
(** The sequence number at which [options.snapshot] reads. *)
Definition read_sequence (snapshot : option nat) (d : db) : outcome Z :=
  match snapshot with
  | Some i => s ← Snapshot.snapshot_at i (snapshots_ d); Ok (Snapshot.number_ s)
  | None => Ok (VersionSet.last_sequence_ (set_ d))
  end.

(** *** Get *)

(** Under the mutex: the snapshot, and a reference to everything that is read. *)
Definition Get_begin (snapshot : option nat) (d : db) : outcome (Z * held * db) :=
  s ← read_sequence snapshot d;
  let h := mkHeld (mem_ d) (imm_ d) (current_position d) in
  d ← ref_memtable (h_mem h) d;
  d ← if_some ref_memtable (h_imm h) d;
  d ← ref_version (h_version h) d;
  Ok (s, h, d).
(** Without the mutex; the statistics are there if the version was searched. *)
Definition Get_search (lkey : LookupKey.t) (value : list byte) (mem : memtable) (imm : option memtable) (current : version)
    : outcome (status * list byte * option GetStats) :=
  r ← MemTable.Get user mem lkey value status_ok;
  let '(found, value, st) := (r : bool * list byte * status) in
  if found then Ok (st, value, None)
  else
    r ← match imm with Some imm => MemTable.Get user imm lkey value st | None => Ok (false, value, st) end;
    let '(found, value, st) := (r : bool * list byte * status) in
    if found then Ok (st, value, None)
    else
      r ← Version.Get user table_get current lkey value;
      Ok (r.1.1, r.1.2, Some r.2).
Definition Get_end (h : held) (stats : option GetStats) (d : db) : outcome db :=
  d ← match stats with
      | Some st =>
          v ← version_at (h_version h) d;
          u ← UpdateStats v st;
          let d := set_version (h_version h) u.2 d in
          if (u.1 : bool) then MaybeScheduleCompaction d else Ok d
      | None => Ok d
      end;
  d ← unref_memtable (h_mem h) d;
  d ← if_some unref_memtable (h_imm h) d;
  unref_version (h_version h) d.
(** [before] and [after] are what the other threads do between the first part and the
    search, and between the search and the last part; they also tell where the version
    that the reader holds is afterwards. *)
Definition Get (before after : nat → db → nat * db) (snapshot : option nat) (key value : list byte) (d : db)
    : outcome (status * list byte * db) :=
  b ← Get_begin snapshot d;
  let '(s, h, d) := (b : Z * held * db) in
  let '(p, d) := before (h_version h) d in
  lkey ← LookupKey.new fresh key s;
  mem ← memtable_at (h_mem h) d;
  imm ← match h_imm h with Some i => m ← memtable_at i d; Ok (Some m) | None => Ok None end;
  current ← version_at p d;
  r ← Get_search lkey value mem imm current;
  let '(p, d) := after p d in
  d ← Get_end (mkHeld (h_mem h) (h_imm h) p) r.2 d;
  Ok (r.1, d).

(** *** Iterators over the files *)

Inductive file_iter := FileIter (it : TI) | FileError (st : status).
Definition file_ops : IteratorOps file_iter :=
  let move op it :=
    match it with
    | FileIter it => it ← run_op table_iter it op; Ok (FileIter it)
    | FileError st => st ← run_op EmptyIterator st op; Ok (FileError st)
    end in
  let get {A} (f : ∀ T, IteratorOps T → T → A) it :=
    match it with FileIter it => f _ table_iter it | FileError st => f _ EmptyIterator st end in
  mkIterator (get (λ T, it_Valid)) (get (λ T, it_key)) (get (λ T, it_value)) (get (λ T, it_status))
    (move OpNext) (move OpPrev) (λ it target, move (OpSeek target) it) (move OpFirst) (move OpLast).
Definition file_function (value : list byte) : outcome (option file_iter) :=
  r ← GetFileIterator value;
  match (r : Z * Z + status) with
  | inl p => it ← NewTableIterator p.1 p.2; Ok (Some (FileIter it))
  | inr st => Ok (Some (FileError (NewErrorIterator st)))
  end.

#[local] Notation level_iter := (TwoLevel.two_level (SI := Z) (SD := file_iter)).
Definition NewConcatenatingIterator (v : version) (level : nat) : outcome level_iter :=
  let files := level_files v level in
  TwoLevel.NewTwoLevelIterator (LevelFileNumIterator user files) (new_file_iterator files).

(** The iterators that are merged. *)
Inductive child := MemChild (m : memtable) (it : option nat) | TableChild (it : TI) | LevelChild (files : list FileMetaData) (it : level_iter).
Definition level_ops (files : list FileMetaData) : IteratorOps level_iter :=
  TwoLevel.TwoLevelIterator (LevelFileNumIterator user files) file_ops file_function fuel.
Definition child_ops : IteratorOps child :=
  let move op c :=
    match c with
    | MemChild m it => it ← run_op (MemTable.iterator user m) it op; Ok (MemChild m it)
    | TableChild it => it ← run_op table_iter it op; Ok (TableChild it)
    | LevelChild files it => it ← run_op (level_ops files) it op; Ok (LevelChild files it)
    end in
  let get {A} (f : ∀ T, IteratorOps T → T → A) c :=
    match c with
    | MemChild m it => f _ (MemTable.iterator user m) it
    | TableChild it => f _ table_iter it
    | LevelChild files it => f _ (level_ops files) it
    end in
  mkIterator (get (λ T, it_Valid)) (get (λ T, it_key)) (get (λ T, it_value)) (get (λ T, it_status))
    (move OpNext) (move OpPrev) (λ c target, move (OpSeek target) c) (move OpFirst) (move OpLast).

Definition add_table (f : FileMetaData) (iters : list child) : outcome (list child) :=
  it ← NewTableIterator (number f) (file_size f); Ok (iters ++ [TableChild it]).
Definition add_level (v : version) (level : nat) (iters : list child) : outcome (list child) :=
  match level_files v level with
  | [] => Ok iters
  | files => it ← NewConcatenatingIterator v level; Ok (iters ++ [LevelChild files it])
  end.
Definition AddIterators (v : version) (iters : list child) : outcome (list child) :=
  iters ← for_loop add_table (level_files v 0) iters;
  for_loop (add_level v) (seq 1 (Z.to_nat kNumLevels - 1)) iters.

(** *** NewIterator *)

#[local] Notation internal := (Merging.merged (S := child)).
Definition internal_ops : IteratorOps internal := Merging.merged_iterator (internal_comparator user) (λ _, child_ops).

Definition CleanupIteratorState (h : held) (d : db) : outcome db :=
  d ← unref_memtable (h_mem h) d;
  d ← if_some unref_memtable (h_imm h) d;
  unref_version (h_version h) d.
(** The iterator with its cleanup functions, the latest sequence number and the seed. *)
Definition NewInternalIterator (d : db) : outcome (internal * Cleanup.cleanups held * Z * Z * db) :=
  let latest_snapshot := VersionSet.last_sequence_ (set_ d) in
  mem ← memtable_at (mem_ d) d;
  let list := [MemChild mem None] in
  d ← ref_memtable (mem_ d) d;
  r ← match imm_ d with
      | Some i => imm ← memtable_at i d; d ← ref_memtable i d; Ok (list ++ [MemChild imm None], d)
      | None => Ok (list, d)
      end;
  let '(list, d) := (r : _ * db) in
  current ← version_at (current_position d) d;
  list ← AddIterators current list;
  internal_iter ← Merging.NewMergingIterator (λ _, child_ops) list;
  d ← ref_version (current_position d) d;
  let cleanup := Cleanup.RegisterCleanup Cleanup.new (mkHeld (mem_ d) (imm_ d) (current_position d)) in
  let d := set_seed (u32 (seed_ d + 1)) d in
  Ok (internal_iter, cleanup, latest_snapshot, seed_ d, d).

Record user_iter := mkUserIter { ui_sequence : Z; ui_iter : DbIter.dbiter (S := internal); ui_cleanup : Cleanup.cleanups held }.
Definition NewIterator (snapshot : option nat) (d : db) : outcome (user_iter * db) :=
  r ← NewInternalIterator d;
  let '(iter, cleanup, latest_snapshot, seed, d) := (r : internal * Cleanup.cleanups held * Z * Z * db) in
  s ← match snapshot with
      | Some i => s ← Snapshot.snapshot_at i (snapshots_ d); Ok (Snapshot.number_ s)
      | None => Ok latest_snapshot
      end;
  Ok (mkUserIter s (DbIter.NewDBIterator iter seed) cleanup, d).
Definition user_ops (it : user_iter) : IteratorOps (DbIter.dbiter (S := internal)) := DbIter.DBIter internal_ops user (ui_sequence it) fuel.
(** [delete iter]. *)
Definition delete_iter (it : user_iter) (d : db) : outcome db := for_loop CleanupIteratorState (Cleanup.destroy (ui_cleanup it)) d.

Definition RecordReadSample (key : list byte) (d : db) : outcome db :=
  v ← version_at (current_position d) d;
  u ← Version.RecordReadSample user v key;
  let d := set_version (current_position d) u.2 d in
  if (u.1 : bool) then MaybeScheduleCompaction d else Ok d.

End DbRead.
Arguments db : clear implicits.
Arguments mkDb {W} _ _ _ _ _ _ _ _ _ _.
End DbRead.

Import DbRead.

(** ** Lemmas *)

(** *** Versions with the same files *)

Definition same_file (f g : FileMetaData) : Prop :=
  number f = number g ∧ file_size f = file_size g ∧ smallest f = smallest g ∧ largest f = largest g.
(** Everything but the counts of references and of seeks, and the scores. *)
Definition same_files (v w : version) : Prop := Forall2 (Forall2 same_file) (files_ v) (files_ w).

#[export] Instance same_file_equivalence : Equivalence same_file.
Proof. split; [by intros f | intros f g; unfold same_file; intuition congruence | intros f g h; unfold same_file; intuition congruence]. Qed.
#[export] Instance same_files_equivalence : Equivalence same_files.
Proof. unfold same_files. split; [by intros v | by intros v w | intros u v w H1 H2; by etrans]. Qed.

Lemma same_files_level v w level : same_files v w → Forall2 same_file (level_files v level) (level_files w level).
Proof.
  intros H. unfold level_files. destruct (files_ v !! level) as [l|] eqn:E.
  - destruct (Forall2_lookup_l _ _ _ _ _ H E) as (l' & -> & Hl). done.
  - apply lookup_ge_None in E. rewrite (Forall2_length _ _ _ H) in E. apply lookup_ge_None in E as ->. constructor.
Qed.
Lemma same_files_lookup v w level i g : same_files v w → level_files w level !! i = Some g → ∃ f, level_files v level !! i = Some f ∧ same_file f g.
Proof. intros H Hg. exact (Forall2_lookup_r _ _ _ _ _ (same_files_level v w level H) Hg). Qed.

Section same.
Context (user : Comparator) (stored : Z → Z → list upd) (table_get : table_cache).
(** The updates in a file depend on its name and size. *)
#[local] Notation contents := (λ f : FileMetaData, stored (number f) (file_size f)).

Lemma same_updates v w level : same_files v w → level_updates contents w level = level_updates contents v level.
Proof.
  intros H. unfold level_updates. f_equal. apply (same_files_level v w level) in H. induction H as [|f g l k (E1 & E2 & _) H IH]; [done|].
  cbn. by rewrite IH, E1, E2.
Qed.
Lemma same_version_updates v w : same_files v w → version_updates contents w = version_updates contents v.
Proof. intros H. unfold version_updates. f_equal. apply map_ext. intros level. by apply same_updates. Qed.

Lemma same_holds f g : same_file f g → file_holds user contents f ∧ TableReads user contents table_get f → file_holds user contents g ∧ TableReads user contents table_get g.
Proof.
  intros (E1 & E2 & E3 & E4) [[H1 [H2 H3] H4 H5] H6]. split.
  - split; rewrite <- ?E1, <- ?E2, <- ?E3, <- ?E4; try done. split; rewrite <- ?E3, <- ?E4; done.
  - intros t Ht. specialize (H6 t Ht). cbv zeta in *. by rewrite <- E1, <- E2.
Qed.

Lemma version_ok_same v w : same_files v w → version_ok user contents table_get v → version_ok user contents table_get w.
Proof.
  intros Hs [H1 H2 H3 H4 H5 H6]. split.
  - by rewrite <- (Forall2_length _ _ _ Hs).
  - intros level g [i Hg]%list_elem_of_lookup. destruct (same_files_lookup v w level i g Hs Hg) as (f & Hf & Hfg).
    apply (same_holds f g Hfg), (H2 level). by eapply list_elem_of_lookup_2.
  - intros level Hl. specialize (H3 level Hl). pose proof (same_files_level v w level Hs) as Hlev. split.
    + intros g [i Hg]%list_elem_of_lookup. destruct (same_files_lookup v w level i g Hs Hg) as (f & Hf & (_ & _ & E3 & E4)).
      unfold range_ok. rewrite <- E3, <- E4. apply (lo_files _ _ H3). by eapply list_elem_of_lookup_2.
    + intros i j f g Hij Hf Hg. destruct (same_files_lookup v w level i f Hs Hf) as (f' & Hf' & (_ & _ & _ & E)).
      destruct (same_files_lookup v w level j g Hs Hg) as (g' & Hg' & (_ & _ & E' & _)). rewrite <- E, <- E'. by apply (lo_sorted _ _ H3 i j).
    + unfold blen. rewrite <- (Forall2_length _ _ _ Hlev). apply (lo_count _ _ H3).
  - intros i j f g Hij Hf Hg. destruct (same_files_lookup v w 0 i f Hs Hf) as (f' & Hf' & (E1 & E2 & _)).
    destruct (same_files_lookup v w 0 j g Hs Hg) as (g' & Hg' & (E3 & E4 & _)). rewrite <- E1, <- E2, <- E3, <- E4. by apply (H4 i j).
  - intros l m Hlm. rewrite !(same_updates v w) by done. by apply H5.
  - by rewrite (same_version_updates v w).
Qed.

Lemma same_stats v w st : same_files v w → stats_ok v st → stats_ok w st.
Proof.
  intros Hs. unfold stats_ok. destruct (seek_file st) as [p|]; [|done]. intros [[f Hf] E]. split; [|done].
  destruct (Forall2_lookup_l _ _ _ _ _ (same_files_level v w p.1 Hs) Hf) as (g & Hg & _). by exists g.
Qed.

Lemma UpdateStats_same v st r : UpdateStats v st = Ok r → same_files v r.2.
Proof.
  unfold UpdateStats. destruct (seek_file st) as [p|]; [|intros [= <-]; done].
  destruct (file_at _ _) as [f| | |]; [|done ..]. cbn [mbind outcome_bind]. destruct (_ <? - 2 ^ 31); [done|].
  assert (∀ n p, Forall2 (Forall2 same_file) (files_ v) (alter (alter (set_allowed_seeks n) p.2) p.1 (files_ v))) as Halter.
  { clear. intros n p. apply Forall2_alter_r; [done|]. intros l l' _ _ H. by apply Forall2_alter_r. }
  destruct (file_to_compact_ v); [intros [= <-]; apply Halter|]. destruct (_ <=? 0); intros [= <-]; apply Halter.
Qed.
End same.

(** *** References *)

Section refs.
Context {W : Type}.
Implicit Types (d : DbRead.db W) (m : memtable) (i p : nat).

Definition unreffed m : option memtable := if refs_ m - 1 <=? 0 then None else Some (mkMemTable (refs_ m - 1) (arena_ m) (table_ m)).

Lemma alter_some {A} (f : A → A) i (l : list A) x : l !! i = Some x → alter f i l = <[i := f x]> l.
Proof. intros Hx. apply list_eq. intros j. destruct (decide (j = i)) as [->|]; [rewrite list_lookup_alter_eq, Hx, list_lookup_insert_eq by (by eapply lookup_lt_Some) | rewrite list_lookup_alter_ne, list_lookup_insert_ne by done]; done. Qed.

Lemma memtable_at_ok i d m : memtables d !! i = Some (Some m) → memtable_at i d = Ok m.
Proof. unfold memtable_at. by intros ->. Qed.
Lemma unref_memtable_ok i d m : memtables d !! i = Some (Some m) → 1 ≤ refs_ m →
  unref_memtable i d = Ok (set_memtables (alter (λ o, o ≫= unreffed) i (memtables d)) d).
Proof.
  intros Hi Hr. unfold unref_memtable. rewrite (memtable_at_ok i d m Hi). cbn [mbind outcome_bind]. unfold MemTable.Unref. cbv zeta.
  rewrite (alter_some _ i _ (Some m) Hi). cbn [mbind option_bind]. unfold unreffed. destruct (Z.ltb_spec (refs_ m - 1) 0); [lia|]. by destruct (refs_ m - 1 <=? 0).
Qed.
Lemma unref_ref m : 1 ≤ refs_ m → unreffed (MemTable.Ref m) = Some m.
Proof. intros H. unfold unreffed, MemTable.Ref. cbn [refs_ arena_ table_]. destruct (Z.leb_spec (refs_ m + 1 - 1) 0); [lia|]. destruct m. cbn [refs_]. do 2 f_equal. lia. Qed.

Lemma unref_version_ok p d n : VersionSet.versions_ (set_ d) !! p = Some n → 1 ≤ VersionSet.refs_ n → ∃ l, unref_version p d = Ok (set_set (VersionSet.set_versions l (set_ d)) d).
Proof.
  intros Hp Hr. unfold unref_version, VersionSet.Unref. rewrite Hp. destruct (Z.leb_spec 1 (VersionSet.refs_ n)); [|lia]. cbn [negb].
  destruct (VersionSet.refs_ n - 1 =? 0); cbn [mbind outcome_bind]; eauto.
Qed.

Lemma maybe_schedule_ok d : VersionSet.versions_ (set_ d) ≠ [] → ∃ b, MaybeScheduleCompaction d = Ok (set_scheduled b d).
Proof.
  intros Hne. assert (d = set_scheduled (bg_compaction_scheduled_ d) d) as Ed by (by destruct d). unfold MaybeScheduleCompaction.
  destruct (bg_compaction_scheduled_ d); [by exists true; rewrite <- Ed|]. destruct (shutting_down_ d); [by exists false; rewrite <- Ed|].
  destruct (negb _); [by exists false; rewrite <- Ed|].
  destruct (bool_decide _ && _); [|by exists true]. unfold VersionSet.NeedsCompaction, VersionSet.current_.
  destruct (last _) as [n|] eqn:E; [|by apply last_None in E]. cbn [mbind outcome_bind]. destruct (_ || _); [by exists true | by exists false; rewrite <- Ed].
Qed.
End refs.

(** *** Get *)

Section get.
Context (user : Comparator) `{Huser : !ComparatorLaws any_key user} (fresh : Z → list byte) (Hfresh : ∀ n, 0 ≤ n → blen (fresh n) = n).
Context (stored : Z → Z → list upd) (table_get : table_cache) {W : Type}.
#[local] Notation contents := (λ f : FileMetaData, stored (number f) (file_size f)).
#[local] Notation db := (DbRead.db W).
#[local] Notation holds := (MemTable.holds user).
Implicit Types (d : db).

Definition distinct_seqs (us : list upd) : Prop := ∀ v w, v ∈ us → w ∈ us → u_seq v = u_seq w → v = w.
(** The memtable holds the updates, and perhaps others that are newer than [s]. *)
Definition grown (s : Z) (us : list upd) (m : memtable) : Prop :=
  ∃ us', holds m (us ++ us') ∧ Forall upd_ok (us ++ us') ∧ distinct_seqs (us ++ us') ∧ ∀ u, u ∈ us' → s < u_seq u.

Lemma grown_refl s us m : holds m us → Forall upd_ok us → distinct_seqs us → grown s us m.
Proof. intros H1 H2 H3. exists []. rewrite app_nil_r. split_and!; try done. by intros u ?%elem_of_nil. Qed.

Lemma visible_later k s us us' : (∀ u, u ∈ us' → s < u_seq u) → visible user k s (us ++ us') = visible user k s us.
Proof.
  intros H. unfold visible. rewrite List.filter_app. assert (List.filter (matches user k s) us' = []) as ->; [|by rewrite app_nil_r].
  induction us' as [|u us' IH]; [done|]. cbn [List.filter]. assert (matches user k s u = false) as ->; [|apply IH; intros w Hw; apply H; by right].
  apply not_true_is_false. intros [_ Hle]%matches_spec. specialize (H u ltac:(by left)). lia.
Qed.

Lemma grown_get s us m lk k value : grown s us m → seq_ok s → blen k + 13 < 2 ^ 32 →
  LookupKey.memtable_key lk = EncodeVarint32 (blen k + 8) ++ ikey k s kTypeValue → LookupKey.user_key lk = k →
  MemTable.Get user m lk value status_ok = Ok (lookup_result (visible user k s us) value status_ok).
Proof.
  intros (us' & Hh & Hok & Hd & Hnew) Hs Hk E1 E2. rewrite (Get_spec user m (us ++ us') lk k s value status_ok Hh Hok Hd Hs Hk E1 E2).
  by rewrite visible_later.
Qed.

Lemma Get_search_spec s k lk value mem imm us_mem us_imm v :
  seq_ok s → blen k + 13 < 2 ^ 32 → LookupKey.memtable_key lk = EncodeVarint32 (blen k + 8) ++ ikey k s kTypeValue →
  LookupKey.user_key lk = k → LookupKey.internal_key lk = ikey k s kTypeValue →
  grown s us_mem mem → match imm with Some imm => grown s us_imm imm | None => us_imm = [] end → version_ok user contents table_get v →
  newer user us_mem us_imm → newer user (us_mem ++ us_imm) (version_updates contents v) →
  ∃ st, Get_search user table_get lk value mem imm v = Ok (answer (visible user k s (us_mem ++ us_imm ++ version_updates contents v)) value, st) ∧
    match st with Some st => stats_ok v st | None => True end.
Proof.
  intros Hs Hk E1 E2 E3 Hm Hi Hv Hn1 Hn2. unfold Get_search. rewrite (grown_get s us_mem mem lk k value Hm Hs Hk E1 E2). cbn [mbind outcome_bind].
  rewrite (visible_app_newer user k s us_mem).
  2: { apply newer_for_app_r; [by apply newer_newer_for|]. apply newer_newer_for; [done|]. intros x y Hx. apply Hn2. apply elem_of_app. by left. }
  destruct (visible user k s us_mem) as [u|]; [cbn [lookup_result answer]; destruct (u_type u); by eexists|]. cbn [lookup_result].
  rewrite (visible_app_newer user k s us_imm).
  2: { apply newer_newer_for; [done|]. intros x y Hx. apply Hn2. apply elem_of_app. by right. }
  assert (match imm with Some imm => MemTable.Get user imm lk value status_ok | None => Ok (false, value, status_ok) end =
    Ok (lookup_result (visible user k s us_imm) value status_ok)) as ->.
  { destruct imm as [imm|]; [by apply (grown_get s us_imm imm lk k) | by subst]. }
  cbn [mbind outcome_bind]. destruct (visible user k s us_imm) as [u|]; [cbn [lookup_result answer]; destruct (u_type u); by eexists|]. cbn [lookup_result].
  destruct (Version_Get_spec user contents table_get v k s lk value Hv Hs Hk E2 E3) as (st & -> & Hst). cbn [mbind outcome_bind fst snd].
  exists (Some st). split; [|done]. by destruct (answer _ _).
Qed.

(** *** The state a reader finds *)

Definition alive (d : db) (i : nat) (m : memtable) : Prop := memtables d !! i = Some (Some m) ∧ 1 ≤ refs_ m.
Definition seeks_left (v : version) : Prop := ∀ level f, f ∈ level_files v level → - 2 ^ 31 < allowed_seeks f.
Definition version_alive (d : db) (p : nat) (v : version) : Prop :=
  ∃ n, VersionSet.versions_ (set_ d) !! p = Some n ∧ 1 ≤ VersionSet.refs_ n ∧ same_files v (VersionSet.node_version n).

(** The updates in the two memtables and in the version: the newer ones come first. *)
Record data_ok (us_mem us_imm : list upd) (v : version) : Prop := mkDataOk {
  da_updates : Forall upd_ok (us_mem ++ us_imm);
  da_mem : distinct_seqs us_mem;
  da_imm : distinct_seqs us_imm;
  da_version : version_ok user contents table_get v;
  da_newer_imm : newer user us_mem us_imm;
  da_newer : newer user (us_mem ++ us_imm) (version_updates contents v)
}.
(** The database holds them, and references everything that it points to. *)
Record readable (d : db) (us_mem us_imm : list upd) (v : version) : Prop := mkReadable {
  rd_data : data_ok us_mem us_imm v;
  rd_mem : ∃ m, alive d (mem_ d) m ∧ holds m us_mem;
  rd_imm : match imm_ d with Some i => i ≠ mem_ d ∧ ∃ m, alive d i m ∧ holds m us_imm | None => us_imm = [] end;
  rd_versions : VersionSet.versions_ (set_ d) ≠ [];
  rd_current : version_alive d (current_position d) v
}.
(** The other threads may write, switch memtables, install versions and drop their own
    references: what the reader holds stays, and new updates are newer than its snapshot. *)
Record undisturbed (s : Z) (us_mem us_imm : list upd) (v : version) (h : held) (p : nat) (d : db) : Prop := mkUndisturbed {
  un_mem : ∃ m, alive d (h_mem h) m ∧ grown s us_mem m;
  un_imm : match h_imm h with Some i => i ≠ h_mem h ∧ ∃ m, alive d i m ∧ grown s us_imm m | None => us_imm = [] end;
  un_version : version_alive d p v
}.

Lemma current_last d : VersionSet.versions_ (set_ d) ≠ [] → (current_position d < length (VersionSet.versions_ (set_ d)))%nat.
Proof. intros H. unfold current_position. destruct (VersionSet.versions_ (set_ d)); [done|]. cbn. lia. Qed.

(** The state after the references have been taken. *)
Definition add_ref (n : VersionSet.node) : VersionSet.node := VersionSet.mkNode (VersionSet.refs_ n + 1) (VersionSet.node_version n).
Definition referenced (h : held) (d : db) : db :=
  let ms := alter (fmap MemTable.Ref) (h_mem h) (memtables d) in
  let ms := match h_imm h with Some i => alter (fmap MemTable.Ref) i ms | None => ms end in
  set_set (VersionSet.set_versions (alter add_ref (h_version h) (VersionSet.versions_ (set_ d))) (set_ d)) (set_memtables ms d).
Definition holds_now (d : db) : held := mkHeld (mem_ d) (imm_ d) (current_position d).

Lemma ref_memtable_ok i d m : alive d i m → ref_memtable i d = Ok (set_memtables (alter (fmap MemTable.Ref) i (memtables d)) d).
Proof. intros [Hi _]. unfold ref_memtable. rewrite (memtable_at_ok i d m Hi). cbn [mbind outcome_bind]. by rewrite (alter_some _ i _ (Some m)). Qed.
Lemma ref_version_ok p d v : version_alive d p v → ref_version p d = Ok (set_set (VersionSet.set_versions (alter add_ref p (VersionSet.versions_ (set_ d))) (set_ d)) d).
Proof. intros (n & Hn & _). unfold ref_version, VersionSet.Ref. rewrite Hn. cbn [mbind outcome_bind]. by rewrite (alter_some _ p _ n). Qed.

Lemma Get_begin_spec d us_mem us_imm v snapshot s : readable d us_mem us_imm v → read_sequence snapshot d = Ok s →
  Get_begin snapshot d = Ok (s, holds_now d, referenced (holds_now d) d).
Proof.
  intros [Hda (m & Hm & _) Hi Hne Hv] Es. unfold Get_begin. rewrite Es. cbn [mbind outcome_bind h_mem h_imm h_version]. rewrite (ref_memtable_ok _ d m Hm). cbn [mbind outcome_bind].
  unfold referenced, holds_now. cbn [h_mem h_imm h_version]. destruct (imm_ d) as [i|]; cbn [if_some].
  - destruct Hi as (Hne' & mi & [Hi Hr] & _). rewrite (ref_memtable_ok i _ mi).
    2: { split; [|done]. cbn [memtables set_memtables]. by rewrite list_lookup_alter_ne. }
    cbn [mbind outcome_bind]. by rewrite (ref_version_ok (current_position d) _ v).
  - cbn [mbind outcome_bind]. by rewrite (ref_version_ok (current_position d) _ v).
Qed.

Lemma grown_ref s us m : grown s us m → grown s us (MemTable.Ref m).
Proof. done. Qed.

Lemma referenced_undisturbed d us_mem us_imm v s : readable d us_mem us_imm v → undisturbed s us_mem us_imm v (holds_now d) (current_position d) (referenced (holds_now d) d).
Proof.
  intros [Hda (m & [Hm Hr] & Hh) Hi Hne (n & Hn & Hrn & Hsame)]. pose proof (da_updates _ _ _ Hda) as [Hu1 Hu2]%Forall_app.
  unfold referenced, holds_now. split; cbn [h_mem h_imm h_version].
  - exists (MemTable.Ref m). split; [|apply (grown_refl s us_mem m); [done | done | apply Hda]]. split; [|cbn; lia]. cbn [memtables set_set set_memtables].
    destruct (imm_ d) as [i|]; [destruct Hi as [Hne' _]; rewrite list_lookup_alter_ne by done|]; by rewrite list_lookup_alter_eq, Hm.
  - destruct (imm_ d) as [i|]; [|done]. destruct Hi as (Hne' & mi & [Hi Hri] & Hhi). split; [done|]. exists (MemTable.Ref mi).
    split; [|apply (grown_refl s us_imm mi); [done | done | apply Hda]]. split; [|cbn; lia]. cbn [memtables set_set set_memtables]. by rewrite list_lookup_alter_eq, list_lookup_alter_ne, Hi.
  - exists (add_ref n). cbn [set_ set_set VersionSet.versions_ VersionSet.set_versions]. rewrite list_lookup_alter_eq. cbn [set_ set_memtables]. rewrite Hn. cbn. split; [done|]. split; [lia|]. done.
Qed.

Definition drop_ref (n : VersionSet.node) : VersionSet.node := VersionSet.mkNode (VersionSet.refs_ n - 1) (VersionSet.node_version n).
Definition unref_all (h : held) (ms : list (option memtable)) : list (option memtable) :=
  let ms := alter (λ o, o ≫= unreffed) (h_mem h) ms in
  match h_imm h with Some i => alter (λ o, o ≫= unreffed) i ms | None => ms end.

(** The references are given back. *)
Lemma release_spec s us_mem us_imm v h p d : undisturbed s us_mem us_imm v h p d →
  ∃ l, CleanupIteratorState (mkHeld (h_mem h) (h_imm h) p) d = Ok (set_set (VersionSet.set_versions l (set_ d)) (set_memtables (unref_all h (memtables d)) d)) ∧
    ∀ n, VersionSet.versions_ (set_ d) !! p = Some n → 2 ≤ VersionSet.refs_ n → l = alter drop_ref p (VersionSet.versions_ (set_ d)).
Proof.
  intros [(m & [Hm Hr] & _) Hi (n & Hn & Hrn & _)]. unfold CleanupIteratorState, unref_all. cbn [h_mem h_imm h_version].
  rewrite (unref_memtable_ok _ d m Hm Hr). cbn [mbind outcome_bind].
  assert (∃ l, VersionSet.Unref p (set_ d) = Ok (VersionSet.set_versions l (set_ d)) ∧
    (2 ≤ VersionSet.refs_ n → l = alter drop_ref p (VersionSet.versions_ (set_ d)))) as (l & El & Hl).
  { unfold VersionSet.Unref. rewrite Hn. destruct (Z.leb_spec 1 (VersionSet.refs_ n)); [|lia]. cbn [negb].
    destruct (Z.eqb_spec (VersionSet.refs_ n - 1) 0); eexists; (split; [reflexivity|]); [lia|]. intros _. by rewrite (alter_some drop_ref p _ n). }
  exists l. split; [|intros n' Hn'; rewrite Hn in Hn'; injection Hn' as <-; exact Hl].
  destruct (h_imm h) as [i|]; cbn [if_some].
  - destruct Hi as (Hne & mi & [Hi Hri] & _).
    assert (alter (λ o, o ≫= unreffed) (h_mem h) (memtables d) !! i = Some (Some mi)) as Hi' by (by rewrite list_lookup_alter_ne).
    rewrite (unref_memtable_ok i _ mi) by done. cbn [mbind outcome_bind memtables set_memtables].
    unfold unref_version. cbn [set_ set_memtables]. by rewrite El.
  - cbn [mbind outcome_bind]. unfold unref_version. cbn [set_ set_memtables]. by rewrite El.
Qed.

(** Updated statistics leave the reader's things in place. *)
Lemma stats_undisturbed s us_mem us_imm v h p d n w b : undisturbed s us_mem us_imm v h p d → VersionSet.versions_ (set_ d) !! p = Some n →
  same_files (VersionSet.node_version n) w → undisturbed s us_mem us_imm v h p (set_scheduled b (set_version p w d)).
Proof.
  intros [Hm Hi (n' & Hn' & Hr & Hs)] Hn Hw. rewrite Hn in Hn'. injection Hn' as <-. split; [done | done|].
  exists (VersionSet.mkNode (VersionSet.refs_ n) w). cbn. rewrite list_lookup_alter_eq, Hn. split; [done|]. split; [done|]. by etrans.
Qed.

Lemma Get_end_spec s us_mem us_imm v h p d st : undisturbed s us_mem us_imm v h p d → match st with Some st => stats_ok v st | None => True end →
  (∀ n, VersionSet.versions_ (set_ d) !! p = Some n → seeks_left (VersionSet.node_version n)) →
  ∃ b w l, Get_end (mkHeld (h_mem h) (h_imm h) p) st d =
      Ok (set_set (VersionSet.set_versions l (set_ d)) (set_scheduled b (set_memtables (unref_all h (memtables d)) d))) ∧ same_files v w ∧
    ∀ n, VersionSet.versions_ (set_ d) !! p = Some n → 2 ≤ VersionSet.refs_ n →
      l = alter (λ n, VersionSet.mkNode (VersionSet.refs_ n - 1) w) p (VersionSet.versions_ (set_ d)).
Proof.
  intros Hu Hst Hseeks. pose proof (un_version _ _ _ _ _ _ _ Hu) as (n & Hn & Hr & Hs). specialize (Hseeks n Hn).
  assert (∃ b w, Get_end (mkHeld (h_mem h) (h_imm h) p) st d = CleanupIteratorState (mkHeld (h_mem h) (h_imm h) p) (set_scheduled b (set_version p w d)) ∧
    same_files (VersionSet.node_version n) w) as (b & w & -> & Hw).
  { unfold Get_end. destruct st as [st|]; cbn [h_version].
    - unfold version_at. rewrite Hn. cbn [mbind outcome_bind].
      destruct (UpdateStats_total (VersionSet.node_version n) st) as ([u w] & E); [by apply (same_stats v) | done|]. rewrite E. cbn [mbind outcome_bind fst snd].
      apply UpdateStats_same in E. cbn [snd] in E. destruct u; [|by exists (bg_compaction_scheduled_ d), w].
      destruct (maybe_schedule_ok (set_version p w d)) as [b ->]; [|by exists b, w].
      cbn. intros E0. apply (f_equal length) in E0. rewrite length_alter in E0. apply lookup_lt_Some in Hn. cbn in *. lia.
    - exists (bg_compaction_scheduled_ d), (VersionSet.node_version n). split; [|done].
      assert (set_scheduled (bg_compaction_scheduled_ d) (set_version p (VersionSet.node_version n) d) = d) as ->; [|done].
      unfold set_version. rewrite (alter_some _ p _ n Hn), list_insert_id; [by destruct d as [ms i j [] ss sd bg sh be mc] | rewrite Hn; by destruct n]. }
  destruct (release_spec s us_mem us_imm v h p _ (stats_undisturbed _ _ _ _ _ _ _ n w b Hu Hn Hw)) as (l & -> & Hl).
  exists b, w, l. split; [done|]. split; [by etrans|]. intros n' Hn' Hr'. rewrite Hn in Hn'. injection Hn' as <-.
  rewrite (Hl (VersionSet.mkNode (VersionSet.refs_ n) w)); [|cbn; by rewrite list_lookup_alter_eq, Hn | done].
  cbn. apply list_eq. intros j. rewrite !list_lookup_alter. case_decide; [|done]. subst j. rewrite Hn. by destruct (decide (p = p)).
Qed.

(** The state with other statistics, and perhaps a compaction scheduled. *)
Record same_state (d d' : db) : Prop := mkSameState {
  ss_memtables : memtables d' = memtables d;
  ss_mem : mem_ d' = mem_ d;
  ss_imm : imm_ d' = imm_ d;
  ss_sequence : VersionSet.last_sequence_ (set_ d') = VersionSet.last_sequence_ (set_ d);
  ss_snapshots : snapshots_ d' = snapshots_ d;
  ss_versions : Forall2 (λ n n', VersionSet.refs_ n' = VersionSet.refs_ n ∧ same_files (VersionSet.node_version n) (VersionSet.node_version n'))
    (VersionSet.versions_ (set_ d)) (VersionSet.versions_ (set_ d'))
}.

Lemma unref_referenced d us_mem us_imm v : readable d us_mem us_imm v → unref_all (holds_now d) (memtables (referenced (holds_now d) d)) = memtables d.
Proof.
  intros [_ (m & [Hm Hr] & _) Hi _ _]. unfold unref_all, referenced, holds_now. cbn [h_mem h_imm memtables set_set set_memtables].
  assert (∀ i mi, memtables d !! i = Some (Some mi) → 1 ≤ refs_ mi → alter (λ o, o ≫= unreffed) i (alter (fmap MemTable.Ref) i (memtables d)) = memtables d) as Hone.
  { intros i mi Hmi Hri. apply list_eq. intros j. destruct (decide (i = j)) as [<-|]; [|by rewrite !list_lookup_alter_ne].
    rewrite !list_lookup_alter_eq, Hmi. cbn [fmap option_fmap option_map mbind option_bind]. by rewrite unref_ref. }
  destruct (imm_ d) as [i|]; [|by apply (Hone _ m)]. destruct Hi as (Hne & mi & [Hmi Hri] & _).
  rewrite <- (Hone i mi Hmi Hri) at 2. apply list_eq. intros j. destruct (decide (i = j)) as [<-|].
  - by rewrite !list_lookup_alter_eq, (list_lookup_alter_ne _ _ (mem_ d)), list_lookup_alter_eq, (list_lookup_alter_ne _ _ (mem_ d)) by done.
  - rewrite !(list_lookup_alter_ne _ _ i) by done. destruct (decide (mem_ d = j)) as [<-|]; [|by rewrite !list_lookup_alter_ne].
    rewrite !list_lookup_alter_eq, list_lookup_alter_ne, list_lookup_alter_eq, Hm by done. cbn [fmap option_fmap option_map mbind option_bind]. by rewrite unref_ref.
Qed.

Lemma released_versions d p b w us_mem us_imm v l : readable d us_mem us_imm v → same_files v w → p = current_position d →
  l = alter (λ n, VersionSet.mkNode (VersionSet.refs_ n - 1) w) p (VersionSet.versions_ (set_ (referenced (holds_now d) d))) →
  same_state d (set_set (VersionSet.set_versions l (set_ (referenced (holds_now d) d)))
    (set_scheduled b (set_memtables (unref_all (holds_now d) (memtables (referenced (holds_now d) d))) (referenced (holds_now d) d)))).
Proof.
  intros Hd Hw -> ->. rewrite (unref_referenced d us_mem us_imm v Hd). destruct Hd as [_ _ _ _ (n & Hn & Hr & Hs)]. split; try done.
  cbn. apply Forall2_same_length_lookup. split; [by rewrite !length_alter|]. intros i x y Hx Hy.
  destruct (decide (current_position d = i)) as [<-|].
  - rewrite Hn in Hx. injection Hx as <-. rewrite !list_lookup_alter_eq, Hn in Hy. injection Hy as <-. cbn. split; [lia|]. etrans; [by symmetry | done].
  - rewrite !list_lookup_alter_ne, Hx in Hy by done. injection Hy as <-. done.
Qed.
End get.

(** ** Properties *)

(** C4: [DBImpl::Get] reads its snapshot.  The database holds updates in the memtable, in
    the memtable that is being compacted and in the files of the current version.  A
    lookup of a key at a snapshot, or at the last sequence number, answers with the
    newest update of the key that is not above the snapshot, wherever it is stored
    (NotFound for a deletion and where there is none), although the mutex is released
    while it reads and other threads write, switch memtables, install versions and drop
    the references that they hold: what the reader has referenced is there to the end and
    is released then.  When no other thread interferes every reference count is what it
    was and only the seek statistics may have changed. *)
Theorem db_get (user : Comparator) (Huser : ComparatorLaws any_key user) (fresh : Z → list byte) (Hfresh : ∀ n, 0 ≤ n → blen (fresh n) = n)
    (stored : Z → Z → list upd) (table_get : table_cache) {W : Type} (d : DbRead.db W) (us_mem us_imm : list upd) (v : version)
    (Hd : readable user stored table_get d us_mem us_imm v)
    (snapshot : option nat) (s : Z) (Hsnapshot : read_sequence snapshot d = Ok s) (Hs : seq_ok s)
    (k : list byte) (Hk : blen k + 13 < 2 ^ 32) (val : list byte)
    (before after : nat → DbRead.db W → nat * DbRead.db W)
    (Hothers : ∀ h d1, Get_begin snapshot d = Ok (s, h, d1) →
      let r := before (h_version h) d1 in
      let r' := after r.1 r.2 in
      undisturbed user s us_mem us_imm v h r.1 r.2 ∧ undisturbed user s us_mem us_imm v h r'.1 r'.2 ∧
      ∀ n, VersionSet.versions_ (set_ r'.2) !! r'.1 = Some n → seeks_left (VersionSet.node_version n)) :
  let us := us_mem ++ us_imm ++ version_updates (λ f, stored (number f) (file_size f)) v in
  ∃ d', Get user fresh table_get before after snapshot k val d =
      Ok (match visible user k s us with
          | Some u => match u_type u with kTypeValue => (status_ok, u_value u) | kTypeDeletion => (NotFound [], val) end
          | None => (NotFound [], val)
          end, d') ∧
    ((∀ p d1, before p d1 = (p, d1) ∧ after p d1 = (p, d1)) → same_state d d').
Proof.
  cbv zeta. pose proof (Get_begin_spec user stored table_get d us_mem us_imm v snapshot s Hd Hsnapshot) as Eb.
  specialize (Hothers _ _ Eb). cbv zeta in Hothers. cbn [h_version h_mem h_imm holds_now] in Hothers. unfold Get. rewrite Eb. cbn [mbind outcome_bind h_version h_mem h_imm holds_now].
  destruct (before _ _) as [p1 d1] eqn:E1. cbn [fst snd] in Hothers. destruct Hothers as (Hu1 & Hu2 & Hseeks).
  destruct (lookup_key_new fresh k s Hfresh Hk) as (lk & -> & F1 & F2 & F3). cbn [mbind outcome_bind].
  destruct (un_mem _ _ _ _ _ _ _ _ Hu1) as (m & [Hm _] & Hgm). cbn [h_mem holds_now] in Hm. rewrite (memtable_at_ok _ d1 m Hm). cbn [mbind outcome_bind].
  destruct (un_version _ _ _ _ _ _ _ _ Hu1) as (n & Hn & _ & Hsame).
  assert (∃ imm, match imm_ d with Some i => m ← memtable_at i d1; Ok (Some m) | None => Ok None end = Ok imm ∧
    match imm with Some imm => grown user s us_imm imm | None => us_imm = [] end) as (imm & -> & Himm).
  { pose proof (un_imm _ _ _ _ _ _ _ _ Hu1) as Hi. cbn [h_imm holds_now] in Hi. destruct (imm_ d) as [i|]; [|by exists None].
    destruct Hi as (_ & mi & [Hmi _] & Hg). exists (Some mi). by rewrite (memtable_at_ok i d1 mi Hmi). }
  cbn [mbind outcome_bind]. unfold version_at. rewrite Hn. cbn [mbind outcome_bind]. pose proof (rd_data _ _ _ _ _ _ _ Hd) as Hda.
  destruct (Get_search_spec user stored table_get s k lk val m imm us_mem us_imm (VersionSet.node_version n) Hs Hk F1 F3 F2 Hgm Himm) as (st & -> & Hst).
  - by apply (version_ok_same user stored table_get v), Hda.
  - apply Hda.
  - rewrite (same_version_updates stored v) by done. apply Hda.
  - cbn [mbind outcome_bind fst snd]. rewrite (same_version_updates stored v) by done. destruct (after p1 d1) as [p2 d2] eqn:E2. cbn [fst snd] in *.
    destruct (Get_end_spec user s us_mem us_imm v (mkHeld (mem_ d) (imm_ d) (current_position d)) p2 d2 st Hu2) as (b & w & l & E & Hw & Hl).
    { destruct st as [st|]; [|done]. by apply (same_stats (VersionSet.node_version n)). }
    { done. }
    cbn [h_mem h_imm] in E. rewrite E. cbn [mbind outcome_bind fst]. eexists. split; [reflexivity|]. intros Hq.
    rewrite (proj1 (Hq _ _)) in E1. injection E1 as <- <-. rewrite (proj2 (Hq _ _)) in E2. injection E2 as <- <-.
    destruct (rd_current _ _ _ _ _ _ _ Hd) as (n0 & Hn0 & Hr0 & _).
    apply (released_versions user stored table_get d (current_position d) b w us_mem us_imm v l Hd Hw eq_refl).
    apply (Hl (add_ref n0)); [|cbn; lia]. cbn. by rewrite list_lookup_alter_eq, Hn0.
Qed.

(** *** An example *)

(** A memtable with given updates, referenced once. *)
Lemma demo_memtable us : Forall upd_ok us → NoDup (map u_seq us) → ∃ m, refs_ m = 1 ∧ MemTable.holds BytewiseComparator m us.
Proof.
  intros Hok Hnd. assert (map snd (map (pair (1000, 8000)) us) = us) as Emap by (rewrite map_map; apply map_id). destruct (new_holds BytewiseComparator 4096 eq_refl) as (m0 & _ & H0).
  destruct (add_all_holds BytewiseComparator MemTable.zeros (map (pair (1000, 8000)) us)) with (m := m0) (ups := @nil upd) as (m & _ & Hm); [| |done|done| |].
  - intros n Hn. unfold MemTable.zeros. rewrite blen_replicate. lia.
  - apply Forall_fmap. eapply Forall_impl; [exact Hok|]. by intros u Hu.
  - cbn [app]. by rewrite Emap.
  - cbn [app] in Hm. rewrite Emap in Hm. by exists (mkMemTable 1 (arena_ m) (table_ m)).
Qed.

(** Two memtables over the two levels of the example of Version.v. *)
Definition demo_stored (n size : Z) : list upd := demo_update n.
Definition demo_newest : list upd := [mkUpd 12 kTypeValue (str "k") (str "twelve"); mkUpd 11 kTypeDeletion (str "m") []].
Definition demo_older : list upd := [mkUpd 10 kTypeValue (str "z") (str "ten")].
Definition demo_db (m i : memtable) : DbRead.db nat :=
  mkDb [Some m; Some i] 0 (Some 1%nat) (VersionSet.mkVersionSet 20 1 12 0 0 None [] [VersionSet.mkNode 1 demo_version])
    Snapshot.new 0 false false status_ok false.

Lemma demo_data_ok : data_ok BytewiseComparator demo_stored demo_table_get demo_newest demo_older demo_version.
Proof.
  assert (∀ (P : upd → Prop) us, Forall P us → ∀ u, u ∈ us → P u) as Hall by (intros P us H u; by apply Forall_forall).
  split.
  - repeat (constructor; [unfold upd_ok, seq_ok; vm_compute; intuition congruence|]). constructor.
  - intros v w Hv Hw. apply (map_injective_NoDup u_seq demo_newest); [apply (bool_decide_unpack _); vm_compute; exact I | done | done].
  - intros v w Hv Hw. apply list_elem_of_singleton in Hv as ->. by apply list_elem_of_singleton in Hw as ->.
  - exact demo_version_ok.
  - intros v w Hv Hw. apply list_elem_of_singleton in Hw as ->. revert v Hv. apply (Hall (λ v, Compare BytewiseComparator (u_key v) (str "z") = 0 → 10 < u_seq v) demo_newest). repeat (constructor; [vm_compute; congruence|]). constructor.
  - intros v w Hv Hw _.
    assert (10 ≤ u_seq v) by (revert v Hv; apply (Hall (λ v, 10 ≤ u_seq v)); repeat (constructor; [vm_compute; congruence|]); constructor).
    assert (u_seq w ≤ 9); [|lia]. revert w Hw. apply (Hall (λ w, u_seq w ≤ 9)). change (Forall (λ w, u_seq w ≤ 9) (demo_update 11 ++ demo_update 12 ++ demo_update 5 ++ demo_update 6)).
    repeat (constructor; [vm_compute; congruence|]). constructor.
Qed.

Lemma demo_readable m i : refs_ m = 1 → refs_ i = 1 → MemTable.holds BytewiseComparator m demo_newest → MemTable.holds BytewiseComparator i demo_older →
  readable BytewiseComparator demo_stored demo_table_get (demo_db m i) demo_newest demo_older demo_version.
Proof.
  intros Hrm Hri Hm Hi. split.
  - exact demo_data_ok.
  - exists m. split; [split; [done | lia] | done].
  - split; [done|]. exists i. split; [split; [done | lia] | done].
  - done.
  - exists (VersionSet.mkNode 1 demo_version). split; [done|]. split; [done | reflexivity].
Qed.

Lemma demo_files level f : f ∈ level_files demo_version level → ∃ n, n ∈ [11; 12; 5; 6] ∧ f = demo_file n.
Proof.
  intros Hf. destruct level as [|[|level]]; [| |rewrite demo_levels in Hf; by apply elem_of_nil in Hf].
  - change (f ∈ [demo_file 11; demo_file 12]) in Hf. rewrite !elem_of_cons in Hf. destruct Hf as [->|[->|Hf%elem_of_nil]]; [| |done]; eexists; (split; [|reflexivity]); set_solver.
  - change (f ∈ [demo_file 5; demo_file 6]) in Hf. rewrite !elem_of_cons in Hf. destruct Hf as [->|[->|Hf%elem_of_nil]]; [| |done]; eexists; (split; [|reflexivity]); set_solver.
Qed.

Lemma demo_seeks : seeks_left demo_version.
Proof.
  intros level f (n & Hn & ->)%demo_files. rewrite !elem_of_cons in Hn. destruct Hn as [->|[->|[->|[->|Hn%elem_of_nil]]]]; [..|done]; vm_compute; reflexivity.
Qed.

(** Another writer adds an update while the mutex is released. *)
Definition demo_write (m : memtable) (p : nat) (d : DbRead.db nat) : nat * DbRead.db nat :=
  (p, set_memtables (<[O := Some (mkMemTable 2 (arena_ m) (table_ m))]> (memtables d)) d).

Lemma db_get_witness : ∃ (d : DbRead.db nat) before d',
  DbRead.Get BytewiseComparator fresh_zeros demo_table_get before (λ p d, (p, d)) None (str "k") [] d = Ok ((status_ok, str "twelve"), d') ∧
  ∃ lk d1 m, before O d = (O, d1) ∧ memtables d1 !! O = Some (Some m) ∧ LookupKey.new fresh_zeros (str "k") 13 = Ok lk ∧
    MemTable.Get BytewiseComparator m lk [] status_ok = Ok (true, str "later", status_ok).
Proof.
  pose proof (proj1 (Forall_app upd_ok demo_newest demo_older) (da_updates _ _ _ _ _ _ demo_data_ok)) as [Hnew Hold].
  destruct (demo_memtable demo_newest) as (m & Hrm & Hm); [exact Hnew | apply (bool_decide_unpack _); vm_compute; exact I|].
  destruct (demo_memtable demo_older) as (i & Hri & Hi); [exact Hold | apply (bool_decide_unpack _); vm_compute; exact I|].
  set (later := mkUpd 13 kTypeValue (str "k") (str "later")).
  assert (upd_ok later) as Hlater by (unfold upd_ok, seq_ok; vm_compute; intuition congruence).
  assert (Forall upd_ok (demo_newest ++ [later])) as Hall.
  { apply Forall_app. split; [exact Hnew | by constructor]. }
  assert (distinct_seqs (demo_newest ++ [later])) as Hdist.
  { intros v w Hv Hw. apply (map_injective_NoDup u_seq (demo_newest ++ [later])); [|done|done]. apply (bool_decide_unpack _). vm_compute. exact I. }
  destruct (demo_memtable (demo_newest ++ [later]) Hall) as (m' & _ & Hm'); [apply (bool_decide_unpack _); vm_compute; exact I|].
  pose proof (demo_readable m i Hrm Hri Hm Hi) as Hd.
  destruct (db_get BytewiseComparator bytewise_laws fresh_zeros fresh_zeros_len demo_stored demo_table_get (demo_db m i) demo_newest demo_older demo_version Hd
    None 12 eq_refl ltac:(split; vm_compute; congruence) (str "k") ltac:(vm_compute; reflexivity) [] (demo_write m') (λ p d, (p, d))) as (d' & E & _).
  - intros h d1 Eb. pose proof (Get_begin_spec BytewiseComparator demo_stored demo_table_get (demo_db m i) demo_newest demo_older demo_version None 12 Hd eq_refl) as Eb'. assert (h = holds_now (demo_db m i) ∧ d1 = referenced (holds_now (demo_db m i)) (demo_db m i)) as [-> ->] by (split; congruence).
    assert (undisturbed BytewiseComparator 12 demo_newest demo_older demo_version (holds_now (demo_db m i)) (demo_write m' 0 (referenced (holds_now (demo_db m i)) (demo_db m i))).1
      (demo_write m' 0 (referenced (holds_now (demo_db m i)) (demo_db m i))).2) as Hu.
    { destruct (referenced_undisturbed _ _ _ (demo_db m i) _ _ _ 12 Hd) as [_ U2 U3]. split; [|exact U2|exact U3].
      exists (mkMemTable 2 (arena_ m') (table_ m')). split; [by split|]. exists [later]. split; [exact Hm'|]. split; [exact Hall|]. split; [exact Hdist|].
      intros u ->%list_elem_of_singleton. vm_compute. reflexivity. }
    cbv zeta. split; [exact Hu|]. split; [exact Hu|]. intros n Hn. assert (n = VersionSet.mkNode 2 demo_version) as -> by (change (Some (VersionSet.mkNode 2 demo_version) = Some n) in Hn; congruence).
    exact demo_seeks.
  - exists (demo_db m i), (demo_write m'), d'. split; [etransitivity; [exact E | vm_compute; reflexivity]|].
    destruct (lookup_key_new fresh_zeros (str "k") 13 fresh_zeros_len ltac:(vm_compute; reflexivity)) as (lk & El & E1 & E2 & E3).
    exists lk, (demo_write m' 0 (demo_db m i)).2, (mkMemTable 2 (arena_ m') (table_ m')). split; [done|]. split; [done|]. split; [exact El|].
    rewrite (Get_spec BytewiseComparator (mkMemTable 2 (arena_ m') (table_ m')) (demo_newest ++ [later]) lk (str "k") 13 [] status_ok Hm' Hall Hdist
      ltac:(split; vm_compute; congruence) ltac:(vm_compute; reflexivity) E1 E3). vm_compute. reflexivity.
Defined.
