(* ===== verification/DbScan.v ===== *)
(** * db/db_impl.cc, db/version_set.cc: iterators over the database

    The iterators that [DBImpl::NewIterator] makes.  The children of the merging iterator
    are different classes behind one interface: an object [shown] as a list stays shown as
    it inside an object that forwards the calls, so the merge of the memtables, the tables
    of level 0 and the concatenated levels is a cursor on the sorted union of all updates,
    and the contract of the user's iterator (DbIter.v) applies to it. *)
From stdpp Require Import gmap.
From Stdlib Require Import Sorting.Sorted.
From S2P Require Import Prelude.
From S2P Require Import Coding.
From S2P Require Import Interfaces.
From S2P Require Import Comparator.
From S2P Require Import Dbformat.
From S2P Require Import Status.
From S2P Require Import Cursor.
From S2P Require Import Iterators.
From S2P Require Import SkipList.
From S2P Require Import MemTable.
From S2P Require Import Merger.
From S2P Require Import TwoLevel.
From S2P Require Import DbIter.
From S2P Require Import VersionEdit.
From S2P Require Import Updates.
From S2P Require Import Version.
From S2P Require Import VersionBuilder.
From S2P Require Import VersionSet.
From S2P Require Import Snapshot.
From S2P Require Import DbRead.
Import MemTable Version DbRead.

(** ** Lemmas *)

Section scan.
Context (user : Comparator) `{Huser : !ComparatorLaws any_key user} (stored : Z → Z → list upd) (table_get : table_cache).
Context {TI : Type} (table_iter : IteratorOps TI) (NewTableIterator : Z → Z → outcome TI) (fuel : nat) {W : Type}.
#[local] Notation icmp := (InternalKeyComparator.Compare user).
#[local] Notation ucmp := (Compare user).
#[local] Notation contents := (λ f : FileMetaData, stored (number f) (file_size f)).
#[local] Notation child_ops := (child_ops user table_iter NewTableIterator fuel).
#[local] Notation file_ops := (file_ops table_iter).
#[local] Notation level_ops := (level_ops user table_iter NewTableIterator fuel).
Implicit Types (d : DbRead.db W).

(** The table of a file can be opened, and its iterator is a cursor on the updates. *)
Definition opens (f : FileMetaData) : Prop := is_u64 (number f) ∧ is_u64 (file_size f) ∧
  ∃ it, NewTableIterator (number f) (file_size f) = Ok it ∧ shown table_iter icmp target_ok (map row (contents f)) it (length (contents f)).

(** *** The objects forward the calls *)

Lemma file_forwards : forwards table_iter file_ops FileIter.
Proof. by split; [..|intros it []]. Qed.
Lemma mem_forwards m : forwards (MemTable.iterator user m) child_ops (MemChild m).
Proof. by split; [..|intros it []]. Qed.
Lemma table_forwards : forwards table_iter child_ops TableChild.
Proof. by split; [..|intros it []]. Qed.
Lemma level_forwards files : forwards (level_ops files) child_ops (LevelChild files).
Proof. by split; [..|intros it []]. Qed.

Lemma shown_forward {S T} (I : IteratorOps S) (J : IteratorOps T) inj es it pos : forwards I J inj →
  shown I icmp target_ok es it pos → shown J icmp target_ok es (inj it) pos.
Proof.
  intros HF (sh & HL & H). apply (shown_intro _ _ _ _ (λ jt p, ∃ i, jt = inj i ∧ sh i p)); [|by exists it].
  by apply (forwards_laws I J inj icmp target_ok target_ok es sh HF).
Qed.

(** *** The iterator over a level *)

(** The entries behind a value of the index. *)
Definition file_entries (h : list byte) : list entry :=
  match DecodeFixed64 h, DecodeFixed64 (drop 8 h) with Ok n, Ok size => map row (stored n size) | _, _ => [] end.

Lemma file_value_decode f : is_u64 (number f) → is_u64 (file_size f) →
  DecodeFixed64 (file_value f) = Ok (number f) ∧ DecodeFixed64 (drop 8 (file_value f)) = Ok (file_size f) ∧ blen (file_value f) = 16.
Proof.
  intros Hn Hs. unfold file_value. assert (drop 8 (EncodeFixed64 (number f) ++ EncodeFixed64 (file_size f)) = EncodeFixed64 (file_size f)) as ->.
  { rewrite <- (length_EncodeFixed64 (number f)). apply drop_app_length. }
  split; [by apply DecodeFixed64_Encode|]. split; [|by rewrite blen_app; unfold blen; rewrite !length_EncodeFixed64].
  rewrite <- (app_nil_r (EncodeFixed64 (file_size f))). by apply DecodeFixed64_Encode.
Qed.
Lemma file_entries_value f : is_u64 (number f) → is_u64 (file_size f) → file_entries (file_value f) = map row (contents f).
Proof. intros Hn Hs. unfold file_entries. by destruct (file_value_decode f Hn Hs) as (-> & -> & _). Qed.

Lemma file_function_opens f : opens f → ∃ it, file_function NewTableIterator (file_value f) = Ok (Some it) ∧
  shown file_ops icmp target_ok (file_entries (file_value f)) it (length (contents f)).
Proof.
  intros (Hn & Hs & it & E & H). exists (FileIter it). unfold file_function, GetFileIterator.
  destruct (file_value_decode f Hn Hs) as (E1 & E2 & E3). rewrite E3, E1, E2. cbn [Z.eqb Pos.eqb mbind outcome_bind fst snd]. rewrite E. cbn [mbind outcome_bind].
  split; [done|]. rewrite file_entries_value by done. by apply (shown_forward table_iter file_ops FileIter _ _ _ file_forwards).
Qed.

Lemma level_blocks files : (∀ f, f ∈ files → opens f) → concat (blocks (map file_row files) file_entries) = map row (concat (map contents files)).
Proof.
  intros H. unfold blocks. induction files as [|f files IH]; [done|]. cbn [map concat]. rewrite map_app, <- IH by (intros g Hg; apply H; by right).
  f_equal. destruct (H f ltac:(by left)) as (Hn & Hs & _). by apply file_entries_value.
Qed.

#[local] Instance target_order : OrderLaws target_ok icmp.
Proof.
  pose proof (comparator_order ikey_ok _ (internal_laws user)) as [H1 H2]. split.
  - intros a b [Ha _] [Hb _]. by apply H1.
  - intros a b c [Ha _] [Hb _] [Hc _]. by apply H2.
Qed.

(** User keys of an ordinary size. *)
Definition short_keys (us : list upd) : Prop := ∀ u, u ∈ us → blen (u_key u) + 13 < 2 ^ 32.
Lemma short_target u : blen (u_key u) + 13 < 2 ^ 32 → target_ok (upd_ikey u).
Proof. intros H. split; [apply ikey_ok_ikey|]. unfold upd_ikey. rewrite blen_ikey. pose proof (blen_nonneg (u_key u)). unfold is_u32. lia. Qed.

Section level.
Context (v : version) (Hv : version_ok user contents table_get v) (Hopens : ∀ level f, f ∈ level_files v level → opens f)
  (Hshort : short_keys (version_updates contents v)) (Hfuel : ∀ level, (S (length (level_files v level)) < fuel)%nat).

Lemma file_short level f u : f ∈ level_files v level → u ∈ contents f → blen (u_key u) + 13 < 2 ^ 32.
Proof. intros Hf Hu. apply Hshort, (elem_of_version_updates user contents table_get v u Hv). exists level. apply elem_of_level_updates. by exists f. Qed.

Lemma level_separates level : (0 < level)%nat → index_separates (internal_comparator user) (map file_row (level_files v level)) file_entries.
Proof.
  intros Hl j k b e Hj Hb x Hx. pose proof (vo_sorted _ _ _ _ Hv level Hl) as Hsort.
  rewrite list_lookup_fmap in Hj. apply fmap_Some in Hj as (f & Hf & ->). unfold blocks in Hb. rewrite !list_lookup_fmap in Hb.
  destruct (level_files v level !! b) as [g|] eqn:Hg; [|done]. injection Hb as <-.
  pose proof (list_elem_of_lookup_2 _ _ _ Hf) as Hfi. pose proof (list_elem_of_lookup_2 _ _ _ Hg) as Hgi.
  destruct (Hopens level g Hgi) as (Hn & Hs & _). change ((file_row g).2) with (file_value g) in Hx. rewrite file_entries_value in Hx by done.
  apply list_elem_of_fmap in Hx as (u & -> & Hu). destruct (vo_holds _ _ _ _ Hv level g Hgi) as [Hh _]. destruct (fh_within _ _ _ Hh u Hu) as [Hlo Hhi].
  destruct (lo_files _ _ Hsort f Hfi) as (F1 & F2 & F3). destruct (lo_files _ _ Hsort g Hgi) as (G1 & G2 & G3). pose proof (ikey_ok_ikey (u_key u) (u_seq u) (u_type u)) as Hk.
  cbn [row fst file_row]. fold (upd_ikey u) in Hk. split; intros Hbj.
  - destruct (decide (b = j)) as [->|]; [rewrite Hf in Hg; by injection Hg as <-|].
    pose proof (lo_sorted _ _ Hsort b j g f ltac:(lia) Hg Hf) as Hgf. apply Z.lt_le_incl. apply (icmp_le_lt user _ (largest g)); [done ..|].
    by apply (icmp_lt_le user _ (smallest f)).
  - pose proof (lo_sorted _ _ Hsort j b f g ltac:(lia) Hf Hg) as Hfg. by apply (icmp_lt_le user _ (smallest g)).
Qed.

Lemma level_shown level : (0 < level)%nat → ∃ t, NewConcatenatingIterator (TI := TI) user v level = Ok t ∧
  shown child_ops icmp target_ok (map row (level_updates contents v level)) (LevelChild (level_files v level) t) (length (level_updates contents v level)).
Proof.
  intros Hl. set (files := level_files v level). pose proof (vo_sorted _ _ _ _ Hv level Hl) as Hsort. fold files in Hsort.
  pose proof (level_cursor user files Hsort) as HI0.
  pose proof (weaken_laws _ _ ikey_ok target_ok _ _ (λ t (H : target_ok t), proj1 H) HI0) as HI.
  assert (∀ f, f ∈ files → opens f) as Ho by apply Hopens.
  assert (∀ k h, (k, h) ∈ map file_row files → ∃ it, file_function NewTableIterator h = Ok (Some it) ∧ ∃ p, shown file_ops icmp target_ok (file_entries h) it p) as Hopen.
  { intros k h (f & [= -> ->] & Hf)%list_elem_of_fmap. destruct (file_function_opens f (Ho f Hf)) as (it & E & H). exists it. split; [done|]. by eexists. }
  assert (∀ e, e ∈ concat (blocks (map file_row files) file_entries) → target_ok e.1) as Hkeys.
  { intros e. rewrite level_blocks by done. intros (u & -> & Hu)%list_elem_of_fmap. apply short_target. apply list_elem_of_In, in_concat in Hu as (us & Hus & Hu).
    apply in_map_iff in Hus as (f & <- & Hf). apply list_elem_of_In in Hf, Hu. by apply (file_short level f u). }
  assert (∀ i, i ∈ map file_row files → target_ok i.1) as Hikeys.
  { intros i (f & -> & Hf)%list_elem_of_fmap. destruct (vo_holds _ _ _ _ Hv level f Hf) as [Hh _]. destruct (fh_last _ _ _ Hh) as (u & Hu & E). cbn [file_row fst]. rewrite <- E.
    apply short_target. by apply (file_short level f u). }
  destruct (new_two_level (internal_comparator user) (LevelFileNumIterator user files) target_ok (map file_row files) file_entries
    (λ index pos, index = Z.of_nat pos ∧ (pos ≤ length files)%nat) (λ h, shown file_ops icmp target_ok (file_entries h)) HI (new_file_iterator files) (length files)) as (t & E & Ht).
  { split; [|done]. unfold new_file_iterator. pose proof (lo_count _ _ Hsort). apply u32_small. unfold is_u32, blen in *. lia. }
  exists t. split; [exact E|].
  pose proof (two_level_laws (internal_comparator user) (LevelFileNumIterator user files) file_ops (file_function NewTableIterator) target_ok (map file_row files) file_entries
    (λ index pos, index = Z.of_nat pos ∧ (pos ≤ length files)%nat) (λ h, shown file_ops icmp target_ok (file_entries h)) HI
    (λ h, shown_laws file_ops icmp target_ok (file_entries h)) Hopen (level_separates level Hl) Hkeys Hikeys fuel) as HL.
  rewrite length_map in HL. specialize (HL (Hfuel level)). rewrite (level_blocks files Ho) in HL, Ht. rewrite length_map in Ht.
  apply (shown_forward (level_ops files) child_ops (LevelChild files)); [apply level_forwards|]. eapply shown_intro; [exact HL | exact Ht].
Qed.
End level.

(** *** All runs of a version *)

Lemma nodup_concat {A} (ls : list (list A)) : (∀ l, l ∈ ls → NoDup l) → (∀ i j l k, (i < j)%nat → ls !! i = Some l → ls !! j = Some k → ∀ x, x ∈ l → x ∉ k) → NoDup (concat ls).
Proof.
  induction ls as [|l ls IH]; intros Hl Hd; [constructor|]. cbn [concat]. apply NoDup_app. split; [apply Hl; by left|]. split.
  - intros x Hx Hin. apply list_elem_of_In, in_concat in Hin as (k & Hk & Hxk). apply list_elem_of_In in Hk, Hxk. apply list_elem_of_lookup in Hk as [j Hj].
    by apply (Hd 0%nat (S j) l k ltac:(lia) eq_refl Hj x).
  - apply IH; [intros k Hk; apply Hl; by right|]. intros i j k k' Hij Hi Hj. by apply (Hd (S i) (S j) k k'); [lia|..].
Qed.

Lemma files_run files : level_sorted user files → (∀ f, f ∈ files → file_holds user contents f) → run_ok user (concat (map contents files)).
Proof.
  induction files as [|f files IH]; intros Hs Hh; [split; [by intros i j x y _ Hx | by intros u ?%elem_of_nil]|]. cbn [map concat]. apply run_ok_join.
  - apply (Hh f ltac:(by left)).
  - apply IH; [|intros g Hg; apply Hh; by right]. destruct Hs as [H1 H2 H3]. split.
    + intros g Hg. apply H1. by right.
    + intros i j g h Hij Hg Hh'. by apply (H2 (S i) (S j) g h); [lia|..].
    + rewrite blen_cons in H3. lia.
  - intros u w Hu Hw. apply list_elem_of_In, in_concat in Hw as (us & Hus & Hw). apply in_map_iff in Hus as (g & <- & Hg). apply list_elem_of_In in Hg, Hw.
    destruct (fh_within _ _ _ (Hh f ltac:(by left)) u Hu) as [_ Hhi]. destruct (fh_within _ _ _ (Hh g ltac:(by right)) w Hw) as [Hlo _].
    destruct (lo_files _ _ Hs f ltac:(by left)) as (_ & F2 & _). destruct (lo_files _ _ Hs g ltac:(by right)) as (G1 & _ & _).
    pose proof (ikey_ok_ikey (u_key u) (u_seq u) (u_type u)) as Hku. pose proof (ikey_ok_ikey (u_key w) (u_seq w) (u_type w)) as Hkw. fold (upd_ikey u) in Hku. fold (upd_ikey w) in Hkw.
    apply list_elem_of_lookup in Hg as [j Hj]. pose proof (lo_sorted _ _ Hs 0%nat (S j) f g ltac:(lia) eq_refl Hj) as Hfg.
    apply (icmp_le_lt user _ (largest f)); [done ..|]. by apply (icmp_lt_le user _ (smallest g)).
Qed.

Definition other_levels (v : version) : list nat := filter (λ l, level_files v l ≠ []) (seq 1 (Z.to_nat kNumLevels - 1)).
Definition runs (v : version) : list (list upd) := map contents (level_files v 0) ++ map (level_updates contents v) (other_levels v).

Lemma runs_concat v : concat (runs v) = version_updates contents v.
Proof.
  unfold runs, version_updates. rewrite concat_app. change (seq 0 (Z.to_nat kNumLevels)) with (0%nat :: seq 1 (Z.to_nat kNumLevels - 1)). cbn [map concat].
  f_equal. unfold other_levels. induction (seq 1 _) as [|l ls IH]; [done|]. rewrite filter_cons. case_decide as E; cbn [map concat]; rewrite IH; [done|].
  assert (level_updates contents v l = []) as ->; [|done]. unfold level_updates. by rewrite E.
Qed.

Section version.
Context (v : version) (Hv : version_ok user contents table_get v).

Lemma runs_ok us : us ∈ runs v → run_ok user us.
Proof.
  unfold runs. intros [(f & -> & Hf)%list_elem_of_fmap|(l & -> & Hl)%list_elem_of_fmap]%elem_of_app.
  - apply (fh_run _ _ _ (proj1 (vo_holds _ _ _ _ Hv 0 f Hf))).
  - apply list_elem_of_filter in Hl as [_ [Hl _]%elem_of_seq]. unfold level_updates. apply files_run; [apply (vo_sorted _ _ _ _ Hv); lia|].
    intros f Hf. apply (proj1 (vo_holds _ _ _ _ Hv l f Hf)).
Qed.

Lemma version_nodup : NoDup (version_updates contents v).
Proof.
  unfold version_updates. apply nodup_concat.
  - intros us (l & -> & Hl)%list_elem_of_fmap. destruct l as [|l].
    + apply nodup_concat; [intros us (f & -> & Hf)%list_elem_of_fmap; apply (run_nodup user), (fh_run _ _ _ (proj1 (vo_holds _ _ _ _ Hv 0 f Hf)))|].
      intros i j us us' Hij Hi Hj u Hu Hu'. rewrite list_lookup_fmap in Hi, Hj. apply fmap_Some in Hi as (f & Hf & ->). apply fmap_Some in Hj as (g & Hg & ->).
      destruct (vo_level0 _ _ _ _ Hv i j f g ltac:(lia) Hf Hg) as [Hne H1]. destruct (vo_level0 _ _ _ _ Hv j i g f ltac:(lia) Hg Hf) as [_ H2].
      destruct (Z.lt_total (number g) (number f)) as [Hlt|[|Hlt]]; [|done|].
      * by apply (newer_disjoint user _ _ u (H1 Hlt)).
      * by apply (newer_disjoint user _ _ u (H2 Hlt)).
    + apply (run_nodup user). unfold level_updates. apply files_run; [apply (vo_sorted _ _ _ _ Hv); lia|]. intros f Hf. apply (proj1 (vo_holds _ _ _ _ Hv (S l) f Hf)).
  - intros i j us us' Hij Hi Hj u. rewrite list_lookup_fmap in Hi, Hj. apply fmap_Some in Hi as (l & [-> _]%lookup_seq & ->). apply fmap_Some in Hj as (m & [-> _]%lookup_seq & ->).
    apply (newer_disjoint user). apply (vo_newer _ _ _ _ Hv). lia.
Qed.
End version.

(** *** The memtables *)

Definition showing (us : list upd) (c : child) : Prop := shown child_ops icmp target_ok (map row us) c (length us).

Lemma memtable_showing m us : holds user m us → Forall upd_ok us → ∃ us', us' ≡ₚ us ∧ run_ok user us' ∧ showing us' (MemChild m None).
Proof.
  intros (es & Hrep & Hp) Hok. apply Permutation_map_inv in Hp as (us' & -> & Hp). exists us'. split; [by symmetry|].
  assert (Forall upd_ok us') as Hok' by (by rewrite <- Hp). split; [split; [by apply (rows_sorted user m)|]|].
  - intros u Hu. rewrite Forall_forall in Hok'. apply (Hok' u Hu).
  - unfold showing. rewrite <- (length_map row us'). apply (shown_forward (MemTable.iterator user m) child_ops (MemChild m)); [apply mem_forwards|].
    eapply shown_intro; [by apply (memtable_cursor user m us')|]. rewrite length_map. split; [|done]. symmetry. apply lookup_ge_None.
    by rewrite (table_length user m us' Hrep).
Qed.

(** *** The internal iterator *)

Lemma add_tables files : (∀ f, f ∈ files → opens f) → ∀ its, ∃ its',
  for_loop (add_table NewTableIterator) files its = Ok (its ++ its') ∧ Forall2 showing (map contents files) its'.
Proof.
  induction files as [|f files IH]; intros Ho its; [exists []; by rewrite app_nil_r|]. cbn [for_loop map].
  destruct (Ho f ltac:(by left)) as (_ & _ & it & E & Hit). 
  assert (add_table NewTableIterator f its = Ok (its ++ [TableChild it])) as -> by (unfold add_table; by rewrite E). cbn [mbind outcome_bind].
  destruct (IH (λ g Hg, Ho g ltac:(by right)) (its ++ [TableChild it])) as (its' & -> & H'). exists (TableChild it :: its'). rewrite <- app_assoc. split; [done|].
  constructor; [|done]. by apply (shown_forward table_iter child_ops TableChild _ _ _ table_forwards).
Qed.

Section internal.
Context (v : version) (Hv : version_ok user contents table_get v) (Hopens : ∀ level f, f ∈ level_files v level → opens f)
  (Hshort : short_keys (version_updates contents v)) (Hfuel : ∀ level, (S (length (level_files v level)) < fuel)%nat).

Lemma add_levels levels : (∀ l, l ∈ levels → (0 < l)%nat) → ∀ its, ∃ its',
  for_loop (add_level user v) levels its = Ok (its ++ its') ∧ Forall2 showing (map (level_updates contents v) (filter (λ l, level_files v l ≠ []) levels)) its'.
Proof.
  induction levels as [|l levels IH]; intros Hl its; [exists []; by rewrite app_nil_r|]. cbn [for_loop].
  pose proof (λ its, IH (λ m Hm, Hl m ltac:(by right)) its) as IH'. destruct (level_files v l) as [|f files] eqn:El.
  - rewrite filter_cons_False by tauto. assert (add_level user v l its = Ok its) as -> by (unfold add_level; by rewrite El). apply IH'.
  - rewrite filter_cons_True by (by rewrite El). destruct (level_shown v Hv Hopens Hshort Hfuel l) as (t & Et & Ht); [apply Hl; by left|].
    assert (add_level user v l its = Ok (its ++ [LevelChild (level_files v l) t])) as -> by (unfold add_level; rewrite El, Et; done). cbn [mbind outcome_bind map]. destruct (IH' (its ++ [LevelChild (level_files v l) t])) as (its' & -> & H'). exists (LevelChild (level_files v l) t :: its'). rewrite <- app_assoc. split; [done|].
    by constructor.
Qed.

Lemma AddIterators_spec its : ∃ its', AddIterators user NewTableIterator v its = Ok (its ++ its') ∧ Forall2 showing (runs v) its'.
Proof.
  unfold AddIterators. destruct (add_tables (level_files v 0) (Hopens 0) its) as (its0 & -> & H0). cbn [mbind outcome_bind].
  destruct (add_levels (seq 1 (Z.to_nat kNumLevels - 1))) with (its := its ++ its0) as (its1 & -> & H1); [intros l [Hl _]%elem_of_seq; lia|].
  exists (its0 ++ its1). rewrite app_assoc. split; [done|]. by apply Forall2_app.
Qed.
End internal.

(** The merge of children that show runs. *)
Lemma merge_showing rs its us : Forall2 showing rs its → us ≡ₚ concat rs → run_ok user us → (∀ r, r ∈ rs → run_ok user r) → short_keys us →
  ∃ m, Merging.NewMergingIterator (λ _, child_ops) its = Ok m ∧ shown (internal_ops user table_iter NewTableIterator fuel) icmp target_ok (map row us) m (length us).
Proof.
  intros Hits Hp Hrun Hrs Hshort. set (ess := map (map row) rs).
  assert (∀ e, e ∈ map row us → target_ok e.1) as Hkeys by (intros e (u & -> & Hu)%list_elem_of_fmap; by apply short_target, Hshort).
  destruct (union_tagged icmp target_ok ess (map row us)) as (tagged & Et & Htags & Hparts).
  - unfold ess. rewrite <- concat_map. by apply Permutation_map.
  - apply Hrun.
  - intros i l Hl. unfold ess in Hl. rewrite list_lookup_fmap in Hl. apply fmap_Some in Hl as (r & Hr & ->). apply (Hrs r). by eapply list_elem_of_lookup_2.
  - done.
  - rewrite Et in Hkeys. pose proof (proj1 Hrun) as Hsort. rewrite Et in Hsort.
    pose proof (Forall2_length _ _ _ Hits) as Hlen.
    assert (∀ i l, ess !! i = Some l → CursorLaws child_ops icmp target_ok l (shown child_ops icmp target_ok (default [] (ess !! i)))) as Hchild.
    { intros i l ->. apply shown_laws. }
    assert (∀ x, x ∈ tagged → target_ok x.2.1) as Hk by (intros x Hx; apply Hkeys; by apply list_elem_of_fmap_2).
    destruct (NewMergingIterator_spec (internal_comparator user) (λ _, child_ops) target_ok ess (λ i, shown child_ops icmp target_ok (default [] (ess !! i))) tagged
      Hchild Hparts Htags Hsort Hk its (λ i, length (default [] (ess !! i)))) as (m & E & Hm).
    + unfold ess. by rewrite length_map.
    + intros i it Hi. destruct (Forall2_lookup_r _ _ _ _ _ Hits Hi) as (r & Hr & Hs). unfold ess. rewrite list_lookup_fmap, Hr. cbn. rewrite length_map. exact Hs.
    + intros i l Hl. by rewrite Hl.
    + exists m. split; [exact E|]. rewrite Et. rewrite <- (length_map row us), Et.
      eapply shown_intro; [|exact Hm]. exact (merged_laws (internal_comparator user) (λ _, child_ops) target_ok ess _ tagged Hchild Hparts Htags Hsort Hk).
Qed.

(** Everything that the database holds, in order. *)
Lemma database_run us_mem us_imm v d : readable user stored table_get d us_mem us_imm v →
  ∃ us, us ≡ₚ us_mem ++ us_imm ++ version_updates contents v ∧ run_ok user us ∧ seqs_unique user us.
Proof.
  intros Hd. pose proof (rd_data _ _ _ _ _ _ _ Hd) as [Hu Hm Hi Hv Hn1 Hn2]. pose proof Hu as [Hum Hui]%Forall_app. apply (newer_app_l user) in Hn2 as [Hn2 Hn3].
  assert (∀ us m, holds user m us → Forall upd_ok us → NoDup us) as Hnd.
  { intros us m Hh Hok. destruct (memtable_showing m us Hh Hok) as (us' & <- & Hrun & _). by apply (run_nodup user). }
  assert (NoDup us_imm) as Hndi.
  { pose proof (rd_imm _ _ _ _ _ _ _ Hd) as Hri. destruct (imm_ d); [|subst; constructor]. destruct Hri as (_ & m & _ & Hh). by apply (Hnd _ m). }
  destruct (rd_mem _ _ _ _ _ _ _ Hd) as (m & _ & Hh). pose proof (Hnd _ _ Hh Hum) as Hndm.
  assert (∀ us, distinct_seqs us → seqs_unique user us) as Hds by (intros us H v1 w1 H1 H2 _; by apply H).
  assert (seqs_unique user (us_mem ++ us_imm ++ version_updates contents v)) as Huniq.
  { apply seqs_unique_newer; [done | by apply (newer_app_r user) | by apply Hds|]. apply seqs_unique_newer; [done | done | by apply Hds | apply (vo_unique _ _ _ _ Hv)]. }
  destruct (sorted_run user (us_mem ++ us_imm ++ version_updates contents v)) as (us & Hp & Hrun).
  - apply NoDup_app. split; [done|]. split.
    + intros x Hx [Hin|Hin]%elem_of_app; [by apply (newer_disjoint user us_mem us_imm x) | by apply (newer_disjoint user us_mem (version_updates contents v) x)].
    + apply NoDup_app. split; [done|]. split; [|by apply version_nodup]. intros x Hx Hin. by apply (newer_disjoint user us_imm (version_updates contents v) x).
  - done.
  - intros u [H|[H|H]%elem_of_app]%elem_of_app.
    + rewrite Forall_forall in Hum. apply (Hum u H).
    + rewrite Forall_forall in Hui. apply (Hui u H).
    + rewrite <- runs_concat in H. apply list_elem_of_In, in_concat in H as (r & Hr & H). apply list_elem_of_In in Hr, H. by apply (runs_ok v Hv r Hr).
  - exists us. split; [done|]. split; [done|]. apply (seqs_unique_sub user (us_mem ++ us_imm ++ version_updates contents v)); [|done]. intros u. by rewrite Hp.
Qed.

Lemma NewInternalIterator_spec d us_mem us_imm v us : readable user stored table_get d us_mem us_imm v →
  (∀ level f, f ∈ level_files v level → opens f) → short_keys (version_updates contents v) → (∀ level, (S (length (level_files v level)) < fuel)%nat) →
  us ≡ₚ us_mem ++ us_imm ++ version_updates contents v → run_ok user us →
  ∃ m, NewInternalIterator user table_iter NewTableIterator fuel d =
      Ok (m, Cleanup.RegisterCleanup Cleanup.new (holds_now d), VersionSet.last_sequence_ (set_ d), u32 (seed_ d + 1), set_seed (u32 (seed_ d + 1)) (referenced (holds_now d) d)) ∧
    shown (internal_ops user table_iter NewTableIterator fuel) icmp target_ok (map row us) m (length us).
Proof.
  intros Hd Hopens Hshort Hfuel Hp Hrun. pose proof Hd as [Hda (m & Hm & Hhm) Hi Hne (n & Hn & Hr & Hsame)]. pose proof (da_updates _ _ _ _ _ _ Hda) as [Hum Hui]%Forall_app.
  set (w := VersionSet.node_version n) in *.
  assert (version_ok user contents table_get w) as Hw by (by apply (version_ok_same user stored table_get v), Hda).
  assert (∀ level f, f ∈ level_files w level → opens f) as Hopens'.
  { intros level g [i Hg]%list_elem_of_lookup. destruct (same_files_lookup v w level i g Hsame Hg) as (f & Hf & E1 & E2 & _).
    apply list_elem_of_lookup_2, Hopens in Hf. unfold opens in *. by rewrite <- E1, <- E2. }
  assert (short_keys (version_updates contents w)) as Hshort' by (by rewrite (same_version_updates stored v w)).
  assert (∀ level, (S (length (level_files w level)) < fuel)%nat) as Hfuel' by (intros level; by rewrite <- (Forall2_length _ _ _ (same_files_level v w level Hsame))).
  unfold NewInternalIterator. rewrite (memtable_at_ok _ d m (proj1 Hm)). cbn [mbind outcome_bind]. rewrite (ref_memtable_ok _ d m Hm). cbn [mbind outcome_bind].
  destruct (memtable_showing m us_mem Hhm Hum) as (us1 & Hp1 & Hrun1 & Hs1).
  set (d1 := set_memtables (alter (fmap MemTable.Ref) (mem_ d) (memtables d)) d).
  assert (∃ list d2 rs, (match imm_ d with
      | Some i => imm ← memtable_at i d1; d ← ref_memtable i d1; Ok ([MemChild m None] ++ [MemChild imm None], d)
      | None => Ok ([MemChild m None], d1)
      end) = Ok (list, d2) ∧ Forall2 showing rs list ∧ concat rs ≡ₚ us_mem ++ us_imm ∧ (∀ r, r ∈ rs → run_ok user r) ∧
      (imm_ d2 = imm_ d ∧ mem_ d2 = mem_ d ∧ set_ d2 = set_ d ∧ seed_ d2 = seed_ d) ∧
      set_set (VersionSet.set_versions (alter add_ref (current_position d) (VersionSet.versions_ (set_ d))) (set_ d)) d2 = referenced (holds_now d) d)
    as (list & d2 & rs & Eimm & Hlist & Hrs & Hrun2 & (F1 & F2 & F3 & F4) & Eref).
  { unfold referenced, holds_now. cbn [h_mem h_imm h_version]. destruct (imm_ d) as [i|] eqn:Ei.
    - destruct Hi as (Hnei & mi & [Hmi Hri] & Hhi). assert (alive d1 i mi) as Hai by (split; [cbn; by rewrite list_lookup_alter_ne | done]).
      rewrite (memtable_at_ok i d1 mi (proj1 Hai)). cbn [mbind outcome_bind]. rewrite (ref_memtable_ok i d1 mi Hai). cbn [mbind outcome_bind].
      destruct (memtable_showing mi us_imm Hhi Hui) as (us2 & Hp2 & Hrun2 & Hs2).
      exists [MemChild m None; MemChild mi None], (set_memtables (alter (fmap MemTable.Ref) i (memtables d1)) d1), [us1; us2]. split; [done|]. split; [by repeat constructor|].
      split; [cbn; rewrite app_nil_r; by rewrite Hp1, Hp2|]. split; [|done]. intros r [->|[->|?%elem_of_nil]%elem_of_cons]%elem_of_cons; done.
    - subst us_imm. exists [MemChild m None], d1, [us1]. split; [done|]. split; [by repeat constructor|]. split; [cbn; by rewrite !app_nil_r|]. split; [|done].
      intros r [->|?%elem_of_nil]%elem_of_cons; done. }
  cbv zeta. fold d1. change (imm_ d1) with (imm_ d). rewrite Eimm. cbn [mbind outcome_bind]. unfold current_position, version_at. rewrite F3. fold (current_position d). rewrite Hn. cbn [mbind outcome_bind]. fold w.
  destruct (AddIterators_spec w Hw Hopens' Hshort' Hfuel' list) as (its & -> & Hits). cbn [mbind outcome_bind].
  destruct (merge_showing (rs ++ runs w) (list ++ its) us) as (im & -> & Him).
  - by apply Forall2_app.
  - rewrite concat_app, runs_concat, (same_version_updates stored v w) by done. by rewrite Hrs, <- app_assoc.
  - done.
  - intros r [Hr'|Hr']%elem_of_app; [by apply Hrun2 | by apply (runs_ok w Hw)].
  - intros u. rewrite Hp, !elem_of_app. rewrite Forall_forall in Hum, Hui. intros [H|[H|H]]; [apply (Hum u H) | apply (Hui u H) | by apply Hshort].
  - exists im. split; [|done]. cbn [mbind outcome_bind]. unfold ref_version, VersionSet.Ref. rewrite F3, Hn. cbn [mbind outcome_bind].
    change (VersionSet.mkNode (VersionSet.refs_ n + 1) (VersionSet.node_version n)) with (add_ref n). rewrite <- (alter_some add_ref _ _ n Hn), Eref. cbn [seed_ set_seed].
    assert (current_position (referenced (holds_now d) d) = current_position d) as Ecur by (unfold current_position, referenced; cbn; by rewrite length_alter).
    fold (current_position (referenced (holds_now d) d)). by rewrite Ecur.
Qed.

(** The iterator gives its references back. *)
Lemma delete_iter_spec d us_mem us_imm v n it : readable user stored table_get d us_mem us_imm v →
  ui_cleanup it = Cleanup.RegisterCleanup Cleanup.new (holds_now d) →
  ∃ d', delete_iter (TI := TI) it (set_seed n (referenced (holds_now d) d)) = Ok d' ∧ same_state d d'.
Proof.
  intros Hd E. unfold delete_iter. rewrite E. cbn [Cleanup.destroy Cleanup.RegisterCleanup Cleanup.new Cleanup.function Cleanup.next for_loop].
  pose proof (referenced_undisturbed user stored table_get d us_mem us_imm v 0 Hd) as [U1 U2 U3].
  destruct (release_spec user 0 us_mem us_imm v (holds_now d) (current_position d) (set_seed n (referenced (holds_now d) d))) as (l & El & Hl); [by split|].
  change (mkHeld (h_mem (holds_now d)) (h_imm (holds_now d)) (current_position d)) with (holds_now d) in El. rewrite El.
  cbn [mbind outcome_bind]. eexists. split; [reflexivity|]. destruct (rd_current _ _ _ _ _ _ _ Hd) as (n0 & Hn0 & Hr0 & Hs0).
  assert (VersionSet.versions_ (set_ (referenced (holds_now d) d)) !! current_position d = Some (add_ref n0)) as Hn1 by (cbn; by rewrite list_lookup_alter_eq, Hn0).
  specialize (Hl (add_ref n0) Hn1 ltac:(cbn; lia)).
  destruct (released_versions user stored table_get d (current_position d) (bg_compaction_scheduled_ d) (VersionSet.node_version n0) us_mem us_imm v l Hd Hs0 eq_refl)
    as [S1 S2 S3 S4 S5 S6]; [|by split].
  rewrite Hl. apply list_eq. intros j. destruct (decide (current_position d = j)) as [<-|]; [|by rewrite !list_lookup_alter_ne].
  rewrite !list_lookup_alter_eq. change (set_ (set_seed n (referenced (holds_now d) d))) with (set_ (referenced (holds_now d) d)). by rewrite Hn1.
Qed.

(** The view of the sorted updates is what lookups find. *)
Lemma user_view_lookups us us' s k x : us' ≡ₚ us → seqs_unique user us' →
  (k, x) ∈ user_view user s us' ↔ ∃ u, visible user k s us = Some u ∧ u_type u = kTypeValue ∧ u_key u = k ∧ u_value u = x.
Proof.
  intros Hp Hu. assert (∀ k, visible user k s us' = visible user k s us) as Ev by (intros k'; apply (visible_ext user); [done | intros u _; by rewrite Hp]).
  unfold user_view. rewrite list_elem_of_fmap. split.
  - intros (u & [= -> ->] & [[Hv Ht] _]%list_elem_of_filter). exists u. rewrite <- Ev. done.
  - intros (u & Hv & Ht & <- & <-). exists u. split; [done|]. apply list_elem_of_filter. split; [split; [by rewrite Ev | done]|].
    pose proof (visible_spec user (u_key u) s us) as Hs. rewrite Hv in Hs. rewrite Hp. apply Hs.
Qed.
End scan.

(** ** Properties *)

(** C5: The iterators of the database show its contents at a snapshot.  [NewIterator]
    merges the memtables, the files of level 0 and the concatenations of the other
    levels, and hides what is not visible.  The iterator that it returns is a cursor, in
    the user's order and in both directions, on exactly the pairs of a key and a value
    that lookups at the snapshot find: an entry is shown if and only if the newest update
    of its key that is not above the snapshot, among all updates of the database, gives
    the key this value.  No call fails, whatever the sequence of calls, and deleting the
    iterator gives its references back. *)
Theorem db_iterator (user : Comparator) (Huser : ComparatorLaws any_key user) (stored : Z → Z → list upd) (table_get : table_cache)
    {TI : Type} (table_iter : IteratorOps TI) (NewTableIterator : Z → Z → outcome TI) (fuel : nat) {W : Type}
    (d : DbRead.db W) (us_mem us_imm : list upd) (v : version) (Hd : readable user stored table_get d us_mem us_imm v)
    (Hopens : ∀ level f, f ∈ level_files v level → opens user stored table_iter NewTableIterator f)
    (snapshot : option nat) (s : Z) (Hsnapshot : read_sequence snapshot d = Ok s) (Hs : seq_ok s) :
  let us := us_mem ++ us_imm ++ version_updates (λ f, stored (number f) (file_size f)) v in
  ∀ (Hshort : short_keys us) (Hfuel : (length us < fuel)%nat) (Hfiles : ∀ level, (S (length (level_files v level)) < fuel)%nat),
  ∃ it d' es, NewIterator user table_iter NewTableIterator fuel snapshot d = Ok (it, d') ∧
    sorted_entries (Compare user) es ∧
    (∀ k x, (k, x) ∈ es ↔ ∃ u, visible user k s us = Some u ∧ u_type u = kTypeValue ∧ u_key u = k ∧ u_value u = x) ∧
    (∀ ops, ops_allowed (Compare user) (λ t, blen t + 13 < 2 ^ 32) es (length es) ops →
      let pos := foldl (spec_op (Compare user) es) (length es) ops in
      let I := user_ops user table_iter NewTableIterator fuel it in
      ∃ i, run_ops I (ui_iter it) ops = Ok i ∧ it_status I i = Ok status_ok ∧ it_Valid I i = bool_decide (pos < length es)%nat ∧
        ∀ k x, es !! pos = Some (k, x) → it_key I i = Ok k ∧ it_value I i = Ok x) ∧
    ∃ d'', delete_iter it d' = Ok d'' ∧ same_state d d''.
Proof.
  intros us Hshort Hfuel Hfiles. destruct (database_run user stored table_get table_iter NewTableIterator fuel us_mem us_imm v d Hd) as (us' & Hp & Hrun & Huniq). fold us in Hp.
  destruct (NewInternalIterator_spec user stored table_get table_iter NewTableIterator fuel d us_mem us_imm v us' Hd Hopens) as (m & E & Hm); [|done..|].
  { intros u Hu. apply Hshort. unfold us. rewrite !elem_of_app. auto. }
  unfold NewIterator. rewrite E. cbn [mbind outcome_bind].
  assert ((match snapshot with Some i => s ← Snapshot.snapshot_at i (snapshots_ (set_seed (u32 (seed_ d + 1)) (referenced (holds_now d) d))); Ok (Snapshot.number_ s) | None => Ok (VersionSet.last_sequence_ (set_ d)) end) = Ok s) as -> by exact Hsnapshot.
  cbn [mbind outcome_bind]. eexists _, _, (user_view user s us'). split; [reflexivity|].
  assert (∀ u, u ∈ us' → seq_ok (u_seq u)) as Hseq by apply Hrun.
  split; [exact (view_sorted user s us' (proj1 Hrun) Hseq Huniq)|]. split; [intros k x; by apply user_view_lookups|]. split.
  - intros ops Hops. cbv zeta.
    pose proof (db_iter_laws (internal_ops user table_iter NewTableIterator fuel) user s Hs us' target_ok _ (shown_laws _ _ _ _) (proj1 Hrun) Hseq Huniq
      (λ t, blen t + 13 < 2 ^ 32) (λ t Ht, lookup_target t s Hs Ht) fuel ltac:(by rewrite Hp)) as HL.
    unfold user_ops. cbn [ui_sequence ui_iter]. eapply (cursor_observed _ _ _ _ _ ops); [|exact Hops]. by eapply new_db_iter.
  - by apply (delete_iter_spec user stored table_get d us_mem us_imm v).
Qed.

(** The example of DbRead.v, with tables that are lists. *)
Definition demo_table_iter : IteratorOps (list entry * nat) := carried_cursor (InternalKeyComparator.Compare BytewiseComparator).
Definition demo_open (n size : Z) : outcome (list entry * nat) := Ok (map row (demo_stored n size), length (demo_stored n size)).

Lemma demo_opens level f : f ∈ level_files demo_version level → opens BytewiseComparator demo_stored demo_table_iter demo_open f.
Proof.
  intros (n & Hn & ->)%demo_files. change (number (demo_file n)) with n. split; [|split].
  - change (number (demo_file n)) with n. rewrite !elem_of_cons in Hn. destruct Hn as [->|[->|[->|[->|Hn%elem_of_nil]]]]; [..|done]; vm_compute; split; congruence.
  - change (file_size (demo_file n)) with 100. vm_compute. split; congruence.
  - eexists. split; [reflexivity|]. eapply shown_intro; [apply carried_cursor_laws|]. by rewrite length_map.
Qed.

Lemma demo_length level : (length (level_files demo_version level) ≤ 2)%nat.
Proof. destruct level as [|[|level]]; [cbn; lia | cbn; lia | rewrite demo_levels; cbn; lia]. Qed.

Lemma db_iterator_witness : ∃ (d d' : DbRead.db nat) it i,
  NewIterator BytewiseComparator demo_table_iter demo_open 10 None d = Ok (it, d') ∧
  let I := user_ops BytewiseComparator demo_table_iter demo_open 10 it in
  run_ops I (ui_iter it) [OpFirst; OpSeek (str "k")] = Ok i ∧ it_key I i = Ok (str "k") ∧ it_value I i = Ok (str "twelve").
Proof.
  pose proof (proj1 (Forall_app upd_ok demo_newest demo_older) (da_updates _ _ _ _ _ _ demo_data_ok)) as [Hnew Hold].
  destruct (demo_memtable demo_newest) as (m & Hrm & Hm); [exact Hnew | apply (bool_decide_unpack _); vm_compute; exact I|].
  destruct (demo_memtable demo_older) as (i & Hri & Hi); [exact Hold | apply (bool_decide_unpack _); vm_compute; exact I|].
  destruct (db_iterator BytewiseComparator bytewise_laws demo_stored demo_table_get demo_table_iter demo_open 10 (demo_db m i) demo_newest demo_older demo_version
    (demo_readable m i Hrm Hri Hm Hi) demo_opens None 12 eq_refl ltac:(split; vm_compute; congruence)) as (it & d' & es & E & Hsort & Hes & Hops & _).
  - intros u Hu. revert u Hu.
    apply (proj1 (Forall_forall (λ u, blen (u_key u) + 13 < 2 ^ 32) (demo_newest ++ demo_older ++ demo_update 11 ++ demo_update 12 ++ demo_update 5 ++ demo_update 6))).
    repeat (constructor; [vm_compute; reflexivity|]). constructor.
  - apply Nat.ltb_lt. vm_compute. reflexivity.
  - intros level. pose proof (demo_length level). lia.
  - assert ((str "k", str "twelve") ∈ es) as (j & Hj)%list_elem_of_lookup.
    { apply Hes. exists (mkUpd 12 kTypeValue (str "k") (str "twelve")). split; [vm_compute; reflexivity | done]. }
    assert (j = lower_bound (Compare BytewiseComparator) es (str "k")) as ->.
    { apply lower_bound_unique; [apply lookup_lt_Some in Hj; lia | | ].
      - intros a x Ha Hx. exact (Hsort a j x _ Ha Hx Hj).
      - intros x Hx. rewrite Hj in Hx. assert (x = (str "k", str "twelve")) as -> by congruence. vm_compute. congruence. }
    destruct (Hops [OpFirst; OpSeek (str "k")]) as (i' & Er & _ & _ & Hk); [repeat split; vm_compute; reflexivity|].
    exists (demo_db m i), d', it, i'. split; [exact E|]. cbv zeta. split; [exact Er|]. apply Hk. exact Hj.
Defined.
