(* ===== verification/DbFiles.v ===== *)
(** * db/db_impl.cc: the files of the database

    The state that the background work of [DBImpl] changes: what DbRead.v has, the table
    cache, the files, the numbers of the tables that are being written and of the log.
    [DeleteObsoleteFiles] removes the files that nothing needs any more.  Messages to the
    info log are left out. *)
From stdpp Require Import gmap.
From S2P Require Import Prelude.
From S2P Require Import Comparator.
From S2P Require Import Dbformat.
From S2P Require Import Status.
From S2P Require Import Format.
From S2P Require Import Block.
From S2P Require Import Table.
From S2P Require Import MemTable.
From S2P Require Import VersionEdit.
From S2P Require Import Version.
From S2P Require Import VersionBuilder.
From S2P Require Import VersionSet.
From S2P Require Import Env.
From S2P Require Import FileName.
From S2P Require Import TableCache.
From S2P Require Import Snapshot.
From S2P Require Import DbRead.
Import FileName Format Version TableCache DbRead.

(** ** Definitions *)

Module DbFiles.

(** The rest of the state is [db_]. *)
Record impl (E W : Type) := mkImpl {
  db_ : DbRead.db W;
  table_cache_ : TableCache.tables;
  logfile_number_ : Z;
  pending_outputs_ : gset Z;
  fs_ : E
}.
Arguments mkImpl {E W} _ _ _ _ _.
Arguments db_ {E W} _.
Arguments table_cache_ {E W} _.
Arguments logfile_number_ {E W} _.
Arguments pending_outputs_ {E W} _.
Arguments fs_ {E W} _.

Section files.
Context {E W R : Type} (env : EnvOps E W R) (dbname : list byte).
#[local] Notation impl := (impl E W).

Definition set_db (d : DbRead.db W) (i : impl) : impl := mkImpl d (table_cache_ i) (logfile_number_ i) (pending_outputs_ i) (fs_ i).
Definition set_pending (p : gset Z) (i : impl) : impl := mkImpl (db_ i) (table_cache_ i) (logfile_number_ i) p (fs_ i).
Definition set_files (c : TableCache.tables) (e : E) (i : impl) : impl := mkImpl (db_ i) c (logfile_number_ i) (pending_outputs_ i) e.
(** [versions_]. *)
Definition versions (i : impl) : VersionSet.version_set W := set_ (db_ i).
Definition set_versions (s : VersionSet.version_set W) (i : impl) : impl := set_db (set_set s (db_ i)) i.

(** The switch over the types. *)
Definition keep_file (live : gset Z) (s : VersionSet.version_set W) (number : Z) (type : FileType) : bool :=
  match type with
  | kLogFile => (VersionSet.log_number_ s <=? number) || (number =? VersionSet.prev_log_number_ s)
  | kDescriptorFile => VersionSet.manifest_file_number_ s <=? number
  | kTableFile | kTempFile => bool_decide (number ∈ live)
  | kCurrentFile | kDBLockFile | kInfoLogFile => true
  end.
Definition delete_obsolete (live : gset Z) (s : VersionSet.version_set W) (r : TableCache.tables * E) (filename : list byte) : TableCache.tables * E :=
  match ParseFileName filename with
  | Some (number, type) =>
      if keep_file live s number type then r
      else
        let c := match type with kTableFile => Evict number r.1 | _ => r.1 end in
        (c, (DeleteFile env (dbname ++ str "/" ++ filename) r.2).1)
  | None => r
  end.
Definition DeleteObsoleteFiles (i : impl) : impl :=
  if negb (ok (bg_error_ (db_ i))) then i
  else
    let live := VersionSet.AddLiveFiles (versions i) (pending_outputs_ i) in
    let filenames := match GetChildren env dbname (fs_ i) with inr l => l | inl _ => [] end in
    let r := foldl (delete_obsolete live (versions i)) (table_cache_ i, fs_ i) filenames in
    set_files r.1 r.2 i.
End files.
End DbFiles.

Import DbFiles.

(** ** Lemmas *)

(** *** The files of the live versions *)

Lemma elem_of_foldl_union {A} (l : list A) (f : A → gset Z → gset Z) (P : A → Z → Prop) n :
  (∀ a s, n ∈ f a s ↔ n ∈ s ∨ P a n) → ∀ s, n ∈ foldl (λ s a, f a s) s l ↔ n ∈ s ∨ ∃ a, a ∈ l ∧ P a n.
Proof.
  intros Hf. induction l as [|a l IH]; intros s; cbn [foldl]; [setoid_rewrite elem_of_nil; naive_solver|].
  rewrite IH, Hf. setoid_rewrite elem_of_cons. naive_solver.
Qed.

Section live.
Context {E W : Type}.
Implicit Types (i : impl E W) (s : VersionSet.version_set W).

(** A file of a version that is in use, or a table that is being written. *)
Definition live_file s (n : Z) : Prop :=
  ∃ node level f, node ∈ VersionSet.versions_ s ∧ (level < 7)%nat ∧ f ∈ level_files (VersionSet.node_version node) level ∧ number f = n.
Definition in_use i (n : Z) : Prop := n ∈ pending_outputs_ i ∨ live_file (versions i) n.

Lemma AddLiveFiles_spec s live n : n ∈ VersionSet.AddLiveFiles s live ↔ n ∈ live ∨ live_file s n.
Proof.
  unfold VersionSet.AddLiveFiles.
  rewrite (elem_of_foldl_union (VersionSet.versions_ s) _ (λ node n, ∃ level f, (level < 7)%nat ∧ f ∈ level_files (VersionSet.node_version node) level ∧ number f = n)).
  - unfold live_file. naive_solver.
  - intros node live'. rewrite (elem_of_foldl_union (seq 0 (Z.to_nat kNumLevels)) _ (λ level n, ∃ f, f ∈ level_files (VersionSet.node_version node) level ∧ number f = n)).
    + setoid_rewrite elem_of_seq. change (Z.to_nat kNumLevels) with 7%nat. split; [intros [?|(l & ? & ?)]; [by left | right; naive_solver lia] | intros [?|(l & f & ? & ? & ?)]; [by left | right; exists l; split; [lia | eauto]]].
    + intros level live''. rewrite (elem_of_foldl_union (level_files (VersionSet.node_version node) level) _ (λ f n, number f = n)); [done|].
      intros f s'. rewrite elem_of_union, elem_of_singleton. naive_solver.
Qed.

(** What is needed of the files of each type. *)
Definition needed i (n : Z) (t : FileType) : Prop :=
  match t with
  | kLogFile => VersionSet.log_number_ (versions i) ≤ n ∨ n = VersionSet.prev_log_number_ (versions i)
  | kDescriptorFile => VersionSet.manifest_file_number_ (versions i) ≤ n
  | kTableFile | kTempFile => in_use i n
  | kCurrentFile | kDBLockFile | kInfoLogFile => True
  end.
Lemma keep_file_spec i n t : keep_file (VersionSet.AddLiveFiles (versions i) (pending_outputs_ i)) (versions i) n t = true ↔ needed i n t.
Proof.
  destruct t; cbn [keep_file needed]; rewrite ?orb_true_iff, ?Z.leb_le, ?Z.eqb_eq, ?bool_decide_eq_true, ?AddLiveFiles_spec; done.
Qed.
End live.

(** *** Deleting *)

Section delete.
Context {E W R : Type} (env : EnvOps E W R) (NewRandomAccessFile : list byte → E → E * (status + RandomAccessFile))
  (linked : E → list byte → W → Prop) (data : E → W → list byte) `{HE : !TableEnv env NewRandomAccessFile linked data}.
Context (dbname : list byte) (live : gset Z) (s : VersionSet.version_set W).
#[local] Notation path base := (dbname ++ str "/" ++ base).

(** The file, if there is one, is not touched. *)
Definition untouched (e e' : E) (name : list byte) : Prop := ∀ w, linked e name w → linked e' name w ∧ data e' w = data e w.
(** The child is a file of the database that is not kept. *)
Definition dropped (base : list byte) : Prop := ∃ n t, ParseFileName base = Some (n, t) ∧ keep_file live s n t = false.

Lemma untouched_refl e name : untouched e e name.
Proof. by intros w. Qed.
Lemma untouched_trans e1 e2 e3 name : untouched e1 e2 name → untouched e2 e3 name → untouched e1 e3 name.
Proof. intros H1 H2 w Hw. destruct (H1 w Hw) as [Hl <-]. by apply H2. Qed.

Lemma delete_obsolete_spec r base : let r' := delete_obsolete env dbname live s r base in
  (∀ name, (dropped base → name ≠ path base) → untouched r.2 r'.2 name) ∧
  (∀ k, (∀ n, ParseFileName base = Some (n, kTableFile) → dropped base → table_key n ≠ k) → r'.1 !! k = r.1 !! k) ∧
  (dropped base → (∃ e, r'.2 = (DeleteFile env (path base) e).1) ∧ ∀ n, ParseFileName base = Some (n, kTableFile) → r'.1 !! table_key n = None) ∧
  (r'.2 = r.2 ∨ r'.2 = (DeleteFile env (path base) r.2).1).
Proof.
  cbv zeta. unfold delete_obsolete, dropped. destruct (ParseFileName base) as [[n t]|].
  2: { split; [intros; apply untouched_refl|]. split; [done|]. split; [by intros (? & ? & ? & _) | by left]. }
  destruct (keep_file live s n t) eqn:Ek.
  { split; [intros; apply untouched_refl|]. split; [done|]. split; [intros (m & u & [= <- <-] & H); congruence | by left]. }
  assert (∃ m u, Some (n, t) = Some (m, u) ∧ keep_file live s m u = false) as Hd by by exists n, t. cbn [fst snd].
  destruct (DeleteFile env (path base) r.2) as [e' st] eqn:Ed. cbn [fst].
  split; [intros name Hname w Hw; by apply (te_delete (env := env) (path base) r.2 e' st Ed); [apply Hname|]|].
  split; [|split; [|by right]].
  - intros k Hk. destruct t; try done. cbn. unfold Evict. rewrite lookup_delete_ne; [done|]. by apply Hk.
  - intros _. split; [exists r.2; by rewrite Ed|]. intros m [= <- ->]. cbn. apply lookup_delete_eq.
Qed.

Lemma delete_all_spec names : ∀ r, let r' := foldl (delete_obsolete env dbname live s) r names in
  (∀ name, (∀ base, base ∈ names → dropped base → name ≠ path base) → untouched r.2 r'.2 name) ∧
  (∀ k, (∀ base n, base ∈ names → ParseFileName base = Some (n, kTableFile) → dropped base → table_key n ≠ k) → r'.1 !! k = r.1 !! k).
Proof.
  induction names as [|base names IH]; intros r; cbv zeta; cbn [foldl]; [split; [intros; apply untouched_refl | done]|].
  destruct (delete_obsolete_spec r base) as (A1 & A2 & _). destruct (IH (delete_obsolete env dbname live s r base)) as [B1 B2]. cbv zeta in *.
  split.
  - intros name H. eapply untouched_trans; [apply A1 | apply B1]; [by apply H; left | intros b Hb; apply H; by right].
  - intros k H. rewrite B2, A2; [done | |]; [intros n; apply H; by left | intros b n Hb; apply H; by right].
Qed.

Lemma delete_all_sub names : ∀ r, (foldl (delete_obsolete env dbname live s) r names).1 ⊆ r.1.
Proof using.
  clear. induction names as [|base names IH]; intros r; [done|]. cbn [foldl]. etrans; [apply IH|]. unfold delete_obsolete. destruct (ParseFileName base) as [[n t]|]; [|done].
  destruct (keep_file live s n t); [done|]. destruct t; try done. apply delete_subseteq.
Qed.

Section removes.
Context (Hgone : ∀ name e w, ¬ linked (DeleteFile env name e).1 name w) (Hnone : ∀ name m e w, linked (DeleteFile env name e).1 m w → linked e m w).
Lemma delete_all_removed names base : base ∈ names → dropped base → ∀ r, let r' := foldl (delete_obsolete env dbname live s) r names in
  (∀ w, ¬ linked r'.2 (path base) w) ∧ ∀ n, ParseFileName base = Some (n, kTableFile) → r'.1 !! table_key n = None.
Proof.
  assert (∀ names r, (∀ w, ¬ linked r.2 (path base) w) → ∀ w, ¬ linked (foldl (delete_obsolete env dbname live s) r names).2 (path base) w) as Hstay.
  { clear names. induction names as [|b names IH]; intros r Hr; [done|]. cbn [foldl]. apply IH. intros w Hw. destruct (delete_obsolete_spec r b) as (_ & _ & _ & [E1|E1]); rewrite E1 in Hw; [by apply (Hr w) | by apply Hnone in Hw; apply (Hr w)]. }
  assert (∀ names r k, r.1 !! k = None → (foldl (delete_obsolete env dbname live s) r names).1 !! k = None) as Hkey.
  { clear names. induction names as [|b names IH]; intros r k Hr; [done|]. cbn [foldl]. apply IH. unfold delete_obsolete. destruct (ParseFileName b) as [[n t]|]; [|done].
    destruct (keep_file live s n t); [done|]. destruct t; try done. cbn. unfold Evict. by apply lookup_delete_None; right. }
  intros Hin Hd. induction names as [|b names IH]; intros r; cbv zeta; [by apply elem_of_nil in Hin|]. cbn [foldl].
  apply elem_of_cons in Hin as [<-|Hin]; [|by apply IH]. destruct (delete_obsolete_spec r base) as (_ & _ & Hx & _). destruct (Hx Hd) as ((e & E1) & Hk). split.
  - apply Hstay. rewrite E1. by apply Hgone.
  - intros n Hn. by apply Hkey, Hk.
Qed.
End removes.
End delete.

(** *** What [DeleteObsoleteFiles] keeps *)

Section keeps.
Context {E W R : Type} (env : EnvOps E W R) (NewRandomAccessFile : list byte → E → E * (status + RandomAccessFile))
  (linked : E → list byte → W → Prop) (data : E → W → list byte) `{HE : !TableEnv env NewRandomAccessFile linked data} (dbname : list byte).
#[local] Notation path base := (dbname ++ str "/" ++ base).
#[local] Notation untouched := (untouched linked data).
Implicit Types (i : impl E W).

Lemma DeleteObsoleteFiles_keeps i : ∃ c e, DeleteObsoleteFiles env dbname i = set_files c e i ∧
  (∀ name, (∀ base n t, name = path base → ParseFileName base = Some (n, t) → needed i n t) → untouched (fs_ i) e name) ∧
  (∀ n, is_u64 n → in_use i n → c !! table_key n = table_cache_ i !! table_key n) ∧ c ⊆ table_cache_ i.
Proof.
  unfold DeleteObsoleteFiles. destruct (negb _); [exists (table_cache_ i), (fs_ i); split; [by destruct i|]; split; [intros; apply untouched_refl | done]|].
  set (names := match GetChildren env dbname (fs_ i) with inr l => l | inl _ => [] end). set (live := VersionSet.AddLiveFiles _ _).
  destruct (delete_all_spec env NewRandomAccessFile linked data dbname live (versions i) names (table_cache_ i, fs_ i)) as [H1 H2]. eexists _, _. split; [reflexivity|]. split; [|split; [|by apply (delete_all_sub env dbname live (versions i) names (table_cache_ i, fs_ i))]].
  - intros name Hn. apply H1. intros base _ (n & t & Hp & Hk) ->. apply (not_true_iff_false (keep_file live (versions i) n t)) in Hk. by apply Hk, keep_file_spec, (Hn base).
  - intros n Hn Hu. apply H2. intros base m _ Hp (m' & t & Hp' & Hk) Ek. rewrite Hp in Hp'. injection Hp' as <- <-.
    apply EncodeFixed64_inj in Ek as ->; [|by apply ParseFileName_sound in Hp as [? _] | done]. apply (not_true_iff_false (keep_file live (versions i) n _)) in Hk. by apply Hk, keep_file_spec.
Qed.

Lemma base_of base base' : path base = path base' → base = base'.
Proof using. clear. intros H. by apply app_inv_head, app_inv_head in H. Qed.

(** A name that [ParseFileName] reads back as needed. *)
Lemma named_kept i base n t : ParseFileName base = Some (n, t) → needed i n t → ∀ base' n' t', path base = path base' → ParseFileName base' = Some (n', t') → needed i n' t'.
Proof. intros Hp Hn base' n' t' E0%base_of Hp'. subst base'. rewrite Hp in Hp'. by injection Hp' as <- <-. Qed.

Lemma numbered_kept i n suffix t : is_u64 n → ParseFileName (print6 n ++ str "." ++ suffix) = Some (n, t) → needed i n t →
  ∀ base' n' t', MakeFileName dbname n suffix = path base' → ParseFileName base' = Some (n', t') → needed i n' t'.
Proof. intros Hn Hp. by apply named_kept. Qed.
Lemma table_kept i n suffix : is_u64 n → suffix = str "ldb" ∨ suffix = str "sst" ∨ suffix = str "dbtmp" → in_use i n →
  ∀ base' n' t', MakeFileName dbname n suffix = path base' → ParseFileName base' = Some (n', t') → needed i n' t'.
Proof.
  intros Hn [->|[->| ->]] Hu; [apply (numbered_kept i n _ kTableFile) | apply (numbered_kept i n _ kTableFile) | apply (numbered_kept i n _ kTempFile)]; try done;
    (rewrite parse_numbered; [reflexivity | done | vm_compute; intros [? ?]; done]).
Qed.
Lemma log_kept i n : is_u64 n → needed i n kLogFile → ∀ base' n' t', MakeFileName dbname n (str "log") = path base' → ParseFileName base' = Some (n', t') → needed i n' t'.
Proof. intros Hn. apply (numbered_kept i n _ kLogFile); [done|]. rewrite parse_numbered; [reflexivity | done | vm_compute; intros [? ?]; done]. Qed.
Lemma manifest_kept i n : is_u64 n → needed i n kDescriptorFile → ∀ base' n' t', path (str "MANIFEST-" ++ print6 n) = path base' → ParseFileName base' = Some (n', t') → needed i n' t'.
Proof. intros Hn. apply named_kept. by apply parse_manifest. Qed.
End keeps.

(** ** Properties *)

(** [DeleteObsoleteFiles] removes what is obsolete and nothing else.  Whatever the
    environment does, every table of a live version and every table or temporary file that
    is being written stays, on disk and in the table cache, and so do the current log, the
    newer ones and the previous one, the current descriptor and newer ones, CURRENT, LOCK
    and the info logs, and every file whose name is not the database's; the rest of the
    state does not change.  After a background error nothing is removed.  Otherwise, where
    deletions succeed, every other child of the directory with a name of the database is
    gone afterwards, and no obsolete table is left in the cache. *)
Theorem obsolete_files {E W R : Type} (env : EnvOps E W R) (NewRandomAccessFile : list byte → E → E * (status + RandomAccessFile))
    (linked : E → list byte → W → Prop) (data : E → W → list byte) (HE : TableEnv env NewRandomAccessFile linked data) (dbname : list byte) (i : impl E W) :
  let path base := dbname ++ str "/" ++ base in
  ∃ c e, DeleteObsoleteFiles env dbname i = set_files c e i ∧
    let kept name := ∀ w, linked (fs_ i) name w → linked e name w ∧ data e w = data (fs_ i) w in
    (∀ n, is_u64 n → in_use i n → c !! table_key n = table_cache_ i !! table_key n ∧
      kept (MakeFileName dbname n (str "ldb")) ∧ kept (MakeFileName dbname n (str "sst")) ∧ kept (MakeFileName dbname n (str "dbtmp"))) ∧
    (∀ n, is_u64 n → VersionSet.log_number_ (versions i) ≤ n ∨ n = VersionSet.prev_log_number_ (versions i) → kept (MakeFileName dbname n (str "log"))) ∧
    (∀ n, is_u64 n → VersionSet.manifest_file_number_ (versions i) ≤ n → kept (path (str "MANIFEST-" ++ print6 n))) ∧
    kept (CurrentFileName dbname) ∧ kept (LockFileName dbname) ∧ kept (InfoLogFileName dbname) ∧ kept (OldInfoLogFileName dbname) ∧
    (∀ name, (∀ base, name = path base → ParseFileName base = None) → kept name) ∧
    (ok (bg_error_ (db_ i)) = false → c = table_cache_ i ∧ e = fs_ i) ∧
    (ok (bg_error_ (db_ i)) = true →
      (∀ name e w, ¬ linked (DeleteFile env name e).1 name w) → (∀ name m e w, linked (DeleteFile env name e).1 m w → linked e m w) →
      ∀ children base n t, GetChildren env dbname (fs_ i) = inr children → base ∈ children → ParseFileName base = Some (n, t) → ¬ needed i n t →
        (∀ w, ¬ linked e (path base) w) ∧ (t = kTableFile → c !! table_key n = None)).
Proof.
  cbv zeta. destruct (DeleteObsoleteFiles_keeps env NewRandomAccessFile linked data dbname i) as (c & e & E0 & Hkeep & Hcache & _). exists c, e. split; [exact E0|].
  pose proof (λ base n t Hp Hn, Hkeep _ (named_kept dbname i base n t Hp Hn)) as Hbase.
  split; [|split; [|split; [|split; [|split; [|split; [|split; [|split; [|split]]]]]]]].
  - intros n Hn Hu. split; [by apply Hcache|]. split_and!; apply Hkeep, table_kept; tauto.
  - intros n Hn Hl. by apply Hkeep, log_kept.
  - intros n Hn Hl. by apply Hkeep, manifest_kept.
  - by apply (Hbase (str "CURRENT") 0 kCurrentFile).
  - by apply (Hbase (str "LOCK") 0 kDBLockFile).
  - by apply (Hbase (str "LOG") 0 kInfoLogFile).
  - by apply (Hbase (str "LOG.old") 0 kInfoLogFile).
  - intros name Hname. apply Hkeep. intros base n t E1 Hp. rewrite (Hname base E1) in Hp. done.
  - intros Hbg. unfold DeleteObsoleteFiles in E0. rewrite Hbg in E0. cbn [negb] in E0. by destruct i; injection E0 as -> ->.
  - intros Hbg Hgone Hnone children base n t Hc Hin Hp Hneed. unfold DeleteObsoleteFiles in E0. rewrite Hbg, Hc in E0. cbn [negb] in E0.
    set (r := foldl _ _ _) in E0. assert (c = r.1 ∧ e = r.2) as [-> ->] by (unfold set_files in E0; by injection E0 as <- <-).
    destruct (delete_all_removed env NewRandomAccessFile linked data dbname (VersionSet.AddLiveFiles (versions i) (pending_outputs_ i)) (versions i) Hgone Hnone children base Hin) with (r := (table_cache_ i, fs_ i)) as [H1 H2].
    { exists n, t. split; [done|]. apply not_true_iff_false. by intros H%keep_file_spec. }
    split; [exact H1|]. intros ->. by apply H2.
Qed.

(** A directory with a table of the current version, an obsolete table, an obsolete and a
    current log, and a file that is not the database's. *)
Definition demo_names : list (list byte) := [str "000011.ldb"; str "000003.ldb"; str "000004.log"; str "000007.log"; str "CURRENT"; str "notes.txt"].
Definition demo_fs : Fs.fs := foldl (λ e base, (NewWritableFile Fs.ops (str "db/" ++ base) e).1) Fs.empty demo_names.
Definition demo_set : VersionSet.version_set nat := VersionSet.mkVersionSet 20 1 12 7 0 None [] [VersionSet.mkNode 1 demo_version].
Definition demo_impl : impl Fs.fs nat := mkImpl (mkDb [] 0 None demo_set Snapshot.new 0 false false status_ok false) ∅ 7 ∅ demo_fs.

Lemma demo_disk_deletes : (∀ name e w, ¬ Fs.linked (DeleteFile disk_ops name e).1 name w) ∧ (∀ name m e w, Fs.linked (DeleteFile disk_ops name e).1 m w → Fs.linked e m w).
Proof.
  unfold Fs.linked. split.
  - intros name e w. cbn. destruct (Fs.names e !! name) eqn:En; cbn [fst Fs.names]; [by rewrite lookup_delete_eq | by rewrite En].
  - intros name m e w. cbn. destruct (Fs.names e !! name) eqn:En; cbn [fst Fs.names]; [|done]. by intros [_ ?]%lookup_delete_Some.
Qed.

Lemma obsolete_files_witness : ∃ c e, DeleteObsoleteFiles disk_ops (str "db") demo_impl = set_files c e demo_impl ∧
  (∀ base, base ∈ [str "000011.ldb"; str "000007.log"; str "CURRENT"; str "notes.txt"] → ∃ w, Fs.linked e (str "db/" ++ base) w) ∧
  (∀ base w, base ∈ [str "000003.ldb"; str "000004.log"] → ¬ Fs.linked e (str "db/" ++ base) w).
Proof.
  destruct (obsolete_files disk_ops disk_open Fs.linked (λ e w, Fs.node_data w e) disk_env (str "db") demo_impl) as (c & e & E0 & Ht & Hl & _ & Hcur & _ & _ & _ & Hforeign & _ & Hgone).
  exists c, e. split; [exact E0|].
  assert (∀ base, base ∈ demo_names → ∃ w, Fs.linked (fs_ demo_impl) (str "db/" ++ base) w) as Hthere.
  { assert (Forall (λ base, is_Some (Fs.names demo_fs !! (str "db/" ++ base))) demo_names) as H by (apply (bool_decide_unpack _); vm_compute; exact I).
    intros base Hb. rewrite Forall_forall in H. by apply H. }
  assert (∃ children, GetChildren disk_ops (str "db") (fs_ demo_impl) = inr children ∧ Forall (λ b, b ∈ children) demo_names) as (children & Hc & Hin).
  { eexists. split; [reflexivity|]. apply (bool_decide_unpack _). vm_compute. exact I. }
  rewrite Forall_forall in Hin. split.
  - assert (in_use demo_impl 11) as Hu by (right; exists (VersionSet.mkNode 1 demo_version), 0%nat, (demo_file 11); split; [by left|]; split; [lia|]; split; [by left | done]).
    apply Forall_forall. constructor; [|constructor; [|constructor; [|constructor; [|constructor]]]].
    + destruct (Hthere (str "000011.ldb")) as [w Hw]; [apply (bool_decide_unpack _); vm_compute; exact I|]. exists w. by apply (Ht 11 ltac:(unfold is_u64; lia) Hu).
    + destruct (Hthere (str "000007.log")) as [w Hw]; [apply (bool_decide_unpack _); vm_compute; exact I|]. exists w. by apply (Hl 7 ltac:(unfold is_u64; lia) ltac:(left; vm_compute; congruence)).
    + destruct (Hthere (str "CURRENT")) as [w Hw]; [apply (bool_decide_unpack _); vm_compute; exact I|]. exists w. by apply Hcur.
    + destruct (Hthere (str "notes.txt")) as [w Hw]; [apply (bool_decide_unpack _); vm_compute; exact I|]. exists w. apply (Hforeign (str "db/notes.txt")); [|exact Hw].
      intros base E1. assert (base = str "notes.txt") as -> by (clear -E1; vm_compute in E1 |- *; congruence). vm_compute. reflexivity.
  - intros base w Hb. revert w. revert base Hb. destruct demo_disk_deletes as [D1 D2].
    refine (proj1 (Forall_forall (λ base, ∀ w, ¬ Fs.linked e (str "db/" ++ base) w) _) _). constructor; [|constructor; [|constructor]].
    + intros w. refine (proj1 (Hgone eq_refl D1 D2 children (str "000003.ldb") 3 kTableFile Hc _ eq_refl _) w); [apply Hin; apply (bool_decide_unpack _); vm_compute; exact I|].
      change (¬ in_use demo_impl 3). intros [H%elem_of_empty|(node & level & f & Hn & _ & Hf & E1)]; [done|]. apply list_elem_of_singleton in Hn. subst node.
      cbn [VersionSet.node_version] in Hf. destruct (demo_files level f Hf) as (m & Hm & ->). change (m = 3) in E1. subst m. apply (bool_decide_pack (3 ∈ [11; 12; 5; 6])) in Hm. exact Hm.
    + intros w. refine (proj1 (Hgone eq_refl D1 D2 children (str "000004.log") 4 kLogFile Hc _ eq_refl _) w); [apply Hin; apply (bool_decide_unpack _); vm_compute; exact I|].
      intros [H|H]; [by apply H | discriminate H].
Defined.
