(* ===== verification/DbFlush.v ===== *)
(** * db/db_impl.cc: the memtable becomes a table

    [WriteLevel0Table] writes a memtable to a new table and records it in an edit;
    [CompactMemTable] installs the edit, drops the memtable and deletes the files that are
    obsolete then.  The mutex is released while the table and the descriptor are written:
    what the other threads do meanwhile is an argument.  Statistics and messages to the
    info log are left out. *)
From stdpp Require Import gmap.
From Stdlib Require Import Sorting.Sorted.
From S2P Require Import Prelude.
From S2P Require Import Interfaces.
From S2P Require Import Crc32c.
From S2P Require Import Comparator.
From S2P Require Import Bloom.
From S2P Require Import Dbformat.
From S2P Require Import Status.
From S2P Require Import Cursor.
From S2P Require Import Log.
From S2P Require Import Block.
From S2P Require Import Format.
From S2P Require Import TableBuilder.
From S2P Require Import Table.
From S2P Require Import MemTable.
From S2P Require Import VersionEdit.
From S2P Require Import Updates.
From S2P Require Import Version.
From S2P Require Import VersionBuilder.
From S2P Require Import VersionSet.
From S2P Require Import Picker.
From S2P Require Import Env.
From S2P Require Import FileName.
From S2P Require Import TableCache.
From S2P Require Import Snapshot.
From S2P Require Import DbRead.
From S2P Require Import DbScan.
From S2P Require Import DbFiles.
Import FileName Format MemTable Version TableCache DbRead DbFiles.

(** ** Definitions *)

Module DbFlush.
Section flush.
Context (user : Comparator) (user_name : list byte) (addr : list byte → Z).
Context (Snappy_Compress : list byte → option (list byte)) (Snappy_GetUncompressedLength : list byte → option Z)
  (Snappy_Uncompress : list byte → option (list byte)) (fresh : Z → list byte).
Context (dbname : list byte) (wo : TableBuilder.Options) (options_ : Table.Options).
Context {E W R : Type} (env : EnvOps E W R) (NewRandomAccessFile : list byte → E → E * (status + RandomAccessFile)).
Context (fuel : nat).
#[local] Notation impl := (impl E W).

Definition set_imm (imm : option nat) (d : DbRead.db W) : DbRead.db W :=
  mkDb (memtables d) (mem_ d) imm (set_ d) (snapshots_ d) (seed_ d) (bg_compaction_scheduled_ d) (shutting_down_ d) (bg_error_ d) (manual_compaction_ d).
Definition set_bg_error (s : status) (d : DbRead.db W) : DbRead.db W :=
  mkDb (memtables d) (mem_ d) (imm_ d) (set_ d) (snapshots_ d) (seed_ d) (bg_compaction_scheduled_ d) (shutting_down_ d) s (manual_compaction_ d).
(** The first error stays. *)
Definition RecordBackgroundError (s : status) (d : DbRead.db W) : DbRead.db W := if ok (bg_error_ d) then set_bg_error s d else d.

(** [base] is the position of a version that the caller references; [others] is what the
    other threads do while the table is written, and tells where that version is then.
    [new_id] is the id that the new table gets from the block cache. *)
Definition WriteLevel0Table (others : option nat → impl → option nat * impl) (new_id : Z) (mem : nat) (edit : VersionEdit.version_edit) (base : option nat) (i : impl)
    : outcome (status * VersionEdit.version_edit * option nat * impl) :=
  let '(n, s) := VersionSet.NewFileNumber (versions i) in
  let i := set_pending ({[n]} ∪ pending_outputs_ i) (set_versions s i) in
  m ← memtable_at mem (db_ i);
  r ← BuildTable addr Snappy_Compress Snappy_GetUncompressedLength Snappy_Uncompress fresh dbname wo options_ env NewRandomAccessFile
        (MemTable.iterator user m) fuel None (new_file n 0 [] []) new_id (table_cache_ i) (fs_ i);
  let '(e, c, meta, s) := (r : E * tables * FileMetaData * status) in
  let '(base, i) := others base (set_files c e i) in
  let i := set_pending (pending_outputs_ i ∖ {[number meta]}) i in
  edit ← (if ok s && (0 <? file_size meta) then
            level ← match base with
                    | Some p => v ← version_at p (db_ i); PickLevelForMemTableOutput user v (ExtractUserKey (smallest meta)) (ExtractUserKey (largest meta))
                    | None => Ok O
                    end;
            Ok (VersionEdit.AddFile (Z.of_nat level) (number meta) (file_size meta) (smallest meta) (largest meta) edit)
          else Ok edit);
  Ok (s, edit, base, i).

(** [during] and [meanwhile] are what the other threads do to the version set and to the
    rest of the state while the descriptor is written. *)
Definition CompactMemTable (others : option nat → impl → option nat * impl) (during : VersionSet.version_set W → VersionSet.version_set W) (meanwhile : impl → impl)
    (new_id : Z) (i : impl) : outcome impl :=
  match imm_ (db_ i) with
  | None => Ub AssertionFailed
  | Some imm =>
      let base := current_position (db_ i) in
      d ← ref_version base (db_ i);
      r ← WriteLevel0Table others new_id imm VersionEdit.new (Some base) (set_db d i);
      let '(s, edit, base, i) := (r : status * VersionEdit.version_edit * option nat * impl) in
      d ← if_some unref_version base (db_ i);
      let i := set_db d i in
      let s := if ok s && shutting_down_ (db_ i) then IOError (str "Deleting DB during memtable compaction") [] else s in
      r ← (if ok s then
             let edit := VersionEdit.SetLogNumber (logfile_number_ i) (VersionEdit.SetPrevLogNumber 0 edit) in
             r ← VersionSet.LogAndApply user user_name env addr dbname during edit (versions i) (fs_ i);
             let '(s, _, vs, e) := (r : status * VersionEdit.version_edit * VersionSet.version_set W * E) in
             Ok (s, set_versions vs (meanwhile (set_files (table_cache_ i) e i)))
           else Ok (s, i));
      let '(s, i) := (r : status * impl) in
      if ok s then
        d ← unref_memtable imm (db_ i);
        Ok (DeleteObsoleteFiles env dbname (set_db (set_imm None d) i))
      else Ok (set_db (RecordBackgroundError s (db_ i)) i)
  end.
End flush.
End DbFlush.

Import DbFlush.

Import VersionBuilder.

(** ** Lemmas *)

(** *** A version with one more table *)

Lemma version_ok_moved user contents contents' tg tg' v : version_ok user contents tg v →
  (∀ level f, f ∈ level_files v level → contents' f = contents f ∧ TableReads user contents' tg' f) → version_ok user contents' tg' v.
Proof.
  intros Hv Hold. assert (∀ l, level_updates contents' v l = level_updates contents v l) as El.
  { intros l. unfold level_updates. f_equal. apply list_fmap_ext. intros i f Hf. by apply (Hold l f), list_elem_of_lookup_2 with i. }
  assert (version_updates contents' v = version_updates contents v) as Ev by (unfold version_updates; f_equal; apply map_ext; done).
  destruct Hv as [H1 H2 H3 H4 H5 H6]. split; [done | | done | | |].
  - intros l f Hf. destruct (Hold l f Hf) as [E Hr]. split; [|done]. destruct (H2 l f Hf) as [[F1 F2 F3 F4] _]. split; by rewrite ?E.
  - intros i j f g Hij Hf Hg. destruct (Hold 0%nat f ltac:(by eapply list_elem_of_lookup_2)) as [-> _]. destruct (Hold 0%nat g ltac:(by eapply list_elem_of_lookup_2)) as [-> _]. by apply (H4 i j).
  - intros l m Hlm. rewrite !El. by apply H5.
  - by rewrite Ev.
Qed.

Section add.
Context (user : Comparator) `{Huser : !ComparatorLaws any_key user} (contents contents' : FileMetaData → list upd) (table_get table_get' : table_cache).
Context (v : version) (Hv : version_ok user contents table_get v) (Hst : VersionSet.storable user v) (Hcount : ∀ l, blen (level_files v l) + 1 < 2 ^ 31).
(** The new file and its level. *)
Context (f0 : FileMetaData) (Hbuild : build f0 = f0) (L : nat) (HL : (L < 7)%nat) (Hok : VersionEdit.file_ok f0) (Hholds : file_holds user contents' f0) (Hreads : TableReads user contents' table_get' f0)
  (Hfree : (0 < L)%nat → ∀ l f, (l ≤ L)%nat → f ∈ level_files v l → touches user (Some (ExtractUserKey (smallest f0))) (Some (ExtractUserKey (largest f0))) f = false)
  (Huniq : seqs_unique user (contents' f0)) (Hnewer : newer user (contents' f0) (version_updates contents v)) (Hnumber : ∀ l f, f ∈ level_files v l → number f < number f0)
  (Hold : ∀ l f, f ∈ level_files v l → contents' f = contents f ∧ TableReads user contents' table_get' f).
#[local] Notation ucmp := (Compare user).

Lemma free_apart l f : (0 < L)%nat → (l ≤ L)%nat → f ∈ level_files v l → apart user f0 f.
Proof.
  intros H0 Hl Hf. specialize (Hfree H0 l f Hl Hf). destruct (not_meet user f0 f0 f) as [?|?]; [|by right|by left].
  intros Hm. apply (touches_meet user) in Hm. congruence.
Qed.

(** The builder accepts an edit that adds the file. *)
Lemma flush_edit e f1 pointers : build f1 = f0 → VersionEdit.new_files_ e = [(Z.of_nat L, f1)] → VersionEdit.deleted_files_ e = [] → VersionEdit.compact_pointers_ e = [] → length pointers = 7%nat →
  ∃ b v', Apply user e (VersionBuilder.new v pointers) = Ok b ∧ SaveTo user b = Ok v' ∧ VersionBuilder.compact_pointer_ b = pointers ∧ levels_ok user v' ∧
    ∀ l f, f ∈ level_files v' l ↔ f ∈ level_files v l ∨ (l = L ∧ f = f0).
Proof.
  intros Ef En Ed Ep Hp. pose proof (VersionSet.st_levels user v Hst) as Hlv.
  assert (∀ l, VersionBuilder.new_at (VersionEdit.new_files_ e) l = if decide (l = L) then [f0] else []) as Hat.
  { intros l. rewrite En, new_at_cons, Ef. by case_decide. }
  assert (edit_fits user e) as Hfits.
  { split; rewrite ?En, ?Ed, ?Ep; try constructor; [|constructor]. cbn [fst snd]. split; [unfold level_ok, kNumLevels; lia|]. pose proof (fh_range _ _ _ Hholds) as Hr. rewrite <- Ef in Hr. exact Hr. }
  assert (VersionSet.fresh_edit v e) as Hfresh.
  { intros l. unfold added_numbers. cbn [map concat]. rewrite app_nil_r, Hat. case_decide as Hl; cbn [map]; [|split; [constructor | by intros n ?%elem_of_nil]].
    split; [apply NoDup_singleton|]. intros n ->%list_elem_of_singleton g Hg. specialize (Hnumber l g Hg). lia. }
  destruct (VersionSet.edit_step user v e pointers Hlv Hp Hfits Hfresh) as (b & Eb & Hb & Eptr & Hs & Hsave). exists b.
  assert (∀ l f, VersionSet.after_edit v e l f ↔ f ∈ level_files v l ∨ (l = L ∧ f = f0)) as Hafter.
  { intros l f. unfold VersionSet.after_edit. rewrite Hat, Ed. setoid_rewrite elem_of_nil. case_decide as Hl; rewrite ?list_elem_of_singleton, ?elem_of_nil; tauto. }
  assert (forallb (λ level, VersionBuilder.ordered user level (VersionBuilder.saved user b level)) (seq 0 7) = true) as E.
  { apply forallb_forall. intros l _. unfold VersionBuilder.ordered. destruct (decide (l = 0%nat)) as [->|Hl]; [done|]. rewrite bool_decide_false by done. cbn [orb].
    apply (chain_disjoint user); [by apply saved_ranges | by apply saved_sorted|]. intros f g. rewrite !Hs, !Hafter.
    assert (∀ g, g ∈ level_files v l → l = L → disjoint_files user f0 g ∧ disjoint_files user g f0) as Hnew.
    { intros h Hh ->. destruct (free_apart L h ltac:(lia) ltac:(lia) Hh) as [Ha|Ha]; apply (ubefore_before user) in Ha; split; unfold disjoint_files; auto. }
    intros [Hf|[-> ->]] [Hg|[El ->]]; [| by apply Hnew | by apply Hnew | by left].
    apply (chain_disjoint user (level_files v l)); [apply (vl_ranges user v Hlv) | apply (vl_sorted user v Hlv) | | done | done].
    pose proof (vl_ordered user v Hlv l) as Ho. unfold VersionBuilder.ordered in Ho. by rewrite bool_decide_false in Ho. }
  pose proof (SaveTo_spec user b Hb) as Esave. rewrite E in Esave. eexists. split; [done|]. split; [exact Esave|]. destruct (Hsave _ Esave) as [Hv' El].
  split; [by rewrite Eptr, Ep|]. split; [done|]. intros l f. by rewrite El, Hs, Hafter.
Qed.

Context (v' : version) (Hlv' : levels_ok user v') (Hfiles : ∀ l f, f ∈ level_files v' l ↔ f ∈ level_files v l ∨ (l = L ∧ f = f0)).

Lemma flush_updates l u : u ∈ level_updates contents' v' l ↔ u ∈ level_updates contents v l ∨ (l = L ∧ u ∈ contents' f0).
Proof.
  rewrite !elem_of_level_updates. setoid_rewrite Hfiles. split.
  - intros (f & [Hf|[-> ->]] & Hu); [left; exists f; split; [done|]; by rewrite <- (proj1 (Hold l f Hf)) | by right].
  - intros [(f & Hf & Hu)|[-> Hu]]; [exists f | exists f0]; (split; [by auto|]); [by rewrite (proj1 (Hold l f Hf)) | done].
Qed.
Lemma flush_file_once l i j f : level_files v' l !! i = Some f → level_files v' l !! j = Some f → i = j.
Proof. apply (sorted_once user); [apply (vl_ranges user v' Hlv') | apply (vl_sorted user v' Hlv')]. Qed.
Lemma flush_numbers l : NoDup (map number (level_files v' l)).
Proof.
  apply NoDup_alt. intros i j n Hi Hj. rewrite list_lookup_fmap in Hi, Hj. apply fmap_Some in Hi as (f & Hf & ->). apply fmap_Some in Hj as (g & Hg & En).
  assert (f = g) as <-; [|by apply (flush_file_once l i j f)].
  assert (f ∈ level_files v' l ∧ g ∈ level_files v' l) as [Hf' Hg'] by (split; by eapply list_elem_of_lookup_2).
  apply Hfiles in Hf' as [Hf'|[_ ->]], Hg' as [Hg'|[_ ->]]; [|specialize (Hnumber l f Hf'); lia | specialize (Hnumber l g Hg'); lia | done].
  apply list_elem_of_lookup in Hf' as [i' Hi], Hg' as [j' Hj]. assert (i' = j') as ->; [|congruence].
  pose proof (VersionSet.st_numbers user v Hst l) as Hnd. rewrite NoDup_alt in Hnd. apply (Hnd i' j' (number f)); rewrite list_lookup_fmap; [by rewrite Hi | rewrite Hj; cbn; congruence].
Qed.
Lemma flush_storable : VersionSet.storable user v'.
Proof. split; [done | | apply flush_numbers]. intros l f [Hf|[-> ->]]%Hfiles; [by apply (VersionSet.st_files user v Hst l) | done]. Qed.
Lemma flush_count l : blen (level_files v' l) < 2 ^ 31.
Proof.
  specialize (Hcount l). assert (length (level_files v' l) ≤ length (f0 :: level_files v l))%nat as H; [|unfold blen in *; cbn [length] in H; lia].
  apply submseteq_length, NoDup_submseteq; [apply NoDup_alt; intros i j f; apply flush_file_once|].
  intros f [Hf|[_ ->]]%Hfiles; [by right | by left].
Qed.

(** Above the level of the new file no update has one of its keys. *)
Lemma flush_above l u w : (l < L)%nat → u ∈ level_updates contents v l → w ∈ contents' f0 → ucmp (u_key u) (u_key w) ≠ 0.
Proof.
  intros Hl (f & Hf & Hu)%elem_of_level_updates Hw E. destruct (Hold l f Hf) as [Ec _]. rewrite <- Ec in Hu.
  assert (file_holds user contents' f) as Hh. { destruct (vo_holds _ _ _ _ Hv l f Hf) as [[F1 F2 F3 F4] _]. split; by rewrite ?Ec. }
  apply (apart_keys user contents' f0 f w u); [by apply (free_apart l f ltac:(lia) ltac:(lia)) | done | done | done | done |]. pose proof (ucmp_flip user (u_key u) (u_key w)). lia.
Qed.

Lemma flush_members u : u ∈ version_updates contents' v' ↔ u ∈ contents' f0 ∨ u ∈ version_updates contents v.
Proof.
  rewrite (elem_of_version_updates user contents table_get v u Hv). unfold version_updates. rewrite list_elem_of_In, in_concat. setoid_rewrite in_map_iff. split.
  - intros (us & (l & <- & _) & Hu). apply list_elem_of_In, flush_updates in Hu as [Hu|[_ Hu]]; [right; by exists l | by left].
  - assert (∀ l, u ∈ level_updates contents' v' l → ∃ us, (∃ x, level_updates contents' v' x = us ∧ In x (seq 0 (Z.to_nat kNumLevels))) ∧ In u us) as H.
    { intros l Hu. exists (level_updates contents' v' l). split; [|by apply list_elem_of_In]. exists l. split; [done|]. apply in_seq. split; [lia|]. cbn.
      apply elem_of_level_updates in Hu as (f & Hf & _). destruct (decide (l < 7)%nat); [done|]. rewrite (levels_beyond user v' l Hlv') in Hf by lia. by apply elem_of_nil in Hf. }
    intros [Hu|[l Hu]]; [apply (H L) | apply (H l)]; apply flush_updates; auto.
Qed.

Lemma flush_version_ok : version_ok user contents' table_get' v'.
Proof.
  assert (∀ l, level_updates contents v l ⊆ version_updates contents v) as Hsub by (intros l u Hu; apply (elem_of_version_updates user contents table_get v u Hv); by exists l).
  split.
  - apply (vl_count user v' Hlv').
  - intros l f [Hf|[-> ->]]%Hfiles; [|done]. destruct (Hold l f Hf) as [E Hr]. split; [|done]. destruct (vo_holds _ _ _ _ Hv l f Hf) as [[H1 H2 H3 H4] _]. split; by rewrite ?E.
  - intros l Hl. split; [apply (vl_ranges user v' Hlv' l) | | apply flush_count]. apply (chain_pairs user); [apply (vl_ranges user v' Hlv' l)|].
    pose proof (vl_ordered user v' Hlv' l) as Ho. unfold VersionBuilder.ordered in Ho. by rewrite bool_decide_false in Ho by lia.
  - intros i j f g Hij Hi Hj. split.
    + intros En. apply Hij. pose proof (flush_numbers 0) as Hnd. rewrite NoDup_alt in Hnd. apply (Hnd i j (number f)); rewrite list_lookup_fmap; [by rewrite Hi | rewrite Hj; cbn; congruence].
    + intros Hlt. assert (f ≠ g) as Hne by (intros ->; lia).
      assert (f ∈ level_files v' 0 ∧ g ∈ level_files v' 0) as [Hf Hg] by (split; by eapply list_elem_of_lookup_2).
      apply Hfiles in Hf, Hg. destruct Hg as [Hg|[_ Eg]]; [|destruct Hf as [Hf|[_ Ef]]; [specialize (Hnumber _ f Hf); subst g; lia | congruence]].
      rewrite (proj1 (Hold _ g Hg)). destruct Hf as [Hf|[_ ->]].
      * rewrite (proj1 (Hold _ f Hf)). apply list_elem_of_lookup in Hf as [i' Hf], Hg as [j' Hg].
        apply (vo_level0 _ _ _ _ Hv i' j' f g); [intros -> | done..]. rewrite Hf in Hg. by injection Hg.
      * intros u w Hu Hw. apply Hnewer; [done|]. apply (Hsub 0%nat), elem_of_level_updates. by exists g.
  - intros l m Hlm u w [Hu|[El Hu]]%flush_updates [Hw|[Em Hw]]%flush_updates E.
    + by apply (vo_newer _ _ _ _ Hv l m).
    + subst m. by destruct (flush_above l u w Hlm Hu Hw).
    + apply Hnewer; [done | by apply (Hsub m) | done].
    + lia.
  - apply (seqs_unique_sub user (contents' f0 ++ version_updates contents v)); [intros u Hu; by apply elem_of_app, flush_members|].
    apply (seqs_unique_newer user); [done | done | apply (vo_unique _ _ _ _ Hv)].
Qed.
End add.

(** *** Writing the descriptor when writes may fail *)

Section descriptor.
Context (user : Comparator) `{Huser : !ComparatorLaws any_key user} (user_name : list byte) (Hname : blen user_name < 2 ^ 32) (addr : list byte → Z) (Haddr : addr_ok addr).
Context {E W R : Type} (env : EnvOps E W R) (NewRandomAccessFile : list byte → E → E * (status + RandomAccessFile))
  (linked : E → list byte → W → Prop) (data : E → W → list byte) `{HE : !TableEnv env NewRandomAccessFile linked data} (dbname : list byte).
#[local] Notation vset := (VersionSet.version_set W).
#[local] Notation manifest s := (VersionSet.manifest_name dbname (VersionSet.manifest_file_number_ s)).

(** No file but [w] has changed, and no name was lost. *)
Definition only (w : W) (e e' : E) : Prop := (∀ n w', linked e n w' → linked e' n w') ∧ ∀ w', w' ≠ w → data e' w' = data e w'.
Lemma only_refl w e : only w e e.
Proof. by split. Qed.
Lemma only_trans w e1 e2 e3 : only w e1 e2 → only w e2 e3 → only w e1 e3.
Proof. intros [A1 A2] [B1 B2]. split; [auto|]. intros w' Hw. by rewrite B2, A2. Qed.

Lemma AddRecord_runs w record e : writer_ok w → ∃ w' e' st, VersionSet.AddRecord env addr w record e = Ok (w', e', st) ∧ writer_ok w' ∧
  Writer.dest_ w' = Writer.dest_ w ∧ only (Writer.dest_ w) e e'.
Proof.
  intros [H1 H2]. unfold VersionSet.AddRecord. set (w0 := Writer.mkWriter (Writer.dest_ w, e) (Writer.block_offset_ w) (Writer.type_crc_ w)).
  destruct (AddRecord_total (VersionSet.log_append env) (VersionSet.log_flush env) addr Haddr w0 record (conj H1 H2)) as ([w1 st] & E1 & [Hw1 Hw2]).
  destruct (AddRecord_inv (VersionSet.log_append env) (VersionSet.log_flush env) addr (λ f, f.1 = Writer.dest_ w ∧ only (Writer.dest_ w) e f.2)) with (w := w0) (data := record) (w' := w1) (s := st) as [Hd Ho].
  - intros [f e1] d [Hf Hon]. unfold VersionSet.log_append. cbn [fst snd] in *. destruct (Env.file_Append env f d e1) as [e2 s] eqn:E2. destruct (te_append (env := env) f d e1 e2 s E2) as (A1 & A2 & _). cbn [fst snd].
    split; [done|]. eapply only_trans; [exact Hon|]. subst f. by split.
  - intros [f e1] [Hf Hon]. unfold VersionSet.log_flush. cbn [fst snd] in *. destruct (Env.file_Flush env f e1) as [e2 s] eqn:E2. destruct (te_flush (env := env) f e1 e2 s E2) as (A1 & A2 & _). cbn [fst snd].
    split; [done|]. eapply only_trans; [exact Hon|]. subst f. by split.
  - done.
  - split; [done|]. apply only_refl.
  - rewrite E1. cbn [mbind outcome_bind fst snd]. eexists _, _, _. split; [reflexivity|]. split; [by split|]. by rewrite Hd.
Qed.

(** The descriptor is open, under its name. *)
Definition descriptor_ok (s : vset) (e : E) : Prop := ∀ wd, VersionSet.descriptor_log_ s = Some wd → writer_ok wd ∧ linked e (manifest s) (Writer.dest_ wd).
(** The file is not the descriptor. *)
Definition apart_from (s : vset) (w : W) : Prop := ∀ wd, VersionSet.descriptor_log_ s = Some wd → w ≠ Writer.dest_ wd.
(** Files under other names stay, and do not become the descriptor. *)
Definition spares (s s' : vset) (e e' : E) : Prop := ∀ n w, n ≠ manifest s → n ≠ CurrentFileName dbname → n ≠ MakeFileName dbname (VersionSet.manifest_file_number_ s) (str "dbtmp") →
  linked e n w → apart_from s w → linked e' n w ∧ data e' w = data e w ∧ apart_from s' w.

Lemma open_descriptor_runs s e v : VersionSet.current_ s = Ok v → VersionSet.storable user v → VersionSet.pointers_ok (VersionSet.compact_pointer_ s) → VersionSet.counters_ok s → descriptor_ok s e →
  ∃ d e' st created, let s' := VersionSet.set_descriptor (VersionSet.manifest_file_number_ s) d s in
    VersionSet.open_descriptor user_name env addr dbname s e = Ok (s', e', st, created) ∧ descriptor_ok s' e' ∧ spares s s' e e' ∧ (ok st = true → is_Some d).
Proof.
  intros Hv Hst Hp [[_ Hpos] _ _ _ _] Hd. unfold VersionSet.open_descriptor. destruct (VersionSet.descriptor_log_ s) as [wd|] eqn:Ed.
  { exists (Some wd), e, status_ok, None. assert (VersionSet.set_descriptor (VersionSet.manifest_file_number_ s) (Some wd) s = s) as -> by (rewrite <- Ed; by destruct s). split; [done|]. split; [done|]. split; [by intros n w _ _ _ Hw Ha | done]. }
  unfold DescriptorFileName. destruct (Z.ltb_spec 0 (VersionSet.manifest_file_number_ s)); [|lia]. cbn [mbind outcome_bind].
  change (dbname ++ str "/MANIFEST-" ++ print6 (VersionSet.manifest_file_number_ s)) with (manifest s).
  destruct (NewWritableFile env (manifest s) e) as [e1 [st|file]] eqn:E1.
  { destruct (te_create_failed (env := env) _ e e1 st E1) as [Hs Ho]. exists None, e1, st, (Some (manifest s)). assert (VersionSet.set_descriptor (VersionSet.manifest_file_number_ s) None s = s) as -> by (rewrite <- Ed; by destruct s). split; [done|].
    split; [intros wd; congruence|]. split; [|congruence]. intros n w Hn _ _ Hw Ha. destruct (Ho n w Hn Hw). done. }
  destruct (te_create (env := env) _ e e1 file E1) as (Hl & _ & Ho). rewrite (InitTypeCrc_spec addr Haddr). cbn [mbind outcome_bind].
  unfold VersionSet.WriteSnapshot. rewrite Hv. cbn [mbind outcome_bind]. destruct (VersionSet.snapshot_edit_ok user user_name Hname v _ Hst Hp) as [Hok _].
  destruct (VersionEdit.edit_encoded _ VersionEdit.new [] Hok) as (bytes & Eb & _). rewrite Eb. cbn [mbind outcome_bind app].
  destruct (AddRecord_runs (Writer.mkWriter file 0 type_crcs) bytes e1) as (w & e2 & st & -> & Hw & Hdest & Hon); [split; [done | unfold kBlockSize; cbn; lia]|]. cbn [mbind outcome_bind fst snd Writer.dest_] in *.
  exists (Some w), e2, st, (Some (manifest s)). split; [reflexivity|]. split; [|split; [|done]].
  - intros wd [= <-]. split; [done|]. cbn [VersionSet.manifest_file_number_ VersionSet.set_descriptor]. rewrite Hdest. by apply Hon.
  - intros n w' Hn _ _ Hw' _. destruct (Ho n w' Hn Hw') as (Hne & H1 & H2). destruct Hon as [O1 O2]. split; [by apply O1|]. split; [by rewrite O2|]. intros wd [= <-]. by rewrite Hdest.
Qed.

Lemma DoWriteStringToFile_others name text sync e e' st : DoWriteStringToFile env text name sync e = (e', st) →
  ∀ n' w, n' ≠ name → linked e n' w → linked e' n' w ∧ data e' w = data e w.
Proof using HE.
  clear -HE. unfold DoWriteStringToFile. destruct (NewWritableFile env name e) as [e1 [s|file]] eqn:E1.
  { intros [= <- <-]. destruct (te_create_failed (env := env) _ e e1 s E1) as [_ Ho]. intros n' w Hn Hw. by apply Ho. }
  destruct (te_create (env := env) _ e e1 file E1) as (_ & _ & Ho). destruct (Env.file_Append env file text e1) as [e2 s2] eqn:E2. destruct (te_append (env := env) _ _ _ _ _ E2) as (A1 & A2 & _).
  destruct (if ok s2 && sync then _ else _) as [e3 s3] eqn:E3. destruct (if ok s3 then _ else _) as [e4 s4] eqn:E4.
  assert (only file e2 e3) as O3. { destruct (ok s2 && sync); [destruct (te_sync (env := env) _ _ _ _ E3) as (? & ? & _); by split | injection E3 as <- <-; apply only_refl]. }
  assert (only file e3 e4) as O4. { destruct (ok s3); [destruct (te_close (env := env) _ _ _ _ E4) as (? & ? & _); by split | injection E4 as <- <-; apply only_refl]. }
  assert (only file e1 e4) as [O1 O2] by (eapply only_trans; [|eapply only_trans; [exact O3 | exact O4]]; by split).
  assert (∀ n' w, n' ≠ name → linked e n' w → linked e4 n' w ∧ data e4 w = data e w) as H4.
  { intros n' w Hn Hw. destruct (Ho n' w Hn Hw) as (Hne & H1 & H2). split; [by apply O1|]. by rewrite O2. }
  destruct (ok s4); intros [= <- <-]; [exact H4|]. destruct (DeleteFile env name e4) as [e5 s5] eqn:E5. cbn [fst]. intros n' w Hn Hw. destruct (H4 n' w Hn Hw) as [L4 D4].
  destruct (te_delete (env := env) name e4 e5 s5 E5 n' w Hn L4) as [L5 D5]. split; [done|]. congruence.
Qed.
Lemma SetCurrentFile_runs n e : 0 < n → is_u64 n → ∃ e' st, SetCurrentFile env dbname n e = Ok (e', st) ∧
  ∀ n' w, n' ≠ CurrentFileName dbname → n' ≠ MakeFileName dbname n (str "dbtmp") → linked e n' w → linked e' n' w ∧ data e' w = data e w.
Proof.
  intros Hpos Hn. unfold SetCurrentFile, DescriptorFileName, TempFileName. destruct (Z.ltb_spec 0 n); [|lia]. cbn [mbind outcome_bind].
  change (str "/MANIFEST-") with (str "/" ++ str "MANIFEST-"). rewrite <- (app_assoc (str "/")), (app_assoc dbname), starts_with_app. cbn [negb]. set (tmp := MakeFileName _ _ _). set (text := _ ++ [z2b 10]).
  unfold WriteStringToFileSync. destruct (DoWriteStringToFile env _ tmp true e) as [e1 st1] eqn:E1. pose proof (DoWriteStringToFile_others _ _ _ _ _ _ E1) as H1.
  destruct (ok st1) eqn:Est.
  - destruct (RenameFile env tmp (CurrentFileName dbname) e1) as [e2 st2] eqn:E2. pose proof (te_rename (env := env) _ _ _ _ _ E2) as H2.
    assert (∀ n' w, n' ≠ CurrentFileName dbname → n' ≠ tmp → linked e n' w → linked e2 n' w ∧ data e2 w = data e w) as H3.
    { intros n' w Hn1 Hn2 Hw. destruct (H1 n' w Hn2 Hw) as [L1 D1]. destruct (H2 n' w Hn2 Hn1 L1) as [L2 D2]. split; [done|]. congruence. }
    destruct (ok st2) eqn:Es2.
    + eexists _, _. split; [rewrite ?Es2; reflexivity|]. exact H3.
    + destruct (DeleteFile env tmp e2) as [e3 st3] eqn:E3. eexists _, _. split; [rewrite ?Es2; cbn [fst snd]; reflexivity|].
      intros n' w Hn1 Hn2 Hw. destruct (H3 n' w Hn1 Hn2 Hw) as [L1 D1]. cbn [fst]. try (rewrite E3; cbn [fst]). destruct (te_delete (env := env) tmp e2 e3 st3 E3 n' w Hn2 L1) as [L2 D2]. split; [done|]. congruence.
  - destruct (DeleteFile env tmp e1) as [e3 st3] eqn:E3. eexists _, _. split; [rewrite ?Est; cbn [fst snd]; reflexivity|].
    intros n' w Hn1 Hn2 Hw. destruct (H1 n' w Hn2 Hw) as [L1 D1]. cbn [fst]. try (rewrite E3; cbn [fst]). destruct (te_delete (env := env) tmp e1 e3 st3 E3 n' w Hn2 L1) as [L2 D2]. split; [done|]. congruence.
Qed.

Lemma manifest_apart (s : vset) : is_u64 (VersionSet.manifest_file_number_ s) → manifest s ≠ CurrentFileName dbname ∧ manifest s ≠ MakeFileName dbname (VersionSet.manifest_file_number_ s) (str "dbtmp").
Proof. intros Hn. split; [apply VersionSet.manifest_not_current|]. destruct (VersionSet.manifest_not_temp dbname (VersionSet.manifest_file_number_ s) (VersionSet.manifest_file_number_ s)) as [H|H]; [exact H | done]. Qed.

Lemma spares_trans s1 s2 s3 e1 e2 e3 : VersionSet.manifest_file_number_ s2 = VersionSet.manifest_file_number_ s1 → spares s1 s2 e1 e2 → spares s2 s3 e2 e3 → spares s1 s3 e1 e3.
Proof.
  intros Em H1 H2 n w N1 N2 N3 Hw Ha. destruct (H1 n w N1 N2 N3 Hw Ha) as (L1 & D1 & A1). rewrite <- Em in N1, N3. destruct (H2 n w N1 N2 N3 L1 A1) as (L2 & D2 & A2).
  split; [done|]. split; [congruence | done].
Qed.

Lemma write_descriptor_runs edit created st s e : VersionSet.counters_ok s → VersionEdit.edit_ok edit → descriptor_ok s e → (ok st = true → is_Some (VersionSet.descriptor_log_ s)) →
  ∃ d e' st', let s' := VersionSet.set_descriptor (VersionSet.manifest_file_number_ s) d s in
    VersionSet.write_descriptor env addr dbname edit created st s e = Ok (s', e', st') ∧ descriptor_ok s' e' ∧ spares s s' e e'.
Proof.
  intros [[Hn Hpos] _ _ _ _] Hok Hd Hsome. unfold VersionSet.write_descriptor. destruct (manifest_apart s Hn) as [Hm1 Hm2].
  assert (s = VersionSet.set_descriptor (VersionSet.manifest_file_number_ s) (VersionSet.descriptor_log_ s) s) as Es by by destruct s.
  destruct (ok st) eqn:Est; cbn [mbind outcome_bind andb].
  2: { rewrite Est. cbn [andb]. eexists _, _, _. cbv zeta. rewrite <- Es. split; [reflexivity|]. split; [done|]. by intros n w _ _ _ Hw Ha. }
  destruct (VersionEdit.edit_encoded _ VersionEdit.new [] Hok) as (bytes & Eb & _). rewrite Eb. cbn [mbind outcome_bind app].
  destruct (Hsome eq_refl) as [wd Ewd]. rewrite Ewd. destruct (Hd wd Ewd) as [Hw Hl].
  destruct (AddRecord_runs wd bytes e Hw) as (w' & e1 & st1 & -> & Hw' & Hdest & Hon). cbn [mbind outcome_bind].
  destruct (if ok st1 then _ else _) as [e2 st2] eqn:E2. cbn [mbind outcome_bind].
  assert (only (Writer.dest_ wd) e e2) as Hon2.
  { eapply only_trans; [exact Hon|]. destruct (ok st1); [|injection E2 as <- <-; apply only_refl]. rewrite Hdest in E2. destruct (te_sync (env := env) _ _ _ _ E2) as (? & ? & _). by split. }
  set (s' := VersionSet.set_descriptor (VersionSet.manifest_file_number_ s) (Some w') s).
  assert (descriptor_ok s' e2 ∧ spares s s' e e2) as [Hd2 Hs2].
  { destruct Hon2 as [O1 O2]. split; [intros x [= <-]; split; [done|]; rewrite Hdest; by apply O1|]. intros n w _ _ _ Hlw Ha. split; [by apply O1|]. split; [by apply O2, Ha|].
    intros x [= <-]. rewrite Hdest. by apply Ha. }
  destruct (ok st2 && created); [|exists (Some w'), e2, st2; done].
  destruct (SetCurrentFile_runs (VersionSet.manifest_file_number_ s) e2 Hpos Hn) as (e3 & st3 & E3 & Ho). change (VersionSet.manifest_file_number_ s') with (VersionSet.manifest_file_number_ s). rewrite E3. cbn [mbind outcome_bind fst snd].
  exists (Some w'), e3, st3. split; [reflexivity|]. split.
  - intros x Hx. destruct (Hd2 x Hx) as [Hwx Hlx]. split; [done|]. by apply Ho.
  - apply (spares_trans s s' s' e e2 e3); [done | exact Hs2|]. intros n w _ N2 N3 Hlw Ha. destruct (Ho n w N2 N3 Hlw) as [L3 D3]. done.
Qed.

(** [LogAndApply] returns, whatever fails. *)
Lemma LogAndApply_runs other edit ed s e v b v' : VersionSet.current_ s = Ok v → VersionSet.storable user v → VersionSet.pointers_ok (VersionSet.compact_pointer_ s) → VersionSet.counters_ok s → descriptor_ok s e →
  VersionSet.complete_edit edit s = Ok ed → VersionEdit.edit_ok ed → Apply user ed (VersionBuilder.new v (VersionSet.compact_pointer_ s)) = Ok b → SaveTo user b = Ok v' →
  VersionBuilder.compact_pointer_ b = VersionSet.compact_pointer_ s →
  let state d := VersionSet.set_descriptor (VersionSet.manifest_file_number_ s) d s in
  (∀ d e', spares s (state d) e e' → ∃ s3, VersionSet.AppendVersion (VersionSet.Finalize v') (other (state d)) = Ok s3) →
  ∃ d e' st ed' s', VersionSet.LogAndApply user user_name env addr dbname other edit s e = Ok (st, ed', s', e') ∧ spares s (state d) e e' ∧
    if ok st then descriptor_ok (state d) e' ∧ ∃ s3, VersionSet.AppendVersion (VersionSet.Finalize v') (other (state d)) = Ok s3 ∧
      s' = VersionSet.set_log_numbers (VersionEdit.log_number_ ed) (VersionEdit.prev_log_number_ ed) s3
    else (descriptor_ok (state d) e' ∧ s' = other (state d)) ∨ s' = VersionSet.set_descriptor (VersionSet.manifest_file_number_ (other (state d))) None (other (state d)).
Proof.
  cbv zeta. intros Hv Hst Hp Hc Hd Eed Hok Eb Ev Eptr Happend. unfold VersionSet.LogAndApply. rewrite Eed. cbn [mbind outcome_bind]. rewrite Hv. cbn [mbind outcome_bind]. rewrite Eb. cbn [mbind outcome_bind].
  rewrite Ev. cbn [mbind outcome_bind]. assert (VersionSet.set_pointers (VersionBuilder.compact_pointer_ b) s = s) as -> by (rewrite Eptr; by destruct s).
  destruct (open_descriptor_runs s e v Hv Hst Hp Hc Hd) as (d1 & e1 & st1 & created & E1 & Hd1 & Hs1 & Hsome). rewrite E1. cbn [mbind outcome_bind].
  set (ed' := match created with Some _ => _ | None => ed end). set (s1 := VersionSet.set_descriptor _ d1 s) in *.
  assert (VersionEdit.edit_ok ed' ∧ VersionEdit.log_number_ ed' = VersionEdit.log_number_ ed ∧ VersionEdit.prev_log_number_ ed' = VersionEdit.prev_log_number_ ed) as (Hok' & El & Epv).
  { subst ed'. destruct created; [|done]. split; [|done]. destruct Hok as [K1 K2 K3 K4 K5 K6 K7 K8 K9]. split; try done. split; [apply (VersionSet.ct_next s Hc) | done]. }
  assert (VersionSet.counters_ok s1) as Hc1 by (by destruct Hc).
  destruct (write_descriptor_runs ed' (bool_decide (is_Some created)) st1 s1 e1 Hc1 Hok' Hd1 Hsome) as (d & e2 & st & E2 & Hd2 & Hs2). rewrite E2. cbn [mbind outcome_bind].
  change (VersionSet.set_descriptor (VersionSet.manifest_file_number_ s1) d s1) with (VersionSet.set_descriptor (VersionSet.manifest_file_number_ s) d s) in *.
  set (s2 := VersionSet.set_descriptor _ d s) in *. pose proof (spares_trans s s1 s2 e e1 e2 eq_refl Hs1 Hs2) as Hspare.
  destruct (ok st) eqn:Est.
  - destruct (Happend d e2 Hspare) as (s3 & E3). fold s2 in E3. rewrite E3. cbn [mbind outcome_bind]. eexists d, e2, st, ed', _. split; [reflexivity|]. split; [exact Hspare|]. rewrite Est. split; [done|]. exists s3. by rewrite El, Epv.
  - destruct created as [name|] eqn:Ecr.
    + destruct (DeleteFile env name e2) as [e3 st3] eqn:E3. eexists d, e3, st, ed', _. split; [reflexivity|]. rewrite Est. split; [|by right].
      intros n w N1 N2 N3 Hw Ha. destruct (Hspare n w N1 N2 N3 Hw Ha) as (L2 & D2 & A2).
      assert (n ≠ name) as Hne.
      { intros ->. apply VersionSet.open_descriptor_state in E1 as [_ Hcr]. destruct (VersionSet.descriptor_log_ s); [done|]. destruct Hcr as (m & Em & [= <-]). unfold DescriptorFileName in Em. destruct (0 <? _); [|done]. injection Em as Em. apply N1. rewrite <- Em. done. }
      destruct (te_delete (env := env) name e2 e3 st3 E3 n w Hne L2) as [L3 D3]. split; [done|]. split; [congruence | done].
    + eexists d, e2, st, ed', _. split; [reflexivity|]. rewrite Est. split; [exact Hspare|]. by left.
Qed.
End descriptor.

(** *** The table cache while a table is built *)

Section cache.
Context (addr : list byte → Z) (Snappy_Compress : list byte → option (list byte)) (Snappy_GetUncompressedLength : list byte → option Z)
  (Snappy_Uncompress : list byte → option (list byte)) (fresh : Z → list byte) (dbname : list byte) (wo : TableBuilder.Options) (o : Table.Options).
Context {E W R : Type} (env : EnvOps E W R) (NewRandomAccessFile : list byte → E → E * (status + RandomAccessFile)).

Lemma verify_table_cache n size id c e e' c' s : verify_table addr Snappy_GetUncompressedLength Snappy_Uncompress fresh dbname o NewRandomAccessFile n size id c e = Ok (e', c', s) →
  ∀ k, k ≠ table_key n → c' !! k = c !! k.
Proof.
  unfold verify_table, TableCache.NewIterator. destruct (FindTable _ _ _ _ _ _ _ _ _ _ _ _) as [[[e1 c1] r]| | |] eqn:E1; try done. cbn [mbind outcome_bind fst snd]. intros Hr k Hk.
  assert (c' = c1) as ->.
  { destruct r as [s1|t]; cbn [mbind outcome_bind fst snd] in Hr; [congruence|]. destruct (Table.NewIterator t) as [it| | |]; try done. cbn [mbind outcome_bind fst snd] in Hr. destruct (it_status _ _); try done. cbn [mbind outcome_bind] in Hr. congruence. }
  clear Hr. revert E1. unfold FindTable. destruct (c !! table_key n); [congruence|]. destruct (open_table_file _ _ _ _) as [[e2 [s2|f]]| | |]; try done; cbn [mbind outcome_bind fst snd]; [congruence|].
  destruct (Table.Open _ _ _ _ _ _ _ _) as [[[t|] s2]| | |]; try done; cbn [mbind outcome_bind fst snd]; destruct (ok s2); try done; intros [= _ <- _]; [|done].
  by rewrite lookup_insert_ne.
Qed.

Lemma BuildTable_cache {T} (iter : IteratorOps T) fuel it m id c e e' c' m' s :
  BuildTable addr Snappy_Compress Snappy_GetUncompressedLength Snappy_Uncompress fresh dbname wo o env NewRandomAccessFile iter fuel it m id c e = Ok (e', c', m', s) →
  ∀ k, k ≠ table_key (number m) → c' !! k = c !! k.
Proof.
  unfold BuildTable. destruct (it_SeekToFirst iter it) as [it0| | |]; try done. cbn [mbind outcome_bind number]. destruct (TableFileName dbname (number m)) as [fname| | |]; try done. cbn [mbind outcome_bind].
  intros Hr k Hk.
  assert (∀ it r, (let '(e, c, m, s) := (r : E * tables * FileMetaData * status) in st ← it_status iter it; let s := if ok st then s else st in
    if ok s && (0 <? file_size m) then Ok (e, c, m, s) else Ok ((DeleteFile env fname e).1, c, m, s)) = Ok (e', c', m', s) → r.1.1.2 = c') as Hclose.
  { intros it1 [[[e1 c1] m1] s1]. destruct (it_status iter it1) as [st| | |]; try done. cbn [mbind outcome_bind fst snd]. destruct (_ && _); congruence. }
  destruct (it_Valid iter it0).
  2: { pose proof (Hclose it0 (e, c, VersionEdit.mkFile (refs m) (allowed_seeks m) (number m) 0 (smallest m) (largest m), status_ok) Hr) as Ec. cbn [fst snd] in Ec. by subst. }
  destruct (NewWritableFile env fname e) as [e1 [s1|file]]; [congruence|].
  destruct (TableBuilder.new wo (file, e1)) as [b| | |]; try done. cbn [mbind outcome_bind] in Hr. destruct (it_key iter it0) as [small| | |]; try done. cbn [mbind outcome_bind] in Hr.
  destruct (add_entries _ _ _ _ _ _ _ _) as [[[it1 large] b1]| | |]; try done. cbn [mbind outcome_bind] in Hr.
  destruct (finish_table _ _ _ _ _ _ _ _ _ _ _ _ _ _ _) as [r| | |] eqn:Ef; try done. cbn [mbind outcome_bind] in Hr. pose proof (Hclose it1 r Hr) as Ec. subst c'. clear Hclose Hr.
  revert Ef. unfold finish_table. destruct (TableBuilder.Finish _ _ _ _ _) as [[b2 s2]| | |]; try done. cbn [mbind outcome_bind]. destruct (TableBuilder.file b2) as [file2 e2].
  destruct (_ && _); [done|]. destruct (if ok s2 then _ else _) as [e3 s3]. destruct (if ok s3 then _ else _) as [e4 s4]. destruct (ok s4); [|intros [= <-]; done].
  destruct (verify_table _ _ _ _ _ _ _ _ _ _ _ _) as [[[e5 c5] s5]| | |] eqn:Ev; try done. cbn [mbind outcome_bind fst snd]. intros [= <-]. cbn [fst snd]. by apply (verify_table_cache _ _ _ _ _ _ _ _ Ev).
Qed.
End cache.

(** *** The invariant *)

Section state.
Context (addr : list byte → Z) (Haddr : addr_ok addr) (Snappy_Compress : list byte → option (list byte)) (Snappy_GetUncompressedLength : list byte → option Z)
  (Snappy_Uncompress : list byte → option (list byte)) `{HS : !SnappyLaws Snappy_Compress Snappy_GetUncompressedLength Snappy_Uncompress}
  (fresh : Z → list byte) (Hfresh : ∀ n, 0 ≤ n → blen (fresh n) = n).
Context (dbname : list byte) (user : Comparator) `{Huser : !ComparatorLaws any_key user} (user_name : list byte) (Hname : blen user_name < 2 ^ 32).
Context (policy : option (FilterPolicy * list byte)) (N : nat) (size_ok : list (list byte) → Prop)
  (Hpolicy : match policy with
   | None => True
   | Some (p, _) => FilterLaws size_ok p ∧ (∀ l, (length l ≤ N)%nat → size_ok l) ∧ ∀ a b fl, Compare user a b = 0 → KeyMayMatch p a fl = KeyMayMatch p b fl
   end).
Context (block_size interval compression : Z) (paranoid : bool) (Hint : 1 ≤ interval) (Hcomp : compression = kNoCompression ∨ compression = kSnappyCompression).
Context {E W R : Type} (env : EnvOps E W R) (NewRandomAccessFile : list byte → E → E * (status + RandomAccessFile))
  (linked : E → list byte → W → Prop) (data : E → W → list byte) `{HE : !TableEnv env NewRandomAccessFile linked data}.
Context (blocks : option (list byte → option Block.block)) (ro : Table.ReadOptions) (read_id : Z) (Hread_id : new_cache_id blocks read_id).
#[local] Notation o := (TableCache.table_options user policy paranoid).
#[local] Notation wo := (TableCache.builder_options user policy block_size interval compression).
#[local] Notation name_of n := (MakeFileName dbname n (str "ldb")).
#[local] Notation vset := (VersionSet.version_set W).
#[local] Notation impl := (impl E W).
#[local] Notation is_table := (is_table Snappy_GetUncompressedLength Snappy_Uncompress o).
#[local] Notation tables_ok := (tables_ok addr Snappy_GetUncompressedLength Snappy_Uncompress fresh o).

(** The tables that were written: the size and the updates of each number. *)
Abbreviation stored_tables := (gmap Z (Z * list upd)).
Definition rows_of (stored : stored_tables) (n : Z) : option (list entry) := (λ p, map row p.2) <$> stored !! n.
Definition updates_of (stored : stored_tables) (n size : Z) : list upd := default [] (snd <$> stored !! n).
#[local] Notation contents stored := (λ f : FileMetaData, updates_of stored (number f) (file_size f)).
(** [TableCache::Get] as a version calls it. *)
Definition cache_get (c : tables) (e : E) : table_cache := λ n size t,
  r ← TableCache.Get addr Snappy_GetUncompressedLength Snappy_Uncompress fresh dbname o NewRandomAccessFile blocks ro n size read_id t c e; Ok r.2.

Definition table_there (e : E) (s : vset) (n : Z) (p : Z * list upd) : Prop :=
  ∃ w, linked e (name_of n) w ∧ p.1 = blen (data e w) ∧ is_table (data e w) (map row p.2) ∧ apart_from s w.

Record files_ok (s : vset) (c : tables) (pending : gset Z) (logfile : Z) (e : E) (stored : stored_tables) : Prop := mkFilesOk {
  fo_disk n p : stored !! n = Some p → n ∈ pending ∨ live_file s n → table_there e s n p;
  fo_live node level f : node ∈ VersionSet.versions_ s → f ∈ level_files (VersionSet.node_version node) level → ∃ us, stored !! number f = Some (file_size f, us);
  fo_storable node : node ∈ VersionSet.versions_ s → VersionSet.storable user (VersionSet.node_version node);
  fo_stored n p : stored !! n = Some p → (0 < n ∧ n < VersionSet.next_file_number_ s) ∧ run_ok user p.2 ∧ (length p.2 ≤ N)%nat;
  fo_cache : tables_ok (rows_of stored) blocks c;
  fo_new n : is_u64 n → VersionSet.next_file_number_ s ≤ n → c !! table_key n = None;
  fo_counters : VersionSet.counters_ok s;
  fo_pointers : VersionSet.pointers_ok (VersionSet.compact_pointer_ s);
  fo_log : VersionSet.log_number_ s ≤ logfile ∧ logfile < VersionSet.next_file_number_ s
}.
(** The database holds the updates: in the memtables, and in the tables of [v]. *)
Record healthy (i : impl) (stored : stored_tables) (us_mem us_imm : list upd) (v : version) : Prop := mkHealthy {
  he_files : files_ok (versions i) (table_cache_ i) (pending_outputs_ i) (logfile_number_ i) (fs_ i) stored;
  he_readable : readable user (updates_of stored) (cache_get (table_cache_ i) (fs_ i)) (db_ i) us_mem us_imm v
}.

Lemma stored_u64 s c pending logfile e stored n p : files_ok s c pending logfile e stored → stored !! n = Some p → is_u64 n ∧ 0 < n.
Proof. intros Hf Hn. destruct (fo_stored _ _ _ _ _ _ Hf n p Hn) as [[H1 H2] _]. destruct (VersionSet.ct_next s (fo_counters _ _ _ _ _ _ Hf)). unfold is_u64 in *. lia. Qed.
Lemma storable_levels v level f : VersionSet.storable user v → f ∈ level_files v level → (level < 7)%nat.
Proof. intros Hs Hf. destruct (decide (level < 7)%nat); [done|]. rewrite (levels_beyond user v level (VersionSet.st_levels user v Hs)) in Hf by lia. by apply elem_of_nil in Hf. Qed.

(** A table that is there can be read. *)
Lemma stored_reads s c pending logfile e stored f us : files_ok s c pending logfile e stored → stored !! number f = Some (file_size f, us) → table_there e s (number f) (file_size f, us) →
  TableReads user (contents stored) (cache_get c e) f.
Proof.
  intros Hf Hst (w & Hl & Hsize & Ht & _). destruct (stored_u64 _ _ _ _ _ _ _ _ Hf Hst) as [Hu Hpos]. destruct (fo_stored _ _ _ _ _ _ Hf _ _ Hst) as (_ & Hrun & HN).
  apply (disk_reads addr Haddr Snappy_GetUncompressedLength Snappy_Uncompress fresh Hfresh dbname user policy N size_ok Hpolicy paranoid env NewRandomAccessFile linked data (rows_of stored) blocks ro read_id c e us).
  - apply (fo_cache _ _ _ _ _ _ Hf).
  - done.
  - done.
  - unfold rows_of. by rewrite Hst.
  - exists w. split; [by left|]. done.
  - done.
  - done.
  - done.
  - unfold updates_of. by rewrite Hst.
Qed.
Lemma live_there s c pending logfile e stored node level f : files_ok s c pending logfile e stored → node ∈ VersionSet.versions_ s → f ∈ level_files (VersionSet.node_version node) level →
  ∃ us, stored !! number f = Some (file_size f, us) ∧ table_there e s (number f) (file_size f, us).
Proof.
  intros Hf Hnode Hfile. destruct (fo_live _ _ _ _ _ _ Hf node level f Hnode Hfile) as (us & Hst). exists us. split; [done|]. apply (fo_disk _ _ _ _ _ _ Hf _ _ Hst). right. exists node, level, f.
  split_and!; [done | by apply (storable_levels (VersionSet.node_version node) level f); [apply (fo_storable _ _ _ _ _ _ Hf)|] | done | done].
Qed.
Lemma live_reads s c pending logfile e stored node level f : files_ok s c pending logfile e stored → node ∈ VersionSet.versions_ s → f ∈ level_files (VersionSet.node_version node) level →
  TableReads user (contents stored) (cache_get c e) f.
Proof. intros Hf Hnode Hfile. destruct (live_there _ _ _ _ _ _ node level f Hf Hnode Hfile) as (us & Hst & Ht). by apply (stored_reads _ _ _ _ _ _ f us Hf). Qed.

(** *** Steps that keep the invariant *)

Lemma table_name_base n : is_u64 n → ParseFileName (print6 n ++ str "." ++ str "ldb") = Some (n, kTableFile).
Proof using. clear. intros Hn. rewrite parse_numbered; [reflexivity | done | vm_compute; intros [? ?]; done]. Qed.
Lemma table_name_inj m n : is_u64 m → is_u64 n → name_of m = name_of n → m = n.
Proof using. clear. intros Hm Hn E. apply app_inv_head, app_inv_head in E. pose proof (table_name_base m Hm) as H. rewrite E, (table_name_base n Hn) in H. by injection H. Qed.
Lemma table_not_manifest m n : is_u64 m → is_u64 n → name_of n ≠ VersionSet.manifest_name dbname m.
Proof using. clear. intros Hm Hn E. apply app_inv_head, app_inv_head in E. pose proof (table_name_base n Hn) as H. rewrite E in H. unfold VersionSet.manifest_base in H. by rewrite parse_manifest in H. Qed.
Lemma table_not_temp m n : is_u64 m → is_u64 n → name_of n ≠ MakeFileName dbname m (str "dbtmp").
Proof using.
  clear. intros Hm Hn E. apply app_inv_head, app_inv_head in E. pose proof (table_name_base n Hn) as H. rewrite E, parse_numbered in H; [discriminate H | done | vm_compute; intros [? ?]; done].
Qed.

Lemma tables_ok_sub stored stored' c c' : tables_ok stored blocks c → c' ⊆ c → (∀ n es, stored' n = Some es → stored n = Some es) → tables_ok stored' blocks c'.
Proof using. clear. intros H Hc Hs n t es Hn Ht Hes. apply (H n t es); [done | by apply (lookup_weaken c' c) | by apply Hs]. Qed.

Section steps.
Context (s : vset) (c : tables) (pending : gset Z) (logfile : Z) (e : E) (stored : stored_tables) (Hf : files_ok s c pending logfile e stored).

(** References come and go; versions are dropped. *)
Lemma files_ok_versions l : (∀ node, node ∈ l → ∃ node0, node0 ∈ VersionSet.versions_ s ∧ VersionSet.node_version node0 = VersionSet.node_version node) →
  files_ok (VersionSet.set_versions l s) c pending logfile e stored.
Proof.
  intros Hl. destruct Hf as [H1 H2 H3 H4 H5 H6 H7 H8 H9]. split; cbn; try done.
  - intros n p Hn Hu. apply (H1 n p Hn). destruct Hu as [?|(node & level & f & Hnode & Hlev & Hfile & En)]; [by left | right]. destruct (Hl node Hnode) as (node0 & Hin & E0). exists node0, level, f. by rewrite E0.
  - intros node level f Hnode. destruct (Hl node Hnode) as (node0 & Hin & <-). by apply H2.
  - intros node Hnode. destruct (Hl node Hnode) as (node0 & Hin & <-). by apply H3.
  - by destruct H7.
Qed.
Lemma files_ok_pending p : p ⊆ pending → files_ok s c p logfile e stored.
Proof. intros Hp. destruct Hf as [H1 H2 H3 H4 H5 H6 H7 H8 H9]. split; try done. intros n q Hn [Hin|Hl]; apply (H1 n q Hn); [left; by apply Hp | by right]. Qed.

Lemma unstored n : VersionSet.next_file_number_ s ≤ n → stored !! n = None.
Proof. intros Hn. destruct (stored !! n) as [p|] eqn:E0; [|done]. destruct (fo_stored _ _ _ _ _ _ Hf n p E0). lia. Qed.
Lemma files_ok_number : VersionSet.next_file_number_ s + 1 < 2 ^ 64 →
  files_ok (VersionSet.NewFileNumber s).2 c ({[VersionSet.next_file_number_ s]} ∪ pending) logfile e stored.
Proof.
  intros Hmax. pose proof (unstored _ (Z.le_refl _)) as Hnone. destruct Hf as [H1 H2 H3 H4 H5 H6 H7 H8 H9]. pose proof (VersionSet.ct_next s H7) as Hn.
  assert (u64 (VersionSet.next_file_number_ s + 1) = VersionSet.next_file_number_ s + 1) as Eu by (apply Z.mod_small; unfold is_u64 in Hn; lia).
  split; cbn; rewrite ?Eu; try done.
  - intros n p Hst Hu. apply (H1 n p Hst). rewrite elem_of_union, elem_of_singleton in Hu. destruct Hu as [[->|?]|?]; [congruence | by left | by right].
  - intros n p Hst. destruct (H4 n p Hst) as [? ?]. split; [lia | done].
  - intros n Hn64 Hle. apply H6; [done | lia].
  - destruct H7. split; cbn; rewrite ?Eu; try done. unfold is_u64 in *. lia.
  - lia.
Qed.

(** A table is written. *)
Context (n : Z) (Hn : is_u64 n) (Hnew : stored !! n = None) (us : list upd) (c' : tables) (e' : E)
  (Hothers : others_kept linked data (name_of n) e e') (Hcache : tables_ok (rows_of (<[n := (0, us)]> stored)) blocks c') (Hkeys : ∀ k, k ≠ table_key n → c' !! k = c !! k)
  (Hnum : 0 < n ∧ n < VersionSet.next_file_number_ s).
Lemma rows_insert size m : rows_of (<[n := (size, us)]> stored) m = rows_of (<[n := (0, us)]> stored) m.
Proof. unfold rows_of. destruct (decide (m = n)) as [->|]; [by rewrite !lookup_insert_eq | by rewrite !lookup_insert_ne]. Qed.
Lemma rows_extended m es : rows_of stored m = Some es → rows_of (<[n := (0, us)]> stored) m = Some es.
Proof. unfold rows_of. destruct (decide (m = n)) as [->|]; [by rewrite Hnew | by rewrite lookup_insert_ne]. Qed.
Lemma table_moved m p : is_u64 m → m ≠ n → table_there e s m p → table_there e' s m p.
Proof.
  intros Hm Hne (w & Hl & Hs & Ht & Ha). destruct (Hothers (name_of m) w) as [Hl' Hd]; [by intros ?%table_name_inj | done|]. exists w. rewrite Hd. done.
Qed.
Lemma files_ok_written : files_ok s c' pending logfile e' stored.
Proof.
  pose proof (λ m p, stored_u64 s c pending logfile e stored m p Hf) as Hu. destruct Hf as [H1 H2 H3 H4 H5 H6 H7 H8 H9]. split; try done.
  - intros m p Hst Huse. apply table_moved; [by apply (Hu m p) | intros ->; congruence | by apply (H1 m p Hst)].
  - apply (tables_ok_sub _ _ _ _ Hcache); [done | apply rows_extended].
  - intros m Hm Hle. rewrite Hkeys; [by apply H6|]. intros E0. apply EncodeFixed64_inj in E0; [lia | done | done].
Qed.
Lemma files_ok_built size : made_on_disk Snappy_GetUncompressedLength Snappy_Uncompress dbname o linked data e e' n size (map row us) → descriptor_ok linked dbname s e →
  run_ok user us → (length us ≤ N)%nat → files_ok s c' pending logfile e' (<[n := (size, us)]> stored).
Proof.
  intros (w & Hl & Hfr & Hs & Ht) Hd Hrun HN. pose proof (λ m p, stored_u64 s c pending logfile e stored m p Hf) as Hu. destruct Hf as [H1 H2 H3 H4 H5 H6 H7 H8 H9]. split; try done.
  - intros m p Hst Huse. destruct (decide (m = n)) as [->|Hne].
    + rewrite lookup_insert_eq in Hst. injection Hst as <-. exists w. split; [done|]. split; [done|]. split; [done|]. intros wd Hwd E0. destruct (Hd wd Hwd) as [_ Hlw].
      apply (Hfr _ _ (not_eq_sym (table_not_manifest _ n (proj1 (VersionSet.ct_manifest s H7)) Hn)) Hlw). done.
    + rewrite lookup_insert_ne in Hst by done. apply table_moved; [by apply (Hu m p) | done | by apply (H1 m p Hst)].
  - intros node level f Hnode Hfile. destruct (H2 node level f Hnode Hfile) as (us' & Hst). exists us'. rewrite lookup_insert_ne; [done|]. intros E0. congruence.
  - intros m p Hst. destruct (decide (m = n)) as [->|Hne]; [|rewrite lookup_insert_ne in Hst by done; by apply H4]. rewrite lookup_insert_eq in Hst. by injection Hst as <-.
  - intros m t es Hm Hlook Hes. rewrite rows_insert in Hes. by apply (Hcache m t es).
  - intros m Hm Hle. rewrite Hkeys; [by apply H6|]. intros E0. apply EncodeFixed64_inj in E0; [lia | done | done].
Qed.
End steps.

(** The descriptor is written. *)
Lemma files_ok_described s c pending logfile e stored d e' : files_ok s c pending logfile e stored →
  let s' := VersionSet.set_descriptor (VersionSet.manifest_file_number_ s) d s in spares linked data dbname s s' e e' → files_ok s' c pending logfile e' stored.
Proof.
  intros Hf s' Hs. pose proof (λ m p, stored_u64 s c pending logfile e stored m p Hf) as Hu. destruct Hf as [H1 H2 H3 H4 H5 H6 H7 H8 H9]. split; try done.
  - intros n p Hst Huse. destruct (H1 n p Hst Huse) as (w & Hl & Hsz & Ht & Ha). destruct (Hu n p Hst) as [Hn _]. pose proof (proj1 (VersionSet.ct_manifest s H7)) as Hm.
    destruct (Hs (name_of n) w) as (Hl' & Hd & Ha'); [by apply table_not_manifest | by apply temp_not_current | by apply table_not_temp | done | done|]. exists w. rewrite Hd. done.
  - by destruct H7.
Qed.

(** *** The readable part *)

Lemma data_ok_moved st st' tg tg' us_mem us_imm v : data_ok user st tg us_mem us_imm v →
  (∀ level f, f ∈ level_files v level → st' (number f) (file_size f) = st (number f) (file_size f) ∧ TableReads user (λ f, st' (number f) (file_size f)) tg' f) → data_ok user st' tg' us_mem us_imm v.
Proof using.
  clear. intros [H1 H2 H3 H4 H5 H6] Hold. split; try done.
  - by apply (version_ok_moved user (λ f, st (number f) (file_size f)) _ tg tg' v H4).
  - assert (version_updates (λ f, st' (number f) (file_size f)) v = version_updates (λ f, st (number f) (file_size f)) v) as ->; [|done].
    unfold version_updates. f_equal. apply map_ext. intros l. unfold level_updates. f_equal. apply list_fmap_ext. intros i f Hf. by apply (Hold l f), list_elem_of_lookup_2 with i.
Qed.

(** The current version itself in the place of one with the same files. *)
Lemma readable_current st tg (d : DbRead.db W) us_mem us_imm v : readable user st tg d us_mem us_imm v →
  ∃ node, last (VersionSet.versions_ (set_ d)) = Some node ∧ VersionSet.versions_ (set_ d) !! current_position d = Some node ∧ 1 ≤ VersionSet.refs_ node ∧ same_files v (VersionSet.node_version node) ∧
    data_ok user st tg us_mem us_imm (VersionSet.node_version node).
Proof using.
  clear. intros [[H1 H2 H3 H4 H5 H6] _ _ Hne (node & Hnode & Hr & Hs)]. exists node. split; [rewrite last_lookup; exact Hnode|]. split; [done|]. split; [done|]. split; [done|]. split; try done.
  - by apply (version_ok_same user st tg v).
  - by rewrite (same_version_updates st v).
Qed.

Lemma same_table_reads st tg f g : same_file f g → TableReads user (λ f, st (number f) (file_size f)) tg f → TableReads user (λ f, st (number f) (file_size f)) tg g.
Proof using. clear. intros (E1 & E2 & _) H t Ht. specialize (H t Ht). cbv zeta in *. by rewrite <- E1, <- E2. Qed.

(** The files of [v] are those of the current version. *)
Lemma version_files i stored us_mem us_imm v level f : healthy i stored us_mem us_imm v → f ∈ level_files v level →
  ∃ node g us, last (VersionSet.versions_ (versions i)) = Some node ∧ g ∈ level_files (VersionSet.node_version node) level ∧ same_file f g ∧ stored !! number f = Some (file_size f, us).
Proof.
  intros [Hf Hr] [k Hk]%list_elem_of_lookup. destruct (readable_current _ _ _ _ _ _ Hr) as (node & Hlast & Hnode & _ & Hs & _).
  destruct (same_files_lookup (VersionSet.node_version node) v level k f) as (g & Hg & Hgf); [by symmetry | done|]. exists node, g.
  assert (g ∈ level_files (VersionSet.node_version node) level) as Hin by (by eapply list_elem_of_lookup_2).
  destruct (fo_live _ _ _ _ _ _ Hf node level g) as (us & Hus); [by eapply list_elem_of_lookup_2 | done|]. exists us. split; [done|]. split; [done|]. split; [by symmetry|].
  destruct Hgf as (<- & <- & _). done.
Qed.
Lemma healthy_step i i' stored stored' us_mem us_imm v : healthy i stored us_mem us_imm v →
  files_ok (versions i') (table_cache_ i') (pending_outputs_ i') (logfile_number_ i') (fs_ i') stored' → stored ⊆ stored' →
  memtables (db_ i') = memtables (db_ i) → mem_ (db_ i') = mem_ (db_ i) → imm_ (db_ i') = imm_ (db_ i) → version_alive (db_ i') (current_position (db_ i')) v →
  healthy i' stored' us_mem us_imm v.
Proof.
  intros Hh Hf' Hsub E1 E2 E3 Hv. pose proof (λ level f, version_files i stored us_mem us_imm v level f Hh) as Hfiles. destruct Hh as [Hf [Hda Hm Hi Hne Hcur]]. split; [done|].
  assert (∃ node, VersionSet.versions_ (versions i') !! current_position (db_ i') = Some node ∧ same_files v (VersionSet.node_version node)) as (node' & Hnode' & Hs') by (destruct Hv as (node' & ? & _ & ?); by exists node').
  split.
  - apply (data_ok_moved (updates_of stored) _ (cache_get (table_cache_ i) (fs_ i))); [done|]. intros level f Hfile. split.
    + destruct (Hfiles level f Hfile) as (node & g & us & _ & _ & _ & Hst). unfold updates_of. by rewrite Hst, (lookup_weaken _ _ _ _ Hst Hsub).
    + apply list_elem_of_lookup in Hfile as [k Hk]. destruct (same_files_lookup (VersionSet.node_version node') v level k f) as (g & Hg & Hgf); [by symmetry | done|].
      apply (same_table_reads _ _ g f Hgf). apply (live_reads _ _ _ _ _ _ node' level g Hf'); by eapply list_elem_of_lookup_2.
  - unfold alive in *. by rewrite E1, E2.
  - unfold alive in *. by rewrite E1, E2, E3.
  - intros E0. change (set_ (db_ i')) with (versions i') in E0. by rewrite E0 in Hnode'.
  - done.
Qed.

(** What the other threads leave alone, while they write, read and drop old versions. *)
Record quiet (stored : stored_tables) (us_imm : list upd) (v : version) (i i2 : impl) (us_mem us_mem2 : list upd) : Prop := mkQuiet {
  qu_healthy : healthy i2 stored us_mem2 us_imm v;
  qu_tables n p : stored !! n = Some p → table_there (fs_ i) (versions i) n p → table_there (fs_ i2) (versions i2) n p;
  qu_grows : us_mem `prefix_of` us_mem2;
  qu_imm : imm_ (db_ i2) = imm_ (db_ i);
  qu_logfile : logfile_number_ i2 = logfile_number_ i;
  qu_pending : pending_outputs_ i2 = pending_outputs_ i;
  qu_numbers : VersionSet.next_file_number_ (versions i2) = VersionSet.next_file_number_ (versions i) ∧ VersionSet.log_number_ (versions i2) = VersionSet.log_number_ (versions i);
  qu_descriptor : VersionSet.descriptor_log_ (versions i2) = VersionSet.descriptor_log_ (versions i) ∧ VersionSet.manifest_file_number_ (versions i2) = VersionSet.manifest_file_number_ (versions i);
  qu_linked n w : n = VersionSet.manifest_name dbname (VersionSet.manifest_file_number_ (versions i)) → linked (fs_ i) n w → linked (fs_ i2) n w;
  qu_refs node node2 : last (VersionSet.versions_ (versions i)) = Some node → last (VersionSet.versions_ (versions i2)) = Some node2 → 2 ≤ VersionSet.refs_ node → 2 ≤ VersionSet.refs_ node2
}.
Lemma quiet_descriptor stored us_imm v i i2 us_mem us_mem2 : quiet stored us_imm v i i2 us_mem us_mem2 → descriptor_ok linked dbname (versions i) (fs_ i) → descriptor_ok linked dbname (versions i2) (fs_ i2).
Proof. intros H Hd wd Hwd. destruct (qu_descriptor _ _ _ _ _ _ _ H) as [E1 E2]. rewrite E1 in Hwd. destruct (Hd wd Hwd) as [Hw Hl]. split; [done|]. rewrite E2. by apply (qu_linked _ _ _ _ _ _ _ H). Qed.

(** A memtable as a sorted run. *)
Lemma memtable_run m us : MemTable.holds user m us → Forall upd_ok us → ∃ us', us' ≡ₚ us ∧ run_ok user us' ∧
  CursorLaws (MemTable.iterator user m) (InternalKeyComparator.Compare user) target_ok (map row us') (at_pos m us') ∧ at_pos m us' None (length us').
Proof using Huser.
  clear -Huser. intros (es & Hrep & Hp) Hok. apply Permutation_map_inv in Hp as (us' & -> & Hp). exists us'. split; [by symmetry|]. assert (Forall upd_ok us') as Hok' by (by rewrite <- Hp).
  split; [split; [by apply (rows_sorted user m)|]|].
  - intros u Hu. rewrite Forall_forall in Hok'. apply (Hok' u Hu).
  - split; [by apply (memtable_cursor user m us')|]. split; [|done]. symmetry. apply lookup_ge_None. by rewrite (table_length user m us' Hrep).
Qed.

(** *** [WriteLevel0Table] *)

(** The table that was written for the updates, and where it may go. *)
Record table_written (i : impl) (stored : stored_tables) (us_imm : list upd) (v : version) (f : FileMetaData) (L : nat) : Prop := mkTableWritten {
  tw_build : build (new_file (number f) (file_size f) (smallest f) (largest f)) = f;
  tw_stored : ∃ us, us ≡ₚ us_imm ∧ stored !! number f = Some (file_size f, us) ∧ table_there (fs_ i) (versions i) (number f) (file_size f, us);
  tw_holds : file_holds user (contents stored) f;
  tw_ok : VersionEdit.file_ok f;
  tw_level : (L < 7)%nat;
  tw_free : (0 < L)%nat → ∀ l g, (l ≤ L)%nat → g ∈ level_files v l → touches user (Some (ExtractUserKey (smallest f))) (Some (ExtractUserKey (largest f))) g = false;
  tw_number l g : g ∈ level_files v l → number g < number f
}.
Lemma range_key_ok a us : (∃ u, u ∈ us ∧ a = upd_ikey u) → Forall upd_ok us → VersionEdit.key_ok a.
Proof using.
  clear. intros (u & Hu & ->) Hok. rewrite Forall_forall in Hok. destruct (Hok u Hu) as (_ & Hk & _). split; [apply ikey_nonempty, ikey_ok_ikey|]. unfold upd_ikey. rewrite blen_ikey. lia.
Qed.

Section write.
Context (us_imm : list upd) (v : version) (others : option nat → impl → option nat * impl)
  (Hothers : ∀ i stored us_mem, healthy i stored us_mem us_imm v → ∃ i2 us_mem2, others (Some (current_position (db_ i))) i = (Some (current_position (db_ i2)), i2) ∧ quiet stored us_imm v i i2 us_mem us_mem2).
Context (fuel : nat) (Hfuel : (length us_imm ≤ fuel)%nat) (HN : (length us_imm ≤ N)%nat) (new_id : Z) (Hnew_id : new_cache_id blocks new_id).
#[local] Notation WriteLevel0Table := (DbFlush.WriteLevel0Table user addr Snappy_Compress Snappy_GetUncompressedLength Snappy_Uncompress fresh dbname wo o env NewRandomAccessFile fuel).

Lemma policy_internal : policy_ok wo N (λ keys, size_ok (map ExtractUserKey keys)).
Proof using Hpolicy Huser.
  clear -Hpolicy Huser. unfold policy_ok. destruct policy as [[p name]|]; [|done]. destruct Hpolicy as (HF & Hl & _). cbn. split; [by apply internal_filter_laws|]. intros l Hlen. apply Hl. by rewrite length_map.
Qed.

(** The table is built, whatever fails; [stored2] knows it if it was. *)
Lemma build_step i stored us_mem idx m : healthy i stored us_mem us_imm v → descriptor_ok linked dbname (versions i) (fs_ i) →
  imm_ (db_ i) = Some idx → memtable_at idx (db_ i) = Ok m → MemTable.holds user m us_imm → Forall upd_ok us_imm → VersionSet.next_file_number_ (versions i) + 1 < 2 ^ 64 →
  let n := VersionSet.next_file_number_ (versions i) in
  let i1 := set_pending ({[n]} ∪ pending_outputs_ i) (set_versions (VersionSet.NewFileNumber (versions i)).2 i) in
  ∃ e c meta st stored2, BuildTable addr Snappy_Compress Snappy_GetUncompressedLength Snappy_Uncompress fresh dbname wo o env NewRandomAccessFile
      (MemTable.iterator user m) fuel None (new_file n 0 [] []) new_id (table_cache_ i) (fs_ i) = Ok (e, c, meta, st) ∧
    number meta = n ∧ healthy (set_files c e i1) stored2 us_mem us_imm v ∧ descriptor_ok linked dbname (versions i1) e ∧ stored ⊆ stored2 ∧
    if ok st && (0 <? file_size meta) then
      ∃ us, us ≡ₚ us_imm ∧ stored2 !! n = Some (file_size meta, us) ∧ run_ok user us ∧ us ≠ [] ∧ Some (smallest meta) = head (map fst (map row us)) ∧ Some (largest meta) = last (map fst (map row us)) ∧ is_u64 (file_size meta)
    else ok st = false ∨ us_imm = [].
Proof.
  intros Hh Hd Eimm Em Hm Hok Hmax n i1. pose proof (he_files _ _ _ _ _ Hh) as Hf. destruct (memtable_run m us_imm Hm Hok) as (us & Hp & Hrun & HI & Hat).
  assert (length us ≤ N)%nat as HNus by (by rewrite Hp). pose proof (fo_counters _ _ _ _ _ _ Hf) as Hcnt. pose proof (VersionSet.ct_next _ Hcnt) as Hn64. fold n in Hn64, Hmax.
  assert (0 < n) as Hpos. { destruct (fo_log _ _ _ _ _ _ Hf) as [H1 H2]. pose proof (VersionSet.ct_log _ Hcnt). unfold is_u64 in *. subst n. lia. }
  pose proof (unstored _ _ _ _ _ _ Hf n (Z.le_refl _)) as Hnone. pose proof (fo_new _ _ _ _ _ _ Hf n Hn64 (Z.le_refl _)) as Hnocache.
  assert (tables_ok (rows_of (<[n := (0, us)]> stored)) blocks (table_cache_ i)) as Hc.
  { intros k t es Hk Ht Hes. destruct (decide (k = n)) as [->|Hne]; [congruence|]. apply (fo_cache _ _ _ _ _ _ Hf k t es); [done | done|]. unfold rows_of in *. by rewrite lookup_insert_ne in Hes. }
  assert (rows_of (<[n := (0, us)]> stored) n = Some (map row us)) as Hst by (unfold rows_of; by rewrite lookup_insert_eq).
  destruct (BuildTable_spec addr Haddr Snappy_Compress Snappy_GetUncompressedLength Snappy_Uncompress fresh Hfresh dbname ikey_ok wo o eq_refl eq_refl Hint Hcomp N _ policy_internal env NewRandomAccessFile linked data
    (MemTable.iterator user m) (map row us) target_ok (at_pos m us) HI (run_entries user us N Hrun HNus o eq_refl) _ blocks new_id Hnew_id fuel None (length us) (new_file n 0 [] []) (table_cache_ i) (fs_ i)
    Hat ltac:(rewrite length_map, Hp; done) Hpos Hn64 Hst Hc) as (e & c & meta & st & E0 & Hoth & Hc' & Hnum & [Hempty Hbuilt] & _).
  change (number (new_file n 0 [] [])) with n in *. pose proof (BuildTable_cache _ _ _ _ _ _ _ _ _ _ _ _ _ _ _ _ _ _ _ _ _ E0) as Hkeys. change (number (new_file n 0 [] [])) with n in Hkeys.
  pose proof (files_ok_number _ _ _ _ _ _ Hf Hmax) as Hf1. fold n in Hf1. set (s1 := (VersionSet.NewFileNumber (versions i)).2) in *.
  assert (0 < n ∧ n < VersionSet.next_file_number_ s1) as Hnum1.
  { split; [done|]. subst s1. cbn. unfold u64. rewrite Z.mod_small by (unfold is_u64 in Hn64; lia). subst n. lia. }
  assert (descriptor_ok linked dbname s1 e) as Hd1.
  { intros wd Hwd. destruct (Hd wd Hwd) as [Hw Hl]. split; [done|]. apply Hoth; [|done]. apply not_eq_sym, table_not_manifest; [apply (VersionSet.ct_manifest _ Hcnt) | done]. }
  exists e, c, meta, st, (if ok st && (0 <? file_size meta) then <[n := (file_size meta, us)]> stored else stored). split; [exact E0|]. split; [done|].
  assert (ok st && (0 <? file_size meta) = true → us ≠ [] ∧ ok st = true) as Hyes.
  { intros [H1 H2]%andb_true_iff. split; [|done]. intros ->. destruct (Hempty eq_refl) as [_ H3]. lia. }
  destruct (ok st && (0 <? file_size meta)) eqn:Eb.
  - destruct (Hyes eq_refl) as [Hne Est]. assert (map row us ≠ []) as Hne' by by destruct us. destruct (Hbuilt Hne' Est) as (Hh1 & Hl1 & Hsz & Hmade).
    split; [|split; [done|]; split; [by apply insert_subseteq|]].
    + apply (healthy_step i _ stored); [done | | by apply insert_subseteq | done | done | done |].
      * apply (files_ok_built s1 _ _ _ _ _ Hf1 n Hn64 Hnone us c e Hoth Hc' Hkeys Hnum1 (file_size meta)); try done.
      * destruct Hh as [_ [_ _ _ _ (node & Hnode & Hr & Hs)]]. exists node. done.
    + exists us. split; [done|]. split; [by rewrite lookup_insert_eq|]. split; [done|]. split; [done|]. split; [done|]. split; [done|]. destruct Hmade as (w & _ & _ & -> & [Hlt _]). pose proof (blen_nonneg (data e w)). unfold is_u64. lia.
  - split; [|split; [done|]; split; [done|]].
    + apply (healthy_step i _ stored); [done | | done | done | done | done |].
      * apply (files_ok_written s1 _ _ _ _ _ Hf1 n Hn64 Hnone us c e Hoth Hc' Hkeys Hnum1).
      * destruct Hh as [_ [_ _ _ _ (node & Hnode & Hr & Hs)]]. exists node. done.
    + destruct (ok st) eqn:Est; [right | by left]. cbn [andb] in Eb. destruct us as [|u us']; [by apply Permutation_nil_l in Hp|]. destruct (Hbuilt ltac:(done) eq_refl) as (_ & _ & Hsz & _). lia.
Qed.

Lemma levels_are_searchable st tg w : version_ok user st tg w → levels_searchable user w.
Proof using.
  clear. intros Hw l Hl. split; [by apply (vo_sorted _ _ _ _ Hw)|]. intros f Hf. destruct (vo_holds _ _ _ _ Hw l f Hf) as [[[_ Hq] _ _ (u & Hu & <-)] _].
  exists (u_key u), (u_seq u), (u_type u). split; [by apply Hq | done].
Qed.
(** A file of a run. *)
Lemma written_file_ok n size us smallest largest : run_ok user us → us ≠ [] → Forall upd_ok us → is_u64 n → is_u64 size → Some smallest = head (map fst (map row us)) → Some largest = last (map fst (map row us)) →
  VersionEdit.file_ok (new_file n size smallest largest).
Proof using.
  clear. intros Hr Hne Hok Hn Hs Hh Hl. split; [done|]. split; [done|]. cbn. split; (eapply range_key_ok; [|exact Hok]).
  - destruct us as [|u us]; [done|]. cbn in Hh. injection Hh as ->. exists u. split; [by left | done].
  - rewrite !fmap_last in Hl. destruct (last us) as [u|] eqn:E; [|by apply last_None in E]. cbn in Hl. injection Hl as ->. exists u. split; [|done]. rewrite last_lookup in E. by eapply list_elem_of_lookup_2.
Qed.

Lemma WriteLevel0Table_spec i stored us_mem idx m : healthy i stored us_mem us_imm v → descriptor_ok linked dbname (versions i) (fs_ i) →
  imm_ (db_ i) = Some idx → memtable_at idx (db_ i) = Ok m → MemTable.holds user m us_imm → Forall upd_ok us_imm → VersionSet.next_file_number_ (versions i) + 1 < 2 ^ 64 →
  (∀ node, last (VersionSet.versions_ (versions i)) = Some node → 2 ≤ VersionSet.refs_ node) →
  ∃ st edit i2 us_mem2 stored2, WriteLevel0Table others new_id idx VersionEdit.new (Some (current_position (db_ i))) i = Ok (st, edit, Some (current_position (db_ i2)), i2) ∧
    healthy i2 stored2 us_mem2 us_imm v ∧ us_mem `prefix_of` us_mem2 ∧ descriptor_ok linked dbname (versions i2) (fs_ i2) ∧ stored ⊆ stored2 ∧ imm_ (db_ i2) = Some idx ∧
    logfile_number_ i2 = logfile_number_ i ∧ VersionSet.log_number_ (versions i2) = VersionSet.log_number_ (versions i) ∧
    (∀ node, last (VersionSet.versions_ (versions i2)) = Some node → 2 ≤ VersionSet.refs_ node) ∧
    (ok st = true → (us_imm = [] ∧ edit = VersionEdit.new) ∨
      ∃ f L, table_written i2 stored2 us_imm v f L ∧ edit = VersionEdit.AddFile (Z.of_nat L) (number f) (file_size f) (smallest f) (largest f) VersionEdit.new).
Proof.
  intros Hh Hd Eimm Em Hm Hok Hmax Hrefs. unfold DbFlush.WriteLevel0Table.
  destruct (build_step i stored us_mem idx m Hh Hd Eimm Em Hm Hok Hmax) as (e & c & meta & st & stored2 & E0 & Hnum & Hh1 & Hd1 & Hsub & Hcase).
  set (n := VersionSet.next_file_number_ (versions i)) in *. unfold VersionSet.NewFileNumber in Hh1, Hd1 |- *. fold n in Hh1, Hd1 |- *. cbv iota zeta. set (i1 := set_pending _ _) in *. change (memtable_at idx (db_ i1)) with (memtable_at idx (db_ i)). rewrite Em. cbn [mbind outcome_bind].
  change (table_cache_ i1) with (table_cache_ i). change (fs_ i1) with (fs_ i). rewrite E0. cbn [mbind outcome_bind].
  destruct (Hothers _ _ _ Hh1) as (i2 & us_mem2 & Eo & Hq). change (current_position (db_ (set_files c e i1))) with (current_position (db_ i)) in Eo. rewrite Eo. cbv iota zeta.
  pose proof (qu_healthy _ _ _ _ _ _ _ Hq) as Hh2. pose proof (quiet_descriptor _ _ _ _ _ _ _ Hq Hd1) as Hd2.
  set (i3 := set_pending (pending_outputs_ i2 ∖ {[number meta]}) i2).
  assert (healthy i3 stored2 us_mem2 us_imm v) as Hh3.
  { split; [|apply (he_readable _ _ _ _ _ Hh2)]. apply (files_ok_pending _ _ (pending_outputs_ i2)); [apply (he_files _ _ _ _ _ Hh2)|]. set_solver. }
  assert (∀ node, last (VersionSet.versions_ (versions i3)) = Some node → 2 ≤ VersionSet.refs_ node) as Hrefs3.
  { intros node2 Hnode2. destruct (last (VersionSet.versions_ (versions i))) as [node|] eqn:El; [|apply last_None in El; destruct Hh as [_ [_ _ _ Hne _]]; done].
    apply (qu_refs _ _ _ _ _ _ _ Hq node node2); [done | done | by apply Hrefs]. }
  assert (∀ edit : VersionEdit.version_edit, ∃ i2 us_mem2' stored2', Ok (st, edit, Some (current_position (db_ i3)), i3) = Ok (st, edit, Some (current_position (db_ i2)), i2) ∧
    healthy i2 stored2' us_mem2' us_imm v ∧ us_mem `prefix_of` us_mem2' ∧ descriptor_ok linked dbname (versions i2) (fs_ i2) ∧ stored ⊆ stored2' ∧ imm_ (db_ i2) = Some idx ∧
    logfile_number_ i2 = logfile_number_ i ∧ VersionSet.log_number_ (versions i2) = VersionSet.log_number_ (versions i) ∧ (∀ node, last (VersionSet.versions_ (versions i2)) = Some node → 2 ≤ VersionSet.refs_ node) ∧ i2 = i3 ∧ stored2' = stored2) as Hres.
  { intros edit. exists i3, us_mem2, stored2. split; [done|]. split; [done|]. split; [apply (qu_grows _ _ _ _ _ _ _ Hq)|]. split; [done|]. split; [done|]. split; [cbn; by rewrite (qu_imm _ _ _ _ _ _ _ Hq)|].
    split; [apply (qu_logfile _ _ _ _ _ _ _ Hq)|]. split; [apply (proj2 (qu_numbers _ _ _ _ _ _ _ Hq))|]. done. }
  destruct (ok st && (0 <? file_size meta)) eqn:Eb.
  2: { cbn [mbind outcome_bind]. destruct (Hres VersionEdit.new) as (i4 & u4 & s4 & E4 & H1 & H2 & H3 & H4 & H5 & H6 & H7 & H8 & -> & ->). exists st, VersionEdit.new, i3, u4, stored2. split; [exact E4|]. split_and!; try done.
    intros Est. left. split; [|done]. destruct Hcase; [congruence | done]. }
  destruct Hcase as (us & Hp & Hst & Hrun & Hne & Hhead & Hlast & Hsz).
  destruct (readable_current _ _ _ _ _ _ (he_readable _ _ _ _ _ Hh2)) as (node & Hnode & Hat & _ & Hsame & Hda).
  unfold version_at. change (set_ (db_ i3)) with (set_ (db_ i2)). rewrite Hat. cbn [mbind outcome_bind].
  destruct (pick_level_safe user Huser (VersionSet.node_version node) (levels_are_searchable _ _ _ (da_version _ _ _ _ _ _ Hda)) (ExtractUserKey (smallest meta)) (ExtractUserKey (largest meta))) as (_ & L & -> & HL & Hfree). cbn [mbind outcome_bind].
  destruct (Hres (VersionEdit.AddFile (Z.of_nat L) (number meta) (file_size meta) (smallest meta) (largest meta) VersionEdit.new)) as (i4 & u4 & s4 & E4 & H1 & H2 & H3 & H4 & H5 & H6 & H7 & H8 & -> & ->).
  eexists st, _, i3, u4, stored2. split; [exact E4|]. split_and!; try done. intros _. right. exists (build (new_file n (file_size meta) (smallest meta) (largest meta))), L. split; [|by rewrite Hnum].
  assert (Forall upd_ok us) as Hok' by (by rewrite Hp).
  assert (is_u64 n) as Hn64 by apply (VersionSet.ct_next _ (fo_counters _ _ _ _ _ _ (he_files _ _ _ _ _ Hh))).
  split; cbn [number file_size smallest largest build new_file].
  - done.
  - exists us. split; [done|]. split; [done|]. apply (fo_disk _ _ _ _ _ _ (he_files _ _ _ _ _ Hh2) n (file_size meta, us) Hst). left. rewrite (qu_pending _ _ _ _ _ _ _ Hq). cbn. set_solver.
  - apply (run_holds user us); try done. unfold updates_of. cbn [number build new_file]. by rewrite Hst.
  - apply (written_file_ok n (file_size meta) us); done.
  - unfold kMaxMemCompactLevel in HL. lia.
  - intros H0 l g Hl [k Hk]%list_elem_of_lookup. destruct (same_files_lookup (VersionSet.node_version node) v l k g) as (h & Hh' & (_ & _ & E5 & E6)); [by symmetry | done|].
    specialize (Hfree H0 l h Hl ltac:(by eapply list_elem_of_lookup_2)). unfold touches in *. by rewrite <- E5, <- E6.
  - intros l g Hg. destruct (version_files i stored us_mem us_imm v l g Hh Hg) as (_ & _ & us' & _ & _ & _ & Hst'). destruct (fo_stored _ _ _ _ _ _ (he_files _ _ _ _ _ Hh) _ _ Hst'). lia.
Qed.

(** *** Installing the edit *)

(** The edit that is logged. *)
Definition flush_log_edit (logfile : Z) (edit : VersionEdit.version_edit) : VersionEdit.version_edit := VersionEdit.SetLogNumber logfile (VersionEdit.SetPrevLogNumber 0 edit).

Lemma complete_flush_edit (s : vset) logfile edit : VersionEdit.compact_pointers_ edit = [] → VersionSet.log_number_ s ≤ logfile ∧ logfile < VersionSet.next_file_number_ s →
  VersionSet.complete_edit (flush_log_edit logfile edit) s = Ok (VersionEdit.SetLastSequence (VersionSet.last_sequence_ s) (VersionEdit.SetNextFile (VersionSet.next_file_number_ s) (flush_log_edit logfile edit))).
Proof using.
  clear. intros _ [H1 H2]. unfold VersionSet.complete_edit, flush_log_edit. cbn [VersionEdit.has_log_number_ VersionEdit.SetLogNumber VersionEdit.log_number_ VersionEdit.SetPrevLogNumber].
  destruct (Z.leb_spec (VersionSet.log_number_ s) logfile); [|lia]. destruct (Z.ltb_spec logfile (VersionSet.next_file_number_ s)); [|lia]. done.
Qed.
Lemma flush_edit_ok (s : vset) logfile : VersionSet.counters_ok s → is_u64 logfile → 
  let complete edit := VersionEdit.SetLastSequence (VersionSet.last_sequence_ s) (VersionEdit.SetNextFile (VersionSet.next_file_number_ s) (flush_log_edit logfile edit)) in
  VersionEdit.edit_ok (complete VersionEdit.new) ∧
  ∀ f L, (L < 7)%nat → VersionEdit.file_ok f → VersionEdit.edit_ok (complete (VersionEdit.AddFile (Z.of_nat L) (number f) (file_size f) (smallest f) (largest f) VersionEdit.new)).
Proof using.
  clear. intros [H1 H2 H3 H4 H5] Hlog. cbv zeta. assert (is_u64 0) as H0 by (unfold is_u64; lia). split.
  - split; cbn; try done; constructor.
  - intros f L HL Hf. split; cbn; try done; try constructor; [|constructor]. cbn. split; [unfold level_ok, kNumLevels; lia | done].
Qed.

(** The builder makes a version with the updates of the memtable. *)
Lemma edit_installs i stored us_mem w edit ed : healthy i stored us_mem us_imm v → last (VersionSet.versions_ (versions i)) = Some w → seqs_unique user us_imm →
  (∀ l, blen (level_files v l) + 1 < 2 ^ 31) →
  (us_imm = [] ∧ edit = VersionEdit.new ∨ ∃ f L, table_written i stored us_imm v f L ∧ edit = VersionEdit.AddFile (Z.of_nat L) (number f) (file_size f) (smallest f) (largest f) VersionEdit.new) →
  VersionEdit.new_files_ ed = VersionEdit.new_files_ edit → VersionEdit.deleted_files_ ed = VersionEdit.deleted_files_ edit → VersionEdit.compact_pointers_ ed = VersionEdit.compact_pointers_ edit →
  ∃ b v', Apply user ed (VersionBuilder.new (VersionSet.node_version w) (VersionSet.compact_pointer_ (versions i))) = Ok b ∧ SaveTo user b = Ok v' ∧
    VersionBuilder.compact_pointer_ b = VersionSet.compact_pointer_ (versions i) ∧ VersionSet.storable user v' ∧
    version_ok user (contents stored) (cache_get (table_cache_ i) (fs_ i)) v' ∧
    (∀ u, u ∈ version_updates (contents stored) v' ↔ u ∈ us_imm ∨ u ∈ version_updates (contents stored) v) ∧
    ∀ l f, f ∈ level_files v' l → ∃ us, stored !! number f = Some (file_size f, us) ∧ table_there (fs_ i) (versions i) (number f) (file_size f, us).
Proof.
  intros [Hf Hr] Hw Huniq Hcount Hedit E1 E2 E3. destruct (readable_current _ _ _ _ _ _ Hr) as (node & Hlast & _ & _ & Hsame & Hda). assert (node = w) as -> by (unfold versions in Hw; congruence). clear Hlast.
  assert (w ∈ VersionSet.versions_ (versions i)) as Hin by (rewrite last_lookup in Hw; by eapply list_elem_of_lookup_2).
  pose proof (fo_storable _ _ _ _ _ _ Hf w Hin) as Hst. pose proof (VersionSet.st_levels user _ Hst) as Hlv. pose proof (proj1 (fo_pointers _ _ _ _ _ _ Hf)) as Hp.
  rewrite (same_version_updates (updates_of stored) (VersionSet.node_version w) v) by (by symmetry).
  pose proof (λ l f, live_there _ _ _ _ _ _ w l f Hf Hin) as Hthere.
  destruct Hedit as [[-> ->]|(f & L & [Hb Hs Hh Hok HL Hfree Hnum] & ->)].
  - assert (VersionSet.fresh_edit (VersionSet.node_version w) ed) as Hfr.
    { intros l. unfold added_numbers. cbn [map concat]. rewrite app_nil_r, E1. split; [constructor | by intros n ?%elem_of_nil]. }
    assert (edit_fits user ed) as Hfits by (split; rewrite ?E1, ?E2, ?E3; constructor).
    destruct (VersionSet.edit_step user _ ed _ Hlv Hp Hfits Hfr) as (b & Eb & Hbok & Eptr & Hs & Hsave).
    assert (∀ l, VersionBuilder.saved user b l = level_files (VersionSet.node_version w) l) as Hl.
    { intros l. apply (sorted_unique user); [by apply saved_ranges | by apply saved_sorted | apply (vl_sorted user _ Hlv)|]. intros f. rewrite Hs. unfold VersionSet.after_edit. rewrite E1, E2. cbn. setoid_rewrite elem_of_nil. tauto. }
    pose proof (SaveTo_spec user b Hbok) as Esv. assert (forallb (λ level, VersionBuilder.ordered user level (VersionBuilder.saved user b level)) (seq 0 7) = true) as Eo.
    { apply forallb_forall. intros l _. rewrite Hl. by apply vl_ordered. }
    rewrite Eo in Esv. destruct (Hsave _ Esv) as [Hv' El]. set (v' := new_version _) in *. assert (files_ v' = files_ (VersionSet.node_version w)) as Efiles by (apply (same_levels user); [done | done | intros l; by rewrite El]).
    assert (same_files (VersionSet.node_version w) v') as Hsame' by (unfold same_files; by rewrite Efiles).
    exists b, v'. split; [done|]. split; [done|]. split; [by rewrite Eptr, E3|]. assert (∀ l, level_files v' l = level_files (VersionSet.node_version w) l) as Elev by (intros l; by rewrite El).
    split; [split; [done | intros l f; rewrite Elev; apply Hst | intros l; rewrite Elev; apply Hst]|].
    split; [apply (version_ok_same user (updates_of stored) _ _ _ Hsame'), Hda|]. split; [|intros l f; rewrite Elev; apply Hthere].
    intros u. rewrite (same_version_updates (updates_of stored) (VersionSet.node_version w) v') by done. rewrite elem_of_nil. tauto.
  - destruct Hs as (us & Hperm & Hus & Hthere0).
    assert (contents stored f = us) as Ec by (unfold updates_of; by rewrite Hus).
    assert (∀ l g, g ∈ level_files (VersionSet.node_version w) l → ∃ h, h ∈ level_files v l ∧ same_file h g) as Hback.
    { intros l g [k Hk]%list_elem_of_lookup. destruct (same_files_lookup v (VersionSet.node_version w) l k g Hsame Hk) as (h & Hh' & Hhg). exists h. split; [by eapply list_elem_of_lookup_2 | done]. }
    assert (∀ l, blen (level_files (VersionSet.node_version w) l) + 1 < 2 ^ 31) as Hcount' by (intros l; specialize (Hcount l); unfold blen in *; by rewrite <- (Forall2_length _ _ _ (same_files_level _ _ l Hsame))).
    assert (TableReads user (contents stored) (cache_get (table_cache_ i) (fs_ i)) f) as Hreads by (by apply (stored_reads _ _ _ _ _ _ f us Hf)).
    assert ((0 < L)%nat → ∀ l g, (l ≤ L)%nat → g ∈ level_files (VersionSet.node_version w) l → touches user (Some (ExtractUserKey (smallest f))) (Some (ExtractUserKey (largest f))) g = false) as Hfree'.
    { intros H0 l g Hl Hg. destruct (Hback l g Hg) as (h & Hhin & (_ & _ & E5 & E6)). specialize (Hfree H0 l h Hl Hhin). unfold touches in *. by rewrite <- E5, <- E6. }
    assert (∀ l g, g ∈ level_files (VersionSet.node_version w) l → number g < number f) as Hnum' by (intros l g Hg; destruct (Hback l g Hg) as (h & Hhin & (<- & _)); by apply (Hnum l)).
    assert (∀ l g, g ∈ level_files (VersionSet.node_version w) l → contents stored g = contents stored g ∧ TableReads user (contents stored) (cache_get (table_cache_ i) (fs_ i)) g) as Hold by (intros l g Hg; split; [done | by apply (live_reads _ _ _ _ _ _ w l g Hf)]).
    assert (newer user (contents stored f) (version_updates (contents stored) (VersionSet.node_version w))) as Hnewer.
    { rewrite Ec. intros u x Hu Hx. apply (da_newer _ _ _ _ _ _ Hda); [|done]. apply elem_of_app. right. by rewrite <- Hperm. }
    assert (seqs_unique user (contents stored f)) as Huniq' by (rewrite Ec; apply (seqs_unique_sub user us_imm); [intros u; by rewrite Hperm | done]).
    pose proof (da_version _ _ _ _ _ _ Hda) as Hvok.
    destruct (flush_edit user (contents stored) (VersionSet.node_version w) Hst f L HL Hh Hfree' Hnum' ed (new_file (number f) (file_size f) (smallest f) (largest f)) (VersionSet.compact_pointer_ (versions i)))
      as (b & v' & Eb & Ev & Eptr & Hlv' & Hfiles); try done.
    exists b, v'. split; [done|]. split; [done|]. split; [done|].
    split; [by apply (flush_storable user (VersionSet.node_version w) Hst f L HL Hok Hfree' Hnum' v' Hlv' Hfiles)|].
    split; [by apply (flush_version_ok user (contents stored) (contents stored) _ _ (VersionSet.node_version w) Hvok Hst Hcount' f L)|].
    split.
    + intros u. rewrite (flush_members user (contents stored) (contents stored) _ _ (VersionSet.node_version w) Hvok f L HL Hfree' Hold v' Hlv' Hfiles). by rewrite Ec, Hperm.
    + intros l g [Hg|[_ ->]]%Hfiles; [by apply (Hthere l)|]. by exists us.
Qed.

Lemma AppendVersion_nodes w (s s3 : vset) : VersionSet.AppendVersion w s = Ok s3 → ∃ l, s3 = VersionSet.set_versions (l ++ [VersionSet.mkNode 1 w]) s ∧
  ∀ node, node ∈ l → ∃ node0, node0 ∈ VersionSet.versions_ s ∧ VersionSet.node_version node0 = VersionSet.node_version node.
Proof using.
  clear. unfold VersionSet.AppendVersion. destruct (VersionSet.versions_ s) as [|n0 l0] eqn:Ev.
  { cbn [mbind outcome_bind]. intros [= <-]. exists []. rewrite Ev. split; [done|]. by intros node ?%elem_of_nil. }
  rewrite <- Ev. set (p := pred _). unfold VersionSet.Unref. destruct (VersionSet.versions_ s !! p) as [n|] eqn:Ep; [|done]. destruct (negb _); [done|].
  destruct (_ =? 0); cbn [mbind outcome_bind]; intros [= <-]; cbn [VersionSet.versions_ VersionSet.set_versions]; (eexists; split; [reflexivity|]).
  - intros node Hin. exists node. split; [|done]. rewrite <- (take_drop p (VersionSet.versions_ s)). apply elem_of_app in Hin as [Hin|Hin]; apply elem_of_app; [by left | right].
    apply list_elem_of_lookup in Hin as [k Hk]. rewrite lookup_drop in Hk. apply list_elem_of_lookup. exists (S k). by rewrite lookup_drop, Nat.add_succ_r.
  - intros node [k Hk]%list_elem_of_lookup. destruct (decide (k = p)) as [->|Hne].
    + rewrite list_lookup_insert_eq in Hk by (by eapply lookup_lt_Some). injection Hk as <-. exists n. split; [by eapply list_elem_of_lookup_2 | done].
    + rewrite list_lookup_insert_ne in Hk by done. exists node. split; [by eapply list_elem_of_lookup_2 | done].
Qed.
Lemma AppendVersion_returns w (s : vset) node : last (VersionSet.versions_ s) = Some node → 1 ≤ VersionSet.refs_ node → ∃ s3, VersionSet.AppendVersion w s = Ok s3.
Proof using.
  clear. intros Hl Hr. unfold VersionSet.AppendVersion. rewrite last_lookup in Hl. destruct (VersionSet.versions_ s) as [|n0 l0] eqn:Ev; [done|]. rewrite <- Ev in *. unfold VersionSet.Unref. rewrite Hl.
  destruct (Z.leb_spec 1 (VersionSet.refs_ node)); [|lia]. cbn [negb]. destruct (_ =? 0); cbn [mbind outcome_bind]; by eexists.
Qed.

Lemma files_ok_append s c pending logfile e stored w s3 : files_ok s c pending logfile e stored → VersionSet.AppendVersion w s = Ok s3 → VersionSet.storable user w →
  (∀ l f, f ∈ level_files w l → ∃ us, stored !! number f = Some (file_size f, us) ∧ table_there e s (number f) (file_size f, us)) → is_u64 logfile →
  files_ok (VersionSet.set_log_numbers logfile 0 s3) c pending logfile e stored.
Proof.
  intros [H1 H2 H3 H4 H5 H6 H7 H8 H9] (l & -> & Hl)%AppendVersion_nodes Hw Hthere Hlog.
  assert (∀ node, node ∈ l ++ [VersionSet.mkNode 1 w] → node = VersionSet.mkNode 1 w ∨ ∃ node0, node0 ∈ VersionSet.versions_ s ∧ VersionSet.node_version node0 = VersionSet.node_version node) as Hnodes.
  { intros node [Hin|Hin%list_elem_of_singleton]%elem_of_app; [right; by apply Hl | by left]. }
  split; cbn; try done.
  - intros n p Hst [Hin|(node & level & f & Hnode & Hlev & Hfile & En)]; [by apply (H1 n p Hst); left|]. destruct (Hnodes node Hnode) as [->|(node0 & Hin & E0)].
    + cbn in Hfile. destruct (Hthere level f Hfile) as (us & Hst' & Ht). subst n. rewrite Hst in Hst'. by injection Hst' as ->.
    + apply (H1 n p Hst). right. exists node0, level, f. by rewrite E0.
  - intros node level f Hnode Hfile. destruct (Hnodes node Hnode) as [->|(node0 & Hin & E0)]; [cbn in Hfile; destruct (Hthere level f Hfile) as (us & ? & _); by exists us | rewrite <- E0 in Hfile; by apply (H2 node0 level)].
  - intros node Hnode. destruct (Hnodes node Hnode) as [->|(node0 & Hin & <-)]; [done | by apply H3].
  - destruct H7. split; cbn; try done. 
  - lia.
Qed.

(** The memtable is gone, and every lookup finds what it found. *)
Lemma append_healthy i stored us_mem w s3 idx d : healthy i stored us_mem us_imm v → VersionSet.AppendVersion w (versions i) = Ok s3 → VersionSet.storable user w →
  version_ok user (contents stored) (cache_get (table_cache_ i) (fs_ i)) w → (∀ u, u ∈ version_updates (contents stored) w ↔ u ∈ us_imm ∨ u ∈ version_updates (contents stored) v) →
  (∀ l f, f ∈ level_files w l → ∃ us, stored !! number f = Some (file_size f, us) ∧ table_there (fs_ i) (versions i) (number f) (file_size f, us)) →
  imm_ (db_ i) = Some idx → is_u64 (logfile_number_ i) →
  let i' := set_versions (VersionSet.set_log_numbers (logfile_number_ i) 0 s3) i in
  unref_memtable idx (db_ i') = Ok d →
  healthy (set_db (DbFlush.set_imm None d) i') stored us_mem [] w ∧
  ∀ k s, visible user k s (us_mem ++ version_updates (contents stored) w) = visible user k s (us_mem ++ us_imm ++ version_updates (contents stored) v).
Proof.
  intros [Hf [[D1 D2 D3 D4 D5 D6] Hm Hi Hne Hcur]] Eapp Hst Hw Hmem Hthere Eimm Hlog i' Ed. pose proof (files_ok_append _ _ _ _ _ _ w s3 Hf Eapp Hst Hthere Hlog) as Hf'.
  rewrite Eimm in Hi. destruct Hi as (Hneq & mi & [Hmi Hri] & Hhi).
  assert (d = set_memtables (alter (λ o, o ≫= unreffed) idx (memtables (db_ i'))) (db_ i')) as -> by (rewrite (unref_memtable_ok idx (db_ i') mi Hmi Hri) in Ed; by injection Ed).
  apply newer_app_l in D6 as [D6a D6b]. assert (newer user us_mem (version_updates (contents stored) w)) as Hnew.
  { intros x y Hx Hy. apply Hmem in Hy as [Hy|Hy]; [by apply D5 | by apply D6a]. }
  split.
  - split; [exact Hf'|]. split.
    + apply Forall_app in D1 as [D1 _]. split; rewrite ?app_nil_r; try done; [by intros x y ?%elem_of_nil | by intros x y _ ?%elem_of_nil].
    + destruct Hm as (m & [Hm Hr] & Hh). exists m. split; [|done]. split; [|done]. cbn. by rewrite list_lookup_alter_ne.
    + done.
    + apply AppendVersion_nodes in Eapp as (l & -> & _). cbn. by destruct l.
    + apply AppendVersion_nodes in Eapp as (l & -> & _). exists (VersionSet.mkNode 1 w). unfold current_position. cbn. rewrite length_app, Nat.add_comm. cbn. rewrite list_lookup_middle by done. split; [done|]. split; [done | reflexivity].
  - intros k s. symmetry. refine (visible_ext user k s _ _ _ _).
    + apply (seqs_unique_newer user); [by apply newer_app_r | intros x y Hx Hy _; by apply D2|]. apply (seqs_unique_newer user); [done | intros x y Hx Hy _; by apply D3 | apply (vo_unique _ _ _ _ D4)].
    + intros u _. rewrite !elem_of_app, Hmem. tauto.
Qed.

Lemma obsolete_healthy i stored us_mem us_imm' w : healthy i stored us_mem us_imm' w → descriptor_ok linked dbname (versions i) (fs_ i) →
  healthy (DeleteObsoleteFiles env dbname i) stored us_mem us_imm' w ∧ descriptor_ok linked dbname (versions (DeleteObsoleteFiles env dbname i)) (fs_ (DeleteObsoleteFiles env dbname i)) ∧ db_ (DeleteObsoleteFiles env dbname i) = db_ i.
Proof.
  intros Hh Hd. destruct (DeleteObsoleteFiles_keeps env NewRandomAccessFile linked data dbname i) as (c & e & -> & Hkeep & _ & Hsub). pose proof (he_files _ _ _ _ _ Hh) as Hf.
  split; [|split; [|done]].
  - apply (healthy_step i _ stored); [done | | done | done | done | done | by destruct Hh as [_ [_ _ _ _ ?]]]. pose proof (λ m p, stored_u64 _ _ _ _ _ _ m p Hf) as Hu.
    destruct Hf as [H1 H2 H3 H4 H5 H6 H7 H8 H9]. split; try done; cbn.
    + intros n p Hst Huse. destruct (H1 n p Hst Huse) as (x & Hl & Hs & Ht & Ha). destruct (Hkeep (name_of n)) with (w := x) as [Hl' Hdata]; [|done|].
      * intros base k t. apply table_kept; [by apply (Hu n p) | by left |]. destruct Huse as [?|?]; [by left | by right].
      * exists x. rewrite Hdata. done.
    + by apply (tables_ok_sub _ _ _ _ H5).
    + intros n Hn Hle. eapply lookup_weaken_None; [by apply H6 | done].
  - intros wd Hwd. destruct (Hd wd Hwd) as [Hw Hl]. split; [done|]. destruct (Hkeep (VersionSet.manifest_name dbname (VersionSet.manifest_file_number_ (versions i)))) with (w := Writer.dest_ wd) as [Hl' _]; [|done|done].
    intros base n t. apply manifest_kept; [apply (VersionSet.ct_manifest _ (fo_counters _ _ _ _ _ _ Hf)) | cbn; lia].
Qed.

(** The references to the base version. *)
Lemma ref_current i stored us_mem us_imm' : healthy i stored us_mem us_imm' v → ∃ d, ref_version (current_position (db_ i)) (db_ i) = Ok d ∧ healthy (set_db d i) stored us_mem us_imm' v ∧
  versions (set_db d i) = VersionSet.set_versions (VersionSet.versions_ (versions (set_db d i))) (versions i) ∧ imm_ d = imm_ (db_ i) ∧ memtables d = memtables (db_ i) ∧ current_position d = current_position (db_ i) ∧
  ∀ node, last (VersionSet.versions_ (versions (set_db d i))) = Some node → 2 ≤ VersionSet.refs_ node.
Proof.
  intros Hh. pose proof Hh as [Hf [_ _ _ _ Hcur]]. pose proof Hcur as (node & Hnode & Href & Hsame).
  rewrite (ref_version_ok (current_position (db_ i)) (db_ i) v Hcur). eexists. split; [reflexivity|].
  set (l := alter add_ref (current_position (db_ i)) (VersionSet.versions_ (set_ (db_ i)))).
  assert (length l = length (VersionSet.versions_ (set_ (db_ i)))) as Elen by apply length_alter.
  assert (∀ node', node' ∈ l → ∃ node0, node0 ∈ VersionSet.versions_ (versions i) ∧ VersionSet.node_version node0 = VersionSet.node_version node') as Hnodes.
  { intros node' [k Hk]%list_elem_of_lookup. subst l. destruct (decide (current_position (db_ i) = k)) as [<-|Hne].
    - rewrite list_lookup_alter_eq, Hnode in Hk. injection Hk as <-. exists node. split; [by eapply list_elem_of_lookup_2 | done].
    - rewrite list_lookup_alter_ne in Hk by done. exists node'. split; [by eapply list_elem_of_lookup_2 | done]. }
  assert (l !! current_position (db_ i) = Some (add_ref node)) as Hat by (subst l; by rewrite list_lookup_alter_eq, Hnode).
  split; [|split; [done|split; [done|split; [done|split]]]].
  - apply (healthy_step i _ stored); [done | | done | done | done | done |].
    + cbn. apply (files_ok_versions _ _ _ _ _ _ Hf l Hnodes).
    + exists (add_ref node). unfold current_position. cbn. fold l. rewrite Elen. fold (current_position (db_ i)). split; [done|]. split; [cbn; lia | done].
  - unfold current_position. cbn. fold l. by rewrite Elen.
  - intros node' Hl. cbn in Hl. fold l in Hl. rewrite last_lookup, Elen in Hl. fold (current_position (db_ i)) in Hl. rewrite Hat in Hl. injection Hl as <-. cbn. lia.
Qed.
Lemma unref_current i stored us_mem us_imm' : healthy i stored us_mem us_imm' v → (∀ node, last (VersionSet.versions_ (versions i)) = Some node → 2 ≤ VersionSet.refs_ node) →
  ∃ d, unref_version (current_position (db_ i)) (db_ i) = Ok d ∧ healthy (set_db d i) stored us_mem us_imm' v ∧ imm_ d = imm_ (db_ i) ∧ memtables d = memtables (db_ i) ∧ shutting_down_ d = shutting_down_ (db_ i) ∧
    set_ d = VersionSet.set_versions (VersionSet.versions_ (set_ d)) (set_ (db_ i)).
Proof.
  intros Hh Hrefs. pose proof Hh as [Hf [_ _ _ _ Hcur]]. pose proof Hcur as (node & Hnode & Href & Hsame).
  assert (2 ≤ VersionSet.refs_ node) as Href2 by (apply Hrefs; rewrite last_lookup; exact Hnode).
  unfold unref_version, VersionSet.Unref. rewrite Hnode. destruct (Z.leb_spec 1 (VersionSet.refs_ node)); [|lia]. cbn [negb]. destruct (Z.eqb_spec (VersionSet.refs_ node - 1) 0); [lia|]. cbn [mbind outcome_bind].
  eexists. split; [reflexivity|]. split; [|done]. set (l := <[_ := _]> _). assert (length l = length (VersionSet.versions_ (set_ (db_ i)))) as Elen by apply length_insert.
  apply (healthy_step i _ stored); [done | | done | done | done | done |].
  - cbn. apply (files_ok_versions _ _ _ _ _ _ Hf l). intros node' [k Hk]%list_elem_of_lookup. subst l. destruct (decide (current_position (db_ i) = k)) as [<-|Hne].
    + rewrite list_lookup_insert_eq in Hk by (by eapply lookup_lt_Some). injection Hk as <-. exists node. split; [by eapply list_elem_of_lookup_2 | done].
    + rewrite list_lookup_insert_ne in Hk by done. exists node'. split; [by eapply list_elem_of_lookup_2 | done].
  - exists (VersionSet.mkNode (VersionSet.refs_ node - 1) (VersionSet.node_version node)). unfold current_position. cbn. fold l. rewrite Elen. fold (current_position (db_ i)).
    split; [subst l; rewrite list_lookup_insert_eq by (by eapply lookup_lt_Some); done|]. split; [cbn; lia | done].
Qed.

Lemma finalized_storable w : VersionSet.storable user w → VersionSet.storable user (VersionSet.Finalize w).
Proof using. clear. intros [[H1 H2 H3 H4] H5 H6]. by split; [split|..]. Qed.
Lemma files_ok_closed s c pending logfile e stored : files_ok s c pending logfile e stored → files_ok (VersionSet.set_descriptor (VersionSet.manifest_file_number_ s) None s) c pending logfile e stored.
Proof.
  intros [H1 H2 H3 H4 H5 H6 H7 H8 H9]. split; try done; [|by destruct H7]. intros n p Hst Huse. destruct (H1 n p Hst Huse) as (w & Hl & Hs & Ht & _). by exists w.
Qed.

Context (Hcount : ∀ l, blen (level_files v l) + 1 < 2 ^ 31).
Context (during : vset → vset) (meanwhile : impl → impl) (Hrest : ∀ s i, meanwhile (set_versions s i) = set_versions s (meanwhile i))
  (Hduring : ∀ i stored us_mem, healthy i stored us_mem us_imm v → ∃ us_mem2, quiet stored us_imm v i (set_versions (during (versions i)) (meanwhile i)) us_mem us_mem2).
#[local] Notation visible_same stored us_mem w := (∀ k s, visible user k s (us_mem ++ version_updates (contents stored) w) = visible user k s (us_mem ++ us_imm ++ version_updates (contents stored) v)).

(** The state between the write to the descriptor and the rest of [LogAndApply]. *)
Lemma during_step i stored us_mem d e : healthy i stored us_mem us_imm v →
  let state := VersionSet.set_descriptor (VersionSet.manifest_file_number_ (versions i)) d (versions i) in
  spares linked data dbname (versions i) state (fs_ i) e →
  ∃ us_mem2, let i7 := set_versions (during state) (meanwhile (set_files (table_cache_ i) e i)) in
    quiet stored us_imm v (set_versions state (set_files (table_cache_ i) e i)) i7 us_mem us_mem2 ∧
    ∀ n p, is_u64 n → stored !! n = Some p → table_there (fs_ i) (versions i) n p → table_there (fs_ i7) (versions i7) n p.
Proof.
  intros Hh state Hs. set (im := set_versions state (set_files (table_cache_ i) e i)). pose proof (fo_counters _ _ _ _ _ _ (he_files _ _ _ _ _ Hh)) as Hcnt.
  assert (healthy im stored us_mem us_imm v) as Hm.
  { apply (healthy_step i _ stored); [done | | done | done | done | done | by destruct Hh as [_ [_ _ _ _ ?]]]. by apply (files_ok_described _ _ _ _ _ _ d e (he_files _ _ _ _ _ Hh)). }
  destruct (Hduring im stored us_mem Hm) as (us_mem2 & Hq). exists us_mem2. cbv zeta. subst im. rewrite Hrest in Hq. split; [exact Hq|].
  intros n p Hn Hst (x & Hl & Hsz & Ht & Ha). apply (qu_tables _ _ _ _ _ _ _ Hq n p Hst).
  pose proof (proj1 (VersionSet.ct_manifest _ Hcnt)) as Hm64.
  destruct (Hs (name_of n) x) as (Hl' & Hd & Ha'); [by apply table_not_manifest | by apply temp_not_current | by apply table_not_temp | done | done|]. exists x. cbn. rewrite Hd. done.
Qed.

Lemma install_step i stored us_mem idx edit : healthy i stored us_mem us_imm v → descriptor_ok linked dbname (versions i) (fs_ i) → imm_ (db_ i) = Some idx →
  (us_imm = [] ∧ edit = VersionEdit.new ∨ ∃ f L, table_written i stored us_imm v f L ∧ edit = VersionEdit.AddFile (Z.of_nat L) (number f) (file_size f) (smallest f) (largest f) VersionEdit.new) →
  ∃ st ed vs e us_mem2, VersionSet.LogAndApply user user_name env addr dbname during (flush_log_edit (logfile_number_ i) edit) (versions i) (fs_ i) = Ok (st, ed, vs, e) ∧ us_mem `prefix_of` us_mem2 ∧
    let i6 := set_versions vs (meanwhile (set_files (table_cache_ i) e i)) in
    imm_ (db_ i6) = Some idx ∧ descriptor_ok linked dbname (versions i6) (fs_ i6) ∧
    if ok st then ∃ w d, unref_memtable idx (db_ i6) = Ok d ∧ healthy (set_db (DbFlush.set_imm None d) i6) stored us_mem2 [] w ∧ visible_same stored us_mem2 w
    else healthy i6 stored us_mem2 us_imm v.
Proof.
  intros Hh Hd Eimm Hedit. pose proof (he_files _ _ _ _ _ Hh) as Hf. pose proof (fo_counters _ _ _ _ _ _ Hf) as Hcnt. pose proof (fo_log _ _ _ _ _ _ Hf) as Hlog.
  assert (is_u64 (logfile_number_ i)) as Hlog64 by (pose proof (VersionSet.ct_log _ Hcnt); pose proof (VersionSet.ct_next _ Hcnt); unfold is_u64 in *; lia).
  set (ed := VersionEdit.SetLastSequence (VersionSet.last_sequence_ (versions i)) (VersionEdit.SetNextFile (VersionSet.next_file_number_ (versions i)) (flush_log_edit (logfile_number_ i) edit))).
  assert (VersionEdit.edit_ok ed ∧ VersionEdit.compact_pointers_ edit = []) as [Hedok Hptr].
  { destruct (flush_edit_ok _ _ Hcnt Hlog64) as [K1 K2]. subst ed. destruct Hedit as [[_ ->]|(f & L & [_ _ _ Hok HL _ _] & ->)]; split; try done. by apply K2. }
  destruct (readable_current _ _ _ _ _ _ (he_readable _ _ _ _ _ Hh)) as (w0 & Hlast & _ & _ & _ & Hda0).
  assert (seqs_unique user us_imm) as Huniq by (intros x y Hx Hy _; by apply (da_imm _ _ _ _ _ _ Hda0)).
  destruct (edit_installs i stored us_mem w0 edit ed Hh Hlast Huniq Hcount Hedit eq_refl eq_refl eq_refl) as (b & v' & Eb & Ev & Eptr & Hst & Hvok & Hmem & Hthere).
  assert (VersionSet.current_ (versions i) = Ok (VersionSet.node_version w0)) as Hcur by (unfold VersionSet.current_, versions; by rewrite Hlast).
  assert (VersionSet.storable user (VersionSet.node_version w0)) as Hst0 by (apply (fo_storable _ _ _ _ _ _ Hf); rewrite last_lookup in Hlast; by eapply list_elem_of_lookup_2).
  destruct (LogAndApply_runs user user_name Hname addr Haddr env NewRandomAccessFile linked data dbname during (flush_log_edit (logfile_number_ i) edit) ed (versions i) (fs_ i) (VersionSet.node_version w0) b v' Hcur Hst0
    (fo_pointers _ _ _ _ _ _ Hf) Hcnt Hd (complete_flush_edit _ _ _ Hptr Hlog) Hedok Eb Ev Eptr) as (d & e & st & ed' & vs & Erun & Hs & Hres).
  { intros d e Hs. destruct (during_step i stored us_mem d e Hh Hs) as (us2 & Hq & _). destruct (readable_current _ _ _ _ _ _ (he_readable _ _ _ _ _ (qu_healthy _ _ _ _ _ _ _ Hq))) as (node & Hl & _ & Hr & _ & _).
    by apply (AppendVersion_returns _ _ node). }
  destruct (during_step i stored us_mem d e Hh Hs) as (us2 & Hq & Htab). exists st, ed', vs, e, us2. split; [exact Erun|]. split; [apply (qu_grows _ _ _ _ _ _ _ Hq)|]. cbv zeta.
  set (state := VersionSet.set_descriptor _ d (versions i)) in *. set (i7 := set_versions (during state) (meanwhile (set_files (table_cache_ i) e i))) in *.
  pose proof (qu_imm _ _ _ _ _ _ _ Hq) as Eimm7. change (imm_ (db_ (set_versions state (set_files (table_cache_ i) e i)))) with (imm_ (db_ i)) in Eimm7. rewrite Eimm in Eimm7.
  pose proof (qu_healthy _ _ _ _ _ _ _ Hq) as Hh7. pose proof (quiet_descriptor _ _ _ _ _ _ _ Hq) as Hd7. change (versions (set_versions state (set_files (table_cache_ i) e i))) with state in Hd7. change (fs_ (set_versions state (set_files (table_cache_ i) e i))) with e in Hd7.
  split; [exact Eimm7|]. destruct (ok st).
  - destruct Hres as (Hds & s3 & E3 & ->). change (VersionEdit.log_number_ ed) with (logfile_number_ i). change (VersionEdit.prev_log_number_ ed) with 0.
    assert (logfile_number_ i7 = logfile_number_ i) as Elf by apply (qu_logfile _ _ _ _ _ _ _ Hq).
    assert (∀ l f, f ∈ level_files (VersionSet.Finalize v') l → ∃ us, stored !! number f = Some (file_size f, us) ∧ table_there (fs_ i7) (versions i7) (number f) (file_size f, us)) as Hthere7.
    { intros l f Hfile. destruct (Hthere l f Hfile) as (us & Hstd & Ht). exists us. split; [done|]. destruct (stored_u64 _ _ _ _ _ _ _ _ Hf Hstd) as [Hu _]. by apply Htab. }
    assert (∃ mi, memtables (db_ i7) !! idx = Some (Some mi) ∧ 1 ≤ refs_ mi) as (mi & Hmi & Hri).
    { destruct Hh7 as [_ [_ _ Hi _ _]]. rewrite Eimm7 in Hi. destruct Hi as (_ & mi & [? ?] & _). by exists mi. }
    split. { apply AppendVersion_nodes in E3 as (l & -> & _). exact (Hd7 Hds). }
    eexists (VersionSet.Finalize v'), _. split; [exact (unref_memtable_ok idx (db_ (set_versions (VersionSet.set_log_numbers (logfile_number_ i) 0 s3) (meanwhile (set_files (table_cache_ i) e i)))) mi Hmi Hri)|]. rewrite <- Elf.
    apply (append_healthy i7 stored us2 (VersionSet.Finalize v') s3 idx); try done; [by apply finalized_storable | | by rewrite Elf | exact (unref_memtable_ok idx (db_ (set_versions (VersionSet.set_log_numbers (logfile_number_ i7) 0 s3) i7)) mi Hmi Hri)].
    apply (version_ok_same user (updates_of stored) _ v'); [change (same_files v' v'); reflexivity|]. apply (version_ok_moved user (contents stored) _ _ _ v' Hvok). intros l f Hfile. split; [done|].
    destruct (Hthere7 l f Hfile) as (us & Hstd & Ht). by apply (stored_reads _ _ _ _ _ _ f us (he_files _ _ _ _ _ Hh7)).
  - destruct Hres as [[Hds ->]| ->]; [split; [exact (Hd7 Hds) | exact Hh7]|]. split; [by intros wd|].
    apply (healthy_step i7 _ stored); [exact Hh7 | apply (files_ok_closed _ _ _ _ _ _ (he_files _ _ _ _ _ Hh7)) | done | done | done | done | by destruct Hh7 as [_ [_ _ _ _ ?]]].
Qed.

(** ** Properties *)

(** Compacting the memtable changes no lookup.  Whatever writes, syncs, renames and
    deletions fail, and whatever the other threads do while the mutex is released (writing
    to the memtable, reading, dropping versions that are no longer current),
    [CompactMemTable] returns and the database stays well formed: every table of a live
    version is on disk with the updates that were written to it, the table cache agrees,
    and the descriptor is open or closed for good.  Either the memtable is gone, its
    updates are in a table of the new current version, and every key at every snapshot is
    answered as before; or it is still there, next to the old version, and a background
    error is recorded. *)
Theorem memtable_flushed (i : impl) (stored : stored_tables) (us_mem : list upd) (idx : nat)
    (Hi : healthy i stored us_mem us_imm v) (Hdescriptor : descriptor_ok linked dbname (versions i) (fs_ i))
    (Himm : imm_ (db_ i) = Some idx) (Hnext : VersionSet.next_file_number_ (versions i) + 1 < 2 ^ 64) :
  ∃ i' stored' us_mem',
    CompactMemTable user user_name addr Snappy_Compress Snappy_GetUncompressedLength Snappy_Uncompress fresh dbname wo o env NewRandomAccessFile fuel others during meanwhile new_id i = Ok i' ∧
    stored ⊆ stored' ∧ us_mem `prefix_of` us_mem' ∧ descriptor_ok linked dbname (versions i') (fs_ i') ∧
    ((imm_ (db_ i') = None ∧ ∃ v', healthy i' stored' us_mem' [] v' ∧
        ∀ k s, visible user k s (us_mem' ++ version_updates (contents stored') v') = visible user k s (us_mem' ++ us_imm ++ version_updates (contents stored') v)) ∨
     (imm_ (db_ i') = Some idx ∧ ok (bg_error_ (db_ i')) = false ∧ healthy i' stored' us_mem' us_imm v)).
Proof.
  unfold CompactMemTable. rewrite Himm. pose proof (he_readable _ _ _ _ _ Hi) as Hr. pose proof (proj1 (Forall_app _ _ _) (da_updates _ _ _ _ _ _ (rd_data _ _ _ _ _ _ _ Hr))) as [_ Hok].
  pose proof (rd_imm _ _ _ _ _ _ _ Hr) as Himm'. rewrite Himm in Himm'. destruct Himm' as (_ & m & [Hm _] & Hholds).
  destruct (ref_current i stored us_mem us_imm Hi) as (d1 & -> & Hh1 & Eset & Eimm1 & Emem1 & Epos & Hrefs1). cbn [mbind outcome_bind].
  set (i1 := set_db d1 i) in *. change d1 with (db_ i1) in Epos, Eimm1, Emem1. rewrite <- Epos.
  destruct (WriteLevel0Table_spec i1 stored us_mem idx m Hh1) as (st & edit & i2 & us2 & stored2 & -> & Hh2 & Hgrow & Hd2 & Hsub & Eimm2 & _ & _ & Hrefs2 & Hedit).
  { intros wd Hwd. rewrite Eset in Hwd |- *. by apply Hdescriptor. }
  { congruence. }
  { unfold memtable_at. by rewrite Emem1, Hm. }
  { done. }
  { done. }
  { rewrite Eset. exact Hnext. }
  { done. }
  cbn [mbind outcome_bind if_some]. destruct (unref_current i2 stored2 us2 us_imm Hh2 Hrefs2) as (d3 & E3 & Hh3 & Eimm3 & _ & _ & Eset3). change (DbRead.unref_version (current_position (db_ i2)) (db_ i2)) with (unref_version (current_position (db_ i2)) (db_ i2)).
  rewrite E3. cbn [mbind outcome_bind]. set (i3 := set_db d3 i2) in *. change d3 with (db_ i3) in Eimm3, Eset3. rewrite Eimm2 in Eimm3.
  assert (descriptor_ok linked dbname (versions i3) (fs_ i3)) as Hd3 by (intros wd Hwd; change (versions i3) with (set_ (db_ i3)) in Hwd |- *; rewrite Eset3 in Hwd |- *; by apply Hd2).
  set (st' := if ok st && shutting_down_ (db_ i3) then _ else st). destruct (ok st') eqn:Est'.
  - assert (ok st = true) as Est by (destruct (ok st) eqn:Eo; [done|]; subst st'; cbn [andb] in Est'; congruence).
    destruct (install_step i3 stored2 us2 idx edit Hh3 Hd3 Eimm3) as (st2 & ed & vs & e & us3 & Elog & Hgrow3 & Eimm6 & Hd6 & Hres).
    { destruct (Hedit Est) as [?|(f & L & [T1 (us & U1 & U2 & U3) T3 T4 T5 T6 T7] & ->)]; [by left | right]. exists f, L. split; [|done]. split; try done. exists us. split; [done|]. split; [done|].
      change (versions i3) with (set_ (db_ i3)). rewrite Eset3. exact U3. }
    unfold flush_log_edit in Elog. rewrite Elog. cbn [mbind outcome_bind]. set (i6 := set_versions vs _) in *. assert (us_mem `prefix_of` us3) as Hg by (by etrans).
    destruct (ok st2) eqn:Est2; rewrite ?Est2.
    + destruct Hres as (w & d & Ed & Hh6 & Hvis). rewrite Ed. cbn [mbind outcome_bind].
      destruct (obsolete_healthy (set_db (DbFlush.set_imm None d) i6) stored2 us3 [] w Hh6) as (Hh7 & Hd7 & Edb).
      { assert (set_ d = set_ (db_ i6)) as Esd by (revert Ed; unfold unref_memtable; destruct (memtable_at _ _) as [mi| | |]; try done; cbn [mbind outcome_bind]; destruct (MemTable.Unref mi); try done; cbn [mbind outcome_bind]; by intros [= <-]).
        intros wd Hwd. change (versions (set_db (DbFlush.set_imm None d) i6)) with (set_ d) in Hwd |- *. rewrite Esd in Hwd |- *. by apply Hd6. }
      eexists _, stored2, us3. split; [reflexivity|]. split; [done|]. split; [done|]. split; [done|]. left. split; [by rewrite Edb|]. by exists w.
    + eexists _, stored2, us3. split; [reflexivity|]. split; [done|]. split; [done|]. unfold RecordBackgroundError.
      destruct (ok (bg_error_ (db_ i6))) eqn:Ebg; (split; [exact Hd6|]); right; (split; [exact Eimm6|]); (split; [done|]).
      * apply (healthy_step i6 _ stored2); [done | apply (he_files _ _ _ _ _ Hres) | done | done | done | done | apply (rd_current _ _ _ _ _ _ _ (he_readable _ _ _ _ _ Hres))].
      * by destruct i6.
  - cbn [mbind outcome_bind]. rewrite Est'. eexists _, stored2, us2. split; [reflexivity|]. split; [done|]. split; [done|]. unfold RecordBackgroundError.
    destruct (ok (bg_error_ (db_ i3))) eqn:Ebg; (split; [exact Hd3|]); right; (split; [exact Eimm3|]); (split; [done|]).
    + apply (healthy_step i3 _ stored2); [done | apply (he_files _ _ _ _ _ Hh3) | done | done | done | done | apply (rd_current _ _ _ _ _ _ _ (he_readable _ _ _ _ _ Hh3))].
    + by destruct i3.
Qed.
End write.
End state.

(** *** An example *)

(** A database with two memtables and no table. *)
Definition flush_calls (us : list upd) : list (Z * Z * upd) := map (pair (1000, 8000)) us.
Definition flush_memtable (us : list upd) : outcome memtable := m ← MemTable.new 4096; m ← add_all BytewiseComparator MemTable.zeros m (flush_calls us); Ok (mkMemTable 1 (arena_ m) (table_ m)).
Definition flush_set : VersionSet.version_set nat := VersionSet.mkVersionSet 10 2 12 3 0 None (replicate 7 []) [VersionSet.mkNode 1 empty_version].
Definition flush_impl (m imm : memtable) : impl Fs.fs nat := mkImpl (mkDb [Some m; Some imm] 0 (Some 1%nat) flush_set Snapshot.new 0 false false status_ok false) ∅ 7 ∅ Fs.empty.
Definition flush_demo (m imm : memtable) : outcome (impl Fs.fs nat) :=
  CompactMemTable BytewiseComparator (str "leveldb.BytewiseComparator") (λ _, 0) (λ _, None) (λ _, None) (λ _, None) Table.demo_fresh (str "db") (builder_options BytewiseComparator demo_policy 4096 16 kSnappyCompression)
    (table_options BytewiseComparator demo_policy false) disk_ops disk_open 3 (λ p i, (p, i)) (λ s, s) (λ i, i) 1 (flush_impl m imm).

Lemma flush_memtable_ok us : Forall upd_ok us → NoDup (map u_seq us) → ∃ m, flush_memtable us = Ok m ∧ 1 ≤ refs_ m ∧ MemTable.holds BytewiseComparator m us.
Proof.
  intros Hok Hnd. assert (map snd (flush_calls us) = us) as Emap by (unfold flush_calls; rewrite map_map; apply map_id). destruct (new_holds BytewiseComparator 4096 eq_refl) as (m0 & E0 & H0).
  destruct (add_all_holds BytewiseComparator MemTable.zeros (flush_calls us)) with (m := m0) (ups := @nil upd) as (m & E1 & Hm); [| |done|done| |].
  - intros n Hn. unfold MemTable.zeros. rewrite blen_replicate. lia.
  - apply Forall_fmap. eapply Forall_impl; [exact Hok|]. by intros u Hu.
  - cbn [app]. by rewrite Emap.
  - cbn [app] in Hm. rewrite Emap in Hm. exists (mkMemTable 1 (arena_ m) (table_ m)). unfold flush_memtable. rewrite E0. cbn [mbind outcome_bind]. rewrite E1. split; [done|]. split; [cbn; lia | exact Hm].
Qed.

Lemma flush_data_ok tg : data_ok BytewiseComparator (updates_of ∅) tg demo_newest demo_older empty_version.
Proof.
  destruct demo_data_ok as [D1 D2 D3 _ D5 _]. split; try done; [|by intros u w _ Hw%elem_of_nil].
  split; try done.
  - intros l f Hf. rewrite empty_level in Hf. by apply elem_of_nil in Hf.
  - intros l _. rewrite empty_level. split; [by intros f ?%elem_of_nil | done | done].
  - intros l m _ u w Hu. apply elem_of_level_updates in Hu as (f & Hf & _). rewrite empty_level in Hf. by apply elem_of_nil in Hf.
  - intros u w Hu%elem_of_nil. done.
Qed.

#[local] Notation demo_healthy := (healthy (λ _, 0) (λ _, None) (λ _, None) Table.demo_fresh (str "db") BytewiseComparator demo_policy 3 false disk_open Fs.linked (λ e w, Fs.node_data w e) None (Table.mkReadOptions false true) 9).
Lemma flush_healthy m imm : 1 ≤ refs_ m → 1 ≤ refs_ imm → MemTable.holds BytewiseComparator m demo_newest → MemTable.holds BytewiseComparator imm demo_older →
  demo_healthy (flush_impl m imm) ∅ demo_newest demo_older empty_version.
Proof.
  intros Hm Hi Hhm Hhi. assert (∀ node, node ∈ VersionSet.versions_ flush_set → VersionSet.node_version node = empty_version) as Hnode by (by intros node ->%list_elem_of_singleton).
  split.
  - split.
    + intros n p Hp. by rewrite lookup_empty in Hp.
    + intros node level f Hin Hf. rewrite (Hnode node Hin), empty_level in Hf. by apply elem_of_nil in Hf.
    + intros node ->%Hnode. split; [apply empty_levels_ok | intros l f Hf; rewrite empty_level in Hf; by apply elem_of_nil in Hf | intros l; rewrite empty_level; constructor].
    + intros n p Hp. by rewrite lookup_empty in Hp.
    + intros n t es _ Ht. change ((∅ : gmap (list byte) Table.table) !! table_key n = Some t) in Ht. by rewrite lookup_empty in Ht.
    + intros n _ _. apply lookup_empty.
    + split; unfold is_u64; apply (bool_decide_unpack _); vm_compute; exact I.
    + split; [done|]. apply (bool_decide_unpack _); vm_compute; exact I.
    + cbn. lia.
  - split.
    + apply flush_data_ok.
    + exists m. split; [split; [done | done] | done].
    + split; [done|]. exists imm. split; [split; [done | done] | done].
    + done.
    + exists (VersionSet.mkNode 1 empty_version). split; [done|]. split; [done | reflexivity].
Qed.

Definition flush_check (r : outcome (impl Fs.fs nat)) : bool :=
  match r with
  | Ok i => bool_decide (imm_ (db_ i) = None) &&
      match VersionSet.current_ (versions i) with Ok v => bool_decide (map number (level_files v 2) = [10]) | _ => false end
  | _ => false
  end.
Definition flush_demo_run : outcome (impl Fs.fs nat) := m ← flush_memtable demo_newest; imm ← flush_memtable demo_older; flush_demo m imm.
Lemma flush_demo_checked : flush_check flush_demo_run = true.
Proof. vm_compute. reflexivity. Qed.

Lemma flush_name_small : blen (str "leveldb.BytewiseComparator") < 2 ^ 32.
Proof. vm_compute. reflexivity. Qed.

Lemma memtable_flushed_witness : ∃ i' stored' us_mem' v', flush_demo_run = Ok i' ∧ flush_check (Ok i') = true ∧ demo_healthy i' stored' us_mem' [] v' ∧
  ∀ k s, visible BytewiseComparator k s (us_mem' ++ version_updates (λ f, updates_of stored' (number f) (file_size f)) v') = visible BytewiseComparator k s (us_mem' ++ demo_older).
Proof.
  pose proof (proj1 (Forall_app upd_ok demo_newest demo_older) (da_updates _ _ _ _ _ _ demo_data_ok)) as [Hnew Hold].
  destruct (flush_memtable_ok demo_newest) as (m & Em & Hrm & Hm); [exact Hnew | apply (bool_decide_unpack _); vm_compute; exact I|].
  destruct (flush_memtable_ok demo_older) as (imm & Eimm & Hri & Hi); [exact Hold | apply (bool_decide_unpack _); vm_compute; exact I|].
  assert (∀ i stored us, demo_healthy i stored us demo_older empty_version → quiet (λ _, 0) (λ _, None) (λ _, None) Table.demo_fresh (str "db") BytewiseComparator demo_policy 3 false disk_open Fs.linked (λ e w, Fs.node_data w e) None (Table.mkReadOptions false true) 9
    stored demo_older empty_version i i us us) as Hquiet.
  { intros i stored us Hh. split; [exact Hh | intros n p _ Ht; exact Ht | reflexivity | reflexivity | reflexivity | reflexivity | split; reflexivity | split; reflexivity | intros n w _ Hw; exact Hw |].
    intros node node2 E1 E2 Hr. assert (node2 = node) as -> by congruence. exact Hr. }
  destruct (memtable_flushed (λ _, 0) Table.demo_addr (λ _, None) (λ _, None) (λ _, None) Table.demo_fresh Table.demo_fresh_length (str "db") BytewiseComparator (str "leveldb.BytewiseComparator") flush_name_small demo_policy 3 demo_size demo_user_policy
    4096 16 kSnappyCompression false ltac:(lia) ltac:(by right) disk_ops disk_open Fs.linked (λ e w, Fs.node_data w e) None (Table.mkReadOptions false true) 9 I
    demo_older empty_version (λ p i, (p, i))) with (fuel := 3%nat) (new_id := 1) (during := λ s : VersionSet.version_set nat, s) (meanwhile := λ i : impl Fs.fs nat, i) (i := flush_impl m imm) (stored := ∅ : gmap Z (Z * list upd)) (us_mem := demo_newest) (idx := 1%nat)
    as (i' & stored' & us' & Erun & _ & Hgrow & _ & [[_ (v' & Hh & Hvis)]|[Hbad _]]).
  - intros i stored us Hh. exists i, us. split; [reflexivity | exact (Hquiet i stored us Hh)].
  - cbn. lia.
  - cbn. lia.
  - exact I.
  - intros l. rewrite empty_level. reflexivity.
  - reflexivity.
  - intros i stored us Hh. exists us. assert (set_versions (versions i) i = i) as -> by (by destruct i as [[] ? ? ? ?]). exact (Hquiet i stored us Hh).
  - exact (flush_healthy m imm Hrm Hri Hm Hi).
  - intros wd Hwd. discriminate Hwd.
  - reflexivity.
  - reflexivity.
  - exists i', stored', us', v'. assert (flush_demo_run = Ok i') as E1 by (unfold flush_demo_run; rewrite Em; cbn [mbind outcome_bind]; rewrite Eimm; exact Erun). split; [exact E1|].
    split; [rewrite <- E1; exact flush_demo_checked|]. split; [exact Hh|]. intros k s. rewrite Hvis. change (version_updates _ empty_version) with (@nil upd). by rewrite app_nil_r.
  - exfalso. assert (flush_demo_run = Ok i') as E1 by (unfold flush_demo_run; rewrite Em; cbn [mbind outcome_bind]; rewrite Eimm; exact Erun). pose proof flush_demo_checked as Hc. rewrite E1 in Hc.
    clear -Hbad Hc. unfold flush_check in Hc. rewrite bool_decide_false in Hc by congruence. discriminate Hc.
Defined.
