(* ===== verification/DbWrite.v ===== *)
(** * db/db_impl.cc: concurrent writes

    Every call of [DBImpl::Write] is a thread with a [Writer] object in the queue
    [writers_].  The writer at the front builds a group of batches, gives it the next
    sequence numbers, logs it, syncs the log if it must, and inserts it into the
    memtable while the mutex is released; then it wakes the members of the group.  The
    model is an interleaving of the sections that hold the mutex and of the accesses
    outside of it; a condition variable may wake up spuriously.  A leader for which there
    is no room waits on [bg_cv_]; the background thread runs when
    [MaybeScheduleCompaction] has scheduled it, and signals [bg_cv_].  The statuses of
    the file operations and the results of the compactions are part of a schedule.  A
    memtable is the list of the calls of [Add] (MemTable.v implements it).
    [shutting_down_] is not modelled: only the destructor sets it. *)
From S2P Require Import Prelude.
From S2P Require Import Coding.
From S2P Require Import Dbformat.
From S2P Require Import Status.
From S2P Require Import WriteBatch.
From S2P Require Import MemTable.

(** ** Definitions *)

Module DbWrite.

(** [DBImpl::Writer]; [w_signaled] is the state of its condition variable. *)
Record writer := mkWriter {
  w_status : status;
  w_batch : option (list byte);
  w_sync : bool;
  w_done : bool;
  w_signaled : bool
}.

(** The local variables of [Write] after [BuildBatchGroup]: whether [updates] is
    [tmp_batch_], [last_writer] and [last_sequence]. *)
Record group := mkGroup { g_tmp : bool; g_last : nat; g_sequence : Z }.

Inductive pc :=
| Start
| Waiting
| MakingRoom (allow_delay force : bool)
| WaitingForRoom (allow_delay force : bool)
| AddingRecord (g : group)
| Syncing (g : group)
| Inserting (g : group) (calls : list upd) (st : status)
| Relocking (g : group) (st : status) (sync_error : bool)
| Returned (st : status).

Record thread := mkThread { th_writer : writer; th_pc : pc }.

(** Where the background thread is: not in [BackgroundCall], in the [CompactMemTable] of
    [BackgroundCompaction], or in a compaction of files. *)
Inductive background_pc := BgIdle | BgMemTable | BgCompacting.
(** [manual_compaction_] tells whether it is not [NULL]; [other_compaction] whether
    another level than 0 or a file with too many seeks needs a compaction. *)
Record background := mkBackground {
  bg_compaction_scheduled_ : bool;
  manual_compaction_ : bool;
  other_compaction : bool;
  bg_pc : background_pc
}.

(** [flushed] are the updates that left the memtables; [log_records] are the records of
    all log files, [log_start] the first one of the current file, [durable] the ones a
    [Sync] has covered; [arrivals] is the order in which the calls entered the queue. *)
Record db := mkDb {
  threads : list thread;
  writers_ : list nat;
  arrivals : list nat;
  tmp_batch_ : list byte;
  bg_error_ : status;
  level0_files : Z;
  mem_ : list upd;
  imm_ : option (list upd);
  flushed : list upd;
  log_records : list (list byte);
  log_start : nat;
  durable : list nat;
  next_file_number_ : Z;
  logfile_number_ : Z;
  last_sequence_ : Z;
  bg : background
}.

(** *** Updates of the fields *)

Definition set_threads ts d := mkDb ts (writers_ d) (arrivals d) (tmp_batch_ d) (bg_error_ d) (level0_files d) (mem_ d) (imm_ d) (flushed d) (log_records d) (log_start d) (durable d) (next_file_number_ d) (logfile_number_ d) (last_sequence_ d) (bg d).
Definition set_writers ws d := mkDb (threads d) ws (arrivals d) (tmp_batch_ d) (bg_error_ d) (level0_files d) (mem_ d) (imm_ d) (flushed d) (log_records d) (log_start d) (durable d) (next_file_number_ d) (logfile_number_ d) (last_sequence_ d) (bg d).
Definition set_arrivals a d := mkDb (threads d) (writers_ d) a (tmp_batch_ d) (bg_error_ d) (level0_files d) (mem_ d) (imm_ d) (flushed d) (log_records d) (log_start d) (durable d) (next_file_number_ d) (logfile_number_ d) (last_sequence_ d) (bg d).
Definition set_tmp b d := mkDb (threads d) (writers_ d) (arrivals d) b (bg_error_ d) (level0_files d) (mem_ d) (imm_ d) (flushed d) (log_records d) (log_start d) (durable d) (next_file_number_ d) (logfile_number_ d) (last_sequence_ d) (bg d).
Definition set_bg_error s d := mkDb (threads d) (writers_ d) (arrivals d) (tmp_batch_ d) s (level0_files d) (mem_ d) (imm_ d) (flushed d) (log_records d) (log_start d) (durable d) (next_file_number_ d) (logfile_number_ d) (last_sequence_ d) (bg d).
Definition set_level0 n d := mkDb (threads d) (writers_ d) (arrivals d) (tmp_batch_ d) (bg_error_ d) n (mem_ d) (imm_ d) (flushed d) (log_records d) (log_start d) (durable d) (next_file_number_ d) (logfile_number_ d) (last_sequence_ d) (bg d).
Definition set_tables m i f d := mkDb (threads d) (writers_ d) (arrivals d) (tmp_batch_ d) (bg_error_ d) (level0_files d) m i f (log_records d) (log_start d) (durable d) (next_file_number_ d) (logfile_number_ d) (last_sequence_ d) (bg d).
Definition set_log r s u d := mkDb (threads d) (writers_ d) (arrivals d) (tmp_batch_ d) (bg_error_ d) (level0_files d) (mem_ d) (imm_ d) (flushed d) r s u (next_file_number_ d) (logfile_number_ d) (last_sequence_ d) (bg d).
Definition set_numbers n l d := mkDb (threads d) (writers_ d) (arrivals d) (tmp_batch_ d) (bg_error_ d) (level0_files d) (mem_ d) (imm_ d) (flushed d) (log_records d) (log_start d) (durable d) n l (last_sequence_ d) (bg d).
Definition set_last_sequence s d := mkDb (threads d) (writers_ d) (arrivals d) (tmp_batch_ d) (bg_error_ d) (level0_files d) (mem_ d) (imm_ d) (flushed d) (log_records d) (log_start d) (durable d) (next_file_number_ d) (logfile_number_ d) s (bg d).
Definition set_bg b d := mkDb (threads d) (writers_ d) (arrivals d) (tmp_batch_ d) (bg_error_ d) (level0_files d) (mem_ d) (imm_ d) (flushed d) (log_records d) (log_start d) (durable d) (next_file_number_ d) (logfile_number_ d) (last_sequence_ d) b.

Definition update_thread (f : thread → thread) (i : nat) (d : db) : db := set_threads (alter f i (threads d)) d.
Definition goto (p : pc) (i : nat) (d : db) : db := update_thread (λ t, mkThread (th_writer t) p) i d.
Definition set_signaled (b : bool) (t : thread) : thread :=
  let w := th_writer t in mkThread (mkWriter (w_status w) (w_batch w) (w_sync w) (w_done w) b) (th_pc t).
Definition signal (i : nat) (d : db) : db := update_thread (set_signaled true) i d.
Definition set_batch (b : list byte) (t : thread) : thread :=
  let w := th_writer t in mkThread (mkWriter (w_status w) (Some b) (w_sync w) (w_done w) (w_signaled w)) (th_pc t).
(** [ready->status = status; ready->done = true; ready->cv.Signal()]. *)
Definition finish_writer (st : status) (t : thread) : thread :=
  let w := th_writer t in mkThread (mkWriter st (w_batch w) (w_sync w) true true) (th_pc t).

(** [bg_cv_.SignalAll()]. *)
Definition wake_room (t : thread) : thread :=
  match th_pc t with WaitingForRoom allow_delay force => mkThread (th_writer t) (MakingRoom allow_delay force) | _ => t end.
Definition signal_all (d : db) : db := set_threads (map wake_room (threads d)) d.

Definition thread_at (i : nat) (d : db) : outcome thread :=
  match threads d !! i with Some t => Ok t | None => Ub UseAfterFree end.

(** *** VersionSet: file and sequence numbers *)

Definition NewFileNumber (d : db) : Z * db := (next_file_number_ d, set_numbers (u64 (next_file_number_ d + 1)) (logfile_number_ d) d).
Definition ReuseFileNumber (file_number : Z) (d : db) : db :=
  if next_file_number_ d =? u64 (file_number + 1) then set_numbers file_number (logfile_number_ d) d else d.
Definition SetLastSequence (s : Z) (d : db) : outcome db :=
  if last_sequence_ d <=? s then Ok (set_last_sequence s d) else Ub AssertionFailed.
Definition RecordBackgroundError (s : status) (d : db) : db := if ok (bg_error_ d) then signal_all (set_bg_error s d) else d.

(** *** The background thread *)

Definition set_scheduled (b : bool) (d : db) : db := set_bg (mkBackground b (manual_compaction_ (bg d)) (other_compaction (bg d)) (bg_pc (bg d))) d.
Definition set_manual (b : bool) (d : db) : db := set_bg (mkBackground (bg_compaction_scheduled_ (bg d)) b (other_compaction (bg d)) (bg_pc (bg d))) d.
Definition set_other (b : bool) (d : db) : db := set_bg (mkBackground (bg_compaction_scheduled_ (bg d)) (manual_compaction_ (bg d)) b (bg_pc (bg d))) d.
Definition set_bg_pc (p : background_pc) (d : db) : db := set_bg (mkBackground (bg_compaction_scheduled_ (bg d)) (manual_compaction_ (bg d)) (other_compaction (bg d)) p) d.

(** The score of level 0 is its number of files by [kL0_CompactionTrigger]. *)
Definition NeedsCompaction (d : db) : bool := (kL0_CompactionTrigger <=? level0_files d) || other_compaction (bg d).
Definition has_imm (d : db) : bool := match imm_ d with Some _ => true | None => false end.
Definition MaybeScheduleCompaction (d : db) : db :=
  if bg_compaction_scheduled_ (bg d) then d
  else if negb (ok (bg_error_ d)) then d
  else if negb (has_imm d) && negb (manual_compaction_ (bg d)) && negb (NeedsCompaction d) then d
  else set_scheduled true d.

(** The end of [BackgroundCall]. *)
Definition finish_background (d : db) : db := signal_all (MaybeScheduleCompaction (set_scheduled false (set_bg_pc BgIdle d))).
(** [BackgroundCall] up to the point where it releases the mutex for the first time. *)
Definition BackgroundCall (d : db) : db :=
  match bg_pc (bg d) with
  | BgIdle =>
      if bg_compaction_scheduled_ (bg d) then
        if negb (ok (bg_error_ d)) then finish_background d
        else set_bg_pc (if has_imm d then BgMemTable else BgCompacting) d
      else d
  | _ => d
  end.
(** A version with [n] files in level 0 is installed; [other] tells what it still needs. *)
Definition install_version (n : Z) (other : bool) (d : db) : db := set_other other (set_level0 n d).
(** The end of [CompactMemTable], in [BackgroundCompaction] or between two keys of
    [DoCompactionWork]; [level0] tells whether the new file is in level 0. *)
Definition CompactMemTable (st : status) (level0 : bool) (other : bool) (d : db) : db :=
  let n := level0_files d + (if level0 then 1 else 0) in
  let compact m := if ok st then install_version n other (set_tables (mem_ d) None (flushed d ++ m) d) else RecordBackgroundError st d in
  match bg_pc (bg d), imm_ d with
  | BgMemTable, Some m => finish_background (compact m)
  | BgCompacting, Some m => signal_all (compact m)
  | _, _ => d
  end.
(** The end of [BackgroundCompaction] after a compaction that removes files of level 0, or
    none. *)
Definition BackgroundCompaction (st : status) (removed : nat) (other : bool) (d : db) : db :=
  let n := Z.max 0 (level0_files d - Z.of_nat removed) in
  match bg_pc (bg d) with
  | BgCompacting => finish_background (set_manual false (if ok st then install_version n other d else RecordBackgroundError st d))
  | _ => d
  end.

(** *** BuildBatchGroup *)

Definition max_group_size (size : Z) : Z := if size <=? Z.shiftl 128 10 then size + Z.shiftl 128 10 else Z.shiftl 1 20.

(** The loop over the writers behind the first one.  [result] is [None] while it is the
    first writer's batch; [last] is [*last_writer]. *)
Fixpoint group_loop (ts : list thread) (first : writer) (first_batch tmp : list byte) (max_size : Z) (ws : list nat) (size : Z)
    (result : option (list byte)) (last : nat) : outcome (option (list byte) * nat) :=
  match ws with
  | [] => Ok (result, last)
  | i :: ws =>
      t ← match ts !! i with Some t => Ok t | None => Ub UseAfterFree end;
      let w := th_writer t in
      if w_sync w && negb (w_sync first) then Ok (result, last)
      else
        match w_batch w with
        | None => group_loop ts first first_batch tmp max_size ws size result i
        | Some b =>
            let size := u64 (size + ByteSize b) in
            if max_size <? size then Ok (result, last)
            else
              r ← match result with
                  | Some r => Ok r
                  | None => n ← Count tmp; if n =? 0 then Append tmp first_batch else Ub AssertionFailed
                  end;
              r ← Append r b;
              group_loop ts first first_batch tmp max_size ws size (Some r) i
        end
  end.
Definition BuildBatchGroup (d : db) : outcome (option (list byte) * nat) :=
  match writers_ d with
  | [] => Ub AssertionFailed
  | first :: ws =>
      t ← thread_at first d;
      match w_batch (th_writer t) with
      | None => Ub AssertionFailed
      | Some b =>
          let size := ByteSize b in
          group_loop (threads d) (th_writer t) b (tmp_batch_ d) (max_group_size size) ws size None first
      end
  end.

(** *** Write *)

(** The loop that takes the group off the queue. *)
Fixpoint pop_group (self last : nat) (st : status) (ws : list nat) (d : db) : outcome db :=
  match ws with
  | [] => Ub OutOfBounds
  | ready :: ws =>
      let d := set_writers ws d in
      let d := if bool_decide (ready = self) then d else update_thread (finish_writer st) ready d in
      if bool_decide (ready = last) then Ok d else pop_group self last st ws d
  end.
Definition finish_group (self last : nat) (st : status) (d : db) : outcome db :=
  d ← pop_group self last st (writers_ d) d;
  let d := match writers_ d with [] => d | front :: _ => signal front d end in
  Ok (goto (Returned st) self d).

(** After [MakeRoomForWrite]. *)
Definition start_group (i : nat) (st : status) (d : db) : outcome db :=
  t ← thread_at i d;
  match w_batch (th_writer t) with
  | Some b =>
      if ok st then
        r ← BuildBatchGroup d;
        let in_tmp := bool_decide (r.1 ≠ None) in
        updates ← SetSequence (default b r.1) (u64 (last_sequence_ d + 1));
        n ← Count updates;
        let d := if in_tmp then set_tmp updates d else update_thread (set_batch updates) i d in
        Ok (goto (AddingRecord (mkGroup in_tmp r.2 (u64 (last_sequence_ d + n)))) i d)
      else finish_group i i st d
  | None => finish_group i i st d
  end.

Definition updates_of (g : group) (t : thread) (d : db) : outcome (list byte) :=
  if g_tmp g then Ok (tmp_batch_ d)
  else match w_batch (th_writer t) with Some b => Ok b | None => Ub NullDeref end.

Definition memtable_add (m : list upd) (seq : Z) (type : ValueType) (key value : list byte) : list upd :=
  m ++ [mkUpd seq type key value].

(** The results of the file operations that a step may need. *)
Record io := mkIo { add_record_status : status; sync_status : status; new_log_status : status }.

Section write.
(** [ApproximateMemoryUsage] of a memtable after its calls, and an option. *)
Context (usage : list upd → Z) (write_buffer_size : Z).

(** One round of the loop of [MakeRoomForWrite]. *)
Definition MakeRoomForWrite (i : nat) (allow_delay force : bool) (e : io) (d : db) : outcome db :=
  if negb (ok (bg_error_ d)) then start_group i (bg_error_ d) d
  else if allow_delay && (kL0_SlowdownWritesTrigger <=? level0_files d) then Ok (goto (MakingRoom false force) i d)
  else if negb force && (usage (mem_ d) <=? write_buffer_size) then start_group i status_ok d
  else match imm_ d with
       | Some _ => Ok (goto (WaitingForRoom allow_delay force) i d)
       | None =>
           if kL0_StopWritesTrigger <=? level0_files d then Ok (goto (WaitingForRoom allow_delay force) i d)
           else
             let '(new_log_number, d) := NewFileNumber d in
             if ok (new_log_status e) then
               let d := set_numbers (next_file_number_ d) new_log_number d in
               let d := set_log (log_records d) (length (log_records d)) (durable d) d in
               let d := set_tables [] (Some (mem_ d)) (flushed d) d in
               Ok (goto (MakingRoom allow_delay false) i (MaybeScheduleCompaction d))
             else start_group i (new_log_status e) (ReuseFileNumber new_log_number d)
       end.

(** [log_->AddRecord]: the record of the group is in the log if it succeeds. *)
Definition add_record (i : nat) (g : group) (e : io) (d : db) : outcome db :=
  t ← thread_at i d;
  updates ← updates_of g t d;
  if ok (add_record_status e) then
    let d := set_log (log_records d ++ [Contents updates]) (log_start d) (durable d) d in
    if w_sync (th_writer t) then Ok (goto (Syncing g) i d)
    else
      r ← InsertInto memtable_add updates [];
      Ok (goto (Inserting g r.1 r.2) i d)
  else Ok (goto (Relocking g (add_record_status e) false) i d).

(** [logfile_->Sync]: the records of the current file are durable if it succeeds. *)
Definition sync_log (i : nat) (g : group) (e : io) (d : db) : outcome db :=
  t ← thread_at i d;
  updates ← updates_of g t d;
  if ok (sync_status e) then
    let n := length (log_records d) in
    let d := set_log (log_records d) (log_start d) (durable d ++ seq (log_start d) (n - log_start d)) d in
    r ← InsertInto memtable_add updates [];
    Ok (goto (Inserting g r.1 r.2) i d)
  else Ok (goto (Relocking g (sync_status e) true) i d).

(** [InsertInto]: one call of [Add] at a time. *)
Definition insert_next (i : nat) (g : group) (calls : list upd) (st : status) (d : db) : outcome db :=
  match calls with
  | [] => Ok (goto (Relocking g st false) i d)
  | u :: calls =>
      let d := set_tables (memtable_add (mem_ d) (u_seq u) (u_type u) (u_key u) (u_value u)) (imm_ d) (flushed d) d in
      Ok (goto (Inserting g calls st) i d)
  end.

(** The section after the log and the memtable. *)
Definition relock (i : nat) (g : group) (st : status) (sync_error : bool) (d : db) : outcome db :=
  let d := if sync_error then RecordBackgroundError st d else d in
  let d := if g_tmp g then set_tmp Clear d else d in
  d ← SetLastSequence (g_sequence g) d;
  finish_group i (g_last g) st d.

(** The wait loop at the start of [Write]; a writer that has not been signaled sleeps. *)
Definition wait (i : nat) (t : thread) (d : db) : outcome db :=
  if w_signaled (th_writer t) then
    if w_done (th_writer t) then Ok (goto (Returned (w_status (th_writer t))) i d)
    else
      match writers_ d with
      | [] => Ub OutOfBounds
      | front :: _ =>
          if bool_decide (front = i) then
            let force := bool_decide (w_batch (th_writer t) = None) in Ok (goto (MakingRoom (negb force) force) i d)
          else Ok (update_thread (set_signaled false) i d)
      end
  else Ok d.
Definition enter (i : nat) (d : db) : db :=
  goto Waiting i (set_arrivals (arrivals d ++ [i]) (set_writers (writers_ d ++ [i]) d)).

Definition run_thread (i : nat) (e : io) (d : db) : outcome db :=
  match threads d !! i with
  | None => Ok d
  | Some t =>
      match th_pc t with
      | Start => Ok (enter i d)
      | Waiting => wait i t d
      | MakingRoom allow_delay force => MakeRoomForWrite i allow_delay force e d
      | WaitingForRoom _ _ => Ok d
      | AddingRecord g => add_record i g e d
      | Syncing g => sync_log i g e d
      | Inserting g calls st => insert_next i g calls st d
      | Relocking g st sync_error => relock i g st sync_error d
      | Returned _ => Ok d
      end
  end.

(** *** Schedules *)

(** The three sections of the background thread; [Seek] is a reader whose seeks make a
    file due for compaction ([Get]), [Manual] a call of [TEST_CompactRange] that finds no
    other manual compaction. *)
Inductive action :=
| Call (batch : option (list byte)) (sync : bool)
| Run (i : nat) (e : io)
| Spurious (i : nat)
| Seek
| Manual
| BgCall
| BgCompactMemTable (st : status) (level0 : bool) (other : bool)
| BgCompaction (st : status) (removed : nat) (other : bool).

Definition step (a : action) (d : db) : outcome db :=
  match a with
  | Call batch sync => Ok (set_threads (threads d ++ [mkThread (mkWriter status_ok batch sync false true) Start]) d)
  | Run i e => run_thread i e d
  | Spurious i => Ok (update_thread wake_room i (signal i d))
  | Seek => Ok (MaybeScheduleCompaction (set_other true d))
  | Manual => Ok (if manual_compaction_ (bg d) then d else MaybeScheduleCompaction (set_manual true d))
  | BgCall => Ok (BackgroundCall d)
  | BgCompactMemTable st n other => Ok (CompactMemTable st n other d)
  | BgCompaction st n other => Ok (BackgroundCompaction st n other d)
  end.
Definition run (actions : list action) (d : db) : outcome db := for_loop step actions d.

End write.

Definition initial (next_file_number : Z) : db :=
  mkDb [] [] [] Clear status_ok 0 [] None [] [] 0 [] next_file_number 0 0 (mkBackground false false false BgIdle).

End DbWrite.

Import DbWrite.

(** ** The journal of a run *)

(** The updates of a batch. *)
Definition collector : Handler (list update) := mkHandler (λ l k v, l ++ [UPut k v]) (λ l k, l ++ [UDelete k]).
Definition batch_updates (b : option (list byte)) : list update :=
  match b with Some rep => match Iterate rep collector [] with Ok r => r.1 | _ => [] end | None => [] end.
(** The calls of [Add] for updates with consecutive sequence numbers. *)
Definition stamp (seq : Z) (us : list update) : list upd := add_updates memtable_add [] seq us.

(** What does not change about a call: its updates, [sync], and whether it has a batch. *)
Definition info (t : thread) : list update * bool * bool :=
  (batch_updates (w_batch (th_writer t)), w_sync (th_writer t), bool_decide (w_batch (th_writer t) = None)).
Definition infos (d : db) := map info (threads d).
Section infos.
Context (I : list (list update * bool * bool)).
Definition upds (i : nat) : list update := default [] ((λ x, x.1.1) <$> I !! i).
Definition sync_of (i : nat) : bool := default false ((λ x, x.1.2) <$> I !! i).
Definition null_of (i : nat) : bool := default true ((λ x, x.2) <$> I !! i).
Definition group_updates (G : list nat) : list update := concat (map upds G).

(** An entry of the journal: a call that has been served, the first sequence number of
    its updates, whether they were inserted, and its record in the log. *)
Record j_entry := mkJ { j_id : nat; j_start : Z; j_inserted : bool; j_record : nat }.
Definition j_updates (j : j_entry) : list upd := if j_inserted j then stamp (j_start j) (upds (j_id j)) else [].
Definition history (J : list j_entry) : list upd := concat (map j_updates J).

(** The sequence numbers of the journal increase from [lo] to [hi]. *)
Fixpoint chain (lo : Z) (J : list j_entry) (hi : Z) : Prop :=
  match J with
  | [] => lo ≤ hi
  | j :: J =>
      if j_inserted j then lo < j_start j ∧ chain (j_start j + Z.of_nat (length (upds (j_id j))) - 1) J hi else chain lo J hi
  end.
(** The record of the log that holds the updates of an entry. *)
Definition logged_at (logs : list (list byte)) (j : j_entry) : Prop :=
  ∃ rep seq pre post, logs !! j_record j = Some rep ∧ batch_repr rep seq (pre ++ upds (j_id j) ++ post) ∧
    seq + Z.of_nat (length pre) = j_start j.
End infos.

(** The status with which a call returns or will return. *)
Definition outcome_of (t : thread) : option status :=
  match th_pc t with
  | Returned s => Some s
  | Waiting => if w_done (th_writer t) then Some (w_status (th_writer t)) else None
  | _ => None
  end.
(** All calls of [Add] so far, from the oldest on. *)
Definition applied (d : db) : list upd := flushed d ++ default [] (imm_ d) ++ mem_ d.

(** ** Lemmas *)

(** *** Batches *)

Lemma foldl_collector us : ∀ l, foldl (apply_update collector) l us = l ++ us.
Proof. induction us as [|[k v|k] us IH]; intros l; cbn [foldl apply_update collector h_Put h_Delete]; [by rewrite app_nil_r|..]; by rewrite IH, <- app_assoc. Qed.

Lemma batch_updates_repr rep seq us : batch_repr rep seq us → batch_updates (Some rep) = us.
Proof. intros Hr. unfold batch_updates. rewrite (Iterate_repr _ _ _ _ _ Hr), foldl_collector. done. Qed.

Lemma add_updates_stamp us : ∀ m seq, add_updates memtable_add m seq us = m ++ stamp seq us.
Proof.
  unfold stamp. induction us as [|[k v|k] us IH]; intros m seq; cbn [add_updates]; [by rewrite app_nil_r|..];
    rewrite IH, (IH (memtable_add [] _ _ _ _)); unfold memtable_add; by rewrite <- app_assoc.
Qed.

Lemma stamp_app us vs seq : stamp seq (us ++ vs) = stamp seq us ++ stamp (seq + Z.of_nat (length us)) vs.
Proof.
  revert seq. induction us as [|u us IH]; intros seq; cbn [app length]; [by rewrite Z.add_0_r|].
  assert (∀ a l, stamp a (u :: l) = memtable_add [] a (match u with UPut _ _ => kTypeValue | UDelete _ => kTypeDeletion end)
    (match u with UPut k _ | UDelete k => k end) (match u with UPut _ v => v | UDelete _ => [] end) ++ stamp (a + 1) l) as Hc.
  { intros a l. unfold stamp at 1. destruct u; cbn [add_updates]; by rewrite add_updates_stamp. }
  rewrite !Hc, IH, <- app_assoc. do 2 f_equal. f_equal. lia.
Qed.

Lemma stamp_range us : ∀ seq u, u ∈ stamp seq us → seq ≤ u_seq u < seq + Z.of_nat (length us).
Proof.
  induction us as [|x us IH]; intros seq u Hu; [by apply elem_of_nil in Hu|].
  change (x :: us) with ([x] ++ us) in Hu. rewrite stamp_app in Hu. apply elem_of_app in Hu as [Hu|Hu].
  - destruct x; apply list_elem_of_singleton in Hu as ->; cbn; lia.
  - apply IH in Hu. cbn [length] in *. lia.
Qed.

Lemma InsertInto_stamp rep seq us : batch_repr rep seq us → seq + Z.of_nat (length us) < 2 ^ 64 →
  InsertInto memtable_add rep [] = Ok (stamp seq us, status_ok).
Proof.
  intros Hr Hs. unfold InsertInto. rewrite (Sequence_repr _ _ _ Hr). cbn [mbind outcome_bind].
  rewrite (Iterate_repr _ _ _ _ _ Hr). cbn [mbind outcome_bind fst snd mret outcome_ret].
  destruct Hr as (_ & [Hs0 _] & _). by rewrite foldl_inserter.
Qed.

(** *** Journals *)

Lemma chain_le I J : ∀ lo hi, chain I lo J hi → lo ≤ hi.
Proof.
  induction J as [|j J IH]; intros lo hi H; cbn [chain] in H; [done|]. destruct (j_inserted j); [|by apply IH].
  destruct H as [H1 H2%IH]. lia.
Qed.

Lemma chain_app I J K : ∀ lo mid hi, chain I lo J mid → chain I mid K hi → chain I lo (J ++ K) hi.
Proof.
  assert (∀ K lo lo' hi, lo ≤ lo' → chain I lo' K hi → chain I lo K hi) as Hlow.
  { induction K0 as [|j K0 IH]; intros lo lo' hi Hle H; cbn [chain] in *; [lia|]. destruct (j_inserted j); [lia || (destruct H; split; [lia | done])|].
    by apply (IH lo lo'). }
  induction J as [|j J IH]; intros lo mid hi H1 H2; cbn [chain app] in *; [by apply (Hlow K lo mid)|].
  destruct (j_inserted j); [destruct H1; split; [done|]|]; by apply (IH _ mid).
Qed.

Lemma chain_range I J : ∀ lo hi u, chain I lo J hi → u ∈ history I J → lo < u_seq u ≤ hi.
Proof.
  induction J as [|j J IH]; intros lo hi u H Hu; [by apply elem_of_nil in Hu|].
  unfold history in Hu. cbn [map concat] in Hu. fold (history I J) in Hu. cbn [chain] in H. unfold j_updates in Hu.
  destruct (j_inserted j).
  - destruct H as [H1 H2]. pose proof (chain_le _ _ _ _ H2). apply elem_of_app in Hu as [Hu%stamp_range|Hu]; [lia|].
    specialize (IH _ _ u H2 Hu). lia.
  - by apply (IH lo hi u).
Qed.

(** The entries of a group that starts at [start]. *)
Fixpoint entries (I : list (list update * bool * bool)) (start : Z) (inserted : bool) (record : nat) (G : list nat) : list j_entry :=
  match G with
  | [] => []
  | k :: G => mkJ k start inserted record :: entries I (start + Z.of_nat (length (upds I k))) inserted record G
  end.

Lemma entries_ids I start ins rec G : map j_id (entries I start ins rec G) = G.
Proof. revert start. induction G as [|k G IH]; intros start; [done|]. cbn. by rewrite IH. Qed.

Lemma entries_chain I ins rec G : ∀ start,
  chain I (start - 1) (entries I start ins rec G) (start - 1 + Z.of_nat (length (group_updates I G))).
Proof.
  induction G as [|k G IH]; intros start; cbn [entries chain j_inserted j_start j_id group_updates map concat]; [cbn; lia|].
  rewrite length_app, Nat2Z.inj_add. fold (group_updates I G). specialize (IH (start + Z.of_nat (length (upds I k)))). destruct ins.
  - split; [lia|]. replace (start - 1 + (Z.of_nat (length (upds I k)) + Z.of_nat (length (group_updates I G)))) with
      (start + Z.of_nat (length (upds I k)) - 1 + Z.of_nat (length (group_updates I G))) by lia. exact IH.
  - replace (start - 1) with (start - 1) in * by lia. clear IH. generalize (start + Z.of_nat (length (upds I k))). intros s'.
    assert (∀ s lo hi, lo ≤ hi → chain I lo (entries I s false rec G) hi) as Hf; [|apply Hf; lia].
    clear. induction G as [|k G IH]; intros s lo hi H; [done|]. cbn. by apply IH.
Qed.

Lemma entries_history I rec G : ∀ start, history I (entries I start true rec G) = stamp start (group_updates I G).
Proof.
  induction G as [|k G IH]; intros start; [done|]. cbn [entries group_updates map concat]. unfold history. cbn [map concat].
  unfold j_updates at 1. cbn [j_inserted j_start j_id]. fold (history I (entries I (start + Z.of_nat (length (upds I k))) true rec G)).
  rewrite IH. by rewrite stamp_app.
Qed.

Lemma entries_history_none I rec G : ∀ start, history I (entries I start false rec G) = [].
Proof. induction G as [|k G IH]; intros start; [done|]. cbn [entries]. unfold history. cbn [map concat]. apply IH. Qed.

Lemma entries_logged I ins rec rep seq logs G : ∀ pre, logs !! rec = Some rep →
  batch_repr rep seq (pre ++ group_updates I G) → ∀ j, j ∈ entries I (seq + Z.of_nat (length pre)) ins rec G → logged_at I logs j.
Proof.
  induction G as [|k G IH]; intros pre Hl Hr j Hj; [by apply elem_of_nil in Hj|]. cbn [entries] in Hj.
  unfold group_updates in Hr. cbn [map concat] in Hr. fold (group_updates I G) in Hr. apply elem_of_cons in Hj as [->|Hj].
  - exists rep, seq, pre, (group_updates I G). cbn. done.
  - apply (IH (pre ++ upds I k)); [done | by rewrite <- app_assoc|]. by rewrite length_app, Nat2Z.inj_add, Z.add_assoc.
Qed.

Lemma entries_fields I start ins rec G j : j ∈ entries I start ins rec G → j_id j ∈ G ∧ j_inserted j = ins ∧ j_record j = rec.
Proof.
  revert start. induction G as [|k G IH]; intros start Hj; [by apply elem_of_nil in Hj|]. cbn [entries] in Hj.
  apply elem_of_cons in Hj as [->|Hj]; [cbn; set_solver|]. destruct (IH _ Hj) as (? & ? & ?). set_solver.
Qed.

Lemma history_app I J K : history I (J ++ K) = history I J ++ history I K.
Proof. unfold history. by rewrite map_app, concat_app. Qed.

(** The updates of different calls are at most all updates. *)
Definition total (I : list (list update * bool * bool)) : nat := list_sum (map (λ x, length x.1.1) I).

Lemma total_upds I : total I = list_sum (map (λ i, length (upds I i)) (seq 0 (length I))).
Proof.
  unfold total. induction I as [|x I IH] using rev_ind; [done|].
  rewrite map_app, length_app, list_sum_app, IH. cbn [length map]. rewrite seq_app, map_app, list_sum_app. cbn [seq map].
  f_equal; [|unfold upds; by rewrite lookup_app_r, Nat.sub_diag by lia]. f_equal. apply map_ext_in. intros i Hi%in_seq.
  unfold upds. by rewrite lookup_app_l by lia.
Qed.

Lemma sum_submseteq (f : nat → nat) l k : l ⊆+ k → (list_sum (map f l) ≤ list_sum (map f k))%nat.
Proof. unfold list_sum. induction 1; cbn; lia. Qed.

Lemma total_ids I l : NoDup l → (∀ i, i ∈ l → (i < length I)%nat) → (length (group_updates I l) ≤ total I)%nat.
Proof.
  intros Hn Hl. assert (length (group_updates I l) = list_sum (map (λ i, length (upds I i)) l)) as ->.
  { unfold group_updates. clear. induction l as [|i l IH]; [done|]. cbn. by rewrite length_app, IH. }
  rewrite total_upds. apply sum_submseteq. apply NoDup_submseteq; [done|]. intros i Hi. apply elem_of_seq. specialize (Hl i Hi). lia.
Qed.

(** *** The invariant *)

Definition thread_ok (d : db) (J : list j_entry) (i : nat) (t : thread) : Prop :=
  let w := th_writer t in
  match th_pc t with
  | Start => i ∉ arrivals d ∧ w_done w = false ∧ w_signaled w = true
  | Waiting => i ∈ arrivals d ∧ (w_done w = true ↔ i ∈ map j_id J) ∧
      (w_done w = true ∨ head (writers_ d) = Some i → w_signaled w = true)
  | Returned _ => i ∈ map j_id J
  | _ => head (writers_ d) = Some i ∧ w_done w = false
  end.

(** What the journal says about a served call. *)
Definition served (d : db) (st : status) (j : j_entry) : Prop :=
  (ok st = true → null_of (infos d) (j_id j) = false → j_inserted j = true) ∧
  (ok st = false → j_inserted j = false) ∧
  (j_inserted j = true → logged_at (infos d) (log_records d) j) ∧
  (ok st = true → null_of (infos d) (j_id j) = false → sync_of (infos d) (j_id j) = true → j_record j ∈ durable d).
Definition j_ok (d : db) (j : j_entry) : Prop :=
  ∃ t st, threads d !! j_id j = Some t ∧ outcome_of t = Some st ∧ served d st j.
Definition batch_ok (t : thread) : Prop :=
  ∀ rep, w_batch (th_writer t) = Some rep → ∃ seq us, batch_repr rep seq us ∧ blen rep < 2 ^ 63.

Record core (d : db) (J : list j_entry) : Prop := mkCore {
  k_queue : arrivals d = map j_id J ++ writers_ d;
  k_nodup : NoDup (arrivals d);
  k_range : ∀ i, i ∈ arrivals d → (i < length (threads d))%nat;
  k_threads : ∀ i t, threads d !! i = Some t → thread_ok d J i t;
  k_batches : ∀ i t, threads d !! i = Some t → batch_ok t;
  k_journal : ∀ j, j ∈ J → j_ok d j;
  k_total : Z.of_nat (total (infos d)) ≤ kMaxSequenceNumber;
  k_log : (log_start d ≤ length (log_records d))%nat
}.
Record numbered (d : db) (J : list j_entry) : Prop := mkNumbered {
  n_chain : chain (infos d) 0 J (last_sequence_ d);
  n_last : last_sequence_ d ≤ Z.of_nat (length (group_updates (infos d) (map j_id J)))
}.

(** The leader of a group: [rep] is the group's batch, [infl] what it has inserted. *)
Definition logged (d : db) (i : nat) (rep : list byte) : Prop := last (log_records d) = Some rep.
Definition synced (d : db) (i : nat) : Prop := sync_of (infos d) i = true → pred (length (log_records d)) ∈ durable d.
Definition busy_pc (d : db) (i : nat) (p : pc) (g : group) (us : list update) (rep : list byte) (infl : list upd) : Prop :=
  let all := stamp (last_sequence_ d + 1) us in
  match p with
  | AddingRecord g' => g' = g ∧ infl = []
  | Syncing g' => g' = g ∧ infl = [] ∧ logged d i rep ∧ (log_start d < length (log_records d))%nat
  | Inserting g' calls st => g' = g ∧ st = status_ok ∧ infl ++ calls = all ∧ logged d i rep ∧ synced d i
  | Relocking g' st _ => g' = g ∧ if ok st then infl = all ∧ logged d i rep ∧ synced d i else infl = []
  | _ => False
  end.
Record busy (d : db) (J : list j_entry) (i : nat) (t : thread) (g : group) (G rest : list nat) (rep : list byte) (infl : list upd) : Prop := mkBusy {
  b_queue : writers_ d = G ++ rest;
  b_head : head G = Some i;
  b_last : last G = Some (g_last g);
  b_thread : threads d !! i = Some t;
  b_updates : updates_of g t d = Ok rep;
  b_batch : batch_repr rep (last_sequence_ d + 1) (group_updates (infos d) G);
  b_sequence : g_sequence g = last_sequence_ d + Z.of_nat (length (group_updates (infos d) G));
  b_tmp : g_tmp g = false → tmp_batch_ d = Clear;
  b_sync : ∀ k, k ∈ G → sync_of (infos d) k = true → sync_of (infos d) i = true;
  b_null : null_of (infos d) i = false;
  b_applied : applied d = history (infos d) J ++ infl;
  b_pc : busy_pc d i (th_pc t) g (group_updates (infos d) G) rep infl
}.
Definition idle_pc (p : pc) : Prop := match p with Waiting | MakingRoom _ _ | WaitingForRoom _ _ => True | _ => False end.
Inductive phase (d : db) (J : list j_entry) : Prop :=
| Idle :
    (∀ i t, head (writers_ d) = Some i → threads d !! i = Some t → idle_pc (th_pc t)) → tmp_batch_ d = Clear →
    applied d = history (infos d) J → phase d J
| Busy i t g G rest rep infl : busy d J i t g G rest rep infl → phase d J.

Record inv (d : db) (J : list j_entry) : Prop := mkInv { i_core : core d J; i_numbered : numbered d J; i_phase : phase d J }.

(** *** Changes that keep the core *)

Lemma lookup_alter_thread (f : thread → thread) (i k : nat) (ts : list thread) : alter f i ts !! k = if decide (i = k) then f <$> ts !! k else ts !! k.
Proof. destruct (decide (i = k)) as [->|Hne]; [by rewrite list_lookup_alter_eq | by rewrite list_lookup_alter_ne]. Qed.

Lemma infos_update f i d : (∀ t, threads d !! i = Some t → info (f t) = info t) → infos (update_thread f i d) = infos d.
Proof.
  intros Hf. unfold infos. cbn [threads update_thread set_threads]. apply list_eq. intros k.
  rewrite !list_lookup_fmap, lookup_alter_thread. destruct (decide (i = k)) as [<-|]; [|done].
  destruct (threads d !! i) as [t|] eqn:E; [|done]. cbn. f_equal. by apply Hf.
Qed.

Lemma core_update f i d J t : core d J → threads d !! i = Some t → info (f t) = info t → batch_ok (f t) →
  (i ∈ map j_id J → outcome_of (f t) = outcome_of t) → thread_ok d J i (f t) → core (update_thread f i d) J.
Proof.
  intros Hc Ht Hi Hb Ho Hok. assert (infos (update_thread f i d) = infos d) as EI by (apply infos_update; by intros t' [= <-]%(eq_trans (eq_sym Ht))).
  split; rewrite ?EI; try apply Hc.
  - intros k Hk. cbn. rewrite length_alter. by apply (k_range _ _ Hc).
  - intros k t' Hk. cbn in Hk. rewrite lookup_alter_thread in Hk. destruct (decide (i = k)) as [<-|].
    + rewrite Ht in Hk. injection Hk as <-. exact Hok.
    + by apply (k_threads _ _ Hc).
  - intros k t' Hk. cbn in Hk. rewrite lookup_alter_thread in Hk. destruct (decide (i = k)) as [<-|].
    + rewrite Ht in Hk. by injection Hk as <-.
    + by apply (k_batches _ _ Hc k).
  - intros j Hj. destruct (k_journal _ _ Hc j Hj) as (t' & st & Hj1 & Hj2 & Hj3). unfold j_ok, served. rewrite EI.
    cbn [threads update_thread set_threads]. rewrite lookup_alter_thread. destruct (decide (i = j_id j)) as [->|].
    + rewrite Hj1. rewrite Ht in Hj1. injection Hj1 as <-. exists (f t), st. split; [done|]. split; [|done].
      rewrite Ho; [done|]. by apply list_elem_of_fmap_2.
    + by exists t', st.
Qed.

(** The fields of the database that the core does not look at. *)
Lemma core_fields d d' J : threads d' = threads d → writers_ d' = writers_ d → arrivals d' = arrivals d →
  log_records d `prefix_of` log_records d' → (∀ r, r ∈ durable d → r ∈ durable d') → (log_start d' ≤ length (log_records d'))%nat →
  core d J → core d' J.
Proof.
  intros Et Ew Ea [l El] Hd Hl Hc. assert (infos d' = infos d) as EI by (unfold infos; by rewrite Et).
  split; rewrite ?Et, ?Ew, ?Ea, ?EI; try apply Hc; [| |done].
  - intros i t Hi. pose proof (k_threads _ _ Hc i t Hi) as H. unfold thread_ok in *. by rewrite Ew, Ea.
  - intros j Hj. destruct (k_journal _ _ Hc j Hj) as (t & st & H1 & H2 & S1 & S2 & S3 & S4). exists t, st. rewrite Et. split; [done|]. split; [done|].
    unfold served. rewrite EI. split; [done|]. split; [done|]. split; [|naive_solver].
    intros Hi. destruct (S3 Hi) as (rep & seq & pre & post & Hr & ?). exists rep, seq, pre, post. split; [|done].
    rewrite El. by apply lookup_app_l_Some.
Qed.

Lemma numbered_fields d d' J : infos d' = infos d → last_sequence_ d' = last_sequence_ d → numbered d J → numbered d' J.
Proof. intros E1 E2 [H1 H2]. split; by rewrite E1, E2. Qed.

Lemma info_pc p t : info (mkThread (th_writer t) p) = info t.
Proof. done. Qed.
Lemma infos_goto p i d : infos (goto p i d) = infos d.
Proof. by apply infos_update. Qed.
Lemma infos_signal b i d : infos (update_thread (set_signaled b) i d) = infos d.
Proof. by apply infos_update. Qed.

Lemma thread_goto p i d t : threads d !! i = Some t → threads (goto p i d) !! i = Some (mkThread (th_writer t) p).
Proof. intros H. cbn. by rewrite list_lookup_alter_eq, H. Qed.

Lemma queue_disjoint d J i : core d J → i ∈ writers_ d → i ∉ map j_id J.
Proof.
  intros Hc Hi Hj. pose proof (k_nodup _ _ Hc) as Hn. rewrite (k_queue _ _ Hc) in Hn. apply NoDup_app in Hn as (_ & Hd & _). by apply (Hd i).
Qed.

Lemma head_in_queue d i : head (writers_ d) = Some i → i ∈ writers_ d.
Proof. destruct (writers_ d); [done|]. intros [= ->]. by left. Qed.

(** A thread that leads moves on. *)
Lemma core_goto_leader d J i t p : core d J → threads d !! i = Some t → head (writers_ d) = Some i → w_done (th_writer t) = false →
  match p with Start | Waiting | Returned _ => False | _ => True end → core (goto p i d) J.
Proof.
  intros Hc Ht Hh Hd Hp. apply (core_update _ i d J t); [done | done | done | | |].
  - intros rep Hr. by apply (k_batches _ _ Hc i t).
  - intros Hj. exfalso. apply (queue_disjoint d J i Hc); [by apply head_in_queue | done].
  - unfold thread_ok. cbn. by destruct p.
Qed.

(** *** The end of a group *)

Definition finish_all (self : nat) (st : status) (G : list nat) (ts : list thread) : list thread :=
  foldl (λ ts r, if bool_decide (r = self) then ts else alter (finish_writer st) r ts) ts G.

Lemma finish_all_lookup self st G : NoDup G → ∀ ts k,
  finish_all self st G ts !! k = if decide (k ∈ G ∧ k ≠ self) then finish_writer st <$> ts !! k else ts !! k.
Proof.
  induction 1 as [|r G Hr HG IH]; intros ts k; cbn [finish_all foldl]; [by rewrite decide_False by (intros [H _]; by apply elem_of_nil in H)|].
  fold (finish_all self st G (if bool_decide (r = self) then ts else alter (finish_writer st) r ts)). rewrite IH. clear IH.
  assert ((if bool_decide (r = self) then ts else alter (finish_writer st) r ts) !! k =
    if decide (k = r ∧ k ≠ self) then finish_writer st <$> ts !! k else ts !! k) as ->.
  { case_bool_decide as E; [rewrite decide_False; [done | intros [-> ?]; done]|]. rewrite lookup_alter_thread.
    destruct (decide (r = k)) as [->|]; [by rewrite decide_True | rewrite decide_False; [done | intros [-> _]; done]]. }
  destruct (decide (k ∈ G ∧ k ≠ self)) as [[H1 H2]|H1]; destruct (decide (k = r ∧ k ≠ self)) as [[-> H3]|H3].
  - done.
  - rewrite decide_True by (split; [by right | done]). done.
  - rewrite decide_True by (split; [by left | done]). done.
  - rewrite decide_False; [done|]. rewrite elem_of_cons. tauto.
Qed.

Lemma pop_group_spec self l st rest G : ∀ d, last G = Some l → NoDup (G ++ rest) →
  pop_group self l st (G ++ rest) d = Ok (set_threads (finish_all self st G (threads d)) (set_writers rest d)).
Proof.
  induction G as [|r G IH]; intros d Hl Hn; [done|]. cbn [app pop_group]. apply NoDup_cons in Hn as [Hr Hn].
  destruct (decide (r = l)) as [->|Hne].
  - assert (G = []) as ->. { destruct G as [|x G]; [done|]. change (last (x :: G) = Some l) in Hl. apply last_Some in Hl as [k E].
      destruct Hr. change (l ∈ (x :: G) ++ rest). apply elem_of_app. left. rewrite E. apply elem_of_app. right. by left. }
    rewrite (bool_decide_true (l = l)) by done. cbn [finish_all foldl app]. case_bool_decide; done.
  - rewrite (bool_decide_false (r = l)) by done. assert (last G = Some l) as Hl' by (destruct G; [injection Hl as ->; done | done]).
    rewrite IH by done. f_equal. cbn [finish_all foldl]. case_bool_decide; done.
Qed.

(** What a thread becomes when the group ends. *)
Definition finish_thread (i : nat) (st : status) (G rest : list nat) (k : nat) (t : thread) : thread :=
  let t := if decide (k ∈ G ∧ k ≠ i) then finish_writer st t else t in
  let t := if decide (head rest = Some k) then set_signaled true t else t in
  if decide (k = i) then mkThread (th_writer t) (Returned st) else t.

Lemma finish_group_threads d i l st G rest : writers_ d = G ++ rest → last G = Some l → NoDup (G ++ rest) →
  ∃ ts, finish_group i l st d = Ok (set_threads ts (set_writers rest d)) ∧
    ∀ k, ts !! k = finish_thread i st G rest k <$> threads d !! k.
Proof.
  intros Hw Hl Hn. unfold finish_group. rewrite Hw, (pop_group_spec i l st rest G d Hl Hn). cbn [mbind outcome_bind].
  cbn [writers_ set_threads set_writers].
  exists (alter (λ t, mkThread (th_writer t) (Returned st)) i
    (match rest with [] => finish_all i st G (threads d) | front :: _ => alter (set_signaled true) front (finish_all i st G (threads d)) end)).
  split; [by destruct rest|]. intros k. rewrite lookup_alter_thread. unfold finish_thread.
  assert ((match rest with [] => finish_all i st G (threads d) | front :: _ => alter (set_signaled true) front (finish_all i st G (threads d)) end) !! k =
    (if decide (head rest = Some k) then set_signaled true else id) <$> (finish_all i st G (threads d) !! k)) as ->.
  { destruct rest as [|r rest]; cbn [head].
    - rewrite decide_False by done. by rewrite option_fmap_id.
    - rewrite lookup_alter_thread. destruct (decide (r = k)) as [->|]; [by rewrite decide_True|].
      rewrite decide_False by congruence. by rewrite option_fmap_id. }
  rewrite finish_all_lookup by (by apply NoDup_app in Hn as [? _]). destruct (threads d !! k) as [t|].
  - destruct (decide (i = k)) as [->|].
    + destruct (decide (k ∈ G ∧ k ≠ k)); destruct (decide (head rest = Some k)); cbn; by rewrite (decide_True (P := k = k)).
    + destruct (decide (k ∈ G ∧ k ≠ i)); destruct (decide (head rest = Some k)); cbn; by rewrite (decide_False (P := k = i)).
  - destruct (decide (i = k)); destruct (decide (k ∈ G ∧ k ≠ i)); done.
Qed.

Lemma finish_thread_info i st G rest k t : info (finish_thread i st G rest k t) = info t.
Proof. unfold finish_thread. by destruct (decide (k ∈ G ∧ k ≠ i)), (decide (head rest = Some k)), (decide (k = i)). Qed.
Lemma finish_thread_batch i st G rest k t : w_batch (th_writer (finish_thread i st G rest k t)) = w_batch (th_writer t).
Proof. unfold finish_thread. by destruct (decide (k ∈ G ∧ k ≠ i)), (decide (head rest = Some k)), (decide (k = i)). Qed.

(** A writer behind the front waits. *)
Lemma behind_waits d J i k t : core d J → head (writers_ d) = Some i → k ∈ writers_ d → k ≠ i → threads d !! k = Some t →
  th_pc t = Waiting ∧ w_done (th_writer t) = false.
Proof.
  intros Hc Hh Hk Hne Ht. pose proof (k_threads _ _ Hc k t Ht) as Hok. pose proof (queue_disjoint d J k Hc Hk) as Hj.
  assert (k ∈ arrivals d) as Ha by (rewrite (k_queue _ _ Hc); apply elem_of_app; by right). unfold thread_ok in Hok.
  destruct (th_pc t); try (destruct Hok as [Hok _]; congruence || done); try done.
  destruct Hok as (_ & Hd & _). split; [done|]. apply not_true_is_false. by rewrite Hd.
Qed.

Lemma finish_group_spec d J i l st G rest K : core d J → writers_ d = G ++ rest → head G = Some i → last G = Some l →
  map j_id K = G → (∀ j, j ∈ K → served d st j) →
  ∃ ts, let d' := set_threads ts (set_writers rest d) in
    finish_group i l st d = Ok d' ∧ core d' (J ++ K) ∧ infos d' = infos d ∧
    ∀ k t, head rest = Some k → ts !! k = Some t → th_pc t = Waiting.
Proof.
  intros Hc Hw Hh Hl HK Hserved. pose proof (k_queue _ _ Hc) as Hq. pose proof (k_nodup _ _ Hc) as Hn. rewrite Hq, Hw in Hn.
  apply NoDup_app in Hn as (HnJ & HJd & Hn). assert (head (writers_ d) = Some i) as Hhw by (rewrite Hw; by destruct G).
  destruct (finish_group_threads d i l st G rest Hw Hl Hn) as (ts & E & Hts). exists ts. split; [exact E|].
  set (d' := set_threads ts (set_writers rest d)). assert (∀ k t, k ∈ G ++ rest → k ≠ i → threads d !! k = Some t → th_pc t = Waiting ∧ w_done (th_writer t) = false) as Hwait
    by (intros k t Hk Hne; apply (behind_waits d J i k t Hc Hhw); [by rewrite Hw | done]).
  assert (i ∈ G) as HiG by (destruct G; [done|]; injection Hh as ->; by left).
  assert (∀ k, k ∈ G → k ∉ rest) as Hdis by (by apply NoDup_app in Hn as (_ & ? & _)).
  assert (∀ k t', ts !! k = Some t' → ∃ t, threads d !! k = Some t ∧ t' = finish_thread i st G rest k t) as Hback.
  { intros k t' Hk. rewrite Hts in Hk. apply fmap_Some in Hk as (t & ? & ->). by exists t. }
  assert (infos d' = infos d) as EI.
  { unfold infos. cbn [threads set_threads d']. apply list_eq. intros k. rewrite !list_lookup_fmap, Hts. destruct (threads d !! k); [|done]. cbn. by rewrite finish_thread_info. }
  assert (∀ k, k ∉ G → head rest ≠ Some k → ∀ t, finish_thread i st G rest k t = t) as Hsame.
  { intros k H1 H2 t. unfold finish_thread. rewrite (decide_False (P := k ∈ G ∧ k ≠ i)) by tauto. rewrite (decide_False (P := head rest = Some k)) by done.
    by rewrite (decide_False (P := k = i)) by (intros ->; done). }
  assert (head rest ≠ Some i) as Hri by (intros H; apply (Hdis i HiG); destruct rest; [done|]; injection H as ->; by left).
  split; [|split; [exact EI|]].
  - split; rewrite ?EI; try apply Hc.
    + cbn. rewrite Hq, Hw, map_app, HK. by rewrite <- app_assoc.
    + intros k Hk. cbn. apply (k_range _ _ Hc) in Hk. apply lookup_lt_is_Some in Hk as [t Ht]. apply lookup_lt_is_Some. exists (finish_thread i st G rest k t). by rewrite Hts, Ht.
    + intros k t' Hk. destruct (Hback k t' Hk) as (t & Ht & ->). pose proof (k_threads _ _ Hc k t Ht) as Hok.
      unfold thread_ok. cbn [arrivals writers_ set_threads set_writers d']. rewrite map_app, HK. unfold finish_thread.
      destruct (decide (k = i)) as [->|Hne]; [cbn; apply elem_of_app; by right|].
      destruct (decide (k ∈ G ∧ k ≠ i)) as [[HkG _]|HkG].
      * destruct (Hwait k t ltac:(apply elem_of_app; by left) Hne Ht) as [Hp Hd]. rewrite (decide_False (P := head rest = Some k)) by (intros H; apply (Hdis k HkG); destruct rest; [done|]; injection H as ->; by left).
        cbn. rewrite Hp. split; [rewrite Hq, Hw; set_solver|]. split; [|done]. split; [set_solver | done].
      * assert (k ∉ G) as HkG' by tauto. assert (k ∈ map j_id J ++ G ↔ k ∈ map j_id J) as Hiff by set_solver.
        destruct (decide (head rest = Some k)) as [Hr|Hr].
        -- destruct (Hwait k t ltac:(destruct rest; [done|]; injection Hr as ->; apply elem_of_app; right; by left) Hne Ht) as [Hp Hd].
           unfold thread_ok in Hok. cbn. rewrite Hp in *. destruct Hok as (H1 & H2 & _). split; [done|]. split; [by rewrite Hiff | done].
        -- unfold thread_ok in Hok. destruct (th_pc t); try done; try (destruct Hok as [H _]; congruence).
           ++ destruct Hok as (H1 & H2 & H3). split; [done|]. split; [by rewrite Hiff|]. intros [H|H]; [apply H3; by left | done].
           ++ by rewrite Hiff.
    + intros k t' Hk. destruct (Hback k t' Hk) as (t & Ht & ->). intros rep. rewrite finish_thread_batch. by apply (k_batches _ _ Hc k t).
    + intros j [Hj|Hj]%elem_of_app.
      * destruct (k_journal _ _ Hc j Hj) as (t & s & H1 & H2 & H3). exists t, s. unfold served. rewrite EI. split; [|done].
        cbn. rewrite Hts, H1. cbn. f_equal. apply Hsame.
        -- intros HG. apply (HJd (j_id j)); [by apply list_elem_of_fmap_2 | apply elem_of_app; by left].
        -- intros H. apply (HJd (j_id j)); [by apply list_elem_of_fmap_2|]. apply elem_of_app. right. destruct rest; [done|]. injection H as ->. by left.
      * assert (j_id j ∈ G) as HG by (rewrite <- HK; by apply list_elem_of_fmap_2).
        assert (is_Some (threads d !! j_id j)) as [t Ht] by (apply lookup_lt_is_Some, (k_range _ _ Hc); rewrite Hq, Hw; set_solver).
        exists (finish_thread i st G rest (j_id j) t), st. split; [cbn; by rewrite Hts, Ht|]. split; [|unfold served; rewrite EI; by apply Hserved].
        unfold finish_thread. destruct (decide (j_id j = i)) as [Ei|Hne]; [done|]. rewrite (decide_True (P := j_id j ∈ G ∧ j_id j ≠ i)) by done.
        destruct (Hwait _ t ltac:(apply elem_of_app; by left) Hne Ht) as [Hp Hd].
        destruct (decide (head rest = Some (j_id j))); unfold outcome_of; cbn; by rewrite Hp.
  - intros k t' Hr Hk. destruct (Hback k t' Hk) as (t & Ht & ->). assert (k ∈ rest) as Hkr by (destruct rest; [done|]; injection Hr as ->; by left).
    assert (k ≠ i) as Hne by (intros ->; by apply (Hdis i)). destruct (Hwait k t ltac:(set_solver) Hne Ht) as [Hp _].
    unfold finish_thread. rewrite (decide_False (P := k = i)) by done. rewrite (decide_False (P := k ∈ G ∧ k ≠ i)) by (intros [H _]; by apply (Hdis k)).
    by rewrite decide_True.
Qed.

(** *** Building a group *)

Lemma batch_blen rep seq us : batch_repr rep seq us → blen rep = 12 + blen (encode_updates us) ∧ Z.of_nat (length us) ≤ blen rep.
Proof.
  intros (-> & _). rewrite !blen_app. change (blen (EncodeFixed64 seq)) with 8. change (blen (EncodeFixed32 (Z.of_nat (length us)))) with 4. split; [lia|].
  enough (Z.of_nat (length us) ≤ blen (encode_updates us)) by lia. unfold blen, encode_updates. induction us as [|u us IH]; [done|].
  cbn [map concat length]. rewrite length_app. pose proof (encode_update_length u). lia.
Qed.

Lemma upds_thread ts i t : ts !! i = Some t → upds (map info ts) i = batch_updates (w_batch (th_writer t)).
Proof. intros H. unfold upds. by rewrite list_lookup_fmap, H. Qed.
Lemma sync_thread ts i t : ts !! i = Some t → sync_of (map info ts) i = w_sync (th_writer t).
Proof. intros H. unfold sync_of. by rewrite list_lookup_fmap, H. Qed.
Lemma null_thread ts i t : ts !! i = Some t → null_of (map info ts) i = bool_decide (w_batch (th_writer t) = None).
Proof. intros H. unfold null_of. by rewrite list_lookup_fmap, H. Qed.

(** The loop takes a prefix [H] of the queue. *)
Lemma group_loop_spec ts first b0 M ws : M ≤ 2 ^ 20 → (∀ i, i ∈ ws → ∃ t, ts !! i = Some t ∧ batch_ok t) →
  ∀ size result l acc s, batch_repr (default b0 result) s acc → Z.of_nat (length acc) ≤ size < 2 ^ 63 →
  ∃ H rest r l' s', ws = H ++ rest ∧ group_loop ts first b0 Clear M ws size result l = Ok (r, l') ∧ last (l :: H) = Some l' ∧
    batch_repr (default b0 r) s' (acc ++ group_updates (map info ts) H) ∧
    ∀ k, k ∈ H → sync_of (map info ts) k = true → w_sync first = true.
Proof.
  intros HM. induction ws as [|i ws IH]; intros Hts size result l acc s Hr Hsize.
  { exists [], [], result, l, s. cbn. rewrite app_nil_r. split_and!; try done. intros k Hk. by apply elem_of_nil in Hk. }
  assert (∃ H rest r l' s', i :: ws = H ++ rest ∧ Ok (result, l) = Ok (r, l') ∧ last (l :: H) = Some l' ∧
    batch_repr (default b0 r) s' (acc ++ group_updates (map info ts) H) ∧ ∀ k, k ∈ H → sync_of (map info ts) k = true → w_sync first = true) as Hstop.
  { exists [], (i :: ws), result, l, s. cbn. rewrite app_nil_r. split_and!; try done. intros k Hk. by apply elem_of_nil in Hk. }
  destruct (Hts i) as (t & Ht & Hb); [by left|]. cbn [group_loop]. rewrite Ht. cbn [mbind outcome_bind].
  destruct (w_sync (th_writer t) && negb (w_sync first)) eqn:Esync; [exact Hstop|].
  assert (sync_of (map info ts) i = true → w_sync first = true) as Hsi.
  { rewrite (sync_thread _ _ _ Ht). intros H. rewrite H in Esync. by destruct (w_sync first). }
  assert (∀ size' result' acc', batch_repr (default b0 result') s acc' ∨ (∃ s', batch_repr (default b0 result') s' acc') →
    Z.of_nat (length acc') ≤ size' < 2 ^ 63 → acc' = acc ++ upds (map info ts) i →
    ∃ H rest r l' s', i :: ws = H ++ rest ∧ group_loop ts first b0 Clear M ws size' result' i = Ok (r, l') ∧ last (l :: H) = Some l' ∧
    batch_repr (default b0 r) s' (acc ++ group_updates (map info ts) H) ∧ ∀ k, k ∈ H → sync_of (map info ts) k = true → w_sync first = true) as Hgo.
  { intros size' result' acc' Hr' Hs' ->. assert (∃ s', batch_repr (default b0 result') s' (acc ++ upds (map info ts) i)) as [s' Hr''] by naive_solver.
    destruct (IH ltac:(intros k Hk; apply Hts; by right) size' result' i _ s' Hr'' Hs') as (H & rest & r & l' & s2 & -> & E & Hl & Hr2 & Hk).
    exists (i :: H), rest, r, l', s2. split; [done|]. split; [exact E|]. split; [exact Hl|]. split.
    - unfold group_updates in *. cbn [map concat]. by rewrite app_assoc.
    - intros k [->|Hk2]%elem_of_cons; [done | by apply Hk]. }
  destruct (w_batch (th_writer t)) as [b|] eqn:Eb.
  - destruct (Hb b Eb) as (sb & us & Hbr & Hbl). destruct (batch_blen _ _ _ Hbr) as [_ Hub]. unfold ByteSize. pose proof (blen_nonneg b).
    rewrite u64_small by (unfold is_u64; lia). destruct (Z.ltb_spec M (size + blen b)); [exact Hstop|].
    assert (∃ r0 s0, (match result with Some r => Ok r | None => n ← Count Clear; if n =? 0 then Append Clear b0 else Ub AssertionFailed end) = Ok r0 ∧
      batch_repr r0 s0 acc) as (r0 & s0 & -> & Hr0).
    { destruct result as [r|]; [by exists r, s|]. rewrite (Count_repr _ _ _ Clear_repr). cbn [mbind outcome_bind length Z.of_nat Z.eqb].
      destruct (Append_repr Clear b0 0 s [] acc Clear_repr Hr) as (r0 & E & ?); [cbn; lia|]. by exists r0, 0. }
    cbn [mbind outcome_bind]. destruct (Append_repr r0 b s0 sb acc us Hr0 Hbr) as (r1 & E & Hr1); [lia|]. rewrite E. cbn [mbind outcome_bind].
    apply (Hgo _ (Some r1) (acc ++ us)); [right; by exists s0 | rewrite length_app; lia|].
    by rewrite (upds_thread _ _ _ Ht), Eb, (batch_updates_repr _ _ _ Hbr).
  - apply (Hgo size result acc); [by left | done|]. by rewrite (upds_thread _ _ _ Ht), Eb, app_nil_r.
Qed.

Lemma max_group_size_le size : max_group_size size ≤ 2 ^ 20.
Proof. unfold max_group_size. change (Z.shiftl 128 10) with 131072. change (Z.shiftl 1 20) with (2 ^ 20). destruct (Z.leb_spec size 131072); lia. Qed.

Lemma queue_threads d J k : core d J → k ∈ writers_ d → ∃ t, threads d !! k = Some t ∧ batch_ok t.
Proof.
  intros Hc Hk. assert (is_Some (threads d !! k)) as [t Ht].
  { apply lookup_lt_is_Some, (k_range _ _ Hc). rewrite (k_queue _ _ Hc). apply elem_of_app. by right. }
  exists t. split; [done|]. by apply (k_batches _ _ Hc k).
Qed.

Lemma BuildBatchGroup_spec d J i t b : core d J → head (writers_ d) = Some i → threads d !! i = Some t → w_batch (th_writer t) = Some b →
  tmp_batch_ d = Clear → ∃ G rest r l s, writers_ d = G ++ rest ∧ head G = Some i ∧ last G = Some l ∧ BuildBatchGroup d = Ok (r, l) ∧
    batch_repr (default b r) s (group_updates (infos d) G) ∧ ∀ k, k ∈ G → sync_of (infos d) k = true → sync_of (infos d) i = true.
Proof.
  intros Hc Hh Ht Eb Etmp. unfold BuildBatchGroup. destruct (writers_ d) as [|x ws] eqn:Ew; [done|]. injection Hh as ->.
  unfold thread_at. rewrite Ht. cbn [mbind outcome_bind]. rewrite Eb, Etmp. destruct (k_batches _ _ Hc i t Ht b Eb) as (s & us & Hr & Hbl).
  destruct (group_loop_spec (threads d) (th_writer t) b (max_group_size (ByteSize b)) ws (max_group_size_le _)) with
    (size := ByteSize b) (result := @None (list byte)) (l := i) (acc := us) (s := s) as (H & rest & r & l & s' & -> & E & Hl & Hr' & Hs).
  - intros k Hk. apply (queue_threads d J k Hc). rewrite Ew. by right.
  - exact Hr.
  - destruct (batch_blen _ _ _ Hr). unfold ByteSize. lia.
  - exists (i :: H), rest, r, l, s'. split; [done|]. split; [done|]. split; [done|]. split; [exact E|]. split.
    + unfold group_updates, infos. cbn [map concat]. by rewrite (upds_thread _ _ _ Ht), Eb, (batch_updates_repr _ _ _ Hr).
    + intros k [->|Hk]%elem_of_cons Hk2; [done|]. unfold infos. rewrite (sync_thread _ _ _ Ht). by apply (Hs k).
Qed.

(** *** The steps of a leader *)

(** A step that keeps the invariant and what is known about the calls. *)
Definition keeps (d : db) (o : outcome db) : Prop := ∃ d' J', o = Ok d' ∧ inv d' J' ∧ infos d' = infos d.

Lemma group_updates_app I G H : group_updates I (G ++ H) = group_updates I G ++ group_updates I H.
Proof. unfold group_updates. by rewrite map_app, concat_app. Qed.

Lemma numbered_bound d J G rest : core d J → numbered d J → writers_ d = G ++ rest →
  0 ≤ last_sequence_ d ∧ last_sequence_ d + Z.of_nat (length (group_updates (infos d) G)) < 2 ^ 56.
Proof.
  intros Hc [Hn1 Hn2] Hw. split; [by apply chain_le in Hn1|]. pose proof (k_nodup _ _ Hc) as Hd. pose proof (k_range _ _ Hc) as Hr.
  pose proof (k_total _ _ Hc) as Ht. rewrite (k_queue _ _ Hc), Hw, app_assoc in Hd, Hr. apply NoDup_app in Hd as (Hd & _).
  pose proof (total_ids (infos d) (map j_id J ++ G) Hd) as Hle. rewrite group_updates_app, length_app in Hle.
  change kMaxSequenceNumber with (2 ^ 56 - 1) in Ht. assert (∀ k, k ∈ map j_id J ++ G → (k < length (infos d))%nat) as Hlt.
  { intros k Hk. unfold infos. rewrite length_map. apply Hr. apply elem_of_app. by left. }
  specialize (Hle Hlt). lia.
Qed.

Lemma finish_inv d J i l st G rest K : core d J → numbered d J → writers_ d = G ++ rest → head G = Some i → last G = Some l → tmp_batch_ d = Clear →
  map j_id K = G → (∀ j, j ∈ K → served d st j) →
  ∀ s, last_sequence_ d ≤ s ≤ last_sequence_ d + Z.of_nat (length (group_updates (infos d) G)) → chain (infos d) (last_sequence_ d) K s →
  applied d = history (infos d) (J ++ K) → keeps d (finish_group i l st (set_last_sequence s d)).
Proof.
  intros Hc [Hn1 Hn2] Hw Hh Hl Ht HK Hs s Hle Hch Ha. set (d1 := set_last_sequence s d).
  assert (core d1 J) as Hc1 by (apply (core_fields d); try done; apply Hc).
  destruct (finish_group_spec d1 J i l st G rest K Hc1 Hw Hh Hl HK Hs) as (ts & E & Hc2 & EI & Hrest).
  set (d2 := set_threads ts (set_writers rest d1)) in *. exists d2, (J ++ K). split; [exact E|]. split; [|done]. split; [done| |].
  - split; rewrite EI; cbn [last_sequence_ d2 set_threads set_writers d1 set_last_sequence].
    + by apply (chain_app _ _ _ _ (last_sequence_ d)).
    + rewrite map_app, HK, group_updates_app, length_app. change (infos d1) with (infos d). lia.
  - apply Idle; [| done |].
    + intros k t Hk Hk2. by rewrite (Hrest k t Hk Hk2).
    + rewrite EI. exact Ha.
Qed.

Lemma finish_alone d J i st : core d J → numbered d J → head (writers_ d) = Some i → tmp_batch_ d = Clear → applied d = history (infos d) J →
  null_of (infos d) i = true ∨ ok st = false → keeps d (finish_group i i st d).
Proof.
  intros Hc Hn Hh Ht Ha Hst. destruct (writers_ d) as [|x rest] eqn:Ew; [done|]. injection Hh as ->.
  replace d with (set_last_sequence (last_sequence_ d) d) at 2 by (by destruct d).
  apply (finish_inv d J i i st [i] rest (entries (infos d) 0 false 0 [i])); try done.
  - intros j Hj. destruct (entries_fields _ _ _ _ _ _ Hj) as (Hid & Hins & _). apply list_elem_of_singleton in Hid.
    unfold served. rewrite Hid, Hins. split_and!; [| done | done |]; intros Hok Hnull; destruct Hst; congruence.
  - lia.
  - cbn. lia.
  - by rewrite history_app, entries_history_none, app_nil_r.
Qed.

Lemma start_group_spec d J i t st : core d J → numbered d J → head (writers_ d) = Some i → threads d !! i = Some t → w_done (th_writer t) = false →
  tmp_batch_ d = Clear → applied d = history (infos d) J → keeps d (start_group i st d).
Proof.
  intros Hc Hn Hh Ht Hd Htmp Ha. unfold start_group, thread_at. rewrite Ht. cbn [mbind outcome_bind].
  assert (null_of (infos d) i = bool_decide (w_batch (th_writer t) = None)) as Hnull by (apply (null_thread _ _ _ Ht)).
  destruct (w_batch (th_writer t)) as [b|] eqn:Eb; [|apply (finish_alone d J i st Hc Hn Hh Htmp Ha); left; by rewrite Hnull].
  destruct (ok st) eqn:Est; [|apply (finish_alone d J i st Hc Hn Hh Htmp Ha); by right].
  destruct (BuildBatchGroup_spec d J i t b Hc Hh Ht Eb Htmp) as (G & rest & r & l & s & Hw & HhG & Hl & -> & Hr & Hsync).
  cbn [mbind outcome_bind fst snd]. destruct (numbered_bound d J G rest Hc Hn Hw) as [H0 Hmax].
  rewrite (u64_small (last_sequence_ d + 1)) by (unfold is_u64; lia).
  destruct (SetSequence_repr (default b r) s (last_sequence_ d + 1) _ Hr) as (rep & -> & Hrep); [unfold is_u64; lia|].
  cbn [mbind outcome_bind]. rewrite (Count_repr _ _ _ Hrep). cbn [mbind outcome_bind].
  replace (last_sequence_ (if bool_decide (r ≠ None) then set_tmp rep d else update_thread (set_batch rep) i d)) with (last_sequence_ d) by (by destruct r).
  rewrite u64_small by (unfold is_u64; lia). set (g := mkGroup _ l _).
  destruct r as [r|]; cbn [default from_option id] in Hr, g.
  - exists (goto (AddingRecord g) i (set_tmp rep d)), J. split; [done|]. rewrite infos_goto. split; [|done]. split.
    + apply (core_goto_leader _ J i t); try done. apply (core_fields d); try done. apply Hc.
    + by apply (numbered_fields d); [rewrite infos_goto|..].
    + apply (Busy _ _ i (mkThread (th_writer t) (AddingRecord g)) g G rest rep []). split; try (rewrite infos_goto); try done.
      * by apply thread_goto.
      * by rewrite app_nil_r.
  - assert (group_updates (infos d) G = batch_updates (Some b)) as Eb' by (by rewrite (batch_updates_repr _ _ _ Hr)).
    assert (info (set_batch rep t) = info t) as Hi.
    { unfold info. cbn [th_writer set_batch w_batch w_sync]. by rewrite Eb, (batch_updates_repr _ _ _ Hrep), Eb'. }
    set (d1 := update_thread (set_batch rep) i d). assert (infos d1 = infos d) as EI by (apply infos_update; congruence).
    assert (threads d1 !! i = Some (set_batch rep t)) as Ht1 by (cbn; by rewrite list_lookup_alter_eq, Ht).
    exists (goto (AddingRecord g) i d1), J. rewrite infos_goto. split; [done|]. split; [|done]. split.
    + apply (core_goto_leader _ J i (set_batch rep t)); try done.
      apply (core_update _ i d J t Hc Ht Hi); [| done | by apply (k_threads _ _ Hc i t)].
      intros rep' [= <-]. exists (last_sequence_ d + 1), (group_updates (infos d) G). split; [done|].
      destruct (k_batches _ _ Hc i t Ht b Eb) as (_ & _ & _ & Hbl). destruct (batch_blen _ _ _ Hr), (batch_blen _ _ _ Hrep). lia.
    + by apply (numbered_fields d); [rewrite infos_goto|..].
    + apply (Busy _ _ i (mkThread (th_writer (set_batch rep t)) (AddingRecord g)) g G rest rep []). split; try (rewrite infos_goto, EI); try done.
      * by apply thread_goto.
      * by rewrite app_nil_r.
Qed.

Lemma busy_head d J i t g G rest rep infl : busy d J i t g G rest rep infl → head (writers_ d) = Some i.
Proof. intros Hb. rewrite (b_queue _ _ _ _ _ _ _ _ _ Hb). pose proof (b_head _ _ _ _ _ _ _ _ _ Hb) as E. by destruct G. Qed.

Lemma leader_idle d J i t : inv d J → head (writers_ d) = Some i → threads d !! i = Some t → idle_pc (th_pc t) →
  tmp_batch_ d = Clear ∧ applied d = history (infos d) J.
Proof.
  intros [_ _ [Hi Ht Ha|i' t' g G rest rep infl Hb]] Hh Hl Hp; [done|]. exfalso.
  assert (i' = i) as -> by (apply busy_head in Hb; congruence).
  pose proof (b_thread _ _ _ _ _ _ _ _ _ Hb) as E. rewrite Hl in E. injection E as <-. pose proof (b_pc _ _ _ _ _ _ _ _ _ Hb) as H.
  by destruct (th_pc t).
Qed.

Lemma leader_busy d J i t : inv d J → head (writers_ d) = Some i → threads d !! i = Some t → ¬ idle_pc (th_pc t) →
  ∃ g G rest rep infl, busy d J i t g G rest rep infl.
Proof.
  intros [_ _ [Hi Ht Ha|i' t' g G rest rep infl Hb]] Hh Hl Hp; [by destruct Hp; apply (Hi i t)|].
  assert (i' = i) as -> by (apply busy_head in Hb; congruence).
  pose proof (b_thread _ _ _ _ _ _ _ _ _ Hb) as E. rewrite Hl in E. injection E as <-. by exists g, G, rest, rep, infl.
Qed.

Definition room_pc (p : pc) : Prop := match p with MakingRoom _ _ | WaitingForRoom _ _ => True | _ => False end.
Lemma idle_goto d J i t p : core d J → numbered d J → head (writers_ d) = Some i → threads d !! i = Some t → w_done (th_writer t) = false →
  tmp_batch_ d = Clear → applied d = history (infos d) J → room_pc p → keeps d (Ok (goto p i d)).
Proof.
  intros Hc Hn Hh Ht Hd Htmp Ha Hp. exists (goto p i d), J. rewrite infos_goto. split; [done|]. split; [|done]. split.
  - apply (core_goto_leader d J i t); try done. by destruct p.
  - by apply (numbered_fields d); [apply infos_goto|..].
  - apply Idle; [| done | by rewrite infos_goto]. intros k t' Hk Hk2. cbn in Hk. assert (k = i) as -> by congruence.
    rewrite (thread_goto _ _ _ _ Ht) in Hk2. injection Hk2 as <-. by destruct p.
Qed.

Lemma MaybeScheduleCompaction_bg d : ∃ b, MaybeScheduleCompaction d = set_bg b d.
Proof.
  assert (∃ b, d = set_bg b d) as Hsame by (exists (bg d); by destruct d).
  unfold MaybeScheduleCompaction. destruct (bg_compaction_scheduled_ (bg d)); [done|]. destruct (negb _); [done|]. destruct (_ && _); [done|]. by eexists.
Qed.

Lemma MakeRoomForWrite_spec usage wbs d J i t a f e : inv d J → head (writers_ d) = Some i → threads d !! i = Some t →
  idle_pc (th_pc t) → w_done (th_writer t) = false → keeps d (MakeRoomForWrite usage wbs i a f e d).
Proof.
  intros Hinv Hh Ht Hp Hd. destruct (leader_idle d J i t Hinv Hh Ht Hp) as [Htmp Ha]. destruct (Hinv) as [Hc Hn _].
  assert (keeps d (Ok d)) as Hsame by (by exists d, J). unfold MakeRoomForWrite.
  destruct (negb (ok (bg_error_ d))); [by apply (start_group_spec d J i t)|].
  destruct (a && _); [by apply (idle_goto d J i t)|].
  destruct (negb f && _); [by apply (start_group_spec d J i t)|].
  destruct (imm_ d) as [m|] eqn:Eimm; [by apply (idle_goto d J i t)|]. destruct (kL0_StopWritesTrigger <=? level0_files d); [by apply (idle_goto d J i t)|].
  unfold NewFileNumber. destruct (ok (new_log_status e)).
  - set (d0 := set_tables _ _ _ _). destruct (MaybeScheduleCompaction_bg d0) as [b Eb]. rewrite Eb. set (d1 := set_bg b d0).
    assert (applied d1 = applied d) as Ea by (unfold applied; cbn; by rewrite Eimm, app_nil_r).
    apply (idle_goto d1 J i t); try done; [apply (core_fields d); try done; apply Hc | by apply (numbered_fields d) | exact (eq_trans Ea Ha)].
  - set (d0 := set_numbers (u64 (next_file_number_ d + 1)) (logfile_number_ d) d).
    change (keeps d0 (start_group i (new_log_status e) (ReuseFileNumber (next_file_number_ d) d0))).
    assert (core d0 J) as Hc0 by (apply (core_fields d); try done; apply Hc). assert (numbered d0 J) as Hn0 by (by apply (numbered_fields d)).
    unfold ReuseFileNumber. destruct (next_file_number_ d0 =? _); [|by apply (start_group_spec d0 J i t)].
    set (d1 := set_numbers _ _ _). change (keeps d1 (start_group i (new_log_status e) d1)).
    apply (start_group_spec d1 J i t); try done; [apply (core_fields d0); try done; apply Hc | by apply (numbered_fields d0)].
Qed.

Lemma busy_step d d' J i t g G rest rep infl infl' p : core d J → numbered d J → w_done (th_writer t) = false → busy d J i t g G rest rep infl →
  threads d' = threads d → writers_ d' = writers_ d → arrivals d' = arrivals d → tmp_batch_ d' = tmp_batch_ d → last_sequence_ d' = last_sequence_ d →
  log_records d `prefix_of` log_records d' → (∀ r, r ∈ durable d → r ∈ durable d') → (log_start d' ≤ length (log_records d'))%nat →
  applied d' = history (infos d) J ++ infl' → busy_pc d' i p g (group_updates (infos d) G) rep infl' → keeps d (Ok (goto p i d')).
Proof.
  intros Hc Hn Hd Hb E1 E2 E3 E4 E5 Hl1 Hl2 Hl3 Ha Hp. assert (infos d' = infos d) as EI by (unfold infos; by rewrite E1).
  assert (head (writers_ d) = Some i) as Hh by (by apply busy_head in Hb).
  assert (core d' J) as Hc' by (by apply (core_fields d)). pose proof (b_thread _ _ _ _ _ _ _ _ _ Hb) as Ht. rewrite <- E1 in Ht.
  exists (goto p i d'), J. rewrite infos_goto. split; [done|]. split; [|done]. split.
  - apply (core_goto_leader d' J i t); [done | done | by rewrite E2 | done |]. destruct p; (done || destruct Hp).
  - by apply (numbered_fields d); [rewrite infos_goto|..].
  - apply (Busy _ _ i (mkThread (th_writer t) p) g G rest rep infl').
    destruct Hb as [B1 B2 B3 B4 B5 B6 B7 B8 B9 B10 B11 B12]. split; rewrite ?infos_goto, ?EI; try done.
    + by rewrite <- B1.
    + by apply thread_goto.
    + unfold updates_of in *. cbn [tmp_batch_ goto update_thread set_threads th_writer]. by rewrite E4.
    + by cbn; rewrite E5.
    + by cbn; rewrite E5.
    + by cbn; rewrite E4.
    + clear -Hp. unfold busy_pc, logged, synced in *. rewrite infos_goto. exact Hp.
Qed.

Lemma add_record_spec d J i t g e : inv d J → head (writers_ d) = Some i → threads d !! i = Some t → w_done (th_writer t) = false →
  th_pc t = AddingRecord g → keeps d (add_record i g e d).
Proof.
  intros Hinv Hh Ht Hd Hp. destruct (leader_busy d J i t Hinv Hh Ht) as (g' & G & rest & rep & infl & Hb); [rewrite Hp; intros []|].
  destruct (Hinv) as [Hc Hn _]. destruct (Hb) as [B1 B2 B3 B4 B5 B6 B7 B8 B9 B10 B11 B12]. rewrite Hp in B12. destruct B12 as [-> ->].
  unfold add_record, thread_at. rewrite Ht. cbn [mbind outcome_bind]. rewrite B5. cbn [mbind outcome_bind].
  destruct (numbered_bound d J G rest Hc Hn B1) as [H0 Hmax].
  assert (log_records d `prefix_of` log_records d ++ [rep]) as Hpre by (by eexists).
  pose proof (k_log _ _ Hc) as Hlog. assert (w_sync (th_writer t) = sync_of (infos d) i) as Es by (symmetry; by apply sync_thread).
  destruct (ok (add_record_status e)) eqn:Eok; [destruct (w_sync (th_writer t))|].
  - apply (busy_step d _ J i t g' G rest rep [] [] (Syncing g') Hc Hn Hd Hb); try done; [cbn; rewrite length_app; lia|].
    split; [done|]. split; [done|]. split; [unfold logged; cbn; by rewrite last_snoc | cbn; rewrite length_app; cbn; lia].
  - rewrite (InsertInto_stamp rep (last_sequence_ d + 1) _ B6) by lia. cbn [mbind outcome_bind fst snd].
    apply (busy_step d _ J i t g' G rest rep [] [] _ Hc Hn Hd Hb); try done; [cbn; rewrite length_app; lia|].
    split; [done|]. split; [done|]. split; [done|]. split; [unfold logged; cbn; by rewrite last_snoc|].
    intros Hs. change (sync_of (infos d) i = true) in Hs. congruence.
  - apply (busy_step d _ J i t g' G rest rep [] [] _ Hc Hn Hd Hb); try done. split; [done|]. by rewrite Eok.
Qed.

Lemma sync_log_spec d J i t g e : inv d J → head (writers_ d) = Some i → threads d !! i = Some t → w_done (th_writer t) = false →
  th_pc t = Syncing g → keeps d (sync_log i g e d).
Proof.
  intros Hinv Hh Ht Hd Hp. destruct (leader_busy d J i t Hinv Hh Ht) as (g' & G & rest & rep & infl & Hb); [rewrite Hp; intros []|].
  destruct (Hinv) as [Hc Hn _]. destruct (Hb) as [B1 B2 B3 B4 B5 B6 B7 B8 B9 B10 B11 B12]. rewrite Hp in B12. destruct B12 as (-> & -> & Hlogged & Hstart).
  unfold sync_log, thread_at. rewrite Ht. cbn [mbind outcome_bind]. rewrite B5. cbn [mbind outcome_bind].
  destruct (numbered_bound d J G rest Hc Hn B1) as [H0 Hmax]. pose proof (k_log _ _ Hc) as Hlog.
  destruct (ok (sync_status e)) eqn:Eok.
  - rewrite (InsertInto_stamp rep (last_sequence_ d + 1) _ B6) by lia. cbn [mbind outcome_bind fst snd].
    apply (busy_step d _ J i t g' G rest rep [] [] _ Hc Hn Hd Hb); try done.
    + intros r Hr. cbn. apply elem_of_app. by left.
    + split; [done|]. split; [done|]. split; [done|]. split; [done|]. intros _. cbn. apply elem_of_app. right. apply elem_of_seq. lia.
  - apply (busy_step d _ J i t g' G rest rep [] [] _ Hc Hn Hd Hb); try done. split; [done|]. by rewrite Eok.
Qed.

Lemma insert_next_spec d J i t g calls st : inv d J → head (writers_ d) = Some i → threads d !! i = Some t → w_done (th_writer t) = false →
  th_pc t = Inserting g calls st → keeps d (insert_next i g calls st d).
Proof.
  intros Hinv Hh Ht Hd Hp. destruct (leader_busy d J i t Hinv Hh Ht) as (g' & G & rest & rep & infl & Hb); [rewrite Hp; intros []|].
  destruct (Hinv) as [Hc Hn _]. pose proof (b_pc _ _ _ _ _ _ _ _ _ Hb) as B. rewrite Hp in B. destruct B as (-> & -> & Hall & Hlog & Hsync).
  pose proof (b_applied _ _ _ _ _ _ _ _ _ Hb) as Ha. pose proof (k_log _ _ Hc).
  destruct calls as [|u calls]; cbn [insert_next].
  - apply (busy_step d d J i t g' G rest rep infl infl _ Hc Hn Hd Hb); try done. rewrite app_nil_r in Hall. by split.
  - apply (busy_step d _ J i t g' G rest rep infl (infl ++ [u]) _ Hc Hn Hd Hb); try done.
    + unfold applied in *. cbn. unfold memtable_add. rewrite !app_assoc in *. rewrite Ha. by destruct u.
    + split; [done|]. split; [done|]. split; [by rewrite <- app_assoc|]. by split.
Qed.

(** Only the writer at the front waits for room. *)
Lemma nobody_waits d J i t : core d J → head (writers_ d) = Some i → threads d !! i = Some t → (∀ a f, th_pc t ≠ WaitingForRoom a f) →
  map wake_room (threads d) = threads d.
Proof.
  intros Hc Hh Ht Hp. apply list_eq. intros k. rewrite list_lookup_fmap. destruct (threads d !! k) as [t'|] eqn:Hk; [|done]. cbn. f_equal.
  unfold wake_room. destruct (th_pc t') eqn:E; try done. pose proof (k_threads _ _ Hc k t' Hk) as Hok. unfold thread_ok in Hok. rewrite E in Hok.
  destruct Hok as [Hok _]. assert (k = i) as -> by congruence. assert (t' = t) as -> by congruence. by destruct (Hp allow_delay force).
Qed.

Lemma relock_spec d J i t g st e : inv d J → head (writers_ d) = Some i → threads d !! i = Some t → w_done (th_writer t) = false →
  th_pc t = Relocking g st e → keeps d (relock i g st e d).
Proof.
  intros Hinv Hh Ht Hd Hp. destruct (leader_busy d J i t Hinv Hh Ht) as (g' & G & rest & rep & infl & Hb); [rewrite Hp; intros []|].
  destruct (Hinv) as [Hc Hn _]. destruct (Hb) as [B1 B2 B3 B4 B5 B6 B7 B8 B9 B10 B11 B12]. rewrite Hp in B12. destruct B12 as [-> B12].
  unfold relock. set (d1 := if e then RecordBackgroundError st d else d). set (d2 := if g_tmp g' then set_tmp Clear d1 else d1).
  assert (∃ err, d2 = set_bg_error err (set_tmp Clear d)) as [err E2].
  { exists (if e then if ok (bg_error_ d) then st else bg_error_ d else bg_error_ d). unfold d2, d1, RecordBackgroundError.
    assert (signal_all (set_bg_error st d) = set_bg_error st d) as ->.
    { unfold signal_all. cbn [threads set_bg_error]. rewrite (nobody_waits d J i t Hc Hh Ht); [by destruct d|]. by rewrite Hp. }
    destruct (g_tmp g'); [|rewrite <- (B8 eq_refl)]; destruct e; try destruct (ok (bg_error_ d)); by destruct d. }
  clearbody d2. subst d2. unfold SetLastSequence. change (last_sequence_ (set_bg_error err (set_tmp Clear d))) with (last_sequence_ d).
  rewrite (proj2 (Z.leb_le (last_sequence_ d) (g_sequence g'))) by lia. cbn [mbind outcome_bind].
  set (d3 := set_bg_error err (set_tmp Clear d)). change (keeps d3 (finish_group i (g_last g') st (set_last_sequence (g_sequence g') d3))).
  set (rec := pred (length (log_records d))).
  assert (core d3 J) as Hc3 by (apply (core_fields d); try done; apply Hc). assert (numbered d3 J) as Hn3 by (by apply (numbered_fields d)).
  pose proof (entries_chain (infos d) (ok st) rec G (last_sequence_ d + 1)) as Hch. rewrite Z.add_simpl_r in Hch.
  apply (finish_inv d3 J i (g_last g') st G rest (entries (infos d) (last_sequence_ d + 1) (ok st) rec G)); try done.
  - apply entries_ids.
  - intros j Hj. destruct (entries_fields _ _ _ _ _ _ Hj) as (Hid & Hins & Hrec). change (served d st j). unfold served. rewrite Hins, Hrec.
    destruct (ok st) eqn:Est; [|by split_and!]. destruct B12 as (_ & Hlog & Hsync). split_and!; try done.
    + intros _. apply (entries_logged _ true rec rep (last_sequence_ d + 1) _ G []); [|done | by rewrite Z.add_0_r].
      unfold logged in Hlog. by rewrite last_lookup in Hlog.
    + intros _ _ Hs. apply Hsync. by apply (B9 (j_id j)).
  - cbn [last_sequence_ d3 set_bg_error set_tmp]. change (infos d3) with (infos d). lia.
  - rewrite B7. exact Hch.
  - change (applied d = history (infos d) (J ++ entries (infos d) (last_sequence_ d + 1) (ok st) rec G)). rewrite B11, history_app.
    destruct (ok st); [by rewrite entries_history; destruct B12 as [-> _]|]. by rewrite entries_history_none, B12.
Qed.

(** *** The other steps *)

(** A change of a thread that the phase does not look at. *)
Lemma phase_update d J k f : (∀ t, threads d !! k = Some t → info (f t) = info t ∧
    (head (writers_ d) = Some k → th_pc (f t) = th_pc t ∧ w_batch (th_writer (f t)) = w_batch (th_writer t))) →
  phase d J → phase (update_thread f k d) J.
Proof.
  intros Hf. assert (infos (update_thread f k d) = infos d) as EI by (apply infos_update; intros t Ht; by apply Hf).
  intros [Hi Ht Ha|i t g G rest rep infl Hb].
  - apply Idle; [| done | by rewrite EI]. intros i t Hh Hl. cbn in Hh, Hl. rewrite lookup_alter_thread in Hl. destruct (decide (k = i)) as [->|].
    + apply fmap_Some in Hl as (t' & Ht' & ->). destruct (Hf t' Ht') as [_ H]. rewrite (proj1 (H Hh)). by apply (Hi i).
    + by apply (Hi i).
  - pose proof (busy_head _ _ _ _ _ _ _ _ _ Hb) as Hh. destruct Hb as [B1 B2 B3 B4 B5 B6 B7 B8 B9 B10 B11 B12].
    apply (Busy _ _ i (if decide (k = i) then f t else t) g G rest rep infl).
    assert (th_pc (if decide (k = i) then f t else t) = th_pc t ∧ w_batch (th_writer (if decide (k = i) then f t else t)) = w_batch (th_writer t)) as [Ep Eb].
    { destruct (decide (k = i)) as [->|]; [by apply Hf | done]. }
    split; rewrite ?EI; try done.
    + cbn. rewrite lookup_alter_thread, B4. by destruct (decide (k = i)).
    + unfold updates_of in *. by rewrite Eb.
    + rewrite Ep. unfold busy_pc, logged, synced in *. rewrite EI. exact B12.
Qed.

(** [SignalAll] on [bg_cv_]. *)
Lemma wake_room_info t : info (wake_room t) = info t ∧ w_batch (th_writer (wake_room t)) = w_batch (th_writer t) ∧ outcome_of (wake_room t) = outcome_of t.
Proof. unfold wake_room, outcome_of. by destruct (th_pc t) eqn:E; rewrite ?E. Qed.
Lemma wake_room_ok d J k t : thread_ok d J k t → thread_ok d J k (wake_room t).
Proof. unfold wake_room, thread_ok. destruct (th_pc t) eqn:E; rewrite ?E; done. Qed.
Lemma wake_room_idle t : idle_pc (th_pc t) → idle_pc (th_pc (wake_room t)).
Proof. unfold wake_room. destruct (th_pc t) eqn:E; rewrite ?E; done. Qed.

Lemma wake_thread_inv d J i : inv d J → keeps d (Ok (update_thread wake_room i d)).
Proof.
  intros [Hc Hn Hp]. destruct (threads d !! i) as [t|] eqn:Ht; [|].
  - destruct (wake_room_info t) as (E1 & E2 & E3). assert (infos (update_thread wake_room i d) = infos d) as EI
      by (apply infos_update; intros t' Ht'; apply wake_room_info).
    exists (update_thread wake_room i d), J. split; [done|]. split; [|done]. split.
    + apply (core_update _ i d J t Hc Ht E1); [intros rep Hrep; rewrite E2 in Hrep; by apply (k_batches _ _ Hc i t) | by rewrite E3|].
      apply wake_room_ok, (k_threads _ _ Hc i t Ht).
    + by apply (numbered_fields d).
    + destruct Hp as [Hi Htmp Ha|l t' g G rest rep infl Hb].
      * apply Idle; [| done | by rewrite EI]. intros k t' Hh Hk. cbn in Hh, Hk. rewrite lookup_alter_thread in Hk. destruct (decide (i = k)) as [->|].
        -- apply fmap_Some in Hk as (t0 & Hk & ->). by apply wake_room_idle, (Hi k).
        -- by apply (Hi k).
      * apply phase_update; [|by apply (Busy _ _ l t' g G rest rep infl)]. intros t0 Ht0. split; [apply wake_room_info|]. intros Hh.
        pose proof (busy_head _ _ _ _ _ _ _ _ _ Hb) as Hh'. assert (l = i) as -> by congruence.
        pose proof (b_thread _ _ _ _ _ _ _ _ _ Hb) as E. assert (t' = t0) as -> by congruence. pose proof (b_pc _ _ _ _ _ _ _ _ _ Hb) as Hpc.
        unfold wake_room. by destruct (th_pc t0) eqn:Epc; rewrite ?Epc.
  - assert (alter wake_room i (threads d) = threads d) as E.
    { apply list_eq. intros k. rewrite lookup_alter_thread. destruct (decide (i = k)) as [<-|]; [by rewrite Ht | done]. }
    exists d, J. split; [|done]. unfold update_thread. rewrite E. by destruct d.
Qed.

Lemma keeps_then d d1 o : keeps d (Ok d1) → (∀ J1, inv d1 J1 → keeps d1 o) → keeps d o.
Proof. intros (d' & J' & [= <-] & Hinv & EI) Ho. destruct (Ho J' Hinv) as (d2 & J2 & E2 & Hinv2 & EI2). exists d2, J2. split; [done|]. split; [done|]. congruence. Qed.

Lemma signal_all_inv d J : inv d J → keeps d (Ok (signal_all d)).
Proof.
  intros Hinv. assert (∀ n d' J', inv d' J' → (∀ k, (n ≤ k)%nat → threads d' !! k = wake_room <$> threads d !! k) →
    (∀ k, (k < n)%nat → threads d' !! k = threads d !! k) → set_threads (threads d) d' = d → keeps d' (Ok (signal_all d))) as Hgo.
  { induction n as [|n IH]; intros d' J' Hinv' Hge Hlt Hd.
    - exists d', J'. split; [|done]. f_equal. unfold signal_all.
      assert (map wake_room (threads d) = threads d') as -> by (apply list_eq; intros k; rewrite list_lookup_fmap, Hge by lia; done).
      rewrite <- Hd. by destruct d'.
    - apply (keeps_then _ (update_thread wake_room n d')); [by apply (wake_thread_inv _ J')|]. intros J1 Hinv1. apply (IH _ J1 Hinv1); [| |done].
      + intros k Hk. cbn. rewrite lookup_alter_thread. destruct (decide (n = k)) as [->|]; [by rewrite Hlt by lia | by apply Hge; lia].
      + intros k Hk. cbn. rewrite lookup_alter_thread, decide_False by lia. by apply Hlt; lia. }
  apply (Hgo (length (threads d)) d J Hinv); [|done | by destruct d].
  intros k Hk. by rewrite lookup_ge_None_2.
Qed.

(** A signal, or the sleep of a writer that is neither done nor at the front. *)
Lemma signaled_inv d J i b : inv d J →
  (∀ t, threads d !! i = Some t → b = false → th_pc t = Waiting ∧ w_done (th_writer t) = false ∧ head (writers_ d) ≠ Some i) →
  keeps d (Ok (update_thread (set_signaled b) i d)).
Proof.
  intros [Hc Hn Hp] Hb. exists (update_thread (set_signaled b) i d), J. rewrite infos_signal. split; [done|]. split; [|done].
  destruct (threads d !! i) as [t|] eqn:Ht.
  - split; [| by apply (numbered_fields d); [apply infos_signal|..] | by apply phase_update].
    apply (core_update _ i d J t Hc Ht); try done; [by apply (k_batches _ _ Hc i t)|].
    pose proof (k_threads _ _ Hc i t Ht) as Hok. unfold thread_ok in *. cbn. destruct b.
    + destruct (th_pc t); try done; [by destruct Hok as (? & ? & _) | by destruct Hok as (? & ? & _)].
    + destruct (Hb t eq_refl eq_refl) as (Epc & Hd & Hh). rewrite Epc in *. destruct Hok as (? & ? & _). split; [done|]. split; [done|].
      intros [?|?]; congruence.
  - assert (alter (set_signaled b) i (threads d) = threads d) as E.
    { apply list_eq. intros k. rewrite lookup_alter_thread. destruct (decide (i = k)) as [<-|]; [by rewrite Ht | done]. }
    unfold update_thread. rewrite E. by destruct d.
Qed.

Lemma wait_spec d J i t : inv d J → threads d !! i = Some t → th_pc t = Waiting → keeps d (wait i t d).
Proof.
  intros Hinv Ht Hp. destruct (Hinv) as [Hc Hn Hph]. pose proof (k_threads _ _ Hc i t Ht) as Hok. unfold thread_ok in Hok. rewrite Hp in Hok.
  destruct Hok as (Hi & Hdone & Hsig). unfold wait. destruct (w_signaled (th_writer t)); [|by exists d, J].
  destruct (w_done (th_writer t)) eqn:Ed.
  - assert (i ∈ map j_id J) as HJ by (by apply Hdone).
    exists (goto (Returned (w_status (th_writer t))) i d), J. rewrite infos_goto. split; [done|]. split; [|done]. split.
    + apply (core_update _ i d J t Hc Ht); try done; [by apply (k_batches _ _ Hc i t)|]. intros _. unfold outcome_of. cbn. by rewrite Hp, Ed.
    + by apply (numbered_fields d); [apply infos_goto|..].
    + apply phase_update; [|done]. intros t' Ht'. split; [done|]. intros Hh%head_in_queue. by destruct (queue_disjoint d J i Hc Hh).
  - assert (i ∈ writers_ d) as Hq.
    { rewrite (k_queue _ _ Hc) in Hi. apply elem_of_app in Hi as [Hi%Hdone|Hi]; [discriminate | done]. }
    destruct (writers_ d) as [|front ws] eqn:Ew; [by apply elem_of_nil in Hq|]. case_bool_decide as E.
    + subst front. assert (head (writers_ d) = Some i) as Hh by (by rewrite Ew).
      destruct (leader_idle d J i t Hinv Hh Ht) as [Htmp Ha]; [by rewrite Hp|]. by apply (idle_goto d J i t).
    + apply (signaled_inv d J i); [done|]. intros t' Ht' _. rewrite Ht in Ht'. injection Ht' as <-. split; [done|]. split; [done|]. rewrite Ew. cbn. congruence.
Qed.

Lemma enter_spec d J i t : inv d J → threads d !! i = Some t → th_pc t = Start → keeps d (Ok (enter i d)).
Proof.
  intros [Hc Hn Hph] Ht Hp. pose proof (k_threads _ _ Hc i t Ht) as Hok. unfold thread_ok in Hok. rewrite Hp in Hok. destruct Hok as (Hi & Hd & Hs).
  set (d0 := set_arrivals (arrivals d ++ [i]) (set_writers (writers_ d ++ [i]) d)). exists (goto Waiting i d0), J. rewrite infos_goto.
  split; [done|]. split; [|done]. assert (i ∉ map j_id J) as HiJ by (intros H; apply Hi; rewrite (k_queue _ _ Hc); apply elem_of_app; by left).
  assert (∀ k, head (writers_ d) = Some k → head (writers_ d ++ [i]) = Some k) as Hhead by (by destruct (writers_ d)).
  split.
  - split; rewrite ?infos_goto; try apply Hc.
    + cbn. by rewrite (k_queue _ _ Hc), app_assoc.
    + cbn. apply NoDup_app. split; [apply Hc|]. split; [|apply NoDup_singleton]. intros k Hk ->%list_elem_of_singleton. done.
    + intros k Hk. cbn in *. rewrite length_alter. apply elem_of_app in Hk as [Hk| ->%list_elem_of_singleton]; [by apply (k_range _ _ Hc)|].
      by apply lookup_lt_Some in Ht.
    + intros k t' Hk. cbn in Hk. rewrite lookup_alter_thread in Hk. unfold thread_ok. cbn [arrivals writers_ goto update_thread set_threads d0 set_arrivals set_writers].
      destruct (decide (i = k)) as [<-|Hne].
      * rewrite Ht in Hk. injection Hk as <-. cbn. split; [apply elem_of_app; right; by left|]. rewrite Hd. done.
      * pose proof (k_threads _ _ Hc k t' Hk) as Hok. unfold thread_ok in Hok. destruct (th_pc t'); try done.
        -- destruct Hok as (H1 & H2). split; [|done]. intros [?|?%list_elem_of_singleton]%elem_of_app; [done | congruence].
        -- destruct Hok as (H1 & H2 & H3). split; [apply elem_of_app; by left|]. split; [done|]. intros [H|H]; [apply H3; by left|].
           apply H3. right. destruct (writers_ d); [cbn in H; congruence | done].
        -- by destruct Hok as [?%Hhead ?].
        -- by destruct Hok as [?%Hhead ?].
        -- by destruct Hok as [?%Hhead ?].
        -- by destruct Hok as [?%Hhead ?].
        -- by destruct Hok as [?%Hhead ?].
        -- by destruct Hok as [?%Hhead ?].
    + intros k t' Hk. cbn in Hk. rewrite lookup_alter_thread in Hk. destruct (decide (i = k)) as [<-|].
      * rewrite Ht in Hk. injection Hk as <-. by apply (k_batches _ _ Hc i t).
      * by apply (k_batches _ _ Hc k).
    + intros j Hj. destruct (k_journal _ _ Hc j Hj) as (t' & st & H1 & H2 & H3). exists t', st. unfold served in *. rewrite infos_goto. split; [|done].
      cbn. rewrite lookup_alter_thread, decide_False; [done|]. intros ->. apply HiJ. by apply list_elem_of_fmap_2.
  - by apply (numbered_fields d); [rewrite infos_goto|..].
  - destruct Hph as [Hidle Htmp Ha|l t' g G rest rep infl Hb].
    + apply Idle; [| done | by rewrite infos_goto]. intros k t' Hh Hk. cbn in Hh, Hk. rewrite lookup_alter_thread in Hk. destruct (decide (i = k)) as [<-|].
      * rewrite Ht in Hk. by injection Hk as <-.
      * apply (Hidle k); [|done]. destruct (writers_ d); [cbn in Hh; congruence | done].
    + pose proof (busy_head _ _ _ _ _ _ _ _ _ Hb) as Hh. destruct Hb as [B1 B2 B3 B4 B5 B6 B7 B8 B9 B10 B11 B12].
      assert (l ≠ i) as Hne by (intros ->; apply Hi; rewrite (k_queue _ _ Hc); apply elem_of_app; right; by apply head_in_queue).
      apply (Busy _ _ l t' g G (rest ++ [i]) rep infl). split; rewrite ?infos_goto; try done.
      * cbn. by rewrite B1, app_assoc.
      * cbn. by rewrite lookup_alter_thread, decide_False.
      * unfold busy_pc, logged, synced in *. rewrite infos_goto. exact B12.
Qed.

Lemma run_thread_spec usage wbs d J i e : inv d J → keeps d (run_thread usage wbs i e d).
Proof.
  intros Hinv. unfold run_thread. destruct (threads d !! i) as [t|] eqn:Ht; [|by exists d, J].
  pose proof (k_threads _ _ (i_core _ _ Hinv) i t Ht) as Hok. unfold thread_ok in Hok. destruct (th_pc t) eqn:Hp.
  - by apply (enter_spec d J i t).
  - by apply (wait_spec d J i t).
  - destruct Hok. apply (MakeRoomForWrite_spec usage wbs d J i t); try done. by rewrite Hp.
  - by exists d, J.
  - destruct Hok. by apply (add_record_spec d J i t).
  - destruct Hok. by apply (sync_log_spec d J i t).
  - destruct Hok. by apply (insert_next_spec d J i t).
  - destruct Hok. by apply (relock_spec d J i t).
  - by exists d, J.
Qed.

(** *** New calls and the background thread *)

Lemma phase_fields d d' J : threads d' = threads d → writers_ d' = writers_ d → tmp_batch_ d' = tmp_batch_ d → last_sequence_ d' = last_sequence_ d →
  log_records d' = log_records d → log_start d' = log_start d → durable d' = durable d → applied d' = applied d → phase d J → phase d' J.
Proof.
  intros E1 E2 E3 E4 E5 E6 E7 E8. assert (infos d' = infos d) as EI by (unfold infos; by rewrite E1).
  intros [Hi Ht Ha|i t g G rest rep infl [B1 B2 B3 B4 B5 B6 B7 B8 B9 B10 B11 B12]].
  - apply Idle; rewrite ?E1, ?E2, ?E3, ?E8, ?EI; done.
  - apply (Busy _ _ i t g G rest rep infl). split; rewrite ?E1, ?E2, ?E3, ?E4, ?E8, ?EI; try done.
    + unfold updates_of in *. by rewrite E3.
    + unfold busy_pc, logged, synced in *. revert B12. destruct (th_pc t); by rewrite ?EI, ?E4, ?E5, ?E6, ?E7.
Qed.

Section more_calls.
Context (I l : list (list update * bool * bool)).

Lemma upds_more i : (i < length I)%nat → upds (I ++ l) i = upds I i.
Proof. intros H. unfold upds. by rewrite lookup_app_l. Qed.
Lemma sync_more i : (i < length I)%nat → sync_of (I ++ l) i = sync_of I i.
Proof. intros H. unfold sync_of. by rewrite lookup_app_l. Qed.
Lemma null_more i : (i < length I)%nat → null_of (I ++ l) i = null_of I i.
Proof. intros H. unfold null_of. by rewrite lookup_app_l. Qed.

Lemma group_updates_more G : (∀ i, i ∈ G → (i < length I)%nat) → group_updates (I ++ l) G = group_updates I G.
Proof.
  unfold group_updates. induction G as [|i G IH]; intros H; [done|]. cbn [map concat]. rewrite upds_more by (apply H; by left).
  rewrite IH; [done|]. intros k Hk. apply H. by right.
Qed.

Lemma history_more J : (∀ j, j ∈ J → (j_id j < length I)%nat) → history (I ++ l) J = history I J.
Proof.
  unfold history. induction J as [|j J IH]; intros H; [done|]. cbn [map concat]. unfold j_updates at 1 3. rewrite upds_more by (apply H; by left).
  rewrite IH; [done|]. intros k Hk. apply H. by right.
Qed.

Lemma chain_more J : (∀ j, j ∈ J → (j_id j < length I)%nat) → ∀ lo hi, chain I lo J hi → chain (I ++ l) lo J hi.
Proof.
  induction J as [|j J IH]; intros H lo hi Hc; [done|]. cbn [chain] in *. rewrite upds_more by (apply H; by left).
  assert (∀ j, j ∈ J → (j_id j < length I)%nat) as H' by (intros k Hk; apply H; by right).
  destruct (j_inserted j); [destruct Hc; split; [done|]|]; by apply IH.
Qed.

Lemma logged_more logs j : (j_id j < length I)%nat → logged_at I logs j → logged_at (I ++ l) logs j.
Proof. intros H (rep & seq & pre & post & Hr & Hb & Hs). exists rep, seq, pre, post. by rewrite upds_more. Qed.
End more_calls.

Definition call_info (a : action) : list (list update * bool * bool) :=
  match a with Call b s => [(batch_updates b, s, bool_decide (b = None))] | _ => [] end.
Definition call_ok (a : action) : Prop :=
  match a with Call (Some rep) _ => ∃ seq us, batch_repr rep seq us ∧ blen rep < 2 ^ 63 | _ => True end.

Lemma call_spec d J b s : inv d J → call_ok (Call b s) → Z.of_nat (total (infos d ++ call_info (Call b s))) ≤ kMaxSequenceNumber →
  let d' := set_threads (threads d ++ [mkThread (mkWriter status_ok b s false true) Start]) d in
  inv d' J ∧ infos d' = infos d ++ call_info (Call b s).
Proof.
  intros [Hc Hn Hp] Hok Ht d'. set (x := call_info (Call b s)) in *.
  assert (infos d' = infos d ++ x) as EI by (unfold infos; cbn; by rewrite map_app). split; [|done].
  assert (length (infos d) = length (threads d)) as El by apply length_map.
  assert (∀ i, i ∈ arrivals d → (i < length (infos d))%nat) as Hr by (intros i Hi; rewrite El; by apply (k_range _ _ Hc)).
  assert (∀ j, j ∈ J → (j_id j < length (infos d))%nat) as HrJ.
  { intros j Hj. apply Hr. rewrite (k_queue _ _ Hc). apply elem_of_app. left. by apply list_elem_of_fmap_2. }
  assert (∀ i t, threads d !! i = Some t → threads d' !! i = Some t) as Hkeep by (intros i t Hi; cbn; by apply lookup_app_l_Some).
  assert (∀ i t, threads d' !! i = Some t → threads d !! i = Some t ∨ i = length (threads d) ∧ t = mkThread (mkWriter status_ok b s false true) Start) as Hinv.
  { intros i t Hi. cbn in Hi. apply lookup_app_Some in Hi as [Hi|[Hge Hi]]; [by left|]. right. apply list_lookup_singleton_Some in Hi as [E <-].
    split; [lia | done]. }
  split.
  - split; rewrite ?EI; try done; try apply Hc.
    + intros i Hi. cbn. rewrite length_app. apply (k_range _ _ Hc) in Hi. lia.
    + intros i t [Hi|[-> ->]]%Hinv; [by apply (k_threads _ _ Hc)|]. cbn. split; [|done]. intros Hi%(k_range _ _ Hc). lia.
    + intros i t [Hi|[-> ->]]%Hinv; [by apply (k_batches _ _ Hc i)|]. intros rep Hrep. cbn in Hrep. subst b. exact Hok.
    + intros j Hj. destruct (k_journal _ _ Hc j Hj) as (t & st & H1 & H2 & S1 & S2 & S3 & S4). exists t, st. split; [by apply Hkeep|]. split; [done|].
      specialize (HrJ j Hj). unfold served. rewrite EI, null_more, sync_more by done. split_and!; [done | done | | done].
      intros H. apply logged_more; [done|]. by apply S3.
  - destruct Hn as [Hn1 Hn2]. split; rewrite EI; [by apply chain_more|]. rewrite group_updates_more; [done|].
    intros i Hi. apply list_elem_of_fmap in Hi as (j & -> & Hj). by apply HrJ.
  - destruct Hp as [Hi Htmp Ha|i t g G rest rep infl [B1 B2 B3 B4 B5 B6 B7 B8 B9 B10 B11 B12]].
    + apply Idle; [| done | rewrite EI, history_more; done]. intros i t Hh [Hl|[-> ->]]%Hinv; [by apply (Hi i)|]. exfalso.
      assert (length (threads d) ∈ arrivals d) as H by (rewrite (k_queue _ _ Hc); apply elem_of_app; right; by apply head_in_queue).
      apply (k_range _ _ Hc) in H. lia.
    + assert (∀ k, k ∈ G → (k < length (infos d))%nat) as HrG.
      { intros k Hk. apply Hr. rewrite (k_queue _ _ Hc), B1. apply elem_of_app. right. apply elem_of_app. by left. }
      assert (i < length (infos d))%nat as Hlt by (rewrite El; by apply lookup_lt_Some in B4).
      apply (Busy _ _ i t g G rest rep infl). split; rewrite ?EI, ?group_updates_more, ?history_more, ?null_more by done; try done; [by apply Hkeep| |].
      * intros k Hk. rewrite !sync_more by (done || by apply HrG). by apply B9.
      * unfold busy_pc, logged, synced in *. revert B12. destruct (th_pc t); by rewrite ?EI, ?sync_more.
Qed.

(** Changes of fields that the invariant does not look at. *)
Lemma fields_inv d d' J : inv d J → threads d' = threads d → writers_ d' = writers_ d → arrivals d' = arrivals d → tmp_batch_ d' = tmp_batch_ d →
  last_sequence_ d' = last_sequence_ d → log_records d' = log_records d → log_start d' = log_start d → durable d' = durable d → applied d' = applied d →
  keeps d (Ok d').
Proof.
  intros [Hc Hn Hp] E1 E2 E3 E4 E5 E6 E7 E8 E9. exists d', J. assert (infos d' = infos d) as EI by (unfold infos; by rewrite E1).
  split; [done|]. split; [|done]. split; [|by apply (numbered_fields d)|by apply (phase_fields d)].
  apply (core_fields d); rewrite ?E6, ?E7, ?E8; try done. apply Hc.
Qed.

Lemma MaybeScheduleCompaction_inv d J : inv d J → keeps d (Ok (MaybeScheduleCompaction d)).
Proof. intros Hinv. destruct (MaybeScheduleCompaction_bg d) as [b ->]. by apply (fields_inv d _ J). Qed.

Lemma finish_background_inv d J : inv d J → keeps d (Ok (finish_background d)).
Proof.
  intros Hinv. unfold finish_background. set (d1 := set_scheduled false (set_bg_pc BgIdle d)).
  apply (keeps_then _ d1); [by apply (fields_inv d _ J)|]. intros J1 Hinv1.
  apply (keeps_then _ (MaybeScheduleCompaction d1)); [by apply (MaybeScheduleCompaction_inv d1 J1)|]. intros J2. apply signal_all_inv.
Qed.

Lemma RecordBackgroundError_inv d J s : inv d J → keeps d (Ok (RecordBackgroundError s d)).
Proof.
  intros Hinv. unfold RecordBackgroundError. destruct (ok (bg_error_ d)); [|by exists d, J].
  apply (keeps_then _ (set_bg_error s d)); [by apply (fields_inv d _ J)|]. intros J1. apply signal_all_inv.
Qed.

Lemma BackgroundCall_inv d J : inv d J → keeps d (Ok (BackgroundCall d)).
Proof.
  intros Hinv. assert (keeps d (Ok d)) as Hsame by (by exists d, J). unfold BackgroundCall. destruct (bg_pc (bg d)); try done.
  destruct (bg_compaction_scheduled_ (bg d)); [|done]. destruct (negb _); [by apply (finish_background_inv d J) | by apply (fields_inv d _ J)].
Qed.

Lemma CompactMemTable_inv d J st n other : inv d J → keeps d (Ok (CompactMemTable st n other d)).
Proof.
  intros Hinv. assert (keeps d (Ok d)) as Hsame by (by exists d, J). unfold CompactMemTable. destruct (imm_ d) as [m|] eqn:Em; [|by destruct (bg_pc (bg d))].
  set (d1 := if ok st then _ else _). assert (keeps d (Ok d1)) as Hd1.
  { unfold d1. destruct (ok st); [|by apply (RecordBackgroundError_inv d J)]. apply (fields_inv d _ J); try done. unfold applied. cbn. by rewrite Em, <- app_assoc. }
  destruct (bg_pc (bg d)); [done|..]; (apply (keeps_then _ d1); [done|]); intros J1 Hinv1; [by apply (finish_background_inv d1 J1) | by apply (signal_all_inv d1 J1)].
Qed.

Lemma BackgroundCompaction_inv d J st n other : inv d J → keeps d (Ok (BackgroundCompaction st n other d)).
Proof.
  intros Hinv. assert (keeps d (Ok d)) as Hsame by (by exists d, J). unfold BackgroundCompaction. destruct (bg_pc (bg d)); try done.
  set (d1 := if ok st then _ else _). apply (keeps_then _ d1).
  { unfold d1. destruct (ok st); [by apply (fields_inv d _ J) | by apply (RecordBackgroundError_inv d J)]. }
  intros J1 Hinv1. apply (keeps_then _ (set_manual false d1)); [by apply (fields_inv d1 _ J1)|]. intros J2. apply finish_background_inv.
Qed.

Lemma step_spec usage wbs a d J : inv d J → call_ok a → Z.of_nat (total (infos d ++ call_info a)) ≤ kMaxSequenceNumber →
  ∃ d' J', step usage wbs a d = Ok d' ∧ inv d' J' ∧ infos d' = infos d ++ call_info a.
Proof.
  intros Hinv Hok Ht. assert (∀ o, call_info a = [] → keeps d o → ∃ d' J', o = Ok d' ∧ inv d' J' ∧ infos d' = infos d ++ call_info a) as Hkeeps.
  { intros o -> (d' & J' & ? & ? & ?). exists d', J'. by rewrite app_nil_r. }
  destruct a as [b s|i e|i| | | |st n other|st n other]; cbn [step].
  - destruct (call_spec d J b s Hinv Hok Ht). by eexists _, J.
  - apply Hkeeps; [done|]. by apply (run_thread_spec usage wbs d J).
  - apply Hkeeps; [done|]. apply (keeps_then _ (signal i d)); [by apply (signaled_inv d J)|]. intros J1. apply wake_thread_inv.
  - apply Hkeeps; [done|]. apply (keeps_then _ (set_other true d)); [by apply (fields_inv _ _ J)|]. intros J1. apply MaybeScheduleCompaction_inv.
  - apply Hkeeps; [done|]. destruct (manual_compaction_ (bg d)); [by exists d, J|].
    apply (keeps_then _ (set_manual true d)); [by apply (fields_inv _ _ J)|]. intros J1. apply MaybeScheduleCompaction_inv.
  - apply Hkeeps; [done|]. by apply (BackgroundCall_inv d J).
  - apply Hkeeps; [done|]. by apply (CompactMemTable_inv d J).
  - apply Hkeeps; [done|]. by apply (BackgroundCompaction_inv d J).
Qed.

Lemma initial_inv n : inv (initial n) [].
Proof.
  split.
  - split; try done; try apply NoDup_nil_2; intros i Hi; by apply elem_of_nil in Hi.
  - by split.
  - by apply Idle.
Qed.

Lemma run_spec usage wbs actions : ∀ d J, inv d J → Forall call_ok actions →
  Z.of_nat (total (infos d ++ concat (map call_info actions))) ≤ kMaxSequenceNumber →
  ∃ d' J', run usage wbs actions d = Ok d' ∧ inv d' J' ∧ infos d' = infos d ++ concat (map call_info actions).
Proof.
  induction actions as [|a actions IH]; intros d J Hinv Hok Ht; [exists d, J; by rewrite app_nil_r|].
  apply Forall_cons in Hok as [Ha Hok]. cbn [map concat] in *. rewrite app_assoc in Ht |- *.
  destruct (step_spec usage wbs a d J Hinv Ha) as (d1 & J1 & E & Hinv1 & EI).
  { unfold total in *. rewrite map_app, list_sum_app in Ht. lia. }
  unfold run. cbn [for_loop]. rewrite E. cbn [mbind outcome_bind]. rewrite <- EI in Ht |- *. by apply (IH d1 J1).
Qed.

(** ** Properties *)

(** What the state of the database says about the calls of [Write]. *)
Record consistent (d : db) (J : list j_entry) : Prop := mkConsistent {
  c_order : arrivals d = map j_id J ++ writers_ d ∧ NoDup (arrivals d);
  c_sequence : chain (infos d) 0 J (last_sequence_ d);
  c_applied : ∃ inflight, applied d = history (infos d) J ++ inflight ∧ ∀ u, u ∈ inflight → last_sequence_ d < u_seq u;
  c_served : ∀ i t st, threads d !! i = Some t → outcome_of t = Some st → ∃ j, j ∈ J ∧ j_id j = i ∧ served d st j;
  c_wakeup : ∀ i t, threads d !! i = Some t → th_pc t = Waiting → w_done (th_writer t) = true ∨ head (writers_ d) = Some i →
    w_signaled (th_writer t) = true
}.

Lemma inflight_range p d i g us rep infl u : busy_pc d i p g us rep infl → u ∈ infl → last_sequence_ d < u_seq u.
Proof.
  assert (u ∈ stamp (last_sequence_ d + 1) us → last_sequence_ d < u_seq u) as Hr by (intros [? _]%stamp_range; lia).
  destruct p; cbn [busy_pc]; try done; intros H Hu.
  - destruct H as [_ ->]. by apply elem_of_nil in Hu.
  - destruct H as (_ & -> & _). by apply elem_of_nil in Hu.
  - destruct H as (_ & _ & E & _). apply Hr. rewrite <- E. apply elem_of_app. by left.
  - destruct H as [_ H]. destruct (ok st); [destruct H as [-> _]; by apply Hr | subst; by apply elem_of_nil in Hu].
Qed.

Lemma inv_consistent d J : inv d J → consistent d J.
Proof.
  intros [Hc Hn Hp]. split.
  - split; apply Hc.
  - apply Hn.
  - destruct Hp as [_ _ Ha|i t g G rest rep infl Hb]; [exists []; rewrite app_nil_r; split; [done|]; intros u Hu; by apply elem_of_nil in Hu|].
    exists infl. split; [apply Hb|]. intros u Hu. by apply (inflight_range _ _ _ _ _ _ _ _ (b_pc _ _ _ _ _ _ _ _ _ Hb)).
  - intros i t st Ht Ho. pose proof (k_threads _ _ Hc i t Ht) as Hok. assert (i ∈ map j_id J) as Hi.
    { unfold thread_ok, outcome_of in *. destruct (th_pc t); try done. destruct (w_done (th_writer t)) eqn:E; [|done]. by apply Hok. }
    apply list_elem_of_fmap in Hi as (j & -> & Hj). destruct (k_journal _ _ Hc j Hj) as (t' & st' & H1 & H2 & H3). exists j. split; [done|]. split; [done|]. congruence.
  - intros i t Ht Hpc. pose proof (k_threads _ _ Hc i t Ht) as Hok. unfold thread_ok in Hok. rewrite Hpc in Hok. apply Hok.
Qed.

(** *** Wake-ups of the leader *)

(** The background thread is scheduled when there is work, and nobody waits for room
    without a reason that the background thread will remove. *)
Record bg_pre (d : db) : Prop := mkBgPre {
  g_running : bg_pc (bg d) ≠ BgIdle → bg_compaction_scheduled_ (bg d) = true;
  g_memtable : bg_pc (bg d) = BgMemTable → has_imm d = true;
  g_room : ∀ i t a f, threads d !! i = Some t → th_pc t = WaitingForRoom a f →
    ok (bg_error_ d) = true ∧ (has_imm d = true ∨ kL0_StopWritesTrigger ≤ level0_files d)
}.
Definition work_scheduled (d : db) : Prop :=
  ok (bg_error_ d) = true → has_imm d || manual_compaction_ (bg d) || NeedsCompaction d = true → bg_compaction_scheduled_ (bg d) = true.
Definition bg_ok (d : db) : Prop := bg_pre d ∧ work_scheduled d.

(** Steps that leave alone what the background thread looks at. *)
Record quiet_step (d d' : db) : Prop := mkQuiet {
  q_bg : bg d' = bg d;
  q_imm : has_imm d' = has_imm d;
  q_error : bg_error_ d' = bg_error_ d;
  q_level0 : level0_files d' = level0_files d;
  q_room : ∀ i t a f, threads d' !! i = Some t → th_pc t = WaitingForRoom a f → ∃ t', threads d !! i = Some t' ∧ th_pc t' = WaitingForRoom a f
}.
Definition quiet_out (d : db) (o : outcome db) : Prop := ∀ d', o = Ok d' → quiet_step d d'.

Lemma quiet_bg_ok d d' : quiet_step d d' → bg_ok d → bg_ok d'.
Proof.
  intros [E1 E2 E3 E4 Hr] [[H1 H2 H3] H4]. split; [split|]; unfold work_scheduled, NeedsCompaction in *; rewrite ?E1, ?E2, ?E3, ?E4; try done.
  intros i t a f Hi Hp. destruct (Hr i t a f Hi Hp) as (t' & Hi' & Hp'). by apply (H3 i t' a f).
Qed.

Lemma quiet_refl d : quiet_step d d.
Proof. split; try done. by intros; eexists. Qed.
Lemma quiet_fields d d' : bg d' = bg d → has_imm d' = has_imm d → bg_error_ d' = bg_error_ d → level0_files d' = level0_files d → threads d' = threads d → quiet_step d d'.
Proof. intros E1 E2 E3 E4 E5. split; try done. rewrite E5. by intros; eexists. Qed.
Lemma quiet_step_trans d d1 d2 : quiet_step d d1 → quiet_step d1 d2 → quiet_step d d2.
Proof.
  intros [A1 A2 A3 A4 A5] [B1 B2 B3 B4 B5]. split; try congruence. intros i t a f Hi Hp.
  destruct (B5 i t a f Hi Hp) as (t1 & Hi1 & Hp1). by apply (A5 i t1).
Qed.
Lemma quiet_update f i d : (∀ t a b, th_pc (f t) = WaitingForRoom a b → th_pc t = WaitingForRoom a b) → quiet_step d (update_thread f i d).
Proof.
  intros Hf. split; try done. intros k t a b Hk Hp. cbn in Hk. rewrite lookup_alter_thread in Hk. destruct (decide (i = k)); [|by eexists].
  apply fmap_Some in Hk as (t' & Hk & ->). exists t'. split; [done|]. by apply Hf.
Qed.
Lemma quiet_goto p i d : (∀ a b, p ≠ WaitingForRoom a b) → quiet_step d (goto p i d).
Proof. intros Hp. apply quiet_update. intros t a b E. by destruct (Hp a b). Qed.
Lemma quiet_bind {A} d (o : outcome A) (k : A → outcome db) : (∀ x, quiet_out d (k x)) → quiet_out d (x ← o; k x).
Proof. intros Hk d'. destruct o as [x| | |]; cbn; try done. apply Hk. Qed.
Lemma quiet_ok d d' : quiet_step d d' → quiet_out d (Ok d').
Proof. intros H d2 [= <-]. done. Qed.
Lemma quiet_after d d1 o : quiet_step d d1 → quiet_out d1 o → quiet_out d o.
Proof. intros H1 H2 d' Ho. apply (quiet_step_trans _ d1); [done|]. by apply H2. Qed.

Lemma pop_group_quiet self l st ws : ∀ d, quiet_out d (pop_group self l st ws d).
Proof.
  induction ws as [|r ws IH]; intros d; cbn [pop_group]; [done|].
  set (d1 := if bool_decide (r = self) then _ else _). assert (quiet_step d d1) as H1.
  { unfold d1. case_bool_decide; [by apply quiet_fields|]. apply (quiet_step_trans _ (set_writers ws d)); [by apply quiet_fields | by apply quiet_update]. }
  case_bool_decide; [by apply quiet_ok | by apply (quiet_after _ d1)].
Qed.
Lemma finish_group_quiet self l st d : quiet_out d (finish_group self l st d).
Proof.
  unfold finish_group. intros d'. destruct (pop_group self l st (writers_ d) d) as [d1| | |] eqn:E; cbn [mbind outcome_bind]; try done. intros [= <-].
  apply (quiet_step_trans _ d1); [by apply pop_group_quiet in E|]. destruct (writers_ d1); [by apply quiet_goto|].
  eapply quiet_step_trans; [|by apply quiet_goto]. by apply quiet_update.
Qed.
Lemma start_group_quiet i st d : quiet_out d (start_group i st d).
Proof.
  unfold start_group. apply quiet_bind. intros t. destruct (w_batch (th_writer t)); [|apply finish_group_quiet]. destruct (ok st); [|apply finish_group_quiet].
  apply quiet_bind. intros r. apply quiet_bind. intros up. apply quiet_bind. intros n. apply quiet_ok.
  eapply quiet_step_trans; [|by apply quiet_goto]. case_bool_decide; [by apply quiet_fields | by apply quiet_update].
Qed.
Lemma goto_after_quiet p i d d1 : quiet_step d d1 → (∀ a b, p ≠ WaitingForRoom a b) → quiet_out d (Ok (goto p i d1)).
Proof. intros H1 Hp. apply quiet_ok. apply (quiet_step_trans _ d1); [done | by apply quiet_goto]. Qed.
Lemma add_record_quiet i g e d : quiet_out d (add_record i g e d).
Proof.
  unfold add_record. apply quiet_bind. intros t. apply quiet_bind. intros up. destruct (ok _); [|by apply goto_after_quiet; [apply quiet_refl|]].
  destruct (w_sync _); [by apply goto_after_quiet; [by apply quiet_fields|]|]. apply quiet_bind. intros r. apply goto_after_quiet; [by apply quiet_fields | done].
Qed.
Lemma sync_log_quiet i g e d : quiet_out d (sync_log i g e d).
Proof.
  unfold sync_log. apply quiet_bind. intros t. apply quiet_bind. intros up. destruct (ok _); [|by apply goto_after_quiet; [apply quiet_refl|]].
  apply quiet_bind. intros r. apply goto_after_quiet; [by apply quiet_fields | done].
Qed.
Lemma insert_next_quiet i g calls st d : quiet_out d (insert_next i g calls st d).
Proof. unfold insert_next. destruct calls; apply goto_after_quiet; (done || apply quiet_refl || by apply quiet_fields). Qed.
Lemma wait_quiet i t d : quiet_out d (wait i t d).
Proof.
  unfold wait. destruct (w_signaled _); [|apply quiet_ok, quiet_refl]. destruct (w_done _); [apply goto_after_quiet; [apply quiet_refl | done]|].
  destruct (writers_ d); [done|]. case_bool_decide; [apply goto_after_quiet; [apply quiet_refl | done] | by apply quiet_ok, quiet_update].
Qed.
Lemma enter_quiet i d : quiet_step d (enter i d).
Proof. unfold enter. eapply quiet_step_trans; [|by apply quiet_goto]. by apply quiet_fields. Qed.

Lemma signal_all_room d i t a f : threads (signal_all d) !! i = Some t → th_pc t ≠ WaitingForRoom a f.
Proof.
  cbn. rewrite list_lookup_fmap. destruct (threads d !! i) as [t'|]; [|done]. cbn. intros [= <-]. unfold wake_room. destruct (th_pc t') eqn:E; cbn; congruence.
Qed.

Lemma RecordBackgroundError_ok s d : bg_ok d → bg_ok (RecordBackgroundError s d).
Proof.
  intros Hok. pose proof Hok as [[H1 H2 H3] H4]. unfold RecordBackgroundError. destruct (ok (bg_error_ d)) eqn:Eok; [|done].
  split; [split; [exact H1 | exact H2 |] |].
  - intros i t a f Hi Hp. destruct (signal_all_room _ _ _ a f Hi Hp).
  - intros _ Hw. by apply H4.
Qed.

Lemma MaybeScheduleCompaction_ok d : bg_pre d → bg_ok (MaybeScheduleCompaction d).
Proof.
  intros Hpre. assert (∀ Q : Prop, Q → bg_pre d ∧ Q) as Hsame by done. unfold MaybeScheduleCompaction.
  destruct (bg_compaction_scheduled_ (bg d)) eqn:Es; [apply Hsame; intros _ _; exact Es|].
  destruct (ok (bg_error_ d)) eqn:Eok; cbn [negb]; [|apply Hsame; unfold work_scheduled; congruence].
  destruct (negb (has_imm d) && _ && _) eqn:Ew.
  - apply Hsame. intros _ Hw. destruct (has_imm d), (manual_compaction_ (bg d)), (NeedsCompaction d); done.
  - split; [split; [done | exact (g_memtable _ Hpre) | exact (g_room _ Hpre)] | done].
Qed.

Lemma signal_all_ok d : bg_pc (bg d) ≠ BgMemTable → (bg_pc (bg d) ≠ BgIdle → bg_compaction_scheduled_ (bg d) = true) → work_scheduled d → bg_ok (signal_all d).
Proof.
  intros H1 H2 H3. split; [split|].
  - exact H2.
  - intros E. by destruct H1.
  - intros i t a f Hi Hp. destruct (signal_all_room _ _ _ a f Hi Hp).
  - exact H3.
Qed.

Lemma finish_background_ok d : bg_ok (finish_background d).
Proof.
  unfold finish_background. set (d1 := set_scheduled false (set_bg_pc BgIdle d)). set (d2 := MaybeScheduleCompaction d1).
  assert (bg_pc (bg d2) = BgIdle) as Epc.
  { unfold d2, MaybeScheduleCompaction. cbn. destruct (negb (ok _)); [done|]. by destruct (_ && _). }
  apply signal_all_ok; [by rewrite Epc | by rewrite Epc |]. unfold work_scheduled, d2, MaybeScheduleCompaction.
  change (bg_compaction_scheduled_ (bg d1)) with false. cbv iota.
  destruct (ok (bg_error_ d1)) eqn:Eok; cbn [negb]; [|congruence]. destruct (negb (has_imm d1) && _ && _) eqn:Ew; [|done].
  intros _ Hw. destruct (has_imm d1), (manual_compaction_ (bg d1)), (NeedsCompaction d1); done.
Qed.

Lemma BackgroundCall_ok d : bg_ok d → bg_ok (BackgroundCall d).
Proof.
  intros Hok. unfold BackgroundCall. destruct (bg_pc (bg d)) eqn:Epc; try done. destruct (bg_compaction_scheduled_ (bg d)) eqn:Es; [|done].
  destruct (negb _); [apply finish_background_ok|]. destruct Hok as [[H1 H2 H3] H4].
  split; [split; [done | | exact H3] | exact H4]. cbn. change (has_imm (set_bg_pc ?p d)) with (has_imm d). by destruct (has_imm d).
Qed.

Lemma CompactMemTable_ok st n other d : bg_ok d → bg_ok (CompactMemTable st n other d).
Proof.
  intros Hok. unfold CompactMemTable. destruct (imm_ d) as [m|]; destruct (bg_pc (bg d)) eqn:Epc; try done; [apply finish_background_ok|].
  set (d1 := if ok st then _ else _). assert (bg_compaction_scheduled_ (bg d1) = true ∧ bg_pc (bg d1) = BgCompacting) as [E1 E2].
  { pose proof (g_running _ (proj1 Hok)) as Hr. rewrite Epc in Hr. unfold d1, RecordBackgroundError. destruct (ok st); [|destruct (ok (bg_error_ d))]; cbn; by rewrite Epc, Hr. }
  apply signal_all_ok; [by rewrite E2 | by rewrite E1 | by intros _ _].
Qed.

Lemma BackgroundCompaction_ok st n other d : bg_ok d → bg_ok (BackgroundCompaction st n other d).
Proof. intros Hok. unfold BackgroundCompaction. destruct (bg_pc (bg d)); try done. apply finish_background_ok. Qed.

Lemma waits_for_room_ok i a f d : bg_ok d → ok (bg_error_ d) = true → has_imm d = true ∨ kL0_StopWritesTrigger ≤ level0_files d →
  bg_ok (goto (WaitingForRoom a f) i d).
Proof.
  intros [[H1 H2 H3] H4] Hok Hw. split; [split; try done | done].
Qed.

Lemma MakeRoomForWrite_ok usage wbs i a f e d d' : bg_ok d → MakeRoomForWrite usage wbs i a f e d = Ok d' → bg_ok d'.
Proof.
  intros Hok. unfold MakeRoomForWrite. destruct (ok (bg_error_ d)) eqn:Eok; cbn [negb]; [|intros H; by apply (quiet_bg_ok d); [apply start_group_quiet in H|]].
  destruct (a && _); [intros [= <-]; apply (quiet_bg_ok d); [by apply quiet_goto | done]|].
  destruct (negb f && _); [intros H; by apply (quiet_bg_ok d); [apply start_group_quiet in H|]|].
  destruct (imm_ d) as [m|] eqn:Eimm; [intros [= <-]; apply waits_for_room_ok; [done | done | left; unfold has_imm; by rewrite Eimm]|].
  destruct (Z.leb_spec kL0_StopWritesTrigger (level0_files d)); [intros [= <-]; apply waits_for_room_ok; [done | done | by right]|].
  unfold NewFileNumber. destruct (ok (new_log_status e)).
  - intros [= <-]. eapply quiet_bg_ok; [by apply quiet_goto|]. apply MaybeScheduleCompaction_ok. destruct Hok as [[H1 H2 H3] H4]. split; [done | done |].
    intros k t b g Hk Hp. destruct (H3 k t b g Hk Hp) as [? _]. split; [done | by left].
  - intros H1. apply start_group_quiet in H1. apply (quiet_bg_ok d); [|done]. eapply quiet_step_trans; [|exact H1]. unfold ReuseFileNumber.
    destruct (_ =? _); by apply quiet_fields.
Qed.

Lemma relock_ok i g st e d d' : bg_ok d → relock i g st e d = Ok d' → bg_ok d'.
Proof.
  intros Hok. unfold relock. set (d1 := if e then RecordBackgroundError st d else d). assert (bg_ok d1) as H1 by (unfold d1; destruct e; [by apply RecordBackgroundError_ok | done]).
  clearbody d1. intros H. apply (quiet_bg_ok d1); [|done]. revert H. set (d2 := if g_tmp g then set_tmp Clear d1 else d1).
  assert (quiet_step d1 d2) as H2 by (unfold d2; destruct (g_tmp g); [by apply quiet_fields | apply quiet_refl]). clearbody d2.
  unfold SetLastSequence. destruct (_ <=? _); [|done]. cbn [mbind outcome_bind]. intros H%finish_group_quiet. eapply quiet_step_trans; [exact H2|].
  eapply quiet_step_trans; [|exact H]. by apply quiet_fields.
Qed.

Lemma step_bg_ok usage wbs a d d' : bg_ok d → step usage wbs a d = Ok d' → bg_ok d'.
Proof.
  intros Hok. assert (∀ o, quiet_out d o → o = Ok d' → bg_ok d') as Hq by (intros o Ho E; apply (quiet_bg_ok d); [by apply Ho | done]).
  destruct a as [b s|i e|i| | | |st n other|st n other]; cbn [step].
  - apply Hq, quiet_ok. split; try done. intros i t a f Hi Hp. cbn in Hi. apply lookup_app_Some in Hi as [Hi|[_ Hi]]; [by eexists|].
    apply list_lookup_singleton_Some in Hi as [_ <-]. done.
  - unfold run_thread. destruct (threads d !! i) as [t|]; [|by apply Hq, quiet_ok, quiet_refl]. destruct (th_pc t).
    + apply Hq, quiet_ok, enter_quiet.
    + apply Hq, wait_quiet.
    + by apply MakeRoomForWrite_ok.
    + apply Hq, quiet_ok, quiet_refl.
    + apply Hq, add_record_quiet.
    + apply Hq, sync_log_quiet.
    + apply Hq, insert_next_quiet.
    + by apply relock_ok.
    + apply Hq, quiet_ok, quiet_refl.
  - apply Hq, quiet_ok. eapply quiet_step_trans; [by apply (quiet_update (set_signaled true) i)|]. apply quiet_update. intros t a f. unfold wake_room. by destruct (th_pc t) eqn:E; cbn; rewrite ?E.
  - intros [= <-]. apply MaybeScheduleCompaction_ok. destruct Hok as [[H1 H2 H3] _]. by split.
  - intros [= <-]. destruct (manual_compaction_ (bg d)); [done|]. apply MaybeScheduleCompaction_ok. destruct Hok as [[H1 H2 H3] _]. by split.
  - intros [= <-]. by apply BackgroundCall_ok.
  - intros [= <-]. by apply CompactMemTable_ok.
  - intros [= <-]. by apply BackgroundCompaction_ok.
Qed.

Lemma initial_bg_ok n : bg_ok (initial n).
Proof. split; [split|]; try done. Qed.

Lemma run_bg_ok usage wbs actions : ∀ d d', bg_ok d → run usage wbs actions d = Ok d' → bg_ok d'.
Proof.
  induction actions as [|a actions IH]; intros d d' Hok; unfold run; cbn [for_loop]; [by intros [= <-]|].
  destruct (step usage wbs a d) as [d1| | |] eqn:E; cbn [mbind outcome_bind]; try done. apply (IH d1). by apply (step_bg_ok usage wbs a d).
Qed.

(** *** The queue drains *)

Definition io_ok := mkIo status_ok status_ok status_ok.

Lemma pop_group_queue self l st ws : ∀ d d', pop_group self l st ws d = Ok d' →
  (length (writers_ d') < length ws)%nat ∧ arrivals d' = arrivals d.
Proof.
  induction ws as [|r ws IH]; intros d d'; cbn [pop_group length]; [done|].
  set (d1 := if bool_decide (r = self) then set_writers ws d else update_thread (finish_writer st) r (set_writers ws d)).
  assert (writers_ d1 = ws ∧ arrivals d1 = arrivals d) as [E1 E2] by (unfold d1; by case_bool_decide). case_bool_decide.
  - intros [= <-]. rewrite E1. split; [lia | done].
  - intros [Hl Ha]%IH. rewrite E2 in Ha. split; [lia | done].
Qed.

Lemma finish_group_queue i l st d d' : finish_group i l st d = Ok d' →
  (length (writers_ d') < length (writers_ d))%nat ∧ arrivals d' = arrivals d.
Proof.
  unfold finish_group. destruct (pop_group i l st (writers_ d) d) as [d1| | |] eqn:E; try done. cbn [mbind outcome_bind]. intros [= <-].
  apply pop_group_queue in E. by destruct (writers_ d1) eqn:E1; cbn; rewrite E1.
Qed.

Section drain.
Context (usage : list upd → Z) (write_buffer_size : Z) (Husage : usage [] ≤ write_buffer_size).
Notation run := (run usage write_buffer_size).

(** The threads that are already there go on, their file operations succeed, and nobody
    wakes up without a signal. *)
Definition own (a : action) : Prop :=
  match a with
  | Run _ e => e = io_ok
  | BgCall => True
  | BgCompactMemTable st _ _ | BgCompaction st _ _ => st = status_ok
  | _ => False
  end.
Definition sound (d : db) : Prop := (∃ J, inv d J) ∧ bg_ok d.

Lemma step_sound a d d' : sound d → own a → step usage write_buffer_size a d = Ok d' → sound d'.
Proof.
  intros [[J Hinv] Hok] Ha E. split; [|by apply (step_bg_ok usage write_buffer_size a d)].
  destruct (step_spec usage write_buffer_size a d J Hinv) as (d2 & J2 & E2 & Hinv2 & _); [by destruct a | destruct a; try done; cbn; rewrite app_nil_r; apply Hinv|].
  rewrite E in E2. injection E2 as ->. by exists J2.
Qed.

(** Some schedule of these threads takes the group of the leader off the queue. *)
Definition drains (d : db) : Prop := ∃ more d', Forall own more ∧ run more d = Ok d' ∧ sound d' ∧
  (length (writers_ d') < length (writers_ d))%nat ∧ arrivals d' = arrivals d.

Lemma drains_step a d d' : own a → step usage write_buffer_size a d = Ok d' → writers_ d' = writers_ d → arrivals d' = arrivals d →
  drains d' → drains d.
Proof.
  intros Ha E Ew Ea (more & d2 & Hm & Hr & Hs & Hl & Hd). exists (a :: more), d2. split; [by constructor|].
  split; [unfold DbWrite.run in *; cbn [for_loop]; by rewrite E|]. rewrite <- Ew, <- Ea. done.
Qed.

Lemma drains_finish a d d' : sound d → own a → step usage write_buffer_size a d = Ok d' →
  (length (writers_ d') < length (writers_ d))%nat → arrivals d' = arrivals d → drains d.
Proof.
  intros Hs Ha E Hl Hd. exists [a], d'. split; [by repeat constructor|].
  split; [unfold DbWrite.run; cbn [for_loop]; by rewrite E|]. split; [by apply (step_sound a d)|done].
Qed.

Lemma run_thread_step i e d t : threads d !! i = Some t → step usage write_buffer_size (Run i e) d =
  match th_pc t with
  | Start => Ok (enter i d)
  | Waiting => wait i t d
  | MakingRoom allow_delay force => MakeRoomForWrite usage write_buffer_size i allow_delay force e d
  | WaitingForRoom _ _ => Ok d
  | AddingRecord g => add_record i g e d
  | Syncing g => sync_log i g e d
  | Inserting g calls st => insert_next i g calls st d
  | Relocking g st sync_error => relock i g st sync_error d
  | Returned _ => Ok d
  end.
Proof. intros H. cbn [step]. unfold run_thread. by rewrite H. Qed.

(** The leader [i] at [p]. *)
Definition leads (i : nat) (p : pc) (d : db) : Prop :=
  sound d ∧ head (writers_ d) = Some i ∧ ∃ w, threads d !! i = Some (mkThread w p) ∧ w_done w = false.

Lemma leads_goto i p q a d d' w : leads i p d → own a → step usage write_buffer_size a d = Ok (goto q i d') → writers_ d' = writers_ d →
  threads d' !! i = Some (mkThread w p) → w_done w = false → leads i q (goto q i d').
Proof.
  intros (Hs & Hh & _) Ha E Hw Ht Hd. split; [by apply (step_sound a d)|]. split; [cbn; by rewrite Hw|]. exists w. split; [|done].
  by rewrite (thread_goto _ _ _ _ Ht).
Qed.

Lemma drains_relock i g st e d : leads i (Relocking g st e) d → drains d.
Proof.
  intros Hlead. pose proof Hlead as (Hsound & Hh & w & Ht & Hd). pose proof Hsound as [[J Hinv] Hbg]. pose proof (relock_spec d J i _ g st e Hinv Hh Ht Hd eq_refl) as Hk.
  pose proof (run_thread_step i io_ok d _ Ht) as E. cbn [th_pc] in E. destruct Hk as (d' & J' & Er & Hinv' & EI).
  apply (drains_finish (Run i io_ok) d d'); [done | done | by rewrite E | |]; revert Er; unfold relock;
    set (d1 := if g_tmp g then _ else _); assert (writers_ d1 = writers_ d ∧ arrivals d1 = arrivals d) as [E1 E2]
      by (unfold d1, RecordBackgroundError; destruct (g_tmp g), e; try destruct (ok (bg_error_ d)); done);
    unfold SetLastSequence; destruct (last_sequence_ d1 <=? g_sequence g); try done; cbn [mbind outcome_bind];
    intros [H1 H2]%finish_group_queue; cbn in H1, H2; by rewrite ?E1, ?E2 in *.
Qed.

Lemma drains_insert i g calls st : ∀ d, leads i (Inserting g calls st) d → drains d.
Proof.
  induction calls as [|u calls IH]; intros d Hlead; pose proof Hlead as (Hsound & Hh & w & Ht & Hd); pose proof Hsound as [[J Hinv] Hbg];
    pose proof (insert_next_spec d J i _ g _ st Hinv Hh Ht Hd eq_refl) as Hk; cbn [insert_next] in Hk;
    pose proof (run_thread_step i io_ok d _ Ht) as E; cbn [th_pc insert_next] in E.
  - apply (drains_step (Run i io_ok) _ _ eq_refl E); try done. apply (drains_relock i g st false). by apply (leads_goto _ (Inserting g [] st) _ (Run i io_ok) d _ w Hlead).
  - apply (drains_step (Run i io_ok) _ _ eq_refl E); try done. apply IH. by apply (leads_goto _ (Inserting g (u :: calls) st) _ (Run i io_ok) d _ w Hlead).
Qed.

Lemma drains_sync i g d : leads i (Syncing g) d → drains d.
Proof.
  intros Hlead. pose proof Hlead as (Hsound & Hh & w & Ht & Hd). pose proof Hsound as [[J Hinv] Hbg]. pose proof (sync_log_spec d J i _ g io_ok Hinv Hh Ht Hd eq_refl) as Hk.
  pose proof (run_thread_step i io_ok d _ Ht) as E. cbn [th_pc] in E. unfold sync_log in *. unfold thread_at in *. rewrite Ht in *. cbn [mbind outcome_bind] in *.
  destruct (updates_of g _ d) as [up| | |]; try (by destruct Hk as (? & ? & ? & _)). cbn [mbind outcome_bind] in *. change (ok (sync_status io_ok)) with true in *. cbv iota in *.
  destruct (InsertInto memtable_add up []) as [r| | |]; try (by destruct Hk as (? & ? & ? & _)). cbn [mbind outcome_bind] in *.
  apply (drains_step (Run i io_ok) _ _ eq_refl E); try done. apply (drains_insert i g r.1 r.2). by apply (leads_goto _ (Syncing g) _ (Run i io_ok) d _ w Hlead).
Qed.

Lemma drains_add i g d : leads i (AddingRecord g) d → drains d.
Proof.
  intros Hlead. pose proof Hlead as (Hsound & Hh & w & Ht & Hd). pose proof Hsound as [[J Hinv] Hbg]. pose proof (add_record_spec d J i _ g io_ok Hinv Hh Ht Hd eq_refl) as Hk.
  pose proof (run_thread_step i io_ok d _ Ht) as E. cbn [th_pc] in E. unfold add_record in *. unfold thread_at in *. rewrite Ht in *. cbn [mbind outcome_bind] in *.
  destruct (updates_of g _ d) as [up| | |]; try (by destruct Hk as (? & ? & ? & _)). cbn [mbind outcome_bind] in *. change (ok (add_record_status io_ok)) with true in *. cbv iota in *.
  destruct (w_sync _).
  - apply (drains_step (Run i io_ok) _ _ eq_refl E); try done. apply (drains_sync i g). by apply (leads_goto _ (AddingRecord g) _ (Run i io_ok) d _ w Hlead).
  - destruct (InsertInto memtable_add up []) as [r| | |]; try (by destruct Hk as (? & ? & ? & _)). cbn [mbind outcome_bind] in *.
    apply (drains_step (Run i io_ok) _ _ eq_refl E); try done. apply (drains_insert i g r.1 r.2). by apply (leads_goto _ (AddingRecord g) _ (Run i io_ok) d _ w Hlead).
Qed.

Lemma drains_start i p st d : leads i p d → idle_pc p → step usage write_buffer_size (Run i io_ok) d = start_group i st d → drains d.
Proof.
  intros Hlead Hp E. pose proof Hlead as (Hsound & Hh & w & Ht & Hd). pose proof Hsound as [[J Hinv] Hbg]. destruct (leader_idle d J i _ Hinv Hh Ht Hp) as [Htmp Ha]. destruct (Hinv) as [Hc Hn _].
  pose proof (start_group_spec d J i _ st Hc Hn Hh Ht Hd Htmp Ha) as Hk.
  assert (∀ o, start_group i st d = o → o = finish_group i i st d → drains d) as Hfin.
  { intros o Eo Ef. rewrite Eo in *. destruct Hk as (d' & J' & -> & Hinv' & EI). symmetry in Ef. apply finish_group_queue in Ef as [Hl Hq].
    by apply (drains_finish (Run i io_ok) d d' Hsound eq_refl E). }
  unfold start_group in *. unfold thread_at in *. rewrite Ht in *. cbn [mbind outcome_bind th_writer] in *.
  destruct (w_batch w) as [b|]; [|by eapply Hfin]. destruct (ok st); [|by eapply Hfin]. clear Hfin.
  destruct (BuildBatchGroup d) as [r| | |]; try (by destruct Hk as (? & ? & ? & _)). cbn [mbind outcome_bind] in *.
  destruct (SetSequence _ _) as [up| | |]; try (by destruct Hk as (? & ? & ? & _)). cbn [mbind outcome_bind] in *.
  destruct (Count up) as [n| | |]; try (by destruct Hk as (? & ? & ? & _)). cbn [mbind outcome_bind] in *.
  set (d1 := if bool_decide (r.1 ≠ None) then set_tmp up d else update_thread (set_batch up) i d) in *.
  assert (writers_ d1 = writers_ d ∧ arrivals d1 = arrivals d) as [E1 E2] by (unfold d1; by case_bool_decide).
  assert (∃ w', threads d1 !! i = Some (mkThread w' p) ∧ w_done w' = false) as (w' & Ht1 & Hd1).
  { unfold d1. case_bool_decide; [by exists w|]. cbn. rewrite list_lookup_alter_eq, Ht. by eexists. }
  apply (drains_step (Run i io_ok) _ _ eq_refl E); [done | done|]. eapply drains_add. by apply (leads_goto i p _ (Run i io_ok) d _ w' Hlead).
Qed.

Lemma drains_room_fits i a d : leads i (MakingRoom a false) d → level0_files d < kL0_SlowdownWritesTrigger → usage (mem_ d) ≤ write_buffer_size → drains d.
Proof.
  intros Hl H0 Hu. pose proof Hl as (_ & _ & w & Ht & _). pose proof (run_thread_step i io_ok d _ Ht) as E. cbn [th_pc] in E.
  unfold MakeRoomForWrite in E. rewrite (proj2 (Z.leb_gt _ _) H0), andb_false_r, (proj2 (Z.leb_le _ _) Hu) in E. cbn [negb andb] in E.
  destruct (negb (ok (bg_error_ d))); by apply (drains_start i (MakingRoom a false) _ d Hl I E).
Qed.

Lemma drains_room i a f d : leads i (MakingRoom a f) d → level0_files d < kL0_SlowdownWritesTrigger → imm_ d = None → drains d.
Proof.
  intros Hl H0 Himm. pose proof Hl as (Hsound & Hh & w & Ht & Hd). pose proof (run_thread_step i io_ok d _ Ht) as E. cbn [th_pc] in E.
  unfold MakeRoomForWrite in E. assert (level0_files d < kL0_StopWritesTrigger) as H1 by (unfold kL0_SlowdownWritesTrigger, kL0_StopWritesTrigger in *; lia).
  rewrite (proj2 (Z.leb_gt _ _) H0), andb_false_r, (proj2 (Z.leb_gt _ _) H1), Himm in E.
  destruct (negb (ok (bg_error_ d))); [by apply (drains_start i (MakingRoom a f) _ d Hl I E)|].
  destruct (negb f && _); [by apply (drains_start i (MakingRoom a f) _ d Hl I E)|].
  unfold NewFileNumber in E. cbn [new_log_status io_ok] in E. change (ok status_ok) with true in E. cbv iota zeta in E.
  set (d1 := set_tables _ _ _ _) in E. destruct (MaybeScheduleCompaction_bg d1) as [b Eb]. rewrite Eb in E.
  apply (drains_step (Run i io_ok) _ _ eq_refl E); [done | done|]. apply (drains_room_fits i a); [|done|done].
  by apply (leads_goto i (MakingRoom a f) _ (Run i io_ok) d _ w Hl).
Qed.

(** The background thread wakes the leader. *)
Lemma leads_woken i p a d d1 : leads i p d → room_pc p → own a → step usage write_buffer_size a d = Ok d1 → writers_ d1 = writers_ d →
  threads d1 = map wake_room (threads d) → ∃ b f, leads i (MakingRoom b f) d1.
Proof.
  intros (Hs & Hh & w & Ht & Hd) Hp Ha E Ew Et. assert (∃ b f, wake_room (mkThread w p) = mkThread w (MakingRoom b f)) as (b & f & Ewake) by (destruct p; try done; by eexists _, _).
  exists b, f. split; [by apply (step_sound a d)|]. split; [by rewrite Ew|]. exists w. split; [|done]. by rewrite Et, list_lookup_fmap, Ht; cbn; rewrite Ewake.
Qed.

Lemma finish_background_fields d : threads (finish_background d) = map wake_room (threads d) ∧ writers_ (finish_background d) = writers_ d ∧
  arrivals (finish_background d) = arrivals d ∧ imm_ (finish_background d) = imm_ d ∧ level0_files (finish_background d) = level0_files d.
Proof. unfold finish_background. destruct (MaybeScheduleCompaction_bg (set_scheduled false (set_bg_pc BgIdle d))) as [b ->]. done. Qed.

(** A compaction of files makes room in level 0. *)
Lemma drains_compacting i p d : leads i p d → room_pc p → bg_pc (bg d) = BgCompacting → imm_ d = None → drains d.
Proof.
  intros Hl Hp Epc Em. set (d1 := set_manual false (install_version (Z.max 0 (level0_files d - Z.of_nat (Z.to_nat (level0_files d)))) false d)).
  destruct (finish_background_fields d1) as (E1 & E2 & E3 & E4 & E5).
  assert (step usage write_buffer_size (BgCompaction status_ok (Z.to_nat (level0_files d)) false) d = Ok (finish_background d1)) as E by (cbn [step]; unfold BackgroundCompaction; by rewrite Epc).
  destruct (leads_woken i p (BgCompaction status_ok (Z.to_nat (level0_files d)) false) d _ Hl Hp eq_refl E E2 E1) as (b & f & Hl1). apply (drains_step (BgCompaction status_ok (Z.to_nat (level0_files d)) false) d _ eq_refl E E2 E3).
  apply (drains_room i b f _ Hl1); [|by rewrite E4]. rewrite E5. cbn [d1 set_manual set_bg install_version set_other set_level0 level0_files]. unfold kL0_SlowdownWritesTrigger. lia.
Qed.

(** Without an old memtable there is room, or level 0 is due. *)
Lemma drains_no_imm i a f d : leads i (MakingRoom a f) d → imm_ d = None → drains d.
Proof.
  intros Hl Em. pose proof Hl as ([_ [Hpre Hwork]] & Hh & w & Ht & Hd). destruct (ok (bg_error_ d)) eqn:Eok.
  - destruct (decide (level0_files d < kL0_SlowdownWritesTrigger)) as [H0|H0]; [by apply (drains_room i a f)|].
    assert (bg_compaction_scheduled_ (bg d) = true) as Es.
    { apply Hwork; [done|]. unfold NeedsCompaction. rewrite (proj2 (Z.leb_le _ _)); [by rewrite !orb_true_r|]. unfold kL0_CompactionTrigger, kL0_SlowdownWritesTrigger in *. lia. }
    destruct (bg_pc (bg d)) eqn:Epc; [|pose proof (g_memtable _ Hpre Epc) as Hm; unfold has_imm in Hm; by rewrite Em in Hm | by apply (drains_compacting i (MakingRoom a f) d)].
    assert (step usage write_buffer_size BgCall d = Ok (set_bg_pc BgCompacting d)) as E by (cbn [step]; unfold BackgroundCall, has_imm; by rewrite Epc, Es, Eok, Em).
    apply (drains_step BgCall _ _ I E); [done | done|]. apply (drains_compacting i (MakingRoom a f)); [|done..].
    split; [exact (step_sound BgCall d _ (proj1 Hl) I E)|]. split; [done|]. by exists w.
  - pose proof (run_thread_step i io_ok d _ Ht) as E. cbn [th_pc] in E. unfold MakeRoomForWrite in E. rewrite Eok in E.
    by apply (drains_start i (MakingRoom a f) _ d Hl I E).
Qed.

(** A running background thread makes room. *)
Lemma drains_running i p d : leads i p d → room_pc p → bg_pc (bg d) ≠ BgIdle → drains d.
Proof.
  intros Hl Hp Hpc. pose proof Hl as ([_ [Hpre _]] & _). pose proof (g_memtable _ Hpre) as Hmem. unfold has_imm in Hmem.
  assert (∀ a d1, own a → step usage write_buffer_size a d = Ok d1 → writers_ d1 = writers_ d → arrivals d1 = arrivals d →
    threads d1 = map wake_room (threads d) → imm_ d1 = None → drains d) as Hgo.
  { intros a d1 Ha E Ew Er Et Ei. destruct (leads_woken i p a d d1 Hl Hp Ha E Ew Et) as (b & f & Hl1).
    apply (drains_step a d d1 Ha E Ew Er). by apply (drains_no_imm i b f d1 Hl1). }
  destruct (imm_ d) as [m|] eqn:Em.
  - set (d0 := install_version (level0_files d + 0) false (set_tables (mem_ d) None (flushed d ++ m) d)). destruct (bg_pc (bg d)) eqn:Epc; [done|..].
    + destruct (finish_background_fields d0) as (E1 & E2 & E3 & E4 & E5).
      apply (Hgo (BgCompactMemTable status_ok false false) (finish_background d0) eq_refl); [cbn [step]; unfold CompactMemTable; rewrite Epc, Em; reflexivity|..]; assumption.
    + apply (Hgo (BgCompactMemTable status_ok false false) (signal_all d0) eq_refl); [cbn [step]; unfold CompactMemTable; rewrite Epc, Em; reflexivity|..]; reflexivity.
  - destruct (bg_pc (bg d)) eqn:Epc; [done | by specialize (Hmem eq_refl) | by apply (drains_compacting i p)].
Qed.

Lemma drains_making_room i p d : leads i p d → room_pc p → drains d.
Proof.
  intros Hl Hp. pose proof Hl as ([_ [Hpre Hwork]] & Hh & w & Ht & Hd). destruct (ok (bg_error_ d)) eqn:Eok.
  - destruct (decide (has_imm d = true ∨ kL0_CompactionTrigger ≤ level0_files d)) as [Hdue|Hidle].
    + assert (bg_compaction_scheduled_ (bg d) = true) as Es.
      { apply Hwork; [done|]. unfold NeedsCompaction. destruct Hdue as [->|Hdue]; [done|]. rewrite (proj2 (Z.leb_le _ _) Hdue). by rewrite !orb_true_r. }
      destruct (bg_pc (bg d)) eqn:Epc; [|apply (drains_running i p d Hl Hp); congruence..].
      assert (step usage write_buffer_size BgCall d = Ok (set_bg_pc (if has_imm d then BgMemTable else BgCompacting) d)) as E.
      { cbn [step]. unfold BackgroundCall. by rewrite Epc, Es, Eok. }
      apply (drains_step BgCall _ _ I E); [done | done|]. apply (drains_running i p); [|done | cbn; by destruct (has_imm d)].
      split; [exact (step_sound BgCall d _ (proj1 Hl) I E)|]. split; [done|]. by exists w.
    + assert (level0_files d < kL0_CompactionTrigger) as H0 by lia. unfold kL0_CompactionTrigger in H0. destruct p as [| |a f|a f|g|g|g calls st|g st e|st]; try done.
      * apply (drains_room i a f d Hl); [unfold kL0_SlowdownWritesTrigger; lia|]. destruct (imm_ d) eqn:E; [|done]. destruct Hidle. left. unfold has_imm. by rewrite E.
      * destruct (g_room _ Hpre i _ a f Ht eq_refl) as [_ [?|?]]; destruct Hidle; [by left|]. right. unfold kL0_CompactionTrigger, kL0_StopWritesTrigger in *; lia.
  - destruct p as [| |a f|a f|g|g|g calls st|g st e|st]; try done.
    + pose proof (run_thread_step i io_ok d _ Ht) as E. cbn [th_pc] in E. unfold MakeRoomForWrite in E. rewrite Eok in E.
      by apply (drains_start i (MakingRoom a f) _ d Hl I E).
    + destruct (g_room _ Hpre i _ a f Ht eq_refl). congruence.
Qed.

Lemma drains_any d : sound d → writers_ d ≠ [] → drains d.
Proof.
  intros Hsound Hq. pose proof Hsound as [[J Hinv] Hbg]. destruct (head (writers_ d)) as [i|] eqn:Hh; [|by destruct (writers_ d)]. pose proof (head_in_queue d i Hh) as Hi.
  pose proof (i_core _ _ Hinv) as Hc. pose proof (queue_disjoint d J i Hc Hi) as HJ. destruct (queue_threads d J i Hc Hi) as ([w p] & Ht & _).
  pose proof (k_threads _ _ Hc i _ Ht) as Hok. assert (i ∈ arrivals d) as Ha by (rewrite (k_queue _ _ Hc); apply elem_of_app; by right).
  assert (w_done w = false → leads i p d) as Hl by (intros Hd; split; [done|]; split; [done|]; by exists w).
  unfold thread_ok in Hok. cbn [th_pc th_writer] in Hok. destruct p as [| |a f|a f|g|g|g calls st|g st e|st]; try (destruct Hok as [_ Hd]; specialize (Hl Hd)).
  - by destruct Hok.
  - destruct Hok as (_ & Hdone & Hsig). assert (w_done w = false) as Hd by (apply not_true_is_false; by rewrite Hdone).
    pose proof (run_thread_step i io_ok d _ Ht) as E. pose proof (wait_spec d J i _ Hinv Ht eq_refl) as Hk. cbn [th_pc] in E. unfold wait in E, Hk.
    cbn [th_writer] in E, Hk. rewrite Hsig, Hd in E, Hk by (by right). destruct (writers_ d) as [|x ws] eqn:Ew; [done|]. injection Hh as ->.
    rewrite bool_decide_true in E, Hk by done. apply (drains_step (Run i io_ok) _ _ eq_refl E); try done. apply (drains_making_room i (MakingRoom (negb (bool_decide (w_batch w = None))) (bool_decide (w_batch w = None)))); [|exact I].
    apply (leads_goto i Waiting _ (Run i io_ok) d _ w (Hl Hd)); try done; by rewrite Ew.
  - by apply (drains_making_room i _ d Hl).
  - by apply (drains_making_room i _ d Hl).
  - by apply (drains_add i g).
  - by apply (drains_sync i g).
  - by apply (drains_insert i g calls st).
  - by apply (drains_relock i g st e).
  - done.
Qed.

Lemma drain_all n : ∀ d, (length (writers_ d) ≤ n)%nat → sound d →
  ∃ more d', Forall own more ∧ run more d = Ok d' ∧ sound d' ∧ writers_ d' = [] ∧ arrivals d' = arrivals d.
Proof.
  induction n as [|n IH]; intros d Hn Hs.
  { exists [], d. by destruct (writers_ d) eqn:E; [|cbn in Hn; lia]. }
  destruct (decide (writers_ d = [])) as [Hw|Hw]; [by exists [], d|].
  destruct (drains_any d Hs Hw) as (m1 & d1 & Hm1 & E1 & Hs1 & Hl & Ha).
  destruct (IH d1) as (m2 & d2 & Hm2 & E2 & Hs2 & Hw2 & Ha2); [lia | done|].
  exists (m1 ++ m2), d2. split; [by apply Forall_app|]. split; [|by rewrite Ha2].
  unfold DbWrite.run in *. by rewrite for_loop_app, E1.
Qed.
End drain.

(** C3: Group commit.  In every interleaving of the calls of [Write], of spurious wake-ups
    and of the background thread, with any results of the file operations, no step is
    undefined, and there is a journal of the served calls such that: the calls are served
    once each and in the order in which they entered the queue; the sequence numbers of the
    inserted updates increase without overlap up to [last_sequence_]; the memtables and
    flushed updates are those of the journal, followed by updates of the running group with
    sequence numbers that no reader sees yet; a call that returns [OK] has its updates
    inserted, and in a record of the log before that; if it asked for [sync] the record is
    durable; a call that returns an error has nothing inserted, also when another writer
    served it; and no wake-up is lost: a writer that is served or at the front is signaled. *)
Theorem group_commit usage write_buffer_size n actions (Hok : Forall call_ok actions)
    (Hmax : Z.of_nat (total (concat (map call_info actions))) ≤ kMaxSequenceNumber) :
  ∃ d J, run usage write_buffer_size actions (initial n) = Ok d ∧ infos d = concat (map call_info actions) ∧ consistent d J.
Proof.
  destruct (run_spec usage write_buffer_size actions (initial n) [] (initial_inv n) Hok Hmax) as (d & J & E & Hinv & EI).
  exists d, J. split; [done|]. split; [done|]. by apply inv_consistent.
Qed.

(** Two writers in one group: the first inserts the updates of both. *)
Definition put_batch (k v : String.string) : list byte := match Put Clear (str k) (str v) with Ok b => b | _ => [] end.
Definition demo_actions : list action :=
  [Call (Some (put_batch "a" "1")) false; Call (Some (put_batch "b" "2")) false; Run 0 io_ok; Run 1 io_ok; Run 1 io_ok; Spurious 1] ++
  replicate 7 (Run 0 io_ok) ++ [Run 1 io_ok].

Lemma demo_batch_ok (k v : String.string) : length (str k) = 1%nat → length (str v) = 1%nat → ∃ seq us, batch_repr (put_batch k v) seq us ∧ blen (put_batch k v) < 2 ^ 63.
Proof.
  intros Hk Hv. unfold put_batch. destruct (Put_repr Clear 0 [] (str k) (str v) Clear_repr) as (b & -> & Hb); [cbn; unfold blen; lia | done|].
  exists 0, [UPut (str k) (str v)]. split; [done|]. destruct Hb as (-> & _). destruct (str k) as [|x [|]], (str v) as [|y [|]]; done.
Qed.

Lemma group_commit_witness :
  ∃ d J, run (λ m, Z.of_nat (length m)) 4194304 demo_actions (initial 2) = Ok d ∧ consistent d J ∧
    map th_pc (threads d) = [Returned status_ok; Returned status_ok] ∧ length (log_records d) = 1%nat ∧
    mem_ d = [mkUpd 1 kTypeValue (str "a") (str "1"); mkUpd 2 kTypeValue (str "b") (str "2")] ∧ last_sequence_ d = 2.
Proof.
  assert (match run (λ m, Z.of_nat (length m)) 4194304 demo_actions (initial 2) with
    | Ok d => map th_pc (threads d) = [Returned status_ok; Returned status_ok] ∧ length (log_records d) = 1%nat ∧
        mem_ d = [mkUpd 1 kTypeValue (str "a") (str "1"); mkUpd 2 kTypeValue (str "b") (str "2")] ∧ last_sequence_ d = 2
    | _ => False end) as H by (vm_compute; repeat split).
  destruct (group_commit (λ m, Z.of_nat (length m)) 4194304 2 demo_actions) as (d & J & E & _ & Hc).
  - repeat constructor; by apply demo_batch_ok.
  - vm_compute. discriminate.
  - rewrite E in H. exists d, J. split; [exact E|]. split; [exact Hc | exact H].
Defined.

(** A leader that waits for room waits for the background thread. *)
Lemma room_scheduled d : bg_ok d → ∀ i t a f, threads d !! i = Some t → th_pc t = WaitingForRoom a f → bg_compaction_scheduled_ (bg d) = true.
Proof.
  intros [Hpre Hwork] i t a f Ht Hp. destruct (g_room _ Hpre i t a f Ht Hp) as [Eok Hr]. apply Hwork; [done|]. unfold NeedsCompaction. destruct Hr as [->|Hr]; [done|].
  rewrite (proj2 (Z.leb_le _ _)); [by rewrite !orb_true_r|]. unfold kL0_CompactionTrigger, kL0_StopWritesTrigger in *. lia.
Qed.

(** C12: No deadlock.  In every reachable state, the threads in the queue and the background
    thread can run on until the queue is empty and every call that entered it is served; it
    then returns when it runs next, or has returned.  They do so without a new call, without
    a spurious wake-up and without any other thread: a sleeping writer runs only after a
    [Signal], a leader that waits for room only after a [SignalAll], and the background
    thread only when [MaybeScheduleCompaction] has scheduled it, as it has whenever a leader
    waits for room.  No file operation has to fail for this. *)
Theorem queue_drains usage write_buffer_size n actions (Hok : Forall call_ok actions)
    (Hmax : Z.of_nat (total (concat (map call_info actions))) ≤ kMaxSequenceNumber) (Husage : usage [] ≤ write_buffer_size) :
  ∃ d more d', run usage write_buffer_size actions (initial n) = Ok d ∧
    (∀ i t a f, threads d !! i = Some t → th_pc t = WaitingForRoom a f → bg_compaction_scheduled_ (bg d) = true) ∧
    Forall own more ∧ run usage write_buffer_size more d = Ok d' ∧ writers_ d' = [] ∧ arrivals d' = arrivals d ∧
    ∀ i, i ∈ arrivals d → ∃ t st, threads d' !! i = Some t ∧ outcome_of t = Some st ∧ (th_pc t = Waiting → w_signaled (th_writer t) = true).
Proof.
  destruct (run_spec usage write_buffer_size actions (initial n) [] (initial_inv n) Hok Hmax) as (d & J & E & Hinv & _).
  pose proof (run_bg_ok usage write_buffer_size actions _ _ (initial_bg_ok n) E) as Hbg.
  destruct (drain_all usage write_buffer_size Husage _ d (le_n _)) as (more & d' & Hm & E' & [[J' Hinv'] _] & Hw & Ha); [split; [by exists J | done]|].
  exists d, more, d'. split_and!; try done; [by apply room_scheduled|]. intros i Hi. pose proof (i_core _ _ Hinv') as Hc. rewrite <- Ha, (k_queue _ _ Hc), Hw, app_nil_r in Hi.
  apply list_elem_of_fmap in Hi as (j & -> & Hj). destruct (k_journal _ _ Hc j Hj) as (t & st & Ht & Ho & _). exists t, st. split; [done|]. split; [done|].
  pose proof (k_threads _ _ Hc _ t Ht) as Hok'. unfold thread_ok, outcome_of in *. intros Hp. rewrite Hp in *. destruct (w_done (th_writer t)) eqn:Ed; [|done].
  apply Hok'. by left.
Qed.

(** The memtable is full and the one before it still there: the leader waits for room, and
    another writer sleeps behind it. *)
Definition demo_waiting : list action :=
  [Call None false; Call None false; Call (Some (put_batch "a" "1")) false] ++ map (λ i, Run i io_ok) [0; 1; 2; 0; 0; 0; 1; 1; 2; 1]%nat ++ [BgCall].

Lemma queue_drains_witness :
  ∃ d more d', run (λ m, Z.of_nat (length m)) 4194304 demo_waiting (initial 2) = Ok d ∧ writers_ d = [1; 2]%nat ∧
    map th_pc (threads d) = [Returned status_ok; WaitingForRoom false true; Waiting] ∧ map (λ t, w_signaled (th_writer t)) (threads d) = [true; true; false] ∧
    Forall own more ∧ run (λ m, Z.of_nat (length m)) 4194304 more d = Ok d' ∧ writers_ d' = [].
Proof.
  assert (match run (λ m, Z.of_nat (length m)) 4194304 demo_waiting (initial 2) with
    | Ok d => writers_ d = [1; 2]%nat ∧ map th_pc (threads d) = [Returned status_ok; WaitingForRoom false true; Waiting] ∧
        map (λ t, w_signaled (th_writer t)) (threads d) = [true; true; false]
    | _ => False end) as H by (vm_compute; repeat split).
  destruct (queue_drains (λ m, Z.of_nat (length m)) 4194304 2 demo_waiting) as (d & more & d' & E & _ & Hm & E' & Hw & _).
  - repeat constructor; by apply demo_batch_ok.
  - vm_compute. discriminate.
  - done.
  - rewrite E in H. destruct H as (H1 & H2 & H3). exists d, more, d'. split; [exact E|]. split; [exact H1|]. split; [exact H2|]. split; [exact H3|].
    split; [exact Hm|]. split; [exact E' | exact Hw].
Defined.
